(* ===== verification/_CoqProject ===== *)
-Q . S2P
Prelude.v
Galois.v
Linear.v
ReedSolomon.v
Erasure.v
Codec.v
RateLimit.v
Cid.v
Wire.v
Framing.v
Fifo.v
F64.v
Ledger.v
Meter.v
PushFrame.v
Signer.v
Stamp.v
Challenge.v
Swap.v
InboundLimit.v
Metered.v
Chain.v
Relay.v
Feed.v
Protocols.v
Peers.v
Dnsaddr.v
Window.v
Discovery.v
Hive.v
BeeHandshake.v
Manifest.v
ManifestProps.v
PushSched.v
PushSchedInv.v
Retrieval.v
Cheques.v
Session.v
SessionPool.v
PoolFill.v
Upload.v
Payer.v
PayerMirror.v
PayerSafe.v
Handshake.v
Joiner.v
JoinerProps.v
ChunkTree.v
Replicas.v
ReplicasProps.v
Encoder.v
Prepare.v
Lanes.v
LanesInv.v
RelayUpload.v
RelayPush.v
Cli.v
Daemon.v
Bridge.v
Browser.v
Server.v
EncoderSim.v
SplitTree.v
SplitJoin.v
Download.v
