(* ===== verification/Prelude.v ===== *)
(** * Hoverfly: a verification development (root file and shared prelude)

    Hoverfly is a light client and relay for the Swarm storage network.  A client
    splits an object into chunks, stamps them and pushes them to the peers it holds
    sessions with, or through relays ("lanes"); a relay checks the stamps, forwards the
    chunks, meters what it did and is paid by cumulative cheques.  A client reads
    objects back from the network, through manifests and feeds.  This library models
    the program's own logic; the network, the chain, hashing and signing are
    parameters.

    ** Parts and files (paths under src/src/)

    Erasure coding.
    - [Galois], [Linear], [ReedSolomon]: erasure/reedsolomon.rs, the field tables, the
      matrices, [encode] and [reconstruct_data].
    - [Erasure]: erasure/mod.rs, levels, tables, spans, reference counts, payloads.
    - [Encoder] (operations), [EncoderSim] (simulation by pending subtrees),
      [SplitTree] (the tree is well formed): erasure/encoder.rs.
    - [Joiner] (operations), [JoinerProps] (children of one node): erasure/joiner.rs.
    - [Replicas], [ReplicasProps]: erasure/replicas.rs.
    - [ChunkTree]: the abstract object, a tree of chunks, that the splitter writes
      and the joiner reads.  [SplitJoin] composes the two.

    Relay.
    - [Ledger]: ledger.rs, the accounts, their operations and the durable form.
    - [Meter]: meter.rs.  [Fifo]: the bounded maps of meter.rs and metered.rs.
    - [Challenge], [Signer], [Stamp], [PushFrame], [Swap], [InboundLimit]: the files of
      the same names ([Swap] is protocols/swap.rs).  [F64]: binary64.
    - [Metered]: metered.rs, the payment state shared by the handlers.
    - [Chain]: batch.rs, batches and chequebooks on the chain: sizes and prices, reads,
      purchases, transactions and their receipts.
    - [Relay]: pusher.rs, the push, pay, account and challenge handlers as functions
      of the payment state; they call [Metered], [Meter], [Stamp], [PushFrame], [Swap].

    Peers and protocols.
    - [Wire]: handlers as programs on a stream, and two of them over a channel.
      [Framing]: protocols/framing.rs.  [Protocols]: pushsync, retrieval, pricing,
      pseudosettle, status and the cheque stream with their messages (protocols/,
      proto/), inbound.rs and cache.rs.  [Hive]: protocols/hive.rs.  [BeeHandshake]:
      protocols/handshake.rs with the responder of transport.rs.
    - [Peers]: peers.rs.  [RateLimit]: ratelimit.rs.  [Dnsaddr]: doh.rs, dnsaddr.rs.
      [Cid]: cid.rs.
    - [Session]: transport.rs, one session with a peer: what it owes, its settlements,
      its cheques, its retirement, as a machine of tasks.

    Client.
    - [PushSched], [PushSchedInv]: pushsched.rs, the scheduler of lanes and the states
      it reaches.  [Lanes], [LanesInv]: the driver of the relays in client.rs
      ([drive_pushers]) between the scheduler, the payers and the open POSTs.
      [RelayUpload]: the uploads that run it.  [RelayPush]: the end of a push at the relay
      (pusher.rs, [run_push]) and the two sides together.
    - [Cheques]: cheques.rs.  [Payer]: payer.rs, the lane account and payment loop.
      [PayerSafe]: the loop against an arbitrary relay.  [PayerMirror]: the client's
      account together with the relay's ledger.
    - [Handshake]: quotes and challenges between [Payer] and [Relay]/[Metered].
    - [Prepare]: client.rs and manifest.rs, an object or a collection split, listed in a
      manifest and stamped, at once or in windows.
    - [SessionPool] (what is known of each session, the order of the peers), [PoolFill]
      (filling the pool), [Upload] (the race of one chunk, the loop over all): the
      upload to peers of client.rs.  [Window]: the loops over a window of futures they
      share.  [Discovery]: the rounds of gossip of client.rs.
    - [Retrieval]: client.rs, the race for one chunk.  [Manifest], [ManifestProps]:
      manifest.rs and the walks of client.rs.  [Feed]: feed.rs, the search for the
      latest update.  [Download]: client.rs, references, paths and feeds served with
      all of these and the joiner.

    Around them.
    - [Cli]: bin/hoverfly.rs, what an upload prepares on each of the ways it can take, the
      nonce file, pins and amounts.  [Daemon]: daemon.rs, the process that keeps a pool for
      others, and its client.  [Bridge]: bridge.rs, swaps of a relay service executed on
      another chain; it shares the transactions of [Chain].  [Browser]: wasm.rs, the upload
      session that JavaScript drives over the same scheduler and frames as [Lanes].
      [Server]: pusher.rs, what surrounds the handlers of a relay: routing, the start of
      metered mode, accepting, the warm pool and the measuring endpoints.

    [Prelude] and [Codec] hold what the components share: results and their [let?],
    machine integers, byte strings, text codecs, and the hint databases.

    ** How code is modelled

    A struct is a [Record] with the source's fields, an enum an [Inductive] with its
    variants, a [Result] the type [result]; [?] is [let?].  A method that mutates
    [self] takes and returns the record.  A w-bit integer is a [Z] with the wrap of
    the release profile written out; [saturating_*] and [checked_*] are explicit.
    Byte strings are lists of [Z].  A panic of the source (an index out of range) is
    an error value, and the theorems show it is not reached.  What the source leaves
    open is an argument quantified over in the theorems: the order in which
    concurrent fetches or probes complete, the iteration order of a [HashMap], the
    time a clock shows, where a write to disk fails, what the chain and the other
    side answer.

    ** What the theorems show

    - Erasure: any data-many shards of a codeword recover the data; a split followed
      by a join returns the object from any chunks left that keep enough siblings of
      each node; a lost root comes back from any one replica; replicas are dispersed
      and a narrower level's replicas come first in a wider search.
    - Payments at the relay: conservation of every account over all reachable
      ledgers, bounded exposure in hard mode over every interleaving of requests,
      crediting only funded, fresh and owned cheques, durability under faults of the
      disk, and that a debtor can always pay.
    - Chain: a purchase sends nothing that what was read does not allow, and exactly the
      approval and the purchase asked for.
    - Admission: only frames stamped by the owner of the challenged batch are taken;
      challenges and stamps bind their fields; decoding inverts encoding.
    - Payments at the client: the client's account refines the relay's ledger, no
      relay makes it promise more than it holds, requests are sized exactly, the
      store of cheques survives faults.
    - Scheduling: no chunk is lost in any reachable state, settled chunks stay
      settled, no deadlock, assignments fit; and the counter defect that lets
      completion be reported early.
    - Uploads: through relays, from a browser or to peers, success means an
      acknowledgement for every chunk; end to end, that a relay's own upload delivered it; POSTs and dispatches
      carry what the bookkeeping says; the loops end.  The
      windows of a streamed upload are together the upload prepared at once, and a
      relay refuses none of the chunks a client prepared under its own batch.
    - Sessions: exposure and promises bounded whatever a peer answers and however tasks
      interleave, and every task of a session ends.  Handshakes complete in every
      interleaving; a receipt binds its chunk; dials stay within the remote allowance.
    - Downloads: a chunk that is returned is authentic; what was split and stored is
      what its path serves, less tolerable losses; a manifest node decodes to what its
      layout holds, and listing and lookup agree.
    - Commands: the ways of an upload agree on its reference, but for two exceptions; a
      conversation with the daemon ends and tells everything; what the daemon keeps is
      well formed in every state it can reach; its maintenance and its suggestions are
      bounded; a bridge does what was planned, in order, and nothing else.
    - Serving: a relay that boots metered keeps its terms from then on; connections, the warm
      pool and what a probe may start are bounded; measurements count every attempt once.
    - Feeds: the head is found from any hint and any completion order; for arbitrary
      answers resolution terminates with a justified outcome.

    ** Fuel and bounds

    Loops that are not structural run on fuel, and the theorems show it suffices:
    [Feed] gallops on 600 rounds (a round advances at least one band towards the
    bound on indices) and narrows on 64 (each round shrinks the bracket); the loops
    of [reference_count] run on 64 and 256 (a power of at least 39 reaches 2^56 in
    fewer steps; a node has at most 128 children); [decode_batch] runs on the length
    of its input; the race and the plain loop of [Joiner] on the number of
    references, since each completion removes one; [read_node] on the depth of the
    tree, at most 7 for what a split writes; the splitter climbs one of ten trie
    levels per call; the replica search on its 255 mined bytes; [drain_lines] of
    [Lanes] on the length of its buffer; the wait for a receipt in [Chain] on one poll
    for every three seconds of its timeout, and those of [Bridge] on one for every two; a
    conversation of [Daemon] on a turn for each update and each poll of the upload; the
    refilling of a [Browser] session on more than the length of its stream.  The loops of
    the driver of the relays run on fuel as well: feeding ends within the length of the source and handing out work
    within the room of the lanes; how long the whole run takes is the relays' matter,
    so a run may also end waiting.  The walks of [Manifest] take fuel because a
    manifest may refer to itself; on a tree its height is enough.  [Retrieval],
    [Session], [SessionPool], [PoolFill], [Upload] and [Discovery] are machines without
    fuel, over the events of the environment.  Objects are shorter than 2^56 bytes (the
    length field of a span) and have at most [max_shards]^7 chunks (the capacity of
    the trie).

    ** Parameters and their laws

    Keccak-256, the BMT hasher, secp256k1 recovery, EIP-712 hashing ([Crypto] of
    [Signer]); the hex, base64 and JSON codecs, by the round trips their documentation
    gives; prost's encoding of messages ([MessageLaws]); libp2p's multiaddresses;
    nectar's proximity, plain splitter and joiner, manifest writer and stamp issuer
    ([IssuerLaws]); the signer of the client ([Wallet]); a source of chunks
    ([ChunkSource], met by both sources of the program); the lines of a relay's answer
    ([LineLaws]) and the messages of the daemon ([WireLaws]); how a pool is filled
    ([FillerLaws], met by [PoolFill]); content and single-owner
    chunks (address, and a prefix before the wrapped chunk).  Hashes are never assumed
    injective: a theorem that needs it exhibits the collision or assumes that the
    chunks at hand have distinct addresses.  Each theorem with such a hypothesis has
    a witness with a concrete instance.

    ** Not modelled

    Sockets, dialling and the event loops of libp2p (the rest of transport.rs, the
    listener of inbound.rs, wsws/), the HTTP transport, the status page and the
    diagnostic counters of the relay (the rest of pusher.rs), the parsing of human-readable sizes and
    durations (batch.rs), node start, discovery and fetching in the browser (the rest of
    wasm.rs, idb_chunk_store.rs), the socket
    and tasks of the daemon (the rest of daemon.rs), the command line and its printing (the
    rest of bin/, lib.rs): input and output around the modelled parts, whose behaviour is
    that of the libraries they call.  Logs, progress callbacks, histograms and the floating-point
    figures of the meter's report are left out everywhere. *)
From Stdlib Require Import ZArith Lia.
From stdpp Require Import base tactics numbers strings list gmap sorting.
Local Open Scope Z_scope.

(** ** Results: the [Result<T, E>] of the source and its [?] operator *)

Inductive result (A E : Type) : Type :=
| Ok (a : A)
| Err (e : E).
Arguments Ok {A E} a.
Arguments Err {A E} e.

Definition result_bind {A B E : Type} (r : result A E) (k : A -> result B E) : result B E :=
  match r with Ok a => k a | Err e => Err e end.

Definition map_err {A E F : Type} (f : E -> F) (r : result A E) : result A F :=
  match r with Ok a => Ok a | Err e => Err (f e) end.

Definition is_ok {A E : Type} (r : result A E) : bool :=
  match r with Ok _ => true | Err _ => false end.

Declare Scope hov_scope.
Delimit Scope hov_scope with hov.
Notation "'let?' x := r 'in' k" := (result_bind r (fun x => k))
  (at level 10, x pattern, r at level 100, k at level 200) : hov_scope.

(** ** Machine integers

    An unsigned [w]-bit integer is a [Z] in [0, 2^w).  Plain [+], [-], [*] of
    the source wrap (release profile); the [saturating_*] and [checked_*]
    methods are written out. *)

Abbreviation U8_MAX := 255.
Abbreviation U16_MAX := 65535.
Abbreviation U32_MAX := 4294967295.
Abbreviation U64_MAX := 18446744073709551615.
Abbreviation U128_MAX := 340282366920938463463374607431768211455.

Definition wrap (w : Z) (z : Z) : Z := z mod 2 ^ w.
Definition sat_add (m a b : Z) : Z := Z.min m (a + b).
Definition sat_sub (a b : Z) : Z := Z.max 0 (a - b).
Definition sat_mul (m a b : Z) : Z := Z.min m (a * b).
Definition checked_add (m a b : Z) : option Z := if a + b <=? m then Some (a + b) else None.
(** [u64::div_ceil]. *)
Definition div_ceil (a b : Z) : Z := (a + b - 1) / b.

Abbreviation u8 z := (0 <= z <= U8_MAX).
Abbreviation u64 z := (0 <= z <= U64_MAX).
Abbreviation u128 z := (0 <= z <= U128_MAX).
Abbreviation sat_add64 := (sat_add U64_MAX).
Abbreviation sat_add128 := (sat_add U128_MAX).

(** ** Bytes *)

Abbreviation bytes := (list Z).
Definition is_byte (b : Z) : Prop := 0 <= b < 256.
Abbreviation all_bytes l := (Forall is_byte l).

(** [to_le_bytes] / [from_le_bytes] of an [n]-byte integer. *)
Fixpoint to_le_bytes (n : nat) (z : Z) : bytes :=
  match n with
  | O => []
  | S n' => z mod 256 :: to_le_bytes n' (z / 256)
  end.

Fixpoint from_le_bytes (l : bytes) : Z :=
  match l with
  | [] => 0
  | b :: l' => b + 256 * from_le_bytes l'
  end.

(** [to_be_bytes] / [from_be_bytes]. *)
Definition to_be_bytes (n : nat) (z : Z) : bytes := reverse (to_le_bytes n z).
Definition from_be_bytes (l : bytes) : Z := from_le_bytes (reverse l).

(** The order of byte strings and of text: lexicographic. *)
Fixpoint lex_le (a b : list Z) : bool :=
  match a, b with
  | [], _ => true
  | _ :: _, [] => false
  | x :: a', y :: b' => (x <? y) || ((x =? y) && lex_le a' b')
  end.

(** ** Strings: a [str] is its list of Unicode scalar values *)

Abbreviation str := (list Z).

Fixpoint lit (s : String.string) : str :=
  match s with
  | String.EmptyString => []
  | String.String c s' => Z.of_N (Ascii.N_of_ascii c) :: lit s'
  end.

Arguments lit s%_string_scope.

(** [char::is_whitespace]: the Unicode property White_Space. *)
Definition is_whitespace (c : Z) : bool :=
  ((9 <=? c) && (c <=? 13)) || (c =? 32) || (c =? 0x85) || (c =? 0xa0) || (c =? 0x1680) ||
  ((0x2000 <=? c) && (c <=? 0x200a)) || (c =? 0x2028) || (c =? 0x2029) || (c =? 0x202f) ||
  (c =? 0x205f) || (c =? 0x3000).

Fixpoint trim_start (s : str) : str :=
  match s with
  | c :: s' => if is_whitespace c then trim_start s' else s
  | [] => []
  end.

(** [str::trim]. *)
Definition trim (s : str) : str := reverse (trim_start (reverse (trim_start s))).

(** [str::to_ascii_lowercase]. *)
Definition ascii_lower (c : Z) : Z := if (65 <=? c) && (c <=? 90) then c + 32 else c.
Definition to_ascii_lowercase (s : str) : str := map ascii_lower s.

(** [str] equality as a test. *)
Definition str_eqb (a b : str) : bool := bool_decide (a = b).

(** Filtering keeps a subsequence. *)
Lemma filter_sublist {A} (f : A -> bool) l : List.filter f l `sublist_of` l.
Proof. induction l as [|x l IH]; [done|]. cbn. destruct (f x); by constructor. Qed.

(** [str::strip_prefix]. *)
Fixpoint strip_prefix (p s : str) : option str :=
  match p, s with
  | [], _ => Some s
  | c :: p', d :: s' => if c =? d then strip_prefix p' s' else None
  | _ :: _, [] => None
  end.

(** [str::contains]. *)
Fixpoint contains (needle s : str) : bool :=
  match s with
  | [] => bool_decide (needle = [])
  | _ :: s' => bool_decide (is_Some (strip_prefix needle s)) || contains needle s'
  end.

(** [str::trim_start_matches("0x")]: the prefix is removed as often as it occurs. *)
Fixpoint trim_0x (s : str) : str :=
  match s with
  | 48 :: 120 :: s' => trim_0x s'
  | _ => s
  end.

(** ** Tactics *)

Lemma result_bind_Ok {A B E : Type} (r : result A E) (k : A -> result B E) b :
  result_bind r k = Ok b -> exists a, r = Ok a /\ k a = Ok b.
Proof. destruct r; [eauto|done]. Qed.

Lemma map_err_Ok {A E F : Type} (f : E -> F) (r : result A E) a : map_err f r = Ok a -> r = Ok a.
Proof. destruct r; [by intros [= ->]|done]. Qed.

(** Unfold the saturating operations and close the goal by linear arithmetic. *)
Ltac sat := unfold sat_add, sat_sub, sat_mul, wrap in *; lia.

(** Case on the innermost boolean integer comparison of the goal or a hypothesis. *)
Ltac zcase :=
  match goal with
  | |- context [?a <=? ?b] => destruct (Z.leb_spec a b)
  | |- context [?a <? ?b] => destruct (Z.ltb_spec a b)
  | |- context [?a =? ?b] => destruct (Z.eqb_spec a b)
  | H : context [?a <=? ?b] |- _ => revert H; destruct (Z.leb_spec a b); intros H
  | H : context [?a <? ?b] |- _ => revert H; destruct (Z.ltb_spec a b); intros H
  | H : context [?a =? ?b] |- _ => revert H; destruct (Z.eqb_spec a b); intros H
  end.

(** Decompose a successful [let?] chain in hypothesis [H]. *)
Ltac inv_ok H :=
  repeat match type of H with
  | result_bind ?r _ = Ok _ =>
      let E := fresh "E" in destruct r eqn:E; cbn [result_bind] in H; [|discriminate H]
  end.

Create HintDb hov.
Create Rewrite HintDb hov.

(** ** Generic lemmas *)

Lemma div_ceil_spec a b : 0 < b -> b * (div_ceil a b - 1) < a <= b * div_ceil a b.
Proof.
  intros Hb. unfold div_ceil.
  pose proof (Z.div_mod (a + b - 1) b ltac:(lia)).
  pose proof (Z.mod_pos_bound (a + b - 1) b Hb). lia.
Qed.

Lemma div_ceil_nonneg a b : 0 <= a -> 0 < b -> 0 <= div_ceil a b.
Proof. intros. apply Z.div_pos; lia. Qed.

Lemma div_ceil_mono a a' b : 0 < b -> a <= a' -> div_ceil a b <= div_ceil a' b.
Proof. intros. apply Z.div_le_mono; lia. Qed.

Lemma to_le_bytes_length n z : length (to_le_bytes n z) = n.
Proof. revert z; induction n; intros; simpl; auto. Qed.

Lemma to_le_bytes_bytes n z : all_bytes (to_le_bytes n z).
Proof.
  revert z; induction n; intros; simpl; constructor; auto.
  apply Z.mod_pos_bound; lia.
Qed.

Lemma from_to_le_bytes n z : 0 <= z < 256 ^ Z.of_nat n -> from_le_bytes (to_le_bytes n z) = z.
Proof.
  revert z; induction n; intros z Hz.
  - simpl in *. lia.
  - rewrite Nat2Z.inj_succ, Z.pow_succ_r in Hz by lia.
    cbn [to_le_bytes from_le_bytes]. rewrite IHn.
    + pose proof (Z.div_mod z 256 ltac:(lia)). lia.
    + split; [apply Z.div_pos; lia | apply Z.div_lt_upper_bound; lia].
Qed.

Lemma from_to_le_bytes_mod n z : from_le_bytes (to_le_bytes n z) = z mod 256 ^ Z.of_nat n.
Proof.
  revert z; induction n; intros z; [by rewrite Z.mod_1_r|].
  cbn [to_le_bytes from_le_bytes]. rewrite IHn, Nat2Z.inj_succ, Z.pow_succ_r by lia.
  rewrite Z.rem_mul_r by lia. done.
Qed.

Lemma to_le_bytes_snoc n z :
  to_le_bytes (S n) z = to_le_bytes n z ++ [(z / 256 ^ Z.of_nat n) mod 256].
Proof.
  revert z; induction n; intros z; [simpl; by rewrite Z.div_1_r|].
  change (to_le_bytes (S (S n)) z) with (z mod 256 :: to_le_bytes (S n) (z / 256)).
  rewrite IHn, Z.div_div by lia.
  rewrite Nat2Z.inj_succ, Z.pow_succ_r by lia. done.
Qed.

Lemma from_le_bytes_snoc_0 l : from_le_bytes (l ++ [0]) = from_le_bytes l.
Proof. induction l as [|b l IH]; [done|]. simpl. by rewrite IH. Qed.

Lemma from_le_bytes_bound l : all_bytes l -> 0 <= from_le_bytes l < 256 ^ Z.of_nat (length l).
Proof.
  induction 1 as [|b l Hb Hl IH]; [simpl; lia|].
  cbn [from_le_bytes length]. rewrite Nat2Z.inj_succ, Z.pow_succ_r by lia.
  unfold is_byte in Hb. lia.
Qed.

Lemma to_from_le_bytes l : all_bytes l -> to_le_bytes (length l) (from_le_bytes l) = l.
Proof.
  induction 1 as [|b l Hb Hl IH]; [done|].
  cbn [from_le_bytes length to_le_bytes]. unfold is_byte in Hb.
  rewrite (Z.mul_comm 256), Z.mod_add, Z.mod_small by lia.
  rewrite Z.div_add, Z.div_small, Z.add_0_l by lia. by rewrite IH.
Qed.

Lemma to_le_bytes_inj n a b :
  0 <= a < 256 ^ Z.of_nat n -> 0 <= b < 256 ^ Z.of_nat n ->
  to_le_bytes n a = to_le_bytes n b -> a = b.
Proof.
  intros Ha Hb H. rewrite <- (from_to_le_bytes n a), <- (from_to_le_bytes n b) by done.
  by rewrite H.
Qed.

Lemma to_be_bytes_length n z : length (to_be_bytes n z) = n.
Proof. unfold to_be_bytes. by rewrite length_reverse, to_le_bytes_length. Qed.

Lemma to_be_bytes_inj n a b :
  0 <= a < 256 ^ Z.of_nat n -> 0 <= b < 256 ^ Z.of_nat n ->
  to_be_bytes n a = to_be_bytes n b -> a = b.
Proof.
  intros Ha Hb H. apply (inj reverse) in H. eauto using to_le_bytes_inj.
Qed.

Lemma from_to_be_bytes n z : 0 <= z < 256 ^ Z.of_nat n -> from_be_bytes (to_be_bytes n z) = z.
Proof.
  intros. unfold from_be_bytes, to_be_bytes. rewrite reverse_involutive.
  by apply from_to_le_bytes.
Qed.

Lemma from_le_bytes_app a b : from_le_bytes (a ++ b) = from_le_bytes a + 256 ^ Z.of_nat (length a) * from_le_bytes b.
Proof.
  induction a as [|x a IH]; [cbn [from_le_bytes app length]; lia|].
  cbn [from_le_bytes app length]. rewrite IH, Nat2Z.inj_succ, Z.pow_succ_r by lia. lia.
Qed.

Lemma from_be_bytes_cons x a : from_be_bytes (x :: a) = x * 256 ^ Z.of_nat (length a) + from_be_bytes a.
Proof.
  unfold from_be_bytes. rewrite reverse_cons, from_le_bytes_app, length_reverse. cbn [from_le_bytes]. lia.
Qed.

Lemma from_be_bytes_bound l : all_bytes l -> 0 <= from_be_bytes l < 256 ^ Z.of_nat (length l).
Proof.
  intros Hl. unfold from_be_bytes. rewrite <- length_reverse. apply from_le_bytes_bound.
  by apply Forall_reverse.
Qed.

(** On big-endian magnitudes of one width the lexicographic order is the numeric one. *)
Lemma lex_le_be a b : all_bytes a -> all_bytes b -> length a = length b ->
  lex_le a b = (from_be_bytes a <=? from_be_bytes b).
Proof.
  intros Ha. revert b. induction Ha as [|x a Hx Ha IH]; intros [|y b] Hb Hl; try done.
  apply Forall_cons in Hb as [Hy Hb]. injection Hl as Hl. cbn [lex_le].
  rewrite !from_be_bytes_cons, (IH b Hb Hl), <- Hl.
  pose proof (from_be_bytes_bound a Ha). pose proof (from_be_bytes_bound b Hb). rewrite <- Hl in *.
  unfold is_byte in *. set (P := 256 ^ Z.of_nat (length a)) in *.
  destruct (Z.ltb_spec x y), (Z.eqb_spec x y), (Z.leb_spec (from_be_bytes a) (from_be_bytes b)),
    (Z.leb_spec (x * P + from_be_bytes a) (y * P + from_be_bytes b)); simpl; try done; nia.
Qed.

(** Splitting two equal concatenations whose first parts have equal length. *)
Lemma app_inj_len {A : Type} (l1 l2 k1 k2 : list A) :
  length l1 = length l2 -> l1 ++ k1 = l2 ++ k2 -> l1 = l2 /\ k1 = k2.
Proof. intros H1 H2. by apply app_inj_1. Qed.

(** ** Sums over the values of a map *)

Section MapSum.
Context {K V : Type} `{Countable K}.
Implicit Types (m : gmap K V) (f : V -> Z).

Definition msum (f : V -> Z) (m : gmap K V) : Z := map_fold (fun _ v acc => f v + acc) 0 m.

Lemma msum_empty f : msum f ∅ = 0.
Proof. apply map_fold_empty. Qed.

Lemma msum_insert_new f m k v : m !! k = None -> msum f (<[k := v]> m) = f v + msum f m.
Proof. intros Hk. unfold msum. rewrite map_fold_insert_L; [done| |done]. intros; lia. Qed.

Lemma msum_delete f m k v : m !! k = Some v -> msum f (delete k m) = msum f m - f v.
Proof.
  intros Hk. rewrite <- (insert_delete_id m k v Hk) at 2.
  rewrite msum_insert_new by apply lookup_delete_eq. lia.
Qed.

Lemma msum_insert f m k v :
  msum f (<[k := v]> m) = msum f m - from_option f 0 (m !! k) + f v.
Proof.
  destruct (m !! k) as [w|] eqn:Hk; simpl.
  - rewrite <- insert_delete_eq, msum_insert_new by apply lookup_delete_eq.
    rewrite (msum_delete f m k w Hk). lia.
  - rewrite msum_insert_new by done. lia.
Qed.

Lemma msum_nonneg f m : (forall k v, m !! k = Some v -> 0 <= f v) -> 0 <= msum f m.
Proof.
  induction m as [|k v m Hk IH] using map_ind; intros Hf; [by rewrite msum_empty|].
  rewrite msum_insert_new by done.
  assert (0 <= f v) by (apply (Hf k); apply lookup_insert_eq).
  assert (0 <= msum f m).
  { apply IH. intros k' v' Hk'. apply (Hf k'). rewrite lookup_insert_ne; [done|congruence]. }
  lia.
Qed.

Lemma msum_lookup_le f m k v : (forall k v, m !! k = Some v -> 0 <= f v) ->
  m !! k = Some v -> f v <= msum f m.
Proof.
  intros Hf Hk. pose proof (msum_delete f m k v Hk).
  assert (0 <= msum f (delete k m)); [|lia].
  apply msum_nonneg. intros k' v' Hk'. apply lookup_delete_Some in Hk' as [_ Hk']. eauto.
Qed.

(** Inserting the entries of a map one by one, in any order, rebuilds the map. *)
Lemma foldl_insert_map (xs : list (K * V)) (m : gmap K V) :
  xs ≡ₚ map_to_list m -> foldl (fun acc kv => <[kv.1 := kv.2]> acc) ∅ xs = m.
Proof.
  intros Hp. assert (Hnd : NoDup xs.*1) by (rewrite Hp; apply NoDup_fst_map_to_list).
  assert (G : forall (ys : list (K * V)) (acc : gmap K V), foldl (fun acc kv => <[kv.1 := kv.2]> acc) acc ys =
                             list_to_map (reverse ys) ∪ acc).
  { intros ys. induction ys as [|[k v] ys IH]; intros acc; simpl; [by rewrite (left_id_L ∅ _)|].
    rewrite IH, reverse_cons, list_to_map_app, <- (assoc_L (∪)). f_equal. simpl.
    by rewrite insert_empty, <- insert_union_singleton_l. }
  rewrite G, (right_id_L ∅ _).
  rewrite (list_to_map_proper (reverse xs) (map_to_list m)).
  - apply list_to_map_to_list.
  - by rewrite fmap_reverse, reverse_Permutation.
  - by rewrite reverse_Permutation.
Qed.
End MapSum.

#[export] Hint Resolve to_le_bytes_bytes : hov.
#[export] Hint Rewrite to_le_bytes_length to_be_bytes_length : hov.
