(* ===== verification/Galois.v ===== *)
(** * Arithmetic of GF(2^8), polynomial 0x11D ([src/src/erasure/reedsolomon.rs])

    The tables [build_tables] fills, the four field operations the codec
    computes through them, and the field laws: bytes with exclusive or and
    [gal_mul] form a field of 256 elements with generator 2. *)
From Stdlib Require Import ZArith Lia Btauto.
From stdpp Require Import base tactics numbers list.
From S2P Require Import Prelude.
Local Open Scope Z_scope.

(** ** Definitions *)

(** [struct GfTables]: [exp] has 510 entries, [log] has 256. *)
Record GfTables := { gf_exp : list Z; gf_log : list Z }.

(** The conditional reduction of the shifted accumulator. *)
Definition xtime (x : Z) : Z :=
  let x := wrap 16 (Z.shiftl x 1) in
  if Z.land x 0x100 =? 0 then x else Z.lxor x 0x11d.

(** One iteration of the first loop: both tables are written from [i]. *)
Definition build_step (st : list Z * list Z * Z) (i : nat) : list Z * list Z * Z :=
  let '(e, l, x) := st in
  (<[i := wrap 8 x]> e, <[Z.to_nat x := wrap 8 (Z.of_nat i)]> l, xtime x).

(** [fn build_tables]. *)
Definition build_tables : GfTables :=
  let '(e, l, _) := foldl build_step (replicate 510 0, replicate 256 0, 1) (seq 0 255) in
  let e := foldl (fun e i => <[i := e !!! (i - 255)%nat]> e) e (seq 255 255) in
  {| gf_exp := e; gf_log := l |}.

(** [fn tables]: the [OnceLock] computes the tables once; so does this
    definition, at compile time. *)
Definition tables : GfTables := Eval vm_compute in build_tables.

Definition tlog (a : Z) : Z := gf_log tables !!! Z.to_nat a.
Definition texp (i : Z) : Z := gf_exp tables !!! Z.to_nat i.

(** [fn gal_mul]. *)
Definition gal_mul (a b : Z) : Z :=
  if (a =? 0) || (b =? 0) then 0 else texp (tlog a + tlog b).

(** [fn gal_exp]. *)
Definition gal_exp (a : Z) (n : nat) : Z :=
  if Nat.eqb n 0 then 1
  else if a =? 0 then 0
  else texp ((tlog a * Z.of_nat n) mod 255).

(** [fn gal_divide]. *)
Definition gal_divide (a b : Z) : Z :=
  if a =? 0 then 0
  else let log_result := tlog a - tlog b in
       texp (if log_result <? 0 then log_result + 255 else log_result).

(** ** Exhaustive checks over the 256 bytes *)

Lemma tables_built : tables = build_tables.
Proof. vm_compute. reflexivity. Qed.

Definition byte_range : list Z := seqZ 0 256.

Lemma byte_forall (P : Z -> bool) : forallb P byte_range = true -> forall a, is_byte a -> P a = true.
Proof.
  intros H a Ha. rewrite forallb_forall in H. apply H.
  apply list_elem_of_In, elem_of_seqZ. unfold is_byte in Ha. lia.
Qed.

Definition in_byte (z : Z) : bool := (0 <=? z) && (z <? 256).

Lemma in_byte_spec z : in_byte z = true <-> is_byte z.
Proof. unfold in_byte, is_byte. rewrite andb_true_iff, Z.leb_le, Z.ltb_lt. lia. Qed.

Lemma texp_byte i : is_byte (texp i).
Proof.
  apply in_byte_spec. unfold texp.
  assert (H : Forall (fun z => in_byte z = true) (gf_exp tables)).
  { apply List.Forall_forall. apply forallb_forall. vm_compute. reflexivity. }
  destruct (decide (Z.to_nat i < length (gf_exp tables))%nat) as [Hi|Hi].
  - destruct (lookup_lt_is_Some_2 _ _ Hi) as [x Hx].
    rewrite (list_lookup_total_correct _ _ _ Hx). rewrite Forall_lookup in H. eauto.
  - rewrite list_lookup_total_alt, lookup_ge_None_2 by lia. reflexivity.
Qed.

Lemma tlog_spec a : is_byte a -> a <> 0 -> 0 <= tlog a < 255 /\ texp (tlog a) = a.
Proof.
  intros Ha Hn.
  pose proof (byte_forall
    (fun a => (a =? 0) || ((0 <=? tlog a) && (tlog a <? 255) && (texp (tlog a) =? a)))
    ltac:(vm_compute; reflexivity) a Ha) as H.
  cbv beta in H. revert H. destruct (Z.eqb_spec a 0); [lia|]. cbn [orb]. intros H.
  rewrite !andb_true_iff, Z.leb_le, Z.ltb_lt, Z.eqb_eq in H. lia.
Qed.

Lemma texp_spec i : 0 <= i < 255 ->
  texp i <> 0 /\ tlog (texp i) = i /\ texp (i + 255) = texp i /\
  xtime (texp i) = texp ((i + 1) mod 255).
Proof.
  intros Hi.
  pose proof (byte_forall
    (fun i => (255 <=? i) || (negb (texp i =? 0) && (tlog (texp i) =? i) &&
       (texp (i + 255) =? texp i) && (xtime (texp i) =? texp ((i + 1) mod 255))))
    ltac:(vm_compute; reflexivity) i ltac:(unfold is_byte; lia)) as H.
  cbv beta in H. revert H. destruct (Z.leb_spec 255 i) as [|_]; [lia|]. cbn [orb]. intros H.
  rewrite !andb_true_iff, negb_true_iff, Z.eqb_neq, !Z.eqb_eq in H. tauto.
Qed.

Lemma xtime_lxor a b : is_byte a -> is_byte b -> xtime (Z.lxor a b) = Z.lxor (xtime a) (xtime b).
Proof.
  intros Ha Hb.
  pose proof (byte_forall (fun a => forallb (fun b =>
      xtime (Z.lxor a b) =? Z.lxor (xtime a) (xtime b)) byte_range)
    ltac:(vm_compute; reflexivity) a Ha) as H.
  by apply Z.eqb_eq, (byte_forall _ H).
Qed.

(** ** Field laws *)

Lemma texp_mod i : 0 <= i < 510 -> texp (i mod 255) = texp i.
Proof.
  intros Hi. destruct (Z.ltb_spec i 255).
  - by rewrite Z.mod_small by lia.
  - replace i with (i - 255 + 1 * 255) at 1 by lia. rewrite Z.mod_add, Z.mod_small by lia.
    replace (texp i) with (texp (i - 255 + 255)) by (f_equal; lia).
    by destruct (texp_spec (i - 255) ltac:(lia)) as (_ & _ & -> & _).
Qed.

Lemma is_byte_0 : is_byte 0.
Proof. unfold is_byte; lia. Qed.
Lemma is_byte_1 : is_byte 1.
Proof. unfold is_byte; lia. Qed.

Lemma is_byte_lxor a b : is_byte a -> is_byte b -> is_byte (Z.lxor a b).
Proof.
  unfold is_byte. intros Ha Hb.
  assert (Hn : 0 <= Z.lxor a b) by (apply Z.lxor_nonneg; lia).
  split; [done|]. destruct (Z.eq_dec (Z.lxor a b) 0) as [->|Hz]; [lia|].
  apply (Z.log2_lt_pow2 _ 8); [lia|].
  eapply Z.le_lt_trans; [apply Z.log2_lxor; lia|].
  apply Z.max_lub_lt.
  - destruct (Z.eq_dec a 0) as [->|]; [simpl; lia|]. apply Z.log2_lt_pow2; lia.
  - destruct (Z.eq_dec b 0) as [->|]; [simpl; lia|]. apply Z.log2_lt_pow2; lia.
Qed.

Lemma gal_mul_byte a b : is_byte (gal_mul a b).
Proof. unfold gal_mul. destruct (_ || _); auto using texp_byte, is_byte_0. Qed.

Lemma gal_exp_byte a n : is_byte (gal_exp a n).
Proof. unfold gal_exp. repeat case_match; auto using texp_byte, is_byte_0, is_byte_1. Qed.

#[export] Hint Resolve is_byte_0 is_byte_1 is_byte_lxor gal_mul_byte gal_exp_byte : hov.

Lemma gal_mul_comm a b : gal_mul a b = gal_mul b a.
Proof. unfold gal_mul. by rewrite orb_comm, Z.add_comm. Qed.

Lemma gal_mul_0_l b : gal_mul 0 b = 0.
Proof. done. Qed.
Lemma gal_mul_0_r a : gal_mul a 0 = 0.
Proof. by rewrite gal_mul_comm. Qed.

(** On nonzero bytes the product is the exponential of the sum of logarithms. *)
Lemma gal_mul_log a b : is_byte a -> is_byte b -> a <> 0 -> b <> 0 ->
  gal_mul a b = texp ((tlog a + tlog b) mod 255) /\
  gal_mul a b <> 0 /\ tlog (gal_mul a b) = (tlog a + tlog b) mod 255.
Proof.
  intros Ha Hb Na Nb.
  destruct (tlog_spec a Ha Na) as [La _]. destruct (tlog_spec b Hb Nb) as [Lb _].
  assert (E : gal_mul a b = texp ((tlog a + tlog b) mod 255)).
  { unfold gal_mul. destruct (Z.eqb_spec a 0), (Z.eqb_spec b 0); simpl; try lia.
    symmetry. apply texp_mod. lia. }
  rewrite E. pose proof (Z.mod_pos_bound (tlog a + tlog b) 255 ltac:(lia)) as Hm.
  destruct (texp_spec _ Hm) as (? & ? & _). tauto.
Qed.

Lemma gal_mul_1_l b : is_byte b -> gal_mul 1 b = b.
Proof.
  intros Hb. destruct (Z.eq_dec b 0) as [->|Nb]; [by rewrite gal_mul_0_r|].
  destruct (gal_mul_log 1 b is_byte_1 Hb ltac:(lia) Nb) as [-> _].
  destruct (tlog_spec b Hb Nb) as [Lb Eb].
  change (tlog 1) with 0. by rewrite Z.add_0_l, Z.mod_small.
Qed.

Lemma gal_mul_eq_0 a b : is_byte a -> is_byte b -> gal_mul a b = 0 -> a = 0 \/ b = 0.
Proof.
  intros Ha Hb H. destruct (Z.eq_dec a 0); [auto|]. destruct (Z.eq_dec b 0); [auto|].
  by destruct (gal_mul_log a b) as (_ & ? & _).
Qed.

Lemma gal_mul_assoc a b c : is_byte a -> is_byte b -> is_byte c ->
  gal_mul a (gal_mul b c) = gal_mul (gal_mul a b) c.
Proof.
  intros Ha Hb Hc.
  destruct (Z.eq_dec a 0) as [->|Na]; [done|].
  destruct (Z.eq_dec b 0) as [->|Nb]; [by rewrite gal_mul_0_l, !gal_mul_0_r|].
  destruct (Z.eq_dec c 0) as [->|Nc]; [by rewrite !gal_mul_0_r|].
  destruct (gal_mul_log b c) as (_ & Nbc & Lbc); [done..|].
  destruct (gal_mul_log a b) as (_ & Nab & Lab); [done..|].
  destruct (gal_mul_log a (gal_mul b c)) as (-> & _); auto with hov.
  destruct (gal_mul_log (gal_mul a b) c) as (-> & _); auto with hov.
  rewrite Lbc, Lab. f_equal. rewrite Zplus_mod_idemp_r, Zplus_mod_idemp_l. f_equal. lia.
Qed.

(** Multiplication by [2^i] is [i] iterations of [xtime]; hence distributivity. *)
Lemma gal_mul_xtime (i : nat) x : (i < 255)%nat -> is_byte x ->
  gal_mul (texp (Z.of_nat i)) x = Nat.iter i xtime x.
Proof.
  intros Hi Hx. induction i as [|i IH].
  - change (texp (Z.of_nat 0)) with 1. by apply gal_mul_1_l.
  - rewrite Nat2Z.inj_succ. simpl. rewrite <- IH by lia.
    destruct (Z.eq_dec x 0) as [->|Nx]; [by rewrite !gal_mul_0_r|].
    destruct (texp_spec (Z.of_nat i)) as (N1 & L1 & _); [lia|].
    destruct (texp_spec (Z.succ (Z.of_nat i))) as (N2 & L2 & _); [lia|].
    destruct (gal_mul_log (texp (Z.of_nat i)) x) as (-> & _); auto using texp_byte.
    destruct (gal_mul_log (texp (Z.succ (Z.of_nat i))) x) as (-> & _); auto using texp_byte.
    rewrite L1, L2.
    destruct (texp_spec ((Z.of_nat i + tlog x) mod 255)) as (_ & _ & _ & ->).
    { apply Z.mod_pos_bound; lia. }
    f_equal. rewrite Zplus_mod_idemp_l. f_equal. lia.
Qed.

Lemma xtime_byte x : is_byte x -> is_byte (xtime x).
Proof.
  intros Hx. apply in_byte_spec.
  exact (byte_forall (fun x => in_byte (xtime x)) ltac:(vm_compute; reflexivity) x Hx).
Qed.

Lemma iter_xtime_lxor n a b : is_byte a -> is_byte b ->
  Nat.iter n xtime (Z.lxor a b) = Z.lxor (Nat.iter n xtime a) (Nat.iter n xtime b) /\
  is_byte (Nat.iter n xtime a) /\ is_byte (Nat.iter n xtime b).
Proof.
  intros Ha Hb. induction n as [|n (IH & I1 & I2)]; [done|].
  simpl. rewrite IH, xtime_lxor by done. auto using xtime_byte.
Qed.

Lemma gal_mul_lxor_r a b c : is_byte a -> is_byte b -> is_byte c ->
  gal_mul a (Z.lxor b c) = Z.lxor (gal_mul a b) (gal_mul a c).
Proof.
  intros Ha Hb Hc. destruct (Z.eq_dec a 0) as [->|Na]; [done|].
  destruct (tlog_spec a Ha Na) as [La Ea].
  rewrite <- Ea, <- (Z2Nat.id (tlog a)), !gal_mul_xtime; auto with hov; try lia.
  by apply iter_xtime_lxor.
Qed.

Lemma gal_mul_lxor_l a b c : is_byte a -> is_byte b -> is_byte c ->
  gal_mul (Z.lxor a b) c = Z.lxor (gal_mul a c) (gal_mul b c).
Proof. intros. rewrite gal_mul_comm, gal_mul_lxor_r, !(gal_mul_comm c); auto. Qed.

Lemma gal_divide_mul b : is_byte b -> b <> 0 ->
  is_byte (gal_divide 1 b) /\ gal_divide 1 b <> 0 /\ gal_mul (gal_divide 1 b) b = 1.
Proof.
  intros Hb Nb.
  pose proof (byte_forall (fun b => (b =? 0) || (in_byte (gal_divide 1 b) &&
      negb (gal_divide 1 b =? 0) && (gal_mul (gal_divide 1 b) b =? 1)))
    ltac:(vm_compute; reflexivity) b Hb) as H.
  cbv beta in H. revert H. destruct (Z.eqb_spec b 0); [lia|]. cbn [orb]. intros H.
  rewrite !andb_true_iff, negb_true_iff, Z.eqb_neq, Z.eqb_eq, in_byte_spec in H. tauto.
Qed.

Lemma gal_exp_S a n : is_byte a -> gal_exp a (S n) = gal_mul a (gal_exp a n).
Proof.
  intros Ha. unfold gal_exp at 1. simpl (Nat.eqb (S n) 0).
  destruct (Z.eqb_spec a 0) as [->|Na]; [done|].
  unfold gal_exp. destruct (Nat.eqb_spec n 0) as [->|Nn].
  - rewrite gal_mul_comm, gal_mul_1_l by done. change (Z.of_nat 1) with 1.
    rewrite Z.mul_1_r. destruct (tlog_spec a Ha Na). by rewrite Z.mod_small by lia.
  - destruct (Z.eqb_spec a 0); [done|].
    pose proof (Z.mod_pos_bound (tlog a * Z.of_nat n) 255 ltac:(lia)) as Hm.
    destruct (texp_spec _ Hm) as (N1 & L1 & _).
    destruct (gal_mul_log a (texp ((tlog a * Z.of_nat n) mod 255))) as (-> & _);
      auto using texp_byte.
    rewrite L1. f_equal. rewrite Zplus_mod_idemp_r. f_equal. lia.
Qed.
