(* ===== verification/Linear.v ===== *)
(** * Linear algebra over GF(2^8)

    Sums of bytes under exclusive or, the root bound for polynomials (behind
    the invertibility of Vandermonde matrices) and the triangular-kernel lemma
    (behind the completeness of Gauss-Jordan elimination).  Vectors are
    functions on indices; the codec's lists are viewed through their lookups. *)
From Stdlib Require Import ZArith Lia Btauto.
From stdpp Require Import base tactics numbers list.
From S2P Require Import Prelude Galois.
Local Open Scope Z_scope.

(** Equalities between exclusive-or terms, modulo associativity,
    commutativity and cancellation. *)
Ltac xor_eq := apply Z.bits_inj'; intros ? _; rewrite ?Z.lxor_spec, ?Z.bits_0; btauto.

Lemma lxor_eq_0 a b : Z.lxor a b = 0 <-> a = b.
Proof. apply Z.lxor_eq_0_iff. Qed.

(** ** Sums *)

Fixpoint xsum (n : nat) (f : nat -> Z) : Z :=
  match n with O => 0 | S n' => Z.lxor (xsum n' f) (f n') end.

(** [dot n r x]: the product of a row and a column vector of [n] entries. *)
Definition dot (n : nat) (r x : nat -> Z) : Z := xsum n (fun j => gal_mul (r j) (x j)).

Lemma xsum_fold n f : foldl (fun acc i => Z.lxor acc (f i)) 0 (seq 0 n) = xsum n f.
Proof.
  induction n as [|n IH]; [done|].
  rewrite seq_S, foldl_app. simpl. by rewrite IH.
Qed.

Lemma xsum_ext n f g : (forall i, (i < n)%nat -> f i = g i) -> xsum n f = xsum n g.
Proof. induction n; intros H; simpl; [done|]. rewrite IHn, H; auto with lia. Qed.

Lemma xsum_0 n f : (forall i, (i < n)%nat -> f i = 0) -> xsum n f = 0.
Proof. induction n; intros H; simpl; [done|]. rewrite IHn, H; auto with lia. Qed.

Lemma xsum_byte n f : (forall i, (i < n)%nat -> is_byte (f i)) -> is_byte (xsum n f).
Proof. induction n; intros H; simpl; auto 6 with hov lia. Qed.

Lemma dot_byte n r x : is_byte (dot n r x).
Proof. apply xsum_byte. auto with hov. Qed.
#[export] Hint Resolve dot_byte : hov.

Lemma xsum_lxor n f g : xsum n (fun i => Z.lxor (f i) (g i)) = Z.lxor (xsum n f) (xsum n g).
Proof. induction n as [|n IH]; [done|]. simpl. rewrite IH. xor_eq. Qed.

Lemma xsum_mul n a f : is_byte a -> (forall i, (i < n)%nat -> is_byte (f i)) ->
  xsum n (fun i => gal_mul a (f i)) = gal_mul a (xsum n f).
Proof.
  intros Ha. induction n as [|n IH]; intros Hf; simpl; [by rewrite gal_mul_0_r|].
  rewrite IH, gal_mul_lxor_r; auto using xsum_byte.
Qed.

Lemma xsum_swap n m (f : nat -> nat -> Z) :
  xsum n (fun i => xsum m (fun j => f i j)) = xsum m (fun j => xsum n (fun i => f i j)).
Proof.
  induction n as [|n IH]; simpl; [by rewrite xsum_0|]. by rewrite IH, <- xsum_lxor.
Qed.

(** A sum with a single nonzero term. *)
Lemma xsum_single n k f : (k < n)%nat -> (forall i, (i < n)%nat -> i <> k -> f i = 0) ->
  xsum n f = f k.
Proof.
  induction n as [|n IH]; intros Hk H; [lia|]. simpl.
  destruct (decide (k = n)) as [->|].
  - rewrite xsum_0, Z.lxor_0_l; [done|]. intros; apply H; lia.
  - rewrite IH, (H n), Z.lxor_0_r; auto with lia.
Qed.

Lemma xsum_add n m f : xsum (n + m) f = Z.lxor (xsum n f) (xsum m (fun i => f (n + i)%nat)).
Proof.
  induction m as [|m IH]; simpl; [by rewrite Nat.add_0_r, Z.lxor_0_r|].
  rewrite Nat.add_succ_r. cbn [xsum]. by rewrite IH, Z.lxor_assoc.
Qed.

Lemma dot_ext n r r' x x' :
  (forall j, (j < n)%nat -> r j = r' j) -> (forall j, (j < n)%nat -> x j = x' j) ->
  dot n r x = dot n r' x'.
Proof. intros H1 H2. apply xsum_ext. intros i Hi. by rewrite H1, H2. Qed.

Lemma dot_row_add n r s a x :
  is_byte a -> (forall j, (j < n)%nat -> is_byte (r j) /\ is_byte (s j) /\ is_byte (x j)) ->
  dot n (fun j => Z.lxor (r j) (gal_mul a (s j))) x = Z.lxor (dot n r x) (gal_mul a (dot n s x)).
Proof.
  intros Ha H. unfold dot. rewrite <- xsum_mul; auto with hov. rewrite <- xsum_lxor.
  apply xsum_ext. intros j Hj. destruct (H j Hj) as (? & ? & ?).
  rewrite gal_mul_lxor_l, gal_mul_assoc; auto with hov.
Qed.

Lemma dot_row_scale n r a x :
  is_byte a -> (forall j, (j < n)%nat -> is_byte (r j) /\ is_byte (x j)) ->
  dot n (fun j => gal_mul (r j) a) x = gal_mul a (dot n r x).
Proof.
  intros Ha H. unfold dot. rewrite <- xsum_mul; auto with hov.
  apply xsum_ext. intros j Hj. destruct (H j Hj) as (? & ?).
  rewrite (gal_mul_comm (r j) a), gal_mul_assoc; auto.
Qed.

(** Matrix-vector products associate. *)
Lemma dot_assoc n m r (B : nat -> nat -> Z) x :
  (forall i, (i < n)%nat -> is_byte (r i)) ->
  (forall i j, (i < n)%nat -> (j < m)%nat -> is_byte (B i j)) ->
  (forall j, (j < m)%nat -> is_byte (x j)) ->
  dot m (fun j => dot n r (fun i => B i j)) x = dot n r (fun i => dot m (B i) x).
Proof.
  intros Hr HB Hx. unfold dot.
  transitivity (xsum m (fun j => xsum n (fun i => gal_mul (r i) (gal_mul (B i j) (x j))))).
  - apply xsum_ext. intros j Hj. rewrite gal_mul_comm, <- xsum_mul; auto with hov.
    apply xsum_ext. intros i Hi.
    rewrite gal_mul_comm, <- gal_mul_assoc; auto with hov.
  - rewrite xsum_swap. apply xsum_ext. intros i Hi. rewrite <- xsum_mul; auto with hov.
Qed.

(** ** Polynomials: coefficients lowest degree first *)

Fixpoint peval (l : list Z) (x : Z) : Z :=
  match l with [] => 0 | c :: l' => Z.lxor c (gal_mul x (peval l' x)) end.

(** Coefficients of the quotient of [c :: l] by [X + a]. *)
Fixpoint psd (l : list Z) (a : Z) : list Z :=
  match l with [] => [] | c :: l' => peval (c :: l') a :: psd l' a end.

Lemma peval_byte l x : all_bytes l -> is_byte (peval l x).
Proof. induction 1; simpl; auto with hov. Qed.
#[export] Hint Resolve peval_byte : hov.

Lemma psd_bytes l a : all_bytes l -> all_bytes (psd l a).
Proof. induction 1; cbn [psd]; constructor; auto with hov. Qed.

Lemma psd_length l a : length (psd l a) = length l.
Proof. induction l; simpl; auto. Qed.

Lemma psd_spec c l x a : is_byte x -> is_byte a -> is_byte c -> all_bytes l ->
  Z.lxor (peval (c :: l) x) (peval (c :: l) a) = gal_mul (Z.lxor x a) (peval (psd l a) x).
Proof.
  intros Hx Ha Hc Hl. revert c Hc. induction Hl as [|d l Hd Hl IH]; intros c Hc.
  - simpl. rewrite !gal_mul_0_r. xor_eq.
  - specialize (IH d Hd).
    assert (BX : is_byte (peval (d :: l) x)) by auto with hov.
    assert (BA : is_byte (peval (d :: l) a)) by auto with hov.
    assert (BQ : is_byte (peval (psd l a) x)) by auto using psd_bytes with hov.
    change (peval (c :: d :: l) x) with (Z.lxor c (gal_mul x (peval (d :: l) x))).
    change (peval (c :: d :: l) a) with (Z.lxor c (gal_mul a (peval (d :: l) a))).
    change (peval (psd (d :: l) a) x)
      with (Z.lxor (peval (d :: l) a) (gal_mul x (peval (psd l a) x))).
    revert IH BX BA BQ. generalize (peval (d :: l) x) (peval (d :: l) a) (peval (psd l a) x).
    intros X A Q IH BX BA BQ.
    rewrite gal_mul_lxor_r, (gal_mul_comm x Q), gal_mul_assoc, <- IH by auto with hov.
    rewrite !gal_mul_lxor_l, (gal_mul_comm X), (gal_mul_comm A x) by auto with hov. xor_eq.
Qed.

Lemma psd_zero l a : all_bytes l -> Forall (eq 0) (psd l a) -> Forall (eq 0) l /\ peval l a = 0.
Proof.
  induction 1 as [|c l Hc Hl IH]; intros H; [done|].
  cbn [psd] in H. apply Forall_cons_1 in H as [E H]. destruct IH as [IH1 IH2]; [done|].
  cbn [peval] in E. rewrite IH2, gal_mul_0_r, Z.lxor_0_r in E. subst c.
  split; [by constructor|]. cbn [peval]. by rewrite IH2, gal_mul_0_r.
Qed.

(** A polynomial with as many distinct roots as coefficients is zero. *)
Lemma peval_roots l (pts : list Z) :
  all_bytes l -> all_bytes pts -> NoDup pts -> length pts = length l ->
  Forall (fun p => peval l p = 0) pts -> Forall (eq 0) l.
Proof.
  revert l. induction pts as [|a pts IH]; intros l Hl Hp Hnd Hlen Hr.
  { destruct l; [done|discriminate]. }
  destruct l as [|c l]; [discriminate|].
  apply Forall_cons_1 in Hl as [Bc Hl]. apply Forall_cons_1 in Hp as [Ba Hp].
  apply Forall_cons_1 in Hr as [Ra Hr]. apply NoDup_cons in Hnd as [Hni Hnd].
  assert (Hq : Forall (eq 0) (psd l a)).
  { apply IH; auto using psd_bytes.
    - rewrite psd_length. simpl in Hlen. lia.
    - apply Forall_lookup. intros i x Hx.
      assert (Bx : is_byte x) by (eapply Forall_lookup_1; eauto).
      pose proof (psd_spec c l x a Bx Ba Bc Hl) as E.
      rewrite Ra, Z.lxor_0_r, (Forall_lookup_1 _ _ _ _ Hr Hx) in E.
      symmetry in E. apply gal_mul_eq_0 in E as [E|E]; auto using psd_bytes with hov.
      apply lxor_eq_0 in E as ->. destruct Hni. eapply list_elem_of_lookup_2; eauto. }
  destruct (psd_zero l a) as [Hz E]; [done..|].
  constructor; [|done]. cbn [peval] in Ra.
  by rewrite E, gal_mul_0_r, Z.lxor_0_r in Ra.
Qed.

Lemma peval_dot l p : is_byte p -> all_bytes l ->
  dot (length l) (fun j => gal_exp p j) (fun j => l !!! j) = peval l p.
Proof.
  intros Hp. induction 1 as [|c l Hc Hl IH]; [done|].
  cbn [length peval]. change (S (length l)) with (1 + length l)%nat.
  unfold dot. rewrite xsum_add. f_equal.
  - simpl. rewrite Z.lxor_0_l. by apply gal_mul_1_l.
  - rewrite <- IH. unfold dot. rewrite <- xsum_mul; auto with hov.
    apply xsum_ext. intros j Hj. change (1 + j)%nat with (S j). simpl.
    rewrite gal_exp_S, <- gal_mul_assoc; auto with hov.
    apply Forall_lookup_total_1; [done|lia].
Qed.

(** ** A column without pivot yields a nontrivial kernel vector *)

Section Kernel.
Context (W : nat -> nat -> Z) (n r N : nat).
Context (HrN : (r < N)%nat) (Hrn : (r < n)%nat).
Context (Hdiag : forall i, (i < r)%nat -> W i i = 1).
Context (Hlow : forall i j, (j < r)%nat -> (j < i)%nat -> (i < n)%nat -> W i j = 0).
Context (Hcol : forall i, (r <= i)%nat -> (i < n)%nat -> W i r = 0).

Lemma kernel_partial d : (d <= r)%nat ->
  exists x : nat -> Z, (forall j, is_byte (x j)) /\ x r = 1 /\
    (forall j, (r < j)%nat -> x j = 0) /\ (forall j, (j < r - d)%nat -> x j = 0) /\
    (forall i, (r - d <= i)%nat -> (i < r)%nat -> dot N (W i) x = 0).
Proof.
  induction d as [|d IH]; intros Hd.
  - exists (fun j => if Nat.eqb j r then 1 else 0). split_and!.
    + intros j. destruct (Nat.eqb j r); auto with hov.
    + by rewrite Nat.eqb_refl.
    + intros j Hj. destruct (Nat.eqb_spec j r); lia.
    + intros j Hj. destruct (Nat.eqb_spec j r); lia.
    + lia.
  - destruct IH as (x & Hx & Hxr & Hup & Hdn & Hz); [lia|].
    set (k := (r - S d)%nat).
    set (x' := fun j => if Nat.eqb j k then dot N (W k) x else x j).
    assert (Hadd : forall i, (i < n)%nat ->
      dot N (W i) x' = Z.lxor (dot N (W i) x) (gal_mul (W i k) (dot N (W k) x))).
    { intros i Hi.
      transitivity (Z.lxor (dot N (W i) x)
        (xsum N (fun j => if Nat.eqb j k then gal_mul (W i k) (dot N (W k) x) else 0))).
      - unfold dot at 1 2. rewrite <- xsum_lxor. apply xsum_ext. intros j Hj.
        unfold x'. destruct (Nat.eqb_spec j k) as [->|].
        + rewrite (Hdn k), gal_mul_0_r by (unfold k; lia). xor_eq.
        + by rewrite Z.lxor_0_r.
      - f_equal. rewrite (xsum_single _ k); [by rewrite Nat.eqb_refl| unfold k; lia |].
        intros j _ Hj. by destruct (Nat.eqb_spec j k). }
    exists x'. unfold x' at 1 2 3 4. split_and!.
    + intros j. destruct (Nat.eqb j k); auto with hov.
    + destruct (Nat.eqb_spec r k); [unfold k in *; lia|done].
    + intros j Hj. destruct (Nat.eqb_spec j k); [unfold k in *; lia|auto].
    + intros j Hj. destruct (Nat.eqb_spec j k); [unfold k in *; lia|]. apply Hdn. unfold k in *. lia.
    + intros i Hi Hir. rewrite Hadd by lia. destruct (decide (i = k)) as [->|Hik].
      * rewrite Hdiag, gal_mul_1_l by (auto with hov; unfold k; lia). xor_eq.
      * rewrite Hlow, Hz by (unfold k in *; lia). done.
Qed.

Lemma kernel_exists :
  exists x : nat -> Z, (forall j, is_byte (x j)) /\ x r = 1 /\
    (forall j, (r < j)%nat -> x j = 0) /\ (forall i, (i < n)%nat -> dot N (W i) x = 0).
Proof.
  destruct (kernel_partial r) as (x & Hx & Hxr & Hup & _ & Hz); [lia|].
  exists x. split_and!; auto. intros i Hi.
  destruct (decide (i < r)%nat); [apply Hz; lia|].
  apply xsum_0. intros j Hj.
  destruct (decide (j < r)%nat); [rewrite Hlow by lia; done|].
  destruct (decide (j = r)) as [->|]; [rewrite Hcol by lia; done|].
  rewrite Hup, gal_mul_0_r by lia. done.
Qed.
End Kernel.
