(* ===== verification/ReedSolomon.v ===== *)
(** * The systematic Reed-Solomon codec ([src/src/erasure/reedsolomon.rs])

    Matrices over GF(2^8), Gauss-Jordan inversion, the systematic Vandermonde
    encoding matrix, [encode] and [reconstruct_data]; and the theorem that makes
    erasure coding work: whatever [data_shards] shards of a codeword survive,
    reconstruction returns the data. *)
From Stdlib Require Import ZArith Lia.
From stdpp Require Import base tactics numbers sets list.
From S2P Require Import Prelude Galois Linear.
Local Open Scope Z_scope.

(** ** Matrices *)

(** [struct Matrix], row major. *)
Record Matrix := mkMatrix { rows : nat; cols : nat; data : list (list Z) }.

(** Cell [d[i][j]]. *)
Definition cell (d : list (list Z)) (i j : nat) : Z := (d !!! i) !!! j.

Definition mget (m : Matrix) (r c : nat) : Z := cell (data m) r c.

(** A fresh matrix whose every cell is then assigned [f r c]: the shape of the
    nested [for r .. for c ..] loops below. *)
Definition mat_fill (r c : nat) (f : nat -> nat -> Z) : Matrix :=
  mkMatrix r c (map (fun i => map (f i) (seq 0 c)) (seq 0 r)).

(** [Matrix::new]. *)
Definition Matrix_new (r c : nat) : Matrix := mkMatrix r c (replicate r (replicate c 0)).

(** [Matrix::identity]. *)
Definition identity (size : nat) : Matrix :=
  mat_fill size size (fun i j => if Nat.eqb i j then 1 else 0).

(** [Matrix::vandermonde]: [r as u8] truncates. *)
Definition vandermonde (r c : nat) : Matrix :=
  mat_fill r c (fun i j => gal_exp (wrap 8 (Z.of_nat i)) j).

(** [Matrix::sub_matrix]. *)
Definition sub_matrix (m : Matrix) (rmin cmin rmax cmax : nat) : Matrix :=
  mat_fill (rmax - rmin) (cmax - cmin) (fun i j => mget m (rmin + i) (cmin + j)).

(** [Matrix::augment]. *)
Definition augment (m right : Matrix) : Matrix :=
  mat_fill (rows m) (cols m + cols right)
    (fun i j => if Nat.ltb j (cols m) then mget m i j else mget right i (j - cols m)).

(** [Matrix::multiply]. *)
Definition multiply (m right : Matrix) : Matrix :=
  mat_fill (rows m) (cols right) (fun r c =>
    foldl (fun acc i => Z.lxor acc (gal_mul (mget m r i) (mget right i c))) 0
      (seq 0 (cols m))).

(** [Matrix::swap_rows]. *)
Definition swap_rows (d : list (list Z)) (r1 r2 : nat) : list (list Z) :=
  <[r1 := d !!! r2]> (<[r2 := d !!! r1]> d).

(** ** Gauss-Jordan inversion: [Matrix::invert] *)

(** Bring a nonzero entry of column [r] into the pivot position, if there is one. *)
Definition pivot (n : nat) (work : list (list Z)) (r : nat) : list (list Z) :=
  if cell work r r =? 0
  then match List.find (fun b => negb (cell work b r =? 0)) (seq (S r) (n - S r)) with
       | Some row_below => swap_rows work r row_below
       | None => work
       end
  else work.

(** Scale the pivot row so that the pivot is 1. *)
Definition normalize (work : list (list Z)) (r : nat) : list (list Z) :=
  if cell work r r =? 1 then work
  else let scale := gal_divide 1 (cell work r r) in
       <[r := map (fun v => gal_mul v scale) (work !!! r)]> work.

(** Add the multiple of row [p] that clears column [p] of row [b]. *)
Definition clear_row (p : nat) (work : list (list Z)) (b : nat) : list (list Z) :=
  if cell work b p =? 0 then work
  else let scale := cell work b p in
       <[b := zip_with (fun d s => Z.lxor d (gal_mul scale s)) (work !!! b) (work !!! p)]> work.

Definition gauss_step (n : nat) (w : option (list (list Z))) (r : nat)
    : option (list (list Z)) :=
  match w with
  | None => None
  | Some work =>
      let work := pivot n work r in
      if cell work r r =? 0 then None
      else Some (foldl (clear_row r) (normalize work r) (seq (S r) (n - S r)))
  end.

Definition clear_above (work : list (list Z)) (d : nat) : list (list Z) :=
  foldl (clear_row d) work (seq 0 d).

Definition invert (m : Matrix) : option Matrix :=
  if negb (Nat.eqb (rows m) (cols m)) then None
  else
    let size := rows m in
    let work := augment m (identity size) in
    match foldl (gauss_step (rows work)) (Some (data work)) (seq 0 (rows work)) with
    | None => None
    | Some w =>
        let w := foldl clear_above w (seq 0 (rows work)) in
        Some (sub_matrix (mkMatrix (rows work) (cols work) w) 0 size size (size * 2))
    end.

(** ** The codec *)

(** [fn build_matrix]. *)
Definition build_matrix (data_shards total_shards : nat) : option Matrix :=
  let vm := vandermonde total_shards data_shards in
  let top := sub_matrix vm 0 0 data_shards data_shards in
  match invert top with
  | None => None
  | Some top_inv => Some (multiply vm top_inv)
  end.

(** [struct ReedSolomon]. *)
Record ReedSolomon := mkRS {
  data_shards : nat;
  parity_shards : nat;
  total_shards : nat;
  matrix : Matrix }.

(** [enum RsError]. *)
Inductive RsError :=
| InvalidShardNumber
| TooFewShards (need have : nat)
| ShardSizeMismatch
| Singular.

(** [ReedSolomon::new]. *)
Definition rs_new (ds ps : nat) : result ReedSolomon RsError :=
  let total := (ds + ps)%nat in
  if Nat.eqb ds 0 || Nat.ltb 256 total then Err InvalidShardNumber
  else if Nat.eqb ps 0 then Ok (mkRS ds ps total (identity ds))
  else match build_matrix ds total with
       | None => Err Singular
       | Some m => Ok (mkRS ds ps total m)
       end.

(** The loop that finds the common size of the present shards. *)
Fixpoint present_size (acc : option nat) (shards : list (option bytes))
    : result (option nat) RsError :=
  match shards with
  | [] => Ok acc
  | None :: rest => present_size acc rest
  | Some s :: rest =>
      match acc with
      | None => present_size (Some (length s)) rest
      | Some sz => if Nat.eqb sz (length s) then present_size acc rest
                   else Err ShardSizeMismatch
      end
  end.

Definition is_present (s : option bytes) : bool :=
  match s with Some _ => true | None => false end.

Definition count_present (shards : list (option bytes)) : nat :=
  length (List.filter is_present shards).

(** The first [k] present shards with their row indices, counted from [i]. *)
Fixpoint pick_present (k i : nat) (shards : list (option bytes)) : list (nat * bytes) :=
  match k, shards with
  | O, _ => []
  | _, [] => []
  | S k', Some s :: rest => (i, s) :: pick_present k' (S i) rest
  | S _, None :: rest => pick_present k (S i) rest
  end.

(** [for (o, &b) in out.iter_mut().zip(in) { *o ^= gal_mul(coeff, b) }]. *)
Fixpoint xor_into (coeff : Z) (out inp : bytes) : bytes :=
  match out, inp with
  | o :: out', b :: inp' => Z.lxor o (gal_mul coeff b) :: xor_into coeff out' inp'
  | _, _ => out
  end.

(** A linear combination of shards with the coefficients of a matrix row. *)
Definition combine_shards (row : list Z) (size : nat) (shards : list bytes) : bytes :=
  foldl (fun out c => if row !!! c =? 0 then out else xor_into (row !!! c) out (shards !!! c))
    (replicate size 0) (seq 0 (length shards)).

(** [ReedSolomon::reconstruct_data]. *)
Definition reconstruct_data (rs : ReedSolomon) (shards : list (option bytes))
    : result (list (option bytes)) RsError :=
  if negb (Nat.eqb (length shards) (total_shards rs)) then Err InvalidShardNumber
  else match present_size None shards with
  | Err e => Err e
  | Ok None => Err (TooFewShards (data_shards rs) 0)
  | Ok (Some shard_size) =>
    if Nat.eqb (count_present (take (data_shards rs) shards)) (data_shards rs) then Ok shards
    else if Nat.ltb (count_present shards) (data_shards rs)
    then Err (TooFewShards (data_shards rs) (count_present shards))
    else
      let picked := pick_present (data_shards rs) 0 shards in
      let sub := mat_fill (data_shards rs) (data_shards rs)
                   (fun i j => mget (matrix rs) (picked.*1 !!! i) j) in
      match invert sub with
      | None => Err Singular
      | Some decode =>
          Ok (foldl (fun sh i =>
                match sh !!! i with
                | Some _ => sh
                | None => <[i := Some (combine_shards (data decode !!! i) shard_size picked.*2)]> sh
                end) shards (seq 0 (data_shards rs)))
      end
  end.

(** [ReedSolomon::encode]. *)
Definition encode (rs : ReedSolomon) (shards : list bytes) : result (list bytes) RsError :=
  if negb (Nat.eqb (length shards) (total_shards rs)) then Err InvalidShardNumber
  else
    let shard_size := length (shards !!! 0%nat) in
    if negb (forallb (fun s => Nat.eqb (length s) shard_size) shards) then Err ShardSizeMismatch
    else Ok (foldl (fun sh p =>
           <[(data_shards rs + p)%nat :=
              combine_shards (data (matrix rs) !!! (data_shards rs + p)%nat) shard_size
                (take (data_shards rs) sh)]> sh)
         shards (seq 0 (parity_shards rs))).

(** ** Shapes and cells *)

Definition shape (n N : nat) (W : list (list Z)) : Prop :=
  length W = n /\ Forall (fun row => length row = N /\ all_bytes row) W.

Lemma shape_row n N W i : shape n N W -> (i < n)%nat ->
  length (W !!! i) = N /\ all_bytes (W !!! i).
Proof. intros [Hl H] Hi. apply (Forall_lookup_total_1 _ _ _ H). lia. Qed.

Lemma cell_byte n N W i j : shape n N W -> (i < n)%nat -> (j < N)%nat -> is_byte (cell W i j).
Proof.
  intros HW Hi Hj. destruct (shape_row _ _ _ _ HW Hi) as [Hl Hb].
  apply (Forall_lookup_total_1 _ _ _ Hb). lia.
Qed.

Lemma shape_insert n N W i row : shape n N W -> length row = N -> all_bytes row ->
  shape n N (<[i := row]> W).
Proof. intros [Hl H] ? ?. split; [by rewrite length_insert|]. by apply Forall_insert. Qed.

Lemma cell_insert n N W i k j row : shape n N W -> (i < n)%nat ->
  cell (<[i := row]> W) k j = if Nat.eqb k i then row !!! j else cell W k j.
Proof.
  intros [Hl _] Hi. unfold cell. destruct (Nat.eqb_spec k i) as [->|].
  - rewrite list_lookup_total_insert_eq by lia. done.
  - by rewrite list_lookup_total_insert_ne.
Qed.

Lemma map_seq_total {A : Type} `{Inhabited A} (f : nat -> A) n i : (i < n)%nat ->
  map f (seq 0 n) !!! i = f i.
Proof.
  intros Hi. apply list_lookup_total_correct.
  change (map f) with (fmap f : list nat -> list A).
  rewrite list_lookup_fmap, lookup_seq_lt by lia. done.
Qed.

Lemma mget_fill r c f i j : (i < r)%nat -> (j < c)%nat -> mget (mat_fill r c f) i j = f i j.
Proof.
  intros Hi Hj. unfold mget, cell, mat_fill; cbn [data].
  rewrite (map_seq_total _ r i Hi). by apply map_seq_total.
Qed.

Lemma shape_fill r c f : (forall i j, (i < r)%nat -> (j < c)%nat -> is_byte (f i j)) ->
  shape r c (data (mat_fill r c f)).
Proof.
  intros Hf. unfold mat_fill; cbn [data]. split; [by rewrite length_map, length_seq|].
  apply Forall_forall. intros row Hrow. apply list_elem_of_fmap in Hrow as (i & -> & Hi).
  apply elem_of_seq in Hi. split; [by rewrite length_map, length_seq|].
  apply Forall_forall. intros z Hz. apply list_elem_of_fmap in Hz as (j & -> & Hj).
  apply elem_of_seq in Hj. apply Hf; lia.
Qed.

(** A well-formed [n] x [c] matrix. *)
Definition wf_matrix (r c : nat) (m : Matrix) : Prop :=
  rows m = r /\ cols m = c /\ shape r c (data m).

Lemma wf_fill r c f : (forall i j, (i < r)%nat -> (j < c)%nat -> is_byte (f i j)) ->
  wf_matrix r c (mat_fill r c f).
Proof. intros. split; [done|]. split; [done|]. by apply shape_fill. Qed.

Lemma mget_byte r c m i j : wf_matrix r c m -> (i < r)%nat -> (j < c)%nat -> is_byte (mget m i j).
Proof. intros (_ & _ & H). by apply cell_byte. Qed.

(** ** Row operations preserve the solution set *)

Section Gauss.
Context (n N : nat) (HnN : (n <= N)%nat).

Definition sol (W : list (list Z)) (x : nat -> Z) : Prop :=
  forall i, (i < n)%nat -> dot N (cell W i) x = 0.

(** [W'] has the same solutions as [W]. *)
Definition same_sol (W W' : list (list Z)) : Prop :=
  forall x, (forall j, is_byte (x j)) -> sol W x <-> sol W' x.

Lemma same_sol_refl W : same_sol W W.
Proof. done. Qed.

Lemma same_sol_trans W1 W2 W3 : same_sol W1 W2 -> same_sol W2 W3 -> same_sol W1 W3.
Proof. intros H1 H2 x Hx. rewrite (H1 x Hx). by apply H2. Qed.

Lemma clear_row_spec p W b : shape n N W -> (p < n)%nat -> (b < n)%nat ->
  shape n N (clear_row p W b) /\
  forall i j, (i < n)%nat -> (j < N)%nat ->
    cell (clear_row p W b) i j =
    if Nat.eqb i b then Z.lxor (cell W b j) (gal_mul (cell W b p) (cell W p j)) else cell W i j.
Proof.
  intros HW Hp Hb. unfold clear_row.
  destruct (shape_row _ _ _ _ HW Hp) as [Lp Bp]. destruct (shape_row _ _ _ _ HW Hb) as [Lb Bb].
  destruct (Z.eqb_spec (cell W b p) 0) as [E|E].
  - split; [done|]. intros i j Hi Hj. destruct (Nat.eqb_spec i b) as [->|]; [|done].
    by rewrite E, gal_mul_0_l, Z.lxor_0_r.
  - split.
    + apply shape_insert; [done| rewrite length_zip_with; lia |].
      apply Forall_zip_with_fst with (P := is_byte) (l := W !!! b) (k := W !!! p); [done|].
      apply Forall_true. intros x y Hy. auto with hov.
    + intros i j Hi Hj. rewrite (cell_insert n N) by done.
      destruct (Nat.eqb i b); [|done]. unfold cell.
      apply list_lookup_total_correct. rewrite lookup_zip_with.
      rewrite !(list_lookup_lookup_total_lt) by lia. done.
Qed.

Lemma clear_rows_spec p (L : list nat) W :
  shape n N W -> (p < n)%nat -> Forall (fun b => b < n /\ b <> p)%nat L -> NoDup L ->
  let W' := foldl (clear_row p) W L in
  shape n N W' /\
  (forall i j, (i < n)%nat -> (j < N)%nat ->
    cell W' i j = if bool_decide (i ∈ L)
                  then Z.lxor (cell W i j) (gal_mul (cell W i p) (cell W p j)) else cell W i j).
Proof.
  intros HW Hp HL HN. revert W HW. induction L as [|b L IH]; intros W HW; [done|].
  apply Forall_cons in HL as [[Hb Hbp] HL]. apply NoDup_cons in HN as [Hni HN].
  destruct (clear_row_spec p W b HW Hp Hb) as [HW1 Hc1].
  destruct (IH HL HN (clear_row p W b) HW1) as [HW2 Hc2]. cbn [foldl]. split; [done|].
  intros i j Hi Hj. rewrite Hc2, !Hc1 by lia.
  destruct (Nat.eqb_spec p b); [lia|].
  destruct (Nat.eqb_spec i b) as [->|Hib].
  - rewrite (bool_decide_eq_false_2 (b ∈ L)), bool_decide_eq_true_2 by (done || (apply list_elem_of_here)). done.
  - rewrite (bool_decide_ext (i ∈ b :: L) (i ∈ L)) by (rewrite elem_of_cons; tauto). done.
Qed.

Lemma clear_rows_sol p L W :
  shape n N W -> (p < n)%nat -> Forall (fun b => b < n /\ b <> p)%nat L -> NoDup L ->
  same_sol W (foldl (clear_row p) W L).
Proof.
  intros HW Hp HL HN x Hx. destruct (clear_rows_spec p L W HW Hp HL HN) as [HW' Hc].
  assert (Hd : forall i, (i < n)%nat -> dot N (cell (foldl (clear_row p) W L) i) x =
    if bool_decide (i ∈ L)
    then Z.lxor (dot N (cell W i) x) (gal_mul (cell W i p) (dot N (cell W p) x))
    else dot N (cell W i) x).
  { intros i Hi. transitivity (dot N (fun j => if bool_decide (i ∈ L)
      then Z.lxor (cell W i j) (gal_mul (cell W i p) (cell W p j)) else cell W i j) x).
    { apply dot_ext; auto. }
    case_bool_decide; [|done]. apply dot_row_add; [eapply cell_byte; eauto; lia|].
    intros j Hj. split_and!; eauto using cell_byte. }
  assert (Hpp : ~ p ∈ L) by (intros Hin; rewrite Forall_forall in HL; apply HL in Hin; lia).
  split; intros Hs i Hi.
  - rewrite Hd, (Hs i Hi), (Hs p Hp) by done. by destruct (bool_decide _); rewrite ?gal_mul_0_r.
  - pose proof (Hs p Hp) as Ep. rewrite Hd, bool_decide_eq_false_2 in Ep by done.
    specialize (Hs i Hi). rewrite Hd, Ep, gal_mul_0_r, Z.lxor_0_r in Hs by done.
    by destruct (bool_decide _).
Qed.

Lemma swap_rows_spec W r b : shape n N W -> (r < n)%nat -> (b < n)%nat ->
  shape n N (swap_rows W r b) /\
  forall i j, cell (swap_rows W r b) i j =
    if Nat.eqb i r then cell W b j else if Nat.eqb i b then cell W r j else cell W i j.
Proof.
  intros HW Hr Hb.
  destruct (shape_row _ _ _ _ HW Hr). destruct (shape_row _ _ _ _ HW Hb).
  assert (shape n N (<[b := W !!! r]> W)) by (by apply shape_insert).
  split; [by apply shape_insert|].
  intros i j. unfold swap_rows. rewrite (cell_insert n N) by done.
  destruct (Nat.eqb i r); [done|]. rewrite (cell_insert n N) by done. done.
Qed.

(** The pivot step keeps the rows above [r], may exchange the rows below, and
    leaves a zero pivot only if the whole column is zero from row [r] down. *)
Lemma pivot_spec W r : shape n N W -> (r < n)%nat ->
  exists f : nat -> nat,
    (forall i, (i < n)%nat -> (f i < n)%nat /\ f (f i) = i) /\
    (forall i, (i < r)%nat -> f i = i) /\ (forall i, (r <= i)%nat -> (r <= f i)%nat) /\
    shape n N (pivot n W r) /\ (forall i j, cell (pivot n W r) i j = cell W (f i) j) /\
    (cell (pivot n W r) r r = 0 -> forall i, (r <= i)%nat -> (i < n)%nat ->
       cell (pivot n W r) i r = 0).
Proof.
  intros HW Hr. unfold pivot. destruct (Z.eqb_spec (cell W r r) 0) as [E|E].
  2:{ exists id. split_and!; auto. intros; lia. }
  destruct (List.find _ _) as [b|] eqn:Hf.
  - apply find_some in Hf as [Hin Hnz]. apply in_seq in Hin.
    rewrite negb_true_iff, Z.eqb_neq in Hnz.
    destruct (swap_rows_spec W r b HW Hr ltac:(lia)) as [HW' Hc].
    exists (fun i => if Nat.eqb i r then b else if Nat.eqb i b then r else i). split_and!.
    + intros i Hi. destruct (Nat.eqb_spec i r) as [->|]; [|destruct (Nat.eqb_spec i b) as [->|]].
      * rewrite (proj2 (Nat.eqb_neq b r)), Nat.eqb_refl by lia. lia.
      * rewrite Nat.eqb_refl. lia.
      * by rewrite (proj2 (Nat.eqb_neq i r)), (proj2 (Nat.eqb_neq i b)).
    + intros i Hi. by rewrite (proj2 (Nat.eqb_neq i r)), (proj2 (Nat.eqb_neq i b)) by lia.
    + intros i Hi. destruct (Nat.eqb i r); [lia|]. destruct (Nat.eqb i b); lia.
    + done.
    + intros i j. rewrite Hc. by destruct (Nat.eqb i r), (Nat.eqb i b).
    + rewrite Hc, Nat.eqb_refl. done.
  - exists id. split_and!; auto. intros _ i Hri Hi.
    destruct (decide (i = r)) as [->|]; [done|].
    apply (find_none _ _) with (x := i) in Hf; [|apply in_seq; lia].
    by rewrite negb_false_iff, Z.eqb_eq in Hf.
Qed.

Lemma pivot_sol W r : shape n N W -> (r < n)%nat -> same_sol W (pivot n W r).
Proof.
  intros HW Hr x Hx. destruct (pivot_spec W r HW Hr) as (f & Hf & _ & _ & _ & Hc & _).
  assert (Hd : forall i, dot N (cell (pivot n W r) i) x = dot N (cell W (f i)) x).
  { intros i. apply dot_ext; auto. }
  split; intros Hs i Hi; destruct (Hf i Hi) as [Hl Hi'].
  - rewrite Hd. by apply Hs.
  - rewrite <- Hi', <- Hd. by apply Hs.
Qed.

Lemma normalize_spec W r : shape n N W -> (r < n)%nat -> cell W r r <> 0 ->
  exists a, is_byte a /\ a <> 0 /\ gal_mul (cell W r r) a = 1 /\
    shape n N (normalize W r) /\
    (forall i j, (i < n)%nat -> (j < N)%nat -> cell (normalize W r) i j =
       if Nat.eqb i r then gal_mul (cell W r j) a else cell W i j).
Proof.
  intros HW Hr Hz. destruct (shape_row _ _ _ _ HW Hr) as [Lr Br].
  assert (Brr : is_byte (cell W r r)) by (eapply cell_byte; eauto; lia).
  unfold normalize. destruct (Z.eqb_spec (cell W r r) 1) as [E|E].
  - exists 1. split_and!; auto with hov; [by rewrite E, gal_mul_1_l by auto with hov|].
    intros i j Hi Hj. destruct (Nat.eqb_spec i r) as [->|]; [|done].
    rewrite gal_mul_comm, gal_mul_1_l; eauto using cell_byte.
  - destruct (gal_divide_mul _ Brr Hz) as (Ba & Na & Ea).
    exists (gal_divide 1 (cell W r r)). split_and!; auto.
    + by rewrite gal_mul_comm.
    + apply shape_insert; [done|by rewrite length_map|].
      apply Forall_fmap, Forall_true. intros; simpl; auto with hov.
    + intros i j Hi Hj. rewrite (cell_insert n N) by done. destruct (Nat.eqb i r); [|done].
      apply list_lookup_total_correct.
      change (map (λ v, gal_mul v (gal_divide 1 (cell W r r))) (W !!! r))
        with ((λ v, gal_mul v (gal_divide 1 (cell W r r))) <$> (W !!! r)).
      rewrite list_lookup_fmap, list_lookup_lookup_total_lt by lia. done.
Qed.

Lemma normalize_sol W r : shape n N W -> (r < n)%nat -> cell W r r <> 0 ->
  same_sol W (normalize W r).
Proof.
  intros HW Hr Hz x Hx.
  destruct (normalize_spec W r HW Hr Hz) as (a & Ba & Na & _ & HW' & Hc).
  assert (Hd : forall i, (i < n)%nat -> dot N (cell (normalize W r) i) x =
    if Nat.eqb i r then gal_mul a (dot N (cell W r) x) else dot N (cell W i) x).
  { intros i Hi. destruct (Nat.eqb_spec i r) as [->|Hir].
    - rewrite <- dot_row_scale by eauto using cell_byte.
      apply dot_ext; [|done]. intros j Hj. by rewrite Hc, Nat.eqb_refl.
    - apply dot_ext; [|done]. intros j Hj. by rewrite Hc, (proj2 (Nat.eqb_neq i r)). }
  split; intros Hs i Hi.
  - rewrite Hd by done. destruct (Nat.eqb i r); [by rewrite (Hs r Hr), gal_mul_0_r|auto].
  - specialize (Hs i Hi). rewrite Hd in Hs by done.
    revert Hs. destruct (Nat.eqb_spec i r) as [E|_]; [|done]. intros Hs. rewrite E.
    apply gal_mul_eq_0 in Hs as [?|?]; auto with hov. done.
Qed.

(** Unit upper triangular in the first [r] columns. *)
Definition form (r : nat) (W : list (list Z)) : Prop :=
  (forall i, (i < r)%nat -> cell W i i = 1) /\
  (forall i j, (j < r)%nat -> (j < i)%nat -> (i < n)%nat -> cell W i j = 0).

Lemma below_rows r : Forall (fun b => b < n /\ b <> r)%nat (seq (S r) (n - S r)).
Proof. apply Forall_forall. intros b Hb. apply elem_of_seq in Hb. lia. Qed.

Lemma gauss_step_some W W' r : shape n N W -> (r < n)%nat -> form r W ->
  gauss_step n (Some W) r = Some W' -> shape n N W' /\ form (S r) W' /\ same_sol W W'.
Proof.
  intros HW Hr [Hd Hl] H. unfold gauss_step in H.
  destruct (Z.eqb_spec (cell (pivot n W r) r r) 0) as [|Hz]; [discriminate|].
  injection H as <-.
  destruct (pivot_spec W r HW Hr) as (f & Hf & Hf1 & Hf2 & HP & HPc & _).
  destruct (normalize_spec _ r HP Hr Hz) as (a & Ba & Na & Ea & HQ & HQc).
  destruct (clear_rows_spec r _ _ HQ Hr (below_rows r) (NoDup_seq _ _)) as [HR HRc].
  assert (Hlow : forall i j, (r <= i)%nat -> (i < n)%nat -> (j < r)%nat ->
            cell (pivot n W r) i j = 0).
  { intros i j Hi Hin Hj. rewrite HPc. destruct (Hf i Hin). specialize (Hf2 i Hi).
    apply Hl; lia. }
  assert (HQlow : forall i j, (r <= i)%nat -> (i < n)%nat -> (j < r)%nat ->
            cell (normalize (pivot n W r) r) i j = 0).
  { intros i j Hi Hin Hj. rewrite HQc by lia. destruct (Nat.eqb i r); rewrite Hlow by lia; done. }
  assert (HQd : cell (normalize (pivot n W r) r) r r = 1).
  { rewrite HQc, Nat.eqb_refl by lia. done. }
  split; [done|]. split; [split|].
  - intros i Hi. rewrite HRc by lia. rewrite bool_decide_eq_false_2 by (rewrite elem_of_seq; lia).
    destruct (decide (i = r)) as [->|]; [done|].
    rewrite HQc, (proj2 (Nat.eqb_neq i r)), HPc, Hf1 by lia. apply Hd. lia.
  - intros i j Hj Hji Hi. rewrite HRc by lia.
    destruct (decide (j = r)) as [->|].
    + rewrite bool_decide_eq_true_2 by (rewrite elem_of_seq; lia).
      rewrite HQd, (gal_mul_comm _ 1), gal_mul_1_l by (eapply cell_byte; eauto; lia).
      apply Z.lxor_nilpotent.
    + rewrite (HQlow r j), gal_mul_0_r, Z.lxor_0_r by lia.
      assert (Hz0 : cell (normalize (pivot n W r) r) i j = 0).
      { destruct (decide (r <= i)%nat); [apply HQlow; lia|].
        rewrite HQc, (proj2 (Nat.eqb_neq i r)), HPc, Hf1 by lia. apply Hl; lia. }
      by destruct (bool_decide _).
  - eapply same_sol_trans; [by apply pivot_sol|].
    eapply same_sol_trans; [by apply normalize_sol|].
    apply clear_rows_sol; auto using below_rows, NoDup_seq.
Qed.

Lemma gauss_step_none W r : shape n N W -> (r < n)%nat -> form r W ->
  gauss_step n (Some W) r = None ->
  exists x, (forall j, is_byte (x j)) /\ x r = 1 /\ (forall j, (r < j)%nat -> x j = 0) /\ sol W x.
Proof.
  intros HW Hr [Hd Hl] H. unfold gauss_step in H.
  destruct (Z.eqb_spec (cell (pivot n W r) r r) 0) as [Hz|]; [|discriminate].
  destruct (pivot_spec W r HW Hr) as (f & Hf & Hf1 & Hf2 & HP & HPc & Hcol).
  destruct (kernel_exists (cell (pivot n W r)) n r N) as (x & Hx & Hxr & Hx0 & Hs); [lia..| | | |].
  - intros i Hi. rewrite HPc, Hf1 by done. auto.
  - intros i j Hj Hji Hi. rewrite HPc. apply Hl; [done| |by apply Hf].
    destruct (decide (i < r)%nat); [by rewrite Hf1|]. specialize (Hf2 i). lia.
  - auto.
  - exists x. split_and!; auto. apply (pivot_sol W r HW Hr x Hx). done.
Qed.

Lemma gauss_none L : foldl (gauss_step n) None L = None.
Proof. induction L; simpl; auto. Qed.

(** The forward phase either triangulates the matrix or exhibits a kernel vector. *)
Lemma gauss_forward W k r : shape n N W -> form r W -> (r + k = n)%nat ->
  match foldl (gauss_step n) (Some W) (seq r k) with
  | Some W' => shape n N W' /\ form n W' /\ same_sol W W'
  | None => exists x r', (forall j, is_byte (x j)) /\ (r' < n)%nat /\ x r' = 1 /\
      (forall j, (n <= j)%nat -> x j = 0) /\ sol W x
  end.
Proof.
  revert W r. induction k as [|k IH]; intros W r HW Hf Hk; cbn [seq foldl].
  { replace n with r in * by lia. split_and!; auto using same_sol_refl. }
  destruct (gauss_step n (Some W) r) as [W1|] eqn:E.
  - destruct (gauss_step_some W W1 r HW ltac:(lia) Hf E) as (HW1 & Hf1 & Hs1).
    specialize (IH W1 (S r) HW1 Hf1 ltac:(lia)).
    destruct (foldl _ _ _) as [W2|].
    + destruct IH as (? & ? & ?). split_and!; eauto using same_sol_trans.
    + destruct IH as (x & r' & Hx & ? & ? & ? & Hs). exists x, r'. split_and!; auto.
      by apply (Hs1 x Hx).
  - rewrite gauss_none.
    destruct (gauss_step_none W r HW ltac:(lia) Hf E) as (x & Hx & Hxr & Hx0 & Hs).
    exists x, r. split_and!; auto with lia.
Qed.

(** The backward phase clears above the diagonal. *)
Lemma gauss_backward W k d : shape n N W -> form n W -> (d + k = n)%nat ->
  (forall i j, (j < d)%nat -> (i < j)%nat -> cell W i j = 0) ->
  let W' := foldl clear_above W (seq d k) in
  shape n N W' /\ same_sol W W' /\
  (forall i j, (i < n)%nat -> (j < n)%nat -> cell W' i j = if Nat.eqb i j then 1 else 0).
Proof.
  revert W d. induction k as [|k IH]; intros W d HW [Hd Hl] Hk Hup; cbn [seq foldl].
  { split_and!; auto using same_sol_refl. intros i j Hi Hj.
    destruct (Nat.eqb_spec i j) as [->|]; [by apply Hd|].
    destruct (decide (i < j)%nat); [apply Hup; lia|apply Hl; lia]. }
  assert (HL : Forall (fun b => b < n /\ b <> d)%nat (seq 0 d)).
  { apply Forall_forall. intros b Hb. apply elem_of_seq in Hb. lia. }
  destruct (clear_rows_spec d (seq 0 d) W HW ltac:(lia) HL (NoDup_seq _ _)) as [HW1 Hc1].
  assert (Hrow : forall j, (j < d)%nat -> cell W d j = 0) by (intros; apply Hl; lia).
  destruct (IH (clear_above W d) (S d)) as (HW2 & Hs2 & Hc2); auto; try lia.
  - split.
    + intros i Hi. unfold clear_above. rewrite Hc1 by lia.
      destruct (decide (i < d)%nat).
      * rewrite (Hrow i), gal_mul_0_r, Z.lxor_0_r by lia. rewrite Hd by done.
        by destruct (bool_decide _).
      * rewrite bool_decide_eq_false_2 by (rewrite elem_of_seq; lia). auto.
    + intros i j Hj Hji Hi. unfold clear_above. rewrite Hc1 by lia.
      case_bool_decide as Hin; [|by apply Hl]. apply elem_of_seq in Hin.
      rewrite (Hrow j), gal_mul_0_r, Z.lxor_0_r by lia. by apply Hl.
  - intros i j Hj Hij. unfold clear_above. rewrite Hc1 by lia.
    destruct (decide (j = d)) as [->|].
    + rewrite bool_decide_eq_true_2 by (rewrite elem_of_seq; lia).
      rewrite (Hd d), (gal_mul_comm _ 1), gal_mul_1_l by (try lia; eapply cell_byte; eauto; lia).
      apply Z.lxor_nilpotent.
    + rewrite (Hrow j), gal_mul_0_r, Z.lxor_0_r, Hup by lia. by destruct (bool_decide _).
  - split_and!; auto. eapply same_sol_trans; [|exact Hs2].
    apply clear_rows_sol; auto using NoDup_seq; lia.
Qed.
End Gauss.

(** ** [invert] computes the inverse, and succeeds on every injective matrix *)

(** [B] inverts [A]: [A x = y] exactly when [x = B y]. *)
Definition inverse_of (n : nat) (A B : Matrix) : Prop :=
  forall x y : nat -> Z, (forall j, is_byte (x j)) -> (forall j, is_byte (y j)) ->
    (forall i, (i < n)%nat -> dot n (mget A i) x = y i) <->
    (forall i, (i < n)%nat -> x i = dot n (mget B i) y).

(** [A] has a trivial kernel. *)
Definition injective_matrix (n : nat) (A : Matrix) : Prop :=
  forall x : nat -> Z, (forall j, is_byte (x j)) ->
    (forall i, (i < n)%nat -> dot n (mget A i) x = 0) -> forall i, (i < n)%nat -> x i = 0.

Lemma wf_identity n : wf_matrix n n (identity n).
Proof. apply wf_fill. intros i j _ _. destruct (Nat.eqb i j); auto with hov. Qed.

Lemma dot_identity n i x : (i < n)%nat -> is_byte (x i) -> dot n (mget (identity n) i) x = x i.
Proof.
  intros Hi Hx. unfold dot. rewrite (xsum_single _ i); [|done|].
  - unfold identity. rewrite mget_fill, Nat.eqb_refl by done. by apply gal_mul_1_l.
  - intros j Hj Hne. unfold identity. rewrite mget_fill by done.
    by rewrite (proj2 (Nat.eqb_neq i j)) by lia.
Qed.

Lemma wf_augment n A : wf_matrix n n A -> wf_matrix n (n + n) (augment A (identity n)).
Proof.
  intros HA. destruct HA as (Hr & Hc & HA'). unfold augment. rewrite Hr, Hc. apply wf_fill.
  intros i j Hi Hj. destruct (Nat.ltb_spec j n).
  - by eapply cell_byte.
  - eapply mget_byte; [apply wf_identity|done|simpl in Hj; lia].
Qed.

Lemma augment_sol n A z : wf_matrix n n A -> (forall j, is_byte (z j)) ->
  sol n (n + n) (data (augment A (identity n))) z <->
  (forall i, (i < n)%nat -> dot n (mget A i) z = z (n + i)%nat).
Proof.
  intros HA Hz. assert (Hd : forall i, (i < n)%nat ->
    dot (n + n) (cell (data (augment A (identity n))) i) z =
    Z.lxor (dot n (mget A i) z) (z (n + i)%nat)).
  { intros i Hi. unfold dot at 1. rewrite xsum_add. f_equal.
    - apply xsum_ext. intros j Hj. f_equal. destruct HA as (Hr & Hc & _).
      change (cell (data (augment A (identity n))) i j) with (mget (augment A (identity n)) i j).
      unfold augment. rewrite Hr, Hc, mget_fill by (simpl; lia).
      by destruct (Nat.ltb_spec j n); [|lia].
    - rewrite <- (dot_identity n i (fun j => z (n + j)%nat)) by auto.
      apply xsum_ext. intros j Hj. f_equal. destruct HA as (Hr & Hc & _).
      change (cell (data (augment A (identity n))) i (n + j))
        with (mget (augment A (identity n)) i (n + j)).
      unfold augment. rewrite Hr, Hc, mget_fill by (simpl; lia).
      destruct (Nat.ltb_spec (n + j) n); [lia|]. f_equal. lia. }
  split; intros H i Hi.
  - apply lxor_eq_0. rewrite <- Hd by done. by apply H.
  - rewrite Hd by done. apply lxor_eq_0. auto.
Qed.

Lemma shape_form_0 n W : form n 0 W.
Proof. split; intros; lia. Qed.

Lemma invert_some n A B : wf_matrix n n A -> invert A = Some B ->
  wf_matrix n n B /\ inverse_of n A B.
Proof.
  intros HA H. pose proof HA as (Hr & Hc & _). unfold invert in H.
  rewrite Hr, Hc, Nat.eqb_refl in H. cbn [negb] in H.
  destruct (wf_augment n A HA) as (Ar & Ac & HW). rewrite Ar, Ac in H.
  pose proof (gauss_forward n (n + n) ltac:(lia) _ n 0 HW (shape_form_0 _ _) eq_refl) as Hfw.
  destruct (foldl _ _ _) as [W1|]; [|discriminate].
  destruct Hfw as (HW1 & Hf1 & Hs1). injection H as <-.
  destruct (gauss_backward n (n + n) ltac:(lia) W1 n 0 HW1 Hf1 eq_refl ltac:(lia))
    as (HW2 & Hs2 & Hid).
  set (W2 := foldl clear_above W1 (seq 0 n)) in *.
  assert (HB : forall i j, (i < n)%nat -> (j < n)%nat ->
    mget (sub_matrix (mkMatrix n (n + n) W2) 0 n n (n * 2)) i j = cell W2 i (n + j)).
  { intros i j Hi Hj. unfold sub_matrix. rewrite mget_fill by lia. done. }
  split.
  { unfold sub_matrix. replace (n - 0)%nat with n by lia. replace (n * 2 - n)%nat with n by lia.
    apply wf_fill. intros i j Hi Hj. eapply cell_byte; [exact HW2|simpl; lia..]. }
  intros x y Hx Hy.
  set (z := fun j => if Nat.ltb j n then x j else y (j - n)%nat).
  assert (Hz : forall j, is_byte (z j)) by (intros j; unfold z; destruct (Nat.ltb j n); auto).
  assert (Hzx : forall j, (j < n)%nat -> z j = x j).
  { intros j Hj. unfold z. by destruct (Nat.ltb_spec j n); [|lia]. }
  assert (Hzy : forall j, z (n + j)%nat = y j).
  { intros j. unfold z. destruct (Nat.ltb_spec (n + j) n); [lia|]. f_equal. lia. }
  transitivity (sol n (n + n) (data (augment A (identity n))) z).
  { rewrite augment_sol by done. apply forall_proper. intros i.
    split; intros H Hi; specialize (H Hi); rewrite Hzy in *;
      rewrite <- H; apply dot_ext; auto; intros; symmetry; auto. }
  rewrite (same_sol_trans n (n + n) _ _ _ Hs1 Hs2 z Hz). apply forall_proper. intros i.
  assert (Hd : (i < n)%nat -> dot (n + n) (cell W2 i) z = Z.lxor (x i)
     (dot n (mget (sub_matrix (mkMatrix n (n + n) W2) 0 n n (n * 2)) i) y)).
  { intros Hi. unfold dot at 1. rewrite xsum_add. f_equal.
    - rewrite <- (dot_identity n i x) by auto. apply xsum_ext. intros j Hj.
      rewrite Hid, Hzx by done. unfold identity. by rewrite mget_fill.
    - apply xsum_ext. intros j Hj. by rewrite HB, Hzy. }
  split; intros H Hi; specialize (H Hi).
  - rewrite Hd in H by done. by apply lxor_eq_0.
  - rewrite Hd by done. by apply lxor_eq_0.
Qed.

Lemma invert_total n A : wf_matrix n n A -> injective_matrix n A -> exists B, invert A = Some B.
Proof.
  intros HA Hinj. pose proof HA as (Hr & Hc & _). unfold invert.
  rewrite Hr, Hc, Nat.eqb_refl. cbn [negb].
  destruct (wf_augment n A HA) as (Ar & Ac & HW). rewrite Ar, Ac.
  pose proof (gauss_forward n (n + n) ltac:(lia) _ n 0 HW (shape_form_0 _ _) eq_refl) as Hfw.
  destruct (foldl _ _ _) as [W1|]; [eauto|]. exfalso.
  destruct Hfw as (x & r & Hx & Hr' & Hxr & Hx0 & Hs).
  rewrite augment_sol in Hs by done.
  rewrite (Hinj x Hx) in Hxr; [lia| |done].
  intros i Hi. rewrite Hs, Hx0 by lia. done.
Qed.

Lemma inverse_left n A B : inverse_of n A B -> forall y, (forall j, is_byte (y j)) ->
  forall i, (i < n)%nat -> dot n (mget A i) (fun j => dot n (mget B j) y) = y i.
Proof. intros H y Hy. apply H; auto with hov. Qed.

Lemma inverse_injective n A B : inverse_of n A B -> injective_matrix n B.
Proof.
  intros H x Hx Hz i Hi. rewrite <- (inverse_left n A B H x Hx i Hi).
  apply xsum_0. intros j Hj. by rewrite Hz, gal_mul_0_r.
Qed.

(** ** The encoding matrix is maximum distance separable *)

Lemma wf_vandermonde r c : wf_matrix r c (vandermonde r c).
Proof. apply wf_fill. auto with hov. Qed.

Lemma total_seq_bytes (x : nat -> Z) k : (forall j, is_byte (x j)) -> all_bytes (map x (seq 0 k)).
Proof. intros Hx. apply Forall_fmap, Forall_true. intros; simpl; auto. Qed.

(** Any [k] distinct rows of the Vandermonde matrix determine a vector. *)
Lemma vandermonde_rows k total (idx : list nat) x :
  (k <= 256)%nat -> (total <= 256)%nat -> length idx = k -> NoDup idx ->
  Forall (fun r => r < total)%nat idx -> (forall j, is_byte (x j)) ->
  (forall i, (i < k)%nat -> dot k (mget (vandermonde total k) (idx !!! i)) x = 0) ->
  forall j, (j < k)%nat -> x j = 0.
Proof.
  intros Hk Ht Hlen Hnd Hidx Hx H.
  set (l := map x (seq 0 k)).
  assert (Hl : length l = k) by (unfold l; by rewrite length_map, length_seq).
  assert (Hz : Forall (eq 0) l).
  { apply (peval_roots l (map Z.of_nat idx)).
    - by apply total_seq_bytes.
    - apply Forall_fmap. eapply Forall_impl; [exact Hidx|]. intros r Hr. unfold compose, is_byte in *. lia.
    - apply NoDup_fmap; [apply _|done].
    - rewrite length_map. lia.
    - apply Forall_fmap, Forall_lookup. intros i r Hr. simpl.
      assert (Hi : (i < k)%nat) by (rewrite <- Hlen; eapply lookup_lt_Some; eauto).
      assert (Hrt : (r < total)%nat) by (eapply Forall_lookup_1 in Hidx; eauto).
      rewrite <- peval_dot, Hl; [|unfold is_byte; lia|by apply total_seq_bytes].
      rewrite <- (H i Hi), (list_lookup_total_correct _ _ _ Hr). apply dot_ext.
      + intros j Hj. unfold vandermonde. rewrite mget_fill by done.
        unfold wrap. by rewrite Z.mod_small by lia.
      + intros j Hj. by apply map_seq_total. }
  intros j Hj. rewrite <- (map_seq_total x k j Hj). symmetry.
  apply (Forall_lookup_total_1 _ _ _ Hz). by fold l; rewrite Hl.
Qed.

(** The rows [idx] of a matrix, as a square matrix. *)
Definition pick_rows (k : nat) (m : Matrix) (idx : list nat) : Matrix :=
  mat_fill k k (fun i j => mget m (idx !!! i) j).

Lemma dot_pick_rows k m idx i x : (i < k)%nat ->
  dot k (mget (pick_rows k m idx) i) x = dot k (mget m (idx !!! i)) x.
Proof. intros Hi. apply dot_ext; [|done]. intros j Hj. unfold pick_rows. by rewrite mget_fill. Qed.

Lemma wf_pick_rows k total m idx : wf_matrix total k m ->
  length idx = k -> Forall (fun r => r < total)%nat idx -> wf_matrix k k (pick_rows k m idx).
Proof.
  intros Hm Hlen Hidx. apply wf_fill. intros i j Hi Hj. eapply mget_byte; [done| |done].
  apply (Forall_lookup_total_1 _ _ _ Hidx). lia.
Qed.

(** What the codec needs of its matrix. *)
Record mds (k total : nat) (m : Matrix) : Prop := {
  mds_wf : wf_matrix total k m;
  mds_top : forall i x, (i < k)%nat -> (forall j, is_byte (x j)) -> dot k (mget m i) x = x i;
  mds_inj : forall idx, length idx = k -> NoDup idx -> Forall (fun r => r < total)%nat idx ->
    injective_matrix k (pick_rows k m idx) }.

Lemma identity_mds k : mds k k (identity k).
Proof.
  split; [apply wf_identity| intros; by apply dot_identity|].
  intros idx Hlen Hnd Hidx x Hx Hz j Hj.
  assert (Hin : j ∈ idx).
  { assert (Hp : idx ≡ₚ seq 0 k).
    { apply submseteq_length_Permutation; [|by rewrite length_seq, Hlen].
      apply NoDup_submseteq; [done|]. intros r Hr. rewrite Forall_forall in Hidx.
      apply elem_of_seq. specialize (Hidx r Hr). lia. }
    rewrite Hp. apply elem_of_seq. lia. }
  apply list_elem_of_lookup in Hin as [i Hi].
  assert (Hik : (i < k)%nat) by (rewrite <- Hlen; eapply lookup_lt_Some; eauto).
  specialize (Hz i Hik). rewrite dot_pick_rows, (list_lookup_total_correct _ _ _ Hi) in Hz by done.
  by rewrite dot_identity in Hz.
Qed.

Lemma dot_multiply r k c A B i x : wf_matrix r k A -> wf_matrix k c B -> (i < r)%nat ->
  (forall j, is_byte (x j)) ->
  dot c (mget (multiply A B) i) x = dot k (mget A i) (fun j => dot c (mget B j) x).
Proof.
  intros HA HB Hi Hx. rewrite <- dot_assoc; eauto using mget_byte.
  apply dot_ext; [|done]. intros j Hj. unfold multiply.
  destruct HA as (Ar & Ac & _), HB as (Br & Bc & _).
  rewrite mget_fill by congruence. rewrite xsum_fold, Ac. done.
Qed.

Lemma build_matrix_mds k total : (1 <= k)%nat -> (k <= total)%nat -> (total <= 256)%nat ->
  exists m, build_matrix k total = Some m /\ mds k total m.
Proof.
  intros Hk Hkt Ht. unfold build_matrix.
  set (vm := vandermonde total k). set (top := sub_matrix vm 0 0 k k).
  pose proof (wf_vandermonde total k) as Hvm. fold vm in Hvm.
  assert (Htop : forall i, (i < k)%nat -> forall x, dot k (mget top i) x = dot k (mget vm i) x).
  { intros i Hi x. apply dot_ext; [|done]. intros j Hj. unfold top, sub_matrix.
    by rewrite mget_fill by lia. }
  assert (Hwf : wf_matrix k k top).
  { unfold top, sub_matrix. rewrite Nat.sub_0_r. apply wf_fill. intros i j Hi Hj.
    eapply mget_byte; eauto; lia. }
  assert (Hinj : injective_matrix k top).
  { intros x Hx Hz. apply (vandermonde_rows k total (seq 0 k) x); auto using NoDup_seq; try lia.
    - by rewrite length_seq.
    - apply Forall_forall. intros r Hr. apply elem_of_seq in Hr. lia.
    - intros i Hi. rewrite (list_lookup_total_correct _ _ i) by (apply lookup_seq_lt; lia).
      fold vm. rewrite <- Htop by lia. by apply Hz. }
  destruct (invert_total k top Hwf Hinj) as [top_inv Einv]. rewrite Einv.
  destruct (invert_some k top top_inv Hwf Einv) as [Hti Hinv].
  exists (multiply vm top_inv). split; [done|]. split.
  - unfold multiply. destruct Hvm as (-> & -> & _). destruct Hti as (_ & -> & _).
    apply wf_fill. intros. rewrite xsum_fold. apply xsum_byte. auto with hov.
  - intros i x Hi Hx. rewrite (dot_multiply total k k) by (auto; lia).
    rewrite <- Htop by done. by apply (inverse_left k top top_inv).
  - intros idx Hlen Hnd Hidx x Hx Hz.
    apply (inverse_injective k top top_inv Hinv x Hx).
    apply (vandermonde_rows k total idx); auto with hov; try lia.
    intros i Hi. specialize (Hz i Hi). rewrite dot_pick_rows in Hz by done.
    assert (Hr : (idx !!! i < total)%nat) by (apply (Forall_lookup_total_1 _ _ _ Hidx); lia).
    by rewrite (dot_multiply total k k) in Hz.
Qed.

(** A codec is well formed: consistent counts and an MDS matrix. *)
Record wf_rs (rs : ReedSolomon) : Prop := {
  wf_total : total_shards rs = (data_shards rs + parity_shards rs)%nat;
  wf_data_pos : (1 <= data_shards rs)%nat;
  wf_mds : mds (data_shards rs) (total_shards rs) (matrix rs) }.

Lemma rs_new_ok ds ps : (1 <= ds)%nat -> (ds + ps <= 256)%nat ->
  exists rs, rs_new ds ps = Ok rs /\ data_shards rs = ds /\ parity_shards rs = ps /\ wf_rs rs.
Proof.
  intros Hd Ht. unfold rs_new.
  rewrite (proj2 (Nat.eqb_neq ds 0)), (proj2 (Nat.ltb_ge 256 (ds + ps))) by lia. cbn [orb].
  destruct (Nat.eqb_spec ps 0) as [->|Hp].
  - eexists. split_and!; [reflexivity..|]. split; cbn; [done|done|].
    rewrite Nat.add_0_r. apply identity_mds.
  - destruct (build_matrix_mds ds (ds + ps)) as (m & -> & Hm); [lia..|].
    eexists. split_and!; [reflexivity..|]. by split.
Qed.

(** ** Encoding and reconstruction *)

Lemma lookup_total_byte l b : all_bytes l -> is_byte (l !!! b).
Proof.
  intros H. destruct (decide (b < length l)%nat).
  - by apply Forall_lookup_total_1.
  - rewrite list_lookup_total_alt, lookup_ge_None_2 by lia. apply is_byte_1.
Qed.

Lemma cell_bytes (cw : list bytes) i b : Forall (fun s => all_bytes s) cw -> is_byte (cell cw i b).
Proof.
  intros H. apply lookup_total_byte. destruct (decide (i < length cw)%nat).
  - by apply (Forall_lookup_total_1 _ _ _ H).
  - rewrite list_lookup_total_alt, lookup_ge_None_2 by lia. constructor.
Qed.

Lemma xor_into_spec c out inp : length inp = length out ->
  length (xor_into c out inp) = length out /\
  forall b, (b < length out)%nat ->
    xor_into c out inp !!! b = Z.lxor (out !!! b) (gal_mul c (inp !!! b)).
Proof.
  revert inp. induction out as [|o out IH]; intros [|i inp] Hl; simplify_eq/=; [split; [done|intros; lia]|].
  destruct (IH inp ltac:(lia)) as [IH1 IH2]. split; [by rewrite IH1|].
  intros [|b] Hb; [done|]. apply IH2. lia.
Qed.

Lemma combine_shards_spec row size shards :
  Forall (fun s => length s = size) shards ->
  length (combine_shards row size shards) = size /\
  forall b, (b < size)%nat -> combine_shards row size shards !!! b =
    dot (length shards) (fun c => row !!! c) (fun c => cell shards c b).
Proof.
  intros Hs. unfold combine_shards, dot.
  set (step := fun out c => _).
  assert (G : forall m, (m <= length shards)%nat ->
    length (foldl step (replicate size 0) (seq 0 m)) = size /\
    forall b, (b < size)%nat -> foldl step (replicate size 0) (seq 0 m) !!! b =
      xsum m (fun c => gal_mul (row !!! c) (cell shards c b))); [|by apply G].
  induction m as [|m IH]; intros Hm.
  { split; [apply length_replicate|]. intros b Hb. simpl.
    by rewrite lookup_total_replicate_2. }
  destruct (IH ltac:(lia)) as [IH1 IH2].
  assert (Hlm : length (shards !!! m) = size) by (apply (Forall_lookup_total_1 _ _ _ Hs); lia).
  rewrite seq_S, foldl_app. cbn [foldl xsum Nat.add]. unfold step at 1 3.
  destruct (Z.eqb_spec (row !!! m) 0) as [E|E].
  - split; [done|]. intros b Hb. by rewrite IH2, E, gal_mul_0_l, Z.lxor_0_r.
  - destruct (xor_into_spec (row !!! m) (foldl step (replicate size 0) (seq 0 m)) (shards !!! m))
      as [X1 X2]; [lia|].
    split; [lia|]. intros b Hb. rewrite X2, IH2 by lia. done.
Qed.

Lemma combine_shards_bytes row size shards :
  Forall (fun s => length s = size) shards -> all_bytes (combine_shards row size shards).
Proof.
  intros Hs. destruct (combine_shards_spec row size shards Hs) as [Hl Hb].
  apply Forall_lookup. intros b z Hz. rewrite <- (list_lookup_total_correct _ _ _ Hz), Hb.
  - auto with hov.
  - rewrite <- Hl. by eapply lookup_lt_Some.
Qed.

(** A codeword of [rs] with shards of [sz] bytes. *)
Record codeword (rs : ReedSolomon) (sz : nat) (cw : list bytes) : Prop := {
  cw_length : length cw = total_shards rs;
  cw_size : Forall (fun s => length s = sz) cw;
  cw_bytes : Forall (fun s => all_bytes s) cw;
  cw_eqs : forall r b, (r < total_shards rs)%nat -> (b < sz)%nat ->
    cell cw r b = dot (data_shards rs) (mget (matrix rs) r) (fun c => cell cw c b) }.

Lemma cell_take (l : list bytes) k c b : (c < k)%nat -> cell (take k l) c b = cell l c b.
Proof. intros. unfold cell. by rewrite !list_lookup_total_alt, lookup_take_lt. Qed.

(** The parity loop: data shards untouched, parity shards overwritten. *)
Lemma encode_loop rs sz (shards : list bytes) m :
  wf_rs rs -> length shards = total_shards rs -> (m <= parity_shards rs)%nat ->
  Forall (fun s => length s = sz) shards ->
  let f := fun sh p => <[(data_shards rs + p)%nat :=
     combine_shards (data (matrix rs) !!! (data_shards rs + p)%nat) sz
       (take (data_shards rs) sh)]> sh in
  let sh := foldl f shards (seq 0 m) in
  length sh = total_shards rs /\ take (data_shards rs) sh = take (data_shards rs) shards /\
  (forall p, (p < m)%nat -> sh !!! (data_shards rs + p)%nat =
     combine_shards (data (matrix rs) !!! (data_shards rs + p)%nat) sz
       (take (data_shards rs) shards)).
Proof.
  intros Hwf Hl Hm Hs f. induction m as [|m IH]; [split_and!; [done..|lia]|].
  destruct (IH ltac:(lia)) as (IH1 & IH2 & IH3).
  rewrite seq_S, foldl_app. cbn [foldl Nat.add]. unfold f at 1 3 5. rewrite IH2.
  split_and!.
  - by rewrite length_insert.
  - by rewrite take_insert_ge by lia.
  - intros p Hp. destruct (decide (p = m)) as [->|].
    + rewrite list_lookup_total_insert_eq; [done|]. pose proof (wf_total _ Hwf). lia.
    + rewrite list_lookup_total_insert_ne by lia. apply IH3. lia.
Qed.

Lemma encode_codeword rs sz shards :
  wf_rs rs -> length shards = total_shards rs ->
  Forall (fun s => length s = sz) shards -> Forall (fun s => all_bytes s) shards ->
  exists cw, encode rs shards = Ok cw /\ codeword rs sz cw /\
    take (data_shards rs) cw = take (data_shards rs) shards.
Proof.
  intros Hwf Hl Hs Hb. unfold encode. rewrite Hl, Nat.eqb_refl. cbn [negb].
  pose proof (wf_total _ Hwf) as Ht. pose proof (wf_data_pos _ Hwf) as Hk.
  assert (E0 : length (shards !!! 0%nat) = sz) by (apply (Forall_lookup_total_1 _ _ _ Hs); lia).
  rewrite E0. rewrite (proj2 (forallb_forall _ shards)); cbn [negb].
  2:{ intros s Hin. apply Nat.eqb_eq. rewrite List.Forall_forall in Hs. auto. }
  destruct (encode_loop rs sz shards (parity_shards rs) Hwf Hl (le_n _) Hs) as (L & T & P).
  set (cw := foldl _ _ _) in *. exists cw. split; [done|]. split; [|done].
  assert (Htk : Forall (fun s => length s = sz) (take (data_shards rs) shards))
    by (by apply Forall_take).
  assert (Hcase : forall r, (r < total_shards rs)%nat ->
    cw !!! r = if decide (r < data_shards rs)%nat then shards !!! r
      else combine_shards (data (matrix rs) !!! r) sz (take (data_shards rs) shards)).
  { intros r Hr. case_decide.
    - rewrite !list_lookup_total_alt, <- (lookup_take_lt cw (data_shards rs)), T by done.
      by rewrite lookup_take_lt.
    - replace r with (data_shards rs + (r - data_shards rs))%nat by lia. apply P. lia. }
  assert (Hlook : forall r s, cw !! r = Some s -> (r < total_shards rs)%nat /\ cw !!! r = s).
  { intros r s Hr. split; [rewrite <- L; by eapply lookup_lt_Some|].
    by apply list_lookup_total_correct. }
  split; [done| | |].
  - apply Forall_lookup. intros r s Hr. destruct (Hlook r s Hr) as [Hrt <-].
    rewrite Hcase by done. case_decide.
    + apply (Forall_lookup_total_1 _ _ _ Hs). lia.
    + by apply combine_shards_spec.
  - apply Forall_lookup. intros r s Hr. destruct (Hlook r s Hr) as [Hrt <-].
    rewrite Hcase by done. case_decide.
    + apply (Forall_lookup_total_1 _ _ _ Hb). lia.
    + by apply combine_shards_bytes.
  - intros r b Hr Hbz.
    assert (Hd : forall c, (c < data_shards rs)%nat -> cell cw c b = cell shards c b).
    { intros c Hc. unfold cell. rewrite Hcase by lia. by rewrite decide_True. }
    destruct (decide (r < data_shards rs)%nat) as [Hrk|Hrk].
    + symmetry.
      rewrite (dot_ext _ _ (mget (matrix rs) r) _ (fun c => cell shards c b)) by auto.
      rewrite (mds_top _ _ _ (wf_mds _ Hwf) r (fun c => cell shards c b) Hrk);
        [by rewrite Hd|].
      intros j. by apply cell_bytes.
    + unfold cell at 1. rewrite Hcase, decide_False by done.
      destruct (combine_shards_spec (data (matrix rs) !!! r) sz _ Htk) as [_ ->]; [|done].
      rewrite length_take_le by lia. apply dot_ext; [done|].
      intros c Hc. rewrite cell_take, Hd by done. done.
Qed.

(** What survives of a codeword. *)
Definition erasure_of (cw : list bytes) (shards : list (option bytes)) : Prop :=
  Forall2 (fun o s => o = None \/ o = Some s) shards cw.

Lemma present_size_acc sz cw shards acc :
  erasure_of cw shards -> Forall (fun s => length s = sz) cw ->
  acc = None \/ acc = Some sz ->
  present_size acc shards = Ok (if Nat.eqb (count_present shards) 0 then acc else Some sz).
Proof.
  intros He. revert acc. induction He as [|o s shards cw Ho He IH]; intros acc Hs Ha; [done|].
  apply Forall_cons in Hs as [Hs1 Hs]. destruct Ho as [->| ->]; [by apply IH|].
  cbn [present_size]. unfold count_present; cbn [List.filter is_present length Nat.eqb].
  assert (E : present_size (Some sz) shards = Ok (Some sz))
    by (rewrite IH by auto; by destruct (Nat.eqb _ 0)).
  destruct Ha as [-> | ->]; rewrite Hs1, ?Nat.eqb_refl; done.
Qed.

Lemma pick_present_spec k i shards :
  (k <= count_present shards)%nat ->
  length (pick_present k i shards) = k /\
  (forall j r s, pick_present k i shards !! j = Some (r, s) ->
     (i <= r)%nat /\ shards !! (r - i)%nat = Some (Some s)) /\
  NoDup (pick_present k i shards).*1.
Proof.
  revert k i. induction shards as [|o shards IH]; intros k i Hk.
  { unfold count_present in Hk. simpl in Hk. replace k with 0%nat by lia.
    simpl. split_and!; [done|done|constructor]. }
  destruct k as [|k]; [simpl; split_and!; [done|done|constructor]|].
  destruct o as [s|]; unfold count_present in Hk; cbn [List.filter is_present length] in Hk.
  - destruct (IH k (S i)) as (L & P & D); [unfold count_present; lia|].
    cbn [pick_present]. split_and!; [simpl; by rewrite L| |].
    + intros [|j] r s' Hj; simpl in Hj.
      * injection Hj as <- <-. split; [done|]. by rewrite Nat.sub_diag.
      * destruct (P j r s' Hj) as [P1 P2]. split; [lia|].
        replace (r - i)%nat with (S (r - S i)) by lia. done.
    + simpl. constructor; [|done]. intros Hin. apply list_elem_of_fmap in Hin as ([r s'] & E & Hin).
      simpl in E. subst r. apply list_elem_of_lookup in Hin as [j Hj].
      destruct (P j i s' Hj) as [P1 _]. lia.
  - destruct (IH (S k) (S i)) as (L & P & D); [unfold count_present; lia|].
    cbn [pick_present]. split_and!; [done| |done].
    intros j r s Hj. destruct (P j r s Hj) as [P1 P2]. split; [lia|].
    replace (r - i)%nat with (S (r - S i)) by lia. done.
Qed.

Lemma count_present_all shards :
  count_present shards = length shards -> forall i o, shards !! i = Some o -> o <> None.
Proof.
  unfold count_present. induction shards as [|o shards IH]; intros H i o' Hi; [done|].
  assert (length (List.filter is_present shards) <= length shards)%nat by apply filter_length_le.
  destruct o as [s|]; simpl in H; [|lia].
  destruct i as [|i]; simpl in Hi; [by injection Hi as <-|]. eapply IH; eauto.
Qed.

(** The loop that fills the missing data shards. *)
Lemma fill_loop (g : nat -> bytes) (shards : list (option bytes)) m :
  (m <= length shards)%nat ->
  let sh := foldl (fun sh i => match sh !!! i with
                     | Some _ => sh | None => <[i := Some (g i)]> sh end) shards (seq 0 m) in
  length sh = length shards /\
  forall i, sh !! i = if decide (i < m)%nat
    then match shards !!! i with Some s => Some (Some s) | None => Some (Some (g i)) end
    else shards !! i.
Proof.
  induction m as [|m IH]; intros Hm; [split; [done|]; intros i; by rewrite decide_False by lia|].
  destruct (IH ltac:(lia)) as [IH1 IH2]. clear IH. rewrite seq_S, foldl_app. cbn [foldl Nat.add].
  set (sh := foldl _ shards (seq 0 m)) in *.
  assert (Em : sh !!! m = shards !!! m).
  { rewrite !list_lookup_total_alt, IH2, decide_False by lia. done. }
  rewrite Em. destruct (shards !!! m) as [s|] eqn:Es.
  - split; [done|]. intros i. rewrite IH2. destruct (decide (i = m)) as [->|].
    + rewrite decide_False, decide_True, Es by lia.
      rewrite <- Es. apply list_lookup_lookup_total_lt. lia.
    + by destruct (decide (i < m)%nat), (decide (i < S m)%nat); try lia.
  - rewrite length_insert. split; [done|]. intros i. destruct (decide (i = m)) as [->|].
    + rewrite list_lookup_insert_eq, decide_True, Es by lia. done.
    + rewrite list_lookup_insert_ne, IH2 by done.
      by destruct (decide (i < m)%nat), (decide (i < S m)%nat); try lia.
Qed.

(** Any [data_shards] surviving shards of a codeword restore every data shard;
    the parity slots are left as they were. *)
Lemma reconstruct_codeword rs sz cw shards :
  wf_rs rs -> codeword rs sz cw -> erasure_of cw shards ->
  (data_shards rs <= count_present shards)%nat ->
  exists sh, reconstruct_data rs shards = Ok sh /\ length sh = total_shards rs /\
    (forall i, (i < data_shards rs)%nat -> sh !! i = Some (Some (cw !!! i))) /\
    (forall i, (data_shards rs <= i)%nat -> sh !! i = shards !! i).
Proof.
  intros Hwf Hcw He Hcnt. pose proof (wf_total _ Hwf) as Ht. pose proof (wf_data_pos _ Hwf) as Hk.
  pose proof (Forall2_length _ _ _ He) as Hlen. rewrite (cw_length _ _ _ Hcw) in Hlen.
  assert (Hsome : forall i s, shards !! i = Some (Some s) -> cw !!! i = s).
  { intros i s Hi. destruct (Forall2_lookup_l _ _ _ _ _ He Hi) as (s' & Hs' & Ho).
    rewrite (list_lookup_total_correct _ _ _ Hs'). destruct Ho; congruence. }
  unfold reconstruct_data. rewrite Hlen, Nat.eqb_refl. cbn [negb].
  rewrite (present_size_acc sz cw) by (auto; apply Hcw).
  rewrite (proj2 (Nat.eqb_neq (count_present shards) 0)) by lia.
  destruct (Nat.eqb_spec (count_present (take (data_shards rs) shards)) (data_shards rs)) as [Ea|_].
  - exists shards. split_and!; auto. intros i Hi.
    destruct (lookup_lt_is_Some_2 shards i ltac:(lia)) as [o Ho]. rewrite Ho.
    assert (o <> None).
    { eapply (count_present_all (take (data_shards rs) shards)) with (i := i).
      - rewrite Ea, length_take. lia.
      - by rewrite lookup_take_lt. }
    destruct o as [s|]; [|done]. by rewrite (Hsome i s).
  - rewrite (proj2 (Nat.ltb_ge _ _)) by lia.
    destruct (pick_present_spec (data_shards rs) 0 shards Hcnt) as (PL & PP & PD).
    set (picked := pick_present _ _ _) in *.
    assert (Hidx : Forall (fun r => r < total_shards rs)%nat picked.*1).
    { apply Forall_fmap, Forall_lookup. intros j [r s] Hj. simpl.
      destruct (PP j r s Hj) as [_ Hs]. rewrite Nat.sub_0_r in Hs.
      rewrite <- Hlen. by eapply lookup_lt_Some. }
    assert (HidxL : length picked.*1 = data_shards rs) by (by rewrite length_fmap).
    pose proof (wf_mds _ Hwf) as Hmds.
    change (mat_fill (data_shards rs) (data_shards rs)
      (λ i j : nat, mget (matrix rs) (picked.*1 !!! i) j))
      with (pick_rows (data_shards rs) (matrix rs) picked.*1).
    pose proof (wf_pick_rows _ _ _ _ (mds_wf _ _ _ Hmds) HidxL Hidx) as Hsq.
    destruct (invert_total _ _ Hsq (mds_inj _ _ _ Hmds _ HidxL PD Hidx)) as [dec Edec].
    rewrite Edec. destruct (invert_some _ _ _ Hsq Edec) as [Hdec Hinv].
    assert (Hp2 : Forall (fun s => length s = sz) picked.*2).
    { apply Forall_fmap, Forall_lookup. intros j [r s] Hj. simpl.
      destruct (PP j r s Hj) as [_ Hs]. rewrite Nat.sub_0_r in Hs.
      rewrite <- (Hsome _ _ Hs). apply (Forall_lookup_total_1 _ _ _ (cw_size _ _ _ Hcw)).
      rewrite (cw_length _ _ _ Hcw), <- Hlen. by eapply lookup_lt_Some. }
    assert (Hrec : forall i, (i < data_shards rs)%nat ->
      combine_shards (data dec !!! i) sz picked.*2 = cw !!! i).
    { intros i Hi. destruct (combine_shards_spec (data dec !!! i) sz picked.*2 Hp2) as [CL CB].
      assert (Hsz : length (cw !!! i) = sz).
      { apply (Forall_lookup_total_1 _ _ _ (cw_size _ _ _ Hcw)).
        rewrite (cw_length _ _ _ Hcw). lia. }
      apply list_eq_same_length with (n := sz); [done..|].
      intros b z1 z2 Hb Hz1 Hz2.
      apply list_lookup_total_correct in Hz1. apply list_lookup_total_correct in Hz2.
      rewrite <- Hz1, <- Hz2, CB by done. rewrite length_fmap, PL.
      symmetry. apply (Hinv (fun c => cell cw c b)
        (fun c => cell picked.*2 c b)); [intros; by apply cell_bytes, Hcw| | |done].
      - intros j. apply cell_bytes. apply Forall_fmap, Forall_lookup. intros j' [r s] Hj'. simpl.
        destruct (PP j' r s Hj') as [_ Hs]. rewrite Nat.sub_0_r in Hs.
        rewrite <- (Hsome _ _ Hs). apply (Forall_lookup_total_1 _ _ _ (cw_bytes _ _ _ Hcw)).
        rewrite (cw_length _ _ _ Hcw), <- Hlen. by eapply lookup_lt_Some.
      - intros j Hj. rewrite dot_pick_rows by done.
        destruct (lookup_lt_is_Some_2 picked j ltac:(lia)) as [[r s] Hjs].
        destruct (PP j r s Hjs) as [_ Hs]. rewrite Nat.sub_0_r in Hs.
        assert (E1 : picked.*1 !!! j = r).
        { apply list_lookup_total_correct. rewrite list_lookup_fmap, Hjs. done. }
        assert (E2 : picked.*2 !!! j = s).
        { apply list_lookup_total_correct. rewrite list_lookup_fmap, Hjs. done. }
        rewrite E1, <- (cw_eqs _ _ _ Hcw) by (try done; rewrite <- Hlen; by eapply lookup_lt_Some).
        unfold cell. by rewrite E2, (Hsome _ _ Hs). }
    destruct (fill_loop (fun i => combine_shards (data dec !!! i) sz picked.*2) shards
                (data_shards rs)) as [FL FI]; [lia|].
    eexists. split; [reflexivity|]. split; [lia|]. split; intros i Hi; rewrite FI.
    + rewrite decide_True by lia. destruct (shards !!! i) as [s|] eqn:Es.
      * rewrite <- (Hsome i s); [done|].
        rewrite <- Es. apply list_lookup_lookup_total_lt. lia.
      * by rewrite Hrec.
    + by rewrite decide_False by lia.
Qed.

(** ** Properties *)

(** The shards a mask lets through. *)
Definition erase (mask : list bool) (cw : list bytes) : list (option bytes) :=
  zip_with (fun (b : bool) s => if b then Some s else None) mask cw.

Lemma erase_erasure mask cw : length mask = length cw -> erasure_of cw (erase mask cw).
Proof.
  revert cw. induction mask as [|b mask IH]; intros [|s cw] Hl; simplify_eq/=; constructor; auto.
  - by destruct b; [right|left].
  - by apply IH.
Qed.

Lemma erase_count mask cw : length mask = length cw ->
  count_present (erase mask cw) = length (List.filter id mask).
Proof.
  unfold count_present. revert cw.
  induction mask as [|b mask IH]; intros [|s cw] Hl; simplify_eq/=; [done|].
  destruct b; simpl; rewrite <- (IH cw) by lia; done.
Qed.

(** C3: for every shard count the codec accepts ([1 <= ds], [ds + ps <= 256]),
    [ReedSolomon::new] succeeds, [encode] succeeds on [ds] data shards of equal
    size, and after erasing any shards such that at least [ds] of the [ds + ps]
    survive, [reconstruct_data] succeeds, returns exactly the original data
    shards in the data slots and leaves the parity slots as they were. *)
Theorem rs_any_ds_shards_recover (ds ps sz : nat) (shards : list bytes) (mask : list bool) :
  (1 <= ds)%nat -> (ds + ps <= 256)%nat -> length shards = ds ->
  Forall (fun s => length s = sz) shards -> Forall (fun s => all_bytes s) shards ->
  length mask = (ds + ps)%nat -> (ds <= length (List.filter id mask))%nat ->
  exists rs cw out,
    rs_new ds ps = Ok rs /\
    encode rs (shards ++ replicate ps (replicate sz 0)) = Ok cw /\
    reconstruct_data rs (erase mask cw) = Ok out /\
    take ds out = Some <$> shards /\ drop ds out = drop ds (erase mask cw).
Proof.
  intros Hd Ht Hl Hs Hb Hm Hc.
  destruct (rs_new_ok ds ps Hd Ht) as (rs & Enew & Eds & Eps & Hwf).
  pose proof (wf_total _ Hwf) as Etot. rewrite Eds, Eps in Etot.
  destruct (encode_codeword rs sz (shards ++ replicate ps (replicate sz 0)) Hwf)
    as (cw & Eenc & Hcw & Etake).
  { rewrite length_app, length_replicate. lia. }
  { apply Forall_app; split; [done|]. apply Forall_replicate, length_replicate. }
  { apply Forall_app; split; [done|]. apply Forall_replicate, Forall_replicate, is_byte_0. }
  assert (Hml : length mask = length cw) by (rewrite (cw_length _ _ _ Hcw); lia).
  destruct (reconstruct_codeword rs sz cw (erase mask cw) Hwf Hcw (erase_erasure _ _ Hml))
    as (out & Erec & Lo & Hi & Hhi); [rewrite erase_count by done; lia|].
  exists rs, cw, out. split_and!; auto.
  - rewrite Eds, take_app_length' in Etake by done.
    apply list_eq. intros i. rewrite list_lookup_fmap, <- Etake.
    destruct (decide (i < ds)%nat).
    + rewrite !lookup_take_lt, Hi by lia. rewrite list_lookup_lookup_total_lt; [done|].
      rewrite (cw_length _ _ _ Hcw). lia.
    + rewrite !lookup_take_ge by lia. done.
  - apply list_eq. intros i. rewrite !lookup_drop. apply Hhi. lia.
Qed.

Definition demo_shards : list bytes := [[1; 200; 3]; [40; 50; 255]; [7; 0; 9]].
Definition demo_mask : list bool := [false; true; false; true; true].

Lemma rs_any_ds_shards_recover_witness :
  exists rs cw out, rs_new 3 2 = Ok rs /\
    encode rs (demo_shards ++ replicate 2 (replicate 3 0)) = Ok cw /\
    reconstruct_data rs (erase demo_mask cw) = Ok out /\
    take 3 out = Some <$> demo_shards /\ drop 3 out = drop 3 (erase demo_mask cw).
Proof.
  apply (rs_any_ds_shards_recover 3 2 3 demo_shards demo_mask); [vm_compute; lia..| | |done|vm_compute; lia].
  - repeat constructor.
  - repeat (constructor; try (unfold is_byte; lia)).
Defined.

(** [Matrix::invert] of a square matrix succeeds exactly when the matrix has
    a trivial kernel, and the matrix it returns is the inverse on both sides:
    [A x = y] holds exactly when [x = B y]. *)
Theorem invert_correct (n : nat) (A : Matrix) :
  wf_matrix n n A ->
  (injective_matrix n A <-> exists B, invert A = Some B) /\
  (forall B, invert A = Some B -> wf_matrix n n B /\ inverse_of n A B).
Proof.
  intros HA. split; [split|].
  - by apply invert_total.
  - intros [B HB] x Hx Hz. destruct (invert_some n A B HA HB) as [_ Hinv].
    intros i Hi. rewrite (proj1 (Hinv x (fun _ => 0) Hx ltac:(auto with hov)) Hz i Hi).
    apply xsum_0. intros; apply gal_mul_0_r.
  - intros B HB. by apply invert_some.
Qed.

Lemma invert_correct_witness :
  wf_matrix 2 2 (mkMatrix 2 2 [[0; 3]; [5; 7]]) /\
  exists B, invert (mkMatrix 2 2 [[0; 3]; [5; 7]]) = Some B /\
    inverse_of 2 (mkMatrix 2 2 [[0; 3]; [5; 7]]) B.
Proof.
  assert (H : wf_matrix 2 2 (mkMatrix 2 2 [[0; 3]; [5; 7]])).
  { split_and!; [done..|]. split; [done|].
    repeat (constructor; try (unfold is_byte; lia)). }
  split; [done|]. eexists. split; [vm_compute; reflexivity|].
  apply (proj2 (invert_correct 2 _ H)). vm_compute. reflexivity.
Defined.

(** When the shard list has the right length and consistent sizes but fewer
    than [data_shards] shards are present, [reconstruct_data] refuses with
    [TooFewShards] carrying the exact numbers needed and present. *)
Theorem reconstruct_too_few (rs : ReedSolomon) (shards : list (option bytes)) (sz : option nat) :
  length shards = total_shards rs -> present_size None shards = Ok sz ->
  (count_present shards < data_shards rs)%nat -> (data_shards rs <= total_shards rs)%nat ->
  reconstruct_data rs shards = Err (TooFewShards (data_shards rs) (count_present shards)).
Proof.
  intros Hl Hp Hc Ht. unfold reconstruct_data. rewrite Hl, Nat.eqb_refl, Hp. cbn [negb].
  destruct sz as [sz|].
  - assert (count_present (take (data_shards rs) shards) <= count_present shards)%nat.
    { unfold count_present. rewrite <- (take_drop (data_shards rs) shards) at 2.
      rewrite List.filter_app, length_app. lia. }
    rewrite (proj2 (Nat.eqb_neq _ _)), (proj2 (Nat.ltb_lt _ _)) by lia. done.
  - assert (E : count_present shards = 0%nat); [|by rewrite E].
    clear -Hp. unfold count_present.
    assert (Hacc : forall l a, present_size (Some a) l <> Ok None).
    { induction l as [|[s|] l IH]; intros a; simpl; [done| |done]. by destruct (Nat.eqb _ _). }
    induction shards as [|[s|] shards IH]; simpl in *; [done| |auto]. by apply Hacc in Hp.
Qed.

Lemma reconstruct_too_few_witness :
  reconstruct_data (mkRS 2 1 3 (identity 2)) [None; Some [5]; None] = Err (TooFewShards 2 1).
Proof.
  apply (reconstruct_too_few (mkRS 2 1 3 (identity 2)) [None; Some [5]; None] (Some 1%nat));
    [reflexivity|reflexivity|vm_compute; lia|vm_compute; lia].
Defined.
