(* ===== verification/Erasure.v ===== *)
(** * Redundancy levels, spans and node layout ([src/src/erasure/mod.rs])

    What the splitter and the joiner share: the level tables, the level byte in
    a span, the shard/parity split of a node and the layout of its payload. *)
From Stdlib Require Import ZArith Lia.
From stdpp Require Import base tactics numbers strings list.
From S2P Require Import Prelude.
Local Open Scope Z_scope.

Definition CHUNK_SIZE : nat := 4096.
Definition BRANCHES : nat := 128.
Definition SPAN_SIZE : nat := 8.
Definition HASH_SIZE : nat := 32.

(** [enum Level]. *)
Inductive Level := LNone | Medium | Strong | Insane | Paranoid.

#[export] Instance Level_eq_dec : EqDecision Level.
Proof. solve_decision. Defined.

(** [level as u8]. *)
Definition level_u8 (l : Level) : Z :=
  match l with LNone => 0 | Medium => 1 | Strong => 2 | Insane => 3 | Paranoid => 4 end.

Definition DEFAULT_UPLOAD_LEVEL : Level := Medium.

(** [impl Display for Level]. *)
Definition level_fmt (l : Level) : str :=
  lit (match l with
       | LNone => "none" | Medium => "medium" | Strong => "strong"
       | Insane => "insane" | Paranoid => "paranoid"
       end).

(** [impl FromStr for Level]; the error carries the normalised input. *)
Definition level_from_str (s : str) : result Level str :=
  let t := to_ascii_lowercase (trim s) in
  if str_eqb t (lit "none") || str_eqb t (lit "0") || str_eqb t (lit "off") then Ok LNone
  else if str_eqb t (lit "medium") || str_eqb t (lit "1") then Ok Medium
  else if str_eqb t (lit "strong") || str_eqb t (lit "2") then Ok Strong
  else if str_eqb t (lit "insane") || str_eqb t (lit "3") then Ok Insane
  else if str_eqb t (lit "paranoid") || str_eqb t (lit "4") then Ok Paranoid
  else Err t.

(** [Level::from_u8] (and [from_wire], which forwards to it). *)
Definition from_u8 (v : Z) : option Level :=
  if v =? 0 then Some LNone
  else if v =? 1 then Some Medium
  else if v =? 2 then Some Strong
  else if v =? 3 then Some Insane
  else if v =? 4 then Some Paranoid
  else None.
Definition from_wire (v : Z) : option Level := from_u8 v.

Definition MEDIUM_ET : list (nat * nat) :=
  [(95, 9); (69, 8); (47, 7); (29, 6); (15, 5); (6, 4); (2, 3); (1, 2)]%nat.

Definition STRONG_ET : list (nat * nat) :=
  [(105, 21); (96, 20); (87, 19); (78, 18); (70, 17); (62, 16); (54, 15); (47, 14); (40, 13);
   (33, 12); (27, 11); (21, 10); (16, 9); (11, 8); (7, 7); (4, 6); (2, 5); (1, 4)]%nat.

Definition INSANE_ET : list (nat * nat) :=
  [(93, 31); (88, 30); (83, 29); (78, 28); (74, 27); (69, 26); (64, 25); (60, 24); (55, 23);
   (51, 22); (46, 21); (42, 20); (38, 19); (34, 18); (30, 17); (27, 16); (23, 15); (20, 14);
   (17, 13); (14, 12); (11, 11); (9, 10); (6, 9); (4, 8); (3, 7); (2, 6); (1, 5)]%nat.

Definition PARANOID_ET : list (nat * nat) :=
  [(37, 89); (36, 87); (35, 86); (34, 84); (33, 83); (32, 81); (31, 80); (30, 78); (29, 76);
   (28, 75); (27, 73); (26, 71); (25, 70); (24, 68); (23, 66); (22, 65); (21, 63); (20, 61);
   (19, 59); (18, 58); (17, 56); (16, 54); (15, 52); (14, 50); (13, 48); (12, 47); (11, 45);
   (10, 43); (9, 40); (8, 38); (7, 36); (6, 34); (5, 31); (4, 29); (3, 26); (2, 23); (1, 19)]%nat.

(** [Level::erasure_table]. *)
Definition erasure_table (l : Level) : list (nat * nat) :=
  match l with
  | LNone => [] | Medium => MEDIUM_ET | Strong => STRONG_ET
  | Insane => INSANE_ET | Paranoid => PARANOID_ET
  end.

(** [Level::parities]: the first row whose bound is met. *)
Fixpoint scan_table (t : list (nat * nat)) (shards : nat) : nat :=
  match t with
  | [] => 0
  | (s, p) :: t' => if Nat.leb s shards then p else scan_table t' shards
  end.
Definition parities (l : Level) (shards : nat) : nat := scan_table (erasure_table l) shards.

(** [Level::max_shards]. *)
Definition max_shards (l : Level) : nat := (BRANCHES - parities l BRANCHES)%nat.

(** [fn decode_span]: on the first eight bytes. *)
Definition decode_span (span : bytes) : Level * Z :=
  let buf := take SPAN_SIZE span in
  let top := buf !!! (SPAN_SIZE - 1)%nat in
  if top <=? 128 then (LNone, from_le_bytes buf)
  else
    (default LNone (from_u8 (Z.land top 0x7f)),
     from_le_bytes (<[(SPAN_SIZE - 1)%nat := 0]> buf)).

(** [fn is_level_encoded]. *)
Definition is_level_encoded (span : bytes) : bool :=
  Nat.leb SPAN_SIZE (length span) && (128 <? span !!! (SPAN_SIZE - 1)%nat).

(** The level byte that [wrap_level] of erasure/encoder.rs writes:
    [span_bytes[7] = level | 0x80]. *)
Definition encode_level (l : Level) (span_bytes : bytes) : bytes :=
  <[(SPAN_SIZE - 1)%nat := Z.lor (level_u8 l) 0x80]> span_bytes.

(** [fn reference_count].  The three [while] loops run on fuel and return
    [None] when it runs out; products are [u64]. *)
Fixpoint rc_branch (fuel : nat) (branching span branch_size : Z) (branch_level : nat) : option nat :=
  match fuel with
  | O => None
  | S fuel' =>
      if branch_size <? span
      then rc_branch fuel' branching span (wrap 64 (branch_size * branching)) (S branch_level)
      else Some branch_level
  end.

Fixpoint rc_size (n : nat) (branching reference_size : Z) : Z :=
  match n with
  | O => reference_size
  | S n' => rc_size n' branching (wrap 64 (reference_size * branching))
  end.

Fixpoint rc_count (fuel : nat) (reference_size span span_offset : Z) (data_shards : nat)
    : option nat :=
  match fuel with
  | O => None
  | S fuel' =>
      if span_offset <? span
      then rc_count fuel' reference_size span (wrap 64 (span_offset + reference_size)) (S data_shards)
      else Some data_shards
  end.

Definition reference_count (span : Z) (l : Level) : option (nat * nat) :=
  let branching := Z.of_nat (Nat.max (max_shards l) 1) in
  match rc_branch 64 branching span (Z.of_nat CHUNK_SIZE) 1 with
  | None => None
  | Some branch_level =>
      let reference_size := rc_size (branch_level - 2) branching (Z.of_nat CHUNK_SIZE) in
      match rc_count 256 reference_size span reference_size 1 with
      | None => None
      | Some shards => Some (shards, parities l shards)
      end
  end.

(** [fn chunk_addresses]: cut the payload into 32-byte references. *)
Fixpoint cut_refs (fuel : nat) (payload : bytes) : list bytes :=
  match fuel with
  | O => []
  | S fuel' =>
      if Nat.leb HASH_SIZE (length payload)
      then take HASH_SIZE payload :: cut_refs fuel' (drop HASH_SIZE payload)
      else []
  end.

Definition chunk_addresses (payload : bytes) (par : nat) : list bytes * nat :=
  (cut_refs (length payload) payload, ((length payload - par * HASH_SIZE) / HASH_SIZE)%nat).

(** [fn chunk_payload_size]: walk back over all-zero references. *)
Fixpoint payload_size_from (fuel : nat) (d : bytes) (l : nat) : option nat :=
  match fuel with
  | O => None
  | S fuel' =>
      if Nat.leb HASH_SIZE l
      then if bool_decide (take HASH_SIZE (drop (l - HASH_SIZE) d) = replicate HASH_SIZE 0)
           then payload_size_from fuel' d (l - HASH_SIZE)
           else Some l
      else None
  end.
Definition chunk_payload_size (d : bytes) : option nat :=
  payload_size_from (S (length d)) d (length d).

(** [fn wire_address], over the BMT hasher of nectar-primitives: [bmt span body]
    is the digest of a hasher whose span is set to [span] and fed [body]. *)
Definition wire_address (bmt : Z -> bytes -> bytes) (wire : bytes) : option bytes :=
  if Nat.ltb (length wire) SPAN_SIZE || Nat.ltb CHUNK_SIZE (length wire - SPAN_SIZE) then None
  else Some (bmt (from_le_bytes (take SPAN_SIZE wire)) (drop SPAN_SIZE wire)).

(** ** Level tables *)

Lemma max_shards_bounds l : (39 <= max_shards l <= 128)%nat.
Proof. destruct l; vm_compute; lia. Qed.

(** Exhaustive check over the shard counts a node can have. *)
Lemma parities_fit l d : (1 <= d <= max_shards l)%nat ->
  (d + parities l d <= BRANCHES)%nat /\ (l <> LNone -> (2 <= parities l d)%nat).
Proof.
  intros Hd.
  assert (H : forallb (fun d => Nat.leb (d + parities l d) BRANCHES &&
              (bool_decide (l = LNone) || Nat.leb 2 (parities l d))) (seq 1 (max_shards l)) = true)
    by (destruct l; vm_compute; reflexivity).
  rewrite forallb_forall in H. specialize (H d ltac:(apply in_seq; lia)).
  rewrite andb_true_iff, orb_true_iff, Nat.leb_le, Nat.leb_le, bool_decide_eq_true in H.
  destruct H as [? [?|?]]; split; auto; tauto.
Qed.

Lemma from_u8_level l : from_u8 (level_u8 l) = Some l.
Proof. by destruct l. Qed.

(** ** Reference counts *)

Section RefCount.
Context (l : Level) (span : Z) (Hspan : 0 <= span < 2 ^ 56).

Definition br : Z := Z.of_nat (Nat.max (max_shards l) 1).
Definition ref_size (k : nat) : Z := 4096 * br ^ Z.of_nat k.

Lemma br_bounds : 39 <= br <= 128.
Proof. unfold br. pose proof (max_shards_bounds l). lia. Qed.

Lemma ref_size_S k : ref_size (S k) = ref_size k * br.
Proof. unfold ref_size. rewrite Nat2Z.inj_succ, Z.pow_succ_r by lia. lia. Qed.

Lemma ref_size_pos k : 4096 <= ref_size k.
Proof.
  induction k; [unfold ref_size; simpl; lia|]. rewrite ref_size_S. pose proof br_bounds. nia.
Qed.

Lemma ref_size_large k : 2 ^ (12 + Z.of_nat k) <= ref_size k.
Proof.
  induction k; [done|]. rewrite ref_size_S, Nat2Z.inj_succ.
  replace (12 + Z.succ (Z.of_nat k)) with (Z.succ (12 + Z.of_nat k)) by lia.
  rewrite Z.pow_succ_r by lia. pose proof br_bounds. nia.
Qed.

(** The first loop stops at the first power that covers the span. *)
Lemma rc_branch_spec fuel k :
  (44 < k + fuel)%nat -> (k = 0%nat \/ ref_size (k - 1) < span) ->
  exists k', rc_branch fuel br span (ref_size k) (S k) = Some (S k') /\ (k <= k')%nat /\
    span <= ref_size k' /\ (k' = 0%nat \/ ref_size (k' - 1) < span).
Proof.
  revert k. induction fuel as [|fuel IH]; intros k Hf Hk.
  - exfalso. destruct Hk as [->|Hk]; [lia|].
    pose proof (ref_size_large (k - 1)).
    assert (2 ^ 56 <= 2 ^ (12 + Z.of_nat (k - 1))) by (apply Z.pow_le_mono_r; lia). lia.
  - cbn [rc_branch]. destruct (Z.ltb_spec (ref_size k) span) as [Hlt|Hge].
    + assert (E : wrap 64 (ref_size k * br) = ref_size (S k)).
      { rewrite ref_size_S. unfold wrap. apply Z.mod_small.
        pose proof br_bounds. pose proof (ref_size_pos k). nia. }
      rewrite E. destruct (IH (S k)) as (k' & -> & ? & ? & ?); [lia| |].
      * right. by replace (S k - 1)%nat with k by lia.
      * exists k'. split_and!; auto; lia.
    + exists k. auto.
Qed.

Lemma rc_size_spec m k : ref_size (k + m) < 2 ^ 64 ->
  rc_size m br (ref_size k) = ref_size (k + m).
Proof.
  revert k. induction m as [|m IH]; intros k Hb; [by rewrite Nat.add_0_r|].
  cbn [rc_size].
  assert (Hm : forall j, (j <= m)%nat -> ref_size (S k) <= ref_size (S k + j)).
  { induction j as [|j IHj]; intros Hj; [by rewrite Nat.add_0_r|].
    rewrite Nat.add_succ_r, (ref_size_S (S k + j)). pose proof br_bounds.
    pose proof (ref_size_pos (S k + j)).
    specialize (IHj ltac:(lia)). nia. }
  specialize (Hm m (le_n _)). rewrite Nat.add_succ_r in *. rewrite Nat.add_succ_l in Hm.
  rewrite <- ref_size_S. unfold wrap. rewrite Z.mod_small by (pose proof (ref_size_pos (S k)); lia).
  rewrite IH; rewrite Nat.add_succ_l; [done|lia].
Qed.

Lemma rc_count_spec fuel r d : 4096 <= r < 2 ^ 56 -> span <= (Z.of_nat d + Z.of_nat fuel - 1) * r ->
  (d = 1%nat \/ (Z.of_nat d - 1) * r < span) -> (1 <= d)%nat -> (1 <= fuel)%nat ->
  exists d', rc_count fuel r span (Z.of_nat d * r) d = Some d' /\ (d <= d')%nat /\
    span <= Z.of_nat d' * r /\ (d' = 1%nat \/ (Z.of_nat d' - 1) * r < span).
Proof.
  intros Hr. revert d. induction fuel as [|fuel IH]; intros d Hs Hd H1 Hf; [lia|].
  cbn [rc_count]. destruct (Z.ltb_spec (Z.of_nat d * r) span) as [Hlt|Hge].
  - replace (wrap 64 (Z.of_nat d * r + r)) with (Z.of_nat (S d) * r).
    2:{ rewrite Nat2Z.inj_succ, Z.mul_succ_l. unfold wrap.
      assert (0 <= Z.of_nat d * r) by nia. rewrite Z.mod_small; lia. }
    assert (fuel <> 0%nat) by (intros ->; lia).
    destruct (IH (S d)) as (d' & -> & ? & ? & ?); [lia|lia|lia|lia|].
    exists d'. split_and!; auto; lia.
  - exists d. auto.
Qed.

(** The node of a subtree of [span] bytes has [d] data references, each but the
    last covering exactly [ref_size k] bytes. *)
Lemma reference_count_spec :
  exists d k, reference_count span l = Some (d, parities l d) /\
    (1 <= d <= max_shards l)%nat /\ span <= Z.of_nat d * ref_size k /\
    (d = 1%nat \/ (Z.of_nat d - 1) * ref_size k < span) /\
    (span <= 4096 -> d = 1%nat /\ k = 0%nat) /\ (4096 < span -> ref_size k < span).
Proof.
  unfold reference_count. fold br.
  change (Z.of_nat CHUNK_SIZE) with (ref_size 0).
  destruct (rc_branch_spec 64 0) as (k & -> & _ & Hcov & Hmin); [lia|auto|].
  destruct (decide (k = 0%nat)) as [->|Hk].
  - change (ref_size 0) with 4096 in *. change (1 - 2)%nat with 0%nat. cbn [rc_size].
    cbn [rc_count]. rewrite (proj2 (Z.ltb_ge 4096 span)) by lia.
    exists 1%nat, 0%nat. pose proof (max_shards_bounds l). change (ref_size 0) with 4096.
    split_and!; auto; lia.
  - destruct Hmin as [?|Hmin]; [lia|].
    replace (S k - 2)%nat with (k - 1)%nat by lia.
    assert (Hp : 4096 <= ref_size (k - 1)) by apply ref_size_pos.
    rewrite (rc_size_spec (k - 1) 0) by (rewrite Nat.add_0_l; lia). rewrite Nat.add_0_l.
    assert (Hcov' : span <= ref_size (k - 1) * br).
    { rewrite <- ref_size_S. by replace (S (k - 1)) with k by lia. }
    pose proof br_bounds as Hbr.
    destruct (rc_count_spec 256 (ref_size (k - 1)) 1) as (d & E & Hd1 & Hd2 & Hd3); [lia|nia|auto|lia..|].
    rewrite Z.mul_1_l in E. rewrite E.
    assert (Hdb : Z.of_nat d <= br) by (destruct Hd3 as [->|?]; nia).
    assert (Z.of_nat d <= Z.of_nat (max_shards l))
      by (unfold br in Hdb; pose proof (max_shards_bounds l); lia).
    exists d, (k - 1)%nat. split_and!; auto; try lia.
Qed.
End RefCount.

(** ** Spans *)

Lemma le8_last s x : <[7%nat := x]> (to_le_bytes 8 s) = to_le_bytes 7 s ++ [x].
Proof.
  rewrite (to_le_bytes_snoc 7), insert_app_r_alt by (rewrite to_le_bytes_length; lia).
  by rewrite to_le_bytes_length.
Qed.

Lemma lookup_le7 s (x : Z) : (to_le_bytes 7 s ++ [x]) !!! 7%nat = x.
Proof. rewrite lookup_total_app_r by (rewrite to_le_bytes_length; lia). by rewrite to_le_bytes_length. Qed.

Lemma length_le7 s (x : Z) : length (to_le_bytes 7 s ++ [x]) = 8%nat.
Proof. by rewrite length_app, to_le_bytes_length. Qed.

Lemma decode_span_le7 s x : decode_span (to_le_bytes 7 s ++ [x]) =
  if x <=? 128 then (LNone, from_le_bytes (to_le_bytes 7 s ++ [x]))
  else (default LNone (from_u8 (Z.land x 0x7f)), s mod 2 ^ 56).
Proof.
  unfold decode_span. change (SPAN_SIZE - 1)%nat with 7%nat. change SPAN_SIZE with 8%nat.
  rewrite take_ge by (rewrite length_le7; lia). rewrite lookup_le7.
  destruct (x <=? 128); [done|]. f_equal.
  rewrite insert_app_r_alt, to_le_bytes_length by (rewrite to_le_bytes_length; lia).
  change (<[(7 - 7)%nat:=0]> [x]) with [0].
  by rewrite from_le_bytes_snoc_0, from_to_le_bytes_mod.
Qed.

(** ** Node payloads *)

Definition refs_ok (refs : list bytes) : Prop := Forall (fun r => length r = HASH_SIZE) refs.

Lemma concat_refs_length refs : refs_ok refs -> length (concat refs) = (HASH_SIZE * length refs)%nat.
Proof.
  induction 1 as [|r refs Hr H IH]; [done|].
  simpl. rewrite length_app, IH, Hr. unfold HASH_SIZE. lia.
Qed.

Lemma cut_refs_concat refs fuel : refs_ok refs -> (length refs <= fuel)%nat ->
  cut_refs fuel (concat refs) = refs.
Proof.
  intros H. revert fuel. induction H as [|r refs Hr H IH]; intros fuel Hf; [by destruct fuel|].
  destruct fuel as [|fuel]; simpl in Hf; [lia|]. cbn [cut_refs concat].
  rewrite (proj2 (Nat.leb_le _ _)) by (rewrite length_app; lia).
  rewrite take_app_length', drop_app_length' by done. rewrite IH by lia. done.
Qed.

Lemma chunk_addresses_concat refs p : refs_ok refs ->
  chunk_addresses (concat refs) p = (refs, (length refs - p)%nat).
Proof.
  intros H. unfold chunk_addresses. f_equal.
  - apply cut_refs_concat; [done|]. rewrite concat_refs_length by done. unfold HASH_SIZE. lia.
  - rewrite concat_refs_length by done. unfold HASH_SIZE.
    replace (32 * length refs - p * 32)%nat with ((length refs - p) * 32)%nat by lia.
    apply Nat.div_mul. lia.
Qed.

Lemma payload_size_padded refs r z : refs_ok (refs ++ [r]) -> r <> replicate HASH_SIZE 0 ->
  chunk_payload_size (concat (refs ++ [r]) ++ replicate (HASH_SIZE * z) 0) =
  Some (HASH_SIZE * length (refs ++ [r]))%nat.
Proof.
  intros H Hnz. pose proof (concat_refs_length _ H) as Hc.
  unfold chunk_payload_size. set (d := concat (refs ++ [r]) ++ replicate (HASH_SIZE * z) 0).
  assert (G : forall j fuel, (j <= z)%nat -> (j < fuel)%nat ->
    payload_size_from fuel d (HASH_SIZE * length (refs ++ [r]) + HASH_SIZE * j) =
    Some (HASH_SIZE * length (refs ++ [r]))%nat).
  { induction j as [|j IH]; intros [|fuel] Hj Hf; try lia; cbn [payload_size_from].
    - rewrite Nat.mul_0_r, Nat.add_0_r.
      rewrite (proj2 (Nat.leb_le _ _)) by (rewrite length_app; cbn [length]; lia).
      rewrite bool_decide_eq_false_2; [done|].
      intros E. apply Hnz. rewrite <- E. subst d.
      apply Forall_app in H as [H1 H2]. apply Forall_cons in H2 as [H2 _].
      replace (HASH_SIZE * length (refs ++ [r]) - HASH_SIZE)%nat with (length (concat refs))
        by (rewrite (concat_refs_length refs), length_app by done; cbn [length]; lia).
      rewrite concat_app, <- app_assoc, drop_app_length. simpl. rewrite app_nil_r.
      by rewrite take_app_length' by done.
    - rewrite (proj2 (Nat.leb_le _ _)) by lia.
      rewrite bool_decide_eq_true_2.
      + replace (HASH_SIZE * length (refs ++ [r]) + HASH_SIZE * S j - HASH_SIZE)%nat
          with (HASH_SIZE * length (refs ++ [r]) + HASH_SIZE * j)%nat by lia.
        apply IH; lia.
      + subst d. rewrite drop_app_ge by lia.
        rewrite drop_replicate, take_replicate, Hc. f_equal. unfold HASH_SIZE. lia. }
  replace (length d) with (HASH_SIZE * length (refs ++ [r]) + HASH_SIZE * z)%nat
    by (subst d; rewrite (length_app (concat _)), Hc, length_replicate; done).
  apply G; [done|]. unfold HASH_SIZE. lia.
Qed.

(** ** Properties *)

(** [Display] and [FromStr] of a redundancy level are inverse, the numeric
    wire form is accepted too, and case and surrounding whitespace are ignored. *)
Theorem level_text_roundtrip (l : Level) :
  level_from_str (level_fmt l) = Ok l /\
  level_from_str [48 + level_u8 l] = Ok l /\
  level_from_str (lit " " ++ map (fun c => c - 32) (level_fmt l) ++ [0x3000]) = Ok l /\
  from_wire (level_u8 l) = Some l.
Proof. destruct l; vm_compute; auto. Qed.

(** The level byte survives the span: for every level but [None] and every
    64-bit sum of child spans, decoding the level-encoded span returns the
    level and the low 56 bits of the sum, which hold the length, and the span
    is recognised as level-encoded. *)
Theorem span_level_roundtrip (l : Level) (s : Z) :
  l <> LNone -> 0 <= s < 2 ^ 64 ->
  decode_span (encode_level l (to_le_bytes 8 s)) = (l, s mod 2 ^ 56) /\
  is_level_encoded (encode_level l (to_le_bytes 8 s)) = true.
Proof.
  intros Hl Hs. unfold encode_level. change (SPAN_SIZE - 1)%nat with 7%nat. rewrite le8_last.
  split.
  - rewrite decode_span_le7. by destruct l.
  - unfold is_level_encoded. change (SPAN_SIZE - 1)%nat with 7%nat. change SPAN_SIZE with 8%nat.
    rewrite length_le7, lookup_le7. by destruct l.
Qed.

Lemma span_level_roundtrip_witness :
  decode_span (encode_level Strong (to_le_bytes 8 123456)) = (Strong, 123456 mod 2 ^ 56) /\
  is_level_encoded (encode_level Strong (to_le_bytes 8 123456)) = true.
Proof. apply (span_level_roundtrip Strong 123456); [discriminate|lia]. Defined.

(** For every subtree of less than 2^56 bytes, [reference_count] terminates
    (the fuel suffices), gives between 1 and [max_shards] data references and the
    parities the table prescribes for them, the whole node fits the 128
    references of a chunk, and the references exactly cover the span: every
    reference but the last covers [4096 * max_shards^k] bytes and the last the
    rest. *)
Theorem reference_count_covers (span : Z) (l : Level) :
  0 < span < 2 ^ 56 ->
  exists d p k, reference_count span l = Some (d, p) /\ p = parities l d /\
    (1 <= d <= max_shards l)%nat /\ (d + p <= BRANCHES)%nat /\
    (Z.of_nat d - 1) * (4096 * Z.of_nat (max_shards l) ^ Z.of_nat k) < span /\
    span <= Z.of_nat d * (4096 * Z.of_nat (max_shards l) ^ Z.of_nat k).
Proof.
  intros Hs. destruct (reference_count_spec l span ltac:(lia)) as (d & k & E & Hd & H1 & H2 & _).
  assert (Hbr : br l = Z.of_nat (max_shards l))
    by (unfold br; pose proof (max_shards_bounds l); lia).
  unfold ref_size in *. rewrite Hbr in *.
  exists d, (parities l d), k. destruct (parities_fit l d Hd) as [Hf _]. split_and!; auto; destruct H2 as [->|?]; lia.
Qed.

Lemma reference_count_covers_witness :
  exists d p k, reference_count 5000000 Medium = Some (d, p) /\ p = parities Medium d /\
    (1 <= d <= max_shards Medium)%nat /\ (d + p <= BRANCHES)%nat /\
    (Z.of_nat d - 1) * (4096 * Z.of_nat (max_shards Medium) ^ Z.of_nat k) < 5000000 /\
    5000000 <= Z.of_nat d * (4096 * Z.of_nat (max_shards Medium) ^ Z.of_nat k).
Proof. apply (reference_count_covers 5000000 Medium). lia. Defined.

(** The payload of an intermediate node can be read back: stripping the
    zero padding of a node whose last reference is not zero and cutting the rest
    yields the references in order and the number of data references. *)
Theorem node_payload_roundtrip (refs : list bytes) (r : bytes) (z p : nat) :
  refs_ok (refs ++ [r]) -> r <> replicate HASH_SIZE 0 ->
  let payload := concat (refs ++ [r]) ++ replicate (HASH_SIZE * z) 0 in
  exists n, chunk_payload_size payload = Some n /\
    chunk_addresses (take n payload) p = (refs ++ [r], (S (length refs) - p)%nat).
Proof.
  intros H Hnz payload. exists (HASH_SIZE * length (refs ++ [r]))%nat.
  split; [by apply payload_size_padded|]. subst payload.
  rewrite <- concat_refs_length, take_app_length, chunk_addresses_concat by done.
  by rewrite length_app, Nat.add_1_r.
Qed.

Lemma node_payload_roundtrip_witness :
  let refs := [replicate 32 7; replicate 32 0] in let r := replicate 32 9 in
  let payload := concat (refs ++ [r]) ++ replicate (HASH_SIZE * 2) 0 in
  exists n, chunk_payload_size payload = Some n /\
    chunk_addresses (take n payload) 1 = (refs ++ [r], (S (length refs) - 1)%nat).
Proof.
  apply (node_payload_roundtrip [replicate 32 7; replicate 32 0] (replicate 32 9) 2 1).
  - repeat constructor.
  - discriminate.
Defined.
