(* ===== verification/Codec.v ===== *)
(** * Text codecs used by the persisted state

    [u128::to_string] and [str::parse::<u128>] of the standard library, written
    out; the [hex] crate as an interface with the behaviour it documents. *)
From Stdlib Require Import ZArith Lia.
From stdpp Require Import base tactics numbers countable strings list.
From S2P Require Import Prelude.
Local Open Scope Z_scope.

(** ** Decimal *)

Fixpoint dec_digits (fuel : nat) (n : Z) (acc : str) : str :=
  match fuel with
  | O => acc
  | S fuel' =>
      let acc := (48 + n mod 10) :: acc in
      if n / 10 =? 0 then acc else dec_digits fuel' (n / 10) acc
  end.

(** [u128::to_string]: at most 39 digits. *)
Definition u128_to_string (n : Z) : str := dec_digits 39 n [].

Inductive IntError := IntEmpty | InvalidDigit | PosOverflow.

Fixpoint parse_digits (acc : Z) (s : str) : result Z IntError :=
  match s with
  | [] => Ok acc
  | c :: s' =>
      if (48 <=? c) && (c <=? 57)
      then let acc := acc * 10 + (c - 48) in
           if acc <=? U128_MAX then parse_digits acc s' else Err PosOverflow
      else Err InvalidDigit
  end.

(** [str::parse::<u128>]: an optional [+], then at least one digit. *)
Definition u128_parse (s : str) : result Z IntError :=
  match s with
  | [] => Err IntEmpty
  | [43] => Err InvalidDigit
  | 43 :: s' => parse_digits 0 s'
  | _ => parse_digits 0 s
  end.

(** ** Hexadecimal: the interface of the [hex] crate *)

Class Hex := {
  hex_encode : bytes -> str;
  hex_decode : str -> result bytes str }.

Definition is_hex_digit (c : Z) : bool :=
  ((48 <=? c) && (c <=? 57)) || ((97 <=? c) && (c <=? 102)).

(** The documented behaviour: lower-case output of two digits per byte, and
    decoding inverts encoding. *)
Class HexLaws (H : Hex) : Prop := {
  hex_digits : forall b, Forall (fun c => is_hex_digit c = true) (hex_encode b);
  hex_roundtrip : forall b, all_bytes b -> hex_decode (hex_encode b) = Ok b }.

(** ** Decimal round trip *)

Lemma parse_digits_range s acc n : u128 acc -> parse_digits acc s = Ok n -> u128 n.
Proof.
  revert acc. induction s as [|c s IH]; intros acc Ha; cbn [parse_digits]; [by intros [= <-]|].
  destruct ((48 <=? c) && (c <=? 57)) eqn:E; [|done].
  apply andb_true_iff in E as [E%Z.leb_le _]. destruct (Z.leb_spec (acc * 10 + (c - 48)) U128_MAX); [|done]. apply IH. lia.
Qed.

Lemma u128_parse_range s n : u128_parse s = Ok n -> u128 n.
Proof.
  assert (G : forall t, parse_digits 0 t = Ok n -> u128 n) by (intros t; apply parse_digits_range; lia).
  unfold u128_parse. intros E. repeat case_match; try done; eauto.
Qed.

Lemma dec_digits_spec fuel n acc : 0 <= n < 10 ^ Z.of_nat fuel -> (0 < fuel)%nat ->
  exists ds, dec_digits fuel n acc = ds ++ acc /\ ds <> [] /\
    Forall (fun c => 48 <= c <= 57) ds /\
    forall a, 0 <= a -> a * 10 ^ Z.of_nat (length ds) + n <= U128_MAX ->
      parse_digits a (ds ++ acc) = parse_digits (a * 10 ^ Z.of_nat (length ds) + n) acc.
Proof.
  revert n acc. induction fuel as [|fuel IH]; intros n acc Hn Hf; [lia|].
  pose proof (Z.mod_pos_bound n 10 ltac:(lia)) as Hm.
  pose proof (Z.div_mod n 10 ltac:(lia)) as Hdm.
  assert (Hdig : forall a s, parse_digits a ((48 + n mod 10) :: s) =
    if a * 10 + n mod 10 <=? U128_MAX then parse_digits (a * 10 + n mod 10) s else Err PosOverflow).
  { intros a s. cbn [parse_digits].
    rewrite (proj2 (Z.leb_le 48 _)), (proj2 (Z.leb_le _ 57)) by lia. cbn [andb].
    replace (48 + n mod 10 - 48) with (n mod 10) by lia. done. }
  cbn [dec_digits]. destruct (Z.eqb_spec (n / 10) 0) as [E|E].
  - exists [48 + n mod 10]. split_and!; [done|done|constructor; [lia|constructor]|].
    intros a Ha Hb. change (length [_]) with 1%nat in *. change (10 ^ Z.of_nat 1) with 10 in *.
    simpl app. rewrite Hdig. rewrite (proj2 (Z.leb_le _ _)) by lia. f_equal. lia.
  - rewrite Nat2Z.inj_succ, Z.pow_succ_r in Hn by lia.
    assert (fuel <> 0%nat) by (intros ->; simpl in Hn; lia).
    destruct (IH (n / 10) ((48 + n mod 10) :: acc)) as (ds & Eds & Hne & Hall & Hp).
    { split; [apply Z.div_pos; lia|apply Z.div_lt_upper_bound; lia]. }
    { lia. }
    exists (ds ++ [48 + n mod 10]). rewrite Eds, <- app_assoc. split_and!; [done| | |].
    + by destruct ds.
    + apply Forall_app; split; [done|]. constructor; [lia|constructor].
    + intros a Ha Hb. rewrite length_app in Hb |- *. change (length [_]) with 1%nat in *.
      rewrite Nat.add_1_r, Nat2Z.inj_succ, Z.pow_succ_r in Hb |- * by lia.
      simpl app. rewrite Hp by lia.
      rewrite Hdig. rewrite (proj2 (Z.leb_le _ _)) by lia. f_equal. lia.
Qed.

Lemma u128_roundtrip n : u128 n -> u128_parse (u128_to_string n) = Ok n.
Proof.
  intros Hn. unfold u128_to_string.
  destruct (dec_digits_spec 39 n []) as (ds & -> & Hne & Hall & Hp).
  { split; [lia|]. eapply Z.le_lt_trans; [apply Hn|]. reflexivity. }
  { lia. }
  assert (E : parse_digits 0 (ds ++ []) = Ok n) by (rewrite Hp by lia; done).
  rewrite app_nil_r in *. unfold u128_parse. destruct ds as [|c ds]; [done|].
  apply Forall_cons in Hall as [Hc _]. 
  destruct (decide (c = 43)) as [->|Hc']; [lia|].
  destruct c as [|c|]; try lia. rewrite <- E.
  repeat (destruct c as [c|c|]; try lia; try reflexivity).
Qed.

(** ** The [0x] prefix *)

Lemma trim_0x_hex `{HexLaws} b : trim_0x (hex_encode b) = hex_encode b.
Proof.
  pose proof (hex_digits b) as Hd.
  destruct (hex_encode b) as [|c1 [|c2 s]]; [done| |].
  { destruct c1 as [|p|p]; try done. repeat (destruct p as [p|p|]; try done). }
  apply Forall_cons in Hd as [_ Hd]. apply Forall_cons in Hd as [Hc2 _].
  assert (c2 <> 120) by (intros ->; discriminate).
  cbn [trim_0x]. destruct (decide (c1 = 48)) as [->|].
  - destruct c2 as [|p|p]; try done. repeat (destruct p as [p|p|]; try done).
  - destruct c1 as [|p|p]; try done. repeat (destruct p as [p|p|]; try done).
Qed.

Lemma hex_encode_inj `{HexLaws} a b : all_bytes a -> all_bytes b ->
  hex_encode a = hex_encode b -> a = b.
Proof.
  intros Ha Hb E. pose proof (hex_roundtrip a Ha) as H1. rewrite E, hex_roundtrip in H1 by done.
  congruence.
Qed.

(** ** A concrete codec, for evaluating the model *)

Definition hex_digit (n : Z) : Z := if n <? 10 then 48 + n else 87 + n.
Definition hex_value (c : Z) : option Z :=
  if (48 <=? c) && (c <=? 57) then Some (c - 48)
  else if (97 <=? c) && (c <=? 102) then Some (c - 87)
  else if (65 <=? c) && (c <=? 70) then Some (c - 55) else None.

Definition plain_encode (b : bytes) : str :=
  concat (map (fun x => [hex_digit (x / 16 mod 16); hex_digit (x mod 16)]) b).

Fixpoint plain_decode (s : str) : result bytes str :=
  match s with
  | [] => Ok []
  | a :: b :: s' =>
      match hex_value a, hex_value b, plain_decode s' with
      | Some x, Some y, Ok r => Ok (16 * x + y :: r)
      | Some _, Some _, Err e => Err e
      | _, _, _ => Err (lit "Invalid character")
      end
  | [_] => Err (lit "Odd number of digits")
  end.

#[export] Instance plain_hex : Hex := {| hex_encode := plain_encode; hex_decode := plain_decode |}.

Lemma hex_digit_value n : 0 <= n < 16 ->
  is_hex_digit (hex_digit n) = true /\ hex_value (hex_digit n) = Some n.
Proof.
  intros Hn. assert (Hin : In n (seqZ 0 16)) by (apply list_elem_of_In, elem_of_seqZ; lia).
  revert n Hn Hin. cut (Forall (fun n => is_hex_digit (hex_digit n) = true /\
    hex_value (hex_digit n) = Some n) (seqZ 0 16)).
  { intros HF n _ Hin. rewrite List.Forall_forall in HF. auto. }
  vm_compute. repeat constructor.
Qed.

#[export] Instance plain_hex_laws : HexLaws plain_hex.
Proof.
  split; simpl.
  - intros b. unfold plain_encode. induction b as [|x b IH]; simpl; [constructor|].
    constructor; [|constructor; [|done]]; apply hex_digit_value; apply Z.mod_pos_bound; lia.
  - induction 1 as [|x b Hx Hb IH]; [done|].
    unfold is_byte in Hx. change (plain_encode (x :: b))
      with (hex_digit (x / 16 mod 16) :: hex_digit (x mod 16) :: plain_encode b).
    cbn [plain_decode]. rewrite IH.
    rewrite (proj2 (hex_digit_value (x / 16 mod 16) ltac:(apply Z.mod_pos_bound; lia))).
    rewrite (proj2 (hex_digit_value (x mod 16) ltac:(apply Z.mod_pos_bound; lia))).
    do 2 f_equal. rewrite (Z.mod_small (x / 16)); [symmetry; apply Z.div_mod; lia|].
    split; [apply Z.div_pos; lia|apply Z.div_lt_upper_bound; lia].
Qed.

(** A serialization that stands in for the JSON library when a theorem is applied
    at a concrete input: the bits of the value's code, one per byte. *)
Fixpoint pos_bits (p : positive) : bytes :=
  match p with xH => [] | xO q => 0 :: pos_bits q | xI q => 1 :: pos_bits q end.
Fixpoint bits_pos (b : bytes) : positive :=
  match b with [] => xH | x :: b' => if x =? 0 then xO (bits_pos b') else xI (bits_pos b') end.

Lemma bits_pos_bits p : bits_pos (pos_bits p) = p.
Proof. induction p; simpl; congruence. Qed.

Lemma pos_bits_01 p : Forall (fun b => b = 0 \/ b = 1) (pos_bits p).
Proof. induction p; simpl; constructor; auto. Qed.

Definition plain_code `{Countable A} (x : A) : bytes := pos_bits (encode x).
Definition plain_uncode `{Countable A} (b : bytes) : result A str :=
  match decode (bits_pos b) with Some x => Ok x | None => Err (lit "invalid value") end.

Lemma plain_uncode_code `{Countable A} (x : A) : plain_uncode (plain_code x) = Ok x.
Proof. unfold plain_uncode, plain_code. by rewrite bits_pos_bits, decode_encode. Qed.
