(* ===== verification/RateLimit.v ===== *)
(** * Outbound dial limiter ([src/src/ratelimit.rs])

    The generic cell rate algorithm that paces the dials to one peer: one theoretical
    arrival time per peer, a dial that is too early is parked, and one that would be
    parked longer than the caller allows is refused and not charged.

    Instants and durations are whole milliseconds, unbounded: the additions of the
    source panic only beyond the range of the monotonic clock.  The lock makes every
    call one step, so concurrent callers are a list of calls in some order. *)
From Stdlib Require Import ZArith Lia.
From stdpp Require Import base tactics numbers countable strings list gmap sorting.
From S2P Require Import Prelude.
Local Open Scope Z_scope.
Local Open Scope hov_scope.

Definition EMISSION_INTERVAL : Z := 125.
Definition BURST_TOLERANCE : Z := 125 * 32.

Record DialRateLimiter := mkDialRateLimiter {
  tat : gmap bytes Z;
  emission_interval : Z;
  burst_tolerance : Z }.

Definition limiter_new (ei bt : Z) : DialRateLimiter := mkDialRateLimiter ∅ ei bt.
Definition limiter_default : DialRateLimiter := limiter_new EMISSION_INTERVAL BURST_TOLERANCE.

(** [let tat = map.get(&peer).copied().unwrap_or(now).max(now)]. *)
Definition tat_at (m : gmap bytes Z) (peer : bytes) (now : Z) : Z := Z.max (default now (m !! peer)) now.

(** [fn wait_for] and [fn peek] (with the clock as an argument). *)
Definition wait_for (m : gmap bytes Z) (peer : bytes) (now burst : Z) : Z :=
  let t := tat_at m peer now in sat_sub (t - now) burst.
Definition peek (l : DialRateLimiter) (peer : bytes) (now : Z) : Z := wait_for (tat l) peer now (burst_tolerance l).

(** [fn reserve_at]; [fn reserve_bounded] is this at the current instant. *)
Definition reserve_at (l : DialRateLimiter) (peer : bytes) (now max_wait : Z) : DialRateLimiter * result Z Z :=
  let t := tat_at (tat l) peer now in
  let wait := sat_sub (t - now) (burst_tolerance l) in
  if max_wait <? wait then (l, Err wait)
  else (mkDialRateLimiter (<[peer := t + emission_interval l]> (tat l)) (emission_interval l) (burst_tolerance l), Ok wait).

(** ** Histories *)

(** A call: the peer, the instant and the longest park the caller accepts.  A history
    yields the dials it lets through, each at the instant its caller wakes up. *)
Record Call := mkCall { c_peer : bytes; c_now : Z; c_max : Z }.

Fixpoint dials (l : DialRateLimiter) (calls : list Call) : list (bytes * Z) :=
  match calls with
  | [] => []
  | c :: calls' =>
      match reserve_at l (c_peer c) (c_now c) (c_max c) with
      | (l', Ok wait) => (c_peer c, c_now c + wait) :: dials l' calls'
      | (l', Err _) => dials l' calls'
      end
  end.

(** The dials to [peer] in the closed window of [w] milliseconds from [a]. *)
Definition in_window (peer : bytes) (a w : Z) (d : bytes * Z) : bool :=
  bool_decide (d.1 = peer) && (a <=? d.2) && (d.2 <=? a + w).
Definition dials_within (l : DialRateLimiter) (calls : list Call) (peer : bytes) (a w : Z) : Z :=
  Z.of_nat (length (List.filter (in_window peer a w) (dials l calls))).

(** ** Spacing of the arrival times *)

(** Times at least [T] apart that lie in an interval are few. *)
Lemma spaced_count T lo hi ts : 0 < T -> StronglySorted (fun x y => x + T <= y) ts -> Forall (fun t => lo <= t <= hi) ts ->
  Z.of_nat (length ts) <= (hi - lo) / T + 1 \/ ts = [].
Proof.
  intros HT. revert lo. induction ts as [|t ts IH]; intros lo Hs Hin; [by right|left].
  apply StronglySorted_inv in Hs as [Hs Hall]. apply Forall_cons in Hin as [Ht Hin].
  assert (Hin' : Forall (fun x => lo + T <= x <= hi) ts).
  { apply Forall_forall. intros x Hx. rewrite Forall_forall in Hall, Hin. specialize (Hall x Hx). specialize (Hin x Hx). lia. }
  destruct (IH (lo + T) Hs Hin') as [IHl| ->].
  - simpl length. replace (hi - lo) with ((hi - (lo + T)) + 1 * T) by lia. rewrite Z.div_add by lia. lia.
  - simpl. assert (0 <= (hi - lo) / T) by (apply Z.div_pos; lia). lia.
Qed.

Lemma spaced_from T p l calls :
  emission_interval l = T -> 0 < T -> 0 <= burst_tolerance l ->
  exists ts : list Z,
    StronglySorted (fun x y => x + T <= y) ts /\
    Forall (fun t => forall s, tat l !! p = Some s -> s <= t) ts /\
    Forall2 (fun t d => d.2 <= t <= d.2 + burst_tolerance l) ts (List.filter (fun d : bytes * Z => bool_decide (d.1 = p)) (dials l calls)).
Proof.
  intros HT Hpos Hburst. subst T. revert l Hpos Hburst. induction calls as [|c calls IH]; intros l Hpos Hburst.
  { exists []. repeat split; constructor. }
  simpl. unfold reserve_at. cbv zeta. set (t := tat_at (tat l) (c_peer c) (c_now c)).
  destruct (Z.ltb_spec (c_max c) (sat_sub (t - c_now c) (burst_tolerance l))) as [_|_]; [by apply IH|].
  destruct (IH (mkDialRateLimiter (<[c_peer c := t + emission_interval l]> (tat l)) (emission_interval l) (burst_tolerance l)) Hpos Hburst)
    as (ts & Hs & Hge & H2).
  simpl in *. case_bool_decide as Ep.
  - exists (t :: ts). rewrite <- Ep in *.
    assert (Hge' : Forall (fun x => t + emission_interval l <= x) ts).
    { eapply Forall_impl; [exact Hge|]. intros x Hx. apply Hx. by rewrite lookup_insert, decide_True. }
    assert (Ht : forall s, tat l !! c_peer c = Some s -> s <= t).
    { intros s Es. subst t. unfold tat_at. rewrite Es. simpl. lia. }
    split_and!; [by constructor| |].
    + constructor; [done|]. eapply Forall_impl; [exact Hge'|]. intros x Hx s Es. simpl in Hx. specialize (Ht s Es). lia.
    + constructor; [|done]. simpl. assert (c_now c <= t) by (subst t; unfold tat_at; lia). sat.
  - exists ts. split_and!; [done| |done]. eapply Forall_impl; [exact Hge|]. intros x Hx s Es. apply Hx.
    by rewrite lookup_insert_ne.
Qed.

(** A filtered pairing, and spacing under filtering. *)
Lemma filter_paired {A B} (R : A -> B -> Prop) (S : A -> A -> Prop) (P : A -> Prop) (q : B -> bool) ts ds :
  StronglySorted S ts -> Forall2 R ts ds -> (forall t d, R t d -> q d = true -> P t) ->
  exists ts', StronglySorted S ts' /\ Forall P ts' /\ length ts' = length (List.filter q ds) /\ ts' ⊆ ts.
Proof.
  intros Hs H2 HP. induction H2 as [|t d ts ds Hr H2 IH]; [exists []; repeat split; try constructor; set_solver|].
  apply StronglySorted_inv in Hs as [Hs Hall]. destruct (IH Hs) as (ts' & Hs' & HP' & Hl & Hsub).
  simpl. destruct (q d) eqn:Eq.
  - exists (t :: ts'). split_and!.
    + constructor; [done|]. apply Forall_forall. intros x Hx. rewrite Forall_forall in Hall. by apply Hall, Hsub.
    + constructor; [by eapply HP|done].
    + simpl. by rewrite Hl.
    + set_solver.
  - exists ts'. split_and!; [done..|set_solver].
Qed.

Lemma window_is_filter peer a w ds :
  List.filter (in_window peer a w) ds =
  List.filter (fun d : bytes * Z => (a <=? d.2) && (d.2 <=? a + w)) (List.filter (fun d : bytes * Z => bool_decide (d.1 = peer)) ds).
Proof.
  induction ds as [|d ds IH]; [done|]. simpl. unfold in_window at 1. destruct (bool_decide (d.1 = peer)); simpl; [|done].
  destruct ((a <=? d.2) && (d.2 <=? a + w)); [by rewrite IH|done].
Qed.

Lemma window_bound l calls peer a w : 0 < emission_interval l -> 0 <= burst_tolerance l -> 0 <= w ->
  dials_within l calls peer a w <= (burst_tolerance l + w) / emission_interval l + 1.
Proof.
  intros HT Hb Hw. unfold dials_within. rewrite window_is_filter.
  destruct (spaced_from (emission_interval l) peer l calls eq_refl HT Hb) as (ts & Hs & _ & H2).
  destruct (filter_paired _ _ (fun t => a <= t <= a + w + burst_tolerance l)
    (fun d : bytes * Z => (a <=? d.2) && (d.2 <=? a + w)) _ _ Hs H2) as (ts' & Hs' & Hin & Hl & _).
  { intros t d Hr Hq. apply andb_true_iff in Hq as [H1 H3]. apply Z.leb_le in H1, H3. simpl in Hr. lia. }
  rewrite <- Hl. destruct (spaced_count (emission_interval l) a (a + w + burst_tolerance l) ts' HT Hs' Hin) as [H| ->].
  - replace (a + w + burst_tolerance l - a) with (burst_tolerance l + w) in H by lia. exact H.
  - simpl. assert (0 <= (burst_tolerance l + w) / emission_interval l) by (apply Z.div_pos; lia). lia.
Qed.

(** From an idle bucket, [n] dials at one instant all go through at once as long as
    they fit the burst: the dial after them is the first to be parked. *)
Lemma burst_admitted l peer now mw n : 0 < emission_interval l -> 0 <= mw -> tat l !! peer = None ->
  Z.of_nat n <= burst_tolerance l / emission_interval l + 1 ->
  dials l (replicate n (mkCall peer now mw)) = replicate n (peer, now).
Proof.
  intros HT Hmw Hidle Hn.
  enough (G : forall n l k, 0 < emission_interval l -> tat_at (tat l) peer now = now + k * emission_interval l -> 0 <= k ->
    k + Z.of_nat n <= burst_tolerance l / emission_interval l + 1 ->
    dials l (replicate n (mkCall peer now mw)) = replicate n (peer, now)).
  { apply (G n l 0); [done| |lia..]. unfold tat_at. rewrite Hidle. simpl. lia. }
  clear -Hmw. intros n. induction n as [|n IH]; intros l k HT Ht Hk Hn; [done|].
  assert (Hfit : k * emission_interval l <= burst_tolerance l).
  { transitivity (emission_interval l * (burst_tolerance l / emission_interval l)); [nia|]. apply Z.mul_div_le; lia. }
  assert (Hw : sat_sub (tat_at (tat l) peer now - now) (burst_tolerance l) = 0) by (rewrite Ht; sat).
  simpl. unfold reserve_at. cbn [c_peer c_now c_max]. rewrite Hw. cbv zeta.
  replace (mw <? 0) with false; [|symmetry; apply Z.ltb_ge; lia].
  rewrite Z.add_0_r. f_equal. apply (IH _ (k + 1)); cbn; [done| |lia..].
  unfold tat_at at 1. rewrite lookup_insert, decide_True by done. simpl. nia.
Qed.

(** C35: The limiter keeps the client within the allowance of the remote node, whatever
    calls are made, in whatever order and at whatever instants.  In every window the
    dials to one peer are at most one more than the burst and the window hold emission
    intervals; with the built-in parameters they never exceed 40 plus one per 100 ms,
    which is what a bee node admits (10 per second, burst 40).  From an idle bucket a
    burst of up to 33 dials goes through at once.  A refusal charges
    nothing, a reservation is the park announced by [peek] and at most what the caller
    accepts, and neither touches the bucket of another peer. *)
Theorem dials_within_allowance :
  (forall l calls peer a w, 0 < emission_interval l -> 0 <= burst_tolerance l -> 0 <= w ->
    dials_within l calls peer a w <= (burst_tolerance l + w) / emission_interval l + 1) /\
  (forall calls peer a w, 0 <= w -> dials_within limiter_default calls peer a w <= 40 + w / 100) /\
  (forall l peer now max_wait n, 0 < emission_interval l -> 0 <= max_wait -> tat l !! peer = None ->
    Z.of_nat n <= burst_tolerance l / emission_interval l + 1 ->
    dials l (replicate n (mkCall peer now max_wait)) = replicate n (peer, now)) /\
  (forall l peer now max_wait,
    match reserve_at l peer now max_wait with
    | (l', Err wait) => l' = l /\ wait = peek l peer now /\ max_wait < wait
    | (l', Ok wait) => wait = peek l peer now /\ wait <= max_wait /\
        forall other, other <> peer -> forall n, peek l' other n = peek l other n
    end).
Proof.
  split_and!.
  - intros. by apply window_bound.
  - intros calls peer a w Hw. etrans; [apply window_bound; [done|done|lia]|]. change (burst_tolerance limiter_default) with 4000.
    change (emission_interval limiter_default) with 125.
    replace (4000 + w) with (w + 32 * 125) by lia. rewrite Z.div_add by lia.
    assert (w / 125 <= w / 100) by (apply Z.div_le_compat_l; lia). lia.
  - intros. by apply burst_admitted.
  - intros l peer now mw. unfold reserve_at, peek, wait_for. cbv zeta.
    destruct (Z.ltb_spec mw (sat_sub (tat_at (tat l) peer now - now) (burst_tolerance l))); [done|].
    split_and!; [done|lia|]. intros other Hne n. simpl. unfold tat_at. by rewrite lookup_insert_ne.
Qed.

(** Forty dials asked for at one instant, none willing to wait: 33 go through. *)
Lemma dials_within_allowance_witness :
  let calls := replicate 40 (mkCall [1] 0 0) in
  dials_within limiter_default calls [1] 0 0 = 33 /\ dials_within limiter_default calls [1] 0 0 <= 40 + 0 / 100.
Proof.
  split; [vm_compute; reflexivity|].
  apply (proj1 (proj2 dials_within_allowance) (replicate 40 (mkCall [1] 0 0)) [1] 0 0). lia.
Defined.
