(* ===== verification/Cid.v ===== *)
(** * Content identifiers ([src/src/cid.rs])

    The textual form of a reference that gateways use as a host name: a version, a
    codec and a multihash header as varints, the reference, and base 32.  The shift
    register of the encoder is a [u32] that overflows on long inputs; only its low
    bits are read. *)
From Stdlib Require Import ZArith Lia.
From stdpp Require Import base tactics numbers strings list.
From S2P Require Import Prelude Codec.
Local Open Scope Z_scope.
Local Open Scope hov_scope.

Definition CID_V1 : Z := 1.
Definition SWARM_MANIFEST_CODEC : Z := 0xfa.
Definition KECCAK_256_MULTIHASH : Z := 0x1b.

(** [fn push_varint], the loop on fuel: ten rounds exhaust a [u64]. *)
Fixpoint push_varint_loop (fuel : nat) (out : bytes) (value : Z) : bytes :=
  match fuel with
  | O => out
  | S fuel' =>
      if 0x80 <=? value then push_varint_loop fuel' (out ++ [Z.lor (Z.land (wrap 8 value) 0x7f) 0x80]) (Z.shiftr value 7)
      else out ++ [wrap 8 value]
  end.
Definition push_varint (out : bytes) (value : Z) : bytes := push_varint_loop 10 out value.

Lemma push_varint_nonempty v : (0 < length (push_varint [] v))%nat.
Proof.
  assert (G : forall n out w, (0 < length out \/ 0 < n)%nat -> (0 < length (push_varint_loop n out w))%nat).
  { intros n. induction n as [|n IH]; intros out w Ho; [simpl; lia|]. simpl. case_match; [apply IH|]; rewrite length_app; simpl; lia. }
  apply G. lia.
Qed.

(** [fn encode_base32_lower]: the inner loop, which runs at most twice per byte, and
    the outer one. *)
Definition ALPHABET : bytes := lit "abcdefghijklmnopqrstuvwxyz234567".

Fixpoint emit_quintets (fuel : nat) (out : bytes) (buffer bits : Z) : bytes * Z :=
  match fuel with
  | O => (out, bits)
  | S fuel' =>
      if 5 <=? bits then
        let bits := bits - 5 in
        let idx := Z.land (Z.shiftr buffer bits) 0x1f in
        emit_quintets fuel' (out ++ [ALPHABET !!! Z.to_nat idx]) buffer bits
      else (out, bits)
  end.

Fixpoint base32_loop (input out : bytes) (buffer bits : Z) : bytes * Z * Z :=
  match input with
  | [] => (out, buffer, bits)
  | byte :: input' =>
      let buffer := Z.lor (wrap 32 (Z.shiftl buffer 8)) byte in
      let '(out, bits) := emit_quintets 2 out buffer (bits + 8) in
      base32_loop input' out buffer bits
  end.

Definition encode_base32_lower (input out : bytes) : bytes :=
  let '(out, buffer, bits) := base32_loop input out 0 0 in
  if 0 <? bits then
    let idx := Z.land (wrap 32 (Z.shiftl buffer (5 - bits))) 0x1f in out ++ [ALPHABET !!! Z.to_nat idx]
  else out.

(** [fn reference_to_cid]. *)
Definition cid_bytes (reference : bytes) : bytes :=
  push_varint (push_varint (push_varint (push_varint [] CID_V1) SWARM_MANIFEST_CODEC) KECCAK_256_MULTIHASH)
    (Z.of_nat (length reference)) ++ reference.
Definition reference_to_cid (reference : bytes) : str := encode_base32_lower (cid_bytes reference) (lit "b").

(** ** Base 32 as a number *)

Lemma from_be_bytes_inj a b : all_bytes a -> all_bytes b -> length a = length b -> from_be_bytes a = from_be_bytes b -> a = b.
Proof.
  unfold from_be_bytes. intros Ha Hb Hl E. apply (inj reverse).
  rewrite <- (to_from_le_bytes (reverse a)), <- (to_from_le_bytes (reverse b)) by (by apply Forall_reverse).
  by rewrite !length_reverse, Hl, E.
Qed.

(** The digits of RFC 4648 (lower case) and the number a string of them denotes. *)
Definition quintet (n : Z) : Z := ALPHABET !!! Z.to_nat n.
Definition digit32 (c : Z) : option Z :=
  if (97 <=? c) && (c <=? 122) then Some (c - 97) else if (50 <=? c) && (c <=? 55) then Some (c - 24) else None.
Fixpoint value32 (acc : Z) (s : str) : option Z :=
  match s with [] => Some acc | c :: s' => match digit32 c with Some d => value32 (32 * acc + d) s' | None => None end end.

Lemma digit32_quintet n : 0 <= n < 32 -> digit32 (quintet n) = Some n.
Proof.
  intros Hn. assert (Hin : n ∈ seqZ 0 32) by (apply elem_of_seqZ; lia).
  revert n Hn Hin. assert (G : Forall (fun n => digit32 (quintet n) = Some n) (seqZ 0 32)).
  { vm_compute. repeat constructor. }
  intros n _ Hin. by apply (proj1 (Forall_forall _ _) G).
Qed.

Lemma value32_app acc s t : value32 acc (s ++ t) = match value32 acc s with Some a => value32 a t | None => None end.
Proof. revert acc. induction s as [|c s IH]; intros acc; [done|]. simpl. destruct (digit32 c); [apply IH|done]. Qed.

(** The state of the encoder after reading bytes that denote [N]: the digits written
    denote [N] without its last [bits] bits, and the register is [N] modulo [2^32]. *)
Definition encodes (pre : str) (N : Z) (n : nat) (out : str) (bits : Z) : Prop :=
  exists ds, out = pre ++ ds /\ value32 0 ds = Some (N / 2 ^ bits) /\ 5 * Z.of_nat (length ds) + bits = 8 * Z.of_nat n.

Lemma land31 x : Z.land x 31 = x mod 32.
Proof. change 31 with (Z.ones 5). apply Z.land_ones. lia. Qed.

(** Bits above and below position [k]. *)
Lemma lor_low a b k : 0 <= k -> 0 <= b < 2 ^ k -> Z.lor (a * 2 ^ k) b = a * 2 ^ k + b.
Proof.
  intros Hk Hb. rewrite <- Z.shiftl_mul_pow2 by done. symmetry. rewrite <- (Z.mod_small b (2 ^ k)), <- Z.land_ones by lia.
  rewrite Z.add_nocarry_lxor; [|apply Z.bits_inj'; intros i Hi; rewrite !Z.land_spec, Z.bits_0].
  - apply Z.bits_inj'. intros i Hi. rewrite Z.lxor_spec, Z.lor_spec, Z.land_spec.
    destruct (decide (i < k)); [rewrite Z.shiftl_spec_low by lia|rewrite Z.ones_spec_high, andb_false_r by lia].
    + by destruct (Z.testbit b i && Z.testbit (Z.ones k) i).
    + by rewrite xorb_false_r, orb_false_r.
  - destruct (decide (i < k)); [by rewrite Z.shiftl_spec_low by lia|].
    by rewrite Z.ones_spec_high, !andb_false_r by lia.
Qed.

Lemma mod_mul_div N a m : 0 < a -> 0 < m -> (N mod (a * m)) / a = (N / a) mod m.
Proof.
  intros Ha Hm. rewrite Z.rem_mul_r by lia. rewrite (Z.mul_comm a), Z.div_add by lia.
  rewrite (Z.div_small (N mod a)) by (apply Z.mod_pos_bound; lia). lia.
Qed.

Lemma mod_mod_mul N a m : 0 < a -> 0 < m -> (N mod (a * m)) mod a = N mod a.
Proof. intros Ha Hm. rewrite Z.rem_mul_r by lia. rewrite (Z.mul_comm a), Z.mod_add, Z.mod_mod by lia. done. Qed.

Lemma shiftr_low N bits : 0 <= bits <= 27 -> Z.land (Z.shiftr (N mod 2 ^ 32) bits) 31 = (N / 2 ^ bits) mod 32.
Proof.
  intros Hb. rewrite land31, Z.shiftr_div_pow2 by lia.
  replace (2 ^ 32) with (2 ^ bits * (32 * 2 ^ (27 - bits))).
  - rewrite mod_mul_div by (try apply Z.mul_pos_pos; try apply Z.pow_pos_nonneg; lia).
    apply mod_mod_mul; [|apply Z.pow_pos_nonneg]; lia.
  - change 32 with (2 ^ 5) at 1. rewrite <- !Z.pow_add_r by lia. f_equal. lia.
Qed.

Lemma emit_quintet pre N n out bits : 0 <= N -> 5 <= bits <= 12 -> encodes pre N n out bits ->
  encodes pre N n (out ++ [ALPHABET !!! Z.to_nat (Z.land (Z.shiftr (N mod 2 ^ 32) (bits - 5)) 0x1f)]) (bits - 5).
Proof.
  intros HN Hb (ds & -> & Hv & Hl). set (q := (N / 2 ^ (bits - 5)) mod 32).
  rewrite shiftr_low by lia. fold q. exists (ds ++ [quintet q]).
  assert (Hq : 0 <= q < 32) by (apply Z.mod_pos_bound; lia).
  split_and!; [by rewrite app_assoc| |rewrite length_app; simpl; lia].
  rewrite value32_app, Hv. simpl. rewrite (digit32_quintet q Hq). f_equal. subst q.
  replace (2 ^ bits) with (2 ^ (bits - 5) * 32) by (change 32 with (2 ^ 5); rewrite <- Z.pow_add_r by lia; f_equal; lia).
  rewrite <- Z.div_div by (try apply Z.pow_pos_nonneg; lia). pose proof (Z.div_mod (N / 2 ^ (bits - 5)) 32). lia.
Qed.

Lemma emit_quintets_spec pre N n out bits : 0 <= N -> 8 <= bits <= 12 -> encodes pre N n out bits ->
  let '(out', bits') := emit_quintets 2 out (N mod 2 ^ 32) bits in encodes pre N n out' bits' /\ 0 <= bits' < 5.
Proof.
  intros HN Hb He. simpl. destruct (Z.leb_spec 5 bits) as [H1|]; [|lia].
  pose proof (emit_quintet pre N n out bits HN ltac:(lia) He) as He1.
  destruct (Z.leb_spec 5 (bits - 5)) as [H2|]; [|split; [done|lia]].
  pose proof (emit_quintet pre N n _ (bits - 5) HN ltac:(lia) He1) as He2. split; [done|lia].
Qed.

Lemma next_byte_register N byte : is_byte byte ->
  Z.lor (wrap 32 (Z.shiftl (N mod 2 ^ 32) 8)) byte = (256 * N + byte) mod 2 ^ 32.
Proof.
  intros Hb. unfold is_byte in Hb. unfold wrap. rewrite Z.shiftl_mul_pow2 by lia.
  change (2 ^ 32) with (2 ^ 24 * 2 ^ 8) at 2. rewrite Z.mul_mod_distr_r by lia. rewrite lor_low by lia.
  change (2 ^ 32) with (2 ^ 24 * 256) at 1. rewrite mod_mod_mul by lia.
  change (2 ^ 32) with (256 * 2 ^ 24). rewrite (Z.rem_mul_r (256 * N + byte)) by lia.
  replace (256 * N + byte) with (byte + N * 256) by lia. rewrite Z.mod_add, Z.div_add by lia.
  rewrite (Z.mod_small byte), (Z.div_small byte), Z.add_0_l by lia. change (2 ^ 8) with 256. ring.
Qed.

Lemma base32_loop_spec pre N n input out bits : 0 <= N -> all_bytes input -> 0 <= bits < 5 -> encodes pre N n out bits ->
  let '(out', buffer', bits') := base32_loop input out (N mod 2 ^ 32) bits in
  let N' := N * 256 ^ Z.of_nat (length input) + from_be_bytes input in
  buffer' = N' mod 2 ^ 32 /\ 0 <= bits' < 5 /\ encodes pre N' (n + length input) out' bits'.
Proof.
  revert N n out bits. induction input as [|byte input IH]; intros N n out bits HN Hall Hb He.
  { simpl. change (from_be_bytes []) with 0. rewrite Z.mul_1_r, Z.add_0_r, Nat.add_0_r. done. }
  apply Forall_cons in Hall as [Hbyte Hall]. cbn [base32_loop]. cbv zeta. rewrite next_byte_register by done.
  assert (Hs : encodes pre (256 * N + byte) (S n) out (bits + 8)).
  { destruct He as (ds & -> & Hv & Hl). exists ds. split_and!; [done| |lia]. rewrite Hv. f_equal.
    rewrite Z.pow_add_r by lia. change (2 ^ 8) with 256. rewrite (Z.mul_comm (2 ^ bits)), <- Z.div_div by (try apply Z.pow_pos_nonneg; lia).
    unfold is_byte in Hbyte. f_equal. replace (256 * N + byte) with (byte + N * 256) by lia.
    rewrite Z.div_add, Z.div_small by lia. lia. }
  unfold is_byte in Hbyte.
  pose proof (emit_quintets_spec pre (256 * N + byte) (S n) out (bits + 8) ltac:(lia) ltac:(lia) Hs) as Hq.
  destruct (emit_quintets 2 out ((256 * N + byte) mod 2 ^ 32) (bits + 8)) as [out1 bits1]. destruct Hq as [Hq1 Hq2].
  specialize (IH (256 * N + byte) (S n) out1 bits1 ltac:(lia) Hall Hq2 Hq1).
  destruct (base32_loop input out1 ((256 * N + byte) mod 2 ^ 32) bits1) as [[out' buffer'] bits'].
  cbv zeta. rewrite from_be_bytes_cons. cbn [length] in *. rewrite Nat2Z.inj_succ, Z.pow_succ_r by lia.
  replace (N * (256 * 256 ^ Z.of_nat (length input)) + (byte * 256 ^ Z.of_nat (length input) + from_be_bytes input))
    with ((256 * N + byte) * 256 ^ Z.of_nat (length input) + from_be_bytes input) by lia.
  replace (n + S (length input))%nat with (S n + length input)%nat by lia. exact IH.
Qed.

(** The encoding is RFC 4648: the digits denote the input as a big-endian number,
    shifted left to a whole number of digits. *)
Lemma base32_value pre input : all_bytes input ->
  exists ds pad, encode_base32_lower input pre = pre ++ ds /\ 0 <= pad < 5 /\
    5 * Z.of_nat (length ds) = 8 * Z.of_nat (length input) + pad /\
    value32 0 ds = Some (from_be_bytes input * 2 ^ pad).
Proof.
  intros Hall. unfold encode_base32_lower.
  assert (H0 : encodes pre 0 0 pre 0) by (exists []; rewrite app_nil_r; done).
  pose proof (base32_loop_spec pre 0 0 input pre 0 ltac:(lia) Hall ltac:(lia) H0) as H.
  change (0 mod 2 ^ 32) with 0 in H. destruct (base32_loop input pre 0 0) as [[out buffer] bits].
  rewrite Z.mul_0_l, Z.add_0_l, Nat.add_0_l in H. destruct H as (Hbuf & Hbits & ds & -> & Hv & Hl).
  pose proof (from_be_bytes_bound input Hall) as HN. set (N := from_be_bytes input) in *.
  destruct (Z.ltb_spec 0 bits) as [Hpos|].
  2: { assert (bits = 0) as -> by lia. exists ds, 0. change (2 ^ 0) with 1 in *. rewrite Z.div_1_r in Hv. rewrite Z.mul_1_r. split_and!; [done|lia..|done]. }
  set (q := (N * 2 ^ (5 - bits)) mod 32). exists (ds ++ [quintet q]), (5 - bits).
  assert (Hidx : Z.land (wrap 32 (Z.shiftl buffer (5 - bits))) 31 = q).
  { rewrite land31. unfold wrap. change (2 ^ 32) with (32 * 2 ^ 27) at 1. rewrite mod_mod_mul by lia.
    rewrite Z.shiftl_mul_pow2, Hbuf by lia. subst q. change (2 ^ 32) with (32 * 2 ^ 27).
    rewrite <- (Z.mul_mod_idemp_l (N mod _)), mod_mod_mul, Z.mul_mod_idemp_l by lia. done. }
  assert (Hq : 0 <= q < 32) by (apply Z.mod_pos_bound; lia).
  rewrite Hidx. split_and!; [by rewrite app_assoc|lia..| |].
  - rewrite length_app. simpl. lia.
  - rewrite value32_app, Hv. simpl. rewrite (digit32_quintet q Hq). f_equal. subst q.
    pose proof (Z.div_mod (N * 2 ^ (5 - bits)) 32 ltac:(lia)) as Hdm.
    replace (N * 2 ^ (5 - bits) / 32) with (N / 2 ^ bits) in Hdm; [lia|].
    change 32 with (2 ^ 5). replace (2 ^ 5) with (2 ^ bits * 2 ^ (5 - bits)) by (rewrite <- Z.pow_add_r by lia; f_equal; lia).
    rewrite Z.div_mul_cancel_r; [done|apply Z.pow_nonzero; lia..].
Qed.

(** A content identifier is readable and unambiguous.  For every 32-byte
    reference it is [b] followed by 60 lower-case base 32 digits (61 characters, so it
    fits a host-name label); the digits denote the version, the manifest codec, the
    keccak multihash code, the length 32 and the reference, padded by four zero bits;
    so different references have different identifiers. *)
Theorem cid_roundtrip reference : length reference = 32%nat -> all_bytes reference ->
  exists ds, reference_to_cid reference = lit "b" ++ ds /\ length ds = 60%nat /\
    value32 0 ds = Some (16 * from_be_bytes ([1; 0xfa; 1; 0x1b; 32] ++ reference)) /\
    (forall other, length other = 32%nat -> all_bytes other -> reference_to_cid other = reference_to_cid reference -> other = reference).
Proof.
  assert (G : forall r, length r = 32%nat -> all_bytes r ->
    exists ds, reference_to_cid r = lit "b" ++ ds /\ length ds = 60%nat /\
      value32 0 ds = Some (16 * from_be_bytes ([1; 0xfa; 1; 0x1b; 32] ++ r))).
  { intros r Hl Hb. unfold reference_to_cid, cid_bytes. rewrite Hl.
    change (push_varint (push_varint (push_varint (push_varint [] CID_V1) SWARM_MANIFEST_CODEC) KECCAK_256_MULTIHASH) (Z.of_nat 32))
      with [1; 0xfa; 1; 0x1b; 32].
    assert (Hall : all_bytes ([1; 0xfa; 1; 0x1b; 32] ++ r)).
    { apply Forall_app. split; [|done]. repeat constructor; unfold is_byte; lia. }
    destruct (base32_value (lit "b") _ Hall) as (ds & pad & E & Hpad & Hlen & Hv). exists ds.
    rewrite length_app, Hl in Hlen. change (length [1; 0xfa; 1; 0x1b; 32]) with 5%nat in Hlen.
    assert (pad = 4) as -> by lia. split_and!; [done|lia|]. rewrite Hv. f_equal. lia. }
  intros Hl Hb. destruct (G reference Hl Hb) as (ds & E & Hlen & Hv). exists ds. split_and!; [done..|].
  intros other Hl' Hb' Eo. destruct (G other Hl' Hb') as (ds' & E' & _ & Hv'). rewrite E', E in Eo.
  apply (inj (lit "b" ++.)) in Eo as ->. rewrite Hv in Hv'. injection Hv' as Hv'.
  cbn [app] in Hv'. rewrite !from_be_bytes_cons in Hv'. cbn [length] in Hv'. rewrite Hl, Hl' in Hv'.
  apply from_be_bytes_inj; [done..|congruence|lia].
Qed.

(** The vector of the source's test. *)
Lemma cid_roundtrip_witness :
  let r := [0xfd; 0x33; 0xfd; 0xeb; 0x04; 0xad; 0x97; 0xc4; 0xae; 0x18; 0x94; 0x07; 0x7d; 0xa7; 0x5b; 0xee;
            0x6f; 0x69; 0xbc; 0x7c; 0xba; 0xda; 0x0e; 0x95; 0xc3; 0xac; 0xad; 0x74; 0xc6; 0xdb; 0xef; 0x35] in
  reference_to_cid r = lit "bah5acgza7uz732yevwl4jlqysqdx3j235zxwtpd4xlna5fodvswxjrw3542q" /\
  exists ds, reference_to_cid r = lit "b" ++ ds /\ length ds = 60%nat.
Proof.
  cbv zeta. split; [vm_compute; reflexivity|].
  edestruct cid_roundtrip as (ds & E & Hl & _); [| |exists ds; split; [exact E|exact Hl]]; [reflexivity|].
  vm_compute. repeat constructor; discriminate.
Defined.
