(* ===== verification/Wire.v ===== *)
(** * Programs on a duplex stream

    The protocol handlers of [src/src/protocols/] are asynchronous functions on a
    stream of bytes.  A handler is a tree of its I/O calls: [ReadExact] is
    [read_exact], [WriteAll] is [write_all] followed by [flush], [Close] is [close];
    a branch follows each possible answer.  Trees are finite: every handler makes a
    bounded number of calls (a loop over incoming messages is given fuel, see
    [Protocols]).

    Two interpreters: [against] runs one handler against an arbitrary peer (the bytes
    it sends, how its stream ends, which writes fail); [duplex] configurations run two
    handlers against each other over reliable buffered channels, in any interleaving.
    The exchange is shown confluent, so one completed run speaks for all of them. *)
From Stdlib Require Import ZArith Lia.
From stdpp Require Import base tactics numbers strings list relations.
From S2P Require Import Prelude.
Local Open Scope Z_scope.
Local Open Scope hov_scope.

Inductive io (A : Type) : Type :=
| Ret (a : A)
| ReadExact (n : nat) (k : result bytes str -> io A)
| WriteAll (b : bytes) (k : result unit str -> io A)
| Close (k : io A).
Arguments Ret {A} _.
Arguments ReadExact {A} _ _.
Arguments WriteAll {A} _ _.
Arguments Close {A} _.

Fixpoint io_bind {A B} (m : io A) (f : A -> io B) : io B :=
  match m with
  | Ret a => f a
  | ReadExact n k => ReadExact n (fun r => io_bind (k r) f)
  | WriteAll b k => WriteAll b (fun r => io_bind (k r) f)
  | Close k => Close (io_bind k f)
  end.

(** The error layer: [?] in an asynchronous function. *)
Definition io_try {A B E} (m : io (result A E)) (f : A -> io (result B E)) : io (result B E) :=
  io_bind m (fun r => match r with Ok a => f a | Err e => Ret (Err e) end).
Definition io_map_err {A E F} (g : E -> F) (m : io (result A E)) : io (result A F) := io_bind m (fun r => Ret (map_err g r)).

Notation "'let*' x := m 'in' k" := (io_try m (fun x => k))
  (at level 200, x pattern, m at level 100, k at level 200, right associativity) : hov_scope.

Definition read_exact (n : nat) : io (result bytes str) := ReadExact n Ret.
Definition write_all (b : bytes) : io (result unit str) := WriteAll b Ret.
Definition close : io (result unit str) := Close (Ret (Ok tt)).

(** ** One handler against an arbitrary peer *)

(** What the peer sends before its stream ends, the error a read beyond that gets,
    and the outcomes of the writes (all succeed after the list). *)
Record RemotePeer := mkRemotePeer { sends : bytes; ends_with : str; write_faults : list (option str) }.

Fixpoint against {A} (m : io A) (p : RemotePeer) : A * RemotePeer :=
  match m with
  | Ret a => (a, p)
  | ReadExact n k =>
      if Nat.leb n (length (sends p)) then against (k (Ok (take n (sends p)))) (mkRemotePeer (drop n (sends p)) (ends_with p) (write_faults p))
      else against (k (Err (ends_with p))) (mkRemotePeer [] (ends_with p) (write_faults p))
  | WriteAll b k =>
      match write_faults p with
      | Some e :: fs => against (k (Err e)) (mkRemotePeer (sends p) (ends_with p) fs)
      | None :: fs => against (k (Ok tt)) (mkRemotePeer (sends p) (ends_with p) fs)
      | [] => against (k (Ok tt)) p
      end
  | Close k => against k p
  end.

Lemma against_bind {A B} (m : io A) (f : A -> io B) p : against (io_bind m f) p = let '(a, p') := against m p in against (f a) p'.
Proof.
  revert p. induction m as [a|n k IH|b k IH|k IH]; intros p; simpl; [done| | |apply IH].
  - destruct (Nat.leb n (length (sends p))); apply IH.
  - destruct (write_faults p) as [|[e|] fs]; apply IH.
Qed.

Lemma against_try {A B E} (m : io (result A E)) (f : A -> io (result B E)) p b p' :
  against (io_try m f) p = (Ok b, p') -> exists a p1, against m p = (Ok a, p1) /\ against (f a) p1 = (Ok b, p').
Proof. unfold io_try. rewrite against_bind. destruct (against m p) as [[a|e] p1]; [by exists a, p1|done]. Qed.

(** ** Two handlers against each other *)

(** One side: its program, the bytes waiting for it and whether it closed. *)
Record Side (A : Type) := mkSide { prog : io A; inbox : bytes; closed : bool }.
Arguments mkSide {A} _ _ _.
Arguments prog {A} _.
Arguments inbox {A} _.
Arguments closed {A} _.

Definition is_ret {A} (m : io A) : bool := match m with Ret _ => true | _ => false end.
Definition ended {A} (s : Side A) : bool := closed s || is_ret (prog s).

(** One call of one side: its new state and what it puts on the wire.  A read waits
    for its bytes, and fails only when the other side has ended without sending them;
    nothing is sent after a close. *)
Definition advance {A} (s : Side A) (eof : bool) : option (Side A * bytes) :=
  match prog s with
  | Ret _ => None
  | ReadExact n k =>
      if Nat.leb n (length (inbox s)) then Some (mkSide (k (Ok (take n (inbox s)))) (drop n (inbox s)) (closed s), [])
      else if eof then Some (mkSide (k (Err (lit "unexpected end of file"))) [] (closed s), [])
      else None
  | WriteAll b k =>
      if closed s then Some (mkSide (k (Err (lit "write after close"))) (inbox s) (closed s), [])
      else Some (mkSide (k (Ok tt)) (inbox s) (closed s), b)
  | Close k => Some (mkSide k (inbox s) true, [])
  end.

Definition receive {A} (s : Side A) (b : bytes) : Side A := mkSide (prog s) (inbox s ++ b) (closed s).

Record Duplex (A B : Type) := mkDuplex { lside : Side A; rside : Side B }.
Arguments mkDuplex {A B} _ _.
Arguments lside {A B} _.
Arguments rside {A B} _.

Definition step_left {A B} (c : Duplex A B) : option (Duplex A B) :=
  match advance (lside c) (ended (rside c)) with
  | Some (l, b) => Some (mkDuplex l (receive (rside c) b))
  | None => None
  end.
Definition step_right {A B} (c : Duplex A B) : option (Duplex A B) :=
  match advance (rside c) (ended (lside c)) with
  | Some (r, b) => Some (mkDuplex (receive (lside c) b) r)
  | None => None
  end.

Inductive step {A B} (c : Duplex A B) : Duplex A B -> Prop :=
| StepLeft c' : step_left c = Some c' -> step c c'
| StepRight c' : step_right c = Some c' -> step c c'.

Definition start {A B} (p : io A) (q : io B) : Duplex A B := mkDuplex (mkSide p [] false) (mkSide q [] false).

(** Every interleaving ends, and ends with [a] on the left and [b] on the right. *)
Definition always_ends {A B} (c : Duplex A B) (a : A) (b : B) : Prop :=
  exists n, forall k x, nsteps step k c x -> exists m f,
    (k + m = n)%nat /\ nsteps step m x f /\ prog (lside f) = Ret a /\ prog (rside f) = Ret b.

(** ** Confluence *)

Lemma app_keeps_prefix (n : nat) (a b : bytes) : (n <= length a)%nat -> take n (a ++ b) = take n a /\ drop n (a ++ b) = drop n a ++ b.
Proof. intros Hn. split; [by rewrite take_app_le|by rewrite drop_app_le]. Qed.

(** A side that can make a call can still make it, with the same answer, after the
    other side made one of its own. *)
Lemma advance_receive {A B} (s : Side A) (o : Side B) eof s' b o' b' :
  advance s (ended o) = Some (s', b) -> advance o eof = Some (o', b') ->
  advance (receive s b') (ended o') = Some (receive s' b', b).
Proof.
  unfold advance, receive, ended. intros Hs Ho. destruct (prog s) as [a|n k|w k|k] eqn:Ep; cbn [prog inbox closed]; [done| |..].
  - destruct (Nat.leb_spec n (length (inbox s))) as [Hn|Hn].
    + rewrite length_app. destruct (Nat.leb_spec n (length (inbox s) + length b')) as [_|]; [|lia].
      injection Hs as <- <-. cbn [prog inbox closed]. destruct (app_keeps_prefix n (inbox s) b' Hn) as [-> ->]. done.
    + destruct (closed o) eqn:Ec.
      * assert (b' = [] /\ closed o' = true) as [-> Hc].
        { destruct (prog o); [done|..|by injection Ho as <- <-]; [|by injection Ho as <- <-].
          destruct (Nat.leb n0 (length (inbox o))); [by injection Ho as <- <-|]. destruct eof; [by injection Ho as <- <-|done]. }
        rewrite Hc, app_nil_r. cbn [orb] in *. destruct (Nat.leb_spec n (length (inbox s))); [lia|].
        injection Hs as <- <-. cbn [prog inbox closed]. done.
      * by destruct (prog o).
  - destruct (closed s); injection Hs as <- <-; done.
  - injection Hs as <- <-. done.
Qed.

Lemma step_diamond {A B} (c x y : Duplex A B) : step c x -> step c y -> x = y \/ exists z, step x z /\ step y z.
Proof.
  assert (G : forall l r : Duplex A B, step_left c = Some l -> step_right c = Some r ->
    exists z, step_right l = Some z /\ step_left r = Some z).
  { intros l r. unfold step_left, step_right.
    destruct (advance (lside c) (ended (rside c))) as [[l1 b1]|] eqn:El; [|done].
    destruct (advance (rside c) (ended (lside c))) as [[r1 b2]|] eqn:Er; [|done].
    intros [= <-] [= <-]. cbn [lside rside].
    rewrite (advance_receive _ _ _ _ _ _ _ El Er), (advance_receive _ _ _ _ _ _ _ Er El). eauto. }
  intros [l Hl|r Hr] [l' Hl'|r' Hr'].
  - left. congruence.
  - right. destruct (G _ _ Hl Hr') as (z & H1 & H2). exists z. split; [by apply StepRight|by apply StepLeft].
  - right. destruct (G _ _ Hl' Hr) as (z & H1 & H2). exists z. split; [by apply StepLeft|by apply StepRight].
  - left. congruence.
Qed.

Lemma ret_stuck {A B} (f : Duplex A B) a b x : prog (lside f) = Ret a -> prog (rside f) = Ret b -> ~ step f x.
Proof. intros Hl Hr [c H|c H]; unfold step_left, step_right, advance in H; rewrite ?Hl, ?Hr in H; done. Qed.

Lemma stuck_absorbs {A B} n (c x f : Duplex A B) : nsteps step n c f -> (forall y, ~ step f y) -> step c x ->
  exists m, n = S m /\ nsteps step m x f.
Proof.
  revert c x. induction n as [|n IH]; intros c x Hn Hf Hx; inversion Hn as [|? ? y ? Hy Hn']; subst; [by destruct (Hf x)|].
  exists n. split; [done|]. destruct (step_diamond c x y Hx Hy) as [->|(z & Hxz & Hyz)]; [done|].
  destruct (IH y z Hn' Hf Hyz) as (m & -> & Hz). by apply nsteps_l with z.
Qed.

Lemma one_run_is_all {A B} n (c f : Duplex A B) a b :
  nsteps step n c f -> prog (lside f) = Ret a -> prog (rside f) = Ret b -> always_ends c a b.
Proof.
  intros Hn Hl Hr. exists n. intros k. revert n c Hn. induction k as [|k IH]; intros n c Hn x Hx; inversion Hx as [|? ? y ? Hy Hx']; subst.
  { by exists n, f. }
  destruct (stuck_absorbs n c y f Hn (fun z => ret_stuck f a b z Hl Hr) Hy) as (m & -> & Hm).
  destruct (IH m y Hm x Hx') as (m' & f' & <- & H'). exists m', f'. split; [lia|done].
Qed.

(** ** Running one side as far as it goes *)

(** The side after all the calls it can make on what it has, and what it sent. *)
Fixpoint go {A} (m : io A) (inb : bytes) (cl eof : bool) : Side A * bytes :=
  match m with
  | Ret a => (mkSide (Ret a) inb cl, [])
  | ReadExact n k =>
      if Nat.leb n (length inb) then go (k (Ok (take n inb))) (drop n inb) cl eof
      else if eof then go (k (Err (lit "unexpected end of file"))) [] cl eof
      else (mkSide m inb cl, [])
  | WriteAll b k =>
      if cl then go (k (Err (lit "write after close"))) inb cl eof
      else let '(s, o) := go (k (Ok tt)) inb cl eof in (s, b ++ o)
  | Close k => go k inb true eof
  end.

Lemma go_bind {A B} (m : io A) (f : A -> io B) inb cl eof :
  go (io_bind m f) inb cl eof =
  let '(s, o) := go m inb cl eof in
  match prog s with
  | Ret a => let '(s', o') := go (f a) (inbox s) (closed s) eof in (s', o ++ o')
  | p => (mkSide (io_bind p f) (inbox s) (closed s), o)
  end.
Proof.
  revert inb cl. induction m as [a|n k IH|b k IH|k IH]; intros inb cl; simpl.
  - destruct (go (f a) inb cl eof); done.
  - destruct (Nat.leb n (length inb)); [apply IH|]. destruct eof; [apply IH|done].
  - destruct cl; [apply IH|]. rewrite IH. destruct (go (k (Ok tt)) inb false eof) as [s o].
    destruct (prog s); [|done..]. destruct (go (f a) (inbox s) (closed s) eof). by rewrite app_assoc.
  - apply IH.
Qed.

(** A run of one side is a sequence of steps of the pair. *)
Lemma go_left {A B} (m : io A) inb cl (r : Side B) :
  exists n, nsteps step n (mkDuplex (mkSide m inb cl) r)
    (mkDuplex (go m inb cl (ended r)).1 (receive r (go m inb cl (ended r)).2)).
Proof.
  revert inb cl r. induction m as [a|n k IH|b k IH|k IH]; intros inb cl r; simpl.
  - exists 0%nat. unfold receive. rewrite app_nil_r. destruct r. constructor.
  - destruct (Nat.leb_spec n (length inb)) as [Hn|Hn].
    + destruct (IH (Ok (take n inb)) (drop n inb) cl r) as (m & Hm). exists (S m). eapply nsteps_l; [|exact Hm].
      apply StepLeft. unfold step_left, advance. simpl. destruct (Nat.leb_spec n (length inb)); [|lia].
      unfold receive. rewrite app_nil_r. by destruct r.
    + destruct (ended r) eqn:Ee.
      * destruct (IH (Err (lit "unexpected end of file")) [] cl r) as (m & Hm). rewrite Ee in Hm. exists (S m). eapply nsteps_l; [|exact Hm].
        apply StepLeft. unfold step_left, advance. simpl. destruct (Nat.leb_spec n (length inb)); [lia|]. rewrite Ee.
        unfold receive. rewrite app_nil_r. by destruct r.
      * exists 0%nat. simpl. unfold receive. rewrite app_nil_r. destruct r. constructor.
  - destruct cl eqn:Ec.
    + destruct (IH (Err (lit "write after close")) inb true r) as (m & Hm). exists (S m). eapply nsteps_l; [|exact Hm].
      apply StepLeft. unfold step_left, advance. simpl. unfold receive. rewrite app_nil_r. by destruct r.
    + destruct (IH (Ok tt) inb false (receive r b)) as (m & Hm). exists (S m).
      change (ended (receive r b)) with (ended r) in Hm.
      destruct (go (k (Ok tt)) inb false (ended r)) as [s o]. simpl in *. eapply nsteps_l; [|].
      * apply StepLeft. unfold step_left, advance. simpl. reflexivity.
      * unfold receive in *. simpl in *. by rewrite app_assoc in *.
  - destruct (IH inb true r) as (m & Hm). exists (S m). eapply nsteps_l; [|exact Hm].
    apply StepLeft. unfold step_left, advance. simpl. unfold receive. rewrite app_nil_r. by destruct r.
Qed.

(** ** Rounds: the left side as far as it goes, then the right side *)

Definition dswap {A B} (c : Duplex A B) : Duplex B A := mkDuplex (rside c) (lside c).

Lemma step_swap {A B} (c c' : Duplex A B) : step c c' -> step (dswap c) (dswap c').
Proof.
  intros [x H|x H]; [apply StepRight|apply StepLeft]; unfold step_left, step_right in *; simpl;
    (destruct (advance _ _) as [[s b]|]; [|done]); by injection H as <-.
Qed.

Lemma nsteps_swap {A B} n (c c' : Duplex A B) : nsteps step n c c' -> nsteps step n (dswap c) (dswap c').
Proof. induction 1 as [|n x y z Hxy Hyz IH]; [constructor|]. eapply nsteps_l; [by apply step_swap|done]. Qed.

Definition run_left {A B} (c : Duplex A B) : Duplex A B :=
  let '(l, o) := go (prog (lside c)) (inbox (lside c)) (closed (lside c)) (ended (rside c)) in mkDuplex l (receive (rside c) o).
Definition round {A B} (c : Duplex A B) : Duplex A B := dswap (run_left (dswap (run_left c))).
Fixpoint rounds {A B} (n : nat) (c : Duplex A B) : Duplex A B := match n with O => c | S n' => rounds n' (round c) end.

Lemma run_left_steps {A B} (c : Duplex A B) : exists n, nsteps step n c (run_left c).
Proof.
  unfold run_left. destruct c as [[m inb cl] r]. cbn [lside rside prog inbox closed]. destruct (go_left m inb cl r) as [n Hn]. exists n.
  by destruct (go m inb cl (ended r)) as [l o].
Qed.

Lemma rounds_steps {A B} n (c : Duplex A B) : exists k, nsteps step k c (rounds n c).
Proof.
  revert c. induction n as [|n IH]; intros c; [exists 0%nat; constructor|]. simpl. destruct (IH (round c)) as [k Hk].
  destruct (run_left_steps c) as [k1 H1]. destruct (run_left_steps (dswap (run_left c))) as [k2 H2].
  apply nsteps_swap in H2. exists (k1 + (k2 + k))%nat. eapply nsteps_trans; [exact H1|]. eapply nsteps_trans; [|exact Hk].
  unfold round. destruct (run_left c). exact H2.
Qed.

(** An exchange that some number of rounds completes ends the same way in every
    interleaving. *)
Lemma rounds_end {A B} n (p : io A) (q : io B) a b :
  prog (lside (rounds n (start p q))) = Ret a -> prog (rside (rounds n (start p q))) = Ret b -> always_ends (start p q) a b.
Proof. intros Ha Hb. destruct (rounds_steps n (start p q)) as [k Hk]. by apply (one_run_is_all k _ _ a b Hk). Qed.

(** One round, by the runs of its sides. *)
Lemma round_eq {A B} (p p' : io A) (q q' : io B) i i' j j' cp cp' cq cq' o o' :
  go p i cp (ended (mkSide q j cq)) = (mkSide p' i' cp', o) ->
  go q (j ++ o) cq (ended (mkSide p' i' cp')) = (mkSide q' j' cq', o') ->
  round (mkDuplex (mkSide p i cp) (mkSide q j cq)) = mkDuplex (mkSide p' (i' ++ o') cp') (mkSide q' j' cq').
Proof.
  intros Hp Hq. unfold round, run_left. cbn [lside rside prog inbox closed dswap]. rewrite Hp. unfold dswap, receive.
  cbn [lside rside prog inbox closed]. by rewrite Hq.
Qed.
