(* ===== verification/Framing.v ===== *)
(** * Message framing ([src/src/protocols/framing.rs])

    A message on a stream is its length as a varint and its bytes.  The encoding of
    one message is prost's: a parameter, the class [Message], with the documented
    behaviour used here as the class [MessageLaws].  [usize] is 64 bits wide. *)
From Stdlib Require Import ZArith Lia.
From stdpp Require Import base tactics numbers countable strings list.
From S2P Require Import Prelude Codec Cid Wire.
Local Open Scope Z_scope.
Local Open Scope hov_scope.

(** [enum FrameError]. *)
Inductive FrameError := Io (msg : str) | Decode (msg : str) | TooLarge (len : Z).

Definition MAX_FRAME : Z := 16 * 1024 * 1024.

(** [prost::Message]. *)
Class Message (M : Type) := {
  encode : M -> bytes;
  encode_length_delimited : M -> bytes;
  decode : bytes -> result M str }.

(** A message decodes from its own bytes; the delimited form is the length as an
    unsigned LEB128 varint and the bytes. *)
Class MessageLaws (M : Type) `{Message M} := {
  encode_bytes m : all_bytes (encode m);
  decode_encode m : decode (encode m) = Ok m;
  delimited m : encode_length_delimited m = push_varint [] (Z.of_nat (length (encode m))) ++ encode m }.

(** [fn write_message]. *)
Definition write_message {M} `{Message M} (msg : M) : io (result unit FrameError) :=
  io_map_err Io (write_all (encode_length_delimited msg)).

(** [fn read_uvarint]. *)
Fixpoint read_uvarint_loop (i : nat) (value shift : Z) : io (result Z FrameError) :=
  match i with
  | O => Ret (Err (Decode (lit "uvarint overflow")))
  | S i' =>
      let* byte := io_map_err Io (read_exact 1) in
      let b := byte !!! 0%nat in
      let value := Z.lor value (wrap 64 (Z.shiftl (Z.land b 0x7f) shift)) in
      if Z.land b 0x80 =? 0 then Ret (Ok value) else read_uvarint_loop i' value (shift + 7)
  end.
Definition read_uvarint : io (result Z FrameError) := read_uvarint_loop 10 0 0.

(** [fn read_message]. *)
Definition read_message (M : Type) `{Message M} : io (result M FrameError) :=
  let* len := read_uvarint in
  if MAX_FRAME <? len then Ret (Err (TooLarge len))
  else
    let* buf := io_map_err Io (read_exact (Z.to_nat len)) in
    Ret (map_err Decode (decode buf)).

(** [fn try_take_message]: the buffer after the call and the answer; [None] is a
    panic.  The sum of the header and the length wraps. *)
Fixpoint take_header (i : nat) (len shift : Z) (bytes_left : bytes) : option (nat * Z) :=
  match i, bytes_left with
  | S i', b :: rest =>
      let len := Z.lor len (wrap 64 (Z.shiftl (Z.land b 0x7f) shift)) in
      if Z.land b 0x80 =? 0 then Some ((10 - i)%nat, len) else take_header i' len (shift + 7) rest
  | _, _ => None
  end.
Definition try_take_message (M : Type) `{Message M} (buf : bytes) : option (bytes * result (option M) FrameError) :=
  match take_header 10 0 0 buf with
  | None => Some (buf, Ok None)
  | Some (i, len) =>
      let header_len := S i in
      let total := wrap 64 (Z.of_nat header_len + len) in
      if Z.of_nat (length buf) <? total then Some (buf, Ok None)
      else
        let rest := drop header_len buf in
        if Z.of_nat (length rest) <? len then None
        else
          let n := Z.to_nat len in
          Some (drop n rest, map_err Decode (let? m := decode (take n rest) in Ok (Some m)))
  end.

(** ** Varints *)

(** The bytes of a varint, most significant last, for values below [2^(7n)]. *)
Fixpoint leb128 (n : nat) (v : Z) : bytes :=
  match n with O => [] | S n' => if 128 <=? v then (v mod 128 + 128) :: leb128 n' (v / 128) else [v] end.

Lemma push_varint_leb n out v : 0 <= v < 128 ^ Z.of_nat n -> (0 < n)%nat -> push_varint_loop n out v = out ++ leb128 n v.
Proof.
  revert out v. induction n as [|n IH]; intros out v Hv Hn; [lia|]. cbn [push_varint_loop leb128]. change 0x80 with 128.
  destruct (Z.leb_spec 128 v) as [H|H].
  - assert (E : Z.lor (Z.land (wrap 8 v) 127) 128 = v mod 128 + 128).
    { change 127 with (Z.ones 7). rewrite Z.land_ones by lia. unfold wrap. change (2 ^ 8) with (128 * 2). change (2 ^ 7) with 128.
      rewrite mod_mod_mul by lia. rewrite Z.lor_comm. change 128 with (1 * 2 ^ 7) at 1.
      rewrite lor_low; [change (2 ^ 7) with 128; lia|lia|]. change (2 ^ 7) with 128. apply Z.mod_pos_bound. lia. }
    rewrite E, Z.shiftr_div_pow2 by lia. change (2 ^ 7) with 128. rewrite Nat2Z.inj_succ, Z.pow_succ_r in Hv by lia.
    destruct n as [|n]; [simpl in Hv; lia|]. rewrite IH; [by rewrite <- app_assoc| |lia].
    split; [apply Z.div_pos; lia|]. apply Z.div_lt_upper_bound; lia.
  - unfold wrap. rewrite Z.mod_small by lia. done.
Qed.

Lemma push_varint_u64 v : u64 v -> push_varint [] v = leb128 10 v.
Proof.
  intros Hv. unfold push_varint. rewrite push_varint_leb; [done|split; [lia|]|lia].
  eapply Z.le_lt_trans; [apply Hv|]. by vm_compute.
Qed.

(** A round of the reader on a byte that carries seven more bits. *)
Lemma add_bits value shift d : 0 <= shift -> 0 <= value < 2 ^ shift -> 0 <= d -> d * 2 ^ shift < 2 ^ 64 ->
  Z.lor value (wrap 64 (Z.shiftl d shift)) = value + d * 2 ^ shift.
Proof.
  intros Hs Hv Hd Hb. rewrite Z.shiftl_mul_pow2 by lia. unfold wrap. rewrite Z.mod_small by nia.
  rewrite Z.lor_comm, lor_low by lia. lia.
Qed.

Lemma low_bits_last v : 0 <= v < 128 -> Z.land v 0x7f = v /\ (Z.land v 0x80 =? 0) = true.
Proof.
  intros Hv. split; [change 0x7f with (Z.ones 7); rewrite Z.land_ones, Z.mod_small by lia; done|].
  apply Z.eqb_eq. change 0x80 with (1 * 2 ^ 7). apply Z.bits_inj'. intros i Hi. rewrite Z.land_spec, Z.bits_0.
  destruct (decide (i < 7)); [rewrite Z.mul_pow2_bits_low, andb_false_r by lia; done|].
  rewrite (Z.bits_above_log2 v); [done|lia|]. destruct (decide (v = 0)) as [->|]; [simpl; lia|].
  apply Z.log2_lt_pow2; [lia|]. apply Z.lt_le_trans with (2 ^ 7); [lia|]. apply Z.pow_le_mono_r; lia.
Qed.

Lemma low_bits_more d : 0 <= d < 128 -> Z.land (d + 128) 0x7f = d /\ (Z.land (d + 128) 0x80 =? 0) = false.
Proof.
  intros Hd. split.
  - change 0x7f with (Z.ones 7). rewrite Z.land_ones by lia. change (2 ^ 7) with 128. change 128 with (1 * 128) at 1.
    rewrite Z.mod_add, Z.mod_small by lia. done.
  - apply Z.eqb_neq. intros E. apply (f_equal (fun z => Z.testbit z 7)) in E. rewrite Z.land_spec, Z.bits_0 in E.
    change (Z.testbit 0x80 7) with true in E. rewrite andb_true_r in E.
    replace (d + 128) with (1 * 2 ^ 7 + d) in E by lia. rewrite <- (lor_low 1 d 7) in E by lia. rewrite Z.lor_spec in E. done.
Qed.

(** Both readers on a varint. *)
Lemma uvarint_reads n v value shift rest :
  0 <= v < 128 ^ Z.of_nat n -> (0 < n)%nat -> 0 <= shift -> 0 <= value < 2 ^ shift -> value + v * 2 ^ shift < 2 ^ 64 ->
  (forall cl eof, go (read_uvarint_loop n value shift) (leb128 n v ++ rest) cl eof = (mkSide (Ret (Ok (value + v * 2 ^ shift))) rest cl, [])) /\
  (forall m, (n <= m <= 10)%nat -> exists i, take_header m value shift (leb128 n v ++ rest) = Some ((10 - m + i)%nat, value + v * 2 ^ shift) /\ length (leb128 n v) = S i).
Proof.
  revert v value shift. induction n as [|n IH]; intros v value shift Hv Hn Hs Hval Hb; [lia|].
  cbn [leb128]. destruct (Z.leb_spec 128 v) as [H|H].
  - pose proof (Z.mod_pos_bound v 128 ltac:(lia)) as Hd. set (d := v mod 128) in *.
    destruct (low_bits_more d ltac:(lia)) as [E1 E2].
    assert (Hdv : v = 128 * (v / 128) + d) by (apply Z.div_mod; lia). set (w := v / 128) in *.
    assert (Hw : 1 <= w) by (subst w; apply Z.div_le_lower_bound; lia).
    assert (Hp : 0 < 2 ^ shift) by (apply Z.pow_pos_nonneg; lia).
    assert (E : Z.lor value (wrap 64 (Z.shiftl (Z.land (d + 128) 0x7f) shift)) = value + d * 2 ^ shift).
    { rewrite E1. apply add_bits; [lia|lia|lia|nia]. }
    assert (Hp7 : 2 ^ (shift + 7) = 128 * 2 ^ shift) by (rewrite Z.pow_add_r by lia; lia).
    rewrite Nat2Z.inj_succ, Z.pow_succ_r in Hv by lia. destruct n as [|n]; [simpl in Hv; lia|].
    destruct (IH w (value + d * 2 ^ shift) (shift + 7)) as [IH1 IH2]; [lia|lia|lia|nia|nia|].
    replace (value + d * 2 ^ shift + w * 2 ^ (shift + 7)) with (value + v * 2 ^ shift) in IH1, IH2 by nia.
    split.
    + intros cl eof. remember (S n) as n' eqn:En. simpl. rewrite ?take_0, ?drop_0. rewrite E, E2. apply IH1.
    + intros m Hm. destruct m as [|m]; [lia|]. remember (S n) as n' eqn:En. cbn [take_header app]. rewrite E, E2.
      destruct (IH2 m ltac:(lia)) as (i & -> & Hl). exists (S i). split; [f_equal; f_equal; lia|cbn [length]; lia].
  - destruct (low_bits_last v ltac:(lia)) as [E1 E2]. assert (Hp : 0 < 2 ^ shift) by (apply Z.pow_pos_nonneg; lia).
    assert (E : Z.lor value (wrap 64 (Z.shiftl (Z.land v 0x7f) shift)) = value + v * 2 ^ shift).
    { rewrite E1. apply add_bits; [lia|lia|lia|nia]. }
    split.
    + intros cl eof. simpl. rewrite ?take_0, ?drop_0. rewrite E, E2. done.
    + intros m Hm. destruct m as [|m]; [lia|]. cbn [take_header app]. rewrite E, E2. exists 0%nat. split; [f_equal; f_equal; lia|done].
Qed.

(** A varint cut short: the reader waits for more, or fails when there is no more;
    the buffered reader finds no header. *)
Lemma uvarint_cut n v value shift k : (k < length (leb128 n v))%nat ->
  (forall cl, go (read_uvarint_loop n value shift) (take k (leb128 n v)) cl true =
    (mkSide (Ret (Err (Io (lit "unexpected end of file")))) [] cl, [])) /\
  (forall m, take_header m value shift (take k (leb128 n v)) = None).
Proof.
  revert v value shift k. induction n as [|n IH]; intros v value shift k Hk; [simpl in Hk; lia|].
  destruct k as [|k]; [split; [done|by intros [|m]]|]. cbn [leb128] in *. destruct (Z.leb_spec 128 v) as [H|H]; [|simpl in Hk; lia].
  pose proof (Z.mod_pos_bound v 128 ltac:(lia)) as Hd. destruct (low_bits_more (v mod 128) ltac:(lia)) as [_ E2].
  cbn [take length] in *. split.
  - intros cl. simpl. rewrite ?take_0, ?drop_0. rewrite E2. apply IH. lia.
  - intros [|m]; [done|]. cbn [take_header]. rewrite E2. apply IH. lia.
Qed.

(** ** Messages *)

(** Sequencing under [go]. *)
Lemma go_try_ok {A B E} (m : io (result A E)) (f : A -> io (result B E)) inb cl eof a inb' cl' o :
  go m inb cl eof = (mkSide (Ret (Ok a)) inb' cl', o) ->
  go (io_try m f) inb cl eof = (let '(s, o') := go (f a) inb' cl' eof in (s, o ++ o')).
Proof. intros Hm. unfold io_try. rewrite go_bind, Hm. done. Qed.

Lemma go_try_err {A B E} (m : io (result A E)) (f : A -> io (result B E)) inb cl eof e inb' cl' o :
  go m inb cl eof = (mkSide (Ret (Err e)) inb' cl', o) -> go (io_try m f) inb cl eof = (mkSide (Ret (Err e)) inb' cl', o).
Proof. intros Hm. unfold io_try. rewrite go_bind, Hm. simpl. by rewrite app_nil_r. Qed.

Lemma go_exact {E} (g : str -> E) (b rest : bytes) cl eof :
  go (io_map_err g (read_exact (length b))) (b ++ rest) cl eof = (mkSide (Ret (Ok b)) rest cl, []).
Proof.
  unfold io_map_err, read_exact. simpl. rewrite length_app. destruct (Nat.leb_spec (length b) (length b + length rest)); [|lia].
  by rewrite take_app_length, drop_app_length.
Qed.

Section Messages.
Context {M : Type} `{MessageLaws M}.

Definition fits (m : M) : Prop := Z.of_nat (length (encode m)) <= MAX_FRAME.

Lemma delimited_leb m : fits m -> encode_length_delimited m = leb128 10 (Z.of_nat (length (encode m))) ++ encode m.
Proof. unfold fits, MAX_FRAME. intros Hf. rewrite delimited, push_varint_u64 by lia. done. Qed.

Lemma delimited_length_pos m : (0 < length (encode_length_delimited m))%nat.
Proof. rewrite delimited, length_app. pose proof (push_varint_nonempty (Z.of_nat (length (encode m)))). lia. Qed.

Lemma go_header n rest cl eof : 0 <= n < 2 ^ 64 -> go read_uvarint (leb128 10 n ++ rest) cl eof = (mkSide (Ret (Ok n)) rest cl, []).
Proof.
  intros Hn. destruct (uvarint_reads 10 n 0 0 rest) as [Hgo _]; [|lia|lia|lia|lia|].
  - split; [lia|]. eapply Z.lt_trans; [apply Hn|]. by vm_compute.
  - unfold read_uvarint. rewrite Hgo. replace (0 + n * 2 ^ 0) with n by lia. done.
Qed.

Lemma go_read m rest cl eof : fits m -> go (read_message M) (encode_length_delimited m ++ rest) cl eof = (mkSide (Ret (Ok m)) rest cl, []).
Proof.
  intros Hf. rewrite delimited_leb, <- app_assoc by done. unfold fits, MAX_FRAME in Hf. unfold read_message.
  erewrite go_try_ok by (apply go_header; lia). cbv beta. unfold MAX_FRAME. destruct (Z.ltb_spec (16 * 1024 * 1024) (Z.of_nat (length (encode m)))); [lia|].
  rewrite Nat2Z.id. erewrite go_try_ok by apply go_exact. simpl. by rewrite decode_encode.
Qed.

Lemma go_write m inb eof : go (write_message m) inb false eof = (mkSide (Ret (Ok tt)) inb false, encode_length_delimited m).
Proof. simpl. by rewrite app_nil_r. Qed.

(** Reading [n] messages one after the other. *)
Fixpoint read_messages (n : nat) : io (result (list M) FrameError) :=
  match n with O => Ret (Ok []) | S n' => let* m := read_message M in let* ms := read_messages n' in Ret (Ok (m :: ms)) end.

Lemma go_read_all ms rest cl eof : Forall fits ms ->
  go (read_messages (length ms)) (concat (map encode_length_delimited ms) ++ rest) cl eof = (mkSide (Ret (Ok ms)) rest cl, []).
Proof.
  induction 1 as [|m ms Hm Hms IH]; [done|]. cbn [length read_messages map concat]. rewrite <- app_assoc.
  erewrite go_try_ok by (by apply go_read). cbv beta. erewrite go_try_ok by exact IH. done.
Qed.

(** A frame cut short. *)
Lemma go_read_cut m k cl : fits m -> (k < length (encode_length_delimited m))%nat ->
  go (read_message M) (take k (encode_length_delimited m)) cl true = (mkSide (Ret (Err (Io (lit "unexpected end of file")))) [] cl, []).
Proof.
  intros Hf Hk. rewrite delimited_leb in * by done. set (hd := leb128 10 (Z.of_nat (length (encode m)))) in *.
  unfold fits, MAX_FRAME in Hf. destruct (decide (k < length hd)%nat) as [Hc|Hc].
  - rewrite take_app_le by lia. unfold read_message. erewrite go_try_err; [done|]. by apply uvarint_cut.
  - rewrite take_app_ge by lia. unfold read_message. erewrite go_try_ok by (apply go_header; lia). cbv beta.
    unfold MAX_FRAME. destruct (Z.ltb_spec (16 * 1024 * 1024) (Z.of_nat (length (encode m)))); [lia|].
    erewrite go_try_err; [done|]. unfold io_map_err, read_exact. rewrite length_app in Hk. simpl. rewrite length_take, Nat2Z.id.
    destruct (Nat.leb_spec (length (encode m)) ((k - length hd) `min` length (encode m))); [lia|done].
Qed.

(** Framing delivers every message, and nothing else.  Messages of at most 16 MiB
    written one after the other are read back in order, whatever follows them; a
    stream that ends inside a frame is an I/O error, never a shorter message; and a
    frame announced above the limit is refused before any of it is read, whatever its
    length. *)
Theorem framing_roundtrip (ms : list M) (m : M) (rest : bytes) cl eof : Forall fits ms -> fits m ->
  go (read_messages (length ms)) (concat (map encode_length_delimited ms) ++ rest) cl eof = (mkSide (Ret (Ok ms)) rest cl, []) /\
  (forall k, (k < length (encode_length_delimited m))%nat ->
    go (read_message M) (take k (encode_length_delimited m)) cl true = (mkSide (Ret (Err (Io (lit "unexpected end of file")))) [] cl, [])) /\
  (forall len, MAX_FRAME < len <= U64_MAX ->
    go (read_message M) (push_varint [] len ++ rest) cl eof = (mkSide (Ret (Err (TooLarge len))) rest cl, [])).
Proof.
  intros Hms Hm. split_and!; [by apply go_read_all|intros k Hk; by apply go_read_cut|].
  intros len Hlen. rewrite push_varint_u64 by (unfold MAX_FRAME in Hlen; lia). unfold read_message.
  erewrite go_try_ok by (apply go_header; unfold MAX_FRAME in Hlen; lia). cbv beta.
  destruct (Z.ltb_spec MAX_FRAME len); [done|lia].
Qed.

Lemma take_header_frame n rest : 0 <= n < 2 ^ 64 ->
  exists i, take_header 10 0 0 (leb128 10 n ++ rest) = Some (i, n) /\ length (leb128 10 n) = S i /\ (S i <= 10)%nat.
Proof.
  intros Hn. assert (Hlen : forall k v, (length (leb128 k v) <= k)%nat).
  { intros k. induction k as [|k IH]; intros v; [done|]. simpl. case_match; simpl; [specialize (IH (v / 128))|]; lia. }
  destruct (uvarint_reads 10 n 0 0 rest) as [_ Hth]; [|lia|lia|lia|lia|].
  - split; [lia|]. eapply Z.lt_trans; [apply Hn|]. by vm_compute.
  - destruct (Hth 10%nat ltac:(lia)) as (i & E & Hl). exists i. rewrite E, Hl. split_and!; [f_equal; f_equal; lia|done|].
    rewrite <- Hl. apply Hlen.
Qed.

(** Taking messages out of a buffer agrees with reading them from a stream: a
    complete frame is taken and what follows stays in the buffer, an incomplete one
    leaves the buffer as it is and asks for more.  The length of a frame is not
    bounded here, though: a ten-byte header that announces [2^64 - 1] bytes makes the
    sum of header and length wrap, and the call panics. *)
Theorem buffered_framing (m : M) (rest : bytes) : fits m ->
  try_take_message M (encode_length_delimited m ++ rest) = Some (rest, Ok (Some m)) /\
  (forall k, (k < length (encode_length_delimited m))%nat ->
    try_take_message M (take k (encode_length_delimited m)) = Some (take k (encode_length_delimited m), Ok None)) /\
  try_take_message M (replicate 9 0xff ++ [1]) = None.
Proof.
  intros Hf. pose proof (delimited_leb m Hf) as Ed. unfold fits, MAX_FRAME in Hf. set (n := Z.of_nat (length (encode m))) in *.
  split_and!; [| |by vm_compute].
  - rewrite Ed, <- app_assoc. unfold try_take_message. destruct (take_header_frame n (encode m ++ rest)) as (i & -> & Hl & Hi); [lia|].
    cbv zeta. unfold wrap. rewrite Z.mod_small by lia. rewrite !length_app.
    destruct (Z.ltb_spec (Z.of_nat (length (leb128 10 n) + (length (encode m) + length rest))) (Z.of_nat (S i) + n)); [lia|].
    rewrite <- Hl, drop_app_length, length_app. destruct (Z.ltb_spec (Z.of_nat (length (encode m) + length rest)) n); [lia|].
    unfold n. rewrite Nat2Z.id, drop_app_length, take_app_length, decode_encode. done.
  - intros k Hk. rewrite Ed in *. unfold try_take_message. destruct (decide (k < length (leb128 10 n))%nat) as [Hc|Hc].
    + rewrite take_app_le by lia. destruct (uvarint_cut 10 n 0 0 k Hc) as [_ ->]. done.
    + rewrite take_app_ge by lia. destruct (take_header_frame n (take (k - length (leb128 10 n)) (encode m))) as (i & -> & Hl & Hi); [lia|].
      cbv zeta. unfold wrap. rewrite Z.mod_small by lia. rewrite !length_app, length_take in *.
      destruct (Z.ltb_spec (Z.of_nat (length (leb128 10 n) + (k - length (leb128 10 n)) `min` length (encode m))) (Z.of_nat (S i) + n)); [done|lia].
Qed.
End Messages.

(** ** A concrete encoding, and the claims at it *)

(** Any countable type has a message encoding: the binary digits of its code. *)
Definition plain_message {A} `{Countable A} : Message A :=
  {| encode := plain_code;
     encode_length_delimited := fun m => push_varint [] (Z.of_nat (length (plain_code m))) ++ plain_code m;
     decode := plain_uncode |}.

Lemma plain_message_laws {A} `{Countable A} : @MessageLaws A plain_message.
Proof.
  split; [|apply plain_uncode_code|done]. intros m. simpl. unfold plain_code.
  eapply Forall_impl; [apply pos_bits_01|]. unfold is_byte. lia.
Qed.

Lemma framing_roundtrip_witness :
  let e := plain_message (A := list Z) in
  go (read_messages (M := list Z) 2) (concat (map encode_length_delimited [[1; 2]; [3]]) ++ [9]) false false
    = (mkSide (Ret (Ok [[1; 2]; [3]])) [9] false, []).
Proof.
  cbv zeta.
  apply (framing_roundtrip (M := list Z) (H := plain_message) (H0 := plain_message_laws) [[1; 2]; [3]] [1] [9] false false).
  - repeat constructor; vm_compute; discriminate.
  - vm_compute; discriminate.
Defined.

Lemma buffered_framing_witness :
  let e := plain_message (A := list Z) in
  try_take_message (list Z) (encode_length_delimited [1; 2] ++ [7]) = Some ([7], Ok (Some [1; 2])).
Proof.
  cbv zeta. apply (buffered_framing (M := list Z) (H := plain_message) (H0 := plain_message_laws) [1; 2] [7]).
  vm_compute; discriminate.
Defined.
