(* ===== verification/Fifo.v ===== *)
(** * Bounded maps with first-in first-out eviction

    The relay bounds every map whose keys a client chooses in the same way: a
    [HashMap] beside a [VecDeque] of its keys in order of insertion, and a loop
    that pops the front of the queue while it is longer than the cap
    ([Meter::merge] of meter.rs, [StateCache] and [DeployedCache] of metered.rs).
    The common part is written once, over a function that records what an
    evicted value leaves behind. *)
From Stdlib Require Import ZArith Lia.
From stdpp Require Import base tactics numbers list gmap.
From S2P Require Import Prelude.
Local Open Scope Z_scope.

Section Fifo.
Context {K V : Type} `{Countable K}.
Implicit Types (m : gmap K V) (order : list K).

(** Insert a value and queue its key when it is new. *)
Definition fifo_put m order (k : K) (v : V) : gmap K V * list K :=
  (<[k := v]> m, match m !! k with Some _ => order | None => order ++ [k] end).

(** [self.map.remove(k); self.order.retain(|x| x != k)]. *)
Definition fifo_remove m order (k : K) : gmap K V * list K :=
  (delete k m, List.filter (fun x => bool_decide (x <> k)) order).

(** The queue lists the keys of the map, each once. *)
Definition fifo_ok m order : Prop := NoDup order /\ forall k, k ∈ order <-> is_Some (m !! k).

Lemma fifo_ok_empty : fifo_ok ∅ [].
Proof.
  split; [constructor|]. intros k. rewrite lookup_empty. split; [by intros ?%not_elem_of_nil|by intros []].
Qed.

Lemma fifo_ok_size m order : fifo_ok m order -> size m = length order.
Proof.
  intros [Hnd Hk]. rewrite <- size_dom.
  replace (dom m) with (list_to_set order : gset K); [by apply size_list_to_set|].
  apply set_eq. intros k. by rewrite elem_of_list_to_set, elem_of_dom.
Qed.

Lemma fifo_put_ok m order k v :
  fifo_ok m order -> fifo_ok (fifo_put m order k v).1 (fifo_put m order k v).2.
Proof.
  intros [Hnd Hk]. unfold fifo_put; simpl. destruct (m !! k) as [w|] eqn:E; split.
  - done.
  - intros k'. destruct (decide (k' = k)) as [->|].
    + rewrite lookup_insert_eq. rewrite Hk, E. split; eauto.
    + by rewrite lookup_insert_ne.
  - apply NoDup_app. split_and!; [done| |apply NoDup_singleton].
    intros x Hx ->%list_elem_of_singleton. apply Hk in Hx. rewrite E in Hx. by destruct Hx.
  - intros k'. rewrite elem_of_app, list_elem_of_singleton. destruct (decide (k' = k)) as [->|].
    + rewrite lookup_insert_eq. split; eauto.
    + rewrite lookup_insert_ne by done. rewrite <- Hk. naive_solver.
Qed.

Lemma fifo_remove_ok m order k :
  fifo_ok m order -> fifo_ok (fifo_remove m order k).1 (fifo_remove m order k).2.
Proof.
  intros [Hnd Hk]. unfold fifo_remove; simpl. split.
  - apply NoDup_ListNoDup, List.NoDup_filter, NoDup_ListNoDup, Hnd.
  - intros k'. rewrite list_elem_of_In, filter_In, <- list_elem_of_In, Hk, bool_decide_eq_true.
    destruct (decide (k' = k)) as [->|].
    + rewrite lookup_delete_eq. split; [by intros [_ ?]|by intros []].
    + rewrite lookup_delete_ne by done. naive_solver.
Qed.

Lemma fifo_ok_tail m k order v : fifo_ok m (k :: order) -> m !! k = Some v ->
  fifo_ok (delete k m) order.
Proof.
  intros [Hnd Hk] E. apply NoDup_cons in Hnd as [Hn Hnd]. split; [done|]. intros k'.
  destruct (decide (k' = k)) as [->|].
  - rewrite lookup_delete_eq. split; [done|by intros []].
  - rewrite lookup_delete_ne by done. rewrite <- Hk, elem_of_cons. naive_solver.
Qed.

End Fifo.

Section Evict.
Context {K V S : Type} `{Countable K} (record : V -> S -> S).
Implicit Types (m : gmap K V) (order : list K) (s : S).

(** [while self.order.len() > self.cap { pop_front; remove }]. *)
Fixpoint evict (cap : nat) m order s : gmap K V * list K * S :=
  match order with
  | old :: rest =>
      if (cap <? length order)%nat then
        match m !! old with
        | Some v => evict cap (delete old m) rest (record v s)
        | None => evict cap m rest s
        end
      else (m, order, s)
  | [] => (m, [], s)
  end.

Lemma evict_spec cap m order s : fifo_ok m order ->
  let '(m', order', _) := evict cap m order s in
  fifo_ok m' order' /\ order' = drop (length order - cap) order /\
  (forall k, m' !! k = if decide (k ∈ order') then m !! k else None).
Proof.
  revert m s. induction order as [|old rest IH]; intros m s Hok.
  { cbn [evict]. split_and!; [done|done|]. intros k. rewrite decide_False by apply not_elem_of_nil.
    destruct (m !! k) eqn:E; [|done]. destruct Hok as [_ Hk]. assert (k ∈ []) as []%not_elem_of_nil.
    apply Hk. eauto. }
  cbn [evict]. destruct (Nat.ltb_spec cap (length (old :: rest))) as [Hl|Hl].
  - destruct (proj1 (proj2 Hok old) ltac:(left)) as [v Hv]. rewrite Hv.
    specialize (IH _ (record v s) (fifo_ok_tail _ _ _ _ Hok Hv)).
    destruct (evict cap (delete old m) rest (record v s)) as [[m' order'] s'].
    destruct IH as (Hok' & -> & Hm). split_and!; [done| |].
    + simpl length in *. by replace (Datatypes.S (length rest) - cap)%nat
        with (Datatypes.S (length rest - cap)) by lia.
    + intros k. rewrite Hm. case_decide as Hin; [|done].
      rewrite lookup_delete_ne; [done|]. intros <-. destruct Hok as [[Hn _]%NoDup_cons _].
      apply Hn. eapply (subseteq_drop (length rest - cap) rest), Hin.
  - split_and!; [done| |].
    + by replace (length (old :: rest) - cap)%nat with 0%nat by lia.
    + intros k. case_decide as Hin; [done|]. destruct (m !! k) eqn:E; [|done].
      destruct Hin. apply Hok. eauto.
Qed.

Lemma evict_length cap m order s : fifo_ok m order ->
  (length (evict cap m order s).1.2 <= cap)%nat.
Proof.
  intros Hok. pose proof (evict_spec cap m order s Hok) as Hs.
  destruct (evict cap m order s) as [[m' order'] s']. destruct Hs as (_ & -> & _). simpl.
  rewrite length_drop. lia.
Qed.

(** Eviction only forgets. *)
Lemma evict_subset cap m order s k v :
  (evict cap m order s).1.1 !! k = Some v -> m !! k = Some v.
Proof.
  revert m s. induction order as [|old rest IH]; intros m s; [done|].
  cbn [evict]. destruct (_ <? _)%nat; [|done]. destruct (m !! old) as [w|] eqn:E; [|apply IH].
  intros Hk. apply IH in Hk. by apply lookup_delete_Some in Hk as [_ Hk].
Qed.

(** What the map holds plus what the record remembers does not change. *)
Lemma evict_sum cap m order s (f : V -> Z) (g : S -> Z) (M : Z) :
  (forall v s, g (record v s) mod M = (g s + f v) mod M) ->
  let '(m', _, s') := evict cap m order s in
  (msum f m' + g s') mod M = (msum f m + g s) mod M.
Proof.
  intros Hg. revert m s. induction order as [|old rest IH]; intros m s; [done|].
  cbn [evict]. destruct (_ <? _)%nat; [|done]. destruct (m !! old) as [v|] eqn:E; [|apply IH].
  specialize (IH (delete old m) (record v s)).
  destruct (evict cap (delete old m) rest (record v s)) as [[m' order'] s'].
  rewrite IH, (msum_delete f m old v E).
  rewrite Zplus_mod, Hg, <- Zplus_mod. f_equal. lia.
Qed.
End Evict.
