(* ===== verification/F64.v ===== *)
(** * Binary64 arithmetic

    The [f64] operations the source uses, by the executable IEEE 754
    specification of the Standard Library (precision 53, exponent 1024). *)
From Stdlib Require Import ZArith Lia Floats.SpecFloat.
Local Open Scope Z_scope.

Definition f64 : Type := spec_float.

(** [n as f64]. *)
Definition f64_of_Z (n : Z) : f64 := binary_normalize 53 1024 n 0 false.
Definition f64_add : f64 -> f64 -> f64 := SFadd 53 1024.
Definition f64_sub : f64 -> f64 -> f64 := SFsub 53 1024.
Definition f64_mul : f64 -> f64 -> f64 := SFmul 53 1024.
Definition f64_div : f64 -> f64 -> f64 := SFdiv 53 1024.
Definition f64_lt : f64 -> f64 -> bool := SFltb.
Definition f64_le : f64 -> f64 -> bool := SFleb.

Definition is_nan (x : f64) : bool := match x with S754_nan => true | _ => false end.

(** [f64::min] and [f64::max]: a NaN operand is ignored. *)
Definition f64_min (x y : f64) : f64 :=
  if is_nan x then y else if is_nan y then x else if f64_lt y x then y else x.
Definition f64_max (x y : f64) : f64 :=
  if is_nan x then y else if is_nan y then x else if f64_lt x y then y else x.

(** [f64::MIN_POSITIVE]. *)
Definition F64_MIN_POSITIVE : f64 := binary_normalize 53 1024 1 (-1022) false.

Definition f64_1 : f64 := f64_of_Z 1.

(** [Duration::as_secs_f64] of a duration in nanoseconds. *)
Definition as_secs_f64 (nanos : Z) : f64 :=
  f64_add (f64_of_Z (nanos / 1000000000))
    (f64_div (f64_of_Z (nanos mod 1000000000)) (f64_of_Z 1000000000)).

(** [f64::MAX], equality, negation and [f64::clamp]. *)
Definition F64_MAX : f64 := binary_normalize 53 1024 (2 ^ 53 - 1) 971 false.
Definition f64_eq : f64 -> f64 -> bool := SFeqb.
Definition f64_neg : f64 -> f64 := SFopp.
Definition f64_clamp (lo hi x : f64) : f64 := if f64_lt x lo then lo else if f64_lt hi x then hi else x.

(** The nearest [f64] to a decimal literal written as a fraction of two integers
    that are themselves exact. *)
Definition f64_lit (n d : Z) : f64 := f64_div (f64_of_Z n) (f64_of_Z d).

(** [x.ceil()] and truncation, as an integer in the range of a [u64]; the [as]
    cast saturates and maps NaN to 0. *)
Definition as_u64_with (round : Z -> Z -> Z) (x : f64) : Z :=
  match x with
  | S754_zero _ | S754_nan => 0
  | S754_infinity s => if s then 0 else 2 ^ 64 - 1
  | S754_finite s m e =>
      let v := if s then - Z.pos m else Z.pos m in
      Z.max 0 (Z.min (2 ^ 64 - 1) (if 0 <=? e then v * 2 ^ e else round v (2 ^ (- e))))
  end.
Definition f64_as_u64 : f64 -> Z := as_u64_with Z.quot.
Definition f64_ceil_as_usize : f64 -> Z := as_u64_with (fun v d => - ((- v) / d)).

(** ** Integers *)

Lemma pad_value k m : Z.pos (Pos.iter xO m k) = Z.pos m * 2 ^ Z.pos k.
Proof. change (Pos.iter xO m k) with (shift_pos k m). rewrite shift_pos_correct, Z.pow_pos_fold. lia. Qed.

Lemma pad_digits k m : Z.pos (digits2_pos (Pos.iter xO m k)) = Z.pos (digits2_pos m) + Z.pos k.
Proof.
  induction k as [|k IH] using Pos.peano_ind; [cbn; lia|]. rewrite Pos.iter_succ. cbn [digits2_pos]. lia.
Qed.

Lemma digits_low m : 2 ^ (Z.pos (digits2_pos m) - 1) <= Z.pos m.
Proof.
  induction m as [m IH|m IH|]; cbn [digits2_pos]; [| |cbn; lia];
  rewrite Pos2Z.inj_succ; replace (Z.succ (Z.pos (digits2_pos m)) - 1) with (Z.succ (Z.pos (digits2_pos m) - 1)) by lia;
  rewrite Z.pow_succ_r by lia; lia.
Qed.

Lemma normal_exact m e : e <= 0 -> -52 <= e -> Z.pos (digits2_pos m) = 53 ->
  binary_round_aux 53 1024 false (Z.pos m) e loc_Exact = S754_finite false m e.
Proof.
  intros He He' Hd. assert (Hf : fexp 53 1024 (Zdigits2 (Z.pos m) + e) - e = 0) by (cbn [Zdigits2]; rewrite Hd; unfold fexp, emin; lia).
  unfold binary_round_aux, shr_fexp. rewrite Hf. cbn [shr shr_record_of_loc shr_m loc_of_shr_record round_nearest_even].
  rewrite Hf. cbn [shr shr_record_of_loc shr_m]. rewrite (proj2 (Z.leb_le e _)) by lia. reflexivity.
Qed.

(** An integer below [2^53] goes to [f64] and back unchanged. *)
Lemma f64_int_exact n : 0 <= n < 2 ^ 53 -> f64_as_u64 (f64_of_Z n) = n.
Proof.
  intros [H0 H53]. destruct n as [|m|m]; [reflexivity| |lia]. unfold f64_of_Z, binary_normalize, binary_round.
  assert (Hd : Z.pos (digits2_pos m) <= 53).
  { destruct (Z.le_gt_cases (Z.pos (digits2_pos m)) 53) as [|Hgt]; [assumption|]. exfalso. pose proof (digits_low m).
    assert (2 ^ 53 <= 2 ^ (Z.pos (digits2_pos m) - 1)) by (apply Z.pow_le_mono_r; lia). lia. }
  assert (Hfx : fexp 53 1024 (Z.pos (digits2_pos m) + 0) = Z.pos (digits2_pos m) - 53) by (unfold fexp, emin; lia).
  unfold shl_align. rewrite Hfx, Z.sub_0_r. destruct (Z.pos (digits2_pos m) - 53) as [|k|k] eqn:Ek; [|lia|].
  - rewrite normal_exact by lia. unfold f64_as_u64, as_u64_with. change (0 <=? 0) with true. cbv iota. rewrite Z.pow_0_r. change (2 ^ 64) with (2 ^ 53 * 2048). lia.
  - rewrite normal_exact by (rewrite ?pad_digits; lia). unfold f64_as_u64, as_u64_with.
    change (0 <=? Z.neg k) with false. cbv iota. change (- Z.neg k) with (Z.pos k). rewrite pad_value, Z.quot_mul by (apply Z.pow_nonzero; lia). change (2 ^ 64) with (2 ^ 53 * 2048). lia.
Qed.
