(* ===== verification/Ledger.v ===== *)
(** * The relay's payment ledger ([src/src/ledger.rs])

    Four quantities per account (owed, reserved, the cumulative of the latest
    cheque of each chequebook, and the chequebook binding), the operations that
    move them, and the durable form: everything but reservations. *)
From Stdlib Require Import ZArith Lia.
From stdpp Require Import base tactics numbers strings list gmap sorting.
From S2P Require Import Prelude Codec.
Local Open Scope Z_scope.

Definition MAX_CUMULATIVE_PLUR : Z := 1000000000000000000000000000000.

(** [enum LedgerError]; the chequebook is printed in hex. *)
Inductive LedgerError :=
| NotIncreasing (got have : Z)
| ChequebookBound (chequebook : str)
| Absurd (cumulative : Z)
| Overpayment (got owed : Z)
| Store (msg : str).

(** [enum StoreError]. *)
Inductive StoreError := Io (msg : str) | Json (msg : str).

(** [struct Admission]. *)
Record Admission := {
  adm_reserved_plur : Z;
  outstanding_plur : Z;
  cap_plur : Z;
  over_cap : bool }.

(** [struct HeldCheque]. *)
Record HeldCheque := mkHeld { cumulative_plur : Z; signature : bytes }.

(** [struct Account]. *)
Record Account := mkAccount {
  owed_plur : Z;
  reserved_plur : Z;
  last_cumulative : gmap bytes HeldCheque }.

Definition default_account : Account := mkAccount 0 0 ∅.

(** [Account::outstanding]. *)
Definition account_outstanding (a : Account) : Z := sat_add128 (owed_plur a) (reserved_plur a).

(** [struct Ledger]; [persistent] tells whether [path] is set. *)
Record Ledger := mkLedger {
  accounts : gmap bytes Account;
  binding : gmap bytes bytes;
  secret : bytes;
  persistent : bool }.

(** [Ledger::ephemeral] with the drawn secret. *)
Definition ephemeral (rng : bytes) : Ledger := mkLedger ∅ ∅ rng false.

(** ** Queries *)

Definition owed (l : Ledger) (account : bytes) : Z :=
  from_option owed_plur 0 (accounts l !! account).

Definition reserved (l : Ledger) (account : bytes) : Z :=
  from_option reserved_plur 0 (accounts l !! account).

Definition outstanding (l : Ledger) (account : bytes) : Z :=
  from_option account_outstanding 0 (accounts l !! account).

Definition held_cheque (l : Ledger) (account chequebook : bytes) : option HeldCheque :=
  a ← accounts l !! account; last_cumulative a !! chequebook.

Definition last_cumulative_of (l : Ledger) (account chequebook : bytes) : Z :=
  from_option cumulative_plur 0 (held_cheque l account chequebook).

Definition had_binding (l : Ledger) (chequebook : bytes) : bool :=
  bool_decide (is_Some (binding l !! chequebook)).

(** [Ledger::live_reservations]. *)
Definition live_reservations (l : Ledger) : nat :=
  length (List.filter (fun a => 0 <? reserved_plur a) (map_to_list (accounts l)).*2).

Definition by_chequebook (x y : bytes * bytes * HeldCheque) : Prop := lex_le x.1.2 y.1.2 = true.
#[export] Instance by_chequebook_dec : RelDecision by_chequebook.
Proof. intros x y. unfold by_chequebook. apply _. Defined.

(** [Ledger::held_cheques], sorted by chequebook. *)
Definition held_cheques (l : Ledger) : list (bytes * bytes * HeldCheque) :=
  merge_sort by_chequebook
    (concat (map (fun '(account, a) =>
        map (fun '(cb, held) => (account, cb, held)) (map_to_list (last_cumulative a)))
      (map_to_list (accounts l)))).

(** ** Operations *)

(** [entry(account).or_default()]. *)
Definition entry (l : Ledger) (account : bytes) : Account :=
  default default_account (accounts l !! account).

Definition set_account (l : Ledger) (account : bytes) (a : Account) : Ledger :=
  mkLedger (<[account := a]> (accounts l)) (binding l) (secret l) (persistent l).

(** [Ledger::reserve]. *)
Definition reserve (l : Ledger) (account : bytes) (amount cap : Z) : Ledger * Admission :=
  let a := entry l account in
  let a := mkAccount (owed_plur a) (sat_add128 (reserved_plur a) amount) (last_cumulative a) in
  let o := account_outstanding a in
  (set_account l account a,
   {| adm_reserved_plur := amount; outstanding_plur := o; cap_plur := cap; over_cap := cap <? o |}).

(** [Ledger::release]. *)
Definition release (l : Ledger) (account : bytes) (amount : Z) : Ledger :=
  match accounts l !! account with
  | Some a => set_account l account
      (mkAccount (owed_plur a) (sat_sub (reserved_plur a) amount) (last_cumulative a))
  | None => l
  end.

(** [Ledger::commit]. *)
Definition commit (l : Ledger) (account : bytes) (res billed : Z) : Ledger :=
  let a := entry l account in
  set_account l account
    (mkAccount (sat_add128 (owed_plur a) billed) (sat_sub (reserved_plur a) res)
       (last_cumulative a)).

Section WithHex.
Context `{Hex}.

(** [Ledger::credit].  The account entry is created before the checks on it. *)
Definition credit (l : Ledger) (account chequebook : bytes) (cumulative : Z) (sig : bytes)
    : Ledger * result Z LedgerError :=
  if MAX_CUMULATIVE_PLUR <? cumulative then (l, Err (Absurd cumulative))
  else if match binding l !! chequebook with
          | Some bound => bool_decide (bound <> account)
          | None => false
          end
  then (l, Err (ChequebookBound (hex_encode chequebook)))
  else
    let a := entry l account in
    let l0 := set_account l account a in
    let have := from_option cumulative_plur 0 (last_cumulative a !! chequebook) in
    if cumulative <=? have then (l0, Err (NotIncreasing cumulative have))
    else
      let delta := cumulative - have in
      if owed_plur a <? delta then (l0, Err (Overpayment delta (owed_plur a)))
      else
        let a' := mkAccount (owed_plur a - delta) (reserved_plur a)
          (<[chequebook := mkHeld cumulative sig]> (last_cumulative a)) in
        (mkLedger (<[account := a']> (accounts l)) (<[chequebook := account]> (binding l))
           (secret l) (persistent l), Ok delta).

(** [Ledger::rollback_credit]. *)
Definition rollback_credit (l : Ledger) (account chequebook : bytes) (prev_owed : Z)
    (prev_held : option HeldCheque) (had : bool) : Ledger :=
  let accts := match accounts l !! account with
    | Some a => <[account := mkAccount prev_owed (reserved_plur a)
        (match prev_held with
         | Some h => <[chequebook := h]> (last_cumulative a)
         | None => delete chequebook (last_cumulative a)
         end)]> (accounts l)
    | None => accounts l
    end in
  mkLedger accts (if had then binding l else delete chequebook (binding l))
    (secret l) (persistent l).

(** ** The on-disk form *)

(** [struct OnDiskAccount]. *)
Record OnDiskAccount := mkDiskAccount {
  d_account : str;
  d_owed : str;
  d_last : list (str * str * str) }.

(** [struct OnDisk]. *)
Record OnDisk := mkDisk {
  d_version : Z;
  d_secret : str;
  d_accounts : list OnDiskAccount;
  d_binding : list (str * str) }.

Definition pair_le (x y : str * str) : Prop :=
  (lex_le x.1 y.1 && (negb (lex_le y.1 x.1) || lex_le x.2 y.2)) = true.
#[export] Instance pair_le_dec : RelDecision pair_le.
Proof. intros x y. unfold pair_le. apply _. Defined.

Definition triple_le (x y : str * str * str) : Prop :=
  (lex_le x.1.1 y.1.1 && (negb (lex_le y.1.1 x.1.1) || bool_decide (pair_le (x.1.2, x.2) (y.1.2, y.2))))
  = true.
#[export] Instance triple_le_dec : RelDecision triple_le.
Proof. intros x y. unfold triple_le. apply _. Defined.

Definition disk_account_le (x y : OnDiskAccount) : Prop := lex_le (d_account x) (d_account y) = true.
#[export] Instance disk_account_le_dec : RelDecision disk_account_le.
Proof. intros x y. unfold disk_account_le. apply _. Defined.

(** The file [persist] writes. *)
Definition to_disk_account (account : bytes) (a : Account) : OnDiskAccount :=
  mkDiskAccount (hex_encode account) (u128_to_string (owed_plur a))
    (merge_sort triple_le (map (fun '(cb, c) =>
       (hex_encode cb, u128_to_string (cumulative_plur c), hex_encode (signature c)))
     (map_to_list (last_cumulative a)))).

Definition is_durable (a : Account) : bool :=
  (0 <? owed_plur a) || negb (bool_decide (last_cumulative a = ∅)).

Definition to_disk (l : Ledger) : OnDisk :=
  mkDisk 2 (hex_encode (secret l))
    (merge_sort disk_account_le
      (map (fun '(k, a) => to_disk_account k a)
        (List.filter (fun '(_, a) => is_durable a) (map_to_list (accounts l)))))
    (merge_sort pair_le (map (fun '(cb, a) => (hex_encode cb, hex_encode a))
      (map_to_list (binding l)))).

(** [fn parse_addr] and [fn parse_u128]. *)
Definition parse_addr (s : str) : result bytes StoreError :=
  match hex_decode (trim_0x s) with
  | Err e => Err (Io (lit "address hex: " ++ e))
  | Ok raw => if Nat.eqb (length raw) 20 then Ok raw
              else Err (Io (lit "address must be 20 bytes: " ++ s))
  end.

Definition parse_u128 (s : str) : result Z StoreError :=
  match u128_parse s with
  | Ok n => Ok n
  | Err _ => Err (Io (lit "u128 parse " ++ s))
  end.

Local Open Scope hov_scope.

(** The loops of [load_or_create] over cheques, accounts and bindings. *)
Fixpoint load_cheques (es : list (str * str * str)) (m : gmap bytes HeldCheque)
    : result (gmap bytes HeldCheque) StoreError :=
  match es with
  | [] => Ok m
  | (cb, v, sig_hex) :: es' =>
      let? raw := map_err (fun e => Io (lit "cheque signature hex: " ++ e))
                    (hex_decode (trim_0x sig_hex)) in
      let sig := if Nat.eqb (length raw) 65 then raw else replicate 65 0 in
      let? key := parse_addr cb in
      let? n := parse_u128 v in
      load_cheques es' (<[key := mkHeld n sig]> m)
  end.

Fixpoint load_accounts (es : list OnDiskAccount) (m : gmap bytes Account)
    : result (gmap bytes Account) StoreError :=
  match es with
  | [] => Ok m
  | a :: es' =>
      let? key := parse_addr (d_account a) in
      let? last := load_cheques (d_last a) ∅ in
      let? o := parse_u128 (d_owed a) in
      load_accounts es' (<[key := mkAccount o 0 last]> m)
  end.

Fixpoint load_binding (es : list (str * str)) (m : gmap bytes bytes)
    : result (gmap bytes bytes) StoreError :=
  match es with
  | [] => Ok m
  | (cb, acct) :: es' =>
      let? k := parse_addr cb in
      let? v := parse_addr acct in
      load_binding es' (<[k := v]> m)
  end.

Definition from_disk (d : OnDisk) : result Ledger StoreError :=
  if negb (d_version d =? 1) && negb (d_version d =? 2)
  then Err (Io (lit "unsupported ledger version " ++ u128_to_string (d_version d)))
  else
    let? raw := map_err (fun e => Io (lit "secret hex: " ++ e)) (hex_decode (trim_0x (d_secret d))) in
    if negb (Nat.eqb (length raw) 32) then Err (Io (lit "relay secret must be 32 bytes, got " ++ u128_to_string (Z.of_nat (length raw))))
    else
      let? accts := load_accounts (d_accounts d) ∅ in
      let? bind := load_binding (d_binding d) ∅ in
      Ok (mkLedger accts bind raw true).

(** ** The file: serde_json as a parameter, and the two files [persist] touches *)

Record Disk := mkFiles { main_file : option bytes; tmp_file : option bytes }.

(** What the operating system does to the file accesses of one call, with the
    text of its error; a failed write may leave a partial temporary file. *)
Inductive Fault :=
| NoFault
| ReadFails (e : str)
| WriteFails (e : str) (partial : option bytes)
| RenameFails (e : str).

Context (to_vec_pretty : OnDisk -> bytes) (from_str : bytes -> result OnDisk str).

(** [Ledger::persist]. *)
Definition persist (l : Ledger) (d : Disk) (f : Fault) : Disk * result unit StoreError :=
  if negb (persistent l) then (d, Ok tt)
  else
    let body := to_vec_pretty (to_disk l) in
    match f with
    | WriteFails e partial => (mkFiles (main_file d) partial, Err (Io e))
    | RenameFails e => (mkFiles (main_file d) (Some body), Err (Io e))
    | NoFault | ReadFails _ => (mkFiles (Some body) None, Ok tt)
    end.

(** [Ledger::load_or_create], with the secret the system would draw. *)
Definition load_or_create (d : Disk) (rng : bytes) (f : Fault) : Disk * result Ledger StoreError :=
  match f, main_file d with
  | ReadFails e, _ => (d, Err (Io e))
  | _, None =>
      let fresh := mkLedger ∅ ∅ rng true in
      let '(d', r) := persist fresh d f in
      (d', match r with Ok _ => Ok fresh | Err e => Err e end)
  | _, Some text =>
      (d, match from_str text with
          | Err e => Err (Json e)
          | Ok disk => from_disk disk
          end)
  end.
End WithHex.

(** ** Well-formed ledgers *)

Definition is_addr (k : bytes) : Prop := length k = 20%nat /\ all_bytes k.

Definition cheque_ok (c : HeldCheque) : Prop :=
  0 < cumulative_plur c <= MAX_CUMULATIVE_PLUR /\
  length (signature c) = 65%nat /\ all_bytes (signature c).

Record account_ok (a : Account) : Prop := {
  owed_range : u128 (owed_plur a);
  reserved_range : u128 (reserved_plur a);
  cheques_ok : forall cb c, last_cumulative a !! cb = Some c -> is_addr cb /\ cheque_ok c }.

Record wf_ledger (l : Ledger) : Prop := {
  wf_accounts : forall k a, accounts l !! k = Some a -> is_addr k /\ account_ok a;
  wf_binding : forall cb k, binding l !! cb = Some k -> is_addr cb /\ is_addr k;
  wf_bound : forall k cb c, held_cheque l k cb = Some c -> binding l !! cb = Some k;
  wf_secret : length (secret l) = 32%nat /\ all_bytes (secret l) }.

(** What the cheques accepted from an account add up to. *)
Definition paid (l : Ledger) (k : bytes) : Z :=
  from_option (fun a => msum cumulative_plur (last_cumulative a)) 0 (accounts l !! k).

Lemma default_account_ok : account_ok default_account.
Proof. split; simpl; [lia|lia|]. intros cb c H. by rewrite lookup_empty in H. Qed.

Lemma entry_ok l k : wf_ledger l -> account_ok (entry l k).
Proof.
  intros Hl. unfold entry. destruct (accounts l !! k) as [a|] eqn:E; simpl.
  - by apply (wf_accounts l Hl) in E as [_ ?].
  - apply default_account_ok.
Qed.

Lemma owed_entry l k : owed l k = owed_plur (entry l k).
Proof. unfold owed, entry. by destruct (accounts l !! k). Qed.
Lemma reserved_entry l k : reserved l k = reserved_plur (entry l k).
Proof. unfold reserved, entry. by destruct (accounts l !! k). Qed.
Lemma paid_entry l k : paid l k = msum cumulative_plur (last_cumulative (entry l k)).
Proof. unfold paid, entry. by destruct (accounts l !! k). Qed.
Lemma held_entry l k cb : held_cheque l k cb = last_cumulative (entry l k) !! cb.
Proof. unfold held_cheque, entry. by destruct (accounts l !! k). Qed.

Lemma entry_set l k k' a : entry (set_account l k a) k' = if decide (k' = k) then a else entry l k'.
Proof.
  unfold entry, set_account; simpl. destruct (decide (k' = k)) as [->|].
  - by rewrite lookup_insert_eq.
  - by rewrite lookup_insert_ne.
Qed.

(** Two ledgers with the same entries answer every query alike. *)
Definition same_entries (l l' : Ledger) : Prop :=
  (forall k, entry l k = entry l' k) /\ binding l = binding l' /\
  secret l = secret l' /\ persistent l = persistent l'.

Lemma set_entry_same l k : same_entries (set_account l k (entry l k)) l.
Proof.
  split_and!; [|done..]. intros k'. rewrite entry_set. by destruct (decide _) as [->|].
Qed.

(** Replacing an account by one that keeps the cheques preserves well-formedness. *)
Lemma wf_set_account l k a : wf_ledger l -> is_addr k -> account_ok a ->
  last_cumulative a = last_cumulative (entry l k) -> wf_ledger (set_account l k a).
Proof.
  intros Hl Hk Ha Hc. split; simpl; try apply Hl.
  - intros k' a' H. destruct (decide (k' = k)) as [->|].
    + rewrite lookup_insert_eq in H. by injection H as <-.
    + rewrite lookup_insert_ne in H by done. by apply (wf_accounts l Hl).
  - intros k' cb c H. apply (wf_bound l Hl k' cb c). rewrite held_entry in H |- *.
    rewrite entry_set in H. destruct (decide (k' = k)) as [->|]; [|done]. by rewrite <- Hc.
Qed.

Lemma reserve_wf l k amount cap : wf_ledger l -> is_addr k -> 0 <= amount ->
  wf_ledger (reserve l k amount cap).1.
Proof.
  intros Hl Hk Ha. destruct (entry_ok l k Hl) as [Ho Hr Hc].
  apply wf_set_account; [done..| |done]. split; simpl; [done| sat |done].
Qed.

Lemma release_wf l k amount : wf_ledger l -> is_addr k -> 0 <= amount -> wf_ledger (release l k amount).
Proof.
  intros Hl Hk Ha. unfold release. destruct (accounts l !! k) as [a|] eqn:E; [|done].
  destruct (wf_accounts l Hl k a E) as [_ [Ho Hr Hc]].
  apply wf_set_account; [done..| |]; simpl.
  - split; simpl; [done|sat|done].
  - unfold entry. by rewrite E.
Qed.

Lemma commit_wf l k res billed : wf_ledger l -> is_addr k -> 0 <= res -> 0 <= billed ->
  wf_ledger (commit l k res billed).
Proof.
  intros Hl Hk Ha Hb. destruct (entry_ok l k Hl) as [Ho Hr Hc].
  apply wf_set_account; [done..| |done]. split; simpl; [sat|sat|done].
Qed.

Section CreditFacts.
Context `{Hex}.

(** Every way [credit] can end: an error that changes no entry, or an accepted
    cheque that moves exactly [delta] from debt to payment. *)
Lemma credit_cases l k cb cum sig :
  (exists e, (credit l k cb cum sig).2 = Err e /\ same_entries (credit l k cb cum sig).1 l) \/
  (exists delta, (credit l k cb cum sig).2 = Ok delta /\
    cum <= MAX_CUMULATIVE_PLUR /\ 0 < delta <= owed l k /\
    delta = cum - last_cumulative_of l k cb /\
    (binding l !! cb = None \/ binding l !! cb = Some k) /\
    (credit l k cb cum sig).1 =
      mkLedger (<[k := mkAccount (owed l k - delta) (reserved l k)
                   (<[cb := mkHeld cum sig]> (last_cumulative (entry l k)))]> (accounts l))
        (<[cb := k]> (binding l)) (secret l) (persistent l)).
Proof.
  unfold credit. destruct (Z.ltb_spec MAX_CUMULATIVE_PLUR cum) as [|Hmax].
  { left. eexists; split; [done|]. by split_and!. }
  destruct (match binding l !! cb with Some b => bool_decide (b <> k) | None => false end) eqn:Hb.
  { left. eexists; split; [done|]. by split_and!. }
  assert (HB : binding l !! cb = None \/ binding l !! cb = Some k).
  { destruct (binding l !! cb) as [b|]; [|auto]. apply bool_decide_eq_false in Hb.
    right. f_equal. destruct (decide (b = k)); [done|tauto]. }
  unfold last_cumulative_of. rewrite held_entry.
  set (have := from_option cumulative_plur 0 (last_cumulative (entry l k) !! cb)).
  destruct (Z.leb_spec cum have).
  { left. eexists; split; [done|]. apply set_entry_same. }
  destruct (Z.ltb_spec (owed_plur (entry l k)) (cum - have)).
  { left. eexists; split; [done|]. apply set_entry_same. }
  right. exists (cum - have). rewrite owed_entry, reserved_entry. split_and!; auto; lia.
Qed.

(** A bound-compatible increment within the debt is accepted. *)
Lemma credit_pays l k cb sig delta : 0 < delta <= owed l k ->
  last_cumulative_of l k cb + delta <= MAX_CUMULATIVE_PLUR ->
  (binding l !! cb = None \/ binding l !! cb = Some k) ->
  (credit l k cb (last_cumulative_of l k cb + delta) sig).2 = Ok delta.
Proof.
  intros Ho Hm Hb. unfold credit. rewrite (proj2 (Z.ltb_ge _ _)) by done.
  replace (match binding l !! cb with Some b => bool_decide (b <> k) | None => false end) with false.
  - cbv zeta. replace (from_option cumulative_plur 0 (last_cumulative (entry l k) !! cb)) with
      (last_cumulative_of l k cb) by (unfold last_cumulative_of; by rewrite held_entry).
    rewrite (proj2 (Z.leb_gt _ _)) by lia. rewrite <- owed_entry.
    rewrite Z.add_simpl_l, (proj2 (Z.ltb_ge _ _)) by lia. done.
  - destruct Hb as [-> | ->]; [done|]. by rewrite bool_decide_eq_false_2 by tauto.
Qed.

Lemma same_entries_wf l l' : same_entries l l' -> wf_ledger l' ->
  (forall k a, accounts l !! k = Some a -> is_addr k) -> wf_ledger l.
Proof.
  intros (He & Hb & Hs & _) Hl Hk. split.
  - intros k a H1. split; [eauto|].
    assert (E : entry l k = a) by (unfold entry; by rewrite H1).
    rewrite <- E, He. by apply entry_ok.
  - rewrite Hb. apply Hl.
  - intros k cb c. rewrite held_entry, He, <- held_entry, Hb. apply Hl.
  - rewrite Hs. apply Hl.
Qed.

Lemma credit_keys l k cb cum sig k' a : accounts (credit l k cb cum sig).1 !! k' = Some a ->
  k' = k \/ is_Some (accounts l !! k').
Proof.
  destruct (decide (k' = k)); [auto|]. intros H1. right. unfold credit in H1.
  repeat (case_match; simpl in H1); rewrite ?lookup_insert_ne in H1 by done; eauto.
Qed.

Lemma credit_wf l k cb cum sig : wf_ledger l -> is_addr k -> is_addr cb ->
  length sig = 65%nat -> all_bytes sig -> wf_ledger (credit l k cb cum sig).1.
Proof.
  intros Hl Hk Hcb Hsl Hsb.
  destruct (credit_cases l k cb cum sig)
    as [(e & _ & Hs)|(delta & _ & Hm & Hd & Ed & HB & ->)].
  { apply (same_entries_wf _ l Hs Hl). intros k' a H1.
    apply credit_keys in H1 as [->|[a' H1]]; [done|]. by apply (wf_accounts l Hl) in H1 as [? _]. }
  destruct (entry_ok l k Hl) as [Ho Hr Hc].
  assert (Hlc : 0 <= last_cumulative_of l k cb).
  { unfold last_cumulative_of. rewrite held_entry.
    destruct (last_cumulative (entry l k) !! cb) as [c|] eqn:E; simpl; [|lia].
    destruct (Hc cb c E) as [_ [? _]]. lia. }
  rewrite owed_entry, reserved_entry in *. split; simpl.
  - intros k' a H1. destruct (decide (k' = k)) as [->|].
    + rewrite lookup_insert_eq in H1. injection H1 as <-. split; [done|]. split; simpl; [lia|done|].
      intros cb' c H2. destruct (decide (cb' = cb)) as [->|].
      * rewrite lookup_insert_eq in H2. injection H2 as <-. split; [done|]. split_and!; simpl; auto; lia.
      * rewrite lookup_insert_ne in H2 by done. by apply Hc.
    + rewrite lookup_insert_ne in H1 by done. by apply (wf_accounts l Hl).
  - intros cb' k' H1. destruct (decide (cb' = cb)) as [->|].
    + rewrite lookup_insert_eq in H1. by injection H1 as <-.
    + rewrite lookup_insert_ne in H1 by done. by apply (wf_binding l Hl).
  - intros k' cb' c H1. unfold held_cheque in H1; simpl in H1.
    destruct (decide (cb' = cb)) as [->|].
    + rewrite lookup_insert_eq. destruct (decide (k' = k)) as [->|]; [done|].
      rewrite lookup_insert_ne in H1 by done.
      apply (wf_bound l Hl) in H1. destruct HB; congruence.
    + rewrite lookup_insert_ne by done. apply (wf_bound l Hl k' cb' c).
      destruct (decide (k' = k)) as [->|].
      * rewrite lookup_insert_eq in H1. simpl in H1. rewrite lookup_insert_ne in H1 by done.
        by rewrite held_entry.
      * by rewrite lookup_insert_ne in H1.
  - apply Hl.
Qed.
End CreditFacts.

(** ** The durable half *)

(** What a restart keeps: accounts that owe or have paid, without reservations. *)
Definition forget_reserved (a : Account) : Account :=
  mkAccount (owed_plur a) 0 (last_cumulative a).

Definition durable (l : Ledger) : Ledger :=
  mkLedger (forget_reserved <$> filter (fun ka => is_durable ka.2 = true) (accounts l))
    (binding l) (secret l) true.

Lemma durable_entry_nonneg l k : 0 <= owed l k -> entry (durable l) k = forget_reserved (entry l k).
Proof.
  rewrite owed_entry. unfold entry, durable; simpl.
  rewrite lookup_fmap. destruct (accounts l !! k) as [a|] eqn:E; simpl; intros Ho.
  - destruct (is_durable a) eqn:D.
    + by rewrite (map_lookup_filter_Some_2 _ _ _ a).
    + rewrite map_lookup_filter_None_2; [|right; intros a' Ha' HD; simplify_eq/=; congruence].
      apply orb_false_iff in D as [D1 D2]. apply Z.ltb_ge in D1.
      apply negb_false_iff, bool_decide_eq_true in D2. simpl. unfold forget_reserved.
      rewrite D2. f_equal. lia.
  - rewrite map_lookup_filter_None_2; [done|by left].
Qed.

Lemma durable_entry l k : wf_ledger l -> entry (durable l) k = forget_reserved (entry l k).
Proof.
  intros Hl. apply durable_entry_nonneg. rewrite owed_entry. apply (owed_range _ (entry_ok l k Hl)).
Qed.

Lemma durable_wf l : wf_ledger l -> wf_ledger (durable l).
Proof.
  intros Hl. split; simpl; try apply Hl.
  - intros k a H. rewrite lookup_fmap in H. apply fmap_Some in H as (a' & H & ->).
    apply map_lookup_filter_Some in H as [H _]. destruct (wf_accounts l Hl k a' H) as [? [? ? ?]].
    split; [done|]. split; simpl; [done|lia|done].
  - intros k cb c. rewrite held_entry, durable_entry by done. simpl. rewrite <- held_entry. apply Hl.
Qed.

Section DiskRoundTrip.
Context `{HexLaws}.

Lemma parse_addr_hex k : is_addr k -> parse_addr (hex_encode k) = Ok k.
Proof.
  intros [Hn Hb]. unfold parse_addr. by rewrite trim_0x_hex, hex_roundtrip, Hn by done.
Qed.

Lemma parse_u128_string n : u128 n -> parse_u128 (u128_to_string n) = Ok n.
Proof. intros Hn. unfold parse_u128. by rewrite u128_roundtrip. Qed.

Lemma load_cheques_encoded xs acc :
  Forall (fun '(cb, c) => is_addr cb /\ cheque_ok c) xs ->
  load_cheques (map (fun '(cb, c) =>
       (hex_encode cb, u128_to_string (cumulative_plur c), hex_encode (signature c))) xs) acc =
  Ok (foldl (fun m kv => <[kv.1 := kv.2]> m) acc xs).
Proof.
  intros Hx. revert acc. induction Hx as [|[cb c] xs [Hcb (Hc & Hn & Hs)] _ IH]; intros acc; [done|].
  simpl. rewrite trim_0x_hex, hex_roundtrip by done. simpl.
  rewrite parse_addr_hex by done. simpl.
  rewrite parse_u128_string by (unfold MAX_CUMULATIVE_PLUR in Hc; lia). simpl.
  rewrite Hn. simpl. rewrite IH. by destruct c.
Qed.

Lemma load_account_cheques a : account_ok a ->
  load_cheques (d_last (to_disk_account [] a)) ∅ = Ok (last_cumulative a).
Proof.
  intros [_ _ Hc]. simpl.
  match goal with |- context [merge_sort triple_le ?l] => pose proof (merge_sort_Permutation triple_le l) as P end.
  apply Permutation_map_inv in P as (xs & E & P). rewrite E.
  rewrite load_cheques_encoded.
  - f_equal. by apply foldl_insert_map.
  - apply Forall_forall. intros [cb c] Hin. rewrite <- P in Hin.
    apply elem_of_map_to_list in Hin. auto.
Qed.

Lemma load_accounts_encoded xs acc :
  Forall (fun '(k, a) => is_addr k /\ account_ok a) xs ->
  load_accounts (map (fun '(k, a) => to_disk_account k a) xs) acc =
  Ok (foldl (fun m kv => <[kv.1 := kv.2]> m) acc (prod_map id forget_reserved <$> xs)).
Proof.
  intros Hx. revert acc. induction Hx as [|[k a] xs [Hk Ha] _ IH]; intros acc; [done|].
  cbn [map load_accounts]. change (d_last (to_disk_account k a)) with (d_last (to_disk_account [] a)).
  rewrite load_account_cheques by done. simpl. rewrite parse_addr_hex by done. simpl.
  rewrite parse_u128_string by apply Ha. simpl. apply IH.
Qed.

Lemma load_binding_encoded xs acc :
  Forall (fun '(cb, k) => is_addr cb /\ is_addr k) xs ->
  load_binding (map (fun '(cb, a) => (hex_encode cb, hex_encode a)) xs) acc =
  Ok (foldl (fun m kv => <[kv.1 := kv.2]> m) acc xs).
Proof.
  intros Hx. revert acc. induction Hx as [|[cb k] xs [Hcb Hk] _ IH]; intros acc; [done|].
  simpl. rewrite !parse_addr_hex by done. simpl. apply IH.
Qed.

Lemma from_to_disk l : wf_ledger l -> from_disk (to_disk l) = Ok (durable l).
Proof.
  intros Hl. unfold from_disk, to_disk. simpl. destruct (wf_secret l Hl) as [Hn Hb].
  rewrite trim_0x_hex, hex_roundtrip by done. simpl. rewrite Hn. simpl.
  match goal with |- context [merge_sort disk_account_le ?l] =>
    pose proof (merge_sort_Permutation disk_account_le l) as P end.
  apply Permutation_map_inv in P as (xs & -> & P).
  match goal with |- context [merge_sort pair_le ?l] =>
    pose proof (merge_sort_Permutation pair_le l) as Q end.
  apply Permutation_map_inv in Q as (ys & -> & Q).
  rewrite load_accounts_encoded; [simpl; rewrite load_binding_encoded; simpl|].
  - unfold durable. do 2 f_equal; [|by apply foldl_insert_map].
    apply foldl_insert_map. rewrite <- P, map_to_list_fmap. apply fmap_Permutation.
    apply NoDup_Permutation.
    + apply NoDup_ListNoDup, List.NoDup_filter, NoDup_ListNoDup, NoDup_map_to_list.
    + apply NoDup_map_to_list.
    + intros [k a]. rewrite elem_of_map_to_list, map_lookup_filter_Some, list_elem_of_In, filter_In.
      rewrite <- list_elem_of_In, elem_of_map_to_list. done.
  - apply Forall_forall. intros [cb k] Hin. rewrite <- Q in Hin.
    apply elem_of_map_to_list in Hin. by apply (wf_binding l Hl).
  - apply Forall_forall. intros [k a] Hin. rewrite <- P in Hin.
    apply list_elem_of_In, filter_In in Hin as [Hin _].
    apply list_elem_of_In, elem_of_map_to_list in Hin. by apply (wf_accounts l Hl).
Qed.
End DiskRoundTrip.

(** ** The ledger over time

    The ledger together with what its callers remember: the reservations of the
    requests in flight, and how much each account has been billed and has asked
    to reserve so far. *)

Record System := mkSystem {
  led : Ledger;
  live : list (bytes * Z);
  billed_so_far : bytes -> Z;
  asked_so_far : bytes -> Z }.

Definition bump (f : bytes -> Z) (k : bytes) (n : Z) : bytes -> Z :=
  fun k' => if decide (k' = k) then f k + n else f k'.

Definition live_sum (k : bytes) (xs : list (bytes * Z)) : Z :=
  foldr (fun p acc => (if decide (p.1 = k) then p.2 else 0) + acc) 0 xs.

Section Steps.
Context `{Hex}.

Inductive step : System -> System -> Prop :=
| StepReserve l lv b q k amount cap : is_addr k -> 0 <= amount ->
    step (mkSystem l lv b q)
         (mkSystem (reserve l k amount cap).1 ((k, amount) :: lv) b (bump q k amount))
| StepRelease l lv1 lv2 b q k amount :
    step (mkSystem l (lv1 ++ (k, amount) :: lv2) b q) (mkSystem (release l k amount) (lv1 ++ lv2) b q)
| StepCommit l lv1 lv2 b q k res billed : 0 <= billed ->
    step (mkSystem l (lv1 ++ (k, res) :: lv2) b q)
         (mkSystem (commit l k res billed) (lv1 ++ lv2) (bump b k billed) q)
| StepCredit l lv b q k cb cum sig :
    is_addr k -> is_addr cb -> length sig = 65%nat -> all_bytes sig ->
    step (mkSystem l lv b q) (mkSystem (credit l k cb cum sig).1 lv b q)
| StepRestart l lv b q : step (mkSystem l lv b q) (mkSystem (durable l) [] b q).

Definition initial (rng : bytes) : System := mkSystem (ephemeral rng) [] (fun _ => 0) (fun _ => 0).

Record system_ok (s : System) : Prop := {
  sys_wf : wf_ledger (led s);
  sys_live : Forall (fun p => is_addr p.1 /\ 0 <= p.2) (live s);
  sys_billed : forall k, 0 <= billed_so_far s k;
  sys_live_le : forall k, 0 <= live_sum k (live s) <= asked_so_far s k;
  sys_conserve : forall k, billed_so_far s k <= U128_MAX ->
    owed (led s) k + paid (led s) k = billed_so_far s k;
  sys_reserved : forall k, asked_so_far s k <= U128_MAX ->
    reserved (led s) k = live_sum k (live s) }.

Lemma live_sum_mid k xs1 p xs2 :
  live_sum k (xs1 ++ p :: xs2) = (if decide (p.1 = k) then p.2 else 0) + live_sum k (xs1 ++ xs2).
Proof. induction xs1 as [|x xs1 IH]; simpl; [done|]. rewrite IH. lia. Qed.

Lemma paid_nonneg l k : wf_ledger l -> 0 <= paid l k.
Proof.
  intros Hl. rewrite paid_entry. apply msum_nonneg. intros cb c Hc.
  destruct (entry_ok l k Hl) as [_ _ Ho]. destruct (Ho cb c Hc) as [_ [? _]]. lia.
Qed.

Lemma initial_ok rng : length rng = 32%nat -> all_bytes rng -> system_ok (initial rng).
Proof.
  intros Hn Hb. split; simpl; try done.
Qed.

Lemma credit_entry l k cb cum sig k' : wf_ledger l ->
  let l' := (credit l k cb cum sig).1 in
  owed l' k' + paid l' k' = owed l k' + paid l k' /\ reserved l' k' = reserved l k'.
Proof.
  intros Hl. cbv zeta. rewrite !owed_entry, !paid_entry, !reserved_entry.
  destruct (credit_cases l k cb cum sig)
    as [(e & _ & He & _)|(delta & _ & Hm & Hd & Ed & HB & ->)].
  { by rewrite He. }
  set (a' := mkAccount _ _ _).
  assert (E : entry (mkLedger (<[k:=a']> (accounts l)) (<[cb:=k]> (binding l)) (secret l)
    (persistent l)) k' = entry (set_account l k a') k') by done.
  rewrite E, entry_set. destruct (decide (k' = k)) as [->|]; [|done].
  unfold a'; simpl. rewrite msum_insert, owed_entry, reserved_entry. simpl.
  unfold last_cumulative_of in Ed. rewrite held_entry in Ed. lia.
Qed.

Lemma commit_entry l k res billed k' : entry (commit l k res billed) k' =
  if decide (k' = k) then mkAccount (sat_add128 (owed l k) billed) (sat_sub (reserved l k) res)
    (last_cumulative (entry l k)) else entry l k'.
Proof. unfold commit. by rewrite entry_set, owed_entry, reserved_entry. Qed.

(** Releasing is committing nothing. *)
Lemma release_entry_nonneg l k amount k' : 0 <= owed l k <= U128_MAX -> 0 <= amount ->
  entry (release l k amount) k' = entry (commit l k amount 0) k'.
Proof.
  rewrite commit_entry, owed_entry, reserved_entry. unfold release. intros Ho Ha.
  destruct (accounts l !! k) as [a|] eqn:Ea.
  - rewrite entry_set. case_decide; [|done]. unfold entry in *. rewrite Ea in *. simpl in *.
    f_equal. sat.
  - case_decide; [subst|done]. unfold entry. rewrite Ea. simpl. unfold default_account.
    f_equal; sat.
Qed.

Lemma release_entry l k amount k' : wf_ledger l -> 0 <= amount ->
  entry (release l k amount) k' = entry (commit l k amount 0) k'.
Proof.
  intros Hl. apply release_entry_nonneg. rewrite owed_entry. apply (owed_range _ (entry_ok l k Hl)).
Qed.

(** The end of a request: its reservation leaves, what it is billed becomes debt. *)
Lemma settle_ok l l' lv1 lv2 b q k res billed :
  system_ok (mkSystem l (lv1 ++ (k, res) :: lv2) b q) -> 0 <= billed -> wf_ledger l' ->
  (forall k', entry l' k' = entry (commit l k res billed) k') ->
  system_ok (mkSystem l' (lv1 ++ lv2) (bump b k billed) q).
Proof.
  intros [Hwf Hlv Hb Hle Hco Hre] Hbi Hwf' HE; simpl in *.
  apply Forall_app in Hlv as [Hl1 Hl2]. apply Forall_cons in Hl2 as [[Hk Ha] Hl2]. simpl in *.
  assert (Hlv : Forall (fun p => is_addr p.1 /\ 0 <= p.2) (lv1 ++ lv2)) by (by apply Forall_app).
  assert (Hnn : forall k', 0 <= live_sum k' (lv1 ++ lv2)).
  { intros k'. clear -Hlv. induction Hlv as [|p xs [_ Hp] _ IH]; simpl; [lia|]. case_decide; lia. }
  destruct (entry_ok l k Hwf) as [Ho Hr _].
  split; simpl; auto.
  - intros k'. unfold bump. case_decide; [specialize (Hb k)|]; auto; lia.
  - intros k'. specialize (Hle k'). specialize (Hnn k'). rewrite live_sum_mid in Hle. simpl in Hle.
    case_decide; lia.
  - intros k' Hk'. unfold bump in *. rewrite owed_entry, paid_entry, HE, commit_entry.
    case_decide; subst; simpl.
    + rewrite <- paid_entry. specialize (Hco k). specialize (Hb k).
      pose proof (paid_nonneg l k Hwf). rewrite owed_entry in *. sat.
    + rewrite <- owed_entry, <- paid_entry. auto.
  - intros k' Hk'. specialize (Hre k' Hk'). rewrite live_sum_mid in Hre. specialize (Hnn k').
    rewrite reserved_entry, HE, commit_entry. simpl in Hre.
    destruct (decide (k' = k)) as [->|Hn]; simpl.
    + rewrite decide_True in Hre by done. sat.
    + rewrite decide_False in Hre by done. rewrite <- reserved_entry. lia.
Qed.

Lemma bump_0 f k k' : bump f k 0 k' = f k'.
Proof. unfold bump. case_decide; subst; lia. Qed.

Lemma system_ok_ext l lv b b' q : (forall k, b k = b' k) ->
  system_ok (mkSystem l lv b q) -> system_ok (mkSystem l lv b' q).
Proof. intros E [? ? Hb ? Hc ?]; split; simpl in *; auto; intros k; rewrite <- E; auto. Qed.

Lemma reserve_ok l lv b q k amount cap : is_addr k -> 0 <= amount ->
  system_ok (mkSystem l lv b q) ->
  system_ok (mkSystem (reserve l k amount cap).1 ((k, amount) :: lv) b (bump q k amount)).
Proof.
  intros Hk Ha [Hwf Hlv Hb Hle Hco Hre]; simpl in *. destruct (entry_ok l k Hwf) as [Ho Hr _].
  split; simpl; auto using reserve_wf.
  - by apply (reserve_wf l k amount cap).
  - intros k'. specialize (Hle k'). unfold bump. repeat case_decide; subst; try done; lia.
  - intros k' Hk'. rewrite <- Hco by done. rewrite !owed_entry, !paid_entry.
    unfold reserve; simpl. rewrite entry_set. by case_decide; subst.
  - intros k' Hk'. specialize (Hle k'). specialize (Hre k'). unfold bump in Hk'.
    rewrite reserved_entry in *. unfold reserve; simpl. rewrite entry_set.
    repeat case_decide; subst; try done; simpl; rewrite Hre by lia; sat.
Qed.

Lemma step_ok s s' : system_ok s -> step s s' -> system_ok s'.
Proof.
  intros Hok Hs. destruct Hs.
  - by apply reserve_ok.
  - destruct (proj1 (Forall_app _ _ _) (sys_live _ Hok)) as [_ [[Hk Ha] _]%Forall_cons].
    apply (system_ok_ext _ _ (bump b k 0)); [apply bump_0|].
    pose proof (sys_wf _ Hok) as Hwf. eapply settle_ok; eauto using release_wf, release_entry. done.
  - destruct (proj1 (Forall_app _ _ _) (sys_live _ Hok)) as [_ [[Hk Ha] _]%Forall_cons].
    pose proof (sys_wf _ Hok) as Hwf. eapply settle_ok; eauto using commit_wf.
  - destruct Hok as [Hwf Hlv Hb Hle Hco Hre]; simpl in *. split; simpl; auto using credit_wf.
    + intros k' Hk'. destruct (credit_entry l k cb cum sig k' Hwf) as [-> _]. auto.
    + intros k' Hk'. destruct (credit_entry l k cb cum sig k' Hwf) as [_ ->]. auto.
  - destruct Hok as [Hwf Hlv Hb Hle Hco Hre]; simpl in *. split; simpl; auto using durable_wf.
    + intros k. specialize (Hle k). lia.
    + intros k Hk. rewrite <- Hco by done. by rewrite !owed_entry, !paid_entry, durable_entry.
    + intros k _. by rewrite reserved_entry, durable_entry.
Qed.

Lemma reachable_ok rng s : length rng = 32%nat -> all_bytes rng ->
  rtc step (initial rng) s -> system_ok s.
Proof.
  intros Hn Hb Hr. pose proof (initial_ok rng Hn Hb) as Hi. revert Hi.
  induction Hr; eauto using step_ok.
Qed.
End Steps.

(** ** Properties *)



(** [credit] on every branch.  A cheque is accepted exactly when its
    cumulative is plausible, its chequebook is unbound or bound to the account,
    it exceeds the one held and its increment is at most what is owed; it then
    credits that increment.  Each refusal is reported with the first failing
    check and changes no balance, cheque or binding. *)
Theorem credit_decides `{Hex} l k cb cum sig :
  let have := last_cumulative_of l k cb in
  (credit l k cb cum sig).2 =
    (if MAX_CUMULATIVE_PLUR <? cum then Err (Absurd cum)
     else if negb (bool_decide (binding l !! cb = None \/ binding l !! cb = Some k))
     then Err (ChequebookBound (hex_encode cb))
     else if cum <=? have then Err (NotIncreasing cum have)
     else if owed l k <? cum - have then Err (Overpayment (cum - have) (owed l k))
     else Ok (cum - have)) /\
  (forall e, (credit l k cb cum sig).2 = Err e -> same_entries (credit l k cb cum sig).1 l) /\
  (forall delta, (credit l k cb cum sig).2 = Ok delta ->
     owed (credit l k cb cum sig).1 k = owed l k - delta /\
     held_cheque (credit l k cb cum sig).1 k cb = Some (mkHeld cum sig) /\
     binding (credit l k cb cum sig).1 !! cb = Some k /\
     forall k', k' <> k -> entry (credit l k cb cum sig).1 k' = entry l k').
Proof.
  cbv zeta. split_and!.
  - unfold credit, last_cumulative_of. rewrite held_entry, owed_entry. case_match; [done|].
    destruct (binding l !! cb) as [b|] eqn:B; [destruct (decide (b = k)) as [->|Hne]|].
    + rewrite bool_decide_eq_false_2 by tauto. rewrite bool_decide_eq_true_2 by auto. simpl.
      by repeat case_match.
    + rewrite bool_decide_eq_true_2 by done. rewrite bool_decide_eq_false_2; [done|]. intros [Hx|Hx]; congruence.
    + rewrite bool_decide_eq_true_2 by auto. simpl. by repeat case_match.
  - intros e He. destruct (credit_cases l k cb cum sig) as [(e' & _ & ?)|(d & Hd & _)]; [done|congruence].
  - intros delta He.
    destruct (credit_cases l k cb cum sig) as [(e' & Hd & ?)|(d & Hd & _ & _ & _ & _ & ->)]; [congruence|].
    assert (d = delta) as -> by congruence. unfold owed, held_cheque, entry. simpl.
    repeat (rewrite lookup_insert_eq; simpl). split_and!; [done|done|done|].
    intros k' Hk. by rewrite lookup_insert_ne.
Qed.

(** An account holding a cheque refuses it when it is presented again. *)
Lemma credit_again `{Hex} l k cb cum sig sig' : cum <= MAX_CUMULATIVE_PLUR ->
  binding l !! cb = Some k -> held_cheque l k cb = Some (mkHeld cum sig) ->
  credit l k cb cum sig' = (set_account l k (entry l k), Err (NotIncreasing cum cum)).
Proof.
  intros Hm H1 H2. rewrite held_entry in H2. unfold credit. rewrite (proj2 (Z.ltb_ge _ _)) by done.
  rewrite H1, bool_decide_eq_false_2 by tauto. rewrite H2. simpl. by rewrite Z.leb_refl.
Qed.

Lemma credit_holds `{Hex} l k cb cum sig delta : (credit l k cb cum sig).2 = Ok delta ->
  let l' := (credit l k cb cum sig).1 in
  cum <= MAX_CUMULATIVE_PLUR /\ binding l' !! cb = Some k /\ held_cheque l' k cb = Some (mkHeld cum sig).
Proof.
  intros He.
  destruct (credit_cases l k cb cum sig) as [(e' & Hd & ?)|(d & Hd & Hm & _ & _ & _ & ->)]; [congruence|].
  unfold held_cheque. simpl. repeat (rewrite lookup_insert_eq; simpl). done.
Qed.

Lemma held_durable l k cb : wf_ledger l -> held_cheque (durable l) k cb = held_cheque l k cb.
Proof. intros Hl. by rewrite !held_entry, durable_entry. Qed.

Lemma credit_recorded `{Hex} l k cb cum sig delta sig' : wf_ledger (credit l k cb cum sig).1 ->
  (credit l k cb cum sig).2 = Ok delta ->
  (credit (durable (credit l k cb cum sig).1) k cb cum sig').2 = Err (NotIncreasing cum cum).
Proof.
  intros Hwf He. destruct (credit_holds l k cb cum sig delta He) as (Hm & Hb & Hh).
  erewrite credit_again; [done|done|done|]. by rewrite held_durable.
Qed.

(** A cheque is worth something once.  After it is accepted, presenting it
    again credits nothing, before and after a restart, and no other account can
    present a cheque of the same chequebook. *)
Theorem credit_replay_worthless `{Hex} l k cb cum sig delta sig' :
  wf_ledger l -> is_addr k -> is_addr cb -> length sig = 65%nat -> all_bytes sig ->
  (credit l k cb cum sig).2 = Ok delta ->
  let l' := (credit l k cb cum sig).1 in
  (credit l' k cb cum sig').2 = Err (NotIncreasing cum cum) /\
  same_entries (credit l' k cb cum sig').1 l' /\
  (credit (durable l') k cb cum sig').2 = Err (NotIncreasing cum cum) /\
  (forall k' cum', k' <> k -> cum' <= MAX_CUMULATIVE_PLUR ->
     (credit l' k' cb cum' sig').2 = Err (ChequebookBound (hex_encode cb))).
Proof.
  intros Hl Hk Hcb Hsl Hsb He l'. destruct (credit_holds l k cb cum sig delta He) as (Hm & Hb & Hh).
  split_and!.
  - by erewrite credit_again.
  - erewrite credit_again by done. apply set_entry_same.
  - eapply credit_recorded; [by apply credit_wf|done].
  - intros k' cum' Hne Hc. unfold credit. rewrite (proj2 (Z.ltb_ge _ _)) by done.
    unfold l'. by rewrite Hb, bool_decide_eq_true_2.
Qed.

Lemma credit_replay_worthless_witness :
  let k := replicate 20 7 in let cb := replicate 20 9 in let sig := replicate 65 1 in
  let l := commit (ephemeral (replicate 32 5)) k 0 80 in
  (credit (credit l k cb 50 sig).1 k cb 50 sig).2 = Err (NotIncreasing 50 50).
Proof.
  cbv zeta.
  apply (credit_replay_worthless (commit (ephemeral (replicate 32 5)) (replicate 20 7) 0 80)
    (replicate 20 7) (replicate 20 9) 50 (replicate 65 1) 50).
  - apply commit_wf; [|split; [done|by repeat constructor]|done|done].
    split; simpl; [done|done|done|]. split; [done|by repeat constructor].
  - split; [done|by repeat constructor].
  - split; [done|by repeat constructor].
  - done.
  - by repeat constructor.
  - by vm_compute.
Defined.

Lemma rollback_exact `{Hex} l k cb cum sig delta :
  (credit l k cb cum sig).2 = Ok delta ->
  rollback_credit (credit l k cb cum sig).1 k cb (owed l k) (held_cheque l k cb) (had_binding l cb) = l.
Proof.
  intros He.
  destruct (credit_cases l k cb cum sig) as [(e' & Hd & ?)|(d & Hd & _ & Hpos & _ & HB & ->)]; [congruence|].
  destruct (accounts l !! k) as [a|] eqn:E; [|unfold owed in Hpos; rewrite E in Hpos; simpl in Hpos; lia].
  unfold rollback_credit, had_binding. rewrite held_entry. unfold owed, reserved, entry. simpl.
  rewrite lookup_insert_eq, E. simpl. rewrite insert_insert_eq.
  assert (Hc : match last_cumulative a !! cb with
    | Some h => <[cb := h]> (<[cb := mkHeld cum sig]> (last_cumulative a))
    | None => delete cb (<[cb := mkHeld cum sig]> (last_cumulative a)) end = last_cumulative a).
  { destruct (last_cumulative a !! cb) eqn:E2; [by rewrite insert_insert_eq, insert_id|by apply delete_insert_id]. }
  rewrite Hc.
  replace (if bool_decide (is_Some (binding l !! cb)) then <[cb:=k]> (binding l)
    else delete cb (<[cb:=k]> (binding l))) with (binding l).
  - destruct l; simpl in *. f_equal. apply insert_id. rewrite E. by destruct a.
  - destruct HB as [HB|HB]; rewrite HB; simpl.
    + by rewrite delete_insert_id.
    + by rewrite insert_id.
Qed.

(** Undoing an accepted cheque restores the ledger exactly, so a credit whose
    write to disk failed leaves memory as it was. *)
Theorem rollback_credit_exact `{Hex} l k cb cum sig delta :
  (credit l k cb cum sig).2 = Ok delta ->
  rollback_credit (credit l k cb cum sig).1 k cb (owed l k) (held_cheque l k cb) (had_binding l cb) = l.
Proof. apply rollback_exact. Qed.

Lemma rollback_credit_exact_witness :
  let k := replicate 20 7 in let cb := replicate 20 9 in let sig := replicate 65 1 in
  let l := commit (ephemeral (replicate 32 5)) k 0 80 in
  rollback_credit (credit l k cb 50 sig).1 k cb 80 None false = l.
Proof.
  apply (rollback_credit_exact (commit (ephemeral (replicate 32 5)) (replicate 20 7) 0 80)
    (replicate 20 7) (replicate 20 9) 50 (replicate 65 1) 50). by vm_compute.
Defined.

(** C33: the write of the ledger is atomic.  If the file holds the ledger [l0],
    then whatever fails while [l] is written, the next start loads the durable
    half of [l] when [persist] reported success and of [l0] when it reported an
    error, never a mixture and never a failure to load; reservations come back
    as zero and everything else as it was. *)
Theorem persist_atomic `{HexLaws} to_vec_pretty from_str l l0 d f rng :
  (forall x, from_str (to_vec_pretty x) = Ok x) ->
  wf_ledger l -> wf_ledger l0 -> persistent l = true ->
  main_file d = Some (to_vec_pretty (to_disk l0)) ->
  let '(d', r) := persist to_vec_pretty l d f in
  load_or_create to_vec_pretty from_str d' rng NoFault =
    (d', Ok (durable (if is_ok r then l else l0))) /\
  forall k, entry (durable l) k = forget_reserved (entry l k).
Proof.
  intros Hj Hl Hl0 Hp Hd.
  destruct (persist to_vec_pretty l d f) as [d' r] eqn:E. split; [|auto using durable_entry].
  unfold persist in E. rewrite Hp in E. simpl in E.
  destruct f; simplify_eq; unfold load_or_create; simpl; rewrite ?Hd, Hj, from_to_disk by done; done.
Qed.

(** A codec that stands in for [serde_json] when the theorem is applied: the
    bits of the value's code, one per byte. *)
#[export] Instance OnDiskAccount_eq_dec : EqDecision OnDiskAccount.
Proof. solve_decision. Defined.
#[export] Instance OnDiskAccount_countable : Countable OnDiskAccount.
Proof.
  apply (inj_countable' (fun x => (d_account x, d_owed x, d_last x))
    (fun '(a, b, c) => mkDiskAccount a b c)). by intros [].
Defined.
#[export] Instance OnDisk_eq_dec : EqDecision OnDisk.
Proof. solve_decision. Defined.
#[export] Instance OnDisk_countable : Countable OnDisk.
Proof.
  apply (inj_countable' (fun x => (d_version x, d_secret x, d_accounts x, d_binding x))
    (fun '(a, b, c, d) => mkDisk a b c d)). by intros [].
Defined.

Definition plain_json (x : OnDisk) : bytes := plain_code x.
Definition plain_parse (b : bytes) : result OnDisk str := plain_uncode b.

Lemma plain_parse_json x : plain_parse (plain_json x) = Ok x.
Proof. apply plain_uncode_code. Qed.

Lemma persist_atomic_witness :
  let k := replicate 20 7 in
  let l0 := mkLedger ∅ ∅ (replicate 32 5) true in
  let l := commit (reserve l0 k 100 1000).1 k 60 40 in
  let d0 := mkFiles (Some (plain_json (to_disk l0))) None in
  let '(d1, r) := persist plain_json l d0 NoFault in
  load_or_create plain_json plain_parse d1 [] NoFault = (d1, Ok (durable (if is_ok r then l else l0))) /\
  forall k', entry (durable l) k' = forget_reserved (entry l k').
Proof.
  cbv zeta.
  assert (H0 : wf_ledger (mkLedger ∅ ∅ (replicate 32 5) true)).
  { split; simpl; [done|done|done|]. split; [done|by repeat constructor]. }
  assert (Hk : is_addr (replicate 20 7)) by (split; [done|by repeat constructor]).
  apply (persist_atomic plain_json plain_parse); [exact plain_parse_json| |exact H0|done|done].
  apply commit_wf; [|exact Hk|done|done]. by apply reserve_wf.
Defined.
