(* ===== verification/Meter.v ===== *)
(** * Metering ([src/src/meter.rs])

    The shadow meter (per-request tallies merged into a bounded table of
    [(owner, batch)] rows) and the pricing parameters of metered mode.  An
    [Instant] is a [Z]; a call that reads the clock takes the reading. *)
From Stdlib Require Import ZArith Lia.
From stdpp Require Import base tactics numbers strings list gmap sorting.
From S2P Require Import Prelude Codec Fifo.
Local Open Scope Z_scope.

Definition PRICE_PLUR_PER_KIB : Z := 480000000.
Definition SETTLE_EVERY_PLUR : Z := 15600000000000.
Definition MAX_OUTSTANDING_PLUR : Z := 62200000000000.
Definition CASHOUT_THRESHOLD_PLUR : Z := 2500000000000000.
Definition CREDIT_RATIO : Z := 1000.
Definition METER_ROW_CAP : nat := 4096.
Definition MIN_CHEQUE_PLUR : Z := 3900000000000.

(** [struct AccountBatch]. *)
Record AccountBatch := mkKey { owner : bytes; batch : bytes }.

#[export] Instance AccountBatch_eq_dec : EqDecision AccountBatch.
Proof. solve_decision. Defined.
#[export] Instance AccountBatch_countable : Countable AccountBatch.
Proof.
  apply (inj_countable' (fun k => (owner k, batch k)) (fun '(o, b) => mkKey o b)). by intros [].
Defined.

(** [struct Row]. *)
Record Row := mkRow {
  kib_admitted : Z;
  kib_dedup : Z;
  frames : Z;
  dedup_frames : Z;
  remaining_value_plur : Z;
  first_seen : Z;
  last_seen : Z }.

Definition billable_kib (r : Row) : Z := sat_sub (kib_admitted r) (kib_dedup r).
Definition credit_plur (r : Row) : Z := Z.min (remaining_value_plur r / CREDIT_RATIO) MAX_OUTSTANDING_PLUR.
Definition credit_kib (r : Row) : Z := Z.min (credit_plur r / PRICE_PLUR_PER_KIB) U64_MAX.

(** [struct OwnerTotals] and [OwnerTotals::owed_plur]. *)
Record OwnerTotals := mkTotals { o_kib : Z; o_kib_dedup : Z; o_frames : Z; o_batches : Z }.
Definition zero_totals : OwnerTotals := mkTotals 0 0 0 0.
Definition owed_totals (t : OwnerTotals) : Z :=
  wrap 128 (sat_sub (o_kib t) (o_kib_dedup t) * PRICE_PLUR_PER_KIB).

(** ** The tally of one request *)

(** [struct TallyRow]; [struct PostTally] is the list of its rows. *)
Record TallyRow := mkTally {
  t_key : AccountBatch;
  t_remaining : Z;
  t_bytes_admitted : Z;
  t_bytes_dedup : Z;
  t_frames : Z;
  t_dedup_frames : Z }.

Abbreviation PostTally := (list TallyRow).

(** [PostTally::slot] followed by the caller's update of the row it returns. *)
Fixpoint slot (rows : PostTally) (key : AccountBatch) (value : Z) (f : TallyRow -> TallyRow) : PostTally :=
  match rows with
  | [] => [f (mkTally key value 0 0 0 0)]
  | r :: rows' =>
      if bool_decide (t_key r = key)
      then f (if t_remaining r =? 0
              then mkTally (t_key r) value (t_bytes_admitted r) (t_bytes_dedup r) (t_frames r) (t_dedup_frames r)
              else r) :: rows'
      else r :: slot rows' key value f
  end.

(** [PostTally::admit] and [PostTally::dedup]. *)
Definition admit_row (nbytes : Z) (r : TallyRow) : TallyRow :=
  mkTally (t_key r) (t_remaining r) (wrap 64 (t_bytes_admitted r + nbytes)) (t_bytes_dedup r)
    (wrap 64 (t_frames r + 1)) (t_dedup_frames r).
Definition tally_admit (t : PostTally) (key : AccountBatch) (value nbytes : Z) : PostTally :=
  slot t key value (admit_row nbytes).

Definition dedup_row (nbytes : Z) (r : TallyRow) : TallyRow :=
  mkTally (t_key r) (t_remaining r) (t_bytes_admitted r) (wrap 64 (t_bytes_dedup r + nbytes))
    (t_frames r) (wrap 64 (t_dedup_frames r + 1)).
Definition tally_dedup (t : PostTally) (key : AccountBatch) (value nbytes : Z) : PostTally :=
  slot t key value (dedup_row nbytes).

(** ** The meter *)

(** The counters that survive eviction. *)
Record Evicted := mkEvicted {
  evicted_rows : Z; evicted_kib : Z; evicted_kib_dedup : Z; evicted_frames : Z }.

(** [struct Meter]. *)
Record Meter := mkMeter {
  rows : gmap AccountBatch Row;
  order : list AccountBatch;
  cap : nat;
  started : Z;
  evicted : Evicted }.

Definition meter_new (c : nat) (now : Z) : Meter :=
  mkMeter ∅ [] (Nat.max c 1) now (mkEvicted 0 0 0 0).

Definition record_evicted (r : Row) (e : Evicted) : Evicted :=
  mkEvicted (wrap 64 (evicted_rows e + 1)) (wrap 64 (evicted_kib e + kib_admitted r))
    (wrap 64 (evicted_kib_dedup e + kib_dedup r)) (wrap 64 (evicted_frames e + frames r)).

(** The body of [merge]'s loop. *)
Definition merged_row (now : Z) (t : TallyRow) (old : option Row) : Row :=
  let kib := div_ceil (t_bytes_admitted t) 1024 in
  let dd := Z.min (div_ceil (t_bytes_dedup t) 1024) kib in
  match old with
  | Some row =>
      mkRow (wrap 64 (kib_admitted row + kib)) (wrap 64 (kib_dedup row + dd))
        (wrap 64 (frames row + t_frames t)) (wrap 64 (dedup_frames row + t_dedup_frames t))
        (if 0 <? t_remaining t then t_remaining t else remaining_value_plur row)
        (first_seen row) now
  | None => mkRow kib dd (t_frames t) (t_dedup_frames t) (t_remaining t) now now
  end.

Definition merge_row (now : Z) (mo : gmap AccountBatch Row * list AccountBatch) (t : TallyRow)
    : gmap AccountBatch Row * list AccountBatch :=
  fifo_put mo.1 mo.2 (t_key t) (merged_row now t (mo.1 !! t_key t)).

(** [Meter::merge]. *)
Definition merge (m : Meter) (now : Z) (tally : PostTally) : Meter :=
  let '(rs, ord) := foldl (merge_row now) (rows m, order m) tally in
  let '(rs, ord, e) := evict record_evicted (cap m) rs ord (evicted m) in
  mkMeter rs ord (cap m) (started m) e.

(** [Meter::by_owner]. *)
Definition add_row (r : Row) (t : OwnerTotals) : OwnerTotals :=
  mkTotals (wrap 64 (o_kib t + kib_admitted r)) (wrap 64 (o_kib_dedup t + kib_dedup r))
    (wrap 64 (o_frames t + frames r)) (wrap 64 (o_batches t + 1)).

Definition by_owner (m : Meter) : gmap bytes OwnerTotals :=
  map_fold (fun k r out => <[owner k := add_row r (default zero_totals (out !! owner k))]> out)
    ∅ (rows m).

(** [fn pct]. *)
Definition pct (sorted : list Z) (p : Z) : Z :=
  match sorted with
  | [] => 0
  | _ => let n := Z.of_nat (length sorted) in
         sorted !!! Z.to_nat (Z.min (n * p / 100) (n - 1))
  end.

(** [Meter::credit_summary]; [None] is the report without priced batches. *)
Record CreditSummary := mkCredit {
  batches_priced : Z; batches_below_one_full_post : Z; batches_capped_below_ceiling : Z;
  credit_kib_p10 : Z; credit_kib_p50 : Z; credit_kib_p90 : Z }.

Definition credit_summary (m : Meter) (full_post_kib : Z) : option CreditSummary :=
  let priced := List.filter (fun r => 0 <? remaining_value_plur r) (map_to_list (rows m)).*2 in
  match priced with
  | [] => None
  | _ =>
      let lines := merge_sort Z.le (map credit_kib priced) in
      Some (mkCredit (Z.of_nat (length lines))
        (Z.of_nat (length (List.filter (fun c => c <? full_post_kib) lines)))
        (Z.of_nat (length (List.filter
           (fun r => remaining_value_plur r / CREDIT_RATIO <? MAX_OUTSTANDING_PLUR) priced)))
        (pct lines 10) (pct lines 50) (pct lines 90))
  end.

(** The integer figures of [Meter::summary]. *)
Record Summary := mkSummary {
  s_accounts : Z; s_batches : Z; s_evicted_batches : Z;
  s_kib : Z; s_dedup : Z; s_frames : Z; s_owed_plur : Z;
  s_reaching_settlement : Z; s_reaching_cashout : Z;
  s_credit : option CreditSummary }.

Definition count_owners (p : OwnerTotals -> bool) (m : Meter) : Z :=
  Z.of_nat (length (List.filter p (map_to_list (by_owner m)).*2)).

Definition summary (m : Meter) (full_post_kib : Z) : Summary :=
  let live_kib := wrap 64 (msum kib_admitted (rows m)) in
  let live_dedup := wrap 64 (msum kib_dedup (rows m)) in
  let live_frames := wrap 64 (msum frames (rows m)) in
  let kib := wrap 64 (live_kib + evicted_kib (evicted m)) in
  let dd := wrap 64 (Z.min live_kib live_dedup + evicted_kib_dedup (evicted m)) in
  let fr := wrap 64 (live_frames + evicted_frames (evicted m)) in
  let billable := sat_sub kib dd in
  mkSummary (Z.of_nat (size (by_owner m))) (Z.of_nat (size (rows m))) (evicted_rows (evicted m))
    kib dd fr (wrap 128 (billable * PRICE_PLUR_PER_KIB))
    (count_owners (fun t => SETTLE_EVERY_PLUR <=? owed_totals t) m)
    (count_owners (fun t => CASHOUT_THRESHOLD_PLUR <=? owed_totals t) m)
    (credit_summary m full_post_kib).

(** ** Metered-mode parameters *)

(** [struct Params] and [Params::default]. *)
Record Params := mkParams {
  price_plur_per_kib : Z;
  min_cheque_plur : Z;
  settle_every_plur : Z;
  max_outstanding_plur : Z;
  credit_ratio : Z }.

Definition default_params : Params :=
  mkParams PRICE_PLUR_PER_KIB MIN_CHEQUE_PLUR SETTLE_EVERY_PLUR MAX_OUTSTANDING_PLUR CREDIT_RATIO.

(** The four refusals of [Params::validate]. *)
Inductive ParamError := ZeroPrice | ZeroRatio | FloorAboveSettle | SettleAboveCeiling.

Definition validate (p : Params) : result unit ParamError :=
  if price_plur_per_kib p =? 0 then Err ZeroPrice
  else if credit_ratio p =? 0 then Err ZeroRatio
  else if settle_every_plur p <? min_cheque_plur p then Err FloorAboveSettle
  else if max_outstanding_plur p <=? settle_every_plur p then Err SettleAboveCeiling
  else Ok tt.

(** [Params::credit_line] (a zero ratio panics; [validate] refuses it). *)
Definition credit_line (p : Params) (remaining : Z) : Z :=
  Z.min (remaining / credit_ratio p) (max_outstanding_plur p).

(** [Params::price_bytes]. *)
Definition price_bytes (p : Params) (nbytes : Z) : Z :=
  wrap 128 (div_ceil nbytes 1024 * price_plur_per_kib p).

(** [struct EffectiveParams] and [Params::effective]. *)
Record EffectiveParams := mkEffective { e_min_cheque_plur : Z; e_settle_every_plur : Z }.

Definition effective (p : Params) (c : Z) : EffectiveParams :=
  let settle_every := Z.max (Z.min (settle_every_plur p) (c / 2)) 1 in
  mkEffective (Z.max (Z.min (min_cheque_plur p) settle_every) 1) settle_every.

(** ** The meter's table *)

Definition meter_ok (m : Meter) : Prop :=
  fifo_ok (rows m) (order m) /\ (1 <= cap m)%nat /\ (length (order m) <= cap m)%nat.

Lemma foldl_merge_row_ok now tally mo : fifo_ok mo.1 mo.2 ->
  fifo_ok (foldl (merge_row now) mo tally).1 (foldl (merge_row now) mo tally).2.
Proof.
  revert mo. induction tally as [|t tally IH]; intros mo Hok; simpl; [done|].
  apply IH. by apply fifo_put_ok.
Qed.

Lemma merge_ok m now tally : meter_ok m -> meter_ok (merge m now tally).
Proof.
  intros (Hok & Hc & _). unfold merge.
  pose proof (foldl_merge_row_ok now tally (rows m, order m) Hok) as H1.
  destruct (foldl (merge_row now) (rows m, order m) tally) as [rs ord]. simpl in H1.
  pose proof (evict_spec record_evicted (cap m) rs ord (evicted m) H1) as H2.
  pose proof (evict_length record_evicted (cap m) rs ord (evicted m) H1) as H3.
  destruct (evict record_evicted (cap m) rs ord (evicted m)) as [[rs' ord'] e]. simpl in *.
  destruct H2 as (? & _ & _). by split_and!.
Qed.

Lemma wrap_add_mod w a b : wrap w (a + b) mod 2 ^ w = (a + b) mod 2 ^ w.
Proof. unfold wrap. apply Zmod_mod. Qed.

(** Merging a row adds its amount to the table, modulo the width. *)
Lemma merge_row_sum now t mo (f : Row -> Z) (c : TallyRow -> Z) :
  (forall old, f (merged_row now t old) mod 2 ^ 64 = (from_option f 0 old + c t) mod 2 ^ 64) ->
  msum f (merge_row now mo t).1 mod 2 ^ 64 = (msum f mo.1 + c t) mod 2 ^ 64.
Proof.
  intros Hf. unfold merge_row, fifo_put; cbn [fst]. rewrite msum_insert.
  rewrite Zplus_mod, Hf, <- Zplus_mod. f_equal. lia.
Qed.

Lemma merge_sum m now tally (f : Row -> Z) (c : TallyRow -> Z) (g : Evicted -> Z) :
  (forall t old, f (merged_row now t old) mod 2 ^ 64 = (from_option f 0 old + c t) mod 2 ^ 64) ->
  (forall r e, g (record_evicted r e) mod 2 ^ 64 = (g e + f r) mod 2 ^ 64) ->
  (msum f (rows (merge m now tally)) + g (evicted (merge m now tally))) mod 2 ^ 64 =
  (msum f (rows m) + g (evicted m) + foldr (fun t acc => c t + acc) 0 tally) mod 2 ^ 64.
Proof.
  intros Hf Hg. unfold merge.
  assert (G : forall ts mo, msum f (foldl (merge_row now) mo ts).1 mod 2 ^ 64 =
    (msum f mo.1 + foldr (fun t acc => c t + acc) 0 ts) mod 2 ^ 64).
  { induction ts as [|t ts IH]; intros mo; cbn [foldl foldr]; [f_equal; lia|].
    rewrite IH, Zplus_mod, (merge_row_sum now t mo f c (Hf t)), <- Zplus_mod. f_equal. lia. }
  specialize (G tally (rows m, order m)). cbn [fst] in G.
  destruct (foldl (merge_row now) (rows m, order m) tally) as [rs ord]. cbn [fst] in G.
  pose proof (evict_sum record_evicted (cap m) rs ord (evicted m) f g (2 ^ 64) Hg) as H2.
  destruct (evict record_evicted (cap m) rs ord (evicted m)) as [[rs' ord'] e]. simpl rows. simpl evicted.
  rewrite H2, Zplus_mod, G, <- Zplus_mod. f_equal. lia.
Qed.

(** A meter after a sequence of requests. *)
Definition metered_posts (m : Meter) (posts : list (Z * PostTally)) : Meter :=
  foldl (fun m p => merge m p.1 p.2) m posts.

Definition posts_total (c : TallyRow -> Z) (posts : list (Z * PostTally)) : Z :=
  foldr (fun p acc => foldr (fun t acc => c t + acc) 0 p.2 + acc) 0 posts.

Lemma metered_posts_sum posts m (f : Row -> Z) (c : TallyRow -> Z) (g : Evicted -> Z) :
  (forall now t old, f (merged_row now t old) mod 2 ^ 64 = (from_option f 0 old + c t) mod 2 ^ 64) ->
  (forall r e, g (record_evicted r e) mod 2 ^ 64 = (g e + f r) mod 2 ^ 64) ->
  (msum f (rows (metered_posts m posts)) + g (evicted (metered_posts m posts))) mod 2 ^ 64 =
  (msum f (rows m) + g (evicted m) + posts_total c posts) mod 2 ^ 64.
Proof.
  intros Hf Hg. revert m. induction posts as [|[now t] posts IH]; intros m; cbn [metered_posts foldl posts_total foldr].
  - f_equal. lia.
  - change (foldl _ ?a posts) with (metered_posts a posts). rewrite IH, Zplus_mod.
    cbn [fst snd]. rewrite (merge_sum m now t f c g (Hf now) Hg), <- Zplus_mod.
    fold (posts_total c posts). f_equal. lia.
Qed.

Lemma metered_posts_ok posts m : meter_ok m -> meter_ok (metered_posts m posts).
Proof.
  revert m. induction posts as [|p posts IH]; intros m Hm; [done|]. by apply IH, merge_ok.
Qed.

Lemma metered_posts_cap posts m : cap (metered_posts m posts) = cap m.
Proof.
  revert m. induction posts as [|p posts IH]; intros m; [done|].
  change (cap (metered_posts (merge m p.1 p.2) posts) = cap m). rewrite IH. unfold merge.
  destruct (foldl _ _ _) as [rs ord]. by destruct (evict _ _ _ _ _) as [[??]?].
Qed.

(** ** The tally of a request *)

Definition tally_get (f : TallyRow -> Z) (t : PostTally) (key : AccountBatch) : Z :=
  from_option f 0 (List.find (fun r => bool_decide (t_key r = key)) t).

(** A frame the relay admits, or one its recent-ack cache answers. *)
Inductive TallyOp := Admit (key : AccountBatch) (value nbytes : Z) | Dedup (key : AccountBatch) (value nbytes : Z).

Definition tally_step (t : PostTally) (o : TallyOp) : PostTally :=
  match o with
  | Admit key value n => tally_admit t key value n
  | Dedup key value n => tally_dedup t key value n
  end.

Definition op_key (o : TallyOp) : AccountBatch := match o with Admit k _ _ | Dedup k _ _ => k end.
Definition op_admitted (o : TallyOp) : Z := match o with Admit _ _ n => n | Dedup _ _ _ => 0 end.
Definition op_dedup (o : TallyOp) : Z := match o with Admit _ _ _ => 0 | Dedup _ _ n => n end.
Definition op_frames (o : TallyOp) : Z := match o with Admit _ _ _ => 1 | Dedup _ _ _ => 0 end.

Definition ops_sum (c : TallyOp -> Z) (key : AccountBatch) (ops : list TallyOp) : Z :=
  foldr (fun o acc => (if bool_decide (op_key o = key) then c o else 0) + acc) 0 ops.

Lemma slot_keys t key value f : (forall r, t_key (f r) = t_key r) ->
  map t_key (slot t key value f) =
    if bool_decide (key ∈ map t_key t) then map t_key t else map t_key t ++ [key].
Proof.
  intros Hf. induction t as [|r t IH]; cbn [slot map].
  - rewrite bool_decide_eq_false_2 by apply not_elem_of_nil. simpl. by rewrite Hf.
  - destruct (decide (t_key r = key)) as [E|E].
    + rewrite (bool_decide_eq_true_2 _ E). rewrite bool_decide_eq_true_2 by (rewrite E; left).
      cbn [map]. f_equal. rewrite Hf. by destruct (t_remaining r =? 0).
    + rewrite (bool_decide_eq_false_2 _ E). cbn [map]. rewrite IH.
      erewrite (bool_decide_ext (key ∈ t_key r :: map t_key t) (key ∈ map t_key t))
        by (rewrite elem_of_cons; naive_solver).
      by case_bool_decide.
Qed.

Lemma slot_get t key value f (g : TallyRow -> Z) key' d :
  (forall r, t_key (f r) = t_key r) -> g (mkTally key value 0 0 0 0) = 0 ->
  (forall r v, g (mkTally (t_key r) v (t_bytes_admitted r) (t_bytes_dedup r) (t_frames r) (t_dedup_frames r)) = g r) ->
  (forall r, g (f r) = wrap 64 (g r + d) \/ (d = 0 /\ g (f r) = g r)) ->
  tally_get g (slot t key value f) key' mod 2 ^ 64 =
    (tally_get g t key' + (if bool_decide (key = key') then d else 0)) mod 2 ^ 64.
Proof.
  intros Hk H0 Hv Hf.
  assert (Hstep : forall r, g (f r) mod 2 ^ 64 = (g r + d) mod 2 ^ 64).
  { intros r. destruct (Hf r) as [->|[-> ->]]; [apply wrap_add_mod|f_equal; lia]. }
  induction t as [|r t IH]; unfold tally_get in *; cbn [slot List.find].
  - rewrite Hk. simpl t_key. case_bool_decide as E; simpl from_option; [|done].
    by rewrite Hstep, H0.
  - destruct (bool_decide (t_key r = key)) eqn:Er; cbn [List.find].
    + apply bool_decide_eq_true in Er. set (r' := if t_remaining r =? 0 then _ else r).
      assert (t_key r' = key /\ g r' = g r) as [Ek Eg].
      { unfold r'. destruct (t_remaining r =? 0); [|done]. split; [done|apply Hv]. }
      rewrite Hk, Ek, Er. case_bool_decide; simpl from_option; [by rewrite Hstep, Eg|].
      f_equal; lia.
    + destruct (bool_decide (t_key r = key')) eqn:Er'; [|done]. simpl.
      apply bool_decide_eq_true in Er'. apply bool_decide_eq_false in Er.
      rewrite bool_decide_eq_false_2 by congruence. f_equal; lia.
Qed.

Lemma tally_get_steps ops t key (g : TallyRow -> Z) (c : TallyOp -> Z) :
  (forall t o, tally_get g (tally_step t o) key mod 2 ^ 64 =
     (tally_get g t key + (if bool_decide (op_key o = key) then c o else 0)) mod 2 ^ 64) ->
  tally_get g (foldl tally_step t ops) key mod 2 ^ 64 = (tally_get g t key + ops_sum c key ops) mod 2 ^ 64.
Proof.
  intros Hc. revert t. induction ops as [|o ops IH]; intros t; cbn [foldl ops_sum foldr].
  - f_equal; lia.
  - rewrite IH, Zplus_mod, Hc, <- Zplus_mod. fold (ops_sum c key ops). f_equal. lia.
Qed.

Lemma tally_nodup ops t : NoDup (map t_key t) -> NoDup (map t_key (foldl tally_step t ops)).
Proof.
  revert t. induction ops as [|o ops IH]; intros t Ht; [done|]. cbn [foldl]. apply IH.
  assert (G : forall key value f, (forall r, t_key (f r) = t_key r) ->
    NoDup (map t_key (slot t key value f))).
  { intros key value f Hf. rewrite slot_keys by done. case_bool_decide; [done|].
    apply NoDup_app. split_and!; [done| |apply NoDup_singleton].
    by intros x Hx ->%list_elem_of_singleton. }
  destruct o; by apply G.
Qed.

(** ** Account rollups *)

Definition owner_rows (o : bytes) (rs : gmap AccountBatch Row) : gmap AccountBatch Row :=
  filter (fun kr => owner kr.1 = o) rs.

Definition totals_of (rs : gmap AccountBatch Row) : OwnerTotals :=
  mkTotals (wrap 64 (msum kib_admitted rs)) (wrap 64 (msum kib_dedup rs))
    (wrap 64 (msum frames rs)) (wrap 64 (Z.of_nat (size rs))).

(** The entry of an account with these rows. *)
Definition rollup (rs : gmap AccountBatch Row) : option OwnerTotals :=
  if bool_decide (rs = ∅) then None else Some (totals_of rs).

Lemma wrap_add_l w a b : wrap w (wrap w a + b) = wrap w (a + b).
Proof. unfold wrap. apply Zplus_mod_idemp_l. Qed.

Lemma wrap_add_r w a b : wrap w (a + wrap w b) = wrap w (a + b).
Proof. unfold wrap. apply Zplus_mod_idemp_r. Qed.

Lemma totals_of_empty : totals_of ∅ = zero_totals.
Proof. unfold totals_of. by rewrite !msum_empty, map_size_empty. Qed.

Lemma totals_of_insert rs k r : rs !! k = None ->
  totals_of (<[k := r]> rs) = add_row r (totals_of rs).
Proof.
  intros Hk. unfold totals_of, add_row. simpl.
  rewrite !msum_insert_new, map_size_insert_None, !wrap_add_l by done.
  f_equal; f_equal; lia.
Qed.

(** ** Properties *)

(** The headline totals are exact whatever was evicted.  After any sequence of
    requests the reported KiB and frames are the sums over every row of every
    request, modulo 2^64; the table holds at most the configured number of rows
    and its eviction queue lists exactly its keys, each once. *)
Theorem meter_totals_survive c now posts full :
  let m := metered_posts (meter_new c now) posts in
  s_kib (summary m full) = wrap 64 (posts_total (fun t => div_ceil (t_bytes_admitted t) 1024) posts) /\
  s_frames (summary m full) = wrap 64 (posts_total t_frames posts) /\
  (size (rows m) <= Nat.max c 1)%nat /\ fifo_ok (rows m) (order m).
Proof.
  cbv zeta. set (m := metered_posts (meter_new c now) posts).
  assert (Hm : meter_ok m).
  { apply metered_posts_ok. split_and!; simpl; [apply fifo_ok_empty|lia|lia]. }
  destruct Hm as (Hok & _ & Hlen).
  assert (Hcap : cap m = Nat.max c 1) by apply metered_posts_cap.
  split_and!; simpl.
  - rewrite wrap_add_l. unfold wrap, m.
    rewrite (metered_posts_sum posts _ kib_admitted (fun t => div_ceil (t_bytes_admitted t) 1024) evicted_kib).
    + done.
    + intros now' t [old|]; simpl; [apply wrap_add_mod|done].
    + intros r e. simpl. apply wrap_add_mod.
  - rewrite wrap_add_l. unfold wrap, m.
    rewrite (metered_posts_sum posts _ frames t_frames evicted_frames).
    + done.
    + intros now' t [old|]; simpl; [apply wrap_add_mod|done].
    + intros r e. simpl. apply wrap_add_mod.
  - rewrite (fifo_ok_size _ _ Hok). lia.
  - done.
Qed.

(** A request's tally has one row per account and batch, and each row holds
    exactly the bytes and frames its operations carried (modulo 2^64). *)
Theorem tally_exact ops key :
  let t := foldl tally_step [] ops in
  NoDup (map t_key t) /\
  tally_get t_bytes_admitted t key mod 2 ^ 64 = ops_sum op_admitted key ops mod 2 ^ 64 /\
  tally_get t_bytes_dedup t key mod 2 ^ 64 = ops_sum op_dedup key ops mod 2 ^ 64 /\
  tally_get t_frames t key mod 2 ^ 64 = ops_sum op_frames key ops mod 2 ^ 64.
Proof.
  cbv zeta. split; [apply tally_nodup; constructor|].
  split_and!; [rewrite (tally_get_steps ops [] key t_bytes_admitted op_admitted)
    | rewrite (tally_get_steps ops [] key t_bytes_dedup op_dedup)
    | rewrite (tally_get_steps ops [] key t_frames op_frames)]; try done;
    intros t [k v n|k v n]; apply slot_get; simpl; auto.
Qed.

(** An account's rollup is the sum of its rows: [by_owner] has an entry for
    exactly the owners with a row, and the entry's figures are the totals over
    all of that owner's batches. *)
Theorem by_owner_totals m o :
  by_owner m !! o = rollup (owner_rows o (rows m)).
Proof.
  unfold by_owner. generalize (rows m). clear m.
  apply (map_fold_weak_ind (fun (out : gmap bytes OwnerTotals) (rs : gmap AccountBatch Row) =>
    out !! o = rollup (owner_rows o rs))); [done|].
  intros k r rs out Hk IH. unfold owner_rows in *. destruct (decide (owner k = o)) as [<-|Hne].
  - rewrite lookup_insert_eq, map_filter_insert_True by done.
    unfold rollup. rewrite bool_decide_eq_false_2 by apply insert_non_empty.
    rewrite totals_of_insert by (apply map_lookup_filter_None; by left). do 2 f_equal.
    rewrite IH. unfold rollup. case_bool_decide as E; simpl; [by rewrite E, totals_of_empty|done].
  - rewrite lookup_insert_ne by done. rewrite map_filter_insert_False by done.
    by rewrite delete_id.
Qed.

Lemma price_bytes_eq p n : 0 <= n <= U64_MAX -> 0 <= price_plur_per_kib p <= U64_MAX ->
  price_bytes p n = div_ceil n 1024 * price_plur_per_kib p.
Proof.
  intros Hn Hp. apply Z.mod_small. pose proof (div_ceil_nonneg n 1024 ltac:(lia) ltac:(lia)).
  pose proof (div_ceil_spec n 1024 ltac:(lia)). split; [nia|].
  change (2 ^ 128) with (2 ^ 64 * 2 ^ 64). nia.
Qed.

(** Pricing.  A body costs its length rounded up to KiB once: the price is
    exact, within one KiB of proportional, monotone in the length, and a body
    sent whole never costs more than sent in two parts. *)
Theorem price_bytes_exact p a b :
  0 <= a -> 0 <= b -> a + b <= U64_MAX -> 0 <= price_plur_per_kib p <= U64_MAX ->
  price_bytes p a = div_ceil a 1024 * price_plur_per_kib p /\
  a * price_plur_per_kib p <= 1024 * price_bytes p a /\
  1024 * price_bytes p a <= (a + 1023) * price_plur_per_kib p /\
  price_bytes p a <= price_bytes p (a + b) <= price_bytes p a + price_bytes p b.
Proof.
  intros Ha Hb Hab Hp.
  rewrite !price_bytes_eq by lia.
  pose proof (div_ceil_spec a 1024 ltac:(lia)). pose proof (div_ceil_spec b 1024 ltac:(lia)).
  pose proof (div_ceil_spec (a + b) 1024 ltac:(lia)).
  pose proof (div_ceil_mono a (a + b) 1024 ltac:(lia) ltac:(lia)).
  assert (M : forall x y, x <= y -> x * price_plur_per_kib p <= y * price_plur_per_kib p)
    by (intros; apply Z.mul_le_mono_nonneg_r; lia).
  split_and!; rewrite ?Z.mul_assoc, <- ?Z.mul_add_distr_r; [done|apply M; lia..].
Qed.

Lemma price_bytes_exact_witness :
  price_bytes default_params 4251 = 5 * PRICE_PLUR_PER_KIB /\
  price_bytes default_params (4251 + 4251) <= price_bytes default_params 4251 + price_bytes default_params 4251.
Proof.
  split; [by vm_compute|].
  apply (price_bytes_exact default_params 4251 4251); vm_compute; by intuition.
Defined.

(** The thresholds applied to a credit line always leave a way out: whatever the
    line, the dust floor is at least 1 and at most the settlement point, which
    is at most half of a line of two or more; a line with room for them gets the
    configured values. *)
Theorem effective_thresholds p c :
  validate p = Ok tt -> 1 <= min_cheque_plur p -> 0 <= c ->
  let e := effective p c in
  1 <= e_min_cheque_plur e <= e_settle_every_plur e /\
  (2 <= c -> 2 * e_settle_every_plur e <= c) /\
  e_settle_every_plur e <= settle_every_plur p < max_outstanding_plur p /\
  (2 * settle_every_plur p <= c -> e = mkEffective (min_cheque_plur p) (settle_every_plur p)).
Proof.
  intros Hv Hm Hc.
  assert (min_cheque_plur p <= settle_every_plur p < max_outstanding_plur p).
  { unfold validate in Hv. by repeat zcase; try discriminate Hv. }
  unfold effective; cbv zeta; simpl.
  pose proof (Z.div_mod c 2 ltac:(lia)). pose proof (Z.mod_pos_bound c 2 ltac:(lia)).
  split_and!; try lia. intros. f_equal; lia.
Qed.

Lemma effective_thresholds_witness :
  let e := effective default_params 679783122862 in
  validate default_params = Ok tt /\ 1 <= e_min_cheque_plur e <= e_settle_every_plur e.
Proof.
  cbv zeta. split; [by vm_compute|].
  apply (effective_thresholds default_params 679783122862); vm_compute; by intuition.
Defined.
