(* ===== verification/PushFrame.v ===== *)
(** * The push-frame codec ([src/src/pushframe.rs])

    A push body is a concatenation of frames
    [addr(32) | stamp(113) | wire_len(u16 LE) | wire].  [decode_batch] is a loop
    on the remaining input; it runs here on fuel, and the length of the input is
    enough because every round consumes at least one header. *)
From Stdlib Require Import ZArith Lia.
From stdpp Require Import base tactics numbers strings list.
From S2P Require Import Prelude.
Local Open Scope Z_scope.

Definition STAMP_LEN : nat := 113.
Definition MAX_WIRE_LEN : nat := 4104.
Definition HEADER_LEN : nat := 32 + STAMP_LEN + 2.
Definition MAX_FRAME_LEN : nat := HEADER_LEN + MAX_WIRE_LEN.

(** [struct StampedChunk] of client.rs. *)
Record StampedChunk := mkChunk { sc_addr : bytes; sc_wire : bytes; sc_stamp : bytes }.

(** [enum FrameError]. *)
Inductive FrameError :=
| Truncated (at_byte : nat)
| WireTooLong (n : nat)
| TooManyFrames (n max : nat).

(** [fn encode_frame] (the assertions are compiled out) and [fn encode_batch]. *)
Definition encode_frame (out : bytes) (c : StampedChunk) : bytes :=
  out ++ sc_addr c ++ sc_stamp c ++ to_le_bytes 2 (wrap 16 (Z.of_nat (length (sc_wire c)))) ++ sc_wire c.

Definition encode_batch (chunks : list StampedChunk) : bytes := foldl encode_frame [] chunks.

(** The loop of [fn decode_batch]; [None] is out of fuel. *)
Fixpoint decode_loop (fuel : nat) (buf : bytes) (max_frames consumed : nat) (out : list StampedChunk)
    : option (result (list StampedChunk) FrameError) :=
  match fuel with
  | O => None
  | S fuel' =>
      if Nat.eqb (length buf) 0 then Some (Ok out)
      else if Nat.leb max_frames (length out) then Some (Err (TooManyFrames (length out + 1) max_frames))
      else if Nat.ltb (length buf) HEADER_LEN then Some (Err (Truncated consumed))
      else
        let addr := take 32 buf in
        let stamp := take STAMP_LEN (drop 32 buf) in
        let wire_len := Z.to_nat (from_le_bytes [buf !!! (32 + STAMP_LEN)%nat; buf !!! (32 + STAMP_LEN + 1)%nat]) in
        if Nat.ltb MAX_WIRE_LEN wire_len then Some (Err (WireTooLong wire_len))
        else
          let frame_len := (HEADER_LEN + wire_len)%nat in
          if Nat.ltb (length buf) frame_len then Some (Err (Truncated consumed))
          else
            let wire := take wire_len (drop HEADER_LEN buf) in
            decode_loop fuel' (drop frame_len buf) max_frames (consumed + frame_len)
              (out ++ [mkChunk addr wire stamp])
  end.

Definition decode_batch (buf : bytes) (max_frames : nat) : option (result (list StampedChunk) FrameError) :=
  decode_loop (S (length buf)) buf max_frames 0 [].

(** ** Frames one by one *)

(** A chunk [encode_frame] may be given. *)
Record chunk_ok (c : StampedChunk) : Prop := {
  ok_addr : length (sc_addr c) = 32%nat;
  ok_stamp : length (sc_stamp c) = STAMP_LEN;
  ok_wire : (length (sc_wire c) <= MAX_WIRE_LEN)%nat }.

Definition frame (c : StampedChunk) : bytes := encode_frame [] c.

Lemma encode_frame_app out c : encode_frame out c = out ++ frame c.
Proof. done. Qed.

Lemma foldl_encode out cs : foldl encode_frame out cs = out ++ encode_batch cs.
Proof.
  unfold encode_batch. revert out. induction cs as [|c cs IH]; intros out; simpl; [by rewrite app_nil_r|].
  rewrite IH, (IH (encode_frame [] c)), (encode_frame_app out), <- app_assoc. done.
Qed.

Lemma encode_batch_cons c cs : encode_batch (c :: cs) = frame c ++ encode_batch cs.
Proof. unfold encode_batch at 1. simpl. apply foldl_encode. Qed.

Lemma frame_length c : chunk_ok c -> length (frame c) = (HEADER_LEN + length (sc_wire c))%nat.
Proof.
  intros [Ha Hs Hw]. unfold frame, encode_frame.
  rewrite !length_app, to_le_bytes_length, Ha, Hs. unfold HEADER_LEN. simpl. lia.
Qed.

Lemma frame_parts c rest : chunk_ok c ->
  let buf := frame c ++ rest in
  take 32 buf = sc_addr c /\ take STAMP_LEN (drop 32 buf) = sc_stamp c /\
  Z.to_nat (from_le_bytes [buf !!! (32 + STAMP_LEN)%nat; buf !!! (32 + STAMP_LEN + 1)%nat]) =
    length (sc_wire c) /\
  take (length (sc_wire c)) (drop HEADER_LEN buf) = sc_wire c /\
  drop (HEADER_LEN + length (sc_wire c)) buf = rest.
Proof.
  intros Hc buf. pose proof (frame_length c Hc) as Hl. destruct Hc as [Ha Hs Hw].
  set (n := wrap 16 (Z.of_nat (length (sc_wire c)))).
  assert (Hn : n = Z.of_nat (length (sc_wire c))).
  { unfold n, wrap. apply Z.mod_small. unfold MAX_WIRE_LEN in Hw. lia. }
  assert (E : buf = sc_addr c ++ sc_stamp c ++ to_le_bytes 2 n ++ sc_wire c ++ rest).
  { unfold buf, frame, encode_frame. by rewrite <- !app_assoc. }
  assert (D1 : drop 32 buf = sc_stamp c ++ to_le_bytes 2 n ++ sc_wire c ++ rest).
  { rewrite E, drop_app_length'; [done|by rewrite Ha]. }
  assert (D2 : drop (32 + STAMP_LEN) buf = to_le_bytes 2 n ++ sc_wire c ++ rest).
  { rewrite <- drop_drop, D1, drop_app_length'; [done|by rewrite Hs]. }
  assert (D3 : drop HEADER_LEN buf = sc_wire c ++ rest).
  { change HEADER_LEN with (32 + STAMP_LEN + 2)%nat. rewrite <- drop_drop, D2.
    by rewrite drop_app_length'. }
  split_and!.
  - rewrite E. by rewrite take_app_length'.
  - rewrite D1. by rewrite take_app_length'.
  - rewrite !list_lookup_total_alt, <- (Nat.add_0_r (32 + STAMP_LEN)) at 1.
    rewrite <- !lookup_drop, D2. simpl lookup. simpl default.
    change [?a; ?b] with (to_le_bytes 2 n). rewrite from_to_le_bytes.
    + rewrite Hn. lia.
    + rewrite Hn. unfold MAX_WIRE_LEN in Hw. change (256 ^ Z.of_nat 2) with 65536. lia.
  - rewrite D3. by rewrite take_app_length'.
  - rewrite <- drop_drop, D3. by rewrite drop_app_length'.
Qed.

Lemma decode_frame_step fuel c rest mx consumed out : chunk_ok c -> (length out < mx)%nat ->
  decode_loop (S fuel) (frame c ++ rest) mx consumed out =
  decode_loop fuel rest mx (consumed + length (frame c)) (out ++ [c]).
Proof.
  intros Hc Hlt. pose proof (frame_length c Hc) as Hl.
  destruct (frame_parts c rest Hc) as (E1 & E2 & E3 & E4 & E5).
  cbn [decode_loop]. rewrite E1, E2, E3, E4, E5.
  destruct Hc as [_ _ Hw]. rewrite length_app, Hl.
  rewrite (proj2 (Nat.eqb_neq _ 0)) by (unfold HEADER_LEN; lia).
  rewrite (proj2 (Nat.leb_gt _ _)) by lia.
  rewrite (proj2 (Nat.ltb_ge _ HEADER_LEN)) by lia.
  rewrite (proj2 (Nat.ltb_ge _ _)) by lia.
  rewrite (proj2 (Nat.ltb_ge _ _)) by lia. by destruct c.
Qed.

Lemma encode_batch_length cs : Forall chunk_ok cs -> (HEADER_LEN * length cs <= length (encode_batch cs))%nat.
Proof.
  induction 1 as [|c cs Hc _ IH]; [simpl; lia|]. rewrite encode_batch_cons, length_app.
  rewrite frame_length by done. cbn [length]. lia.
Qed.

Lemma decode_frames cs fuel rest mx consumed out : Forall chunk_ok cs ->
  (length cs <= fuel)%nat -> (length out + length cs <= mx)%nat ->
  decode_loop fuel (encode_batch cs ++ rest) mx consumed out =
  decode_loop (fuel - length cs) rest mx (consumed + length (encode_batch cs)) (out ++ cs).
Proof.
  intros Hcs. revert fuel consumed out. induction Hcs as [|c cs Hc _ IH]; intros fuel consumed out Hf Hm.
  - simpl. by rewrite Nat.sub_0_r, Nat.add_0_r, app_nil_r.
  - destruct fuel as [|fuel]; [cbn [length] in Hf; lia|]. cbn [length] in *.
    rewrite encode_batch_cons, <- app_assoc, decode_frame_step by (done || lia).
    rewrite IH by (rewrite ?length_app; cbn [length]; lia).
    rewrite <- app_assoc, length_app, Nat.add_assoc. done.
Qed.

(** Whatever a successful decode consumed is the encoding of what it returned. *)
Lemma decode_frame_inv buf : all_bytes buf -> (HEADER_LEN <= length buf)%nat ->
  let wire_len := Z.to_nat (from_le_bytes [buf !!! (32 + STAMP_LEN)%nat; buf !!! (32 + STAMP_LEN + 1)%nat]) in
  (wire_len <= MAX_WIRE_LEN)%nat -> (HEADER_LEN + wire_len <= length buf)%nat ->
  let c := mkChunk (take 32 buf) (take wire_len (drop HEADER_LEN buf)) (take STAMP_LEN (drop 32 buf)) in
  chunk_ok c /\ frame c ++ drop (HEADER_LEN + wire_len) buf = buf.
Proof.
  intros Hb Hh wl Hw Hl c.
  assert (Hlen : length (take wl (drop HEADER_LEN buf)) = wl) by (rewrite length_take, length_drop; lia).
  assert (L2 : (32 + STAMP_LEN + 1 < length buf)%nat) by (unfold HEADER_LEN in Hh; lia).
  split.
  { unfold HEADER_LEN in Hh. split; unfold c; cbn [sc_addr sc_stamp sc_wire]; [| |by rewrite Hlen];
      rewrite !length_take, ?length_drop; lia. }
  unfold frame, encode_frame, c; cbn [sc_addr sc_stamp sc_wire app]. rewrite Hlen.
  set (b0 := buf !!! (32 + STAMP_LEN)%nat) in *. set (b1 := buf !!! (32 + STAMP_LEN + 1)%nat) in *.
  assert (B0 : buf !! (32 + STAMP_LEN)%nat = Some b0) by (apply list_lookup_lookup_total_lt; lia).
  assert (B1 : buf !! (32 + STAMP_LEN + 1)%nat = Some b1) by (apply list_lookup_lookup_total_lt; lia).
  pose proof (Forall_lookup_1 _ _ _ _ Hb B0) as R0. pose proof (Forall_lookup_1 _ _ _ _ Hb B1) as R1.
  unfold is_byte in R0, R1.
  assert (EL : to_le_bytes 2 (wrap 16 (Z.of_nat wl)) = [b0; b1]).
  { unfold wl. cbn [from_le_bytes]. rewrite Z2Nat.id by lia. unfold wrap.
    rewrite Z.mod_small by (change (2 ^ 16) with 65536; lia).
    change [b0; b1] with (take 2 [b0; b1]).
    rewrite <- (to_from_le_bytes [b0; b1]) by (repeat constructor; unfold is_byte; lia). done. }
  rewrite EL.
  assert (S2 : drop (32 + STAMP_LEN) buf = [b0; b1] ++ drop HEADER_LEN buf).
  { rewrite (drop_S _ _ _ B0). rewrite (drop_S _ b1) by (rewrite <- B1; f_equal; lia). done. }
  rewrite <- !app_assoc. rewrite <- (drop_drop buf wl HEADER_LEN), (take_drop wl (drop HEADER_LEN buf)), <- S2.
  rewrite <- (drop_drop buf STAMP_LEN 32), (take_drop STAMP_LEN (drop 32 buf)). apply take_drop.
Qed.

Lemma decode_loop_inv fuel buf mx consumed out res : all_bytes buf ->
  decode_loop fuel buf mx consumed out = Some (Ok res) -> (length out <= mx)%nat ->
  exists cs, res = out ++ cs /\ Forall chunk_ok cs /\ encode_batch cs = buf /\ (length res <= mx)%nat.
Proof.
  revert buf consumed out. induction fuel as [|fuel IH]; intros buf consumed out Hb Hd Hm; [done|].
  cbn [decode_loop] in Hd. revert Hd. destruct (Nat.eqb_spec (length buf) 0) as [E|E].
  { intros [= <-]. exists []. apply length_zero_iff_nil in E as ->. rewrite app_nil_r. by split_and!. }
  destruct (Nat.leb_spec mx (length out)); [done|].
  destruct (Nat.ltb_spec (length buf) HEADER_LEN); [done|].
  destruct (Nat.ltb_spec MAX_WIRE_LEN
    (Z.to_nat (from_le_bytes [buf !!! (32 + STAMP_LEN)%nat; buf !!! (32 + STAMP_LEN + 1)%nat]))) as [|Hw]; [done|].
  match goal with |- context [Nat.ltb (length buf) ?n] => destruct (Nat.ltb_spec (length buf) n) as [|Hl]; [done|] end.
  intros Hd.
  destruct (decode_frame_inv buf Hb ltac:(lia) Hw Hl) as [Hc Hf].
  apply IH in Hd as (cs & -> & Hcs & Ecs & Hlen); [|by apply Forall_drop|rewrite length_app; simpl; lia].
  rewrite <- app_assoc in Hlen |- *. eexists (_ :: cs). split_and!; [done|by constructor| |done].
  rewrite encode_batch_cons, Ecs. done.
Qed.

Lemma decode_loop_total fuel buf mx consumed out : (length buf < fuel)%nat ->
  exists r, decode_loop fuel buf mx consumed out = Some r.
Proof.
  revert buf consumed out. induction fuel as [|fuel IH]; intros buf consumed out Hf; [lia|].
  cbn [decode_loop]. repeat (case_match; [by eauto|]). apply IH.
  rewrite length_drop. destruct (Nat.eqb_spec (length buf) 0); [done|]. unfold HEADER_LEN. lia.
Qed.

(** ** Properties *)

(** C11: decoding inverts encoding.  A batch of at most [max_frames] chunks of the
    documented shape is read back exactly; the decoder terminates on every
    input. *)
Theorem decode_encode_batch cs mx : Forall chunk_ok cs -> (length cs <= mx)%nat ->
  decode_batch (encode_batch cs) mx = Some (Ok cs) /\
  forall buf, exists r, decode_batch buf mx = Some r.
Proof.
  intros Hcs Hm. split; [|intros; apply decode_loop_total; lia].
  pose proof (encode_batch_length cs Hcs) as Hl. unfold decode_batch.
  rewrite <- (app_nil_r (encode_batch cs)), decode_frames; rewrite ?app_nil_r;
    [|done|unfold HEADER_LEN in Hl; lia|simpl; lia].
  destruct (S (length (encode_batch cs)) - length cs)%nat eqn:E; [unfold HEADER_LEN in Hl; lia|]. done.
Qed.

Lemma decode_encode_batch_witness :
  let c := mkChunk (replicate 32 1) [1; 2; 3] (replicate 113 9) in
  decode_batch (encode_batch [c; c]) 2 = Some (Ok [c; c]).
Proof.
  cbv zeta. apply decode_encode_batch; [|done]. repeat constructor; cbn; lia.
Defined.

Lemma decode_batch_inv buf mx cs : all_bytes buf -> decode_batch buf mx = Some (Ok cs) ->
  encode_batch cs = buf /\ Forall chunk_ok cs /\ (length cs <= mx)%nat.
Proof.
  intros Hb Hd. apply decode_loop_inv in Hd as (cs' & -> & Hok & E & Hm); [|done|simpl; lia]. by split_and!.
Qed.

(** The decoder accepts only encodings: what it returns encodes to the very
    bytes it read, has the documented shape and respects [max_frames], so no two
    bodies decode to the same batch. *)
Theorem decode_batch_canonical buf mx cs : all_bytes buf -> decode_batch buf mx = Some (Ok cs) ->
  encode_batch cs = buf /\ Forall chunk_ok cs /\ (length cs <= mx)%nat.
Proof. apply decode_batch_inv. Qed.

Lemma decode_batch_canonical_witness :
  let c := mkChunk (replicate 32 1) [1; 2; 3] (replicate 113 9) in
  let buf := encode_batch [c; c] in
  encode_batch [c; c] = buf /\ Forall chunk_ok [c; c] /\ (2 <= 2)%nat.
Proof.
  cbv zeta. apply (decode_batch_canonical (encode_batch _) 2).
  - vm_compute. repeat constructor; intros H; discriminate H.
  - vm_compute. reflexivity.
Defined.

(** The refusals.  Whole frames followed by a partial one are refused as
    truncated at the byte where the partial frame starts, a frame announcing an
    over-long wire is refused with that length, and a body with more than
    [max_frames] frames is refused whatever follows. *)
Theorem decode_batch_errors cs mx tail : Forall chunk_ok cs -> tail <> [] ->
  ((length cs < mx)%nat -> (length tail < HEADER_LEN)%nat ->
     decode_batch (encode_batch cs ++ tail) mx = Some (Err (Truncated (length (encode_batch cs))))) /\
  (forall c n, (length cs < mx)%nat -> chunk_ok c -> (n < length (sc_wire c))%nat ->
     tail = take (HEADER_LEN + n) (frame c) ->
     decode_batch (encode_batch cs ++ tail) mx = Some (Err (Truncated (length (encode_batch cs))))) /\
  (let n := Z.to_nat (from_le_bytes [tail !!! (32 + STAMP_LEN)%nat; tail !!! (32 + STAMP_LEN + 1)%nat]) in
     (length cs < mx)%nat -> (HEADER_LEN <= length tail)%nat -> (MAX_WIRE_LEN < n)%nat ->
     decode_batch (encode_batch cs ++ tail) mx = Some (Err (WireTooLong n))) /\
  (length cs = mx -> decode_batch (encode_batch cs ++ tail) mx = Some (Err (TooManyFrames (mx + 1) mx))).
Proof.
  intros Hcs Ht. pose proof (encode_batch_length cs Hcs) as Hl.
  assert (Htl : length tail <> 0%nat) by (intros E; apply Ht, length_zero_iff_nil, E).
  assert (G : (length cs <= mx)%nat -> exists fuel, decode_batch (encode_batch cs ++ tail) mx =
    decode_loop (S fuel) tail mx (length (encode_batch cs)) cs).
  { intros Hm. unfold decode_batch. rewrite decode_frames; [|done|rewrite length_app; unfold HEADER_LEN in Hl; lia|simpl; lia].
    rewrite length_app. exists (length (encode_batch cs) + length tail - length cs)%nat.
    f_equal. unfold HEADER_LEN in Hl. lia. }
  split_and!.
  - intros Hm Hh. destruct (G ltac:(lia)) as [fuel ->]. cbn [decode_loop].
    rewrite (proj2 (Nat.eqb_neq _ _) Htl), (proj2 (Nat.leb_gt _ _) Hm), (proj2 (Nat.ltb_lt _ _) Hh). done.
  - intros c n Hm Hc Hn Et. destruct (G ltac:(lia)) as [fuel ->]. cbn [decode_loop].
    pose proof (frame_length c Hc) as Hfl. pose proof (frame_parts c [] Hc) as (_ & _ & E3 & _).
    rewrite app_nil_r in E3.
    assert (Hlt : length tail = (HEADER_LEN + n)%nat) by (rewrite Et, length_take; lia).
    assert (E4 : forall i, (i < HEADER_LEN)%nat -> tail !!! i = frame c !!! i).
    { intros i Hi. rewrite !list_lookup_total_alt, Et, lookup_take_lt by lia. done. }
    rewrite !E4, E3 by (unfold HEADER_LEN; lia). destruct Hc as [_ _ Hw].
    rewrite (proj2 (Nat.eqb_neq _ _) Htl), (proj2 (Nat.leb_gt _ _) Hm).
    rewrite (proj2 (Nat.ltb_ge _ HEADER_LEN)) by lia.
    rewrite (proj2 (Nat.ltb_ge _ _)) by lia. rewrite (proj2 (Nat.ltb_lt _ _)) by lia. done.
  - intros n Hm Hh Hn. destruct (G ltac:(lia)) as [fuel ->]. cbn [decode_loop]. fold n.
    rewrite (proj2 (Nat.eqb_neq _ _) Htl), (proj2 (Nat.leb_gt _ _) Hm).
    rewrite (proj2 (Nat.ltb_ge _ HEADER_LEN)) by lia. by rewrite (proj2 (Nat.ltb_lt _ _) Hn).
  - intros Hm. destruct (G ltac:(lia)) as [fuel ->]. cbn [decode_loop].
    rewrite (proj2 (Nat.eqb_neq _ _) Htl), (proj2 (Nat.leb_le mx _)) by lia. by rewrite Hm.
Qed.

Lemma decode_batch_errors_witness :
  let c := mkChunk (replicate 32 1) [1; 2; 3] (replicate 113 9) in
  decode_batch (encode_batch [c] ++ [7]) 1 = Some (Err (TooManyFrames 2 1)) /\
  decode_batch (encode_batch [c] ++ [7]) 2 = Some (Err (Truncated 150)).
Proof.
  cbv zeta.
  assert (H : Forall chunk_ok [mkChunk (replicate 32 1) [1; 2; 3] (replicate 113 9)])
    by (repeat constructor; cbn; lia).
  split.
  - apply (decode_batch_errors _ 1 [7] H); done.
  - apply (decode_batch_errors _ 2 [7] H); [done|cbn; lia|cbn; lia].
Defined.
