(* ===== verification/Signer.v ===== *)
(** * Signatures and the bytes they cover ([src/src/signer.rs])

    Keccak-256, the secp256k1 recovery of [k256], the signature parser of
    [alloy] and the EIP-712 hash of [alloy_sol_types] are parameters, gathered in
    the class [Crypto]; everything hoverfly computes around them is written out:
    the payloads that are signed, the recovery paths and the canonical-form check. *)
From Stdlib Require Import ZArith Lia.
From stdpp Require Import base tactics numbers strings list.
From S2P Require Import Prelude Codec.
Local Open Scope Z_scope.
Local Open Scope hov_scope.

(** [struct PushChallenge] (an origin is the UTF-8 text of a host name). *)
Record PushChallenge := mkPushChallenge {
  pc_nonce : bytes; pc_origin : bytes; pc_account : bytes; pc_batchId : bytes; pc_expiry : Z }.

(** [struct Cheque]. *)
Record Cheque := mkCheque { cq_chequebook : bytes; cq_beneficiary : bytes; cq_cumulativePayout : Z }.

(** [Eip712Domain], of which a name, a version and a chain id are set. *)
Record Domain := mkDomain { dom_name : str; dom_version : str; dom_chain_id : Z }.

Class Crypto := {
  keccak256 : bytes -> bytes;
  (** [Signature::try_from]. *)
  alloy_sig_parse : bytes -> result unit str;
  (** [Signature::from_slice], [VerifyingKey::recover_from_prehash] and
      [to_encoded_point(false)]: the 65-byte point for a digest, [r || s] and a recovery id. *)
  recover_point : bytes -> bytes -> Z -> result bytes str;
  (** [eip712_signing_hash]. *)
  hash_challenge : PushChallenge -> Domain -> bytes;
  hash_cheque : Cheque -> Domain -> bytes }.

(** [SignerError::Alloy]. *)
Inductive SignerError := Alloy (msg : str).

Definition chequebook_domain (chain_id : Z) : Domain := mkDomain (lit "Chequebook") (lit "1.0") chain_id.
Definition pusher_domain (chain_id : Z) : Domain := mkDomain (lit "HoverflyPusher") (lit "1") chain_id.

Definition SECP256K1N_HALF : bytes :=
  [0x7F; 0xFF; 0xFF; 0xFF; 0xFF; 0xFF; 0xFF; 0xFF; 0xFF; 0xFF; 0xFF; 0xFF; 0xFF; 0xFF; 0xFF; 0xFF;
   0x5D; 0x57; 0x6E; 0x73; 0x57; 0xA4; 0x50; 0x1D; 0xDF; 0xE9; 0x2F; 0x46; 0x68; 0x1B; 0x20; 0xA0].

(** [fn check_canonical_signature]. *)
Definition check_canonical_signature (sig : bytes) : result unit SignerError :=
  if negb (Nat.eqb (length sig) 65)
  then Err (Alloy (lit "signature must be 65 bytes, got " ++ u128_to_string (Z.of_nat (length sig))))
  else if negb (sig !!! 64%nat =? 27) && negb (sig !!! 64%nat =? 28)
  then Err (Alloy (lit "non-canonical v=" ++ u128_to_string (sig !!! 64%nat)
         ++ lit ": ERC20SimpleSwap requires 27 or 28, so this cheque would revert at cashout"))
  else if negb (lex_le (take 32 (drop 32 sig)) SECP256K1N_HALF)
  then Err (Alloy (lit "non-canonical high-s signature: ERC20SimpleSwap rejects s > secp256k1n/2, so this cheque would revert at cashout"))
  else Ok tt.

Definition BEE_HANDSHAKE : bytes := lit "bee-handshake-".

(** [fn generate_sign_data] and [fn generate_sign_data_v15]; a timestamp is an [i64]. *)
Definition generate_sign_data (underlay overlay : bytes) (network_id : Z) : bytes :=
  BEE_HANDSHAKE ++ underlay ++ overlay ++ to_be_bytes 8 network_id.

Definition generate_sign_data_v15 (underlay overlay : bytes) (network_id : Z) (nonce : bytes)
    (timestamp : Z) (chequebook : bytes) : bytes :=
  BEE_HANDSHAKE ++ underlay ++ overlay ++ to_be_bytes 8 network_id ++ nonce
    ++ to_be_bytes 8 (wrap 64 timestamp) ++ chequebook.

Section WithCrypto.
Context `{Crypto}.

(** [fn derive_overlay]. *)
Definition derive_overlay (eth_address : bytes) (network_id : Z) (nonce : bytes) : bytes :=
  keccak256 (eth_address ++ to_le_bytes 8 network_id ++ nonce).

(** The address of a recovered point: the last 20 bytes of the hash of its coordinates. *)
Definition point_address (point : bytes) : bytes := drop 12 (keccak256 (drop 1 point)).

(** The text the EIP-191 digest covers. *)
Definition eip191_prefixed (payload : bytes) : bytes :=
  (25 :: lit "Ethereum Signed Message:") ++ 10 :: u128_to_string (Z.of_nat (length payload)) ++ payload.

(** [fn recover_eth_from_eip191]. *)
Definition recover_eth_from_eip191 (payload sig : bytes) : result bytes SignerError :=
  if negb (Nat.eqb (length sig) 65)
  then Err (Alloy (lit "bad signature length: " ++ u128_to_string (Z.of_nat (length sig)) ++ lit " (want 65)"))
  else
    let digest := keccak256 (eip191_prefixed payload) in
    let v := sig !!! 64%nat in
    let v := if 27 <=? v then v - 27 else v in
    if 1 <? v then Err (Alloy (lit "bad v byte: " ++ u128_to_string (sig !!! 64%nat)))
    else
      let? _ := map_err (fun e => Alloy (lit "alloy sig parse: " ++ e)) (alloy_sig_parse sig) in
      let? point := map_err (fun e => Alloy (lit "k256 recover: " ++ e))
        (recover_point digest (take 64 sig) v) in
      Ok (point_address point).

Definition recover_eth_address_from_handshake (underlay overlay : bytes) (network_id : Z) (sig : bytes)
    : result bytes SignerError :=
  recover_eth_from_eip191 (generate_sign_data underlay overlay network_id) sig.

Definition recover_eth_address_from_handshake_v15 (underlay overlay : bytes) (network_id : Z) (nonce : bytes)
    (timestamp : Z) (chequebook sig : bytes) : result bytes SignerError :=
  recover_eth_from_eip191
    (generate_sign_data_v15 underlay overlay network_id nonce timestamp chequebook) sig.

(** [fn recover_typed], given the signing hash. *)
Definition recover_typed (digest sig : bytes) : result bytes SignerError :=
  let v := wrap 8 (sig !!! 64%nat - 27) in
  let? point := map_err (fun e => Alloy (lit "recover: " ++ e)) (recover_point digest (take 64 sig) v) in
  Ok (point_address point).

(** [fn recover_cheque_issuer] and [fn recover_push_challenge]. *)
Definition recover_cheque_issuer (chequebook beneficiary : bytes) (cumulative_payout chain_id : Z)
    (sig : bytes) : result bytes SignerError :=
  let? _ := check_canonical_signature sig in
  recover_typed (hash_cheque (mkCheque chequebook beneficiary cumulative_payout)
    (chequebook_domain chain_id)) sig.

Definition recover_push_challenge (c : PushChallenge) (chain_id : Z) (sig : bytes)
    : result bytes SignerError :=
  let? _ := check_canonical_signature sig in
  recover_typed (hash_challenge c (pusher_domain chain_id)) sig.
End WithCrypto.

(** ** Properties *)

(** The order of the curve. *)
Definition secp256k1n : Z := 0xFFFFFFFFFFFFFFFFFFFFFFFFFFFFFFFEBAAEDCE6AF48A03BBFD25E8CD0364141.

Lemma half_order : from_be_bytes SECP256K1N_HALF = secp256k1n / 2.
Proof. by vm_compute. Qed.

(** A signature passes the canonical check exactly when it has 65 bytes, its
    recovery byte is 27 or 28 and its [s], read as a number, is at most half the
    order of the curve: the byte-wise comparison is the numeric one the contract
    makes. *)
Theorem canonical_signature_spec sig : all_bytes sig ->
  (check_canonical_signature sig = Ok tt <->
   length sig = 65%nat /\ (sig !!! 64%nat = 27 \/ sig !!! 64%nat = 28) /\
   from_be_bytes (take 32 (drop 32 sig)) <= secp256k1n / 2).
Proof.
  intros Hb. unfold check_canonical_signature.
  destruct (Nat.eqb_spec (length sig) 65) as [Hl|Hl]; simpl; [|by split; [|intros [? _]]].
  rewrite lex_le_be.
  - rewrite half_order.
    destruct (Z.eqb_spec (sig !!! 64%nat) 27), (Z.eqb_spec (sig !!! 64%nat) 28),
      (Z.leb_spec (from_be_bytes (take 32 (drop 32 sig))) (secp256k1n / 2)); simpl;
      (split; [try done; intros _; split_and!; auto | intros (? & [?|?] & ?); first [done|lia]]).
  - by apply Forall_take, Forall_drop.
  - vm_compute. repeat constructor; discriminate.
  - rewrite length_take, length_drop, Hl. done.
Qed.

Lemma canonical_signature_spec_witness :
  check_canonical_signature (replicate 64 1 ++ [27]) = Ok tt.
Proof.
  apply canonical_signature_spec.
  - vm_compute. repeat constructor; discriminate.
  - split_and!; [done|by left|by vm_compute].
Defined.

(** The signed handshake payload determines what it covers: two v15 payloads
    are equal only when their underlay, overlay, network, nonce, timestamp and
    chequebook are all equal, so a signature vouches for one record only. *)
Theorem sign_data_v15_injective u o n r t c u' o' n' r' t' c' :
  length o = 32%nat -> length o' = 32%nat -> length r = 32%nat -> length r' = 32%nat ->
  length c = 20%nat -> length c' = 20%nat -> u64 n -> u64 n' -> 0 <= t < 2 ^ 63 -> 0 <= t' < 2 ^ 63 ->
  generate_sign_data_v15 u o n r t c = generate_sign_data_v15 u' o' n' r' t' c' ->
  u = u' /\ o = o' /\ n = n' /\ r = r' /\ t = t' /\ c = c'.
Proof.
  intros Ho Ho' Hr Hr' Hc Hc' Hn Hn' Ht Ht' E. unfold generate_sign_data_v15 in E.
  apply (inj (BEE_HANDSHAKE ++.)) in E.
  assert (Hu : length u = length u').
  { apply (f_equal length) in E. autorewrite with hov in E. rewrite !length_app, !to_be_bytes_length in E. lia. }
  apply (app_inj_len _ _ _ _ Hu) in E as [-> E].
  apply app_inj_len in E as [-> E]; [|congruence].
  apply app_inj_len in E as [En E]; [|by rewrite !to_be_bytes_length].
  apply app_inj_len in E as [-> E]; [|congruence].
  apply app_inj_len in E as [Et ->]; [|by rewrite !to_be_bytes_length].
  change (256 ^ Z.of_nat 8) with (2 ^ 64) in *.
  apply to_be_bytes_inj in En; [|change (256 ^ Z.of_nat 8) with (2 ^ 64); lia..].
  unfold wrap in Et. rewrite !Z.mod_small in Et by lia.
  apply to_be_bytes_inj in Et; [|change (256 ^ Z.of_nat 8) with (2 ^ 64); lia..].
  done.
Qed.

Lemma sign_data_v15_injective_witness :
  let o := replicate 32 1 in let c := replicate 20 2 in
  [4] = [4] /\ o = o /\ 1 = 1 /\ o = o /\ 5 = 5 /\ c = c.
Proof.
  apply (sign_data_v15_injective [4] (replicate 32 1) 1 (replicate 32 1) 5 (replicate 20 2)
    [4] (replicate 32 1) 1 (replicate 32 1) 5 (replicate 20 2)); first [done | lia | reflexivity].
Defined.

(** A stand-in for the cryptographic functions when a theorem is applied. *)
Definition toy_crypto : Crypto := {|
  keccak256 := fun b => take 32 (map (fun x => x mod 256) b ++ replicate 32 0);
  alloy_sig_parse := fun _ => Ok tt;
  recover_point := fun d _ _ => Ok (take 65 d);
  hash_challenge := fun c _ => 4 :: replicate 12 0 ++ pc_account c;
  hash_cheque := fun c _ => 4 :: replicate 12 0 ++ cq_chequebook c |}.

Lemma toy_keccak_bytes b : all_bytes (@keccak256 toy_crypto b).
Proof.
  cbn [keccak256 toy_crypto]. apply Forall_take, Forall_app. split.
  - apply Forall_map, Forall_true. intros x. apply Z.mod_pos_bound. lia.
  - by apply Forall_replicate.
Qed.

Lemma toy_keccak_length b : length (@keccak256 toy_crypto b) = 32%nat.
Proof.
  cbn [keccak256 toy_crypto]. rewrite length_take, length_app, length_replicate. lia.
Qed.
