(* ===== verification/Stamp.v ===== *)
(** * Postage stamps ([src/src/stamp.rs])

    The signature-only validation of the 113-byte stamp
    [batchID(32) | index(8) | timestamp(8) | sig(65)]. *)
From Stdlib Require Import ZArith Lia.
From stdpp Require Import base tactics numbers strings list.
From S2P Require Import Prelude Codec Signer.
Local Open Scope Z_scope.
Local Open Scope hov_scope.

Definition STAMP_SIZE : nat := 32 + 8 + 8 + 65.

(** [enum StampError]. *)
Inductive StampError := BadLength (n : nat) | BadSignature (msg : str) | ZeroSigner.

(** [struct ValidStamp]. *)
Record ValidStamp := mkValid {
  batch_id : bytes; index : bytes; timestamp : bytes; vs_signature : bytes; vs_signer : bytes }.

Section WithCrypto.
Context `{Crypto}.

(** What the signature covers. *)
Definition stamp_preimage (chunk_addr bid idx ts : bytes) : bytes := chunk_addr ++ bid ++ idx ++ ts.
Definition stamp_digest (chunk_addr bid idx ts : bytes) : bytes :=
  keccak256 ((25 :: lit "Ethereum Signed Message:") ++ 10 :: lit "32"
    ++ keccak256 (stamp_preimage chunk_addr bid idx ts)).

(** [fn recover_secp256k1_address]. *)
Definition recover_secp256k1_address (digest sig : bytes) : result bytes StampError :=
  if negb (Nat.eqb (length sig) 65)
  then Err (BadSignature (lit "expected 65-byte sig, got " ++ u128_to_string (Z.of_nat (length sig))))
  else
    let v := sig !!! 64%nat in
    let v := if 27 <=? v then v - 27 else v in
    if 1 <? v then Err (BadSignature (lit "bad v byte: " ++ u128_to_string (sig !!! 64%nat)))
    else
      let? point := map_err (fun e => BadSignature (lit "k256 recover: " ++ e))
        (recover_point digest (take 64 sig) v) in
      Ok (point_address point).

(** [fn validate]. *)
Definition validate (chunk_addr stamp : bytes) : result ValidStamp StampError :=
  if negb (Nat.eqb (length stamp) STAMP_SIZE) then Err (BadLength (length stamp))
  else
    let bid := take 32 stamp in
    let idx := take 8 (drop 32 stamp) in
    let ts := take 8 (drop 40 stamp) in
    let sig := take 65 (drop 48 stamp) in
    let? signer := recover_secp256k1_address (stamp_digest chunk_addr bid idx ts) sig in
    if bool_decide (signer = replicate 20 0) then Err ZeroSigner
    else Ok (mkValid bid idx ts sig signer).

(** ** Properties *)

Lemma validate_fields chunk_addr stamp v : validate chunk_addr stamp = Ok v ->
  stamp = batch_id v ++ index v ++ timestamp v ++ vs_signature v /\
  length (batch_id v) = 32%nat /\ length (index v) = 8%nat /\ length (timestamp v) = 8%nat /\
  length (vs_signature v) = 65%nat /\
  recover_secp256k1_address (stamp_digest chunk_addr (batch_id v) (index v) (timestamp v))
    (vs_signature v) = Ok (vs_signer v) /\ vs_signer v <> replicate 20 0.
Proof.
  unfold validate. destruct (Nat.eqb_spec (length stamp) STAMP_SIZE) as [Hl|]; [|done]. simpl negb. cbv iota.
  intros Hv. destruct (recover_secp256k1_address _ _) as [s|] eqn:Er; [|done]. simpl in Hv.
  case_bool_decide as Ez; [done|]. injection Hv as <-. cbn [batch_id index timestamp vs_signature vs_signer].
  unfold STAMP_SIZE in Hl. rewrite !length_take, !length_drop, Hl. split_and!; try done.
  rewrite (take_ge (drop 48 stamp)) by (rewrite length_drop, Hl; simpl; lia).
  change (drop 48 stamp) with (drop (40 + 8) stamp). rewrite <- (drop_drop stamp 8 40), take_drop.
  change (drop 40 stamp) with (drop (32 + 8) stamp). rewrite <- (drop_drop stamp 8 32), take_drop.
  by rewrite take_drop.
Qed.

(** A stamp vouches for one chunk and one slot.  A validated stamp is exactly its
    four fields, its signature recovers to a non-zero signer, and the signed
    digest determines the chunk address, batch, index and timestamp unless a hash
    collision is exhibited: a signature cannot be moved to another chunk or
    slot. *)
Theorem stamp_binds a a' stamp stamp' v v' :
  length a = 32%nat -> length a' = 32%nat ->
  validate a stamp = Ok v -> validate a' stamp' = Ok v' ->
  vs_signer v <> replicate 20 0 /\
  (stamp_digest a (batch_id v) (index v) (timestamp v) =
     stamp_digest a' (batch_id v') (index v') (timestamp v') ->
   (a = a' /\ batch_id v = batch_id v' /\ index v = index v' /\ timestamp v = timestamp v') \/
   exists x y, x <> y /\ keccak256 x = keccak256 y).
Proof.
  intros Ha Ha' Hv Hv'. apply validate_fields in Hv as (_ & H1 & H2 & H3 & _ & _ & Hz).
  apply validate_fields in Hv' as (_ & H1' & H2' & H3' & _ & _ & _). split; [done|]. intros E.
  unfold stamp_digest in E.
  set (p := stamp_preimage a _ _ _) in *. set (p' := stamp_preimage a' _ _ _) in *.
  destruct (decide (keccak256 p = keccak256 p')) as [E1|E1].
  - destruct (decide (p = p')) as [E2|E2]; [left|right; eauto]. unfold p, p', stamp_preimage in E2.
    apply app_inj_len in E2 as [-> E2]; [|congruence].
    apply app_inj_len in E2 as [-> E2]; [|congruence].
    apply app_inj_len in E2 as [-> ->]; [|congruence]. done.
  - right. eexists _, _. split; [|exact E]. intros E2. apply E1. by simplify_list_eq.
Qed.
End WithCrypto.

Definition demo_stamp : bytes := replicate 32 3 ++ replicate 8 0 ++ replicate 8 1 ++ replicate 64 1 ++ [27].

Lemma stamp_binds_witness :
  let a := replicate 32 9 in
  match @validate toy_crypto a demo_stamp with
  | Ok v => vs_signer v <> replicate 20 0
  | Err _ => False
  end.
Proof.
  cbv zeta. destruct (@validate toy_crypto (replicate 32 9) demo_stamp) as [v|e] eqn:E.
  - apply (@stamp_binds toy_crypto (replicate 32 9) (replicate 32 9) demo_stamp demo_stamp v v); done.
  - vm_compute in E. discriminate E.
Defined.
