(* ===== verification/Challenge.v ===== *)
(** * The admission challenge ([src/src/challenge.rs])

    A stateless capability: a MAC over fixed-width fields and a length-prefixed
    origin, the check the relay makes of it and the header it travels in.
    Base64 and JSON are parameters. *)
From Stdlib Require Import ZArith Lia.
From stdpp Require Import base tactics numbers strings list gmap.
From S2P Require Import Prelude Codec Signer.
Local Open Scope Z_scope.
Local Open Scope hov_scope.

Definition DOMAIN_TAG : bytes := lit "hoverfly-pusher-challenge-v1".
Definition CHALLENGE_TTL_SECS : Z := 300.
Definition MAX_CHALLENGE_HEADER : nat := 2048.

(** [struct ChallengeFields]; the origin is its UTF-8 text. *)
Record ChallengeFields := mkFields {
  account : bytes; batch : bytes; origin : bytes; expiry_unix : Z; cap_plur : Z }.

(** [enum ChallengeError]. *)
Inductive ChallengeError :=
| BadMac
| Expired (ago : Z)
| OriginMismatch (got : bytes) (want : list bytes)
| EmptyOrigin
| OriginTooLong (n : Z).

(** [fn preimage]. *)
Definition preimage (f : ChallengeFields) : result bytes ChallengeError :=
  let olen := Z.of_nat (length (origin f)) in
  if olen =? 0 then Err EmptyOrigin
  else if U16_MAX <? olen then Err (OriginTooLong olen)
  else Ok (DOMAIN_TAG ++ account f ++ batch f ++ to_be_bytes 8 (expiry_unix f)
             ++ to_be_bytes 16 (cap_plur f) ++ to_be_bytes 2 (wrap 16 olen) ++ origin f).

(** [fn constant_time_eq]. *)
Definition constant_time_eq (a b : bytes) : bool :=
  Nat.eqb (length a) (length b) &&
  (foldl (fun acc xy => Z.lor acc (Z.lxor xy.1 xy.2)) 0 (zip a b) =? 0).

(** [struct IssuedChallenge] and [struct PresentedChallenge]. *)
Record IssuedChallenge := mkIssued { i_fields : ChallengeFields; i_nonce : bytes }.
Record PresentedChallenge := mkPresented { p_fields : ChallengeFields; p_nonce : bytes; p_sig : bytes }.

(** ** JSON objects: the members the code writes and reads *)

Inductive JField := JStr (s : str) | JU64 (n : Z) | JOther.
Inductive JValue := JObject (m : gmap str JField) | JNotObject.

Definition jget (v : JValue) (k : str) : option JField :=
  match v with JObject m => m !! k | JNotObject => None end.
Definition as_str (f : option JField) : option str := match f with Some (JStr s) => Some s | _ => None end.
Definition as_u64 (f : option JField) : option Z := match f with Some (JU64 n) => Some n | _ => None end.

(** [serde_json] and [base64] as the codecs of the header. *)
Class HeaderCodec := {
  json_to_string : JValue -> bytes;
  json_from_slice : bytes -> result JValue str;
  b64_encode : bytes -> str;
  b64_decode : str -> result bytes str }.

Class HeaderCodecLaws (C : HeaderCodec) : Prop := {
  json_roundtrip : forall v, json_from_slice (json_to_string v) = Ok v;
  b64_roundtrip : forall b, b64_decode (b64_encode b) = Ok b;
  b64_alphabet : forall b, Forall (fun c => is_whitespace c = false /\ c <> 34) (b64_encode b);
  b64_expands : forall b, (length b <= length (b64_encode b))%nat }.

Lemma b64_no_space `{HeaderCodecLaws} b : Forall (fun c => is_whitespace c = false) (b64_encode b).
Proof. eapply Forall_impl; [apply b64_alphabet|]. by intros c [? _]. Qed.

Definition hex0x `{Hex} (b : bytes) : str := lit "0x" ++ hex_encode b.

Section Relay.
Context `{Crypto}.

(** [fn nonce]. *)
Definition nonce (secret : bytes) (f : ChallengeFields) : result bytes ChallengeError :=
  let? p := preimage f in Ok (keccak256 (secret ++ p)).

(** [fn verify]. *)
Definition verify (secret : bytes) (f : ChallengeFields) (presented : bytes) (now_unix : Z)
    (origins : list bytes) : result unit ChallengeError :=
  if negb (existsb (fun o => bool_decide (o = origin f)) origins)
  then Err (OriginMismatch (origin f) origins)
  else
    let? want := nonce secret f in
    if negb (constant_time_eq presented want) then Err BadMac
    else if expiry_unix f <? now_unix then Err (Expired (now_unix - expiry_unix f))
    else Ok tt.
End Relay.

Section Header.
Context `{Hex} `{HeaderCodec}.

(** The members common to [to_json] and [encode_challenge_header]. *)
Definition challenge_members (i : IssuedChallenge) : gmap str JField :=
  <[lit "nonce" := JStr (hex0x (i_nonce i))]>
  (<[lit "account" := JStr (hex0x (account (i_fields i)))]>
  (<[lit "batch" := JStr (hex0x (batch (i_fields i)))]>
  (<[lit "origin" := JStr (origin (i_fields i))]>
  (<[lit "expiry" := JU64 (expiry_unix (i_fields i))]>
  (<[lit "max_outstanding_plur" := JStr (u128_to_string (cap_plur (i_fields i)))]> ∅))))).

(** [IssuedChallenge::to_json]. *)
Definition to_json (i : IssuedChallenge) : JValue :=
  JObject (<[lit "expires_ms" := JU64 (sat_mul U64_MAX (expiry_unix (i_fields i)) 1000)]> (challenge_members i)).

(** [fn encode_challenge_header]. *)
Definition encode_challenge_header (i : IssuedChallenge) (sig : bytes) : str :=
  b64_encode (json_to_string (JObject (<[lit "sig" := JStr (hex0x sig)]> (challenge_members i)))).

(** The closures [get] and [fixed] of [PresentedChallenge::decode]. *)
Definition header_get (v : JValue) (k : str) : result str str :=
  match as_str (jget v k) with Some s => Ok s | None => Err (lit "challenge header: missing " ++ k) end.

Definition header_fixed (v : JValue) (k : str) (n : nat) : result bytes str :=
  let? s := header_get v k in
  let? raw := map_err (fun e => lit "challenge " ++ k ++ lit " hex: " ++ e) (hex_decode (trim_0x s)) in
  if negb (Nat.eqb (length raw) n)
  then Err (lit "challenge " ++ k ++ lit " must be " ++ u128_to_string (Z.of_nat n) ++ lit " bytes, got "
              ++ u128_to_string (Z.of_nat (length raw)))
  else Ok raw.

(** [PresentedChallenge::decode]. *)
Definition decode_header (raw : str) : result PresentedChallenge str :=
  let? body := map_err (fun e => lit "challenge header base64: " ++ e) (b64_decode (trim raw)) in
  let? v := map_err (fun e => lit "challenge header json: " ++ e) (json_from_slice body) in
  let? a := header_fixed v (lit "account") 20 in
  let? b := header_fixed v (lit "batch") 32 in
  let? n := header_fixed v (lit "nonce") 32 in
  let? s := header_fixed v (lit "sig") 65 in
  let? e := match as_u64 (jget v (lit "expiry")) with
            | Some e => Ok e | None => Err (lit "challenge header: missing expiry") end in
  let? cap_text := header_get v (lit "max_outstanding_plur") in
  let? c := match u128_parse cap_text with Ok c => Ok c | Err _ => Err (lit "challenge cap: ") end in
  let? o := header_get v (lit "origin") in
  Ok (mkPresented (mkFields a b o e c) n s).
End Header.

(** ** Well-formed fields and the MAC's input *)

Record fields_ok (f : ChallengeFields) : Prop := {
  f_account : length (account f) = 20%nat /\ all_bytes (account f);
  f_batch : length (batch f) = 32%nat /\ all_bytes (batch f);
  f_expiry : u64 (expiry_unix f);
  f_cap : u128 (cap_plur f) }.

Lemma preimage_ok f p : preimage f = Ok p ->
  p = DOMAIN_TAG ++ account f ++ batch f ++ to_be_bytes 8 (expiry_unix f) ++ to_be_bytes 16 (cap_plur f)
        ++ to_be_bytes 2 (Z.of_nat (length (origin f))) ++ origin f.
Proof.
  unfold preimage. destruct (Z.eqb_spec (Z.of_nat (length (origin f))) 0); [done|].
  destruct (Z.ltb_spec U16_MAX (Z.of_nat (length (origin f)))); [done|]. 
  unfold wrap. rewrite Z.mod_small by (change (2 ^ 16) with 65536; lia). congruence.
Qed.

Lemma preimage_inj f f' p : fields_ok f -> fields_ok f' ->
  preimage f = Ok p -> preimage f' = Ok p -> f = f'.
Proof.
  intros [[Ha _] [Hb _] He Hc] [[Ha' _] [Hb' _] He' Hc'] Hp Hp'.
  apply preimage_ok in Hp. apply preimage_ok in Hp'. rewrite Hp in Hp'. clear Hp.
  apply (inj (DOMAIN_TAG ++.)) in Hp'.
  apply app_inj_len in Hp' as [Ea E]; [|congruence].
  apply app_inj_len in E as [Eb E]; [|congruence].
  apply app_inj_len in E as [Ee E]; [|by rewrite !to_be_bytes_length].
  apply app_inj_len in E as [Ec E]; [|by rewrite !to_be_bytes_length].
  apply app_inj_len in E as [_ Eo]; [|by rewrite !to_be_bytes_length].
  apply to_be_bytes_inj in Ee; [|change (256 ^ Z.of_nat 8) with (2 ^ 64); lia..].
  apply to_be_bytes_inj in Ec; [|change (256 ^ Z.of_nat 16) with (2 ^ 128); lia..].
  destruct f, f'; simpl in *; congruence.
Qed.

Lemma lor_fold_zero xs acc : Forall (fun x => 0 <= x) xs -> 0 <= acc ->
  (foldl Z.lor acc xs = 0 <-> acc = 0 /\ Forall (fun x => x = 0) xs).
Proof.
  intros Hx. revert acc. induction Hx as [|x xs Hx _ IH]; intros acc Ha; simpl.
  - split; [by intros ->; split|by intros [? _]].
  - rewrite IH by (apply Z.lor_nonneg; lia). rewrite Z.lor_eq_0_iff, Forall_cons. tauto.
Qed.

Lemma constant_time_eq_spec a b : all_bytes a -> all_bytes b ->
  constant_time_eq a b = bool_decide (a = b).
Proof.
  intros Ha Hb. unfold constant_time_eq.
  destruct (Nat.eqb_spec (length a) (length b)) as [Hl|Hl]; simpl;
    [|symmetry; apply bool_decide_eq_false_2; congruence].
  assert (E : foldl (fun acc (xy : Z * Z) => Z.lor acc (Z.lxor xy.1 xy.2)) 0 (zip a b) =
    foldl Z.lor 0 (zip_with Z.lxor a b)).
  { generalize 0. clear Ha Hb. revert b Hl. induction a as [|x a IH]; intros [|y b] Hl acc; try done.
    simpl. apply IH. by injection Hl. }
  rewrite E. clear E.
  assert (Hn : Forall (fun x => 0 <= x) (zip_with Z.lxor a b)).
  { revert b Hb Hl. induction Ha as [|x a Hx Ha IH]; intros b [|y b' Hy Hb'] Hl; try done.
    simpl. constructor; [apply Z.lxor_nonneg; unfold is_byte in *; lia|]. apply IH; [done|by injection Hl]. }
  pose proof (lor_fold_zero _ 0 Hn ltac:(lia)) as Hz.
  assert (Hab : Forall (fun x => x = 0) (zip_with Z.lxor a b) <-> a = b).
  { clear -Hl. revert b Hl. induction a as [|x a IH]; intros [|y b] Hl; try done. simpl.
    injection Hl as Hl. rewrite Forall_cons, (IH b Hl), Z.lxor_eq_0_iff. naive_solver. }
  rewrite Hab in Hz. destruct (Z.eqb_spec (foldl Z.lor 0 (zip_with Z.lxor a b)) 0) as [E|E].
  - symmetry. apply bool_decide_eq_true_2. by apply Hz.
  - symmetry. apply bool_decide_eq_false_2. intros ->. apply E. by apply Hz.
Qed.

Lemma verify_ok_iff `{Crypto} secret f presented now origins :
  (forall b, all_bytes (keccak256 b)) -> all_bytes presented ->
  (verify secret f presented now origins = Ok tt <->
   origin f ∈ origins /\ nonce secret f = Ok presented /\ now <= expiry_unix f).
Proof.
  intros Hk Hp. unfold verify.
  assert (Ho : existsb (fun o => bool_decide (o = origin f)) origins = true <-> origin f ∈ origins).
  { rewrite existsb_exists. split.
    - intros (o & Hin & E%bool_decide_eq_true). subst. by apply list_elem_of_In.
    - intros Hin. exists (origin f). split; [by apply list_elem_of_In|by apply bool_decide_eq_true_2]. }
  destruct (existsb _ origins) eqn:E; simpl; [|by split; [|intros [Hin _]; apply Ho in Hin]].
  destruct (nonce secret f) as [want|e] eqn:En; simpl; [|by split; [|intros (_ & ? & _)]].
  assert (Hw : all_bytes want).
  { unfold nonce in En. destruct (preimage f); simpl in En; [|done]. injection En as <-. apply Hk. }
  rewrite constant_time_eq_spec by done. case_bool_decide as Eq; simpl.
  - subst. destruct (Z.ltb_spec (expiry_unix f) now).
    + split; [done|]. intros (_ & _ & ?). lia.
    + split; [|done]. intros _. split_and!; [by apply Ho|done|lia].
  - split; [done|]. intros (_ & [= ->] & _). done.
Qed.

(** ** Properties *)

(** C12: a challenge cannot be altered.  If the relay accepts fields [f] with a nonce
    that was issued for fields [f'], then [f] is [f'], unless two different
    inputs that hash to the same value have been found; and what is accepted
    names a configured origin and has not expired. *)
Theorem challenge_unforgeable `{Crypto} secret f f' n now origins :
  (forall b, all_bytes (keccak256 b)) -> all_bytes n -> fields_ok f -> fields_ok f' ->
  nonce secret f' = Ok n -> verify secret f n now origins = Ok tt ->
  origin f ∈ origins /\ now <= expiry_unix f /\
  (f = f' \/ exists x y, x <> y /\ keccak256 x = keccak256 y).
Proof.
  intros Hk Hn Hf Hf' Hi Hv. apply verify_ok_iff in Hv as (Ho & Hn2 & He); [|done|done].
  split_and!; [done|done|]. unfold nonce in *.
  destruct (preimage f) as [p|] eqn:Ep; simpl in Hn2; [|done].
  destruct (preimage f') as [p'|] eqn:Ep'; simpl in Hi; [|done].
  destruct (decide (p = p')) as [->|Hne]; [left; by eapply preimage_inj|].
  right. exists (secret ++ p), (secret ++ p'). split; [|congruence]. intros E. by apply (inj (secret ++.)) in E.
Qed.

Lemma challenge_unforgeable_witness :
  let f := mkFields (replicate 20 1) (replicate 32 2) (lit "relay.example") 1000 77 in
  let n := @keccak256 toy_crypto (replicate 32 5 ++ match preimage f with Ok p => p | Err _ => [] end) in
  origin f ∈ [lit "relay.example"] /\ 900 <= 1000 /\
  (f = f \/ exists x y, x <> y /\ @keccak256 toy_crypto x = @keccak256 toy_crypto y).
Proof.
  cbv zeta.
  apply (@challenge_unforgeable toy_crypto (replicate 32 5)
    (mkFields (replicate 20 1) (replicate 32 2) (lit "relay.example") 1000 77)
    (mkFields (replicate 20 1) (replicate 32 2) (lit "relay.example") 1000 77)
    (@keccak256 toy_crypto (replicate 32 5 ++
       match preimage (mkFields (replicate 20 1) (replicate 32 2) (lit "relay.example") 1000 77)
       with Ok p => p | Err _ => [] end)) 900 [lit "relay.example"]).
  - exact toy_keccak_bytes.
  - apply toy_keccak_bytes.
  - split; [split; [done|by repeat constructor].. | cbn; lia | cbn; lia].
  - split; [split; [done|by repeat constructor].. | cbn; lia | cbn; lia].
  - by vm_compute.
  - by vm_compute.
Defined.

(** The comparison of MACs that does not stop early is equality of byte strings. *)
Theorem constant_time_eq_correct a b : all_bytes a -> all_bytes b ->
  constant_time_eq a b = true <-> a = b.
Proof. intros Ha Hb. by rewrite constant_time_eq_spec, bool_decide_eq_true by done. Qed.

Lemma constant_time_eq_correct_witness : constant_time_eq [1; 2] [1; 2] = true.
Proof. apply constant_time_eq_correct; [by repeat constructor..|done]. Defined.

(** ** The header *)

Lemma trim_start_none s : Forall (fun c => is_whitespace c = false) s -> trim_start s = s.
Proof. destruct 1 as [|c s Hc _]; [done|]. cbn [trim_start]. by rewrite Hc. Qed.

Lemma trim_none s : Forall (fun c => is_whitespace c = false) s -> trim s = s.
Proof.
  intros Hs. unfold trim. rewrite (trim_start_none s) by done.
  rewrite trim_start_none by (by apply Forall_reverse). apply reverse_involutive.
Qed.

(** Look up a literal key in a map built from literal insertions. *)
Ltac jlookup :=
  repeat first [rewrite lookup_insert_eq | rewrite lookup_insert_ne by (by vm_compute)].

Section HeaderRoundTrip.
Context `{HexLaws} `{HeaderCodecLaws}.

Lemma header_fixed_hex m k b : all_bytes b -> m !! k = Some (JStr (hex0x b)) ->
  header_fixed (JObject m) k (length b) = Ok b.
Proof.
  intros Hb Hk. unfold header_fixed, header_get. cbn [jget]. rewrite Hk. cbn [as_str result_bind].
  change (trim_0x (hex0x b)) with (trim_0x (hex_encode b)).
  rewrite trim_0x_hex, hex_roundtrip by done. cbn [map_err result_bind]. by rewrite Nat.eqb_refl.
Qed.

Lemma header_get_str m k s : m !! k = Some (JStr s) -> header_get (JObject m) k = Ok s.
Proof. intros Hk. unfold header_get. cbn [jget]. by rewrite Hk. Qed.

Lemma challenge_header_roundtrip' i sig :
  fields_ok (i_fields i) -> length (i_nonce i) = 32%nat -> all_bytes (i_nonce i) ->
  length sig = 65%nat -> all_bytes sig ->
  decode_header (encode_challenge_header i sig) = Ok (mkPresented (i_fields i) (i_nonce i) sig).
Proof.
  intros [[Hal Hab] [Hbl Hbb] He Hc] Hnl Hnb Hsl Hsb. unfold decode_header, encode_challenge_header.
  rewrite trim_none by apply b64_no_space. rewrite b64_roundtrip. cbn [map_err result_bind].
  rewrite json_roundtrip. cbn [map_err result_bind]. unfold challenge_members.
  rewrite <- Hal at 1. rewrite (header_fixed_hex _ (lit "account") (account (i_fields i)) Hab) by (by jlookup).
  cbn [result_bind].
  rewrite <- Hbl at 1. rewrite (header_fixed_hex _ (lit "batch") (batch (i_fields i)) Hbb) by (by jlookup).
  cbn [result_bind].
  rewrite <- Hnl at 1. rewrite (header_fixed_hex _ (lit "nonce") (i_nonce i) Hnb) by (by jlookup).
  cbn [result_bind].
  rewrite <- Hsl at 1. rewrite (header_fixed_hex _ (lit "sig") sig Hsb) by (by jlookup).
  cbn [result_bind jget].
  rewrite (header_get_str _ (lit "max_outstanding_plur") (u128_to_string (cap_plur (i_fields i)))) by (by jlookup).
  rewrite (header_get_str _ (lit "origin") (origin (i_fields i))) by (by jlookup).
  jlookup. cbn [as_u64 result_bind]. rewrite u128_roundtrip by done. cbn [result_bind].
  by destruct (i_fields i).
Qed.

(** What a client encodes in the challenge header is what the relay decodes:
    the same fields, nonce and signature. *)
Theorem challenge_header_roundtrip i sig :
  fields_ok (i_fields i) -> length (i_nonce i) = 32%nat -> all_bytes (i_nonce i) ->
  length sig = 65%nat -> all_bytes sig ->
  decode_header (encode_challenge_header i sig) = Ok (mkPresented (i_fields i) (i_nonce i) sig).
Proof. apply challenge_header_roundtrip'. Qed.
End HeaderRoundTrip.

(** A codec for applying the round trip. *)
#[export] Instance JField_eq_dec : EqDecision JField.
Proof. solve_decision. Defined.
#[export] Instance JField_countable : Countable JField.
Proof.
  apply (inj_countable' (fun f => match f with JStr s => inl s | JU64 n => inr (Some n) | JOther => inr None end)
    (fun x => match x with inl s => JStr s | inr (Some n) => JU64 n | inr None => JOther end)).
  by intros [].
Defined.
#[export] Instance JValue_eq_dec : EqDecision JValue.
Proof. solve_decision. Defined.
#[export] Instance JValue_countable : Countable JValue.
Proof.
  apply (inj_countable' (fun v => match v with JObject m => Some m | JNotObject => None end)
    (fun x => match x with Some m => JObject m | None => JNotObject end)). by intros [].
Defined.

Definition pack `{Countable A} (x : A) : list Z := [Z.pos (encode x) + 65536].
Definition unpack `{Countable A} (s : list Z) : result A str :=
  match s with
  | [c] => match decode (Z.to_pos (c - 65536)) with Some x => Ok x | None => Err (lit "invalid") end
  | _ => Err (lit "invalid")
  end.

Lemma unpack_pack `{Countable A} (x : A) : unpack (pack x) = Ok x.
Proof. unfold unpack, pack. by rewrite Z.add_simpl_r, Pos2Z.id, decode_encode. Qed.

Definition plain_header : HeaderCodec := {|
  json_to_string := pack; json_from_slice := unpack;
  b64_encode := fun b => pack b ++ replicate (length b) 65;
  b64_decode := fun s => unpack (take 1 s) |}.

Lemma plain_header_laws : HeaderCodecLaws plain_header.
Proof.
  split; cbn [plain_header json_to_string json_from_slice b64_encode b64_decode].
  - intros v. apply unpack_pack.
  - intros b. apply unpack_pack.
  - intros b. apply Forall_app. split; [|by apply Forall_replicate]. constructor; [|constructor].
    split; [|lia]. unfold is_whitespace.
    assert (65536 < Z.pos (encode b) + 65536) by lia. set (z := Z.pos (encode b) + 65536) in *. clearbody z.
    repeat match goal with
    | |- context [?x <=? z] => rewrite (proj2 (Z.leb_le x z)) by lia
    | |- context [z <=? ?x] => rewrite (proj2 (Z.leb_gt z x)) by lia
    | |- context [z =? ?x] => rewrite (proj2 (Z.eqb_neq z x)) by lia
    end. done.
  - intros b. rewrite length_app, length_replicate. lia.
Qed.

Lemma challenge_header_roundtrip_witness :
  let f := mkFields (replicate 20 1) (replicate 32 2) (lit "relay.example") 1000 77 in
  let i := mkIssued f (replicate 32 3) in
  @decode_header plain_hex plain_header (@encode_challenge_header plain_hex plain_header i (replicate 65 4))
    = Ok (mkPresented f (replicate 32 3) (replicate 65 4)).
Proof.
  cbv zeta.
  apply (@challenge_header_roundtrip plain_hex plain_hex_laws plain_header plain_header_laws
    (mkIssued (mkFields (replicate 20 1) (replicate 32 2) (lit "relay.example") 1000 77) (replicate 32 3))
    (replicate 65 4)).
  - split; [split; [done|by repeat constructor].. | cbn; lia | cbn; lia].
  - done.
  - by repeat constructor.
  - done.
  - by repeat constructor.
Defined.
