(* ===== verification/Swap.v ===== *)
(** * Cheques on the wire ([src/src/protocols/swap.rs])

    The hand-written JSON of a signed cheque, and the decoder that takes the
    amount from the raw bytes rather than from the JSON parser. *)
From Stdlib Require Import ZArith Lia.
From stdpp Require Import base tactics numbers strings list gmap.
From S2P Require Import Prelude Codec Signer Challenge.
Local Open Scope Z_scope.
Local Open Scope hov_scope.

Definition U256_MAX : Z := 2 ^ 256 - 1.
Definition MAX_CHEQUE_JSON : nat := 4096.

(** [struct SignedCheque]. *)
Record SignedCheque := mkSigned {
  sc_chequebook : bytes; sc_beneficiary : bytes; cumulative_payout : Z; sc_signature : bytes }.

(** Decimal digits of a [U256]: at most 78. *)
Definition u256_to_string (n : Z) : str := dec_digits 78 n [].

(** [U256::from_str_radix(digits, 10)]. *)
Fixpoint u256_digits (acc : Z) (s : str) : result Z str :=
  match s with
  | [] => Ok acc
  | c :: s' => let acc := acc * 10 + (c - 48) in
      if acc <=? U256_MAX then u256_digits acc s' else Err (lit "number too large")
  end.

Definition dquote : str := [34].

(** [const KEY] of [extract_cumulative]. *)
Definition CUMULATIVE_KEY : bytes := dquote ++ lit "CumulativePayout" ++ dquote.

(** The offsets at which [key] occurs, ascending. *)
Fixpoint occurrences (key s : bytes) (at_ : nat) : list nat :=
  match s with
  | [] => if bool_decide (key = []) then [at_] else []
  | _ :: s' =>
      (if bool_decide (take (length key) s = key) then [at_] else []) ++ occurrences key s' (S at_)
  end.

(** [u8::is_ascii_whitespace] and [u8::is_ascii_digit]. *)
Definition is_ascii_ws (c : Z) : bool := (c =? 9) || (c =? 10) || (c =? 12) || (c =? 13) || (c =? 32).
Definition is_ascii_digit (c : Z) : bool := (48 <=? c) && (c <=? 57).

Fixpoint skip_ws (s : bytes) : bytes :=
  match s with c :: s' => if is_ascii_ws c then skip_ws s' else s | [] => [] end.

Fixpoint span_digits (s : bytes) : bytes * bytes :=
  match s with
  | c :: s' => if is_ascii_digit c then let '(d, r) := span_digits s' in (c :: d, r) else ([], s)
  | [] => ([], [])
  end.

Definition BARE_INTEGER : str := lit "CumulativePayout must be a bare JSON integer, as Go emits it".

(** [fn extract_cumulative]. *)
Definition extract_cumulative (b : bytes) : result Z str :=
  match occurrences CUMULATIVE_KEY b 0 with
  | [] => Err (lit "missing CumulativePayout")
  | _ :: _ :: _ => Err (lit "duplicate CumulativePayout key")
  | [at_] =>
      match skip_ws (drop (at_ + length CUMULATIVE_KEY) b) with
      | 58 :: rest =>
          let '(digits, after) := span_digits (skip_ws rest) in
          match digits with
          | [] => Err BARE_INTEGER
          | _ =>
              if match after with
                 | [] => true
                 | c :: _ => (c =? 44) || (c =? 125) || is_ascii_ws c
                 end
              then map_err (fun e => lit "CumulativePayout overflows u256: " ++ e) (u256_digits 0 digits)
              else Err BARE_INTEGER
          end
      | _ => Err (lit "CumulativePayout is not a field")
      end
  end.

Section WithCodecs.
Context `{Hex} `{HeaderCodec}.

(** [s.trim_start_matches("0x").trim_start_matches("0X")]. *)
Fixpoint trim_0X (s : str) : str :=
  match s with 48 :: 88 :: s' => trim_0X s' | _ => s end.

(** [fn json_address]. *)
Definition json_address (v : JValue) (field : str) : result bytes str :=
  match as_str (jget v field) with
  | None => Err (lit "missing " ++ field)
  | Some s =>
      let? raw := map_err (fun e => field ++ lit " not hex: " ++ e) (hex_decode (trim_0X (trim_0x s))) in
      if negb (Nat.eqb (length raw) 20)
      then Err (field ++ lit " must be 20 bytes, got " ++ u128_to_string (Z.of_nat (length raw)))
      else Ok raw
  end.

(** [fn decode_signed_cheque_json]; its errors are the texts of [SwapError::Json]. *)
Definition decode_signed_cheque_json (b : bytes) : result SignedCheque str :=
  if (MAX_CHEQUE_JSON <? length b)%nat
  then Err (lit "cheque body too large: " ++ u128_to_string (Z.of_nat (length b)) ++ lit " bytes (max 4096)")
  else
    let? v := json_from_slice b in
    let? cb := json_address v (lit "Chequebook") in
    let? bn := json_address v (lit "Beneficiary") in
    let? cum := extract_cumulative b in
    match as_str (jget v (lit "Signature")) with
    | None => Err (lit "missing Signature")
    | Some s =>
        let? sig := map_err (fun e => lit "Signature base64: " ++ e) (b64_decode s) in
        let? _ := map_err (fun e => match e with Alloy msg => msg end) (check_canonical_signature sig) in
        Ok (mkSigned cb bn cum sig)
    end.

(** [fn encode_signed_cheque_json]. *)
Definition encode_signed_cheque_json (cb bn : bytes) (cum : Z) (sig : bytes) : bytes :=
  lit "{" ++ dquote ++ lit "Chequebook" ++ dquote ++ lit ":" ++ dquote ++ hex0x cb ++ dquote ++ lit "," ++
  dquote ++ lit "Beneficiary" ++ dquote ++ lit ":" ++ dquote ++ hex0x bn ++ dquote ++ lit "," ++
  CUMULATIVE_KEY ++ lit ":" ++ u256_to_string cum ++ lit "," ++
  dquote ++ lit "Signature" ++ dquote ++ lit ":" ++ dquote ++ b64_encode sig ++ dquote ++ lit "}".
End WithCodecs.

(** ** Properties *)

(** The number a digit string denotes. *)
Definition digits_value (acc : Z) (s : str) : Z := foldl (fun a c => a * 10 + (c - 48)) acc s.

Lemma dec_digits_value fuel n acc : 0 <= n < 10 ^ Z.of_nat fuel -> (0 < fuel)%nat ->
  exists ds, dec_digits fuel n acc = ds ++ acc /\ ds <> [] /\ Forall (fun c => 48 <= c <= 57) ds /\
    digits_value 0 ds = n.
Proof.
  revert n acc. induction fuel as [|fuel IH]; intros n acc Hn Hf; [lia|].
  pose proof (Z.mod_pos_bound n 10 ltac:(lia)). pose proof (Z.div_mod n 10 ltac:(lia)).
  cbn [dec_digits]. destruct (Z.eqb_spec (n / 10) 0) as [E|E].
  - exists [48 + n mod 10]. split_and!; [done|done|constructor; [lia|constructor]|].
    unfold digits_value. cbn [foldl]. lia.
  - rewrite Nat2Z.inj_succ, Z.pow_succ_r in Hn by lia.
    assert (fuel <> 0%nat) by (intros ->; simpl in Hn; lia).
    destruct (IH (n / 10) ((48 + n mod 10) :: acc)) as (ds & Eds & Hne & Hall & Hv).
    { split; [apply Z.div_pos; lia|apply Z.div_lt_upper_bound; lia]. }
    { lia. }
    exists (ds ++ [48 + n mod 10]). rewrite Eds, <- app_assoc. split_and!; [done|by destruct ds| |].
    + apply Forall_app; split; [done|]. constructor; [lia|constructor].
    + unfold digits_value in *. rewrite foldl_app, Hv. cbn [foldl]. lia.
Qed.

Lemma digits_value_ge s acc : 0 <= acc -> Forall (fun c => 48 <= c <= 57) s -> acc <= digits_value acc s.
Proof.
  intros Ha Hs. revert acc Ha. induction Hs as [|c s Hc _ IH]; intros acc Ha; unfold digits_value; cbn [foldl]; [lia|].
  fold (digits_value (acc * 10 + (c - 48)) s). specialize (IH (acc * 10 + (c - 48)) ltac:(lia)). lia.
Qed.

Lemma u256_digits_value s acc : 0 <= acc -> Forall (fun c => 48 <= c <= 57) s ->
  digits_value acc s <= U256_MAX -> u256_digits acc s = Ok (digits_value acc s).
Proof.
  intros Ha Hs. revert acc Ha. induction Hs as [|c s Hc Hs IH]; intros acc Ha Hm; [done|].
  cbn [u256_digits]. unfold digits_value in Hm |- *. cbn [foldl] in Hm |- *.
  fold (digits_value (acc * 10 + (c - 48)) s) in Hm |- *.
  pose proof (digits_value_ge s (acc * 10 + (c - 48)) ltac:(lia) Hs).
  rewrite (proj2 (Z.leb_le _ _)) by lia. apply IH; [lia|done].
Qed.

Lemma span_digits_app ds r : Forall (fun c => 48 <= c <= 57) ds ->
  match r with c :: _ => is_ascii_digit c = false | [] => True end -> span_digits (ds ++ r) = (ds, r).
Proof.
  intros Hd Hr. induction Hd as [|c ds Hc _ IH]; cbn [app span_digits].
  - destruct r as [|c r]; [done|]. cbn [span_digits]. by rewrite Hr.
  - unfold is_ascii_digit. rewrite (proj2 (Z.leb_le _ _)), (proj2 (Z.leb_le _ _)) by lia. simpl. by rewrite IH.
Qed.

(** *** Where the key can start *)

Lemma occ_cons c r n : occurrences CUMULATIVE_KEY (c :: r) n =
  (if bool_decide (take 18 (c :: r) = CUMULATIVE_KEY) then [n] else []) ++ occurrences CUMULATIVE_KEY r (S n).
Proof. done. Qed.

(** A position whose first three bytes are not those of the key. *)
Definition not_key (s : bytes) : bool :=
  match s with
  | a :: b :: c :: _ => negb ((a =? 34) && (b =? 67) && (c =? 117))
  | _ => true
  end.

Lemma occ_skip c r n : not_key (c :: r) = true ->
  occurrences CUMULATIVE_KEY (c :: r) n = occurrences CUMULATIVE_KEY r (S n).
Proof.
  intros Hk. rewrite occ_cons, bool_decide_eq_false_2; [done|]. intros E.
  destruct r as [|b [|d r]]; [done|done|]. injection E as -> -> -> _. done.
Qed.

Lemma occ_skip_noquote s r n : Forall (fun c => c <> 34) s ->
  occurrences CUMULATIVE_KEY (s ++ r) n = occurrences CUMULATIVE_KEY r (n + length s).
Proof.
  intros Hs. revert n. induction Hs as [|c s Hc _ IH]; intros n; [by rewrite Nat.add_0_r|].
  cbn [app]. rewrite occ_skip.
  - rewrite IH. cbn [length]. f_equal. lia.
  - unfold not_key. rewrite (proj2 (Z.eqb_neq c 34)) by done. by destruct (s ++ r) as [|? [|? ?]].
Qed.

Lemma occ_skip_char c r n : c <> 34 ->
  occurrences CUMULATIVE_KEY (c :: r) n = occurrences CUMULATIVE_KEY r (S n).
Proof.
  intros Hc. change (c :: r) with ([c] ++ r). rewrite occ_skip_noquote by (by constructor).
  f_equal. simpl. lia.
Qed.

Lemma occ_skip_quote d r n : d <> 67 ->
  occurrences CUMULATIVE_KEY (34 :: d :: r) n = occurrences CUMULATIVE_KEY (d :: r) (S n).
Proof.
  intros Hd. apply occ_skip. unfold not_key. rewrite (proj2 (Z.eqb_neq d 67)) by done. by destruct r.
Qed.

Lemma occ_skip_quoteC d r n : d <> 117 ->
  occurrences CUMULATIVE_KEY (34 :: 67 :: d :: r) n = occurrences CUMULATIVE_KEY (67 :: d :: r) (S n).
Proof. intros Hd. apply occ_skip. unfold not_key. by rewrite (proj2 (Z.eqb_neq d 117)). Qed.

(** A quoted run of at least 17 characters without a quote is not the key. *)
Lemma occ_skip_long w r n : Forall (fun c => c <> 34) w -> (17 <= length w)%nat ->
  occurrences CUMULATIVE_KEY (34 :: w ++ r) n = occurrences CUMULATIVE_KEY (w ++ r) (S n).
Proof.
  intros Hw Hl. rewrite occ_cons, bool_decide_eq_false_2; [done|]. intros E.
  apply (f_equal (lookup 17%nat)) in E. rewrite lookup_take_lt in E by lia.
  change ((34 :: w ++ r) !! 17%nat) with ((w ++ r) !! 16%nat) in E.
  rewrite lookup_app_l in E by lia. change (CUMULATIVE_KEY !! 17%nat) with (Some 34) in E.
  by apply (Forall_lookup_1 _ _ _ _ Hw) in E.
Qed.

Ltac occ_step :=
  first [ rewrite occ_skip_char by discriminate | rewrite occ_skip_quote by discriminate
        | rewrite occ_skip_quoteC by discriminate ].

Section Amount.
Context `{HexLaws} `{HeaderCodecLaws}.

Lemma hex0x_noquote b : Forall (fun c => c <> 34) (hex_encode b).
Proof. eapply Forall_impl; [apply hex_digits|]. by intros c Hc ->. Qed.

(** The text around the key. *)
Definition json_head (cb bn : bytes) : bytes :=
  lit "{" ++ dquote ++ lit "Chequebook" ++ dquote ++ lit ":" ++ dquote ++ hex0x cb ++ dquote ++ lit "," ++
  dquote ++ lit "Beneficiary" ++ dquote ++ lit ":" ++ dquote ++ hex0x bn ++ dquote ++ lit ",".
Definition json_sig (sig : bytes) : bytes :=
  dquote ++ lit "Signature" ++ dquote ++ lit ":" ++ dquote ++ b64_encode sig ++ dquote ++ lit "}".
Definition json_tail (cum : Z) (sig : bytes) : bytes :=
  lit ":" ++ u256_to_string cum ++ lit "," ++ json_sig sig.

Lemma cheque_json_split cb bn cum sig :
  encode_signed_cheque_json cb bn cum sig = json_head cb bn ++ CUMULATIVE_KEY ++ json_tail cum sig.
Proof.
  unfold encode_signed_cheque_json, json_head, json_tail, json_sig. by rewrite <- ?app_assoc.
Qed.

Lemma occ_head cb bn r :
  occurrences CUMULATIVE_KEY (json_head cb bn ++ 34 :: r) 0 = occurrences CUMULATIVE_KEY (34 :: r) (length (json_head cb bn)).
Proof.
  unfold json_head, hex0x. rewrite <- !app_assoc. cbn [app lit dquote].
  repeat occ_step. rewrite occ_skip_noquote by apply hex0x_noquote.
  repeat occ_step. rewrite occ_skip_noquote by apply hex0x_noquote.
  repeat occ_step. f_equal. simpl. rewrite !length_app. simpl. rewrite !length_app. simpl. lia.
Qed.

Lemma occ_tail cum sig n : 0 <= cum <= U256_MAX -> length sig = 65%nat ->
  occurrences CUMULATIVE_KEY (json_tail cum sig) n = [].
Proof.
  intros Hc Hs. destruct (dec_digits_value 78 cum []) as (ds & Eds & _ & Hall & _).
  { split; [lia|]. eapply Z.le_lt_trans; [apply Hc|]. by vm_compute. }
  { lia. }
  unfold json_tail, json_sig, u256_to_string. rewrite Eds, app_nil_r. cbn [app lit dquote].
  repeat occ_step. rewrite occ_skip_noquote by (eapply Forall_impl; [exact Hall|]; intros c ?; cbn beta in *; lia).
  repeat occ_step.
  assert (Hb : Forall (fun c => c <> 34) (b64_encode sig)).
  { eapply Forall_impl; [apply b64_alphabet|]. by intros c [_ ?]. }
  rewrite occ_skip_long by (try done; pose proof (b64_expands sig); lia).
  rewrite occ_skip_noquote by done. repeat occ_step. done.
Qed.

Lemma cheque_key_once cb bn cum sig : 0 <= cum <= U256_MAX -> length sig = 65%nat ->
  occurrences CUMULATIVE_KEY (json_head cb bn ++ CUMULATIVE_KEY ++ json_tail cum sig) 0 = [length (json_head cb bn)].
Proof.
  intros Hc Hs. change (CUMULATIVE_KEY ++ json_tail cum sig) with (34 :: tail CUMULATIVE_KEY ++ json_tail cum sig).
  rewrite occ_head, occ_cons, bool_decide_eq_true_2 by done. cbn [tail CUMULATIVE_KEY app lit dquote].
  rewrite !occ_skip_char by discriminate. 
  change (json_tail cum sig) with (58 :: u256_to_string cum ++ lit "," ++ json_sig sig).
  rewrite occ_skip_quote by discriminate.
  change (58 :: u256_to_string cum ++ lit "," ++ json_sig sig) with (json_tail cum sig).
  by rewrite occ_tail.
Qed.

(** The amount on a cheque is exact.  Reading the amount out of the JSON that
    encodes a cheque gives the encoded number, for every 256-bit amount: the key
    is found once, whatever the addresses and the signature are, and no precision
    is lost. *)
Theorem cheque_amount_roundtrip cb bn cum sig : 0 <= cum <= U256_MAX -> length sig = 65%nat ->
  extract_cumulative (encode_signed_cheque_json cb bn cum sig) = Ok cum.
Proof.
  intros Hc Hs. rewrite cheque_json_split. unfold extract_cumulative.
  rewrite cheque_key_once by done.
  rewrite <- (length_app (json_head cb bn) CUMULATIVE_KEY), app_assoc, drop_app_length.
  destruct (dec_digits_value 78 cum []) as (ds & Eds & Hne & Hall & Hv).
  { split; [lia|]. eapply Z.le_lt_trans; [apply Hc|]. by vm_compute. }
  { lia. }
  unfold json_tail, u256_to_string. rewrite Eds, app_nil_r.
  change (lit ":" ++ ?r) with (58 :: r). cbn [skip_ws is_ascii_ws Z.eqb Pos.eqb orb].
  assert (Hws : skip_ws (ds ++ lit "," ++ json_sig sig) = ds ++ lit "," ++ json_sig sig).
  { destruct Hall as [|d ds Hd _]; [done|]. cbn [app skip_ws]. unfold is_ascii_ws.
    by rewrite !(proj2 (Z.eqb_neq d _)) by lia. }
  rewrite Hws, span_digits_app by done. destruct ds as [|d ds]; [done|].
  cbn [app lit]. rewrite u256_digits_value by (try done; lia). by rewrite Hv.
Qed.
End Amount.

Lemma cheque_amount_roundtrip_witness :
  extract_cumulative (@encode_signed_cheque_json plain_hex plain_header (replicate 20 1) (replicate 20 2)
    100000000000000000000000000 (replicate 65 3)) = Ok 100000000000000000000000000.
Proof.
  apply (@cheque_amount_roundtrip plain_hex plain_hex_laws plain_header plain_header_laws);
    [unfold U256_MAX; lia|done].
Defined.
