(* ===== verification/InboundLimit.v ===== *)
(** * Inbound rate limiting ([src/src/inbound_limit.rs])

    Token buckets per key in a bounded map.  An [Instant] is a number of
    nanoseconds; tokens are binary64 numbers. *)
From Stdlib Require Import ZArith Lia.
From stdpp Require Import base tactics numbers strings list gmap.
From S2P Require Import Prelude F64.
Local Open Scope Z_scope.

(** [struct Bucket] and [struct InboundLimiter]. *)
Record Bucket := mkBucket { tokens : f64; last : Z }.

Record InboundLimiter := mkLimiter {
  buckets : gmap bytes Bucket;
  cap : nat;
  rate : f64;
  burst : f64 }.

(** [Bucket::refill] and [Bucket::is_full]. *)
Definition refill (b : Bucket) (now : Z) (r bu : f64) : Bucket :=
  let dt := as_secs_f64 (sat_sub now (last b)) in
  mkBucket (f64_min (f64_add (tokens b) (f64_mul dt r)) bu) now.

Definition is_full (b : Bucket) (bu : f64) : bool := f64_le bu (tokens b).

(** [InboundLimiter::new]. *)
Definition limiter_new (rate_per_sec bu : f64) (c : nat) : InboundLimiter :=
  mkLimiter ∅ (Nat.max c 1) (f64_max rate_per_sec F64_MIN_POSITIVE) (f64_max bu f64_1).

(** [InboundLimiter::sweep]. *)
Definition sweep (l : InboundLimiter) (now : Z) : InboundLimiter :=
  let refilled := (fun b => refill b now (rate l) (burst l)) <$> buckets l in
  mkLimiter (filter (fun kb => is_full kb.2 (burst l) = false) refilled) (cap l) (rate l) (burst l).

Definition set_bucket (l : InboundLimiter) (key : bytes) (b : Bucket) : InboundLimiter :=
  mkLimiter (<[key := b]> (buckets l)) (cap l) (rate l) (burst l).

(** [InboundLimiter::allow_at]. *)
Definition allow_at (l : InboundLimiter) (key : bytes) (now : Z) : InboundLimiter * bool :=
  match buckets l !! key with
  | Some b =>
      let b := refill b now (rate l) (burst l) in
      if f64_lt (tokens b) f64_1 then (set_bucket l key b, false)
      else (set_bucket l key (mkBucket (f64_sub (tokens b) f64_1) (last b)), true)
  | None =>
      let fresh l := set_bucket l key (mkBucket (f64_sub (burst l) f64_1) now) in
      if (cap l <=? size (buckets l))%nat then
        let l := sweep l now in
        if (cap l <=? size (buckets l))%nat then (l, false) else (fresh l, true)
      else (fresh l, true)
  end.

(** [InboundLimiter::tracked]. *)
Definition tracked (l : InboundLimiter) : nat := size (buckets l).

(** ** Properties *)

(** Requests at their times, with the answers they got. *)
Fixpoint serve (l : InboundLimiter) (reqs : list (bytes * Z)) : InboundLimiter * list bool :=
  match reqs with
  | [] => (l, [])
  | (k, now) :: reqs' =>
      let '(l', ok) := allow_at l k now in
      let '(l'', oks) := serve l' reqs' in (l'', ok :: oks)
  end.

Lemma set_bucket_size l key b : (size (buckets (set_bucket l key b)) <= S (size (buckets l)))%nat /\
  (is_Some (buckets l !! key) -> size (buckets (set_bucket l key b)) = size (buckets l)).
Proof.
  simpl. destruct (buckets l !! key) eqn:E.
  - rewrite map_size_insert_Some by eauto. auto.
  - rewrite map_size_insert_None by done. split; [lia|]. by intros [].
Qed.

Lemma allow_at_bounded l key now : (size (buckets l) <= cap l)%nat -> (1 <= cap l)%nat ->
  let l' := (allow_at l key now).1 in (size (buckets l') <= cap l')%nat /\ cap l' = cap l.
Proof.
  intros Hs Hc. unfold allow_at. destruct (buckets l !! key) as [b|] eqn:E.
  - destruct (f64_lt _ _); cbn [fst]; (split; [|done]);
      rewrite (proj2 (set_bucket_size l key _)) by eauto; done.
  - destruct (Nat.leb_spec (cap l) (size (buckets l))).
    + assert (Hsw : (size (buckets (sweep l now)) <= size (buckets l))%nat).
      { simpl. etrans; [apply map_size_filter|]. by rewrite map_size_fmap. }
      cbv zeta. destruct (Nat.leb_spec (cap (sweep l now)) (size (buckets (sweep l now)))); cbn [fst].
      * split; [simpl cap; lia|done].
      * split; [|done]. pose proof (proj1 (set_bucket_size (sweep l now) key
          (mkBucket (f64_sub (burst (sweep l now)) f64_1) now))). simpl cap in *. lia.
    + cbn [fst]. split; [|done].
      pose proof (proj1 (set_bucket_size l key (mkBucket (f64_sub (burst l) f64_1) now))). simpl cap. lia.
Qed.

(** The limiter's memory is bounded: however many distinct keys its callers
    send, it never tracks more buckets than its capacity. *)
Theorem limiter_bounded r bu c reqs :
  let l := (serve (limiter_new r bu c) reqs).1 in (tracked l <= Nat.max c 1)%nat.
Proof.
  assert (G : forall l, (size (buckets l) <= cap l)%nat -> (1 <= cap l)%nat ->
    (size (buckets (serve l reqs).1) <= cap l)%nat).
  { induction reqs as [|[k now] reqs IH]; intros l Hs Hc; [done|]. cbn [serve].
    pose proof (allow_at_bounded l k now Hs Hc) as Hb. destruct (allow_at l k now) as [l' ok]. cbn [fst] in Hb.
    destruct Hb as [Hb1 Hb2]. specialize (IH l' Hb1 ltac:(lia)).
    destruct (serve l' reqs) as [l'' oks]. cbn [fst] in *. lia. }
  cbv zeta. unfold tracked. apply (G (limiter_new r bu c)); simpl; [rewrite map_size_empty; lia|lia].
Qed.

(** Eviction is fail-closed.  A request for one key leaves every other bucket
    as it was, or refilled up to the present, or drops it when it had refilled to
    the full burst; a throttled bucket is never forgotten.  A new key that
    finds the map full of such buckets is refused. *)
Theorem eviction_fail_closed l key now k b : k <> key -> buckets l !! k = Some b ->
  let b' := refill b now (rate l) (burst l) in
  let l' := (allow_at l key now).1 in
  (buckets l' !! k = Some b \/ buckets l' !! k = Some b' \/
   (buckets l' !! k = None /\ is_full b' (burst l) = true)) /\
  ((forall k' c, buckets l !! k' = Some c -> is_full (refill c now (rate l) (burst l)) (burst l) = false) ->
   buckets l !! key = None -> (cap l <= size (buckets l))%nat -> (allow_at l key now).2 = false).
Proof.
  intros Hne Hb b' l'.
  assert (Hsw : buckets (sweep l now) !! k = if is_full b' (burst l) then None else Some b').
  { cbn [sweep buckets]. destruct (is_full b' (burst l)) eqn:F.
    - apply map_lookup_filter_None. right. intros c. rewrite lookup_fmap, Hb. simpl. intros [= <-].
      unfold b' in F. by rewrite F.
    - apply map_lookup_filter_Some. rewrite lookup_fmap, Hb. done. }
  split.
  - unfold l', allow_at. destruct (buckets l !! key) as [c|].
    + destruct (f64_lt _ _); left; simpl; by rewrite lookup_insert_ne.
    + destruct (Nat.leb (cap l) (size (buckets l))); [cbv zeta; destruct (Nat.leb (cap (sweep l now)) _)|].
      * right. cbn [fst]. rewrite Hsw. destruct (is_full b' (burst l)); auto.
      * right. cbn [fst set_bucket buckets]. rewrite lookup_insert_ne by done. rewrite Hsw.
        destruct (is_full b' (burst l)); auto.
      * left. simpl. by rewrite lookup_insert_ne.
  - intros Hall Hk Hc. unfold allow_at. rewrite Hk, (proj2 (Nat.leb_le _ _) Hc). cbv zeta.
    rewrite (proj2 (Nat.leb_le _ _)); [done|]. cbn [sweep buckets cap].
    rewrite map_filter_id; [by rewrite map_size_fmap|].
    intros k' c Hc'. rewrite lookup_fmap in Hc'. apply fmap_Some in Hc' as (c' & Hc' & ->). simpl. eauto.
Qed.

Lemma eviction_fail_closed_witness :
  let l := mkLimiter {[ [1] := mkBucket (f64_of_Z 0) 0 ]} 1 (f64_of_Z 5) (f64_of_Z 40) in
  (allow_at l [2] 1000).2 = false.
Proof.
  cbv zeta.
  apply (eviction_fail_closed (mkLimiter {[ [1] := mkBucket (f64_of_Z 0) 0 ]} 1 (f64_of_Z 5) (f64_of_Z 40))
    [2] 1000 [1] (mkBucket (f64_of_Z 0) 0)).
  - done.
  - by vm_compute.
  - cbn [buckets]. intros k' c Hk. apply lookup_singleton_Some in Hk as [_ <-]. by vm_compute.
  - by vm_compute.
  - by vm_compute.
Defined.

(** The burst is exact for the limits the relay configures: of the requests one
    caller makes at one instant, [/v1/challenge] admits exactly 40 and the account
    limiter exactly 120; one second later they admit 5 and 20 more. *)
Theorem burst_exact :
  let at_once n k now := replicate n (k, now) in
  let answers r bu n m := (serve (limiter_new (f64_of_Z r) (f64_of_Z bu) 8192)
    (at_once n [1; 2; 3] 0 ++ at_once m [1; 2; 3] 1000000000)).2 in
  answers 5 40 50%nat 10%nat = replicate 40 true ++ replicate 10 false ++ replicate 5 true ++ replicate 5 false /\
  answers 20 120 130%nat 30%nat = replicate 120 true ++ replicate 10 false ++ replicate 20 true ++ replicate 10 false.
Proof. split; by vm_compute. Qed.
