(* ===== verification/Metered.v ===== *)
(** * Metered mode ([src/src/metered.rs])

    The state the metered endpoints share and their logic.  What the chain
    answers, the clock (nanoseconds for an [Instant], seconds for Unix time) and
    the faults of the disk are arguments of the calls that consult them. *)
From Stdlib Require Import ZArith Lia.
From stdpp Require Import base tactics numbers strings list gmap.
From S2P Require Import Prelude Codec Signer Challenge Ledger Fifo F64 InboundLimit Meter.
Local Open Scope Z_scope.
Local Open Scope hov_scope.

Definition MAX_LIVE_RESERVATIONS : nat := 4096.
Definition DEPLOYED_CACHE_CAP : nat := 4096.
Definition DEPLOYED_OK_TTL : Z := 86400 * 1000000000.
Definition DEPLOYED_BAD_TTL : Z := 600 * 1000000000.
Definition STATE_TTL : Z := 30 * 1000000000.
Definition STATE_CACHE_CAP : nat := 2048.

(** [struct ChequebookState] of batch.rs; amounts are [U256]. *)
Record ChequebookState := mkCbState {
  issuer : bytes; liquid_for_us : Z; paid_out_to_us : Z; bounced : bool }.

(** ** The two caches *)

Module StateCache.
Record t := mk { map : gmap bytes (ChequebookState * Z); order : list bytes; cap : nat }.

Definition new (c : nat) : t := mk ∅ [] (Nat.max c 1).

Definition get (s : t) (k : bytes) (now : Z) : option ChequebookState :=
  match map s !! k with
  | Some (v, at_) => if sat_sub now at_ <? STATE_TTL then Some v else None
  | None => None
  end.

Definition insert (s : t) (k : bytes) (v : ChequebookState) (now : Z) : t :=
  let '(m, o) := fifo_put (map s) (order s) k (v, now) in
  let '(m, o, _) := evict (fun _ (u : unit) => u) (cap s) m o tt in
  mk m o (cap s).

Definition remove (s : t) (k : bytes) : t :=
  let '(m, o) := fifo_remove (map s) (order s) k in mk m o (cap s).

Definition ok (s : t) : Prop := fifo_ok (map s) (order s) /\ (1 <= cap s)%nat /\ (length (order s) <= cap s)%nat.
End StateCache.

Module DeployedCache.
Record t := mk { map : gmap bytes (bool * Z); order : list bytes; cap : nat }.

Definition new (c : nat) : t := mk ∅ [] (Nat.max c 1).

Definition get (s : t) (k : bytes) (now : Z) : option bool :=
  match map s !! k with
  | Some (v, at_) =>
      let ttl := if v : bool then DEPLOYED_OK_TTL else DEPLOYED_BAD_TTL in
      if sat_sub now at_ <? ttl then Some v else None
  | None => None
  end.

Definition insert (s : t) (k : bytes) (v : bool) (now : Z) : t :=
  let '(m, o) := fifo_put (map s) (order s) k (v, now) in
  let '(m, o, _) := evict (fun _ (u : unit) => u) (cap s) m o tt in
  mk m o (cap s).
End DeployedCache.

(** ** The shared state *)

(** [struct MeterConfig]. *)
Record MeterConfig := mkConfig {
  origins : list bytes;
  beneficiary : bytes;
  chain_id : Z;
  factory : bytes;
  params : Params;
  hard_mode : bool }.

(** [struct Metered]; [files] are the files behind the ledger. *)
Record Metered := mkMetered {
  cfg : MeterConfig;
  ledger : Ledger;
  files : Disk;
  challenge_limit : InboundLimiter;
  account_limit : InboundLimiter;
  deployed : DeployedCache.t;
  cb_state : StateCache.t }.

(** [Metered::new]. *)
Definition metered_new (c : MeterConfig) (l : Ledger) (d : Disk) : Metered :=
  mkMetered c l d (limiter_new (f64_of_Z 5) (f64_of_Z 40) 8192)
    (limiter_new (f64_of_Z 20) (f64_of_Z 120) 8192)
    (DeployedCache.new DEPLOYED_CACHE_CAP) (StateCache.new STATE_CACHE_CAP).

Definition with_ledger (m : Metered) (l : Ledger) (d : Disk) : Metered :=
  mkMetered (cfg m) l d (challenge_limit m) (account_limit m) (deployed m) (cb_state m).
Definition with_cb_state (m : Metered) (s : StateCache.t) : Metered :=
  mkMetered (cfg m) (ledger m) (files m) (challenge_limit m) (account_limit m) (deployed m) s.
Definition with_deployed (m : Metered) (s : DeployedCache.t) : Metered :=
  mkMetered (cfg m) (ledger m) (files m) (challenge_limit m) (account_limit m) s (cb_state m).

(** [Metered::chequebook_state]; [rpc] is what [read_chequebook_state] returns. *)
Definition chequebook_state (m : Metered) (rpc : result ChequebookState str) (cb : bytes) (now : Z)
    : Metered * result ChequebookState str :=
  match StateCache.get (cb_state m) cb now with
  | Some hit => (m, Ok hit)
  | None =>
      match rpc with
      | Err e => (m, Err (lit "chequebook: " ++ e))
      | Ok st => (with_cb_state m (StateCache.insert (cb_state m) cb st now), Ok st)
      end
  end.

(** [Metered::invalidate_chequebook]. *)
Definition invalidate_chequebook (m : Metered) (cb : bytes) : Metered :=
  with_cb_state m (StateCache.remove (cb_state m) cb).

(** [Metered::is_deployed]; [rpc] is what [is_deployed_chequebook] returns. *)
Definition is_deployed (m : Metered) (rpc : result bool str) (cb : bytes) (now : Z)
    : Metered * result bool str :=
  match DeployedCache.get (deployed m) cb now with
  | Some hit => (m, Ok hit)
  | None =>
      match rpc with
      | Err e => (m, Err (lit "factory lookup: " ++ e))
      | Ok b => (with_deployed m (DeployedCache.insert (deployed m) cb b now), Ok b)
      end
  end.

(** [Metered::allow_challenge] and [Metered::allow_account]. *)
Definition allow_challenge (m : Metered) (ip : bytes) (now : Z) : Metered * bool :=
  let '(l, ok) := allow_at (challenge_limit m) ip now in
  (mkMetered (cfg m) (ledger m) (files m) l (account_limit m) (deployed m) (cb_state m), ok).
Definition allow_account (m : Metered) (acct : bytes) (now : Z) : Metered * bool :=
  let '(l, ok) := allow_at (account_limit m) acct now in
  (mkMetered (cfg m) (ledger m) (files m) (challenge_limit m) l (deployed m) (cb_state m), ok).

(** [Metered::reserve_for_body]. *)
Definition reserve_for_body (m : Metered) (acct : bytes) (content_length c : Z) : Metered * Admission :=
  let amount := price_bytes (params (cfg m)) content_length in
  let '(l, a) := reserve (ledger m) acct amount c in (with_ledger m l (files m), a).

(** [Metered::shed_reservations]. *)
Definition shed_reservations (m : Metered) : bool :=
  Nat.leb MAX_LIVE_RESERVATIONS (live_reservations (ledger m)).

(** [struct VerifiedChallenge]. *)
Record VerifiedChallenge := mkVerified { v_account : bytes; v_batch : bytes; v_cap_plur : Z }.

(** The texts of the errors a handler turns into a response (debug quotes left out). *)
Definition challenge_error_text (e : ChallengeError) : str :=
  match e with
  | BadMac => lit "challenge nonce is not ours"
  | Expired n => lit "challenge expired " ++ u128_to_string n ++ lit "s ago"
  | OriginMismatch got want => lit "challenge origin " ++ got ++ lit " is not this relay ("
      ++ foldr (fun o acc => match acc with [] => o | _ => o ++ lit "," ++ acc end) [] want ++ lit ")"
  | EmptyOrigin => lit "challenge origin is empty"
  | OriginTooLong n => lit "origin too long: " ++ u128_to_string n ++ lit " bytes (max 65535)"
  end.
Definition signer_error_text (e : SignerError) : str := match e with Alloy msg => msg end.
Definition store_error_text (e : StoreError) : str :=
  match e with Io s => lit "io: " ++ s | Json s => lit "json: " ++ s end.

Section WithLibraries.
Context `{Crypto} `{Hex} `{HeaderCodec}.
Context (to_vec_pretty : OnDisk -> bytes).

(** [Metered::issue]. *)
Definition issue (m : Metered) (acct bat : bytes) (remaining : Z) (org : bytes) (now : Z)
    : result IssuedChallenge ChallengeError :=
  let f := mkFields acct bat org (sat_add64 now CHALLENGE_TTL_SECS) (credit_line (params (cfg m)) remaining) in
  let? n := nonce (secret (ledger m)) f in
  Ok (mkIssued f n).

(** What the client signs for a challenge. *)
Definition sol_challenge (f : ChallengeFields) (n : bytes) : PushChallenge :=
  mkPushChallenge n (origin f) (Challenge.account f) (Challenge.batch f) (expiry_unix f).

(** [Metered::verify_header]. *)
Definition verify_header (m : Metered) (raw : str) (now : Z) : result VerifiedChallenge str :=
  if (MAX_CHALLENGE_HEADER <? length raw)%nat
  then Err (lit "challenge header too large: " ++ u128_to_string (Z.of_nat (length raw)) ++ lit " bytes")
  else
    let? p := decode_header raw in
    let? _ := map_err challenge_error_text
      (verify (secret (ledger m)) (p_fields p) (p_nonce p) now (origins (cfg m))) in
    let? signer := map_err (fun e => lit "challenge signature: " ++ signer_error_text e)
      (recover_push_challenge (sol_challenge (p_fields p) (p_nonce p)) (chain_id (cfg m)) (p_sig p)) in
    if negb (bool_decide (signer = Challenge.account (p_fields p)))
    then Err (lit "challenge signed by 0x" ++ hex_encode signer ++ lit " but claims account 0x"
                ++ hex_encode (Challenge.account (p_fields p)))
    else Ok (mkVerified (Challenge.account (p_fields p)) (Challenge.batch (p_fields p)) (Challenge.cap_plur (p_fields p))).

(** [Metered::credit]: credit, persist at once, undo when the write fails. *)
Definition metered_credit (m : Metered) (acct cb : bytes) (cumulative : Z) (sig : bytes) (f : Fault)
    : Metered * result Z LedgerError :=
  let l := ledger m in
  let prev_owed := owed l acct in
  let prev_held := held_cheque l acct cb in
  let had := had_binding l cb in
  let '(l1, r) := credit l acct cb cumulative sig in
  match r with
  | Err e => (with_ledger m l1 (files m), Err e)
  | Ok accepted =>
      let '(d, pr) := persist to_vec_pretty l1 (files m) f in
      match pr with
      | Err e => (with_ledger m (rollback_credit l1 acct cb prev_owed prev_held had) d,
                  Err (Store (store_error_text e)))
      | Ok _ => (with_ledger m l1 d, Ok accepted)
      end
  end.
End WithLibraries.

(** ** The caches *)

Lemma state_cache_insert_ok s k v now : StateCache.ok s -> StateCache.ok (StateCache.insert s k v now).
Proof.
  intros (Hf & Hc & Hl). unfold StateCache.insert.
  pose proof (fifo_put_ok _ _ k (v, now) Hf) as Hp.
  destruct (fifo_put (StateCache.map s) (StateCache.order s) k (v, now)) as [m o]. simpl in Hp.
  pose proof (evict_spec (fun _ (u : unit) => u) (StateCache.cap s) m o tt Hp) as He.
  pose proof (evict_length (fun _ (u : unit) => u) (StateCache.cap s) m o tt Hp) as Hn.
  destruct (evict (fun _ (u : unit) => u) (StateCache.cap s) m o tt) as [[m' o'] u]. simpl in Hn.
  destruct He as (He & _ & _). by split_and!.
Qed.

Lemma state_cache_remove_ok s k : StateCache.ok s -> StateCache.ok (StateCache.remove s k).
Proof.
  intros (Hf & Hc & Hl). pose proof (fifo_remove_ok _ _ k Hf) as Hr. unfold StateCache.remove.
  destruct (fifo_remove (StateCache.map s) (StateCache.order s) k) as [m o] eqn:E. simpl in Hr.
  split_and!; [done|done|]. simpl. injection E as _ <-.
  etrans; [|exact Hl]. apply List.filter_length_le.
Qed.

(** An operation on the cache of chequebook states. *)
Inductive CacheOp := CInsert (k : bytes) (v : ChequebookState) (now : Z) | CRemove (k : bytes).
Definition cache_step (s : StateCache.t) (o : CacheOp) : StateCache.t :=
  match o with CInsert k v now => StateCache.insert s k v now | CRemove k => StateCache.remove s k end.

Lemma cache_steps_ok ops s : StateCache.ok s -> StateCache.ok (foldl cache_step s ops).
Proof.
  revert s. induction ops as [|[k v now|k] ops IH]; intros s Hs; [done|..]; apply IH.
  - by apply state_cache_insert_ok.
  - by apply state_cache_remove_ok.
Qed.

Lemma state_cache_insert_lookup s k v now : StateCache.ok s ->
  StateCache.map (StateCache.insert s k v now) !! k = Some (v, now).
Proof.
  intros (Hf & Hc & Hl). unfold StateCache.insert.
  pose proof (fifo_put_ok _ _ k (v, now) Hf) as Hp.
  assert (Hk : (fifo_put (StateCache.map s) (StateCache.order s) k (v, now)).1 !! k = Some (v, now))
    by apply lookup_insert_eq.
  assert (Hin : k ∈ drop (length (fifo_put (StateCache.map s) (StateCache.order s) k (v, now)).2 - StateCache.cap s)
                    (fifo_put (StateCache.map s) (StateCache.order s) k (v, now)).2).
  { unfold fifo_put; simpl. destruct (StateCache.map s !! k) as [w|] eqn:E.
    - replace (length (StateCache.order s) - StateCache.cap s)%nat with 0%nat by lia.
      apply Hf. eauto.
    - rewrite length_app. simpl. rewrite drop_app_le by lia. apply elem_of_app. right. left. }
  destruct (fifo_put (StateCache.map s) (StateCache.order s) k (v, now)) as [m o]. simpl in *.
  pose proof (evict_spec (fun _ (u : unit) => u) (StateCache.cap s) m o tt Hp) as He.
  destruct (evict (fun _ (u : unit) => u) (StateCache.cap s) m o tt) as [[m' o'] u].
  destruct He as (_ & -> & He). simpl. rewrite He, decide_True by done. done.
Qed.

Lemma cache_steps_cap ops s : StateCache.cap (foldl cache_step s ops) = StateCache.cap s.
Proof.
  revert s. induction ops as [|[k v now|k] ops IH]; intros s; cbn [foldl]; [done|..]; rewrite IH;
    cbn [cache_step]; [unfold StateCache.insert|done].
  destruct (fifo_put _ _ _ _) as [m o]. by destruct (evict _ _ _ _ _) as [[? ?] ?].
Qed.

(** The cache of chequebook states stays consistent and bounded under any
    operations: its queue lists exactly its keys without duplicates, at most
    [cap] of them; a value just inserted is returned until it expires and not
    after; a removed one is gone and leaves no ghost in the queue. *)
Theorem state_cache_correct c ops k v now t :
  let s := foldl cache_step (StateCache.new c) ops in
  let s' := StateCache.insert s k v now in
  StateCache.ok s /\ (size (StateCache.map s) <= Nat.max c 1)%nat /\
  StateCache.get s' k (now + t) = (if Z.max 0 t <? STATE_TTL then Some v else None) /\
  StateCache.get (StateCache.remove s' k) k (now + t) = None /\
  ~ k ∈ StateCache.order (StateCache.remove s' k).
Proof.
  cbv zeta. set (s := foldl cache_step (StateCache.new c) ops).
  assert (Hs : StateCache.ok s).
  { apply cache_steps_ok. split_and!; simpl; [apply fifo_ok_empty|lia|lia]. }
  assert (Hcap : StateCache.cap s = Nat.max c 1).
  { unfold s. rewrite cache_steps_cap. done. }
  pose proof Hs as (Hf & Hc & Hl).
  split_and!; [done|rewrite (fifo_ok_size _ _ Hf); lia| | |].
  - unfold StateCache.get. rewrite (state_cache_insert_lookup s k v now Hs).
    unfold sat_sub. by replace (now + t - now) with t by lia.
  - unfold StateCache.get, StateCache.remove, fifo_remove. simpl. by rewrite lookup_delete_eq.
  - pose proof (state_cache_remove_ok _ k (state_cache_insert_ok s k v now Hs)) as ((_ & Hk) & _).
    rewrite Hk. unfold StateCache.remove, fifo_remove. simpl. rewrite lookup_delete_eq. by intros [].
Qed.

(** ** Crediting a cheque, with the disk *)

Section Durability.
Context `{HexLaws} (to_vec_pretty : OnDisk -> bytes) (from_str : bytes -> result OnDisk str).

(** The file holds a ledger with the same cheques and bindings as memory. *)
Definition cheques_synced (m : Metered) : Prop :=
  exists l0, main_file (files m) = Some (to_vec_pretty (to_disk l0)) /\ wf_ledger l0 /\
    binding l0 = binding (ledger m) /\ secret l0 = secret (ledger m) /\
    forall k cb, held_cheque l0 k cb = held_cheque (ledger m) k cb.

(** Both ways a credit can end. *)
Lemma metered_credit_cases m k cb cum sig f :
  (exists e, (metered_credit to_vec_pretty m k cb cum sig f).2 = Err e /\
     same_entries (ledger (metered_credit to_vec_pretty m k cb cum sig f).1) (ledger m) /\
     (persistent (ledger m) = true -> main_file (files (metered_credit to_vec_pretty m k cb cum sig f).1) = main_file (files m))) \/
  (exists d, (metered_credit to_vec_pretty m k cb cum sig f).2 = Ok d /\
     (credit (ledger m) k cb cum sig).2 = Ok d /\
     ledger (metered_credit to_vec_pretty m k cb cum sig f).1 = (credit (ledger m) k cb cum sig).1 /\
     (persistent (ledger m) = true -> main_file (files (metered_credit to_vec_pretty m k cb cum sig f).1) =
        Some (to_vec_pretty (to_disk (credit (ledger m) k cb cum sig).1)))).
Proof.
  unfold metered_credit.
  pose proof (credit_cases (ledger m) k cb cum sig) as Hcases.
  pose proof (rollback_exact (ledger m) k cb cum sig) as Hroll.
  destruct (credit (ledger m) k cb cum sig) as [l1 r]. cbn [fst snd] in *.
  destruct Hcases as [(e & -> & Hs)|(d & -> & _ & _ & _ & _ & El)].
  - left. exists e. by split_and!.
  - assert (Hp : persistent l1 = persistent (ledger m)) by (by rewrite El).
    unfold persist. destruct (persistent l1) eqn:Ep; simpl.
    + destruct f; simpl; [right; exists d; by split_and!..|left|left]; eexists; (split; [done|]);
        rewrite (Hroll d) by done; (split; [by split_and!|done]).
    + right. exists d. split_and!; [done|done|done|congruence].
Qed.

(** C5: no cheque is credited unless it is on disk.  When [credit] reports success the
    next start loads the credited ledger, and the same cheque is then refused as
    already accepted; when it reports any error, memory and the file are as they
    were.  In both cases the file keeps the same cheques as memory, whatever the
    disk does. *)
Theorem metered_credit_durable m k cb cum sig f rng :
  (forall x, from_str (to_vec_pretty x) = Ok x) ->
  wf_ledger (ledger m) -> persistent (ledger m) = true -> cheques_synced m ->
  is_addr k -> is_addr cb -> length sig = 65%nat -> all_bytes sig ->
  let '(m', r) := metered_credit to_vec_pretty m k cb cum sig f in
  cheques_synced m' /\
  match r with
  | Ok _ =>
      load_or_create to_vec_pretty from_str (files m') rng NoFault = (files m', Ok (durable (ledger m'))) /\
      (credit (durable (ledger m')) k cb cum sig).2 = Err (NotIncreasing cum cum)
  | Err _ => same_entries (ledger m') (ledger m) /\ main_file (files m') = main_file (files m)
  end.
Proof.
  intros Hj Hl Hp (l0 & Hf0 & Hl0 & Hb0 & Hs0 & Hh0) Hk Hcb Hsl Hsb.
  pose proof (metered_credit_cases m k cb cum sig f) as Hc.
  destruct (metered_credit to_vec_pretty m k cb cum sig f) as [m' r]. cbn [fst snd] in Hc.
  destruct Hc as [(e & -> & Hs & Hm)|(d & -> & Hd & El & Hm)]; specialize (Hm Hp).
  - split; [|by split]. exists l0. destruct Hs as (He & Hb & Hsec & _). rewrite Hm, Hb, Hsec. split_and!; try done.
    intros k' cb'. by rewrite Hh0, !held_entry, He.
  - pose proof (credit_wf (ledger m) k cb cum sig Hl Hk Hcb Hsl Hsb) as Hwf. rewrite <- El in Hwf, Hm.
    split; [exists (ledger m'); by split_and!|]. split.
    + unfold load_or_create. by rewrite Hm, Hj, from_to_disk.
    + rewrite El in *. by apply (credit_recorded (ledger m) k cb cum sig d).
Qed.
End Durability.

(** A relay whose ledger is empty but for a debt, with its file. *)
Definition demo_config : MeterConfig :=
  mkConfig [lit "relay.example"] (replicate 20 6) 100 (replicate 20 8) default_params true.
Definition demo_ledger (o : Z) : Ledger := commit (mkLedger ∅ ∅ (replicate 32 5) true) (replicate 20 7) 0 o.
Definition demo_metered (o : Z) : Metered :=
  metered_new demo_config (demo_ledger o) (mkFiles (Some (plain_json (to_disk (demo_ledger o)))) None).

Lemma demo_ledger_wf o : 0 <= o -> wf_ledger (demo_ledger o).
Proof.
  intros Ho. apply commit_wf; [|split; [done|by repeat constructor]|done|done].
  split; simpl; [done|done|done|]. split; [done|by repeat constructor].
Qed.

Lemma metered_credit_durable_witness :
  let '(m', r) := metered_credit plain_json (demo_metered 80) (replicate 20 7) (replicate 20 9) 50
    (replicate 65 1) NoFault in
  cheques_synced plain_json m' /\
  match r with
  | Ok _ =>
      load_or_create plain_json plain_parse (files m') [] NoFault = (files m', Ok (durable (ledger m'))) /\
      (credit (durable (ledger m')) (replicate 20 7) (replicate 20 9) 50 (replicate 65 1)).2 =
        Err (NotIncreasing 50 50)
  | Err _ => same_entries (ledger m') (ledger (demo_metered 80)) /\
      main_file (files m') = main_file (files (demo_metered 80))
  end.
Proof.
  apply (metered_credit_durable plain_json plain_parse (demo_metered 80) (replicate 20 7) (replicate 20 9)
    50 (replicate 65 1) NoFault []).
  - exact plain_parse_json.
  - apply demo_ledger_wf. lia.
  - done.
  - exists (demo_ledger 80). split_and!; try done. apply demo_ledger_wf. lia.
  - split; [done|by repeat constructor].
  - split; [done|by repeat constructor].
  - done.
  - by repeat constructor.
Defined.

(** ** Challenges, end to end *)

Lemma credit_line_range p remaining : 1 <= credit_ratio p -> 0 <= max_outstanding_plur p <= U128_MAX ->
  u128 remaining -> 0 <= credit_line p remaining <= max_outstanding_plur p.
Proof.
  intros Hr Hm Hv. unfold credit_line.
  assert (0 <= remaining / credit_ratio p) by (apply Z.div_pos; lia). lia.
Qed.

(** A challenge the relay issues is honoured: signed by the account it was issued to
    and presented at a configured origin before it expires. *)
Lemma issued_challenge_accepted `{Crypto} `{HexLaws} `{HeaderCodecLaws} m acct bat remaining org now now' i sig :
  (forall b, all_bytes (keccak256 b)) -> (forall b, length (keccak256 b) = 32%nat) ->
  length acct = 20%nat -> all_bytes acct -> length bat = 32%nat -> all_bytes bat ->
  1 <= credit_ratio (params (cfg m)) -> 0 <= max_outstanding_plur (params (cfg m)) <= U128_MAX ->
  u128 remaining -> u64 now -> org ∈ origins (cfg m) ->
  length sig = 65%nat -> all_bytes sig ->
  issue m acct bat remaining org now = Ok i ->
  recover_push_challenge (sol_challenge (i_fields i) (i_nonce i)) (chain_id (cfg m)) sig = Ok acct ->
  now' <= sat_add64 now CHALLENGE_TTL_SECS ->
  (length (encode_challenge_header i sig) <= MAX_CHALLENGE_HEADER)%nat ->
  verify_header m (encode_challenge_header i sig) now' =
    Ok (mkVerified acct bat (credit_line (params (cfg m)) remaining)).
Proof.
  intros Hk Hkl Hal Hab Hbl Hbb Hr Hm Hv Hn Ho Hsl Hsb Hi Hrec Hnow Hlen.
  unfold issue in Hi. set (f := mkFields _ _ _ _ _) in Hi.
  destruct (nonce (secret (ledger m)) f) as [n|] eqn:En; simpl in Hi; [|done]. injection Hi as <-.
  assert (Hn32 : length n = 32%nat /\ all_bytes n).
  { unfold nonce in En. destruct (preimage f); simpl in En; [|done]. injection En as <-. auto. }
  destruct Hn32 as [Hnl Hnb]. cbn [i_fields i_nonce] in *.
  assert (Hf : fields_ok f).
  { pose proof (credit_line_range _ remaining Hr Hm Hv). split; simpl; [done|done|unfold CHALLENGE_TTL_SECS; sat|lia]. }
  unfold verify_header. rewrite (proj2 (Nat.ltb_ge _ _)) by done.
  rewrite challenge_header_roundtrip' by done. cbn [result_bind p_fields p_nonce p_sig i_fields i_nonce].
  rewrite (proj2 (verify_ok_iff (secret (ledger m)) f n now' (origins (cfg m)) Hk Hnb)) by done.
  cbn [map_err result_bind]. rewrite Hrec. cbn [map_err result_bind].
  by rewrite bool_decide_eq_true_2.
Qed.

Definition demo_fields : ChallengeFields :=
  mkFields (replicate 20 7) (replicate 32 2) (lit "relay.example") 1300 1000000000000.
Definition demo_issued : IssuedChallenge :=
  mkIssued demo_fields (@keccak256 toy_crypto (replicate 32 5 ++
    match preimage demo_fields with Ok p => p | Err _ => [] end)).
Definition demo_sig : bytes := replicate 64 1 ++ [27].

(** What the relay accepts was issued by it and is presented by the account's
    key: the nonce is its MAC over the very fields, the signature recovers the
    account, the origin is a configured one and the challenge has not expired. *)
Theorem accepted_challenge_sound `{Crypto} `{Hex} `{HeaderCodec} m raw now v :
  (forall b, all_bytes (keccak256 b)) ->
  verify_header m raw now = Ok v ->
  exists p, decode_header raw = Ok p /\
    (all_bytes (p_nonce p) -> nonce (secret (ledger m)) (p_fields p) = Ok (p_nonce p) /\
       origin (p_fields p) ∈ origins (cfg m) /\ now <= expiry_unix (p_fields p)) /\
    recover_push_challenge (sol_challenge (p_fields p) (p_nonce p)) (chain_id (cfg m)) (p_sig p) =
      Ok (v_account v) /\
    v = mkVerified (Challenge.account (p_fields p)) (Challenge.batch (p_fields p)) (Challenge.cap_plur (p_fields p)).
Proof.
  intros Hk. unfold verify_header. destruct (_ <? _)%nat; [done|].
  destruct (decode_header raw) as [p|]; simpl; [|done]. intros Hv.
  destruct (verify (secret (ledger m)) (p_fields p) (p_nonce p) now (origins (cfg m))) as [[]|] eqn:Ev; [|done].
  simpl in Hv. destruct (recover_push_challenge _ _ _) as [s|] eqn:Er; simpl in Hv; [|done].
  case_bool_decide as Es; simpl in Hv; [|done]. injection Hv as <-. exists p. split_and!; try done.
  - intros Hb. apply verify_ok_iff in Ev as (Ho & Hn & He); [|done|done]. done.
  - by rewrite Er, Es.
Qed.

Lemma accepted_challenge_sound_witness :
  exists p, @decode_header plain_hex plain_header
      (@encode_challenge_header plain_hex plain_header demo_issued demo_sig) = Ok p /\
    (all_bytes (p_nonce p) -> @nonce toy_crypto (secret (ledger (demo_metered 80))) (p_fields p) = Ok (p_nonce p) /\
       origin (p_fields p) ∈ origins (cfg (demo_metered 80)) /\ 1200 <= expiry_unix (p_fields p)) /\
    @recover_push_challenge toy_crypto (sol_challenge (p_fields p) (p_nonce p)) 100 (p_sig p) = Ok (replicate 20 7) /\
    mkVerified (replicate 20 7) (replicate 32 2) 1000000000000 =
      mkVerified (Challenge.account (p_fields p)) (Challenge.batch (p_fields p)) (Challenge.cap_plur (p_fields p)).
Proof.
  apply (@accepted_challenge_sound toy_crypto plain_hex plain_header (demo_metered 80)
    (@encode_challenge_header plain_hex plain_header demo_issued demo_sig) 1200
    (mkVerified (replicate 20 7) (replicate 32 2) 1000000000000)).
  - exact toy_keccak_bytes.
  - by vm_compute.
Defined.
