(* ===== verification/Chain.v ===== *)
(** * Batches and chequebooks on the chain ([src/src/batch.rs])

    Sizing and pricing a batch, reading batches and chequebooks, buying a batch,
    deploying, funding and cashing a chequebook.

    The node that answers JSON-RPC requests is a state with an answer to each request,
    and so is the clock; the requests made so far are kept in a log.  Parameters: alloy's
    ABI codec and parsers ([Abi]), its RLP encoding ([Rlp]), its signer, and the source of
    random bytes.  A [U256] is an integer below [2^256] whose arithmetic wraps; a panic
    is [BPanic].  The parsing of human-readable sizes is left out. *)
From Stdlib Require Import ZArith Lia.
From stdpp Require Import base tactics numbers strings list.
From S2P Require Import Prelude Codec F64 Signer Metered.
Local Open Scope Z_scope.
Local Open Scope hov_scope.

Definition BUCKET_DEPTH : Z := 16.
Definition MAINNET_CHAIN_ID : Z := 100.
Definition GNOSIS_BLOCK_TIME_SECS : Z := 5.
Definition U256_MAX : Z := 2 ^ 256 - 1.

(** ** Sizing: [EFFECTIVE_VOLUME_GIB], [depth_for_size], [amount_for_duration] *)

(** In millionths of a GiB: each entry is the nearest binary64. *)
Definition EFFECTIVE_VOLUME : list (Z * Z) :=
  [(17, 43); (18, 6504); (19, 109434); (20, 671504); (21, 2600000); (22, 7730000); (23, 19940000); (24, 47060000); (25, 105510000);
   (26, 227980000); (27, 476680000); (28, 993650000); (29, 2088960000); (30, 4270080000); (31, 8652800000); (32, 17479680000);
   (33, 35184640000); (34, 70696960000); (35, 141864960000); (36, 284385280000); (37, 569702400000); (38, 1163919360000);
   (39, 2338324480000); (40, 4676648960000); (41, 9363783680000)].
Definition EFFECTIVE_VOLUME_GIB : list (Z * f64) := map (fun de => (de.1, f64_lit de.2 1000000)) EFFECTIVE_VOLUME.

Definition depth_for_size (requested_bytes : Z) : option Z :=
  let requested_gib := f64_div (f64_of_Z requested_bytes) (f64_of_Z (1024 ^ 3)) in
  fst <$> List.find (fun de => f64_le requested_gib de.2) EFFECTIVE_VOLUME_GIB.

Definition amount_for_duration (last_price duration_secs : Z) : Z :=
  let blocks := div_ceil duration_secs GNOSIS_BLOCK_TIME_SECS in
  wrap 256 (sat_mul U256_MAX blocks last_price + 10).

(** ** Requests and answers *)

(** The functions of the contracts that are called ([sol!]). *)
Inductive Call :=
| CreateBatch (owner : bytes) (initialBalancePerChunk depth bucketDepth : Z) (nonce : bytes) (immutable_ : bool)
| Batches (id : bytes) | RemainingBalance (id : bytes) | LastPrice | MinimumValidityBlocks
| BalanceOf (account : bytes) | Allowance (owner spender : bytes) | Approve (spender : bytes) (amount : Z)
| Issuer | PaidOut (beneficiary : bytes) | Bounced | LiquidBalanceFor (beneficiary : bytes) | DeployedContracts (who : bytes)
| DeploySimpleSwap (issuer : bytes) (timeout : Z) (salt : bytes) | Transfer (to : bytes) (amount : Z)
| CashChequeBeneficiary (recipient : bytes) (cumulativePayout : Z) (issuerSig : bytes).

(** What [batches] returns, and the event [BatchCreated]. *)
Record BatchesReturn := mkBatches { br_owner : bytes; br_depth : Z; br_bucket_depth : Z; br_immutable : bool }.
Record BatchCreated := mkCreated {
  bc_batch_id : bytes; bc_total_amount : Z; bc_normalised_balance : Z; bc_owner : bytes; bc_depth : Z; bc_bucket_depth : Z; bc_immutable : bool }.

Record RpcLog := mkLog { lg_address : str; lg_topics : list str; lg_data : str }.
Record ReceiptResp := mkReceipt { rc_status : str; rc_logs : list RpcLog }.
(** A log of a receipt read as plain JSON: members that are absent or of another type. *)
Record JsonLog := mkJLog { jl_topics : list str; jl_data : option str }.
(** An element of the answer to a batch of calls. *)
Record BatchItem := mkItem { bi_error : option str; bi_id : option Z; bi_result : option str }.

Inductive Request :=
| EthCall (to data : bytes)
| EthCalls (to : bytes) (data : list bytes)
| GetCode (addr : bytes)
| TransactionCount (addr : bytes)
| PendingBlock | MaxPriorityFee | GasPrice
| EstimateGas (from to data : bytes)
| SendRaw (raw : bytes)
| GetReceipt (tx : bytes).

(** What comes back: a failed exchange, an error of the node, a null, or a value of the
    kind the request asks for.  A receipt has two readings, as the type [ReceiptResp] and
    as plain JSON, whose logs may be missing. *)
Inductive Answer :=
| ATransport (e : str) | AError (message code : str) | ANull
| AText (s : str) | ABlock (base_fee_per_gas : option str) | AReceipt (typed : option ReceiptResp) (plain : option (list JsonLog))
| AItems (items : list BatchItem).

Inductive BatchError :=
| Rpc (e : str) | BTransport (e : str) | BHex (e : str) | Reverted
| InsufficientBalance (have need : Z) | InsufficientValidity (have need : Z) | InvalidDepth (d : Z)
| NoBatchEvent | ReceiptTimeout | AbiDecode (e : str) | BPanic.

(** alloy: ABI encoding, decoding of returned words and of the event, parsing of hashes
    and addresses. *)
Class Abi := {
  abi_encode : Call -> bytes;
  dec_word : bytes -> result Z str;
  dec_address : bytes -> result bytes str;
  dec_bool : bytes -> result bool str;
  dec_batches : bytes -> result BatchesReturn str;
  parse_address : str -> option bytes;
  parse_b256 : str -> option bytes;
  batch_created_topic : bytes;
  swap_deployed_topic : bytes;
  decode_created : list bytes -> bytes -> result BatchCreated str }.

(** alloy's RLP: of an unsigned integer, of a byte string, and the header of a list. *)
Class Rlp := { rlp_uint : Z -> bytes; rlp_bytes : bytes -> bytes; rlp_list : nat -> bytes }.

(** [u64::from_str_radix] in base 16. *)
Definition hex_value (c : Z) : option Z :=
  if (48 <=? c) && (c <=? 57) then Some (c - 48)
  else if (97 <=? c) && (c <=? 102) then Some (c - 87)
  else if (65 <=? c) && (c <=? 70) then Some (c - 55) else None.
Fixpoint hex_digits_u64 (acc : Z) (s : str) : option Z :=
  match s with
  | [] => Some acc
  | c :: s => match hex_value c with
              | Some v => if acc * 16 + v <=? U64_MAX then hex_digits_u64 (acc * 16 + v) s else None
              | None => None end
  end.
Definition u64_from_hex (s : str) : option Z :=
  match s with [] => None | 43 :: s => match s with [] => None | _ => hex_digits_u64 0 s end | _ => hex_digits_u64 0 s end.

(** ** [EthRpc] *)

Section Chain.
Context `{Hex} `{Abi} `{Rlp} (keccak : bytes -> bytes).
Context {W : Type} (node : W -> Request -> W * Answer) (random32 : W -> W * result bytes str) (clock : W -> Z) (sleep3 : W -> W).
(** The signing key: its address and the signature [(v, r, s)] of a hash. *)
Context (from : bytes) (sign_hash : bytes -> result (Z * Z * Z) str).

Record Eth := mkEth { e_world : W; e_log : list Request }.
Definition M (A : Type) : Type := Eth -> Eth * result A BatchError.
Definition ret {A} (a : A) : M A := fun s => (s, Ok a).
Definition fail {A} (e : BatchError) : M A := fun s => (s, Err e).
Definition bind {A B} (m : M A) (k : A -> M B) : M B := fun s => match m s with (s, Ok a) => k a s | (s, Err e) => (s, Err e) end.
Definition lift {A} (r : result A BatchError) : M A := fun s => (s, r).

Definition request (q : Request) : M Answer :=
  fun s => let '(w, a) := node (e_world s) q in (mkEth w (e_log s ++ [q]), Ok a).
(** [raw] for a request whose result is text; a value of another kind does not parse. *)
Definition raw_text (q : Request) (method : str) : M str :=
  bind (request q) (fun a =>
    match a with
    | AText t => ret t
    | ANull => fail (Rpc (method ++ lit ": empty result"))
    | AError m c => fail (Rpc (method ++ lit ": " ++ m ++ lit " (code " ++ c ++ lit ")"))
    | ATransport e => fail (BTransport e)
    | _ => fail (BTransport (lit "error decoding response body"))
    end).

Definition hex_bytes (t : str) : result bytes BatchError := map_err BHex (hex_decode (trim_0x t)).
Definition call_view {A} (dec : bytes -> result A str) (to : bytes) (c : Call) : M A :=
  bind (raw_text (EthCall to (abi_encode c)) (lit "eth_call")) (fun t =>
  bind (lift (hex_bytes t)) (fun b => lift (map_err AbiDecode (dec b)))).

Definition nonce (addr : bytes) : M Z :=
  bind (raw_text (TransactionCount addr) (lit "eth_getTransactionCount")) (fun t =>
    match u64_from_hex (trim_0x t) with Some n => ret n | None => fail (Rpc (lit "nonce parse")) end).

(** [fn parse_u256_hex]: padded to 64 digits; a longer value that does not fit panics. *)
Definition pad64 (s : str) : str := replicate (64 - length s) 48 ++ s.
Definition parse_u256_hex (s : str) : result Z BatchError :=
  let? b := map_err BHex (hex_decode (pad64 (trim_0x s))) in
  if from_be_bytes b <=? U256_MAX then Ok (from_be_bytes b) else Err BPanic.

Definition pending_block : M (option str) :=
  bind (request PendingBlock) (fun a =>
    match a with
    | ABlock f => ret f
    | ANull => fail (Rpc (lit "eth_getBlockByNumber: empty result"))
    | AError m c => fail (Rpc (lit "eth_getBlockByNumber: " ++ m ++ lit " (code " ++ c ++ lit ")"))
    | ATransport e => fail (BTransport e)
    | _ => fail (BTransport (lit "error decoding response body"))
    end).
(** [match m.await { Ok(x) => ok x, Err(_) => other }]. *)
Definition or_else {A B} (m : M A) (ok : A -> M B) (other : M B) : M B :=
  fun s => match m s with (s, Ok a) => ok a s | (s, Err _) => other s end.
Definition fee_params : M (Z * Z) :=
  bind pending_block (fun f =>
  bind (match f with Some h => lift (parse_u256_hex h) | None => ret 0 end) (fun base_fee =>
  bind (or_else (raw_text MaxPriorityFee (lit "eth_maxPriorityFeePerGas")) (fun h => lift (parse_u256_hex h))
          (bind (raw_text GasPrice (lit "eth_gasPrice")) (fun h => bind (lift (parse_u256_hex h)) (fun g => ret (sat_sub g base_fee)))))
    (fun tip => ret (tip, wrap 256 (wrap 256 (base_fee * 2) + tip))))).

Definition estimate_gas (to data : bytes) : M Z :=
  bind (raw_text (EstimateGas from to data) (lit "eth_estimateGas")) (fun t =>
    match u64_from_hex (trim_0x t) with Some n => ret n | None => fail (Rpc (lit "gas parse")) end).

(** [encode_1559_fields], [sign_eip1559_tx]. *)
Definition TX_TYPE_EIP1559 : Z := 2.
Definition encode_1559_fields (chain_id nonce tip max_fee gas : Z) (to : bytes) (value : Z) (data : bytes) (sig : option (Z * Z * Z)) : bytes :=
  let payload := rlp_uint chain_id ++ rlp_uint nonce ++ rlp_uint tip ++ rlp_uint max_fee ++ rlp_uint gas ++ rlp_bytes to ++ rlp_uint value
                   ++ rlp_bytes data ++ rlp_list 0
                   ++ match sig with Some (y, r, s) => rlp_uint y ++ rlp_uint r ++ rlp_uint s | None => [] end in
  rlp_list (length payload) ++ payload.
Definition sign_eip1559_tx (chain_id nonce tip max_fee gas : Z) (to data : bytes) : result bytes BatchError :=
  let sighash := keccak (TX_TYPE_EIP1559 :: encode_1559_fields chain_id nonce tip max_fee gas to 0 data None) in
  let? sig := map_err (fun e => Rpc (lit "sign: " ++ e)) (sign_hash sighash) in
  Ok (TX_TYPE_EIP1559 :: encode_1559_fields chain_id nonce tip max_fee gas to 0 data (Some sig)).

Definition send_signed (chain_id : Z) (to data : bytes) : M bytes :=
  bind (nonce from) (fun n =>
  bind fee_params (fun fees =>
  bind (estimate_gas to data) (fun g =>
  bind (lift (sign_eip1559_tx chain_id n fees.1 fees.2 (wrap 64 (g * 125) / 100) to data)) (fun raw =>
  bind (raw_text (SendRaw raw) (lit "eth_sendRawTransaction")) (fun t =>
    match parse_b256 t with Some h => ret h | None => fail (Rpc (lit "tx hash parse")) end))))).

(** One poll for a receipt. *)
Definition receipt_poll (tx : bytes) : M (option ReceiptResp) :=
  bind (request (GetReceipt tx)) (fun a =>
    match a with
    | AReceipt (Some r) _ => ret (Some r)
    | ANull => ret None
    | AError m c => fail (Rpc (lit "eth_getTransactionReceipt: " ++ m ++ lit " (code " ++ c ++ lit ")"))
    | ATransport e => fail (BTransport e)
    | _ => fail (BTransport (lit "error decoding response body"))
    end).
Definition succeeded (r : ReceiptResp) : bool := bool_decide (default 0 (u64_from_hex (trim_0x (rc_status r))) = 1).
(** [wait_for_success]; [None] when the fuel is out. *)
Fixpoint wait_loop (fuel : nat) (start timeout_ms : Z) (tx : bytes) (s : Eth) : option (Eth * result ReceiptResp BatchError) :=
  match fuel with
  | O => None
  | S fuel =>
      match receipt_poll tx s with
      | (s, Err e) => Some (s, Err e)
      | (s, Ok (Some r)) => Some (s, if succeeded r then Ok r else Err Reverted)
      | (s, Ok None) =>
          if timeout_ms <? clock (e_world s) - start then Some (s, Err ReceiptTimeout)
          else wait_loop fuel start timeout_ms tx (mkEth (sleep3 (e_world s)) (e_log s))
      end
  end.
(** A poll every three seconds at least. *)
Definition polls (timeout_ms : Z) : nat := S (S (Z.to_nat (timeout_ms / 3000))).
Definition wait_for_success (timeout_ms : Z) (tx : bytes) : M ReceiptResp :=
  fun s => default (s, Err ReceiptTimeout) (wait_loop (polls timeout_ms) (clock (e_world s)) timeout_ms tx s).

(** ** Reading *)

Definition read_last_price (postage_stamp : bytes) : M Z := call_view dec_word postage_stamp LastPrice.

(** [trim_start_matches("0X")]. *)
Fixpoint trim_0X (s : str) : str := match s with 48 :: 88 :: s => trim_0X s | _ => s end.
Definition batch_id (hex : str) : result bytes BatchError :=
  let? raw := map_err (fun e => Rpc (lit "batch id hex: " ++ e)) (hex_decode (trim_0X (trim_0x hex))) in
  if negb (Nat.eqb (length raw) 32) then Err (Rpc (lit "batch id must be 32 bytes, got " ++ u128_to_string (Z.of_nat (length raw)))) else Ok raw.

Record BatchOnChain := mkOnChain { oc_owner : bytes; oc_depth : Z; oc_bucket_depth : Z; oc_immutable : bool; oc_not_found : bool }.
Definition zero_address : bytes := replicate 20 0.
Definition read_batch (postage_stamp : bytes) (hex : str) : M BatchOnChain :=
  bind (lift (batch_id hex)) (fun id =>
  bind (call_view dec_batches postage_stamp (Batches id)) (fun r =>
    ret (mkOnChain (br_owner r) (br_depth r) (br_bucket_depth r) (br_immutable r)
           (bool_decide (br_owner r = zero_address) && (br_depth r =? 0))))).
Definition read_remaining_balance (postage_stamp : bytes) (hex : str) : M Z :=
  bind (lift (batch_id hex)) (fun id => call_view dec_word postage_stamp (RemainingBalance id)).

(** [batch_call_view]: the answers may come in any order. *)
Definition place_item (out : result (list bytes) BatchError) (it : BatchItem) : result (list bytes) BatchError :=
  let? out := out in
  match bi_error it with
  | Some e => Err (Rpc (lit "batch eth_call: " ++ e))
  | None =>
      let? i := match bi_id it with Some i => Ok i | None => Err (Rpc (lit "batch eth_call: missing id")) end in
      let? t := match bi_result it with Some t => Ok t | None => Err (Rpc (lit "batch eth_call: missing result")) end in
      if negb (i <? Z.of_nat (length out)) then Err (Rpc (lit "batch eth_call: bad id " ++ u128_to_string i))
      else let? b := hex_bytes t in Ok (<[Z.to_nat i := b]> out)
  end.
Definition collect_items (n : nat) (items : list BatchItem) : result (list bytes) BatchError :=
  if negb (Nat.eqb (length items) n)
  then Err (Rpc (lit "batch eth_call: sent " ++ u128_to_string (Z.of_nat n) ++ lit " requests, got "
                   ++ u128_to_string (Z.of_nat (length items)) ++ lit " responses"))
  else foldl place_item (Ok (replicate n [])) items.
Definition batch_call_view (to : bytes) (calls : list bytes) : M (list bytes) :=
  bind (request (EthCalls to calls)) (fun a =>
    match a with
    | AItems items => lift (collect_items (length calls) items)
    | ATransport e => fail (BTransport e)
    | _ => fail (BTransport (lit "error decoding response body"))
    end).

Definition is_deployed_chequebook (factory chequebook : bytes) : M bool := call_view dec_bool factory (DeployedContracts chequebook).
Definition chequebook_calls (beneficiary : bytes) : list bytes :=
  map abi_encode [Issuer; LiquidBalanceFor beneficiary; PaidOut beneficiary; Bounced].
Definition decode_at {A} (dec : bytes -> result A str) (out : list bytes) (i : nat) : result A BatchError :=
  match out !! i with Some b => map_err AbiDecode (dec b) | None => Err (Rpc (lit "short batch response")) end.
Definition decode_state (out : list bytes) : result ChequebookState BatchError :=
  let? iss := decode_at dec_address out 0 in
  let? liq := decode_at dec_word out 1 in
  let? paid := decode_at dec_word out 2 in
  let? b := decode_at dec_bool out 3 in
  Ok (mkCbState iss liq paid b).
Definition read_chequebook_state (chequebook beneficiary : bytes) : M ChequebookState :=
  bind (batch_call_view chequebook (chequebook_calls beneficiary)) (fun out => lift (decode_state out)).

(** ** Buying a batch: [create_batch] *)

Record CreateBatchParams := mkParamsCB {
  cp_owner : bytes; cp_postage_stamp : bytes; cp_bzz_token : bytes; cp_initial_balance_per_chunk : Z; cp_depth : Z;
  cp_immutable : bool; cp_chain_id : Z; cp_receipt_timeout : Z }.
Record BatchCreatedInfo := mkCreatedInfo { ci_event : BatchCreated; ci_create_tx : bytes; ci_approve_tx : bytes }.

Definition zero_hash : bytes := replicate 32 0.
(** [initial * U256::from(1u128 << depth)]; the shift is by the depth modulo 128. *)
Definition batch_total (p : CreateBatchParams) : result Z BatchError :=
  let t := cp_initial_balance_per_chunk p * wrap 128 (Z.shiftl 1 (cp_depth p mod 128)) in
  if t <=? U256_MAX then Ok t else Err (Rpc (lit "total amount overflow")).
Definition min_initial (last_price min_validity : Z) : Z := sat_mul U256_MAX last_price min_validity.

(** The event in the logs of a receipt. *)
Definition is_created_log (stamp : bytes) (l : RpcLog) : bool :=
  bool_decide (parse_address (lg_address l) = Some stamp)
  && match lg_topics l with t :: _ => bool_decide (parse_b256 t = Some batch_created_topic) | [] => false end.
Definition find_created (stamp : bytes) (r : ReceiptResp) : result BatchCreated BatchError :=
  match List.find (is_created_log stamp) (rc_logs r) with
  | None => Err NoBatchEvent
  | Some l =>
      let? data := map_err (fun e => AbiDecode (lit "log data hex: " ++ e)) (hex_decode (trim_0x (lg_data l))) in
      map_err (fun e => AbiDecode (lit "BatchCreated: " ++ e)) (decode_created (omap parse_b256 (lg_topics l)) data)
  end.

(** The approval of the token, unless the allowance covers it: its hash, awaited. *)
Definition approve (p : CreateBatchParams) (total : Z) : M bytes :=
  bind (call_view dec_word (cp_bzz_token p) (Allowance from (cp_postage_stamp p))) (fun allowance =>
  bind (if total <=? allowance then ret zero_hash
        else send_signed (cp_chain_id p) (cp_bzz_token p) (abi_encode (Approve (cp_postage_stamp p) total))) (fun tx =>
  bind (if bool_decide (tx = zero_hash) then ret tt else bind (wait_for_success (cp_receipt_timeout p) tx) (fun _ => ret tt)) (fun _ => ret tx))).
Definition random_bytes : M bytes :=
  fun s => let '(w, r) := random32 (e_world s) in (mkEth w (e_log s), map_err (fun e => Rpc (lit "getrandom: " ++ e)) r).
Definition create_call (p : CreateBatchParams) (n : bytes) : Call :=
  CreateBatch (cp_owner p) (cp_initial_balance_per_chunk p) (cp_depth p) BUCKET_DEPTH n (cp_immutable p).

Definition create_batch (p : CreateBatchParams) : M BatchCreatedInfo :=
  if cp_depth p <=? BUCKET_DEPTH then fail (InvalidDepth (cp_depth p))
  else
  bind (call_view dec_word (cp_postage_stamp p) LastPrice) (fun last_price =>
  bind (call_view dec_word (cp_postage_stamp p) MinimumValidityBlocks) (fun min_validity =>
  if cp_initial_balance_per_chunk p <=? min_initial last_price min_validity
  then fail (InsufficientValidity (cp_initial_balance_per_chunk p) (min_initial last_price min_validity))
  else
  bind (lift (batch_total p)) (fun total =>
  bind (call_view dec_word (cp_bzz_token p) (BalanceOf from)) (fun balance =>
  if balance <? total then fail (InsufficientBalance balance total)
  else
  bind (approve p total) (fun approve_tx =>
  bind random_bytes (fun n =>
  bind (send_signed (cp_chain_id p) (cp_postage_stamp p) (abi_encode (create_call p n))) (fun tx =>
  bind (wait_for_success (cp_receipt_timeout p) tx) (fun receipt =>
  bind (lift (find_created (cp_postage_stamp p) receipt)) (fun ev => ret (mkCreatedInfo ev tx approve_tx)))))))))).

(** ** Chequebooks *)

Definition GNOSIS_SWAP_FACTORY : str := lit "0xc2d5a532cf69aa9a1378737d8ccdef884b6e7420".
Definition SEPOLIA_SWAP_FACTORY : str := lit "0x0fF044F6bB4F684a5A149B46D7eC03ea659F98A1".
Definition swap_factory_for_chain (chain_id : Z) : option bytes :=
  if chain_id =? 100 then parse_address GNOSIS_SWAP_FACTORY
  else if chain_id =? 11155111 then parse_address SEPOLIA_SWAP_FACTORY else None.

Record DeployedChequebook := mkDeployed { dc_address : bytes; dc_tx : bytes; dc_already : bool }.
Definition code_len (addr : bytes) : M nat :=
  bind (raw_text (GetCode addr) (lit "eth_getCode")) (fun t => ret (length (trim_0x t) / 2)%nat).

(** [find_deployed_chequebook]: the first log of the event with a data word. *)
Definition lower (s : str) : str := map (fun c => if (65 <=? c) && (c <=? 90) then c + 32 else c) s.
Definition is_deployed_log (l : JsonLog) : bool :=
  match jl_topics l with t :: _ => bool_decide (lower (trim_0x t) = hex_encode swap_deployed_topic) | [] => false end.
Fixpoint scan_logs (logs : list JsonLog) : result (option bytes) BatchError :=
  match logs with
  | [] => Ok None
  | l :: logs =>
      if is_deployed_log l then
        match jl_data l with
        | None => scan_logs logs
        | Some d =>
            let? raw := map_err (fun e => Rpc (lit "log data hex: " ++ e)) (hex_decode (trim_0x d)) in
            if Nat.leb 32 (length raw) then Ok (Some (take 20 (drop 12 raw))) else scan_logs logs
        end
      else scan_logs logs
  end.
Definition find_deployed_chequebook (tx : bytes) : M (option bytes) :=
  bind (request (GetReceipt tx)) (fun a =>
    match a with
    | AReceipt _ (Some logs) => lift (scan_logs logs)
    | AReceipt _ None => ret None
    | ANull => fail (Rpc (lit "eth_getTransactionReceipt: empty result"))
    | AError m c => fail (Rpc (lit "eth_getTransactionReceipt: " ++ m ++ lit " (code " ++ c ++ lit ")"))
    | ATransport e => fail (BTransport e)
    | _ => fail (BTransport (lit "error decoding response body"))
    end).

Definition deploy_chequebook (chain_id : Z) (factory issuer : bytes) (timeout : Z) : M DeployedChequebook :=
  bind random_bytes (fun salt =>
  bind (call_view dec_address factory (DeploySimpleSwap issuer 0 salt)) (fun predicted =>
  bind (code_len predicted) (fun existing =>
  if Nat.ltb 0 existing then ret (mkDeployed predicted zero_hash true)
  else
  bind (send_signed chain_id factory (abi_encode (DeploySimpleSwap issuer 0 salt))) (fun tx =>
  bind (wait_for_success timeout tx) (fun _ =>
  bind (find_deployed_chequebook tx) (fun found =>
  let deployed := default predicted found in
  bind (call_view dec_address deployed Issuer) (fun iss =>
  if bool_decide (iss = issuer) then ret (mkDeployed deployed tx false)
  else fail (Rpc (lit "deployed chequebook " ++ hex_encode deployed ++ lit " has issuer " ++ hex_encode iss
                    ++ lit ", expected " ++ hex_encode issuer))))))))).

Definition map_error {A} (f : BatchError -> BatchError) (m : M A) : M A := fun s => let '(s, r) := m s in (s, map_err f r).
Definition fund_chequebook (chain_id : Z) (bzz_token chequebook : bytes) (amount timeout : Z) : M bytes :=
  bind (call_view dec_word bzz_token (BalanceOf from)) (fun balance =>
  if balance <? amount then fail (InsufficientBalance balance amount)
  else
  bind (map_error (fun _ => Rpc (hex_encode chequebook ++ lit " does not answer issuer()")) (call_view dec_address chequebook Issuer)) (fun iss =>
  if negb (bool_decide (iss = from))
  then fail (Rpc (lit "chequebook " ++ hex_encode chequebook ++ lit " is issued by " ++ hex_encode iss ++ lit ", not " ++ hex_encode from))
  else
  bind (send_signed chain_id bzz_token (abi_encode (Transfer chequebook amount))) (fun tx =>
  bind (wait_for_success timeout tx) (fun _ => ret tx)))).

Record CashoutQuote := mkCashout { cq_requested : Z; cq_payable : Z; cq_would_bounce : bool; cq_already_bounced : bool }.
Definition cashout (st : ChequebookState) (cumulative : Z) : CashoutQuote :=
  let requested := sat_sub cumulative (paid_out_to_us st) in
  let payable := Z.min requested (liquid_for_us st) in
  mkCashout requested payable (payable <? requested) (bounced st).
Definition quote_cashout (chequebook beneficiary : bytes) (cumulative : Z) : M CashoutQuote :=
  bind (read_chequebook_state chequebook beneficiary) (fun st => ret (cashout st cumulative)).
Definition cash_cheque (chain_id : Z) (chequebook recipient : bytes) (cumulative : Z) (signature : bytes) (timeout : Z) : M bytes :=
  bind (lift (map_err (fun _ => Rpc (lit "stored cheque is not cashable")) (check_canonical_signature signature))) (fun _ =>
  bind (send_signed chain_id chequebook (abi_encode (CashChequeBeneficiary recipient cumulative signature))) (fun tx =>
  bind (wait_for_success timeout tx) (fun _ => ret tx))).

(** ** What is sent *)

Definition sent_raw (q : Request) : option bytes := match q with SendRaw raw => Some raw | _ => None end.
Definition sent (s : Eth) : list bytes := omap sent_raw (e_log s).
(** A signed transaction of the key that calls a contract. *)
Definition is_tx (chain_id : Z) (to : bytes) (c : Call) (raw : bytes) : Prop :=
  exists n tip max_fee gas, sign_eip1559_tx chain_id n tip max_fee gas to (abi_encode c) = Ok raw.

(** Code that sends nothing. *)
Definition silent {A} (m : M A) : Prop := forall s, sent (m s).1 = sent s.

Lemma silent_ret {A} (a : A) : silent (ret a).
Proof. done. Qed.
Lemma silent_fail {A} e : silent (fail (A := A) e).
Proof. done. Qed.
Lemma silent_lift {A} (r : result A BatchError) : silent (lift r).
Proof. done. Qed.
Lemma silent_bind {A B} (m : M A) (k : A -> M B) : silent m -> (forall a, silent (k a)) -> silent (bind m k).
Proof.
  intros Hm Hk s. unfold bind. specialize (Hm s). destruct (m s) as [s1 [a|e]]; cbn [fst] in *; [|done]. by rewrite Hk.
Qed.
Lemma silent_or {A B} (m : M A) (ok : A -> M B) other : silent m -> (forall a, silent (ok a)) -> silent other -> silent (or_else m ok other).
Proof.
  intros Hm Hk Ho s. unfold or_else. specialize (Hm s). destruct (m s) as [s1 [a|e]]; cbn [fst] in *; [by rewrite Hk|by rewrite Ho].
Qed.
Lemma silent_request q : sent_raw q = None -> silent (request q).
Proof.
  intros Hq s. unfold request, sent. destruct (node (e_world s) q) as [w a]. cbn [fst e_log]. rewrite omap_app. cbn. rewrite Hq. by rewrite app_nil_r.
Qed.
Lemma silent_random : silent random_bytes.
Proof. intros s. unfold random_bytes. by destruct (random32 _). Qed.

Ltac quietly := repeat first
  [ apply silent_ret | apply silent_fail | apply silent_lift | apply silent_random | apply silent_bind; [|intros] | apply silent_or; [|intros|]
  | apply silent_request; reflexivity | progress case_match ].

Lemma silent_text q method : sent_raw q = None -> silent (raw_text q method).
Proof. intros Hq. unfold raw_text. apply silent_bind; [by apply silent_request|]. intros a. quietly. Qed.
Lemma silent_view {A} (dec : bytes -> result A str) to c : silent (call_view dec to c).
Proof. unfold call_view. apply silent_bind; [by apply silent_text|]. intros. quietly. Qed.
Lemma silent_nonce a : silent (nonce a).
Proof. unfold nonce. apply silent_bind; [by apply silent_text|]. intros. quietly. Qed.
Lemma silent_gas to data : silent (estimate_gas to data).
Proof. unfold estimate_gas. apply silent_bind; [by apply silent_text|]. intros. quietly. Qed.
Lemma silent_fees : silent fee_params.
Proof.
  unfold fee_params, pending_block. quietly; apply silent_text; done.
Qed.
Lemma silent_poll tx : silent (receipt_poll tx).
Proof. unfold receipt_poll. quietly. Qed.
Lemma silent_wait timeout tx : silent (wait_for_success timeout tx).
Proof.
  intros s. unfold wait_for_success. generalize (clock (e_world s)) as start. intros start.
  enough (Hw : forall fuel s0, match wait_loop fuel start timeout tx s0 with Some r => sent r.1 = sent s0 | None => True end).
  { specialize (Hw (polls timeout) s). by destruct (wait_loop _ _ _ _ _). }
  induction fuel as [|fuel IH]; intros s0; cbn [wait_loop]; [done|]. pose proof (silent_poll tx s0) as Hp.
  destruct (receipt_poll tx s0) as [s1 [[r|]|e]]; cbn [fst] in Hp; [done| |done]. destruct (_ <? _); [done|].
  specialize (IH (mkEth (sleep3 (e_world s1)) (e_log s1))). destruct (wait_loop _ _ _ _ _); [|done]. by rewrite IH.
Qed.

(** Sending sends one transaction at most, the one it was asked for, and one if it
    returns a hash. *)
Lemma send_one chain to c s : exists l, sent (send_signed chain to (abi_encode c) s).1 = sent s ++ l /\
  (l = [] \/ exists raw, l = [raw] /\ is_tx chain to c raw) /\
  (forall h, (send_signed chain to (abi_encode c) s).2 = Ok h -> l <> []).
Proof.
  unfold send_signed, bind. pose proof (silent_nonce from s) as Q1. destruct (nonce from s) as [s1 [n|e]]; cbn [fst snd] in *;
    [|exists []; rewrite app_nil_r; split; [done|]; split; [by left|by intros h [=]]].
  pose proof (silent_fees s1) as Q2. destruct (fee_params s1) as [s2 [fees|e]]; cbn [fst snd] in *;
    [|exists []; rewrite app_nil_r; split; [congruence|]; split; [by left|by intros h [=]]].
  pose proof (silent_gas to (abi_encode c) s2) as Q3. destruct (estimate_gas _ _ s2) as [s3 [g|e]]; cbn [fst snd] in *;
    [|exists []; rewrite app_nil_r; split; [congruence|]; split; [by left|by intros h [=]]].
  unfold lift. destruct (sign_eip1559_tx _ _ _ _ _ _ _) as [raw|e] eqn:Es; cbn [fst snd];
    [|exists []; rewrite app_nil_r; split; [congruence|]; split; [by left|by intros h [=]]].
  exists [raw]. split; [|split; [right; exists raw; split; [done|]; by eexists _, _, _, _|done]].
  assert (Hk : forall t, silent (match parse_b256 t with Some h => ret h | None => fail (Rpc (lit "tx hash parse")) end)) by (intros t; quietly).
  assert (Hr : sent (raw_text (SendRaw raw) (lit "eth_sendRawTransaction") s3).1 = sent s3 ++ [raw]).
  { unfold raw_text, bind, request. destruct (node (e_world s3) (SendRaw raw)) as [w a]. unfold sent.
    destruct a; cbn [fst ret fail e_log]; by rewrite omap_app. }
  destruct (raw_text _ _ s3) as [s4 [t|e]]; cbn [fst] in *; [rewrite Hk|]; congruence.
Qed.

Lemma bind_inv {A B} (m : M A) (k : A -> M B) s s' r : bind m k s = (s', r) ->
  (exists s1 a, m s = (s1, Ok a) /\ k a s1 = (s', r)) \/ (exists e, m s = (s', Err e) /\ r = Err e).
Proof. unfold bind. destruct (m s) as [s1 [a|e]]; [|intros [= <- <-]]; eauto 6. Qed.

Lemma silent_at {A} (m : M A) s s' r : silent m -> m s = (s', r) -> sent s' = sent s.
Proof. intros Hm E. specialize (Hm s). by rewrite E in Hm. Qed.

Lemma wait_succeeded timeout tx s s' r : wait_for_success timeout tx s = (s', Ok r) -> succeeded r = true.
Proof.
  unfold wait_for_success. generalize (clock (e_world s)) as start. intros start.
  enough (Hw : forall fuel s0 s1, wait_loop fuel start timeout tx s0 = Some (s1, Ok r) -> succeeded r = true).
  { destruct (wait_loop _ _ _ _ s) as [[s1 [r1|e]]|] eqn:E; cbn; [|done|done]. intros [= -> ->]. by eapply Hw. }
  induction fuel as [|fuel IH]; intros s0 s1; cbn [wait_loop]; [done|]. destruct (receipt_poll tx s0) as [s2 [[r2|]|e]]; [| |done].
  - destruct (succeeded r2) eqn:E; [|done]. by intros [= _ <-].
  - destruct (_ <? _); [done|apply IH].
Qed.

(** What was read before a batch is paid for, from the state [s] on. *)
Definition affordable (p : CreateBatchParams) (s : Eth) : Prop :=
  BUCKET_DEPTH < cp_depth p /\
  exists s1 s2 s3 price validity balance total,
    call_view dec_word (cp_postage_stamp p) LastPrice s = (s1, Ok price) /\
    call_view dec_word (cp_postage_stamp p) MinimumValidityBlocks s1 = (s2, Ok validity) /\
    call_view dec_word (cp_bzz_token p) (BalanceOf from) s2 = (s3, Ok balance) /\
    batch_total p = Ok total /\ min_initial price validity < cp_initial_balance_per_chunk p /\ total <= balance.

Lemma approve_sends p total s s' r : approve p total s = (s', r) ->
  exists l, sent s' = sent s ++ l /\
    (l = [] \/ exists raw, l = [raw] /\ is_tx (cp_chain_id p) (cp_bzz_token p) (Approve (cp_postage_stamp p) total) raw).
Proof.
  intros [(s1 & allowance & E1 & E)|(e & E1 & ->)]%bind_inv; apply (silent_at _ _ _ _ (silent_view _ _ _)) in E1; [|exists []; rewrite app_nil_r; auto].
  rewrite <- E1. clear E1. assert (Hafter : forall tx s2, (bind (if bool_decide (tx = zero_hash) then ret tt
      else bind (wait_for_success (cp_receipt_timeout p) tx) (fun _ => ret tt)) (fun _ => ret tx)) s2 = (s', r) -> sent s' = sent s2).
  { intros tx s2. apply silent_at. apply silent_bind; [|intros; apply silent_ret]. destruct (bool_decide _); [apply silent_ret|].
    apply silent_bind; [apply silent_wait|intros; apply silent_ret]. }
  apply bind_inv in E as [(s2 & tx & E2 & E)|(e & E2 & ->)].
  - apply Hafter in E. rewrite E. destruct (total <=? allowance).
    + injection E2 as <- _. exists []. rewrite app_nil_r. auto.
    + destruct (send_one (cp_chain_id p) (cp_bzz_token p) (Approve (cp_postage_stamp p) total) s1) as (l & Hl & Hc & _).
      rewrite E2 in Hl. exists l. auto.
  - destruct (total <=? allowance); [done|].
    destruct (send_one (cp_chain_id p) (cp_bzz_token p) (Approve (cp_postage_stamp p) total) s1) as (l & Hl & Hc & _).
    rewrite E2 in Hl. exists l. auto.
Qed.

(** What a purchase may send: an approval [la], then the purchase [lc]. *)
Definition purchase (p : CreateBatchParams) (s s' : Eth) (r : result BatchCreatedInfo BatchError) (la lc : list bytes) : Prop :=
  sent s' = sent s ++ la ++ lc /\
  (la ++ lc <> [] -> affordable p s) /\
  (la = [] \/ exists total raw, batch_total p = Ok total /\ la = [raw] /\
     is_tx (cp_chain_id p) (cp_bzz_token p) (Approve (cp_postage_stamp p) total) raw) /\
  (lc = [] \/ exists n raw, lc = [raw] /\ is_tx (cp_chain_id p) (cp_postage_stamp p) (create_call p n) raw) /\
  (forall info, r = Ok info -> lc <> [] /\ exists rc, succeeded rc = true /\ find_created (cp_postage_stamp p) rc = Ok (ci_event info)).


(** Funding a chequebook sends one transfer at most, of the amount asked for and to a
    chequebook that says it is issued by the key, whose balance covers it. *)
Theorem fund_chequebook_safe chain token book amount timeout s s' r : fund_chequebook chain token book amount timeout s = (s', r) ->
  exists l, sent s' = sent s ++ l /\
    (l = [] \/ (exists raw, l = [raw] /\ is_tx chain token (Transfer book amount) raw) /\
       exists s1 s2 balance, call_view dec_word token (BalanceOf from) s = (s1, Ok balance) /\ amount <= balance /\
         call_view dec_address book Issuer s1 = (s2, Ok from)).
Proof.
  assert (Hno : sent s' = sent s -> exists l, sent s' = sent s ++ l /\
    (l = [] \/ (exists raw, l = [raw] /\ is_tx chain token (Transfer book amount) raw) /\
       exists s1 s2 balance, call_view dec_word token (BalanceOf from) s = (s1, Ok balance) /\ amount <= balance /\
         call_view dec_address book Issuer s1 = (s2, Ok from))) by (intros ->; exists []; rewrite app_nil_r; auto).
  unfold fund_chequebook.
  intros [(s1 & balance & E1 & E)|(e & E1 & ->)]%bind_inv; pose proof (silent_at _ _ _ _ (silent_view _ _ _) E1) as Q1; [|auto].
  destruct (Z.ltb_spec balance amount); [injection E as <- <-; auto|]. unfold map_error, bind at 1 in E.
  destruct (call_view dec_address book Issuer s1) as [s2 ri] eqn:E2. pose proof (silent_at _ _ _ _ (silent_view _ _ _) E2) as Q2.
  destruct ri as [iss|e]; cbn [map_err] in E; [|injection E as <- <-; apply Hno; congruence].
  case_bool_decide as Hi; cbn [negb] in E; [|injection E as <- <-; apply Hno; congruence]. subst iss.
  destruct (send_one chain token (Transfer book amount) s2) as (l & Hl & Hc & _). exists l.
  assert (Hs : sent s' = sent s ++ l).
  { rewrite <- Q1, <- Q2, <- Hl. apply bind_inv in E as [(s3 & tx & E3 & E)|(e & E3 & ->)]; rewrite E3; [|done].
    refine (silent_at _ _ _ _ _ E). apply silent_bind; [apply silent_wait|intros; apply silent_ret]. }
  split; [done|]. destruct Hc as [|Hc]; [by left|]. right. split; [done|]. exists s1, s2, balance. auto.
Qed.

(** *** Waiting for a receipt ends *)

(** With a clock that does not go back, on which a sleep takes its three seconds, the
    polls are within the bound. *)
Theorem receipt_wait_ends timeout tx s : 0 <= timeout ->
  (forall w q, clock w <= clock (node w q).1) -> (forall w, clock w + 3000 <= clock (sleep3 w)) ->
  is_Some (wait_loop (polls timeout) (clock (e_world s)) timeout tx s).
Proof.
  intros Ht Hn Hs. unfold polls. set (start := clock (e_world s)).
  assert (Hp : forall s0, clock (e_world s0) <= clock (e_world (receipt_poll tx s0).1)).
  { intros s0. unfold receipt_poll, bind, request. specialize (Hn (e_world s0) (GetReceipt tx)). destruct (node _ _) as [w a].
    cbn [fst] in Hn. by repeat case_match. }
  assert (Hgen : forall fuel s0, timeout - (clock (e_world s0) - start) < 3000 * Z.of_nat fuel -> is_Some (wait_loop (S fuel) start timeout tx s0)).
  { induction fuel as [|fuel IH]; intros s0 Hf; cbn [wait_loop]; specialize (Hp s0);
      (destruct (receipt_poll tx s0) as [s1 [[r|]|e]]; cbn [fst] in Hp; [eauto| |eauto]).
    - rewrite (proj2 (Z.ltb_lt _ _)) by lia. eauto.
    - destruct (_ <? _); [eauto|]. apply IH. cbn [e_world]. specialize (Hs (e_world s1)). lia. }
  apply Hgen. unfold start. pose proof (Z.div_mod timeout 3000 ltac:(lia)). pose proof (Z.mod_pos_bound timeout 3000 ltac:(lia)).
  pose proof (Z.div_pos timeout 3000 ltac:(lia) ltac:(lia)). lia.
Qed.
End Chain.

(** ** Sizes, prices and batched calls *)

(** The amount a duration costs is exact, and the contract's minimum is below it. *)
Theorem amount_covers_validity last_price duration_secs min_validity : 0 <= last_price <= U64_MAX -> 0 <= duration_secs <= U64_MAX ->
  0 <= min_validity -> min_validity * GNOSIS_BLOCK_TIME_SECS <= duration_secs ->
  amount_for_duration last_price duration_secs = div_ceil duration_secs GNOSIS_BLOCK_TIME_SECS * last_price + 10 /\
  min_initial last_price min_validity < amount_for_duration last_price duration_secs.
Proof.
  intros Hp Hd Hv Hm. unfold amount_for_duration, min_initial, GNOSIS_BLOCK_TIME_SECS in *.
  pose proof (div_ceil_spec duration_secs 5 ltac:(lia)) as Hc. set (b := div_ceil duration_secs 5) in *.
  assert (Hb : 0 <= b <= U64_MAX /\ min_validity <= b) by lia.
  assert (Hmul : 0 <= b * last_price <= U64_MAX * U64_MAX) by (split; [nia|apply Z.mul_le_mono_nonneg; lia]).
  assert (Hmul2 : last_price * min_validity <= b * last_price) by nia.
  unfold sat_mul, wrap, U256_MAX. assert (Hbig : U64_MAX * U64_MAX + 10 < 2 ^ 256 - 1) by reflexivity.
  rewrite (Z.min_r _ (b * last_price)) by lia. rewrite Z.mod_small by lia. split; [done|]. lia.
Qed.

(** The depth of a size is the first of the table that holds it. *)
Theorem depth_first_fit n d : depth_for_size n = Some d ->
  exists v, (d, v) ∈ EFFECTIVE_VOLUME_GIB /\ f64_le (f64_div (f64_of_Z n) (f64_of_Z (1024 ^ 3))) v = true /\
    forall d' v', (d', v') ∈ EFFECTIVE_VOLUME_GIB -> d' < d -> f64_le (f64_div (f64_of_Z n) (f64_of_Z (1024 ^ 3))) v' = false.
Proof.
  unfold depth_for_size. set (x := f64_div _ _). cbv zeta.
  assert (Hsorted : forall i j a b, EFFECTIVE_VOLUME_GIB !! i = Some a -> EFFECTIVE_VOLUME_GIB !! j = Some b -> (i < j)%nat -> a.1 < b.1).
  { assert (Hl : forall i a, EFFECTIVE_VOLUME_GIB !! i = Some a -> a.1 = 17 + Z.of_nat i).
    { intros i a Ha. pose proof (lookup_lt_Some _ _ _ Ha) as Hi. change (i < 25)%nat in Hi.
      do 25 (destruct i as [|i]; [by injection Ha as <-|]). lia. }
    intros i j a b Ha Hb Hij. rewrite (Hl i a Ha), (Hl j b Hb). lia. }
  revert Hsorted. generalize EFFECTIVE_VOLUME_GIB as t. intros t Hs.
  destruct (List.find _ t) as [[d0 v]|] eqn:Ef; [|done]. cbn. intros [= ->].
  apply List.find_some in Ef as Hin. destruct Hin as [Hin Hle]. exists v. split; [by apply list_elem_of_In|]. split; [done|].
  intros d' v' Hin' Hlt. revert Hs Ef Hin'. clear Hin. induction t as [|[d1 v1] t IH]; intros Hs Ef Hin'; [by apply not_elem_of_nil in Hin'|].
  cbn [List.find snd] in Ef. destruct (f64_le x v1) eqn:E1.
  - injection Ef as -> ->. apply elem_of_cons in Hin' as [[= -> ->]|Hin']; [lia|]. apply list_elem_of_lookup_1 in Hin' as (k & Hk).
    specialize (Hs 0%nat (S k) (d, v) (d', v') eq_refl Hk ltac:(lia)). cbn in Hs. lia.
  - apply elem_of_cons in Hin' as [[= -> ->]|Hin']; [done|]. apply IH; [|done|done].
    intros i j a b Ha Hb Hij. exact (Hs (S i) (S j) a b Ha Hb ltac:(lia)).
Qed.

Section Batched.
Context `{Hex}.

Definition item (i : nat) (t : str) : BatchItem := mkItem None (Some (Z.of_nat i)) (Some t).

Lemma place_all (bs : list bytes) (l : list (nat * str)) : (forall i t, (i, t) ∈ l -> exists b, bs !! i = Some b /\ hex_bytes t = Ok b) ->
  forall out, length out = length bs ->
  exists out', foldl place_item (Ok out) (map (fun it => item it.1 it.2) l) = Ok out' /\ length out' = length bs /\
    forall i, out' !! i = if bool_decide (i ∈ map fst l) then bs !! i else out !! i.
Proof.
  induction l as [|[i t] l IH]; intros Hl out Ho; cbn [map foldl].
  - exists out. split; [done|]. split; [done|]. intros j. rewrite bool_decide_eq_false_2; [done|]. apply not_elem_of_nil.
  - destruct (Hl i t ltac:(left)) as (b & Hb & Ht). pose proof (lookup_lt_Some _ _ _ Hb) as Hi.
    assert (Hstep : place_item (Ok out) (item i t) = Ok (<[i := b]> out)).
    { unfold place_item, item. cbn [result_bind bi_error bi_id bi_result]. rewrite (proj2 (Z.ltb_lt _ _)) by lia. cbn [negb].
      rewrite Ht. cbn [result_bind]. by rewrite Nat2Z.id. }
    cbn [fst snd]. rewrite Hstep. destruct (IH (fun j u Hj => Hl j u (list_elem_of_further _ _ _ Hj)) (<[i := b]> out)) as (out' & E1 & E2 & E3);
      [by rewrite length_insert|]. exists out'. split; [done|]. split; [done|]. intros j. rewrite E3.
    destruct (decide (j = i)) as [->|Hne].
    + rewrite (bool_decide_eq_true_2 (i ∈ i :: _)) by left. case_bool_decide; [done|]. rewrite list_lookup_insert_eq by lia. done.
    + rewrite list_lookup_insert_ne by done. rewrite (bool_decide_ext (j ∈ i :: map fst l) (j ∈ map fst l)); [done|].
      rewrite elem_of_cons. naive_solver.
Qed.

(** The answers to a batch of calls are read by their ids: in whatever order the node
    puts them, the results are those of the calls in their order. *)
Theorem batched_in_any_order texts bs items : Forall2 (fun t b => hex_bytes t = Ok b) texts bs ->
  items ≡ₚ imap item texts -> collect_items (length texts) items = Ok bs.
Proof.
  intros Hf Hp. pose proof (Forall2_length _ _ _ Hf) as Hlen.
  assert (He : imap item texts = map (fun it => item it.1 it.2) (imap pair texts)).
  { etrans; [|symmetry; apply (fmap_imap pair)]. done. }
  rewrite He in Hp. apply Permutation_map_inv in Hp as (l & -> & Hp).
  unfold collect_items. rewrite length_map. assert (Hll : length l = length texts) by (rewrite <- Hp; by rewrite length_imap).
  rewrite Hll, Nat.eqb_refl. cbn [negb].
  assert (Hin : forall i t, (i, t) ∈ l <-> texts !! i = Some t).
  { intros i t. rewrite <- Hp. rewrite elem_of_lookup_imap. split; [intros (j & x & [= -> ->] & ?); done|]. intros Hx. eauto. }
  destruct (place_all bs l) with (out := replicate (length texts) ([] : bytes)) as (out' & E1 & E2 & E3).
  - intros i t Hit. apply Hin in Hit. by apply (Forall2_lookup_l _ _ _ _ _ Hf) in Hit.
  - by rewrite length_replicate.
  - rewrite E1. f_equal. apply list_eq. intros i. rewrite E3. case_bool_decide as Hi; [done|].
    destruct (decide (i < length texts)%nat) as [Hlt|Hge].
    + exfalso. apply Hi. destruct (lookup_lt_is_Some_2 _ _ Hlt) as [t Ht]. apply Hin in Ht. by apply (list_elem_of_fmap_2 fst) in Ht.
    + rewrite (proj2 (lookup_ge_None bs i)) by lia. apply lookup_ge_None. rewrite length_replicate. lia.
Qed.
End Batched.

(** ** A concrete purchase *)
Module ChainWitness.
#[local] Instance toy_abi : Abi := {
  abi_encode c := match c with LastPrice => [1] | MinimumValidityBlocks => [2] | BalanceOf _ => [3] | Allowance _ _ => [4] | Approve _ _ => [5] | CreateBatch _ _ _ _ _ _ => [6] | _ => [] end;
  dec_word b := Ok (from_be_bytes b); dec_address b := Ok b; dec_bool b := Ok (bool_decide (b <> [])); dec_batches b := Err [];
  parse_address s := Some s; parse_b256 s := Some s; batch_created_topic := [7]; swap_deployed_topic := [8];
  decode_created topics data := Ok (mkCreated data 0 0 [] 17 16 false) }.
#[local] Instance toy_rlp : Rlp := { rlp_uint n := [n]; rlp_bytes b := b; rlp_list n := [Z.of_nat n] }.

(** A price of 2, a validity of 3 blocks, a balance of 2^24 and no allowance. *)
Definition toy_node (w : Z) (q : Request) : Z * Answer :=
  (w + 1, match q with
          | EthCall _ [1] => AText (lit "02")
          | EthCall _ [2] => AText (lit "03")
          | EthCall _ [3] => AText (lit "0x01000000")
          | TransactionCount _ | EstimateGas _ _ _ => AText (lit "0x10")
          | PendingBlock => ABlock None
          | MaxPriorityFee => AText (lit "0x1")
          | SendRaw _ => AText [9]
          | GetReceipt _ => AReceipt (Some (mkReceipt (lit "0x1") [mkLog (lit "stamp") [[7]] (lit "0b")])) None
          | _ => AText []
          end).
Definition toy_params : CreateBatchParams := mkParamsCB (lit "me") (lit "stamp") (lit "token") 7 17 false 100 120000.
Definition toy_sign (h : bytes) : result (Z * Z * Z) str := Ok (0, 1, 2).
Definition buy : Eth (W := Z) * result BatchCreatedInfo BatchError :=
  create_batch (fun b => b) toy_node (fun w => (w, Ok [5])) (fun w => w) (fun w => w + 3000) (lit "me") toy_sign toy_params (mkEth 0 []).


(** It buys the batch, with an approval and a purchase. *)
Example buys : exists info, buy.2 = Ok info /\ length (sent buy.1) = 2%nat.
Proof. vm_compute. eauto. Qed.
End ChainWitness.
