(* ===== verification/Relay.v ===== *)
(** * The relay's request handlers ([src/src/pusher.rs], [src/src/protocols/swap.rs])

    Metered admission and its guard, the admission loop of a push, the payment,
    challenge and account endpoints.  The HTTP library is reduced to the header
    values and bodies the handlers read and the responses they return; the
    chain's answers, the clock and disk faults are arguments. *)
From Stdlib Require Import ZArith Lia.
From stdpp Require Import base tactics numbers strings list gmap.
From S2P Require Import Prelude Codec Signer Challenge Ledger Fifo F64 InboundLimit Meter Metered PushFrame Stamp Swap.
Local Open Scope Z_scope.
Local Open Scope hov_scope.

Definition PUSH_BATCH_MAX : nat := 512.
Definition PUSH_MAX_BODY : Z := Z.of_nat PUSH_BATCH_MAX * Z.of_nat MAX_FRAME_LEN + 4096.
Definition OWNER_CACHE_CAP : nat := 4096.
Definition OWNER_OK_TTL : Z := 1800 * 1000000000.
Definition OWNER_BAD_TTL : Z := 300 * 1000000000.
Definition PUSH_MAX_BATCH_LOOKUPS : nat := 8.
Definition RECENT_ACK_CAP : nat := 8192.
Definition RECENT_ACK_TTL : Z := 120 * 1000000000.

(** A response: its status and what the body says. *)
Inductive RespBody :=
| Line (msg : str)
| PaymentRequired (outstanding_ max_outstanding settle_every : Z)
| PayAccepted (accepted cumulative owed_ outstanding_ : Z)
| AccountRow (acct : bytes) (owed_ reserved_ outstanding_ max_outstanding settle_every min_cheque : Z)
| ChallengeBody (v : JValue)
| AckStream.

Record Response := mkResp { status : Z; resp : RespBody }.

Record Clock := mkClock { unix : Z; instant : Z }.

(** ** The owner cache and the recent acknowledgements *)

(** [enum OwnerLookup] and [struct OwnerCache]. *)
Inductive OwnerLookup := Owner (o : bytes) (value : Z) | Rejected (why : str).

Record OwnerCache := mkOwners { oc_map : gmap str (OwnerLookup * Z); oc_order : list str; oc_cap : nat }.

Definition owner_get (c : OwnerCache) (id : str) (now : Z) : option OwnerLookup :=
  match oc_map c !! id with
  | Some (e, at_) =>
      let ttl := match e with Owner _ _ => OWNER_OK_TTL | Rejected _ => OWNER_BAD_TTL end in
      if sat_sub now at_ <? ttl then Some e else None
  | None => None
  end.

Definition owner_insert (c : OwnerCache) (id : str) (e : OwnerLookup) (now : Z) : OwnerCache :=
  let '(m, o) := fifo_put (oc_map c) (oc_order c) id (e, now) in
  let '(m, o, _) := evict (fun _ (u : unit) => u) (oc_cap c) m o tt in
  mkOwners m o (oc_cap c).

(** [struct RecentAcks]. *)
Record RecentAcks := mkRecent {
  seen : gmap (bytes * bytes) Z; ra_order : list (bytes * bytes); ra_cap : nat; ra_ttl : Z }.

Definition recent_contains (r : RecentAcks) (addr bid : bytes) (now : Z) : bool :=
  match seen r !! (addr, bid) with Some t => sat_sub now t <? ra_ttl r | None => false end.

Definition recent_insert (r : RecentAcks) (addr bid : bytes) (now : Z) : RecentAcks :=
  let '(m, o) := fifo_put (seen r) (ra_order r) (addr, bid) now in
  let '(m, o, _) := evict (fun _ (u : unit) => u) (ra_cap r) m o tt in
  mkRecent m o (ra_cap r) (ra_ttl r).

(** What the chain says of a batch: [read_batch] and [read_remaining_balance] of batch.rs. *)
Record BatchInfo := mkBatchInfo { not_found : bool; bi_owner : bytes; depth : Z }.
Record BatchAnswer := mkAnswer { ba_info : result BatchInfo str; ba_remaining : result Z str }.

(** [fn resolve_owner]; [chain n] is the chain's answer when [n] lookups are left. *)
Definition resolve_owner (c : OwnerCache) (chain : nat -> str -> BatchAnswer) (id : str) (budget : nat) (now : Z)
    : OwnerCache * nat * result (bytes * Z) str :=
  match owner_get c id now with
  | Some (Owner o value) => (c, budget, Ok (o, value))
  | Some (Rejected why) => (c, budget, Err why)
  | None =>
      match budget with
      | O => (c, O, Err (lit "batch " ++ id ++ lit ": too many distinct batches in one request (limit "
                ++ u128_to_string (Z.of_nat PUSH_MAX_BATCH_LOOKUPS) ++ lit "); split them across requests"))
      | S budget' =>
          let a := chain budget id in
          match ba_info a with
          | Err e => (c, budget', Err (lit "batch owner RPC: " ++ e))
          | Ok info =>
              if not_found info then
                let why := lit "batch " ++ id ++ lit " not found on-chain" in
                (owner_insert c id (Rejected why) now, budget', Err why)
              else
                match ba_remaining a with
                | Err e => (c, budget', Err (lit "batch balance RPC: " ++ e))
                | Ok remaining =>
                    if remaining =? 0 then
                      let why := lit "batch " ++ id ++ lit " has expired (zero remaining balance) " ++ 0x2014 :: lit " bees would reject every stamp" in
                      (owner_insert c id (Rejected why) now, budget', Err why)
                    else
                      let depth_factor := if depth info <? 128 then 2 ^ depth info else U128_MAX in
                      let value := sat_mul U128_MAX (Z.min remaining U128_MAX) depth_factor in
                      (owner_insert c id (Owner (bi_owner info) value) now, budget', Ok (bi_owner info, value))
                end
          end
      end
  end.

(** ** Metered admission *)

(** [struct Admitted] (its [state] and [settled] flag are the Rust guard). *)
Record AdmittedGuard := mkAdmitted { ad_account : bytes; ad_batch : bytes; ad_reserved : Z }.

(** [v.parse::<u64>()]. *)
Definition u64_parse (s : str) : option Z :=
  match u128_parse s with Ok n => if n <=? U64_MAX then Some n else None | Err _ => None end.

Section Handlers.
Context `{Crypto} `{Hex} `{HeaderCodec}.
Context (to_vec_pretty : OnDisk -> bytes).

(** [fn admit_metered] of a metered relay; [hdr] and [clen] are the request's
    challenge and [Content-Length] headers. *)
Definition admit_metered (m : Metered) (hdr clen : option str) (c : Clock)
    : Metered * result (option AdmittedGuard) Response :=
  let raw := default [] hdr in
  match raw with
  | [] =>
      if hard_mode (cfg m)
      then (m, Err (mkResp 401 (Line (lit "metered relay: a challenge is required (GET /v1/challenge)"))))
      else (m, Ok None)
  | _ =>
      match verify_header m raw (unix c) with
      | Err e => (m, Err (mkResp 401 (Line e)))
      | Ok verified =>
          let '(m, ok) := allow_account m (v_account verified) (instant c) in
          if negb ok then (m, Err (mkResp 429 (Line (lit "slow down"))))
          else if shed_reservations m
          then (m, Err (mkResp 503 (Line (lit "too many accounts with live reservations"))))
          else
            match clen ≫= u64_parse with
            | None => (m, Err (mkResp 411 (Line (lit "metered mode requires Content-Length so the reservation can be bounded"))))
            | Some declared =>
                if PUSH_MAX_BODY <? declared then (m, Err (mkResp 413 (Line (lit "body exceeds limit"))))
                else
                  let '(m, adm) := reserve_for_body m (v_account verified) declared (v_cap_plur verified) in
                  if over_cap adm && hard_mode (cfg m) then
                    (with_ledger m (release (ledger m) (v_account verified) (adm_reserved_plur adm)) (files m),
                     Err (mkResp 402 (PaymentRequired (outstanding_plur adm) (Ledger.cap_plur adm)
                            (settle_every_plur (params (cfg m))))))
                  else (m, Ok (Some (mkAdmitted (v_account verified) (v_batch verified) (adm_reserved_plur adm))))
            end
      end
  end.

(** [Admitted::commit]. *)
Definition commit_admitted (m : Metered) (a : AdmittedGuard) (billable_bytes : Z) (f : Fault) : Metered :=
  let billed := price_bytes (params (cfg m)) billable_bytes in
  let l := commit (ledger m) (ad_account a) (ad_reserved a) billed in
  let '(d, _) := persist to_vec_pretty l (files m) f in
  with_ledger m l d.

(** [Drop for Admitted] of a guard that was not settled. *)
Definition drop_admitted (m : Metered) (a : AdmittedGuard) : Metered :=
  with_ledger m (release (ledger m) (ad_account a) (ad_reserved a)) (files m).

(** ** The admission loop of [run_push] *)

Inductive Ack := AckErr (addr : bytes) (msg : str) | AckDedup (addr : bytes).

(** The loop's local variables. *)
Record PushAcc := mkAcc {
  accepted : list StampedChunk;
  batch_owner : option (bytes * Z);
  batch_hex : option str;
  tally : PostTally;
  billable_bytes : Z;
  batch_of : gmap bytes bytes;
  rpc_budget : nat;
  dedup_hits : nat;
  acks : list Ack;
  owners : OwnerCache }.

Definition push_start (c : OwnerCache) : PushAcc :=
  mkAcc [] None None [] 0 ∅ PUSH_MAX_BATCH_LOOKUPS 0 [] c.

Definition add_ack (p : PushAcc) (a : Ack) : PushAcc :=
  mkAcc (accepted p) (batch_owner p) (batch_hex p) (tally p) (billable_bytes p) (batch_of p)
    (rpc_budget p) (dedup_hits p) (acks p ++ [a]) (owners p).

Definition stamp_error_text (e : StampError) : str :=
  match e with
  | BadLength n => lit "expected 113-byte stamp, got " ++ u128_to_string (Z.of_nat n)
  | BadSignature s => lit "malformed signature: " ++ s
  | ZeroSigner => lit "recovered signer is zero address (forged stamp)"
  end.

Definition frame_size (c : StampedChunk) : Z := Z.of_nat (HEADER_LEN + length (sc_wire c)).

(** The owner of the frame's batch: the previous frame's, or a lookup. *)
Definition frame_owner (p : PushAcc) (chain : nat -> str -> BatchAnswer) (bid : str) (now : Z)
    : PushAcc * result (option (bytes * Z)) str :=
  if bool_decide (batch_hex p = Some bid) then (p, Ok (batch_owner p))
  else
    let '(c, b, r) := resolve_owner (owners p) chain bid (rpc_budget p) now in
    match r with
    | Ok o => (mkAcc (accepted p) (Some o) (Some bid) (tally p) (billable_bytes p) (batch_of p) b
                 (dedup_hits p) (acks p) c, Ok (Some o))
    | Err e => (mkAcc (accepted p) (batch_owner p) (batch_hex p) (tally p) (billable_bytes p) (batch_of p) b
                 (dedup_hits p) (acks p) c, Err e)
    end.

(** A frame that passed its checks. *)
Definition take_frame (p : PushAcc) (recent : RecentAcks) (chunk : StampedChunk) (o : bytes) (value : Z)
    (bid : bytes) (now : Z) : PushAcc :=
  let key := mkKey o bid in
  let fb := frame_size chunk in
  let t := tally_admit (tally p) key value fb in
  let billable := wrap 64 (billable_bytes p + fb) in
  if recent_contains recent (sc_addr chunk) bid now then
    mkAcc (accepted p) (batch_owner p) (batch_hex p) (tally_dedup t key value fb) (sat_sub billable fb)
      (batch_of p) (rpc_budget p) (S (dedup_hits p)) (acks p ++ [AckDedup (sc_addr chunk)]) (owners p)
  else
    mkAcc (accepted p ++ [chunk]) (batch_owner p) (batch_hex p) t billable
      (<[sc_addr chunk := bid]> (batch_of p)) (rpc_budget p) (dedup_hits p) (acks p) (owners p).

(** One iteration: [for chunk in chunks]. *)
Definition admit_frame (recent : RecentAcks) (chain : nat -> str -> BatchAnswer) (admitted : option AdmittedGuard)
    (now : Z) (p : PushAcc) (chunk : StampedChunk) : PushAcc :=
  match validate (sc_addr chunk) (sc_stamp chunk) with
  | Err e => add_ack p (AckErr (sc_addr chunk) (lit "bad stamp: " ++ stamp_error_text e))
  | Ok vs =>
      let '(p, owner) := frame_owner p chain (hex_encode (batch_id vs)) now in
      match owner with
      | Err e => add_ack p (AckErr (sc_addr chunk) e)
      | Ok None => add_ack p (AckErr (sc_addr chunk) (lit "batch owner unresolved"))
      | Ok (Some (o, value)) =>
          if bool_decide (o = vs_signer vs) then
            if match admitted with Some adm => bool_decide (batch_id vs <> ad_batch adm) | None => false end
            then add_ack p (AckErr (sc_addr chunk)
                   (lit "frame batch does not match the challenge (one batch per request)"))
            else take_frame p recent chunk o value (batch_id vs) now
          else add_ack p (AckErr (sc_addr chunk)
                 (lit "stamp signer 0x" ++ hex_encode (vs_signer vs)
                    ++ lit " is not the on-chain batch owner 0x" ++ hex_encode o))
      end
  end.

Definition admit_frames (recent : RecentAcks) (chain : nat -> str -> BatchAnswer) (admitted : option AdmittedGuard)
    (now : Z) (c : OwnerCache) (chunks : list StampedChunk) : PushAcc :=
  foldl (admit_frame recent chain admitted now) (push_start c) chunks.

(** What becomes of the guard when the loop is done: commit what was billed. *)
Definition settle_push (m : Metered) (admitted : option AdmittedGuard) (p : PushAcc) (f : Fault) : Metered :=
  match admitted with
  | Some a => commit_admitted m a (billable_bytes p) f
  | None => m
  end.

(** The shadow meter's part of [run_push]. *)
Definition meter_push (mt : Meter) (p : PushAcc) (now : Z) : Meter :=
  match tally p with [] => mt | t => merge mt now t end.

(** Recording the acknowledged chunks when the dispatcher is done. *)
Definition record_acks (r : RecentAcks) (p : PushAcc) (acked : list (bytes * bool)) (now : Z) : RecentAcks :=
  foldl (fun r '(a, ok) =>
    if ok : bool then recent_insert r a (default (replicate 32 0) (batch_of p !! a)) now else r) r acked.

(** [fn push_response] up to the spawned dispatcher: admission, the bounded body
    read ([None] is the timeout, an error an over-long body), decoding and the
    admission loop.  Every early return drops the guard. *)
Definition push_response (m : Metered) (hdr clen : option str) (body : option (result bytes unit))
    (c : Clock) (recent : RecentAcks) (chain : nat -> str -> BatchAnswer) (oc : OwnerCache) (f : Fault)
    : Metered * result PushAcc Response :=
  let '(m, adm) := admit_metered m hdr clen c in
  match adm with
  | Err e => (m, Err e)
  | Ok admitted =>
      let bail code msg :=
        (match admitted with Some a => drop_admitted m a | None => m end, Err (mkResp code (Line msg))) in
      match body with
      | None => bail 408 (lit "body read timed out")
      | Some (Err _) => bail 413 (lit "body exceeds limit or read error")
      | Some (Ok b) =>
          match decode_batch b PUSH_BATCH_MAX with
          | None | Some (Err _) => bail 400 (lit "frame decode: ")
          | Some (Ok []) => bail 400 (lit "empty batch")
          | Some (Ok chunks) =>
              let p := admit_frames recent chain admitted (instant c) oc chunks in
              (settle_push m admitted p f, Ok p)
          end
      end
  end.

(** ** Payment *)

(** What the chain answers during a payment. *)
Record PayChain := mkPayChain { pc_deployed : result bool str; pc_state : result ChequebookState str }.

Definition ledger_error_text (e : LedgerError) : str :=
  match e with
  | NotIncreasing got have => lit "cheque cumulative " ++ u128_to_string got ++ lit " is not greater than the "
      ++ u128_to_string have ++ lit " already accepted"
  | ChequebookBound cb => lit "chequebook 0x" ++ cb ++ lit " is already bound to a different account"
  | Absurd n => lit "cumulative " ++ u128_to_string n ++ lit " is implausibly large"
  | Overpayment got o => lit "cheque credits " ++ u128_to_string got ++ lit " but only " ++ u128_to_string o ++ lit " is owed"
  | Store s => lit "ledger persist failed: " ++ s
  end.

(** The end of [fn pay_response]: the funding check and the credit. *)
Definition pay_credit (m : Metered) (verified : VerifiedChallenge) (cheque : SignedCheque)
    (st : ChequebookState) (recovered : bytes) (f : Fault) : Metered * Response :=
  let cumulative := cumulative_payout cheque in
  if bounced st then (m, mkResp 400 (Line (lit "chequebook has bounced a cheque before and is refused")))
  else if negb (bool_decide (issuer st = recovered))
  then (m, mkResp 400 (Line (lit "cheque was not signed by the issuer")))
  else if negb (bool_decide (issuer st = v_account verified))
  then (m, mkResp 400 (Line (lit "chequebook issuer is not the account that owns this batch")))
  else
    let paid_out := Z.min (paid_out_to_us st) U128_MAX in
    let liquid := Z.min (liquid_for_us st) U128_MAX in
    if liquid <? sat_sub cumulative paid_out
    then (m, mkResp 400 (Line (lit "chequebook cannot cover this cheque")))
    else
      let '(m, r) := metered_credit to_vec_pretty m (v_account verified) (sc_chequebook cheque) cumulative
                       (sc_signature cheque) f in
      match r with
      | Ok acc =>
          let m := invalidate_chequebook m (sc_chequebook cheque) in
          (m, mkResp 200 (PayAccepted acc cumulative (owed (ledger m) (v_account verified))
                (outstanding (ledger m) (v_account verified))))
      | Err (Store _) => (m, mkResp 503 (Line (lit "ledger write failed; re-present the same cheque")))
      | Err e => (m, mkResp 400 (Line (ledger_error_text e)))
      end.

(** The chain-dependent middle: deployment, issuer signature, chequebook state. *)
Definition pay_verify (m : Metered) (verified : VerifiedChallenge) (cheque : SignedCheque) (pc : PayChain)
    (c : Clock) (f : Fault) : Metered * Response :=
  let '(m, dep) := is_deployed m (pc_deployed pc) (sc_chequebook cheque) (instant c) in
  match dep with
  | Err e => (m, mkResp 502 (Line e))
  | Ok false => (m, mkResp 400 (Line (lit "chequebook was not deployed by the canonical factory")))
  | Ok true =>
      match recover_cheque_issuer (sc_chequebook cheque) (sc_beneficiary cheque) (cumulative_payout cheque)
              (chain_id (cfg m)) (sc_signature cheque) with
      | Err e => (m, mkResp 400 (Line (signer_error_text e)))
      | Ok recovered =>
          let '(m, st) := chequebook_state m (pc_state pc) (sc_chequebook cheque) (instant c) in
          match st with
          | Err e => (m, mkResp 502 (Line e))
          | Ok st => pay_credit m verified cheque st recovered f
          end
      end
  end.

(** [fn pay_response]; [body] is what [read_body_limited] returns: the bytes, or the
    status and text of its refusal. *)
Definition pay_response (m : Metered) (hdr : option str) (body : result bytes (Z * str)) (pc : PayChain)
    (c : Clock) (f : Fault) : Metered * Response :=
  match verify_header m (default [] hdr) (unix c) with
  | Err e => (m, mkResp 401 (Line e))
  | Ok verified =>
      let '(m, ok) := allow_account m (v_account verified) (instant c) in
      if negb ok then (m, mkResp 429 (Line (lit "slow down")))
      else if owed (ledger m) (v_account verified) =? 0
      then (m, mkResp 400 (Line (lit "nothing owed on this account")))
      else
        match body with
        | Err (code, msg) => (m, mkResp code (Line msg))
        | Ok b =>
            match decode_signed_cheque_json b with
            | Err e => (m, mkResp 400 (Line e))
            | Ok cheque =>
                if negb (bool_decide (sc_beneficiary cheque = beneficiary (cfg m)))
                then (m, mkResp 400 (Line (lit "cheque is not made out to us")))
                else
                  let cumulative := cumulative_payout cheque in
                  if MAX_CUMULATIVE_PLUR <? cumulative
                  then (m, mkResp 400 (Line (lit "cumulative payout is implausible")))
                  else
                    let have := last_cumulative_of (ledger m) (v_account verified) (sc_chequebook cheque) in
                    if cumulative <=? have
                    then (m, mkResp 400 (Line (lit "cheque cumulative " ++ u128_to_string cumulative
                           ++ lit " does not exceed the " ++ u128_to_string have ++ lit " already accepted")))
                    else
                      let floor := e_min_cheque_plur (effective (params (cfg m)) (v_cap_plur verified)) in
                      if cumulative - have <? floor
                      then (m, mkResp 400 (Line (lit "cheque credits " ++ u128_to_string (cumulative - have)
                             ++ lit " but the dust floor is " ++ u128_to_string floor)))
                      else pay_verify m verified cheque pc c f
            end
        end
  end.

(** ** The account and challenge endpoints *)

(** [fn account_response]. *)
Definition account_response (m : Metered) (hdr : option str) (c : Clock) : Response :=
  match verify_header m (default [] hdr) (unix c) with
  | Err e => mkResp 401 (Line e)
  | Ok v =>
      let eff := effective (params (cfg m)) (v_cap_plur v) in
      mkResp 200 (AccountRow (v_account v) (owed (ledger m) (v_account v)) (reserved (ledger m) (v_account v))
        (outstanding (ledger m) (v_account v)) (v_cap_plur v) (e_settle_every_plur eff) (e_min_cheque_plur eff))
  end.

(** [fn parse_hex_array]. *)
Definition parse_hex_array (n : nat) (s : str) : result bytes str :=
  let? raw := hex_decode (trim_0x s) in
  if negb (Nat.eqb (length raw) n)
  then Err (lit "must be " ++ u128_to_string (Z.of_nat n) ++ lit " bytes, got " ++ u128_to_string (Z.of_nat (length raw)))
  else Ok raw.

(** [fn challenge_response], given the query's [account] and [batch] parameters. *)
Definition challenge_response (m : Metered) (q_account q_batch : option str) (peer_ip : bytes)
    (oc : OwnerCache) (chain : nat -> str -> BatchAnswer) (c : Clock) : Metered * OwnerCache * Response :=
  let '(m, ok) := allow_challenge m peer_ip (instant c) in
  if negb ok then (m, oc, mkResp 429 (Line (lit "slow down")))
  else
    match q_account, q_batch with
    | Some account_hex, Some batch_hex =>
        match parse_hex_array 20 account_hex with
        | Err e => (m, oc, mkResp 400 (Line (lit "account: " ++ e)))
        | Ok acct =>
            match parse_hex_array 32 batch_hex with
            | Err e => (m, oc, mkResp 400 (Line (lit "batch: " ++ e)))
            | Ok bat =>
                let '(oc, _, r) := resolve_owner oc chain (hex_encode bat) 1 (instant c) in
                match r with
                | Err e => (m, oc, mkResp 400 (Line e))
                | Ok (own, value) =>
                    if negb (bool_decide (own = acct))
                    then (m, oc, mkResp 403 (Line (lit "account is not the on-chain owner of that batch")))
                    else
                      match issue m acct bat value (default [] (head (origins (cfg m)))) (unix c) with
                      | Ok i => (m, oc, mkResp 200 (ChallengeBody (to_json i)))
                      | Err e => (m, oc, mkResp 500 (Line (challenge_error_text e)))
                      end
                end
            end
        end
    | _, _ => (m, oc, mkResp 400 (Line (lit "need account= and batch=")))
    end.
End Handlers.

(** ** The admission loop *)

Section LoopFacts.
Context `{Crypto} `{Hex}.

Definition sizes (cs : list StampedChunk) : Z := foldr (fun c acc => frame_size c + acc) 0 cs.

Lemma sizes_app a b : sizes (a ++ b) = sizes a + sizes b.
Proof. induction a as [|c a IH]; simpl; lia. Qed.

Lemma sizes_nonneg cs : 0 <= sizes cs.
Proof. induction cs as [|c cs IH]; simpl; unfold frame_size in *; lia. Qed.

Lemma sizes_body cs : Forall chunk_ok cs -> sizes cs = Z.of_nat (length (encode_batch cs)).
Proof.
  induction 1 as [|c cs Hc _ IH]; [done|]. cbn [sizes foldr]. fold (sizes cs).
  rewrite encode_batch_cons, length_app, frame_length, IH by done. unfold frame_size. lia.
Qed.

Lemma frame_owner_keeps p chain bid now :
  let p' := (frame_owner p chain bid now).1 in
  accepted p' = accepted p /\ billable_bytes p' = billable_bytes p /\ batch_of p' = batch_of p /\ tally p' = tally p.
Proof.
  unfold frame_owner. case_bool_decide; [done|].
  destruct (resolve_owner _ _ _ _ _) as [[c b] [o|e]]; done.
Qed.

(** What an iteration can do: refuse or answer the frame, or take it. *)
Lemma admit_frame_cases recent chain adm now p chunk :
  let p' := admit_frame recent chain adm now p chunk in
  0 <= billable_bytes p -> billable_bytes p + frame_size chunk <= U64_MAX ->
  (accepted p' = accepted p /\ billable_bytes p' = billable_bytes p) \/
  (accepted p' = accepted p ++ [chunk] /\ billable_bytes p' = billable_bytes p + frame_size chunk).
Proof.
  cbv zeta. intros Hge Hlt. assert (0 <= frame_size chunk) by (unfold frame_size; lia).
  unfold admit_frame. destruct (validate _ _) as [vs|e]; [|by left].
  pose proof (frame_owner_keeps p chain (hex_encode (batch_id vs)) now) as (E1 & E2 & _).
  destruct (frame_owner p chain (hex_encode (batch_id vs)) now) as [p1 r]. cbn [fst] in *.
  destruct r as [[[o v]|]|e]; [|by left; rewrite <- E1, <- E2..].
  case_bool_decide; [|by left; rewrite <- E1, <- E2].
  destruct (match adm with Some a => bool_decide (batch_id vs <> ad_batch a) | None => false end);
    [by left; rewrite <- E1, <- E2|].
  unfold take_frame. rewrite E2. unfold wrap. rewrite Z.mod_small by (change (2 ^ 64) with (U64_MAX + 1); lia).
  destruct (recent_contains _ _ _ _); simpl.
  - left. rewrite E1. split; [done|]. sat.
  - right. by rewrite E1.
Qed.

Lemma admit_frames_bill recent chain adm now chunks p :
  let p' := foldl (admit_frame recent chain adm now) p chunks in
  billable_bytes p = sizes (accepted p) -> sizes (accepted p) + sizes chunks <= U64_MAX ->
  billable_bytes p' = sizes (accepted p') /\ sizes (accepted p') <= sizes (accepted p) + sizes chunks.
Proof.
  cbv zeta. revert p. induction chunks as [|c cs IH]; intros p Hb Hle; cbn [foldl]; [simpl; lia|].
  cbn [sizes foldr] in Hle. fold (sizes cs) in Hle. pose proof (sizes_nonneg cs). pose proof (sizes_nonneg (accepted p)).
  assert (0 <= frame_size c) by (unfold frame_size; lia).
  destruct (admit_frame_cases recent chain adm now p c ltac:(lia) ltac:(lia)) as [[E1 E2]|[E1 E2]].
  - destruct (IH (admit_frame recent chain adm now p c)) as [I1 I2]; [by rewrite E1, E2|rewrite E1; lia|].
    split; [done|]. rewrite E1 in I2. cbn [sizes foldr]. fold (sizes cs). lia.
  - assert (Es : sizes (accepted p ++ [c]) = sizes (accepted p) + frame_size c) by (rewrite sizes_app; simpl; lia).
    destruct (IH (admit_frame recent chain adm now p c)) as [I1 I2]; [rewrite E1, E2, Es; lia|rewrite E1, Es; lia|].
    split; [done|]. rewrite E1, Es in I2. cbn [sizes foldr]. fold (sizes cs). lia.
Qed.
End LoopFacts.

(** Pricing is monotone in the range the relay uses. *)
Lemma price_mono p a b : 0 <= a <= b -> b <= U64_MAX -> 0 <= price_plur_per_kib p <= U64_MAX ->
  0 <= price_bytes p a <= price_bytes p b.
Proof.
  intros Ha Hb Hp. rewrite !price_bytes_eq by lia.
  pose proof (div_ceil_nonneg a 1024 ltac:(lia) ltac:(lia)).
  pose proof (div_ceil_mono a b 1024 ltac:(lia) ltac:(lia)).
  split; [apply Z.mul_nonneg_nonneg; lia|apply Z.mul_le_mono_nonneg_r; lia].
Qed.

(** ** Admission and the ledger *)

Lemma u64_parse_range s n : u64_parse s = Some n -> u64 n.
Proof.
  unfold u64_parse. destruct (u128_parse s) as [m|] eqn:E; [|done].
  destruct (Z.leb_spec m U64_MAX); [|done]. intros [= <-]. apply u128_parse_range in E. lia.
Qed.

Lemma reserve_release_same l k amount c : 0 <= reserved l k -> 0 <= amount ->
  reserved l k + amount <= U128_MAX ->
  same_entries (release (reserve l k amount c).1 k amount) l.
Proof.
  intros Hr Ha Hle. rewrite reserved_entry in *. split_and!.
  - intros k'. unfold release, reserve; simpl. rewrite lookup_insert_eq. rewrite !entry_set.
    case_decide; [subst|done]. simpl. destruct (entry l k) as [o r cs] eqn:E. simpl in *. f_equal. sat.
  - unfold release, reserve; simpl. by rewrite lookup_insert_eq.
  - unfold release, reserve; simpl. by rewrite lookup_insert_eq.
  - unfold release, reserve; simpl. by rewrite lookup_insert_eq.
Qed.

Section AdmitFacts.
Context `{Crypto} `{Hex} `{HeaderCodec}.

Lemma allow_account_ledger m k now : cfg (allow_account m k now).1 = cfg m /\
  ledger (allow_account m k now).1 = ledger m /\ files (allow_account m k now).1 = files m.
Proof. unfold allow_account. by destruct (allow_at _ _ _). Qed.

(** The outcomes of admission, with what each does to the ledger. *)
Lemma admit_cases m hdr clen c :
  let '(m', r) := admit_metered m hdr clen c in
  cfg m' = cfg m /\ files m' = files m /\
  match r with
  | Ok (Some a) => exists v declared,
      verify_header m (default [] hdr) (unix c) = Ok v /\ clen ≫= u64_parse = Some declared /\
      0 <= declared <= PUSH_MAX_BODY /\
      a = mkAdmitted (v_account v) (v_batch v) (price_bytes (params (cfg m)) declared) /\
      ledger m' = (reserve (ledger m) (v_account v) (ad_reserved a) (v_cap_plur v)).1 /\
      (hard_mode (cfg m) = true -> over_cap (reserve (ledger m) (v_account v) (ad_reserved a) (v_cap_plur v)).2 = false)
  | Ok None => ledger m' = ledger m /\ hard_mode (cfg m) = false
  | Err e => (ledger m' = ledger m /\ status e <> 402) \/
      (status e = 402 /\ hard_mode (cfg m) = true /\ exists v declared,
        verify_header m (default [] hdr) (unix c) = Ok v /\ 0 <= declared <= PUSH_MAX_BODY /\
        let amount := price_bytes (params (cfg m)) declared in
        over_cap (reserve (ledger m) (v_account v) amount (v_cap_plur v)).2 = true /\
        ledger m' = release (reserve (ledger m) (v_account v) amount (v_cap_plur v)).1 (v_account v) amount)
  end.
Proof.
  unfold admit_metered. destruct (default [] hdr) as [|ch raw'] eqn:Eh.
  { destruct (hard_mode (cfg m)) eqn:Ehm; split_and!; auto. }
  rewrite <- Eh. destruct (verify_header m (default [] hdr) (unix c)) as [v|e]; [|by split_and!; auto].
  pose proof (allow_account_ledger m (v_account v) (instant c)) as (Ec & El & Ef).
  destruct (allow_account m (v_account v) (instant c)) as [m1 ok]. cbn [fst] in *.
  destruct ok; cbn [negb]; [|split_and!; auto].
  destruct (shed_reservations m1); [split_and!; auto|].
  destruct (clen ≫= u64_parse) as [declared|] eqn:Ed; [|split_and!; auto].
  destruct (Z.ltb_spec PUSH_MAX_BODY declared) as [|Hd]; [split_and!; auto|].
  assert (Hdr : 0 <= declared).
  { destruct clen as [s|]; [|done]. apply (u64_parse_range s declared). exact Ed. }
  unfold reserve_for_body. rewrite Ec, El, Ef.
  set (amount := price_bytes (params (cfg m)) declared).
  destruct (reserve (ledger m) (v_account v) amount (v_cap_plur v)) as [l1 adm] eqn:Er.
  assert (Ea : adm_reserved_plur adm = amount) by (unfold reserve in Er; by injection Er as _ <-).
  cbn [with_ledger cfg ledger files]. rewrite Ec.
  destruct (over_cap adm) eqn:Eo, (hard_mode (cfg m)) eqn:Ehm; cbn [andb with_ledger cfg ledger files]; split_and!; try done.
  - right. split_and!; [done|done|]. exists v, declared. cbv zeta. fold amount. rewrite Er, Ea. by split_and!.
  - exists v, declared. cbn [ad_reserved]. rewrite Ea. fold amount. rewrite Er. by split_and!.
  - exists v, declared. cbn [ad_reserved]. rewrite Ea. fold amount. rewrite Er. by split_and!.
  - exists v, declared. cbn [ad_reserved]. rewrite Ea. fold amount. rewrite Er. by split_and!.
Qed.
End AdmitFacts.

Section PayFacts.
Context `{Crypto} `{Hex} `{HeaderCodec} (to_vec_pretty : OnDisk -> bytes).

(** The ledgers a request can leave behind when it neither reserves nor bills:
    reservations as they were, no account owing more. *)
Definition only_pays (l l' : Ledger) : Prop :=
  forall k, reserved l' k = reserved l k /\ owed l' k <= owed l k /\ (0 <= owed l k -> 0 <= owed l' k).

Lemma only_pays_same l l' : same_entries l' l -> only_pays l l'.
Proof. intros (He & _) k. rewrite !reserved_entry, !owed_entry, He. done. Qed.

Lemma credit_only_pays l k cb cum sig : only_pays l (credit l k cb cum sig).1.
Proof.
  destruct (credit_cases l k cb cum sig) as [(e & _ & Hs)|(d & _ & _ & Hd & _ & _ & ->)].
  - by apply only_pays_same.
  - intros k'. unfold reserved, owed in *. simpl. destruct (decide (k' = k)) as [->|Hne].
    + rewrite lookup_insert_eq. destruct (accounts l !! k); simpl in *; lia.
    + rewrite lookup_insert_ne by done. lia.
Qed.

Lemma metered_credit_only_pays m k cb cum sig f :
  only_pays (ledger m) (ledger (metered_credit to_vec_pretty m k cb cum sig f).1) /\
  cfg (metered_credit to_vec_pretty m k cb cum sig f).1 = cfg m.
Proof.
  split.
  - destruct (metered_credit_cases to_vec_pretty m k cb cum sig f) as [(e & _ & Hs & _)|(d & _ & _ & -> & _)].
    + by apply only_pays_same.
    + apply credit_only_pays.
  - unfold metered_credit. destruct (credit _ _ _ _ _) as [l1 [d|e]]; [|done].
    by destruct (persist _ _ _ _) as [d' [?|?]].
Qed.

Lemma pay_credit_only_pays m v cheque st rec f :
  only_pays (ledger m) (ledger (pay_credit to_vec_pretty m v cheque st rec f).1) /\
  cfg (pay_credit to_vec_pretty m v cheque st rec f).1 = cfg m.
Proof.
  unfold pay_credit.
  assert (Hid : only_pays (ledger m) (ledger m) /\ cfg m = cfg m) by (split; [by apply only_pays_same|done]).
  destruct (bounced st); [done|]. case_bool_decide; [|done]. case_bool_decide; [|done]. simpl negb. cbv iota.
  destruct (_ <? _); [done|].
  pose proof (metered_credit_only_pays m (v_account v) (sc_chequebook cheque) (cumulative_payout cheque)
    (sc_signature cheque) f) as Hc.
  destruct (metered_credit _ _ _ _ _ _ _) as [m' [acc|e]]; [done|]. destruct e; done.
Qed.

(** A payment changes the ledger only by paying. *)
Lemma pay_response_only_pays m hdr body pc c f :
  only_pays (ledger m) (ledger (pay_response to_vec_pretty m hdr body pc c f).1) /\
  cfg (pay_response to_vec_pretty m hdr body pc c f).1 = cfg m.
Proof.
  unfold pay_response.
  assert (Hid : only_pays (ledger m) (ledger m) /\ cfg m = cfg m) by (split; [by apply only_pays_same|done]).
  destruct (verify_header _ _ _) as [v|]; [|done].
  pose proof (allow_account_ledger m (v_account v) (instant c)) as (Ec & El & _).
  destruct (allow_account m (v_account v) (instant c)) as [m1 ok]. cbn [fst] in *.
  rewrite <- El, <- Ec in Hid |- *.
  destruct ok; cbn [negb]; [|done]. destruct (_ =? 0); [done|]. destruct body as [b|[? ?]]; [|done].
  destruct (decode_signed_cheque_json b) as [cheque|]; [|done].
  case_bool_decide; [|done]. cbn [negb]. cbv zeta.
  destruct (_ <? _); [done|]. destruct (_ <=? _); [done|]. destruct (_ <? _); [done|].
  unfold pay_verify, is_deployed, chequebook_state.
  repeat match goal with
  | |- context [match DeployedCache.get ?a ?b ?d with _ => _ end] => destruct (DeployedCache.get a b d)
  | |- context [match pc_deployed pc with _ => _ end] => destruct (pc_deployed pc)
  | |- context [match ?b with true => _ | false => _ end] => is_var b; destruct b
  | |- context [match recover_cheque_issuer ?a ?b ?x ?y ?z with _ => _ end] => destruct (recover_cheque_issuer a b x y z)
  | |- context [match StateCache.get ?a ?b ?d with _ => _ end] => destruct (StateCache.get a b d)
  | |- context [match pc_state pc with _ => _ end] => destruct (pc_state pc)
  end; try done; match goal with |- context [pay_credit _ ?m2 _ _ ?s ?r _] =>
    exact (pay_credit_only_pays m2 v cheque s r f) end.
Qed.
End PayFacts.

(** ** The relay over time *)

(** A request in flight: its guard and the body length it declared. *)
Record Inflight := mkInflight { in_guard : AdmittedGuard; in_declared : Z }.

Record RelaySys := mkSys { sys_m : Metered; inflight : list Inflight }.

Definition held (fl : list Inflight) : list (bytes * Z) :=
  map (fun x => (ad_account (in_guard x), ad_reserved (in_guard x))) fl.

Section RelaySteps.
Context `{Crypto} `{Hex} `{HeaderCodec} (to_vec_pretty : OnDisk -> bytes).

(** Everything that can happen to a metered relay's ledger.  A push ends by
    committing what its frames cost or by dropping its guard; the HTTP library
    does not deliver more body than was declared; the credit line of a verified
    challenge is one this relay grants. *)
Inductive relay_step : RelaySys -> RelaySys -> Prop :=
| RAdmit m m' fl hdr clen c a declared :
    admit_metered m hdr clen c = (m', Ok (Some a)) -> clen ≫= u64_parse = Some declared ->
    (forall v, verify_header m (default [] hdr) (unix c) = Ok v ->
       v_cap_plur v <= max_outstanding_plur (params (cfg m))) ->
    relay_step (mkSys m fl) (mkSys m' (mkInflight a declared :: fl))
| RRefuse m m' fl hdr clen c e :
    admit_metered m hdr clen c = (m', Err e) -> relay_step (mkSys m fl) (mkSys m' fl)
| RCommit m fl1 x fl2 body chunks recent chain now oc f :
    all_bytes body -> Z.of_nat (length body) <= in_declared x ->
    decode_batch body PUSH_BATCH_MAX = Some (Ok chunks) ->
    relay_step (mkSys m (fl1 ++ x :: fl2))
      (mkSys (settle_push to_vec_pretty m (Some (in_guard x))
                (admit_frames recent chain (Some (in_guard x)) now oc chunks) f) (fl1 ++ fl2))
| RDrop m fl1 x fl2 :
    relay_step (mkSys m (fl1 ++ x :: fl2)) (mkSys (drop_admitted m (in_guard x)) (fl1 ++ fl2))
| RPay m m' fl hdr body pc c f r :
    pay_response to_vec_pretty m hdr body pc c f = (m', r) -> relay_step (mkSys m fl) (mkSys m' fl)
| RRestart m fl d : relay_step (mkSys m fl) (mkSys (with_ledger m (durable (ledger m)) d) []).

Record exposure_ok (P : MeterConfig) (s : RelaySys) : Prop := {
  ex_cfg : cfg (sys_m s) = P;
  ex_inflight : Forall (fun x => u64 (in_declared x) /\
    ad_reserved (in_guard x) = price_bytes (params P) (in_declared x)) (inflight s);
  ex_owed : forall k, 0 <= owed (ledger (sys_m s)) k;
  ex_reserved : forall k, reserved (ledger (sys_m s)) k = live_sum k (held (inflight s));
  ex_bound : forall k, owed (ledger (sys_m s)) k + reserved (ledger (sys_m s)) k <= max_outstanding_plur (params P) }.

Lemma live_sum_nonneg k xs : Forall (fun p : bytes * Z => 0 <= p.2) xs -> 0 <= live_sum k xs.
Proof. induction 1 as [|p xs Hp _ IH]; simpl; [lia|]. case_decide; lia. Qed.

Lemma held_app a b : held (a ++ b) = held a ++ held b.
Proof. apply map_app. Qed.

Context (P : MeterConfig).
Context (Hhard : hard_mode P = true).
Context (Hprice : 0 <= price_plur_per_kib (params P) <= U64_MAX).
Context (Hmax : 0 <= max_outstanding_plur (params P) < U128_MAX - 2 ^ 120).

Lemma price_small n : 0 <= n <= PUSH_MAX_BODY -> 0 <= price_bytes (params P) n < 2 ^ 120.
Proof.
  intros Hn. assert (Hb : PUSH_MAX_BODY <= 2 ^ 30) by (by vm_compute).
  pose proof (price_mono (params P) n (2 ^ 30) ltac:(lia) ltac:(lia) Hprice) as Hm.
  rewrite (price_bytes_eq (params P) (2 ^ 30)) in Hm by lia.
  change (div_ceil (2 ^ 30) 1024) with (2 ^ 20) in Hm. lia.
Qed.

Lemma guards_nonneg fl : Forall (fun x => u64 (in_declared x) /\
    ad_reserved (in_guard x) = price_bytes (params P) (in_declared x)) fl ->
  Forall (fun p : bytes * Z => 0 <= p.2) (held fl).
Proof.
  induction 1 as [|x fl [Hd Hr] _ IH]; simpl; constructor; [|done]. simpl. rewrite Hr.
  pose proof (price_mono (params P) 0 (in_declared x) ltac:(lia) ltac:(lia) Hprice).
  pose proof (price_mono (params P) (in_declared x) (in_declared x) ltac:(lia) ltac:(lia) Hprice). lia.
Qed.

(** The end of a request that is billed at most its reservation. *)
Lemma settle_exposure m l' fl1 x fl2 billed :
  exposure_ok P (mkSys m (fl1 ++ x :: fl2)) -> 0 <= billed <= ad_reserved (in_guard x) ->
  (forall k, entry l' k = entry (commit (ledger m) (ad_account (in_guard x)) (ad_reserved (in_guard x)) billed) k) ->
  forall d, exposure_ok P (mkSys (with_ledger m l' d) (fl1 ++ fl2)).
Proof.
  intros [Hc Hf Ho Hr Hb] Hbill He d. simpl in *.
  apply Forall_app in Hf as [Hf1 Hf2]. apply Forall_cons in Hf2 as [Hx Hf2].
  assert (Hf : Forall (fun x => u64 (in_declared x) /\
    ad_reserved (in_guard x) = price_bytes (params P) (in_declared x)) (fl1 ++ fl2)) by (by apply Forall_app).
  pose proof (guards_nonneg _ Hf) as Hg.
  assert (Hk : forall k, owed l' k = (if decide (k = ad_account (in_guard x)) then owed (ledger m) k + billed else owed (ledger m) k)
    /\ reserved l' k = live_sum k (held (fl1 ++ fl2))).
  { intros k. specialize (Ho k). specialize (Hr k). specialize (Hb k).
    rewrite held_app in Hr. cbn [held map] in Hr. fold (held fl2) in Hr. rewrite live_sum_mid in Hr.
    rewrite <- held_app in Hr. pose proof (live_sum_nonneg k _ Hg). cbn [fst snd] in Hr.
    rewrite (owed_entry l'), (reserved_entry l'), He, commit_entry.
    destruct (decide (k = ad_account (in_guard x))) as [->|Hn]; cbn [owed_plur reserved_plur].
    - rewrite decide_True in Hr by done. split; sat.
    - rewrite decide_False in Hr by congruence. rewrite <- owed_entry, <- reserved_entry. split; [done|lia]. }
  split; simpl; [done|done| | |].
  - intros k. destruct (Hk k) as [-> _]. specialize (Ho k). case_decide; lia.
  - intros k. apply Hk.
  - intros k. destruct (Hk k) as [-> ->]. specialize (Hb k). rewrite Hr in Hb.
    rewrite held_app in Hb. cbn [held map] in Hb. fold (held fl2) in Hb. rewrite live_sum_mid, <- held_app in Hb.
    cbn [fst snd] in Hb. destruct (decide (k = ad_account (in_guard x))) as [->|Hn].
    + rewrite decide_True in Hb by done. lia.
    + rewrite decide_False in Hb by congruence. lia.
Qed.

Lemma admit_exposure m m' fl hdr clen c a declared :
  exposure_ok P (mkSys m fl) -> admit_metered m hdr clen c = (m', Ok (Some a)) ->
  clen ≫= u64_parse = Some declared ->
  (forall v, verify_header m (default [] hdr) (unix c) = Ok v ->
     v_cap_plur v <= max_outstanding_plur (params (cfg m))) ->
  exposure_ok P (mkSys m' (mkInflight a declared :: fl)).
Proof.
  intros [Hc Hf Ho Hr Hb] Ha Hcl Hcap. simpl in *.
  pose proof (admit_cases m hdr clen c) as Hcases. rewrite Ha in Hcases.
  destruct Hcases as (Ec & _ & v & d & Hv & Hd & Hdr & -> & El & Hover).
  rewrite Hcl in Hd. injection Hd as <-. specialize (Hcap v Hv). rewrite Hc in *.
  specialize (Hover Hhard). cbn [ad_reserved] in *.
  pose proof (price_small declared Hdr) as Hps. set (amount := price_bytes (params P) declared) in *.
  unfold reserve in El, Hover. cbn [fst snd over_cap] in El, Hover. apply Z.ltb_ge in Hover.
  unfold account_outstanding in Hover. cbn [owed_plur reserved_plur] in Hover.
  rewrite <- owed_entry, <- reserved_entry in Hover.
  pose proof (guards_nonneg _ Hf) as Hg.
  assert (Hres : forall k, 0 <= reserved (ledger m) k) by (intros k; rewrite Hr; by apply live_sum_nonneg).
  assert (Hk : forall k, owed (ledger m') k = owed (ledger m) k /\
    reserved (ledger m') k = reserved (ledger m) k + (if decide (v_account v = k) then amount else 0)).
  { intros k. rewrite (owed_entry (ledger m')), (reserved_entry (ledger m')), El, entry_set.
    specialize (Ho k). specialize (Hres k). specialize (Hb k).
    destruct (decide (k = v_account v)) as [->|Hn]; cbn [owed_plur reserved_plur].
    - rewrite decide_True by done. rewrite <- owed_entry, <- reserved_entry. split; [done|sat].
    - rewrite decide_False by congruence. rewrite <- owed_entry, <- reserved_entry. split; [done|lia]. }
  split; simpl.
  - congruence.
  - constructor; [|done]. split; [|done]. simpl. assert (PUSH_MAX_BODY <= U64_MAX) by (by vm_compute). lia.
  - intros k. destruct (Hk k) as [-> _]. apply Ho.
  - intros k. destruct (Hk k) as [_ ->]. rewrite Hr. case_decide; lia.
  - intros k. destruct (Hk k) as [-> ->]. specialize (Hb k). specialize (Ho k). specialize (Hres k).
    case_decide as Hd; [subst k|lia]. sat.
Qed.

Lemma refuse_exposure m m' fl hdr clen c e :
  exposure_ok P (mkSys m fl) -> admit_metered m hdr clen c = (m', Err e) -> exposure_ok P (mkSys m' fl).
Proof.
  intros Hok Ha. pose proof Hok as [Hc Hf Ho Hr Hb]. simpl in *.
  pose proof (admit_cases m hdr clen c) as Hcases. rewrite Ha in Hcases.
  assert (Hs : same_entries (ledger m') (ledger m)).
  { destruct Hcases as (_ & _ & [[-> _]|(_ & _ & v & d & _ & Hd & _ & ->)]); [by split_and!|].
    rewrite Hc. pose proof (price_small d Hd).
    pose proof (live_sum_nonneg (v_account v) _ (guards_nonneg _ Hf)) as Hn. rewrite <- Hr in Hn.
    specialize (Hb (v_account v)). specialize (Ho (v_account v)).
    apply reserve_release_same; lia. }
  destruct Hcases as (Ec & _). destruct Hs as (He & _).
  split; simpl; [congruence|done|..]; intros k.
  - by rewrite owed_entry, He, <- owed_entry.
  - by rewrite reserved_entry, He, <- reserved_entry.
  - by rewrite owed_entry, reserved_entry, He, <- owed_entry, <- reserved_entry.
Qed.

Lemma commit_exposure m fl1 x fl2 body chunks recent chain now oc f :
  exposure_ok P (mkSys m (fl1 ++ x :: fl2)) ->
  all_bytes body -> Z.of_nat (length body) <= in_declared x ->
  decode_batch body PUSH_BATCH_MAX = Some (Ok chunks) ->
  exposure_ok P (mkSys (settle_push to_vec_pretty m (Some (in_guard x))
    (admit_frames recent chain (Some (in_guard x)) now oc chunks) f) (fl1 ++ fl2)).
Proof.
  intros Hok Hb Hlen Hd. pose proof Hok as [Hc Hf _ _ _]. simpl in Hc, Hf.
  apply Forall_app in Hf as [_ [[Hdx Hrx] _]%Forall_cons].
  apply decode_batch_inv in Hd as (Hbody & Hch & _); [|done].
  pose proof (sizes_body chunks Hch) as Hs. rewrite Hbody in Hs.
  destruct (admit_frames_bill recent chain (Some (in_guard x)) now chunks (push_start oc)) as [Hbill Hle];
    [done|cbn [accepted push_start sizes foldr]; lia|].
  fold (admit_frames recent chain (Some (in_guard x)) now oc chunks) in Hbill, Hle.
  set (p := admit_frames recent chain (Some (in_guard x)) now oc chunks) in *.
  pose proof (sizes_nonneg (accepted p)). cbn [accepted push_start sizes foldr] in Hle.
  unfold settle_push, commit_admitted. destruct (persist _ _ _ _) as [d r]. rewrite Hc.
  eapply settle_exposure; [exact Hok| |intros k; reflexivity].
  rewrite Hrx. apply price_mono; [lia|lia|done].
Qed.

Lemma relay_step_ok s s' : exposure_ok P s -> relay_step s s' -> exposure_ok P s'.
Proof.
  intros Hok Hs. destruct Hs as [m m' fl hdr clen c a declared Ha Hcl Hcap|m m' fl hdr clen c e Ha|
    m fl1 x fl2 body chunks recent chain now oc f Hb Hl Hd|m fl1 x fl2|m m' fl hdr body pc c f r Hp|m fl d].
  - by eapply admit_exposure.
  - by eapply refuse_exposure.
  - by apply (commit_exposure m fl1 x fl2 body).
  - pose proof Hok as [Hc Hf Ho Hr Hb]. simpl in *. unfold drop_admitted.
    apply Forall_app in Hf as [_ [[Hdx Hrx] _]%Forall_cons].
    assert (0 <= ad_reserved (in_guard x)).
    { rewrite Hrx. apply (price_mono (params P) (in_declared x) (in_declared x)); [lia|lia|done]. }
    eapply (settle_exposure m _ fl1 x fl2 0); [exact Hok|lia|]. intros k. apply release_entry_nonneg; [|lia].
    specialize (Ho (ad_account (in_guard x))). specialize (Hb (ad_account (in_guard x))).
    pose proof (live_sum_nonneg (ad_account (in_guard x)) _ (guards_nonneg _ (ex_inflight _ _ Hok))) as Hn.
    simpl in Hn. rewrite <- Hr in Hn. lia.
  - pose proof (pay_response_only_pays to_vec_pretty m hdr body pc c f) as [Hpay Ec]. rewrite Hp in Hpay, Ec.
    destruct Hok as [Hc Hf Ho Hr Hb]. simpl in *. split; simpl; [congruence|done|..]; intros k;
      destruct (Hpay k) as (Hrk & Hok & Hnk); [auto|by rewrite Hrk|].
    rewrite Hrk. specialize (Hb k). lia.
  - destruct Hok as [Hc Hf Ho Hr Hb]. simpl in *. split; simpl; [done|by constructor|..]; intros k;
      rewrite ?owed_entry, ?reserved_entry, durable_entry_nonneg by done; simpl; rewrite <- ?owed_entry; [done|done|].
    specialize (Hb k). pose proof (live_sum_nonneg k _ (guards_nonneg _ Hf)) as Hn. rewrite <- Hr in Hn. lia.
Qed.

End RelaySteps.

Definition demo_relay : Metered :=
  metered_new demo_config (mkLedger ∅ ∅ (replicate 32 5) true) (mkFiles None None).
Definition demo_header : str := @encode_challenge_header plain_hex plain_header demo_issued demo_sig.
Definition demo_clock : Clock := mkClock 1200 0.
Definition demo_admission : Metered * result (option AdmittedGuard) Response :=
  @admit_metered toy_crypto plain_hex plain_header demo_relay (Some demo_header) (Some (lit "5000")) demo_clock.


(** ** Who may push *)

Section PushAuthority.
Context `{Crypto} `{Hex}.
Context (oc : OwnerCache) (chain : nat -> str -> BatchAnswer) (now : Z).

(** The owner cache the request started with, or one of its (at most eight) chain
    lookups, names [o] as the owner of a batch that exists and is funded.  A lookup
    is numbered by the budget it is made with, so no two have the same number. *)
Definition says (id : str) (o : bytes) : Prop :=
  (exists v, owner_get oc id now = Some (Owner o v)) \/
  (exists n info r, (1 <= n <= PUSH_MAX_BATCH_LOOKUPS)%nat /\ ba_info (chain n id) = Ok info /\
     not_found info = false /\ ba_remaining (chain n id) = Ok r /\ r <> 0 /\ bi_owner info = o).

Definition cache_says (c : OwnerCache) : Prop :=
  forall id o v, owner_get c id now = Some (Owner o v) -> says id o.

Lemma owner_insert_get c id e id' e' :
  owner_get (owner_insert c id e now) id' now = Some e' ->
  (id' = id /\ e' = e) \/ owner_get c id' now = Some e'.
Proof.
  unfold owner_get, owner_insert, fifo_put.
  set (o2 := match oc_map c !! id with Some _ => _ | None => _ end).
  pose proof (evict_subset (fun _ (u : unit) => u) (oc_cap c) (<[id := (e, now)]> (oc_map c)) o2 tt id') as Hsub.
  destruct (evict _ _ _ _ _) as [[m o] u]. cbn [fst oc_map] in *.
  destruct (m !! id') as [[e1 t1]|]; [|done]. specialize (Hsub _ eq_refl). intros Hg.
  destruct (decide (id' = id)) as [->|Hne].
  - rewrite lookup_insert_eq in Hsub. injection Hsub as <- <-. left. split; [done|].
    revert Hg. repeat case_match; congruence.
  - rewrite lookup_insert_ne in Hsub by done. rewrite Hsub. auto.
Qed.

Lemma cache_says_reject c id why : cache_says c -> cache_says (owner_insert c id (Rejected why) now).
Proof.
  intros Hc id' o v Hg. apply owner_insert_get in Hg as [[_ ?]|Hg]; [done|]. by eapply Hc.
Qed.

Lemma resolve_owner_sound c id budget : cache_says c -> (budget <= PUSH_MAX_BATCH_LOOKUPS)%nat ->
  let '(c', b, r) := resolve_owner c chain id budget now in
  cache_says c' /\ (b <= budget)%nat /\ (forall o v, r = Ok (o, v) -> says id o).
Proof.
  intros Hc Hbud. unfold resolve_owner. destruct (owner_get c id now) as [[o v|why]|] eqn:Eg.
  - split_and!; [done|done|]. intros o' v' [= <- <-]. by eapply Hc.
  - by split_and!.
  - destruct budget as [|budget]; [by split_and!|]. cbv zeta.
    destruct (ba_info (chain (S budget) id)) as [info|] eqn:Ei; [|split_and!; [done|lia|done]].
    destruct (not_found info) eqn:En; [split_and!; [by apply cache_says_reject|lia|done]|].
    destruct (ba_remaining (chain (S budget) id)) as [r|] eqn:Er; [|split_and!; [done|lia|done]].
    destruct (Z.eqb_spec r 0) as [->|Hr]; [split_and!; [by apply cache_says_reject|lia|done]|].
    assert (Hs : says id (bi_owner info)) by (right; exists (S budget), info, r; split_and!; first [done|lia]).
    split_and!; [|lia|].
    + intros id' o v Hg. apply owner_insert_get in Hg as [[-> [= -> ->]]|Hg]; [done|]. by eapply Hc.
    + by intros o v [= <- <-].
Qed.

Definition frame_authorised (adm : option AdmittedGuard) (c : StampedChunk) : Prop :=
  exists vs, validate (sc_addr c) (sc_stamp c) = Ok vs /\ says (hex_encode (batch_id vs)) (vs_signer vs) /\
    (forall a, adm = Some a -> batch_id vs = ad_batch a).

Record loop_ok (adm : option AdmittedGuard) (p : PushAcc) : Prop := {
  lo_cache : cache_says (owners p);
  lo_last : forall id, batch_hex p = Some id -> forall o v, batch_owner p = Some (o, v) -> says id o;
  lo_accepted : Forall (frame_authorised adm) (accepted p);
  lo_budget : (rpc_budget p <= PUSH_MAX_BATCH_LOOKUPS)%nat }.

Lemma frame_owner_ok adm p id : loop_ok adm p ->
  let '(p', r) := frame_owner p chain id now in
  loop_ok adm p' /\ (forall o v, r = Ok (Some (o, v)) -> says id o).
Proof.
  intros Hp. unfold frame_owner. case_bool_decide as Eb.
  - split; [done|]. intros o v [= Ho]. by eapply (lo_last adm p Hp).
  - pose proof (resolve_owner_sound (owners p) id (rpc_budget p) (lo_cache adm p Hp) (lo_budget adm p Hp)) as Hs.
    destruct Hp as [Hc Hl Ha Hb].
    destruct (resolve_owner (owners p) chain id (rpc_budget p) now) as [[c b] [[o v]|e]].
    + destruct Hs as (Hc' & Hb' & Ho). split; [split; simpl; [done| |done|lia]|].
      * intros id' [= <-] o' v' [= <- <-]. by eapply Ho.
      * intros o' v' [= <- <-]. by eapply Ho.
    + destruct Hs as (Hc' & Hb' & Ho). split; [split; simpl; [done|done|done|lia]|done].
Qed.

Lemma admit_frame_ok recent adm p chunk : loop_ok adm p -> loop_ok adm (admit_frame recent chain adm now p chunk).
Proof.
  intros Hp. unfold admit_frame. destruct (validate (sc_addr chunk) (sc_stamp chunk)) as [vs|e] eqn:Ev;
    [|by destruct Hp; split].
  pose proof (frame_owner_ok adm p (hex_encode (batch_id vs)) Hp) as Hs.
  destruct (frame_owner p chain (hex_encode (batch_id vs)) now) as [p1 r]. destruct Hs as [Hp1 Ho].
  assert (Hack : forall a, loop_ok adm (add_ack p1 a)) by (intros a; by destruct Hp1; split).
  destruct r as [[[o v]|]|e]; [|done..]. case_bool_decide as Es; [|done].
  destruct (match adm with Some a => bool_decide (batch_id vs <> ad_batch a) | None => false end) eqn:Eb; [done|].
  unfold take_frame. destruct (recent_contains _ _ _ _); [by destruct Hp1; split|].
  destruct Hp1 as [Hc Hl Ha Hbu]. split; simpl; [done|done| |done].
  apply Forall_app. split; [done|]. constructor; [|constructor]. exists vs. split_and!; [done| |].
  - subst. by eapply Ho.
  - intros a ->. apply bool_decide_eq_false in Eb. by destruct (decide (batch_id vs = ad_batch a)).
Qed.

(** C10: a push accepts only stamped, owned frames.  Every frame the loop accepts for
    forwarding has a valid stamp whose signer the chain (or the request's cache of
    its answers) names as the owner of a funded batch, and under metering it
    belongs to the batch of the request's challenge; for all its frames a request
    has at most eight chain lookups to answer. *)
Theorem push_accepts_only_owned recent adm chunks :
  let p := admit_frames recent chain adm now oc chunks in
  Forall (frame_authorised adm) (accepted p).
Proof.
  cbv zeta. unfold admit_frames.
  assert (Hs : loop_ok adm (push_start oc)).
  { split; simpl; [|done|constructor|done]. intros id o v Hg. left. eauto. }
  assert (Hp : loop_ok adm (foldl (admit_frame recent chain adm now) (push_start oc) chunks)).
  { generalize dependent (push_start oc). induction chunks as [|c cs IH]; intros p Hp; [done|].
    apply IH. by apply admit_frame_ok. }
  by destruct Hp.
Qed.
End PushAuthority.

(** ** Payment *)

Section PaymentProperties.
Context `{Crypto} `{Hex} `{HeaderCodec} (to_vec_pretty : OnDisk -> bytes).

Lemma is_deployed_keeps m rpc cb now : cfg (is_deployed m rpc cb now).1 = cfg m /\
  ledger (is_deployed m rpc cb now).1 = ledger m.
Proof. unfold is_deployed. destruct (DeployedCache.get _ _ _); [done|]. by destruct rpc. Qed.

Lemma chequebook_state_keeps m rpc cb now : cfg (chequebook_state m rpc cb now).1 = cfg m /\
  ledger (chequebook_state m rpc cb now).1 = ledger m.
Proof. unfold chequebook_state. destruct (StateCache.get _ _ _); [done|]. by destruct rpc. Qed.

(** What a cheque must satisfy to be credited. *)
Record cheque_good (m : Metered) (v : VerifiedChallenge) (cheque : SignedCheque) (st : ChequebookState) : Prop := {
  cg_ours : sc_beneficiary cheque = beneficiary (cfg m);
  cg_issuer : recover_cheque_issuer (sc_chequebook cheque) (sc_beneficiary cheque) (cumulative_payout cheque)
    (chain_id (cfg m)) (sc_signature cheque) = Ok (v_account v) /\ issuer st = v_account v;
  cg_funded : bounced st = false /\
    sat_sub (cumulative_payout cheque) (Z.min (paid_out_to_us st) U128_MAX) <= Z.min (liquid_for_us st) U128_MAX }.

Lemma pay_credit_ok m v cheque st rec f m' acc cum o out :
  pay_credit to_vec_pretty m v cheque st rec f = (m', mkResp 200 (PayAccepted acc cum o out)) ->
  bounced st = false /\ issuer st = rec /\ issuer st = v_account v /\
  sat_sub (cumulative_payout cheque) (Z.min (paid_out_to_us st) U128_MAX) <= Z.min (liquid_for_us st) U128_MAX /\
  cum = cumulative_payout cheque /\
  (credit (ledger m) (v_account v) (sc_chequebook cheque) cum (sc_signature cheque)).2 = Ok acc /\
  ledger m' = (credit (ledger m) (v_account v) (sc_chequebook cheque) cum (sc_signature cheque)).1 /\
  o = owed (ledger m') (v_account v).
Proof.
  unfold pay_credit. destruct (bounced st); [done|]. case_bool_decide as E1; [|done].
  case_bool_decide as E2; [|done]. cbn [negb]. cbv zeta.
  destruct (Z.ltb_spec (Z.min (liquid_for_us st) U128_MAX)
    (sat_sub (cumulative_payout cheque) (Z.min (paid_out_to_us st) U128_MAX))) as [|Hf]; [done|].
  pose proof (metered_credit_cases to_vec_pretty m (v_account v) (sc_chequebook cheque) (cumulative_payout cheque)
    (sc_signature cheque) f) as Hc.
  destruct (metered_credit _ _ _ _ _ _ _) as [m1 r]. cbn [fst snd] in Hc.
  destruct Hc as [(e & -> & _)|(d & -> & Hd & El & _)]; [by destruct e|].
  intros [= <- <- <- <- <-]. split_and!; try done.
Qed.

Lemma allow_account_caches m k now : deployed (allow_account m k now).1 = deployed m /\
  cb_state (allow_account m k now).1 = cb_state m.
Proof. unfold allow_account. by destruct (allow_at _ _ _). Qed.

Lemma is_deployed_ext m m' rpc cb now : deployed m = deployed m' ->
  (is_deployed m rpc cb now).2 = (is_deployed m' rpc cb now).2.
Proof. intros E. unfold is_deployed. rewrite E. destruct (DeployedCache.get _ _ _); [done|]. by destruct rpc. Qed.

Lemma chequebook_state_ext m m' rpc cb now : cb_state m = cb_state m' ->
  (chequebook_state m rpc cb now).2 = (chequebook_state m' rpc cb now).2.
Proof. intros E. unfold chequebook_state. rewrite E. destruct (StateCache.get _ _ _); [done|]. by destruct rpc. Qed.

Lemma is_deployed_cb m rpc cb now : cb_state (is_deployed m rpc cb now).1 = cb_state m.
Proof. unfold is_deployed. destruct (DeployedCache.get _ _ _); [done|]. by destruct rpc. Qed.

(** The full debt is always an acceptable increment. *)
Lemma credit_full_debt l k cb sig : 0 < owed l k ->
  last_cumulative_of l k cb + owed l k <= MAX_CUMULATIVE_PLUR ->
  (binding l !! cb = None \/ binding l !! cb = Some k) ->
  (credit l k cb (last_cumulative_of l k cb + owed l k) sig).2 = Ok (owed l k) /\
  owed (credit l k cb (last_cumulative_of l k cb + owed l k) sig).1 k = 0.
Proof.
  intros Ho Hm Hb. set (cum := last_cumulative_of l k cb + owed l k).
  assert (E : (credit l k cb cum sig).2 = Ok (owed l k)) by (apply credit_pays; [lia|done|done]).
  split; [done|].
  destruct (credit_cases l k cb cum sig) as [(e & He & _)|(d & Hd & _ & _ & _ & _ & ->)]; [congruence|].
  assert (d = owed l k) as -> by congruence. unfold owed at 1. cbn [accounts]. rewrite lookup_insert_eq. simpl. lia.
Qed.

(** C8: a debtor can always settle.  An account that owes at least its dust floor
    (every account past its settlement point does) and presents a good cheque for
    its whole debt is answered 200 and then owes nothing: no refused account is
    without an exit. *)
Theorem debtor_can_settle m hdr b pc c v cheque st :
  let k := v_account v in
  let cb := sc_chequebook cheque in
  verify_header m (default [] hdr) (unix c) = Ok v ->
  (allow_account m k (instant c)).2 = true ->
  decode_signed_cheque_json b = Ok cheque -> cheque_good m v cheque st ->
  (is_deployed m (pc_deployed pc) cb (instant c)).2 = Ok true ->
  (chequebook_state m (pc_state pc) cb (instant c)).2 = Ok st ->
  (binding (ledger m) !! cb = None \/ binding (ledger m) !! cb = Some k) ->
  cumulative_payout cheque = last_cumulative_of (ledger m) k cb + owed (ledger m) k ->
  cumulative_payout cheque <= MAX_CUMULATIVE_PLUR ->
  1 <= e_min_cheque_plur (effective (params (cfg m)) (v_cap_plur v)) <= owed (ledger m) k ->
  exists m' out, pay_response to_vec_pretty m hdr (Ok b) pc c NoFault =
    (m', mkResp 200 (PayAccepted (owed (ledger m) k) (cumulative_payout cheque) 0 out)) /\
    owed (ledger m') k = 0.
Proof.
  intros k cb Hv Hallow Hdec [Hours [Hrec Hiss] [Hbn Hfund]] Hdep Hst Hbind Hcum Hmax Hfloor.
  unfold pay_response. rewrite Hv. fold k.
  pose proof (allow_account_ledger m k (instant c)) as (Ec & El & _).
  pose proof (allow_account_caches m k (instant c)) as [Ed Es].
  destruct (allow_account m k (instant c)) as [m1 ok]. cbn [fst snd] in *. subst ok. cbn [negb].
  rewrite El, (proj2 (Z.eqb_neq (owed (ledger m) k) 0)) by lia. rewrite Hdec.
  rewrite (bool_decide_eq_true_2 (sc_beneficiary cheque = beneficiary (cfg m1))) by congruence. cbn [negb]. cbv zeta.
  rewrite (proj2 (Z.ltb_ge _ _) Hmax). fold cb. rewrite (proj2 (Z.leb_gt _ _)) by lia.
  rewrite Ec, (proj2 (Z.ltb_ge _ _)) by lia.
  unfold pay_verify. fold cb.
  pose proof (is_deployed_keeps m1 (pc_deployed pc) cb (instant c)) as [E1 E2].
  pose proof (is_deployed_cb m1 (pc_deployed pc) cb (instant c)) as E2'.
  rewrite <- (is_deployed_ext m1 m) in Hdep by done.
  destruct (is_deployed m1 (pc_deployed pc) cb (instant c)) as [m2 r]. cbn [fst snd] in *. subst r.
  replace (chain_id (cfg m2)) with (chain_id (cfg m)) by congruence. unfold cb at 1. rewrite Hrec.
  pose proof (chequebook_state_keeps m2 (pc_state pc) cb (instant c)) as [E3 E4].
  rewrite <- (chequebook_state_ext m2 m) in Hst by congruence.
  destruct (chequebook_state m2 (pc_state pc) cb (instant c)) as [m3 r]. cbn [fst snd] in *. subst r.
  assert (E : ledger m3 = ledger m) by congruence.
  unfold pay_credit. rewrite Hbn, !bool_decide_eq_true_2 by done. cbn [negb]. cbv zeta.
  rewrite (proj2 (Z.ltb_ge _ _)) by done. fold k cb.
  destruct (credit_full_debt (ledger m) k cb (sc_signature cheque) ltac:(lia) ltac:(lia) Hbind) as [Hok Hz].
  rewrite <- Hcum in Hok, Hz. unfold metered_credit. rewrite E.
  destruct (credit (ledger m) k cb (cumulative_payout cheque) (sc_signature cheque)) as [l1 rr]. cbn [fst snd] in *.
  subst rr. unfold persist. destruct (negb (persistent l1)); cbn [invalidate_chequebook with_cb_state with_ledger ledger];
    eexists _, _; rewrite Hz; split; done.
Qed.
End PaymentProperties.

(** A relay owed 6*10^11 PLUR and a cheque for it, for applying the theorems. *)
Definition demo_debt : Z := 600000000000.
Definition demo_cheque : SignedCheque := mkSigned (replicate 20 7) (replicate 20 6) demo_debt demo_sig.
Definition demo_body : bytes :=
  @encode_signed_cheque_json plain_hex plain_header (replicate 20 7) (replicate 20 6) demo_debt demo_sig.
Definition demo_codec : HeaderCodec := {|
  json_to_string := pack;
  json_from_slice := fun b =>
    if bool_decide (b = demo_body) then
      Ok (JObject (<[lit "Chequebook" := JStr (hex0x (replicate 20 7))]>
        (<[lit "Beneficiary" := JStr (hex0x (replicate 20 6))]>
        (<[lit "Signature" := JStr (pack demo_sig ++ replicate 65 65)]> ∅))))
    else unpack b;
  b64_encode := fun b => pack b ++ replicate (length b) 65;
  b64_decode := fun s => unpack (take 1 s) |}.
Definition demo_state : ChequebookState := mkCbState (replicate 20 7) 10000000000000 0 false.
Definition demo_pay_chain : PayChain := mkPayChain (Ok true) (Ok demo_state).
Definition demo_verified : VerifiedChallenge := mkVerified (replicate 20 7) (replicate 32 2) 1000000000000.

Lemma demo_cheque_good : @cheque_good toy_crypto (demo_metered demo_debt) demo_verified demo_cheque demo_state.
Proof. split; [done|by vm_compute|]. split; [done|by vm_compute]. Qed.

Lemma debtor_can_settle_witness :
  exists m' out, @pay_response toy_crypto plain_hex demo_codec plain_json (demo_metered demo_debt) (Some demo_header)
      (Ok demo_body) demo_pay_chain demo_clock NoFault =
    (m', mkResp 200 (PayAccepted demo_debt demo_debt 0 out)) /\ owed (ledger m') (replicate 20 7) = 0.
Proof.
  apply (@debtor_can_settle toy_crypto plain_hex demo_codec plain_json (demo_metered demo_debt) (Some demo_header)
    demo_body demo_pay_chain demo_clock demo_verified demo_cheque demo_state);
    first [exact demo_cheque_good | by vm_compute | by left; vm_compute | vm_compute; by intuition].
Defined.

