(* ===== verification/Feed.v ===== *)
(** * Feed resolution ([src/src/feed.rs])

    Finding the latest update of a sequence feed: an anchor, a forward gallop of
    concurrent probes and a concurrent k-ary narrowing.  The network is an
    argument: what it answers to a probe, which may change from round to round,
    and the order in which the probes of a round complete. *)
From Stdlib Require Import ZArith Lia.
From stdpp Require Import base tactics numbers strings list.
From S2P Require Import Prelude Codec Signer.
Local Open Scope Z_scope.
Local Open Scope hov_scope.

Definition PAYLOAD_PREFIX : nat := 8.
Definition MAX_PROBE_INDEX : Z := 2 ^ 20.
Definition PROBE_BAND : nat := 12.
Definition ANCHOR_ATTEMPTS : nat := 4.

(** [enum FeedError], [enum ResolveError]. *)
Inductive FeedError :=
| BadOwner (s : str) | BadTopic (s : str) | UnsupportedType (s : str) | ShortPayload (n : nat) | NoUpdate.
Inductive ResolveError := FeedErr (e : FeedError) | Fetch (s : str) | BadUpdate (s : str).

(** [struct Feed]. *)
Record Feed := mkFeed { fd_owner : bytes; fd_topic : bytes }.

Section Parsing.
Context `{Hex}.

(** [fn decode_hex]. *)
Definition decode_hex (s : str) : result bytes str := hex_decode (default s (strip_prefix (lit "0x") s)).

(** [Feed::from_manifest_meta]. *)
Definition from_manifest_meta (owner_hex topic_hex ty : str) : result Feed FeedError :=
  if negb (str_eqb (to_ascii_lowercase ty) (lit "sequence")) then Err (UnsupportedType ty)
  else
    let? o := map_err BadOwner (decode_hex owner_hex) in
    if negb (Nat.eqb (length o) 20)
    then Err (BadOwner (lit "expected 20 bytes, got " ++ u128_to_string (Z.of_nat (length o))))
    else
      let? t := map_err BadTopic (decode_hex topic_hex) in
      if negb (Nat.eqb (length t) 32)
      then Err (BadTopic (lit "expected 32 bytes, got " ++ u128_to_string (Z.of_nat (length t))))
      else Ok (mkFeed o t).
End Parsing.

(** [Feed::update_address]. *)
Definition update_address `{Crypto} (f : Feed) (i : Z) : bytes :=
  keccak256 (keccak256 (fd_topic f ++ to_be_bytes 8 i) ++ fd_owner f).

(** [fn reference_from_payload]. *)
Definition reference_from_payload (d : bytes) : result bytes FeedError :=
  if (length d <? PAYLOAD_PREFIX + 32)%nat then Err (ShortPayload (length d))
  else Ok (take 32 (drop PAYLOAD_PREFIX d)).

(** The loop of [fn bracket_candidates], with its [out] in reverse. *)
Definition bracket_step (low high span probes : Z) (out : list Z) (j : Z) : list Z :=
  let idx := low + (span * j) / (probes + 1) + 1 in
  if (low <? idx) && (idx <? high) && negb (bool_decide (head out = Some idx)) then idx :: out else out.

Definition bracket_candidates (low high : Z) (k : nat) : list Z :=
  if high <=? low + 1 then []
  else
    let span := high - low - 1 in
    let probes := Z.min (Z.of_nat k) span in
    reverse (foldl (bracket_step low high span probes) [] (seqZ 1 probes)).

(** [fn is_absent_retrieval]. *)
Definition is_absent_retrieval (msg : str) : bool :=
  let m := to_ascii_lowercase msg in
  contains (lit "no peer found") m || contains (lit "not found") m || contains (lit "all peers failed") m.

(** What the chunk store answers within the deadline; a chunk is its payload. *)
Inductive StoreAnswer := SOk (payload : bytes) | SNotFound | SOther (msg : str) | SFail (msg : str) | STimeout.

(** [enum Probe] and the match of [probe_update_with]. *)
Inductive Probe := Present (c : bytes) | Absent | Unresolved.

Definition to_probe (a : StoreAnswer) : result Probe ResolveError :=
  match a with
  | SOk c => Ok (Present c)
  | SNotFound => Ok Absent
  | SOther msg => if is_absent_retrieval msg then Ok Unresolved else Err (Fetch msg)
  | SFail msg => Err (Fetch msg)
  | STimeout => Ok Unresolved
  end.

(** The network: the answer to the probe of an index in a round, and the order in
    which a round's probes complete. *)
Record Net := mkNet {
  answer : nat -> Z -> StoreAnswer;
  completion : nat -> list Z -> list Z }.

Section Resolve.
Context (net : Net).

(** [fn get_update]. *)
Definition get_update (round : nat) (i : Z) : result (option bytes) ResolveError :=
  match to_probe (answer net round i) with
  | Ok (Present c) => Ok (Some c)
  | Ok Absent | Ok Unresolved => Ok None
  | Err e => Err e
  end.

(** [fn confirm_anchor]: [n] attempts are left; returns the next round too. *)
Fixpoint confirm_anchor (n round : nat) (i : Z) : nat * result (option bytes) ResolveError :=
  match n with
  | O => (round, Ok None)
  | S n' =>
      match to_probe (answer net round i) with
      | Err e => (S round, Err e)
      | Ok (Present c) => (S round, Ok (Some c))
      | Ok Absent => (S round, Ok None)
      | Ok Unresolved => confirm_anchor n' (S round) i
      end
  end.

(** The indices of one band: [lo + step * 2^k] up to the probe limit. *)
Fixpoint band_from (k n : nat) (lo step : Z) : list Z :=
  match n with
  | O => []
  | S n' =>
      let idx := sat_add64 lo (sat_mul U64_MAX step (2 ^ Z.of_nat k)) in
      if MAX_PROBE_INDEX <? idx then [] else idx :: band_from (S k) n' lo step
  end.
Definition band (lo step : Z) : list Z := band_from 0 PROBE_BAND lo step.

(** A round's completions, folded into the highest present index with its chunk,
    whether any was present, and the lowest absent index. *)
Fixpoint collect (round : nat) (order : list Z) (lo : Z) (chunk : bytes) (any : bool) (hi : Z)
    : result (Z * bytes * bool * Z) ResolveError :=
  match order with
  | [] => Ok (lo, chunk, any, hi)
  | idx :: order' =>
      match get_update round idx with
      | Err e => Err e
      | Ok (Some c) =>
          if lo <? idx then collect round order' idx c true hi else collect round order' lo chunk true hi
      | Ok None => collect round order' lo chunk any (if idx <? hi then idx else hi)
      end
  end.

(** The forward boundary search; [None] is out of fuel.  Returns the next round,
    [lo] with its chunk, and [hi]. *)
Fixpoint gallop (fuel round : nat) (lo : Z) (chunk : bytes) (step : Z)
    : option (result (nat * Z * bytes * Z) ResolveError) :=
  match fuel with
  | O => None
  | S fuel' =>
      let futs := band lo step in
      match futs with
      | [] => Some (Ok (round, lo, chunk, U64_MAX))
      | _ =>
          let probed_top := foldl Z.max lo futs in
          match collect round (completion net round futs) lo chunk false U64_MAX with
          | Err e => Some (Err e)
          | Ok (lo', chunk', any_present, hi) =>
              if negb (hi =? U64_MAX) then Some (Ok (S round, lo', chunk', hi))
              else if negb any_present || (MAX_PROBE_INDEX <=? probed_top)
              then Some (Ok (S round, lo', chunk', hi))
              else gallop fuel' (S round) lo' chunk' (sat_add64 (wrap 64 (probed_top - lo')) 1)
          end
      end
  end.

(** The narrowing loop. *)
Fixpoint narrow (fuel round : nat) (lo : Z) (chunk : bytes) (low high : Z)
    : option (result (Z * bytes) ResolveError) :=
  match fuel with
  | O => None
  | S fuel' =>
      if wrap 64 (high - low) <=? 1 then Some (Ok (lo, chunk))
      else
        let futs := bracket_candidates low high PROBE_BAND in
        match futs with
        | [] => Some (Ok (lo, chunk))
        | _ =>
            match collect round (completion net round futs) low chunk false high with
            | Err e => Some (Err e)
            | Ok (round_low, round_chunk, _, round_high) =>
                if (round_low =? low) && (round_high =? high) then Some (Ok (lo, chunk))
                else
                  let lo' := if round_low =? low then lo else round_low in
                  narrow fuel' (S round) lo' round_chunk round_low round_high
            end
        end
  end.

Definition GALLOP_FUEL : nat := 600.
Definition NARROW_FUEL : nat := 64.

(** [fn resolve_latest]; [None] is out of fuel. *)
Definition resolve_latest (after : Z) : option (result (bytes * Z) ResolveError) :=
  let '(round, anchor) :=
    match confirm_anchor ANCHOR_ATTEMPTS 0 after with
    | (r, Err e) => (r, Err e)
    | (r, Ok (Some c)) => (r, Ok (after, c))
    | (r, Ok None) =>
        if negb (after =? 0) then
          match confirm_anchor ANCHOR_ATTEMPTS r 0 with
          | (r', Err e) => (r', Err e)
          | (r', Ok (Some c)) => (r', Ok (0, c))
          | (r', Ok None) => (r', Err (FeedErr NoUpdate))
          end
        else (r, Err (FeedErr NoUpdate))
    end in
  match anchor with
  | Err e => Some (Err e)
  | Ok (lo, chunk) =>
      match gallop GALLOP_FUEL round lo chunk 1 with
      | None => None
      | Some (Err e) => Some (Err e)
      | Some (Ok (round, lo, chunk, hi)) =>
          match (if hi =? U64_MAX then Some (Ok (lo, chunk)) else narrow NARROW_FUEL round lo chunk lo hi) with
          | None => None
          | Some (Err e) => Some (Err e)
          | Some (Ok (lo, chunk)) =>
              match reference_from_payload chunk with
              | Err e => Some (Err (FeedErr e))
              | Ok r => Some (Ok (r, lo))
              end
          end
      end
  end.
End Resolve.

(** ** The candidates of a narrowing round *)

Section Candidates.
Context (low span p : Z) (Hp : 1 <= p) (Hspan : p <= span).

Definition cand (j : Z) : Z := low + (span * j) / (p + 1) + 1.

Lemma cand_bounds j : 1 <= j <= p -> low < cand j <= low + span.
Proof.
  intros Hj. unfold cand.
  assert (0 <= span * j / (p + 1)) by (apply Z.div_pos; nia).
  assert (span * j / (p + 1) < span) by (apply Z.div_lt_upper_bound; nia). lia.
Qed.

Lemma cand_step j : 1 <= j -> j + 1 <= p -> cand j < cand (j + 1).
Proof.
  intros H1 H2. unfold cand. destruct (decide (span = p)) as [->|Hne].
  - rewrite <- (Z.div_unique (p * j) (p + 1) (j - 1) (p + 1 - j)) by lia.
    rewrite <- (Z.div_unique (p * (j + 1)) (p + 1) j (p - j)) by lia. lia.
  - replace (span * (j + 1)) with ((span * j + (span - (p + 1))) + 1 * (p + 1)) by lia.
    rewrite Z.div_add by lia.
    assert (span * j / (p + 1) <= (span * j + (span - (p + 1))) / (p + 1)) by (apply Z.div_le_mono; lia). lia.
Qed.

Lemma bracket_fold n : 0 <= n <= p ->
  foldl (bracket_step low (low + span + 1) span p) [] (seqZ 1 n) = reverse (map cand (seqZ 1 n)).
Proof.
  intros Hn. assert (Hn0 : 0 <= n) by lia. revert n Hn0 Hn. apply (natlike_ind (fun n => 0 <= n <= p ->
    foldl (bracket_step low (low + span + 1) span p) [] (seqZ 1 n) = reverse (map cand (seqZ 1 n)))); [done|].
  intros n H0 IH Hn. rewrite <- Z.add_1_r, seqZ_app, foldl_app, map_app, reverse_app by lia.
  rewrite IH by lia. change (seqZ (1 + n) 1) with [1 + n]. cbn [foldl map].
  change (reverse [cand (1 + n)]) with [cand (1 + n)]. unfold bracket_step. fold (cand (1 + n)).
  pose proof (cand_bounds (1 + n) ltac:(lia)).
  rewrite (proj2 (Z.ltb_lt _ _)), (proj2 (Z.ltb_lt _ _)) by lia. cbn [andb].
  rewrite bool_decide_eq_false_2; [done|].
  destruct (decide (n = 0)) as [->|Hn0]; [done|].
  replace n with ((n - 1) + 1) at 1 by lia. rewrite (seqZ_app 1 (n - 1) 1), map_app, reverse_app by lia.
  change (seqZ (1 + (n - 1)) 1) with [1 + (n - 1)]. cbn [map reverse].
  intros E. cbn in E. injection E as E. pose proof (cand_step n ltac:(lia) ltac:(lia)) as Hs.
  rewrite Z.add_comm in Hs. replace (1 + (n - 1)) with n in E by lia. lia.
Qed.
End Candidates.

Lemma bracket_spec low high k : (1 <= k)%nat -> low + 1 < high ->
  let p := Z.min (Z.of_nat k) (high - low - 1) in
  bracket_candidates low high k = map (cand low (high - low - 1) p) (seqZ 1 p).
Proof.
  intros Hk Hlh. cbv zeta. unfold bracket_candidates. rewrite (proj2 (Z.leb_gt _ _)) by lia. cbv zeta.
  set (span := high - low - 1). set (p := Z.min (Z.of_nat k) span).
  replace high with (low + span + 1) by (unfold span; lia).
  rewrite bracket_fold by (unfold p, span; lia). apply reverse_involutive.
Qed.

Lemma bracket_inside low high k x : (1 <= k)%nat -> x ∈ bracket_candidates low high k -> low < x < high.
Proof.
  intros Hk Hx. destruct (decide (low + 1 < high)) as [Hlh|Hlh].
  - rewrite bracket_spec in Hx by done. apply list_elem_of_fmap in Hx as (j & -> & Hj).
    apply elem_of_seqZ in Hj.
    pose proof (cand_bounds low (high - low - 1) (Z.min (Z.of_nat k) (high - low - 1)) ltac:(lia) ltac:(lia) j ltac:(lia)). lia.
  - unfold bracket_candidates in Hx. rewrite (proj2 (Z.leb_le _ _)) in Hx by lia. by apply not_elem_of_nil in Hx.
Qed.

(** Some candidate splits the interval in parts of at most two thirds. *)
Lemma bracket_middle low high : low + 1 < high ->
  exists c, c ∈ bracket_candidates low high PROBE_BAND /\
    3 * (c - low - 1) <= 2 * (high - low - 1) /\ 3 * (high - c - 1) <= 2 * (high - low - 1).
Proof.
  intros Hlh. rewrite bracket_spec by (unfold PROBE_BAND; lia). set (span := high - low - 1).
  assert (Hs : 1 <= span) by (unfold span; lia). change (Z.of_nat PROBE_BAND) with 12.
  set (p := Z.min 12 span). set (m := (p + 1) / 2).
  assert (Hm : 1 <= m <= p).
  { unfold m, p. split; [apply Z.div_le_lower_bound; lia|]. apply Z.div_le_upper_bound; lia. }
  exists (cand low span p m). split; [apply list_elem_of_fmap; exists m; split; [done|apply elem_of_seqZ; lia]|].
  unfold cand. pose proof (Z.div_mod (span * m) (p + 1) ltac:(lia)) as Hd.
  pose proof (Z.mod_pos_bound (span * m) (p + 1) ltac:(lia)) as Hb.
  assert (Hmm : p = 2 * m \/ p = 2 * m - 1).
  { unfold m. pose proof (Z.div_mod (p + 1) 2 ltac:(lia)). pose proof (Z.mod_pos_bound (p + 1) 2 ltac:(lia)). lia. }
  set (q := span * m / (p + 1)) in *. replace (high - (low + q + 1) - 1) with (span - q - 1) by (unfold span; lia).
  replace (low + q + 1 - low - 1) with q by lia.
  assert (Hp : 1 <= p <= span) by (unfold p; lia).
  destruct Hmm as [E|E]; rewrite E in Hd, Hb; split; nia.
Qed.

(** ** One round of probes *)

Section Rounds.
Context (net : Net) (Hperm : forall rd l, completion net rd l ≡ₚ l).

(** The answers to the probe of an index. *)
Definition present (rd : nat) (i : Z) (c : bytes) : Prop := 0 <= i /\ answer net rd i = SOk c.
Definition missing (rd : nat) (i : Z) : Prop := 0 <= i /\ get_update net rd i = Ok None.
Definition failed (rd : nat) (i : Z) (e : ResolveError) : Prop := 0 <= i /\ get_update net rd i = Err e.

Lemma get_update_some rd i c : get_update net rd i = Ok (Some c) <-> answer net rd i = SOk c.
Proof.
  unfold get_update, to_probe. destruct (answer net rd i) as [| |msg| |];
    [| |destruct (is_absent_retrieval msg)| |]; split; congruence.
Qed.

(** What a round's completions give, whatever their order. *)
Record collected (rd : nat) (order : list Z) (lo : Z) (chunk : bytes) (any : bool) (hi : Z)
    (lo' : Z) (chunk' : bytes) (any' : bool) (hi' : Z) : Prop := {
  co_all : forall i, i ∈ order -> (exists c, present rd i c) \/ missing rd i;
  co_lo : lo <= lo';
  co_src : (lo' = lo /\ chunk' = chunk) \/ (lo' ∈ order /\ present rd lo' chunk');
  co_max : forall i c, i ∈ order -> present rd i c -> i <= lo' /\ any' = true;
  co_hi : hi' = hi \/ (hi' ∈ order /\ missing rd hi' /\ hi' < hi);
  co_min : forall i, i ∈ order -> missing rd i -> hi' <= i }.

Lemma collect_spec rd order : Forall (Z.le 0) order -> forall lo chunk any hi lo' chunk' any' hi',
  collect net rd order lo chunk any hi = Ok (lo', chunk', any', hi') ->
  collected rd order lo chunk any hi lo' chunk' any' hi' /\ (any = true -> any' = true).
Proof.
  induction 1 as [|idx order H0 Hord IH]; intros lo chunk any hi lo' chunk' any' hi' E; cbn [collect] in E.
  { injection E as <- <- <- <-. split; [|done].
    split; auto with lia; intros *; intros Hin; by apply not_elem_of_nil in Hin. }
  destruct (get_update net rd idx) as [[c|]|e] eqn:G; [apply get_update_some in G| |done].
  - assert (Hpr : present rd idx c) by done. set (b := lo <? idx) in E.
    assert (E' : collect net rd order (if b then idx else lo) (if b then c else chunk) true hi
                 = Ok (lo', chunk', any', hi')) by (by destruct b).
    clear E. apply IH in E' as [[All Lo Src Max Hi Min] Any].
    assert (Hle : lo <= (if b then idx else lo) /\ idx <= (if b then idx else lo)).
    { unfold b. destruct (Z.ltb_spec lo idx); lia. }
    split; [split|auto].
    + intros i [->|Hi']%elem_of_cons; eauto.
    + lia.
    + destruct Src as [[-> ->]|[? ?]]; [|right; split; [by right|done]].
      destruct b; [right; split; [left|done]|by left].
    + intros i c' [->|Hi']%elem_of_cons Hp; [|eauto]. split; [lia|auto].
    + destruct Hi as [?|(? & ? & ?)]; [by left|right]. split; [by right|done].
    + intros i [->|Hi']%elem_of_cons Hm; [|eauto]. destruct Hm as [_ Hm]. apply get_update_some in G. congruence.
  - assert (Hmi : missing rd idx) by done. apply IH in E as [[All Lo Src Max Hi Min] Any]. split; [split|done].
    + intros i [->|Hi']%elem_of_cons; eauto.
    + lia.
    + destruct Src as [?|[? ?]]; [by left|right; split; [by right|done]].
    + intros i c' [->|Hi']%elem_of_cons Hp; [|eauto]. destruct Hp as [_ Hp]. apply get_update_some in Hp. congruence.
    + destruct (Z.ltb_spec idx hi).
      * right. destruct Hi as [->|(? & ? & ?)]; [|split; [by right|split; [done|lia]]].
        split; [left|done].
      * destruct Hi as [?|(? & ? & ?)]; [by left|right; split; [by right|done]].
    + intros i [->|Hi']%elem_of_cons Hm; [|eauto].
      destruct (Z.ltb_spec idx hi), Hi as [?|(? & ? & ?)]; lia.
Qed.

Lemma collect_round rd l lo chunk hi lo' chunk' any' hi' : Forall (Z.le 0) l ->
  collect net rd (completion net rd l) lo chunk false hi = Ok (lo', chunk', any', hi') ->
  collected rd l lo chunk false hi lo' chunk' any' hi'.
Proof.
  intros Hl E. apply collect_spec in E as [[All Lo Src Max Hi Min] _]; [|by rewrite Hperm].
  split; eauto; try setoid_rewrite Hperm in All; try setoid_rewrite Hperm in Src;
    try setoid_rewrite Hperm in Max; try setoid_rewrite Hperm in Hi; try setoid_rewrite Hperm in Min; auto.
Qed.

(** ** The band of a gallop round *)

Lemma band_from_elem n : forall k lo x, 0 <= lo ->
  x ∈ band_from k n lo 1 <->
  x <= MAX_PROBE_INDEX /\ exists j, (k <= j < k + n)%nat /\ x = lo + 2 ^ Z.of_nat j.
Proof.
  induction n as [|n IH]; intros k lo x Hlo; cbn [band_from].
  { rewrite elem_of_nil. split; [done|intros (_ & j & ? & _); lia]. }
  pose proof (Z.pow_pos_nonneg 2 (Z.of_nat k) ltac:(lia) ltac:(lia)) as Hk.
  assert (Hsat : (MAX_PROBE_INDEX <? sat_add64 lo (sat_mul U64_MAX 1 (2 ^ Z.of_nat k)))
                 = (MAX_PROBE_INDEX <? lo + 2 ^ Z.of_nat k)).
  { unfold MAX_PROBE_INDEX, sat_add, sat_mul. apply Bool.eq_iff_eq_true. rewrite !Z.ltb_lt. lia. }
  rewrite Hsat. destruct (Z.ltb_spec MAX_PROBE_INDEX (lo + 2 ^ Z.of_nat k)) as [Hgt|Hle].
  - rewrite elem_of_nil. split; [done|]. intros (Hx & j & Hj & ->).
    pose proof (Z.pow_le_mono_r 2 (Z.of_nat k) (Z.of_nat j) ltac:(lia) ltac:(lia)). lia.
  - replace (sat_add64 lo (sat_mul U64_MAX 1 (2 ^ Z.of_nat k))) with (lo + 2 ^ Z.of_nat k)
      by (unfold MAX_PROBE_INDEX in Hle; unfold sat_add, sat_mul; lia).
    rewrite elem_of_cons, IH by done. split.
    + intros [->|(Hx & j & Hj & ->)]; (split; [lia|]); [exists k|exists j]; split; (done || lia).
    + intros (Hx & j & Hj & ->). destruct (decide (j = k)) as [->|Hne]; [by left|right].
      split; [done|]. exists j. split; [lia|done].
Qed.

Lemma band_elem lo x : 0 <= lo ->
  x ∈ band lo 1 <-> x <= MAX_PROBE_INDEX /\ exists j, (j < PROBE_BAND)%nat /\ x = lo + 2 ^ Z.of_nat j.
Proof.
  intros Hlo. unfold band. rewrite band_from_elem by done. split; intros (? & j & ? & ->);
    (split; [done|]); exists j; split; (done || lia).
Qed.

Lemma band_nonempty lo : 0 <= lo -> band lo 1 <> [] <-> lo + 1 <= MAX_PROBE_INDEX.
Proof.
  intros Hlo. split.
  - destruct (band lo 1) as [|x l] eqn:E; [done|intros _].
    assert (Hx : x ∈ band lo 1) by (rewrite E; left). apply band_elem in Hx as (Hx & j & _ & ->); [|done].
    pose proof (Z.pow_pos_nonneg 2 (Z.of_nat j) ltac:(lia) ltac:(lia)). lia.
  - intros Hle E. assert (Hx : lo + 1 ∈ band lo 1); [|rewrite E in Hx; by apply not_elem_of_nil in Hx].
    apply band_elem; [done|]. split; [done|]. exists O. unfold PROBE_BAND. split; [lia|done].
Qed.

Lemma band_nonneg lo : 0 <= lo -> Forall (Z.le 0) (band lo 1).
Proof.
  intros Hlo. apply Forall_forall. intros x (_ & j & _ & ->)%band_elem; [|done].
  pose proof (Z.pow_nonneg 2 (Z.of_nat j) ltac:(lia)). lia.
Qed.

Lemma foldl_max l : forall a, a <= foldl Z.max a l /\ (forall x, x ∈ l -> x <= foldl Z.max a l) /\
  (foldl Z.max a l = a \/ foldl Z.max a l ∈ l).
Proof.
  induction l as [|y l IH]; intros a; cbn [foldl].
  { split; [lia|]. split; [intros x Hx; by apply not_elem_of_nil in Hx|by left]. }
  destruct (IH (Z.max a y)) as (Ha & Hall & Hsrc). split; [lia|split].
  - intros x [->|Hx]%elem_of_cons; [lia|auto].
  - destruct Hsrc as [E|Hin]; [|right; by right]. rewrite E.
    destruct (Z.max_spec a y) as [[_ ->]|[_ ->]]; [right; left|by left].
Qed.

(** A round in which nothing was missing moves [lo] to the top of the band, so
    the next step is 1 again. *)
Lemma all_present rd lo chunk lo' chunk' any' hi' : 0 <= lo -> band lo 1 <> [] ->
  collected rd (band lo 1) lo chunk false U64_MAX lo' chunk' any' hi' -> hi' = U64_MAX ->
  any' = true /\ lo' = foldl Z.max lo (band lo 1) /\ present rd lo' chunk' /\ lo' <= MAX_PROBE_INDEX /\
  exists j, (j < PROBE_BAND)%nat /\ lo' = lo + 2 ^ Z.of_nat j /\
    (MAX_PROBE_INDEX < lo + 2 ^ Z.of_nat (S j) \/ S j = PROBE_BAND).
Proof.
  intros Hlo Hne [All Lo Src Max Hi Min] ->.
  assert (Hall : forall i, i ∈ band lo 1 -> (exists c, present rd i c) /\ lo < i /\ i <= MAX_PROBE_INDEX).
  { intros i Hin. assert (Hb := Hin). apply band_elem in Hb as (Hb & j & _ & Ej); [|done].
    pose proof (Z.pow_pos_nonneg 2 (Z.of_nat j) ltac:(lia) ltac:(lia)). split; [|lia].
    destruct (All i Hin) as [?|Hm]; [done|]. pose proof (Min i Hin Hm). unfold MAX_PROBE_INDEX in Hb. lia. }
  destruct (foldl_max (band lo 1) lo) as (_ & Htop & Hsrc).
  assert (Hx : exists x, x ∈ band lo 1) by (destruct (band lo 1) as [|x ?]; [done|exists x; left]).
  destruct Hx as (x & Hx). destruct (Hall x Hx) as ((c & Hc) & Hlx & _).
  destruct (Max x c Hx Hc) as [Hxlo Hany].
  destruct Src as [[-> _]|[Hin Hpr]]; [lia|].
  assert (Etop : lo' = foldl Z.max lo (band lo 1)).
  { pose proof (Htop lo' Hin). pose proof (Htop x Hx). destruct Hsrc as [E|Hin2]; [lia|].
    destruct (Hall _ Hin2) as ((c2 & Hc2) & _). destruct (Max _ _ Hin2 Hc2). lia. }
  destruct (Hall lo' Hin) as (_ & _ & HM). split; [done|]. split; [done|]. split; [done|]. split; [done|].
  assert (Hin' := Hin). apply band_elem in Hin' as (_ & j & Hj & Ej); [|done].
  exists j. split; [done|]. split; [done|].
  destruct (decide (S j = PROBE_BAND)) as [|Hjn]; [by right|left].
  destruct (Z.lt_ge_cases MAX_PROBE_INDEX (lo + 2 ^ Z.of_nat (S j))) as [|Hge]; [done|].
  assert (Hin2 : lo + 2 ^ Z.of_nat (S j) ∈ band lo 1).
  { apply band_elem; [done|]. split; [done|]. exists (S j). split; [lia|done]. }
  destruct (Hall _ Hin2) as ((c2 & Hc2) & _). destruct (Max _ _ Hin2 Hc2) as [Hle _].
  pose proof (Z.pow_lt_mono_r 2 (Z.of_nat j) (Z.of_nat (S j)) ltac:(lia) ltac:(lia) ltac:(lia)). lia.
Qed.

Lemma collect_err rd order : Forall (Z.le 0) order -> forall lo chunk any hi e,
  collect net rd order lo chunk any hi = Err e -> exists i, failed rd i e.
Proof.
  induction 1 as [|idx order H0 Hord IH]; intros lo chunk any hi e E; cbn [collect] in E; [done|].
  destruct (get_update net rd idx) as [[c|]|e'] eqn:G; [destruct (lo <? idx); eauto|eauto|exists idx; unfold failed; split; congruence].
Qed.

(** ** The gallop *)

(** The five ways a gallop round ends. *)
Inductive gallop_round (rd : nat) (lo : Z) (chunk : bytes)
    (next : nat -> Z -> bytes -> option (result (nat * Z * bytes * Z) ResolveError)) :
    option (result (nat * Z * bytes * Z) ResolveError) -> Prop :=
| gr_top : MAX_PROBE_INDEX <= lo -> gallop_round rd lo chunk next (Some (Ok (rd, lo, chunk, U64_MAX)))
| gr_err i e : failed rd i e -> gallop_round rd lo chunk next (Some (Err e))
| gr_hi lo' chunk' hi : lo <= lo' -> (lo' = lo /\ chunk' = chunk) \/ present rd lo' chunk' ->
    hi <= MAX_PROBE_INDEX -> missing rd hi ->
    gallop_round rd lo chunk next (Some (Ok (S rd, lo', chunk', hi)))
| gr_last lo' chunk' : lo <= lo' -> present rd lo' chunk' -> MAX_PROBE_INDEX <= lo' ->
    gallop_round rd lo chunk next (Some (Ok (S rd, lo', chunk', U64_MAX)))
| gr_next lo' chunk' j : present rd lo' chunk' -> (j < PROBE_BAND)%nat -> lo' = lo + 2 ^ Z.of_nat j ->
    lo' < MAX_PROBE_INDEX -> MAX_PROBE_INDEX < lo + 2 ^ Z.of_nat (S j) \/ S j = PROBE_BAND ->
    gallop_round rd lo chunk next (next (S rd) lo' chunk').

Lemma gallop_step f rd lo chunk : 0 <= lo ->
  gallop_round rd lo chunk (fun rd lo chunk => gallop net f rd lo chunk 1) (gallop net (S f) rd lo chunk 1).
Proof.
  intros Hlo. cbn [gallop]. destruct (decide (band lo 1 = [])) as [E|Hne].
  { rewrite E. apply gr_top. destruct (Z.le_gt_cases MAX_PROBE_INDEX lo); [done|].
    assert (band lo 1 <> []) by (apply band_nonempty; lia). congruence. }
  destruct (band lo 1) as [|x l] eqn:E; [done|]. rewrite <- E in *. clear x l E.
  destruct (collect net rd (completion net rd (band lo 1)) lo chunk false U64_MAX)
    as [[[[lo' chunk'] any'] hi']|e] eqn:C; [|apply collect_err in C as [i ?]; [by apply (gr_err _ _ _ _ i)|rewrite Hperm; by apply band_nonneg]].
  apply collect_round in C; [|by apply band_nonneg]. destruct (Z.eqb_spec hi' U64_MAX) as [->|Hhi]; cbn [negb].
  - destruct (all_present _ _ _ _ _ _ _ Hlo Hne C eq_refl) as (-> & <- & Hpr & HM & j & Hj & Ej & Hend).
    cbn [negb orb]. destruct (Z.leb_spec MAX_PROBE_INDEX lo') as [Hge|Hlt].
    + apply gr_last; [apply C|done|done].
    + rewrite Z.sub_diag. change (sat_add64 (wrap 64 0) 1) with 1. by exact (gr_next rd lo chunk (fun rd lo chunk => gallop net f rd lo chunk 1) lo' chunk' j Hpr Hj Ej Hlt Hend).
  - destruct C as [_ Lo Src _ Hi _]. destruct Hi as [?|(Hin & Hm & _)]; [done|].
    apply gr_hi; [done| |apply band_elem in Hin as [? _]; done|done].
    destruct Src as [?|[_ ?]]; auto.
Qed.

(** The probes left to a gallop at distance [r] from the limit. *)
Definition gallop_room (f : nat) : Z := if (f <=? 11)%nat then 2 ^ Z.of_nat f else 2048 * (Z.of_nat f - 10).

Lemma gallop_room_step f r j : (j < PROBE_BAND)%nat -> 2 ^ Z.of_nat j <= r -> r < gallop_room (S f) ->
  r < 2 ^ Z.of_nat (S j) \/ S j = PROBE_BAND -> r - 2 ^ Z.of_nat j < gallop_room f.
Proof.
  unfold gallop_room, PROBE_BAND. intros Hj Hle Hr Hend.
  assert (Hsj : 2 ^ Z.of_nat (S j) = 2 * 2 ^ Z.of_nat j) by (rewrite Nat2Z.inj_succ, Z.pow_succ_r by lia; done).
  destruct (Nat.leb_spec (S f) 11) as [Hs|Hs].
  - rewrite leb_correct by lia.
    assert (Hjf : (j <= f)%nat).
    { assert (Hlt : 2 ^ Z.of_nat j < 2 ^ Z.of_nat (S f)) by lia.
      apply Z.pow_lt_mono_r_iff in Hlt; lia. }
    pose proof (Z.pow_le_mono_r 2 (Z.of_nat j) (Z.of_nat f) ltac:(lia) ltac:(lia)).
    destruct Hend as [Hlt|E]; [lia|]. assert (j = 11%nat) as -> by lia. lia.
  - assert (Hroom : 2048 * (Z.of_nat f - 10) <= (if (f <=? 11)%nat then 2 ^ Z.of_nat f else 2048 * (Z.of_nat f - 10))).
    { destruct (Nat.leb_spec f 11); [|lia]. assert (f = 11%nat) as -> by lia. done. }
    destruct Hend as [Hlt|E].
    + pose proof (Z.pow_le_mono_r 2 (Z.of_nat j) 11 ltac:(lia) ltac:(lia)). change (2 ^ 11) with 2048 in *. lia.
    + assert (j = 11%nat) as -> by lia. change (2 ^ Z.of_nat 11) with 2048. lia.
Qed.

Lemma gallop_total f : forall rd lo chunk, 0 <= lo -> MAX_PROBE_INDEX - lo < gallop_room f ->
  gallop net (S f) rd lo chunk 1 <> None.
Proof.
  induction f as [|f IH]; intros rd lo chunk Hlo Hr;
    [destruct (gallop_step 0 rd lo chunk Hlo) as [|i e|lo' chunk' hi|lo' chunk'|lo' chunk' j Hpr Hj Ej Hlt Hend]
    |destruct (gallop_step (S f) rd lo chunk Hlo) as [|i e|lo' chunk' hi|lo' chunk'|lo' chunk' j Hpr Hj Ej Hlt Hend]];
    try done; pose proof (Z.pow_pos_nonneg 2 (Z.of_nat j) ltac:(lia) ltac:(lia)).
  - change (gallop_room 0) with 1 in Hr. lia.
  - apply IH; [lia|]. replace (MAX_PROBE_INDEX - lo') with (MAX_PROBE_INDEX - lo - 2 ^ Z.of_nat j) by lia.
    apply gallop_room_step; [done|lia|done|]. destruct Hend; [left; lia|by right].
Qed.

Lemma gallop_sound f : forall rd lo chunk rd' lo' chunk' hi, 0 <= lo ->
  gallop net f rd lo chunk 1 = Some (Ok (rd', lo', chunk', hi)) ->
  lo <= lo' /\ ((lo' = lo /\ chunk' = chunk) \/ exists r, present r lo' chunk') /\
  ((hi = U64_MAX /\ MAX_PROBE_INDEX <= lo') \/ (hi <= MAX_PROBE_INDEX /\ exists r, missing r hi)).
Proof.
  induction f as [|f IH]; intros rd lo chunk rd' lo' chunk' hi Hlo; [done|].
  destruct (gallop_step f rd lo chunk Hlo)
    as [Htop|i e He|lo1 chunk1 hi1 Hle Hsrc Hhi Hm|lo1 chunk1 Hle Hpr Htop|lo1 chunk1 j Hpr Hj Ej Hlt Hend];
    [intros [= <- <- <- <-]|done|intros [= <- <- <- <-]|intros [= <- <- <- <-]|].
  - split; [lia|]. split; by left.
  - split; [done|]. split; [destruct Hsrc; eauto|]. right. eauto.
  - split; [done|]. split; [eauto|by left].
  - pose proof (Z.pow_pos_nonneg 2 (Z.of_nat j) ltac:(lia) ltac:(lia)).
    intros E. apply IH in E as (Hle & Hsrc & Hhi); [|lia]. split; [lia|]. split; [|done].
    right. destruct Hsrc as [[-> ->]|?]; [by exists rd|done].
Qed.

Lemma gallop_err f : forall rd lo chunk e, 0 <= lo ->
  gallop net f rd lo chunk 1 = Some (Err e) -> exists r i, failed r i e.
Proof.
  induction f as [|f IH]; intros rd lo chunk e Hlo; [done|].
  destruct (gallop_step f rd lo chunk Hlo)
    as [Htop|i e' He|lo1 chunk1 hi1 Hle Hsrc Hhi Hm|lo1 chunk1 Hle Hpr Htop|lo1 chunk1 j Hpr Hj Ej Hlt Hend]; try done.
  - intros [= <-]. eauto.
  - pose proof (Z.pow_pos_nonneg 2 (Z.of_nat j) ltac:(lia) ltac:(lia)). apply IH. lia.
Qed.

(** ** The narrowing *)

Inductive narrow_round (rd : nat) (lo : Z) (chunk : bytes) (high : Z)
    (next : nat -> Z -> bytes -> Z -> option (result (Z * bytes) ResolveError)) :
    option (result (Z * bytes) ResolveError) -> Prop :=
| nr_done : high <= lo + 1 -> narrow_round rd lo chunk high next (Some (Ok (lo, chunk)))
| nr_err i e : failed rd i e -> narrow_round rd lo chunk high next (Some (Err e))
| nr_next lo' chunk' hi' : lo <= lo' -> (lo' = lo /\ chunk' = chunk) \/ present rd lo' chunk' ->
    hi' <= high -> hi' = high \/ missing rd hi' -> 3 * (hi' - lo' - 1) <= 2 * (high - lo - 1) -> lo + 1 < high ->
    narrow_round rd lo chunk high next (next (S rd) lo' chunk' hi').

Lemma narrow_step f rd lo chunk high : 0 <= lo -> high <= MAX_PROBE_INDEX ->
  narrow_round rd lo chunk high (fun rd lo chunk high => narrow net f rd lo chunk lo high)
    (narrow net (S f) rd lo chunk lo high).
Proof.
  intros Hlo Hhigh. cbn [narrow]. destruct (Z.le_gt_cases high (lo + 1)) as [Hd|Hgap].
  { assert (Eb : bracket_candidates lo high PROBE_BAND = []).
    { unfold bracket_candidates. by rewrite (proj2 (Z.leb_le _ _)). }
    rewrite Eb. destruct (wrap 64 (high - lo) <=? 1); by apply nr_done. }
  unfold wrap. rewrite Z.mod_small by (unfold MAX_PROBE_INDEX in Hhigh; lia).
  rewrite (proj2 (Z.leb_gt _ _)) by lia.
  destruct (bracket_middle lo high ltac:(lia)) as (c & Hc & Hc1 & Hc2).
  assert (Hin : forall x, x ∈ bracket_candidates lo high PROBE_BAND -> lo < x < high).
  { intros x. apply bracket_inside. unfold PROBE_BAND. lia. }
  assert (Hnn : Forall (Z.le 0) (bracket_candidates lo high PROBE_BAND)).
  { apply Forall_forall. intros x Hx%Hin. lia. }
  destruct (bracket_candidates lo high PROBE_BAND) as [|x l] eqn:E; [by apply not_elem_of_nil in Hc|].
  rewrite <- E in *. clear x l E.
  destruct (collect net rd _ lo chunk false high) as [[[[lo' chunk'] any'] hi']|e] eqn:C;
    [|apply collect_err in C as [i ?]; [by apply (nr_err _ _ _ _ _ i)|by rewrite Hperm]].
  apply collect_round in C as [All Lo Src Max Hi Min]; [|done].
  assert (Hhi : hi' <= high) by (destruct Hi as [->|(? & _ & ?)]; lia).
  assert (Hshrink : c <= lo' \/ hi' <= c).
  { destruct (All c Hc) as [[cc Hp]|Hm]; [left; by destruct (Max c cc Hc Hp)|right; auto]. }
  pose proof (Hin c Hc) as Hcin.
  destruct (Z.eqb_spec lo' lo) as [El|Hnl], (Z.eqb_spec hi' high) as [Eh|Hnh]; cbn [andb]; [lia| | |];
    try subst lo';
    (apply (nr_next rd lo chunk high (fun rd lo chunk high => narrow net f rd lo chunk lo high) _ chunk' hi');
     [lia|destruct Src as [?|[_ ?]]; auto|done|destruct Hi as [?|(_ & ? & _)]; auto|lia|lia]).
Qed.

Lemma narrow_total f : forall rd lo chunk high, 0 <= lo -> high <= MAX_PROBE_INDEX ->
  (high - lo - 1) * 2 ^ Z.of_nat f < 3 ^ Z.of_nat f -> narrow net (S f) rd lo chunk lo high <> None.
Proof.
  induction f as [|f IH]; intros rd lo chunk high Hlo Hhigh Hf.
  - destruct (narrow_step 0 rd lo chunk high Hlo Hhigh); try done. cbn in Hf. lia.
  - destruct (narrow_step (S f) rd lo chunk high Hlo Hhigh); try done. apply IH; [lia|lia|].
    rewrite Nat2Z.inj_succ, !Z.pow_succ_r in Hf by lia.
    pose proof (Z.pow_pos_nonneg 2 (Z.of_nat f) ltac:(lia) ltac:(lia)).
    pose proof (Z.mul_le_mono_nonneg_r _ _ (2 ^ Z.of_nat f) ltac:(lia) H3). lia.
Qed.

Lemma narrow_sound f : forall rd lo chunk high lo' chunk', 0 <= lo -> high <= MAX_PROBE_INDEX ->
  narrow net f rd lo chunk lo high = Some (Ok (lo', chunk')) ->
  lo <= lo' /\ ((lo' = lo /\ chunk' = chunk) \/ exists r, present r lo' chunk') /\
  (exists h, (h = high \/ exists r, missing r h) /\ h <= lo' + 1).
Proof.
  induction f as [|f IH]; intros rd lo chunk high lo' chunk' Hlo Hhigh; [done|].
  destruct (narrow_step f rd lo chunk high Hlo Hhigh) as [Hd|i e He|lo1 chunk1 hi1 Hle Hsrc Hhi Hm _ _];
    [intros [= <- <-]|done|].
  - split; [lia|]. split; [by left|]. exists high. auto.
  - intros E. apply IH in E as (Hle' & Hsrc' & h & Hh & Hend); [|lia|lia]. split; [lia|]. split.
    + destruct Hsrc' as [[-> ->]|?]; [|by right]. destruct Hsrc; eauto.
    + exists h. split; [|done]. destruct Hh as [->|?]; [destruct Hm; eauto|eauto].
Qed.

Lemma narrow_err f : forall rd lo chunk high e, 0 <= lo -> high <= MAX_PROBE_INDEX ->
  narrow net f rd lo chunk lo high = Some (Err e) -> exists r i, failed r i e.
Proof.
  induction f as [|f IH]; intros rd lo chunk high e Hlo Hhigh; [done|].
  destruct (narrow_step f rd lo chunk high Hlo Hhigh); [done|intros [= <-]; eauto|apply IH; lia].
Qed.

(** ** The anchor *)

Lemma anchor_spec n : forall rd i, 0 <= i ->
  match confirm_anchor net (S n) rd i with
  | (_, Ok (Some c)) => exists r, present r i c
  | (_, Ok None) => exists r, missing r i
  | (_, Err e) => exists r, failed r i e
  end.
Proof.
  induction n as [|n IH]; intros rd i Hi; cbn [confirm_anchor];
    destruct (to_probe (answer net rd i)) as [[c| |]|e] eqn:G; try (by apply IH);
    exists rd; (split; [done|]); try (apply get_update_some); unfold get_update; by rewrite G.
Qed.

(** ** The resolution *)

(** What an outcome of [resolve_latest] says of the answers the network gave. *)
Definition justified (out : result (bytes * Z) ResolveError) : Prop :=
  match out with
  | Ok (r, i) =>
      (exists rd c, present rd i c /\ reference_from_payload c = Ok r) /\
      (MAX_PROBE_INDEX <= i \/ exists rd h, missing rd h /\ h <= i + 1)
  | Err (FeedErr NoUpdate) => exists rd, missing rd 0
  | Err (FeedErr e) => exists rd i c, present rd i c /\ reference_from_payload c = Err e
  | Err e => exists rd i, failed rd i e
  end.

Lemma failed_kind rd i e : failed rd i e -> justified (Err e).
Proof.
  intros HF. assert (exists m, e = Fetch m) as [m ->]; [|cbn; eauto].
  destruct HF as [_ E]. unfold get_update, to_probe in E. destruct (answer net rd i) as [| |msg| |];
    [| |destruct (is_absent_retrieval msg)| |]; simplify_eq; eauto.
Qed.

(** From a present anchor on. *)
Lemma search_spec rd lo chunk r0 : 0 <= lo -> present r0 lo chunk ->
  exists out,
    match gallop net GALLOP_FUEL rd lo chunk 1 with
    | None => None
    | Some (Err e) => Some (Err e)
    | Some (Ok (round, lo, chunk, hi)) =>
        match (if hi =? U64_MAX then Some (Ok (lo, chunk)) else narrow net NARROW_FUEL round lo chunk lo hi) with
        | None => None
        | Some (Err e) => Some (Err e)
        | Some (Ok (lo, chunk)) =>
            match reference_from_payload chunk with
            | Err e => Some (Err (FeedErr e))
            | Ok r => Some (Ok (r, lo))
            end
        end
    end = Some out /\ justified out.
Proof.
  intros Hlo Hpr.
  assert (Hfin : forall lo chunk, (exists r, present r lo chunk) ->
      (MAX_PROBE_INDEX <= lo \/ exists rd h, missing rd h /\ h <= lo + 1) ->
      exists out, match reference_from_payload chunk with
            | Err e => Some (Err (FeedErr e))
            | Ok r => Some (Ok (r, lo))
            end = Some out /\ justified out).
  { intros l c [r Hp] Hb.
    destruct (reference_from_payload c) as [ref|e] eqn:E; eexists; (split; [done|]); cbn; [eauto|].
    assert (e <> NoUpdate) by (unfold reference_from_payload in E; case_match; simplify_eq; done).
    destruct e; try done; eauto. }
  destruct (gallop net GALLOP_FUEL rd lo chunk 1) as [[[[[rd1 lo1] chunk1] hi]|e]|] eqn:G.
  - apply gallop_sound in G as (Hle & Hsrc & Hhi); [|done].
    assert (Hp1 : exists r, present r lo1 chunk1) by (destruct Hsrc as [[-> ->]|?]; eauto).
    destruct Hhi as [[-> Htop]|[HM Hm]]; [apply Hfin; auto|].
    destruct (Z.eqb_spec hi U64_MAX) as [->|_]; [unfold MAX_PROBE_INDEX in HM; lia|].
    destruct (narrow net NARROW_FUEL rd1 lo1 chunk1 lo1 hi) as [[[lo2 chunk2]|e]|] eqn:N.
    + apply narrow_sound in N as (Hle2 & Hsrc2 & h & Hh & Hend); [|lia|done].
      apply Hfin; [destruct Hsrc2 as [[-> ->]|?]; eauto|].
      right. destruct Hh as [->|[r Hr]]; [destruct Hm as [r Hr]|]; exists r; eauto.
    + apply narrow_err in N as (r & i & E); [|lia|done]. eexists. split; [done|]. by eapply failed_kind.
    + exfalso. revert N. apply (narrow_total 63); [lia|done|].
      assert (hi - lo1 - 1 <= 2 ^ 20) by (unfold MAX_PROBE_INDEX in HM; lia).
      apply Z.le_lt_trans with (2 ^ 20 * 2 ^ Z.of_nat 63); [apply Z.mul_le_mono_nonneg_r; [done|lia]|done].
  - apply gallop_err in G as (r & i & E); [|done]. eexists. split; [done|]. by eapply failed_kind.
  - exfalso. revert G. apply (gallop_total 599); [done|].
    assert (MAX_PROBE_INDEX < gallop_room 599) by done. lia.
Qed.

Lemma resolve_spec after : 0 <= after -> exists out, resolve_latest net after = Some out /\ justified out.
Proof.
  intros Hafter. unfold resolve_latest.
  pose proof (anchor_spec 3 0 after Hafter) as HA. change (S 3) with ANCHOR_ATTEMPTS in HA.
  destruct (confirm_anchor net ANCHOR_ATTEMPTS 0 after) as [rd [[c|]|e]].
  - destruct HA as [r Hp]. by eapply search_spec.
  - destruct (Z.eqb_spec after 0) as [->|Hne]; cbn [negb]; [eexists; split; [done|]; exact HA|].
    pose proof (anchor_spec 3 rd 0 ltac:(lia)) as HB. change (S 3) with ANCHOR_ATTEMPTS in HB.
    destruct (confirm_anchor net ANCHOR_ATTEMPTS rd 0) as [rd' [[c|]|e]].
    + destruct HB as [r Hp]. by eapply search_spec.
    + eexists; split; [done|]; exact HB.
    + destruct HB as [r Hr]. eexists. split; [done|]. by eapply failed_kind.
  - destruct HA as [r Hr]. eexists. split; [done|]. by eapply failed_kind.
Qed.

(** For any answers of the network, which may contradict each other and change
    from round to round, and any order in which the concurrent probes of a round
    complete, [resolve_latest] ends with an outcome the answers justify: a result
    is the reference carried by an update that was retrieved at the returned index,
    with a miss reported at or below the next index (or the probe limit reached);
    "no update" is returned only after a miss of index 0; a short payload only for
    a retrieved update with that payload; any other error only when a probe failed
    with it. *)
Theorem feed_resolve_justified after : 0 <= after ->
  exists out, resolve_latest net after = Some out /\ justified out.
Proof. apply resolve_spec. Qed.

(** What the search finds on a network that serves exactly the updates up to [head]. *)
Lemma resolve_head after head refs : 0 <= after -> 0 <= head <= MAX_PROBE_INDEX ->
  (forall rd i, 0 <= i <= head ->
     exists c, answer net rd i = SOk c /\ reference_from_payload c = Ok (refs i)) ->
  (forall rd i, head < i -> get_update net rd i = Ok None) ->
  resolve_latest net after = Some (Ok (refs head, head)).
Proof.
  intros Hafter Hhead Hserve Hmiss. destruct (resolve_spec after Hafter) as (out & -> & Hj).
  assert (Hin : forall rd i, 0 <= i <= head -> exists c, get_update net rd i = Ok (Some c)).
  { intros rd i Hi. destruct (Hserve rd i Hi) as (c & Hc & _). exists c. by apply get_update_some. }
  assert (Hm : forall rd i, missing rd i -> head < i).
  { intros rd i [Hi Hm]. destruct (Z.le_gt_cases i head) as [Hle|]; [|done].
    destruct (Hin rd i ltac:(lia)). congruence. }
  assert (Hp : forall rd i c, present rd i c -> 0 <= i <= head /\ reference_from_payload c = Ok (refs i)).
  { intros rd i c [Hi Hc]. destruct (Z.le_gt_cases i head) as [Hle|Hgt].
    - destruct (Hserve rd i ltac:(lia)) as (c' & Hc' & Hr). split; [lia|]. congruence.
    - apply get_update_some in Hc. rewrite Hmiss in Hc by done. congruence. }
  assert (Hf : forall rd i e, ~ failed rd i e).
  { intros rd i e [Hi He]. destruct (Z.le_gt_cases i head) as [Hle|Hgt];
      [destruct (Hin rd i ltac:(lia))|rewrite Hmiss in He by done]; congruence. }
  destruct out as [[r i]|[[]| |]]; cbn in Hj; try (destruct Hj as (rd & i & c & Hc & Hr); apply Hp in Hc as [_ Hc]; congruence);
    try (destruct Hj as (rd & i & Hc); by apply Hf in Hc).
  - destruct Hj as ((rd & c & Hc & Hr) & Hend). apply Hp in Hc as [Hi Hc].
    assert (i = head) as ->; [|congruence]. destruct Hend as [?|(rd' & h & Hh & ?)]; [lia|]. apply Hm in Hh. lia.
  - destruct Hj as (rd & H0). apply Hm in H0. lia.
Qed.

(** C34: When the network serves exactly the updates up to [head] (misses may be
    definitive, transient or timeouts, and the probes of a round may complete in
    any order), [resolve_latest] returns the head's index and the reference its
    update carries, from any hint: unknown, stale or beyond the head. *)
Theorem feed_finds_head after head refs : 0 <= after -> 0 <= head <= MAX_PROBE_INDEX ->
  (forall rd i, 0 <= i <= head ->
     exists c, answer net rd i = SOk c /\ reference_from_payload c = Ok (refs i)) ->
  (forall rd i, head < i -> get_update net rd i = Ok None) ->
  resolve_latest net after = Some (Ok (refs head, head)).
Proof. apply resolve_head. Qed.
End Rounds.

(** ** A network that serves the updates 0 to 5 *)

Module FeedWitness.
Definition refs (i : Z) : bytes := replicate 32 i.
Definition net : Net :=
  mkNet (fun rd i => if i <=? 5 then SOk (replicate 40 i) else if Nat.even rd then STimeout else SNotFound)
    (fun _ l => reverse l).

Lemma perm rd l : completion net rd l ≡ₚ l.
Proof. apply reverse_Permutation. Qed.

Lemma serves rd i : 0 <= i <= 5 -> exists c, answer net rd i = SOk c /\ reference_from_payload c = Ok (refs i).
Proof. intros Hi. exists (replicate 40 i). cbn. by rewrite (proj2 (Z.leb_le _ _)) by lia. Qed.

Lemma misses rd i : 5 < i -> get_update net rd i = Ok None.
Proof.
  intros Hi. unfold get_update. cbn. rewrite (proj2 (Z.leb_gt _ _)) by lia. by destruct (Nat.even rd).
Qed.

Lemma feed_resolve_justified_witness :
  exists out, resolve_latest net 3 = Some out /\ justified net out.
Proof. apply feed_resolve_justified; [exact perm|lia]. Defined.

Lemma feed_finds_head_witness : resolve_latest net 100 = Some (Ok (refs 5, 5)).
Proof.
  apply (feed_finds_head net perm 100 5 refs); [lia|unfold MAX_PROBE_INDEX; lia|exact serves|exact misses].
Defined.
End FeedWitness.
