(* ===== verification/Protocols.v ===== *)
(** * Bee wire protocols ([src/src/protocols/], [src/src/proto/], [src/src/cache.rs])

    The messages of the protocols and the handlers that exchange them: pushsync,
    retrieval (both sides), pricing, pseudosettle, status (both sides) and the cheque
    stream; the chunk cache the retrieval responder serves from.

    Parameters: the encoding of messages ([BeeMessages]); [recover_address_from_msg],
    alloy's parsing of a signature and recovery of the address that signed a message
    ([None] when either fails); hashing, in [Crypto].  The timings a handler logs are
    left out. *)
From Stdlib Require Import ZArith Lia.
From stdpp Require Import base tactics numbers countable strings list gmap.
From S2P Require Import Prelude Codec F64 Signer Challenge Swap Wire Framing.
Local Open Scope Z_scope.
Local Open Scope hov_scope.

(** ** Messages *)

Record Header := mkHeader { h_key : str; h_value : bytes }.
Record Headers := mkHeaders { h_list : list Header }.
Record PushDelivery := mkPushDelivery { pd_address : bytes; pd_data : bytes; pd_stamp : bytes }.
Record Receipt := mkReceipt { rc_address : bytes; rc_signature : bytes; rc_nonce : bytes; rc_err : str; rc_storage_radius : Z }.
Record Request := mkRequest { rq_addr : bytes }.
Record Delivery := mkDelivery { dl_data : bytes; dl_stamp : bytes; dl_err : str }.
Record AnnouncePaymentThreshold := mkAnnounce { payment_threshold : bytes }.
Record Payment := mkPayment { pm_amount : bytes }.
Record PaymentAckMsg := mkPaymentAckMsg { pam_amount : bytes; pam_timestamp : Z }.
Record Get := mkGet { }.
Record Snapshot := mkSnapshot {
  sn_reserve_size : Z; sn_pullsync_rate : f64; sn_storage_radius : Z; sn_connected_peers : Z; sn_neighborhood_size : Z;
  sn_bee_mode : str; sn_batch_commitment : Z; sn_is_reachable : bool; sn_reserve_size_within_radius : Z;
  sn_last_synced_block : Z; sn_committed_depth : Z; sn_metrics : gmap str str }.
Record SwapHandshake := mkSwapHandshake { beneficiary : bytes }.
Record EmitCheque := mkEmitCheque { cheque : bytes }.

Class BeeMessages := {
  #[global] m_headers :: Message Headers; #[global] m_push_delivery :: Message PushDelivery; #[global] m_receipt :: Message Receipt;
  #[global] m_request :: Message Request; #[global] m_delivery :: Message Delivery; #[global] m_announce :: Message AnnouncePaymentThreshold;
  #[global] m_payment :: Message Payment; #[global] m_payment_ack :: Message PaymentAckMsg; #[global] m_get :: Message Get;
  #[global] m_snapshot :: Message Snapshot; #[global] m_swap_handshake :: Message SwapHandshake; #[global] m_emit :: Message EmitCheque }.

Class BeeMessagesLaws `{BeeMessages} := {
  #[global] ml_headers :: MessageLaws Headers; #[global] ml_request :: MessageLaws Request; #[global] ml_delivery :: MessageLaws Delivery;
  #[global] ml_announce :: MessageLaws AnnouncePaymentThreshold; #[global] ml_push_delivery :: MessageLaws PushDelivery; #[global] ml_receipt :: MessageLaws Receipt }.

Section Protocols.
Context `{BeeMessages}.

Definition empty_headers : Headers := mkHeaders [].

(** [fn write_then_read_empty_headers] and [fn read_then_write_empty_headers] (the
    same exchange opens most handlers). *)
Definition write_then_read_empty_headers : io (result unit FrameError) :=
  let* _ := write_message empty_headers in
  let* _ := read_message Headers in
  Ret (Ok tt).
Definition read_then_write_empty_headers : io (result unit FrameError) :=
  let* _ := read_message Headers in
  let* _ := write_message empty_headers in
  Ret (Ok tt).

(** ** Pushsync *)

Inductive PushsyncError := PsFrame (e : FrameError) | PsPeer (msg : str).
Record PushsyncReceipt := mkPushsyncReceipt { address : bytes; signature : bytes; nonce : bytes; storage_radius : Z }.

Section Push.
Context `{Hex}.

(** [fn push]. *)
Definition push (addr chunk_data stamp : bytes) : io (result PushsyncReceipt PushsyncError) :=
  let* _ := io_map_err PsFrame (write_message empty_headers) in
  let* _ := io_map_err PsFrame (read_message Headers) in
  let* _ := io_map_err PsFrame (write_message (mkPushDelivery addr chunk_data stamp)) in
  let* receipt := io_map_err PsFrame (read_message Receipt) in
  if negb (bool_decide (rc_err receipt = [])) then Ret (Err (PsPeer (rc_err receipt)))
  else if negb (bool_decide (rc_address receipt = addr))
  then Ret (Err (PsPeer (lit "receipt address mismatch: pushed " ++ hex_encode addr ++ lit ", receipt " ++ hex_encode (rc_address receipt))))
  else Ret (Ok (mkPushsyncReceipt (rc_address receipt) (rc_signature receipt) (rc_nonce receipt) (rc_storage_radius receipt))).
End Push.

Definition MAX_PO : Z := 31.

(** [transport::proximity]: leading bits shared by two addresses, at most [MAX_PO]. *)
Fixpoint proximity_from (i : Z) (a b : bytes) : Z :=
  match a, b with
  | x :: a', y :: b' =>
      let d := Z.lxor x y in
      if d =? 0 then proximity_from (i + 1) a' b' else Z.min (i * 8 + (7 - Z.log2 d)) MAX_PO
  | _, _ => MAX_PO
  end.
Definition proximity (a b : bytes) : Z := proximity_from 0 a b.

Section Receipts.
Context `{Crypto} (recover_address_from_msg : bytes -> bytes -> option bytes).

(** [fn storer_overlay]. *)
Definition storer_overlay (r : PushsyncReceipt) (network_id : Z) : option bytes :=
  if negb (Nat.eqb (length (address r)) 32) || negb (Nat.eqb (length (signature r)) 65) || negb (Nat.eqb (length (nonce r)) 32) then None
  else match recover_address_from_msg (signature r) (address r) with
       | Some eth => Some (derive_overlay eth network_id (nonce r))
       | None => None
       end.

(** [fn is_shallow]. *)
Definition is_shallow (r : PushsyncReceipt) (network_id : Z) : bool :=
  match storer_overlay r network_id with
  | None => true
  | Some overlay => if negb (Nat.eqb (length (address r)) 32) then true else proximity overlay (address r) <? storage_radius r
  end.
End Receipts.

(** ** Retrieval *)

Inductive RetrievalError := RtFrame (e : FrameError) | RtPeer (msg : str) | Empty.
Record ChunkDelivery := mkChunkDelivery { cd_data : bytes; cd_stamp : bytes }.

(** [fn fetch_inner] and [fn fetch]. *)
Definition fetch_inner (addr : bytes) : io (result ChunkDelivery RetrievalError) :=
  let* _ := io_map_err RtFrame (write_message empty_headers) in
  let* _ := io_map_err RtFrame (read_message Headers) in
  let* _ := io_map_err RtFrame (write_message (mkRequest addr)) in
  let* delivery := io_map_err RtFrame (read_message Delivery) in
  if negb (bool_decide (dl_err delivery = [])) then Ret (Err (RtPeer (dl_err delivery)))
  else if bool_decide (dl_data delivery = []) then Ret (Err Empty)
  else Ret (Ok (mkChunkDelivery (dl_data delivery) (dl_stamp delivery))).
Definition fetch (addr : bytes) : io (result ChunkDelivery RetrievalError) :=
  io_bind (fetch_inner addr) (fun result => io_bind close (fun _ => Ret result)).

(** [fn respond_inner] and [fn respond]. *)
Definition respond_inner (lookup : bytes -> option (bytes * bytes)) : io (result unit RetrievalError) :=
  let* _ := io_map_err RtFrame (read_message Headers) in
  let* _ := io_map_err RtFrame (write_message empty_headers) in
  let* req := io_map_err RtFrame (read_message Request) in
  if negb (Nat.eqb (length (rq_addr req)) 32) then
    let* _ := io_map_err RtFrame (write_message (mkDelivery [] [] (lit "invalid address length: " ++ u128_to_string (Z.of_nat (length (rq_addr req)))))) in
    Ret (Ok tt)
  else
    match lookup (rq_addr req) with
    | Some (data, stamp) => let* _ := io_map_err RtFrame (write_message (mkDelivery data stamp [])) in Ret (Ok tt)
    | None => let* _ := io_map_err RtFrame (write_message (mkDelivery [] [] (lit "chunk not found"))) in Ret (Ok tt)
    end.
Definition respond (lookup : bytes -> option (bytes * bytes)) : io (result unit RetrievalError) :=
  io_bind (respond_inner lookup) (fun result => io_bind close (fun _ => Ret result)).

(** ** The chunk cache *)

Record CachedChunk := mkCachedChunk { cc_data : bytes; cc_stamp : bytes }.
Definition ChunkCache : Type := gmap bytes CachedChunk.
Definition cache_get (c : ChunkCache) (addr : bytes) : option CachedChunk := c !! addr.
Definition cache_put (c : ChunkCache) (addr data stamp : bytes) : ChunkCache := <[addr := mkCachedChunk data stamp]> c.
Definition cache_put_many (c : ChunkCache) (items : list (bytes * bytes * bytes)) : ChunkCache :=
  foldl (fun c it => cache_put c it.1.1 it.1.2 it.2) c items.

(** The lookup of the inbound listener ([inbound::run]). *)
Definition serve_from (c : ChunkCache) (addr : bytes) : option (bytes * bytes) :=
  match cache_get c addr with Some ch => Some (cc_data ch, cc_stamp ch) | None => None end.

(** ** Pricing and pseudosettle *)

Inductive PricingError := PrFrame (e : FrameError).
Definition DEFAULT_THRESHOLD : Z := 13500000.

Definition announce : io (result unit PricingError) :=
  let* _ := io_map_err PrFrame (write_message (mkAnnounce (to_be_bytes 16 DEFAULT_THRESHOLD))) in Ret (Ok tt).

(** The decoding of a big-endian amount into a [u128], of its first 16 bytes. *)
Definition amount_of (b : bytes) : Z :=
  let n := Nat.min (length b) 16 in from_be_bytes (replicate (16 - n) 0 ++ take n b).

Definition read_announcement : io (result Z PricingError) :=
  let* msg := io_map_err PrFrame (read_message AnnouncePaymentThreshold) in Ret (Ok (amount_of (payment_threshold msg))).
Definition respond_announcement : io (result Z PricingError) :=
  let* _ := io_map_err PrFrame (read_message Headers) in
  let* _ := io_map_err PrFrame (write_message empty_headers) in
  read_announcement.

Inductive PseudoSettleError := SettleFrame (e : FrameError).
Record PaymentAck := mkPaymentAck { amount_plur : Z; timestamp : Z }.

Definition pay (amount_plur : Z) : io (result PaymentAck PseudoSettleError) :=
  let* _ := io_map_err SettleFrame (write_message (mkPayment (to_be_bytes 16 amount_plur))) in
  let* ack := io_map_err SettleFrame (read_message PaymentAckMsg) in
  Ret (Ok (mkPaymentAck (amount_of (pam_amount ack)) (pam_timestamp ack))).

(** ** Status *)

Inductive StatusError := StFrame (e : FrameError).

(** [struct StatusSnapshot] and its defaults. *)
Record StatusSnapshot := mkStatusSnapshot {
  ss_reserve_size : Z; ss_pullsync_rate : f64; ss_storage_radius : Z; ss_connected_peers : Z; ss_neighborhood_size : Z;
  ss_bee_mode : str; ss_batch_commitment : Z; ss_is_reachable : bool; ss_reserve_size_within_radius : Z;
  ss_last_synced_block : Z; ss_committed_depth : Z }.
Definition default_snapshot : StatusSnapshot :=
  mkStatusSnapshot 5000000 (f64_of_Z 0) 11 200 20 (lit "full") 36028797018963968 true 100000 0 11.

Definition to_proto (s : StatusSnapshot) : Snapshot :=
  mkSnapshot (ss_reserve_size s) (ss_pullsync_rate s) (ss_storage_radius s) (ss_connected_peers s) (ss_neighborhood_size s)
    (ss_bee_mode s) (ss_batch_commitment s) (ss_is_reachable s) (ss_reserve_size_within_radius s)
    (ss_last_synced_block s) (ss_committed_depth s) ∅.

Definition status_respond (snapshot : StatusSnapshot) : io (result unit StatusError) :=
  let* _ := io_map_err StFrame (read_message Headers) in
  let* _ := io_map_err StFrame (write_message empty_headers) in
  let* _ := io_map_err StFrame (read_message Get) in
  let* _ := io_map_err StFrame (write_message (to_proto snapshot)) in
  Ret (Ok tt).

Definition status_request : io (result Snapshot StatusError) :=
  let* _ := io_map_err StFrame (write_message empty_headers) in
  let* _ := io_map_err StFrame (read_message Headers) in
  let* _ := io_map_err StFrame (write_message (mkGet)) in
  io_map_err StFrame (read_message Snapshot).

(** ** The cheque stream *)

Definition HDR_EXCHANGE : str := lit "exchange".
Definition HDR_DEDUCTION : str := lit "deduction".

Inductive SwapError := SwFrame (e : FrameError) | NoExchangeRate | SwOverflow.
Record SettlementRates := mkSettlementRates { exchange_rate : Z; deduction : Z }.

(** [fn send_handshake]. *)
Definition send_handshake (beneficiary : bytes) : io (result unit SwapError) :=
  let* _ := io_map_err SwFrame (write_message empty_headers) in
  let* _ := io_map_err SwFrame (read_message Headers) in
  let* _ := io_map_err SwFrame (write_message (mkSwapHandshake beneficiary)) in
  Ret (Ok tt).

(** [fn read_settlement_rates]: the loop over the headers, then the defaults. *)
Fixpoint scan_rates (hs : list Header) (exchange deduction : option Z) : result (option Z * option Z) SwapError :=
  match hs with
  | [] => Ok (exchange, deduction)
  | h :: hs' =>
      if bool_decide (h_key h = HDR_EXCHANGE) then
        if Nat.ltb 32 (length (h_value h)) then Err SwOverflow else scan_rates hs' (Some (from_be_bytes (h_value h))) deduction
      else if bool_decide (h_key h = HDR_DEDUCTION) then
        if Nat.ltb 32 (length (h_value h)) then Err SwOverflow else scan_rates hs' exchange (Some (from_be_bytes (h_value h)))
      else scan_rates hs' exchange deduction
  end.
Definition read_settlement_rates : io (result SettlementRates SwapError) :=
  let* _ := io_map_err SwFrame (write_message empty_headers) in
  let* resp := io_map_err SwFrame (read_message Headers) in
  Ret (let? (exchange, deduction) := scan_rates (h_list resp) None None in
       match exchange with None => Err NoExchangeRate | Some rate => Ok (mkSettlementRates rate (default 0 deduction)) end).

(** [fn emit_cheque]. *)
Definition emit_cheque `{Hex, HeaderCodec} (chequebook beneficiary : bytes) (cumulative_payout : Z) (signature : bytes)
    : io (result unit SwapError) :=
  let* _ := io_map_err SwFrame (write_message (mkEmitCheque (encode_signed_cheque_json chequebook beneficiary cumulative_payout signature))) in
  Ret (Ok tt).
End Protocols.

(** ** A receipt is for the chunk that was pushed *)

Section PushProps.
Context `{BeeMessages, Hex, Crypto} (recover_address_from_msg : bytes -> bytes -> option bytes).

(** C30: A receipt that a push returns is for the chunk that was pushed, whatever the
    peer sends, however its stream ends and whichever writes fail.  If it is not
    shallow, then its signature over the address of this very chunk recovers an
    account, and the overlay of that account (under the receipt's nonce and our
    network) shares at least the announced storage radius of leading bits with the
    chunk; the address has 32 bytes, so callers that copy it into an array do not
    panic. *)
Theorem receipt_binds_chunk addr data stamp p p' r network_id :
  against (push addr data stamp) p = (Ok r, p') ->
  address r = addr /\
  (is_shallow recover_address_from_msg r network_id = false ->
    length addr = 32%nat /\ exists eth, recover_address_from_msg (signature r) addr = Some eth /\
      storage_radius r <= proximity (derive_overlay eth network_id (nonce r)) addr).
Proof.
  intros Hp. unfold push in Hp.
  apply against_try in Hp as ([] & p1 & _ & Hp). apply against_try in Hp as (hs & p2 & _ & Hp).
  apply against_try in Hp as ([] & p3 & _ & Hp). apply against_try in Hp as (rc & p4 & _ & Hp).
  destruct (negb (bool_decide (rc_err rc = []))); [done|].
  case_bool_decide as Ea; [|done]. cbn in Hp. injection Hp as <- _. cbn [address signature nonce storage_radius]. split; [done|].
  unfold is_shallow, storer_overlay. cbn [address signature nonce storage_radius]. rewrite Ea.
  destruct (Nat.eqb_spec (length addr) 32); [|done]. destruct (Nat.eqb (length (rc_signature rc)) 65); [|done].
  destruct (Nat.eqb (length (rc_nonce rc)) 32); [|done]. cbn [negb orb].
  destruct (recover_address_from_msg (rc_signature rc) addr) as [eth|]; [|done].
  intros Hs. apply Z.ltb_ge in Hs. eauto.
Qed.
End PushProps.

(** ** Retrieval against the responder *)

Section Exchange.
Context `{BeeMessagesLaws}.

(** A message whose frame the other side accepts. *)
Lemma go_map_read {M E} `{MessageLaws M} (g : FrameError -> E) (m : M) rest cl eof : fits m ->
  go (io_map_err g (read_message M)) (encode_length_delimited m ++ rest) cl eof = (mkSide (Ret (Ok m)) rest cl, []).
Proof. intros Hf. unfold io_map_err. rewrite go_bind, go_read by done. done. Qed.

Lemma go_map_read_all {M E} `{MessageLaws M} (g : FrameError -> E) (m : M) cl eof : fits m ->
  go (io_map_err g (read_message M)) (encode_length_delimited m) cl eof = (mkSide (Ret (Ok m)) [] cl, []).
Proof. intros Hf. rewrite <- (app_nil_r (encode_length_delimited m)). by apply go_map_read. Qed.

Lemma go_map_write {M E} `{Message M} (g : FrameError -> E) (m : M) inb eof :
  go (io_map_err g (write_message m)) inb false eof = (mkSide (Ret (Ok tt)) inb false, encode_length_delimited m).
Proof. simpl. by rewrite app_nil_r. Qed.

(** A read on an empty inbox waits. *)
Lemma go_map_wait {M A E} `{Message M} (g : FrameError -> E) (f : M -> io (result A E)) cl :
  go (io_try (io_map_err g (read_message M)) f) [] cl false = (mkSide (io_try (io_map_err g (read_message M)) f) [] cl, []).
Proof. reflexivity. Qed.

(** What the client gets for what the responder finds. *)
Definition answer (found : option (bytes * bytes)) : result ChunkDelivery RetrievalError :=
  match found with
  | Some (data, stamp) => if bool_decide (data = []) then Err Empty else Ok (mkChunkDelivery data stamp)
  | None => Err (RtPeer (lit "chunk not found"))
  end.
Definition found_delivery (found : option (bytes * bytes)) : Delivery :=
  match found with Some (data, stamp) => mkDelivery data stamp [] | None => mkDelivery [] [] (lit "chunk not found") end.

(** The two moves of an exchange, for a handler and for a handler that closes its
    stream when it is done. *)
Lemma go_read_next {M A E} `{MessageLaws M} (g : FrameError -> E) (f : M -> io (result A E)) m cl eof : fits m ->
  go (io_try (io_map_err g (read_message M)) f) (encode_length_delimited m) cl eof = go (f m) [] cl eof.
Proof. intros Hf. erewrite go_try_ok by (by apply go_map_read_all). by destruct (go (f m) [] cl eof). Qed.

Lemma go_write_next {M A E} `{Message M} (g : FrameError -> E) (f : unit -> io (result A E)) m inb eof :
  go (io_try (io_map_err g (write_message m)) f) inb false eof =
  (let '(s, o) := go (f tt) inb false eof in (s, encode_length_delimited m ++ o)).
Proof. by erewrite go_try_ok by apply go_map_write. Qed.

Definition closing {A} (m : io A) : io A := io_bind m (fun result => io_bind close (fun _ => Ret result)).

Lemma go_closing_read {M A E} `{MessageLaws M} (g : FrameError -> E) (f : M -> io (result A E)) m cl eof : fits m ->
  go (closing (io_try (io_map_err g (read_message M)) f)) (encode_length_delimited m) cl eof = go (closing (f m)) [] cl eof.
Proof. intros Hf. unfold closing. rewrite !go_bind, go_read_next by done. done. Qed.

Lemma go_closing_write {M A E} `{Message M} (g : FrameError -> E) (f : unit -> io (result A E)) m inb eof :
  go (closing (io_try (io_map_err g (write_message m)) f)) inb false eof =
  (let '(s, o) := go (closing (f tt)) inb false eof in (s, encode_length_delimited m ++ o)).
Proof.
  unfold closing. rewrite !go_bind, go_write_next. destruct (go (f tt) inb false eof) as [s o].
  destruct (prog s); [|done..]. destruct (go _ (inbox s) (closed s) eof). by rewrite app_assoc.
Qed.

Lemma go_closing_ret {A} (a : A) inb cl eof : go (closing (Ret a)) inb cl eof = (mkSide (Ret a) inb true, []).
Proof. done. Qed.

Lemma retrieval_ends addr lookup : length addr = 32%nat -> fits empty_headers -> fits (mkRequest addr) ->
  fits (found_delivery (lookup addr)) ->
  always_ends (start (fetch addr) (respond lookup)) (answer (lookup addr)) (Ok tt).
Proof.
  intros Hl Hh Hr Hd.
  set (k2 := fun delivery : Delivery =>
    if negb (bool_decide (dl_err delivery = [])) then Ret (Err (RtPeer (dl_err delivery)))
    else if bool_decide (dl_data delivery = []) then Ret (Err Empty)
    else Ret (Ok (mkChunkDelivery (dl_data delivery) (dl_stamp delivery)))).
  set (wait2 := io_try (io_map_err RtFrame (read_message Delivery)) k2).
  set (k1 := fun _ : Headers => io_try (io_map_err RtFrame (write_message (mkRequest addr))) (fun _ => wait2)).
  set (wait1 := io_try (io_map_err RtFrame (read_message Headers)) k1).
  assert (C1 : go (fetch addr) [] false false = (mkSide (closing wait1) [] false, encode_length_delimited empty_headers)).
  { change (fetch addr) with (closing (io_try (io_map_err RtFrame (write_message empty_headers)) (fun _ => wait1))).
    rewrite go_closing_write. simpl. by rewrite app_nil_r. }
  assert (C2 : go (closing wait1) (encode_length_delimited empty_headers) false false =
    (mkSide (closing wait2) [] false, encode_length_delimited (mkRequest addr))).
  { unfold wait1. rewrite go_closing_read by done. unfold k1. rewrite go_closing_write. simpl. by rewrite app_nil_r. }
  assert (C3 : forall eof, go (closing wait2) (encode_length_delimited (found_delivery (lookup addr))) false eof =
    (mkSide (Ret (answer (lookup addr))) [] true, [])).
  { intros eof. unfold wait2. rewrite go_closing_read by done. unfold k2, answer. destruct (lookup addr) as [[d st]|]; simpl; [|done].
    by case_bool_decide. }
  set (r2 := fun req : Request =>
    if negb (Nat.eqb (length (rq_addr req)) 32) then
      let* _ := io_map_err RtFrame (write_message (mkDelivery [] [] (lit "invalid address length: " ++ u128_to_string (Z.of_nat (length (rq_addr req)))))) in
      Ret (Ok tt)
    else
      match lookup (rq_addr req) with
      | Some (data, stamp) => let* _ := io_map_err RtFrame (write_message (mkDelivery data stamp [])) in Ret (Ok tt)
      | None => let* _ := io_map_err RtFrame (write_message (mkDelivery [] [] (lit "chunk not found"))) in Ret (Ok tt)
      end : io (result unit RetrievalError)).
  set (swait := io_try (io_map_err RtFrame (read_message Request)) r2).
  assert (S1 : go (respond lookup) (encode_length_delimited empty_headers) false false =
    (mkSide (closing swait) [] false, encode_length_delimited empty_headers)).
  { change (respond lookup) with (closing (io_try (io_map_err RtFrame (read_message Headers)) (fun _ =>
      io_try (io_map_err RtFrame (write_message empty_headers)) (fun _ => swait)))).
    rewrite go_closing_read by done. rewrite go_closing_write. simpl. by rewrite app_nil_r. }
  assert (S2 : go (closing swait) (encode_length_delimited (mkRequest addr)) false false =
    (mkSide (Ret (Ok tt)) [] true, encode_length_delimited (found_delivery (lookup addr)))).
  { unfold swait. rewrite go_closing_read by done. unfold r2. cbn [rq_addr]. rewrite Hl. cbn [Nat.eqb negb].
    destruct (lookup addr) as [[d st]|]; rewrite go_closing_write; simpl; by rewrite app_nil_r. }
  assert (E : rounds 3 (start (fetch addr) (respond lookup)) =
    mkDuplex (mkSide (Ret (answer (lookup addr))) [] true) (mkSide (Ret (Ok tt)) [] true)).
  { cbn [rounds]. unfold start. erewrite round_eq by (first [exact C1|exact S1]).
    erewrite round_eq by (first [exact C2|exact S2]). erewrite round_eq by (first [apply C3|reflexivity]). reflexivity. }
  by apply (rounds_end 3); rewrite E.
Qed.

(** The last entry put for an address. *)
Definition last_put (items : list (bytes * bytes * bytes)) (addr : bytes) : option (bytes * bytes) :=
  foldl (fun acc it => if bool_decide (it.1.1 = addr) then Some (it.1.2, it.2) else acc) None items.

Lemma put_many_lookup c items addr :
  serve_from (cache_put_many c items) addr =
  match last_put items addr with Some r => Some r | None => serve_from c addr end.
Proof.
  unfold cache_put_many, last_put. induction items as [|it items IH] using rev_ind; [done|]. rewrite !foldl_snoc.
  unfold serve_from, cache_get, cache_put, ChunkCache in *. case_bool_decide as E.
  - rewrite E, lookup_insert, decide_True by done. done.
  - rewrite lookup_insert_ne by done. apply IH.
Qed.

(** The daemon serves its own uploads.  Once the chunks of an upload are in the
    cache, a client that retrieves the address of one of them from the responder gets,
    in every interleaving of the two handlers, the data and the stamp last put for it;
    for an address that was never put, the answer is that the chunk was not found;
    both handlers return, whatever order their reads and writes happen in. *)
Theorem uploaded_chunk_served c items addr : length addr = 32%nat -> fits empty_headers -> fits (mkRequest addr) ->
  fits (found_delivery (serve_from (cache_put_many c items) addr)) ->
  always_ends (start (fetch addr) (respond (serve_from (cache_put_many c items))))
    (match last_put items addr with
     | Some (data, stamp) => if bool_decide (data = []) then Err Empty else Ok (mkChunkDelivery data stamp)
     | None => answer (serve_from c addr)
     end) (Ok tt).
Proof.
  intros Hl Hh Hr Hd. pose proof (retrieval_ends addr (serve_from (cache_put_many c items)) Hl Hh Hr Hd) as G.
  rewrite put_many_lookup in G. by destruct (last_put items addr) as [[d st]|].
Qed.
End Exchange.

(** ** A concrete network *)

Module ProtocolsWitness.
Instance header_eq : EqDecision Header.
Proof. solve_decision. Defined.
Instance header_countable : Countable Header.
Proof. apply (inj_countable' (fun x => (h_key x, h_value x)) (fun '(a, b) => mkHeader a b)). by intros []. Defined.
Instance headers_eq : EqDecision Headers.
Proof. solve_decision. Defined.
Instance headers_countable : Countable Headers.
Proof. apply (inj_countable' h_list mkHeaders). by intros []. Defined.
Instance push_delivery_eq : EqDecision PushDelivery.
Proof. solve_decision. Defined.
Instance push_delivery_countable : Countable PushDelivery.
Proof. apply (inj_countable' (fun x => (pd_address x, pd_data x, pd_stamp x)) (fun '(a, b, c) => mkPushDelivery a b c)). by intros []. Defined.
Instance receipt_eq : EqDecision Receipt.
Proof. solve_decision. Defined.
Instance receipt_countable : Countable Receipt.
Proof.
  apply (inj_countable' (fun x => (rc_address x, rc_signature x, rc_nonce x, rc_err x, rc_storage_radius x))
    (fun '(a, b, c, d, e) => mkReceipt a b c d e)). by intros [].
Defined.
Instance request_eq : EqDecision Request.
Proof. solve_decision. Defined.
Instance request_countable : Countable Request.
Proof. apply (inj_countable' rq_addr mkRequest). by intros []. Defined.
Instance delivery_eq : EqDecision Delivery.
Proof. solve_decision. Defined.
Instance delivery_countable : Countable Delivery.
Proof. apply (inj_countable' (fun x => (dl_data x, dl_stamp x, dl_err x)) (fun '(a, b, c) => mkDelivery a b c)). by intros []. Defined.
Instance announce_eq : EqDecision AnnouncePaymentThreshold.
Proof. solve_decision. Defined.
Instance announce_countable : Countable AnnouncePaymentThreshold.
Proof. apply (inj_countable' payment_threshold mkAnnounce). by intros []. Defined.

(** Messages no exchange below sends. *)
Definition silent {M} : Message M :=
  {| encode := fun _ => []; encode_length_delimited := fun _ => []; decode := fun _ => Err (lit "not used") |}.

Definition plain_messages : BeeMessages := {|
  m_headers := plain_message; m_push_delivery := plain_message; m_receipt := plain_message; m_request := plain_message;
  m_delivery := plain_message; m_announce := plain_message; m_payment := silent; m_payment_ack := silent; m_get := silent;
  m_snapshot := silent; m_swap_handshake := silent; m_emit := silent |}.

Lemma plain_messages_laws : @BeeMessagesLaws plain_messages.
Proof. split; apply plain_message_laws. Qed.

Definition chunk_addr : bytes := replicate 32 5.

Lemma uploaded_chunk_served_witness :
  always_ends (start (fetch (H := plain_messages) chunk_addr)
      (respond (H := plain_messages) (serve_from (cache_put_many ∅ [(chunk_addr, [1; 2], [3]); (chunk_addr, [1; 2], [4])]))))
    (Ok (mkChunkDelivery [1; 2] [4])) (Ok tt).
Proof.
  apply (uploaded_chunk_served (H := plain_messages) (H0 := plain_messages_laws) ∅
    [(chunk_addr, [1; 2], [3]); (chunk_addr, [1; 2], [4])] chunk_addr); first [reflexivity | vm_compute; discriminate].
Defined.

(** A peer that answers a push with a receipt for it. *)
Definition honest_receipt : Receipt := mkReceipt chunk_addr (replicate 65 1) (replicate 32 0) [] 0.
Definition honest_peer : RemotePeer :=
  mkRemotePeer (encode_length_delimited (Message := @m_headers plain_messages) empty_headers
    ++ encode_length_delimited (Message := @m_receipt plain_messages) honest_receipt) [] [].

Lemma receipt_binds_chunk_witness :
  let r := mkPushsyncReceipt chunk_addr (replicate 65 1) (replicate 32 0) 0 in
  address r = chunk_addr /\
  exists eth, Some (replicate 20 7) = Some eth /\ 0 <= proximity (derive_overlay (H := toy_crypto) eth 1 (nonce r)) chunk_addr.
Proof.
  cbv zeta.
  assert (Hp : against (push (H := plain_messages) (H0 := plain_hex) chunk_addr [1] [2]) honest_peer
    = (Ok (mkPushsyncReceipt chunk_addr (replicate 65 1) (replicate 32 0) 0), mkRemotePeer [] [] [])) by (vm_compute; reflexivity).
  destruct (receipt_binds_chunk (H := plain_messages) (H0 := plain_hex) (H1 := toy_crypto) (fun _ _ => Some (replicate 20 7))
    chunk_addr [1] [2] honest_peer _ _ 1 Hp) as [Ha Hs].
  split; [exact Ha|]. destruct Hs as [_ Hs]; [vm_compute; reflexivity|exact Hs].
Defined.
End ProtocolsWitness.
