(* ===== verification/Peers.v ===== *)
(** * Peer table ([src/src/peers.rs])

    The peers a node knows, their underlay addresses and their dial history; which of
    them are worth dialling; persistence.

    Parameters: [parse_multiaddr], the parser of libp2p; [swarm_proximity], nectar's
    proximity order; serde's encoding of the store.  The clock is an argument.  A
    [BTreeMap] is a [gmap] whose values are listed in the order of the keys; strings
    compare by their bytes.  Overlays are ASCII text, on which [to_lowercase] is the
    ASCII one.  The native build is modelled (a browser build dials only websocket
    addresses). *)
From Stdlib Require Import ZArith Lia.
From stdpp Require Import base tactics numbers countable strings list gmap sorting.
From S2P Require Import Prelude Codec.
Local Open Scope Z_scope.
Local Open Scope hov_scope.

(** ** Strings and sorting of the standard library *)

(** [slice::sort_by] (stable) and [Vec::dedup]. *)
Section Sort.
Context {A : Type} (le : A -> A -> bool).
Fixpoint sort_insert (x : A) (l : list A) : list A :=
  match l with [] => [x] | y :: l' => if le x y then x :: l else y :: sort_insert x l' end.
Fixpoint stable_sort (l : list A) : list A := match l with [] => [] | x :: l' => sort_insert x (stable_sort l') end.
End Sort.
Fixpoint dedup {A} `{EqDecision A} (l : list A) : list A :=
  match l with
  | [] => []
  | x :: l' => match l' with y :: _ => if bool_decide (x = y) then dedup l' else x :: dedup l' | [] => [x] end
  end.

(** [str::split(pat).nth(1)], and [str::split(c).next()]. *)
Fixpoint split_once (pat s : str) : option (str * str) :=
  match strip_prefix pat s with
  | Some rest => Some ([], rest)
  | None => match s with [] => None | c :: s' => match split_once pat s' with Some (a, b) => Some (c :: a, b) | None => None end end
  end.
Definition split_nth1 (pat s : str) : option str :=
  match split_once pat s with
  | None => None
  | Some (_, rest) => Some (match split_once pat rest with Some (a, _) => a | None => rest end)
  end.
Fixpoint until_char (c : Z) (s : str) : str := match s with [] => [] | x :: s' => if x =? c then [] else x :: until_char c s' end.

(** [Ipv4Addr::from_str]: four decimal octets without leading zeros. *)
Fixpoint split_all (c : Z) (s : str) : list str :=
  match s with
  | [] => [[]]
  | x :: s' => if x =? c then [] :: split_all c s' else match split_all c s' with h :: t => (x :: h) :: t | [] => [[x]] end
  end.
Definition parse_octet (s : str) : option Z :=
  match s with
  | [] => None
  | c :: s' =>
      if negb (forallb (fun d => (48 <=? d) && (d <=? 57)) s) || Nat.ltb 3 (length s) || ((c =? 48) && negb (bool_decide (s' = []))) then None
      else let n := foldl (fun acc d => acc * 10 + (d - 48)) 0 s in if n <=? 255 then Some n else None
  end.
Definition parse_ipv4 (s : str) : option (Z * Z * Z * Z) :=
  match map parse_octet (split_all 46 s) with [Some a; Some b; Some c; Some d] => Some (a, b, c, d) | _ => None end.

(** ** Dialable addresses *)

Definition is_ws (ma : str) : bool := contains (lit "/ws") ma || contains (lit "/wss") ma.

(** [fn is_unroutable_ip4], with the predicates of [Ipv4Addr] it uses. *)
Definition is_unroutable_ip4 (ip : Z * Z * Z * Z) : bool :=
  let '(a, b, c, d) := ip in
  ((a =? 10) || ((a =? 172) && (16 <=? b) && (b <=? 31)) || ((a =? 192) && (b =? 168)))
  || (a =? 127)
  || ((a =? 169) && (b =? 254))
  || ((a =? 0) && (b =? 0) && (c =? 0) && (d =? 0))
  || ((a =? 255) && (b =? 255) && (c =? 255) && (d =? 255))
  || ((a =? 100) && (Z.land b 0xC0 =? 0x40)).

Definition has_unroutable_ip4 (ma : str) : bool :=
  match split_nth1 (lit "/ip4/") ma with
  | None => false
  | Some rest => match parse_ipv4 (until_char 47 rest) with None => false | Some ip => is_unroutable_ip4 ip end
  end.

Definition is_dialable_str (ma : str) : bool :=
  if negb (contains (lit "/ip4/") ma) then false
  else if has_unroutable_ip4 ma then false
  else is_ws ma || (contains (lit "/tcp/") ma && negb (is_ws ma)).

(** ** Peers *)

Record Peer := mkPeer {
  overlay : str; underlays : list str; eth_address : option str; nonce : option str; full_node : option bool;
  last_dial_success_unix : option Z; last_dial_failure_unix : option Z; last_dial_rtt_ms : option Z;
  consecutive_failures : Z }.

Definition RECENT_FAILURE_SECS : Z := 300.
Definition KNOWN_GOOD_FRESHNESS_SECS : Z := 900.
Definition WARM_PEERLIST_MIN_KNOWN_GOOD : nat := 8.

Inductive DialResult := Success (rtt_ms : Z) (full_node : option bool) | Failure.

(** [fn failure_backoff_secs], [fn is_recently_unreachable], [fn dial_rank]. *)
Definition failure_backoff_secs (p : Peer) : Z :=
  let shift := Z.min (consecutive_failures p) 3 in Z.min (sat_mul U64_MAX 60 (Z.shiftl 1 shift)) RECENT_FAILURE_SECS.

Definition is_recently_unreachable (p : Peer) (now_unix : Z) : bool :=
  match last_dial_failure_unix p with
  | None => false
  | Some fail =>
      if match last_dial_success_unix p with Some succ => fail <=? succ | None => false end then false
      else sat_sub now_unix fail <? failure_backoff_secs p
  end.

Definition failed_rank (p : Peer) (now_unix f : Z) : Z :=
  if failure_backoff_secs p <=? sat_sub now_unix f then 1 else if 3 <=? consecutive_failures p then 3 else 2.
Definition dial_rank (p : Peer) (now_unix : Z) : Z :=
  match last_dial_success_unix p, last_dial_failure_unix p with
  | Some s, Some f => if f <=? s then 0 else failed_rank p now_unix f
  | Some _, None => 0
  | None, None => 1
  | None, Some f => failed_rank p now_unix f
  end.

Section Underlays.
Context {Multiaddr : Type} (parse_multiaddr : str -> option Multiaddr).

Fixpoint first_parsed (l : list str) : option Multiaddr :=
  match l with [] => None | s :: l' => match parse_multiaddr s with Some m => Some m | None => first_parsed l' end end.
Definition first_underlay (p : Peer) : option Multiaddr := first_parsed (underlays p).
Definition first_ws_underlay (p : Peer) : option Multiaddr :=
  first_parsed (List.filter is_ws (underlays p)).
Definition first_dialable_underlay (p : Peer) : option Multiaddr :=
  match first_ws_underlay p with
  | Some ws => Some ws
  | None => first_parsed (List.filter (fun s => contains (lit "/tcp/") s && negb (is_ws s)) (underlays p))
  end.
End Underlays.

Definition overlay_bytes `{Hex} (p : Peer) : option bytes :=
  match hex_decode (trim_0x (overlay p)) with Ok b => if Nat.eqb (length b) 32 then Some b else None | Err _ => None end.

(** ** The store *)

Record PeerStore := mkPeerStore { peers : gmap str Peer }.
Definition store_new : PeerStore := mkPeerStore ∅.

(** [BTreeMap::values]. *)
Definition values (m : gmap str Peer) : list Peer :=
  map snd (stable_sort (fun a b : str * Peer => lex_le a.1 b.1) (map_to_list m)).

(** [Option<u64>] compares with [None] below every time. *)
Definition newer (a b : option Z) : bool :=
  match a, b with Some x, Some y => y <? x | Some _, None => true | None, _ => false end.

(** The addresses kept from a peer: dialable, sorted, without repetitions. *)
Definition tidy_underlays (us : list str) : list str := dedup (stable_sort lex_le us).
Definition add_missing (have new : list str) : list str :=
  foldl (fun acc u => if bool_decide (u ∈ acc) then acc else acc ++ [u]) have new.

(** The entry of a peer that is already known. *)
Definition merge_peer (existing peer : Peer) : Peer :=
  let us := tidy_underlays (add_missing (underlays existing) (underlays peer)) in
  let eth := match eth_address existing with Some e => Some e | None => eth_address peer end in
  let nce := match nonce existing with Some n => Some n | None => nonce peer end in
  let fn := match full_node peer with Some b => Some b | None => full_node existing end in
  let '(succ, rtt, fails) :=
    if newer (last_dial_success_unix peer) (last_dial_success_unix existing)
    then (last_dial_success_unix peer, last_dial_rtt_ms peer, 0)
    else (last_dial_success_unix existing, last_dial_rtt_ms existing, consecutive_failures existing) in
  let '(fail, fails) :=
    if newer (last_dial_failure_unix peer) (last_dial_failure_unix existing)
    then (last_dial_failure_unix peer, sat_add U16_MAX fails (Z.max (consecutive_failures peer) 1))
    else (last_dial_failure_unix existing, fails) in
  mkPeer (overlay existing) us eth nce fn succ fail rtt fails.

Definition with_underlays (p : Peer) (us : list str) : Peer :=
  mkPeer (overlay p) us (eth_address p) (nonce p) (full_node p) (last_dial_success_unix p) (last_dial_failure_unix p)
    (last_dial_rtt_ms p) (consecutive_failures p).

(** [fn upsert]. *)
Definition upsert (st : PeerStore) (peer : Peer) : PeerStore :=
  let us := tidy_underlays (List.filter is_dialable_str (underlays peer)) in
  if bool_decide (us = []) then st
  else
    let peer := with_underlays peer us in
    let key := to_ascii_lowercase (overlay peer) in
    match peers st !! key with
    | Some existing => mkPeerStore (<[key := merge_peer existing peer]> (peers st))
    | None => mkPeerStore (<[key := peer]> (peers st))
    end.

(** [fn record_dial_success] and [fn record_dial_failure]. *)
Definition note_success (now rtt_ms : Z) (fn : option bool) (p : Peer) : Peer :=
  mkPeer (overlay p) (underlays p) (eth_address p) (nonce p) (match fn with Some b => Some b | None => full_node p end)
    (Some now) (last_dial_failure_unix p) (Some rtt_ms) 0.
Definition note_failure (now : Z) (p : Peer) : Peer :=
  mkPeer (overlay p) (underlays p) (eth_address p) (nonce p) (full_node p) (last_dial_success_unix p) (Some now)
    (last_dial_rtt_ms p) (sat_add U16_MAX (consecutive_failures p) 1).
Definition record_dial_success (st : PeerStore) (overlay_hex : str) (now rtt_ms : Z) (fn : option bool) : PeerStore :=
  let key := to_ascii_lowercase overlay_hex in
  match peers st !! key with Some p => mkPeerStore (<[key := note_success now rtt_ms fn p]> (peers st)) | None => st end.
Definition record_dial_failure (st : PeerStore) (overlay_hex : str) (now : Z) : PeerStore :=
  let key := to_ascii_lowercase overlay_hex in
  match peers st !! key with Some p => mkPeerStore (<[key := note_failure now p]> (peers st)) | None => st end.

(** [fn apply_log]: the drained entries, each with the clock reading of its call. *)
Definition apply_entry (st : PeerStore) (e : str * DialResult * Z) : PeerStore :=
  match e with
  | (overlay, Success rtt_ms fn, now) => record_dial_success st overlay now rtt_ms fn
  | (overlay, Failure, now) => record_dial_failure st overlay now
  end.
Definition apply_log (st : PeerStore) (entries : list (str * DialResult * Z)) : PeerStore := foldl apply_entry st entries.

(** [fn closest]. *)
Definition closest `{Hex} (swarm_proximity : bytes -> bytes -> Z) (st : PeerStore) (target : bytes) (limit : nat) : list Peer :=
  let scored := omap (fun p => match overlay_bytes p with Some o => Some (swarm_proximity target o, p) | None => None end) (values (peers st)) in
  map snd (take limit (stable_sort (fun a b : Z * Peer => b.1 <=? a.1) scored)).

(** [fn fresh_known_good_count]. *)
Definition fresh_known_good {Multiaddr} (parse_multiaddr : str -> option Multiaddr) (now_unix freshness_secs : Z) (p : Peer) : bool :=
  (dial_rank p now_unix =? 0) && match first_dialable_underlay parse_multiaddr p with Some _ => true | None => false end
  && match last_dial_success_unix p with Some s => sat_sub now_unix s <=? freshness_secs | None => false end.
Definition fresh_known_good_count {Multiaddr} (parse_multiaddr : str -> option Multiaddr) (st : PeerStore) (now_unix freshness_secs : Z) : nat :=
  length (List.filter (fresh_known_good parse_multiaddr now_unix freshness_secs) (values (peers st))).

(** ** The order of strings, sorting *)

Lemma lex_le_refl a : lex_le a a = true.
Proof. induction a as [|x a IH]; [done|]. simpl. by rewrite Z.ltb_irrefl, Z.eqb_refl, IH. Qed.

Lemma lex_le_total a b : lex_le a b = true \/ lex_le b a = true.
Proof.
  revert b. induction a as [|x a IH]; intros [|y b]; simpl; auto. destruct (Z.ltb_spec x y), (Z.ltb_spec y x); simpl; auto.
  assert (x = y) as -> by lia. rewrite Z.eqb_refl. simpl. apply IH.
Qed.

Lemma lex_le_trans a b c : lex_le a b = true -> lex_le b c = true -> lex_le a c = true.
Proof.
  revert b c. induction a as [|x a IH]; intros [|y b] [|z c]; simpl; try done.
  destruct (Z.ltb_spec x y), (Z.ltb_spec y z), (Z.ltb_spec x z), (Z.eqb_spec x y), (Z.eqb_spec y z), (Z.eqb_spec x z); simpl; try done; try lia.
  apply IH.
Qed.

Lemma lex_le_antisym a b : lex_le a b = true -> lex_le b a = true -> a = b.
Proof.
  revert b. induction a as [|x a IH]; intros [|y b]; simpl; try done.
  destruct (Z.ltb_spec x y), (Z.ltb_spec y x), (Z.eqb_spec x y), (Z.eqb_spec y x); simpl; try done; try lia. intros. subst. f_equal. auto.
Qed.

Section SortLemmas.
Context {A : Type} (le : A -> A -> bool).
Context (le_total : forall a b, le a b = true \/ le b a = true) (le_trans : forall a b c, le a b = true -> le b c = true -> le a c = true).

Lemma sort_insert_perm x l : sort_insert le x l ≡ₚ x :: l.
Proof. induction l as [|y l IH]; [done|]. simpl. destruct (le x y); [done|]. rewrite IH. apply perm_swap. Qed.

Lemma stable_sort_perm l : stable_sort le l ≡ₚ l.
Proof. induction l as [|x l IH]; [done|]. simpl. by rewrite sort_insert_perm, IH. Qed.

Lemma sort_insert_sorted x l : StronglySorted (fun a b => le a b = true) l -> StronglySorted (fun a b => le a b = true) (sort_insert le x l).
Proof.
  induction 1 as [|y l Hs IH Hall]; [repeat constructor|]. simpl. destruct (le x y) eqn:E.
  - constructor; [by constructor|]. constructor; [done|]. eapply Forall_impl; [exact Hall|]. intros z Hz. by apply le_trans with y.
  - constructor; [done|]. rewrite sort_insert_perm. constructor; [|done]. destruct (le_total x y); congruence.
Qed.

Lemma stable_sort_sorted l : StronglySorted (fun a b => le a b = true) (stable_sort le l).
Proof. induction l; simpl; [constructor|by apply sort_insert_sorted]. Qed.
End SortLemmas.

Definition lex_lt (a b : str) : Prop := lex_le a b = true /\ a <> b.

Lemma dedup_elem {A} `{EqDecision A} (l : list A) x : x ∈ dedup l <-> x ∈ l.
Proof.
  induction l as [|y l IH]; [done|]. cbn [dedup]. destruct l as [|z l]; [done|]. case_bool_decide as E.
  - subst. rewrite IH. set_solver.
  - rewrite !elem_of_cons, IH. set_solver.
Qed.

Lemma dedup_strict (l : list str) : StronglySorted (fun a b => lex_le a b = true) l -> StronglySorted lex_lt (dedup l).
Proof.
  induction 1 as [|x l Hs IH Hall]; [constructor|]. cbn [dedup]. destruct l as [|y l]; [repeat constructor|].
  case_bool_decide as E; [done|]. constructor; [done|]. apply Forall_forall. intros z Hz. rewrite dedup_elem in Hz.
  rewrite Forall_forall in Hall. split; [by apply Hall|]. intros ->.
  assert (Hxy : lex_le z y = true) by (apply Hall; apply elem_of_cons; by left). apply StronglySorted_inv in Hs as [_ Hy].
  apply elem_of_cons in Hz as [->|Hz]; [done|]. rewrite Forall_forall in Hy. apply E, lex_le_antisym; [done|]. by apply Hy.
Qed.

Lemma tidy_elem us x : x ∈ tidy_underlays us <-> x ∈ us.
Proof. unfold tidy_underlays. by rewrite dedup_elem, stable_sort_perm. Qed.

Lemma tidy_strict us : StronglySorted lex_lt (tidy_underlays us).
Proof. apply dedup_strict, stable_sort_sorted; [apply lex_le_total|apply lex_le_trans]. Qed.

Lemma add_missing_elem have new x : x ∈ add_missing have new <-> x ∈ have \/ x ∈ new.
Proof.
  unfold add_missing. revert have. induction new as [|u new IH]; intros have; [set_solver|]. cbn [foldl]. rewrite IH.
  case_bool_decide; set_solver.
Qed.

(** ** The invariant of the store *)

Definition peer_ok (k : str) (p : Peer) : Prop :=
  k = to_ascii_lowercase (overlay p) /\ underlays p <> [] /\ StronglySorted lex_lt (underlays p) /\
  Forall (fun u => is_dialable_str u = true) (underlays p) /\ 0 <= consecutive_failures p <= U16_MAX.
Definition store_ok (st : PeerStore) : Prop := map_Forall peer_ok (peers st).

Lemma tidy_dialable us : Forall (fun u => is_dialable_str u = true) (tidy_underlays (List.filter is_dialable_str us)).
Proof. apply Forall_forall. intros u Hu. rewrite tidy_elem in Hu. apply list_elem_of_In, filter_In in Hu. tauto. Qed.

Lemma nonempty_elem {A} (l : list A) x : x ∈ l -> l <> [].
Proof. by intros Hx ->; apply not_elem_of_nil in Hx. Qed.

Lemma merge_peer_ok k e p : peer_ok k e -> peer_ok k p -> peer_ok k (merge_peer e p).
Proof.
  intros (Ek & Hne & _ & Hd & Hf) (_ & _ & _ & Hd' & Hf').
  set (us := tidy_underlays (add_missing (underlays e) (underlays p))).
  assert (Hus : us <> []).
  { destruct (underlays e) as [|u r] eqn:E; [done|]. apply (nonempty_elem _ u). unfold us. rewrite tidy_elem, add_missing_elem. left. left. }
  assert (Hud : Forall (fun u => is_dialable_str u = true) us).
  { apply Forall_forall. intros u Hu. unfold us in Hu. rewrite tidy_elem, add_missing_elem in Hu. rewrite Forall_forall in Hd, Hd'. naive_solver. }
  unfold merge_peer. destruct (newer (last_dial_success_unix p) _), (newer (last_dial_failure_unix p) _); unfold peer_ok; simpl;
    split_and!; try done; try apply tidy_strict; sat.
Qed.

Lemma upsert_ok st p : store_ok st -> 0 <= consecutive_failures p <= U16_MAX -> store_ok (upsert st p).
Proof.
  intros Hst Hf. unfold upsert. case_bool_decide as E; [done|]. cbv zeta. set (q := with_underlays p _).
  assert (Hq : peer_ok (to_ascii_lowercase (overlay q)) q).
  { unfold peer_ok. split_and!; [done|done|apply tidy_strict|apply tidy_dialable|apply Hf..]. }
  destruct (peers st !! to_ascii_lowercase (overlay q)) as [e|] eqn:El; apply map_Forall_insert_2; try done.
  apply merge_peer_ok; [|done]. by apply (Hst _ _ El).
Qed.

Lemma record_ok st o now : store_ok st ->
  (forall rtt fn, store_ok (record_dial_success st o now rtt fn)) /\ store_ok (record_dial_failure st o now).
Proof.
  intros Hst. unfold record_dial_success, record_dial_failure. cbv zeta.
  destruct (peers st !! to_ascii_lowercase o) as [e|] eqn:El; [|done].
  pose proof (Hst _ _ El) as (H1 & H2 & H3 & H4 & H5).
  split; [intros rtt fn|]; apply map_Forall_insert_2; try done; unfold peer_ok; simpl; split_and!; try done; sat.
Qed.

(** The stores a node can have: an empty one, changed by announcements and dials. *)
Inductive store_reachable : PeerStore -> Prop :=
| SR_new : store_reachable store_new
| SR_upsert st p : store_reachable st -> 0 <= consecutive_failures p <= U16_MAX -> store_reachable (upsert st p)
| SR_log st es : store_reachable st -> store_reachable (apply_log st es).


(** ** Dial history *)

Lemma backoff_bounds p : 0 <= consecutive_failures p -> 60 <= failure_backoff_secs p <= RECENT_FAILURE_SECS /\
  (1 <= consecutive_failures p -> 120 <= failure_backoff_secs p).
Proof.
  intros Hf. unfold failure_backoff_secs, RECENT_FAILURE_SECS. rewrite Z.shiftl_1_l.
  assert (Hp : forall n, 0 <= n <= 3 -> n = 0 \/ n = 1 \/ n = 2 \/ n = 3) by lia.
  destruct (Hp (Z.min (consecutive_failures p) 3) ltac:(lia)) as [E|[E|[E|E]]]; rewrite E; cbn; sat.
Qed.

(** The keys a log touches. *)
Definition log_key (e : str * DialResult * Z) : str := to_ascii_lowercase e.1.1.

Lemma apply_entry_lookup st e k : peers (apply_entry st e) !! k =
  if decide (k = log_key e) then
    (match e with (_, Success rtt fn, now) => note_success now rtt fn | (_, Failure, now) => note_failure now end) <$> peers st !! k
  else peers st !! k.
Proof.
  destruct e as [[o [rtt fn|]] now]; unfold apply_entry, record_dial_success, record_dial_failure, log_key; cbn [fst snd]; cbv zeta;
    destruct (peers st !! to_ascii_lowercase o) eqn:El; destruct (decide (k = to_ascii_lowercase o)) as [->|Hk]; cbn [peers];
    first [by rewrite lookup_insert_ne by done | by rewrite lookup_insert_eq, El | by rewrite El | done].
Qed.

Lemma apply_entry_comm st e e' : log_key e <> log_key e' -> apply_entry (apply_entry st e) e' = apply_entry (apply_entry st e') e.
Proof.
  intros Hne. assert (G : forall a b : PeerStore, peers a = peers b -> a = b) by (intros [] []; simpl; congruence).
  apply G, map_eq. intros k. rewrite !apply_entry_lookup.
  destruct (decide (k = log_key e)) as [E1|E1], (decide (k = log_key e')) as [E2|E2]; congruence.
Qed.

(** Dial outcomes decide whether a peer is worth dialling.  A rank of 2 or 3 is
    exactly being recently unreachable.  After a success, at any time at which the
    last failure is not later, a peer has the best rank and no failures.  After a
    failure (with no success since) it is set aside for at least two minutes and at
    most five.  An announcement without dial history leaves the history of a known
    peer as it is.  Entries of a log for different peers can be
    applied in any order. *)
Theorem peer_dial_history :
  (forall p now, (dial_rank p now = 2 \/ dial_rank p now = 3) <-> is_recently_unreachable p now = true) /\
  (forall p t rtt fn now, match last_dial_failure_unix p with Some f => f <= t | None => True end ->
    dial_rank (note_success t rtt fn p) now = 0) /\
  (forall p t now, 0 <= consecutive_failures p <= U16_MAX -> match last_dial_success_unix p with Some s => s < t | None => True end ->
    t <= now -> (now < t + 120 -> 2 <= dial_rank (note_failure t p) now) /\ (t + RECENT_FAILURE_SECS <= now -> dial_rank (note_failure t p) now = 1)) /\
  (forall e p, last_dial_success_unix p = None -> last_dial_failure_unix p = None ->
    forall now, dial_rank (merge_peer e p) now = dial_rank e now /\ last_dial_rtt_ms (merge_peer e p) = last_dial_rtt_ms e) /\
  (forall st es es', NoDup (map log_key es) -> es ≡ₚ es' -> apply_log st es = apply_log st es').
Proof.
  split_and!.
  - intros p now. unfold dial_rank, is_recently_unreachable, failed_rank.
    destruct (last_dial_success_unix p) as [s|], (last_dial_failure_unix p) as [f|]; try (split; [lia|done]).
    + destruct (Z.leb_spec f s); [split; [lia|done]|].
      destruct (Z.leb_spec (failure_backoff_secs p) (sat_sub now f)), (Z.ltb_spec (sat_sub now f) (failure_backoff_secs p)),
        (Z.leb_spec 3 (consecutive_failures p)); try lia; split; first [lia|done].
    + destruct (Z.leb_spec (failure_backoff_secs p) (sat_sub now f)), (Z.ltb_spec (sat_sub now f) (failure_backoff_secs p)),
        (Z.leb_spec 3 (consecutive_failures p)); try lia; split; first [lia|done].
  - intros p t rtt fn now Hf. unfold dial_rank. cbn. destruct (last_dial_failure_unix p) as [f|]; [|done].
    destruct (Z.leb_spec f t); [done|lia].
  - intros p t now Hfails Hs Hnow. 
    assert (Hr : dial_rank (note_failure t p) now = failed_rank (note_failure t p) now t).
    { unfold dial_rank. cbn. destruct (last_dial_success_unix p) as [s|]; [|done]. destruct (Z.leb_spec t s); [lia|done]. }
    rewrite Hr. unfold failed_rank. pose proof (backoff_bounds (note_failure t p)) as Hb.
    change (consecutive_failures (note_failure t p)) with (sat_add U16_MAX (consecutive_failures p) 1) in *.
    destruct Hb as [Hb1 Hb2]; [sat|]. specialize (Hb2 ltac:(sat)). unfold RECENT_FAILURE_SECS in *.
    assert (Hsub : sat_sub now t = now - t) by sat. rewrite Hsub.
    split; intros Hn; destruct (Z.leb_spec (failure_backoff_secs (note_failure t p)) (now - t)); [lia| |done|lia].
    destruct (3 <=? _); lia.
  - intros e p Hs Hf now. unfold merge_peer. rewrite Hs, Hf. cbn [newer]. done.
  - intros st es es' Hnd Hp. unfold apply_log. revert st. induction Hp as [|x l l' Hp IH|x y l|l1 l2 l3 H1 IH1 H2 IH2]; intros st.
    + done.
    + cbn [foldl]. apply IH. by apply NoDup_cons in Hnd as [_ Hnd].
    + cbn [foldl]. rewrite apply_entry_comm; [done|]. cbn [map] in Hnd. apply NoDup_cons in Hnd as [Hni _]. set_solver.
    + rewrite IH1 by done. apply IH2. by rewrite <- H1.
Qed.

(** ** The closest peers *)

Section Closest.
Context `{Hex} (swarm_proximity : bytes -> bytes -> Z) (target : bytes).

(** The proximity of a peer whose overlay can be read. *)
Definition peer_po (p : Peer) : option Z :=
  match overlay_bytes p with Some o => Some (swarm_proximity target o) | None => None end.
Definition addressable (st : PeerStore) : list Peer := List.filter (fun p => match peer_po p with Some _ => true | None => false end) (values (peers st)).

Definition scored (ps : list Peer) : list (Z * Peer) :=
  omap (fun p => match overlay_bytes p with Some o => Some (swarm_proximity target o, p) | None => None end) ps.

Lemma scored_spec ps : Forall (fun s : Z * Peer => peer_po s.2 = Some s.1) (scored ps) /\
  map snd (scored ps) = List.filter (fun p => match peer_po p with Some _ => true | None => false end) ps.
Proof.
  unfold scored, peer_po. induction ps as [|p ps [IH1 IH2]]; [done|]. cbn [omap list_omap List.filter].
  destruct (overlay_bytes p) as [o|] eqn:E; cbn [map snd]; [|done]. split; [constructor; [simpl; by rewrite E|done]|by f_equal].
Qed.

Lemma map_take {A B} (f : A -> B) n (l : list A) : map f (take n l) = take n (map f l).
Proof. revert n. induction l as [|x l IH]; intros [|n]; simpl; [done..|]. by rewrite IH. Qed.

(** The closest peers are the closest ones: [closest] returns peers of the store
    whose overlay is readable, as many as asked for if there are that many, each once,
    in descending order of proximity to the target, and no readable peer it leaves out
    is closer than one it returns. *)
Theorem closest_peers st limit :
  exists rest, closest swarm_proximity st target limit ++ rest ≡ₚ addressable st /\
    length (closest swarm_proximity st target limit) = Nat.min limit (length (addressable st)) /\
    StronglySorted (fun p q => exists a b, peer_po p = Some a /\ peer_po q = Some b /\ b <= a)
      (closest swarm_proximity st target limit) /\
    (forall p q, p ∈ closest swarm_proximity st target limit -> q ∈ rest ->
      exists a b, peer_po p = Some a /\ peer_po q = Some b /\ b <= a).
Proof.
  unfold closest. fold (scored (values (peers st))). set (L := scored (values (peers st))).
  destruct (scored_spec (values (peers st))) as [Hpo Hmap]. fold L in Hpo, Hmap. fold (addressable st) in Hmap.
  set (le := fun a b : Z * Peer => b.1 <=? a.1). set (S := stable_sort le L).
  assert (Hperm : S ≡ₚ L) by apply stable_sort_perm.
  assert (Hs : StronglySorted (fun a b => le a b = true) S).
  { apply stable_sort_sorted; unfold le; intros; [rewrite !Z.leb_le; lia|]. rewrite Z.leb_le in *. lia. }
  assert (HpoS : Forall (fun s : Z * Peer => peer_po s.2 = Some s.1) S) by (by rewrite Hperm).
  assert (Hstep : forall a b, a ∈ S -> b ∈ S -> le a b = true -> exists x y, peer_po a.2 = Some x /\ peer_po b.2 = Some y /\ y <= x).
  { intros a b Ha Hb Hle. rewrite Forall_forall in HpoS. exists a.1, b.1. split_and!; [by apply HpoS..|]. by apply Z.leb_le in Hle. }
  exists (map snd (drop limit S)). split_and!.
  - rewrite <- map_app, take_drop, <- Hmap. by apply Permutation_map.
  - rewrite length_map, length_take, Hperm, <- Hmap, length_map. done.
  - rewrite <- (take_drop limit S) in Hs, Hstep. clear -Hs Hstep. induction (take limit S) as [|x T IH]; [constructor|].
    cbn [app] in Hs. apply StronglySorted_inv in Hs as [Hs Hall]. cbn [map]. constructor; [apply IH; [done|]; intros; apply Hstep; set_solver|].
    apply Forall_forall. intros q Hq. apply list_elem_of_fmap in Hq as (y & -> & Hy). apply Hstep; [set_solver..|].
    rewrite Forall_forall in Hall. apply Hall. set_solver.
  - intros p q Hp Hq. apply list_elem_of_fmap in Hp as (x & -> & Hx), Hq as (y & -> & Hy).
    rewrite <- (take_drop limit S) in Hs. apply Hstep; [rewrite <- (take_drop limit S); set_solver..|].
    clear -Hs Hx Hy. induction (take limit S) as [|z T IH]; [set_solver|]. cbn [app] in Hs. apply StronglySorted_inv in Hs as [Hs Hall].
    apply elem_of_cons in Hx as [->|Hx]; [|by apply IH]. rewrite Forall_forall in Hall. apply Hall. set_solver.
Qed.
End Closest.

(** ** Persistence *)

Section Persistence.
Context (from_str : str -> result PeerStore str) (to_string_pretty : PeerStore -> result str str).

Inductive PeerStoreError := PsIo (msg : str) | PsJson (msg : str).

(** [fn load_or_create], given what reading the file gives, and [fn save], given the
    outcome of writing it. *)
Definition load_or_create (file : result str str) : PeerStore :=
  match file with Ok s => match from_str s with Ok st => st | Err _ => store_new end | Err _ => store_new end.
Definition save (st : PeerStore) (write : str -> result unit str) : result unit PeerStoreError :=
  let? s := map_err PsJson (to_string_pretty st) in map_err PsIo (write s).
End Persistence.

(** ** A concrete table *)

Module PeersWitness.
Definition ws_peer : Peer :=
  mkPeer (lit "AB") [lit "/ip4/5.6.7.8/tcp/1634/ws"; lit "/ip4/10.0.0.1/tcp/1634"; lit "/ip4/5.6.7.8/tcp/1634"] None None None None None None 0.

End PeersWitness.
