(* ===== verification/Dnsaddr.v ===== *)
(** * Names of bootnodes ([src/src/doh.rs], [src/src/dnsaddr.rs])

    The answers of a DNS-over-HTTPS resolver, and the resolution of [/dnsaddr/]
    addresses through their TXT records, which may name further [/dnsaddr/] addresses.
    The HTTP exchange and libp2p's multiaddresses (their text form, and its parser) are
    parameters; an address is the list of its components. *)
From Stdlib Require Import ZArith Lia.
From stdpp Require Import base tactics numbers countable strings list gmap.
From S2P Require Import Prelude Codec Peers.
Local Open Scope Z_scope.
Local Open Scope hov_scope.

(** ** The resolver *)

Inductive DohError := DohHttp (m : str) | DohDecode (m : str) | NxDomain (m : str).
Inductive RecordType := RA | RAaaa | RTxt.
Definition as_num (t : RecordType) : Z := match t with RA => 1 | RAaaa => 28 | RTxt => 16 end.
Record DohAnswer := mkDohAnswer { rtype : Z; rdata : str }.
Record DohResponse := mkDohResponse { doh_status : Z; doh_answer : list DohAnswer }.

Definition quote : Z := 34.
(** [str::replace] with the empty string: occurrences from the left, not overlapping. *)
Fixpoint remove_all (fuel : nat) (pat s : str) : str :=
  match fuel with
  | O => s
  | S fuel => match s with
              | [] => []
              | c :: s' => match strip_prefix pat s with Some rest => remove_all fuel pat rest | None => c :: remove_all fuel pat s' end
              end
  end.
Definition separator : str := [quote; 32; quote].
(** [s[1..s.len() - 1]] of a quoted text, its parts joined. *)
Definition unquote (s : str) : str :=
  if bool_decide (head s = Some quote) && bool_decide (last s = Some quote) && Nat.leb 2 (length s)
  then let inner := take (length s - 2) (drop 1 s) in remove_all (length inner) separator inner
  else s.

Section Doh.
(** The body of the answer to a GET with the name and the type, or what went wrong. *)
Context (get : str -> Z -> result DohResponse DohError).

Definition query (name : str) (t : RecordType) : result (list str) DohError :=
  match get name (as_num t) with
  | Err e => Err e
  | Ok body =>
      if negb (doh_status body =? 0) then Err (NxDomain (lit "status code " ++ u128_to_string (doh_status body)))
      else Ok (map (fun a => match t with RTxt => unquote (rdata a) | _ => rdata a end)
                 (List.filter (fun a => rtype a =? as_num t) (doh_answer body)))
  end.
Definition txt (name : str) : result (list str) DohError := query name RTxt.
End Doh.

(** ** Addresses *)

(** The components the code looks at; [POther] is any other. *)
Inductive Protocol :=
| PIp4 (ip : str) | PIp6 (ip : str) | PDns (h : str) | PDns4 (h : str) | PDns6 (h : str) | PDnsaddr (h : str) | PTcp (port : Z)
| PWs (path : str) | PWss (path : str) | PTls | PSni (h : str) | POther (s : str).
#[export] Instance protocol_eq : EqDecision Protocol.
Proof. solve_decision. Defined.
Abbreviation Multiaddr := (list Protocol).

Definition dnsaddr_host (ma : Multiaddr) : option str := head (omap (fun p => match p with PDnsaddr h => Some h | _ => None end) ma).
Definition is_ws_multiaddr (ma : Multiaddr) : bool := existsb (fun p => match p with PWs _ | PWss _ => true | _ => false end) ma.
Fixpoint tcp_scan (has_tcp : bool) (ma : Multiaddr) : bool :=
  match ma with
  | [] => has_tcp
  | PWs _ :: _ | PWss _ :: _ => false
  | PTcp _ :: ma => tcp_scan true ma
  | _ :: ma => tcp_scan has_tcp ma
  end.
Definition is_tcp_multiaddr (ma : Multiaddr) : bool := tcp_scan false ma.
Definition has_ip4_host (ma : Multiaddr) : bool := existsb (fun p => match p with PIp4 _ => true | _ => false end) ma.
Definition is_dialable_multiaddr (browser : bool) (ma : Multiaddr) : bool :=
  if negb (has_ip4_host ma) then false
  else if browser then is_ws_multiaddr ma else is_ws_multiaddr ma || is_tcp_multiaddr ma.

Record AutoTls := mkAutoTls { at_port : option Z; at_sni : option str; at_tls : bool; at_ws : bool }.
Definition scan_autotls (a : AutoTls) (p : Protocol) : AutoTls :=
  match p with
  | PTcp n => mkAutoTls (Some n) (at_sni a) (at_tls a) (at_ws a)
  | PSni h => mkAutoTls (at_port a) (Some h) (at_tls a) (at_ws a)
  | PTls => mkAutoTls (at_port a) (at_sni a) true (at_ws a)
  | PWs _ => mkAutoTls (at_port a) (at_sni a) (at_tls a) true
  | _ => a
  end.

Section Resolve.
Context (ma_display : Multiaddr -> str) (ma_parse : str -> option Multiaddr) (txt : str -> result (list str) DohError).

Definition browser_ws_addr (ma : Multiaddr) : Multiaddr :=
  let a := foldl scan_autotls (mkAutoTls None None false false) ma in
  match at_port a, at_sni a with
  | Some port, Some host =>
      if at_tls a && at_ws a then default ma (ma_parse (lit "/dns4/" ++ host ++ lit "/tcp/" ++ u128_to_string port ++ lit "/tls/ws")) else ma
  | _, _ => ma
  end.

Definition qname (host : str) : str := lit "_dnsaddr." ++ host.
Inductive DnsAddrError := NotDnsAddr | DnsDoh (e : DohError) | DnsParse (m : str) | Recursion.
Definition MAX_DEPTH : nat := 5.
Definition TXT_PREFIX : str := lit "dnsaddr=".

(** The addresses the records of a name announce. *)
Definition next_addrs (records : list str) : list Multiaddr :=
  omap (fun rec => match strip_prefix TXT_PREFIX rec with Some payload => ma_parse payload | None => None end) records.

Abbreviation Found := (list Multiaddr * gset str)%type.
Definition visit_all (visit : Multiaddr -> Found -> Found * result unit DnsAddrError) : list Multiaddr -> Found -> Found * result unit DnsAddrError :=
  fix go mas st := match mas with
                   | [] => (st, Ok tt)
                   | ma :: mas => match visit ma st with (st, Ok _) => go mas st | (st, Err e) => (st, Err e) end
                   end.

(** [levels] is what is left of the depth: zero is beyond [MAX_DEPTH]. *)
Fixpoint resolve_recursive (levels : nat) (ma : Multiaddr) (st : Found) : Found * result unit DnsAddrError :=
  match levels with
  | O => (st, Err Recursion)
  | S levels =>
      let '(out, seen) := st in
      let key := ma_display ma in
      if bool_decide (key ∈ seen) then ((out, seen), Ok tt)
      else
        let seen := {[key]} ∪ seen in
        match dnsaddr_host ma with
        | None => ((out ++ [ma], seen), Ok tt)
        | Some host =>
            match txt (qname host) with
            | Err e => ((out, seen), Err (DnsDoh e))
            | Ok records => visit_all (resolve_recursive levels) (next_addrs records) (out, seen)
            end
        end
  end.

Definition resolve (browser : bool) (ma : Multiaddr) : result (list Multiaddr) DnsAddrError :=
  match resolve_recursive (S MAX_DEPTH) ma ([], ∅) with
  | ((out, _), Ok _) => Ok (List.filter (is_dialable_multiaddr browser) out)
  | (_, Err e) => Err e
  end.
Definition resolve_many (browser : bool) (addrs : list Multiaddr) : list Multiaddr :=
  let '(out, _) := foldl (fun st ma => (resolve_recursive (S MAX_DEPTH) ma st).1) ([], ∅) addrs in
  dedup (stable_sort (fun a b => lex_le (ma_display a) (ma_display b)) (List.filter (is_dialable_multiaddr browser) out)).
End Resolve.

(** ** What resolution finds *)

Section ResolveProps.
Context (ma_display : Multiaddr -> str) (ma_parse : str -> option Multiaddr) (txt : str -> result (list str) DohError).
(** Two addresses with the same text are the same. *)
Context (display_inj : forall a b, ma_display a = ma_display b -> a = b).
Abbreviation next_addrs := (next_addrs ma_parse).
Abbreviation resolve_recursive := (resolve_recursive ma_display ma_parse txt).

(** The records of [a] announce [b]. *)
Definition links (a b : Multiaddr) : Prop :=
  exists host records, dnsaddr_host a = Some host /\ txt (qname host) = Ok records /\ b ∈ next_addrs records.

(** Everything seen since [seen] is taken care of: an address is in the output, a name
    has had all it announces visited. *)
Definition handled (seen seen' : gset str) (out : list Multiaddr) : Prop :=
  forall n, ma_display n ∈ seen' -> ma_display n ∉ seen ->
    match dnsaddr_host n with None => n ∈ out | Some _ => forall m, links n m -> ma_display m ∈ seen' end.

(** One visit, from [st] to [st']: only addresses that were not seen before and that
    [origin] leads to are added, each once. *)
Definition grows (origin : Multiaddr -> Prop) (st st' : list Multiaddr * gset str) : Prop :=
  st.2 ⊆ st'.2 /\ exists new, st'.1 = st.1 ++ new /\ NoDup (map ma_display new) /\
    Forall (fun n => origin n /\ dnsaddr_host n = None /\ ma_display n ∉ st.2 /\ ma_display n ∈ st'.2) new.

Lemma grows_refl origin st : grows origin st st.
Proof. split; [done|]. exists []. split_and!; [by rewrite app_nil_r|apply NoDup_nil_2|done]. Qed.

Lemma grows_trans origin st1 st2 st3 : grows origin st1 st2 -> grows origin st2 st3 -> grows origin st1 st3.
Proof.
  intros (S1 & n1 & E1 & D1 & F1) (S2 & n2 & E2 & D2 & F2). split; [set_solver|]. exists (n1 ++ n2). split_and!.
  - by rewrite E2, E1, app_assoc.
  - rewrite map_app. apply NoDup_app. split_and!; [done| |done]. intros x Hx Hy. apply list_elem_of_fmap in Hx as (a & -> & Ha), Hy as (b & Eb & Hb).
    rewrite Forall_forall in F1, F2. apply F1 in Ha as (_ & _ & _ & Hin). apply F2 in Hb as (_ & _ & Hni & _). rewrite <- Eb in Hni. done.
  - apply Forall_app. split; eapply Forall_impl; [exact F1| |exact F2|]; intros n (? & ? & ? & ?); split_and!; try done; set_solver.
Qed.

Lemma grows_weaken (o1 o2 : Multiaddr -> Prop) st st' : (forall n, o1 n -> o2 n) -> grows o1 st st' -> grows o2 st st'.
Proof.
  intros Ho (S1 & n1 & E1 & D1 & F1). split; [done|]. exists n1. split_and!; try done. eapply Forall_impl; [exact F1|]. intros n (H1 & H2 & H3 & H4). split; [by apply Ho|done].
Qed.

(** The visits of a list of addresses, given what one visit does. *)
Lemma visit_all_spec visit (origin : Multiaddr -> Prop) mas :
  Forall (fun ma => forall st st' res, visit ma st = (st', res) ->
    grows origin st st' /\ (res = Ok tt -> ma_display ma ∈ st'.2 /\ handled st.2 st'.2 st'.1)) mas ->
  forall st st' res, visit_all visit mas st = (st', res) ->
    grows origin st st' /\ (res = Ok tt -> Forall (fun ma => ma_display ma ∈ st'.2) mas /\ handled st.2 st'.2 st'.1).
Proof.
  induction 1 as [|ma mas Hma _ IH]; intros st st' res E; cbn in E.
  - simplify_eq. split; [apply grows_refl|]. intros _. split; [done|]. intros n H1 H2. done.
  - destruct (visit ma st) as [st1 [[]|e]] eqn:Ev; [|simplify_eq; split; [by eapply Hma|done]].
    destruct (Hma _ _ _ Ev) as [G1 H1]. destruct (H1 eq_refl) as [Hin Hh]. destruct (IH _ _ _ E) as [G2 H2]. split; [by eapply grows_trans|].
    intros Hr. destruct (H2 Hr) as [Hall Hh2]. destruct G2 as (S2 & n2 & E2 & _ & _). split; [constructor; [set_solver|done]|].
    intros n Hn Hni. destruct (decide (ma_display n ∈ st1.2)) as [Hold|Hnew]; [|by apply Hh2].
    specialize (Hh n Hold Hni). destruct (dnsaddr_host n); [intros m Hm; set_solver|]. rewrite E2. set_solver.
Qed.

Lemma resolve_recursive_spec levels : forall ma st st' res, resolve_recursive levels ma st = (st', res) ->
  grows (rtc links ma) st st' /\ (res = Ok tt -> ma_display ma ∈ st'.2 /\ handled st.2 st'.2 st'.1).
Proof.
  induction levels as [|levels IH]; intros ma [out seen] st' res E; cbn [Dnsaddr.resolve_recursive] in E; [simplify_eq; split; [apply grows_refl|done]|].
  case_bool_decide as Hseen; [simplify_eq; split; [apply grows_refl|]; intros _; split; [done|]; by intros n ? ?|].
  destruct (dnsaddr_host ma) as [host|] eqn:Eh.
  - assert (G0 : grows (rtc links ma) (out, seen) (out, {[ma_display ma]} ∪ seen)).
    { split; [cbn; set_solver|]. exists []. split_and!; [by rewrite app_nil_r|apply NoDup_nil_2|done]. }
    destruct (txt _) as [records|e] eqn:Et; [|simplify_eq; by split].
    destruct (visit_all_spec (resolve_recursive levels) (rtc links ma) (next_addrs records)) with (st := (out, {[ma_display ma]} ∪ seen)) (st' := st') (res := res) as [G1 H1]; [|done|].
    { apply Forall_forall. intros m Hm st1 st1' r1 E1. destruct (IH _ _ _ _ E1) as [G H]. split; [|done]. eapply grows_weaken; [|exact G].
      intros n Hn. apply rtc_l with m; [by exists host, records|done]. }
    split; [by eapply grows_trans|]. intros Hr. destruct (H1 Hr) as [Hall Hh]. destruct G1 as (S1 & _). cbn [fst snd] in *. split; [set_solver|].
    intros n Hn Hni. destruct (decide (ma_display n = ma_display ma)) as [En|En]; [|apply Hh; set_solver].
    apply display_inj in En as ->. rewrite Eh. intros m (host' & records' & Eh' & Et' & Hm). rewrite Eh in Eh'. apply (inj Some) in Eh' as <-. rewrite Et in Et'. injection Et' as <-. rewrite Forall_forall in Hall. apply Hall. done.
  - simplify_eq. cbn [fst snd]. split.
    + split; [cbn; set_solver|]. exists [ma]. split_and!; [done|apply NoDup_singleton|]. apply Forall_singleton. split_and!; [apply rtc_refl|done|done|cbn; set_solver].
    + intros _. split; [set_solver|]. intros n Hn Hni. assert (ma_display n = ma_display ma) as ->%display_inj by set_solver. rewrite Eh. set_solver.
Qed.

(** Resolving a name finds everything it leads to.  The addresses returned are
    dialable, distinct, and announced through a chain of records from the address asked
    for; when resolution succeeds they are all of them: every dialable address at the
    end of any chain of records is returned, however the names refer to each other,
    cycles included. *)
Theorem resolve_exact browser ma out : resolve ma_display ma_parse txt browser ma = Ok out ->
  NoDup (map ma_display out) /\
  forall a, a ∈ out <-> rtc links ma a /\ dnsaddr_host a = None /\ is_dialable_multiaddr browser a = true.
Proof.
  unfold resolve. destruct (resolve_recursive (S MAX_DEPTH) ma ([], ∅)) as [[found seen] [[]|e]] eqn:E; [|done]. intros Ho. simplify_eq.
  destruct (resolve_recursive_spec _ _ _ _ _ E) as [(_ & new & En & Hnd & Hf) Hok]. destruct (Hok eq_refl) as [Hroot Hh]. cbn [fst snd app] in *. subst found. split.
  - eapply sublist_NoDup; [exact Hnd|]. apply (fmap_sublist ma_display), filter_sublist.
  - intros a. rewrite list_elem_of_In, filter_In, <- list_elem_of_In. rewrite Forall_forall in Hf. split.
    + intros [Ha Hd]. by destruct (Hf a Ha) as (? & ? & _).
    + intros (Hr & Hnone & Hd). split; [|done].
      assert (Hseen : ma_display a ∈ seen).
      { clear Hnone Hd E Hok Hf Hnd. induction Hr as [x|x y z Hxy _ IH]; [done|]. apply IH.
        specialize (Hh x Hroot ltac:(set_solver)). destruct Hxy as (host & recs & Eh & Hrest). rewrite Eh in Hh. apply Hh. by exists host, recs. }
      specialize (Hh a Hseen ltac:(set_solver)). by rewrite Hnone in Hh.
Qed.

Lemma visit_all_err visit mas : forall st st' e, visit_all visit mas st = (st', Err e) -> exists ma st1 st2, ma ∈ mas /\ visit ma st1 = (st2, Err e).
Proof.
  induction mas as [|ma mas IH]; intros st st' e E; cbn in E; [done|]. destruct (visit ma st) as [st1 [[]|e1]] eqn:Ev.
  - destruct (IH _ _ _ E) as (m & s1 & s2 & Hm & Hv). exists m, s1, s2. split; [by right|done].
  - simplify_eq. exists ma, st, st'. split; [by left|done].
Qed.

Lemma resolve_recursive_err levels : forall ma st st' e, resolve_recursive levels ma st = (st', Err e) ->
  e = Recursion /\ (exists b, nsteps links levels ma b) \/ exists d b host, e = DnsDoh d /\ rtc links ma b /\ dnsaddr_host b = Some host /\ txt (qname host) = Err d.
Proof.
  induction levels as [|levels IH]; intros ma [out seen] st' e E; cbn [Dnsaddr.resolve_recursive] in E.
  - simplify_eq. left. split; [done|]. exists ma. constructor.
  - case_bool_decide; [done|]. destruct (dnsaddr_host ma) as [host|] eqn:Eh; [|done]. destruct (txt (qname host)) as [records|d] eqn:Et.
    + apply visit_all_err in E as (m & s1 & s2 & Hm & Hv). assert (Hl : links ma m) by (by exists host, records). destruct (IH _ _ _ _ Hv) as [[-> [b Hb]]|(d & b & h & -> & Hb & ? & ?)].
      * left. split; [done|]. exists b. by econstructor.
      * right. exists d, b, h. split_and!; try done. by econstructor.
    + simplify_eq. right. exists d, ma, host. by split_and!.
Qed.

(** Resolution fails for two reasons only: a lookup of some name on the way failed, or a
    chain of six names was found; what was found elsewhere is then dropped. *)
Theorem resolve_errors browser ma e : resolve ma_display ma_parse txt browser ma = Err e ->
  e = Recursion /\ (exists b, nsteps links (S MAX_DEPTH) ma b) \/ exists d b host, e = DnsDoh d /\ rtc links ma b /\ dnsaddr_host b = Some host /\ txt (qname host) = Err d.
Proof.
  unfold resolve. destruct (resolve_recursive (S MAX_DEPTH) ma ([], ∅)) as [[found seen] [[]|e']] eqn:E; intros Ho; simplify_eq. by eapply resolve_recursive_err.
Qed.
End ResolveProps.

(** ** Texts of several parts *)

Definition no_quote (s : str) : Prop := Forall (fun c => c <> quote) s.
Fixpoint joined (parts : list str) : str := match parts with [] => [] | [p] => p | p :: ps => p ++ separator ++ joined ps end.

Lemma strip_separator c s : c <> quote -> strip_prefix separator (c :: s) = None.
Proof. intros Hc. unfold separator. cbn [strip_prefix]. destruct (Z.eqb_spec quote c); [congruence|done]. Qed.

Lemma remove_all_part p : forall fuel rest, no_quote p -> (length p + length rest <= fuel)%nat ->
  remove_all fuel separator (p ++ rest) = p ++ remove_all (fuel - length p) separator rest.
Proof.
  induction p as [|c p IH]; intros fuel rest Hp Hf; cbn [app length] in *; [by rewrite Nat.sub_0_r|]. apply Forall_cons in Hp as [Hc Hp].
  destruct fuel as [|fuel]; [lia|]. cbn [remove_all]. rewrite strip_separator by done. f_equal. rewrite IH by (done || lia). done.
Qed.

Lemma remove_all_joined parts : forall fuel, Forall no_quote parts -> (length (joined parts) <= fuel)%nat -> remove_all fuel separator (joined parts) = concat parts.
Proof.
  induction parts as [|p parts IH]; intros fuel Hp Hf; [by destruct fuel|]. apply Forall_cons in Hp as [Hp Hps]. destruct parts as [|q parts].
  - cbn [joined concat] in *. rewrite app_nil_r. rewrite <- (app_nil_r p) at 1. rewrite remove_all_part by (done || cbn; lia). destruct (fuel - length p)%nat; cbn; by rewrite app_nil_r.
  - change (joined (p :: q :: parts)) with (p ++ separator ++ joined (q :: parts)) in *. rewrite !length_app in Hf. change (length separator) with 3%nat in Hf.
    rewrite remove_all_part by (done || (rewrite length_app; change (length separator) with 3%nat; lia)). change (concat (p :: q :: parts)) with (p ++ concat (q :: parts)). f_equal.
    destruct (fuel - length p)%nat as [|n] eqn:En; [lia|]. cbn [remove_all app separator]. rewrite <- (IH n) by (done || lia).
    assert (Es : forall x, strip_prefix separator (quote :: 32 :: quote :: x) = Some x) by (intros x; cbn; by destruct x). by rewrite Es.
Qed.

(** A TXT record reaches the caller as the text its owner wrote, whatever the parts in
    which the resolver quotes it. *)
Theorem unquote_joined parts : Forall no_quote parts -> unquote (quote :: joined parts ++ [quote]) = concat parts.
Proof.
  intros Hp. unfold unquote. rewrite bool_decide_true by done. rewrite last_cons, last_snoc, bool_decide_true by done.
  cbn [length]. rewrite length_app. cbn [length]. replace (S (length (joined parts) + 1) - 2)%nat with (length (joined parts)) by lia.
  rewrite (proj2 (Nat.leb_le _ _)) by lia. cbn [andb]. cbv zeta. change (drop 1 (quote :: joined parts ++ [quote])) with (joined parts ++ [quote]). rewrite take_app_length. by apply remove_all_joined.
Qed.

Module DnsWitness.
(** Two names that refer to each other; the first also announces an address. *)
Definition a : Multiaddr := [PDnsaddr (lit "a")].
Definition b : Multiaddr := [PDnsaddr (lit "b")].
Definition node : Multiaddr := [PIp4 (lit "1.2.3.4"); PTcp 1634].
Definition encode_protocol (p : Protocol) : str :=
  match p with
  | PIp4 s => 1 :: s | PIp6 s => 2 :: s | PDns s => 3 :: s | PDns4 s => 4 :: s | PDns6 s => 5 :: s | PDnsaddr s => 6 :: s | PTcp n => [7; n]
  | PWs s => 8 :: s | PWss s => 9 :: s | PTls => [10] | PSni s => 11 :: s | POther s => 12 :: s
  end.
Definition display (m : Multiaddr) : str := concat (map (fun p => Z.of_nat (length (encode_protocol p)) :: encode_protocol p) m).
Lemma display_inj x y : display x = display y -> x = y.
Proof.
  unfold display. revert y. induction x as [|p x IH]; intros [|q y]; cbn [map concat]; intros E; try done. injection E as El E. apply Nat2Z.inj in El.
  apply app_inj_1 in E as [Ep Er]; [|done]. apply IH in Er as ->. f_equal. destruct p, q; cbn in Ep; congruence.
Qed.
Definition parse (s : str) : option Multiaddr := if bool_decide (s = lit "a") then Some a else if bool_decide (s = lit "b") then Some b else if bool_decide (s = lit "n") then Some node else None.
Definition records (name : str) : result (list str) DohError :=
  if bool_decide (name = qname (lit "a")) then Ok [lit "dnsaddr=b"; lit "dnsaddr=n"] else Ok [lit "dnsaddr=a"; lit "v=spf1"].

Lemma resolve_exact_witness : rtc (links parse records) a node.
Proof. apply (resolve_exact display parse records display_inj false a [node] ltac:(by vm_compute)). by left. Defined.
End DnsWitness.
