(* ===== verification/Window.v ===== *)
(** * Windows of futures ([FuturesUnordered] with a refill)

    The shape of the loops that dial or probe many peers ([open_session_pool_into],
    [healthcheck_peers] and [discover_recursive_with_progress] in [src/src/client.rs]):
    a window of futures is seeded from a list, the completion of any of them is handled,
    and unless the handler ends the loop the next item is started in its place.  The
    order of completions is the environment's. *)
From Stdlib Require Import ZArith Lia.
From stdpp Require Import base tactics numbers list.
From S2P Require Import Prelude.

Section Window.
Context {A R St : Type} (handle : St -> A -> R -> St * bool).

Record Win := mkWin { todo : list A; flying : list A; acc : St; stopped : bool }.

Definition win_start (width : nat) (items : list A) (s : St) : Win := mkWin (drop width items) (take width items) s false.

(** The [k]th future in flight completes with [r]. *)
Definition win_step (w : Win) (k : nat) (r : R) : option Win :=
  if stopped w then None
  else match flying w !! k with
       | None => None
       | Some a =>
           let '(s, stop) := handle (acc w) a r in
           if stop then Some (mkWin (todo w) (delete k (flying w)) s true)
           else match todo w with
                | [] => Some (mkWin [] (delete k (flying w)) s false)
                | x :: rest => Some (mkWin rest (delete k (flying w) ++ [x]) s false)
                end
       end.

Definition win_over (w : Win) : bool := stopped w || match flying w with [] => true | _ => false end.

(** The loop after the completions of [hist]. *)
Inductive win_reaches (width : nat) (items : list A) (s : St) : list (A * R) -> Win -> Prop :=
| WrStart : win_reaches width items s [] (win_start width items s)
| WrStep hist w k a r w' : win_reaches width items s hist w -> flying w !! k = Some a -> win_step w k r = Some w' ->
    win_reaches width items s (hist ++ [(a, r)]) w'.

(** What the handler makes of a history, and that no completion before the last ended
    the loop. *)
Definition win_fold (s : St) (hist : list (A * R)) : St := foldl (fun s ar => (handle s ar.1 ar.2).1) s hist.

Record win_inv (width : nat) (items : list A) (s : St) (hist : list (A * R)) (w : Win) : Prop := {
  wi_items : map fst hist ++ flying w ++ todo w ≡ₚ items;
  wi_width : length (flying w) <= width;
  wi_acc : acc w = win_fold s hist;
  wi_idle : 0 < width -> flying w = [] -> stopped w = false -> todo w = [];
  wi_stop : if stopped w then exists pre ar, hist = pre ++ [ar] /\ (handle (win_fold s pre) ar.1 ar.2).2 = true /\
              forall p ar' q, pre = p ++ ar' :: q -> (handle (win_fold s p) ar'.1 ar'.2).2 = false
            else forall p ar' q, hist = p ++ ar' :: q -> (handle (win_fold s p) ar'.1 ar'.2).2 = false }.

Lemma win_fold_snoc s hist ar : win_fold s (hist ++ [ar]) = (handle (win_fold s hist) ar.1 ar.2).1.
Proof. unfold win_fold. by rewrite foldl_app. Qed.

Lemma win_start_inv width items s : win_inv width items s [] (win_start width items s).
Proof.
  unfold win_start. split; cbn [todo flying acc stopped map app].
  - by rewrite take_drop.
  - rewrite length_take. lia.
  - done.
  - intros Hw Hn _. destruct items as [|x items]; [by rewrite drop_nil|]. destruct width; [lia|done].
  - intros [|? ?] ar' q E; discriminate E.
Qed.

Lemma go_on s hist a r : (forall p ar' q, hist = p ++ ar' :: q -> (handle (win_fold s p) ar'.1 ar'.2).2 = false) ->
  (handle (win_fold s hist) a r).2 = false -> forall p ar' q, hist ++ [(a, r)] = p ++ ar' :: q -> (handle (win_fold s p) ar'.1 ar'.2).2 = false.
Proof.
  intros Hb Hlast p ar' q E. destruct q as [|z q] using rev_ind.
  - apply app_inj_tail in E as [-> <-]. done.
  - clear IHq. rewrite app_comm_cons, app_assoc in E. apply app_inj_tail in E as [-> _]. by eapply Hb.
Qed.

Lemma win_step_inv width items s hist w k a r w' : win_inv width items s hist w -> flying w !! k = Some a -> win_step w k r = Some w' ->
  win_inv width items s (hist ++ [(a, r)]) w'.
Proof.
  intros [Hi Hw Ha Hid Hst] Hk Hs. unfold win_step in Hs. destruct (stopped w) eqn:Est; [done|]. rewrite Hk in Hs.
  assert (Hp : forall rest, map fst (hist ++ [(a, r)]) ++ delete k (flying w) ++ rest ≡ₚ map fst hist ++ flying w ++ rest).
  { intros rest. rewrite map_app, <- app_assoc. cbn [map fst app]. apply Permutation_app_head. rewrite app_comm_cons. apply Permutation_app_tail. symmetry. by apply delete_Permutation. }
  assert (Hl : S (length (delete k (flying w))) = length (flying w)) by (rewrite length_delete by (by eexists); apply lookup_lt_Some in Hk; lia).
  destruct (handle (acc w) a r) as [s' stop] eqn:Eh. rewrite Ha in Eh.
  assert (Hacc : s' = win_fold s (hist ++ [(a, r)])) by (rewrite win_fold_snoc; cbn [fst snd]; by rewrite Eh).
  destruct stop; [apply (inj Some) in Hs as <-; split; cbn [todo flying acc stopped]; try done; [by rewrite Hp|lia|]|].
  { exists hist, (a, r). split_and!; [done|cbn [fst snd]; by rewrite Eh|done]. }
  assert (Hgo : forall p ar' q, hist ++ [(a, r)] = p ++ ar' :: q -> (handle (win_fold s p) ar'.1 ar'.2).2 = false) by (apply go_on; [done|by rewrite Eh]).
  destruct (todo w) as [|x rest] eqn:Et; apply (inj Some) in Hs as <-; split; cbn [todo flying acc stopped]; try done.
  - by rewrite Hp.
  - lia.
  - rewrite <- app_assoc. by rewrite Hp.
  - rewrite length_app. cbn [length]. lia.
  - intros _ E. by destruct (delete k (flying w)).
Qed.

Lemma win_reaches_inv width items s hist w : win_reaches width items s hist w -> win_inv width items s hist w.
Proof. induction 1 as [|hist w k a r w' _ IH Hk Hs]; [apply win_start_inv|by eapply win_step_inv]. Qed.

(** The loop is done after at most as many completions as there are items, and until
    then some future is in flight that may complete. *)
Lemma win_terminates width items s hist w : win_reaches width items s hist w -> 0 < width ->
  length hist <= length items /\ (win_over w = false -> 0 < length (flying w) /\ forall k r, k < length (flying w) -> is_Some (win_step w k r)).
Proof.
  intros Hr Hw. apply win_reaches_inv in Hr as [Hi _ _ _ _]. split.
  - apply Permutation_length in Hi. rewrite !length_app, length_map in Hi. lia.
  - unfold win_over. intros Ho. apply orb_false_iff in Ho as [Hst Hf]. split; [destruct (flying w); [done|cbn; lia]|].
    intros k r Hk. apply lookup_lt_is_Some in Hk as [a Hk]. unfold win_step. rewrite Hst, Hk. destruct (handle _ _ _) as [? []]; [by eexists|]. destruct (todo w); by eexists.
Qed.

(** A loop that ran out of futures has handled every item once. *)
Lemma win_complete width items s hist w : win_reaches width items s hist w -> 0 < width -> win_over w = true -> stopped w = false -> map fst hist ≡ₚ items.
Proof.
  intros Hr Hw Ho Hst. apply win_reaches_inv in Hr as [Hi _ _ Hid _]. unfold win_over in Ho. rewrite Hst in Ho.
  destruct (flying w) eqn:Ef; [|done]. rewrite (Hid Hw eq_refl Hst) in Hi. cbn in Hi. by rewrite app_nil_r in Hi.
Qed.
End Window.
