(* ===== verification/Discovery.v ===== *)
(** * Discovering peers ([src/src/client.rs], [discover_recursive_with_progress])

    Rounds of gossip: each address of a round is asked for the peers it knows, the new
    ones among the answers are kept, and their addresses are asked in the next round.
    What a peer gossips, in which order answers come and libp2p's addresses are the
    environment's.  The progress events and the log are left out. *)
From Stdlib Require Import ZArith Lia.
From stdpp Require Import base tactics numbers countable strings list gmap.
From S2P Require Import Prelude Codec Peers Window Dnsaddr.
Local Open Scope Z_scope.
Local Open Scope hov_scope.

Section Discovery.
Context {Multiaddr : Type} (parse_multiaddr : str -> option Multiaddr).

(** What a discovery knows: the peers found, their overlays in lower case, and the
    addresses for the next round. *)
Record Disc := mkDisc { all_peers : list Peer; seen_overlays : gset str; next_frontier : list Multiaddr }.

Definition take_peer (s : Disc) (p : Peer) : Disc :=
  let p := with_underlays p (List.filter (fun u => negb (has_unroutable_ip4 u)) (underlays p)) in
  match underlays p with
  | [] => s
  | _ =>
      let key := to_ascii_lowercase (overlay p) in
      if bool_decide (key ∈ seen_overlays s) then s
      else mkDisc (all_peers s ++ [p]) ({[key]} ∪ seen_overlays s)
             (match first_dialable_underlay parse_multiaddr p with Some u => next_frontier s ++ [u] | None => next_frontier s end)
  end.

(** The answer of one address. *)
Definition disc_handle (s : Disc) (ma : Multiaddr) (r : result (list Peer) str) : Disc * bool :=
  (match r with Ok batch => foldl take_peer s batch | Err _ => s end, false).

(** A round over [frontier], the completions in the order of [hist]. *)
Definition round_runs (concurrency : nat) (frontier : list Multiaddr) (s : Disc) (hist : list (Multiaddr * result (list Peer) str)) (s' : Disc) : Prop :=
  exists w, win_reaches disc_handle (Nat.max concurrency 1) frontier (mkDisc (all_peers s) (seen_overlays s) []) hist w /\ win_over w = true /\ acc w = s'.

(** Rounds until the bound or an empty frontier; the histories of the rounds in turn. *)
Inductive rounds_run (concurrency : nat) : nat -> Disc -> list (list (Multiaddr * result (list Peer) str)) -> Disc -> Prop :=
| RrBound s : rounds_run concurrency 0 s [] s
| RrEmpty n s : next_frontier s = [] -> rounds_run concurrency n s [] s
| RrRound n s hist s' hists s'' : next_frontier s <> [] -> round_runs concurrency (next_frontier s) s hist s' -> rounds_run concurrency n s' hists s'' ->
    rounds_run concurrency (S n) s (hist :: hists) s''.

Inductive DiscoverError := DiscResolve (e : DnsAddrError) | NoWsMultiaddrs.
(** [resolved] is what the bootstrap address resolves to. *)
Definition discover_runs (resolved : result (list Multiaddr) DnsAddrError) (max_rounds concurrency : nat) (hists : list (list (Multiaddr * result (list Peer) str)))
    (out : result (list Peer) DiscoverError) : Prop :=
  match resolved with
  | Err e => hists = [] /\ out = Err (DiscResolve e)
  | Ok [] => hists = [] /\ out = Err NoWsMultiaddrs
  | Ok frontier => exists s, rounds_run concurrency max_rounds (mkDisc [] ∅ frontier) hists s /\ out = Ok (all_peers s)
  end.

(** ** What a discovery returns *)

(** The routable form of a peer. *)
Definition routable (p : Peer) : Peer := with_underlays p (List.filter (fun u => negb (has_unroutable_ip4 u)) (underlays p)).
Definition okey (p : Peer) : str := to_ascii_lowercase (overlay p).

(** [heard] are the peers gossiped so far. *)
Record disc_inv (heard : list Peer) (s : Disc) : Prop := {
  di_seen : list_to_set (map okey (all_peers s)) = seen_overlays s;
  di_distinct : NoDup (map okey (all_peers s));
  di_from : Forall (fun q => exists p, p ∈ heard /\ q = routable p /\ underlays q <> []) (all_peers s);
  di_all : Forall (fun p => underlays (routable p) <> [] -> okey p ∈ seen_overlays s) heard }.

Lemma take_peer_inv heard s p : disc_inv heard s -> disc_inv (heard ++ [p]) (take_peer s p).
Proof.
  intros [H1 H2 H3 H4].
  assert (Hmono : Forall (fun q => exists p', p' ∈ heard ++ [p] /\ q = routable p' /\ underlays q <> []) (all_peers s)).
  { eapply Forall_impl; [exact H3|]. intros q (p' & Hp' & ?). exists p'. split; [apply elem_of_app; by left|done]. }
  unfold take_peer. cbv zeta. fold (routable p). destruct (underlays (routable p)) as [|u us] eqn:Eu.
  { split; try done. apply Forall_app. split; [done|]. apply Forall_singleton. by rewrite Eu. }
  change (to_ascii_lowercase (overlay (routable p))) with (okey p). case_bool_decide as Hin.
  - split; try done. apply Forall_app. split; [done|]. by apply Forall_singleton.
  - split; cbn [all_peers seen_overlays next_frontier].
    + rewrite map_app, list_to_set_app_L, H1. cbn. change (okey (routable p)) with (okey p). set_solver.
    + rewrite map_app. apply NoDup_app. split_and!; [done| |apply NoDup_singleton]. intros x Hx Hy. apply list_elem_of_singleton in Hy as ->. apply Hin. rewrite <- H1. by apply elem_of_list_to_set.
    + apply Forall_app. split; [done|]. apply Forall_singleton. exists p. split_and!; [apply elem_of_app; right; by apply list_elem_of_singleton|done|by rewrite Eu].
    + apply Forall_app. split; [eapply Forall_impl; [exact H4|]; intros q Hq Hne; apply elem_of_union_r; by apply Hq|]. apply Forall_singleton. intros _. set_solver.
Qed.

Lemma batch_inv batch : forall heard s, disc_inv heard s -> disc_inv (heard ++ batch) (foldl take_peer s batch).
Proof.
  induction batch as [|p batch IH]; intros heard s Hs; cbn [foldl]; [by rewrite app_nil_r|].
  replace (heard ++ p :: batch) with ((heard ++ [p]) ++ batch) by (by rewrite <- app_assoc). by apply IH, take_peer_inv.
Qed.

(** The peers of a history. *)
Definition gossip (hist : list (Multiaddr * result (list Peer) str)) : list Peer := concat (map (fun ar => match ar.2 with Ok batch => batch | Err _ => [] end) hist).

Lemma fold_inv hist : forall heard s, disc_inv heard s -> disc_inv (heard ++ gossip hist) (win_fold disc_handle s hist).
Proof.
  unfold win_fold, gossip. induction hist as [|[ma r] hist IH]; intros heard s Hs; cbn [foldl map concat]; [by rewrite app_nil_r|].
  rewrite app_assoc. apply IH. cbn. destruct r as [batch|e]; [by apply batch_inv|by rewrite app_nil_r].
Qed.

(** The frontier of the next round: one address per peer that is new in this one. *)
Lemma fold_frontier hist : forall s new, exists new', win_fold disc_handle (mkDisc (all_peers s ++ new) (seen_overlays s) (omap (first_dialable_underlay parse_multiaddr) new)) hist =
  mkDisc (all_peers s ++ new') (seen_overlays (win_fold disc_handle (mkDisc (all_peers s ++ new) (seen_overlays s) (omap (first_dialable_underlay parse_multiaddr) new)) hist)) (omap (first_dialable_underlay parse_multiaddr) new').
Proof.
  intros s new. set (P := fun d : Disc => exists new', all_peers d = all_peers s ++ new' /\ next_frontier d = omap (first_dialable_underlay parse_multiaddr) new').
  assert (Hp : forall d p, P d -> P (take_peer d p)).
  { intros d p (n & E1 & E2). unfold take_peer. cbv zeta. destruct (underlays _); [by exists n|]. case_bool_decide; [by exists n|].
    eexists (n ++ [_]). cbn [all_peers next_frontier]. rewrite E1, E2, app_assoc, omap_app. split; [done|]. cbn [omap list_omap]. destruct (first_dialable_underlay _ _); [done|by rewrite app_nil_r]. }
  assert (Hb : forall batch d, P d -> P (foldl take_peer d batch)) by (induction batch as [|p batch IHb]; intros d Hd; cbn [foldl]; [done|]; by apply IHb, Hp).
  assert (Hf : forall h d, P d -> P (win_fold disc_handle d h)).
  { unfold win_fold. induction h as [|[ma r] h IHh]; intros d Hd; cbn [foldl]; [done|]. apply IHh. cbn. destruct r; [by apply Hb|done]. }
  destruct (Hf hist (mkDisc (all_peers s ++ new) (seen_overlays s) (omap (first_dialable_underlay parse_multiaddr) new))) as (new' & E1 & E2); [by exists new|].
  exists new'. rewrite <- E1, <- E2. by destruct (win_fold _ _ _).
Qed.

Lemma round_spec concurrency frontier heard s hist s' : disc_inv heard s -> round_runs concurrency frontier s hist s' ->
  disc_inv (heard ++ gossip hist) s' /\ map fst hist ≡ₚ frontier /\
  exists new, all_peers s' = all_peers s ++ new /\ next_frontier s' = omap (first_dialable_underlay parse_multiaddr) new.
Proof.
  intros Hs (w & Hw & Hover & <-). pose proof (win_reaches_inv _ _ _ _ _ _ Hw) as [_ _ Ha _ Hst].
  assert (Hstop : stopped w = false) by (destruct (stopped w); [|done]; by destruct Hst as (? & ? & _ & ? & _)).
  rewrite Ha. split_and!.
  - apply fold_inv. destruct Hs. by split.
  - eapply win_complete; [exact Hw|lia|done|done].
  - destruct (fold_frontier hist s []) as [new E]. rewrite app_nil_r in E. exists new. change (omap (first_dialable_underlay parse_multiaddr) []) with (@nil Multiaddr) in E. rewrite E. done.
Qed.

(** Which addresses each round asks. *)
Fixpoint asked_in_turn (s : Disc) (hists : list (list (Multiaddr * result (list Peer) str))) (s' : Disc) : Prop :=
  match hists with
  | [] => all_peers s' = all_peers s
  | hist :: hists => map fst hist ≡ₚ next_frontier s /\ exists s1, (exists new, all_peers s1 = all_peers s ++ new /\ next_frontier s1 = omap (first_dialable_underlay parse_multiaddr) new) /\ asked_in_turn s1 hists s'
  end.

Lemma rounds_spec concurrency n s hists s' : rounds_run concurrency n s hists s' -> forall heard, disc_inv heard s ->
  disc_inv (heard ++ concat (map gossip hists)) s' /\ (length hists <= n)%nat /\ asked_in_turn s hists s' /\ ((length hists < n)%nat -> next_frontier s' = []).
Proof.
  induction 1 as [s|n s Hn|n s hist s1 hists s2 Hne Hr _ IH]; intros heard Hs; cbn [map concat length asked_in_turn].
  - rewrite app_nil_r. split_and!; [done|done|done|lia].
  - rewrite app_nil_r. split_and!; [done|lia|done|done].
  - destruct (round_spec _ _ _ _ _ _ Hs Hr) as (H1 & H2 & H3). destruct (IH _ H1) as (I1 & I2 & I3 & I4). rewrite app_assoc. split_and!; [done|lia|done|by exists s1|]. intros Hl. apply I4. lia.
Qed.

(** A discovery returns exactly what it heard.  Whatever the peers gossip and in
    whatever order they answer, the peers returned have distinct overlays (upper and
    lower case being the same) and at least one underlay, none of them unroutable; each
    was gossiped in this form, and every gossiped peer with a routable underlay is in
    the result.  Each round asks every address of its frontier exactly once, the next
    frontier being one dialable underlay of every peer that is new, and there are at
    most [max_rounds] rounds, fewer only if there is nobody left to ask. *)
Theorem discovery_exact frontier max_rounds concurrency hists out : frontier <> [] -> discover_runs (Ok frontier) max_rounds concurrency hists (Ok out) ->
  NoDup (map okey out) /\
  Forall (fun q => underlays q <> [] /\ Forall (fun u => has_unroutable_ip4 u = false) (underlays q) /\ exists p, p ∈ concat (map gossip hists) /\ q = routable p) out /\
  Forall (fun p => underlays (routable p) <> [] -> okey p ∈ map okey out) (concat (map gossip hists)) /\
  exists s', all_peers s' = out /\ (length hists <= max_rounds)%nat /\ asked_in_turn (mkDisc [] ∅ frontier) hists s' /\ ((length hists < max_rounds)%nat -> next_frontier s' = []).
Proof.
  intros Hne. unfold discover_runs. destruct frontier as [|f fs]; [done|]. intros (s & Hr & E). simplify_eq.
  destruct (rounds_spec _ _ _ _ _ Hr []) as ([H1 H2 H3 H4] & H5 & H6 & H7); [split; try done; apply NoDup_nil_2|]. cbn [app] in *. split_and!; [done| | |by exists s].
  - eapply Forall_impl; [exact H3|]. intros q (p & Hp & -> & Hu). split_and!; [done| |by exists p]. apply Forall_forall. intros u Hin. cbn in Hin. apply list_elem_of_In, filter_In in Hin as [_ Hin]. by apply negb_true_iff in Hin.
  - eapply Forall_impl; [exact H4|]. intros p Hp Hu. specialize (Hp Hu). rewrite <- H1 in Hp. by apply elem_of_list_to_set in Hp.
Qed.
End Discovery.

Module DiscoveryWitness.
(** One bootnode that gossips a peer with a public and a private underlay. *)
Definition boot : str := lit "/ip4/1.1.1.1/tcp/1634".
Definition peer : Peer := mkPeer (lit "AB") [lit "/ip4/5.6.7.8/tcp/1634"; lit "/ip4/10.0.0.1/tcp/1634"] None None None None None None 0.
Definition found : Peer := routable peer.
Definition hist : list (str * result (list Peer) str) := [(boot, Ok [peer])].

Lemma ran : discover_runs Some (Ok [boot]) 1 4 [hist] (Ok [found]).
Proof.
  exists (take_peer Some (mkDisc [] ∅ []) peer). split; [|by vm_compute].
  apply (RrRound Some 4 0 (mkDisc [] ∅ [boot]) hist (take_peer Some (mkDisc [] ∅ []) peer) []); [done| |apply RrBound].
  exists (mkWin [] [] (take_peer Some (mkDisc [] ∅ []) peer) false). split_and!; [|done|done].
  apply (WrStep _ _ _ _ [] (win_start 4 [boot] (mkDisc [] ∅ [])) 0 boot (Ok [peer])); [apply WrStart|reflexivity|reflexivity].
Qed.

Lemma discovery_exact_witness : NoDup (map okey [found]) /\ underlays found = [lit "/ip4/5.6.7.8/tcp/1634"].
Proof. destruct (discovery_exact Some [boot] 1 4 [hist] [found] ltac:(discriminate) ran) as (H & _). split; [exact H|by vm_compute]. Defined.
End DiscoveryWitness.
