(* ===== verification/Hive.v ===== *)
(** * Peer gossip ([src/src/protocols/hive.rs])

    Peers announce themselves and each other over hive streams; what is heard goes to
    the peer table.  [multiaddr_text] is libp2p's parser of a binary multiaddress
    followed by its printing ([None] when it does not parse): a parameter.  [usize] is
    64 bits wide and arithmetic wraps, as in a release build; a slice whose start is
    after its end is a panic, [HivePanic]. *)
From Stdlib Require Import ZArith Lia.
From stdpp Require Import base tactics numbers countable strings list gmap.
From S2P Require Import Prelude Codec Cid Wire Framing Protocols Peers.
Local Open Scope Z_scope.
Local Open Scope hov_scope.

Definition UNDERLAY_LIST_PREFIX : Z := 0x99.
Inductive Version := V1 | V2.
Definition PROTOCOL_V2 : str := lit "/swarm/hive/2.0.0/peers".
Definition PROTOCOL_V1 : str := lit "/swarm/hive/1.1.0/peers".
Definition version_from_protocol (proto : str) : option Version :=
  if bool_decide (proto = PROTOCOL_V1) then Some V1 else if bool_decide (proto = PROTOCOL_V2) then Some V2 else None.

(** The messages. *)
Record HiveAddress := mkHiveAddress {
  ha_underlay : bytes; ha_signature : bytes; ha_overlay : bytes; ha_nonce : bytes; ha_timestamp : Z; ha_chequebook_address : bytes }.
Record PeersMsg := mkPeersMsg { pm_peers : list HiveAddress }.

Inductive HiveError := HvFrame (e : FrameError) | HivePanic.

(** [fn read_varint]: the value and the number of bytes read. *)
Fixpoint read_varint (data : bytes) (i : nat) (value shift : Z) : result (Z * nat) unit :=
  match data with
  | [] => Err tt
  | b :: data' =>
      let value := Z.lor value (wrap 64 (Z.shiftl (Z.land b 0x7f) shift)) in
      if Z.land b 0x80 =? 0 then Ok (value, S i)
      else if 64 <=? shift + 7 then Err tt else read_varint data' (S i) value (shift + 7)
  end.

Section Underlays.
Context (multiaddr_text : bytes -> option str).

(** [fn deserialize_list], the loop on fuel; the outer [None] is out of fuel, the
    inner one a panic. *)
Fixpoint list_loop (fuel : nat) (data : bytes) (pos : Z) (addrs : list str) : option (option (result (list str) unit)) :=
  match fuel with
  | O => None
  | S fuel' =>
      if pos <? Z.of_nat (length data) then
        match read_varint (drop (Z.to_nat pos) data) 0 0 0 with
        | Err _ => Some (Some (Err tt))
        | Ok (len, n) =>
            let pos := pos + Z.of_nat n in
            let stop := wrap 64 (pos + len) in
            if Z.of_nat (length data) <? stop then Some (Some (Err tt))
            else if stop <? pos then Some None
            else
              let piece := take (Z.to_nat (stop - pos)) (drop (Z.to_nat pos) data) in
              let addrs := match multiaddr_text piece with Some ma => addrs ++ [ma] | None => addrs end in
              list_loop fuel' data stop addrs
        end
      else Some (Some (Ok addrs))
  end.
Definition deserialize_list (data : bytes) : option (result (list str) unit) :=
  default None (list_loop (S (length data)) data 0 []).

(** [fn deserialize_underlays] (each address as the text it prints). *)
Definition deserialize_underlays (data : bytes) : option (result (list str) unit) :=
  match data with
  | [] => Some (Err tt)
  | b :: rest =>
      if b =? UNDERLAY_LIST_PREFIX then deserialize_list rest
      else Some (match multiaddr_text data with Some m => Ok [m] | None => Err tt end)
  end.

(** ** Hearing *)

Context `{BeeMessages, Message PeersMsg, Hex}.

(** One entry of an announcement: [Some None] skips it, [None] is a panic. *)
Definition heard_peer (entry : HiveAddress) : option (option Peer) :=
  if negb (Nat.eqb (length (ha_overlay entry)) 32) then Some None
  else match deserialize_underlays (ha_underlay entry) with
       | None => None
       | Some (Err _) => Some None
       | Some (Ok us) =>
           if bool_decide (us = []) then Some None
           else Some (Some (mkPeer (hex_encode (ha_overlay entry)) us None
                  (if bool_decide (ha_nonce entry = []) then None else Some (hex_encode (ha_nonce entry))) None None None None 0))
       end.
Fixpoint heard_peers (entries : list HiveAddress) (out : list Peer) : option (list Peer) :=
  match entries with
  | [] => Some out
  | e :: entries' =>
      match heard_peer e with
      | None => None
      | Some None => heard_peers entries' out
      | Some (Some p) => heard_peers entries' (out ++ [p])
      end
  end.

(** [fn read_peers]: the loop over announcements, on fuel ([None] when it runs out). *)
Fixpoint read_peers_loop (fuel : nat) (out : list Peer) : io (option (result (list Peer) HiveError)) :=
  match fuel with
  | O => Ret None
  | S fuel' =>
      io_bind (read_message PeersMsg) (fun r =>
        match r with
        | Ok env => match heard_peers (pm_peers env) out with None => Ret (Some (Err HivePanic)) | Some out => read_peers_loop fuel' out end
        | Err (Io _) => Ret (Some (Ok out))
        | Err e => Ret (Some (Err (HvFrame e)))
        end)
  end.
Definition read_peers (fuel : nat) : io (option (result (list Peer) HiveError)) :=
  io_bind (io_map_err HvFrame read_then_write_empty_headers) (fun r =>
    match r with Err e => Ret (Some (Err e)) | Ok _ => read_peers_loop fuel [] end).

(** ** Announcing *)

Record OwnBzzAddress := mkOwnBzzAddress {
  me_overlay : bytes; me_underlay : bytes; me_signature : bytes; me_nonce : bytes; me_timestamp : Z; me_chequebook_address : bytes }.

Definition own_record (me : OwnBzzAddress) (version : Version) : HiveAddress :=
  match version with
  | V1 => mkHiveAddress (me_underlay me) (me_signature me) (me_overlay me) (me_nonce me) 0 []
  | V2 => mkHiveAddress (me_underlay me) (me_signature me) (me_overlay me) (me_nonce me) (me_timestamp me) (me_chequebook_address me)
  end.

(** [fn announce_self] and [fn respond_empty]. *)
Definition announce_self (me : OwnBzzAddress) (version : Version) : io (result unit HiveError) :=
  let* _ := io_map_err HvFrame (write_message empty_headers) in
  let* _ := io_map_err HvFrame (read_message Headers) in
  let* _ := io_map_err HvFrame (write_message (mkPeersMsg [own_record me version])) in
  Ret (Ok tt).
Definition respond_empty : io (result unit HiveError) :=
  let* _ := io_map_err HvFrame (read_message Headers) in
  let* _ := io_map_err HvFrame (write_message empty_headers) in
  let* _ := io_map_err HvFrame (write_message (mkPeersMsg [])) in
  Ret (Ok tt).
End Underlays.

(** ** Lists of underlays *)

Lemma read_varint_count data i value shift v n : read_varint data i value shift = Ok (v, n) -> (i < n <= i + length data)%nat.
Proof.
  revert i value shift. induction data as [|b data IH]; intros i value shift; cbn [read_varint]; [done|]. cbv zeta.
  destruct (Z.land b 0x80 =? 0); [intros [= _ <-]; simpl; lia|]. destruct (64 <=? shift + 7); [done|].
  intros Hr. apply IH in Hr. simpl. lia.
Qed.

Lemma read_varint_leb k v value shift rest i :
  0 <= v < 128 ^ Z.of_nat k -> (0 < k)%nat -> 0 <= shift -> 0 <= value < 2 ^ shift -> value + v * 2 ^ shift < 2 ^ 64 ->
  read_varint (leb128 k v ++ rest) i value shift = Ok (value + v * 2 ^ shift, (i + length (leb128 k v))%nat).
Proof.
  revert v value shift i. induction k as [|k IH]; intros v value shift i Hv Hk Hs Hval Hb; [lia|].
  assert (Hp : 0 < 2 ^ shift) by (apply Z.pow_pos_nonneg; lia).
  cbn [leb128]. destruct (Z.leb_spec 128 v) as [H|H].
  - pose proof (Z.mod_pos_bound v 128 ltac:(lia)) as Hd. set (d := v mod 128) in *.
    destruct (low_bits_more d ltac:(lia)) as [E1 E2].
    assert (Hdv : v = 128 * (v / 128) + d) by (apply Z.div_mod; lia). set (w := v / 128) in *.
    assert (Hw : 1 <= w) by (subst w; apply Z.div_le_lower_bound; lia).
    assert (Hp7 : 2 ^ (shift + 7) = 128 * 2 ^ shift) by (rewrite Z.pow_add_r by lia; lia).
    cbn [app read_varint length]. cbv zeta. rewrite E1, E2, add_bits by first [lia|nia].
    destruct (Z.leb_spec 64 (shift + 7)) as [Hbig|_].
    { assert (2 ^ 64 <= 2 ^ (shift + 7)) by (apply Z.pow_le_mono_r; lia). nia. }
    rewrite Nat2Z.inj_succ, Z.pow_succ_r in Hv by lia. destruct k as [|k]; [simpl in Hv; lia|].
    rewrite IH by first [lia|nia]. f_equal. f_equal; [nia|lia].
  - destruct (low_bits_last v ltac:(lia)) as [E1 E2]. cbn [app read_varint length]. cbv zeta. rewrite E1, E2, add_bits by first [lia|nia].
    f_equal. f_equal. lia.
Qed.

Section Lists.
Context (multiaddr_text : bytes -> option str).

(** The loop always has fuel left. *)
Lemma list_loop_enough fuel data pos addrs : 0 <= pos -> (Z.to_nat (Z.of_nat (length data) - pos) < fuel)%nat ->
  list_loop multiaddr_text fuel data pos addrs <> None.
Proof.
  revert pos addrs. induction fuel as [|fuel IH]; intros pos addrs Hpos Hf; [lia|]. cbn [list_loop].
  destruct (Z.ltb_spec pos (Z.of_nat (length data))); [|done].
  destruct (read_varint (drop (Z.to_nat pos) data) 0 0 0) as [[len n]|] eqn:E; [|done]. cbv zeta.
  apply read_varint_count in E. case_match eqn:E1; [done|]. case_match eqn:E2; [done|]. apply Z.ltb_ge in E1, E2. apply IH; lia.
Qed.

Definition list_item (b : bytes) : bytes := push_varint [] (Z.of_nat (length b)) ++ b.

Lemma list_loop_decodes fuel pre pieces addrs :
  Z.of_nat (length (pre ++ concat (map list_item pieces))) < 2 ^ 63 -> (length pieces < fuel)%nat ->
  list_loop multiaddr_text fuel (pre ++ concat (map list_item pieces)) (Z.of_nat (length pre)) addrs =
  Some (Some (Ok (addrs ++ omap multiaddr_text pieces))).
Proof.
  revert fuel pre addrs. induction pieces as [|b pieces IH]; intros [|fuel] pre addrs Hlen Hf; try (simpl in Hf; lia).
  - cbn [list_loop map concat]. rewrite app_nil_r. rewrite Z.ltb_irrefl. cbn. by rewrite app_nil_r.
  - cbn [list_loop map concat] in *. set (tl := concat (map list_item pieces)) in *. set (n := Z.of_nat (length b)).
    assert (Hn : n <= Z.of_nat (length (list_item b))) by (unfold list_item; rewrite length_app; lia).
    rewrite !length_app in Hlen. set (hd := leb128 10 n).
    assert (Ei : list_item b = hd ++ b) by (unfold list_item, hd; rewrite push_varint_u64 by lia; done).
    rewrite Ei in *. rewrite length_app in Hlen.
    assert (Hhd : (0 < length hd)%nat) by (unfold hd; cbn [leb128]; case_match; simpl; lia).
    set (data := pre ++ (hd ++ b) ++ tl).
    assert (Hdata : length data = (length pre + (length hd + length b + length tl))%nat) by (unfold data; rewrite !length_app; lia).
    assert (D1 : drop (length pre) data = hd ++ b ++ tl) by (unfold data; by rewrite drop_app_length, <- app_assoc).
    assert (D2 : take (length b) (drop (length (pre ++ hd)) data) = b).
    { replace data with ((pre ++ hd) ++ b ++ tl) by (unfold data; by rewrite <- !app_assoc). by rewrite drop_app_length, take_app_length. }
    assert (D3 : data = ((pre ++ hd) ++ b) ++ tl) by (unfold data; by rewrite <- !app_assoc).
    rewrite Hdata. destruct (Z.ltb_spec (Z.of_nat (length pre)) (Z.of_nat (length pre + (length hd + length b + length tl)))); [|lia].
    rewrite Nat2Z.id, D1. unfold hd at 1. rewrite read_varint_leb; [|split; [lia|]|lia|lia|lia|lia].
    2: { eapply Z.lt_trans with (2 ^ 63); [lia|]. by vm_compute. }
    fold hd. rewrite Nat.add_0_l, Z.pow_0_r, Z.mul_1_r, Z.add_0_l. cbv zeta. unfold wrap. rewrite Z.mod_small by lia.
    destruct (Z.ltb_spec (Z.of_nat (length pre + (length hd + length b + length tl))) (Z.of_nat (length pre) + Z.of_nat (length hd) + n)); [lia|].
    destruct (Z.ltb_spec (Z.of_nat (length pre) + Z.of_nat (length hd) + n) (Z.of_nat (length pre) + Z.of_nat (length hd))); [lia|].
    replace (Z.to_nat (Z.of_nat (length pre) + Z.of_nat (length hd) + n - (Z.of_nat (length pre) + Z.of_nat (length hd)))) with (length b) by lia.
    replace (Z.to_nat (Z.of_nat (length pre) + Z.of_nat (length hd))) with (length (pre ++ hd)) by (rewrite length_app; lia).
    rewrite D2. replace (Z.of_nat (length pre) + Z.of_nat (length hd) + n) with (Z.of_nat (length ((pre ++ hd) ++ b))) by (rewrite !length_app; lia).
    rewrite D3.
    rewrite IH; [|rewrite !length_app; lia|simpl in Hf; lia]. cbn [omap list_omap].
    destruct (multiaddr_text b); [by rewrite <- app_assoc|done].
Qed.

(** The list form of an underlay. *)
Definition encode_list (pieces : list bytes) : bytes := UNDERLAY_LIST_PREFIX :: concat (map list_item pieces).

(** The list that announces one address of [2^64 - 1] bytes. *)
Definition long_list : bytes := UNDERLAY_LIST_PREFIX :: replicate 9 0xff ++ [1].

(** A list of underlays is read back as the addresses in it that parse, in their
    order; reading any list ends.  The length of an address is added to its position
    without a check, though: an eleven-byte list that announces one address of
    [2^64 - 1] bytes passes the bound and panics when it is sliced. *)
Theorem underlay_lists : 
  (forall pieces, Z.of_nat (length (encode_list pieces)) < 2 ^ 63 ->
    deserialize_underlays multiaddr_text (encode_list pieces) = Some (Ok (omap multiaddr_text pieces))) /\
  (forall data, list_loop multiaddr_text (S (length data)) data 0 [] <> None) /\
  deserialize_underlays multiaddr_text long_list = None.
Proof.
  split_and!; [|intros data; apply list_loop_enough; lia|by vm_compute].
  intros pieces Hlen. unfold encode_list, deserialize_underlays in *. rewrite Z.eqb_refl. unfold deserialize_list.
  assert (Hc : (length pieces <= length (concat (map list_item pieces)))%nat).
  { clear. induction pieces as [|b ps IH]; [simpl; lia|]. cbn [map concat length]. rewrite length_app. unfold list_item at 1. rewrite length_app.
    pose proof (push_varint_nonempty (Z.of_nat (length b))). lia. }
  pose proof (list_loop_decodes (S (length (concat (map list_item pieces)))) [] pieces []) as G. cbn [app length] in G.
  change (Z.of_nat 0) with 0 in G. cbn [length] in Hlen. rewrite G by lia. done.
Qed.
End Lists.

(** ** Exchanges *)

Lemma read_exact_shrinks {E} (g : str -> E) n p b p' : against (io_map_err g (read_exact n)) p = (Ok b, p') ->
  (length (sends p') + n = length (sends p))%nat.
Proof.
  unfold io_map_err, read_exact. rewrite against_bind. cbn [against]. destruct (Nat.leb_spec n (length (sends p))); cbn; [|done].
  intros [= _ <-]. cbn. rewrite length_drop. lia.
Qed.

Lemma uvarint_shrinks i value shift p v p' : against (read_uvarint_loop i value shift) p = (Ok v, p') ->
  (length (sends p') < length (sends p))%nat.
Proof.
  revert value shift p. induction i as [|i IH]; intros value shift p; [done|]. cbn [read_uvarint_loop]. intros H.
  apply against_try in H as (b & p1 & Hb & H). apply read_exact_shrinks in Hb. cbv zeta in H.
  destruct (Z.land (b !!! 0%nat) 0x80 =? 0); [cbn in H; injection H as _ <-; lia|]. apply IH in H. lia.
Qed.

Lemma read_message_shrinks {M} `{Message M} p m p' : against (read_message M) p = (Ok m, p') -> (length (sends p') < length (sends p))%nat.
Proof.
  unfold read_message. intros H0. apply against_try in H0 as (len & p1 & H1 & H0). apply uvarint_shrinks in H1.
  destruct (MAX_FRAME <? len); [done|]. apply against_try in H0 as (b & p2 & H2 & H0). apply read_exact_shrinks in H2.
  cbn in H0. injection H0 as _ <-. lia.
Qed.

Section HiveProps.
Context (multiaddr_text : bytes -> option str) `{BeeMessagesLaws, MessageLaws PeersMsg, Hex}.

Lemma read_loop_ends fuel out p : (length (sends p) < fuel)%nat -> (against (read_peers_loop multiaddr_text fuel out) p).1 <> None.
Proof.
  revert out p. induction fuel as [|fuel IH]; intros out p Hf; [lia|]. cbn [read_peers_loop]. rewrite against_bind.
  destruct (against (read_message PeersMsg) p) as [[env|[e|e|e]] p1] eqn:E; cbn; try done.
  apply read_message_shrinks in E. destruct (heard_peers multiaddr_text (pm_peers env) out); [|done]. apply IH. lia.
Qed.

(** The peer an announcement of ours is heard as. *)
Definition announced (me : OwnBzzAddress) (us : list str) : Peer :=
  mkPeer (hex_encode (me_overlay me)) us None
    (if bool_decide (me_nonce me = []) then None else Some (hex_encode (me_nonce me))) None None None None 0.

Lemma announcement_ends me version fuel us :
  length (me_overlay me) = 32%nat -> us <> [] -> deserialize_underlays multiaddr_text (me_underlay me) = Some (Ok us) ->
  fits empty_headers -> fits (mkPeersMsg [own_record me version]) ->
  always_ends (start (announce_self me version) (read_peers multiaddr_text (S (S fuel)))) (Ok tt) (Some (Ok [announced me us])).
Proof.
  intros Hov Hus Hun Hh Hm.
  set (w1 := io_try (io_map_err HvFrame (read_message Headers)) (fun _ =>
    io_try (io_map_err HvFrame (write_message (mkPeersMsg [own_record me version]))) (fun _ => Ret (Ok tt)))).
  assert (C1 : go (announce_self me version) [] false false = (mkSide w1 [] false, encode_length_delimited empty_headers)).
  { unfold announce_self. rewrite go_write_next. simpl. by rewrite app_nil_r. }
  assert (C2 : forall eof, go w1 (encode_length_delimited empty_headers) false eof =
    (mkSide (Ret (Ok tt)) [] false, encode_length_delimited (mkPeersMsg [own_record me version]))).
  { intros eof. unfold w1. rewrite go_read_next by done. rewrite go_write_next. simpl. by rewrite app_nil_r. }
  assert (S1 : go (read_peers multiaddr_text (S (S fuel))) (encode_length_delimited empty_headers) false false =
    (mkSide (read_peers_loop multiaddr_text (S (S fuel)) []) [] false, encode_length_delimited empty_headers)).
  { unfold read_peers. rewrite go_bind. unfold io_map_err, read_then_write_empty_headers. rewrite go_bind.
    erewrite go_try_ok by (rewrite <- (app_nil_r (encode_length_delimited empty_headers)); by apply go_read).
    erewrite go_try_ok by apply go_write. simpl. by rewrite !app_nil_r. }
  assert (Hheard : heard_peer multiaddr_text (own_record me version) = Some (Some (announced me us))).
  { unfold heard_peer, announced. destruct version; cbn; rewrite Hov, Hun; cbn; by rewrite bool_decide_eq_false_2. }
  assert (S2 : go (read_peers_loop multiaddr_text (S (S fuel)) []) (encode_length_delimited (mkPeersMsg [own_record me version])) false true =
    (mkSide (Ret (Some (Ok [announced me us]))) [] false, [])).
  { cbn [read_peers_loop]. rewrite go_bind.
    rewrite <- (app_nil_r (encode_length_delimited (mkPeersMsg [own_record me version]))), go_read by done.
    cbn [prog inbox closed heard_peers pm_peers app]. rewrite Hheard. reflexivity. }
  assert (E : rounds 2 (start (announce_self me version) (read_peers multiaddr_text (S (S fuel)))) =
    mkDuplex (mkSide (Ret (Ok tt)) [] false) (mkSide (Ret (Some (Ok [announced me us]))) [] false)).
  { cbn [rounds]. unfold start. erewrite round_eq by (first [exact C1|exact S1]). erewrite round_eq by (first [apply C2|exact S2]). done. }
  by apply (rounds_end 2); rewrite E.
Qed.

(** Gossip reaches the peer table.  Announcing ourselves to a node that reads
    announcements ends, in every interleaving, with that node hearing exactly one
    peer: our overlay, the underlays we advertised and our nonce.  Filing it makes
    every dialable underlay of it known under our overlay.  Whatever a peer sends,
    reading announcements ends. *)
Theorem announcement_heard me version fuel us st u :
  length (me_overlay me) = 32%nat -> us <> [] -> deserialize_underlays multiaddr_text (me_underlay me) = Some (Ok us) ->
  fits empty_headers -> fits (mkPeersMsg [own_record me version]) -> u ∈ us -> is_dialable_str u = true ->
  always_ends (start (announce_self me version) (read_peers multiaddr_text (S (S fuel)))) (Ok tt) (Some (Ok [announced me us])) /\
  (exists e, peers (upsert st (announced me us)) !! to_ascii_lowercase (hex_encode (me_overlay me)) = Some e /\ u ∈ underlays e) /\
  (forall p, (length (sends p) < fuel)%nat -> (against (read_peers multiaddr_text fuel) p).1 <> None).
Proof.
  intros Hov Hus Hun Hh Hm Hu Hd. split_and!; [by apply announcement_ends| |].
  - unfold upsert. cbn [announced underlays overlay with_underlays].
    assert (Hin : u ∈ tidy_underlays (List.filter is_dialable_str us)).
    { rewrite tidy_elem. by apply list_elem_of_In, filter_In; split; [apply list_elem_of_In|]. }
    rewrite bool_decide_eq_false_2 by (by eapply nonempty_elem). cbv zeta.
    destruct (peers st !! to_ascii_lowercase (hex_encode (me_overlay me))) as [e|]; cbn [peers];
      (eexists; split; [by rewrite lookup_insert_eq|]); [|done].
    unfold merge_peer. cbn -[tidy_underlays add_missing].
    rewrite tidy_elem, add_missing_elem. by right.
  - intros p Hp. unfold read_peers. rewrite against_bind.
    destruct (against (io_map_err HvFrame read_then_write_empty_headers) p) as [[[]|e] p1] eqn:E; [|done].
    apply read_loop_ends. unfold io_map_err, read_then_write_empty_headers in E. rewrite against_bind in E.
    destruct (against _ p) as [[[]|e1] p2] eqn:E2; [|done]. cbn in E. injection E as <-.
    apply against_try in E2 as (h & p3 & Hr & E2). apply read_message_shrinks in Hr.
    apply against_try in E2 as ([] & p4 & Hw & E2). cbn in E2. injection E2 as <-.
    unfold write_message, io_map_err, write_all in Hw. rewrite against_bind in Hw. cbn in Hw.
    destruct (write_faults p3) as [|[e'|] fs]; cbn in Hw; [|done|]; injection Hw as <-; cbn; lia.
Qed.
End HiveProps.

(** ** A concrete announcement *)

Module HiveWitness.
Import ProtocolsWitness.
Instance hive_address_eq : EqDecision HiveAddress.
Proof. solve_decision. Defined.
Instance hive_address_countable : Countable HiveAddress.
Proof.
  apply (inj_countable' (fun x => (ha_underlay x, ha_signature x, ha_overlay x, ha_nonce x, ha_timestamp x, ha_chequebook_address x))
    (fun '(a, b, c, d, e, f) => mkHiveAddress a b c d e f)). by intros [].
Defined.
Instance peers_msg_eq : EqDecision PeersMsg.
Proof. solve_decision. Defined.
Instance peers_msg_countable : Countable PeersMsg.
Proof. apply (inj_countable' pm_peers mkPeersMsg). by intros []. Defined.

Definition own : OwnBzzAddress := mkOwnBzzAddress (replicate 32 7) [4] [1] [] 9 (replicate 20 0).
Definition one_address (b : bytes) : option str := Some (lit "/ip4/5.6.7.8/tcp/1634").

Lemma announcement_heard_witness :
  always_ends (start (announce_self (H := plain_messages) (H0 := plain_message) own V2)
      (read_peers one_address (H := plain_messages) (H0 := plain_message) (H1 := plain_hex) 2))
    (Ok tt) (Some (Ok [announced (H3 := plain_hex) own [lit "/ip4/5.6.7.8/tcp/1634"]])).
Proof.
  apply (announcement_heard one_address (H := plain_messages) (H0 := plain_messages_laws) (H1 := plain_message) (H2 := plain_message_laws)
    (H3 := plain_hex) own V2 0 [lit "/ip4/5.6.7.8/tcp/1634"] store_new (lit "/ip4/5.6.7.8/tcp/1634"));
    first [reflexivity | discriminate | by left | vm_compute; discriminate].
Defined.

Lemma underlay_lists_witness : deserialize_underlays one_address (encode_list [[1; 2]; [3]]) = Some (Ok [lit "/ip4/5.6.7.8/tcp/1634"; lit "/ip4/5.6.7.8/tcp/1634"]).
Proof. apply (proj1 (underlay_lists one_address) [[1; 2]; [3]]). vm_compute. reflexivity. Defined.
End HiveWitness.
