(* ===== verification/BeeHandshake.v ===== *)
(** * The bee handshake ([src/src/protocols/handshake.rs], the responder of
      [src/src/transport.rs] and the signing of [src/src/signer.rs])

    Both sides of the handshake in both of its versions, with the signed records they
    exchange and the cache that keeps a node's record stable.

    Parameters: [sign_eip191], alloy's signature of a message with the node's key;
    [multiaddr_bytes], the binary form of a multiaddress given as text; hashing and
    recovery, in [Crypto].  The clock is an argument. *)
From Stdlib Require Import ZArith Lia.
From stdpp Require Import base tactics numbers countable strings list gmap.
From S2P Require Import Prelude Codec Signer Wire Framing Protocols.
Local Open Scope Z_scope.
Local Open Scope hov_scope.

(** The messages. *)
Record BzzAddress := mkBzzAddress {
  ba_underlay : bytes; ba_signature : bytes; ba_overlay : bytes; ba_nonce : bytes; ba_timestamp : Z; ba_chequebook_address : bytes }.
Record Syn := mkSyn { observed_underlay : bytes }.
Record Ack := mkAck { ack_address : option BzzAddress; ack_network_id : Z; ack_full_node : bool; ack_nonce : bytes; welcome_message : str }.
Record SynAck := mkSynAck { sa_syn : option Syn; sa_ack : option Ack }.

Inductive HsVersion := V14 | V15.
Definition PROTOCOL_V15 : str := lit "/swarm/handshake/15.0.0/handshake".
Definition PROTOCOL_V14 : str := lit "/swarm/handshake/14.0.0/handshake".
Definition hs_version_from_protocol (proto : str) : option HsVersion :=
  if bool_decide (proto = PROTOCOL_V14) then Some V14 else if bool_decide (proto = PROTOCOL_V15) then Some V15 else None.

Inductive HandshakeError :=
| HsFrame (e : FrameError) | HsSigner (e : SignerError) | MissingAck | MissingAddress
| NetworkIdMismatch (ours theirs : Z) | TimestampInvalid (t : Z).

Record HandshakeResult := mkHandshakeResult {
  peer_overlay : bytes; peer_underlay : bytes; peer_eth_signature : bytes; peer_full_node : bool; peer_nonce : bytes;
  peer_timestamp : Z; peer_chequebook : bytes; peer_eth_address : option bytes; our_underlay : bytes; our_signature : bytes;
  our_timestamp : Z; hs_version : HsVersion }.

(** ** The signer *)

(** [struct SwarmSigner]: identity, and the handshake records already signed. *)
Record SwarmSigner := mkSwarmSigner {
  s_overlay : bytes; s_eth_address : bytes; s_nonce : bytes; s_network_id : Z;
  handshake_cache_v15 : gmap (bytes * bytes) (Z * bytes) }.

Section Handshake.
Context (sign_eip191 : SwarmSigner -> bytes -> result bytes SignerError).

(** [fn sign_handshake], [fn sign_handshake_v15]. *)
Definition sign_handshake (s : SwarmSigner) (underlay : bytes) : result bytes SignerError :=
  sign_eip191 s (generate_sign_data underlay (s_overlay s) (s_network_id s)).
Definition sign_handshake_v15 (s : SwarmSigner) (underlay nonce : bytes) (timestamp : Z) (chequebook_address : bytes) : result bytes SignerError :=
  sign_eip191 s (generate_sign_data_v15 underlay (s_overlay s) (s_network_id s) nonce timestamp chequebook_address).

(** [fn sign_handshake_v15_cached]. *)
Definition sign_handshake_v15_cached (s : SwarmSigner) (now : Z) (underlay chequebook_address : bytes)
    : SwarmSigner * result (Z * bytes) SignerError :=
  let key := (underlay, chequebook_address) in
  match handshake_cache_v15 s !! key with
  | Some (ts, sig) => (s, Ok (ts, sig))
  | None =>
      match sign_handshake_v15 s underlay (s_nonce s) now chequebook_address with
      | Err e => (s, Err e)
      | Ok sig =>
          (mkSwarmSigner (s_overlay s) (s_eth_address s) (s_nonce s) (s_network_id s) (<[key := (now, sig)]> (handshake_cache_v15 s)),
           Ok (now, sig))
      end
  end.

Definition zero_chequebook : bytes := replicate 20 0.

(** The record a side sends about itself; the timestamp check is the dialler's. *)
Definition own_address (s : SwarmSigner) (version : HsVersion) (now : Z) (underlay : bytes)
    : SwarmSigner * result (Z * BzzAddress) SignerError :=
  match version with
  | V14 => (s, let? sig := sign_handshake s underlay in Ok (0, mkBzzAddress underlay sig (s_overlay s) [] 0 []))
  | V15 =>
      let '(s', r) := sign_handshake_v15_cached s now underlay zero_chequebook in
      (s', let? (ts, sig) := r in Ok (ts, mkBzzAddress underlay sig (s_overlay s) (s_nonce s) ts zero_chequebook))
  end.

(** ** The two handlers *)

Context `{BeeMessages, Message Syn, Message Ack, Message SynAck, Crypto} (multiaddr_bytes : str -> bytes).

(** [fn client_loopback_underlay]. *)
Definition client_loopback_underlay (peer_id : str) : bytes := multiaddr_bytes (lit "/ip4/127.0.0.1/tcp/1634/p2p/" ++ peer_id).

(** The opening of [fn run]: our [Syn], their [SynAck] and its checks. *)
Definition run_open (network_id : Z) (observed : bytes) : io (result (Ack * BzzAddress) HandshakeError) :=
  let* _ := io_map_err HsFrame (write_message (mkSyn observed)) in
  let* synack := io_map_err HsFrame (read_message SynAck) in
  match sa_ack synack with
  | None => Ret (Err MissingAck)
  | Some their_ack =>
      match ack_address their_ack with
      | None => Ret (Err MissingAddress)
      | Some their_addr =>
          if negb (ack_network_id their_ack =? network_id) then Ret (Err (NetworkIdMismatch network_id (ack_network_id their_ack)))
          else Ret (Ok (their_ack, their_addr))
      end
  end.

(** The end of [fn run]: what is made of the peer's record. *)
Definition pad_to (n : nat) (b : bytes) : bytes := if Nat.eqb (length b) n then b else replicate n 0.
Definition peer_result (network_id : Z) (version : HsVersion) (their_ack : Ack) (their_addr : BzzAddress)
    (underlay sig : bytes) (ts : Z) : result HandshakeResult HandshakeError :=
  if negb (Nat.eqb (length (ba_overlay their_addr)) 32) then Err MissingAddress
  else
    let '(nonce, timestamp, chequebook) :=
      match version with
      | V14 => (ack_nonce their_ack, 0, zero_chequebook)
      | V15 => (ba_nonce their_addr, ba_timestamp their_addr, pad_to 20 (ba_chequebook_address their_addr))
      end in
    let eth :=
      match version with
      | V14 => recover_eth_address_from_handshake (ba_underlay their_addr) (ba_overlay their_addr) network_id (ba_signature their_addr)
      | V15 => recover_eth_address_from_handshake_v15 (ba_underlay their_addr) (ba_overlay their_addr) network_id (pad_to 32 nonce)
                 timestamp chequebook (ba_signature their_addr)
      end in
    Ok (mkHandshakeResult (ba_overlay their_addr) (ba_underlay their_addr) (ba_signature their_addr) (ack_full_node their_ack) nonce
          timestamp chequebook (match eth with Ok a => Some a | Err _ => None end) underlay sig ts version).

(** [fn run]: the dialler; the signer after the call and the result. *)
Definition run_finish (s : SwarmSigner) (network_id : Z) (advertised : option bytes) (our_peer_id : str) (our_full_node : bool)
    (version : HsVersion) (now : Z) (r : result (Ack * BzzAddress) HandshakeError)
    : io (SwarmSigner * result HandshakeResult HandshakeError) :=
  match r with
  | Err e => Ret (s, Err e)
  | Ok (their_ack, their_addr) =>
      let underlay := match advertised with Some ma => ma | None => client_loopback_underlay our_peer_id end in
      let '(s', record) := own_address s version now underlay in
      match record with
      | Err e => Ret (s', Err (HsSigner e))
      | Ok (ts, addr) =>
          if match version with V14 => false | V15 => ts <=? 0 end then Ret (s', Err (TimestampInvalid ts))
          else
            io_bind (io_map_err HsFrame (write_message (mkAck (Some addr) network_id our_full_node (s_nonce s) []))) (fun r =>
              Ret (s', let? _ := r in peer_result network_id version their_ack their_addr underlay (ba_signature addr) ts))
      end
  end.
Definition run (s : SwarmSigner) (network_id : Z) (observed : bytes) (advertised : option bytes) (our_peer_id : str)
    (our_full_node : bool) (version : HsVersion) (now : Z) : io (SwarmSigner * result HandshakeResult HandshakeError) :=
  io_bind (run_open network_id observed) (run_finish s network_id advertised our_peer_id our_full_node version now).

(** [transport::respond_to_handshake]: the listener. *)
Definition respond_to_handshake (s : SwarmSigner) (advertised : option bytes) (our_peer_id remote_peer_id : str) (full_node : bool)
    (version : HsVersion) (now : Z) : io (SwarmSigner * result unit HandshakeError) :=
  io_bind (io_map_err HsFrame (read_message Syn)) (fun r =>
    match r with
    | Err e => Ret (s, Err e)
    | Ok _ =>
        let underlay := match advertised with Some ma => ma | None => multiaddr_bytes (lit "/ip4/127.0.0.1/tcp/1634/p2p/" ++ our_peer_id) end in
        let peer_observed := multiaddr_bytes (lit "/ip4/0.0.0.0/tcp/0/p2p/" ++ remote_peer_id) in
        let '(s', record) := own_address s version now underlay in
        match record with
        | Err e => Ret (s', Err (HsSigner e))
        | Ok (_, addr) =>
            let synack := mkSynAck (Some (mkSyn peer_observed)) (Some (mkAck (Some addr) (s_network_id s) full_node (s_nonce s) [])) in
            io_bind (let* _ := io_map_err HsFrame (write_message synack) in
                     let* _ := io_map_err HsFrame (read_message Ack) in
                     Ret (Ok tt)) (fun r => Ret (s', r))
        end
    end).
End Handshake.

(** ** Properties *)

Section HandshakeProps.
Context (sign_eip191 : SwarmSigner -> bytes -> result bytes SignerError).
Context `{BeeMessagesLaws, MessageLaws Syn, MessageLaws Ack, MessageLaws SynAck, Crypto} (multiaddr_bytes : str -> bytes).

(** Signing and recovery fit together: a signature recovers its signer's account. *)
Definition signatures_recover : Prop := forall s payload sig,
  sign_eip191 s payload = Ok sig -> recover_eth_from_eip191 payload sig = Ok (s_eth_address s).

(** A signer's cache holds signatures it made. *)
Definition cache_ok (s : SwarmSigner) : Prop := forall u cb ts sig,
  handshake_cache_v15 s !! (u, cb) = Some (ts, sig) -> sign_handshake_v15 sign_eip191 s u (s_nonce s) ts cb = Ok sig.

(** The same identity, whatever the cache. *)
Definition same_identity (s s' : SwarmSigner) : Prop :=
  s_overlay s' = s_overlay s /\ s_eth_address s' = s_eth_address s /\ s_nonce s' = s_nonce s /\ s_network_id s' = s_network_id s.

Lemma cached_spec s now u cb s' ts sig : cache_ok s -> sign_handshake_v15_cached sign_eip191 s now u cb = (s', Ok (ts, sig)) ->
  sign_handshake_v15 sign_eip191 s u (s_nonce s) ts cb = Ok sig /\ same_identity s s' /\
  forall now', sign_handshake_v15_cached sign_eip191 s' now' u cb = (s', Ok (ts, sig)).
Proof.
  intros Hc. unfold sign_handshake_v15_cached. destruct (handshake_cache_v15 s !! (u, cb)) as [[ts0 sig0]|] eqn:E.
  - intros [= <- <- <-]. split_and!; [by apply Hc|done|]. intros now'. by rewrite E.
  - destruct (sign_handshake_v15 sign_eip191 s u (s_nonce s) now cb) as [sig0|] eqn:Es; [|done]. intros [= <- <- <-].
    split_and!; [done..|]. intros now'. cbn [handshake_cache_v15]. by rewrite lookup_insert_eq.
Qed.

(** A record of ours, read by a peer of our network: it recovers our account. *)
Lemma own_record_recovers s version now u s' ts addr ours sig0 ts0 full nonce0 : signatures_recover -> cache_ok s ->
  length (s_overlay s) = 32%nat -> length (s_nonce s) = 32%nat ->
  own_address sign_eip191 s version now u = (s', Ok (ts, addr)) ->
  nonce0 = s_nonce s ->
  peer_result (s_network_id s) version (mkAck (Some addr) (s_network_id s) full nonce0 []) addr ours sig0 ts0 =
  Ok (mkHandshakeResult (s_overlay s) u (ba_signature addr) full (s_nonce s) ts zero_chequebook (Some (s_eth_address s)) ours sig0 ts0 version).
Proof.
  intros Hsign Hc Hl Hn Hown ->. unfold own_address in Hown. destruct version.
  - destruct (sign_handshake sign_eip191 s u) as [sig|] eqn:Es; [|done]. cbn in Hown. injection Hown as <- <- <-.
    unfold peer_result. cbn [ba_overlay ba_underlay ba_signature ack_nonce ack_full_node]. rewrite Hl. cbn [Nat.eqb negb].
    unfold recover_eth_address_from_handshake. by rewrite (Hsign _ _ _ Es).
  - destruct (sign_handshake_v15_cached sign_eip191 s now u zero_chequebook) as [s1 [[ts1 sig]|]] eqn:Es; [|done]. cbn [result_bind] in Hown. injection Hown as <- <- <-.
    apply cached_spec in Es as (Es & _ & _); [|done]. unfold peer_result.
    cbn [ba_overlay ba_underlay ba_signature ba_nonce ba_timestamp ba_chequebook_address ack_full_node]. rewrite Hl. cbn [Nat.eqb negb].
    change (pad_to 20 zero_chequebook) with zero_chequebook. unfold pad_to. rewrite Hn. cbn [Nat.eqb].
    unfold recover_eth_address_from_handshake_v15. by rewrite (Hsign _ _ _ Es).
Qed.

Section Exchange.
Context (c s c' s' : SwarmSigner) (network_id : Z) (observed uc us : bytes) (cpid spid rpid : str) (cfull sfull : bool)
  (version : HsVersion) (cnow snow cts sts : Z) (caddr saddr : BzzAddress).
Context (Hown_s : own_address sign_eip191 s version snow us = (s', Ok (sts, saddr))).
Let syn : Syn := mkSyn observed.
Let sack : Ack := mkAck (Some saddr) (s_network_id s) sfull (s_nonce s) [].
Let synack : SynAck := mkSynAck (Some (mkSyn (multiaddr_bytes (lit "/ip4/0.0.0.0/tcp/0/p2p/" ++ rpid)))) (Some sack).
Let cack : Ack := mkAck (Some caddr) network_id cfull (s_nonce c) [].
Context (Fsyn : fits syn) (Fsynack : fits synack) (Fcack : fits cack).

Let dial := run sign_eip191 multiaddr_bytes c network_id observed (Some uc) cpid cfull version cnow.
Let listen := respond_to_handshake sign_eip191 multiaddr_bytes s (Some us) spid rpid sfull version snow.

(** What the dialler makes of the answer. *)
Let check (m : SynAck) : io (result (Ack * BzzAddress) HandshakeError) :=
  match sa_ack m with
  | None => Ret (Err MissingAck)
  | Some their_ack =>
      match ack_address their_ack with
      | None => Ret (Err MissingAddress)
      | Some their_addr =>
          if negb (ack_network_id their_ack =? network_id) then Ret (Err (NetworkIdMismatch network_id (ack_network_id their_ack)))
          else Ret (Ok (their_ack, their_addr))
      end
  end.
Let opened := io_try (io_map_err HsFrame (read_message SynAck)) check.

Lemma dial_opens k : go (io_bind (run_open network_id observed) k) [] false false =
  (mkSide (io_bind opened k) [] false, encode_length_delimited syn) :> Side (SwarmSigner * result HandshakeResult HandshakeError) * bytes.
Proof.
  rewrite go_bind. unfold run_open. rewrite go_write_next. fold check. fold opened. simpl. by rewrite app_nil_r.
Qed.

Let swait := io_bind (io_try (io_map_err HsFrame (read_message Ack)) (fun _ => Ret (Ok tt))) (fun r => Ret (s', r)).

Lemma listen_answers : go listen (encode_length_delimited syn) false false =
  (mkSide swait [] false, encode_length_delimited synack) :> Side (SwarmSigner * result unit HandshakeError) * bytes.
Proof.
  unfold listen, respond_to_handshake. rewrite go_bind, go_map_read_all by done. cbn [prog inbox closed]. rewrite Hown_s.
  rewrite go_bind, go_write_next. simpl. by rewrite app_nil_r.
Qed.

Lemma handshake_ends : network_id = s_network_id s -> own_address sign_eip191 c version cnow uc = (c', Ok (cts, caddr)) ->
  (version = V15 -> 0 < cts) ->
  forall res, peer_result network_id version sack saddr uc (ba_signature caddr) cts = res ->
  always_ends (start dial listen) (c', res) (s', Ok tt).
Proof.
  intros Hnet Hown Hts res Hres. set (k := run_finish sign_eip191 multiaddr_bytes c network_id (Some uc) cpid cfull version cnow).
  assert (C2 : forall eof, go (io_bind opened k) (encode_length_delimited synack) false eof =
    (mkSide (Ret (c', res)) [] false, encode_length_delimited cack)).
  { intros eof. unfold opened. rewrite go_bind, go_read_next by done. unfold check. cbn [sa_ack synack sack ack_address ack_network_id].
    rewrite (proj2 (Z.eqb_eq _ _) (eq_sym Hnet)). cbn [negb go prog inbox closed app]. unfold k, run_finish. rewrite Hown.
    assert (match version with V14 => false | V15 => cts <=? 0 end = false) as ->.
    { destruct version; [done|]. apply Z.leb_gt. by apply Hts. }
    rewrite go_bind, go_map_write. cbn [prog inbox closed go app]. fold sack. cbn [result_bind]. rewrite Hres. by rewrite app_nil_r. }
  assert (S2 : go swait (encode_length_delimited cack) false true = (mkSide (Ret (s', Ok tt)) [] false, [])).
  { unfold swait. rewrite go_bind, go_read_next by done. reflexivity. }
  assert (E : rounds 2 (start dial listen) = mkDuplex (mkSide (Ret (c', res)) [] false) (mkSide (Ret (s', Ok tt)) [] false)).
  { cbn [rounds]. unfold start. erewrite round_eq by (first [apply dial_opens|exact listen_answers]).
    erewrite round_eq by (first [apply C2|exact S2]). done. }
  by apply (rounds_end 2); rewrite E.
Qed.

Lemma handshake_mismatch : network_id <> s_network_id s ->
  always_ends (start dial listen) (c, Err (NetworkIdMismatch network_id (s_network_id s)))
    (s', Err (HsFrame (Io (lit "unexpected end of file")))).
Proof.
  intros Hnet. set (k := run_finish sign_eip191 multiaddr_bytes c network_id (Some uc) cpid cfull version cnow).
  assert (C2 : forall eof, go (io_bind opened k) (encode_length_delimited synack) false eof =
    (mkSide (Ret (c, Err (NetworkIdMismatch network_id (s_network_id s)))) [] false, [])).
  { intros eof. unfold opened. rewrite go_bind, go_read_next by done. unfold check. cbn [sa_ack synack sack ack_address ack_network_id].
    destruct (Z.eqb_spec (s_network_id s) network_id); [congruence|]. done. }
  assert (E : rounds 2 (start dial listen) = mkDuplex (mkSide (Ret (c, Err (NetworkIdMismatch network_id (s_network_id s)))) [] false)
    (mkSide (Ret (s', Err (HsFrame (Io (lit "unexpected end of file"))))) [] false)).
  { cbn [rounds]. unfold start. erewrite round_eq by (first [apply dial_opens|exact listen_answers]).
    erewrite round_eq by (first [apply C2|reflexivity]). done. }
  by apply (rounds_end 2); rewrite E.
Qed.
End Exchange.

Lemma record_stable s s' version now u ts addr : cache_ok s -> own_address sign_eip191 s version now u = (s', Ok (ts, addr)) ->
  forall now', own_address sign_eip191 s' version now' u = (s', Ok (ts, addr)).
Proof.
  intros Hc Hown now'. unfold own_address in *. destruct version.
  - destruct (sign_handshake sign_eip191 s u) as [sig|] eqn:Es; [|done]. cbn [result_bind] in Hown. injection Hown as <- <- <-. by rewrite Es.
  - destruct (sign_handshake_v15_cached sign_eip191 s now u zero_chequebook) as [s1 [[ts1 sig]|]] eqn:Es; [|done].
    cbn [result_bind] in Hown. injection Hown as <- <- <-. apply cached_spec in Es as (_ & (Eo & _ & En & _) & Hst); [|done].
    rewrite Hst. cbn [result_bind]. by rewrite Eo, En.
Qed.

(** C31: Two nodes of one network complete the handshake in every interleaving, in
    either version, and the dialler learns the listener's overlay, underlay, nonce and
    node mode, and from its signature the listener's account.  With different networks
    the dialler stops with the mismatch and the listener sees the stream end.  The
    record a node presents does not change afterwards, whatever the clock says. *)
Theorem bee_handshake_completes c s c' s' network_id observed uc us cpid spid rpid cfull sfull version cnow snow cts sts caddr saddr :
  signatures_recover -> cache_ok s -> length (s_overlay s) = 32%nat -> length (s_nonce s) = 32%nat ->
  own_address sign_eip191 s version snow us = (s', Ok (sts, saddr)) ->
  own_address sign_eip191 c version cnow uc = (c', Ok (cts, caddr)) -> (version = V15 -> 0 < cts) ->
  fits (mkSyn observed) ->
  fits (mkSynAck (Some (mkSyn (multiaddr_bytes (lit "/ip4/0.0.0.0/tcp/0/p2p/" ++ rpid))))
          (Some (mkAck (Some saddr) (s_network_id s) sfull (s_nonce s) []))) ->
  fits (mkAck (Some caddr) network_id cfull (s_nonce c) []) ->
  let dial := run sign_eip191 multiaddr_bytes c network_id observed (Some uc) cpid cfull version cnow in
  let listen := respond_to_handshake sign_eip191 multiaddr_bytes s (Some us) spid rpid sfull version snow in
  (network_id = s_network_id s -> always_ends (start dial listen)
    (c', Ok (mkHandshakeResult (s_overlay s) us (ba_signature saddr) sfull (s_nonce s) sts zero_chequebook (Some (s_eth_address s))
               uc (ba_signature caddr) cts version)) (s', Ok tt)) /\
  (network_id <> s_network_id s -> always_ends (start dial listen)
    (c, Err (NetworkIdMismatch network_id (s_network_id s))) (s', Err (HsFrame (Io (lit "unexpected end of file"))))) /\
  (forall now, own_address sign_eip191 s' version now us = (s', Ok (sts, saddr))).
Proof.
  intros Hsign Hc Hl Hn Hs Hcl Hts F1 F2 F3 dial listen. split_and!.
  - intros Hnet. unfold dial, listen. eapply (handshake_ends c s c' s' network_id observed uc us cpid spid rpid cfull sfull version cnow snow cts sts caddr saddr); try done.
    rewrite Hnet. by apply (own_record_recovers s version snow us s').
  - intros Hnet. by apply (handshake_mismatch c s s' network_id observed uc us cpid spid rpid cfull sfull version cnow snow sts saddr).
  - by apply (record_stable s s' version snow us).
Qed.
End HandshakeProps.

(** ** Two concrete nodes *)

Module BeeHandshakeWitness.
Import ProtocolsWitness.
Instance bzz_address_eq : EqDecision BzzAddress.
Proof. solve_decision. Defined.
Instance bzz_address_countable : Countable BzzAddress.
Proof.
  apply (inj_countable' (fun x => (ba_underlay x, ba_signature x, ba_overlay x, ba_nonce x, ba_timestamp x, ba_chequebook_address x))
    (fun '(a, b, c, d, e, f) => mkBzzAddress a b c d e f)). by intros [].
Defined.
Instance syn_eq : EqDecision Syn.
Proof. solve_decision. Defined.
Instance syn_countable : Countable Syn.
Proof. apply (inj_countable' observed_underlay mkSyn). by intros []. Defined.
Instance ack_eq : EqDecision Ack.
Proof. solve_decision. Defined.
Instance ack_countable : Countable Ack.
Proof.
  apply (inj_countable' (fun x => (ack_address x, ack_network_id x, ack_full_node x, ack_nonce x, welcome_message x))
    (fun '(a, b, c, d, e) => mkAck a b c d e)). by intros [].
Defined.
Instance synack_eq : EqDecision SynAck.
Proof. solve_decision. Defined.
Instance synack_countable : Countable SynAck.
Proof. apply (inj_countable' (fun x => (sa_syn x, sa_ack x)) (fun '(a, b) => mkSynAck a b)). by intros []. Defined.

(** One key pair: every signature recovers the same account, which alone can sign. *)
Definition account : bytes := replicate 20 7.
Definition one_account : Crypto := {|
  keccak256 := @keccak256 toy_crypto;
  alloy_sig_parse := fun _ => Ok tt;
  recover_point := fun _ _ _ => Ok (4 :: replicate 12 0 ++ account ++ replicate 32 0);
  hash_challenge := fun _ _ => [];
  hash_cheque := fun _ _ => [] |}.
Definition demo_sign (s : SwarmSigner) (payload : bytes) : result bytes SignerError :=
  if bool_decide (s_eth_address s = account) then Ok (replicate 64 1 ++ [27]) else Err (Alloy (lit "no key")).
Definition node (b : Z) : SwarmSigner := mkSwarmSigner (replicate 32 b) account (replicate 32 (b + 1)) 1 ∅.

Lemma bee_handshake_completes_witness :
  exists res, always_ends
    (start (run demo_sign id (H0 := plain_message) (H1 := plain_message) (H2 := plain_message) (H3 := one_account)
              (node 1) 1 [9] (Some [4]) [] true V15 100)
           (respond_to_handshake demo_sign id (H0 := plain_message) (H1 := plain_message) (H2 := plain_message)
              (node 5) (Some [6]) [] [] true V15 200)) res (mkSwarmSigner (replicate 32 5) account (replicate 32 6) 1
        {[ ([6], zero_chequebook) := (200, replicate 64 1 ++ [27]) ]}, Ok tt).
Proof.
  eexists.
  apply (bee_handshake_completes demo_sign (H1 := plain_message) (H2 := plain_message_laws)
    (H3 := plain_message) (H4 := plain_message_laws) (H5 := plain_message) (H6 := plain_message_laws) (H7 := one_account) id
    (node 1) (node 5) (mkSwarmSigner (replicate 32 1) account (replicate 32 2) 1 {[ ([4], zero_chequebook) := (100, replicate 64 1 ++ [27]) ]})
    (mkSwarmSigner (replicate 32 5) account (replicate 32 6) 1 {[ ([6], zero_chequebook) := (200, replicate 64 1 ++ [27]) ]}) 1 [9] [4] [6] [] [] [] true true V15 100 200 100 200
    (mkBzzAddress [4] (replicate 64 1 ++ [27]) (replicate 32 1) (replicate 32 2) 100 zero_chequebook)
    (mkBzzAddress [6] (replicate 64 1 ++ [27]) (replicate 32 5) (replicate 32 6) 200 zero_chequebook)).
  - intros s payload sig. unfold demo_sign. case_bool_decide as E; [|done]. intros [= <-]. rewrite E. reflexivity.
  - intros u cb ts sig. cbn. by rewrite lookup_empty.
  - reflexivity.
  - reflexivity.
  - vm_compute. reflexivity.
  - vm_compute. reflexivity.
  - lia.
  - vm_compute. discriminate.
  - vm_compute. discriminate.
  - vm_compute. discriminate.
  - reflexivity.
Defined.
End BeeHandshakeWitness.
