(* ===== verification/Manifest.v ===== *)
(** * Manifests ([src/src/manifest.rs] and the walks of [src/src/client.rs])

    The decoder of a mantaray node and what the client does with nodes: looking up
    a path, listing every entry, finding feed and index metadata.

    Parameters: [from_slice], the JSON parser of a metadata map; [store], the
    payload of the chunk at an address; [lossy], the conversion of path bytes to a
    string for display.  A [BTreeMap] keyed by a byte is the list of its entries in
    the order of the keys.  [None] where a decoder's result is optional is a panic
    of the source (a slice out of range).  The texts of [ClientError::Manifest] are
    kept as the values they print. *)
From Stdlib Require Import ZArith Lia.
From stdpp Require Import base tactics numbers countable strings list gmap.
From S2P Require Import Prelude Codec.
Local Open Scope Z_scope.
Local Open Scope hov_scope.

Definition OBFUSCATION_KEY_SIZE : nat := 32.
Definition VERSION_HASH_SIZE : nat := 31.
Definition NODE_HEADER_SIZE : nat := OBFUSCATION_KEY_SIZE + VERSION_HASH_SIZE + 1.
Definition FORK_PRE_REF_SIZE : nat := 32.
Definition FORK_REF_SIZE : nat := 32.
Definition INDEX_SIZE : nat := 32.

Definition VERSION_HASH_V01 : bytes :=
  [0x02; 0x51; 0x84; 0x78; 0x9d; 0x63; 0x63; 0x57; 0x66; 0xd7; 0x8c; 0x41; 0x90; 0x01; 0x96; 0xb5;
   0x7d; 0x74; 0x00; 0x87; 0x5e; 0xbe; 0x4d; 0x9b; 0x5d; 0x1e; 0x76; 0xbd; 0x96; 0x52; 0xa9].
Definition VERSION_HASH_V02 : bytes :=
  [0x57; 0x68; 0xb3; 0xb6; 0xa7; 0xdb; 0x56; 0xd2; 0x1d; 0x1a; 0xbf; 0xf4; 0x0d; 0x41; 0xce; 0xbf;
   0xc8; 0x34; 0x48; 0xfe; 0xd8; 0xd7; 0xe9; 0xb0; 0x6e; 0xc0; 0xd3; 0xb0; 0x73; 0xf2; 0x8f].
Definition NT_METADATA : Z := 16.

(** [enum ManifestError] (the variants the decoder returns). *)
Inductive ManifestError :=
| TooShort (expected actual : nat) | InvalidVersion | UnsupportedRefSize (n : Z)
| InvalidPrefixLength (n : Z) | Metadata (msg : str).

(** [struct Fork] and [struct Node]. *)
Record Fork := mkFork { node_type : Z; prefix : bytes; reference : bytes; metadata : gmap str str }.
Record Node := mkNode { entry : option bytes; forks : list (Z * Fork) }.

(** Slices and [slice::rposition]. *)
Definition slice (d : bytes) (from len : nat) : bytes := take len (drop from d).
Fixpoint rposition (p : Z -> bool) (b : bytes) : option nat :=
  match b with
  | [] => None
  | x :: b' => match rposition p b' with Some i => Some (S i) | None => if p x then Some 0%nat else None end
  end.

(** [fn trim_padding]. *)
Definition trim_padding (b : bytes) : bytes :=
  take (match rposition (fun x => negb (x =? 10)) b with Some i => S i | None => 0%nat end) b.

(** The obfuscation: everything after the key is combined with it. *)
Fixpoint xor_from (key : bytes) (i : nat) (d : bytes) : bytes :=
  match d with [] => [] | b :: d' => Z.lxor b (key !!! (i mod OBFUSCATION_KEY_SIZE)%nat) :: xor_from key (S i) d' end.
Definition deobfuscate (payload : bytes) : bytes :=
  let key := take OBFUSCATION_KEY_SIZE payload in key ++ xor_from key 0 (drop OBFUSCATION_KEY_SIZE payload).

Section Decode.
Context (from_slice : bytes -> result (gmap str str) str).

(** The metadata of a fork at [offset]; the offset after it. *)
Definition decode_metadata (data : bytes) (node_type : Z) (offset : nat) : result (gmap str str * nat) ManifestError :=
  if Z.land node_type NT_METADATA =? 0 then Ok (∅, offset)
  else if Nat.ltb (length data) (offset + 2) then Err (TooShort (offset + 2) (length data))
  else
    let mlen := Z.to_nat (from_be_bytes (slice data offset 2)) in
    let offset := (offset + 2)%nat in
    if Nat.ltb (length data) (offset + mlen) then Err (TooShort (offset + mlen) (length data))
    else
      let? m := map_err Metadata (from_slice (trim_padding (slice data offset mlen))) in
      Ok (m, (offset + mlen)%nat).

(** One fork at [offset]; the offset after it. *)
Definition decode_fork (data : bytes) (offset : nat) : result (Fork * nat) ManifestError :=
  let need := (offset + FORK_PRE_REF_SIZE + FORK_REF_SIZE)%nat in
  if Nat.ltb (length data) need then Err (TooShort need (length data))
  else
    let node_type := data !!! offset in
    let prefix_len := data !!! S offset in
    if (prefix_len =? 0) || (30 <? prefix_len) then Err (InvalidPrefixLength prefix_len)
    else
      let prefix := slice data (offset + 2) (Z.to_nat prefix_len) in
      let offset := (offset + FORK_PRE_REF_SIZE)%nat in
      let reference := slice data offset FORK_REF_SIZE in
      let offset := (offset + FORK_REF_SIZE)%nat in
      let? (metadata, offset) := decode_metadata data node_type offset in
      Ok (mkFork node_type prefix reference metadata, offset).

(** The loop over the bytes whose bit is set. *)
Definition bit_set (bitfield : bytes) (b : nat) : bool := Z.testbit (bitfield !!! (b / 8)%nat) (Z.of_nat (b mod 8)).
Fixpoint decode_forks (data bitfield : bytes) (bs : list nat) (offset : nat) : result (list (Z * Fork)) ManifestError :=
  match bs with
  | [] => Ok []
  | b :: bs' =>
      if bit_set bitfield b then
        let? (fork, offset) := decode_fork data offset in
        let? rest := decode_forks data bitfield bs' offset in
        Ok ((Z.of_nat b, fork) :: rest)
      else decode_forks data bitfield bs' offset
  end.

(** [fn decode_node]; [None] is a panic. *)
Definition decode_node (payload : bytes) : option (result Node ManifestError) :=
  if Nat.ltb (length payload) NODE_HEADER_SIZE then Some (Err (TooShort NODE_HEADER_SIZE (length payload)))
  else
    let data := deobfuscate payload in
    let version_hash := slice data OBFUSCATION_KEY_SIZE VERSION_HASH_SIZE in
    if negb (bool_decide (version_hash = VERSION_HASH_V01)) && negb (bool_decide (version_hash = VERSION_HASH_V02))
    then Some (Err InvalidVersion)
    else
      let ref_size := data !!! (OBFUSCATION_KEY_SIZE + VERSION_HASH_SIZE)%nat in
      if negb (ref_size =? 0) && negb (ref_size =? Z.of_nat FORK_REF_SIZE) then Some (Err (UnsupportedRefSize ref_size))
      else
        let n := Z.to_nat ref_size in
        if Nat.ltb (length data) (NODE_HEADER_SIZE + n) then None
        else
          let entry_bytes := slice data NODE_HEADER_SIZE n in
          let entry :=
            if 0 <? ref_size then if forallb (fun b => b =? 0) entry_bytes then None else Some entry_bytes else None in
          let offset := (NODE_HEADER_SIZE + n)%nat in
          if Nat.ltb (length data) (offset + INDEX_SIZE) then Some (Err (TooShort (offset + INDEX_SIZE) (length data)))
          else
            let bitfield := slice data offset INDEX_SIZE in
            Some (let? forks := decode_forks data bitfield (seq 0 256) (offset + INDEX_SIZE) in Ok (mkNode entry forks)).
End Decode.

(** ** Metadata of a node *)

Definition ENTRY_METADATA_CONTENT_TYPE_KEY : str := lit "Content-Type".
Definition ENTRY_METADATA_FILENAME_KEY : str := lit "Filename".
Definition WEBSITE_INDEX_DOCUMENT_SUFFIX_KEY : str := lit "website-index-document".
Definition WEBSITE_ERROR_DOCUMENT_PATH_KEY : str := lit "website-error-document".
Definition FEED_OWNER_KEY : str := lit "swarm-feed-owner".
Definition FEED_TOPIC_KEY : str := lit "swarm-feed-topic".
Definition FEED_TYPE_KEY : str := lit "swarm-feed-type".

(** [fn extract_feed_meta]. *)
Definition fork_feed_meta (f : Fork) : option (str * str * str) :=
  match metadata f !! FEED_OWNER_KEY, metadata f !! FEED_TOPIC_KEY with
  | Some owner, Some topic => Some (owner, topic, default (lit "sequence") (metadata f !! FEED_TYPE_KEY))
  | _, _ => None
  end.
Fixpoint find_map {A B} (g : A -> option B) (xs : list A) : option B :=
  match xs with [] => None | x :: xs' => match g x with Some y => Some y | None => find_map g xs' end end.
Definition extract_feed_meta (node : Node) : option (str * str * str) := find_map (fun bf => fork_feed_meta bf.2) (forks node).

(** [fn extract_index_document]. *)
Definition fork_index (f : Fork) : option str :=
  match metadata f !! WEBSITE_INDEX_DOCUMENT_SUFFIX_KEY with Some (c :: s) => Some (c :: s) | _ => None end.
Fixpoint fork_get (b : Z) (fs : list (Z * Fork)) : option Fork :=
  match fs with [] => None | (k, f) :: fs' => if k =? b then Some f else fork_get b fs' end.
Definition extract_index_document (node : Node) : option str :=
  match fork_get 47 (forks node) with
  | Some f => match fork_index f with Some i => Some i | None => find_map (fun bf => fork_index bf.2) (forks node) end
  | None => find_map (fun bf => fork_index bf.2) (forks node)
  end.

(** ** Walks *)

(** The failures of the walks; [WalkPanic] is a panic of the decoder. *)
Inductive WalkError :=
| FetchNode (addr : bytes) (e : str) | DecodeNode (e : ManifestError) | NoEntry (path : bytes)
| NoFork (path : bytes) | PrefixMismatch (path : bytes) | WalkPanic.

(** [struct ManifestEntry]. *)
Record ManifestEntry := mkManifestEntry { me_path : str; me_reference : str; me_content_type : option str }.

Section Walk.
Context (from_slice : bytes -> result (gmap str str) str) (store : bytes -> result bytes str).

(** Fetch and decode, as both walks do at every node. *)
Definition get_node (addr : bytes) : result Node WalkError :=
  match store addr with
  | Err e => Err (FetchNode addr e)
  | Ok d => match decode_node from_slice d with None => Err WalkPanic | Some (Err e) => Err (DecodeNode e) | Some (Ok n) => Ok n end
  end.

(** [fn lookup_manifest_path]: the loop, on fuel. *)
Fixpoint lookup_loop (fuel : nat) (path current remaining : bytes) (ct : option str) (redirected : bool)
    : option (result (bytes * option str) WalkError) :=
  match fuel with
  | O => None
  | S fuel' =>
      match get_node current with
      | Err e => Some (Err e)
      | Ok node =>
          match remaining with
          | [] =>
              match entry node with
              | Some addr => Some (Ok (addr, ct))
              | None =>
                  if redirected then Some (Err (NoEntry path))
                  else match extract_index_document node with
                       | Some idx => lookup_loop fuel' path current idx ct true
                       | None => Some (Err (NoEntry path))
                       end
              end
          | first :: _ =>
              match fork_get first (forks node) with
              | None => Some (Err (NoFork path))
              | Some fork =>
                  match strip_prefix (prefix fork) remaining with
                  | None => Some (Err (PrefixMismatch path))
                  | Some rest =>
                      let ct := match metadata fork !! ENTRY_METADATA_CONTENT_TYPE_KEY with Some c => Some c | None => ct end in
                      lookup_loop fuel' path (reference fork) rest ct redirected
                  end
              end
          end
      end
  end.
Definition lookup_manifest_path (fuel : nat) (root path : bytes) : option (result (bytes * option str) WalkError) :=
  lookup_loop fuel path root path None false.

(** [fn walk_manifest]: depth first, in the order of the forks; [None] is out of fuel. *)
Context `{Hex} (lossy : bytes -> str).

Definition visit_fork (W : bytes -> bytes -> option (result (list ManifestEntry) WalkError)) (path_so_far : bytes)
    (acc : option (result (list ManifestEntry) WalkError)) (bf : Z * Fork) : option (result (list ManifestEntry) WalkError) :=
  match acc with
  | Some (Ok out) =>
      match W (reference bf.2) (path_so_far ++ prefix bf.2) with Some (Ok more) => Some (Ok (out ++ more)) | r => r end
  | _ => acc
  end.

Fixpoint walk_manifest (fuel : nat) (addr path_so_far : bytes) : option (result (list ManifestEntry) WalkError) :=
  match fuel with
  | O => None
  | S fuel' =>
      match get_node addr with
      | Err e => Some (Err e)
      | Ok node =>
          let own := match entry node with Some a => [mkManifestEntry (lossy path_so_far) (hex_encode a) None] | None => [] end in
          foldl (visit_fork (walk_manifest fuel') path_so_far) (Some (Ok own)) (forks node)
      end
  end.
End Walk.
