(* ===== verification/ManifestProps.v ===== *)
(** * What the manifest decoder and the walks guarantee

    The decoder against the node layout it reads, written as a reference encoder;
    the walks against the tree of nodes they traverse. *)
From Stdlib Require Import ZArith Lia.
From stdpp Require Import base tactics numbers countable strings list gmap sorting.
From S2P Require Import Prelude Codec Manifest.
Local Open Scope Z_scope.
Local Open Scope hov_scope.

(** ** The layout of a node *)

(** A byte from its bits, the lowest first. *)
Fixpoint pack (bs : list bool) : Z := match bs with [] => 0 | b :: bs' => 2 * pack bs' + Z.b2z b end.

Lemma pack_testbit bs j : Z.testbit (pack bs) (Z.of_nat j) = nth j bs false.
Proof.
  revert j. induction bs as [|b bs IH]; intros j; cbn [pack]; [rewrite Z.bits_0; by destruct j|].
  destruct j as [|j]; [apply Z.testbit_0_r|]. rewrite Nat2Z.inj_succ, Z.testbit_succ_r by lia. apply IH.
Qed.

(** The index of the bytes that have a fork. *)
Definition bitfield_of (keys : list nat) : bytes :=
  map (fun i => pack (map (fun j => bool_decide ((8 * i + j)%nat ∈ keys)) (seq 0 8))) (seq 0 INDEX_SIZE).

Lemma bitfield_length keys : length (bitfield_of keys) = INDEX_SIZE.
Proof. unfold bitfield_of. by rewrite length_map, length_seq. Qed.

Lemma bit_set_of keys b : (b < 256)%nat -> bit_set (bitfield_of keys) b = bool_decide (b ∈ keys).
Proof.
  intros Hb. unfold bit_set, bitfield_of.
  assert (Hi : (b / 8 < INDEX_SIZE)%nat) by (unfold INDEX_SIZE; apply Nat.Div0.div_lt_upper_bound; lia).
  rewrite (list_lookup_total_correct _ _ (pack (map (fun j => bool_decide ((8 * (b / 8) + j)%nat ∈ keys)) (seq 0 8)))).
  2: { change (map ?f ?x) with (f <$> x). rewrite list_lookup_fmap, lookup_seq_lt by done. done. }
  pose proof (Nat.mod_upper_bound b 8 ltac:(lia)) as Hm. rewrite pack_testbit.
  rewrite (nth_indep _ _ (bool_decide ((8 * (b / 8) + 0)%nat ∈ keys))) by (rewrite length_map, length_seq; done).
  rewrite (map_nth (fun j => bool_decide ((8 * (b / 8) + j)%nat ∈ keys))), seq_nth by done.
  rewrite Nat.add_0_l, <- Nat.div_mod by lia. done.
Qed.

Section Layout.
Context (from_slice : bytes -> result (gmap str str) str).

(** A fork with the bytes its metadata is written as. *)
Record Wired := mkWired { w_key : nat; w_fork : Fork; w_meta : bytes }.

Definition has_meta (f : Fork) : bool := negb (Z.land (node_type f) NT_METADATA =? 0).
Definition encode_fork (w : Wired) : bytes :=
  let f := w_fork w in
  [node_type f; Z.of_nat (length (prefix f))] ++ prefix f ++ replicate (30 - length (prefix f)) 0 ++ reference f ++
  (if has_meta f then to_be_bytes 2 (Z.of_nat (length (w_meta w))) ++ w_meta w else []).
Definition fork_ok (w : Wired) : Prop :=
  let f := w_fork w in
  (w_key w < 256)%nat /\ (1 <= length (prefix f) <= 30)%nat /\ length (reference f) = FORK_REF_SIZE /\
  if has_meta f then Z.of_nat (length (w_meta w)) < 65536 /\ from_slice (trim_padding (w_meta w)) = Ok (metadata f)
  else metadata f = ∅.

Definition encode_body (version : bytes) (entry : option bytes) (ws : list Wired) : bytes :=
  version ++ [Z.of_nat FORK_REF_SIZE] ++ default (replicate FORK_REF_SIZE 0) entry ++ bitfield_of (map w_key ws) ++
  concat (map encode_fork ws).
Definition encode_node (key version : bytes) (entry : option bytes) (ws : list Wired) : bytes :=
  key ++ xor_from key 0 (encode_body version entry ws).

Lemma xor_from_length key i d : length (xor_from key i d) = length d.
Proof. revert i. induction d as [|b d IH]; intros i; [done|]. cbn. by rewrite IH. Qed.

Lemma xor_from_invol key i d : xor_from key i (xor_from key i d) = d.
Proof.
  revert i. induction d as [|b d IH]; intros i; [done|]. cbn. by rewrite IH, Z.lxor_assoc, Z.lxor_nilpotent, Z.lxor_0_r.
Qed.

Lemma deobfuscate_app key body : length key = OBFUSCATION_KEY_SIZE -> deobfuscate (key ++ xor_from key 0 body) = key ++ body.
Proof. intros Hk. unfold deobfuscate. rewrite take_app_length', drop_app_length' by done. by rewrite xor_from_invol. Qed.

Lemma deobfuscate_length p : (OBFUSCATION_KEY_SIZE <= length p)%nat -> length (deobfuscate p) = length p.
Proof. intros H. unfold deobfuscate. rewrite length_app, length_take, xor_from_length, length_drop. lia. Qed.

(** ** Reading what was laid out *)

Lemma slice_app pre x rest n : length pre = n -> slice (pre ++ x ++ rest) n (length x) = x.
Proof. intros Hn. unfold slice. rewrite drop_app_length' by done. by rewrite take_app_length. Qed.

Lemma decode_metadata_ok pre f raw rest n : length pre = n ->
  (if has_meta f then Z.of_nat (length raw) < 65536 /\ from_slice (trim_padding raw) = Ok (metadata f) else metadata f = ∅) ->
  let m := if has_meta f then to_be_bytes 2 (Z.of_nat (length raw)) ++ raw else [] in
  decode_metadata from_slice (pre ++ m ++ rest) (node_type f) n = Ok (metadata f, (n + length m)%nat).
Proof.
  intros Hn Hm m. unfold decode_metadata. unfold has_meta in *. subst m. destruct (Z.land (node_type f) NT_METADATA =? 0); cbn [negb] in *.
  { cbn [length]. by rewrite Hm, Nat.add_0_r. }
  destruct Hm as [Hl Hj]. set (hd := to_be_bytes 2 (Z.of_nat (length raw))) in *.
  assert (Hhd : length hd = 2%nat) by apply to_be_bytes_length.
  rewrite (proj2 (Nat.ltb_ge _ _)) by (rewrite !length_app; lia).
  assert (E1 : slice (pre ++ (hd ++ raw) ++ rest) n 2 = hd) by (rewrite <- Hhd, <- app_assoc; by apply slice_app). rewrite E1.
  assert (E2 : from_be_bytes hd = Z.of_nat (length raw)) by (apply from_to_be_bytes; change (256 ^ Z.of_nat 2) with 65536; lia).
  rewrite E2, Nat2Z.id. rewrite (proj2 (Nat.ltb_ge _ _)) by (rewrite !length_app; lia).
  assert (E3 : slice (pre ++ (hd ++ raw) ++ rest) (n + 2) (length raw) = raw).
  { rewrite <- app_assoc, (app_assoc pre hd). apply slice_app. rewrite length_app. lia. }
  rewrite E3, Hj. cbn [map_err result_bind]. rewrite length_app. do 2 f_equal. lia.
Qed.

Lemma encode_fork_length w : fork_ok w -> length (encode_fork w) =
  (64 + length (if has_meta (w_fork w) then to_be_bytes 2 (Z.of_nat (length (w_meta w))) ++ w_meta w else []))%nat.
Proof.
  intros (_ & Hp & Hr & _). unfold encode_fork. rewrite !length_app, length_replicate, Hr. cbn [length]. unfold FORK_REF_SIZE. lia.
Qed.

Lemma decode_fork_ok pre w rest n : fork_ok w -> length pre = n ->
  decode_fork from_slice (pre ++ encode_fork w ++ rest) n = Ok (w_fork w, (n + length (encode_fork w))%nat).
Proof.
  intros Hok Hn. pose proof (encode_fork_length w Hok) as Hlen. pose proof Hok as (_ & Hp & Hr & Hm).
  unfold decode_fork. unfold FORK_PRE_REF_SIZE, FORK_REF_SIZE in *.
  rewrite (proj2 (Nat.ltb_ge _ _)) by (rewrite !length_app, Hlen; lia).
  set (f := w_fork w) in *. set (m := if has_meta f then _ else _) in *.
  assert (Ed : pre ++ encode_fork w ++ rest =
    pre ++ [node_type f; Z.of_nat (length (prefix f))] ++ prefix f ++ replicate (30 - length (prefix f)) 0 ++ reference f ++ m ++ rest).
  { unfold encode_fork. fold f. fold m. by rewrite <- !app_assoc. }
  assert (E0 : (pre ++ encode_fork w ++ rest) !!! n = node_type f).
  { rewrite Ed. rewrite lookup_total_app_r by lia. by replace (n - length pre)%nat with 0%nat by lia. }
  assert (E1 : (pre ++ encode_fork w ++ rest) !!! S n = Z.of_nat (length (prefix f))).
  { rewrite Ed. rewrite lookup_total_app_r by lia. by replace (S n - length pre)%nat with 1%nat by lia. }
  rewrite E0, E1. rewrite (proj2 (Z.eqb_neq _ _)), (proj2 (Z.ltb_ge _ _)) by lia. cbn [orb]. rewrite Nat2Z.id.
  assert (E2 : slice (pre ++ encode_fork w ++ rest) (n + 2) (length (prefix f)) = prefix f).
  { rewrite Ed, (app_assoc pre). apply slice_app. rewrite length_app. cbn [length]. lia. }
  assert (E3 : slice (pre ++ encode_fork w ++ rest) (n + 32) 32 = reference f).
  { rewrite Ed, !app_assoc, <- (app_assoc _ m rest), <- (app_assoc _ (reference f)). rewrite <- Hr at 2.
    apply slice_app. rewrite !length_app, length_replicate. cbn [length]. lia. }
  assert (E4 : decode_metadata from_slice (pre ++ encode_fork w ++ rest) (node_type f) (n + 32 + 32) = Ok (metadata f, (n + 64 + length m)%nat)).
  { rewrite Ed, !app_assoc, <- (app_assoc _ m rest). replace (n + 64 + length m)%nat with (n + 32 + 32 + length m)%nat by lia.
    apply decode_metadata_ok; [|done]. rewrite !length_app, length_replicate. cbn [length]. lia. }
  rewrite E2, E3, E4. cbn [result_bind]. rewrite Hlen. destruct f. do 2 f_equal. lia.
Qed.

(** The loop reads the forks in the order of their keys. *)
Lemma decode_forks_ok keys : forall k b ws pre n, (b + k <= 256)%nat -> Forall fork_ok ws -> StronglySorted (fun a c => w_key a < w_key c)%nat ws ->
  Forall (fun w => b <= w_key w < b + k)%nat ws -> (forall x, (b <= x < b + k)%nat -> x ∈ keys <-> x ∈ map w_key ws) -> length pre = n ->
  decode_forks from_slice (pre ++ concat (map encode_fork ws)) (bitfield_of keys) (seq b k) n =
    Ok (map (fun w => (Z.of_nat (w_key w), w_fork w)) ws).
Proof.
  induction k as [|k IH]; intros b ws pre n Hb Hok Hs Hr Hk Hn.
  { destruct ws as [|w ws]; [done|]. apply Forall_cons in Hr as [Hr _]. lia. }
  cbn [seq decode_forks]. rewrite bit_set_of by lia. destruct ws as [|w ws].
  { rewrite bool_decide_eq_false_2 by (rewrite Hk by lia; apply not_elem_of_nil).
    apply (IH (S b) [] pre n); try done; [lia|]. intros x Hx. apply Hk. lia. }
  apply Forall_cons in Hok as [Hw Hok]. apply Forall_cons in Hr as [Hwr Hr]. apply StronglySorted_inv in Hs as [Hs Hgt].
  assert (Hnext : Forall (fun w' => S (w_key w) <= w_key w' < b + S k)%nat ws).
  { apply Forall_forall. intros w' Hw'. rewrite Forall_forall in Hgt, Hr. specialize (Hgt w' Hw'). specialize (Hr w' Hw'). lia. }
  destruct (decide (w_key w = b)) as [Eb|Hne].
  - rewrite bool_decide_eq_true_2 by (apply Hk; [lia|]; cbn [map]; rewrite Eb; apply elem_of_cons; by left). cbn [map concat].
    rewrite (decode_fork_ok pre w _ n Hw Hn). cbn [result_bind]. rewrite app_assoc.
    rewrite (IH (S b) ws (pre ++ encode_fork w) (n + length (encode_fork w))%nat); try done.
    + cbn [result_bind map]. by rewrite Eb.
    + lia.
    + rewrite Eb in Hnext. eapply Forall_impl; [exact Hnext|]. cbn. intros; lia.
    + intros x Hx. rewrite Hk by lia. cbn [map]. rewrite elem_of_cons. split; [|tauto]. intros [?|?]; [lia|done].
    + rewrite length_app. lia.
  - assert (Hnin : b ∉ map w_key (w :: ws)).
    { cbn [map]. rewrite elem_of_cons. intros [?|(w' & E & Hw')%list_elem_of_fmap]; [lia|].
      rewrite Forall_forall in Hnext. specialize (Hnext w' Hw'). lia. }
    rewrite bool_decide_eq_false_2 by (rewrite Hk by lia; done). apply (IH (S b) (w :: ws)); try done; [lia| | | |].
    + by constructor.
    + by constructor.
    + constructor; [lia|]. eapply Forall_impl; [exact Hnext|]. cbn. intros; lia.
    + intros x Hx. apply Hk. lia.
Qed.

Definition entry_ok (e : option bytes) : Prop :=
  match e with Some a => length a = FORK_REF_SIZE /\ forallb (fun b => b =? 0) a = false | None => True end.

Lemma entry_slice e : entry_ok e -> let eb := default (replicate FORK_REF_SIZE 0) e in
  length eb = FORK_REF_SIZE /\ (if forallb (fun b => b =? 0) eb then None else Some eb) = e.
Proof. destruct e as [a|]; [|done]. intros [Hl Hz]. cbn. by rewrite Hz. Qed.

(** C36: The decoder reads the mantaray layout.  Whatever the obfuscation key, a node
    laid out with a known version, an optional 32-byte entry, and forks at distinct
    bytes (prefixes of 1 to 30 bytes, 32-byte references, metadata when its type bit
    says so) decodes to exactly that entry and those forks, in the order of their
    bytes. *)
Theorem manifest_layout_decodes key version entry ws : length key = OBFUSCATION_KEY_SIZE ->
  version = VERSION_HASH_V01 \/ version = VERSION_HASH_V02 -> entry_ok entry -> Forall fork_ok ws ->
  StronglySorted (fun a c => w_key a < w_key c)%nat ws ->
  decode_node from_slice (encode_node key version entry ws) =
    Some (Ok (mkNode entry (map (fun w => (Z.of_nat (w_key w), w_fork w)) ws))).
Proof.
  intros Hkey Hv He Hok Hs. destruct (entry_slice entry He) as [Hel Hee]. set (eb := default _ entry) in *.
  assert (Hvl : length version = VERSION_HASH_SIZE) by (by destruct Hv as [-> | ->]).
  pose proof (bitfield_length (map w_key ws)) as Hbf. set (bf := bitfield_of (map w_key ws)) in *. set (fs := concat (map encode_fork ws)).
  assert (Ed : deobfuscate (encode_node key version entry ws) = key ++ version ++ [Z.of_nat FORK_REF_SIZE] ++ eb ++ bf ++ fs).
  { unfold encode_node. by rewrite deobfuscate_app. }
  assert (Hlen : length (encode_node key version entry ws) = (128 + length fs)%nat).
  { unfold encode_node, encode_body. rewrite length_app, xor_from_length, !length_app. cbn [length]. fold eb bf fs.
    rewrite Hkey, Hvl, Hel, Hbf. unfold OBFUSCATION_KEY_SIZE, VERSION_HASH_SIZE, FORK_REF_SIZE, INDEX_SIZE. lia. }
  unfold decode_node. rewrite Hlen, (proj2 (Nat.ltb_ge _ _)) by (unfold NODE_HEADER_SIZE, OBFUSCATION_KEY_SIZE, VERSION_HASH_SIZE; lia).
  rewrite Ed. set (d := key ++ _).
  assert (E1 : slice d OBFUSCATION_KEY_SIZE VERSION_HASH_SIZE = version) by (rewrite <- Hvl; by apply slice_app). rewrite E1.
  assert (E2 : negb (bool_decide (version = VERSION_HASH_V01)) && negb (bool_decide (version = VERSION_HASH_V02)) = false).
  { destruct Hv as [-> | ->]; rewrite (bool_decide_eq_true_2 _ eq_refl); [done|apply andb_false_r]. }
  rewrite E2. assert (E3 : d !!! (OBFUSCATION_KEY_SIZE + VERSION_HASH_SIZE)%nat = Z.of_nat FORK_REF_SIZE).
  { unfold d. rewrite app_assoc, lookup_total_app_r by (rewrite length_app; lia). rewrite length_app, Hkey, Hvl, Nat.sub_diag. done. }
  rewrite E3, Nat2Z.id. cbn [Z.eqb negb andb].
  assert (Hdl : length d = (128 + length fs)%nat).
  { rewrite <- Hlen, <- (deobfuscate_length (encode_node key version entry ws)), Ed; [done|]. rewrite Hlen. unfold OBFUSCATION_KEY_SIZE. lia. }
  change (NODE_HEADER_SIZE + FORK_REF_SIZE)%nat with 96%nat. change (96 + INDEX_SIZE)%nat with 128%nat.
  rewrite Hdl, !(proj2 (Nat.ltb_ge _ _)) by lia.
  assert (E4 : slice d NODE_HEADER_SIZE FORK_REF_SIZE = eb).
  { unfold d. rewrite !app_assoc, <- (app_assoc _ bf fs), <- (app_assoc _ eb). rewrite <- Hel. apply slice_app. rewrite !length_app, Hkey, Hvl. done. }
  assert (E5 : slice d 96 INDEX_SIZE = bf).
  { unfold d. rewrite !app_assoc, <- (app_assoc _ bf fs). rewrite <- Hbf. apply slice_app. rewrite !length_app, Hkey, Hvl, Hel. done. }
  rewrite E4, E5. change (0 <? Z.of_nat FORK_REF_SIZE) with true. rewrite Hee. do 2 f_equal. unfold d. rewrite !app_assoc.
  unfold bf, fs. rewrite decode_forks_ok; try done; [|fold bf; by rewrite !length_app, Hkey, Hvl, Hel, Hbf].
  eapply Forall_impl; [exact Hok|]. intros w (Hw & _). lia.
Qed.

(** ** Panics *)

(** The only panic is the slice of an entry that the payload is too short for. *)
Lemma decode_long p : (96 <= length p)%nat -> decode_node from_slice p <> None.
Proof.
  intros Hp. unfold decode_node. destruct (Nat.ltb _ _); [done|]. destruct (negb _ && negb _); [done|].
  destruct (negb (_ =? 0) && negb _) eqn:Er; [done|]. rewrite (proj2 (Nat.ltb_ge _ _)); [by destruct (Nat.ltb _ _)|].
  rewrite deobfuscate_length by (unfold OBFUSCATION_KEY_SIZE; lia). set (z := deobfuscate p !!! _) in *.
  assert (Hz : z = 0 \/ z = 32) by (rewrite andb_false_iff, !negb_false_iff, !Z.eqb_eq in Er; exact Er).
  destruct Hz as [-> | ->]; unfold NODE_HEADER_SIZE, OBFUSCATION_KEY_SIZE, VERSION_HASH_SIZE; cbn; lia.
Qed.
End Layout.

(** A header of 64 bytes that announces an entry and stops. *)
Definition cut_node : bytes := replicate 32 0 ++ VERSION_HASH_V02 ++ [32].

(** Decoding never panics on a payload of 96 bytes or more; but it does on a
    64-byte payload that announces 32-byte references: the entry is sliced before its
    length is checked, so a lookup that is served this chunk panics instead of
    reporting a short node. *)
Theorem manifest_decode_panics from_slice :
  (forall p, (96 <= length p)%nat -> decode_node from_slice p <> None) /\
  length cut_node = NODE_HEADER_SIZE /\ decode_node from_slice cut_node = None /\
  forall root path, lookup_manifest_path from_slice (fun _ => Ok cut_node) 1 root path = Some (Err WalkPanic).
Proof.
  assert (E : decode_node from_slice cut_node = None) by (vm_compute; reflexivity).
  split; [apply decode_long|]. split; [done|]. split; [done|]. intros root path. unfold lookup_manifest_path. cbn [lookup_loop].
  unfold get_node. by rewrite E.
Qed.

(** ** Paths *)

Section Walks.
Context (from_slice : bytes -> result (gmap str str) str) (store : bytes -> result bytes str).
Context `{Hex} (lossy : bytes -> str) (Hstore : forall a d, store a = Ok d -> all_bytes d).

Abbreviation get_node := (get_node from_slice store).
Abbreviation lookup := (lookup_loop from_slice store).
Abbreviation walk := (walk_manifest from_slice store lossy).

(** The node at the end of a path. *)
Inductive reach : bytes -> bytes -> Node -> Prop :=
| reach_here a n : get_node a = Ok n -> reach a [] n
| reach_fork a n k f p m : get_node a = Ok n -> (k, f) ∈ forks n -> reach (reference f) p m -> reach a (prefix f ++ p) m.

(** The key of a fork is the first byte of its prefix. *)
Definition keyed (n : Node) : Prop := Forall (fun kf => head (prefix kf.2) = Some kf.1) (forks n).
Definition well_keyed (root : bytes) : Prop := forall p n, reach root p n -> keyed n.

Lemma total_nonneg (d : bytes) i : all_bytes d -> 0 <= d !!! i.
Proof.
  intros Hd. destruct (d !! i) as [x|] eqn:E.
  - rewrite (list_lookup_total_correct _ _ _ E). rewrite Forall_lookup in Hd. apply (Hd i x E).
  - rewrite list_lookup_total_alt, E. done.
Qed.

Lemma deobfuscate_nonneg p : all_bytes p -> Forall (fun b => 0 <= b) (deobfuscate p).
Proof.
  intros Hp. unfold deobfuscate. set (key := take _ p). assert (Hk : all_bytes key) by by apply Forall_take.
  apply Forall_app. split; [eapply Forall_impl; [exact Hk|]; intros b Hb; apply Hb|].
  assert (Hd : all_bytes (drop OBFUSCATION_KEY_SIZE p)) by by apply Forall_drop. revert Hd. generalize 0%nat. generalize (drop OBFUSCATION_KEY_SIZE p).
  intros d. induction d as [|b d IH]; intros i Hd; cbn [xor_from]; [constructor|]. apply Forall_cons in Hd as [Hb Hd].
  constructor; [|auto]. apply Z.lxor_nonneg. split; intros _; [by apply total_nonneg|apply Hb].
Qed.

(** What decoding guarantees of every node. *)
Lemma decode_forks_facts data bf : Forall (fun b => 0 <= b) data -> forall bs offset fs, decode_forks from_slice data bf bs offset = Ok fs -> StronglySorted lt bs ->
  Forall (fun kf => prefix kf.2 <> []) fs /\ Forall (fun kf => exists b, b ∈ bs /\ kf.1 = Z.of_nat b) fs /\ NoDup (map fst fs).
Proof.
  intros Hd. induction bs as [|b bs IH]; intros offset fs E Hs; cbn [decode_forks] in E.
  { assert (fs = []) as -> by congruence. split_and!; constructor. }
  apply StronglySorted_inv in Hs as [Hs Hgt]. destruct (bit_set bf b).
  - apply result_bind_Ok in E as ([f off] & Ef & E). apply result_bind_Ok in E as (rest & Er & E).
    assert (fs = (Z.of_nat b, f) :: rest) as -> by congruence. destruct (IH _ _ Er Hs) as (I1 & I2 & I3). split_and!.
    + constructor; [|done]. cbn. unfold decode_fork in Ef. destruct (Nat.ltb_spec (length data) (offset + FORK_PRE_REF_SIZE + FORK_REF_SIZE)) as [|Hl]; [done|].
      destruct (_ || _) eqn:Ep; [done|]. apply result_bind_Ok in Ef as ([m o] & _ & Ef).
      apply (f_equal (fun r => match r with Ok x => prefix x.1 | Err _ => [] end)) in Ef. cbn [fst prefix] in Ef. rewrite <- Ef.
      intros E0. apply (f_equal length) in E0. unfold slice in E0. rewrite length_take, length_drop in E0. cbn [length] in E0.
      assert (Hpos : 0 <= data !!! S offset).
      { destruct (data !! S offset) as [x|] eqn:Ex; [|rewrite list_lookup_total_alt, Ex; done].
        rewrite (list_lookup_total_correct _ _ _ Ex). rewrite Forall_lookup in Hd. by apply (Hd (S offset) x). }
      rewrite orb_false_iff, Z.eqb_neq, Z.ltb_ge in Ep. unfold FORK_PRE_REF_SIZE, FORK_REF_SIZE in *. lia.
    + constructor; [exists b; split; [apply elem_of_cons; by left|done]|]. eapply Forall_impl; [exact I2|].
      intros kf (b' & ? & ?). exists b'. split; [apply elem_of_cons; by right|done].
    + cbn [map fst]. constructor; [|done]. intros (kf & E1 & Hin)%list_elem_of_fmap. rewrite Forall_forall in I2. rewrite Forall_forall in Hgt.
      destruct (I2 kf Hin) as (b' & Hb' & E2). specialize (Hgt b' Hb'). lia.
  - destruct (IH _ _ E Hs) as (I1 & I2 & I3). split_and!; [done| |done]. eapply Forall_impl; [exact I2|].
    intros kf (b' & ? & ?). exists b'. split; [apply elem_of_cons; by right|done].
Qed.

Lemma seq_sorted b n : StronglySorted lt (seq b n).
Proof.
  revert b. induction n as [|n IH]; intros b; cbn [seq]; constructor; [done|]. apply Forall_forall. intros x Hx%elem_of_seq. lia.
Qed.

Lemma get_node_facts a n : get_node a = Ok n -> Forall (fun kf => prefix kf.2 <> []) (forks n) /\ NoDup (map fst (forks n)).
Proof.
  unfold Manifest.get_node. destruct (store a) as [d|] eqn:Es; [|done]. apply Hstore, deobfuscate_nonneg in Es. unfold decode_node.
  repeat match goal with |- context [if ?b then _ else _] => destruct b; try done end.
  all: destruct (decode_forks _ _ _ _ _) as [fs|] eqn:E; cbn [result_bind]; [|done]; intros En;
    match type of En with Ok ?x = _ => assert (n = x) as -> by congruence end; cbn [forks];
    destruct (decode_forks_facts _ _ Es _ _ _ E (seq_sorted 0 256)) as (? & _ & ?); done.
Qed.

Lemma fork_get_elem b fs f : fork_get b fs = Some f -> (b, f) ∈ fs.
Proof.
  induction fs as [|[k g] fs IH]; [done|]. cbn. destruct (Z.eqb_spec k b) as [->|_]; intros E.
  - assert (g = f) as -> by congruence. apply elem_of_cons. by left.
  - apply elem_of_cons. right. auto.
Qed.

Lemma fork_get_some b fs f : NoDup (map fst fs) -> (b, f) ∈ fs -> fork_get b fs = Some f.
Proof.
  induction fs as [|[k g] fs IH]; intros Hnd Hin; [by apply not_elem_of_nil in Hin|]. cbn [map fst] in Hnd. apply NoDup_cons in Hnd as [Hk Hnd].
  cbn. apply elem_of_cons in Hin as [E|Hin].
  - assert (b = k /\ f = g) as [-> ->] by (split; congruence). by rewrite Z.eqb_refl.
  - destruct (Z.eqb_spec k b) as [->|_]; [|auto]. exfalso. apply Hk, list_elem_of_fmap. by exists (b, f).
Qed.

Lemma strip_prefix_app p s : strip_prefix p (p ++ s) = Some s.
Proof. induction p as [|c p IH]; [by destruct s|]. cbn. by rewrite Z.eqb_refl. Qed.

Lemma strip_prefix_Some p s r : strip_prefix p s = Some r -> s = p ++ r.
Proof.
  revert s. induction p as [|c p IH]; intros s; [destruct s; cbn; congruence|]. destruct s as [|d s]; cbn; [done|].
  destruct (Z.eqb_spec c d) as [->|]; [|done]. intros E. by rewrite (IH _ E).
Qed.

(** ** Looking up *)

(** More fuel changes nothing. *)
Lemma lookup_mono fuel : forall fuel' path a q ct rd r, (fuel <= fuel')%nat -> lookup fuel path a q ct rd = Some r ->
  lookup fuel' path a q ct rd = Some r.
Proof.
  induction fuel as [|fuel IH]; intros fuel' path a q ct rd r Hle E; [done|]. destruct fuel' as [|fuel']; [lia|].
  cbn [lookup_loop] in *. destruct (get_node a) as [n|]; [|done]. destruct q as [|b q].
  - destruct (entry n); [done|]. destruct rd; [done|]. destruct (extract_index_document n); [|done]. apply IH; [lia|done].
  - destruct (fork_get b (forks n)) as [f|]; [|done]. destruct (strip_prefix _ _); [|done]. apply IH; [lia|done].
Qed.

(** Every round consumes a byte of what is left of the path, or redirects once. *)
Lemma lookup_redirected_ends path q : forall a ct, exists r, lookup (S (length q)) path a q ct true = Some r.
Proof.
  remember (length q) as k eqn:Ek. revert q Ek. induction k as [k IH] using lt_wf_ind. intros q Ek a ct. cbn [lookup_loop].
  destruct (get_node a) as [n|] eqn:En; [|by eexists]. destruct q as [|b q]; [destruct (entry n); by eexists|].
  destruct (fork_get b (forks n)) as [f|] eqn:Ef; [|by eexists]. destruct (strip_prefix _ _) as [rest|] eqn:Es; [|by eexists].
  apply strip_prefix_Some in Es. apply fork_get_elem in Ef. destruct (get_node_facts a n En) as [Hne _].
  rewrite Forall_forall in Hne. specialize (Hne _ Ef). cbn [snd] in Hne.
  assert (Hl : (length rest < k)%nat).
  { apply (f_equal length) in Es. rewrite length_app in Es. destruct (prefix f); [done|]. cbn [length] in *. lia. }
  destruct (IH (length rest) Hl rest eq_refl (reference f)
    (match metadata f !! ENTRY_METADATA_CONTENT_TYPE_KEY with Some c => Some c | None => ct end)) as [r Hr].
  exists r. apply (lookup_mono (S (length rest))); [lia|done].
Qed.

Lemma lookup_ends path : forall q a ct, exists fuel r, lookup fuel path a q ct false = Some r.
Proof.
  intros q. remember (length q) as k eqn:Ek. revert q Ek. induction k as [k IH] using lt_wf_ind. intros q Ek a ct.
  destruct (get_node a) as [n|] eqn:En; [|exists 1%nat; cbn [lookup_loop]; rewrite En; by eexists].
  destruct q as [|b q].
  - destruct (entry n) eqn:Ee; [exists 1%nat; cbn [lookup_loop]; rewrite En, Ee; by eexists|].
    destruct (extract_index_document n) as [idx|] eqn:Ei; [|exists 1%nat; cbn [lookup_loop]; rewrite En, Ee, Ei; by eexists].
    destruct (lookup_redirected_ends path idx a ct) as [r Hr]. revert Hr. generalize (S (length idx)). intros k1 Hr.
    exists (S k1), r. cbn [lookup_loop]. rewrite En, Ee, Ei. exact Hr.
  - destruct (fork_get b (forks n)) as [f|] eqn:Ef; [|exists 1%nat; cbn [lookup_loop]; rewrite En, Ef; by eexists].
    destruct (strip_prefix (prefix f) (b :: q)) as [rest|] eqn:Es; [|exists 1%nat; cbn [lookup_loop]; rewrite En, Ef, Es; by eexists].
    pose proof (strip_prefix_Some _ _ _ Es) as Ea. pose proof (fork_get_elem _ _ _ Ef) as Hin. destruct (get_node_facts a n En) as [Hne _].
    rewrite Forall_forall in Hne. specialize (Hne _ Hin). cbn [snd] in Hne.
    assert (Hl : (length rest < k)%nat).
    { apply (f_equal length) in Ea. rewrite length_app in Ea. destruct (prefix f); [done|]. cbn [length] in *. lia. }
    destruct (IH (length rest) Hl rest eq_refl (reference f)
      (match metadata f !! ENTRY_METADATA_CONTENT_TYPE_KEY with Some c => Some c | None => ct end)) as (fuel & r & Hr).
    exists (S fuel), r. cbn [lookup_loop]. by rewrite En, Ef, Es.
Qed.

(** Following a path the manifest has. *)
Lemma lookup_reach path a p n : well_keyed a -> reach a p n -> forall rest ct rd, exists b ct', get_node b = Ok n /\
  (forall q m, reach b q m -> reach a (p ++ q) m) /\
  forall fuel r, lookup fuel path b rest ct' rd = Some r -> exists fuel', lookup fuel' path a (p ++ rest) ct rd = Some r.
Proof.
  intros Hwk Hr. induction Hr as [a n Hn|a n k f p m Hn Hin Hr IH]; intros rest ct rd.
  { exists a, ct. split; [done|]. split; [done|]. intros fuel r E. by exists fuel. }
  pose proof (Hwk [] n (reach_here a n Hn)) as Hkey. destruct (get_node_facts a n Hn) as [_ Hnd].
  pose proof Hkey as Hk. unfold keyed in Hk. rewrite Forall_forall in Hk. specialize (Hk _ Hin). cbn [fst snd] in Hk.
  assert (Hwk' : well_keyed (reference f)) by (intros q x Hq; apply (Hwk (prefix f ++ q)); by apply (reach_fork a n k f)).
  destruct (IH Hwk' rest (match metadata f !! ENTRY_METADATA_CONTENT_TYPE_KEY with Some c => Some c | None => ct end) rd) as (b & ct' & Hb & Hsub & Hcont).
  exists b, ct'. split; [done|]. split; [intros q x Hq; rewrite <- app_assoc; apply (reach_fork a n k f); auto|].
  intros fuel r E. destruct (Hcont fuel r E) as [fuel' E']. exists (S fuel'). cbn [lookup_loop]. rewrite Hn.
  destruct (prefix f) as [|c pf] eqn:Ep; [done|]. cbn [head] in Hk. assert (c = k) as -> by congruence. cbn [app].
  rewrite (fork_get_some k (forks n) f Hnd Hin), Ep.
  change (k :: (pf ++ p) ++ rest) with (((k :: pf) ++ p) ++ rest). rewrite <- app_assoc, strip_prefix_app. exact E'.
Qed.

(** What a lookup returns was reached. *)
Lemma lookup_sound path fuel : forall a q ct rd addr c, lookup fuel path a q ct rd = Some (Ok (addr, c)) ->
  exists s n, reach a s n /\ entry n = Some addr /\
    (s = q \/ rd = false /\ exists m idx, reach a q m /\ entry m = None /\ extract_index_document m = Some idx /\ s = q ++ idx).
Proof.
  induction fuel as [|fuel IH]; intros a q ct rd addr c E; [done|]. cbn [lookup_loop] in E.
  destruct (get_node a) as [n|] eqn:En; [|done]. destruct q as [|b q].
  - destruct (entry n) as [e|] eqn:Ee.
    + assert (e = addr) as -> by congruence. exists [], n. split; [by constructor|]. split; [done|by left].
    + destruct rd; [done|]. destruct (extract_index_document n) as [idx|] eqn:Ei; [|done].
      destruct (IH _ _ _ _ _ _ E) as (s & m & Hs & He & [->|[? _]]); [|done]. exists idx, m. split; [done|]. split; [done|]. right.
      split; [done|]. exists n, idx. split; [by constructor|done].
  - destruct (fork_get b (forks n)) as [f|] eqn:Ef; [|done]. destruct (strip_prefix _ _) as [rest|] eqn:Es; [|done].
    apply strip_prefix_Some in Es. apply fork_get_elem in Ef. destruct (IH _ _ _ _ _ _ E) as (s & m & Hs & He & Hor).
    exists (prefix f ++ s), m. split; [by apply (reach_fork a n b f)|]. split; [done|]. rewrite Es. destruct Hor as [->|(-> & m' & idx & H1 & H2 & H3 & ->)]; [by left|].
    right. split; [done|]. exists m', idx. split; [by apply (reach_fork a n b f)|]. split_and!; [done|done|by rewrite app_assoc].
Qed.

(** ** Listing *)

Definition listed (p a : bytes) : ManifestEntry := mkManifestEntry (lossy p) (hex_encode a) None.

Lemma visit_stops W path x fs : x = None \/ (exists e, x = Some (Err e)) -> foldl (visit_fork W path) x fs = x.
Proof. intros Hx. induction fs as [|g fs IHg]; [done|]. cbn [foldl]. by destruct Hx as [->|[e ->]]. Qed.

Lemma walk_spec fuel : forall a path out, walk fuel a path = Some (Ok out) ->
  forall e, e ∈ out <-> exists p n x, reach a p n /\ entry n = Some x /\ e = listed (path ++ p) x.
Proof.
  induction fuel as [|fuel IH]; intros a path out E e; [done|]. cbn [walk_manifest] in E. destruct (get_node a) as [n|] eqn:En; [|done].
  set (own := match entry n with Some x => _ | None => _ end) in E.
  assert (Hfold : forall fs acc o, foldl (visit_fork (walk fuel) path) (Some (Ok acc)) fs = Some (Ok o) ->
    e ∈ o <-> e ∈ acc \/ exists kf p m x, kf ∈ fs /\ reach (reference kf.2) p m /\ entry m = Some x /\ e = listed (path ++ prefix kf.2 ++ p) x).
  { induction fs as [|kf fs IHf]; intros acc o Ho; cbn [foldl] in Ho.
    - assert (o = acc) as -> by congruence. split; [by left|]. intros [?|(kf & _ & _ & _ & Hin & _)]; [done|by apply not_elem_of_nil in Hin].
    - unfold visit_fork at 2 in Ho. destruct (walk fuel (reference kf.2) (path ++ prefix kf.2)) as [[more|er]|] eqn:Ew.
      2, 3: rewrite visit_stops in Ho by eauto; done.
      rewrite (IHf _ _ Ho), elem_of_app, (IH _ _ _ Ew). split.
      + intros [[?|(p & m & x & H1 & H2 & ->)]|(g & p & m & x & H0 & ?)]; [by left| |right; exists g, p, m, x; split; [apply elem_of_cons; by right|done]].
        right. exists kf, p, m, x. split; [apply elem_of_cons; by left|]. split_and!; [done|done|by rewrite app_assoc].
      + intros [?|(g & p & m & x & H0 & H1 & H2 & ->)]; [by left; left|]. apply elem_of_cons in H0 as [->|H0].
        * left. right. exists p, m, x. split_and!; [done|done|by rewrite app_assoc].
        * right. by exists g, p, m, x. }
  rewrite (Hfold _ _ _ E). unfold own. split.
  - intros [He|((k & f) & p & m & x & Hin & H1 & H2 & ->)].
    + destruct (entry n) as [x|] eqn:Ee; [|by apply not_elem_of_nil in He]. apply list_elem_of_singleton in He as ->.
      exists [], n, x. split; [by constructor|]. split; [done|by rewrite app_nil_r].
    + exists (prefix f ++ p), m, x. split; [by apply (reach_fork a n k f)|done].
  - intros (p & m & x & Hr & He & ->). inversion Hr as [? ? Hn|? ? k f q ? Hn Hin Hr']; subst.
    + left. assert (n = m) as -> by congruence. rewrite He, app_nil_r. by apply list_elem_of_singleton.
    + right. assert (n = n0) as <- by congruence. by exists (k, f), q, m, x.
Qed.
End Walks.

(** Looking up a path terminates.  Whatever the store serves (any chunk at any
    address, cycles included), the loop ends: every round consumes a byte of the path
    or follows the index document once; and more rounds than needed change nothing. *)
Theorem manifest_lookup_terminates from_slice store root path : (forall a d, store a = Ok d -> all_bytes d) ->
  exists fuel r, forall fuel', (fuel <= fuel')%nat -> lookup_manifest_path from_slice store fuel' root path = Some r.
Proof.
  intros Hstore. destruct (lookup_ends from_slice store Hstore path path root None) as (fuel & r & Hr).
  exists fuel, r. intros fuel' Hle. unfold lookup_manifest_path. by apply (lookup_mono from_slice store fuel).
Qed.

(** Listing and looking up agree.  When a manifest is listed, every listed entry
    is what looking up its path returns; and whatever a lookup returns is listed,
    under the path itself or, when the path ends at a node without an entry, under the
    path followed by that node's index document. *)
Theorem manifest_listing_agrees from_slice store `{Hex} lossy root fuel out : (forall a d, store a = Ok d -> all_bytes d) ->
  well_keyed from_slice store root -> walk_manifest from_slice store lossy fuel root [] = Some (Ok out) ->
  (forall e, e ∈ out -> exists p a fuel ct, e = listed lossy p a /\ lookup_manifest_path from_slice store fuel root p = Some (Ok (a, ct))) /\
  (forall fuel p a ct, lookup_manifest_path from_slice store fuel root p = Some (Ok (a, ct)) ->
    listed lossy p a ∈ out \/
    exists n idx, reach from_slice store root p n /\ entry n = None /\ extract_index_document n = Some idx /\ listed lossy (p ++ idx) a ∈ out).
Proof.
  intros Hstore Hwk Hw. pose proof (walk_spec from_slice store lossy fuel root [] out Hw) as Hspec. split.
  - intros e He. apply Hspec in He as (p & n & a & Hr & Hn & ->). exists p, a.
    destruct (lookup_reach from_slice store Hstore p root p n Hwk Hr [] None false) as (b & ct & Hb & _ & Hcont).
    destruct (Hcont 1%nat (Ok (a, ct))) as [fuel' E]; [cbn [lookup_loop]; by rewrite Hb, Hn|].
    exists fuel', ct. split; [done|]. by rewrite app_nil_r in E.
  - intros f p a ct E. destruct (lookup_sound from_slice store p f root p None false a ct E) as (s & n & Hr & Hn & [->|(_ & m & idx & H1 & H2 & H3 & ->)]).
    + left. apply Hspec. by exists p, n, a.
    + right. exists m, idx. split_and!; [done|done|done|]. apply Hspec. by exists (p ++ idx), n, a.
Qed.

(** ** Concrete manifests *)

Section Samples.
Context (from_slice : bytes -> result (gmap str str) str).

Definition sample_key : bytes := replicate 32 7.
Definition fork_to (p : bytes) (a : bytes) : Wired := mkWired (Z.to_nat (default 0 (head p))) (mkFork 4 p a ∅) [].
Definition leaf_node (a : bytes) : bytes := encode_node sample_key VERSION_HASH_V02 (Some a) [].
Definition site_root : bytes := replicate 32 1.
Definition site (a : bytes) : result bytes str :=
  if bool_decide (a = site_root) then Ok (encode_node sample_key VERSION_HASH_V02 None [fork_to (lit "a") (replicate 32 2); fork_to (lit "index.html") (replicate 32 3)])
  else if bool_decide (a = replicate 32 2) then Ok (leaf_node (replicate 32 20))
  else if bool_decide (a = replicate 32 3) then Ok (leaf_node (replicate 32 30))
  else Err (lit "not found").

(** A node whose only fork leads back to it. *)
Definition loop_node : bytes := encode_node sample_key VERSION_HASH_V02 None [fork_to (lit "/") site_root].
End Samples.

Definition no_json (b : bytes) : result (gmap str str) str := Err (lit "json").
Definition plain_hex : Hex := {| hex_encode := fun b => b; hex_decode := fun s => Ok s |}.

Lemma bytes_check (d : bytes) : forallb (fun b => (0 <=? b) && (b <? 256)) d = true -> all_bytes d.
Proof.
  rewrite forallb_forall. intros H. apply Forall_forall. intros b Hb%list_elem_of_In%H. rewrite andb_true_iff, Z.leb_le, Z.ltb_lt in Hb. exact Hb.
Qed.

Lemma site_bytes a d : site a = Ok d -> all_bytes d.
Proof.
  unfold site. repeat case_bool_decide; intros E; try done.
  all: match type of E with Ok ?x = _ => assert (d = x) as -> by congruence end; apply bytes_check; vm_compute; reflexivity.
Qed.

Lemma manifest_layout_decodes_witness :
  decode_node no_json (encode_node sample_key VERSION_HASH_V02 None [fork_to (lit "a") (replicate 32 2); fork_to (lit "index.html") (replicate 32 3)]) =
    Some (Ok (mkNode None [(97, mkFork 4 (lit "a") (replicate 32 2) ∅); (105, mkFork 4 (lit "index.html") (replicate 32 3) ∅)])).
Proof.
  apply (manifest_layout_decodes no_json sample_key VERSION_HASH_V02 None [fork_to (lit "a") (replicate 32 2); fork_to (lit "index.html") (replicate 32 3)]).
  - reflexivity.
  - right. reflexivity.
  - exact I.
  - repeat constructor; cbn; lia.
  - repeat constructor; cbn; lia.
Defined.

Lemma manifest_lookup_terminates_witness :
  (exists fuel r, forall fuel', (fuel <= fuel')%nat -> lookup_manifest_path no_json site fuel' site_root (lit "index.html") = Some r) /\
  lookup_manifest_path no_json site 3 site_root (lit "index.html") = Some (Ok (replicate 32 30, None)).
Proof.
  split; [apply (manifest_lookup_terminates no_json site site_root (lit "index.html")); exact site_bytes|vm_compute; reflexivity].
Defined.

(** Every node the sample reaches is keyed. *)
Lemma site_keyed : well_keyed no_json site site_root.
Proof.
  assert (Hroot : get_node no_json site site_root = Ok (mkNode None [(97, mkFork 4 (lit "a") (replicate 32 2) ∅); (105, mkFork 4 (lit "index.html") (replicate 32 3) ∅)]))
    by (vm_compute; reflexivity).
  assert (H2 : get_node no_json site (replicate 32 2) = Ok (mkNode (Some (replicate 32 20)) [])) by (vm_compute; reflexivity).
  assert (H3 : get_node no_json site (replicate 32 3) = Ok (mkNode (Some (replicate 32 30)) [])) by (vm_compute; reflexivity).
  assert (Hleaf : forall a e, get_node no_json site a = Ok (mkNode e []) -> forall p n, reach no_json site a p n -> keyed n).
  { intros a e Ha p n Hr. inversion Hr as [? ? Hn|? m k f q ? Hn Hin]; subst.
    - assert (n = mkNode e []) as -> by congruence. constructor.
    - assert (m = mkNode e []) as -> by congruence. exact (False_ind _ (not_elem_of_nil _ Hin)). }
  intros p n Hr. inversion Hr as [? ? Hn|? m k f q ? Hn Hin Hr']; subst.
  - rewrite Hroot in Hn. injection Hn as <-. repeat constructor.
  - rewrite Hroot in Hn. injection Hn as <-. cbn [forks] in Hin.
    rewrite !elem_of_cons in Hin. destruct Hin as [E|[E|Hin]]; [| |exact (False_ind _ (not_elem_of_nil _ Hin))].
    + injection E as -> ->. by apply (Hleaf _ _ H2 q).
    + injection E as -> ->. by apply (Hleaf _ _ H3 q).
Qed.

Lemma manifest_listing_agrees_witness :
  exists out, walk_manifest (H := plain_hex) no_json site (fun p => p) 2 site_root [] = Some (Ok out) /\
    (forall fuel p a ct, lookup_manifest_path no_json site fuel site_root p = Some (Ok (a, ct)) ->
      listed (H := plain_hex) (fun p => p) p a ∈ out \/
      exists n idx, reach no_json site site_root p n /\ entry n = None /\ extract_index_document n = Some idx /\ listed (H := plain_hex) (fun p => p) (p ++ idx) a ∈ out).
Proof.
  assert (E : exists out, walk_manifest (H := plain_hex) no_json site (fun p => p) 2 site_root [] = Some (Ok out)) by (vm_compute; eexists; reflexivity).
  destruct E as [out E]. exists out. split; [exact E|].
  exact (proj2 (manifest_listing_agrees (H := plain_hex) no_json site (fun p => p) site_root 2 out site_bytes site_keyed E)).
Defined.

(** Listing does not terminate on every manifest: a node that is its own child (a
    single-owner chunk can name its own address, since the address does not depend on
    the content) is descended into without end, while looking up a path in it ends. *)
Theorem manifest_walk_diverges from_slice `{Hex} lossy :
  (forall fuel path, walk_manifest from_slice (fun _ => Ok loop_node) lossy fuel site_root path = None) /\
  exists r, lookup_manifest_path from_slice (fun _ => Ok loop_node) 3 site_root (lit "/x") = Some r.
Proof.
  assert (E : get_node from_slice (fun _ => Ok loop_node) site_root = Ok (mkNode None [(47, mkFork 4 (lit "/") site_root ∅)]))
    by (vm_compute; reflexivity).
  split.
  - induction fuel as [|fuel IH]; intros path; [done|]. cbn [walk_manifest]. rewrite E. cbn [entry forks foldl visit_fork snd reference prefix].
    by rewrite IH.
  - eexists. vm_compute. reflexivity.
Qed.
