(* ===== verification/PushSched.v ===== *)
(** * The lane scheduler ([src/src/pushsched.rs])

    The sans-I/O scheduler of an upload through several relay lanes: chunks are
    admitted, dispatched in batches to the lane weighted rendezvous hashing ranks
    first, hedged to the second when they straggle, and acked, requeued or given up
    as the driver reports results.

    Two things the source leaves open are arguments: the natural logarithm [ln] of
    the platform, and the order in which a [HashMap] is iterated.  Counters of
    events ([next_batch_id], [acked], [failed], ...) are natural numbers; the
    16-bit attempt and group counters wrap. *)
From Stdlib Require Import ZArith Lia Floats.SpecFloat.
From stdpp Require Import base tactics numbers list gmap.
From S2P Require Import Prelude F64.
Local Open Scope Z_scope.

Definition PROX_CAP : f64 := f64_of_Z 8.
Definition FAIL_STREAK : nat := 3.
Definition BACKOFF_BASE_MS : Z := 2000.
Definition BACKOFF_MAX_MS : Z := 120000.
Definition MAX_BACKOFF_EXP : nat := 5.
Definition MIN_WEIGHT : f64 := f64_lit 2 100.
Definition RATE_MIN_SAMPLE : nat := 16.

(** [enum LaneHealth]. *)
Inductive LaneHealth := Warming | Unfunded | Live | Backoff (until_ms : Z) | Retired.
#[export] Instance LaneHealth_eq : EqDecision LaneHealth.
Proof. solve_decision. Defined.

(** [struct LaneInfo]; the signed quote, which the scheduler only carries for the
    payment loop, is left out. *)
Record LaneInfo := mkInfo {
  overlay : option bytes;
  batch_max : option nat;
  inflight_max : option nat;
  budget_remaining_gb : option f64;
  pool_live : option nat;
  price_plur_per_kib : option Z;
  hard_enforcement : bool }.

(** [struct Config] and its [Default]. *)
Record Config := mkConfig {
  batch : nat;
  probe_batch : nat;
  inflight_per_lane : nat;
  max_attempts : Z;
  proximity_alpha : f64;
  hedge_fraction : f64;
  hedge_latency_mult : f64;
  hedge_min_ms : Z;
  hedge_max_ms : Z }.

Definition default_config : Config :=
  mkConfig 256 16 4 6 (f64_of_Z 0) (f64_lit 10 100) (f64_lit 15 10) 3000 60000.

(** [enum ChunkPhase], [struct ChunkState]. *)
Inductive ChunkPhase := Pending | InFlight | Done | Failed | Skipped.
#[export] Instance ChunkPhase_eq : EqDecision ChunkPhase.
Proof. solve_decision. Defined.

Record ChunkState := mkChunk {
  addr : bytes;
  size_of : Z;
  phase : ChunkPhase;
  attempts : Z;
  on : list nat;
  since_ms : Z;
  hedged : bool;
  group : option nat }.
#[export] Instance ChunkState_inhabited : Inhabited ChunkState :=
  populate (mkChunk [] 0 Pending 0 [] 0 false None).

(** [enum CompletionPolicy], [struct GroupState]. *)
Inductive CompletionPolicy := AllAcked | Group.
Record GroupState := mkGroup { need : Z; group_acked : Z }.

(** [struct Lane]. *)
Record Lane := mkLane {
  id : nat;
  info : LaneInfo;
  health : LaneHealth;
  fail_streak : nat;
  backoff_exp : nat;
  inflight : nat;
  rate : f64;
  batch_ms : f64;
  acked_total : Z;
  failed_total : Z;
  bytes_total : Z }.
#[export] Instance Lane_inhabited : Inhabited Lane :=
  populate (mkLane 0 (mkInfo None None None None None None false) Warming 0 0 0 (f64_of_Z 0) (f64_of_Z 0) 0 0 0).

(** Assignments to the fields of a lane and of a chunk. *)
Definition set_health (h : LaneHealth) (l : Lane) : Lane :=
  mkLane (id l) (info l) h (fail_streak l) (backoff_exp l) (inflight l) (rate l) (batch_ms l)
    (acked_total l) (failed_total l) (bytes_total l).
Definition set_info (i : LaneInfo) (l : Lane) : Lane :=
  mkLane (id l) i (health l) (fail_streak l) (backoff_exp l) (inflight l) (rate l) (batch_ms l)
    (acked_total l) (failed_total l) (bytes_total l).
Definition set_streak (fs be : nat) (h : LaneHealth) (l : Lane) : Lane :=
  mkLane (id l) (info l) h fs be (inflight l) (rate l) (batch_ms l) (acked_total l) (failed_total l) (bytes_total l).
Definition set_inflight (n : nat) (l : Lane) : Lane :=
  mkLane (id l) (info l) (health l) (fail_streak l) (backoff_exp l) n (rate l) (batch_ms l)
    (acked_total l) (failed_total l) (bytes_total l).
Definition set_timing (r b : f64) (l : Lane) : Lane :=
  mkLane (id l) (info l) (health l) (fail_streak l) (backoff_exp l) (inflight l) r b
    (acked_total l) (failed_total l) (bytes_total l).
Definition set_totals (a f b : Z) (l : Lane) : Lane :=
  mkLane (id l) (info l) (health l) (fail_streak l) (backoff_exp l) (inflight l) (rate l) (batch_ms l) a f b.

Definition set_phase (p : ChunkPhase) (o : list nat) (h : bool) (c : ChunkState) : ChunkState :=
  mkChunk (addr c) (size_of c) p (attempts c) o (since_ms c) h (group c).
Definition set_attempts (a : Z) (c : ChunkState) : ChunkState :=
  mkChunk (addr c) (size_of c) (phase c) a (on c) (since_ms c) (hedged c) (group c).
Definition set_group (g : nat) (c : ChunkState) : ChunkState :=
  mkChunk (addr c) (size_of c) (phase c) (attempts c) (on c) (since_ms c) (hedged c) (Some g).

(** [Lane::eligible], [capacity], [batch_size], [weight], [hedge_deadline_ms]. *)
Definition eligible (l : Lane) (now_ms : Z) : bool :=
  match health l with
  | Live | Warming => true
  | Backoff until_ms => until_ms <=? now_ms
  | Unfunded | Retired => false
  end.

Definition capacity (l : Lane) (cfg : Config) : nat :=
  let want := default (inflight_per_lane cfg) (inflight_max (info l)) in
  if bool_decide (health l = Warming) then 1 else Nat.max want 1.

Definition batch_size (l : Lane) (cfg : Config) : nat :=
  let lane_max := default (batch cfg) (batch_max (info l)) in
  if bool_decide (health l = Warming) then Nat.min (probe_batch cfg) lane_max else Nat.min (batch cfg) lane_max.

Definition weight (l : Lane) (cfg : Config) : f64 :=
  let r := if f64_eq (rate l) (f64_of_Z 0)
           then f64_max (f64_div (f64_of_Z (Z.of_nat (default 16%nat (pool_live (info l))))) (f64_of_Z 8)) (f64_lit 5 10)
           else rate l in
  let budget := match budget_remaining_gb (info l) with
                | Some gb => f64_clamp (f64_lit 5 100) f64_1 (f64_div gb f64_1)
                | None => f64_1
                end in
  let concurrency := f64_of_Z (Z.of_nat (capacity l cfg)) in
  f64_max (f64_mul (f64_mul r budget) concurrency) MIN_WEIGHT.

Definition hedge_deadline_ms (l : Lane) (cfg : Config) : Z :=
  let base := if f64_lt (f64_of_Z 0) (batch_ms l) then f64_mul (batch_ms l) (hedge_latency_mult cfg)
              else f64_of_Z (hedge_min_ms cfg) in
  Z.min (Z.max (f64_as_u64 base) (hedge_min_ms cfg)) (hedge_max_ms cfg).

(** [struct Assignment], [enum BatchOutcome], [enum StallReason]. *)
Record Assignment := mkAssignment { a_batch : nat; a_lane : nat; a_chunks : list nat; a_hedge : bool }.
Inductive BatchOutcome := Answered | BatchFailed (why : str) | PaymentRequired.
Inductive StallReason := AllLanesDown | ChunksExhausted.

(** [struct Scheduler]. *)
Record Scheduler := mkSched {
  cfg : Config;
  policy : CompletionPolicy;
  lanes : list Lane;
  chunks : list ChunkState;
  groups : list GroupState;
  pending : list nat;
  index : gmap bytes nat;
  next_batch_id : nat;
  outstanding : gmap nat (nat * list nat);
  hedges_used : Z;
  acked : nat;
  failed : nat;
  skipped : nat }.

(** [Scheduler::with_policy], [Scheduler::new]. *)
Definition new_lane (i : nat) (inf : LaneInfo) : Lane :=
  mkLane i inf Warming 0 0 0 (f64_of_Z 0) (f64_of_Z 0) 0 0 0.
Definition with_policy (infos : list LaneInfo) (c : Config) (p : CompletionPolicy) : Scheduler :=
  mkSched c p (imap new_lane infos) [] [] [] ∅ 1 ∅ 0 0 0 0.
Definition sched_new (infos : list LaneInfo) (c : Config) : Scheduler := with_policy infos c AllAcked.

Definition set_lanes (s : Scheduler) (ls : list Lane) : Scheduler :=
  mkSched (cfg s) (policy s) ls (chunks s) (groups s) (pending s) (index s) (next_batch_id s) (outstanding s)
    (hedges_used s) (acked s) (failed s) (skipped s).
Definition upd_lane (s : Scheduler) (l : nat) (f : Lane -> Lane) : Scheduler := set_lanes s (alter f l (lanes s)).
(** The chunks with the queue of the pending ones and the outcome counters. *)
Definition set_chunks (s : Scheduler) (cs : list ChunkState) (p : list nat) (a f k : nat) : Scheduler :=
  mkSched (cfg s) (policy s) (lanes s) cs (groups s) p (index s) (next_batch_id s) (outstanding s)
    (hedges_used s) a f k.

Definition phase_is (p : ChunkPhase) (cs : list ChunkState) (ci : nat) : bool :=
  bool_decide (phase (cs !!! ci) = p).

(** [Scheduler::set_lane_info]: an unknown lane is ignored. *)
Definition set_lane_info (s : Scheduler) (l : nat) (i : LaneInfo) : Scheduler := upd_lane s l (set_info i).

(** [Scheduler::admit]: the loop body, then the loop with the index range. *)
Definition admit_one (s : Scheduler) (ch : bytes * Z) : Scheduler :=
  match index s !! ch.1 with
  | Some _ => s
  | None =>
      let idx := length (chunks s) in
      mkSched (cfg s) (policy s) (lanes s) (chunks s ++ [mkChunk ch.1 ch.2 Pending 0 [] 0 false None]) (groups s)
        (pending s ++ [idx]) (<[ch.1 := idx]> (index s)) (next_batch_id s) (outstanding s) (hedges_used s)
        (acked s) (failed s) (skipped s)
  end.
Definition admit_chunks (s : Scheduler) (chs : list (bytes * Z)) : Scheduler * (nat * nat) :=
  let s' := foldl admit_one s chs in (s', (length (chunks s), length (chunks s'))).

(** [Scheduler::admit_group]. *)
Definition admit_group (s : Scheduler) (chs : list (bytes * Z)) (need : Z) : Scheduler * (nat * nat) :=
  let gid := length (groups s) in
  let s1 := mkSched (cfg s) (policy s) (lanes s) (chunks s) (groups s ++ [mkGroup need 0]) (pending s) (index s)
              (next_batch_id s) (outstanding s) (hedges_used s) (acked s) (failed s) (skipped s) in
  let '(s2, (start, fin)) := admit_chunks s1 chs in
  (set_chunks s2 (take start (chunks s2) ++ map (set_group gid) (drop start (chunks s2))) (pending s2)
     (acked s2) (failed s2) (skipped s2), (start, fin)).

(** [fn proximity]. *)
Fixpoint proximity_from (i : Z) (a b : bytes) : Z :=
  match a, b with
  | x :: a', y :: b' =>
      let d := Z.lxor x y in
      if d =? 0 then proximity_from (i + 1) a' b' else wrap 8 (i * 8 + (7 - Z.log2 d))
  | _, _ => 255
  end.
Definition proximity (a b : bytes) : Z := proximity_from 0 a b.

(** [fn hash64]: splitmix64 over the address folded with the lane. *)
Fixpoint hash_words (n : nat) (a : bytes) (acc : Z) : Z :=
  match n with
  | O => acc
  | S n' =>
      let acc := Z.lxor acc (from_le_bytes (take 8 a)) in
      let acc := wrap 64 (acc * 0xBF58476D1CE4E5B9) in
      hash_words n' (drop 8 a) (Z.lxor acc (Z.shiftr acc 31))
  end.
Definition hash64 (a : bytes) (lane : Z) : Z :=
  let acc := hash_words (length a / 8) a (wrap 64 (lane * 0x9E3779B97F4A7C15)) in
  let z := wrap 64 (acc + 0x9E3779B97F4A7C15) in
  let z := wrap 64 (Z.lxor z (Z.shiftr z 30) * 0xBF58476D1CE4E5B9) in
  let z := wrap 64 (Z.lxor z (Z.shiftr z 27) * 0x94D049BB133111EB) in
  Z.lxor z (Z.shiftr z 31).

Section Scheduler.
(** The platform's logarithm and the iteration order of a [HashMap]. *)
Context (ln : f64 -> f64) (iter_order : list (nat * list nat) -> list (nat * list nat)).

(** [Scheduler::score]. *)
Definition score (s : Scheduler) (ci lane : nat) : f64 :=
  let l := lanes s !!! lane in
  let a := addr (chunks s !!! ci) in
  let w := weight l (cfg s) in
  let w := if f64_lt (f64_of_Z 0) (proximity_alpha (cfg s)) then
             match overlay (info l) with
             | Some ov =>
                 let po := f64_of_Z (proximity a ov) in
                 f64_mul w (f64_add f64_1 (f64_mul (proximity_alpha (cfg s)) (f64_div (f64_min po PROX_CAP) PROX_CAP)))
             | None => w
             end
           else w in
  let h := hash64 a (Z.of_nat (id l)) in
  let u := f64_div (f64_add (f64_of_Z h) f64_1) (f64_add (f64_of_Z U64_MAX) f64_1) in
  let denom := f64_neg (ln u) in
  if f64_le denom F64_MIN_POSITIVE then F64_MAX else f64_div w denom.

(** [Scheduler::rank_nth]: a stable sort, descending by score, ties by lane. *)
Definition ranks_after (a b : f64 * nat) : bool :=
  f64_lt a.1 b.1 || (negb (f64_lt b.1 a.1) && Nat.ltb b.2 a.2).
Fixpoint rank_insert (x : f64 * nat) (l : list (f64 * nat)) : list (f64 * nat) :=
  match l with
  | [] => [x]
  | y :: l' => if ranks_after x y then y :: rank_insert x l' else x :: l
  end.
Definition rank_nth (s : Scheduler) (ci : nat) (elig : list nat) (n : nat) : option nat :=
  snd <$> (foldr rank_insert [] (map (fun l => (score s ci l, l)) elig) !! n).
Definition rank_lane (s : Scheduler) (ci : nat) (elig : list nat) : option nat := rank_nth s ci elig 0.

(** [Scheduler::expire_backoffs]. *)
Definition expire (now_ms : Z) (l : Lane) : Lane :=
  match health l with
  | Backoff until_ms => if until_ms <=? now_ms then set_health Warming l else l
  | _ => l
  end.
Definition expire_backoffs (s : Scheduler) (now_ms : Z) : Scheduler := set_lanes s (map (expire now_ms) (lanes s)).

(** [Scheduler::dispatch]. *)
Definition carry (lane : nat) (hedge : bool) (now_ms : Z) (c : ChunkState) : ChunkState :=
  if hedge then mkChunk (addr c) (size_of c) (phase c) (attempts c) (on c ++ [lane]) (since_ms c) (hedged c) (group c)
  else mkChunk (addr c) (size_of c) InFlight (wrap 16 (attempts c + 1)) (on c ++ [lane]) now_ms (hedged c) (group c).

Definition dispatch (s : Scheduler) (lane : nat) (picked : list nat) (hedge : bool) (now_ms : Z)
    : Scheduler * Assignment :=
  let b := next_batch_id s in
  let cs := foldl (fun cs ci => alter (carry lane hedge now_ms) ci cs) (chunks s) picked in
  let pend := if hedge then pending s else List.filter (phase_is Pending cs) (pending s) in
  (mkSched (cfg s) (policy s) (alter (fun l => set_inflight (inflight l + 1) l) lane (lanes s)) cs (groups s) pend
     (index s) (b + 1) (<[b := (lane, picked)]> (outstanding s)) (hedges_used s) (acked s) (failed s) (skipped s),
   mkAssignment b lane picked hedge).

(** The lanes that are eligible, and those that could take a batch now. *)
Definition eligible_lanes (s : Scheduler) (now_ms : Z) : list nat :=
  List.filter (fun l => eligible (lanes s !!! l) now_ms) (seq 0 (length (lanes s))).
Definition has_room (s : Scheduler) (l : nat) : bool :=
  Nat.ltb (inflight (lanes s !!! l)) (capacity (lanes s !!! l) (cfg s)).
Definition free_lanes (s : Scheduler) (now_ms : Z) : list nat :=
  List.filter (fun l => eligible (lanes s !!! l) now_ms && has_room s l) (seq 0 (length (lanes s))).

(** [Scheduler::next_hedge]: the stragglers by their second lane, then the lane
    with most of them ([max_by_key] keeps the last maximum). *)
Definition hedge_target (s : Scheduler) (elig : list nat) (now_ms : Z) (ci : nat) : option nat :=
  let c := chunks s !!! ci in
  match phase c, hedged c, on c with
  | InFlight, false, cur :: _ =>
      if sat_sub now_ms (since_ms c) <? hedge_deadline_ms (lanes s !!! cur) (cfg s) then None
      else
        match rank_nth s ci elig 1 with
        | None => None
        | Some alt => if Nat.eqb alt cur || negb (has_room s alt) then None else Some alt
        end
  | _, _, _ => None
  end.
Definition by_lane (s : Scheduler) (elig : list nat) (now_ms : Z) : gmap nat (list nat) :=
  foldl (fun m ci => match hedge_target s elig now_ms ci with
                     | Some alt => <[alt := default [] (m !! alt) ++ [ci]]> m
                     | None => m
                     end) ∅ (seq 0 (length (chunks s))).
Definition max_by_len (l : list (nat * list nat)) : option (nat * list nat) :=
  match l with
  | [] => None
  | x :: l' => Some (foldl (fun best y => if Nat.ltb (length y.2) (length best.2) then best else y) x l')
  end.
Definition hedge_budget (s : Scheduler) : Z :=
  Z.max (f64_ceil_as_usize (f64_mul (f64_of_Z (Z.of_nat (length (chunks s)))) (hedge_fraction (cfg s)))) 8.

Definition next_hedge (s : Scheduler) (now_ms : Z) : option (Scheduler * Assignment) :=
  if hedge_budget s <=? hedges_used s then None
  else
    let elig := eligible_lanes s now_ms in
    if Nat.ltb (length elig) 2 then None
    else
      match max_by_len (iter_order (map_to_list (by_lane s elig now_ms))) with
      | None => None
      | Some (lane, picked) =>
          let cap := Z.min (Z.of_nat (batch_size (lanes s !!! lane) (cfg s))) (sat_sub (hedge_budget s) (hedges_used s)) in
          let picked := take (Z.to_nat cap) picked in
          match picked with
          | [] => None
          | _ =>
              let cs := foldl (fun cs ci => alter (fun c => set_phase (phase c) (on c) true c) ci cs) (chunks s) picked in
              let s1 := mkSched (cfg s) (policy s) (lanes s) cs (groups s) (pending s) (index s) (next_batch_id s)
                          (outstanding s) (hedges_used s + Z.of_nat (length picked)) (acked s) (failed s) (skipped s) in
              Some (dispatch s1 lane picked true now_ms)
          end
      end.

(** [Scheduler::next]: the first-choice work of a lane, the best lane, and the
    fallback that gives an idle lane the oldest work. *)
Fixpoint pick_for (s : Scheduler) (elig : list nat) (l want : nat) (pend picked : list nat) : list nat :=
  match pend with
  | [] => picked
  | ci :: pend' =>
      if negb (phase_is Pending (chunks s) ci) then pick_for s elig l want pend' picked
      else if bool_decide (rank_lane s ci elig = Some l) then
        let picked := picked ++ [ci] in
        if Nat.eqb (length picked) want then picked else pick_for s elig l want pend' picked
      else pick_for s elig l want pend' picked
  end.

Definition better (s : Scheduler) (l : nat) (picked : list nat) (best : option (nat * list nat)) : bool :=
  match best with
  | None => true
  | Some (bl, bp) =>
      Nat.ltb (length bp) (length picked) ||
      (Nat.eqb (length bp) (length picked) && f64_lt (weight (lanes s !!! bl) (cfg s)) (weight (lanes s !!! l) (cfg s)))
  end.

Definition best_step (s : Scheduler) (elig : list nat) (best : option (nat * list nat)) (l : nat)
    : option (nat * list nat) :=
  let picked := pick_for s elig l (batch_size (lanes s !!! l) (cfg s)) (pending s) [] in
  match picked with
  | [] => best
  | _ => if better s l picked best then Some (l, picked) else best
  end.

Definition heaviest (s : Scheduler) (x : nat) (rest : list nat) : nat :=
  foldl (fun best l =>
           if f64_lt (weight (lanes s !!! l) (cfg s)) (weight (lanes s !!! best) (cfg s)) then best else l) x rest.

Definition choose (s : Scheduler) (now_ms : Z) : option (nat * list nat) :=
  match pending s, free_lanes s now_ms with
  | [], _ | _, [] => None
  | _, x :: rest =>
      match foldl (best_step s (eligible_lanes s now_ms)) None (x :: rest) with
      | Some b => Some b
      | None =>
          let l := heaviest s x rest in
          let picked := take (batch_size (lanes s !!! l) (cfg s)) (List.filter (phase_is Pending (chunks s)) (pending s)) in
          match picked with [] => None | _ => Some (l, picked) end
      end
  end.

Definition next (s : Scheduler) (now_ms : Z) : Scheduler * option Assignment :=
  let s := expire_backoffs s now_ms in
  match next_hedge s now_ms with
  | Some (s', a) => (s', Some a)
  | None =>
      match choose s now_ms with
      | None => (s, None)
      | Some (lane, picked) => let '(s', a) := dispatch s lane picked false now_ms in (s', Some a)
      end
  end.

(** [Scheduler::on_group_ack]. *)
Definition on_group_ack (s : Scheduler) (ci : nat) : Scheduler :=
  match policy s, group (chunks s !!! ci) with
  | Group, Some gid =>
      match groups s !! gid with
      | None => s
      | Some g =>
          let g' := mkGroup (need g) (wrap 16 (group_acked g + 1)) in
          let s1 := mkSched (cfg s) (policy s) (lanes s) (chunks s) (<[gid := g']> (groups s)) (pending s) (index s)
                      (next_batch_id s) (outstanding s) (hedges_used s) (acked s) (failed s) (skipped s) in
          if group_acked g' <? need g' then s1
          else
            let hit c := bool_decide (group c = Some gid) && bool_decide (phase c = Pending) in
            let cs := map (fun c => if hit c then set_phase Skipped (on c) (hedged c) c else c) (chunks s) in
            set_chunks s1 cs (List.filter (phase_is Pending cs) (pending s)) (acked s) (failed s)
              (skipped s + length (List.filter hit (chunks s)))
      end
  | _, _ => s
  end.

(** What [on_ack] and [on_batch_result] do with a chunk no lane carries any more:
    it is given up, or queued again. *)
Definition mark_failed (s : Scheduler) (ci : nat) : Scheduler :=
  set_chunks s (alter (fun c => set_phase Failed (on c) (hedged c) c) ci (chunks s)) (pending s) (acked s)
    (failed s + 1) (skipped s).
Definition requeue (s : Scheduler) (ci : nat) : Scheduler :=
  set_chunks s (alter (fun c => set_phase Pending (on c) false c) ci (chunks s)) (pending s ++ [ci]) (acked s)
    (failed s) (skipped s).
Definition drop_lane (s : Scheduler) (ci lane : nat) : Scheduler :=
  set_chunks s
    (alter (fun c => set_phase (phase c) (List.filter (fun l => negb (Nat.eqb l lane)) (on c)) (hedged c) c) ci (chunks s))
    (pending s) (acked s) (failed s) (skipped s).

(** [Scheduler::on_ack]. *)
Definition on_ack (s : Scheduler) (lane : nat) (a : bytes) (ok : bool) (now_ms : Z) : Scheduler :=
  match index s !! a with
  | None => s
  | Some ci =>
      if phase_is Done (chunks s) ci || phase_is Skipped (chunks s) ci then s
      else if ok then
        let s1 := set_chunks s (alter (fun c => set_phase Done [] (hedged c) c) ci (chunks s)) (pending s)
                    (acked s + 1) (failed s) (skipped s) in
        let s2 := upd_lane s1 lane (fun l =>
                    set_totals (wrap 64 (acked_total l + 1)) (failed_total l)
                      (wrap 64 (bytes_total l + size_of (chunks s !!! ci))) l) in
        on_group_ack s2 ci
      else
        let s1 := upd_lane s lane (fun l =>
                    set_totals (acked_total l) (wrap 64 (failed_total l + 1)) (bytes_total l) l) in
        let s2 := drop_lane s1 ci lane in
        match on (chunks s2 !!! ci) with
        | [] => if max_attempts (cfg s) <=? attempts (chunks s2 !!! ci) then mark_failed s2 ci else requeue s2 ci
        | _ => s2
        end
  end.

(** [Scheduler::fund_lane], [retire_lane], [set_lane_batch_max], [unfunded_lanes]. *)
Definition fund_lane (s : Scheduler) (lane : nat) : Scheduler :=
  upd_lane s lane (fun l =>
    if bool_decide (health l = Unfunded) then set_health (if 0 <? bytes_total l then Live else Warming) l else l).
Definition retire_lane (s : Scheduler) (lane : nat) : Scheduler := upd_lane s lane (set_health Retired).
Definition set_lane_batch_max (s : Scheduler) (lane max : nat) : Scheduler :=
  upd_lane s lane (fun l =>
    let i := info l in
    set_info (mkInfo (overlay i) (Some (Nat.max max 1)) (inflight_max i) (budget_remaining_gb i) (pool_live i)
                (price_plur_per_kib i) (hard_enforcement i)) l).
Definition unfunded_lanes (s : Scheduler) : list nat :=
  List.filter (fun i => bool_decide (health (lanes s !!! i) = Unfunded)) (seq 0 (length (lanes s))).

(** [Scheduler::on_batch_result]. *)
Definition lane_failure (now_ms : Z) (l : Lane) : Lane :=
  let fs := S (fail_streak l) in
  if Nat.leb FAIL_STREAK fs then
    let be := S (backoff_exp l) in
    if Nat.ltb MAX_BACKOFF_EXP be then set_streak 0 be Retired l
    else
      let wait := Z.min (Z.shiftl BACKOFF_BASE_MS (Z.of_nat (be - 1))) BACKOFF_MAX_MS in
      set_streak 0 be (Backoff (wrap 64 (now_ms + wait))) l
  else set_streak fs (backoff_exp l) (health l) l.

Definition refund (cs : list ChunkState) (ci : nat) : list ChunkState :=
  if phase_is Done cs ci || phase_is Skipped cs ci then cs
  else alter (fun c => set_attempts (sat_sub (attempts c) 1) c) ci cs.

Definition resolve_chunk (lane : nat) (s : Scheduler) (ci : nat) : Scheduler :=
  if phase_is Done (chunks s) ci || phase_is Skipped (chunks s) ci then s
  else
    let s1 := drop_lane s ci lane in
    match on (chunks s1 !!! ci) with
    | [] =>
        if max_attempts (cfg s) <=? attempts (chunks s1 !!! ci)
        then if phase_is Failed (chunks s1) ci then s1 else mark_failed s1 ci
        else if phase_is Pending (chunks s1) ci then s1 else requeue s1 ci
    | _ => s1
    end.

Definition on_batch_result (s : Scheduler) (b : nat) (outcome : BatchOutcome) (now_ms : Z) : Scheduler :=
  match outstanding s !! b with
  | None => s
  | Some (lane, cks) =>
      let s1 := mkSched (cfg s) (policy s) (alter (fun l => set_inflight (inflight l - 1) l) lane (lanes s)) (chunks s)
                  (groups s) (pending s) (index s) (next_batch_id s) (delete b (outstanding s)) (hedges_used s)
                  (acked s) (failed s) (skipped s) in
      let acked_here := length (List.filter (phase_is Done (chunks s)) cks) in
      let s2 :=
        match outcome with
        | PaymentRequired =>
            let s2 := upd_lane s1 lane (set_health Unfunded) in
            set_chunks s2 (foldl refund (chunks s2) cks) (pending s2) (acked s2) (failed s2) (skipped s2)
        | Answered =>
            if Nat.ltb 0 acked_here then upd_lane s1 lane (set_streak 0 0 Live) else upd_lane s1 lane (lane_failure now_ms)
        | BatchFailed _ => upd_lane s1 lane (lane_failure now_ms)
        end in
      foldl (resolve_chunk lane) s2 cks
  end.

(** [Scheduler::on_batch_timing]. *)
Definition ewma (old sample : f64) : f64 :=
  if f64_eq old (f64_of_Z 0) then sample
  else f64_add (f64_mul (f64_lit 7 10) old) (f64_mul (f64_lit 3 10) sample).
Definition on_batch_timing (s : Scheduler) (lane n : nat) (elapsed_ms : Z) : Scheduler :=
  upd_lane s lane (fun l =>
    let ms := f64_of_Z (Z.max elapsed_ms 1) in
    let b := ewma (batch_ms l) ms in
    if Nat.ltb n RATE_MIN_SAMPLE then set_timing (rate l) b l
    else set_timing (ewma (rate l) (f64_div (f64_mul (f64_of_Z (Z.of_nat n)) (f64_of_Z 1000)) ms)) b l).

(** [Scheduler::done], [failed_addrs], [stalled], [next_wake_ms]. *)
Definition sched_done (s : Scheduler) : bool := Nat.leb (length (chunks s)) (acked s + failed s + skipped s).
Definition failed_addrs (s : Scheduler) : list bytes :=
  map addr (List.filter (fun c => bool_decide (phase c = Failed)) (chunks s)).
Definition in_flight (s : Scheduler) : nat := size (outstanding s).

Definition stalled (s : Scheduler) (now_ms : Z) : option StallReason :=
  if sched_done s || negb (bool_decide (outstanding s = ∅)) then None
  else if negb (existsb (fun l => eligible l now_ms) (lanes s)) then
    if forallb (fun l => bool_decide (health l = Retired)) (lanes s) then Some AllLanesDown
    else if forallb (fun l => bool_decide (health l = Retired) || bool_decide (health l = Unfunded)) (lanes s)
    then Some AllLanesDown
    else None
  else match pending s with [] => Some ChunksExhausted | _ => None end.

Definition bump (wake : option Z) (t : Z) : option Z := Some (match wake with Some w => Z.min w t | None => t end).
Definition next_wake_ms (s : Scheduler) (now_ms : Z) : option Z :=
  let w := foldl (fun w l => match health l with
                             | Backoff until_ms => if now_ms <? until_ms then bump w until_ms else w
                             | _ => w
                             end) None (lanes s) in
  foldl (fun w c => match phase c, hedged c, on c with
                    | InFlight, false, l :: _ =>
                        bump w (wrap 64 (since_ms c + hedge_deadline_ms (lanes s !!! l) (cfg s)))
                    | _, _, _ => w
                    end) w (chunks s).

End Scheduler.
