(* ===== verification/PushSchedInv.v ===== *)
(** * What the lane scheduler guarantees

    The states the scheduler of [PushSched] reaches under any sequence of calls,
    whatever the driver reports and in whatever order, and the invariant that no
    chunk is lost in any of them. *)
From Stdlib Require Import ZArith Lia.
From stdpp Require Import base tactics numbers list gmap.
From S2P Require Import Prelude F64 PushSched.
Local Open Scope Z_scope.

(** ** Reachable states *)

Section Reach.
Context (ln : f64 -> f64).

(** One call of the driver; every call may meet another [HashMap] order. *)
Inductive step (s : Scheduler) : Scheduler -> Prop :=
| st_info l i : step s (set_lane_info s l i)
| st_admit chs : step s (admit_chunks s chs).1
| st_admit_group chs n : step s (admit_group s chs n).1
| st_next iter now : (forall l, iter l ≡ₚ l) -> step s (next ln iter s now).1
| st_ack l a ok now : step s (on_ack s l a ok now)
| st_fund l : step s (fund_lane s l)
| st_retire l : step s (retire_lane s l)
| st_batch_max l m : step s (set_lane_batch_max s l m)
| st_result b o now : step s (on_batch_result s b o now)
| st_timing l n ms : step s (on_batch_timing s l n ms).

Inductive reachable : Scheduler -> Prop :=
| r_new infos c p : reachable (with_policy infos c p)
| r_step s s' : reachable s -> step s s' -> reachable s'.
End Reach.

(** ** The invariant *)

Definition count (p : ChunkPhase) (cs : list ChunkState) : nat :=
  length (List.filter (fun c => bool_decide (phase c = p)) cs).
Definition b2n (b : bool) : nat := if b then 1 else 0.

(** An unresolved batch on lane [l] carries the chunk. *)
Definition carried (s : Scheduler) (ci l : nat) : Prop :=
  exists b cks, outstanding s !! b = Some (l, cks) /\ ci ∈ cks.
Definition on_lane (i : nat) (o : gmap nat (nat * list nat)) : nat := size (filter (fun kv => kv.2.1 = i) o).

(** While a batch of [lane] is being resolved its chunks [X] may still name the
    lane; otherwise [X] is empty. *)
Record SInvW (X : list nat) (lane : nat) (s : Scheduler) : Prop := {
  i_idx : forall a ci, index s !! a = Some ci <-> exists c, chunks s !! ci = Some c /\ addr c = a;
  i_range : forall ci, ci ∈ pending s -> (ci < length (chunks s))%nat;
  i_pend : forall ci c, chunks s !! ci = Some c -> phase c = Pending -> ci ∈ pending s /\ on c = [];
  i_fly : forall ci c, chunks s !! ci = Some c -> phase c = InFlight ->
    on c <> [] /\ forall l, l ∈ on c -> carried s ci l \/ (l = lane /\ ci ∈ X);
  i_out : forall b l cks, outstanding s !! b = Some (l, cks) ->
    (b < next_batch_id s)%nat /\ (l < length (lanes s))%nat /\ forall ci, ci ∈ cks -> (ci < length (chunks s))%nat;
  i_lane : forall i l, lanes s !! i = Some l -> inflight l = on_lane i (outstanding s);
  i_done : acked s = count Done (chunks s);
  i_skip : skipped s = count Skipped (chunks s);
  i_fail : (count Failed (chunks s) <= failed s)%nat }.

Abbreviation SInv := (SInvW [] 0).

Lemma SInv_any lane lane' s : SInvW [] lane s -> SInvW [] lane' s.
Proof.
  intros [? ? ? Hf ? ? ? ? ?]. split; auto. intros ci c Hc Hp. destruct (Hf ci c Hc Hp) as [? Hl].
  split; [done|]. intros l Hin. destruct (Hl l Hin) as [|[_ ?%not_elem_of_nil]]; [by left|done].
Qed.

(** ** Counting phases *)

Lemma count_app p l1 l2 : count p (l1 ++ l2) = (count p l1 + count p l2)%nat.
Proof. unfold count. by rewrite List.filter_app, length_app. Qed.

Lemma count_fresh p c : phase c <> p -> count p [c] = 0%nat.
Proof. intros Hp. unfold count. cbn [List.filter]. by rewrite bool_decide_eq_false_2. Qed.

Lemma count_insert p cs ci c c' : cs !! ci = Some c ->
  (count p (<[ci := c']> cs) + b2n (bool_decide (phase c = p)) = count p cs + b2n (bool_decide (phase c' = p)))%nat.
Proof.
  intros Hc. rewrite (insert_take_drop cs ci c') by (by apply lookup_lt_Some in Hc).
  rewrite <- (take_drop_middle cs ci c Hc) at 3. rewrite !count_app.
  unfold count. cbn [List.filter]. repeat case_bool_decide; cbn; lia.
Qed.

Lemma count_total cs :
  (count Pending cs + count InFlight cs + count Done cs + count Failed cs + count Skipped cs = length cs)%nat.
Proof.
  induction cs as [|c cs IH]; [done|]. unfold count in *. cbn [List.filter length].
  destruct (phase c);
    repeat first [rewrite bool_decide_eq_true_2 by done|rewrite bool_decide_eq_false_2 by done]; cbn [length]; lia.
Qed.

Lemma count_pos p cs ci c : cs !! ci = Some c -> phase c = p -> (0 < count p cs)%nat.
Proof.
  intros Hc Hp. rewrite <- (take_drop_middle cs ci c Hc), count_app. unfold count at 2. cbn [List.filter].
  rewrite bool_decide_eq_true_2 by done. cbn. lia.
Qed.

Lemma count_zero p cs : (forall ci c, cs !! ci = Some c -> phase c <> p) -> count p cs = 0%nat.
Proof.
  intros Hall. unfold count. induction cs as [|c cs IH]; [done|]. cbn [List.filter].
  rewrite bool_decide_eq_false_2 by (apply (Hall 0%nat); done). apply IH. intros ci c' Hc. by apply (Hall (S ci)).
Qed.

(** ** Changing one chunk *)

Lemma inv_update X X' lane s ci c c' pend' a' f' k' :
  SInvW X lane s -> chunks s !! ci = Some c -> addr c' = addr c ->
  (forall x, x ∈ X -> x ∈ X' \/ x = ci) ->
  (forall x, x ∈ pend' <-> x ∈ pending s \/ (x = ci /\ x ∈ pend')) ->
  (phase c' = Pending -> ci ∈ pend' /\ on c' = []) ->
  (phase c' = InFlight -> on c' <> [] /\ forall l, l ∈ on c' -> carried s ci l \/ (l = lane /\ ci ∈ X')) ->
  (a' + b2n (bool_decide (phase c = Done)) = acked s + b2n (bool_decide (phase c' = Done)))%nat ->
  (k' + b2n (bool_decide (phase c = Skipped)) = skipped s + b2n (bool_decide (phase c' = Skipped)))%nat ->
  (failed s + b2n (bool_decide (phase c' = Failed)) <= f' + b2n (bool_decide (phase c = Failed)))%nat ->
  SInvW X' lane (set_chunks s (<[ci := c']> (chunks s)) pend' a' f' k').
Proof.
  intros [Hidx Hrange Hpend Hfly Hout Hlane Hdone Hskip Hfail] Hc Ha HX Hp Hp' Hf' Ea Ek Ef.
  assert (Hlt : (ci < length (chunks s))%nat) by (by apply lookup_lt_Some in Hc).
  split; cbn [index pending chunks outstanding next_batch_id lanes acked failed skipped set_chunks].
  - intros a i. rewrite Hidx. destruct (decide (i = ci)) as [->|Hne];
      [rewrite list_lookup_insert_eq by done|by rewrite list_lookup_insert_ne by done].
    split; intros (x & Hx & <-); [exists c'; split; [done|]; rewrite Ha; congruence|].
    exists c. split; [done|]. congruence.
  - intros x Hx. rewrite length_insert. apply Hp in Hx as [?|[-> _]]; auto.
  - intros i x. destruct (decide (i = ci)) as [->|Hne];
      [rewrite list_lookup_insert_eq by done|rewrite list_lookup_insert_ne by done].
    + intros [= <-]. apply Hp'.
    + intros Hx Hph. destruct (Hpend i x Hx Hph). split; [|done]. apply Hp. by left.
  - intros i x. destruct (decide (i = ci)) as [->|Hne];
      [rewrite list_lookup_insert_eq by done|rewrite list_lookup_insert_ne by done].
    + intros [= <-]. apply Hf'.
    + intros Hx Hph. destruct (Hfly i x Hx Hph) as [? Hl]. split; [done|]. intros l Hin.
      destruct (Hl l Hin) as [?|[-> Hin']]; [by left|right]. split; [done|]. by destruct (HX i Hin').
  - intros b l cks Hb. rewrite length_insert. eauto.
  - done.
  - pose proof (count_insert Done (chunks s) ci c c' Hc). lia.
  - pose proof (count_insert Skipped (chunks s) ci c c' Hc). lia.
  - pose proof (count_insert Failed (chunks s) ci c c' Hc). lia.
Qed.

(** ** Changes that leave phases and carriers alone *)

Definition view (c : ChunkState) : bytes * ChunkPhase * list nat := (addr c, phase c, on c).

Lemma count_view p cs cs' : map view cs' = map view cs -> count p cs' = count p cs.
Proof.
  revert cs'. induction cs as [|c cs IH]; intros [|c' cs'] E; try done.
  cbn in E. injection E as _ E2 _ E. unfold count in *. cbn [List.filter]. rewrite E2.
  case_bool_decide; cbn; by rewrite (IH cs').
Qed.

Lemma view_lookup cs cs' i c' : map view cs' = map view cs -> cs' !! i = Some c' ->
  exists c, cs !! i = Some c /\ view c' = view c.
Proof.
  intros E Hc. assert (H : map view cs' !! i = Some (view c')) by (rewrite list_lookup_fmap, Hc; done).
  rewrite E in H. apply list_lookup_fmap_Some in H as (c & ? & ?). eauto.
Qed.

Lemma inv_same X lane s cs' : SInvW X lane s -> map view cs' = map view (chunks s) ->
  SInvW X lane (set_chunks s cs' (pending s) (acked s) (failed s) (skipped s)).
Proof.
  intros [Hidx Hrange Hpend Hfly Hout Hlane Hdone Hskip Hfail] E.
  assert (Hlen : length cs' = length (chunks s)) by (apply (f_equal length) in E; by rewrite !length_map in E).
  split; cbn [index pending chunks outstanding next_batch_id lanes acked failed skipped set_chunks];
    rewrite ?Hlen, ?(count_view _ _ _ E); auto.
  - intros a ci. rewrite Hidx. split; intros (c & Hc & <-).
    + destruct (view_lookup cs' (chunks s) ci c (eq_sym E) Hc) as (c' & Hc' & Ev). injection Ev as ?. eauto.
    + destruct (view_lookup (chunks s) cs' ci c E Hc) as (c' & Hc' & Ev). injection Ev as ?. eauto.
  - intros ci c Hc Hp. destruct (view_lookup _ _ ci c E Hc) as (c' & Hc' & Ev). injection Ev as _ Ep Eo.
    rewrite Eo. apply (Hpend ci c'); congruence.
  - intros ci c Hc Hp. destruct (view_lookup _ _ ci c E Hc) as (c' & Hc' & Ev). injection Ev as _ Ep Eo.
    rewrite Eo. apply (Hfly ci c'); congruence.
Qed.

Lemma inv_lanes X lane s ls : SInvW X lane s -> map inflight ls = map inflight (lanes s) ->
  SInvW X lane (set_lanes s ls).
Proof.
  intros [Hidx Hrange Hpend Hfly Hout Hlane Hdone Hskip Hfail] E.
  assert (Hlen : length ls = length (lanes s)) by (apply (f_equal length) in E; by rewrite !length_map in E).
  split; cbn [index pending chunks outstanding next_batch_id lanes acked failed skipped set_lanes]; rewrite ?Hlen; auto.
  intros i l Hl. assert (H : map inflight ls !! i = Some (inflight l)) by (rewrite list_lookup_fmap, Hl; done).
  rewrite E in H. apply list_lookup_fmap_Some in H as (l' & -> & ?). auto.
Qed.

Lemma map_alter_same {A B} (g : A -> B) (f : A -> A) i (l : list A) :
  (forall x, g (f x) = g x) -> map g (alter f i l) = map g l.
Proof.
  intros Hf. apply list_eq. intros j. rewrite !list_lookup_fmap. destruct (decide (j = i)) as [->|].
  - rewrite list_lookup_alter_eq. destruct (l !! i); cbn; congruence.
  - by rewrite list_lookup_alter_ne.
Qed.

Lemma inv_upd_lane X lane s i f : SInvW X lane s -> (forall l, inflight (f l) = inflight l) ->
  SInvW X lane (upd_lane s i f).
Proof. intros HI Hf. apply inv_lanes; [done|]. by apply map_alter_same. Qed.

Lemma inv_prune X lane s : SInvW X lane s ->
  SInvW X lane (set_chunks s (chunks s) (List.filter (phase_is Pending (chunks s)) (pending s)) (acked s) (failed s) (skipped s)).
Proof.
  intros [Hidx Hrange Hpend Hfly Hout Hlane Hdone Hskip Hfail].
  split; cbn [index pending chunks outstanding next_batch_id lanes acked failed skipped set_chunks]; auto.
  - intros ci Hci. apply list_elem_of_In, List.filter_In in Hci as [Hci _]. by apply Hrange, list_elem_of_In.
  - intros ci c Hc Hp. destruct (Hpend ci c Hc Hp) as [Hin ?]. split; [|done].
    apply list_elem_of_In, List.filter_In. split; [by apply list_elem_of_In|].
    unfold phase_is. rewrite (list_lookup_total_correct _ _ _ Hc). by apply bool_decide_eq_true_2.
Qed.

(** ** Admission *)

Lemma inv_admit_one X lane s ch : SInvW X lane s -> SInvW X lane (admit_one s ch).
Proof.
  intros HI. unfold admit_one. destruct (index s !! ch.1) as [i|] eqn:E; [done|].
  destruct HI as [Hidx Hrange Hpend Hfly Hout Hlane Hdone Hskip Hfail].
  split; cbn [index pending chunks outstanding next_batch_id lanes acked failed skipped].
  - intros a ci. destruct (decide (a = ch.1)) as [->|Hne].
    + rewrite lookup_insert_eq. split.
      * intros [= <-]. eexists. split; [apply lookup_snoc_Some; by right|done].
      * intros (c & Hc & Ha). apply lookup_snoc_Some in Hc as [[_ Hc]|[-> _]]; [|done].
        assert (index s !! ch.1 = Some ci) by (apply Hidx; eauto). congruence.
    + rewrite lookup_insert_ne by done. rewrite Hidx. split; intros (c & Hc & Ha).
      * exists c. split; [|done]. by apply lookup_app_l_Some.
      * apply lookup_snoc_Some in Hc as [[_ Hc]|[_ <-]]; [eauto|]. cbn in Ha. congruence.
  - intros ci [Hci| ->%list_elem_of_singleton]%elem_of_app; rewrite length_app; cbn; [apply Hrange in Hci|]; lia.
  - intros ci c Hc Hp. rewrite elem_of_app, list_elem_of_singleton.
    apply lookup_snoc_Some in Hc as [[_ Hc]|[-> <-]]; [|by auto]. destruct (Hpend ci c Hc Hp). auto.
  - intros ci c Hc Hp. apply lookup_snoc_Some in Hc as [[_ Hc]|[-> <-]]; [|done]. exact (Hfly ci c Hc Hp).
  - intros b l cks Hb. destruct (Hout b l cks Hb) as (? & ? & Hc). split; [done|]. split; [done|].
    intros ci Hci. rewrite length_app. specialize (Hc ci Hci). lia.
  - done.
  - rewrite count_app, count_fresh by done. lia.
  - rewrite count_app, count_fresh by done. lia.
  - rewrite count_app, count_fresh by done. lia.
Qed.

Lemma inv_admit X lane s chs : SInvW X lane s -> SInvW X lane (admit_chunks s chs).1.
Proof.
  unfold admit_chunks. cbn [fst]. revert s. induction chs as [|ch chs IH]; intros s HI; [done|].
  cbn [foldl]. by apply IH, inv_admit_one.
Qed.

Lemma inv_groups X lane s gs : SInvW X lane s ->
  SInvW X lane (mkSched (cfg s) (policy s) (lanes s) (chunks s) gs (pending s) (index s)
              (next_batch_id s) (outstanding s) (hedges_used s) (acked s) (failed s) (skipped s)).
Proof. intros []. by split. Qed.

Lemma inv_admit_group X lane s chs n : SInvW X lane s -> SInvW X lane (admit_group s chs n).1.
Proof.
  intros HI. unfold admit_group. set (s1 := mkSched _ _ _ _ _ _ _ _ _ _ _ _ _).
  assert (H1 : SInvW X lane s1) by (by apply inv_groups). clearbody s1.
  pose proof (inv_admit X lane s1 chs H1) as H2. destruct (admit_chunks s1 chs) as [s2 [st fin]]. cbn [fst] in *.
  apply inv_same; [done|]. rewrite map_app, map_map, <- map_app. by rewrite take_drop.
Qed.

(** ** Resolving a chunk *)

Lemma alter_insert {A} (f : A -> A) i (l : list A) x : l !! i = Some x -> alter f i l = <[i := f x]> l.
Proof.
  intros Hx. apply list_eq. intros j. destruct (decide (j = i)) as [->|].
  - rewrite list_lookup_alter_eq, Hx, list_lookup_insert_eq by (by apply lookup_lt_Some in Hx). done.
  - by rewrite list_lookup_alter_ne, list_lookup_insert_ne.
Qed.

Lemma inv_weaken X X' lane s : SInvW X lane s -> (forall x, x ∈ X -> x ∈ X') -> SInvW X' lane s.
Proof.
  intros [? ? ? Hf ? ? ? ? ?] HX. split; auto. intros ci c Hc Hp. destruct (Hf ci c Hc Hp) as [? Hl].
  split; [done|]. intros l Hin. destruct (Hl l Hin) as [|[-> ?]]; auto.
Qed.

(** The chunk without the lane. *)
Definition dropped (lane : nat) (c : ChunkState) : ChunkState :=
  set_phase (phase c) (List.filter (fun l => negb (Nat.eqb l lane)) (on c)) (hedged c) c.

Lemma dropped_on lane c l : l ∈ on (dropped lane c) <-> l ∈ on c /\ l <> lane.
Proof.
  cbn. rewrite !list_elem_of_In, List.filter_In. rewrite Bool.negb_true_iff, Nat.eqb_neq. done.
Qed.

Section Resolving.
Context (X : list nat) (lane : nat) (s : Scheduler) (ci : nat) (c : ChunkState).
Context (HI : SInvW (ci :: X) lane s) (Hc : chunks s !! ci = Some c).

Lemma drop_lane_eq : drop_lane s ci lane =
  set_chunks s (<[ci := dropped lane c]> (chunks s)) (pending s) (acked s) (failed s) (skipped s).
Proof using Hc. clear HI. unfold drop_lane. by rewrite (alter_insert _ _ _ _ Hc). Qed.

Lemma drop_lane_at : chunks (drop_lane s ci lane) !! ci = Some (dropped lane c).
Proof using Hc. clear HI.
  rewrite drop_lane_eq. cbn [chunks set_chunks]. apply list_lookup_insert_eq. by apply lookup_lt_Some in Hc.
Qed.

Lemma tail_case : forall x, x ∈ ci :: X -> x ∈ X \/ x = ci.
Proof using. clear. intros x [->|]%elem_of_cons; auto. Qed.

Lemma same_pending : forall x, x ∈ pending s <-> x ∈ pending s \/ (x = ci /\ x ∈ pending s).
Proof using. clear. naive_solver. Qed.

Lemma inv_done_chunk : phase c <> InFlight -> SInvW X lane s.
Proof.
  intros Hp. destruct HI as [Hidx Hrange Hpend Hfly Hout Hlane Hdone Hskip Hfail]. split; auto.
  intros i x Hx Hph. destruct (Hfly i x Hx Hph) as [? Hl]. split; [done|]. intros l Hin.
  destruct (Hl l Hin) as [?|[-> [->|?]%elem_of_cons]]; [by left| |by right]. congruence.
Qed.

Lemma inv_drop : (phase c = InFlight -> on (dropped lane c) <> []) -> SInvW X lane (drop_lane s ci lane).
Proof.
  intros Hne. rewrite drop_lane_eq. apply (inv_update (ci :: X) X lane s ci c); try done.
  - exact tail_case.
  - exact same_pending.
  - intros Hp. destruct (i_pend _ _ _ HI ci c Hc Hp) as [? Ho]. split; [done|]. cbn. by rewrite Ho.
  - intros Hp. split; [auto|]. intros l [Hl Hn]%dropped_on.
    destruct (i_fly _ _ _ HI ci c Hc Hp) as [_ Hall]. destruct (Hall l Hl) as [?|[-> _]]; [by left|done].
Qed.

Lemma inv_drop_give_up : phase c <> Done -> phase c <> Skipped -> SInvW X lane (mark_failed (drop_lane s ci lane) ci).
Proof.
  intros H1 H2. unfold mark_failed. rewrite (alter_insert _ _ _ _ drop_lane_at). rewrite drop_lane_eq.
  cbn [chunks pending acked failed skipped set_chunks]. rewrite list_insert_insert_eq.
  change (SInvW X lane (set_chunks s (<[ci := set_phase Failed (on (dropped lane c)) (hedged c) (dropped lane c)]> (chunks s))
    (pending s) (acked s) (failed s + 1) (skipped s))).
  apply (inv_update (ci :: X) X lane s ci c); try done.
  - exact tail_case.
  - exact same_pending.
  - cbn [phase set_phase]. repeat case_bool_decide; cbn; (lia || congruence).
  - cbn [phase set_phase]. repeat case_bool_decide; cbn; (lia || congruence).
  - cbn [phase set_phase]. repeat case_bool_decide; cbn; (lia || congruence).
Qed.

Lemma inv_drop_requeue : phase c <> Done -> phase c <> Skipped -> on (dropped lane c) = [] ->
  SInvW X lane (requeue (drop_lane s ci lane) ci).
Proof.
  intros H1 H2 Ho. unfold requeue. rewrite (alter_insert _ _ _ _ drop_lane_at). rewrite drop_lane_eq.
  cbn [chunks pending acked failed skipped set_chunks]. rewrite list_insert_insert_eq.
  change (SInvW X lane (set_chunks s (<[ci := set_phase Pending (on (dropped lane c)) false (dropped lane c)]> (chunks s))
    (pending s ++ [ci]) (acked s) (failed s) (skipped s))).
  apply (inv_update (ci :: X) X lane s ci c); try done.
  - exact tail_case.
  - intros x. rewrite elem_of_app, list_elem_of_singleton. naive_solver.
  - intros _. rewrite elem_of_app, list_elem_of_singleton. auto.
  - cbn [phase set_phase]. repeat case_bool_decide; cbn; (lia || congruence).
  - cbn [phase set_phase]. repeat case_bool_decide; cbn; (lia || congruence).
  - cbn [phase set_phase]. repeat case_bool_decide; cbn; (lia || congruence).
Qed.

Lemma phase_is_at p : phase_is p (chunks s) ci = bool_decide (phase c = p).
Proof using Hc. clear HI. unfold phase_is. by rewrite (list_lookup_total_correct _ _ _ Hc). Qed.

Lemma inv_resolve_chunk : SInvW X lane (resolve_chunk lane s ci).
Proof.
  unfold resolve_chunk. rewrite !phase_is_at. case_bool_decide as Hd; [apply inv_done_chunk; congruence|].
  case_bool_decide as Hk; [apply inv_done_chunk; congruence|]. cbn [orb]. cbv zeta.
  rewrite (list_lookup_total_correct _ _ _ drop_lane_at).
  unfold phase_is. rewrite (list_lookup_total_correct _ _ _ drop_lane_at).
  destruct (on (dropped lane c)) as [|l0 rest] eqn:Ho; [|apply inv_drop; congruence].
  destruct (_ <=? _).
  - case_bool_decide as Hf; [apply inv_drop; cbn in Hf; congruence|by apply inv_drop_give_up].
  - case_bool_decide as Hp; [apply inv_drop; cbn in Hp; congruence|by apply inv_drop_requeue].
Qed.
End Resolving.

(** ** Acks *)

Lemma count_map_skip (hit : ChunkState -> bool) p cs :
  (forall c, hit c = true -> phase c = Pending) ->
  let cs' := map (fun c => if hit c then set_phase Skipped (on c) (hedged c) c else c) cs in
  (p <> Pending -> p <> Skipped -> count p cs' = count p cs) /\
  count Skipped cs' = (count Skipped cs + length (List.filter hit cs))%nat.
Proof.
  intros Hhit cs'. subst cs'. unfold count. induction cs as [|c cs [IH1 IH2]]; [done|].
  cbn [map List.filter]. destruct (hit c) eqn:E.
  - pose proof (Hhit c E) as Hp. cbn [phase set_phase]. rewrite Hp. split.
    + intros H1 H2. rewrite !bool_decide_eq_false_2 by congruence. auto.
    + rewrite bool_decide_eq_true_2, bool_decide_eq_false_2 by done. cbn [length]. lia.
  - split; [intros H1 H2|]; case_bool_decide; cbn [length]; auto with lia.
Qed.

Lemma inv_skip X lane s (hit : ChunkState -> bool) :
  SInvW X lane s -> (forall c, hit c = true -> phase c = Pending) ->
  let cs := map (fun c => if hit c then set_phase Skipped (on c) (hedged c) c else c) (chunks s) in
  SInvW X lane (set_chunks s cs (List.filter (phase_is Pending cs) (pending s)) (acked s) (failed s)
                  (skipped s + length (List.filter hit (chunks s)))).
Proof.
  intros [Hidx Hrange Hpend Hfly Hout Hlane Hdone Hskip Hfail] Hhit. cbv zeta.
  set (mk := fun c : ChunkState => if hit c then _ else _).
  assert (Hmk : forall c, addr (mk c) = addr c /\ on (mk c) = on c /\
    (phase (mk c) = phase c \/ (phase c = Pending /\ phase (mk c) = Skipped))).
  { intros c. unfold mk. destruct (hit c) eqn:E; [|by auto]. split; [done|]. split; [done|]. right. auto. }
  destruct (count_map_skip hit Done (chunks s) Hhit) as [HD HS].
  destruct (count_map_skip hit Failed (chunks s) Hhit) as [HF _]. fold mk in HD, HS, HF. clearbody mk.
  refine (inv_prune X lane (set_chunks s (map mk (chunks s)) (pending s) (acked s) (failed s) _) _).
  assert (Hlook : forall i c', map mk (chunks s) !! i = Some c' -> exists c, chunks s !! i = Some c /\ c' = mk c).
  { intros i c' Hc. apply list_lookup_fmap_Some in Hc as (c & ? & ?). eauto. }
  split; cbn [index pending chunks outstanding next_batch_id lanes acked failed skipped set_chunks];
    rewrite ?length_map; auto.
  - intros a i. rewrite Hidx. split.
    + intros (c & Hc & <-). exists (mk c). rewrite list_lookup_fmap, Hc. split; [done|apply Hmk].
    + intros (c' & Hc' & <-). destruct (Hlook _ _ Hc') as (c & Hc & ->). exists c. split; [done|]. symmetry. apply Hmk.
  - intros i c' Hc' Hp. destruct (Hlook _ _ Hc') as (c & Hc & ->). destruct (Hmk c) as (_ & -> & [E|[E1 E2]]).
    + apply (Hpend i c Hc). congruence.
    + by apply (Hpend i c Hc).
  - intros i c' Hc' Hp. destruct (Hlook _ _ Hc') as (c & Hc & ->). destruct (Hmk c) as (_ & -> & [E|[E1 E2]]).
    + apply (Hfly i c Hc). congruence.
    + congruence.
  - by rewrite HD.
  - lia.
  - by rewrite HF.
Qed.

Lemma inv_on_group_ack X lane s ci : SInvW X lane s -> SInvW X lane (on_group_ack s ci).
Proof.
  intros HI. unfold on_group_ack. destruct (policy s) eqn:EP; [done|]. destruct (group _) as [gid|]; [|done].
  destruct (groups s !! gid) as [g|]; [|done]. cbv zeta. cbn [group_acked need].
  pose proof (inv_groups X lane s (<[gid := mkGroup (need g) (wrap 16 (group_acked g + 1))]> (groups s)) HI) as H1.
  rewrite EP in H1. destruct (_ <? _); [done|].
  apply (inv_skip X lane _ (fun c => bool_decide (group c = Some gid) && bool_decide (phase c = Pending)) H1).
  intros c. rewrite andb_true_iff, !bool_decide_eq_true. tauto.
Qed.

Lemma inv_on_ack s lane a ok now : SInv s -> SInv (on_ack s lane a ok now).
Proof.
  intros HI. unfold on_ack. destruct (index s !! a) as [ci|] eqn:E; [|done].
  apply (i_idx _ _ _ HI) in E as (c & Hc & _). rewrite !(phase_is_at s ci c Hc).
  case_bool_decide as Hd; [done|]. case_bool_decide as Hk; [done|]. cbn [orb]. destruct ok.
  - cbv zeta. apply inv_on_group_ack, inv_upd_lane; [|done]. rewrite (alter_insert _ _ _ _ Hc).
    apply (inv_update [] [] 0%nat s ci c); try done; try (by intros x ?%not_elem_of_nil).
    + naive_solver.
    + cbn [phase set_phase]. repeat case_bool_decide; cbn; (lia || congruence).
    + cbn [phase set_phase]. repeat case_bool_decide; cbn; (lia || congruence).
    + cbn [phase set_phase]. repeat case_bool_decide; cbn; (lia || congruence).
  - cbv zeta. set (s1 := upd_lane s lane _).
    assert (H1 : SInvW [ci] lane s1).
    { apply (inv_weaken []); [|by intros x ?%not_elem_of_nil]. apply inv_upd_lane; [by apply SInv_any with 0%nat|done]. }
    assert (Hc1 : chunks s1 !! ci = Some c) by done. clearbody s1.
    rewrite (list_lookup_total_correct _ _ _ (drop_lane_at lane s1 ci c Hc1)).
    enough (H2 : SInvW [] lane (match on (dropped lane c) with
        | [] => if max_attempts (cfg s) <=? attempts (dropped lane c) then mark_failed (drop_lane s1 ci lane) ci
                else requeue (drop_lane s1 ci lane) ci
        | _ :: _ => drop_lane s1 ci lane end)).
    { exact (SInv_any lane 0%nat _ H2). }
    destruct (on (dropped lane c)) eqn:Ho.
    + destruct (_ <=? _); [by apply inv_drop_give_up with c|by apply inv_drop_requeue with c].
    + apply (inv_drop [] lane s1 ci c); [done|done|congruence].
Qed.

(** ** Batches *)

Lemma on_lane_insert i o b l cks : o !! b = None ->
  on_lane i (<[b := (l, cks)]> o) = (on_lane i o + b2n (bool_decide (l = i)))%nat.
Proof.
  intros Hb. unfold on_lane. case_bool_decide as E; cbn [b2n].
  - rewrite map_filter_insert_True by done. rewrite map_size_insert_None; [lia|].
    apply map_lookup_filter_None. left. done.
  - rewrite map_filter_insert_False by done. rewrite delete_id by done. lia.
Qed.

Lemma on_lane_delete i o b l cks : o !! b = Some (l, cks) ->
  on_lane i o = (on_lane i (delete b o) + b2n (bool_decide (l = i)))%nat.
Proof.
  intros Hb. rewrite <- (insert_delete_id o b (l, cks) Hb) at 1. apply on_lane_insert, lookup_delete_eq.
Qed.

Lemma inv_take_batch s b lane cks : SInv s -> outstanding s !! b = Some (lane, cks) ->
  SInvW cks lane
    (mkSched (cfg s) (policy s) (alter (fun l => set_inflight (inflight l - 1) l) lane (lanes s)) (chunks s)
       (groups s) (pending s) (index s) (next_batch_id s) (delete b (outstanding s)) (hedges_used s)
       (acked s) (failed s) (skipped s)).
Proof.
  intros [Hidx Hrange Hpend Hfly Hout Hlane Hdone Hskip Hfail] Hb.
  split; cbn [index pending chunks outstanding next_batch_id lanes acked failed skipped]; auto.
  - intros ci c Hc Hp. destruct (Hfly ci c Hc Hp) as [? Hl]. split; [done|]. intros l Hin.
    destruct (Hl l Hin) as [(b' & cks' & Hb' & Hin')|[_ ?%not_elem_of_nil]]; [|done].
    destruct (decide (b' = b)) as [->|Hne]; [right; split; congruence|left].
    exists b', cks'. cbn [outstanding]. by rewrite lookup_delete_ne.
  - intros b' l cks' Hb'. rewrite length_alter. apply lookup_delete_Some in Hb' as [_ Hb']. eauto.
  - intros i l Hl. destruct (decide (i = lane)) as [->|Hne].
    + rewrite list_lookup_alter_eq in Hl. apply fmap_Some in Hl as (l0 & Hl0 & ->). cbn [inflight set_inflight].
      rewrite (Hlane lane l0 Hl0), (on_lane_delete lane _ _ _ _ Hb), bool_decide_eq_true_2 by done. cbn. lia.
    + rewrite list_lookup_alter_ne in Hl by done. rewrite (Hlane i l Hl), (on_lane_delete i _ _ _ _ Hb).
      rewrite bool_decide_eq_false_2 by congruence. cbn. lia.
Qed.

Lemma resolve_length lane s ci : length (chunks (resolve_chunk lane s ci)) = length (chunks s).
Proof.
  unfold resolve_chunk, drop_lane, mark_failed, requeue, set_chunks. cbn [chunks].
  repeat case_match; cbn [chunks]; by rewrite ?length_alter.
Qed.

Lemma inv_resolve_all lane cks : forall s, SInvW cks lane s ->
  (forall ci, ci ∈ cks -> (ci < length (chunks s))%nat) -> SInvW [] lane (foldl (resolve_chunk lane) s cks).
Proof.
  induction cks as [|ci cks IH]; intros s HI Hr; [done|]. cbn [foldl].
  destruct (lookup_lt_is_Some_2 (chunks s) ci ltac:(apply Hr; left)) as [c Hc].
  apply IH; [by apply (inv_resolve_chunk cks lane s ci c)|].
  intros x Hx. rewrite resolve_length. apply Hr. by right.
Qed.

Lemma refund_view cks : forall cs, map view (foldl refund cs cks) = map view cs.
Proof.
  induction cks as [|ci cks IH]; intros cs; [done|]. cbn [foldl]. rewrite IH. unfold refund.
  destruct (_ || _); [done|]. by apply map_alter_same.
Qed.

Lemma lane_failure_inflight now l : inflight (lane_failure now l) = inflight l.
Proof. unfold lane_failure. by repeat case_match. Qed.

Lemma inv_on_batch_result s b o now : SInv s -> SInv (on_batch_result s b o now).
Proof.
  intros HI. unfold on_batch_result. destruct (outstanding s !! b) as [[lane cks]|] eqn:Hb; [|done].
  pose proof (inv_take_batch s b lane cks HI Hb) as H1. destruct (i_out _ _ _ HI _ _ _ Hb) as (_ & _ & Hr).
  cbv zeta. set (s1 := mkSched _ _ _ _ _ _ _ _ _ _ _ _ _) in *. apply SInv_any with lane. apply inv_resolve_all.
  - destruct o; [destruct (Nat.ltb _ _)| |]; try (apply inv_upd_lane; [done|intros l; try done; apply lane_failure_inflight]).
    refine (inv_same _ _ _ _ _ (refund_view _ _)). by apply inv_upd_lane.
  - intros ci Hci. apply Hr in Hci. destruct o; [destruct (Nat.ltb _ _)| |]; try exact Hci.
    cbn [chunks set_chunks]. pose proof (f_equal length (refund_view cks (chunks s))) as E.
    rewrite !length_map in E. change (ci < length (foldl refund (chunks s) cks))%nat. lia.
Qed.

(** ** Dispatch *)

(** The batch is recorded before its chunks are marked. *)
Definition opened (s : Scheduler) (lane : nat) (picked : list nat) : Scheduler :=
  mkSched (cfg s) (policy s) (alter (fun l => set_inflight (inflight l + 1) l) lane (lanes s)) (chunks s) (groups s)
    (pending s) (index s) (next_batch_id s + 1) (<[next_batch_id s := (lane, picked)]> (outstanding s))
    (hedges_used s) (acked s) (failed s) (skipped s).

Lemma inv_opened s lane picked : SInv s -> (lane < length (lanes s))%nat ->
  (forall ci, ci ∈ picked -> (ci < length (chunks s))%nat) -> SInv (opened s lane picked).
Proof.
  intros [Hidx Hrange Hpend Hfly Hout Hlane Hdone Hskip Hfail] Hl Hr.
  assert (Hfresh : outstanding s !! next_batch_id s = None).
  { apply eq_None_not_Some. intros [[l cks] E]. apply Hout in E as [? _]. lia. }
  split; cbn [index pending chunks outstanding next_batch_id lanes acked failed skipped opened]; auto.
  - intros ci c Hc Hp. destruct (Hfly ci c Hc Hp) as [? Hon]. split; [done|]. intros l Hin.
    destruct (Hon l Hin) as [(b & cks & Hb & Hin')|[_ ?%not_elem_of_nil]]; [left|done].
    exists b, cks. cbn [outstanding opened]. rewrite lookup_insert_ne by congruence. done.
  - intros b l cks Hb. rewrite length_alter. apply lookup_insert_Some in Hb as [[<- [= <- <-]]|[Hne Hb]].
    + split; [lia|]. auto.
    + destruct (Hout b l cks Hb) as (? & ? & ?). split; [lia|auto].
  - intros i l Hi. rewrite on_lane_insert by done. destruct (decide (i = lane)) as [->|Hne].
    + rewrite list_lookup_alter_eq in Hi. apply fmap_Some in Hi as (l0 & Hl0 & ->). cbn [inflight set_inflight].
      rewrite (Hlane lane l0 Hl0), bool_decide_eq_true_2 by done. done.
    + rewrite list_lookup_alter_ne in Hi by done. rewrite (Hlane i l Hi), bool_decide_eq_false_2 by congruence.
      cbn. lia.
Qed.

Definition dispatchable (hedge : bool) (s : Scheduler) (ci : nat) : Prop :=
  exists c, chunks s !! ci = Some c /\ (phase c = InFlight \/ (hedge = false /\ phase c = Pending)).

Lemma inv_carry_all lane hedge now todo : forall s, SInv s ->
  (forall ci, ci ∈ todo -> dispatchable hedge s ci /\ carried s ci lane) ->
  SInv (set_chunks s (foldl (fun cs ci => alter (carry lane hedge now) ci cs) (chunks s) todo)
          (pending s) (acked s) (failed s) (skipped s)).
Proof.
  induction todo as [|ci todo IH]; intros s HI Hall; [by destruct s|]. cbn [foldl].
  destruct (Hall ci ltac:(left)) as [(c & Hc & Hp) Hcar].
  set (s1 := set_chunks s (alter (carry lane hedge now) ci (chunks s)) (pending s) (acked s) (failed s) (skipped s)).
  assert (Hph : phase (carry lane hedge now c) = InFlight).
  { unfold carry. destruct hedge; [|done]. cbn. destruct Hp as [?|[? _]]; done. }
  assert (Hon : on (carry lane hedge now c) = on c ++ [lane]) by (unfold carry; by destruct hedge).
  apply (IH s1).
  - unfold s1. rewrite (alter_insert _ _ _ _ Hc). apply (inv_update [] [] 0%nat s ci c); try done.
    + unfold carry. by destruct hedge.
    + by intros x ?%not_elem_of_nil.
    + naive_solver.
    + rewrite Hph. done.
    + intros _. rewrite Hon. split; [by destruct (on c)|]. intros l [Hl| ->%list_elem_of_singleton]%elem_of_app; [|by left].
      destruct Hp as [Hp|[_ Hp]]; [by apply (i_fly _ _ _ HI ci c Hc Hp)|].
      destruct (i_pend _ _ _ HI ci c Hc Hp) as [_ E]. rewrite E in Hl. by apply not_elem_of_nil in Hl.
    + rewrite Hph. destruct Hp as [->|[_ ->]]; done.
    + rewrite Hph. destruct Hp as [->|[_ ->]]; done.
    + rewrite Hph. destruct Hp as [->|[_ ->]]; done.
  - intros x Hx. destruct (Hall x ltac:(by right)) as [(c' & Hc' & Hp') Hcar']. split; [|done].
    unfold dispatchable, s1. cbn [chunks set_chunks]. destruct (decide (x = ci)) as [->|Hne].
    + rewrite list_lookup_alter_eq, Hc. eexists. split; [done|]. by left.
    + rewrite list_lookup_alter_ne by done. eauto.
Qed.

Lemma inv_dispatch s lane picked hedge now : SInv s -> (lane < length (lanes s))%nat ->
  (forall ci, ci ∈ picked -> dispatchable hedge s ci) -> SInv (dispatch s lane picked hedge now).1.
Proof.
  intros HI Hl Hall.
  assert (HO : SInv (opened s lane picked)).
  { apply inv_opened; [done|done|]. intros ci Hci. destruct (Hall ci Hci) as (c & Hc & _). by apply lookup_lt_Some in Hc. }
  pose proof (inv_carry_all lane hedge now picked _ HO) as H1. cbn [chunks pending acked failed skipped opened] in H1.
  unfold dispatch. cbn [fst]. destruct hedge.
  - apply H1. intros ci Hci. split; [by apply Hall|]. exists (next_batch_id s), picked. cbn. by rewrite lookup_insert_eq.
  - refine (inv_prune [] 0%nat (set_chunks (opened s lane picked) _ _ _ _ _) _). apply H1.
    intros ci Hci. split; [by apply Hall|]. exists (next_batch_id s), picked. cbn. by rewrite lookup_insert_eq.
Qed.

(** ** Choice of lane and work *)

Section Choice.
Context (ln : f64 -> f64) (iter_order : list (nat * list nat) -> list (nat * list nat)).
Context (Hiter : forall l, iter_order l ≡ₚ l).

Lemma rank_insert_perm x l : rank_insert x l ≡ₚ x :: l.
Proof.
  induction l as [|y l IH]; [done|]. cbn [rank_insert]. destruct (ranks_after x y); [|done].
  rewrite IH. constructor.
Qed.

Lemma rank_sort_perm l : foldr rank_insert [] l ≡ₚ l.
Proof. induction l as [|x l IH]; [done|]. cbn [foldr]. by rewrite rank_insert_perm, IH. Qed.

Lemma rank_nth_elem s ci elig n l : rank_nth ln s ci elig n = Some l -> l ∈ elig.
Proof.
  unfold rank_nth. intros H. apply fmap_Some in H as ([x l'] & Hx & ->). apply list_elem_of_lookup_2 in Hx.
  rewrite rank_sort_perm in Hx. apply list_elem_of_fmap in Hx as (l0 & E & Hl). by injection E as _ ->.
Qed.

Lemma rank_lane_some s ci elig : elig <> [] -> is_Some (rank_lane ln s ci elig).
Proof.
  intros Hne. unfold rank_lane, rank_nth. apply fmap_is_Some, lookup_lt_is_Some_2. rewrite rank_sort_perm.
  destruct elig; [done|]. cbn. lia.
Qed.

Lemma eligible_lanes_spec s now l : l ∈ eligible_lanes s now <->
  (l < length (lanes s))%nat /\ eligible (lanes s !!! l) now = true.
Proof.
  unfold eligible_lanes. rewrite list_elem_of_In, List.filter_In, <- list_elem_of_In, elem_of_seq. intuition lia.
Qed.

Lemma free_lanes_spec s now l : l ∈ free_lanes s now <->
  (l < length (lanes s))%nat /\ eligible (lanes s !!! l) now = true /\ has_room s l = true.
Proof.
  unfold free_lanes. rewrite list_elem_of_In, List.filter_In, <- list_elem_of_In, elem_of_seq, andb_true_iff.
  intuition lia.
Qed.

(** A list of pending chunks that fits a lane. *)
Definition fits (s : Scheduler) (l : nat) (picked : list nat) : Prop :=
  (forall ci, ci ∈ picked -> ci ∈ pending s /\ phase_is Pending (chunks s) ci = true) /\
  ((0 < batch_size (lanes s !!! l) (cfg s))%nat -> (length picked <= batch_size (lanes s !!! l) (cfg s))%nat).

Lemma pick_for_spec s elig l want pend : forall picked, (forall ci, ci ∈ pend -> ci ∈ pending s) ->
  (forall ci, ci ∈ picked -> ci ∈ pending s /\ phase_is Pending (chunks s) ci = true) ->
  ((0 < want)%nat -> (length picked < want)%nat) ->
  (forall ci, ci ∈ pick_for ln s elig l want pend picked ->
     ci ∈ pending s /\ phase_is Pending (chunks s) ci = true) /\
  ((0 < want)%nat -> (length (pick_for ln s elig l want pend picked) <= want)%nat).
Proof.
  induction pend as [|ci pend IH]; intros picked Hpend Hpick Hlen; cbn [pick_for]; [split; [done|lia]|].
  assert (Hpend' : forall x, x ∈ pend -> x ∈ pending s) by (intros x Hx; apply Hpend; by right).
  destruct (phase_is Pending (chunks s) ci) eqn:Hph; cbn [negb]; [|by apply IH].
  case_bool_decide; [|by apply IH].
  assert (Hpick' : forall x, x ∈ picked ++ [ci] -> x ∈ pending s /\ phase_is Pending (chunks s) x = true).
  { intros x [Hx| ->%list_elem_of_singleton]%elem_of_app; [by apply Hpick|]. split; [apply Hpend; left|done]. }
  destruct (Nat.eqb_spec (length (picked ++ [ci])) want) as [E|Hne]; [split; [done|lia]|].
  apply IH; [done|done|]. rewrite length_app in *. cbn in *. lia.
Qed.

Definition best_ok (s : Scheduler) (now : Z) (best : option (nat * list nat)) : Prop :=
  forall l picked, best = Some (l, picked) -> l ∈ free_lanes s now /\ picked <> [] /\ fits s l picked.

Lemma best_step_ok s now best l : best_ok s now best -> l ∈ free_lanes s now ->
  best_ok s now (best_step ln s (eligible_lanes s now) best l).
Proof.
  intros Hb Hl. unfold best_step.
  destruct (pick_for_spec s (eligible_lanes s now) l (batch_size (lanes s !!! l) (cfg s)) (pending s) [])
    as [H1 H2]; [done|by intros ci ?%not_elem_of_nil|done|].
  destruct (pick_for ln s _ l _ (pending s) []) as [|c0 rest] eqn:E; [done|].
  destruct (better s l _ best); [|done]. intros l' p' [= <- <-]. split; [done|]. split; [done|]. by split.
Qed.

Lemma best_fold_ok s now ls : (forall l, l ∈ ls -> l ∈ free_lanes s now) -> forall best, best_ok s now best ->
  best_ok s now (foldl (best_step ln s (eligible_lanes s now)) best ls).
Proof.
  induction ls as [|l ls IH]; intros Hls best Hb; [done|]. cbn [foldl]. apply IH.
  - intros x Hx. apply Hls. by right.
  - apply best_step_ok; [done|]. apply Hls. left.
Qed.

Lemma heaviest_elem s x rest : heaviest s x rest ∈ x :: rest.
Proof.
  unfold heaviest. revert x. induction rest as [|y rest IH]; intros x; [left|]. cbn [foldl].
  destruct (f64_lt _ _); [specialize (IH x)|specialize (IH y)]; rewrite !elem_of_cons in *; tauto.
Qed.

Lemma filter_pending s ci : ci ∈ List.filter (phase_is Pending (chunks s)) (pending s) <->
  ci ∈ pending s /\ phase_is Pending (chunks s) ci = true.
Proof. by rewrite list_elem_of_In, List.filter_In, <- list_elem_of_In. Qed.

Lemma choose_ok s now : best_ok s now (choose ln s now).
Proof.
  unfold choose. destruct (pending s) as [|p0 pend] eqn:Ep; [done|]. rewrite <- Ep.
  destruct (free_lanes s now) as [|x rest] eqn:Ef; [done|].
  assert (Hfold : best_ok s now (foldl (best_step ln s (eligible_lanes s now)) None (x :: rest))).
  { apply best_fold_ok; [|done]. by rewrite Ef. }
  destruct (foldl _ None (x :: rest)) as [b|]; [done|].
  pose proof (heaviest_elem s x rest) as Hh. rewrite <- Ef in Hh. clear Hfold.
  destruct (take _ _) as [|c0 cs] eqn:Et; [done|]. intros l picked [= <- <-]. split; [done|]. split; [done|].
  rewrite <- Et. split.
  - intros ci Hci. apply filter_pending. by apply elem_of_take in Hci as (i & Hi & _); eapply list_elem_of_lookup_2.
  - intros _. rewrite length_take. lia.
Qed.

(** Work conservation: with a pending chunk and a free lane, something is chosen. *)
Lemma choose_some s now ci c l : SInv s -> chunks s !! ci = Some c -> phase c = Pending ->
  l ∈ free_lanes s now -> (forall l, l ∈ free_lanes s now -> (0 < batch_size (lanes s !!! l) (cfg s))%nat) ->
  is_Some (choose ln s now).
Proof.
  intros HI Hc Hp Hl Hbs. destruct (i_pend _ _ _ HI ci c Hc Hp) as [Hin _].
  assert (Hf : ci ∈ List.filter (phase_is Pending (chunks s)) (pending s)).
  { apply filter_pending. split; [done|]. rewrite (phase_is_at s ci c Hc). by apply bool_decide_eq_true_2. }
  unfold choose. destruct (pending s) as [|p0 pend] eqn:Ep; [by apply not_elem_of_nil in Hin|]. rewrite <- Ep in *.
  destruct (free_lanes s now) as [|x rest] eqn:Ef; [by apply not_elem_of_nil in Hl|].
  destruct (foldl _ None (x :: rest)) as [b|]; [by eexists|].
  pose proof (Hbs _ (heaviest_elem s x rest)) as Hb.
  destruct (List.filter _ (pending s)) as [|y l'] eqn:El; [by apply not_elem_of_nil in Hf|].
  destruct (batch_size _ _); [lia|]. cbn [take]. by eexists.
Qed.

(** ** Hedging *)

Lemma by_lane_spec s elig now alt l : by_lane ln s elig now !! alt = Some l ->
  l <> [] /\ forall ci, ci ∈ l -> (ci < length (chunks s))%nat /\ hedge_target ln s elig now ci = Some alt.
Proof.
  unfold by_lane.
  assert (Hall : forall todo (m : gmap nat (list nat)), (forall ci, ci ∈ todo -> (ci < length (chunks s))%nat) ->
    (forall alt l, m !! alt = Some l ->
       l <> [] /\ forall ci, ci ∈ l -> (ci < length (chunks s))%nat /\ hedge_target ln s elig now ci = Some alt) ->
    forall alt l, foldl (fun (m : gmap nat (list nat)) ci => match hedge_target ln s elig now ci with
                     | Some alt => <[alt := default [] (m !! alt) ++ [ci]]> m
                     | None => m
                     end) m todo !! alt = Some l ->
       l <> [] /\ forall ci, ci ∈ l -> (ci < length (chunks s))%nat /\ hedge_target ln s elig now ci = Some alt).
  { induction todo as [|ci todo IH]; intros m Hr Hm; [done|]. cbn [foldl]. apply IH; [intros x Hx; apply Hr; by right|].
    destruct (hedge_target ln s elig now ci) as [a0|] eqn:E; [|done]. intros a l0 Hl0.
    apply lookup_insert_Some in Hl0 as [[<- <-]|[_ Hl0]]; [|by apply Hm].
    split; [by destruct (default [] (m !! a0))|].
    intros x [Hx| ->%list_elem_of_singleton]%elem_of_app; [|split; [apply Hr; left|done]].
    destruct (m !! a0) as [l1|] eqn:Em; [|by apply not_elem_of_nil in Hx]. destruct (Hm a0 l1 Em) as [_ H]. by apply H. }
  apply Hall; [intros ci Hci%elem_of_seq; lia|]. intros a l0. by rewrite lookup_empty.
Qed.

Lemma max_by_len_elem l x : max_by_len l = Some x -> x ∈ l.
Proof.
  destruct l as [|y l]; [done|]. unfold max_by_len. intros [= <-]. revert y. induction l as [|z l IH]; intros y; [left|]. cbn [foldl].
  destruct (Nat.ltb _ _); [specialize (IH y)|specialize (IH z)]; rewrite !elem_of_cons in *; tauto.
Qed.

(** What [next] may hand out. *)
Record assignment_ok (s : Scheduler) (now : Z) (a : Assignment) : Prop := {
  as_lane : a_lane a ∈ free_lanes s now;
  as_some : a_chunks a <> [];
  as_size : (0 < batch_size (lanes s !!! a_lane a) (cfg s))%nat ->
    (length (a_chunks a) <= batch_size (lanes s !!! a_lane a) (cfg s))%nat;
  as_phase : forall ci, ci ∈ a_chunks a -> exists c, chunks s !! ci = Some c /\
    if a_hedge a then phase c = InFlight /\ hedged c = false /\ on c <> [] /\ hd_error (on c) <> Some (a_lane a)
    else phase c = Pending }.

Lemma hedge_target_spec s now ci alt : (ci < length (chunks s))%nat ->
  hedge_target ln s (eligible_lanes s now) now ci = Some alt ->
  alt ∈ free_lanes s now /\ exists c, chunks s !! ci = Some c /\
    phase c = InFlight /\ hedged c = false /\ on c <> [] /\ hd_error (on c) <> Some alt.
Proof.
  intros Hlt. destruct (lookup_lt_is_Some_2 _ _ Hlt) as [c Hc].
  unfold hedge_target. rewrite (list_lookup_total_correct _ _ _ Hc).
  destruct (phase c) eqn:Hp; try done. destruct (hedged c) eqn:Hh; [done|]. destruct (on c) as [|cur rest] eqn:Ho; [done|].
  destruct (_ <? _); [done|]. destruct (rank_nth ln s ci _ 1) as [a|] eqn:Er; [|done].
  destruct (Nat.eqb_spec a cur) as [->|Hne]; [done|]. cbn [orb]. destruct (has_room s a) eqn:Hr; [|done].
  cbn [negb]. intros [= <-]. apply rank_nth_elem, eligible_lanes_spec in Er as [Hl He]. split.
  - by apply free_lanes_spec.
  - exists c. rewrite Ho. split_and!; try done. cbn. congruence.
Qed.

Lemma mark_hedged_view picked : forall cs,
  map view (foldl (fun cs ci => alter (fun c => set_phase (phase c) (on c) true c) ci cs) cs picked) = map view cs.
Proof.
  induction picked as [|ci picked IH]; intros cs; [done|]. cbn [foldl]. rewrite IH. by apply map_alter_same.
Qed.

Lemma inv_hedges X lane s h : SInvW X lane s ->
  SInvW X lane (mkSched (cfg s) (policy s) (lanes s) (chunks s) (groups s) (pending s) (index s)
              (next_batch_id s) (outstanding s) h (acked s) (failed s) (skipped s)).
Proof. intros []. by split. Qed.

Lemma next_hedge_ok s now s' a : SInv s -> next_hedge ln iter_order s now = Some (s', a) ->
  SInv s' /\ assignment_ok s now a /\ a_hedge a = true /\ hedges_used s' <= hedge_budget s.
Proof.
  intros HI. unfold next_hedge. destruct (Z.leb_spec (hedge_budget s) (hedges_used s)) as [|Hbud]; [done|].
  destruct (Nat.ltb _ _); [done|]. destruct (max_by_len _) as [[lane all]|] eqn:Em; [|done].
  apply max_by_len_elem in Em. rewrite Hiter in Em. apply elem_of_map_to_list, by_lane_spec in Em as [Hne Hall].
  set (bs := batch_size _ _). set (cap := Z.min _ _). cbv zeta.
  assert (Hsub : forall ci, ci ∈ take (Z.to_nat cap) all -> ci ∈ all).
  { intros ci (i & Hi & _)%elem_of_take. by eapply list_elem_of_lookup_2. }
  assert (Hlen : (length (take (Z.to_nat cap) all) <= Z.to_nat cap)%nat) by (rewrite length_take; lia).
  assert (Hcap : (Z.to_nat cap <= bs)%nat /\ Z.of_nat (Z.to_nat cap) <= hedge_budget s - hedges_used s).
  { unfold cap, sat_sub. lia. }
  destruct (take (Z.to_nat cap) all) as [|c0 rest] eqn:Et; [done|]. intros E.
  assert (Hd : forall ci, ci ∈ c0 :: rest -> lane ∈ free_lanes s now /\ exists c, chunks s !! ci = Some c /\
    phase c = InFlight /\ hedged c = false /\ on c <> [] /\ hd_error (on c) <> Some lane).
  { intros ci Hci. destruct (Hall ci (Hsub ci Hci)) as [Hlt Ht]. by apply hedge_target_spec. }
  destruct (Hd c0 ltac:(left)) as [Hfree _].
  pose proof (inv_hedges [] 0%nat _ (hedges_used s + Z.of_nat (length (c0 :: rest)))
    (inv_same [] 0%nat s _ HI (mark_hedged_view (c0 :: rest) (chunks s)))) as H1.
  cbn [cfg policy lanes chunks groups pending index next_batch_id outstanding acked failed skipped set_chunks] in H1.
  set (s1 := mkSched _ _ _ _ _ _ _ _ _ _ _ _ _) in H1.
  assert (E1 : dispatch s1 lane (c0 :: rest) true now = (s', a)) by (exact (Some_inj _ _ E)). clear E.
  assert (H2 : SInv (dispatch s1 lane (c0 :: rest) true now).1).
  { apply inv_dispatch; [done|by apply free_lanes_spec in Hfree as [? _]|]. intros ci Hci.
    destruct (Hd ci Hci) as (_ & c & Hc & Hp & _).
    destruct (view_lookup _ _ ci c (eq_sym (mark_hedged_view (c0 :: rest) (chunks s))) Hc) as (c' & Hc' & Ev).
    exists c'. split; [done|]. left. injection Ev as _ Ep _. congruence. }
  rewrite E1 in H2. split; [done|].
  assert (Ea : a = mkAssignment (next_batch_id s) lane (c0 :: rest) true) by (by injection E1).
  assert (Eh : hedges_used s' = hedges_used s + Z.of_nat (length (c0 :: rest))) by (by injection E1 as <- _).
  rewrite Ea. split; [split; cbn [a_lane a_chunks a_hedge]; [done|done|fold bs; lia|]|].
  - intros ci Hci. by destruct (Hd ci Hci) as [_ ?].
  - split; [done|]. lia.
Qed.

(** ** The next assignment *)

Lemma inv_expire s now : SInv s -> SInv (expire_backoffs s now).
Proof.
  intros HI. apply inv_lanes; [done|]. rewrite map_map. apply map_ext. intros l. unfold expire.
  destruct (health l); try done. by destruct (_ <=? _).
Qed.

Lemma next_ok s now : SInv s ->
  SInv (next ln iter_order s now).1 /\
  forall a, (next ln iter_order s now).2 = Some a ->
    assignment_ok (expire_backoffs s now) now a /\
    (a_hedge a = true -> hedges_used (next ln iter_order s now).1 <= hedge_budget s).
Proof.
  intros HI. pose proof (inv_expire s now HI) as H1. unfold next. cbv zeta.
  destruct (next_hedge ln iter_order (expire_backoffs s now) now) as [[s' a]|] eqn:Eh.
  { apply next_hedge_ok in Eh as (? & ? & ? & ?); [|done]. split; [done|]. intros a' [= <-]. auto. }
  pose proof (choose_ok (expire_backoffs s now) now) as Hch.
  destruct (choose ln (expire_backoffs s now) now) as [[lane picked]|]; [|done].
  destruct (Hch lane picked eq_refl) as (Hf & Hne & Hpick & Hsz).
  assert (Hp : forall ci, ci ∈ picked -> exists c, chunks (expire_backoffs s now) !! ci = Some c /\ phase c = Pending).
  { intros ci Hci. destruct (Hpick ci Hci) as [Hin Hph]. apply (i_range _ _ _ H1) in Hin.
    destruct (lookup_lt_is_Some_2 _ _ Hin) as [c Hc]. exists c. split; [done|].
    rewrite (phase_is_at _ ci c Hc) in Hph. by apply bool_decide_eq_true_1 in Hph. }
  pose proof (inv_dispatch (expire_backoffs s now) lane picked false now H1) as H2.
  destruct (dispatch _ lane picked false now) as [s' a] eqn:Ed. cbn [fst snd] in *. split.
  - apply H2; [by apply free_lanes_spec in Hf as [? _]|]. intros ci Hci. destruct (Hp ci Hci) as (c & Hc & Hph).
    exists c. auto.
  - intros a' [= <-]. assert (Ea : a = mkAssignment (next_batch_id s) lane picked false) by (by injection Ed).
    rewrite Ea. split; [|done]. split; cbn [a_lane a_chunks a_hedge]; auto.
Qed.
End Choice.

Lemma inv_step ln s s' : SInv s -> step ln s s' -> SInv s'.
Proof.
  intros HI Hs. destruct Hs.
  - by apply inv_upd_lane.
  - by apply inv_admit.
  - by apply inv_admit_group.
  - by apply next_ok.
  - by apply inv_on_ack.
  - apply inv_upd_lane; [done|]. intros x. by case_bool_decide.
  - by apply inv_upd_lane.
  - by apply inv_upd_lane.
  - by apply inv_on_batch_result.
  - apply inv_upd_lane; [done|]. intros x. by destruct (Nat.ltb _ _).
Qed.

Lemma inv_reachable ln s : reachable ln s -> SInv s.
Proof.
  induction 1 as [infos c p|s s' _ IH Hs]; [|by apply inv_step with ln s].
  split; cbn; try done.
  - intros a ci. rewrite lookup_empty, lookup_nil. split; [done|]. by intros (? & ? & _).
  - by intros ci ?%not_elem_of_nil.
  - intros i l Hl. apply list_lookup_imap_Some in Hl as (x & _ & ->). done.
Qed.

(** ** No chunk is lost *)

(** C37: In every state the scheduler reaches, whatever the driver reports and in
    whatever order (late, duplicate and contradictory acks included), no chunk is
    lost: a pending chunk is in the queue, and a chunk in flight is carried by an
    unresolved batch on every lane it names.  Each address is one chunk; the acked
    and skipped counters are exact and the failed counter is not below the number of
    failed chunks; a lane's count of outstanding requests is the number of its
    unresolved batches. *)
Theorem sched_no_chunk_lost ln s : reachable ln s ->
  (forall ci c, chunks s !! ci = Some c ->
     index s !! addr c = Some ci /\
     match phase c with
     | Pending => ci ∈ pending s
     | InFlight => on c <> [] /\ forall l, l ∈ on c -> carried s ci l
     | Done | Failed | Skipped => True
     end) /\
  (acked s = count Done (chunks s) /\ skipped s = count Skipped (chunks s) /\
   (count Failed (chunks s) <= failed s)%nat) /\
  (forall i l, lanes s !! i = Some l -> inflight l = on_lane i (outstanding s)).
Proof.
  intros HI%inv_reachable. split; [|split; [by destruct HI|apply HI]]. intros ci c Hc.
  split; [apply (i_idx _ _ _ HI); eauto|]. destruct (phase c) eqn:Hp; try done.
  - by apply (i_pend _ _ _ HI ci c).
  - destruct (i_fly _ _ _ HI ci c Hc Hp) as [? Hl]. split; [done|]. intros l Hin.
    by destruct (Hl l Hin) as [|[_ ?%not_elem_of_nil]].
Qed.

(** Every assignment [next] hands out names a lane that is eligible and below
    its capacity, is not empty, fits the lane's batch size, and carries only work
    that is not settled: pending chunks, or, for a hedge, chunks in flight on
    another lane that were not hedged before, with the hedges of the whole run kept
    within the budget. *)
Theorem sched_assignments ln iter_order s now a : reachable ln s -> (forall l, iter_order l ≡ₚ l) ->
  (next ln iter_order s now).2 = Some a ->
  assignment_ok (expire_backoffs s now) now a /\
  (a_hedge a = true -> hedges_used (next ln iter_order s now).1 <= hedge_budget s).
Proof. intros HI%inv_reachable Hiter. by apply next_ok. Qed.

(** ** No deadlock *)

Definition sized (s : Scheduler) : Prop :=
  (0 < batch (cfg s))%nat /\ (0 < probe_batch (cfg s))%nat /\
  forall i l, lanes s !! i = Some l -> batch_max (info l) <> Some 0%nat.

Lemma batch_size_pos s now l : sized s -> (l < length (lanes s))%nat ->
  (0 < batch_size (lanes (expire_backoffs s now) !!! l) (cfg s))%nat.
Proof.
  intros (Hb & Hp & Hl) Hlt. destruct (lookup_lt_is_Some_2 _ _ Hlt) as [x Hx].
  cbn [expire_backoffs lanes set_lanes].
  assert (E : map (expire now) (lanes s) !! l = Some (expire now x)) by (by rewrite list_lookup_fmap, Hx).
  rewrite (list_lookup_total_correct _ _ _ E).
  assert (Ei : info (expire now x) = info x) by (unfold expire; destruct (health x); try done; by destruct (_ <=? _)).
  unfold batch_size. rewrite Ei. specialize (Hl l x Hx).
  destruct (batch_max (info x)) as [[|m]|]; [done| |]; case_bool_decide; cbn [from_option]; unfold Datatypes.id in *; lia.
Qed.

Lemma has_work s : SInv s -> sched_done s = false -> outstanding s = ∅ ->
  exists ci c, chunks s !! ci = Some c /\ phase c = Pending.
Proof.
  intros HI Hd Ho. unfold sched_done in Hd. apply Nat.leb_gt in Hd.
  pose proof (count_total (chunks s)) as Ht. pose proof (i_done _ _ _ HI). pose proof (i_skip _ _ _ HI).
  pose proof (i_fail _ _ _ HI).
  assert (HF : count InFlight (chunks s) = 0%nat).
  { apply count_zero. intros ci c Hc Hp. destruct (i_fly _ _ _ HI ci c Hc Hp) as [Hne Hl].
    destruct (on c) as [|l rest]; [done|]. destruct (Hl l ltac:(left)) as [(b & cks & Hb & _)|[_ ?%not_elem_of_nil]]; [|done].
    rewrite Ho in Hb. by rewrite lookup_empty in Hb. }
  destruct (decide (Exists (fun c => phase c = Pending) (chunks s))) as [(c & Hin & Hp)%Exists_exists|Hno].
  - apply list_elem_of_lookup_1 in Hin as (ci & Hc). eauto.
  - assert (count Pending (chunks s) = 0%nat); [|lia]. apply count_zero. intros ci c Hc Hp. apply Hno, Exists_exists.
    exists c. split; [by eapply list_elem_of_lookup_2|done].
Qed.

(** C38: The scheduler does not deadlock: in every reachable state in which work
    remains and nothing is in flight, [next] hands out an assignment as soon as one
    lane is eligible, and [stalled] never reports exhausted chunks. *)
Theorem sched_never_deadlocks ln iter_order s now i l : reachable ln s -> (forall l, iter_order l ≡ₚ l) ->
  sized s -> sched_done s = false -> outstanding s = ∅ ->
  lanes s !! i = Some l -> eligible l now = true ->
  (exists a, (next ln iter_order s now).2 = Some a) /\ stalled s now = None.
Proof.
  intros HI%inv_reachable Hiter Hsz Hd Ho Hl He. destruct (has_work s HI Hd Ho) as (ci & c & Hc & Hp). split.
  - unfold next. cbv zeta. destruct (next_hedge _ _ _ _) as [[s' a]|]; [by eexists|].
    assert (Hex : is_Some (choose ln (expire_backoffs s now) now)).
    { apply (choose_some ln (expire_backoffs s now) now ci c i); [by apply inv_expire|done|done| |].
      - apply free_lanes_spec. cbn [expire_backoffs lanes set_lanes]. rewrite length_map.
        assert (Hlt : (i < length (lanes s))%nat) by (by apply lookup_lt_Some in Hl).
        assert (E : map (expire now) (lanes s) !! i = Some (expire now l)) by (by rewrite list_lookup_fmap, Hl).
        split; [done|]. unfold has_room. cbn [lanes expire_backoffs set_lanes cfg].
        rewrite (list_lookup_total_correct _ _ _ E). split.
        + unfold expire, eligible in *. destruct (health l) eqn:Eh; cbn in He; rewrite ?Eh; try done. by destruct (until_ms <=? now).
        + assert (Ei : inflight (expire now l) = 0%nat).
          { replace (inflight (expire now l)) with (inflight l)
              by (unfold expire; destruct (health l); try done; by destruct (_ <=? _)).
            rewrite (i_lane _ _ _ HI i l Hl), Ho. reflexivity. }
          rewrite Ei. apply Nat.ltb_lt. unfold capacity. case_bool_decide; lia.
      - intros l' Hl'. apply free_lanes_spec in Hl' as [Hlt _]. apply (batch_size_pos s now); [done|].
        cbn [expire_backoffs lanes set_lanes] in Hlt. by rewrite length_map in Hlt. }
    destruct Hex as [[lane picked] ->]. destruct (dispatch _ _ _ _ _) as [s' a]. by eexists.
  - unfold stalled. rewrite Hd, bool_decide_eq_true_2 by done. cbn [orb negb].
    assert (Hx : existsb (fun l => eligible l now) (lanes s) = true).
    { apply List.existsb_exists. exists l. split; [|done]. apply list_elem_of_In. by eapply list_elem_of_lookup_2. }
    rewrite Hx. cbn [negb]. destruct (i_pend _ _ _ HI ci c Hc Hp) as [Hin _].
    destruct (pending s); [by apply not_elem_of_nil in Hin|done].
Qed.

(** ** Settled chunks stay settled *)

Definition settled (c : ChunkState) : Prop := phase c = Done \/ phase c = Skipped.

Definition evolves (cs cs' : list ChunkState) : Prop :=
  forall ci c, cs !! ci = Some c ->
    exists c', cs' !! ci = Some c' /\ addr c' = addr c /\ (settled c -> phase c' = phase c).

#[export] Instance evolves_preorder : PreOrder evolves.
Proof.
  split; [intros cs ci c Hc; eauto|]. intros cs1 cs2 cs3 H12 H23 ci c Hc.
  destruct (H12 ci c Hc) as (c2 & Hc2 & Ha2 & Hp2). destruct (H23 ci c2 Hc2) as (c3 & Hc3 & Ha3 & Hp3).
  exists c3. split; [done|]. split; [congruence|]. intros Hs. rewrite <- (Hp2 Hs). apply Hp3.
  unfold settled in *. by rewrite (Hp2 Hs).
Qed.

Lemma evolves_alter f ci cs : (forall c, addr (f c) = addr c) ->
  (forall c, cs !! ci = Some c -> settled c -> phase (f c) = phase c) -> evolves cs (alter f ci cs).
Proof.
  intros Ha Hp i c Hc. destruct (decide (i = ci)) as [->|Hne].
  - rewrite list_lookup_alter_eq, Hc. eexists. split; [done|]. split; [done|]. auto.
  - rewrite list_lookup_alter_ne by done. eauto.
Qed.

Lemma evolves_view cs cs' : map view cs' = map view cs -> evolves cs cs'.
Proof.
  intros E ci c Hc. destruct (view_lookup cs' cs ci c (eq_sym E) Hc) as (c' & Hc' & Ev).
  injection Ev as E1 E2 _. exists c'. auto.
Qed.

Lemma evolves_admit s chs : evolves (chunks s) (chunks (admit_chunks s chs).1).
Proof.
  unfold admit_chunks. cbn [fst]. revert s. induction chs as [|ch chs IH]; intros s; [done|]. cbn [foldl].
  transitivity (chunks (admit_one s ch)); [|apply IH]. unfold admit_one. destruct (index s !! ch.1); [done|].
  intros ci c Hc. cbn [chunks]. exists c. split; [by apply lookup_app_l_Some|auto].
Qed.

Lemma evolves_carry lane hedge now todo : forall s, (forall ci, ci ∈ todo -> dispatchable hedge s ci) ->
  evolves (chunks s) (foldl (fun cs ci => alter (carry lane hedge now) ci cs) (chunks s) todo).
Proof.
  induction todo as [|ci todo IH]; intros s Hall; [done|]. cbn [foldl].
  destruct (Hall ci ltac:(left)) as (c & Hc & Hp).
  set (s1 := set_chunks s (alter (carry lane hedge now) ci (chunks s)) (pending s) (acked s) (failed s) (skipped s)).
  transitivity (chunks s1).
  - apply evolves_alter; [intros x; by destruct hedge|]. intros x Hx Hs. assert (x = c) as -> by congruence.
    unfold settled in Hs. destruct Hp as [Hp|[_ Hp]]; rewrite Hp in Hs; by destruct Hs.
  - apply (IH s1). intros x Hx. destruct (Hall x ltac:(by right)) as (c' & Hc' & Hp').
    unfold dispatchable, s1. cbn [chunks set_chunks]. destruct (decide (x = ci)) as [->|Hne].
    + rewrite list_lookup_alter_eq, Hc. eexists. split; [done|]. left.
      unfold carry. destruct hedge; [|done]. cbn. by destruct Hp as [?|[? _]].
    + rewrite list_lookup_alter_ne by done. eauto.
Qed.

Lemma evolves_next ln iter s now : (forall l, iter l ≡ₚ l) -> SInv s ->
  evolves (chunks s) (chunks (next ln iter s now).1).
Proof.
  intros Hiter HI. pose proof (inv_expire s now HI) as H1.
  unfold next. cbv zeta. destruct (next_hedge ln iter (expire_backoffs s now) now) as [[s' a]|] eqn:Eh.
  - pose proof (next_hedge_ok ln iter Hiter _ _ _ _ H1 Eh) as (_ & Hok & _ & _). cbn [fst].
    unfold next_hedge in Eh. destruct (_ <=? _); [done|]. destruct (Nat.ltb _ _); [done|].
    destruct (max_by_len _) as [[lane all]|]; [|done]. cbv zeta in Eh.
    destruct (take _ all) as [|c0 rest]; [done|].
    set (s1 := mkSched _ _ _ _ _ _ _ _ _ _ _ _ _) in Eh. apply Some_inj in Eh.
    assert (Ea : a_chunks a = c0 :: rest /\ a_hedge a = true) by (by injection Eh as _ <-).
    destruct Ea as [Ea Eb]. assert (Hv : map view (chunks s1) = map view (chunks s)) by apply mark_hedged_view.
    replace (chunks s') with (foldl (fun cs ci => alter (carry lane true now) ci cs) (chunks s1) (c0 :: rest))
      by (by injection Eh as <- _).
    transitivity (chunks s1); [by apply evolves_view|]. apply evolves_carry. intros ci Hci. rewrite <- Ea in Hci.
    destruct (as_phase _ _ _ Hok ci Hci) as (c & Hc & Hcond). rewrite Eb in Hcond. destruct Hcond as [Hp _].
    destruct (view_lookup (chunks s1) (chunks s) ci c (eq_sym Hv) Hc) as (c' & Hc' & Ev).
    exists c'. split; [done|]. left. injection Ev as _ Ep _. congruence.
  - pose proof (choose_ok ln (expire_backoffs s now) now) as Hch.
    destruct (choose ln (expire_backoffs s now) now) as [[lane picked]|]; [|done].
    destruct (Hch lane picked eq_refl) as (_ & _ & Hpick & _).
    assert (Hd : forall ci, ci ∈ picked -> dispatchable false (expire_backoffs s now) ci).
    { intros ci Hci. destruct (Hpick ci Hci) as [Hin Hph]. apply (i_range _ _ _ H1) in Hin.
      destruct (lookup_lt_is_Some_2 _ _ Hin) as [c Hc]. exists c. split; [done|]. right. split; [done|].
      rewrite (phase_is_at _ ci c Hc) in Hph. by apply bool_decide_eq_true_1 in Hph. }
    apply (evolves_carry lane false now picked (expire_backoffs s now) Hd).
Qed.

(** A chunk that is not settled may move to any phase. *)
Lemma evolves_unsettled f ci cs c : cs !! ci = Some c -> ~ settled c -> (forall x, addr (f x) = addr x) ->
  evolves cs (alter f ci cs).
Proof. intros Hc Hn Ha. apply evolves_alter; [done|]. intros x Hx Hs. congruence. Qed.

Lemma evolves_drop s ci lane : evolves (chunks s) (chunks (drop_lane s ci lane)).
Proof. by apply evolves_alter. Qed.

Lemma drop_unsettled s ci lane c : chunks s !! ci = Some c -> ~ settled c ->
  exists c', chunks (drop_lane s ci lane) !! ci = Some c' /\ ~ settled c'.
Proof. intros Hc Hn. exists (dropped lane c). split; [by apply drop_lane_at|done]. Qed.

Lemma evolves_give_up s ci c : chunks s !! ci = Some c -> ~ settled c -> evolves (chunks s) (chunks (mark_failed s ci)).
Proof. intros Hc Hn. by eapply evolves_unsettled. Qed.

Lemma evolves_requeue s ci c : chunks s !! ci = Some c -> ~ settled c -> evolves (chunks s) (chunks (requeue s ci)).
Proof. intros Hc Hn. by eapply evolves_unsettled. Qed.

Lemma evolves_resolve lane s ci : (ci < length (chunks s))%nat ->
  evolves (chunks s) (chunks (resolve_chunk lane s ci)).
Proof.
  intros Hlt. destruct (lookup_lt_is_Some_2 _ _ Hlt) as [c Hc]. unfold resolve_chunk. rewrite !(phase_is_at s ci c Hc).
  case_bool_decide as Hd; [done|]. case_bool_decide as Hk; [done|]. cbn [orb].
  assert (Hn : ~ settled c) by (intros [?|?]; done).
  destruct (drop_unsettled s ci lane c Hc Hn) as (c' & Hc' & Hn'). pose proof (evolves_drop s ci lane) as E1.
  pose proof (evolves_give_up _ ci c' Hc' Hn') as E2. pose proof (evolves_requeue _ ci c' Hc' Hn') as E3.
  cbv zeta. repeat case_match; try done; by etrans.
Qed.

Lemma evolves_resolve_all lane cks : forall s, (forall ci, ci ∈ cks -> (ci < length (chunks s))%nat) ->
  evolves (chunks s) (chunks (foldl (resolve_chunk lane) s cks)).
Proof.
  induction cks as [|ci cks IH]; intros s Hr; [done|]. cbn [foldl].
  etrans; [apply evolves_resolve, Hr; left|]. apply IH. intros x Hx. rewrite resolve_length. apply Hr. by right.
Qed.

Lemma evolves_group_ack s ci : evolves (chunks s) (chunks (on_group_ack s ci)).
Proof.
  unfold on_group_ack. destruct (policy s); [done|]. destruct (group (chunks s !!! ci)) as [gid|]; [|done].
  destruct (groups s !! gid); [|done].
  cbv zeta. destruct (_ <? _); [done|]. cbn [chunks set_chunks]. intros i c Hc. rewrite list_lookup_fmap, Hc.
  eexists. split; [done|]. destruct (_ && _) eqn:E; [|done]. split; [done|].
  apply andb_true_iff in E as [_ Hp%bool_decide_eq_true_1]. unfold settled. rewrite Hp. by intros [?|?].
Qed.

Lemma evolves_on_ack s lane a ok now : SInv s -> evolves (chunks s) (chunks (on_ack s lane a ok now)).
Proof.
  intros HI. unfold on_ack. destruct (index s !! a) as [ci|] eqn:E; [|done].
  apply (i_idx _ _ _ HI) in E as (c & Hc & _). rewrite !(phase_is_at s ci c Hc).
  case_bool_decide as Hd; [done|]. case_bool_decide as Hk; [done|]. cbn [orb].
  assert (Hn : ~ settled c) by (intros [?|?]; done). destruct ok; cbv zeta.
  - etrans; [|apply evolves_group_ack]. by eapply evolves_unsettled.
  - set (s1 := upd_lane s lane _). assert (Hc1 : chunks s1 !! ci = Some c) by done.
    change (chunks s) with (chunks s1). clearbody s1.
    destruct (drop_unsettled s1 ci lane c Hc1 Hn) as (c' & Hc' & Hn'). pose proof (evolves_drop s1 ci lane) as E1.
    pose proof (evolves_give_up _ ci c' Hc' Hn') as E2. pose proof (evolves_requeue _ ci c' Hc' Hn') as E3.
    repeat case_match; try done; by etrans.
Qed.

Lemma evolves_step ln s s' : SInv s -> step ln s s' -> evolves (chunks s) (chunks s').
Proof.
  intros HI Hs. destruct Hs; try done.
  - apply evolves_admit.
  - unfold admit_group. set (s1 := mkSched _ _ _ _ _ _ _ _ _ _ _ _ _). pose proof (evolves_admit s1 chs) as H1.
    destruct (admit_chunks s1 chs) as [s2 [st fin]]. cbn [fst] in *. etrans; [exact H1|]. apply evolves_view.
    cbn [chunks set_chunks]. rewrite map_app, map_map, <- map_app. by rewrite take_drop.
  - by apply evolves_next.
  - by apply evolves_on_ack.
  - unfold on_batch_result. destruct (outstanding s !! b) as [[lane cks]|] eqn:Hb; [|done].
    destruct (i_out _ _ _ HI _ _ _ Hb) as (_ & _ & Hr). cbv zeta. set (s1 := mkSched _ _ _ _ _ _ _ _ _ _ _ _ _).
    destruct o; [destruct (Nat.ltb _ _)| |]; try (apply (evolves_resolve_all lane cks (upd_lane s1 lane _) Hr)).
    etrans; [apply evolves_view, (refund_view cks)|].
    match goal with |- evolves _ (chunks (foldl _ ?x _)) => apply (evolves_resolve_all lane cks x) end.
    intros ci Hci. apply Hr in Hci. cbn [chunks set_chunks upd_lane set_lanes s1].
    pose proof (f_equal length (refund_view cks (chunks s))) as E. rewrite !length_map in E. lia.
Qed.

(** Acks are final: a chunk that is done, or skipped because its group is
    complete, keeps its address and its phase whatever calls follow, so the losing
    copy of a hedged chunk, a repeated ack or a late failure never revives it, and
    it is never dispatched again; a repeated ack changes nothing at all. *)
Theorem sched_settled_final ln s s' ci c : reachable ln s -> rtc (step ln) s s' ->
  chunks s !! ci = Some c -> settled c ->
  (exists c', chunks s' !! ci = Some c' /\ addr c' = addr c /\ phase c' = phase c) /\
  forall lane ok now, on_ack s' lane (addr c) ok now = s'.
Proof.
  intros HR Hsteps Hc Hs. apply inv_reachable in HR as HI.
  assert (HE : SInv s' /\ evolves (chunks s) (chunks s')).
  { clear -HI Hsteps. induction Hsteps as [|s1 s2 s3 H12 _ IH]; [done|].
    destruct (IH (inv_step _ _ _ HI H12)) as [? ?]. split; [done|]. etrans; [by eapply evolves_step|done]. }
  destruct HE as [HI' HE]. destruct (HE ci c Hc) as (c' & Hc' & Ha & Hp). split; [exists c'; auto|].
  intros lane ok now. unfold on_ack. assert (E : index s' !! addr c = Some ci) by (apply (i_idx _ _ _ HI'); eauto).
  rewrite E, !(phase_is_at s' ci c' Hc'), (Hp Hs). destruct Hs as [-> | ->].
  - by rewrite bool_decide_eq_true_2.
  - by rewrite (bool_decide_eq_true_2 (Skipped = Skipped)), orb_true_r.
Qed.

(** ** A payment request costs nothing *)

Fixpoint occ (x : nat) (l : list nat) : nat :=
  match l with [] => 0 | y :: l' => (if Nat.eqb x y then 1 else 0) + occ x l' end.

Lemma occ_pos x l : x ∈ l -> (0 < occ x l)%nat.
Proof. induction 1; cbn; [rewrite Nat.eqb_refl|]; lia. Qed.

Lemma occ_le x l : (occ x l <= length l)%nat.
Proof. induction l as [|y l IH]; cbn; [done|]. destruct (Nat.eqb x y); lia. Qed.

Lemma fold_alter_lookup {A} (f : A -> A) ci picked : forall (cs : list A) x, cs !! ci = Some x ->
  foldl (fun cs i => alter f i cs) cs picked !! ci = Some (Nat.iter (occ ci picked) f x).
Proof.
  induction picked as [|j picked IH]; intros cs x Hx; [done|]. cbn [foldl occ].
  destruct (Nat.eqb_spec ci j) as [<-|Hne].
  - rewrite (IH _ (f x)) by (by rewrite list_lookup_alter_eq, Hx). by rewrite Nat.add_1_l, Nat.iter_succ_r.
  - apply IH. by rewrite list_lookup_alter_ne.
Qed.

Lemma carry_iter lane now n : forall c, on c = [] -> 0 <= attempts c -> attempts c + Z.of_nat n <= U16_MAX ->
  let c' := Nat.iter n (carry lane false now) c in
  on c' = replicate n lane /\ attempts c' = attempts c + Z.of_nat n /\ ((0 < n)%nat -> phase c' = InFlight).
Proof.
  induction n as [|n IH]; intros c Ho Ha Hn; [split; [done|split; [cbn; lia|lia]]|].
  destruct (IH c Ho Ha ltac:(lia)) as (E1 & E2 & _). cbv zeta. rewrite Nat.iter_succ.
  set (c1 := Nat.iter n (carry lane false now) c) in *. unfold carry. cbn [on attempts phase].
  split; [rewrite E1; by rewrite <- replicate_S_end|]. split; [|done].
  rewrite E2. unfold wrap. rewrite Z.mod_small; lia.
Qed.

Lemma refund_lookup ci cks : forall cs c, cs !! ci = Some c -> ~ settled c -> 0 <= attempts c ->
  foldl refund cs cks !! ci = Some (set_attempts (sat_sub (attempts c) (Z.of_nat (occ ci cks))) c).
Proof.
  induction cks as [|j cks IH]; intros cs c Hc Hn Ha; cbn [foldl occ].
  - rewrite Hc. unfold sat_sub. rewrite Z.max_r by lia. f_equal. destruct c; unfold set_attempts; cbn. f_equal. lia.
  - unfold refund at 2. destruct (Nat.eqb_spec ci j) as [<-|Hne].
    + unfold phase_is. rewrite (list_lookup_total_correct _ _ _ Hc).
      rewrite !bool_decide_eq_false_2 by (intros ?; apply Hn; by (left + right)). cbn [orb].
      rewrite (IH _ (set_attempts (sat_sub (attempts c) 1) c)).
      * f_equal. unfold set_attempts, sat_sub. cbn. f_equal. lia.
      * by rewrite list_lookup_alter_eq, Hc.
      * done.
      * cbn. unfold sat_sub. lia.
    + apply IH; [|done|done]. destruct (_ || _); [done|]. by rewrite list_lookup_alter_ne.
Qed.

Lemma resolve_cfg lane s ci : cfg (resolve_chunk lane s ci) = cfg s /\ lanes (resolve_chunk lane s ci) = lanes s.
Proof. unfold resolve_chunk, mark_failed, requeue, drop_lane, set_chunks. by repeat case_match. Qed.

Lemma resolve_all_lanes lane cks : forall s, lanes (foldl (resolve_chunk lane) s cks) = lanes s.
Proof. induction cks as [|ci cks IH]; intros s; [done|]. cbn [foldl]. rewrite IH. apply resolve_cfg. Qed.

Lemma resolve_other lane s ci j : j <> ci -> chunks (resolve_chunk lane s j) !! ci = chunks s !! ci.
Proof.
  intros Hne. unfold resolve_chunk, mark_failed, requeue, drop_lane, set_chunks. cbv zeta. cbn [chunks].
  repeat case_match; cbn [chunks]; by rewrite ?list_lookup_alter_ne.
Qed.

(** A chunk that only [lane] carries and that has attempts left is queued again. *)
Lemma resolve_back lane ci A cks : forall s c, chunks s !! ci = Some c -> A < max_attempts (cfg s) ->
  attempts c = A -> (forall l, l ∈ on c -> l = lane) -> (phase c = Pending \/ phase c = InFlight) ->
  exists c', chunks (foldl (resolve_chunk lane) s cks) !! ci = Some c' /\ attempts c' = A /\
    (phase c = Pending \/ ci ∈ cks -> phase c' = Pending).
Proof.
  induction cks as [|j cks IH]; intros s c Hc Hm Ha Ho Hp; cbn [foldl].
  { exists c. split; [done|]. split; [done|]. by intros [?|?%not_elem_of_nil]. }
  destruct (decide (j = ci)) as [->|Hne].
  - assert (Hr : exists c', chunks (resolve_chunk lane s ci) !! ci = Some c' /\ attempts c' = A /\
      (forall l, l ∈ on c' -> l = lane) /\ phase c' = Pending).
    { unfold resolve_chunk. rewrite !(phase_is_at s ci c Hc), !bool_decide_eq_false_2 by (destruct Hp; congruence).
      cbn [orb]. cbv zeta. pose proof (drop_lane_at lane s ci c Hc) as Hd.
      rewrite (list_lookup_total_correct _ _ _ Hd). unfold phase_is. rewrite (list_lookup_total_correct _ _ _ Hd).
      assert (Hnil : on (dropped lane c) = []).
      { destruct (on (dropped lane c)) as [|l0 r] eqn:E; [done|].
        assert (Hin : l0 ∈ on (dropped lane c)) by (rewrite E; left). apply dropped_on in Hin as [Hin Hn]. by apply Ho in Hin. }
      rewrite Hnil. cbn [attempts dropped set_phase]. rewrite Ha, (proj2 (Z.leb_gt _ _)) by done.
      case_bool_decide as Hpd.
      - exists (dropped lane c). rewrite Hnil. split; [done|]. split; [done|].
        split; [by intros l ?%not_elem_of_nil|done].
      - unfold requeue. cbn [chunks set_chunks]. rewrite (alter_insert _ _ _ _ Hd).
        rewrite list_lookup_insert_eq by (by apply lookup_lt_Some in Hd).
        eexists. split; [done|]. cbn [attempts on phase set_phase]. split; [done|]. split; [|done].
        change (forall l, l ∈ on (dropped lane c) -> l = lane). rewrite Hnil. by intros l ?%not_elem_of_nil. }
    destruct Hr as (c1 & Hc1 & Ha1 & Ho1 & Hp1).
    destruct (IH _ c1 Hc1 ltac:(by rewrite (proj1 (resolve_cfg lane s ci))) Ha1 Ho1 ltac:(by left)) as (c' & ? & ? & Hpp).
    exists c'. auto.
  - destruct (IH (resolve_chunk lane s j) c) as (c' & H1 & H2 & H3);
      [by rewrite resolve_other|by rewrite (proj1 (resolve_cfg lane s j))|done|done|done|].
    exists c'. split; [done|]. split; [done|]. intros [?|Hin]; [auto|].
    apply elem_of_cons in Hin as [->|]; [done|auto].
Qed.

Lemma next_plain ln iter s now a : (forall l, iter l ≡ₚ l) -> SInv s ->
  (next ln iter s now).2 = Some a -> a_hedge a = false ->
  (next ln iter s now).1 = (dispatch (expire_backoffs s now) (a_lane a) (a_chunks a) false now).1 /\
  a_batch a = next_batch_id s.
Proof.
  intros Hiter HI. unfold next. cbv zeta.
  destruct (next_hedge ln iter (expire_backoffs s now) now) as [[s' a']|] eqn:Eh.
  { apply next_hedge_ok in Eh as (_ & _ & Hh & _); [|done|by apply inv_expire]. intros [= <-]. congruence. }
  destruct (choose ln _ now) as [[lane picked]|]; [|done]. unfold dispatch. cbn [fst snd]. by intros [= <-].
Qed.

(** A 402 is not a failure: when a dispatched batch is answered by a payment
    request, every chunk of it is queued again with the attempts it had before the
    dispatch, and the lane is paused with its failure streak, its backoff and its
    outstanding requests as they were. *)
Theorem payment_required_free ln iter s now a now2 ci c : reachable ln s -> (forall l, iter l ≡ₚ l) ->
  (next ln iter s now).2 = Some a -> a_hedge a = false -> ci ∈ a_chunks a -> chunks s !! ci = Some c ->
  0 <= attempts c < max_attempts (cfg s) -> attempts c + Z.of_nat (length (a_chunks a)) <= U16_MAX ->
  let s' := on_batch_result (next ln iter s now).1 (a_batch a) PaymentRequired now2 in
  (exists c', chunks s' !! ci = Some c' /\ phase c' = Pending /\ attempts c' = attempts c /\ ci ∈ pending s') /\
  (exists l l', lanes s !! a_lane a = Some l /\ lanes s' !! a_lane a = Some l' /\ health l' = Unfunded /\
     fail_streak l' = fail_streak l /\ backoff_exp l' = backoff_exp l /\ inflight l' = inflight l).
Proof.
  intros HI%inv_reachable Hiter Hn Hh Hin Hc Ha Hmax. cbv zeta.
  pose proof (next_ok ln iter Hiter s now HI) as [HI1 Hok]. destruct (Hok a Hn) as [Hasg _].
  destruct (next_plain ln iter s now a Hiter HI Hn Hh) as [E1 E2]. rewrite E1 in *. rewrite E2.
  destruct (as_phase _ _ _ Hasg ci Hin) as (c0 & Hc0 & Hp). rewrite Hh in Hp.
  assert (c0 = c) as -> by (change (chunks s !! ci = Some c0) in Hc0; congruence).
  destruct (i_pend _ _ _ HI ci c Hc Hp) as [_ Hon].
  assert (HI2 := inv_on_batch_result _ (next_batch_id s) PaymentRequired now2 HI1).
  set (lane := a_lane a) in *. set (picked := a_chunks a) in *.
  pose proof (occ_pos ci picked Hin) as Hpos. pose proof (occ_le ci picked) as Hle.
  destruct (carry_iter lane now (occ ci picked) c Hon ltac:(lia) ltac:(lia)) as (F1 & F2 & F3).
  set (c1 := Nat.iter (occ ci picked) (carry lane false now) c) in *.
  assert (Hc1 : chunks (dispatch (expire_backoffs s now) lane picked false now).1 !! ci = Some c1)
    by (by apply (fold_alter_lookup (carry lane false now) ci picked (chunks s) c)).
  unfold on_batch_result in *. cbn [outstanding dispatch fst] in *.
  rewrite lookup_insert_eq in *. cbv zeta in *.
  match type of HI2 with SInvW _ _ (foldl _ ?x _) => set (s2 := x) in * end.
  assert (Hc2 : chunks s2 !! ci = Some (set_attempts (attempts c) c1)).
  { assert (Hns : ~ settled c1) by (unfold settled; rewrite (F3 Hpos); by intros [?|?]).
    etrans; [exact (refund_lookup ci picked _ c1 Hc1 Hns ltac:(lia))|].
    do 2 f_equal. unfold sat_sub. rewrite F2. lia. }
  assert (Hon1 : forall l, l ∈ on c1 -> l = lane) by (rewrite F1; by intros l [-> _]%elem_of_replicate).
  destruct (resolve_back lane ci (attempts c) picked s2 (set_attempts (attempts c) c1) Hc2)
    as (c' & Hc' & Hat & Hph); [cbn; lia|done|exact Hon1|right; exact (F3 Hpos)|]. split.
  - exists c'. split; [done|]. split; [auto|]. split; [done|]. apply (i_pend _ _ _ HI2 ci c' Hc'). auto.
  - pose proof (as_lane _ _ _ Hasg) as Hl. apply free_lanes_spec in Hl as [Hl _]. fold lane in Hl.
    cbn [lanes expire_backoffs set_lanes] in Hl. rewrite length_map in Hl.
    destruct (lookup_lt_is_Some_2 _ _ Hl) as [l Hl']. rewrite resolve_all_lanes.
    exists l. unfold s2. cbn [lanes set_chunks upd_lane set_lanes expire_backoffs].
    rewrite !list_lookup_alter_eq, list_lookup_fmap, Hl'. cbn [fmap option_fmap option_map].
    eexists. split; [done|]. split; [done|]. cbn [health fail_streak backoff_exp inflight set_health set_inflight].
    assert (Hex : fail_streak (expire now l) = fail_streak l /\ backoff_exp (expire now l) = backoff_exp l /\
      inflight (expire now l) = inflight l) by (unfold expire; destruct (health l); try done; by destruct (_ <=? _)).
    destruct Hex as (-> & -> & ->). split_and!; try done. lia.
Qed.

(** ** Concrete runs *)

Module SchedWitness.
Definition cfg2 : Config := mkConfig 256 16 4 2 (f64_of_Z 0) (f64_lit 10 100) (f64_lit 15 10) 3000 60000.
Definition lane0 : LaneInfo := mkInfo None None None None None None false.
Definition ln0 (x : f64) : f64 := x.
Definition keep (l : list (nat * list nat)) : list (nat * list nat) := l.
Definition w : bytes := [1].
Definition x : bytes := [2].
Definition y : bytes := [3].

(** A lane that has answered a first batch. *)
Definition t0 : Scheduler := (admit_chunks (sched_new [lane0] cfg2) [(w, 4096)]).1.
Definition t1 (ln : f64 -> f64) : Scheduler := (next ln keep t0 0).1.
Definition t2 ln : Scheduler := on_ack (t1 ln) 0 w true 1.
Definition t3 ln : Scheduler := on_batch_result (t2 ln) 1 Answered 1.

Lemma keep_perm l : keep l ≡ₚ l.
Proof. reflexivity. Qed.

Lemma reach_t0 ln : reachable ln t0.
Proof. exact (r_step ln _ _ (r_new ln [lane0] cfg2 AllAcked) (st_admit ln _ [(w, 4096)])). Qed.
Lemma reach_t1 ln : reachable ln (t1 ln).
Proof. exact (r_step ln _ _ (reach_t0 ln) (st_next ln _ keep 0 keep_perm)). Qed.
Lemma reach_t2 ln : reachable ln (t2 ln).
Proof. exact (r_step ln _ _ (reach_t1 ln) (st_ack ln _ 0 w true 1)). Qed.
Lemma reach_t3 ln : reachable ln (t3 ln).
Proof. exact (r_step ln _ _ (reach_t2 ln) (st_result ln _ 1 Answered 1)). Qed.

Lemma sched_no_chunk_lost_witness : acked (t3 ln0) = count Done (chunks (t3 ln0)).
Proof. exact (proj1 (proj1 (proj2 (sched_no_chunk_lost ln0 (t3 ln0) (reach_t3 ln0))))). Defined.

Lemma sched_assignments_witness : assignment_ok (expire_backoffs t0 0) 0 (mkAssignment 1 0 [0%nat] false).
Proof.
  refine (proj1 (sched_assignments ln0 keep t0 0 (mkAssignment 1 0 [0%nat] false) (reach_t0 ln0) keep_perm _)).
  vm_compute. reflexivity.
Defined.

Lemma sized_t0 : sized t0.
Proof.
  split; [change (0 < 256)%nat; lia|]. split; [change (0 < 16)%nat; lia|].
  intros i l Hl. change ([new_lane 0 lane0] !! i = Some l) in Hl. apply list_lookup_singleton_Some in Hl as [_ <-]. done.
Qed.

Lemma sched_never_deadlocks_witness : (exists a, (next ln0 keep t0 0).2 = Some a) /\ stalled t0 0 = None.
Proof.
  apply (sched_never_deadlocks ln0 keep t0 0 0 (new_lane 0 lane0)); try (vm_compute; reflexivity);
    [apply reach_t0|apply sized_t0].
Defined.

Lemma sched_settled_final_witness : on_ack (t3 ln0) 0 w false 9 = t3 ln0.
Proof.
  refine (proj2 (sched_settled_final ln0 (t2 ln0) (t3 ln0) 0 (mkChunk w 4096 Done 1 [] 0 false None) (reach_t2 ln0) _ _ _) 0%nat false 9).
  - exact (rtc_once _ _ (st_result ln0 (t2 ln0) 1 Answered 1)).
  - vm_compute. reflexivity.
  - left. reflexivity.
Defined.

Lemma payment_required_free_witness :
  exists c', chunks (on_batch_result (t1 ln0) 1 PaymentRequired 5) !! 0%nat = Some c' /\ phase c' = Pending /\
    attempts c' = 0 /\ 0%nat ∈ pending (on_batch_result (t1 ln0) 1 PaymentRequired 5).
Proof.
  refine (proj1 (payment_required_free ln0 keep t0 0 (mkAssignment 1 0 [0%nat] false) 5 0
           (mkChunk w 4096 Pending 0 [] 0 false None) (reach_t0 ln0) keep_perm _ _ _ _ _ _)).
  - vm_compute. reflexivity.
  - reflexivity.
  - left.
  - reflexivity.
  - change (0 <= 0 < 2). lia.
  - change (0 + 1 <= 65535). lia.
Defined.

(** A run in which the counter of failures overtakes the number of failed chunks: a chunk whose
    failed ack requeued it is sent on the same lane again, the result of the first
    batch then drops the lane of the second and gives the chunk up, and the ack of
    the second batch completes it.  The chunk is counted as failed and as acked, and
    the run reports itself complete with another chunk still waiting. *)
Definition p0 ln : Scheduler := (admit_chunks (t3 ln) [(x, 4096)]).1.
Definition p1 ln : Scheduler := (next ln keep (p0 ln) 2).1.
Definition p2 ln : Scheduler := on_ack (p1 ln) 0 x false 3.
Definition p3 ln : Scheduler := (next ln keep (p2 ln) 4).1.
Definition p4 ln : Scheduler := on_batch_result (p3 ln) 2 Answered 5.
Definition p5 ln : Scheduler := on_ack (p4 ln) 0 x true 6.
Definition p6 ln : Scheduler := on_batch_result (p5 ln) 3 Answered 7.
Definition p7 ln : Scheduler := (admit_chunks (p6 ln) [(y, 4096)]).1.

Lemma reach_p3 ln : reachable ln (p3 ln).
Proof.
  pose proof (r_step ln _ _ (reach_t3 ln) (st_admit ln _ [(x, 4096)])) as H0.
  pose proof (r_step ln _ _ H0 (st_next ln _ keep 2 keep_perm)) as H1.
  pose proof (r_step ln _ _ H1 (st_ack ln _ 0 x false 3)) as H2.
  exact (r_step ln _ _ H2 (st_next ln _ keep 4 keep_perm)).
Qed.
Lemma reach_p7 ln : reachable ln (p7 ln).
Proof.
  pose proof (r_step ln _ _ (reach_p3 ln) (st_result ln _ 2 Answered 5)) as H4.
  pose proof (r_step ln _ _ H4 (st_ack ln _ 0 x true 6)) as H5.
  pose proof (r_step ln _ _ H5 (st_result ln _ 3 Answered 7)) as H6.
  exact (r_step ln _ _ H6 (st_admit ln _ [(y, 4096)])).
Qed.

(** From a reachable state that respects the order of acks and results, the
    scheduler reports completion while a chunk is still pending, because another
    chunk was counted both as failed and as acked. *)
Theorem done_premature ln : exists s, reachable ln s /\ sched_done s = true /\
  exists ci c, chunks s !! ci = Some c /\ addr c = y /\ phase c = Pending.
Proof.
  exists (p7 ln). split; [apply reach_p7|]. split; [vm_compute; reflexivity|].
  exists 2%nat, (mkChunk y 4096 Pending 0 [] 0 false None). vm_compute. auto.
Qed.
End SchedWitness.
