(* ===== verification/Retrieval.v ===== *)
(** * Retrieving a chunk ([src/src/client.rs], the networked store)

    The state a client keeps across fetches (feed hints, the scoreboard of peers, the
    sessions and the chunks already fetched), the order in which peers are tried for a
    chunk, and the loop that races them: a window of attempts, peers that must wait put
    back in the queue, failed ones parked for a minute and tried again.

    The loop is a step machine.  An event is an answer of the network to one of the
    attempts in flight, in any order, or the loop refilling its queue after a sleep; the
    clock is a value that events carry.  Parameters: the multiaddress parser, hex, the
    proximity of nectar, the hash of a content chunk and the address of a single-owner
    chunk.  The permits of a session (a bound on the streams open at once) and the
    persistent store of a browser are left out. *)
From Stdlib Require Import ZArith Lia.
From stdpp Require Import base tactics numbers countable strings list gmap sorting.
From S2P Require Import Prelude Codec Erasure Peers.
Local Open Scope Z_scope.
Local Open Scope hov_scope.

Definition DEFAULT_FETCH_CONCURRENCY : nat := 5.
Definition PEER_SCORE_MAX : Z := 4.
Definition PEER_SCORE_MIN : Z := -3.
(** Milliseconds a failed peer is parked. *)
Definition skiplist_dur : Z := 60000.

(** [fn joiner_concurrency]. *)
Definition joiner_concurrency (per_chunk_race : Z) : Z := Z.min (Z.max (Z.min (per_chunk_race * 6) U64_MAX) 24) 48.

(** ** Feed hints: the [feed_index] of [RetrievalCache] *)

Definition FeedHints : Type := gmap str Z.
Definition feed_hint (m : FeedHints) (key : str) : option Z := m !! key.
Definition set_feed_hint (m : FeedHints) (key : str) (index : Z) : FeedHints :=
  let e := default 0 (m !! key) in <[key := if e <? index then index else e]> m.
Definition import_feed_hints (m : FeedHints) (hints : list (str * Z)) : FeedHints :=
  foldl (fun m kv => set_feed_hint m kv.1 kv.2) m hints.

(** ** The scoreboard *)

Definition note_response (m : gmap str Z) (overlay : str) : gmap str Z :=
  let o := to_ascii_lowercase overlay in <[o := Z.min (Z.max (default 0 (m !! o) + 2) 1) PEER_SCORE_MAX]> m.
Definition note_timeout (m : gmap str Z) (overlay : str) : gmap str Z :=
  let o := to_ascii_lowercase overlay in <[o := Z.max (default 0 (m !! o) - 1) PEER_SCORE_MIN]> m.

(** [enum TransportError], nested errors by their text. *)
Inductive TransportError :=
| NotWebSocket (s : str) | MissingPeerId | DialFailed (s : str) | ConnectionClosed | Timeout | TxHandshake (s : str) | TxHive (s : str)
| TxPricing (s : str) | TxRetrieval (s : str) | TxPushsyncFrame (s : str) | TxPushsyncPeer (s : str) | StreamControl (s : str) | TxFraming (s : str) | TxSigner (s : str)
| TxNetworkMismatch (s : str) | TxPseudoSettle (s : str) | TxSwap (s : str) | TxStatus (s : str) | DialTooSoon (wait : str).

Definition transport_error_display (e : TransportError) : str :=
  match e with
  | NotWebSocket s => lit "multiaddr is not ws/wss: " ++ s | MissingPeerId => lit "multiaddr missing peer id"
  | DialFailed s => lit "dial failed: " ++ s | ConnectionClosed => lit "connection closed" | Timeout => lit "timeout"
  | TxHandshake s => lit "handshake: " ++ s | TxHive s => lit "hive: " ++ s | TxPricing s => lit "pricing: " ++ s
  | TxRetrieval s => lit "retrieval: " ++ s | TxPushsyncFrame s => lit "pushsync: frame: " ++ s | TxPushsyncPeer s => lit "pushsync: peer error: " ++ s | StreamControl s => lit "stream control: " ++ s
  | TxFraming s => lit "framing: " ++ s | TxSigner s => lit "signer: " ++ s | TxNetworkMismatch s => lit "network mismatch: " ++ s
  | TxPseudoSettle s => lit "pseudosettle: " ++ s | TxSwap s => lit "swap: " ++ s | TxStatus s => lit "status: " ++ s
  | DialTooSoon w => lit "dial too soon (try again in " ++ w ++ lit ")"
  end.

Section Fetch.
Context {Multiaddr : Type} (parse_multiaddr : str -> option Multiaddr) (underlay_string : Multiaddr -> str).
Context `{Hex} (swarm_proximity : bytes -> bytes -> Z).
Context (bmt : Z -> bytes -> bytes) (soc_address : bytes -> option bytes).

(** [fn validate_delivery]. *)
Definition validate_delivery (data address : bytes) : bool :=
  bool_decide (wire_address bmt data = Some address) || bool_decide (soc_address data = Some address).

(** ** The order of the candidates *)

Definition reach (scores : gmap str Z) (now : Z) (p : Peer) : Z :=
  match first_dialable_underlay parse_multiaddr p with
  | None => 4
  | Some _ =>
      let score := default 0 (scores !! to_ascii_lowercase (overlay p)) in
      if 0 <? score then 0 else if score <? 0 then 3 else if is_recently_unreachable p now then 2 else 1
  end.
Definition forwarder (p : Peer) : Z := match full_node p with Some true => 0 | None => 1 | Some false => 2 end.
Definition sort_key (scores : gmap str Z) (now : Z) (p : Peer) : Z := reach scores now p * 3 + forwarder p.
Definition rank_candidates (scores : gmap str Z) (now : Z) (ps : list Peer) : list Peer :=
  stable_sort (fun a b => sort_key scores now a <=? sort_key scores now b) ps.
Definition attempt_cap (max_retries : nat) (candidates : list Peer) : nat :=
  if Nat.eqb max_retries 0 then length candidates else Nat.min max_retries (length candidates).

(** ** The state of the store and of one loop *)

Record Shared := mkShared { content : gmap bytes bytes; sessions : gmap str nat; peer_scores : gmap str Z; reach_log : gmap str DialResult }.
Definition with_content (sh : Shared) (c : gmap bytes bytes) : Shared := mkShared c (sessions sh) (peer_scores sh) (reach_log sh).
Definition with_sessions (sh : Shared) (s : gmap str nat) : Shared := mkShared (content sh) s (peer_scores sh) (reach_log sh).
Definition with_scores (sh : Shared) (s : gmap str Z) : Shared := mkShared (content sh) (sessions sh) s (reach_log sh).
Definition with_log (sh : Shared) (l : gmap str DialResult) : Shared := mkShared (content sh) (sessions sh) (peer_scores sh) l.

(** [fn seed_wire]. *)
Definition seed_wire (sh : Shared) (address wire : bytes) : Shared := with_content sh (<[address := wire]> (content sh)).

Inductive AttemptOutcome := Got (wire : bytes) | Deferred | Failed (msg : str).
Inductive AttemptPhase := Opening | Fetching.
Record FetchLoop := mkLoop {
  deque : list Peer; inflight : list (Peer * AttemptPhase); skiplist : gmap str Z; failed_attempts : Z; consecutive_deferrals : Z;
  last_err : str; clock : Z }.

(** The answer to an attempt, of [try_peer] from its result on. *)
Definition attempt_result (address : bytes) (sh : Shared) (p : Peer) (rtt_ms : Z) (peer_full_node : option bool)
    (res : result bytes TransportError) : Shared * AttemptOutcome :=
  let key := to_ascii_lowercase (overlay p) in
  let sh := match res, first_dialable_underlay parse_multiaddr p with
            | Err ConnectionClosed, Some u => with_sessions sh (delete (underlay_string u) (sessions sh))
            | _, _ => sh
            end in
  match res with
  | Ok data =>
      let sh := with_scores (with_log sh (<[key := Success (Z.min rtt_ms U32_MAX) peer_full_node]> (reach_log sh))) (note_response (peer_scores sh) (overlay p)) in
      (sh, if validate_delivery data address then Got data else Failed (lit "address mismatch"))
  | Err (DialTooSoon _) | Err ConnectionClosed => (sh, Deferred)
  | Err e =>
      let sh := with_log sh (<[key := Failure]> (reach_log sh)) in
      (match e with
       | TxRetrieval _ => with_scores sh (note_response (peer_scores sh) (overlay p))
       | Timeout | DialFailed _ => with_scores sh (note_timeout (peer_scores sh) (overlay p))
       | _ => sh
       end, Failed (transport_error_display e))
  end.

Context (address : bytes) (all_candidates : list Peer) (concurrency : nat).

Definition window : nat := Nat.max concurrency 1.
Definition cycle_threshold : Z := Z.min (Z.of_nat (length all_candidates) + Z.of_nat window + 1) U64_MAX.

(** Filling the window from the queue. *)
Definition seed (lp : FetchLoop) : FetchLoop :=
  mkLoop (drop window (deque lp)) (inflight lp ++ map (fun p => (p, Opening)) (take window (deque lp)))
    (skiplist lp) (failed_attempts lp) (consecutive_deferrals lp) (last_err lp) (clock lp).

(** The state before the loop. *)
Definition loop_start (now : Z) : FetchLoop := seed (mkLoop all_candidates [] ∅ 0 0 (lit "no peers tried") now).

Inductive Stepped := Continue (sh : Shared) (lp : FetchLoop) | Return (sh : Shared) (r : result bytes str).

(** An attempt of position [i] completes: the arms of the loop, then the next of the
    queue is started. *)
Definition finish (sh : Shared) (lp : FetchLoop) (i : nat) (p : Peer) (o : AttemptOutcome) (now : Z) : Stepped :=
  let rest := delete i (inflight lp) in
  let after dq skip fails defs err :=
    Continue sh (mkLoop (drop 1 dq) (rest ++ map (fun p => (p, Opening)) (take 1 dq)) skip fails defs err now) in
  match o with
  | Got wire => Return (with_content sh (<[address := wire]> (content sh))) (Ok wire)
  | Deferred =>
      let defs := sat_add U64_MAX (consecutive_deferrals lp) 1 in
      after (deque lp ++ [p]) (skiplist lp) (failed_attempts lp) (if cycle_threshold <=? defs then 0 else defs) (last_err lp)
  | Failed e =>
      after (deque lp) (<[to_ascii_lowercase (overlay p) := now + skiplist_dur]> (skiplist lp)) (sat_add U64_MAX (failed_attempts lp) 1) 0 e
  end.

Definition retain (skip : gmap str Z) (now : Z) : gmap str Z := filter (fun kv => now < kv.2) skip.
(** [skiplist.values().min()]. *)
Definition earliest (skip : gmap str Z) (now : Z) : Z :=
  match map snd (map_to_list skip) with [] => now | v :: vs => foldr Z.min v vs end.

(** The top of the loop with nothing in flight and nothing queued: give up, or sleep to
    the first expiry and refill. *)
Definition all_failed (sh : Shared) (lp : FetchLoop) : Stepped :=
  Return sh (Err (lit "all peers failed (" ++ u128_to_string (failed_attempts lp) ++ lit "/" ++ u128_to_string (Z.of_nat (length all_candidates)) ++
                  lit " attempted): " ++ last_err lp)).
Definition refill (sh : Shared) (lp : FetchLoop) (now1 now2 : Z) : Stepped :=
  let skip := retain (skiplist lp) now1 in
  if bool_decide (skip = ∅) then all_failed sh lp
  else
    let skip := retain skip now2 in
    let back := List.filter (fun p => negb (bool_decide (is_Some (skip !! to_ascii_lowercase (overlay p))))) all_candidates in
    let lp := seed (mkLoop back [] skip (failed_attempts lp) (consecutive_deferrals lp) (last_err lp) now2) in
    match inflight lp with [] => all_failed sh lp | _ => Continue sh lp end.

Inductive FetchEvent :=
| NoUnderlay (i : nat) (now : Z)
| Cached (i : nat)
| Opened (i : nat) (conn : result nat TransportError) (rtt now : Z)
| Fetched (i : nat) (res : result bytes TransportError) (full : bool) (rtt now : Z)
| Refill (now1 now2 : Z)
| OtherFetch (sh : Shared).

Definition to_fetching (lp : FetchLoop) (i : nat) (p : Peer) : FetchLoop :=
  mkLoop (deque lp) (<[i := (p, Fetching)]> (inflight lp)) (skiplist lp) (failed_attempts lp) (consecutive_deferrals lp) (last_err lp) (clock lp).

Definition fetch_step (sh : Shared) (lp : FetchLoop) (e : FetchEvent) : option Stepped :=
  match e with
  | NoUnderlay i now =>
      match inflight lp !! i with
      | Some (p, Opening) =>
          match first_dialable_underlay parse_multiaddr p with
          | None => Some (finish sh lp i p (Failed (lit "no dialable underlay")) now)
          | Some _ => None
          end
      | _ => None
      end
  | Cached i =>
      match inflight lp !! i with
      | Some (p, Opening) =>
          match first_dialable_underlay parse_multiaddr p with
          | Some u => match sessions sh !! underlay_string u with Some _ => Some (Continue sh (to_fetching lp i p)) | None => None end
          | None => None
          end
      | _ => None
      end
  | Opened i conn rtt now =>
      match inflight lp !! i with
      | Some (p, Opening) =>
          match first_dialable_underlay parse_multiaddr p with
          | Some u =>
              match conn with
              | Ok s =>
                  let have := sessions sh in
                  Some (Continue (with_sessions sh (match have !! underlay_string u with Some _ => have | None => <[underlay_string u := s]> have end))
                          (to_fetching lp i p))
              | Err e => let '(sh, o) := attempt_result address sh p rtt None (Err e) in Some (finish sh lp i p o now)
              end
          | None => None
          end
      | _ => None
      end
  | Fetched i res full rtt now =>
      match inflight lp !! i with
      | Some (p, Fetching) => let '(sh, o) := attempt_result address sh p rtt (Some full) res in Some (finish sh lp i p o now)
      | _ => None
      end
  | Refill now1 now2 => match inflight lp, deque lp with [], [] => Some (refill sh lp now1 now2) | _, _ => None end
  | OtherFetch sh' => Some (Continue sh' lp)
  end.

(** The clock only goes forward, a sleep does not end early, and the loop looks at the
    clock within a minute of the failure that emptied the window.  Other fetches only
    add chunks that are valid for their address. *)
Definition content_ok (sh : Shared) : Prop := map_Forall (fun a w => validate_delivery w a = true) (content sh).
Definition timely (lp : FetchLoop) (e : FetchEvent) : Prop :=
  match e with
  | NoUnderlay _ now | Opened _ _ _ now | Fetched _ _ _ _ now => clock lp <= now
  | Cached _ => True
  | Refill now1 now2 => clock lp <= now1 < clock lp + skiplist_dur /\ now1 <= now2 /\ earliest (retain (skiplist lp) now1) now1 <= now2
  | OtherFetch sh => content_ok sh
  end.

Inductive fetch_reachable (sh0 : Shared) (now0 : Z) : Shared -> FetchLoop -> Prop :=
| FrStart : fetch_reachable sh0 now0 sh0 (loop_start now0)
| FrStep sh lp e sh' lp' : fetch_reachable sh0 now0 sh lp -> timely lp e -> fetch_step sh lp e = Some (Continue sh' lp') ->
    fetch_reachable sh0 now0 sh' lp'.
End Fetch.

(** ** The order is a stable sort *)

Lemma sort_insert_stable {A} (key : A -> Z) k x l :
  List.filter (fun y => key y =? k) (sort_insert (fun a b => key a <=? key b) x l) = List.filter (fun y => key y =? k) (x :: l).
Proof.
  induction l as [|y l IH]; [done|]. cbn [sort_insert]. destruct (Z.leb_spec (key x) (key y)); [done|]. cbn [List.filter] in *.
  rewrite IH. destruct (Z.eqb_spec (key x) k), (Z.eqb_spec (key y) k); try done. lia.
Qed.

Lemma stable_sort_stable {A} (key : A -> Z) k l :
  List.filter (fun y => key y =? k) (stable_sort (fun a b => key a <=? key b) l) = List.filter (fun y => key y =? k) l.
Proof. induction l as [|x l IH]; [done|]. cbn [stable_sort]. rewrite sort_insert_stable. cbn [List.filter]. by rewrite IH. Qed.

Lemma sorted_mono {A} (R Q : A -> A -> Prop) l : (forall a b, R a b -> Q a b) -> StronglySorted R l -> StronglySorted Q l.
Proof. intros HRQ. induction 1 as [|x l _ IH Hx]; constructor; [done|]. eapply Forall_impl; [exact Hx|]. intros y. apply HRQ. Qed.

(** ** The loop *)

Section LoopProps.
Context {Multiaddr : Type} (parse_multiaddr : str -> option Multiaddr) (underlay_string : Multiaddr -> str).
Context (bmt : Z -> bytes -> bytes) (soc_address : bytes -> option bytes).
Context (address : bytes) (all_candidates : list Peer) (concurrency : nat).
Context (Hnodup : NoDup (map (fun p => to_ascii_lowercase (overlay p)) all_candidates)) (Hsome : all_candidates <> []).

Abbreviation pkey p := (to_ascii_lowercase (overlay p)).
Abbreviation step := (fetch_step parse_multiaddr underlay_string bmt soc_address address all_candidates concurrency).
Abbreviation outcome := (attempt_result parse_multiaddr underlay_string bmt soc_address address).
Abbreviation valid := (validate_delivery bmt soc_address).
Abbreviation ok := (content_ok bmt soc_address).

Definition peers_of (lp : FetchLoop) : list Peer := deque lp ++ map fst (inflight lp).

(** The candidates are queued, in flight or parked, and the window is only empty when
    the last of them has just been parked. *)
Record loop_inv (lp : FetchLoop) : Prop := {
  li_nodup : NoDup (map (fun p => pkey p) (peers_of lp));
  li_sub : forall p, p ∈ peers_of lp -> p ∈ all_candidates;
  li_all : forall p, p ∈ all_candidates -> p ∈ peers_of lp \/ is_Some (skiplist lp !! pkey p);
  li_window : (length (inflight lp) <= window concurrency)%nat;
  li_empty : inflight lp = [] -> deque lp = [] /\ exists p, p ∈ all_candidates /\ skiplist lp !! pkey p = Some (clock lp + skiplist_dur);
  li_skip : forall k v, skiplist lp !! k = Some v -> v <= clock lp + skiplist_dur /\ exists p, p ∈ all_candidates /\ pkey p = k;
  li_fails : 0 <= failed_attempts lp <= U64_MAX }.

Lemma window_pos : (0 < window concurrency)%nat.
Proof. unfold window. lia. Qed.

Lemma seed_peers lp : peers_of (seed concurrency lp) ≡ₚ peers_of lp.
Proof.
  unfold peers_of, seed. cbn [deque inflight]. rewrite map_app, map_map. cbn [fst]. rewrite map_id.
  rewrite (Permutation_app_comm (map fst (inflight lp))), (app_assoc (drop _ _)), (Permutation_app_comm (drop _ _)), take_drop. done.
Qed.

Lemma seed_inv dq skip fails defs err now : NoDup (map (fun p => pkey p) dq) -> dq <> [] ->
  (forall p, p ∈ dq -> p ∈ all_candidates) -> (forall p, p ∈ all_candidates -> p ∈ dq \/ is_Some (skip !! pkey p)) ->
  (forall k v, skip !! k = Some v -> v <= now + skiplist_dur /\ exists p, p ∈ all_candidates /\ pkey p = k) -> 0 <= fails <= U64_MAX ->
  loop_inv (seed concurrency (mkLoop dq [] skip fails defs err now)) /\ inflight (seed concurrency (mkLoop dq [] skip fails defs err now)) <> [].
Proof.
  intros Hnd Hne Hsub Hall Hskip Hf. set (lp := mkLoop dq [] skip fails defs err now).
  assert (Ep : peers_of lp = dq) by (unfold peers_of; cbn; by rewrite app_nil_r).
  pose proof (seed_peers lp) as Hp. rewrite Ep in Hp. pose proof window_pos.
  assert (Hin : inflight (seed concurrency lp) <> []).
  { cbn. destruct dq as [|p dq']; [done|]. destruct (window concurrency); [lia|done]. }
  split; [|done]. split; try done.
  - by rewrite Hp.
  - intros p Hq. rewrite Hp in Hq. by apply Hsub.
  - intros p Hq. rewrite Hp. by apply Hall.
  - cbn. rewrite length_map, length_take. lia.
Qed.

Lemma start_inv now : loop_inv (loop_start all_candidates concurrency now).
Proof. apply seed_inv; try done. intros p Hp. by left. Qed.

Lemma inflight_split lp i p ph : inflight lp !! i = Some (p, ph) -> peers_of lp ≡ₚ p :: deque lp ++ map fst (delete i (inflight lp)).
Proof.
  intros Hi. unfold peers_of. rewrite Permutation_middle. apply Permutation_app_head.
  change (map fst (inflight lp) ≡ₚ map fst ((p, ph) :: delete i (inflight lp))). by apply Permutation_map, delete_Permutation.
Qed.

(** The state after an attempt that did not bring the chunk. *)
Definition after_attempt (lp : FetchLoop) (i : nat) (dq : list Peer) (skip : gmap str Z) (fails defs : Z) (err : str) (now : Z) : FetchLoop :=
  mkLoop (drop 1 dq) (delete i (inflight lp) ++ map (fun p => (p, Opening)) (take 1 dq)) skip fails defs err now.

Lemma after_peers lp i dq skip fails defs err now :
  peers_of (after_attempt lp i dq skip fails defs err now) ≡ₚ dq ++ map fst (delete i (inflight lp)).
Proof.
  unfold peers_of, after_attempt. cbn [deque inflight]. rewrite map_app, map_map. cbn [fst]. rewrite map_id.
  rewrite (Permutation_app_comm (map fst _)), app_assoc, (Permutation_app_comm (drop _ _)), take_drop. done.
Qed.

Lemma after_window lp i p ph dq skip fails defs err now : inflight lp !! i = Some (p, ph) -> (length (inflight lp) <= window concurrency)%nat ->
  (length (inflight (after_attempt lp i dq skip fails defs err now)) <= window concurrency)%nat.
Proof.
  intros Hi Hw. cbn. rewrite length_app, length_map, length_take. rewrite length_delete by done. apply lookup_lt_Some in Hi. lia.
Qed.

Lemma finish_inv sh lp i p ph o now sh' lp' : loop_inv lp -> inflight lp !! i = Some (p, ph) -> clock lp <= now ->
  finish address all_candidates concurrency sh lp i p o now = Continue sh' lp' -> loop_inv lp' /\ sh' = sh.
Proof.
  intros [Hnd Hsub Hall Hw He Hsk Hf] Hi Hnow. pose proof (inflight_split lp i p ph Hi) as Hperm. rewrite Hperm in Hnd.
  assert (Hsk' : forall k v, skiplist lp !! k = Some v -> v <= now + skiplist_dur /\ exists p, p ∈ all_candidates /\ pkey p = k).
  { intros k v Hk. destruct (Hsk k v Hk). split; [lia|done]. }
  destruct o as [w| |e]; cbn [finish]; cbv zeta; [done|intros [= <- <-]..].
  - (* deferred *)
    fold (after_attempt lp i (deque lp ++ [p]) (skiplist lp) (failed_attempts lp)
      (if cycle_threshold all_candidates concurrency <=? sat_add U64_MAX (consecutive_deferrals lp) 1 then 0 else sat_add U64_MAX (consecutive_deferrals lp) 1) (last_err lp) now).
    set (lp' := after_attempt _ _ _ _ _ _ _ _). split; [|done].
    assert (Hp : peers_of lp' ≡ₚ peers_of lp).
    { unfold lp'. rewrite after_peers, Hperm, <- app_assoc. cbn. symmetry. apply Permutation_middle. }
    split; try done.
    + by rewrite Hp, Hperm.
    + intros q Hq. rewrite Hp in Hq. by apply Hsub.
    + intros q Hq. rewrite Hp. by apply Hall.
    + by apply (after_window lp i p ph).
    + unfold lp', after_attempt. cbn. intros Hnil. apply app_nil in Hnil as [_ Hnil]. by destruct (deque lp).
  - (* failed *)
    fold (after_attempt lp i (deque lp) (<[pkey p := now + skiplist_dur]> (skiplist lp)) (sat_add U64_MAX (failed_attempts lp) 1) 0 e now).
    set (lp' := after_attempt _ _ _ _ _ _ _ _). split; [|done]. cbn [map] in Hnd. apply NoDup_cons in Hnd as [Hfresh Hnd].
    assert (Hp : peers_of lp' ≡ₚ deque lp ++ map fst (delete i (inflight lp))) by apply after_peers.
    assert (Hmem : p ∈ all_candidates) by (apply Hsub; rewrite Hperm; apply elem_of_cons; by left).
    split; try done.
    + by rewrite Hp.
    + intros q Hq. rewrite Hp in Hq. apply Hsub. rewrite Hperm. apply elem_of_cons. by right.
    + intros q Hq. rewrite Hp. cbn [skiplist lp' after_attempt]. destruct (decide (pkey q = pkey p)) as [->|Hne]; [right; by rewrite lookup_insert_eq|].
      rewrite lookup_insert_ne by done. destruct (Hall q Hq) as [Hq'|Hq']; [|by right]. left. rewrite Hperm in Hq'.
      apply elem_of_cons in Hq' as [->|Hq']; done.
    + by apply (after_window lp i p ph).
    + intros Hnil. unfold lp', after_attempt in Hnil. cbn in Hnil. apply app_nil in Hnil as [_ Hnil].
      assert (Ed : deque lp = []) by (by destruct (deque lp)). split; [unfold lp', after_attempt; cbn; by rewrite Ed|].
      exists p. split; [done|]. unfold lp', after_attempt. cbn. by rewrite lookup_insert_eq.
    + intros k v Hk. unfold lp', after_attempt in Hk |- *. cbn in *. apply lookup_insert_Some in Hk as [[<- <-]|[_ Hk]]; [|by apply Hsk'].
      split; [lia|by exists p].
    + unfold lp', after_attempt. cbn. unfold sat_add. lia.
Qed.

Lemma foldr_min_elem v vs : foldr Z.min v vs ∈ v :: vs.
Proof.
  induction vs as [|x vs IH]; cbn [foldr]; [by apply list_elem_of_singleton|]. destruct (Z.min_spec x (foldr Z.min v vs)) as [[_ ->]|[_ ->]].
  - apply elem_of_cons. right. apply elem_of_cons. by left.
  - apply elem_of_cons in IH as [->|IH]; apply elem_of_cons; [by left|]. right. apply elem_of_cons. by right.
Qed.

Lemma earliest_lookup skip now : skip <> ∅ -> exists k, skip !! k = Some (earliest skip now).
Proof.
  intros Hne. unfold earliest. destruct (map snd (map_to_list skip)) as [|v vs] eqn:E.
  - apply fmap_nil_inv in E. by apply map_to_list_empty_iff in E.
  - pose proof (foldr_min_elem v vs) as Hin. rewrite <- E in Hin. apply list_elem_of_fmap in Hin as ([k x] & Ex & Hin).
    exists k. apply elem_of_map_to_list in Hin. rewrite Hin. cbn in Ex. by rewrite Ex.
Qed.

Lemma retain_lookup skip now k v : retain skip now !! k = Some v <-> skip !! k = Some v /\ now < v.
Proof. unfold retain. by rewrite map_lookup_filter_Some. Qed.

Lemma refill_continues sh lp now1 now2 : loop_inv lp -> inflight lp = [] -> timely bmt soc_address lp (Refill now1 now2) ->
  exists lp', refill all_candidates concurrency sh lp now1 now2 = Continue sh lp' /\ loop_inv lp' /\ inflight lp' <> [] /\
    failed_attempts lp' = failed_attempts lp.
Proof.
  intros Hinv Hnil (Hn1 & Hn2 & Hn3). destruct (li_empty lp Hinv Hnil) as (Hdq & p & Hp & Hskp).
  unfold refill. cbv zeta. set (s1 := retain (skiplist lp) now1) in *. set (s2 := retain s1 now2).
  assert (Hne : s1 <> ∅).
  { intros E. assert (Hl : s1 !! pkey p = Some (clock lp + skiplist_dur)) by (apply retain_lookup; split; [done|lia]). by rewrite E in Hl. }
  rewrite bool_decide_false by done. set (back := List.filter _ all_candidates). set (lp1 := mkLoop back [] s2 _ _ _ now2).
  assert (Hback : forall q, q ∈ back <-> q ∈ all_candidates /\ s2 !! pkey q = None).
  { intros q. unfold back. rewrite !list_elem_of_In, filter_In. split; intros [H1 H2]; (split; [done|]).
    - apply negb_true_iff in H2. case_bool_decide as Hs; [done|]. by apply eq_None_not_Some.
    - rewrite H2. done. }
  destruct (earliest_lookup s1 now1 Hne) as [k Hk]. destruct (proj1 (retain_lookup _ _ _ _) Hk) as [Hk0 _].
  destruct (li_skip lp Hinv k _ Hk0) as (_ & q & Hq & Ekq).
  assert (Hqb : q ∈ back).
  { apply Hback. split; [done|]. rewrite Ekq. apply eq_None_not_Some. intros [v Hv]. apply retain_lookup in Hv as [Hv Hlt].
    rewrite Hk in Hv. simplify_eq. lia. }
  destruct (seed_inv back s2 (failed_attempts lp) (consecutive_deferrals lp) (last_err lp) now2) as [Hi Hin].
  - apply (sublist_NoDup _ (map (fun p => pkey p) all_candidates)); [done|]. apply (fmap_sublist (fun p => pkey p)), filter_sublist.
  - intros E. rewrite E in Hqb. by apply not_elem_of_nil in Hqb.
  - intros r Hr. by apply Hback.
  - intros r Hr. destruct (s2 !! pkey r) eqn:E; [right; by eexists|left; by apply Hback].
  - intros k' v Hv. apply retain_lookup in Hv as [Hv _]. apply retain_lookup in Hv as [Hv _]. destruct (li_skip lp Hinv k' v Hv). split; [lia|done].
  - apply Hinv.
  - fold lp1 in Hi, Hin |- *. destruct (inflight (seed concurrency lp1)) eqn:E; [done|]. exists (seed concurrency lp1). by rewrite E.
Qed.

Lemma attempt_content sh p rtt full res : content (outcome sh p rtt full res).1 = content sh.
Proof. unfold attempt_result. cbv zeta. repeat case_match; done. Qed.

Lemma attempt_got sh p rtt full res w : (outcome sh p rtt full res).2 = Got w -> valid w address = true.
Proof. unfold attempt_result. cbv zeta. repeat case_match; cbn; intros; simplify_eq; done. Qed.

(** What a step of the loop gives. *)
Definition stepped_ok (sh : Shared) (r : Stepped) : Prop :=
  match r with
  | Continue sh' lp' => loop_inv lp' /\ (ok sh -> ok sh')
  | Return sh' r => exists w, r = Ok w /\ valid w address = true /\ content sh' !! address = Some w /\ (ok sh -> ok sh')
  end.

Lemma fetch_finish_ok sh lp i p ph o now : loop_inv lp -> inflight lp !! i = Some (p, ph) -> clock lp <= now ->
  (forall w, o = Got w -> valid w address = true) -> stepped_ok sh (finish address all_candidates concurrency sh lp i p o now).
Proof.
  intros Hinv Hi Hnow Hgot. destruct (finish _ _ _ _ _ _ _ _ _) as [sh' lp'|sh' r] eqn:E.
  - destruct (finish_inv sh lp i p ph o now sh' lp' Hinv Hi Hnow E) as [? ->]. by split.
  - destruct o as [w| |e]; cbn [finish] in E; cbv zeta in E; [|done..]. injection E as <- <-. exists w. specialize (Hgot w eq_refl).
    split_and!; [done|done|cbn; by rewrite lookup_insert_eq|]. intros Hok. unfold content_ok. cbn. by apply map_Forall_insert_2.
Qed.

Lemma to_fetching_inv lp i p : loop_inv lp -> inflight lp !! i = Some (p, Opening) -> loop_inv (to_fetching lp i p).
Proof.
  intros [Hnd Hsub Hall Hw He Hsk Hf] Hi.
  assert (Ep : peers_of (to_fetching lp i p) = peers_of lp).
  { unfold peers_of. cbn. f_equal. apply list_eq. intros j. fold (fmap (M := list) (A := Peer * AttemptPhase) fst) . rewrite !list_lookup_fmap.
    destruct (decide (i = j)) as [<-|Hne]; [|by rewrite list_lookup_insert_ne]. rewrite list_lookup_insert_eq by (by apply lookup_lt_Some in Hi). by rewrite Hi. }
  split; rewrite ?Ep; try done; cbn.
  - by rewrite length_insert.
  - intros E. apply (f_equal length) in E. rewrite length_insert in E. apply nil_length_inv in E. by apply He.
Qed.

Lemma fetch_step_ok sh lp e r : loop_inv lp -> timely bmt soc_address lp e -> step sh lp e = Some r -> stepped_ok sh r.
Proof.
  intros Hinv Ht Hs. destruct e as [i now|i|i conn rtt now|i res full rtt now|now1 now2|sh']; cbn [fetch_step timely] in *.
  - destruct (inflight lp !! i) as [[p []]|] eqn:Hi; try done. destruct (first_dialable_underlay _ p); [done|].
    apply (inj Some) in Hs as <-. by apply (fetch_finish_ok sh lp i p Opening).
  - destruct (inflight lp !! i) as [[p []]|] eqn:Hi; try done. destruct (first_dialable_underlay _ p); [|done].
    destruct (sessions sh !! _); [|done]. apply (inj Some) in Hs as <-. split; [by apply to_fetching_inv|done].
  - destruct (inflight lp !! i) as [[p []]|] eqn:Hi; try done. destruct (first_dialable_underlay _ p) as [u|]; [|done].
    destruct conn as [n|e]; [apply (inj Some) in Hs as <-; split; [by apply to_fetching_inv|done]|].
    pose proof (attempt_content sh p rtt None (Err e)) as Hc. pose proof (attempt_got sh p rtt None (Err e)) as Hg.
    destruct (outcome sh p rtt None (Err e)) as [sh1 o]. apply (inj Some) in Hs as <-.
    pose proof (fetch_finish_ok sh1 lp i p Opening o now Hinv Hi Ht Hg) as Hf. unfold stepped_ok, content_ok in *. by rewrite <- Hc.
  - destruct (inflight lp !! i) as [[p []]|] eqn:Hi; try done.
    pose proof (attempt_content sh p rtt (Some full) res) as Hc. pose proof (attempt_got sh p rtt (Some full) res) as Hg.
    destruct (outcome sh p rtt (Some full) res) as [sh1 o]. apply (inj Some) in Hs as <-.
    pose proof (fetch_finish_ok sh1 lp i p Fetching o now Hinv Hi Ht Hg) as Hf. unfold stepped_ok, content_ok in *. by rewrite <- Hc.
  - destruct (inflight lp) eqn:Hi; [|done]. destruct (deque lp); [|done]. apply (inj Some) in Hs as <-.
    destruct (refill_continues sh lp now1 now2 Hinv Hi Ht) as (lp' & -> & Hinv' & _). by split.
  - apply (inj Some) in Hs as <-. by split.
Qed.

Abbreviation reachable := (fetch_reachable parse_multiaddr underlay_string bmt soc_address address all_candidates concurrency).

Lemma fetch_reach_inv sh0 now0 sh lp : reachable sh0 now0 sh lp -> loop_inv lp /\ (ok sh0 -> ok sh).
Proof.
  induction 1 as [|sh lp e sh' lp' _ [IH1 IH2] Ht Hs]; [split; [apply start_inv|done]|].
  destruct (fetch_step_ok sh lp e _ IH1 Ht Hs) as [? Hok]. split; [done|auto].
Qed.

(** ** Failing attempts *)

Definition fail_event (lp : FetchLoop) : FetchEvent :=
  match inflight lp with
  | (p, Opening) :: _ => match first_dialable_underlay parse_multiaddr p with None => NoUnderlay 0 (clock lp) | Some _ => Opened 0 (Err Timeout) 0 (clock lp) end
  | (_, Fetching) :: _ => Fetched 0 (Err Timeout) false 0 (clock lp)
  | [] => Refill (clock lp) (Z.max (clock lp) (earliest (retain (skiplist lp) (clock lp)) (clock lp)))
  end.

Lemma fail_event_timely lp : timely bmt soc_address lp (fail_event lp).
Proof. unfold fail_event. destruct (inflight lp) as [|[p []] rest]; [|destruct (first_dialable_underlay _ p)|]; cbn; unfold skiplist_dur; lia. Qed.

Lemma fail_event_steps sh lp : loop_inv lp -> exists sh' lp', step sh lp (fail_event lp) = Some (Continue sh' lp') /\ loop_inv lp' /\
  failed_attempts lp' = (if bool_decide (inflight lp = []) then failed_attempts lp else sat_add U64_MAX (failed_attempts lp) 1) /\
  (inflight lp = [] -> inflight lp' <> []).
Proof.
  intros Hinv. pose proof (fail_event_timely lp) as Ht. destruct (inflight lp) as [|[p ph] rest] eqn:Hi.
  - destruct (li_empty lp Hinv Hi) as [Hdq _].
    assert (Ef : fail_event lp = Refill (clock lp) (Z.max (clock lp) (earliest (retain (skiplist lp) (clock lp)) (clock lp)))) by (unfold fail_event; by rewrite Hi).
    rewrite Ef in *. destruct (refill_continues sh lp _ _ Hinv Hi Ht) as (lp' & E & Hinv' & Hne & Hf).
    exists sh, lp'. cbn [fetch_step]. rewrite Hi, Hdq, E. by rewrite bool_decide_true by done.
  - rewrite bool_decide_false by done.
    assert (Hs : exists sh' m, step sh lp (fail_event lp) = Some (finish address all_candidates concurrency sh' lp 0 p (Failed m) (clock lp))).
    { unfold fail_event. rewrite Hi. destruct ph.
      - destruct (first_dialable_underlay parse_multiaddr p) eqn:Eu; cbn [fetch_step]; rewrite Hi; cbn [lookup list_lookup]; rewrite Eu.
        + cbn [attempt_result]. by eexists _, _.
        + by eexists _, _.
      - cbn [fetch_step]. rewrite Hi. cbn [lookup list_lookup attempt_result]. by eexists _, _. }
    destruct Hs as (sh' & m & Hs). pose proof (fetch_step_ok sh lp _ _ Hinv Ht Hs) as Hok. rewrite Hs. cbn [finish] in *. cbv zeta in *.
    destruct Hok as [Hok _]. by eexists _, _.
Qed.

Section FetchClaims.
Context (sh0 : Shared) (now0 : Z).

(** C18: A fetched chunk is authentic.  Whatever peers answer, in whatever order, and
    whatever other fetches do, a chunk the loop returns hashes to the address asked
    for (or is a single-owner chunk of that address), is the one put in the cache, and
    every chunk of the cache stays valid for its address. *)
Theorem fetch_authentic sh lp e sh' r : ok sh0 -> reachable sh0 now0 sh lp -> timely bmt soc_address lp e -> step sh lp e = Some (Return sh' r) ->
  exists w, r = Ok w /\ valid w address = true /\ content sh' !! address = Some w /\ ok sh'.
Proof.
  intros H0 Hr Ht Hs. apply fetch_reach_inv in Hr as [Hinv Hok]. destruct (fetch_step_ok sh lp e _ Hinv Ht Hs) as (w & -> & ? & ? & Hok').
  exists w. split_and!; auto.
Qed.

(** The loop never gives up on a chunk.  With at least one candidate, the error that
    all peers failed is never returned: a failure parks its peer for a minute, and when
    all are parked the loop sleeps to the first expiry and tries them again, so the
    number of attempts is not bounded by the retry limit that cut the candidates, nor
    by anything else. *)
Theorem fetch_never_gives_up :
  (forall sh lp e sh' r, reachable sh0 now0 sh lp -> timely bmt soc_address lp e -> step sh lp e = Some (Return sh' r) -> exists w, r = Ok w) /\
  (forall sh lp, reachable sh0 now0 sh lp -> exists e sh' lp', timely bmt soc_address lp e /\ step sh lp e = Some (Continue sh' lp') /\ (forall s, e <> OtherFetch s)) /\
  (forall n, 0 <= n <= U64_MAX -> exists sh lp, reachable sh0 now0 sh lp /\ failed_attempts lp = n).
Proof.
  split_and!.
  - intros sh lp e sh' r Hr Ht Hs. apply fetch_reach_inv in Hr as [Hinv _]. destruct (fetch_step_ok sh lp e _ Hinv Ht Hs) as (w & -> & _). by exists w.
  - intros sh lp Hr. apply fetch_reach_inv in Hr as [Hinv _]. destruct (fail_event_steps sh lp Hinv) as (sh' & lp' & Hs & _).
    exists (fail_event lp), sh', lp'. split_and!; [apply fail_event_timely|done|]. intros s. unfold fail_event. by repeat case_match.
  - intros n Hn.
    assert (Hone : forall sh lp, reachable sh0 now0 sh lp -> failed_attempts lp < U64_MAX -> inflight lp <> [] ->
      exists sh' lp', reachable sh0 now0 sh' lp' /\ failed_attempts lp' = failed_attempts lp + 1).
    { intros sh lp Hr Hlt Hne. destruct (fetch_reach_inv _ _ _ _ Hr) as [Hinv _]. destruct (fail_event_steps sh lp Hinv) as (sh' & lp' & Hs & _ & Hf & _).
      rewrite bool_decide_false in Hf by done. exists sh', lp'. split; [|rewrite Hf; unfold sat_add; lia].
      by apply (FrStep _ _ _ _ _ _ _ _ _ sh lp (fail_event lp)); [|apply fail_event_timely|]. }
    replace n with (Z.of_nat (Z.to_nat n)) by lia. assert (Hle : Z.of_nat (Z.to_nat n) <= U64_MAX) by lia. revert Hle. generalize (Z.to_nat n). clear n Hn.
    induction n as [|n IH]; intros Hk; [exists sh0, (loop_start all_candidates concurrency now0); split; [constructor|done]|].
    destruct IH as (sh & lp & Hr & Hf); [lia|]. replace (Z.of_nat (S n)) with (failed_attempts lp + 1) by lia.
    destruct (decide (inflight lp = [])) as [Hnil|]; [|apply (Hone sh lp); [done|lia|done]].
    destruct (fetch_reach_inv _ _ _ _ Hr) as [Hinv _]. destruct (fail_event_steps sh lp Hinv) as (sh' & lp' & Hs & _ & Hf' & Hne).
    rewrite bool_decide_true in Hf' by done. rewrite <- Hf'. apply (Hone sh' lp'); [|lia|auto].
    by apply (FrStep _ _ _ _ _ _ _ _ _ sh lp (fail_event lp)); [|apply fail_event_timely|].
Qed.

(** Runs in which the attempts at [p0] never fail: they are deferred, or bring the
    chunk. *)
Inductive reachable_sparing (p0 : Peer) : Shared -> FetchLoop -> Prop :=
| RsStart : reachable_sparing p0 sh0 (loop_start all_candidates concurrency now0)
| RsStep sh lp e sh' lp' : reachable_sparing p0 sh lp -> timely bmt soc_address lp e -> step sh lp e = Some (Continue sh' lp') ->
    skiplist lp' !! pkey p0 = None -> reachable_sparing p0 sh' lp'.

Lemma sparing_reachable p0 sh lp : reachable_sparing p0 sh lp -> reachable sh0 now0 sh lp /\ skiplist lp !! pkey p0 = None.
Proof. induction 1 as [|sh lp e sh' lp' _ [IH _] Ht Hs Hk]; [by repeat constructor|]. split; [|done]. by apply (FrStep _ _ _ _ _ _ _ _ _ sh lp e). Qed.

(** Completions keep the count of the candidates. *)
Definition tried (lp : FetchLoop) : Z := failed_attempts lp + Z.of_nat (length (peers_of lp)).

Lemma finish_tried sh lp i p ph o now sh' lp' : inflight lp !! i = Some (p, ph) -> 0 <= failed_attempts lp -> tried lp <= U64_MAX ->
  finish address all_candidates concurrency sh lp i p o now = Continue sh' lp' -> tried lp' = tried lp.
Proof.
  intros Hi H0 Hb Hs. pose proof (Permutation_length (inflight_split lp i p ph Hi)) as Hl. cbn [length] in Hl. rewrite length_app in Hl.
  destruct o as [w| |e]; cbn [finish] in Hs; cbv zeta in Hs; [done|injection Hs as _ <-..];
    unfold tried; match goal with |- context [length (peers_of (mkLoop (drop 1 ?dq) _ ?sk ?fa ?cd ?le ?now))] =>
      pose proof (Permutation_length (after_peers lp i dq sk fa cd le now)) as Ha end; unfold after_attempt in Ha; rewrite Ha, !length_app; cbn [failed_attempts length].
  - lia.
  - unfold tried in Hb. unfold sat_add. rewrite Hl in *. lia.
Qed.

Lemma to_fetching_peers lp i p : inflight lp !! i = Some (p, Opening) -> length (peers_of (to_fetching lp i p)) = length (peers_of lp).
Proof. intros Hi. unfold peers_of. cbn. by rewrite !length_app, !length_map, length_insert. Qed.

Lemma step_tried sh lp e sh' lp' : inflight lp <> [] -> 0 <= failed_attempts lp -> tried lp <= U64_MAX ->
  step sh lp e = Some (Continue sh' lp') -> tried lp' = tried lp.
Proof.
  intros Hne H0 Hb Hs. destruct e as [i now|i|i conn rtt now|i res full rtt now|now1 now2|s]; cbn [fetch_step] in Hs;
    try (destruct (inflight lp !! i) as [[p []]|] eqn:Hi; try done; pose proof (to_fetching_peers lp i p) as Hp).
  - destruct (first_dialable_underlay _ p); [done|]. apply (inj Some) in Hs. by apply (finish_tried sh lp i p Opening (Failed (lit "no dialable underlay")) now sh').
  - destruct (first_dialable_underlay _ p); [|done]. destruct (sessions sh !! _); [|done]. injection Hs as _ <-. unfold tried. by rewrite Hp.
  - destruct (first_dialable_underlay _ p); [|done]. destruct conn; [injection Hs as _ <-; unfold tried; by rewrite Hp|].
    destruct (outcome sh p rtt None (Err e)) as [sh1 o]. apply (inj Some) in Hs. by apply (finish_tried sh1 lp i p Opening o now sh').
  - destruct (outcome sh p rtt (Some full) res) as [sh1 o]. apply (inj Some) in Hs. by apply (finish_tried sh1 lp i p Fetching o now sh').
  - by destruct (inflight lp).
  - by injection Hs as _ <-.
Qed.

(** One good peer is enough.  While the attempts at some candidate never fail, the
    loop never sleeps and never starts over: there is always an attempt in flight, at
    most as many as the window, that candidate is still queued or in flight, no peer is
    queued or tried twice, and the failures so far are those of other candidates, each
    at most once, so fewer than there are candidates. *)
Theorem fetch_first_pass p0 sh lp : Z.of_nat (length all_candidates) <= U64_MAX -> p0 ∈ all_candidates -> reachable_sparing p0 sh lp ->
  p0 ∈ peers_of lp /\ (1 <= length (inflight lp) <= window concurrency)%nat /\ NoDup (map (fun p => pkey p) (peers_of lp)) /\
  failed_attempts lp + Z.of_nat (length (peers_of lp)) = Z.of_nat (length all_candidates) /\ failed_attempts lp < Z.of_nat (length all_candidates).
Proof.
  intros Hb Hp0 Hr.
  assert (Hbusy : forall sh lp, reachable_sparing p0 sh lp -> loop_inv lp /\ p0 ∈ peers_of lp /\ inflight lp <> []).
  { clear sh lp Hr. intros sh lp Hr. apply sparing_reachable in Hr as [Hr Hk]. apply fetch_reach_inv in Hr as [Hinv _].
    assert (Hin : p0 ∈ peers_of lp) by (destruct (li_all lp Hinv p0 Hp0) as [|Hx]; [done|rewrite Hk in Hx; by destruct Hx]).
    split_and!; [done|done|]. intros Hnil. destruct (li_empty lp Hinv Hnil) as [Hd _]. unfold peers_of in Hin. rewrite Hnil, Hd in Hin. by apply not_elem_of_nil in Hin. }
  assert (Ht : tried lp = Z.of_nat (length all_candidates)).
  { induction Hr as [|sh lp e sh' lp' Hr IH Ht Hs Hk].
    - unfold tried, loop_start. rewrite (Permutation_length (seed_peers _)). unfold peers_of. cbn. rewrite app_nil_r. lia.
    - destruct (Hbusy sh lp Hr) as (Hinv & _ & Hne). rewrite (step_tried sh lp e sh' lp'); try done; [apply Hinv|lia]. }
  destruct (Hbusy sh lp Hr) as (Hinv & Hin & Hne). unfold tried in Ht.
  assert (0 < length (peers_of lp))%nat by (destruct (peers_of lp); [by apply not_elem_of_nil in Hin|cbn; lia]).
  split_and!; [done|destruct (inflight lp); [done|cbn; lia]|apply Hinv|apply Hinv|done|lia].
Qed.
End FetchClaims.
End LoopProps.

(** The candidates of a chunk: those of the table nearest first, reachable forwarders
    before the rest, without losing the order by proximity within a class. *)
Theorem candidates_ranked {Multiaddr} (parse_multiaddr : str -> option Multiaddr) scores now ps :
  rank_candidates parse_multiaddr scores now ps ≡ₚ ps /\
  StronglySorted (fun a b => sort_key parse_multiaddr scores now a <= sort_key parse_multiaddr scores now b) (rank_candidates parse_multiaddr scores now ps) /\
  forall k, List.filter (fun p => sort_key parse_multiaddr scores now p =? k) (rank_candidates parse_multiaddr scores now ps) =
            List.filter (fun p => sort_key parse_multiaddr scores now p =? k) ps.
Proof.
  unfold rank_candidates. split_and!; [apply stable_sort_perm| |intros k; apply stable_sort_stable].
  eapply sorted_mono; [|apply stable_sort_sorted]; cbn; intros a b; rewrite ?Z.leb_le; [done|lia|].
  intros c. rewrite !Z.leb_le. lia.
Qed.

(** ** Hints and scores *)

Lemma set_feed_hint_comm m a x b y : set_feed_hint (set_feed_hint m a x) b y = set_feed_hint (set_feed_hint m b y) a x.
Proof.
  unfold set_feed_hint, FeedHints in *. cbv zeta. destruct (decide (a = b)) as [->|Hne].
  - rewrite !lookup_insert_eq, !insert_insert_eq. cbn. f_equal. repeat case_match; lia.
  - rewrite !lookup_insert_ne by done. by rewrite insert_insert_ne by done.
Qed.

(** Persisted hints may be merged in any order (a [HashMap] iterates in any), and never
    lower a hint. *)
Theorem feed_hints_merge m hints hints' : hints ≡ₚ hints' ->
  import_feed_hints m hints = import_feed_hints m hints' /\
  forall k v, m !! k = Some v -> exists v', import_feed_hints m hints !! k = Some v' /\ v <= v'.
Proof.
  intros Hp. split.
  - revert m. induction Hp as [|[k v] l l' _ IH|[a x] [b y] l|l1 l2 l3 _ IH1 _ IH2]; intros m; [done|apply IH| |by rewrite IH1].
    unfold import_feed_hints at 1. cbn [foldl fst snd]. by rewrite set_feed_hint_comm.
  - clear Hp. revert m. induction hints as [|[a x] l IH]; intros m k v Hk; [by exists v|]. cbn.
    assert (Hs : exists v1, set_feed_hint m a x !! k = Some v1 /\ v <= v1).
    { unfold set_feed_hint, FeedHints in *. cbv zeta. destruct (decide (a = k)) as [->|Hne]; [|rewrite lookup_insert_ne by done; by exists v].
      rewrite lookup_insert_eq, Hk. cbn. eexists. split; [done|]. case_match; lia. }
    destruct Hs as (v1 & Hv1 & Hle). destruct (IH _ _ _ Hv1) as (v' & ? & ?). exists v'. split; [done|lia].
Qed.

Definition scores_ok (m : gmap str Z) : Prop := map_Forall (fun _ v => PEER_SCORE_MIN <= v <= PEER_SCORE_MAX) m.

(** Scores stay in their band; an answer makes a peer a proven forwarder whatever its
    past, and five timeouts in a row make any peer one to avoid. *)
Theorem scores_recover m o : scores_ok m ->
  scores_ok (note_response m o) /\ scores_ok (note_timeout m o) /\
  (exists v, note_response m o !! to_ascii_lowercase o = Some v /\ 0 < v) /\
  exists v, Nat.iter 5 (fun m => note_timeout m o) m !! to_ascii_lowercase o = Some v /\ v < 0.
Proof.
  intros Hm. set (k := to_ascii_lowercase o).
  assert (Hd : PEER_SCORE_MIN <= default 0 (m !! k) <= PEER_SCORE_MAX) by (destruct (m !! k) eqn:E; cbn; [by apply (Hm k)|unfold PEER_SCORE_MIN, PEER_SCORE_MAX; lia]).
  unfold PEER_SCORE_MIN, PEER_SCORE_MAX in *. split_and!.
  - apply map_Forall_insert_2; [unfold PEER_SCORE_MIN, PEER_SCORE_MAX; fold k; lia|done].
  - apply map_Forall_insert_2; [unfold PEER_SCORE_MIN, PEER_SCORE_MAX; fold k; lia|done].
  - unfold note_response. fold k. rewrite lookup_insert_eq. eexists. split; [done|]. unfold PEER_SCORE_MAX. lia.
  - assert (Hn : forall m', default 0 (note_timeout m' o !! k) = Z.max (default 0 (m' !! k) - 1) (-3)) by (intros m'; unfold note_timeout; fold k; by rewrite lookup_insert_eq).
    set (m4 := note_timeout (note_timeout (note_timeout (note_timeout m o) o) o) o). change (Nat.iter 5 _ m) with (note_timeout m4 o).
    assert (H4 : default 0 (m4 !! k) <= 0) by (unfold m4; rewrite !Hn; lia).
    assert (Hl : note_timeout m4 o !! k = Some (Z.max (default 0 (m4 !! k) - 1) PEER_SCORE_MIN)) by (unfold note_timeout; by rewrite lookup_insert_eq).
    eexists. split; [exact Hl|]. unfold PEER_SCORE_MIN. lia.
Qed.

(** ** Witnesses *)

Module RetrievalWitness.
Definition ua : str := lit "/ip4/9.9.9.9/tcp/1634/ws".
Definition ub : str := lit "/ip4/8.8.8.8/tcp/1634/ws".
Definition peer (o u : str) : Peer := mkPeer o [u] None None None None None None 0.
Definition pa : Peer := peer (lit "aa") ua.
Definition pb : Peer := peer (lit "bb") ub.
Definition bmt (span : Z) (body : bytes) : bytes := replicate 32 (Z.of_nat (length body)).
Definition wire : bytes := replicate 8 0 ++ [1; 2; 3].
Definition addr : bytes := replicate 32 3.
Definition start : Shared := mkShared ∅ ∅ ∅ ∅.
Definition step1 := fetch_step (Some : str -> option str) (fun u => u) bmt (fun _ => None) addr [pa; pb] 1.
(** The first peer times out, the second has the chunk. *)
Definition events : list FetchEvent :=
  [Opened 0 (Err Timeout) 5 10; Opened 0 (Ok 7%nat) 5 20].
Fixpoint run (sh : Shared) (lp : FetchLoop) (es : list FetchEvent) : option (Shared * FetchLoop) :=
  match es with
  | [] => Some (sh, lp)
  | e :: es => match step1 sh lp e with Some (Continue sh' lp') => run sh' lp' es | _ => None end
  end.
Definition mid : Shared * FetchLoop := default (start, loop_start [pa; pb] 1 0) (run start (loop_start [pa; pb] 1 0) events).
Definition next : Shared * FetchLoop := default (start, loop_start [pa; pb] 1 0) (run start (loop_start [pa; pb] 1 0) (take 1 events)).

Lemma keys_distinct : NoDup (map (fun p => to_ascii_lowercase (overlay p)) [pa; pb]).
Proof. apply (bool_decide_unpack _). by vm_compute. Qed.

Lemma mid_sparing : reachable_sparing (Some : str -> option str) (fun u => u) bmt (fun _ => None) addr [pa; pb] 1 start 0 pb mid.1 mid.2.
Proof.
  apply (RsStep _ _ _ _ _ _ _ _ _ pb next.1 next.2 (Opened 0 (Ok 7%nat) 5 20)); [|vm_compute; congruence|vm_compute; reflexivity|vm_compute; reflexivity].
  apply (RsStep _ _ _ _ _ _ _ _ _ pb start (loop_start [pa; pb] 1 0) (Opened 0 (Err Timeout) 5 10)); [constructor|vm_compute; congruence|vm_compute; reflexivity|vm_compute; reflexivity].
Qed.

Lemma fetch_first_pass_witness : failed_attempts mid.2 = 1 /\ pb ∈ peers_of mid.2.
Proof.
  split; [by vm_compute|].
  refine (proj1 (fetch_first_pass (Some : str -> option str) (fun u => u) bmt (fun _ => None) addr [pa; pb] 1 keys_distinct _ start 0 pb mid.1 mid.2 _ _ mid_sparing)).
  - done.
  - vm_compute. congruence.
  - apply list_elem_of_In. cbn. tauto.
Defined.

Lemma fetch_authentic_witness : exists sh' w, step1 mid.1 mid.2 (Fetched 0 (Ok wire) true 5 30) = Some (Return sh' (Ok w)) /\
  validate_delivery bmt (fun _ => None) w addr = true /\ content sh' !! addr = Some w.
Proof.
  destruct (sparing_reachable _ _ _ _ _ _ _ _ _ pb mid.1 mid.2 mid_sparing) as [Hr _].
  destruct (step1 mid.1 mid.2 (Fetched 0 (Ok wire) true 5 30)) as [[sh lp|sh' r]|] eqn:E; [vm_compute in E; discriminate| |vm_compute in E; discriminate].
  destruct (fetch_authentic (Some : str -> option str) (fun u => u) bmt (fun _ => None) addr [pa; pb] 1 keys_distinct ltac:(done) start 0 mid.1 mid.2
    (Fetched 0 (Ok wire) true 5 30) sh' r ltac:(by apply map_Forall_empty) Hr ltac:(vm_compute; congruence) E) as (w & -> & Hv & Hc & _).
  by exists sh', w.
Defined.

Lemma fetch_never_gives_up_witness : exists sh lp, fetch_reachable (Some : str -> option str) (fun u => u) bmt (fun _ => None) addr [pa] 1 start 0 sh lp /\ failed_attempts lp = 1000000.
Proof.
  refine (proj2 (proj2 (fetch_never_gives_up (Some : str -> option str) (fun u => u) bmt (fun _ => None) addr [pa] 1 _ _ start 0)) 1000000 _).
  - apply (bool_decide_unpack _). by vm_compute.
  - done.
  - lia.
Defined.
End RetrievalWitness.
