(* ===== verification/Cheques.v ===== *)
(** * Issued cheques ([src/src/cheques.rs])

    The client's store of the cumulative amount it has promised to each payee of
    one chequebook: its operations, its durable form with the two files a save
    touches, and the aggregate gate that keeps the promises within the balance.

    Keys are hexadecimal overlays or the relay keys below, so [to_lowercase] is the
    lower-casing of ASCII; [serde_json] is a parameter. *)
From Stdlib Require Import ZArith Lia.
From stdpp Require Import base tactics numbers countable strings list gmap sorting.
From S2P Require Import Prelude Codec Ledger.
Local Open Scope Z_scope.
Local Open Scope hov_scope.

(** [enum ChequeStoreError]. *)
Inductive ChequeStoreError :=
| CsIo (msg : str) | CsJson (msg : str) | ChequebookMismatch (file runtime : str) | CsOverflow | CsParse (msg : str).

(** [struct OnDisk]; a [BTreeMap] is the list of its entries in key order. *)
Record ChequesOnDisk := mkChequesDisk { cd_version : Z; cd_chequebook : str; cd_peers : list (str * str) }.

(** [struct ChequeStore]; [cs_file] records whether it has a path. *)
Record ChequeStore := mkStore { cs_chequebook : bytes; cs_payouts : gmap str Z; cs_file : bool }.

(** [ChequeStore::new]. *)
Definition store_new (chequebook : bytes) : ChequeStore := mkStore chequebook ∅ false.

(** [ChequeStore::cumulative]. *)
Definition store_cumulative (s : ChequeStore) (key : str) : Z :=
  default 0 (cs_payouts s !! to_ascii_lowercase key).

Definition set_payout (s : ChequeStore) (key : str) (v : Z) : ChequeStore :=
  mkStore (cs_chequebook s) (<[key := v]> (cs_payouts s)) (cs_file s).

(** [ChequeStore::bump_and_get]. *)
Definition bump_and_get (s : ChequeStore) (peer : str) (delta : Z) : ChequeStore * result Z ChequeStoreError :=
  let key := to_ascii_lowercase peer in
  let cur := default 0 (cs_payouts s !! key) in
  match checked_add U128_MAX cur delta with
  | None => (s, Err CsOverflow)
  | Some n => (set_payout s key n, Ok n)
  end.

(** [ChequeStore::total_issued], [would_exceed_balance], [set_cumulative]. *)
Definition total_issued (s : ChequeStore) : Z := map_fold (fun _ v acc => sat_add128 acc v) 0 (cs_payouts s).

Definition would_exceed_balance (s : ChequeStore) (key : str) (cumulative balance : Z) : bool :=
  let others := sat_sub (total_issued s) (store_cumulative s key) in
  balance <? sat_add128 others cumulative.

Definition set_cumulative (s : ChequeStore) (key : str) (cumulative : Z) : ChequeStore * result unit ChequeStoreError :=
  let k := to_ascii_lowercase key in
  let cur := default 0 (cs_payouts s !! k) in
  if cumulative <? cur then (s, Err CsOverflow) else (set_payout s k cumulative, Ok tt).

(** The order of the entries of a [BTreeMap<String, String>]. *)
Definition peer_le (a b : str * str) : Prop := lex_le a.1 b.1 = true.
#[export] Instance peer_le_dec a b : Decision (peer_le a b).
Proof. unfold peer_le. apply _. Defined.

Section Store.
Context `{Hex} (to_string_pretty : ChequesOnDisk -> bytes) (from_str : bytes -> result ChequesOnDisk str).

(** [fn relay_key]. *)
Definition relay_key (beneficiary : bytes) : str := lit "relay:" ++ hex_encode beneficiary.

(** [ChequeStore::save]. *)
Definition cheques_to_disk (s : ChequeStore) : ChequesOnDisk :=
  mkChequesDisk 1 (lit "0x" ++ hex_encode (cs_chequebook s))
    (merge_sort peer_le (map (fun kv => (kv.1, u128_to_string kv.2)) (map_to_list (cs_payouts s)))).

Definition save (s : ChequeStore) (d : Disk) (f : Fault) : Disk * result unit ChequeStoreError :=
  if negb (cs_file s) then (d, Ok tt)
  else
    let body := to_string_pretty (cheques_to_disk s) in
    match f with
    | WriteFails e partial => (mkFiles (main_file d) partial, Err (CsIo e))
    | RenameFails e => (mkFiles (main_file d) (Some body), Err (CsIo e))
    | NoFault | ReadFails _ => (mkFiles (Some body) None, Ok tt)
    end.

(** [ChequeStore::load_or_create]: the loop over the entries, then the whole. *)
Fixpoint load_peers (ps : list (str * str)) (acc : gmap str Z) : result (gmap str Z) ChequeStoreError :=
  match ps with
  | [] => Ok acc
  | (k, v) :: ps' =>
      match u128_parse v with
      | Err _ => Err (CsParse v)
      | Ok n => load_peers ps' (<[to_ascii_lowercase k := n]> acc)
      end
  end.

Definition load_store (d : Disk) (chequebook : bytes) (f : Fault) : result ChequeStore ChequeStoreError :=
  match f, main_file d with
  | ReadFails e, _ => Err (CsIo e)
  | _, None => Ok (mkStore chequebook ∅ true)
  | _, Some text =>
      let? disk := map_err CsJson (from_str text) in
      let file_hex := to_ascii_lowercase (trim_0x (cd_chequebook disk)) in
      let runtime_hex := hex_encode chequebook in
      if negb (str_eqb file_hex runtime_hex)
      then Err (ChequebookMismatch (lit "0x" ++ file_hex) (lit "0x" ++ runtime_hex))
      else
        let? ps := load_peers (cd_peers disk) ∅ in
        Ok (mkStore chequebook ps true)
  end.
End Store.

(** ** Well-formed stores *)

Record store_ok (s : ChequeStore) : Prop := {
  so_book : length (cs_chequebook s) = 20%nat /\ all_bytes (cs_chequebook s);
  so_payouts : forall k v, cs_payouts s !! k = Some v -> to_ascii_lowercase k = k /\ u128 v }.

Definition promised (s : ChequeStore) : Z := msum (fun v => v) (cs_payouts s).

Lemma total_issued_sum s : (forall k v, cs_payouts s !! k = Some v -> u128 v) ->
  total_issued s = Z.min U128_MAX (promised s) /\ 0 <= promised s.
Proof.
  unfold total_issued, promised. generalize (cs_payouts s) as m. intros m.
  induction m as [|k v m Hk IH] using map_ind; intros Hv.
  { rewrite map_fold_empty, msum_empty. done. }
  rewrite map_fold_insert_L; [| |done].
  2:{ intros j1 j2 z1 z2 y _ H1 H2. apply Hv in H1, H2. unfold sat_add. lia. }
  rewrite msum_insert_new by done.
  assert (Hvk : u128 v) by (apply (Hv k); apply lookup_insert_eq).
  destruct IH as [E Hn].
  { intros k' v' Hk'. apply (Hv k'). rewrite lookup_insert_ne; [done|congruence]. }
  rewrite E. unfold sat_add. lia.
Qed.

Lemma ascii_lower_idem c : ascii_lower (ascii_lower c) = ascii_lower c.
Proof.
  unfold ascii_lower at 2 3. destruct ((65 <=? c) && (c <=? 90)) eqn:E.
  - apply andb_true_iff in E as [?%Z.leb_le ?%Z.leb_le]. unfold ascii_lower.
    rewrite (proj2 (Z.leb_gt (c + 32) 90)) by lia. by rewrite andb_false_r.
  - unfold ascii_lower. by rewrite E.
Qed.

Lemma to_lower_idem s : to_ascii_lowercase (to_ascii_lowercase s) = to_ascii_lowercase s.
Proof. unfold to_ascii_lowercase. rewrite map_map. apply map_ext, ascii_lower_idem. Qed.

Lemma lower_hex `{HexLaws} b : to_ascii_lowercase (hex_encode b) = hex_encode b.
Proof.
  pose proof (hex_digits b) as Hd. induction Hd as [|c s Hc _ IH]; [done|]. cbn. f_equal; [|exact IH].
  unfold is_hex_digit in Hc. unfold ascii_lower.
  destruct (Z.leb_spec 65 c), (Z.leb_spec c 90); try done. exfalso.
  destruct (Z.leb_spec 48 c), (Z.leb_spec c 57), (Z.leb_spec 97 c), (Z.leb_spec c 102); cbn in Hc; try done; lia.
Qed.

Lemma lower_relay_key `{HexLaws} b : to_ascii_lowercase (relay_key b) = relay_key b.
Proof. unfold relay_key. unfold to_ascii_lowercase. rewrite map_app. fold (to_ascii_lowercase (hex_encode b)). by rewrite lower_hex. Qed.

Lemma store_ok_set s key v : store_ok s -> u128 v -> store_ok (set_payout s (to_ascii_lowercase key) v).
Proof.
  intros [Hb Hp] Hv. split; [done|]. cbn. intros k w Hk. apply lookup_insert_Some in Hk as [[<- <-]|[_ Hk]]; [|eauto].
  split; [apply to_lower_idem|done].
Qed.

(** ** The aggregate gate *)

Lemma gate_sum s key c bal : store_ok s -> promised s <= bal < U128_MAX ->
  would_exceed_balance s key c bal = false -> u128 c ->
  promised (set_payout s (to_ascii_lowercase key) c) <= bal.
Proof.
  intros Hok Hb Hg Hc. set (k := to_ascii_lowercase key).
  destruct (total_issued_sum s) as [Et Hn]; [intros; by eapply so_payouts|].
  unfold would_exceed_balance, store_cumulative in Hg. fold k in Hg. rewrite Et in Hg.
  apply Z.ltb_ge in Hg. unfold sat_add, sat_sub in Hg.
  assert (Hk : 0 <= default 0 (cs_payouts s !! k) <= promised s /\ default 0 (cs_payouts s !! k) <= U128_MAX).
  { unfold promised. destruct (cs_payouts s !! k) as [v|] eqn:E; cbn; [|done]. apply (so_payouts s Hok) in E as Hv.
    assert (v <= msum (fun v => v) (cs_payouts s)).
    { apply (msum_lookup_le (fun v => v) _ k v); [|done]. intros k' v' Hk'. apply (so_payouts s Hok) in Hk' as [_ ?]. lia. }
    unfold id. lia. }
  unfold promised. cbn [cs_payouts set_payout]. rewrite msum_insert. fold (promised s).
  destruct (cs_payouts s !! k); cbn [from_option default] in *; unfold id in *; lia.
Qed.

Lemma gated_set s key c bal s' r : store_ok s -> u128 c -> promised s <= bal < U128_MAX ->
  would_exceed_balance s key c bal = false -> set_cumulative s key c = (s', r) ->
  store_ok s' /\ promised s' <= bal /\ (forall k, store_cumulative s k <= store_cumulative s' k) /\
  (r = Ok tt -> store_cumulative s' key = c).
Proof.
  intros Hok Hc Hb Hg. unfold set_cumulative. set (k := to_ascii_lowercase key).
  destruct (Z.ltb_spec c (default 0 (cs_payouts s !! k))) as [|Hge].
  { intros [= <- <-]. split; [done|]. split; [lia|]. split; [done|]. done. }
  intros [= <- <-]. split; [by apply store_ok_set|]. split; [|split].
  - by apply gate_sum.
  - intros k2. unfold store_cumulative. cbn [cs_payouts set_payout].
    destruct (decide (to_ascii_lowercase k2 = k)) as [->|Hne]; [|by rewrite lookup_insert_ne].
    rewrite lookup_insert_eq. cbn. unfold id. exact Hge.
  - intros _. unfold store_cumulative. cbn [cs_payouts set_payout]. fold k. by rewrite lookup_insert_eq.
Qed.

(** ** The file *)

Section File.
Context `{HexLaws} (to_string_pretty : ChequesOnDisk -> bytes) (from_str : bytes -> result ChequesOnDisk str).
Context (Hjson : forall x, from_str (to_string_pretty x) = Ok x).

Lemma load_peers_encoded (xs : list (str * Z)) acc :
  Forall (fun kv => to_ascii_lowercase kv.1 = kv.1 /\ u128 kv.2) xs ->
  load_peers (map (fun kv => (kv.1, u128_to_string kv.2)) xs) acc =
  Ok (foldl (fun m kv => <[kv.1 := kv.2]> m) acc xs).
Proof.
  intros Hx. revert acc. induction Hx as [|[k v] xs [Hk Hv] _ IH]; intros acc; [done|].
  cbn [map load_peers fst snd foldl]. rewrite u128_roundtrip by done. cbn [fst] in Hk. rewrite Hk. apply IH.
Qed.

Lemma load_saved s d : store_ok s -> cs_file s = true -> main_file d = Some (to_string_pretty (cheques_to_disk s)) ->
  load_store from_str d (cs_chequebook s) NoFault = Ok s.
Proof.
  intros [[Hl Hb] Hp] Hf Hd. unfold load_store. rewrite Hd, Hjson. cbn [map_err result_bind cheques_to_disk cd_chequebook cd_peers].
  change (trim_0x (lit "0x" ++ hex_encode (cs_chequebook s))) with (trim_0x (hex_encode (cs_chequebook s))).
  rewrite trim_0x_hex, lower_hex. unfold str_eqb. rewrite bool_decide_eq_true_2 by done. cbn [negb].
  match goal with |- context [merge_sort peer_le ?l] => pose proof (merge_sort_Permutation peer_le l) as P end.
  apply Permutation_map_inv in P as (xs & -> & P). rewrite load_peers_encoded.
  - cbn [result_bind]. rewrite (foldl_insert_map xs (cs_payouts s)) by done. destruct s; cbn in *. by subst.
  - apply Forall_forall. intros [k v] Hin. rewrite <- P in Hin. apply elem_of_map_to_list in Hin. auto.
Qed.

(** What the next run reads after a save that may fail. *)
Lemma save_load s s0 d f : store_ok s -> store_ok s0 -> cs_file s = true -> cs_file s0 = true ->
  cs_chequebook s0 = cs_chequebook s ->
  main_file d = Some (to_string_pretty (cheques_to_disk s0)) ->
  let '(d', r) := save to_string_pretty s d f in
  load_store from_str d' (cs_chequebook s) NoFault = Ok (if is_ok r then s else s0).
Proof.
  intros Hs Hs0 Hf Hf0 Hcb Hd. unfold save. rewrite Hf. cbn [negb].
  destruct f; cbn [is_ok]; first [by apply load_saved|rewrite <- Hcb; by apply load_saved].
Qed.
End File.

(** The client's promises survive a restart and stay within its balance: after a
    save, whatever the file system does, the next run loads either the new or the
    previous store exactly; and an update that passed the aggregate gate keeps the
    sum of all cumulative payouts within the chequebook's balance, lowers no
    payee's cumulative and records exactly the requested one. *)
Theorem cheque_store_sound `{HexLaws} to_string_pretty from_str s0 d f key c bal s' r :
  (forall x, from_str (to_string_pretty x) = Ok x) ->
  store_ok s0 -> cs_file s0 = true -> u128 c -> promised s0 <= bal < U128_MAX ->
  main_file d = Some (to_string_pretty (cheques_to_disk s0)) ->
  would_exceed_balance s0 key c bal = false -> set_cumulative s0 key c = (s', r) ->
  (promised s' <= bal /\ (forall k, store_cumulative s0 k <= store_cumulative s' k) /\
   (r = Ok tt -> store_cumulative s' key = c)) /\
  let '(d', w) := save to_string_pretty s' d f in
  load_store from_str d' (cs_chequebook s0) NoFault = Ok (if is_ok w then s' else s0).
Proof.
  intros Hj Hok Hf Hc Hb Hd Hg Hs. destruct (gated_set s0 key c bal s' r Hok Hc Hb Hg Hs) as (Hok' & H1 & H2 & H3).
  split; [done|]. assert (E : cs_file s' = cs_file s0 /\ cs_chequebook s' = cs_chequebook s0).
  { unfold set_cumulative in Hs. destruct (_ <? _); simplify_eq; done. }
  destruct E as [E1 E2]. rewrite <- E2. apply save_load; congruence || done.
Qed.

#[export] Instance ChequesOnDisk_eq_dec : EqDecision ChequesOnDisk.
Proof. solve_decision. Defined.
#[export] Instance ChequesOnDisk_countable : Countable ChequesOnDisk.
Proof.
  apply (inj_countable' (fun x => (cd_version x, cd_chequebook x, cd_peers x)) (fun '(a, b, c) => mkChequesDisk a b c)).
  by intros [].
Defined.

Lemma cheque_store_sound_witness :
  let s0 := set_payout (mkStore (replicate 20 1) ∅ true) (lit "relay:aa") 7 in
  let s' := set_payout s0 (lit "relay:bb") 5 in
  promised s' <= 12.
Proof.
  cbv zeta. set (s0 := set_payout _ _ 7).
  assert (H0 : store_ok s0).
  { apply (store_ok_set (mkStore (replicate 20 1) ∅ true) (lit "relay:aa")); [|done].
    split; [split; [done|by repeat constructor]|]. intros k v Hk. cbn in Hk. by rewrite lookup_empty in Hk. }
  refine (proj1 (proj1 (cheque_store_sound (plain_code (A := ChequesOnDisk)) plain_uncode
    s0 (mkFiles (Some (plain_code (cheques_to_disk s0))) None) NoFault
    (lit "relay:bb") 5 12 (set_payout s0 (lit "relay:bb") 5) (Ok tt) plain_uncode_code H0 eq_refl _ _ eq_refl _ _))).
  - lia.
  - vm_compute. split; [discriminate|reflexivity].
  - reflexivity.
  - reflexivity.
Defined.
