(* ===== verification/Session.v ===== *)
(** * Peer sessions ([src/src/transport.rs])

    One connection to a peer carries many concurrent pushes, fetches and probes.  The
    session keeps a mirror of what the peer counts against us, settles it, issues
    cheques for what pseudosettle does not cover and retires when it is worn out.

    A session is a step machine: an event is a command, an arrival, an answer of the
    network to a task or a task running on; between two awaits of the source nothing
    else happens, so each step is the code from one await to the next.  Futures are
    entries of [tasks]; any enabled one may run next.  [settle_lock] is the owner of
    the lock.  Waiting for the clock (a settlement waits 1.1 s after the last one), the
    histograms and the logs are left out.  The cheque store is shared with other
    sessions, which may change it between steps ([OtherSession]). *)
From Stdlib Require Import ZArith Lia.
From stdpp Require Import base tactics numbers countable strings list gmap sorting.
From S2P Require Import Prelude Codec Protocols Cheques.
Local Open Scope Z_scope.
Local Open Scope hov_scope.

Definition REFRESH_RATE_PLUR : Z := 4500000.
Definition SAFE_PEER_THRESHOLD_PLUR : Z := REFRESH_RATE_PLUR * 2.
Definition PO_PRICE_PLUR : Z := 10000.
Definition MAX_PUSHES_PER_SESSION : Z := 10000.
Definition GHOST_BALANCE_LIMIT_PLUR : Z := 12000000.
Abbreviation U256_MAX := (2 ^ 256 - 1).

(** [fn peer_price]. *)
Definition peer_price (peer_overlay chunk_addr : bytes) : Z := (MAX_PO - proximity peer_overlay chunk_addr + 1) * PO_PRICE_PLUR.

(** [struct AccountingState] and [fn try_reserve]. *)
Record AccountingState := mkAccounting { reserve_plur : Z; balance_plur : Z; threshold_plur : Z }.
Definition try_reserve (a : AccountingState) (price : Z) : option AccountingState :=
  match checked_add U64_MAX (reserve_plur a) price with
  | None => None
  | Some new_reserve =>
      match checked_add U64_MAX (balance_plur a) new_reserve with
      | None => None
      | Some committed => if threshold_plur a <? committed then None else Some (mkAccounting new_reserve (balance_plur a) (threshold_plur a))
      end
  end.

(** The fields of [SwapConfig] and [SessionSwap] the settlement uses. *)
Record SwapState := mkSwapState { peer_overlay_hex : str; max_cumulative_per_peer_bzz : Z }.

(** Where a settlement is: waiting for the lock, for the acknowledgement of the
    pseudosettle payment, for the rates of the cheque stream, or for the cheque of a
    cumulative amount to be written. *)
Inductive SettlePhase := SLock | SAck | SRates (plur : Z) | SEmit (plur cumulative : Z).
(** What a settlement was entered from. *)
Inductive After := ThenRetry | ThenReturn.
Inductive PushPhase := PReserve | PSettling (ph : SettlePhase) (after : After) | PRetry | PInFlight.
Inductive Task := TPush (price : Z) (ph : PushPhase) | TFetch | TProbe | TAnswer.

Record Session := mkSession {
  acc : AccountingState; ghost_balance_plur : Z; pushes_used : Z; accept_new : bool; connection_dead : bool;
  settle_lock : option nat; tasks : gmap nat Task; store : ChequeStore; emitted : list Z }.

(** The failures of a push: those that mean the connection is gone
    ([fn is_connection_dead]), and the others. *)
Inductive PushFailure := FClosed | FStreamControl | FFraming | FPushFrame | FPushPeer | FTimeout.
Definition is_connection_dead (e : PushFailure) : bool :=
  match e with FClosed | FStreamControl | FFraming | FPushFrame => true | FPushPeer | FTimeout => false end.

Inductive Event :=
| CmdPush (id : nat) (price : Z) | CmdFetch (id : nat) | CmdProbe (id : nat) | StatusIn (id : nat) | ConnectionClosed
| Run (id : nat) | PushDone (id : nat) (r : result unit PushFailure)
| SettleAck (id : nat) (accepted : result Z unit) | GotRates (id : nat) (r : result (Z * Z) unit) (signed : bool)
| Emitted (id : nat) (ok : bool) | FetchDone (id : nat) | ProbeDone (id : nat) (dead : bool) | AnswerDone (id : nat)
| OtherSession (st : ChequeStore).

Section Step.
Context (swap : option SwapState) (serves_status : bool).

Definition with_tasks (s : Session) (t : gmap nat Task) : Session :=
  mkSession (acc s) (ghost_balance_plur s) (pushes_used s) (accept_new s) (connection_dead s) (settle_lock s) t (store s) (emitted s).
Definition with_acc (s : Session) (a : AccountingState) : Session :=
  mkSession a (ghost_balance_plur s) (pushes_used s) (accept_new s) (connection_dead s) (settle_lock s) (tasks s) (store s) (emitted s).
Definition with_accept (s : Session) (b : bool) : Session :=
  mkSession (acc s) (ghost_balance_plur s) (pushes_used s) b (connection_dead s) (settle_lock s) (tasks s) (store s) (emitted s).
Definition with_lock (s : Session) (l : option nat) : Session :=
  mkSession (acc s) (ghost_balance_plur s) (pushes_used s) (accept_new s) (connection_dead s) l (tasks s) (store s) (emitted s).
Definition set_task (s : Session) (id : nat) (t : Task) : Session := with_tasks s (<[id := t]> (tasks s)).

(** The driver when a task completes: a dead connection or a worn-out one stops new
    commands. *)
Definition complete (s : Session) (id : nat) (dead : bool) : Session :=
  let s := with_tasks s (delete id (tasks s)) in
  if dead then with_accept s false
  else if (GHOST_BALANCE_LIMIT_PLUR <=? ghost_balance_plur s) && accept_new s then with_accept s false else s.

(** The end of [fn try_settle_once], back in [fn push]. *)
Definition settled (s : Session) (id : nat) (price : Z) (after : After) : Session :=
  let s := with_lock s None in
  match after with ThenRetry => set_task s id (TPush price PRetry) | ThenReturn => complete s id false end.

(** The amount of a cheque, of [fn try_emit_cheque]. *)
Definition cheque_amount (plur rate deduction : Z) : option Z :=
  let amount := plur * rate + deduction in
  if (U256_MAX <? plur * rate) || (U256_MAX <? amount) then None
  else if amount <? sat_add U256_MAX rate deduction then None else Some amount.

(** Recording it: [None] when the cap or the width of the store forbids it. *)
Definition record_cheque (sw : SwapState) (st : ChequeStore) (amount : Z) : option (ChequeStore * Z) :=
  let cur := store_cumulative st (peer_overlay_hex sw) in
  if max_cumulative_per_peer_bzz sw <? sat_add U256_MAX cur amount then None
  else if U128_MAX <? amount then None
  else match bump_and_get st (peer_overlay_hex sw) amount with (st', Ok next) => Some (st', next) | (_, Err _) => None end.

(** A push from its start or its retry: reserve, or settle first, or give up. *)
Definition run_push (s : Session) (id : nat) (price : Z) (first : bool) : Session :=
  match try_reserve (acc s) price with
  | Some a => set_task (with_acc s a) id (TPush price PInFlight)
  | None => if first then set_task s id (TPush price (PSettling SLock ThenRetry)) else complete s id false
  end.

Definition step (s : Session) (e : Event) : option Session :=
  match e with
  | CmdPush id price =>
      if negb (accept_new s) || bool_decide (is_Some (tasks s !! id)) then None
      else
        let used := pushes_used s + 1 in
        let s := mkSession (acc s) (ghost_balance_plur s) used (accept_new s) (connection_dead s) (settle_lock s) (tasks s) (store s) (emitted s) in
        if MAX_PUSHES_PER_SESSION <? used then Some (with_accept s false)
        else
          let s := set_task s id (TPush price PReserve) in
          Some (if GHOST_BALANCE_LIMIT_PLUR <=? ghost_balance_plur s then with_accept s false else s)
  | CmdFetch id => if negb (accept_new s) || bool_decide (is_Some (tasks s !! id)) then None else Some (set_task s id TFetch)
  | CmdProbe id => if negb (accept_new s) || bool_decide (is_Some (tasks s !! id)) then None else Some (set_task s id TProbe)
  | StatusIn id => if negb serves_status || bool_decide (is_Some (tasks s !! id)) then None else Some (set_task s id TAnswer)
  | ConnectionClosed =>
      Some (mkSession (acc s) (ghost_balance_plur s) (pushes_used s) false true (settle_lock s) (tasks s) (store s) (emitted s))
  | Run id =>
      match tasks s !! id with
      | Some (TPush price PReserve) => Some (run_push s id price true)
      | Some (TPush price PRetry) => Some (run_push s id price false)
      | Some (TPush price (PSettling SLock after)) =>
          match settle_lock s with
          | Some _ => None
          | None =>
              if sat_add U64_MAX (balance_plur (acc s)) (reserve_plur (acc s)) =? 0 then Some (settled s id price after)
              else Some (set_task (with_lock s (Some id)) id (TPush price (PSettling SAck after)))
          end
      | _ => None
      end
  | PushDone id r =>
      match tasks s !! id with
      | Some (TPush price PInFlight) =>
          let a := acc s in
          match r with
          | Ok _ =>
              let a := mkAccounting (sat_sub (reserve_plur a) price) (sat_add U64_MAX (balance_plur a) price) (threshold_plur a) in
              let s := with_acc s a in
              if REFRESH_RATE_PLUR <=? balance_plur a then Some (set_task s id (TPush price (PSettling SLock ThenReturn)))
              else Some (complete s id false)
          | Err e =>
              let a := mkAccounting (sat_sub (reserve_plur a) price) (balance_plur a) (threshold_plur a) in
              let s := mkSession a (wrap 64 (ghost_balance_plur s + price)) (pushes_used s) (accept_new s) (connection_dead s)
                         (settle_lock s) (tasks s) (store s) (emitted s) in
              Some (complete s id (is_connection_dead e))
          end
      | _ => None
      end
  | SettleAck id r =>
      match tasks s !! id with
      | Some (TPush price (PSettling SAck after)) =>
          match r with
          | Err _ => Some (settled s id price after)
          | Ok amount =>
              let accepted := Z.min amount U64_MAX in
              let a := mkAccounting (reserve_plur (acc s)) (sat_sub (balance_plur (acc s)) accepted) (threshold_plur (acc s)) in
              let s := with_acc s a in
              match swap with
              | Some _ => if 0 <? balance_plur a then Some (set_task s id (TPush price (PSettling (SRates (balance_plur a)) after))) else Some (settled s id price after)
              | None => Some (settled s id price after)
              end
          end
      | _ => None
      end
  | GotRates id r signed =>
      match tasks s !! id, swap with
      | Some (TPush price (PSettling (SRates plur) after)), Some sw =>
          match r with
          | Err _ => Some (settled s id price after)
          | Ok (rate, deduction) =>
              match cheque_amount plur rate deduction with
              | None => Some (settled s id price after)
              | Some amount =>
                  match record_cheque sw (store s) amount with
                  | None => Some (settled s id price after)
                  | Some (st, cumulative) =>
                      let s := mkSession (acc s) (ghost_balance_plur s) (pushes_used s) (accept_new s) (connection_dead s)
                                 (settle_lock s) (tasks s) st (emitted s) in
                      if signed then Some (set_task s id (TPush price (PSettling (SEmit plur cumulative) after)))
                      else Some (settled s id price after)
                  end
              end
          end
      | _, _ => None
      end
  | Emitted id ok =>
      match tasks s !! id with
      | Some (TPush price (PSettling (SEmit plur cumulative) after)) =>
          let s := mkSession (acc s) (ghost_balance_plur s) (pushes_used s) (accept_new s) (connection_dead s)
                     (settle_lock s) (tasks s) (store s) (emitted s ++ [cumulative]) in
          if ok then
            let a := mkAccounting (reserve_plur (acc s)) (sat_sub (balance_plur (acc s)) plur) (threshold_plur (acc s)) in
            Some (settled (with_acc s a) id price after)
          else Some (settled s id price after)
      | _ => None
      end
  | FetchDone id => match tasks s !! id with Some TFetch => Some (complete s id false) | _ => None end
  | ProbeDone id dead => match tasks s !! id with Some TProbe => Some (complete s id dead) | _ => None end
  | AnswerDone id => match tasks s !! id with Some TAnswer => Some (complete s id true) | _ => None end
  | OtherSession st =>
      match swap with
      | Some sw =>
          if (store_cumulative (store s) (peer_overlay_hex sw) <=? store_cumulative st (peer_overlay_hex sw)) &&
             (store_cumulative st (peer_overlay_hex sw) <=? Z.max (max_cumulative_per_peer_bzz sw) (store_cumulative (store s) (peer_overlay_hex sw)))
          then Some (mkSession (acc s) (ghost_balance_plur s) (pushes_used s) (accept_new s) (connection_dead s) (settle_lock s) (tasks s) st (emitted s))
          else None
      | None => None
      end
  end.

(** Prices, amounts and rates are unsigned. *)
Definition event_ok (e : Event) : Prop :=
  match e with
  | CmdPush _ price => 0 <= price
  | SettleAck _ (Ok amount) => 0 <= amount
  | GotRates _ (Ok (rate, deduction)) _ => 0 <= rate /\ 0 <= deduction
  | _ => True
  end.

(** A session as [PeerSession::connect] makes it. *)
Definition session_new (st : ChequeStore) : Session :=
  mkSession (mkAccounting 0 0 SAFE_PEER_THRESHOLD_PLUR) 0 0 true false None ∅ st [].

(** The loop ends once nothing is accepted and nothing is in flight. *)
Definition retired (s : Session) : bool := negb (accept_new s) && bool_decide (tasks s = ∅).

Inductive session_reachable (st : ChequeStore) : Session -> Prop :=
| SeNew : session_reachable st (session_new st)
| SeStep s e s' : session_reachable st s -> event_ok e -> step s e = Some s' -> session_reachable st s'.
End Step.

(** ** What a step does to the account, the lock and the cheques *)

Definition inflight (t : Task) : Z := match t with TPush price PInFlight => price | _ => 0 end.
Definition task_price (t : Task) : Z := match t with TPush price _ => price | _ => 0 end.
Definition holds_lock (t : Task) : bool :=
  match t with TPush _ (PSettling (SAck | SRates _ | SEmit _ _) _) => true | _ => false end.
Definition to_emit (t : Task) : option Z := match t with TPush _ (PSettling (SEmit _ c) _) => Some c | _ => None end.

Definition task_plur (t : Task) : option Z :=
  match t with TPush _ (PSettling (SRates plur | SEmit plur _) _) => Some plur | _ => None end.

(** A task neither reserving nor settling. *)
Definition quiet (t : Task) : Prop := inflight t = 0 /\ holds_lock t = false.

Definition put (m : gmap nat Task) (id : nat) (t : option Task) : gmap nat Task :=
  match t with Some t => <[id := t]> m | None => delete id m end.
Definition quiet_opt (t : option Task) : Prop := match t with Some t => quiet t /\ 0 <= task_price t | None => True end.

Section Changes.
Context (swap : option SwapState).

Inductive change (s s' : Session) : Prop :=
| ChStore : acc s' = acc s -> tasks s' = tasks s -> settle_lock s' = settle_lock s -> emitted s' = emitted s ->
    (forall sw, swap = Some sw ->
      store_cumulative (store s) (peer_overlay_hex sw) <= store_cumulative (store s') (peer_overlay_hex sw) <=
        Z.max (max_cumulative_per_peer_bzz sw) (store_cumulative (store s) (peer_overlay_hex sw))) -> change s s'
| ChQuiet id t : quiet_opt (tasks s !! id) -> quiet_opt t -> acc s' = acc s -> tasks s' = put (tasks s) id t ->
    settle_lock s' = settle_lock s -> emitted s' = emitted s -> store s' = store s -> change s s'
| ChReserve id t price : tasks s !! id = Some t -> quiet t -> 0 <= price -> try_reserve (acc s) price = Some (acc s') ->
    tasks s' = <[id := TPush price PInFlight]> (tasks s) ->
    settle_lock s' = settle_lock s -> emitted s' = emitted s -> store s' = store s -> change s s'
| ChResult id price t : tasks s !! id = Some (TPush price PInFlight) -> quiet_opt t ->
    reserve_plur (acc s') = sat_sub (reserve_plur (acc s)) price ->
    (balance_plur (acc s') = sat_add U64_MAX (balance_plur (acc s)) price \/ balance_plur (acc s') = balance_plur (acc s)) ->
    threshold_plur (acc s') = threshold_plur (acc s) -> tasks s' = put (tasks s) id t ->
    settle_lock s' = settle_lock s -> emitted s' = emitted s -> store s' = store s -> change s s'
| ChLock id price after : tasks s !! id = Some (TPush price (PSettling SLock after)) -> settle_lock s = None -> acc s' = acc s ->
    tasks s' = <[id := TPush price (PSettling SAck after)]> (tasks s) -> settle_lock s' = Some id -> emitted s' = emitted s ->
    store s' = store s -> change s s'
| ChSettle id t t' cred : tasks s !! id = Some t -> holds_lock t = true ->
    acc s' = mkAccounting (reserve_plur (acc s)) (sat_sub (balance_plur (acc s)) cred) (threshold_plur (acc s)) -> 0 <= cred ->
    tasks s' = put (tasks s) id t' -> match t' with Some u => inflight u = 0 /\ (0 <= task_price t -> 0 <= task_price u) /\ (holds_lock u = true -> settle_lock s' = Some id) | None => True end ->
    (forall u plur, t' = Some u -> task_plur u = Some plur -> 0 <= plur /\ is_Some swap) ->
    (settle_lock s' = None \/ settle_lock s' = settle_lock s /\ exists u, t' = Some u /\ holds_lock u = true) ->
    (emitted s' = emitted s \/ exists c, to_emit t = Some c /\ emitted s' = emitted s ++ [c]) ->
    (store s' = store s /\ (forall u c, t' = Some u -> to_emit u = Some c -> False) \/
     emitted s' = emitted s /\ exists sw amount c, swap = Some sw /\ record_cheque sw (store s) amount = Some (store s', c) /\ 0 <= amount /\
       (forall u c', t' = Some u -> to_emit u = Some c' -> c' = c)) -> change s s'.
End Changes.

Lemma complete_eqs s id dead :
  acc (complete s id dead) = acc s /\ tasks (complete s id dead) = delete id (tasks s) /\ settle_lock (complete s id dead) = settle_lock s /\
  emitted (complete s id dead) = emitted s /\ store (complete s id dead) = store s.
Proof. unfold complete. cbv zeta. destruct dead; [done|]. by destruct (_ && _). Qed.

Definition after_settling (price : Z) (after : After) : option Task :=
  match after with ThenRetry => Some (TPush price PRetry) | ThenReturn => None end.

Lemma settled_eqs s id price after :
  acc (settled s id price after) = acc s /\ tasks (settled s id price after) = put (tasks s) id (after_settling price after) /\
  settle_lock (settled s id price after) = None /\ emitted (settled s id price after) = emitted s /\ store (settled s id price after) = store s.
Proof. destruct after; [done|]. unfold settled. destruct (complete_eqs (with_lock s None) id false) as (-> & -> & -> & -> & ->). done. Qed.

Lemma cheque_amount_nonneg plur rate ded amount : 0 <= plur -> 0 <= rate -> 0 <= ded -> cheque_amount plur rate ded = Some amount -> 0 <= amount.
Proof. unfold cheque_amount. intros. repeat case_match; try done. simplify_eq. nia. Qed.

Section Simulation.
Context (swap : option SwapState) (serves_status : bool).

Definition prices_ok (s : Session) : Prop := forall id t, tasks s !! id = Some t -> 0 <= task_price t.
Definition plurs_ok (s : Session) : Prop := forall id t plur, tasks s !! id = Some t -> task_plur t = Some plur -> 0 <= plur /\ is_Some swap.

Lemma settled_change s id t price after cred s1 : tasks s !! id = Some t -> holds_lock t = true -> task_price t = price -> 
  tasks s1 = tasks s -> acc s1 = mkAccounting (reserve_plur (acc s)) (sat_sub (balance_plur (acc s)) cred) (threshold_plur (acc s)) -> 0 <= cred ->
  (emitted s1 = emitted s \/ exists c, to_emit t = Some c /\ emitted s1 = emitted s ++ [c]) ->
  (store s1 = store s \/ emitted s1 = emitted s /\ exists sw amount c, swap = Some sw /\ record_cheque sw (store s) amount = Some (store s1, c) /\ 0 <= amount) ->
  change swap s (settled s1 id price after).
Proof.
  intros Ht Hh Hp Et Ea Hc He Hs. destruct (settled_eqs s1 id price after) as (E1 & E2 & E3 & E4 & E5).
  apply (ChSettle swap s _ id t (after_settling price after) cred); try done.
  - by rewrite E1.
  - by rewrite E2, Et.
  - destruct after; simpl; [|done]. split_and!; [done| |done]. by rewrite Hp.
  - by intros u plur; destruct after; simpl; intros [= <-].
  - by left.
  - by rewrite E4.
  - rewrite E4, E5. destruct Hs as [->|[He' (sw & am & c & H1 & H2 & H3)]].
    + left. split; [done|]. by intros u c; destruct after; simpl; intros [= <-].
    + right. split; [done|]. exists sw, am, c. split_and!; try done. by intros u c'; destruct after; simpl; intros [= <-].
Qed.

Lemma sat_sub_0 a : 0 <= a -> sat_sub a 0 = a.
Proof. sat. Qed.

Lemma acc_eta a : 0 <= balance_plur a -> a = mkAccounting (reserve_plur a) (sat_sub (balance_plur a) 0) (threshold_plur a).
Proof. intros Hb. rewrite sat_sub_0 by done. by destruct a. Qed.

(** Every step is one of the changes. *)
Lemma step_change s e s' : prices_ok s -> plurs_ok s -> 0 <= balance_plur (acc s) ->
  (forall id t, tasks s !! id = Some t -> holds_lock t = true -> settle_lock s = Some id) -> event_ok e ->
  step swap serves_status s e = Some s' -> change swap s s'.
Proof.
  intros Hp Hpl Hbal Hlk Hev Hstep.
  assert (Hquiet : forall id t0 t s1, tasks s !! id = t0 -> quiet_opt t0 -> quiet_opt t -> acc s1 = acc s -> tasks s1 = put (tasks s) id t ->
    settle_lock s1 = settle_lock s -> emitted s1 = emitted s -> store s1 = store s -> change swap s s1).
  { intros id t0 t s1 <- H1 H2. by apply ChQuiet. }
  assert (Hcomp : forall id t dead, tasks s !! id = Some t -> quiet t -> change swap s (complete s id dead)).
  { intros id t dead Ht Hq. destruct (complete_eqs s id dead) as (E1 & E2 & E3 & E4 & E5).
    apply (Hquiet id (Some t) None); try done. split; [done|by apply (Hp id)]. }
  destruct e as [id price|id|id|id| |id|id r|id r|id r signed|id ok|id|id dead|id|st]; cbn [step] in Hstep.
  - (* a push command *)
    destruct (negb (accept_new s)); [done|]. cbn [orb] in Hstep. case_bool_decide as Hfree; [done|].
    apply eq_None_not_Some in Hfree. cbv zeta in Hstep. destruct (MAX_PUSHES_PER_SESSION <? pushes_used s + 1).
    { apply (inj Some) in Hstep as <-. apply ChStore; try done. intros; cbn; lia. }
    apply (inj Some) in Hstep as <-. apply (Hquiet id None (Some (TPush price PReserve))); try done; try (by destruct (_ <=? _)).
  - destruct (negb (accept_new s)); [done|]. cbn [orb] in Hstep. case_bool_decide as Hfree; [done|]. apply eq_None_not_Some in Hfree.
    apply (inj Some) in Hstep as <-. by apply (Hquiet id None (Some TFetch)).
  - destruct (negb (accept_new s)); [done|]. cbn [orb] in Hstep. case_bool_decide as Hfree; [done|]. apply eq_None_not_Some in Hfree.
    apply (inj Some) in Hstep as <-. by apply (Hquiet id None (Some TProbe)).
  - destruct (negb serves_status); [done|]. cbn [orb] in Hstep. case_bool_decide as Hfree; [done|]. apply eq_None_not_Some in Hfree.
    apply (inj Some) in Hstep as <-. by apply (Hquiet id None (Some TAnswer)).
  - apply (inj Some) in Hstep as <-. apply ChStore; try done. intros; cbn; lia.
  - (* a task runs on *)
    destruct (tasks s !! id) as [[price ph| | |]|] eqn:Ht; try done. pose proof (Hp id _ Ht) as Hpr. cbn in Hpr.
    assert (Hrun : forall first, ph = PReserve \/ ph = PRetry -> change swap s (run_push s id price first)).
    { intros first Hph. unfold run_push. destruct (try_reserve (acc s) price) as [a|] eqn:Ea.
      - apply (ChReserve swap s _ id (TPush price ph) price); try done. by destruct Hph as [-> | ->].
      - destruct first; [|apply (Hcomp id _ _ Ht); by destruct Hph as [-> | ->]].
        apply (Hquiet id (Some (TPush price ph)) (Some (TPush price (PSettling SLock ThenRetry)))); try done.
        by destruct Hph as [-> | ->]. }
    destruct ph as [|[| |plur|plur c] after| |]; try done.
    + apply (inj Some) in Hstep as <-. apply Hrun. by left.
    + destruct (settle_lock s) eqn:El; [done|]. destruct (sat_add U64_MAX _ _ =? 0); apply (inj Some) in Hstep as <-.
      * destruct (settled_eqs s id price after) as (E1 & E2 & E3 & E4 & E5).
        apply (Hquiet id (Some (TPush price (PSettling SLock after))) (after_settling price after)); try done; try (by destruct after); by rewrite E3, El.
      * by apply (ChLock swap s _ id price after).
    + apply (inj Some) in Hstep as <-. apply Hrun. by right.
  - (* the outcome of a push *)
    destruct (tasks s !! id) as [[price [|ph after| |]| | |]|] eqn:Ht; try done. pose proof (Hp id _ Ht) as Hpr. cbn in Hpr.
    destruct r as [[]|e].
    + cbv zeta in Hstep. cbn [balance_plur] in Hstep. destruct (REFRESH_RATE_PLUR <=? _); apply (inj Some) in Hstep as <-.
      * apply (ChResult swap s _ id price (Some (TPush price (PSettling SLock ThenReturn)))); try done. by left.
      * destruct (complete_eqs (with_acc s (mkAccounting (sat_sub (reserve_plur (acc s)) price) (sat_add U64_MAX (balance_plur (acc s)) price) (threshold_plur (acc s)))) id false)
          as (E1 & E2 & E3 & E4 & E5). apply (ChResult swap s _ id price None); rewrite ?E1, ?E2, ?E3, ?E4, ?E5; try done. by left.
    + apply (inj Some) in Hstep as <-. set (s1 := mkSession _ _ _ _ _ _ _ _ _). destruct (complete_eqs s1 id (is_connection_dead e)) as (E1 & E2 & E3 & E4 & E5).
      apply (ChResult swap s _ id price None); rewrite ?E1, ?E2, ?E3, ?E4, ?E5; try done. by right.
  - (* the acknowledgement of a payment *)
    destruct (tasks s !! id) as [[price [|[| |plur|plur c] after| |]| | |]|] eqn:Ht; try done. pose proof (Hp id _ Ht) as Hpr. cbn in Hpr.
    destruct r as [amount|[]].
    + assert (Hc : 0 <= Z.min amount U64_MAX) by (cbn in Hev; lia). cbv zeta in Hstep. cbn [balance_plur] in Hstep.
      assert (Hset : change swap s (settled (with_acc s (mkAccounting (reserve_plur (acc s)) (sat_sub (balance_plur (acc s)) (Z.min amount U64_MAX)) (threshold_plur (acc s)))) id price after)).
      { eapply settled_change; try done; [by left|by left]. }
      destruct swap as [sw|]; [|by apply (inj Some) in Hstep as <-]. destruct (Z.ltb_spec 0 (sat_sub (balance_plur (acc s)) (Z.min amount U64_MAX))); apply (inj Some) in Hstep as <-; [|done].
      eapply (ChSettle (Some sw) s _ id _ (Some (TPush price (PSettling (SRates _) after))) (Z.min amount U64_MAX)); try done; cbn.
      * split_and!; [done|done|]. intros _. by apply (Hlk id _ Ht).
      * intros u pl [= <-] [= <-]. split; [lia|by eexists].
      * right. split; [done|]. by eexists.
      * by left.
      * left. split; [done|]. by intros u c [= <-].
    + apply (inj Some) in Hstep as <-. eapply (settled_change s id _ price after 0 s); try done; [by apply acc_eta|by left|by left].
  - (* the rates of the cheque stream *)
    destruct (tasks s !! id) as [[price [|[| |plur|plur c] after| |]| | |]|] eqn:Ht; try done. pose proof (Hp id _ Ht) as Hpr. cbn in Hpr.
    destruct swap as [sw|] eqn:Esw; [|done].
    assert (Hsame : change (Some sw) s (settled s id price after)).
    { rewrite <- Esw. eapply (settled_change s id _ price after 0 s); try done; [by apply acc_eta|by left|by left]. }
    destruct r as [[rate ded]|[]]; [|by apply (inj Some) in Hstep as <-]. destruct (cheque_amount plur rate ded) as [amount|] eqn:Ea; [|by apply (inj Some) in Hstep as <-].
    apply cheque_amount_nonneg in Ea; [|by apply (proj1 (Hpl id _ _ Ht eq_refl))|apply Hev..].
    destruct (record_cheque sw (store s) amount) as [[st cum]|] eqn:Er; [|by apply (inj Some) in Hstep as <-]. cbv zeta in Hstep.
    set (s1 := mkSession _ _ _ _ _ _ _ _ _) in Hstep. destruct signed; apply (inj Some) in Hstep as <-.
    + eapply (ChSettle (Some sw) s _ id _ (Some (TPush price (PSettling (SEmit plur cum) after))) 0); try done; cbn.
      * by apply acc_eta.
      * split_and!; [done|done|]. intros _. by apply (Hlk id _ Ht).
      * intros u pl [= <-] [= <-]. split; [by apply (Hpl id _ _ Ht)|by eexists].
      * right. split; [done|]. by eexists.
      * by left.
      * right. split; [done|]. exists sw, amount, cum. split_and!; try done. by intros u c' [= <-] [= <-].
    + rewrite <- Esw. eapply (settled_change s id _ price after 0 s1); try done; [by apply acc_eta|by left|].
      right. split; [done|]. by exists sw, amount, cum.
  - (* the cheque is written *)
    destruct (tasks s !! id) as [[price [|[| |plur|plur c] after| |]| | |]|] eqn:Ht; try done. pose proof (Hp id _ Ht) as Hpr. cbn in Hpr.
    cbv zeta in Hstep. set (s1 := mkSession _ _ _ _ _ _ _ _ (emitted s ++ [c])) in Hstep. destruct ok; apply (inj Some) in Hstep as <-.
    + eapply (settled_change s id _ price after plur (with_acc s1 _)); try done; [by apply (Hpl id _ _ Ht)|right; by exists c|by left].
    + eapply (settled_change s id _ price after 0 s1); try done; [by apply acc_eta|right; by exists c|by left].
  - destruct (tasks s !! id) as [[]|] eqn:Ht; try done. apply (inj Some) in Hstep as <-. by apply (Hcomp id TFetch).
  - destruct (tasks s !! id) as [[]|] eqn:Ht; try done. apply (inj Some) in Hstep as <-. by apply (Hcomp id TProbe).
  - destruct (tasks s !! id) as [[]|] eqn:Ht; try done. apply (inj Some) in Hstep as <-. by apply (Hcomp id TAnswer).
  - destruct swap as [sw|]; [|done]. destruct (_ && _) eqn:E; [|done]. apply (inj Some) in Hstep as <-. apply andb_true_iff in E as [E1%Z.leb_le E2%Z.leb_le].
    apply ChStore; try done. intros sw' [= <-]. done.
Qed.

(** ** The invariant *)

Definition cum_of (sw : SwapState) (st : ChequeStore) : Z := store_cumulative st (peer_overlay_hex sw).

Record cheques_ok (sw : SwapState) (st0 : ChequeStore) (s : Session) : Prop := {
  ck_grows : cum_of sw st0 <= cum_of sw (store s) <= Z.max (max_cumulative_per_peer_bzz sw) (cum_of sw st0);
  ck_sorted : StronglySorted Z.le (emitted s);
  ck_recorded : Forall (fun c => c <= cum_of sw (store s)) (emitted s);
  ck_pending : forall id t c, tasks s !! id = Some t -> to_emit t = Some c -> c <= cum_of sw (store s) /\ Forall (fun x => x <= c) (emitted s) }.

(** The lock is held by a task that is settling. *)
Definition lock_owned (s : Session) : Prop := forall id, settle_lock s = Some id -> exists t, tasks s !! id = Some t /\ holds_lock t = true.

Record session_inv (st0 : ChequeStore) (s : Session) : Prop := {
  si_acc : 0 <= reserve_plur (acc s) /\ 0 <= balance_plur (acc s) /\ balance_plur (acc s) + reserve_plur (acc s) <= threshold_plur (acc s) /\
    threshold_plur (acc s) = SAFE_PEER_THRESHOLD_PLUR;
  si_reserve : reserve_plur (acc s) = msum inflight (tasks s);
  si_prices : prices_ok s;
  si_plurs : plurs_ok s;
  si_lock : forall id t, tasks s !! id = Some t -> holds_lock t = true -> settle_lock s = Some id;
  si_owned : lock_owned s;
  si_cheques : forall sw, swap = Some sw -> cheques_ok sw st0 s }.

Lemma put_lookup m id t j u : put m id t !! j = Some u -> j = id /\ t = Some u \/ j <> id /\ m !! j = Some u.
Proof.
  destruct t as [t|]; cbn [put]; [rewrite lookup_insert_Some|rewrite lookup_delete_Some]; intros H; [|right; split; [naive_solver|tauto]].
  destruct H as [[-> ->]|[Hne H]]; [by left|right; split; [congruence|done]].
Qed.

Lemma msum_put m id t : msum inflight (put m id t) = msum inflight m - from_option inflight 0 (m !! id) + from_option inflight 0 t.
Proof.
  destruct t as [t|]; cbn [put from_option]; [apply msum_insert|]. destruct (m !! id) as [u|] eqn:E; cbn [from_option].
  - rewrite (msum_delete _ _ _ _ E). lia.
  - rewrite delete_id by done. lia.
Qed.

Lemma record_cheque_spec sw st amount st' c : 0 <= amount -> record_cheque sw st amount = Some (st', c) ->
  c = cum_of sw st + amount /\ cum_of sw st' = c /\ c <= max_cumulative_per_peer_bzz sw.
Proof.
  intros Ha. unfold record_cheque, cum_of, store_cumulative, bump_and_get, checked_add. cbv zeta.
  set (cur := default 0 (cs_payouts st !! to_ascii_lowercase (peer_overlay_hex sw))).
  destruct (Z.ltb_spec (max_cumulative_per_peer_bzz sw) (sat_add U256_MAX cur amount)); [done|].
  destruct (Z.ltb_spec U128_MAX amount); [done|]. destruct (Z.leb_spec (cur + amount) U128_MAX); [|done].
  intros [= <- <-]. cbn [set_payout cs_payouts]. rewrite lookup_insert_eq. cbn. split_and!; [done..|]. unfold sat_add in *. lia.
Qed.

(** The part of the invariant about the cheques when nothing about them changes. *)
Lemma cheques_same sw st0 s s' : cheques_ok sw st0 s -> store s' = store s -> emitted s' = emitted s ->
  (forall id t c, tasks s' !! id = Some t -> to_emit t = Some c -> exists id' t', tasks s !! id' = Some t' /\ to_emit t' = Some c) -> cheques_ok sw st0 s'.
Proof.
  intros [H1 H2 H3 H4] Es Ee Ht. split; rewrite ?Es, ?Ee; try done.
  intros id t c Hid Hc. destruct (Ht id t c Hid Hc) as (id' & t' & H' & Hc'). by apply (H4 id' t' c).
Qed.

Lemma quiet_no_emit t c : quiet t -> to_emit t = Some c -> False.
Proof. intros [_ Hq]. destruct t as [p [|[| | |] ?| |]| | |]; done. Qed.
Lemma quiet_no_plur t c : quiet t -> task_plur t = Some c -> False.
Proof. intros [_ Hq]. destruct t as [p [|[| | |] ?| |]| | |]; done. Qed.

(** A task replaced by a quiet one (or dropped) keeps the facts about all tasks. *)
Lemma tasks_quiet (s s' : Session) id t : tasks s' = put (tasks s) id t -> quiet_opt t -> settle_lock s' = settle_lock s ->
  prices_ok s -> plurs_ok s -> (forall id t, tasks s !! id = Some t -> holds_lock t = true -> settle_lock s = Some id) ->
  prices_ok s' /\ plurs_ok s' /\ (forall id t, tasks s' !! id = Some t -> holds_lock t = true -> settle_lock s' = Some id) /\
  (forall j u c, tasks s' !! j = Some u -> to_emit u = Some c -> exists id' t', tasks s !! id' = Some t' /\ to_emit t' = Some c).
Proof.
  intros Et Hq El Hp Hpl Hlk. unfold prices_ok, plurs_ok. rewrite Et, El. split_and!.
  - intros j u Hj. apply put_lookup in Hj as [[-> ->]|[_ Hj]]; [apply Hq|by apply (Hp j)].
  - intros j u pl Hj Hpj. apply put_lookup in Hj as [[-> ->]|[_ Hj]]; [by destruct (quiet_no_plur u pl (proj1 Hq))|by apply (Hpl j u)].
  - intros j u Hj Hh. apply put_lookup in Hj as [[-> ->]|[_ Hj]]; [destruct Hq as [[_ Hq] _]; congruence|by apply (Hlk j u)].
  - intros j u c Hj Hc. apply put_lookup in Hj as [[-> ->]|[_ Hj]]; [by destruct (quiet_no_emit u c (proj1 Hq))|by exists j, u].
Qed.

Lemma quiet_opt_inflight t : quiet_opt t -> from_option inflight 0 t = 0.
Proof. destruct t as [t|]; [|done]. by intros [[Hq _] _]. Qed.

(** A lock that nothing touches keeps its owner, whose task is not the one that changes. *)
Lemma owned_put s s' id t : lock_owned s -> settle_lock s' = settle_lock s -> tasks s' = put (tasks s) id t ->
  (forall u, tasks s !! id = Some u -> holds_lock u = false) -> lock_owned s'.
Proof.
  intros Hown El Et Hfree j Hj. rewrite El in Hj. destruct (Hown j Hj) as (u & Hu & Hh). exists u. split; [|done].
  assert (id <> j) by (intros ->; specialize (Hfree u Hu); congruence).
  rewrite Et. destruct t as [t|]; cbn [put]; [by rewrite lookup_insert_ne|by rewrite lookup_delete_ne].
Qed.

Lemma change_owned s s' : lock_owned s -> (forall id t, tasks s !! id = Some t -> holds_lock t = true -> settle_lock s = Some id) ->
  change swap s s' -> lock_owned s'.
Proof.
  intros Hown Hlk Hch. destruct Hch as
    [Ea Et El Ee Hst | id t Hq0 Hq Ea Et El Ee Es | id t price Hid Hq Hpr Hr Et El Ee Es
    | id price t Hid Hq Er Eb Eth Et El Ee Es | id price after Hid El0 Ea Et El Ee Es
    | id t t' cred Hid Hh Ea Hcr Et Ht' Hpl' El Ee Hs].
  - intros j Hj. rewrite El in Hj. rewrite Et. by apply Hown.
  - apply (owned_put s s' id t); try done. intros u Hu. rewrite Hu in Hq0. by destruct Hq0 as [[_ ?] _].
  - apply (owned_put s s' id (Some (TPush price PInFlight))); try done. intros u Hu. simplify_eq. by destruct Hq.
  - apply (owned_put s s' id t); try done. intros u Hu. by simplify_eq.
  - intros j Hj. rewrite El in Hj. simplify_eq. rewrite Et, lookup_insert_eq. by eexists.
  - intros j Hj. destruct El as [El|[El (u & -> & Hu)]]; [congruence|]. exists u. split; [|done].
    rewrite (Hlk id t Hid Hh) in El. rewrite El in Hj. simplify_eq. rewrite Et. cbn. by rewrite lookup_insert_eq.
Qed.

Lemma change_inv st0 s s' : session_inv st0 s -> change swap s s' -> session_inv st0 s'.
Proof.
  intros [Hacc Hres Hp Hpl Hlk Hown0 Hck] Hch. pose proof (change_owned s s' Hown0 Hlk Hch) as Hown'. destruct Hch as
    [Ea Et El Ee Hst | id t Hq0 Hq Ea Et El Ee Es | id t price Hid Hq Hpr Hr Et El Ee Es
    | id price t Hid Hq Er Eb Eth Et El Ee Es | id price after Hid El0 Ea Et El Ee Es
    | id t t' cred Hid Hh Ea Hcr Et Ht' Hpl' El Ee Hs].
  - split; unfold prices_ok, plurs_ok; rewrite ?Ea, ?Et, ?El; try done. intros sw Esw. destruct (Hck sw Esw) as [H1 H2 H3 H4]. specialize (Hst sw Esw).
    fold (cum_of sw (store s)) (cum_of sw (store s')) in Hst. split; rewrite ?Ee, ?Et; try done; [lia| |].
    + eapply Forall_impl; [exact H3|]. cbn. lia.
    + intros i u c Hi Hc. destruct (H4 i u c Hi Hc). split; [lia|done].
  - destruct (tasks_quiet s s' id t Et Hq El Hp Hpl Hlk) as (A & B & C & D).
    split; rewrite ?Ea; try done.
    + rewrite Et, msum_put, (quiet_opt_inflight t Hq), (quiet_opt_inflight _ Hq0). lia.
    + intros sw Esw. exact (cheques_same sw st0 s s' (Hck sw Esw) Es Ee D).
  - assert (Et' : tasks s' = put (tasks s) id (Some (TPush price PInFlight))) by done.
    unfold try_reserve, checked_add in Hr.
    destruct (Z.leb_spec (reserve_plur (acc s) + price) U64_MAX); [|done].
    destruct (Z.leb_spec (balance_plur (acc s) + (reserve_plur (acc s) + price)) U64_MAX); [|done].
    destruct (Z.ltb_spec (threshold_plur (acc s)) (balance_plur (acc s) + (reserve_plur (acc s) + price))); [done|].
    apply (inj Some) in Hr. split.
    + rewrite <- Hr. cbn. lia.
    + rewrite <- Hr. cbn. rewrite Et', msum_put, Hid. cbn. destruct Hq as [-> _]. lia.
    + intros j u Hj. rewrite Et' in Hj. apply put_lookup in Hj as [[-> [= <-]]|[_ Hj]]; [done|by apply (Hp j)].
    + intros j u pl Hj Hpj. rewrite Et' in Hj. apply put_lookup in Hj as [[-> [= <-]]|[_ Hj]]; [done|by apply (Hpl j u)].
    + intros j u Hj Hhu. rewrite El. rewrite Et' in Hj. apply put_lookup in Hj as [[-> [= <-]]|[_ Hj]]; [done|by apply (Hlk j u)].
    + exact Hown'.
    + intros sw Esw. apply (cheques_same sw st0 s); auto. intros j u c Hj Hc. rewrite Et' in Hj.
      apply put_lookup in Hj as [[-> [= <-]]|[_ Hj]]; [done|by exists j, u].
  - destruct (tasks_quiet s s' id t Et Hq El Hp Hpl Hlk) as (A & B & C & D).
    pose proof (Hp id _ Hid) as Hpr. cbn in Hpr.
    assert (Hle : price <= msum inflight (tasks s)).
    { apply (msum_lookup_le inflight (tasks s) id (TPush price PInFlight)); [|done]. intros j u Hj. specialize (Hp j u Hj). destruct u as [p [| | |]| | |]; cbn in *; lia. }
    assert (Hr' : reserve_plur (acc s') = reserve_plur (acc s) - price) by (rewrite Er; sat).
    split; try done.
    + rewrite Hr', Eth. unfold SAFE_PEER_THRESHOLD_PLUR, REFRESH_RATE_PLUR in *. destruct Eb as [-> | ->]; [unfold sat_add|]; lia.
    + rewrite Hr', Et, msum_put, (quiet_opt_inflight t Hq), Hid. cbn. lia.
    + intros sw Esw. exact (cheques_same sw st0 s s' (Hck sw Esw) Es Ee D).
  - assert (Et' : tasks s' = put (tasks s) id (Some (TPush price (PSettling SAck after)))) by done.
    assert (Hno : forall j u, tasks s !! j = Some u -> holds_lock u = true -> False) by (intros j u Hj Hu; specialize (Hlk j u Hj Hu); congruence).
    split; rewrite ?Ea; try done.
    + rewrite Et', msum_put, Hid. cbn. lia.
    + intros j u Hj. rewrite Et' in Hj. apply put_lookup in Hj as [[-> [= <-]]|[_ Hj]]; [exact (Hp id _ Hid)|by apply (Hp j)].
    + intros j u pl Hj Hpj. rewrite Et' in Hj. apply put_lookup in Hj as [[-> [= <-]]|[_ Hj]]; [done|by apply (Hpl j u)].
    + intros j u Hj Hhu. rewrite Et' in Hj. rewrite El. apply put_lookup in Hj as [[-> _]|[_ Hj]]; [done|by destruct (Hno j u)].
    + intros sw Esw. apply (cheques_same sw st0 s); auto. intros j u c Hj Hc. rewrite Et' in Hj.
      apply put_lookup in Hj as [[-> [= <-]]|[_ Hj]]; [done|by exists j, u].
  - pose proof (Hlk id t Hid Hh) as Hown.
    assert (Hinf : inflight t = 0) by (by destruct t as [p [|[| | |] ?| |]| | |]).
    assert (Honly : forall j u, tasks s !! j = Some u -> holds_lock u = true -> j = id) by (intros j u Hj Hu; specialize (Hlk j u Hj Hu); congruence).
    split.
    + rewrite Ea. cbn. sat.
    + rewrite Ea, Et, msum_put, Hid. cbn [from_option]. rewrite Hinf. destruct t' as [u|]; cbn [from_option reserve_plur]; [destruct Ht' as [-> _]|]; lia.
    + intros j u Hj. rewrite Et in Hj. apply put_lookup in Hj as [[-> Eu]|[_ Hj]]; [|by apply (Hp j)].
      subst t'. destruct Ht' as (_ & Hpu & _). apply Hpu. exact (Hp id t Hid).
    + intros j u pl Hj Hpj. rewrite Et in Hj. apply put_lookup in Hj as [[-> Eu]|[_ Hj]]; [by apply (Hpl' u)|by apply (Hpl j u)].
    + intros j u Hj Hhu. rewrite Et in Hj. apply put_lookup in Hj as [[-> Eu]|[Hne Hj]]; [subst t'; by apply Ht'|]. by destruct (Hne (Honly j u Hj Hhu)).
    + exact Hown'.
    + intros sw Esw. destruct (Hck sw Esw) as [H1 H2 H3 H4].
      assert (Hother : forall j u c, tasks s' !! j = Some u -> to_emit u = Some c -> j = id /\ t' = Some u).
      { intros j u c Hj Hc. rewrite Et in Hj. apply put_lookup in Hj as [[-> Eu]|[Hne Hj]]; [done|].
        destruct (Hne (Honly j u Hj ltac:(by destruct u as [p [|[| | |] ?| |]| | |]))). }
      assert (Hem : Forall (fun c => c <= cum_of sw (store s)) (emitted s') /\ StronglySorted Z.le (emitted s')).
      { destruct Ee as [->|(c & Hc & ->)]; [done|]. destruct (H4 id t c Hid Hc) as [Hcc Hall]. split.
        - apply Forall_app. split; [done|]. by repeat constructor.
        - clear -H2 Hall. induction H2 as [|x l Hl IH Hx]; [repeat constructor|]. cbn. apply Forall_cons in Hall as [Hxc Hall].
          constructor; [by apply IH|]. apply Forall_app. split; [done|]. by repeat constructor. }
      destruct Hem as [Hem1 Hem2]. destruct Hs as [[Es Hno]|[Ee' (sw' & am & c & Esw' & Hrec & Ham & Hc')]].
      * split; rewrite ?Es; try done. intros j u c Hj Hc. destruct (Hother j u c Hj Hc) as [_ Hu]. destruct (Hno u c Hu Hc).
      * assert (sw' = sw) as -> by congruence. destruct (record_cheque_spec sw (store s) am (store s') c Ham Hrec) as (Ec & Ecum & Hcap).
        split; [lia|done| |].
        { eapply Forall_impl; [exact Hem1|]. cbn. lia. }
        intros j u c1 Hj Hc1. destruct (Hother j u c1 Hj Hc1) as [_ Hu]. rewrite (Hc' u c1 Hu Hc1), Ecum. split; [lia|].
        eapply Forall_impl; [exact Hem1|]. cbn. lia.
Qed.

Lemma reachable_inv st0 s : session_reachable swap serves_status st0 s -> session_inv st0 s.
Proof.
  induction 1 as [|s e s' _ IH Hev Hst].
  - split; unfold session_new, prices_ok, plurs_ok; cbn; try (intros *; rewrite lookup_empty; done).
    + unfold SAFE_PEER_THRESHOLD_PLUR, REFRESH_RATE_PLUR. lia.
    + by rewrite msum_empty.
    + intros id. cbn. done.
    + intros sw _. split; cbn; [lia|constructor|constructor|]. intros *. by rewrite lookup_empty.
  - eapply change_inv; [exact IH|]. destruct IH as [Ha _ Hp Hpl Hlk _ _]. by apply (step_change s e); try tauto.
Qed.
End Simulation.

(** ** Progress of the tasks *)

(** The steps a task may still take. *)
Definition settle_work (ph : SettlePhase) : Z := match ph with SLock => 4 | SAck => 3 | SRates _ => 2 | SEmit _ _ => 1 end.
Definition task_work (t : Task) : Z :=
  match t with
  | TPush _ PReserve => 11 | TPush _ (PSettling ph ThenRetry) => 6 + settle_work ph | TPush _ PRetry => 6 | TPush _ PInFlight => 5
  | TPush _ (PSettling ph ThenReturn) => settle_work ph | _ => 1
  end.
Definition work (s : Session) : Z := msum task_work (tasks s).

(** The event is a task going on, rather than something arriving. *)
Definition task_event (e : Event) : option nat :=
  match e with
  | Run id | PushDone id _ | SettleAck id _ | GotRates id _ _ | Emitted id _ | FetchDone id | ProbeDone id _ | AnswerDone id => Some id
  | _ => None
  end.

Fixpoint run_events (swap : option SwapState) (serves_status : bool) (s : Session) (es : list Event) : option Session :=
  match es with
  | [] => Some s
  | e :: es => match step swap serves_status s e with Some s' => run_events swap serves_status s' es | None => None end
  end.

Lemma task_work_pos t : 0 < task_work t.
Proof. destruct t as [p [|[| | |] []| |]| | |]; cbn; lia. Qed.

Lemma work_put s s' id t t' : tasks s !! id = Some t -> tasks s' = put (tasks s) id t' ->
  from_option task_work 0 t' < task_work t -> work s' < work s.
Proof.
  intros Ht Et Hlt. unfold work. rewrite Et. destruct t' as [u|]; cbn [put from_option] in *.
  - rewrite msum_insert, Ht. cbn. lia.
  - rewrite (msum_delete _ _ _ _ Ht). lia.
Qed.

Lemma complete_work s s1 id t dead : tasks s !! id = Some t -> tasks s1 = tasks s -> work (complete s1 id dead) < work s.
Proof.
  intros Ht Et. apply (work_put s _ id t None); [done| |apply task_work_pos].
  destruct (complete_eqs s1 id dead) as (_ & -> & _). by rewrite Et.
Qed.

Lemma settled_work s s1 id price ph after : tasks s !! id = Some (TPush price (PSettling ph after)) -> tasks s1 = tasks s ->
  work (settled s1 id price after) < work s.
Proof.
  intros Ht Et. apply (work_put s _ id _ (after_settling price after) Ht).
  - destruct (settled_eqs s1 id price after) as (_ & -> & _). by rewrite Et.
  - destruct after, ph; cbn; lia.
Qed.

#[local] Hint Resolve complete_work settled_work : core.

(** A step of a task brings it nearer to its end. *)
Lemma task_step_work swap serves s e s' id : task_event e = Some id -> step swap serves s e = Some s' -> work s' < work s.
Proof.
  intros Hid Hstep. destruct e as [| | | | |i|i r|i r|i r signed|i ok|i|i dead|i|]; simplify_eq/=;
    destruct (tasks s !! id) as [[price [|[| |plur|plur c] after| |]| | |]|] eqn:Ht; try done; cbv zeta in Hstep;
    assert (Hput : forall u s1, task_work u < task_work (default TFetch (tasks s !! id)) -> tasks s1 = <[id := u]> (tasks s) -> work s1 < work s)
      by (intros u s1 Hw Hs1; apply (work_put s s1 id _ (Some u) Ht Hs1); by rewrite Ht in Hw);
    rewrite Ht in Hput; cbn in Hput.
  all: unfold run_push in Hstep; repeat (case_match; try done); simplify_eq; eauto.
  all: first [eapply Hput; [|reflexivity]; try destruct after; cbn; lia | apply (work_put s _ id _ None Ht); [reflexivity|cbn; lia]].
Qed.

(** A session that stopped accepting never accepts again. *)
Lemma complete_accept s id dead : accept_new s = false -> accept_new (complete s id dead) = false.
Proof. intros H. unfold complete. cbv zeta. destruct dead; [done|]. by destruct (_ && _). Qed.
Lemma settled_accept s id price after : accept_new s = false -> accept_new (settled s id price after) = false.
Proof. intros H. destruct after; [done|]. by apply complete_accept. Qed.
#[local] Hint Resolve complete_accept settled_accept : core.

Lemma step_accept swap serves s e s' : accept_new s = false -> step swap serves s e = Some s' -> accept_new s' = false.
Proof.
  intros Ha Hs. destruct e; cbn [step] in Hs; rewrite ?Ha in Hs; cbn [negb orb] in Hs; unfold run_push in Hs; cbv zeta in Hs;
    repeat (case_match; try done); try done; try (apply (inj Some) in Hs as <-); auto.
Qed.

(** A task that can go on, with the answer it waits for.  A push waiting for the lock
    is let on by the task that holds it. *)
Definition answer (s : Session) (id : nat) (t : Task) : Event :=
  match t with
  | TPush _ (PReserve | PRetry) => Run id
  | TPush _ PInFlight => PushDone id (Err FTimeout)
  | TPush _ (PSettling SLock _) => Run id
  | TPush _ (PSettling SAck _) => SettleAck id (Err tt)
  | TPush _ (PSettling (SRates _) _) => GotRates id (Err tt) false
  | TPush _ (PSettling (SEmit _ _) _) => Emitted id false
  | TFetch => FetchDone id | TProbe => ProbeDone id false | TAnswer => AnswerDone id
  end.

Lemma answer_steps swap serves s id t : tasks s !! id = Some t -> (holds_lock t = true \/ settle_lock s = None) ->
  (forall plur, task_plur t = Some plur -> is_Some swap) ->
  task_event (answer s id t) = Some id /\ event_ok (answer s id t) /\ is_Some (step swap serves s (answer s id t)).
Proof.
  intros Ht Hl Hsw. destruct t as [p [|[| |plur|plur c] after| |]| | |]; cbn; rewrite ?Ht; try (split_and!; done || by eexists).
  - destruct Hl as [|El]; [done|]. rewrite El. split_and!; try done. by destruct (_ =? 0).
  - destruct (Hsw plur eq_refl) as [sw ->]. split_and!; try done.
Qed.

(** ** Claims *)

Section Claims.
Context (swap : option SwapState) (serves_status : bool) (st0 : ChequeStore).

(** C13: What a peer can hold against us is bounded whatever the peer answers, whatever
    is lost and however the pushes interleave: the reserve is exactly the sum of the
    prices of the pushes in flight, balance and reserve together never exceed 9,000,000
    PLUR (under bee's disconnect threshold), and at most one task is between taking
    and releasing the settlement lock. *)
Theorem session_exposure_bounded s : session_reachable swap serves_status st0 s ->
  reserve_plur (acc s) = msum inflight (tasks s) /\
  0 <= balance_plur (acc s) /\ balance_plur (acc s) + reserve_plur (acc s) <= SAFE_PEER_THRESHOLD_PLUR /\
  (forall i j t u, tasks s !! i = Some t -> tasks s !! j = Some u -> holds_lock t = true -> holds_lock u = true -> i = j).
Proof.
  intros H. apply reachable_inv in H as [(Hr & Hb & Hle & Hth) Hres _ _ Hlk _ _].
  split_and!; [done|done|lia|]. intros i j t u Hi Hj Ht Hu. pose proof (Hlk i t Hi Ht). pose proof (Hlk j u Hj Hu). congruence.
Qed.

(** C14: The cheques of a session: each amount promised is no less than the one before,
    none exceeds what the store holds on record for the peer, so a cheque is never
    handed over unrecorded, and the record never passes the cap (unless it started
    above it, and then it does not move). *)
Theorem session_cheques_bounded s sw : session_reachable swap serves_status st0 s -> swap = Some sw ->
  cum_of sw st0 <= cum_of sw (store s) <= Z.max (max_cumulative_per_peer_bzz sw) (cum_of sw st0) /\
  StronglySorted Z.le (emitted s) /\ Forall (fun c => c <= cum_of sw (store s)) (emitted s).
Proof. intros H Esw. apply reachable_inv in H as [_ _ _ _ _ _ Hck]. by destruct (Hck sw Esw) as [? ? ? _]. Qed.

Lemma session_can_go_on s : session_reachable swap serves_status st0 s -> tasks s <> ∅ ->
  exists e id s', task_event e = Some id /\ event_ok e /\ step swap serves_status s e = Some s'.
Proof.
  intros H Hne. apply reachable_inv in H as [_ _ _ Hpl _ Hown _].
  assert (Hone : exists id t, tasks s !! id = Some t /\ (holds_lock t = true \/ settle_lock s = None)).
  { destruct (settle_lock s) as [id|] eqn:El; [destruct (Hown id El) as (t & ? & ?); exists id, t; by auto|].
    apply map_choose in Hne as (id & t & ?). exists id, t. by auto. }
  destruct Hone as (id & t & Ht & Hl).
  destruct (answer_steps swap serves_status s id t Ht Hl) as (H1 & H2 & s' & H3); [|by exists (answer s id t), id, s'].
  intros plur Hp. by apply (Hpl id t plur Ht).
Qed.

Lemma work_nonneg s : 0 <= work s.
Proof. apply msum_nonneg. intros id t _. pose proof (task_work_pos t). lia. Qed.

Lemma run_work es : forall s s', Forall (fun e => is_Some (task_event e)) es -> run_events swap serves_status s es = Some s' ->
  Z.of_nat (length es) + work s' <= work s.
Proof.
  induction es as [|e es IH]; intros s s' He Hr; cbn in *; [simplify_eq; lia|]. apply Forall_cons in He as [[id Hid] He].
  destruct (step swap serves_status s e) as [s1|] eqn:E; [|done]. specialize (IH s1 s' He Hr).
  pose proof (task_step_work swap serves_status s e s1 id Hid E). lia.
Qed.

(** C15: A session never deadlocks on its settlement lock and always drains: as long as
    a task is left, some task can go on; the tasks of a session can together take at
    most [work s] further steps in any order; and there is a schedule that brings the
    session to no task at all, where a session that accepts nothing more retires. *)
Theorem session_drains s : session_reachable swap serves_status st0 s ->
  (tasks s <> ∅ -> exists e id s', task_event e = Some id /\ event_ok e /\ step swap serves_status s e = Some s') /\
  (forall es s', Forall (fun e => is_Some (task_event e)) es -> run_events swap serves_status s es = Some s' -> Z.of_nat (length es) <= work s) /\
  exists es s', Forall (fun e => is_Some (task_event e)) es /\ run_events swap serves_status s es = Some s' /\ tasks s' = ∅ /\
    (accept_new s = false -> retired s' = true).
Proof.
  intros H. split_and!; [by apply session_can_go_on| |].
  { intros es s' He Hr. pose proof (run_work es s s' He Hr). pose proof (work_nonneg s'). lia. }
  remember (Z.to_nat (work s)) as n eqn:En. revert s H En. induction n as [n IH] using lt_wf_ind. intros s H En.
  destruct (decide (tasks s = ∅)) as [Ee|Hne].
  { exists [], s. split_and!; try done. intros Ha. unfold retired. rewrite Ha. cbn. by apply bool_decide_eq_true. }
  destruct (session_can_go_on s H Hne) as (e & id & s1 & Hev & Hok & Hs). pose proof (task_step_work _ _ _ _ _ _ Hev Hs). pose proof (work_nonneg s1).
  destruct (IH (Z.to_nat (work s1)) ltac:(lia) s1 (SeStep _ _ _ _ _ _ H Hok Hs) eq_refl) as (es & s' & He & Hr & Ht & Hret).
  exists (e :: es), s'. split_and!; [constructor; [by eexists|done]|cbn; by rewrite Hs|done|].
  intros Ha. apply Hret. by apply (step_accept swap serves_status s e).
Qed.
End Claims.

Lemma run_accept swap serves es : forall s s', accept_new s = false -> run_events swap serves s es = Some s' -> accept_new s' = false.
Proof.
  induction es as [|e es IH]; intros s s' Ha Hr; cbn in Hr; [by simplify_eq|].
  destruct (step swap serves s e) as [s1|] eqn:E; [|done]. apply (IH s1); [by apply (step_accept swap serves s e)|done].
Qed.

(** Answering a peer's health probe ends the session: the responder's future
    reports what the loop reads as a dead connection, so on a live connection with
    nothing wrong the one answered probe stops the session for good, no later push,
    fetch or probe is taken, although the account and the other tasks are untouched. *)
Theorem status_probe_retires swap s id : accept_new s = true -> connection_dead s = false -> tasks s !! id = None ->
  exists s', run_events swap true s [StatusIn id; AnswerDone id] = Some s' /\
    tasks s' = tasks s /\ acc s' = acc s /\ connection_dead s' = false /\
    (forall es s2 i price, run_events swap true s' es = Some s2 ->
       step swap true s2 (CmdPush i price) = None /\ step swap true s2 (CmdFetch i) = None /\ step swap true s2 (CmdProbe i) = None).
Proof.
  intros Ha Hd Hid. cbn [run_events step]. rewrite Hid. cbn [negb orb]. rewrite bool_decide_false by (intros [? ?]; done).
  cbn [set_task with_tasks tasks]. rewrite lookup_insert_eq. eexists. split; [reflexivity|]. split_and!; try done.
  - cbn. by rewrite delete_insert_id.
  - intros es s2 i price Hr. apply run_accept in Hr; [|done]. cbn [step]. by rewrite Hr.
Qed.

(** ** Witnesses *)

Module SessionWitness.
Definition sw : SwapState := mkSwapState (lit "ab") 1000000000.
Definition empty_store : ChequeStore := store_new (replicate 20 0).
(** Fifteen pushes of 320,000 PLUR bring the balance past a second's allowance; the
    peer forgives 300,000 of it and the rest goes into a cheque, while a sixteenth is
    in flight. *)
Definition first_pushes : list Event :=
  flat_map (fun i => [CmdPush i 320000; Run i; PushDone i (Ok tt)]) (seq 0 14) ++
  [CmdPush 14 320000; Run 14; PushDone 14 (Ok tt); CmdPush 15 320000; Run 15; Run 14; SettleAck 14 (Ok 300000); GotRates 14 (Ok (2, 5)) true].
Definition final : Session := default (session_new empty_store) (run_events (Some sw) true (session_new empty_store) (first_pushes ++ [Emitted 14 true])).

Lemma run_reachable swap serves st es : forall s s', session_reachable swap serves st s -> Forall event_ok es ->
  run_events swap serves s es = Some s' -> session_reachable swap serves st s'.
Proof.
  induction es as [|e es IH]; intros s s' H He Hr; cbn in Hr; [by simplify_eq|]. apply Forall_cons in He as [He Hes].
  destruct (step swap serves s e) as [s1|] eqn:E; [|done]. apply (IH s1); [by apply (SeStep _ _ _ s e)|done|done].
Qed.

Lemma final_reachable : session_reachable (Some sw) true empty_store final.
Proof.
  apply (run_reachable (Some sw) true empty_store (first_pushes ++ [Emitted 14 true]) (session_new empty_store)); [constructor| |by vm_compute].
  repeat constructor; cbn; lia.
Qed.

Lemma session_exposure_bounded_witness :
  (balance_plur (acc final), reserve_plur (acc final), emitted final) = (0, 320000, [9000005]) /\
  reserve_plur (acc final) = msum inflight (tasks final).
Proof. split; [by vm_compute|]. exact (proj1 (session_exposure_bounded (Some sw) true empty_store final final_reachable)). Defined.

Lemma session_cheques_bounded_witness : cum_of sw (store final) = 9000005 /\ StronglySorted Z.le (emitted final).
Proof.
  split; [by vm_compute|]. exact (proj1 (proj2 (session_cheques_bounded (Some sw) true empty_store final sw final_reachable eq_refl))).
Defined.

Lemma session_drains_witness : work final = 5 /\ exists es s', run_events (Some sw) true final es = Some s' /\ tasks s' = ∅.
Proof.
  split; [by vm_compute|]. destruct (session_drains (Some sw) true empty_store final final_reachable) as (_ & _ & es & s' & _ & H & Ht & _).
  by exists es, s'.
Defined.

Lemma status_probe_retires_witness : exists s', run_events None true (session_new empty_store) [StatusIn 0; AnswerDone 0] = Some s' /\
  connection_dead s' = false /\ step None true s' (CmdPush 1 10000) = None.
Proof.
  destruct (status_probe_retires None (session_new empty_store) 0 eq_refl eq_refl eq_refl) as (s' & Hr & _ & _ & Hd & Hno).
  exists s'. split_and!; [done|done|]. by destruct (Hno [] s' 1%nat 10000 eq_refl).
Defined.
End SessionWitness.
