(* ===== verification/SessionPool.v ===== *)
(** * The pool of upload sessions ([src/src/client.rs], [SessionEntry] and [SessionPool])

    What an upload knows about each peer it holds a session with (strikes, the window in
    which it is skipped, its storage radius, its latency, the pushes in flight), the
    operations on that knowledge, the order in which the peers are tried for a chunk,
    and the order in which a pool is filled.

    A session is a number; whether its driver still runs is [alive], the environment's.
    The clock, the answers of the network and nectar's proximity are parameters. *)
From Stdlib Require Import ZArith Lia.
From stdpp Require Import base tactics numbers countable strings list gmap sorting.
From S2P Require Import Prelude Codec Signer Session Protocols Peers Retrieval.
Local Open Scope Z_scope.
Local Open Scope hov_scope.

Definition DEAD_SKIP_SECS : Z := 15.
Definition DEAD_STRIKES : Z := 3.
Definition IN_FLIGHT_CAP : Z := 4.
Definition SESSION_DIAL_PARALLELISM : nat := 128.
Definition GHOST_BALANCE_PREWARM_NUMERATOR : Z := 1.
Definition GHOST_BALANCE_PREWARM_DENOMINATOR : Z := 2.
Definition PREWARM_GHOST_BALANCE_PLUR : Z := GHOST_BALANCE_LIMIT_PLUR * GHOST_BALANCE_PREWARM_NUMERATOR / GHOST_BALANCE_PREWARM_DENOMINATOR.

(** [enum PushOutcome] and [fn is_connection_dead]. *)
Inductive PushOutcome := OReceipt (r : PushsyncReceipt) | OOverdraft | OShallow (r : PushsyncReceipt).
Definition connection_dead (e : TransportError) : bool :=
  match e with ConnectionClosed | StreamControl _ | TxFraming _ | TxPushsyncFrame _ => true | _ => false end.

(** [struct SessionEntry]. *)
Record SessionEntry := mkEntry {
  se_overlay : bytes; overlay_hex : str; se_underlay : str; session : nat; pending : option nat; prewarm_inflight : bool;
  failure_strikes : Z; skip_until_unix : Z; se_radius : Z; push_latency_ewma_us : Z; push_success_count : Z; inflight_pushes : Z }.

Definition with_session (e : SessionEntry) (s : nat) (p : option nat) : SessionEntry :=
  mkEntry (se_overlay e) (overlay_hex e) (se_underlay e) s p (prewarm_inflight e) (failure_strikes e) (skip_until_unix e) (se_radius e)
    (push_latency_ewma_us e) (push_success_count e) (inflight_pushes e).
Definition with_health (e : SessionEntry) (strikes skip : Z) : SessionEntry :=
  mkEntry (se_overlay e) (overlay_hex e) (se_underlay e) (session e) (pending e) (prewarm_inflight e) strikes skip (se_radius e)
    (push_latency_ewma_us e) (push_success_count e) (inflight_pushes e).
Definition with_seen (e : SessionEntry) (radius ewma successes : Z) : SessionEntry :=
  mkEntry (se_overlay e) (overlay_hex e) (se_underlay e) (session e) (pending e) (prewarm_inflight e) (failure_strikes e) (skip_until_unix e)
    radius ewma successes (inflight_pushes e).

Definition with_prewarm (e : SessionEntry) (b : bool) : SessionEntry :=
  mkEntry (se_overlay e) (overlay_hex e) (se_underlay e) (session e) (pending e) b (failure_strikes e) (skip_until_unix e) (se_radius e)
    (push_latency_ewma_us e) (push_success_count e) (inflight_pushes e).
Definition with_inflight (e : SessionEntry) (n : Z) : SessionEntry :=
  mkEntry (se_overlay e) (overlay_hex e) (se_underlay e) (session e) (pending e) (prewarm_inflight e) (failure_strikes e) (skip_until_unix e) (se_radius e)
    (push_latency_ewma_us e) (push_success_count e) n.

(** A fresh entry, as the fill of the pool makes it. *)
Definition entry_new (overlay : bytes) (hex underlay : str) (s : nat) : SessionEntry := mkEntry overlay hex underlay s None false 0 0 0 0 0 0.

Definition replace (e : SessionEntry) (s : nat) : SessionEntry := with_session e s (pending e).
Definition take_pending (e : SessionEntry) : SessionEntry * option nat := (with_session e (session e) None, pending e).
Definition has_pending (e : SessionEntry) : bool := match pending e with Some _ => true | None => false end.
Definition store_pending (e : SessionEntry) (s : nat) : SessionEntry := with_session e (session e) (Some s).
Definition is_dead (e : SessionEntry) (now : Z) : bool := now <? skip_until_unix e.
Definition clear_strikes (e : SessionEntry) : SessionEntry := with_health e 0 (skip_until_unix e).
Definition mark_dead (e : SessionEntry) (now secs : Z) : SessionEntry * bool :=
  (with_health e (failure_strikes e) (sat_add U64_MAX now secs), skip_until_unix e <=? now).
Definition record_failure (e : SessionEntry) (now secs : Z) : SessionEntry * bool :=
  let e := with_health e (wrap 32 (failure_strikes e + 1)) (skip_until_unix e) in
  if DEAD_STRIKES <=? failure_strikes e then mark_dead e now secs else (e, false).
Definition observe_storage_radius (e : SessionEntry) (value : Z) : SessionEntry :=
  if se_radius e <? value then with_seen e value (push_latency_ewma_us e) (push_success_count e) else e.
Definition observe_push_latency (e : SessionEntry) (observed_us : Z) : SessionEntry :=
  let prev := push_latency_ewma_us e in
  with_seen e (se_radius e) (if prev =? 0 then observed_us else sat_add U64_MAX (Z.min (prev * 3) U64_MAX) observed_us / 4) (push_success_count e).
Definition latency_penalty (e : SessionEntry) : Z :=
  let us := push_latency_ewma_us e in
  if us =? 0 then 0 else if us <? 500000 then 0 else if us <? 1500000 then 1 else if us <? 3000000 then 3 else 6.
Definition inflight_cap (e : SessionEntry) : Z :=
  let us := push_latency_ewma_us e in
  if us =? 0 then IN_FLIGHT_CAP else if us <? 200000 then IN_FLIGHT_CAP * 2 else if us <? 2000000 then IN_FLIGHT_CAP else Z.max (IN_FLIGHT_CAP / 2) 1.
Definition in_aor (e : SessionEntry) (chunk_po : Z) : option bool := if se_radius e =? 0 then None else Some (se_radius e <=? chunk_po).

(** ** Pushing on an entry: [fn try_push_with_rotation]

    [first] is the answer of the session at hand, [opened] that of a dial, [second] the
    answer of the fresh session. *)
Section Rotation.
Context `{Crypto} (recover_address_from_msg : bytes -> bytes -> option bytes) (network_id : Z).

Definition rotate (e : SessionEntry) (now : Z) (opened : result nat TransportError) (second : result PushOutcome TransportError)
    : SessionEntry * option (result PushOutcome TransportError) * result unit TransportError :=
  let '(e, p) := take_pending e in
  match (match p with Some s => Ok s | None => opened end) with
  | Ok s => (replace e s, Some second, Ok tt)
  | Err err => (match err with DialTooSoon _ => e | _ => (record_failure e now DEAD_SKIP_SECS).1 end, None, Err err)
  end.

(** What a receipt teaches about the peer, and whether it is worth anything. *)
Definition take_receipt (e : SessionEntry) (r : PushsyncReceipt) : SessionEntry * PushOutcome :=
  let storer := default (replicate 32 0) (storer_overlay recover_address_from_msg r network_id) in
  let e := if bool_decide (storer = se_overlay e) then observe_storage_radius e (Z.min (Protocols.storage_radius r) 255)
           else observe_storage_radius e (Z.min (proximity (se_overlay e) (address r) + 1) 255) in
  if is_shallow recover_address_from_msg r network_id then (e, OShallow r)
  else let e := clear_strikes e in (with_seen e (se_radius e) (push_latency_ewma_us e) (wrap 64 (push_success_count e + 1)), OReceipt r).

Definition try_push_with_rotation (e : SessionEntry) (now elapsed_us : Z) (first : result PushOutcome TransportError)
    (opened : result nat TransportError) (second : result PushOutcome TransportError) : SessionEntry * result PushOutcome TransportError :=
  let '(e, res, stop) :=
    match first with
    | Ok out => (e, first, Ok tt)
    | Err err => if connection_dead err then match rotate e now opened second with (e, Some res, stop) => (e, res, stop) | (e, None, stop) => (e, first, stop) end
                 else (e, first, Ok tt)
    end in
  match stop with
  | Err err => (e, Err err)
  | Ok _ =>
      let sample_us := match res with Ok _ => elapsed_us | Err (DialTooSoon _) => 0 | Err _ => Z.max elapsed_us 5000000 end in
      let e := if 0 <? sample_us then observe_push_latency e sample_us else e in
      match res with
      | Ok (OReceipt r) => let '(e, out) := take_receipt e r in (e, Ok out)
      | _ => (e, res)
      end
  end.
End Rotation.

(** ** Replacing a session ahead of time

    The closure [maybe_prewarm] of an upload, with the ghost balance of the session, and
    what the completion of the dial does.  The answer says whether a dial starts. *)
Definition maybe_prewarm (alive : nat -> bool) (now ghost : Z) (e : SessionEntry) : SessionEntry * bool :=
  if is_dead e now then (e, false)
  else
    let dead_trigger_ok := negb (alive (session e)) && (failure_strikes e =? 0) in
    let trigger := (PREWARM_GHOST_BALANCE_PLUR <=? ghost) || dead_trigger_ok in
    if trigger && negb (prewarm_inflight e) then (with_prewarm e true, true) else (e, false).
Definition prewarm_done (now : Z) (e : SessionEntry) (res : result nat TransportError) : SessionEntry :=
  let e := with_prewarm e false in
  match res with
  | Ok s => store_pending (clear_strikes e) s
  | Err (DialTooSoon _) => e
  | Err _ => (record_failure e now DEAD_SKIP_SECS).1
  end.
(** The guard of an attempt counts the push while it runs. *)
Definition guard_enter (e : SessionEntry) : SessionEntry := with_inflight e (wrap 32 (inflight_pushes e + 1)).
Definition guard_drop (e : SessionEntry) : SessionEntry := with_inflight e (wrap 32 (inflight_pushes e - 1)).

(** ** The pool *)

Abbreviation SessionPool := (list SessionEntry).
Section Pool.
Context (alive : nat -> bool) (now : Z).

Definition usable (e : SessionEntry) : bool := negb (is_dead e now) && alive (session e).
Definition live_count (pool : SessionPool) : nat := length (List.filter usable pool).
Definition entry_overlays (pool : SessionPool) : gset str := list_to_set (map (fun e => to_ascii_lowercase (overlay_hex e)) pool).
Definition prune_dead (pool : SessionPool) : SessionPool * nat :=
  let kept := List.filter usable pool in (kept, (length pool - length kept)%nat).
Definition top_peers_by_success (pool : SessionPool) (limit : nat) : list (str * Z) :=
  let stats := List.filter (fun s => 0 <? s.2) (map (fun e => (overlay_hex e, push_success_count e)) pool) in
  take limit (stable_sort (fun a b => b.2 <=? a.2) stats).

(** The closure [build_order] of a dispatch: who may be asked for a chunk, by reason of
    exclusion, and in which order. *)
Context (cooldown : str -> bool) (swarm_proximity : bytes -> bytes -> Z).

Inductive Verdict := Eligible | FilteredDead | FilteredCap | FilteredCooldown.
Global Instance verdict_eq : EqDecision Verdict.
Proof. solve_decision. Defined.
Definition judge (e : SessionEntry) : Verdict :=
  if is_dead e now then FilteredDead
  else if inflight_cap e <=? inflight_pushes e then FilteredCap
  else if alive (session e) then Eligible
  else if has_pending e then Eligible
  else if cooldown (se_underlay e) then FilteredCooldown else Eligible.

Definition aor (e : SessionEntry) (po : Z) : Z := match in_aor e po with Some true => 0 | None => 1 | Some false => 2 end.
(** [sort_by]: the bucket, then the proximity from near to far. *)
Definition before (chunk_addr : bytes) (a b : SessionEntry) : bool :=
  let pa := swarm_proximity chunk_addr (se_overlay a) in
  let pb := swarm_proximity chunk_addr (se_overlay b) in
  (aor a pa <? aor b pb) || ((aor a pa =? aor b pb) && (pb <=? pa)).
Definition entry_at (pool : SessionPool) (i : nat) : SessionEntry := default (entry_new [] [] [] 0) (pool !! i).
Definition build_order (chunk_addr : bytes) (pool : SessionPool) : list nat :=
  stable_sort (fun i j => before chunk_addr (entry_at pool i) (entry_at pool j))
    (List.filter (fun i => bool_decide (judge (entry_at pool i) = Eligible)) (seq 0 (length pool))).
Definition filtered (v : Verdict) (pool : SessionPool) : nat := length (List.filter (fun e => bool_decide (judge e = v)) pool).
End Pool.

(** ** Filling the pool *)

Record Candidate := mkCandidate { cd_overlay : bytes; cd_hex : str; cd_underlay : str; cd_rank : Z; cd_rtt : Z }.

Global Instance candidate_eq : EqDecision Candidate.
Proof. solve_decision. Defined.

(** [fn spread_across_address_space]: one bucket per leading byte, the best of each
    last, popped in turn. *)
Definition bucket_le (a b : Candidate) : bool := (cd_rank b <? cd_rank a) || ((cd_rank a =? cd_rank b) && (cd_rtt b <=? cd_rtt a)).
Definition bucket (peers : list Candidate) (b : nat) : list Candidate :=
  stable_sort bucket_le (List.filter (fun p => Z.to_nat (cd_overlay p !!! 0%nat) =? b)%nat peers).
(** One pass over the buckets. *)
Fixpoint pop_round (buckets : list (list Candidate)) (nonempty : nat) : list Candidate * list (list Candidate) * nat :=
  match buckets with
  | [] => ([], [], nonempty)
  | b :: rest =>
      match last b with
      | None => let '(out, rest, n) := pop_round rest nonempty in (out, b :: rest, n)
      | Some p =>
          let b := removelast b in
          let nonempty := match b with [] => (nonempty - 1)%nat | _ => nonempty end in
          let '(out, rest, n) := pop_round rest nonempty in (p :: out, b :: rest, n)
      end
  end.
Fixpoint spread_loop (fuel nonempty : nat) (buckets : list (list Candidate)) (out : list Candidate) : list Candidate :=
  match fuel, nonempty with
  | S fuel, S _ => let '(popped, buckets, nonempty) := pop_round buckets nonempty in spread_loop fuel nonempty buckets (out ++ popped)
  | _, _ => out
  end.
Definition nonempty_count (buckets : list (list Candidate)) : nat := length (List.filter (fun b => negb (bool_decide (b = []))) buckets).
Definition spread_across_address_space (peers : list Candidate) : list Candidate :=
  let buckets := map (bucket peers) (seq 0 256) in
  spread_loop (length peers) (nonempty_count buckets) buckets [].

(** The dial order of [fn open_session_pool_into]: by rank, the fastest first among the
    known-good, the spread order otherwise. *)
Definition dial_le (a b : Candidate) : bool := (cd_rank a <? cd_rank b) || ((cd_rank a =? cd_rank b) && (negb (cd_rank a =? 0) || (cd_rtt a <=? cd_rtt b))).
Definition dial_order (peers : list Candidate) : list Candidate := stable_sort dial_le (spread_across_address_space peers).

(** ** The spread is a round robin over the bins *)

(** The best candidate left in every bin after [k] passes. *)
Definition tier (buckets : list (list Candidate)) (k : nat) : list Candidate := omap (fun b => rev b !! k) buckets.

Lemma removelast_rev {A} (b : list A) : rev (removelast b) = tail (rev b).
Proof.
  destruct b as [|x b] using rev_ind; [done|]. by rewrite removelast_last, rev_app_distr.
Qed.

Lemma tier_removelast buckets k : tier (map (@removelast Candidate) buckets) k = tier buckets (S k).
Proof.
  unfold tier. induction buckets as [|b bs IH]; [done|]. cbn. rewrite removelast_rev. destruct (rev b) as [|x r] eqn:E; cbn; [done|]. by rewrite IH.
Qed.

Lemma last_rev {A} (b : list A) : last b = rev b !! 0%nat.
Proof. destruct b as [|x b] using rev_ind; [done|]. by rewrite last_snoc, rev_app_distr. Qed.

Lemma pop_round_spec buckets n : (nonempty_count buckets <= n)%nat ->
  pop_round buckets n = (tier buckets 0, map (@removelast Candidate) buckets, (n + nonempty_count (map (@removelast Candidate) buckets) - nonempty_count buckets)%nat).
Proof.
  revert n. unfold nonempty_count, tier. induction buckets as [|b bs IH]; intros n Hn; [cbn; f_equal; lia|]. cbn [pop_round map omap list_omap List.filter].
  rewrite last_rev. destruct b as [|x b] using rev_ind.
  - cbn [rev lookup list_lookup]. cbn in Hn. rewrite (IH n Hn). done.
  - clear IHb. rewrite rev_app_distr, removelast_last. cbn [rev app lookup list_lookup].
    assert (Hne : negb (bool_decide (b ++ [x] = [])) = true) by (rewrite bool_decide_false; [done|]; by destruct b).
    cbn [List.filter] in Hn. rewrite Hne in Hn |- *. cbn [length] in Hn.
    destruct b as [|y b]; cbn [negb List.filter].
    + rewrite bool_decide_true by done. cbn [negb]. rewrite IH by lia. f_equal. cbn [length]. lia.
    + rewrite bool_decide_false by done. cbn [negb length]. rewrite IH by lia. f_equal. lia.
Qed.

Lemma nonempty_removelast buckets : (nonempty_count (map (@removelast Candidate) buckets) <= nonempty_count buckets)%nat.
Proof.
  unfold nonempty_count. induction buckets as [|b bs IH]; [done|]. cbn [map List.filter].
  destruct b as [|x b]; [done|]. rewrite (bool_decide_false (x :: b = [])) by done. cbn [negb length].
  destruct (negb _); cbn [length]; lia.
Qed.

Lemma tier_empty buckets k : nonempty_count buckets = 0%nat -> tier buckets k = [].
Proof.
  unfold nonempty_count, tier. induction buckets as [|b bs IH]; [done|]. cbn [List.filter omap list_omap].
  destruct b as [|x b]; [|rewrite bool_decide_false by done; done]. cbn. apply IH.
Qed.

Lemma spread_loop_spec fuel : forall buckets out, 
  spread_loop fuel (nonempty_count buckets) buckets out = out ++ concat (map (tier buckets) (seq 0 fuel)).
Proof.
  induction fuel as [|fuel IH]; intros buckets out; [by rewrite app_nil_r|]. cbn [spread_loop].
  assert (Hrest : concat (map (tier buckets) (seq 0 (S fuel))) = tier buckets 0 ++ concat (map (tier (map (@removelast Candidate) buckets)) (seq 0 fuel))).
  { cbn [seq map concat]. f_equal. f_equal. rewrite <- seq_shift, map_map. apply map_ext. intros k. by rewrite tier_removelast. }
  destruct (nonempty_count buckets) as [|n] eqn:En.
  - rewrite (proj2 (concat_nil_Forall _)); [by rewrite app_nil_r|]. apply Forall_map, Forall_true. intros k. by apply tier_empty.
  - rewrite <- En, (pop_round_spec buckets) by done. replace (_ + _ - _)%nat with (nonempty_count (map (@removelast Candidate) buckets)) by (pose proof (nonempty_removelast buckets); lia).
    by rewrite IH, Hrest, app_assoc.
Qed.

Lemma tier_perm buckets : tier buckets 0 ++ concat (map (@removelast Candidate) buckets) ≡ₚ concat buckets.
Proof.
  unfold tier. induction buckets as [|b bs IH]; [done|]. cbn [omap list_omap map concat].
  destruct b as [|x b] using rev_ind; [done|]. clear IHb. rewrite rev_app_distr, removelast_last. cbn [rev app lookup list_lookup].
  rewrite <- IH, <- app_assoc. cbn. rewrite <- Permutation_middle. constructor. rewrite !app_assoc. apply Permutation_app_tail, Permutation_app_comm.
Qed.

Lemma tiers_perm fuel : forall buckets, Forall (fun b => length b <= fuel)%nat buckets -> concat (map (tier buckets) (seq 0 fuel)) ≡ₚ concat buckets.
Proof.
  induction fuel as [|fuel IH]; intros buckets Hb.
  - symmetry. rewrite (proj2 (concat_nil_Forall _)); [done|]. eapply Forall_impl; [exact Hb|]. intros b Hl. apply nil_length_inv. cbn in Hl. lia.
  - cbn [seq map concat]. rewrite <- seq_shift, map_map. rewrite (map_ext _ (tier (map (@removelast Candidate) buckets))) by (intros k; by rewrite tier_removelast).
    rewrite IH, tier_perm; [done|]. apply Forall_map. eapply Forall_impl; [exact Hb|]. intros b Hl. cbn.
    destruct b as [|x b] using rev_ind; [cbn; lia|]. rewrite removelast_last. rewrite length_app in Hl. cbn in Hl. lia.
Qed.

(** Binning a list keeps its elements. *)
Lemma bins_perm {A} (key : A -> nat) (xs : list A) bins : NoDup bins -> Forall (fun x => key x ∈ bins) xs ->
  concat (map (fun b => List.filter (fun x => key x =? b)%nat xs) bins) ≡ₚ xs.
Proof.
  intros Hnd. induction xs as [|x xs IH]; intros Hx.
  - rewrite (proj2 (concat_nil_Forall _)); [done|]. by apply Forall_map, Forall_true.
  - apply Forall_cons in Hx as [Hk Hx]. trans (x :: concat (map (fun b => List.filter (fun x => key x =? b)%nat xs) bins)); [|by rewrite (IH Hx)]. clear IH Hx. induction Hnd as [|b bins Hb _ IHb]; [by apply not_elem_of_nil in Hk|].
    cbn [map concat List.filter]. destruct (Nat.eqb_spec (key x) b) as [->|Hne].
    + cbn [app]. constructor. apply Permutation_app_head. apply Permutation_refl'. f_equal. apply map_ext_in. intros b' Hb'. cbn [List.filter].
      destruct (Nat.eqb_spec b b') as [->|]; [|done]. destruct Hb. by apply list_elem_of_In.
    + apply elem_of_cons in Hk as [Hk|Hk]; [done|]. rewrite (IHb Hk). symmetry. apply Permutation_middle.
Qed.

Lemma filter_length_le {A} (f : A -> bool) l : (length (List.filter f l) <= length l)%nat.
Proof. induction l as [|x l IH]; [done|]. cbn. destruct (f x); cbn; lia. Qed.

Lemma spread_bins peers bins : NoDup bins -> Forall (fun p => Z.to_nat (cd_overlay p !!! 0%nat) ∈ bins) peers ->
  concat (map (tier (map (bucket peers) bins)) (seq 0 (length peers))) ≡ₚ peers.
Proof.
  intros Hnd Hb. rewrite tiers_perm.
  - trans (concat (map (fun b => List.filter (fun p => Z.to_nat (cd_overlay p !!! 0%nat) =? b)%nat peers) bins)).
    + unfold bucket. clear Hnd Hb. induction bins as [|b bins IH]; [done|]. cbn [map concat]. by rewrite stable_sort_perm, IH.
    + by apply (bins_perm (fun p => Z.to_nat (cd_overlay p !!! 0%nat))).
  - unfold bucket. apply Forall_map, Forall_true. intros b. cbn. rewrite (Permutation_length (stable_sort_perm _ _)). apply filter_length_le.
Qed.

Lemma spread_perm peers : Forall (fun p => 0 <= cd_overlay p !!! 0%nat < 256) peers -> spread_across_address_space peers ≡ₚ peers.
Proof.
  intros Hb. unfold spread_across_address_space. cbv zeta. rewrite spread_loop_spec. apply spread_bins; [apply NoDup_seq|]. eapply Forall_impl; [exact Hb|].
  intros p. cbv beta. generalize (cd_overlay p !!! 0%nat). intros z Hz. apply elem_of_seq. lia.
Qed.

(** The spread over the address space is a round robin.  The result is the
    candidates in tiers: the best one of every bin of overlays (by rank, then by
    latency), bin by bin, then the second best of every bin that has one, and so on,
    with nobody lost or repeated. *)
Theorem spread_round_robin peers : Forall (fun p => 0 <= cd_overlay p !!! 0%nat < 256) peers ->
  spread_across_address_space peers = concat (map (tier (map (bucket peers) (seq 0 256))) (seq 0 (length peers))) /\
  spread_across_address_space peers ≡ₚ peers.
Proof.
  intros Hb. split; [|by apply spread_perm]. unfold spread_across_address_space. cbv zeta. by rewrite spread_loop_spec.
Qed.

(** ** Who is asked for a chunk *)

Section Order.
Context (alive : nat -> bool) (now : Z) (cooldown : str -> bool) (swarm_proximity : bytes -> bytes -> Z).

Lemma before_total c a b : before swarm_proximity c a b = true \/ before swarm_proximity c b a = true.
Proof. unfold before. cbv zeta. rewrite !orb_true_iff, !andb_true_iff, !Z.ltb_lt, !Z.eqb_eq, !Z.leb_le. lia. Qed.
Lemma before_trans c x y z : before swarm_proximity c x y = true -> before swarm_proximity c y z = true -> before swarm_proximity c x z = true.
Proof. unfold before. cbv zeta. rewrite !orb_true_iff, !andb_true_iff, !Z.ltb_lt, !Z.eqb_eq, !Z.leb_le. lia. Qed.

Lemma count_indices {A} (f : A -> bool) (d : A) (l : list A) : length (List.filter (fun i => f (default d (l !! i))) (seq 0 (length l))) = length (List.filter f l).
Proof.
  induction l as [|x l IH] using rev_ind; [done|]. rewrite length_app, seq_app, !List.filter_app, !length_app. cbn [length seq List.filter].
  f_equal.
  - rewrite <- IH. f_equal. apply filter_ext_in. intros i Hi. apply in_seq in Hi. by rewrite lookup_app_l by lia.
  - rewrite lookup_app_r, Nat.sub_diag by lia. cbn. by destruct (f x).
Qed.

Lemma verdicts_partition (f : SessionEntry -> Verdict) (pool : SessionPool) :
  (length (List.filter (fun e => bool_decide (f e = Eligible)) pool) + length (List.filter (fun e => bool_decide (f e = FilteredDead)) pool) +
   length (List.filter (fun e => bool_decide (f e = FilteredCap)) pool) + length (List.filter (fun e => bool_decide (f e = FilteredCooldown)) pool))%nat = length pool.
Proof. induction pool as [|e pool IH]; [done|]. cbn [List.filter length]. destruct (f e); repeat case_bool_decide; try done; cbn [length]; lia. Qed.

(** Whom a chunk may be pushed to.  The order lists exactly the entries that are
    not parked, under their cap of pushes in flight and with a session that is live,
    replaced or free to be dialled, each once; the ones known to store the chunk come
    first, then the unknown, then those known to only forward it, nearest first within
    each; and with the three counts of the excluded it accounts for the whole pool. *)
Theorem dispatch_order chunk_addr pool : let order := build_order alive now cooldown swarm_proximity chunk_addr pool in
  (forall i, i ∈ order <-> (i < length pool)%nat /\ judge alive now cooldown (entry_at pool i) = Eligible) /\
  NoDup order /\ StronglySorted (fun i j => before swarm_proximity chunk_addr (entry_at pool i) (entry_at pool j) = true) order /\
  (length order + filtered alive now cooldown FilteredDead pool + filtered alive now cooldown FilteredCap pool +
   filtered alive now cooldown FilteredCooldown pool)%nat = length pool.
Proof.
  cbv zeta. unfold build_order. set (el := List.filter _ _). split_and!.
  - intros i. rewrite stable_sort_perm, list_elem_of_In. unfold el. rewrite filter_In, in_seq, bool_decide_eq_true. split; [intros [? ?]; split; [lia|done]|intros [? ?]; split; [lia|done]].
  - rewrite stable_sort_perm. apply (sublist_NoDup _ (seq 0 (length pool))); [apply NoDup_seq|]. apply filter_sublist.
  - apply stable_sort_sorted; intros; [apply before_total|by eapply before_trans].
  - rewrite (Permutation_length (stable_sort_perm _ _)). unfold el, filtered, entry_at.
    pose proof (verdicts_partition (judge alive now cooldown) pool) as Hp.
    rewrite <- (count_indices (fun e => bool_decide (judge alive now cooldown e = Eligible)) (entry_new [] [] [] 0) pool) in Hp. exact Hp.
Qed.
End Order.

(** ** Strikes, latency and receipts *)

Definition fail_at (e : SessionEntry) (now : Z) : SessionEntry := (record_failure e now DEAD_SKIP_SECS).1.

(** A peer is parked by its third failure in a row and no sooner, for fifteen
    seconds from that failure; every later failure parks it again at once, until a
    receipt from inside the neighbourhood clears its strikes. *)
Theorem three_strikes e n now : failure_strikes e = 0 -> 0 <= skip_until_unix e <= now -> 0 <= now -> now + DEAD_SKIP_SECS <= U64_MAX -> Z.of_nat n < 2 ^ 32 ->
  let e' := Nat.iter n (fun e => fail_at e now) e in
  failure_strikes e' = Z.of_nat n /\ (is_dead e' now = true <-> (3 <= n)%nat) /\
  is_dead e' (now + DEAD_SKIP_SECS) = false /\
  (forall `{Crypto} rec net r, is_shallow rec r net = false -> failure_strikes (take_receipt rec net e' r).1 = 0).
Proof.
  intros H0 Hskip Hnow Hmax Hn. cbv zeta. set (e' := Nat.iter n _ e).
  assert (Hs : failure_strikes e' = Z.of_nat n /\ skip_until_unix e' = if (3 <=? n)%nat then now + DEAD_SKIP_SECS else skip_until_unix e).
  { unfold e'. clear e'. induction n as [|n IH]; [done|]. rewrite Nat.iter_succ. destruct IH as [I1 I2]; [lia|]. set (e1 := Nat.iter n _ e) in *.
    unfold fail_at, record_failure. cbv zeta. cbn [with_health failure_strikes skip_until_unix]. rewrite I1. unfold wrap. rewrite Z.mod_small by lia. unfold DEAD_STRIKES.
    destruct (Z.leb_spec 3 (Z.of_nat n + 1)); cbn [fst mark_dead with_health failure_strikes skip_until_unix].
    - split; [lia|]. destruct (Nat.leb_spec 3 (S n)); [|lia]. unfold sat_add. lia.
    - split; [lia|]. rewrite I2. destruct (Nat.leb_spec 3 n), (Nat.leb_spec 3 (S n)); lia. }
  destruct Hs as [Hs1 Hs2]. split_and!; [done| | |].
  - unfold is_dead. rewrite Z.ltb_lt, Hs2. unfold DEAD_SKIP_SECS in *. destruct (Nat.leb_spec 3 n); lia.
  - unfold is_dead. apply Z.ltb_ge. rewrite Hs2. unfold DEAD_SKIP_SECS in *. destruct (Nat.leb_spec 3 n); lia.
  - intros HC rec net r Hr. unfold take_receipt. cbv zeta. rewrite Hr. done.
Qed.

(** The latency estimate is a mean: between the previous estimate and the sample, and
    the cap of pushes in flight follows it in three steps. *)
Theorem latency_estimate e us : 0 < us <= U64_MAX -> 0 <= push_latency_ewma_us e -> 4 * push_latency_ewma_us e <= U64_MAX -> 4 * us <= U64_MAX ->
  let e' := observe_push_latency e us in
  (push_latency_ewma_us e = 0 -> push_latency_ewma_us e' = us) /\
  (push_latency_ewma_us e <> 0 -> Z.min (push_latency_ewma_us e) us <= push_latency_ewma_us e' <= Z.max (push_latency_ewma_us e) us) /\
  (inflight_cap e' = 2 \/ inflight_cap e' = 4 \/ inflight_cap e' = 8).
Proof.
  intros Hus He Hb1 Hb2. cbv zeta. unfold observe_push_latency. cbv zeta. cbn [with_seen push_latency_ewma_us]. split_and!.
  - intros ->. done.
  - intros Hne. rewrite (proj2 (Z.eqb_neq _ _)) by done. replace (sat_add U64_MAX (Z.min (push_latency_ewma_us e * 3) U64_MAX) us) with (push_latency_ewma_us e * 3 + us) by sat.
    split; [apply Z.div_le_lower_bound; lia|apply Z.div_le_upper_bound; lia].
  - unfold inflight_cap, IN_FLIGHT_CAP. repeat case_match; cbn; auto.
Qed.

(** A push that counts as done has a receipt signed from inside the neighbourhood of
    the chunk: whatever sessions answer and whether or not the session had to be
    replaced, [Receipt] is only returned for a receipt one of them gave and that is not
    shallow, and a shallow one is reported as such. *)
Theorem rotation_receipts `{Crypto} rec net e now us first opened second e' r :
  try_push_with_rotation rec net e now us first opened second = (e', Ok (OReceipt r)) ->
  is_shallow rec r net = false /\ (first = Ok (OReceipt r) \/ second = Ok (OReceipt r)) /\ failure_strikes e' = 0 /\ se_overlay e' = se_overlay e.
Proof.
  unfold try_push_with_rotation.
  assert (Hrec : forall e1 r1, (let '(e2, out) := take_receipt rec net e1 r1 in (e2, Ok (E := TransportError) out)) = (e', Ok (OReceipt r)) ->
    is_shallow rec r net = false /\ r1 = r /\ failure_strikes e' = 0 /\ se_overlay e' = se_overlay e1).
  { intros e1 r1. unfold take_receipt. cbv zeta. destruct (is_shallow rec r1 net) eqn:Es; intros [= <- <-]. split_and!; try done.
    by repeat case_match; unfold observe_storage_radius; repeat case_match. }
  assert (Hlat : forall e1 x, se_overlay (if 0 <? x then observe_push_latency e1 x else e1) = se_overlay e1) by (intros; by case_match).
  destruct first as [[r0| |r0]|err].
  - intros E. apply Hrec in E as (? & -> & ? & Ho). rewrite Hlat in Ho. by auto.
  - done.
  - done.
  - destruct (connection_dead err); [|by destruct err]. unfold rotate. cbn [take_pending].
    destruct (match pending e with Some s => Ok s | None => opened end) as [s|er]; [|by destruct er].
    destruct second as [[r0| |r0]|err2]; [|done|done|by destruct err2].
    intros E. apply Hrec in E as (? & -> & ? & Ho). rewrite Hlat in Ho. by auto.
Qed.

(** ** Prewarming *)

Lemma push_keeps_flag `{Crypto} rec net e now us first opened second :
  prewarm_inflight (try_push_with_rotation rec net e now us first opened second).1 = prewarm_inflight e.
Proof.
  unfold try_push_with_rotation, rotate, take_receipt, record_failure, mark_dead, observe_storage_radius, observe_push_latency. cbv zeta.
  by repeat (case_match; simplify_eq/=).
Qed.

(** What happens to an entry while no dial of its own completes. *)
Inductive entry_step : SessionEntry -> SessionEntry -> Prop :=
| EsPush `{Crypto} e rec net now us first opened second : entry_step e (try_push_with_rotation rec net e now us first opened second).1
| EsPrewarm e alive now ghost : entry_step e (maybe_prewarm alive now ghost e).1
| EsEnter e : entry_step e (guard_enter e)
| EsDrop e : entry_step e (guard_drop e)
| EsPark e now secs : entry_step e (mark_dead e now secs).1.

Lemma flag_stays e e' : rtc entry_step e e' -> prewarm_inflight e = true -> prewarm_inflight e' = true.
Proof.
  induction 1 as [|e e1 e2 Hs _ IH]; [done|]. intros Hf. apply IH. destruct Hs as [HC e rec net now us first opened second|e alive now ghost| | |]; try done.
  - by rewrite push_keeps_flag.
  - unfold maybe_prewarm. by repeat case_match.
Qed.

(** A replacement dialled ahead of time is used: after the dial the entry has no strikes,
    and the next push that finds its session dead moves to the replacement without
    dialling, whatever a dial would have answered. *)
Theorem prewarm_swaps `{Crypto} rec net now us e s err opened opened' second : connection_dead err = true ->
  let e1 := prewarm_done now e (Ok s) in
  failure_strikes e1 = 0 /\ has_pending e1 = true /\
  try_push_with_rotation rec net e1 now us (Err err) opened second = try_push_with_rotation rec net e1 now us (Err err) opened' second /\
  session (try_push_with_rotation rec net e1 now us (Err err) opened second).1 = s.
Proof.
  intros Hd. cbv zeta. split_and!; [done|done| |]; unfold try_push_with_rotation; rewrite Hd; cbn [rotate prewarm_done take_pending store_pending with_session pending fst snd]; [done|].
  unfold rotate, take_receipt, observe_storage_radius, observe_push_latency. cbv zeta. by repeat (case_match; simplify_eq/=).
Qed.

(** A dial that is dropped is never made again.  An upload that ends does not wait
    for the dials it started ahead of time, and only their completion clears the mark
    that one is under way; so an entry left with the mark, in a pool that outlives the
    upload, gets no replacement ahead of time any more: not after any pushes, parkings
    and sweeps, not when its session is dead and not at any ghost balance. *)
Theorem prewarm_lost alive now ghost e e' : (maybe_prewarm alive now ghost e).2 = true -> rtc entry_step (maybe_prewarm alive now ghost e).1 e' ->
  forall alive' now' ghost', maybe_prewarm alive' now' ghost' e' = (e', false).
Proof.
  intros Hstart Hs alive' now' ghost'. apply flag_stays in Hs.
  - unfold maybe_prewarm. rewrite Hs, andb_false_r. by case_match.
  - revert Hstart. unfold maybe_prewarm. cbv zeta. repeat case_match; done.
Qed.

Module PoolWitness.
Definition entry : SessionEntry := entry_new (replicate 32 7) (lit "07") (lit "/ip4/1.2.3.4/tcp/1634") 0.

Lemma prewarm_lost_witness : maybe_prewarm (fun _ => false) 2 0 (guard_enter (maybe_prewarm (fun _ => false) 1 0 entry).1) = (guard_enter (maybe_prewarm (fun _ => false) 1 0 entry).1, false).
Proof. apply (prewarm_lost (fun _ => false) 1 0 entry); [reflexivity|]. apply rtc_once, EsEnter. Defined.
End PoolWitness.
