(* ===== verification/PoolFill.v ===== *)
(** * Filling the pool of sessions ([src/src/client.rs])

    The candidates of a fill ([open_session_pool_into]), the order in which a browser
    interleaves them by host, the window of dials, the maintenance of a pool
    ([SessionPool::open], [SessionPool::top_up]) and the reachability probe
    ([healthcheck_peers]).  What a dial answers and the order in which dials complete are
    the environment's; a session that opens is a number with the peer's node mode.  The
    host of an address and nectar's proximity are parameters. *)
From Stdlib Require Import ZArith Lia.
From stdpp Require Import base tactics numbers countable strings list gmap sorting.
From S2P Require Import Prelude Codec Window Peers Retrieval SessionPool.
Local Open Scope Z_scope.
Local Open Scope hov_scope.

(** ** Candidates *)

Section Candidates.
Context `{Hex} (parse_multiaddr : str -> option str) (swarm_proximity : bytes -> bytes -> Z).

Definition candidate (now : Z) (p : Peer) : option Candidate :=
  match first_dialable_underlay parse_multiaddr p with
  | None => None
  | Some underlay =>
      match overlay_bytes p with
      | None => None
      | Some o => Some (mkCandidate o (overlay p) underlay (dial_rank p now) (default U32_MAX (last_dial_rtt_ms p)))
      end
  end.

(** Every peer of the store that is not excluded and can be dialled; [closest] is called
    without a limit. *)
Definition pool_candidates (st : PeerStore) (exclude : gset str) (now : Z) : list Candidate :=
  omap (candidate now) (List.filter (fun p => negb (bool_decide (to_ascii_lowercase (overlay p) ∈ exclude)))
    (closest swarm_proximity st (replicate 32 0) (size (peers st)))).
End Candidates.

(** ** One host at a time (browsers)

    Candidates are grouped by host in order of first appearance and taken from the
    groups in turn. *)
Section Interleave.
Context (host_key : str -> str).

Fixpoint group_push (groups : list (str * list Candidate)) (key : str) (c : Candidate) : list (str * list Candidate) :=
  match groups with
  | [] => [(key, [c])]
  | (k, g) :: rest => if bool_decide (k = key) then (k, g ++ [c]) :: rest else (k, g) :: group_push rest key c
  end.
Definition host_groups (cs : list Candidate) : list (str * list Candidate) :=
  foldl (fun groups c => group_push groups (host_key (cd_underlay c)) c) [] cs.
(** One pass: the heads, and what is left. *)
Fixpoint pop_fronts (groups : list (list Candidate)) : list Candidate * list (list Candidate) :=
  match groups with
  | [] => ([], [])
  | g :: rest =>
      let '(taken, rest) := pop_fronts rest in
      match g with [] => (taken, [] :: rest) | c :: g => (c :: taken, g :: rest) end
  end.
Fixpoint drain_groups (fuel : nat) (groups : list (list Candidate)) : list Candidate :=
  match fuel with
  | O => []
  | S fuel => match pop_fronts groups with ([], _) => [] | (taken, groups) => taken ++ drain_groups fuel groups end
  end.
Definition interleave_hosts (cs : list Candidate) : list Candidate := drain_groups (S (length cs)) (map snd (host_groups cs)).
End Interleave.

(** [HOVERFLY_CONNECTIONS_PER_PEER] rounds over the candidates. *)
Definition expand (conn_per_peer : nat) (cs : list Candidate) : list Candidate :=
  if Nat.ltb 1 conn_per_peer then concat (replicate conn_per_peer cs) else cs.

(** ** The window of dials *)

Record Fill := mkFill { fill_pool : SessionPool; added : nat; dial_log : gmap str DialResult }.
(** What a dial answers: the session and the node mode of the peer, or an error; with
    the time it took. *)
Definition Dialled : Type := result (nat * bool) TransportError * Z.

Definition fill_handle (max_sessions : nat) (s : Fill) (c : Candidate) (r : Dialled) : Fill * bool :=
  let '(res, rtt_ms) := r in
  let key := to_ascii_lowercase (cd_hex c) in
  match res with
  | Ok (n, full_node) =>
      let s := mkFill (fill_pool s ++ [entry_new (cd_overlay c) (cd_hex c) (cd_underlay c) n]) (S (added s))
                 (<[key := Success rtt_ms (Some full_node)]> (dial_log s)) in
      (s, Nat.leb max_sessions (added s))
  | Err _ => (mkFill (fill_pool s) (added s) (<[key := Failure]> (dial_log s)), false)
  end.

Definition dial_width (cs : list Candidate) : nat := Nat.min SESSION_DIAL_PARALLELISM (Nat.max (length cs) 1).

(** [fn open_session_pool_into]: the empty list is an error, otherwise the loop runs. *)
Definition fill_reaches (max_sessions : nat) (cs : list Candidate) (pool : SessionPool) (log : gmap str DialResult) (hist : list (Candidate * Dialled)) (w : Win) : Prop :=
  win_reaches (fill_handle max_sessions) (dial_width cs) cs (mkFill pool 0 log) hist w.
Definition fill_runs (max_sessions : nat) (cs : list Candidate) (pool : SessionPool) (log : gmap str DialResult) (hist : list (Candidate * Dialled)) (s : Fill) : Prop :=
  exists w, fill_reaches max_sessions cs pool log hist w /\ win_over w = true /\ acc w = s.

Inductive FillError := PeerlistEmpty | NoReachablePeers.
Definition open_session_pool_into (max_sessions : nat) (cs : list Candidate) (pool : SessionPool) (log : gmap str DialResult)
    (hist : list (Candidate * Dialled)) (out : Fill * result nat FillError) : Prop :=
  match cs with
  | [] => hist = [] /\ out = (mkFill pool 0 log, Err PeerlistEmpty)
  | _ => exists s, fill_runs max_sessions cs pool log hist s /\ out = (s, Ok (added s))
  end.

(** [SessionPool::open]: a pool of at least one session, or an error. *)
Definition pool_open (target_size : nat) (cs : list Candidate) (log : gmap str DialResult) (hist : list (Candidate * Dialled))
    (out : gmap str DialResult * result SessionPool FillError) : Prop :=
  exists s r, open_session_pool_into target_size cs [] log hist (s, r) /\
    out = (dial_log s, match r with Err e => Err e | Ok _ => match fill_pool s with [] => Err NoReachablePeers | p => Ok p end end).

(** [SessionPool::top_up], with the candidates it computes from what the pool holds. *)
Definition top_up (cands : gset str -> list Candidate) (target_size : nat) (pool : SessionPool) (log : gmap str DialResult)
    (hist : list (Candidate * Dialled)) (out : SessionPool * gmap str DialResult * nat) : Prop :=
  if Nat.leb target_size (length pool) then hist = [] /\ out = (pool, log, 0%nat)
  else exists s r, open_session_pool_into (target_size - length pool) (cands (entry_overlays pool)) pool log hist (s, r) /\
         out = (fill_pool s, dial_log s, match r with Ok n => n | Err _ => 0%nat end).

(** ** The reachability probe *)

Definition probe_handle (s : nat * gmap str DialResult) (c : str * str) (r : option bool * Z) : nat * gmap str DialResult * bool :=
  let '(reached, log) := s in
  let key := to_ascii_lowercase c.1 in
  match r with
  | (Some full_node, rtt_ms) => (S reached, <[key := Success rtt_ms (Some full_node)]> log, false)
  | (None, _) => (reached, <[key := Failure]> log, false)
  end.
Definition probe_candidates `{Hex} (parse_multiaddr : str -> option str) (swarm_proximity : bytes -> bytes -> Z) (st : PeerStore) : list (str * str) :=
  omap (fun p => match first_dialable_underlay parse_multiaddr p with Some u => Some (overlay p, u) | None => None end)
    (closest swarm_proximity st (replicate 32 0) (size (peers st))).
Definition healthcheck_peers (concurrency : nat) (cs : list (str * str)) (log : gmap str DialResult) (hist : list (str * str * (option bool * Z)))
    (out : nat * gmap str DialResult) : Prop :=
  exists w, win_reaches probe_handle (Nat.max concurrency 1) cs (0%nat, log) hist w /\ win_over w = true /\ acc w = out.

(** ** The interleaving loses nobody *)

Lemma pop_fronts_spec groups : pop_fronts groups = (tier (map (@rev Candidate) groups) 0, map (@tail Candidate) groups).
Proof.
  unfold tier. induction groups as [|g gs IH]; [done|]. cbn [pop_fronts map omap list_omap]. rewrite IH, rev_involutive. by destruct g.
Qed.

Lemma tier_tails groups k : tier (map (@rev Candidate) (map (@tail Candidate) groups)) k = tier (map (@rev Candidate) groups) (S k).
Proof.
  unfold tier. induction groups as [|g gs IH]; [done|]. cbn [map omap list_omap]. rewrite !rev_involutive. destruct g as [|c g]; cbn; [done|]. by rewrite IH.
Qed.

Lemma tier_nil_above groups : tier (map (@rev Candidate) groups) 0 = [] -> Forall (fun g => g = []) groups.
Proof.
  unfold tier. induction groups as [|g gs IH]; [done|]. cbn [map omap list_omap]. rewrite rev_involutive. destruct g; [|done]. cbn. intros E. constructor; [done|by apply IH].
Qed.

Lemma drain_groups_tiers fuel : forall groups, drain_groups fuel groups = concat (map (tier (map (@rev Candidate) groups)) (seq 0 fuel)).
Proof.
  induction fuel as [|fuel IH]; intros groups; [done|]. cbn [drain_groups seq map concat]. rewrite pop_fronts_spec, <- seq_shift, map_map.
  rewrite (map_ext _ (tier (map (@rev Candidate) (map (@tail Candidate) groups)))) by (intros k; by rewrite tier_tails).
  destruct (tier (map (@rev Candidate) groups) 0) as [|c t] eqn:E; [|by rewrite IH]. symmetry. apply concat_nil_Forall, Forall_map, Forall_true. intros k. cbn.
  apply tier_nil_above in E. clear -E. unfold tier. induction E as [|g gs -> _ IHg]; [done|]. cbn. apply IHg.
Qed.

Lemma group_push_perm groups key c : concat (map snd (group_push groups key c)) ≡ₚ c :: concat (map snd groups).
Proof.
  induction groups as [|[k g] gs IH]; [done|]. cbn [group_push]. case_bool_decide; cbn [map snd concat].
  - rewrite <- app_assoc. cbn. symmetry. apply Permutation_middle.
  - rewrite IH. symmetry. apply Permutation_middle.
Qed.

Lemma host_groups_perm host_key cs : concat (map snd (host_groups host_key cs)) ≡ₚ cs.
Proof.
  unfold host_groups. assert (E : forall groups, concat (map snd (foldl (fun groups c => group_push groups (host_key (cd_underlay c)) c) groups cs)) ≡ₚ concat (map snd groups) ++ cs).
  { induction cs as [|c cs IH]; intros groups; cbn [foldl]; [by rewrite app_nil_r|]. rewrite IH, group_push_perm. cbn. apply Permutation_middle. }
  by rewrite E.
Qed.

(** The interleaving is a permutation taken in passes: the first candidate of every
    host, then the second of every host that has one, and so on. *)
Theorem interleave_passes host_key cs :
  interleave_hosts host_key cs = concat (map (tier (map (fun g => rev g.2) (host_groups host_key cs))) (seq 0 (S (length cs)))) /\
  interleave_hosts host_key cs ≡ₚ cs.
Proof.
  unfold interleave_hosts. rewrite drain_groups_tiers, map_map. split; [done|]. rewrite tiers_perm.
  - trans (concat (map snd (host_groups host_key cs))); [|by apply host_groups_perm].
    induction (host_groups host_key cs) as [|g gs IH]; [done|]. cbn [map concat]. rewrite IH. by rewrite <- Permutation_rev.
  - apply Forall_map, Forall_forall. intros g Hg. rewrite length_rev. pose proof (Permutation_length (host_groups_perm host_key cs)) as Hl. rewrite <- Hl. clear Hl.
    induction (host_groups host_key cs) as [|g' gs IH]; [by apply not_elem_of_nil in Hg|]. cbn [map concat]. rewrite length_app. apply elem_of_cons in Hg as [->|Hg]; [lia|]. specialize (IH Hg). lia.
Qed.

(** ** What a fill leaves *)

Definition new_entry (cr : Candidate * Dialled) : option SessionEntry :=
  match cr.2.1 with Ok (n, _) => Some (entry_new (cd_overlay cr.1) (cd_hex cr.1) (cd_underlay cr.1) n) | Err _ => None end.
Definition log_entry (log : gmap str DialResult) (cr : Candidate * Dialled) : gmap str DialResult :=
  <[to_ascii_lowercase (cd_hex cr.1) := match cr.2.1 with Ok (_, fn) => Success cr.2.2 (Some fn) | Err _ => Failure end]> log.

Lemma fill_fold max_sessions hist : forall s, win_fold (fill_handle max_sessions) s hist =
  mkFill (fill_pool s ++ omap new_entry hist) (added s + length (omap new_entry hist)) (foldl log_entry (dial_log s) hist).
Proof.
  unfold win_fold. induction hist as [|[c [[[n fn]|e] rtt]] hist IH]; intros s; cbn [foldl].
  - destruct s. cbn. rewrite app_nil_r. f_equal. lia.
  - rewrite IH. cbn [fill_handle fst snd fill_pool added dial_log omap list_omap new_entry length]. rewrite <- app_assoc. cbn. f_equal; lia.
  - rewrite IH. cbn. done.
Qed.

Lemma fill_stops max_sessions s hist : (forall p ar' q, hist = p ++ ar' :: q -> (fill_handle max_sessions (win_fold (fill_handle max_sessions) s p) ar'.1 ar'.2).2 = false) ->
  added s = 0%nat -> length (omap new_entry hist) = 0%nat \/ (length (omap new_entry hist) < max_sessions)%nat.
Proof.
  intros Hno Hs. induction hist as [|[c [r rtt]] hist IH] using rev_ind; [by left|]. rewrite omap_app. cbn [omap list_omap].
  assert (Hprev : length (omap new_entry hist) = 0%nat \/ (length (omap new_entry hist) < max_sessions)%nat) by (apply IH; intros p ar' q ->; apply (Hno p ar' (q ++ [(c, (r, rtt))])); by rewrite <- app_assoc).
  specialize (Hno hist (c, (r, rtt)) [] eq_refl). rewrite fill_fold in Hno. cbn [fst snd fill_handle added] in Hno. destruct r as [[n fn]|e]; cbn [new_entry fst snd].
  - cbn [snd added] in Hno. apply Nat.leb_gt in Hno. right. rewrite length_app. cbn [length]. lia.
  - by rewrite app_nil_r.
Qed.

Lemma dial_width_pos cs : (0 < dial_width cs)%nat.
Proof. unfold dial_width, SESSION_DIAL_PARALLELISM. lia. Qed.

(** What [open_session_pool_into] leaves: the sessions it opened appended to the pool,
    one per dial that answered, its count of them, at most what was asked for (one if
    nothing was asked for), no candidate dialled more often than it is listed, and
    fewer sessions than asked for only when every candidate was dialled. *)
Lemma fill_outcome max_sessions cs pool log hist s n : open_session_pool_into max_sessions cs pool log hist (s, Ok n) ->
  fill_pool s = pool ++ omap new_entry hist /\ n = length (omap new_entry hist) /\ dial_log s = foldl log_entry log hist /\
  (n <= Nat.max max_sessions 1)%nat /\ (exists rest, map fst hist ++ rest ≡ₚ cs) /\ ((n < max_sessions)%nat -> map fst hist ≡ₚ cs).
Proof.
  unfold open_session_pool_into. destruct cs as [|c0 cs0] eqn:Ecs; [by intros [_ ?]|]. rewrite <- Ecs. clear Ecs.
  intros (s' & (w & Hw & Hover & Hacc) & E). simplify_eq. pose proof (win_reaches_inv _ _ _ _ _ _ Hw) as [Hi _ Ha _ Hst]. rewrite Ha, fill_fold. cbn [fill_pool added dial_log].
  split_and!; [done|lia|done| |by eexists|].
  - destruct (stopped w).
    + destruct Hst as (pre & [c [r rtt]] & -> & _ & Hpre). apply fill_stops in Hpre; [|done]. rewrite omap_app, length_app. cbn [omap list_omap]. destruct (new_entry _); cbn [length]; lia.
    + apply fill_stops in Hst; [|done]. lia.
  - intros Hlt. destruct (stopped w) eqn:Est; [|by eapply win_complete; [exact Hw|apply dial_width_pos|done|done]].
    destruct Hst as (pre & [c [r rtt]] & -> & Hstop & _). rewrite fill_fold in Hstop. cbn [fst snd fill_handle added] in Hstop. destruct r as [[n fn]|e]; [|done].
    cbn [snd added] in Hstop. apply Nat.leb_le in Hstop. rewrite omap_app, length_app in Hlt. cbn in Hlt. lia.
Qed.

(** ** Maintaining a pool *)

Definition low (e : SessionEntry) : str := to_ascii_lowercase (overlay_hex e).
Definition clow (c : Candidate) : str := to_ascii_lowercase (cd_hex c).

Lemma values_distinct st : store_ok st -> NoDup (map (fun p => to_ascii_lowercase (overlay p)) (values (peers st))).
Proof.
  intros Hst. unfold values. rewrite map_map.
  assert (Hk : Forall (fun kp : str * Peer => to_ascii_lowercase (overlay kp.2) = kp.1) (stable_sort (fun a b : str * Peer => lex_le a.1 b.1) (map_to_list (peers st)))).
  { rewrite stable_sort_perm. apply Forall_forall. intros [k p] Hp. apply elem_of_map_to_list in Hp. by destruct (Hst k p Hp) as [-> _]. }
  rewrite (map_ext_in _ fst).
  - rewrite stable_sort_perm. apply NoDup_fst_map_to_list.
  - intros kp Hkp. rewrite Forall_forall in Hk. apply Hk. by apply list_elem_of_In.
Qed.

Lemma omap_names {A B C} (f : A -> option B) (g : A -> C) (h : B -> C) l : (forall a b, f a = Some b -> h b = g a) -> map h (omap f l) `sublist_of` map g l.
Proof.
  intros Hf. induction l as [|a l IH]; [done|]. cbn [omap list_omap map]. destruct (f a) as [b|] eqn:E; cbn [map].
  - rewrite (Hf a b E). by apply sublist_skip.
  - by apply sublist_cons.
Qed.

Section TopUp.
Context `{Hex} (parse_multiaddr : str -> option str) (swarm_proximity : bytes -> bytes -> Z) (host_key : str -> str).
(** Decoding hex yields bytes. *)
Context (decode_bytes : forall s b, hex_decode s = Ok b -> all_bytes b).

(** The dial list of a fill: by rank, interleaved by host in a browser, repeated as
    often as connections are wanted. *)
Definition dial_list (browser : bool) (conn_per_peer : nat) (st : PeerStore) (now : Z) (exclude : gset str) : list Candidate :=
  let cs := dial_order (pool_candidates parse_multiaddr swarm_proximity st exclude now) in
  expand conn_per_peer (if browser then interleave_hosts host_key cs else cs).

Lemma candidate_overlay now p c : candidate parse_multiaddr now p = Some c -> cd_hex c = overlay p /\ 0 <= cd_overlay c !!! 0%nat < 256.
Proof.
  unfold candidate, overlay_bytes. destruct (first_dialable_underlay _ _); [|done]. destruct (hex_decode _) as [b|] eqn:Eb; [|done].
  destruct (Nat.eqb_spec (length b) 32) as [E|]; [|done]. intros Hc. apply (inj Some) in Hc as <-. cbn. split; [done|]. apply decode_bytes in Eb. destruct b as [|x b]; [done|].
  apply Forall_cons in Eb as [Hx _]. cbn. unfold is_byte in Hx. lia.
Qed.

Lemma dial_order_perm cs : Forall (fun p => 0 <= cd_overlay p !!! 0%nat < 256) cs -> dial_order cs ≡ₚ cs.
Proof. intros Hc. unfold dial_order. rewrite stable_sort_perm. by apply spread_perm. Qed.

Lemma pool_candidates_ok st exclude now : store_ok st ->
  NoDup (map clow (pool_candidates parse_multiaddr swarm_proximity st exclude now)) /\
  Forall (fun c => clow c ∉ exclude /\ 0 <= cd_overlay c !!! 0%nat < 256) (pool_candidates parse_multiaddr swarm_proximity st exclude now).
Proof.
  intros Hst. unfold pool_candidates. set (cl := closest _ _ _ _). set (kept := List.filter _ cl). split.
  - apply (sublist_NoDup _ (map (fun p => to_ascii_lowercase (overlay p)) kept)).
    + apply (sublist_NoDup _ (map (fun p => to_ascii_lowercase (overlay p)) cl)); [|apply (fmap_sublist (fun p => to_ascii_lowercase (overlay p))), filter_sublist].
      destruct (closest_peers swarm_proximity (replicate 32 0) st (size (peers st))) as (rest & Hp & _). fold cl in Hp.
      assert (Hnd : NoDup (map (fun p => to_ascii_lowercase (overlay p)) (cl ++ rest))).
      { rewrite Hp. unfold addressable. eapply sublist_NoDup; [apply (values_distinct st Hst)|]. apply (fmap_sublist (fun p => to_ascii_lowercase (overlay p))), filter_sublist. }
      rewrite map_app in Hnd. by apply NoDup_app in Hnd as [Hnd _].
    + apply omap_names. intros p c Hc. unfold clow. by destruct (candidate_overlay _ _ _ Hc) as [-> _].
  - apply Forall_forall. intros c Hc. apply list_elem_of_omap in Hc as (p & Hp & Hc). destruct (candidate_overlay _ _ _ Hc) as [Eh Hb]. split; [|done].
    unfold kept in Hp. apply list_elem_of_In, filter_In in Hp as [_ Hx]. apply negb_true_iff, bool_decide_eq_false in Hx. unfold clow. by rewrite Eh.
Qed.

Lemma dial_list_perm browser st now exclude : store_ok st ->
  dial_list browser 1 st now exclude ≡ₚ pool_candidates parse_multiaddr swarm_proximity st exclude now.
Proof.
  intros Hst. unfold dial_list. cbv zeta. cbn [expand Nat.ltb Nat.leb].
  assert (Hp : dial_order (pool_candidates parse_multiaddr swarm_proximity st exclude now) ≡ₚ pool_candidates parse_multiaddr swarm_proximity st exclude now).
  { apply dial_order_perm. eapply Forall_impl; [apply (pool_candidates_ok st exclude now Hst)|]. by intros c [_ ?]. }
  destruct browser; [|done]. by rewrite (proj2 (interleave_passes host_key _)).
Qed.

(** Topping a pool up keeps it a set of peers.  Whatever dials answer and in
    whatever order, the sessions held stay where they are, the new ones are to dialable
    peers of the store that were not in the pool, no peer is held twice, and the pool
    does not grow beyond its target; if it is still short of it every candidate was
    dialled; and each dial that completed is in the log. *)
Theorem top_up_keeps_set browser st now target pool log hist pool' log' n : store_ok st -> NoDup (map low pool) ->
  top_up (dial_list browser 1 st now) target pool log hist (pool', log', n) ->
  (exists new, pool' = pool ++ new /\ length new = n /\ Forall (fun e => low e ∉ entry_overlays pool) new) /\
  NoDup (map low pool') /\ (length pool' <= Nat.max (length pool) target)%nat /\
  ((length pool' < target)%nat -> map fst hist ≡ₚ pool_candidates parse_multiaddr swarm_proximity st (entry_overlays pool) now) /\
  log' = foldl log_entry log hist.
Proof.
  intros Hst Hnd. unfold top_up. destruct (Nat.leb_spec target (length pool)) as [Hle|Hlt].
  - intros [-> E]. simplify_eq. split_and!; try done; [exists []; by rewrite app_nil_r|lia|lia].
  - intros (s & r & Hopen & E). simplify_eq. destruct (pool_candidates_ok st (entry_overlays pool) now Hst) as [Hcn Hcf]. pose proof (dial_list_perm browser st now (entry_overlays pool) Hst) as Hp.
    rewrite <- Hp in Hcf. assert (Hcn' : NoDup (map clow (dial_list browser 1 st now (entry_overlays pool)))) by (by rewrite Hp). clear Hcn.
    destruct r as [n|e].
    + apply fill_outcome in Hopen as (-> & Hn & -> & Hmax & (rest & Hrest) & Hall). rewrite <- Hrest in Hcn', Hcf.
      assert (Hsub : map low (omap new_entry hist) `sublist_of` map (fun cr => clow cr.1) hist).
      { apply omap_names. intros [c [[[m fn]|e] rtt]] b Hb; [|done]. apply (inj Some) in Hb as <-. done. }
      rewrite map_app in Hcn'. apply NoDup_app in Hcn' as [Hcn' _]. apply Forall_app in Hcf as [Hcf _]. rewrite map_map in Hcn'. rewrite length_app.
      assert (Hnew : Forall (fun e => low e ∉ entry_overlays pool) (omap new_entry hist)).
      { apply Forall_forall. intros e He. assert (Hin : low e ∈ map (fun cr : Candidate * Dialled => clow cr.1) hist) by (eapply elem_of_sublist; [by apply list_elem_of_fmap_2|exact Hsub]).
        apply list_elem_of_fmap in Hin as (cr & -> & Hcr). rewrite Forall_forall in Hcf. apply (Hcf cr.1). by apply list_elem_of_fmap_2. }
      split_and!; [by exists (omap new_entry hist)| |lia| |done].
      * rewrite map_app. apply NoDup_app. split_and!; [done| |by eapply sublist_NoDup]. intros x Hx Hy. apply list_elem_of_fmap in Hy as (e & -> & He).
        rewrite Forall_forall in Hnew. apply (Hnew e He). unfold entry_overlays. by apply elem_of_list_to_set.
      * intros Hshort. rewrite <- Hp. apply Hall. lia.
    + unfold open_session_pool_into in Hopen. destruct (dial_list browser 1 st now (entry_overlays pool)) eqn:Ed; [|by destruct Hopen as (? & _ & ?)].
      destruct Hopen as [-> E]. simplify_eq. cbn [fill_pool dial_log]. split_and!; try done; [exists []; by rewrite app_nil_r|lia].
Qed.
End TopUp.

(** Opening a pool gives between one session and as many as asked for, all to listed
    candidates, or an error: when there is nobody to dial, or when every candidate was
    dialled and none answered. *)
Theorem pool_open_outcome target cs log hist log' out : (0 < target)%nat -> pool_open target cs log hist (log', out) ->
  match out with
  | Ok pool => (1 <= length pool <= target)%nat /\ pool = omap new_entry hist /\ (exists rest, map fst hist ++ rest ≡ₚ cs)
  | Err PeerlistEmpty => cs = []
  | Err NoReachablePeers => map fst hist ≡ₚ cs /\ Forall (fun cr => exists e, cr.2.1 = Err e) hist
  end.
Proof.
  intros Ht (s & r & Hopen & E). simplify_eq. destruct r as [n|e].
  - apply fill_outcome in Hopen as (-> & Hn & _ & Hmax & Hrest & Hall). cbn [app]. destruct (omap new_entry hist) as [|e es] eqn:Eo.
    + split; [apply Hall; cbn in Hn; lia|]. clear -Eo. induction hist as [|[c [[[m fn]|e] rtt]] hist IH]; [done|done|]. constructor; [by exists e|by apply IH].
    + split_and!; [cbn; lia|cbn [length] in *; lia|done|done].
  - unfold open_session_pool_into in Hopen. destruct cs; [|by destruct Hopen as (? & _ & ?)]. destruct Hopen as [_ E]. by simplify_eq.
Qed.

(** The probe reaches everybody: each candidate is probed exactly once, the count is the
    number that answered, and the log has the last answer for each. *)
Theorem healthcheck_complete concurrency cs log hist reached log' : healthcheck_peers concurrency cs log hist (reached, log') ->
  map fst hist ≡ₚ cs /\ reached = length (List.filter (fun cr => match cr.2.1 with Some _ => true | None => false end) hist) /\
  log' = foldl (fun log cr => <[to_ascii_lowercase cr.1.1 := match cr.2.1 with Some fn => Success cr.2.2 (Some fn) | None => Failure end]> log) log hist.
Proof.
  intros (w & Hw & Hover & Hacc). pose proof (win_reaches_inv _ _ _ _ _ _ Hw) as [_ _ Ha _ Hst].
  assert (Hns : forall s a r, (probe_handle s a r).2 = false) by (intros [? ?] ? [[] ?]; done).
  assert (Hstop : stopped w = false) by (destruct (stopped w); [|done]; destruct Hst as (? & ? & _ & Hbad & _); by rewrite Hns in Hbad).
  split; [by eapply win_complete; [exact Hw|lia|done|done]|]. rewrite Hacc in Ha. clear -Ha.
  assert (E : forall hist k log, win_fold probe_handle (k, log) hist =
    ((k + length (List.filter (fun cr : str * str * (option bool * Z) => match cr.2.1 with Some _ => true | None => false end) hist))%nat,
     foldl (fun log cr => <[to_ascii_lowercase cr.1.1 := match cr.2.1 with Some fn => Success cr.2.2 (Some fn) | None => Failure end]> log) log hist)).
  { unfold win_fold. clear. induction hist as [|[c [[fn|] rtt]] hist IH]; intros k log; cbn [foldl probe_handle fst snd]; [cbn; f_equal; lia| |]; rewrite IH; cbn; [f_equal; lia|done]. }
  rewrite E in Ha. by simplify_eq.
Qed.

Module FillWitness.
Lemma hex_value_range c v : hex_value c = Some v -> 0 <= v < 16.
Proof.
  unfold hex_value. destruct ((48 <=? c) && (c <=? 57)) eqn:E1; [intros E; apply (inj Some) in E as <-; apply andb_true_iff in E1; lia|].
  destruct ((97 <=? c) && (c <=? 102)) eqn:E2; [intros E; apply (inj Some) in E as <-; apply andb_true_iff in E2; lia|].
  destruct ((65 <=? c) && (c <=? 70)) eqn:E3; [intros E; apply (inj Some) in E as <-; apply andb_true_iff in E3; lia|done].
Qed.

Lemma plain_decode_bytes s b : hex_decode s = Ok b -> all_bytes b.
Proof.
  change (plain_decode s = Ok b -> all_bytes b). remember (length s) as n eqn:En. revert s b En.
  induction n as [n IH] using lt_wf_ind. intros [|x [|y s]] b En E; cbn [plain_decode] in E; [by simplify_eq; constructor|done|].
  destruct (hex_value x) as [vx|] eqn:Ex; [|done]. destruct (hex_value y) as [vy|] eqn:Ey; [|by destruct (plain_decode s)].
  destruct (plain_decode s) as [r|] eqn:Er; [|done]. simplify_eq. apply hex_value_range in Ex, Ey. constructor; [unfold is_byte; lia|].
  apply (IH (length s)) with s; [cbn; lia|done|done].
Qed.

Definition hex64 : str := replicate 64 97.
Definition store : PeerStore := upsert store_new (mkPeer hex64 [lit "/ip4/5.6.7.8/tcp/1634"] None None None None None None 0).
Definition cand : Candidate := mkCandidate (replicate 32 170) hex64 (lit "/ip4/5.6.7.8/tcp/1634") 1 U32_MAX.
Definition answer : Dialled := (Ok (5%nat, true), 40).
Definition pool1 : SessionPool := [entry_new (cd_overlay cand) (cd_hex cand) (cd_underlay cand) 5].

Lemma listed : dial_list Some (fun _ _ => 0) (fun u => u) true 1 store 100 ∅ = [cand].
Proof. by vm_compute. Qed.

Lemma topped : top_up (dial_list Some (fun _ _ => 0) (fun u => u) true 1 store 100) 1 [] ∅ [(cand, answer)] (pool1, <[to_ascii_lowercase (cd_hex cand) := Success 40 (Some true)]> ∅, 1%nat).
Proof.
  unfold top_up. cbn [Nat.leb length]. exists (mkFill pool1 1 (<[to_ascii_lowercase (cd_hex cand) := Success 40 (Some true)]> ∅)), (Ok 1%nat). split; [|done].
  change (entry_overlays []) with (∅ : gset str). rewrite listed. cbn [open_session_pool_into]. exists (mkFill pool1 1 (<[to_ascii_lowercase (cd_hex cand) := Success 40 (Some true)]> ∅)). split; [|done].
  exists (mkWin [] [] (mkFill pool1 1 (<[to_ascii_lowercase (cd_hex cand) := Success 40 (Some true)]> ∅)) true). split_and!; [|reflexivity|reflexivity].
  apply (WrStep _ _ _ _ [] (win_start (dial_width [cand]) [cand] (mkFill [] 0 ∅)) 0 cand answer); [apply WrStart|reflexivity|reflexivity].
Qed.

Lemma top_up_keeps_set_witness : NoDup (map low pool1) /\ (length pool1 <= 1)%nat.
Proof.
  destruct (top_up_keeps_set Some (fun _ _ => 0) (fun u => u) plain_decode_bytes true store 100 1 [] ∅ [(cand, answer)] pool1 (<[to_ascii_lowercase (cd_hex cand) := Success 40 (Some true)]> ∅) 1%nat) as (_ & H1 & H2 & _);
    [|apply NoDup_nil_2|exact topped|split; [exact H1|exact H2]].
  apply upsert_ok; [apply map_Forall_empty|vm_compute; split; discriminate].
Defined.
End FillWitness.
