(* ===== verification/Upload.v ===== *)
(** * Pushing chunks through a pool ([src/src/client.rs], [push_chunks_with_pool_inner])

    Two nested machines.  A dispatch pushes one chunk: it races a few of the pool's
    peers, in the order of [SessionPool.build_order], and falls back on the peers not
    asked yet when all it heard was overdrafts and shallow receipts.  The upload runs
    many dispatches at once, retries the ones that failed and reports each chunk.

    Attempts and dispatches are futures; an event is the completion of any one of them,
    or the timer of a dispatch.  What an attempt answers is what
    [SessionPool.try_push_with_rotation] returns.  Delays, prewarming of sessions,
    logging, the progress callback and wall times are left out. *)
From Stdlib Require Import ZArith Lia.
From stdpp Require Import base tactics numbers countable strings list gmap sorting.
From S2P Require Import Prelude Codec Signer Protocols Peers Retrieval SessionPool.
Local Open Scope Z_scope.
Local Open Scope hov_scope.

Definition CHUNK_PEER_PARALLELISM : nat := 3.
Definition MAX_CHUNK_RETRIES : nat := 60.

(** [struct PushInfo], without the time taken. *)
Record PushInfo := mkInfo { pi_po : Z; pi_shallow : bool; pi_best_po : Z }.

(** [fn is_batch_not_found]. *)
Definition is_batch_not_found (e : TransportError) : bool :=
  match e with TxPushsyncPeer msg => contains (lit "batchstore get") msg && contains (lit "storage: not found") msg | _ => false end.

(** The errors a dispatch ends with; [DNoPeers] keeps what its message is made of. *)
Inductive DispatchError :=
| ShallowOnly | BatchNotFound (msg : str) | DNoPeers (cap overdrafts shallows errors : nat) (last : option TransportError).

(** ** One dispatch *)

(** Waiting for capacity: the order in use is the first that is not empty, of the first
    one and thirty more tries. *)
Fixpoint first_nonempty (orders : list (list nat)) : list nat :=
  match orders with [] => [] | [] :: rest => first_nonempty rest | o :: _ => o end.
Definition settle_order (order : list nat) (rebuilt : list (list nat)) : list nat := first_nonempty (order :: take 30 rebuilt).

Section Dispatch.
Context (order : list nat) (po : nat -> Z) (best_po : Z) (max_retries : nat).

Definition cap : nat := Nat.min (Nat.max max_retries 1) (length order).

Record Race := mkRace {
  order_idx : nat; attempt_no : nat; racing : list nat; overdrafts : nat; shallows : nat; errors : nat;
  last_err : option TransportError; best_shallow : option (Z * PushsyncReceipt) }.
Inductive Dispatch := Racing (r : Race) | Trying (todo : list nat) (r : Race) | Resolved (res : result PushInfo DispatchError).

Definition next_candidate (idx : nat) : option nat := if Nat.leb cap idx then None else order !! idx.

(** Start the next attempt, if there is a candidate. *)
Definition launch (r : Race) : option Race :=
  match next_candidate (order_idx r) with
  | Some i => Some (mkRace (S (order_idx r)) (S (attempt_no r)) (racing r ++ [i]) (overdrafts r) (shallows r) (errors r) (last_err r) (best_shallow r))
  | None => None
  end.
Fixpoint launch_n (n : nat) (r : Race) : Race :=
  match n with O => r | S n => match launch r with Some r => launch_n n r | None => r end end.

Definition full_receipt (i : nat) : Dispatch := Resolved (Ok (mkInfo (po i) false best_po)).

(** After the last attempt: what the dispatch reports. *)
Definition conclude (r : Race) : Dispatch :=
  match best_shallow r with
  | Some _ => Resolved (Err ShallowOnly)
  | None =>
      match last_err r with
      | Some e => if is_batch_not_found e then Resolved (Err (BatchNotFound (transport_error_display e)))
                  else Resolved (Err (DNoPeers cap (overdrafts r) (shallows r) (errors r) (last_err r)))
      | None => Resolved (Err (DNoPeers cap (overdrafts r) (shallows r) (errors r) None))
      end
  end.

(** The race is over without a receipt: more peers, the same ones again after a while,
    or the end. *)
Definition race_over (r : Race) : Dispatch :=
  if Nat.eqb (errors r) 0 && (Nat.ltb 0 (overdrafts r) || Nat.ltb 0 (shallows r)) then
    match drop (attempt_no r) order with
    | [] => if Nat.ltb 0 (overdrafts r) then Trying (take cap order) r else conclude r
    | extra => Trying extra r
    end
  else conclude r.

Inductive DispatchEvent := RaceDone (k : nat) (out : result PushOutcome TransportError) | Preempt | TryDone (out : result PushOutcome TransportError).

(** The account of an answer that is not a receipt. *)
Definition note_answer (r : Race) (rest : list nat) (i : nat) (out : result PushOutcome TransportError) : Race :=
  match out with
  | Ok OOverdraft => mkRace (order_idx r) (attempt_no r) rest (S (overdrafts r)) (shallows r) (errors r) (last_err r) (best_shallow r)
  | Ok (OShallow receipt) =>
      mkRace (order_idx r) (attempt_no r) rest (overdrafts r) (S (shallows r)) (errors r) (last_err r)
        (match best_shallow r with Some (p, _) => if p <? po i then Some (po i, receipt) else best_shallow r | None => Some (po i, receipt) end)
  | Err e => mkRace (order_idx r) (attempt_no r) rest (overdrafts r) (shallows r) (S (errors r)) (Some e) (best_shallow r)
  | Ok (OReceipt _) => r
  end.

Definition dispatch_step (d : Dispatch) (ev : DispatchEvent) : option Dispatch :=
  match d, ev with
  | Racing r, RaceDone k out =>
      match racing r !! k with
      | Some i =>
          match out with
          | Ok (OReceipt _) => Some (full_receipt i)
          | _ =>
              let r := note_answer r (delete k (racing r)) i out in
              match launch r with
              | Some r => Some (Racing r)
              | None => match racing r with [] => Some (race_over r) | _ => Some (Racing r) end
              end
          end
      | None => None
      end
  | Racing r, Preempt =>
      if Nat.ltb (length (racing r)) CHUNK_PEER_PARALLELISM then
        match launch r with
        | Some r => Some (Racing r)
        | None => match racing r with [] => Some (race_over r) | _ => Some (Racing r) end
        end
      else None
  | Trying (i :: todo) r, TryDone out =>
      match out with
      | Ok (OReceipt _) => Some (full_receipt i)
      | Ok _ => match todo with [] => Some (conclude r) | _ => Some (Trying todo r) end
      | Err e =>
          Some (conclude (mkRace (order_idx r) (attempt_no r) (racing r) (overdrafts r) (shallows r) (errors r) (Some e) (best_shallow r)))
      end
  | _, _ => None
  end.

Definition dispatch_start : Dispatch := Racing (launch_n CHUNK_PEER_PARALLELISM (mkRace 0 0 [] 0 0 0 None None)).

Inductive dispatch_reaches : list (nat * result PushOutcome TransportError) -> Dispatch -> Prop :=
| DrStart : dispatch_reaches [] dispatch_start
| DrRace seen r k i out d : dispatch_reaches seen (Racing r) -> racing r !! k = Some i -> dispatch_step (Racing r) (RaceDone k out) = Some d ->
    dispatch_reaches (seen ++ [(i, out)]) d
| DrPreempt seen d d' : dispatch_reaches seen d -> dispatch_step d Preempt = Some d' -> dispatch_reaches seen d'
| DrTry seen i todo r out d : dispatch_reaches seen (Trying (i :: todo) r) -> dispatch_step (Trying (i :: todo) r) (TryDone out) = Some d ->
    dispatch_reaches (seen ++ [(i, out)]) d.
End Dispatch.

(** ** The upload *)

Section Upload.
(** The chunks by their position.  [flying] are the dispatches in flight with the
    number of failed ones before; [pushed] counts when the loop takes the outcome, the
    code's counter already when the receipt comes in. *)
Context (total buffer : nat).

Record Upload := mkUpload {
  queue : list nat; flying : list (nat * nat); more_chunks : bool; reports : list (nat * result PushInfo DispatchError); pushed : nat;
  first_err : option DispatchError }.

Definition upload_start : Upload := mkUpload (drop buffer (seq 0 total)) (map (fun c => (c, 0%nat)) (take buffer (seq 0 total))) true [] 0 None.

(** A chunk is settled: report it and take the next of the queue. *)
Definition settle (u : Upload) (rest : list (nat * nat)) (c : nat) (info : PushInfo) : Upload :=
  match queue u with
  | c' :: q => mkUpload q (rest ++ [(c', 0%nat)]) (more_chunks u) (reports u ++ [(c, Ok info)]) (S (pushed u)) (first_err u)
  | [] => mkUpload [] rest false (reports u ++ [(c, Ok info)]) (S (pushed u)) (first_err u)
  end.
Definition fail (u : Upload) (rest : list (nat * nat)) (c : nat) (e : DispatchError) : Upload :=
  mkUpload (queue u) rest (more_chunks u) (reports u ++ [(c, Err e)]) (pushed u) (Some e).

(** The [k]th dispatch in flight completes. *)
Definition upload_step (u : Upload) (k : nat) (res : result PushInfo DispatchError) : option Upload :=
  match first_err u, flying u !! k with
  | None, Some (c, attempts) =>
      let rest := delete k (flying u) in
      Some (match res with
            | Ok info => settle u rest c info
            | Err (BatchNotFound m) => fail u rest c (BatchNotFound m)
            | Err e =>
                if Nat.ltb (attempts + 1) MAX_CHUNK_RETRIES
                then mkUpload (queue u) (rest ++ [(c, (attempts + 1)%nat)]) (more_chunks u) (reports u) (pushed u) (first_err u)
                else match e with
                     | ShallowOnly => settle u rest c (mkInfo 0 true 0)
                     | _ => fail u rest c e
                     end
            end)
  | _, _ => None
  end.

(** The loop is over: an error, or nothing in flight and nothing left. *)
Definition upload_over (u : Upload) : bool :=
  match first_err u with Some _ => true | None => negb (more_chunks u) && bool_decide (flying u = []) end.
Definition upload_result (u : Upload) : result unit DispatchError := match first_err u with Some e => Err e | None => Ok tt end.
End Upload.

(** [let buffer = (128 * mult).min(total).max(initial_pool.len())]. *)
Definition buffer_size (mult total pool : nat) : nat := Nat.max (Nat.min (128 * mult) total) pool.

(** ** What a dispatch may report *)

Definition is_receipt (out : result PushOutcome TransportError) : bool := match out with Ok (OReceipt _) => true | _ => false end.
Definition is_shallow_answer (out : result PushOutcome TransportError) : bool := match out with Ok (OShallow _) => true | _ => false end.

Section DispatchProps.
Context (order : list nat) (po : nat -> Z) (best_po : Z) (max_retries : nat).
Abbreviation cap := (cap order max_retries).
Abbreviation reaches := (dispatch_reaches order po best_po max_retries).
Abbreviation dstep := (dispatch_step order po best_po max_retries).

(** What was heard, and from whom, is what the race has on its books. *)
Record race_inv (seen : list (nat * result PushOutcome TransportError)) (r : Race) : Prop := {
  ri_idx : order_idx r = attempt_no r /\ (order_idx r <= cap)%nat;
  ri_window : (length (racing r) <= CHUNK_PEER_PARALLELISM)%nat;
  ri_asked : racing r ++ map fst seen ≡ₚ take (order_idx r) order;
  ri_none : Forall (fun io => is_receipt io.2 = false) seen;
  ri_count : (overdrafts r + shallows r + errors r)%nat = length seen;
  ri_shallow : match best_shallow r with Some _ => exists io, io ∈ seen /\ is_shallow_answer io.2 = true | None => Forall (fun io => is_shallow_answer io.2 = false) seen end;
  ri_err : match last_err r with Some e => exists i, (i, Err e) ∈ seen | None => errors r = 0%nat end;
  ri_idle : racing r = [] -> order_idx r = cap }.

Lemma cap_le : (cap <= length order)%nat.
Proof. unfold Upload.cap. lia. Qed.

Lemma launch_spec r : match launch order max_retries r with
  | Some r' => (order_idx r < cap)%nat /\ exists i, order !! order_idx r = Some i /\ racing r' = racing r ++ [i] /\ order_idx r' = S (order_idx r) /\
      attempt_no r' = S (attempt_no r) /\ overdrafts r' = overdrafts r /\ shallows r' = shallows r /\ errors r' = errors r /\
      last_err r' = last_err r /\ best_shallow r' = best_shallow r
  | None => (cap <= order_idx r)%nat
  end.
Proof.
  unfold launch, next_candidate. destruct (Nat.leb_spec cap (order_idx r)); [done|]. pose proof cap_le.
  destruct (order !! order_idx r) as [i|] eqn:E; [|apply lookup_ge_None in E; lia]. split; [done|]. by exists i.
Qed.

(** The facts that survive the start of one more attempt. *)
Definition race_base (seen : list (nat * result PushOutcome TransportError)) (r : Race) (n : nat) : Prop :=
  (order_idx r = attempt_no r /\ (order_idx r <= cap)%nat) /\ (length (racing r) <= n)%nat /\ racing r ++ map fst seen ≡ₚ take (order_idx r) order /\
  Forall (fun io => is_receipt io.2 = false) seen /\ (overdrafts r + shallows r + errors r)%nat = length seen /\
  match best_shallow r with Some _ => exists io, io ∈ seen /\ is_shallow_answer io.2 = true | None => Forall (fun io => is_shallow_answer io.2 = false) seen end /\
  match last_err r with Some e => exists i, (i, Err e) ∈ seen | None => errors r = 0%nat end.

Lemma launch_base seen r n : race_base seen r n -> match launch order max_retries r with
  | Some r' => race_base seen r' (S n) /\ racing r' <> [] | None => order_idx r = cap end.
Proof.
  intros ([H1 H2] & H3 & H4 & H5 & H6 & H7 & H8). pose proof (launch_spec r) as Hl. destruct (launch _ _ r) as [r'|]; [|lia].
  destruct Hl as (Hlt & i & Hi & E1 & E2 & E3 & E4 & E5 & E6 & E7 & E8). unfold race_base. rewrite E1, E2, E3, E4, E5, E6, E7, E8.
  split; [|by destruct (racing r)]. split_and!; try done; try lia.
  - rewrite length_app. cbn. lia.
  - rewrite (take_S_r order (order_idx r) i Hi), <- H4, <- !app_assoc. apply Permutation_app_head. apply Permutation_app_comm.
Qed.

Lemma launch_n_base seen n : forall r m, race_base seen r m -> race_base seen (launch_n order max_retries n r) (m + n)%nat /\
  ((0 < n)%nat -> racing (launch_n order max_retries n r) = [] -> order_idx (launch_n order max_retries n r) = cap).
Proof.
  induction n as [|n IH]; intros r m Hb; [rewrite Nat.add_0_r; split; [done|lia]|]. cbn [launch_n].
  pose proof (launch_base seen r m Hb) as Hl. destruct (launch _ _ r) as [r'|].
  - destruct Hl as [Hl Hne]. destruct (IH r' (S m) Hl) as [H1 H2]. split; [by replace (m + S n)%nat with (S m + n)%nat by lia|].
    intros _ Hnil. destruct n as [|n]; [done|]. apply H2; [lia|done].
  - split; [|by intros]. destruct Hb as (Hb1 & Hb2 & Hb3). split; [done|]. split; [lia|done].
Qed.

Lemma base_inv seen r : race_base seen r CHUNK_PEER_PARALLELISM -> (racing r = [] -> order_idx r = cap) -> race_inv seen r.
Proof. intros (H1 & H2 & H3 & H4 & H5 & H6 & H7) H8. by split. Qed.
Lemma inv_base seen r : race_inv seen r -> race_base seen r (length (racing r)).
Proof. intros [[? ?] ? ? ? ? ? ? ?]. unfold race_base. split_and!; done || lia. Qed.

Lemma start_race_inv : exists r, dispatch_start order max_retries = Racing r /\ race_inv [] r.
Proof.
  eexists. split; [reflexivity|]. destruct (launch_n_base [] CHUNK_PEER_PARALLELISM (mkRace 0 0 [] 0 0 0 None None) 0) as [H1 H2].
  - unfold race_base. cbn. split_and!; try done; lia.
  - apply base_inv; [exact H1|]. intros Hn. apply H2; [unfold CHUNK_PEER_PARALLELISM; lia|done].
Qed.

(** An answer is put on the books. *)
Lemma note_base seen r k i out : race_inv seen r -> racing r !! k = Some i -> is_receipt out = false ->
  race_base (seen ++ [(i, out)]) (note_answer po r (delete k (racing r)) i out) (length (racing r) - 1) /\
  racing (note_answer po r (delete k (racing r)) i out) = delete k (racing r).
Proof.
  intros [[H1 H2] H3 H4 H5 H6 H7 H8 H9] Hk Hno.
  assert (Hp : delete k (racing r) ++ map fst (seen ++ [(i, out)]) ≡ₚ take (order_idx r) order).
  { rewrite <- H4, map_app. cbn [map fst]. rewrite (Permutation_app_comm (map fst seen)), app_assoc. apply Permutation_app_tail.
    rewrite Permutation_app_comm. cbn. symmetry. by apply delete_Permutation. }
  assert (Hl : length (delete k (racing r)) = (length (racing r) - 1)%nat) by (rewrite length_delete; [done|]; by eexists).
  assert (Hf : Forall (fun io : nat * result PushOutcome TransportError => is_receipt io.2 = false) (seen ++ [(i, out)])) by (apply Forall_app; split; [done|]; by repeat constructor).
  assert (Herr : forall e, last_err r = Some e -> exists j, (j, Err e) ∈ seen ++ [(i, out)]).
  { intros e He. rewrite He in H8. destruct H8 as [j Hj]. exists j. apply elem_of_app. by left. }
  unfold race_base. destruct out as [[rc| |rc]|e]; [done| | |]; cbn [note_answer order_idx attempt_no racing overdrafts shallows errors last_err best_shallow];
    rewrite length_app; cbn [length]; (split; [|done]); split_and!; try done; try lia.
  - destruct (best_shallow r) as [p|]; [destruct H7 as (io & Hio & Hs); exists io; split; [apply elem_of_app; by left|done]|].
    apply Forall_app. split; [done|]. by repeat constructor.
  - destruct (last_err r) as [e|] eqn:El; [by apply Herr|done].
  - assert (Hex : exists io, io ∈ seen ++ [(i, Ok (OShallow rc))] /\ is_shallow_answer io.2 = true) by (exists (i, Ok (OShallow rc)); split; [apply elem_of_app; right; by apply list_elem_of_singleton|done]).
    destruct (best_shallow r) as [[p rc']|]; [by destruct (p <? po i)|done].
  - destruct (last_err r) as [e|] eqn:El; [by apply Herr|done].
  - destruct (best_shallow r) as [p|]; [destruct H7 as (io & Hio & Hs); exists io; split; [apply elem_of_app; by left|done]|].
    apply Forall_app. split; [done|]. by repeat constructor.
  - exists i. apply elem_of_app. right. by apply list_elem_of_singleton.
Qed.

(** What a dispatch may be after hearing [seen]. *)
Definition dispatch_inv (seen : list (nat * result PushOutcome TransportError)) (d : Dispatch) : Prop :=
  Forall (fun io => io.1 ∈ order) seen /\
  match d with
  | Racing r => race_inv seen r
  | Trying todo r =>
      todo <> [] /\ (forall i, i ∈ todo -> i ∈ order) /\ Forall (fun io => is_receipt io.2 = false) seen /\
      match best_shallow r with Some _ => exists io, io ∈ seen /\ is_shallow_answer io.2 = true | None => True end /\
      match last_err r with Some e => exists i, (i, Err e) ∈ seen | None => True end
  | Resolved (Ok info) => exists i rc, (i, Ok (OReceipt rc)) ∈ seen /\ i ∈ order /\ info = mkInfo (po i) false best_po
  | Resolved (Err e) =>
      Forall (fun io => is_receipt io.2 = false) seen /\
      match e with
      | ShallowOnly => exists io, io ∈ seen /\ is_shallow_answer io.2 = true
      | BatchNotFound _ => exists i err, (i, Err err) ∈ seen /\ is_batch_not_found err = true
      | DNoPeers _ _ _ _ _ => True
      end
  end.

Lemma conclude_inv seen r : Forall (fun io => io.1 ∈ order) seen -> Forall (fun io => is_receipt io.2 = false) seen ->
  match best_shallow r with Some _ => exists io, io ∈ seen /\ is_shallow_answer io.2 = true | None => True end ->
  match last_err r with Some e => exists i, (i, Err e) ∈ seen | None => True end -> dispatch_inv seen (conclude order max_retries r).
Proof.
  intros H1 H2 H3 H4. unfold conclude, dispatch_inv. split; [done|]. destruct (best_shallow r); [done|]. destruct (last_err r) as [e|]; [|done].
  destruct (is_batch_not_found e) eqn:Eb; [|done]. split; [done|]. destruct H4 as [i Hi]. by exists i, e.
Qed.

Lemma race_over_inv seen r : Forall (fun io => io.1 ∈ order) seen -> race_inv seen r -> dispatch_inv seen (race_over order max_retries r).
Proof.
  intros Ho [H1 H2 H3 H4 H5 H6 H7 H8].
  assert (Hs : match best_shallow r with Some _ => exists io, io ∈ seen /\ is_shallow_answer io.2 = true | None => True end) by (by destruct (best_shallow r)).
  assert (He : match last_err r with Some e => exists i, (i, Err e) ∈ seen | None => True end) by (by destruct (last_err r)).
  assert (Hc : dispatch_inv seen (conclude order max_retries r)) by (by apply conclude_inv).
  unfold race_over. destruct (_ && _); [|done].
  destruct (drop (attempt_no r) order) as [|x extra] eqn:Ed; [destruct (Nat.ltb_spec 0 (overdrafts r)); [|done]|]; (split; [done|]); split_and!; try done.
  - intros E. apply (f_equal length) in E. rewrite length_take in E. cbn [length] in E. apply Permutation_length in H3. rewrite length_app, length_map, length_take in H3.
    pose proof cap_le. lia.
  - intros i Hi. by apply subseteq_take in Hi.
  - intros i Hi. rewrite <- Ed in Hi. by apply subseteq_drop in Hi.
Qed.

Lemma racing_in_order seen r k i : race_inv seen r -> racing r !! k = Some i -> i ∈ order.
Proof.
  intros Hr Hk. apply list_elem_of_lookup_2 in Hk. apply (subseteq_take (order_idx r)). rewrite <- (ri_asked _ _ Hr). apply elem_of_app. by left.
Qed.

Lemma settle_race seen r n : Forall (fun io => io.1 ∈ order) seen -> race_base seen r n -> (S n <= CHUNK_PEER_PARALLELISM)%nat ->
  dispatch_inv seen (match launch order max_retries r with
    | Some r => Racing r | None => match racing r with [] => race_over order max_retries r | _ => Racing r end end).
Proof.
  intros Ho Hb Hn. pose proof (launch_base seen r n Hb) as Hl. destruct (launch _ _ r) as [r'|].
  - destruct Hl as [Hl Hne]. split; [done|]. apply base_inv; [|done]. destruct Hl as (? & ? & ?). split; [done|]. split; [lia|done].
  - assert (Hinv : race_inv seen r) by (apply base_inv; [destruct Hb as (? & ? & ?); split; [done|]; split; [lia|done]|done]).
    destruct (racing r) eqn:Er; [by apply race_over_inv|by split].
Qed.

Lemma full_receipt_inv seen i rc : Forall (fun io => io.1 ∈ order) seen -> i ∈ order -> dispatch_inv (seen ++ [(i, Ok (OReceipt rc))]) (full_receipt po best_po i).
Proof.
  intros Ho Hi. split; [apply Forall_app; split; [done|]; by repeat constructor|]. exists i, rc. split_and!; [|done|done].
  apply elem_of_app. right. by apply list_elem_of_singleton.
Qed.

Lemma dispatch_reaches_inv seen d : reaches seen d -> dispatch_inv seen d.
Proof.
  induction 1 as [|seen r k i out d _ [Ho Hr] Hk Hs|seen d d' _ [Ho Hd] Hs|seen i todo r out d _ (Ho & _ & Htodo & Hno & Hsh & Her) Hs].
  - destruct start_race_inv as (r & -> & Hr). by split.
  - pose proof (racing_in_order seen r k i Hr Hk) as Hi. cbn [dispatch_step] in Hs. rewrite Hk in Hs.
    destruct (is_receipt out) eqn:Eo; [destruct out as [[rc| |rc]|e]; try done; apply (inj Some) in Hs as <-; by apply full_receipt_inv|].
    destruct (note_base seen r k i out Hr Hk Eo) as [Hb _]. set (r1 := note_answer po r (delete k (racing r)) i out) in *.
    assert (Ed : d = match launch order max_retries r1 with Some r => Racing r | None => match racing r1 with [] => race_over order max_retries r1 | _ => Racing r1 end end).
    { destruct out as [[rc| |rc]|e]; try done; fold r1 in Hs; destruct (launch order max_retries r1); try congruence; destruct (racing r1); congruence. }
    rewrite Ed. apply (settle_race _ _ (length (racing r) - 1)); [apply Forall_app; split; [done|]; by repeat constructor|done|].
    pose proof (ri_window _ _ Hr). apply lookup_lt_Some in Hk. unfold CHUNK_PEER_PARALLELISM in *. lia.
  - destruct d as [r|todo r|res]; [|by destruct todo|done]. cbn [dispatch_step] in Hs. destruct (Nat.ltb_spec (length (racing r)) CHUNK_PEER_PARALLELISM); [|done].
    assert (Ed : d' = match launch order max_retries r with Some r => Racing r | None => match racing r with [] => race_over order max_retries r | _ => Racing r end end).
    { destruct (launch order max_retries r); [congruence|]. destruct (racing r); congruence. }
    rewrite Ed. apply (settle_race _ _ (length (racing r))); [done|by apply inv_base|lia].
  - assert (Hi : i ∈ order) by (apply Htodo, elem_of_cons; by left). cbn [dispatch_step] in Hs.
    destruct (is_receipt out) eqn:Eo; [destruct out as [[rc| |rc]|e]; try done; apply (inj Some) in Hs as <-; by apply full_receipt_inv|].
    assert (Ho' : Forall (fun io : nat * result PushOutcome TransportError => io.1 ∈ order) (seen ++ [(i, out)])) by (apply Forall_app; split; [done|]; by repeat constructor).
    assert (Hno' : Forall (fun io : nat * result PushOutcome TransportError => is_receipt io.2 = false) (seen ++ [(i, out)])) by (apply Forall_app; split; [done|]; by repeat constructor).
    assert (Hsh' : match best_shallow r with Some _ => exists io, io ∈ seen ++ [(i, out)] /\ is_shallow_answer io.2 = true | None => True end).
    { destruct (best_shallow r); [|done]. destruct Hsh as (io & ? & ?). exists io. split; [apply elem_of_app; by left|done]. }
    assert (Her' : match last_err r with Some e => exists j, (j, Err e) ∈ seen ++ [(i, out)] | None => True end).
    { destruct (last_err r); [|done]. destruct Her as [j ?]. exists j. apply elem_of_app. by left. }
    destruct out as [[rc| |rc]|e]; [done| | |].
    + destruct todo as [|j todo]; apply (inj Some) in Hs as <-; [by apply conclude_inv|]. split; [done|]. split_and!; try done. intros x Hx. apply Htodo, elem_of_cons. by right.
    + destruct todo as [|j todo]; apply (inj Some) in Hs as <-; [by apply conclude_inv|]. split; [done|]. split_and!; try done. intros x Hx. apply Htodo, elem_of_cons. by right.
    + apply (inj Some) in Hs as <-. apply conclude_inv; [done|done|done|]. cbn [last_err]. exists i. apply elem_of_app. right. by apply list_elem_of_singleton.
Qed.

(** What a dispatch reports is what it heard.  It only asks peers of the order, at
    most three at a time and none twice in the race; it reports success exactly with a
    receipt that a peer gave, and the depth of that peer; it reports shallow receipts
    only if it got one and no full receipt, and an unknown batch only if a peer said
    so. *)
Theorem dispatch_sound seen d : NoDup order -> reaches seen d ->
  Forall (fun io => io.1 ∈ order) seen /\
  match d with
  | Racing r => (length (racing r) <= CHUNK_PEER_PARALLELISM)%nat /\ NoDup (racing r ++ map fst seen) /\ Forall (fun io => is_receipt io.2 = false) seen
  | Trying todo _ => Forall (fun i => i ∈ order) todo /\ Forall (fun io => is_receipt io.2 = false) seen
  | Resolved (Ok info) => exists i rc, (i, Ok (OReceipt rc)) ∈ seen /\ i ∈ order /\ info = mkInfo (po i) false best_po
  | Resolved (Err ShallowOnly) => (exists i rc, (i, Ok (OShallow rc)) ∈ seen) /\ Forall (fun io => is_receipt io.2 = false) seen
  | Resolved (Err (BatchNotFound _)) => (exists i err, (i, Err err) ∈ seen /\ is_batch_not_found err = true) /\ Forall (fun io => is_receipt io.2 = false) seen
  | Resolved (Err (DNoPeers _ _ _ _ _)) => Forall (fun io => is_receipt io.2 = false) seen
  end.
Proof.
  intros Hnd Hr. destruct (dispatch_reaches_inv seen d Hr) as [Ho Hd]. split; [done|]. destruct d as [r|todo r|[info|[| |]]].
  - destruct Hd as [_ H2 H3 H4 _ _ _ _]. split_and!; [done| |done]. rewrite H3. by apply (sublist_NoDup _ order); [|apply sublist_take].
  - destruct Hd as (_ & H1 & H2 & _). split; [|done]. by apply Forall_forall.
  - done.
  - destruct Hd as [H1 ([i out] & Hin & Hs)]. split; [|done]. destruct out as [[| |rc]|]; try done. by exists i, rc.
  - destruct Hd as [H1 H2]. done.
  - by destruct Hd.
Qed.

(** ** A dispatch ends *)

Definition dispatch_work (d : Dispatch) : nat :=
  match d with
  | Racing r => 2 * (cap - order_idx r) + length (racing r) + length order + 2
  | Trying todo _ => length todo + 1
  | Resolved _ => 0
  end.

Lemma conclude_work r : dispatch_work (conclude order max_retries r) = 0%nat.
Proof. unfold conclude. by repeat case_match. Qed.

Lemma race_over_work r : (dispatch_work (race_over order max_retries r) <= length order + 1)%nat.
Proof.
  unfold race_over. destruct (_ && _); [|rewrite conclude_work; lia].
  destruct (drop (attempt_no r) order) as [|x extra] eqn:Ed.
  - destruct (Nat.ltb 0 (overdrafts r)); [|rewrite conclude_work; lia]. cbn [dispatch_work]. rewrite length_take. lia.
  - rewrite <- Ed. cbn [dispatch_work]. rewrite length_drop. lia.
Qed.

(** Every answer and every useful tick of the timer brings the dispatch nearer to its
    end. *)
Lemma dispatch_step_work d ev d' : dstep d ev = Some d' -> d' = d /\ ev = Preempt \/ (dispatch_work d' < dispatch_work d)%nat.
Proof.
  assert (Hnext : forall r n, (length (racing r) <= n)%nat ->
    (dispatch_work (match launch order max_retries r with Some r => Racing r | None => match racing r with [] => race_over order max_retries r | _ => Racing r end end) <
     2 * (cap - order_idx r) + n + 1 + length order + 2)%nat).
  { intros r n Hn. pose proof (launch_spec r) as Hl. destruct (launch _ _ r) as [r'|].
    - destruct Hl as (Hlt & i & _ & E1 & E2 & _). cbn [dispatch_work]. rewrite E1, E2, length_app. cbn. lia.
    - destruct (racing r) eqn:Er; [pose proof (race_over_work r); lia|]. cbn [dispatch_work]. rewrite Er. lia. }
  destruct d as [r|[|i todo] r|res], ev as [k out| |out]; cbn [dispatch_step]; try done.
  - destruct (racing r !! k) as [i|] eqn:Hk; [|done]. intros Hs. right. pose proof (length_delete (racing r) k ltac:(by eexists)) as Hl. apply lookup_lt_Some in Hk.
    destruct out as [[rc| |rc]|e]; [apply (inj Some) in Hs as <-; cbn; lia| | |];
      set (r1 := note_answer _ _ _ _ _) in Hs; assert (Er : racing r1 = delete k (racing r) /\ order_idx r1 = order_idx r) by done; destruct Er as [Er1 Er2];
      specialize (Hnext r1 (length (racing r) - 1)%nat ltac:(rewrite Er1; lia)); rewrite Er2 in Hnext; cbn [dispatch_work] in Hnext |- *;
      (destruct (launch _ _ r1); [apply (inj Some) in Hs as <-|destruct (racing r1); apply (inj Some) in Hs as <-]); cbn [dispatch_work] in Hnext |- *; lia.
  - destruct (Nat.ltb (length (racing r)) CHUNK_PEER_PARALLELISM); [|done]. pose proof (launch_spec r) as Hl. destruct (launch _ _ r) as [r'|].
    + intros Hs. apply (inj Some) in Hs as <-. right. destruct Hl as (Hlt & i & _ & E1 & E2 & _). cbn [dispatch_work]. rewrite E1, E2, length_app. cbn. lia.
    + destruct (racing r) eqn:Er; intros Hs; apply (inj Some) in Hs as <-; [right|by left]. pose proof (race_over_work r). cbn [dispatch_work]. rewrite Er. cbn. lia.
  - destruct out as [[rc| |rc]|e]; [intros Hs; apply (inj Some) in Hs as <-; right; cbn; lia| | |intros Hs; apply (inj Some) in Hs as <-; right; rewrite conclude_work; cbn; lia];
      (destruct todo as [|j todo]; intros Hs; apply (inj Some) in Hs as <-; right; [rewrite conclude_work|]; cbn [dispatch_work length]; lia).
Qed.

(** Whatever state a dispatch is in, it can go on until it has resolved. *)
Lemma dispatch_goes_on seen d : reaches seen d -> (forall res, d <> Resolved res) ->
  exists seen' d', reaches seen' d' /\ (dispatch_work d' < dispatch_work d)%nat.
Proof.
  intros Hr Hd. destruct (dispatch_reaches_inv seen d Hr) as [_ Hinv]. destruct d as [r|todo r|res]; [| |by destruct (Hd res)].
  - destruct (racing r) as [|i rest] eqn:Er.
    + assert (Hs : dstep (Racing r) Preempt = Some (race_over order max_retries r)).
      { cbn [dispatch_step]. rewrite Er. pose proof (launch_spec r) as Hl. pose proof (ri_idle _ _ Hinv Er). destruct (launch _ _ r); [lia|done]. }
      exists seen, (race_over order max_retries r). split; [by apply (DrPreempt _ _ _ _ seen (Racing r))|]. pose proof (race_over_work r). cbn [dispatch_work]. lia.
    + assert (Hk : racing r !! 0%nat = Some i) by (by rewrite Er). destruct (dstep (Racing r) (RaceDone 0 (Err Timeout))) as [d'|] eqn:Es.
      * exists (seen ++ [(i, Err Timeout)]), d'. split; [by apply (DrRace _ _ _ _ seen r 0 i)|]. by destruct (dispatch_step_work _ _ _ Es) as [[_ ?]|].
      * cbn [dispatch_step] in Es. rewrite Hk in Es. by repeat case_match.
  - destruct todo as [|i todo]; [by destruct Hinv|]. destruct (dstep (Trying (i :: todo) r) (TryDone (Err Timeout))) as [d'|] eqn:Es; [|done].
    exists (seen ++ [(i, Err Timeout)]), d'. split; [by apply (DrTry _ _ _ _ seen i todo r)|]. by destruct (dispatch_step_work _ _ _ Es) as [[_ ?]|].
Qed.

(** A dispatch always ends.  Its answers and useful timer ticks are at most a bound
    given by the order it started with, in any sequence of answers; and from every
    state it can reach there are answers that resolve it. *)
Theorem dispatch_terminates seen d : reaches seen d ->
  (forall ev d', dstep d ev = Some d' -> d' = d /\ ev = Preempt \/ (dispatch_work d' < dispatch_work d)%nat) /\
  exists seen' res, reaches seen' (Resolved res).
Proof.
  intros Hr. split; [intros ev d'; apply dispatch_step_work|]. remember (dispatch_work d) as n eqn:En. revert seen d Hr En.
  induction n as [n IH] using lt_wf_ind. intros seen d Hr En. destruct d as [r|todo r|res]; [| |by exists seen, res].
  - destruct (dispatch_goes_on seen _ Hr ltac:(done)) as (seen' & d' & Hr' & Hlt). apply (IH (dispatch_work d') ltac:(lia) seen' d' Hr' eq_refl).
  - destruct (dispatch_goes_on seen _ Hr ltac:(done)) as (seen' & d' & Hr' & Hlt). apply (IH (dispatch_work d') ltac:(lia) seen' d' Hr' eq_refl).
Qed.
End DispatchProps.

(** ** What an upload reports *)

Section UploadProps.
(** [resolves c res]: some dispatch of the chunk [c] may end with [res]. *)
Context (total buffer : nat) (resolves : nat -> result PushInfo DispatchError -> Prop).

(** The state of an upload after the dispatches of [hist] have completed. *)
Inductive upload_reaches : list (nat * result PushInfo DispatchError) -> Upload -> Prop :=
| UrStart : upload_reaches [] (upload_start total buffer)
| UrStep hist u k c a res u' : upload_reaches hist u -> flying u !! k = Some (c, a) -> resolves c res -> upload_step u k res = Some u' ->
    upload_reaches (hist ++ [(c, res)]) u'.

Definition tries (hist : list (nat * result PushInfo DispatchError)) (c : nat) : nat := length (List.filter (fun cr => cr.1 =? c)%nat hist).
Definition ok_report (cr : nat * result PushInfo DispatchError) : bool := match cr.2 with Ok _ => true | Err _ => false end.

(** Why a chunk was reported the way it was. *)
Definition justified_report (hist : list (nat * result PushInfo DispatchError)) (cr : nat * result PushInfo DispatchError) : Prop :=
  match cr.2 with
  | Ok info => (cr.1, Ok info) ∈ hist \/ info = mkInfo 0 true 0 /\ (cr.1, Err ShallowOnly) ∈ hist /\ tries hist cr.1 = MAX_CHUNK_RETRIES
  | Err e => (cr.1, Err e) ∈ hist /\ ((exists m, e = BatchNotFound m) \/ e <> ShallowOnly /\ tries hist cr.1 = MAX_CHUNK_RETRIES)
  end.

Record upload_inv (hist : list (nat * result PushInfo DispatchError)) (u : Upload) : Prop := {
  ui_perm : map fst (reports u) ++ map fst (flying u) ++ queue u ≡ₚ seq 0 total;
  ui_window : (length (flying u) <= buffer)%nat;
  ui_tries : Forall (fun ca => ca.2 = tries hist ca.1 /\ ca.2 < MAX_CHUNK_RETRIES)%nat (flying u);
  ui_fresh : Forall (fun c => tries hist c = 0%nat) (queue u);
  ui_pushed : pushed u = length (List.filter ok_report (reports u));
  ui_just : Forall (justified_report hist) (reports u);
  ui_resolved : Forall (fun cr => resolves cr.1 cr.2) hist;
  ui_err : match first_err u with
           | None => Forall (fun cr => ok_report cr = true) (reports u)
           | Some e => exists pre c, reports u = pre ++ [(c, Err e)] /\ Forall (fun cr => ok_report cr = true) pre
           end;
  ui_end : (0 < total)%nat -> (0 < buffer)%nat -> first_err u = None -> flying u = [] -> queue u = [] /\ more_chunks u = false }.

Lemma tries_app hist c res c' : tries (hist ++ [(c, res)]) c' = (tries hist c' + if (c =? c')%nat then 1 else 0)%nat.
Proof. unfold tries. rewrite List.filter_app, length_app. cbn. by destruct (c =? c')%nat. Qed.

Lemma justified_mono hist c res cr : c <> cr.1 -> justified_report hist cr -> justified_report (hist ++ [(c, res)]) cr.
Proof.
  intros Hne. unfold justified_report. rewrite tries_app, (proj2 (Nat.eqb_neq _ _)), Nat.add_0_r by done.
  destruct cr.2 as [info|e].
  - intros [Hin|(-> & Hin & Ht)]; [left; apply elem_of_app; by left|right]. split_and!; [done|apply elem_of_app; by left|done].
  - intros [Hin Hr]. split; [apply elem_of_app; by left|done].
Qed.

Lemma upload_start_inv : upload_inv [] (upload_start total buffer).
Proof.
  unfold upload_start. split; cbn [queue flying reports pushed first_err more_chunks map]; try done.
  - rewrite map_map. cbn. by rewrite map_id, take_drop.
  - rewrite length_map, length_take. lia.
  - apply Forall_map, Forall_true. intros c. cbn. unfold MAX_CHUNK_RETRIES. split; [done|lia].
  - apply Forall_true. done.
  - intros Ht Hb _ E. apply (f_equal length) in E. rewrite length_map, length_take, length_seq in E. cbn in E. lia.
Qed.

(** The chunk that completes is neither reported nor elsewhere in flight or queued. *)
Lemma flying_split hist u k c a : upload_inv hist u -> flying u !! k = Some (c, a) ->
  c :: map fst (reports u) ++ map fst (delete k (flying u)) ++ queue u ≡ₚ seq 0 total /\
  c ∉ map fst (reports u) /\ c ∉ map fst (delete k (flying u)) /\ c ∉ queue u.
Proof.
  intros Hu Hk. pose proof (ui_perm _ _ Hu) as Hp.
  assert (Hp' : c :: map fst (reports u) ++ map fst (delete k (flying u)) ++ queue u ≡ₚ seq 0 total).
  { rewrite <- Hp, Permutation_middle. apply Permutation_app_head.
    change (map fst ((c, a) :: delete k (flying u)) ++ queue u ≡ₚ map fst (flying u) ++ queue u). apply Permutation_app_tail, Permutation_map. symmetry. by apply delete_Permutation. }
  split; [done|]. pose proof (NoDup_seq 0 total) as Hnd. rewrite <- Hp' in Hnd. apply NoDup_cons in Hnd as [Hni _].
  rewrite !elem_of_app in Hni. tauto.
Qed.

(** The facts about the rest that a completion of [c] leaves as they are. *)
Lemma rest_kept hist u k c a res : upload_inv hist u -> flying u !! k = Some (c, a) ->
  Forall (fun ca => ca.2 = tries (hist ++ [(c, res)]) ca.1 /\ ca.2 < MAX_CHUNK_RETRIES)%nat (delete k (flying u)) /\
  Forall (fun c' => tries (hist ++ [(c, res)]) c' = 0%nat) (queue u) /\ Forall (justified_report (hist ++ [(c, res)])) (reports u) /\
  tries (hist ++ [(c, res)]) c = S a /\ (a < MAX_CHUNK_RETRIES)%nat.
Proof.
  intros Hu Hk. destruct (flying_split hist u k c a Hu Hk) as (_ & N1 & N2 & N3). destruct Hu as [_ _ Ht Hf _ Hj _ _ _].
  assert (Hother : forall c', c' <> c -> tries (hist ++ [(c, res)]) c' = tries hist c') by (intros c' Hne; rewrite tries_app, (proj2 (Nat.eqb_neq _ _)); [lia|done]).
  split_and!.
  - apply Forall_forall. intros ca Hca. rewrite Forall_forall in Ht. rewrite Hother.
    + apply Ht. rewrite (delete_Permutation (flying u) k (c, a) Hk). apply elem_of_cons. by right.
    + intros E. apply N2. rewrite <- E. by apply list_elem_of_fmap_2.
  - apply Forall_forall. intros c' Hc'. rewrite Forall_forall in Hf. rewrite Hother; [by apply Hf|]. intros ->. done.
  - apply Forall_forall. intros cr Hcr. rewrite Forall_forall in Hj. apply justified_mono; [|by apply Hj]. intros ->. apply N1. by apply list_elem_of_fmap_2.
  - rewrite tries_app, Nat.eqb_refl. rewrite Forall_forall in Ht. destruct (Ht (c, a)) as [E _]; [by apply list_elem_of_lookup_2 in Hk|]. cbn in E. lia.
  - rewrite Forall_forall in Ht. destruct (Ht (c, a)) as [_ Hlt]; [by apply list_elem_of_lookup_2 in Hk|done].
Qed.

Lemma settle_inv hist u k c a res info : upload_inv hist u -> flying u !! k = Some (c, a) -> first_err u = None -> resolves c res ->
  justified_report (hist ++ [(c, res)]) (c, Ok info) -> upload_inv (hist ++ [(c, res)]) (settle u (delete k (flying u)) c info).
Proof.
  intros Hu Hk He Hres Hj. destruct (flying_split hist u k c a Hu Hk) as (Hp & _). destruct (rest_kept hist u k c a res Hu Hk) as (K1 & K2 & K3 & _).
  destruct Hu as [_ Hw _ _ Hpu _ Hr Her _]. rewrite He in Her.
  assert (Hl : (length (delete k (flying u)) + 1 <= buffer)%nat) by (rewrite length_delete by (by eexists); apply lookup_lt_Some in Hk; lia).
  assert (Hr' : Forall (fun cr => resolves cr.1 cr.2) (hist ++ [(c, res)])) by (apply Forall_app; split; [done|]; by apply Forall_singleton).
  assert (Hrep : Forall (justified_report (hist ++ [(c, res)])) (reports u ++ [(c, Ok info)])) by (apply Forall_app; split; [done|]; by apply Forall_singleton).
  assert (Hok : Forall (fun cr => ok_report cr = true) (reports u ++ [(c, Ok info)])) by (apply Forall_app; split; [done|]; by apply Forall_singleton).
  assert (Hcnt : S (pushed u) = length (List.filter ok_report (reports u ++ [(c, Ok info)]))) by (rewrite List.filter_app, length_app; cbn; lia).
  unfold settle. destruct (queue u) as [|c' q] eqn:Eq; split; cbn [queue flying reports pushed first_err more_chunks]; rewrite ?He; try done; try lia.
  - rewrite <- Hp, map_app, <- app_assoc. cbn. symmetry. apply Permutation_middle.
  - rewrite <- Hp, !map_app, <- !app_assoc. cbn. symmetry. apply Permutation_middle.
  - rewrite length_app. cbn. lia.
  - apply Forall_cons in K2 as [K2 _]. apply Forall_app. split; [done|]. apply Forall_singleton. cbn. unfold MAX_CHUNK_RETRIES. lia.
  - by apply Forall_cons in K2 as [_ K2].
  - intros _ _ _ E. by destruct (delete k (flying u)).
Qed.

Lemma fail_inv hist u k c a res e : upload_inv hist u -> flying u !! k = Some (c, a) -> first_err u = None -> resolves c res ->
  justified_report (hist ++ [(c, res)]) (c, Err e) -> upload_inv (hist ++ [(c, res)]) (fail u (delete k (flying u)) c e).
Proof.
  intros Hu Hk He Hres Hj. destruct (flying_split hist u k c a Hu Hk) as (Hp & _). destruct (rest_kept hist u k c a res Hu Hk) as (K1 & K2 & K3 & _).
  destruct Hu as [_ Hw _ _ Hpu _ Hr Her _]. rewrite He in Her. unfold fail. split; cbn [queue flying reports pushed first_err more_chunks]; try done.
  - rewrite <- Hp, map_app, <- app_assoc. cbn. symmetry. apply Permutation_middle.
  - rewrite length_delete by (by eexists). lia.
  - rewrite List.filter_app, length_app. cbn. lia.
  - apply Forall_app. split; [done|]. by apply Forall_singleton.
  - apply Forall_app. split; [done|]. by apply Forall_singleton.
  - by exists (reports u), c.
Qed.

Lemma retry_inv hist u k c a res : upload_inv hist u -> flying u !! k = Some (c, a) -> first_err u = None -> resolves c res -> (a + 1 < MAX_CHUNK_RETRIES)%nat ->
  upload_inv (hist ++ [(c, res)]) (mkUpload (queue u) (delete k (flying u) ++ [(c, (a + 1)%nat)]) (more_chunks u) (reports u) (pushed u) (first_err u)).
Proof.
  intros Hu Hk He Hres Ha. destruct (flying_split hist u k c a Hu Hk) as (Hp & _). destruct (rest_kept hist u k c a res Hu Hk) as (K1 & K2 & K3 & K4 & _).
  destruct Hu as [_ Hw _ _ Hpu _ Hr Her _]. split; cbn [queue flying reports pushed first_err more_chunks]; try done.
  - rewrite <- Hp, map_app, <- app_assoc. cbn. rewrite <- !Permutation_middle. done.
  - rewrite length_app, length_delete by (by eexists). apply lookup_lt_Some in Hk. cbn. lia.
  - apply Forall_app. split; [done|]. apply Forall_singleton. cbn. lia.
  - apply Forall_app. split; [done|]. by apply Forall_singleton.
  - intros _ _ _ E. by destruct (delete k (flying u)).
Qed.

Lemma upload_reaches_inv hist u : upload_reaches hist u -> upload_inv hist u.
Proof.
  induction 1 as [|hist u k c a res u' _ IH Hk Hres Hs]; [apply upload_start_inv|]. unfold upload_step in Hs. destruct (first_err u) eqn:He; [done|]. rewrite Hk in Hs.
  apply (inj Some) in Hs as <-. destruct (rest_kept hist u k c a res IH Hk) as (_ & _ & _ & Ht & Ha).
  assert (Hin : (c, res) ∈ hist ++ [(c, res)]) by (apply elem_of_app; right; by apply list_elem_of_singleton).
  assert (Hlast : (MAX_CHUNK_RETRIES <= a + 1)%nat -> tries (hist ++ [(c, res)]) c = MAX_CHUNK_RETRIES) by lia.
  destruct res as [info|e]; [apply (settle_inv hist u k c a); try done; by left|].
  destruct e as [|m|cp ov sh er le].
  - destruct (Nat.ltb_spec (a + 1) MAX_CHUNK_RETRIES); [rewrite <- He; by apply retry_inv|].
    apply (settle_inv hist u k c a); try done. right. split_and!; [done|done|by apply Hlast].
  - apply (fail_inv hist u k c a); try done. split; [done|]. left. by exists m.
  - destruct (Nat.ltb_spec (a + 1) MAX_CHUNK_RETRIES); [rewrite <- He; by apply retry_inv|].
    apply (fail_inv hist u k c a); try done. split; [done|]. right. split; [done|by apply Hlast].
Qed.

(** Every chunk of an upload is accounted for exactly once.  At any time each chunk
    is reported, in flight or queued, none twice, at most [buffer] in flight; the count
    of pushed chunks is the count of successes reported.  A chunk is reported as pushed
    only when one of its dispatches said so, or as shallow after sixty dispatches, the
    last of which heard only shallow receipts.  When the loop ends without an error
    every chunk has been reported as pushed; with one, exactly the last report is a
    failure, for a batch nobody knows or after sixty dispatches. *)
Theorem upload_accounts hist u : upload_reaches hist u ->
  map fst (reports u) ++ map fst (flying u) ++ queue u ≡ₚ seq 0 total /\ (length (flying u) <= buffer)%nat /\
  pushed u = length (List.filter ok_report (reports u)) /\ Forall (justified_report hist) (reports u) /\
  match first_err u with
  | None => Forall (fun cr => ok_report cr = true) (reports u) /\
      ((0 < total)%nat -> (0 < buffer)%nat -> upload_over u = true -> map fst (reports u) ≡ₚ seq 0 total /\ pushed u = total)
  | Some e => exists pre c, reports u = pre ++ [(c, Err e)] /\ Forall (fun cr => ok_report cr = true) pre
  end.
Proof.
  intros Hr. apply upload_reaches_inv in Hr as [Hp Hw _ _ Hpu Hj _ Her Hend]. split_and!; try done.
  destruct (first_err u) as [e|] eqn:Ee; [done|]. split; [done|]. intros Ht Hb Hover. unfold upload_over in Hover. rewrite Ee in Hover.
  apply andb_true_iff in Hover as [_ Hnil%bool_decide_eq_true]. destruct (Hend Ht Hb eq_refl Hnil) as [Hq _]. rewrite Hnil, Hq in Hp. cbn in Hp.
  rewrite app_nil_r in Hp. split; [done|]. rewrite Hpu. rewrite <- (length_seq total 0), <- Hp, length_map. f_equal.
  clear -Her. induction Her as [|cr l Hc _ IH]; [done|]. cbn. by rewrite Hc, IH.
Qed.

(** The dispatches still to come at most. *)
Definition upload_work (u : Upload) : nat := MAX_CHUNK_RETRIES * length (queue u) + list_sum (map (fun ca => MAX_CHUNK_RETRIES - ca.2) (flying u))%nat.

Lemma work_delete fl k c a : fl !! k = Some (c, a) ->
  list_sum (map (fun ca : nat * nat => MAX_CHUNK_RETRIES - ca.2)%nat fl) = ((MAX_CHUNK_RETRIES - a) + list_sum (map (fun ca : nat * nat => MAX_CHUNK_RETRIES - ca.2)%nat (delete k fl)))%nat.
Proof.
  revert k. induction fl as [|[c' a'] fl IH]; intros [|k] Hk; simplify_eq/=; [done|]. rewrite (IH k Hk). lia.
Qed.

Lemma upload_step_work hist u k c a res u' : upload_inv hist u -> flying u !! k = Some (c, a) -> upload_step u k res = Some u' -> (S (upload_work u') <= upload_work u)%nat.
Proof.
  intros Hu Hk Hs. destruct (rest_kept hist u k c a res Hu Hk) as (_ & _ & _ & _ & Ha). pose proof (work_delete _ _ _ _ Hk) as Hw.
  unfold upload_step in Hs. destruct (first_err u); [done|]. rewrite Hk in Hs. apply (inj Some) in Hs as <-.
  assert (Hset : forall info, (S (upload_work (settle u (delete k (flying u)) c info)) <= upload_work u)%nat).
  { intros info. unfold settle, upload_work. rewrite Hw. unfold MAX_CHUNK_RETRIES in *. destruct (queue u) as [|c' q]; cbn [queue flying length]; [lia|]. rewrite map_app, list_sum_app. cbn [map list_sum fold_right snd]. lia. }
  assert (Hfail : forall e, (S (upload_work (fail u (delete k (flying u)) c e)) <= upload_work u)%nat) by (intros e; unfold fail, upload_work; cbn [queue flying]; rewrite Hw; unfold MAX_CHUNK_RETRIES in *; lia).
  destruct res as [info|e]; [done|]. destruct e; [| done|]; (destruct (Nat.ltb_spec (a + 1) MAX_CHUNK_RETRIES); [|done]); unfold upload_work; cbn [queue flying];
    rewrite map_app, list_sum_app; cbn [map list_sum fold_right snd]; rewrite Hw; unfold MAX_CHUNK_RETRIES in *; lia.
Qed.

Lemma start_work : (upload_work (upload_start total buffer) = MAX_CHUNK_RETRIES * total)%nat.
Proof.
  unfold upload_work, upload_start. cbn [queue flying]. rewrite map_map. cbn [snd].
  assert (E : forall l : list nat, list_sum (map (fun _ => MAX_CHUNK_RETRIES - 0)%nat l) = (MAX_CHUNK_RETRIES * length l)%nat) by (induction l as [|x l IHl]; cbn [map list_sum fold_right length]; [lia|]; unfold list_sum in IHl; rewrite IHl; lia).
  rewrite E, length_take, length_drop, length_seq. lia.
Qed.

(** C20: An upload ends.  No more than sixty dispatches per chunk ever complete, whatever
    they return; and as long as the loop is not over a dispatch is in flight, so it
    never waits for nothing. *)
Theorem upload_terminates hist u : upload_reaches hist u -> (0 < total)%nat -> (0 < buffer)%nat ->
  (length hist <= MAX_CHUNK_RETRIES * total)%nat /\
  (upload_over u = false -> flying u <> [] /\ forall k res, (k < length (flying u))%nat -> is_Some (upload_step u k res)).
Proof.
  intros Hr Ht Hb. split.
  - assert (Hle : (length hist + upload_work u <= MAX_CHUNK_RETRIES * total)%nat); [|lia].
    induction Hr as [|hist u k c a res u' Hr IH Hk _ Hs]; [rewrite start_work; done|].
    apply upload_reaches_inv in Hr as Hu. pose proof (upload_step_work hist u k c a res u' Hu Hk Hs). rewrite length_app. cbn [length]. lia.
  - intros Hover. apply upload_reaches_inv in Hr as Hu. unfold upload_over in Hover. destruct (first_err u) as [e|] eqn:Ee; [done|]. split.
    + intros Hnil. destruct (ui_end _ _ Hu Ht Hb Ee Hnil) as [_ Hm]. rewrite Hm, bool_decide_true in Hover by done. done.
    + intros k res Hk. apply lookup_lt_is_Some in Hk as [[c a] Hk]. unfold upload_step. rewrite Ee, Hk. by eexists.
Qed.
End UploadProps.

(** ** The two machines together *)

(** A dispatch of chunk [c]: some order of the pool, raced until it resolves. *)
Definition dispatched (po : nat -> nat -> Z) (max_retries : nat) (c : nat) (res : result PushInfo DispatchError) : Prop :=
  exists order best_po seen, NoDup order /\ dispatch_reaches order (po c) best_po max_retries seen (Resolved res).

(** Why a chunk counts as delivered: a peer's receipt at the depth reported, or sixty
    dispatches of which the last got shallow receipts. *)
Definition delivered (po : nat -> nat -> Z) (max_retries : nat) (hist : list (nat * result PushInfo DispatchError)) (c : nat) (info : PushInfo) : Prop :=
  pi_shallow info = false /\ (exists order best_po seen i rc, dispatch_reaches order (po c) best_po max_retries seen (Resolved (Ok info)) /\
     (i, Ok (OReceipt rc)) ∈ seen /\ i ∈ order /\ pi_po info = po c i) \/
  pi_shallow info = true /\ tries hist c = MAX_CHUNK_RETRIES /\
     exists order best_po seen i rc, dispatch_reaches order (po c) best_po max_retries seen (Resolved (Err ShallowOnly)) /\ (i, Ok (OShallow rc)) ∈ seen.

Lemma report_delivered po max_retries total buffer hist u c info :
  upload_reaches total buffer (dispatched po max_retries) hist u -> (c, Ok info) ∈ reports u -> delivered po max_retries hist c info.
Proof.
  intros [_ _ _ _ _ Hj Hres _ _]%upload_reaches_inv Hin. rewrite Forall_forall in Hj, Hres.
  destruct (Hj _ Hin) as [Hh|(-> & Hh & Htr)]; cbn [fst snd] in *.
  - left. destruct (Hres _ Hh) as (order & best & seen & Hnd & Hd). cbn [fst snd] in Hd. destruct (dispatch_reaches_inv _ _ _ _ _ _ Hd) as (_ & i & rc & Hi & Hio & ->).
    split; [done|]. by exists order, best, seen, i, rc.
  - right. destruct (Hres _ Hh) as (order & best & seen & Hnd & Hd). cbn [fst snd] in Hd. destruct (dispatch_reaches_inv _ _ _ _ _ _ Hd) as (_ & _ & [i out] & Hi & Hs).
    destruct out as [[| |rc]|]; try done. split_and!; [done|done|]. by exists order, best, seen, i, rc.
Qed.


Module UploadWitness.
(** Two chunks, one dispatch at a time, two peers; the second peer's receipt wins. *)
Definition receipt : PushsyncReceipt := mkPushsyncReceipt (replicate 32 1) (replicate 65 2) (replicate 32 3) 4.
Definition po (c i : nat) : Z := Z.of_nat (c + i).
Definition info (c : nat) : PushInfo := mkInfo (po c 1) false 9.
Definition run : Upload := mkUpload [] [] false [(0%nat, Ok (info 0)); (1%nat, Ok (info 1))] 2 None.

Lemma chunk_dispatched c : dispatched po 3 c (Ok (info c)).
Proof.
  exists [0%nat; 1%nat], 9, [(1%nat, Ok (OReceipt receipt))]. split; [apply (bool_decide_unpack _); by vm_compute|].
  apply (DrRace _ _ _ _ [] (launch_n [0%nat; 1%nat] 3 CHUNK_PEER_PARALLELISM (mkRace 0 0 [] 0 0 0 None None)) 1 1 (Ok (OReceipt receipt))); [apply DrStart|reflexivity|reflexivity].
Qed.

Lemma run_reached : upload_reaches 2 1 (dispatched po 3) [(0%nat, Ok (info 0)); (1%nat, Ok (info 1))] run.
Proof.
  apply (UrStep 2 1 _ [(0%nat, Ok (info 0))] (mkUpload [] [(1%nat, 0%nat)] true [(0%nat, Ok (info 0))] 1 None) 0 1 0 (Ok (info 1))); [|reflexivity|apply chunk_dispatched|reflexivity].
  apply (UrStep 2 1 _ [] (upload_start 2 1) 0 0 0 (Ok (info 0))); [apply UrStart|reflexivity|apply chunk_dispatched|reflexivity].
Qed.


Lemma upload_accounts_witness : pushed run = 2%nat.
Proof. destruct (upload_accounts 2 1 _ _ run run_reached) as (_ & _ & _ & _ & _ & H). destruct (H ltac:(lia) ltac:(lia) eq_refl) as [_ H']. exact H'. Defined.

Lemma upload_terminates_witness : (2 <= MAX_CHUNK_RETRIES * 2)%nat.
Proof. destruct (upload_terminates 2 1 _ _ run run_reached ltac:(lia) ltac:(lia)) as [H _]. exact H. Defined.
End UploadWitness.
