(* ===== verification/Payer.v ===== *)
(** * The paying client ([src/src/payer.rs])

    Verification of a lane's signed quote, the offered challenge, the per-lane
    account the client keeps from the bytes it sent, the sizing of requests against
    the credit line, and the payment loop: fetch a capability, present a cumulative
    cheque, reconcile with the relay's figure.

    The relay is an argument: what it answers to each request, as a function of a
    state of its own.  Signing is the interface [Wallet]. *)
From Stdlib Require Import ZArith Lia.
From stdpp Require Import base tactics numbers countable strings list gmap.
From S2P Require Import Prelude Codec PushFrame Signer Challenge Swap Meter Ledger Cheques.
Local Open Scope Z_scope.
Local Open Scope hov_scope.

(** [struct PaymentQuote], [struct LanePin], [enum QuoteError]. *)
Record PaymentQuote := mkQuote {
  pq_beneficiary : bytes;
  pq_node : bytes;
  pq_nonce : bytes;
  pq_origin : str;
  pq_chain_id : Z;
  pq_params : Params;
  pq_hard : bool }.
Record LanePin := mkPin { pin_node : bytes; pin_beneficiary : bytes }.

Inductive QuoteError :=
| QField (k : str) | QSignature (e : str) | WrongSigner (got want : str) | WrongBeneficiary (got want : str)
| OverlayMismatch | BadParams (e : ParamError) | TooExpensive (got ceiling : Z).

Definition opt_ok {A E : Type} (e : E) (o : option A) : result A E :=
  match o with Some a => Ok a | None => Err e end.

Section Quote.
Context `{Hex} `{HeaderCodec} `{Crypto}.

(** The closures of [PaymentQuote::verify]. *)
Definition quote_bytes (v : JValue) (k : str) (n : nat) : result bytes QuoteError :=
  let? s := opt_ok (QField k) (as_str (jget v k)) in
  let? raw := map_err (fun _ => QField k) (hex_decode (trim_0x s)) in
  if Nat.eqb (length raw) n then Ok raw else Err (QField k).
Definition quote_plur (v : JValue) (k : str) : result Z QuoteError :=
  let? s := opt_ok (QField k) (as_str (jget v k)) in map_err (fun _ => QField k) (u128_parse s).

Definition unsigned_payload (v : JValue) : result bytes QuoteError :=
  match v with
  | JObject m => Ok (json_to_string (JObject (delete (lit "sig") m)))
  | JNotObject => Err (QField (lit "payment"))
  end.

Definition check_pin (pin : option LanePin) (node beneficiary : bytes) : result unit QuoteError :=
  match pin with
  | None => Ok tt
  | Some p =>
      if negb (bool_decide (pin_node p = node)) then Err (WrongSigner (hex_encode node) (hex_encode (pin_node p)))
      else if negb (bool_decide (pin_beneficiary p = beneficiary))
      then Err (WrongBeneficiary (hex_encode beneficiary) (hex_encode (pin_beneficiary p)))
      else Ok tt
  end.

Definition check_overlay (overlay : option bytes) (node : bytes) (network_id : Z) (nonce : bytes) : result unit QuoteError :=
  match overlay with
  | None => Ok tt
  | Some o => if bool_decide (derive_overlay node network_id nonce = o) then Ok tt else Err OverlayMismatch
  end.

Definition check_valid_secs (v : JValue) : result unit QuoteError :=
  match jget v (lit "quote_valid_secs") with
  | None => Ok tt
  | Some f =>
      let? secs := opt_ok (QField (lit "quote_valid_secs")) (as_u64 (Some f)) in
      if secs =? 0 then Err (QField (lit "quote_valid_secs")) else Ok tt
  end.

(** [PaymentQuote::verify]. *)
Definition quote_verify (v : JValue) (overlay : option bytes) (network_id : Z) (pin : option LanePin) (ceiling : Z)
    : result PaymentQuote QuoteError :=
  let? sig_hex := opt_ok (QField (lit "sig")) (as_str (jget v (lit "sig"))) in
  let? sig := map_err QSignature (hex_decode (trim_0x sig_hex)) in
  let? payload := unsigned_payload v in
  let? node := map_err (fun e => match e with Alloy msg => QSignature msg end) (recover_eth_from_eip191 payload sig) in
  let? beneficiary := quote_bytes v (lit "beneficiary") 20 in
  let? claimed := quote_bytes v (lit "node_eth_address") 20 in
  if negb (bool_decide (claimed = node)) then Err (WrongSigner (hex_encode node) (hex_encode claimed))
  else
    let? nonce := quote_bytes v (lit "overlay_nonce") 32 in
    let? _ := check_pin pin node beneficiary in
    let? _ := check_overlay overlay node network_id nonce in
    let? price := quote_plur v (lit "price_plur_per_kib") in
    let? minc := quote_plur v (lit "min_cheque_plur") in
    let? settle := quote_plur v (lit "settle_every_plur") in
    let? maxo := quote_plur v (lit "max_outstanding_plur") in
    let? ratio := opt_ok (QField (lit "credit_ratio")) (as_u64 (jget v (lit "credit_ratio"))) in
    let p := mkParams price minc settle maxo ratio in
    let? _ := check_valid_secs v in
    let? _ := map_err BadParams (validate p) in
    if ceiling <? price then Err (TooExpensive price ceiling)
    else
      let? chain := opt_ok (QField (lit "chain_id")) (as_u64 (jget v (lit "chain_id"))) in
      Ok (mkQuote beneficiary node nonce (default [] (as_str (jget v (lit "origin")))) chain p
            (bool_decide (as_str (jget v (lit "enforcement")) = Some (lit "hard")))).

(** [struct OfferedChallenge] and [OfferedChallenge::parse]. *)
Record OfferedChallenge := mkOffered {
  oc_nonce : bytes; oc_account : bytes; oc_batch : bytes; oc_origin : str; oc_expiry : Z; oc_cap : Z }.

Definition offered_fixed (v : JValue) (k : str) (n : nat) : result bytes str :=
  let? s := opt_ok (lit "challenge: missing " ++ k) (as_str (jget v k)) in
  let? raw := map_err (fun e => lit "challenge " ++ k ++ lit ": " ++ e) (hex_decode (trim_0x s)) in
  if negb (Nat.eqb (length raw) n)
  then Err (lit "challenge " ++ k ++ lit ": want " ++ u128_to_string (Z.of_nat n) ++ lit " bytes, got "
              ++ u128_to_string (Z.of_nat (length raw)))
  else Ok raw.

Definition offered_parse (v : JValue) : result OfferedChallenge str :=
  let? nonce := offered_fixed v (lit "nonce") 32 in
  let? acct := offered_fixed v (lit "account") 20 in
  let? bat := offered_fixed v (lit "batch") 32 in
  let? org := opt_ok (lit "challenge: missing origin") (as_str (jget v (lit "origin"))) in
  let? exp := opt_ok (lit "challenge: missing expiry") (as_u64 (jget v (lit "expiry"))) in
  let missing := lit "challenge: missing max_outstanding_plur" in
  let? cap_s := opt_ok missing (as_str (jget v (lit "max_outstanding_plur"))) in
  let? c := map_err (fun _ => missing) (u128_parse cap_s) in
  Ok (mkOffered nonce acct bat org exp c).

(** [OfferedChallenge::stale_after]. *)
Definition stale_after (o : OfferedChallenge) : Z := sat_sub (oc_expiry o) 30.
End Quote.

(** The signer of the batch owner ([SwarmSigner]). *)
Class Wallet := {
  eth_address : bytes;
  sign_push_challenge : PushChallenge -> Z -> result bytes str;
  sign_cheque : bytes -> bytes -> Z -> Z -> result bytes str }.

(** [OfferedChallenge::sign]. *)
Definition offered_sign `{Hex} `{HeaderCodec} `{Wallet} (o : OfferedChallenge) (chain_id : Z) : result str str :=
  let? sig := sign_push_challenge (mkPushChallenge (oc_nonce o) (oc_origin o) (oc_account o) (oc_batch o) (oc_expiry o)) chain_id in
  Ok (encode_challenge_header
        (mkIssued (mkFields (oc_account o) (oc_batch o) (oc_origin o) (oc_expiry o) (oc_cap o)) (oc_nonce o)) sig).

(** ** The account of one lane *)

(** [struct LaneAccount]. *)
Record LaneAccount := mkLA {
  la_params : Params; la_beneficiary : bytes; la_owed : Z; la_pending : Z; la_cumulative : Z; la_cap : Z }.

Definition lane_account_new (p : Params) (b : bytes) : LaneAccount := mkLA p b 0 0 0 0.
Definition with_cumulative (a : LaneAccount) (c : Z) : LaneAccount :=
  mkLA (la_params a) (la_beneficiary a) (la_owed a) (la_pending a) c (la_cap a).
Definition set_cumulative_to (a : LaneAccount) (c : Z) : LaneAccount :=
  if la_cumulative a <? c then with_cumulative a c else a.
Definition set_owed (a : LaneAccount) (o : Z) : LaneAccount :=
  mkLA (la_params a) (la_beneficiary a) o (la_pending a) (la_cumulative a) (la_cap a).
Definition set_cap (a : LaneAccount) (c : Z) : LaneAccount :=
  mkLA (la_params a) (la_beneficiary a) (la_owed a) (la_pending a) (la_cumulative a) c.
Definition lane_outstanding (a : LaneAccount) : Z := sat_add128 (la_owed a) (la_pending a).

(** [record_sent], [record_answered], [refund_dedup]. *)
Definition record_sent (a : LaneAccount) (body_bytes : Z) : LaneAccount :=
  mkLA (la_params a) (la_beneficiary a) (la_owed a) (sat_add128 (la_pending a) (price_bytes (la_params a) body_bytes))
    (la_cumulative a) (la_cap a).
Definition record_answered (a : LaneAccount) (body_bytes : Z) (reached_relay : bool) : LaneAccount :=
  let price := price_bytes (la_params a) body_bytes in
  mkLA (la_params a) (la_beneficiary a) (if reached_relay then sat_add128 (la_owed a) price else la_owed a)
    (sat_sub (la_pending a) price) (la_cumulative a) (la_cap a).
Definition refund_dedup (a : LaneAccount) (body_bytes : Z) : LaneAccount :=
  set_owed a (sat_sub (la_owed a) (price_bytes (la_params a) body_bytes)).

(** [thresholds], [should_settle], [next_cumulative]. *)
Definition thresholds (a : LaneAccount) : EffectiveParams :=
  if la_cap a =? 0 then mkEffective (min_cheque_plur (la_params a)) (settle_every_plur (la_params a))
  else effective (la_params a) (la_cap a).
Definition should_settle (a : LaneAccount) : bool := e_settle_every_plur (thresholds a) <=? la_owed a.
Definition next_cumulative (a : LaneAccount) : option Z :=
  if la_owed a <? e_min_cheque_plur (thresholds a) then None else Some (sat_add128 (la_cumulative a) (la_owed a)).

(** [forgive_phantom_debt], [sync_relay_debt], [adopt_relay_debt], [settled], [max_body_bytes]. *)
Definition forgive_phantom_debt (a : LaneAccount) : LaneAccount := set_owed a 0.
Definition sync_relay_debt (a : LaneAccount) (relay_owed : Z) : LaneAccount := set_owed a relay_owed.
Definition adopt_relay_debt (a : LaneAccount) (relay_owed : Z) : LaneAccount * bool :=
  let adopt := sat_sub relay_owed (la_pending a) in
  if adopt <=? la_owed a then (a, false) else (set_owed a adopt, true).
Definition settled (a : LaneAccount) (cumulative : Z) : LaneAccount :=
  let credited := sat_sub cumulative (la_cumulative a) in
  mkLA (la_params a) (la_beneficiary a) (sat_sub (la_owed a) credited) (la_pending a) cumulative (la_cap a).
Definition max_body_bytes (a : LaneAccount) (c : Z) : Z :=
  let headroom := sat_sub c (lane_outstanding a) in
  let kib := headroom / Z.max (price_plur_per_kib (la_params a)) 1 in
  Z.min (sat_mul U128_MAX kib 1024) U64_MAX.

(** ** The payer of one lane *)

(** [struct PaymentConfig] (the signer is the [Wallet], the pins belong to the
    caller of [quote_verify]) and [struct LanePayer]. *)
Record PaymentConfig := mkPayCfg { pay_batch : bytes; pay_chequebook : bytes; pay_chain_id : Z; pay_balance : Z }.
Record LanePayer := mkPayer {
  py_url : str; py_quote : PaymentQuote; py_account : LaneAccount;
  py_header : option str; py_stale_after : Z; py_cap : Z }.

Definition payer_new (url : str) (q : PaymentQuote) (cumulative : Z) : LanePayer :=
  mkPayer url q (with_cumulative (lane_account_new (pq_params q) (pq_beneficiary q)) cumulative) None 0 0.
Definition set_account_of (p : LanePayer) (a : LaneAccount) : LanePayer :=
  mkPayer (py_url p) (py_quote p) a (py_header p) (py_stale_after p) (py_cap p).
Definition clear_header (p : LanePayer) : LanePayer :=
  mkPayer (py_url p) (py_quote p) (py_account p) None 0 (py_cap p).
Definition cap_known (p : LanePayer) : bool := negb (py_cap p =? 0).

(** [frames_within]: the estimate, walked down by the [while] loop; [None] is out of
    fuel.  Then [max_frames], [affordable_frames], [has_headroom], [would_exceed]. *)
Fixpoint walk_down (fuel : nat) (p : Params) (budget n : Z) : option Z :=
  if (1 <? n) && (budget <? price_bytes p (wrap 64 (n * Z.of_nat MAX_FRAME_LEN))) then
    match fuel with O => None | S fuel' => walk_down fuel' p budget (n - 1) end
  else Some n.
Definition frames_estimate (p : Params) (budget : Z) : Z :=
  Z.min (sat_mul U128_MAX (budget / price_plur_per_kib p) 1024 / Z.of_nat MAX_FRAME_LEN) U64_MAX.
Definition frames_within (fuel : nat) (p : Params) (budget : Z) : option Z :=
  if budget =? 0 then Some 0
  else match walk_down fuel p budget (frames_estimate p budget) with Some n => Some (Z.max n 1) | None => None end.
Definition max_frames (fuel : nat) (p : LanePayer) : option Z :=
  if py_cap p =? 0 then Some U64_MAX else frames_within fuel (pq_params (py_quote p)) (py_cap p).
Definition affordable_frames (fuel : nat) (p : LanePayer) : option Z :=
  if py_cap p =? 0 then Some U64_MAX
  else
    let headroom := sat_sub (py_cap p) (lane_outstanding (py_account p)) in
    if headroom <? price_bytes (pq_params (py_quote p)) (Z.of_nat MAX_FRAME_LEN) then Some 0
    else frames_within fuel (pq_params (py_quote p)) headroom.
Definition has_headroom (p : LanePayer) : bool :=
  (py_cap p =? 0) ||
  (sat_add128 (lane_outstanding (py_account p)) (price_bytes (pq_params (py_quote p)) (Z.of_nat MAX_FRAME_LEN)) <=? py_cap p).
Definition would_exceed (p : LanePayer) (body_bytes : Z) : bool :=
  (0 <? py_cap p) &&
  (py_cap p <? sat_add128 (lane_outstanding (py_account p)) (price_bytes (pq_params (py_quote p)) body_bytes)).

(** ** The payment loop *)

(** What the relay answers: to a request for JSON, and to a payment. *)
Inductive JsonAnswer := JSend (e : str) | JStatus (code text : str) | JBadJson (e : str) | JOk (v : JValue).
Inductive PayAnswer := PSend (e : str) | PStatus (code text : str) | POk.

Definition int_error_text (e : IntError) : str :=
  match e with
  | IntEmpty => lit "cannot parse integer from empty string"
  | InvalidDigit => lit "invalid digit found in string"
  | PosOverflow => lit "number too large to fit in target type"
  end.

Section Loop.
Context `{Hex} `{HeaderCodec} `{Wallet} (to_string_pretty : ChequesOnDisk -> bytes).
Context {W : Type} (clock : W -> Z) (fault : W -> Fault).
Context (req_challenge : W -> bytes -> bytes -> W * JsonAnswer) (req_account : W -> str -> W * JsonAnswer)
  (req_pay : W -> str -> bytes -> W * PayAnswer).
Context (pcfg : PaymentConfig).

(** The world of the relay, the payer, and the cheque store with its files, which
    all lanes share. *)
Record Pay := mkPay { p_world : W; p_payer : LanePayer; p_store : ChequeStore; p_disk : Disk }.

Definition with_payer (s : Pay) (p : LanePayer) : Pay := mkPay (p_world s) p (p_store s) (p_disk s).
Definition with_account (s : Pay) (a : LaneAccount) : Pay := with_payer s (set_account_of (p_payer s) a).
Definition with_world (s : Pay) (w : W) : Pay := mkPay w (p_payer s) (p_store s) (p_disk s).

Definition wrong_chain (p : LanePayer) : str :=
  lit "lane " ++ py_url p ++ lit " quotes chain " ++ u128_to_string (pq_chain_id (py_quote p))
    ++ lit " but this client pays on chain " ++ u128_to_string (pay_chain_id pcfg).

(** [LanePayer::header]. *)
Definition header (s : Pay) : Pay * result str str :=
  let p := p_payer s in
  if negb (pq_chain_id (py_quote p) =? pay_chain_id pcfg) then (s, Err (wrong_chain p))
  else
    let now := clock (p_world s) in
    if match py_header p with None => true | Some _ => py_stale_after p <=? now end then
      let '(w, ans) := req_challenge (p_world s) eth_address (pay_batch pcfg) in
      let s := with_world s w in
      match ans with
      | JSend e => (s, Err (lit "challenge fetch: " ++ e))
      | JStatus code text => (s, Err (lit "challenge " ++ code ++ lit ": " ++ trim text))
      | JBadJson e => (s, Err (lit "challenge json: " ++ e))
      | JOk v =>
          match offered_parse v with
          | Err e => (s, Err e)
          | Ok o =>
              let p1 := mkPayer (py_url p) (py_quote p) (set_cap (py_account p) (oc_cap o)) (py_header p)
                          (stale_after o) (oc_cap o) in
              match offered_sign o (pq_chain_id (py_quote p)) with
              | Err e => (with_payer s p1, Err e)
              | Ok h => (with_payer s (mkPayer (py_url p1) (py_quote p1) (py_account p1) (Some h) (py_stale_after p1) (py_cap p1)), Ok h)
              end
          end
      end
    else (s, Ok (default [] (py_header p))).

(** [LanePayer::relay_owed]. *)
Definition relay_owed (s : Pay) : Pay * result Z str :=
  let '(s, h) := header s in
  match h with
  | Err e => (s, Err e)
  | Ok h =>
      let '(w, ans) := req_account (p_world s) h in
      let s := with_world s w in
      match ans with
      | JSend e => (s, Err (lit "account fetch: " ++ e))
      | JStatus code _ => (s, Err (lit "account: http " ++ code))
      | JBadJson e => (s, Err (lit "account decode: " ++ e))
      | JOk v =>
          match as_str (jget v (lit "owed_plur")) with
          | None => (s, Err (lit "account: missing owed_plur"))
          | Some t => (s, map_err (fun e => lit "account: bad owed_plur: " ++ int_error_text e) (u128_parse t))
          end
      end
  end.

(** [check_reported_debt] and [LanePayer::reconcile]. *)
Definition check_reported_debt (p : LanePayer) (o balance : Z) : result unit str :=
  let ceiling := max_outstanding_plur (pq_params (py_quote p)) in
  if ceiling <? o then Err (lit "relay claims " ++ u128_to_string o ++ lit " owed, above the " ++ u128_to_string ceiling
         ++ lit " ceiling it signed " ++ [0x2014] ++ lit " it cannot have admitted that much")
  else if balance <? o
  then Err (lit "relay claims " ++ u128_to_string o ++ lit " owed, more than the chequebook's "
         ++ u128_to_string balance ++ lit " balance")
  else Ok tt.

Definition reconcile (s : Pay) : Pay * result bool str :=
  let '(s, r) := relay_owed s in
  match r with
  | Err e => (s, Err e)
  | Ok o =>
      match check_reported_debt (p_payer s) o (pay_balance pcfg) with
      | Err e => (s, Err e)
      | Ok _ => let '(a, moved) := adopt_relay_debt (py_account (p_payer s)) o in (with_account s a, Ok moved)
      end
  end.

Definition sync_cumulative (s : Pay) : Pay :=
  let stored := store_cumulative (p_store s) (relay_key (pq_beneficiary (py_quote (p_payer s)))) in
  with_account s (set_cumulative_to (py_account (p_payer s)) stored).

Definition over_balance (c : Z) : str :=
  lit "cheque for " ++ u128_to_string c ++ lit " would push total issuance past the chequebook's "
    ++ u128_to_string (pay_balance pcfg) ++ lit " balance across all lanes".

(** The end of [LanePayer::pay]: the second gate, the record and its save. *)
Definition record_paid (s : Pay) (c : Z) : Pay * result (option Z) str :=
  let key := relay_key (pq_beneficiary (py_quote (p_payer s))) in
  if would_exceed_balance (p_store s) key c (pay_balance pcfg) then (s, Err (over_balance c))
  else
    let '(st, r) := set_cumulative (p_store s) key c in
    match r with
    | Err _ => (s, Err (lit "cheque store: amount overflows u128"))
    | Ok _ =>
        let '(d, _) := save to_string_pretty st (p_disk s) (fault (p_world s)) in
        let s := mkPay (p_world s) (p_payer s) st d in
        (with_account s (settled (py_account (p_payer s)) c), Ok (Some c))
    end.

(** [LanePayer::pay]; [n] is the number of corrections left, 1 or 0. *)
Fixpoint pay (n : nat) (s : Pay) (c : Z) : Pay * result (option Z) str :=
  let p := p_payer s in
  let q := py_quote p in
  if negb (pq_chain_id q =? pay_chain_id pcfg) then (s, Err (wrong_chain p))
  else if would_exceed_balance (p_store s) (relay_key (pq_beneficiary q)) c (pay_balance pcfg)
  then (s, Err (over_balance c))
  else
    match sign_cheque (pay_chequebook pcfg) (pq_beneficiary q) c (pq_chain_id q) with
    | Err e => (s, Err (lit "sign cheque: " ++ e))
    | Ok sig =>
        let body := encode_signed_cheque_json (pay_chequebook pcfg) (pq_beneficiary q) c sig in
        let '(s, h) := header s in
        match h with
        | Err e => (s, Err e)
        | Ok h =>
            let '(w, ans) := req_pay (p_world s) h body in
            let s := with_world s w in
            match ans with
            | PSend e => (s, Err (lit "pay: " ++ e))
            | POk => record_paid s c
            | PStatus code text =>
                if contains (lit "nothing owed") text
                then (with_account s (forgive_phantom_debt (py_account (p_payer s))), Ok None)
                else
                  match n with
                  | S n' =>
                      if contains (lit "is owed") text then
                        let '(s, r) := relay_owed s in
                        match r with
                        | Err e => (s, Err e)
                        | Ok o =>
                            let s := with_account s (sync_relay_debt (py_account (p_payer s)) o) in
                            match next_cumulative (py_account (p_payer s)) with
                            | None => (s, Ok None)
                            | Some corrected => pay n' s corrected
                            end
                        end
                      else (s, Err (lit "pay " ++ code ++ lit ": " ++ trim text))
                  | O => (s, Err (lit "pay " ++ code ++ lit ": " ++ trim text))
                  end
            end
        end
    end.

(** [LanePayer::settle]. *)
Definition settle (s : Pay) : Pay * result (option Z) str :=
  let s := sync_cumulative s in
  match next_cumulative (py_account (p_payer s)) with
  | None => (s, Ok None)
  | Some c => pay 1 s c
  end.
End Loop.
