(* ===== verification/PayerMirror.v ===== *)
(** * The client's account refines the relay's

    The client never sees the relay's ledger: it mirrors it from the bytes it sent
    ([LaneAccount] of payer.rs against [Ledger] of ledger.rs).  Here both sides run
    together: a request is posted and reserved or refused, committed by the relay,
    and later answered to the client; cheques are issued and credited; the client
    may adopt the relay's figure, or restart and remember only its cheques.  The
    client's debt stays a lower bound of the relay's, so the cheques it issues are
    credited in full; while nothing is deduplicated and no process restarts the two
    accounts agree exactly. *)
From Stdlib Require Import ZArith Lia.
From stdpp Require Import base tactics numbers list gmap.
From S2P Require Import Prelude Codec Meter Ledger Payer.
Local Open Scope Z_scope.

(** A request in flight: its size, and what the relay did with it; of a committed
    one [dedup] bytes were recognised as already pushed. *)
Inductive PostState := PReserved | PCommitted (dedup : Z) | PRefused.
Record Post := mkPost { po_bytes : Z; po_state : PostState }.

Definition psum (f : Post -> Z) (ps : list Post) : Z := foldr (fun x acc => f x + acc) 0 ps.

Lemma psum_app f a b : psum f (a ++ b) = psum f a + psum f b.
Proof. unfold psum. induction a as [|x a IH]; cbn; [lia|]. rewrite IH. lia. Qed.

Lemma psum_mid f a x b : psum f (a ++ x :: b) = f x + psum f (a ++ b).
Proof. rewrite !psum_app. unfold psum. cbn. lia. Qed.

Lemma psum_nonneg f ps : Forall (fun x => 0 <= f x) ps -> 0 <= psum f ps.
Proof. unfold psum. induction 1; cbn; lia. Qed.

Lemma psum_le f g ps : Forall (fun x => f x <= g x) ps -> psum f ps <= psum g ps.
Proof. unfold psum. induction 1; cbn; lia. Qed.

Section Mirror.
Context `{Hex} (k cb : bytes) (p : Params) (Hprice : 0 <= price_plur_per_kib p <= U64_MAX).

Abbreviation cost n := (price_bytes p n).

(** What a post contributes: to the client's pending total, to the relay's
    reservations, and to the relay's debt before the client knows. *)
Definition f_pending (x : Post) : Z := cost (po_bytes x).
Definition f_reserved (x : Post) : Z := match po_state x with PReserved => cost (po_bytes x) | _ => 0 end.
Definition f_committed (x : Post) : Z := match po_state x with PCommitted d => cost (po_bytes x - d) | _ => 0 end.

Record Joint := mkJoint { j_a : LaneAccount; j_l : Ledger; j_posts : list Post }.

(** The answer to a request the relay read: bill it, then refund the repeats. *)
Definition answered (a : LaneAccount) (n d : Z) : LaneAccount :=
  let a := record_answered a n true in if 0 <? d then refund_dedup a d else a.

(** Steps of the pair; the flag marks those that lose nothing. *)
Inductive jstep : bool -> Joint -> Joint -> Prop :=
| js_post a l ps n cap : 0 <= n <= U64_MAX ->
    la_owed a + la_pending a + cost n <= U128_MAX -> owed l k + reserved l k + cost n <= U128_MAX ->
    jstep true (mkJoint a l ps) (mkJoint (record_sent a n) (reserve l k (cost n) cap).1 (mkPost n PReserved :: ps))
| js_refuse a l ps n cap : 0 <= n <= U64_MAX ->
    la_owed a + la_pending a + cost n <= U128_MAX -> owed l k + reserved l k + cost n <= U128_MAX ->
    jstep true (mkJoint a l ps)
      (mkJoint (record_sent a n) (release (reserve l k (cost n) cap).1 k (cost n)) (mkPost n PRefused :: ps))
| js_commit a l ps1 ps2 n d : 0 <= d <= n ->
    jstep (d =? 0) (mkJoint a l (ps1 ++ mkPost n PReserved :: ps2))
      (mkJoint a (commit l k (cost n) (cost (n - d))) (ps1 ++ mkPost n (PCommitted d) :: ps2))
| js_answer a l ps1 ps2 n d :
    jstep (d =? 0) (mkJoint a l (ps1 ++ mkPost n (PCommitted d) :: ps2)) (mkJoint (answered a n d) l (ps1 ++ ps2))
| js_answer_402 a l ps1 ps2 n :
    jstep true (mkJoint a l (ps1 ++ mkPost n PRefused :: ps2)) (mkJoint (record_answered a n false) l (ps1 ++ ps2))
| js_cap a l ps c : jstep true (mkJoint a l ps) (mkJoint (set_cap a c) l ps)
| js_settle a l ps c sig delta : next_cumulative a = Some c -> (credit l k cb c sig).2 = Ok delta ->
    jstep true (mkJoint a l ps) (mkJoint (settled a c) (credit l k cb c sig).1 ps)
| js_adopt a l ps : jstep false (mkJoint a l ps) (mkJoint (adopt_relay_debt a (owed l k)).1 l ps)
| js_restart a l ps : jstep false (mkJoint a l ps)
    (mkJoint (with_cumulative (lane_account_new p (la_beneficiary a)) (la_cumulative a)) l [])
| js_orphan a l ps res billed : 0 <= billed <= res -> res <= reserved l k - psum f_reserved ps ->
    jstep false (mkJoint a l ps) (mkJoint a (commit l k res billed) ps).

Inductive jreach (j0 : Joint) : bool -> Joint -> Prop :=
| jr_init : jreach j0 true j0
| jr_step e e' j j' : jreach j0 e j -> jstep e' j j' -> jreach j0 (e && e') j'.

(** The refinement relation. *)
Record mirrors (j : Joint) : Prop := {
  m_params : la_params (j_a j) = p;
  m_owed : 0 <= la_owed (j_a j);
  m_pending : la_pending (j_a j) = psum f_pending (j_posts j);
  m_slack : la_owed (j_a j) + psum f_committed (j_posts j) <= owed (j_l j) k;
  m_cum : la_cumulative (j_a j) = last_cumulative_of (j_l j) k cb;
  m_posts : Forall (fun x => 0 <= po_bytes x <= U64_MAX /\
    match po_state x with PCommitted d => 0 <= d <= po_bytes x | _ => True end) (j_posts j);
  m_reserved : psum f_reserved (j_posts j) <= reserved (j_l j) k;
  m_bound : owed (j_l j) k + reserved (j_l j) k <= U128_MAX;
  m_bound' : la_owed (j_a j) + la_pending (j_a j) <= U128_MAX }.

(** ... and without loss. *)
Definition mirrors_exactly (j : Joint) : Prop :=
  la_owed (j_a j) + psum f_committed (j_posts j) = owed (j_l j) k /\
  psum f_reserved (j_posts j) = reserved (j_l j) k.

Lemma cost_eq n : 0 <= n <= U64_MAX -> cost n = div_ceil n 1024 * price_plur_per_kib p.
Proof using Hprice. intros Hn. by apply price_bytes_eq. Qed.

Lemma cost_nonneg n : 0 <= n <= U64_MAX -> 0 <= cost n.
Proof using Hprice. intros Hn. rewrite cost_eq by done. pose proof (div_ceil_nonneg n 1024). nia. Qed.

Lemma cost_split n d : 0 <= d <= n -> n <= U64_MAX -> cost n <= cost (n - d) + cost d /\ cost (n - d) <= cost n.
Proof using Hprice.
  intros Hd Hn. rewrite !cost_eq by lia. pose proof (div_ceil_spec n 1024 ltac:(lia)).
  pose proof (div_ceil_spec (n - d) 1024 ltac:(lia)). pose proof (div_ceil_spec d 1024 ltac:(lia)).
  rewrite <- Z.mul_add_distr_r. split; apply Z.mul_le_mono_nonneg_r; lia.
Qed.

Lemma posts_facts ps : Forall (fun x => 0 <= po_bytes x <= U64_MAX /\
    match po_state x with PCommitted d => 0 <= d <= po_bytes x | _ => True end) ps ->
  Forall (fun x => 0 <= f_committed x <= f_pending x /\ 0 <= f_reserved x <= f_pending x) ps.
Proof using Hprice.
  intros Hps. eapply Forall_impl; [exact Hps|]. intros [n st] [Hn Hd]. unfold f_committed, f_reserved, f_pending. cbn in *.
  pose proof (cost_nonneg n Hn). destruct st as [|d|]; try lia.
  pose proof (cost_nonneg (n - d) ltac:(lia)). pose proof (cost_split n d Hd ltac:(lia)). lia.
Qed.

Lemma reserve_entry_of l amount cap : 0 <= reserved l k -> 0 <= amount -> reserved l k + amount <= U128_MAX ->
  let l' := (reserve l k amount cap).1 in
  owed l' k = owed l k /\ reserved l' k = reserved l k + amount /\
  last_cumulative_of l' k cb = last_cumulative_of l k cb.
Proof.
  intros Hr Ha Hb. cbv zeta. unfold reserve. cbn [fst]. unfold last_cumulative_of.
  rewrite !held_entry, !owed_entry, !reserved_entry, entry_set, decide_True by done. cbn.
  rewrite <- reserved_entry. split; [done|]. split; [sat|done].
Qed.

Lemma commit_entry_of l res billed : 0 <= owed l k -> 0 <= billed -> owed l k + billed <= U128_MAX ->
  0 <= res <= reserved l k ->
  let l' := commit l k res billed in
  owed l' k = owed l k + billed /\ reserved l' k = reserved l k - res /\
  last_cumulative_of l' k cb = last_cumulative_of l k cb.
Proof.
  intros Ho Hb Hs Hr. cbv zeta. unfold last_cumulative_of.
  rewrite !held_entry, !owed_entry, !reserved_entry, commit_entry, decide_True by done. cbn.
  rewrite <- !owed_entry, <- !reserved_entry. split; [sat|]. split; [sat|done].
Qed.

Lemma release_entry_of l res : 0 <= owed l k <= U128_MAX -> 0 <= res <= reserved l k ->
  let l' := release l k res in
  owed l' k = owed l k /\ reserved l' k = reserved l k - res /\
  last_cumulative_of l' k cb = last_cumulative_of l k cb.
Proof.
  intros Ho Hr. cbv zeta. pose proof (commit_entry_of l res 0 ltac:(lia) ltac:(lia) ltac:(lia) Hr) as (E1 & E2 & E3).
  pose proof (release_entry_nonneg l k res k Ho ltac:(lia)) as E. unfold last_cumulative_of in *.
  rewrite !held_entry, !owed_entry, !reserved_entry in *. rewrite E. rewrite E1, E2, E3. split; [lia|done].
Qed.

Lemma credit_entry_of l c sig delta : (credit l k cb c sig).2 = Ok delta ->
  let l' := (credit l k cb c sig).1 in
  delta = c - last_cumulative_of l k cb /\ 0 < delta <= owed l k /\ c <= MAX_CUMULATIVE_PLUR /\
  owed l' k = owed l k - delta /\ reserved l' k = reserved l k /\ last_cumulative_of l' k cb = c.
Proof.
  intros Hc. cbv zeta. destruct (credit_cases l k cb c sig) as [(e & E & _)|(d & E & Hm & Hd & Ed & _ & ->)]; [congruence|].
  assert (d = delta) as -> by congruence. split_and!; try lia.
  - unfold owed. cbn. by rewrite lookup_insert_eq.
  - unfold reserved at 1. cbn. by rewrite lookup_insert_eq.
  - unfold last_cumulative_of, held_cheque. cbn. rewrite lookup_insert_eq. cbn. by rewrite lookup_insert_eq.
Qed.

(** The sums around one post. *)
Lemma sums_mid ps1 ps2 x :
  psum f_pending (ps1 ++ x :: ps2) = cost (po_bytes x) + psum f_pending (ps1 ++ ps2) /\
  psum f_reserved (ps1 ++ x :: ps2) =
    match po_state x with PReserved => cost (po_bytes x) | _ => 0 end + psum f_reserved (ps1 ++ ps2) /\
  psum f_committed (ps1 ++ x :: ps2) =
    match po_state x with PCommitted d => cost (po_bytes x - d) | _ => 0 end + psum f_committed (ps1 ++ ps2).
Proof. rewrite !psum_mid. done. Qed.

(** What a mirrored pair knows about its sums. *)
Lemma mirrors_sums j : mirrors j ->
  0 <= psum f_committed (j_posts j) <= psum f_pending (j_posts j) /\
  0 <= psum f_reserved (j_posts j) <= psum f_pending (j_posts j) /\
  0 <= owed (j_l j) k <= U128_MAX /\ 0 <= reserved (j_l j) k.
Proof using Hprice.
  intros M. pose proof (posts_facts _ (m_posts j M)) as F.
  assert (0 <= psum f_committed (j_posts j)) by (apply psum_nonneg; eapply Forall_impl; [exact F|]; cbn; lia).
  assert (0 <= psum f_reserved (j_posts j)) by (apply psum_nonneg; eapply Forall_impl; [exact F|]; cbn; lia).
  assert (psum f_committed (j_posts j) <= psum f_pending (j_posts j)) by (apply psum_le; eapply Forall_impl; [exact F|]; cbn; lia).
  assert (psum f_reserved (j_posts j) <= psum f_pending (j_posts j)) by (apply psum_le; eapply Forall_impl; [exact F|]; cbn; lia).
  destruct M. split_and!; lia.
Qed.

(** Close the clauses of the refinement relation for a pair of updated records. *)
Ltac mirror_goal M :=
  let M1 := fresh in
  destruct M as [M1 ? ? ? ? ? ? ? ?]; unfold mirrors_exactly; cbn [j_a j_l j_posts po_bytes po_state] in *;
  split; [split|]; cbn [j_a j_l j_posts la_params la_owed la_pending la_cumulative record_sent record_answered refund_dedup set_owed set_cap settled];
  rewrite ?M1; try done; try sat.

Definition preserved (e : bool) (j j' : Joint) : Prop :=
  mirrors j -> mirrors j' /\ (e = true -> mirrors_exactly j -> mirrors_exactly j').

Lemma post_preserved a l ps n cap : 0 <= n <= U64_MAX ->
  la_owed a + la_pending a + cost n <= U128_MAX -> owed l k + reserved l k + cost n <= U128_MAX ->
  preserved true (mkJoint a l ps) (mkJoint (record_sent a n) (reserve l k (cost n) cap).1 (mkPost n PReserved :: ps)).
Proof using Hprice.
  intros Hn Ha Hl M. destruct (mirrors_sums _ M) as (Sc & Sr & So & Sv). cbn [j_a j_l j_posts] in *.
  pose proof (cost_nonneg n Hn). pose proof (reserve_entry_of l (cost n) cap ltac:(lia) ltac:(lia) ltac:(lia)) as (E1 & E2 & E3).
  pose proof (sums_mid [] ps (mkPost n PReserved)) as (X1 & X2 & X3). cbn [app po_bytes po_state] in *.
  mirror_goal M.
  by constructor.
Qed.

Lemma refuse_preserved a l ps n cap : 0 <= n <= U64_MAX ->
  la_owed a + la_pending a + cost n <= U128_MAX -> owed l k + reserved l k + cost n <= U128_MAX ->
  preserved true (mkJoint a l ps)
    (mkJoint (record_sent a n) (release (reserve l k (cost n) cap).1 k (cost n)) (mkPost n PRefused :: ps)).
Proof using Hprice.
  intros Hn Ha Hl M. destruct (mirrors_sums _ M) as (Sc & Sr & So & Sv). cbn [j_a j_l j_posts] in *.
  pose proof (cost_nonneg n Hn). pose proof (reserve_entry_of l (cost n) cap ltac:(lia) ltac:(lia) ltac:(lia)) as (E1 & E2 & E3).
  pose proof (release_entry_of (reserve l k (cost n) cap).1 (cost n) ltac:(lia) ltac:(lia)) as (F1 & F2 & F3).
  pose proof (sums_mid [] ps (mkPost n PRefused)) as (X1 & X2 & X3). cbn [app po_bytes po_state] in *.
  mirror_goal M. by constructor.
Qed.

Lemma commit_preserved a l ps1 ps2 n d : 0 <= d <= n ->
  preserved (d =? 0) (mkJoint a l (ps1 ++ mkPost n PReserved :: ps2))
    (mkJoint a (commit l k (cost n) (cost (n - d))) (ps1 ++ mkPost n (PCommitted d) :: ps2)).
Proof using Hprice.
  intros Hd M. destruct (mirrors_sums _ M) as (Sc & Sr & So & Sv). cbn [j_a j_l j_posts] in *.
  pose proof (m_posts _ M) as Hps. cbn [j_posts] in Hps. apply Forall_app in Hps as [P1 P2].
  apply Forall_cons in P2 as [[Hn _] P2]. cbn [po_bytes] in Hn.
  pose proof (cost_nonneg (n - d) ltac:(lia)). pose proof (cost_split n d Hd ltac:(lia)) as [C1 C2].
  pose proof (sums_mid ps1 ps2 (mkPost n PReserved)) as (X1 & X2 & X3).
  pose proof (sums_mid ps1 ps2 (mkPost n (PCommitted d))) as (Y1 & Y2 & Y3). cbn [po_bytes po_state] in *.
  pose proof (m_reserved _ M) as Hr. pose proof (m_bound _ M) as Hb. cbn [j_l j_posts] in *.
  assert (0 <= psum f_reserved (ps1 ++ ps2)).
  { apply psum_nonneg. eapply Forall_impl; [apply posts_facts, Forall_app; split; eassumption|]. cbn. lia. }
  pose proof (commit_entry_of l (cost n) (cost (n - d)) ltac:(lia) ltac:(lia) ltac:(lia) ltac:(lia)) as (E1 & E2 & E3).
  mirror_goal M. apply Forall_app. split; [done|]. by constructor.
Qed.

Lemma answer_preserved a l ps1 ps2 n d :
  preserved (d =? 0) (mkJoint a l (ps1 ++ mkPost n (PCommitted d) :: ps2)) (mkJoint (answered a n d) l (ps1 ++ ps2)).
Proof using Hprice.
  intros M. pose proof (m_posts _ M) as Hps. cbn [j_posts] in Hps. apply Forall_app in Hps as [P1 P2].
  apply Forall_cons in P2 as [[Hn Hd] P2]. cbn [po_bytes po_state] in Hn, Hd.
  pose proof (cost_nonneg (n - d) ltac:(lia)). pose proof (cost_nonneg d ltac:(lia)).
  pose proof (cost_split n d Hd ltac:(lia)) as [C1 C2].
  pose proof (sums_mid ps1 ps2 (mkPost n (PCommitted d))) as (Y1 & Y2 & Y3). cbn [po_bytes po_state] in *.
  assert (0 <= psum f_pending (ps1 ++ ps2)).
  { apply psum_nonneg. eapply Forall_impl; [apply posts_facts, Forall_app; split; eassumption|]. cbn. lia. }
  assert (Hz : d <= 0 -> cost (n - d) = cost n) by (intros; f_equal; lia).
  unfold answered. destruct (Z.ltb_spec 0 d); [|specialize (Hz ltac:(lia))]; mirror_goal M; by apply Forall_app.
Qed.

Lemma answer_402_preserved a l ps1 ps2 n :
  preserved true (mkJoint a l (ps1 ++ mkPost n PRefused :: ps2)) (mkJoint (record_answered a n false) l (ps1 ++ ps2)).
Proof using Hprice.
  intros M. pose proof (m_posts _ M) as Hps. cbn [j_posts] in Hps. apply Forall_app in Hps as [P1 P2].
  apply Forall_cons in P2 as [[Hn Hd] P2]. cbn [po_bytes po_state] in Hn, Hd. pose proof (cost_nonneg n Hn).
  pose proof (sums_mid ps1 ps2 (mkPost n PRefused)) as (Y1 & Y2 & Y3). cbn [po_bytes po_state] in *.
  assert (0 <= psum f_pending (ps1 ++ ps2)).
  { apply psum_nonneg. eapply Forall_impl; [apply posts_facts, Forall_app; split; eassumption|]. cbn. lia. }
  mirror_goal M. by apply Forall_app.
Qed.

Lemma settle_preserved a l ps c sig delta : next_cumulative a = Some c -> (credit l k cb c sig).2 = Ok delta ->
  preserved true (mkJoint a l ps) (mkJoint (settled a c) (credit l k cb c sig).1 ps).
Proof using Hprice.
  intros Hc Hok M. destruct (credit_entry_of l c sig delta Hok) as (Ed & Hd & Hm & E1 & E2 & E3).
  pose proof (m_cum _ M). cbn [j_a j_l] in *. unfold MAX_CUMULATIVE_PLUR in Hm.
  assert (c = la_cumulative a + la_owed a).
  { unfold next_cumulative in Hc. case_match; [done|]. injection Hc as <-. sat. }
  mirror_goal M.
Qed.

Lemma adopt_preserved a l ps : preserved false (mkJoint a l ps) (mkJoint (adopt_relay_debt a (owed l k)).1 l ps).
Proof using Hprice.
  intros M. destruct (mirrors_sums _ M) as (Sc & Sr & So & Sv). unfold adopt_relay_debt.
  destruct (Z.leb_spec (sat_sub (owed l k) (la_pending a)) (la_owed a)); cbn [fst]; mirror_goal M.
Qed.

Lemma restart_preserved a l ps : preserved false (mkJoint a l ps)
  (mkJoint (with_cumulative (lane_account_new p (la_beneficiary a)) (la_cumulative a)) l []).
Proof using Hprice.
  intros M. destruct (mirrors_sums _ M) as (Sc & Sr & So & Sv). split; [|done].
  destruct M; split; cbn in *; try done; lia.
Qed.

Lemma orphan_preserved a l ps res billed : 0 <= billed <= res -> res <= reserved l k - psum f_reserved ps ->
  preserved false (mkJoint a l ps) (mkJoint a (commit l k res billed) ps).
Proof using Hprice.
  intros Hb Hr M. destruct (mirrors_sums _ M) as (Sc & Sr & So & Sv). cbn [j_a j_l j_posts] in *.
  pose proof (m_bound _ M). cbn [j_l] in *.
  pose proof (commit_entry_of l res billed ltac:(lia) ltac:(lia) ltac:(lia) ltac:(lia)) as (E1 & E2 & E3).
  mirror_goal M.
Qed.

Lemma jstep_preserved e j j' : jstep e j j' -> preserved e j j'.
Proof using Hprice.
  destruct 1; eauto using post_preserved, refuse_preserved, commit_preserved, answer_preserved, answer_402_preserved,
    settle_preserved, adopt_preserved, restart_preserved, orphan_preserved.
  intros M. mirror_goal M.
Qed.

(** A client that has nothing in flight and has counted its accepted cheques. *)
Definition fresh_pair (j : Joint) : Prop :=
  la_params (j_a j) = p /\ la_owed (j_a j) = 0 /\ la_pending (j_a j) = 0 /\ j_posts j = [] /\
  la_cumulative (j_a j) = last_cumulative_of (j_l j) k cb /\ owed (j_l j) k = 0 /\ reserved (j_l j) k = 0.

Lemma fresh_mirrors j : fresh_pair j -> mirrors j /\ mirrors_exactly j.
Proof.
  intros (H1 & H2 & H3 & H4 & H5 & H6 & H7). split; [split|split]; rewrite ?H1, ?H2, ?H3, ?H4, ?H6, ?H7; done.
Qed.

Lemma jreach_mirrors j0 e j : fresh_pair j0 -> jreach j0 e j -> mirrors j /\ (e = true -> mirrors_exactly j).
Proof using Hprice.
  intros H0. induction 1 as [|e e' j j' _ [M IH] Hs]; [destruct (fresh_mirrors j0 H0); auto|].
  destruct (jstep_preserved _ _ _ Hs M) as [M' E']. split; [done|]. intros [-> ->]%andb_true_iff. auto.
Qed.

Lemma psum_split ps : Forall (fun x => 0 <= po_bytes x <= U64_MAX /\
    match po_state x with PCommitted d => 0 <= d <= po_bytes x | _ => True end) ps ->
  psum f_committed ps + psum f_reserved ps <= psum f_pending ps.
Proof using Hprice.
  induction 1 as [|[n st] ps [Hn Hd] _ IH]; [done|]. cbn [po_bytes po_state] in *.
  pose proof (sums_mid [] ps (mkPost n st)) as (X1 & X2 & X3). cbn [app po_bytes po_state] in *.
  pose proof (cost_nonneg n Hn). destruct st as [|d|]; [lia| |lia]. pose proof (cost_split n d Hd ltac:(lia)). lia.
Qed.

End Mirror.

(** One request of 4 KiB, committed and answered, at 100 PLUR per KiB. *)
Definition demo_params : Params := mkParams 100 1000 4000 100000 10.
Definition demo_acct : LaneAccount := lane_account_new demo_params [9].
Definition demo_led0 : Ledger := ephemeral [].
Definition demo_led2 : Ledger := commit (reserve demo_led0 [1] 400 100000).1 [1] 400 400.
Definition demo_acct2 : LaneAccount := mkLA demo_params [9] 400 0 0 0.

