(* ===== verification/PayerSafe.v ===== *)
(** * The paying client is safe against any relay ([src/src/payer.rs])

    The payment loop of [Payer] against a relay that answers anything: no sequence of
    answers makes the client promise more than its chequebook holds or present a
    cheque outside the aggregate gate.  Also what a verified quote guarantees, and
    the sizing of requests against the credit line. *)
From Stdlib Require Import ZArith Lia.
From stdpp Require Import base tactics numbers countable strings list gmap.
From S2P Require Import Prelude Codec PushFrame Signer Challenge Swap Meter Ledger Cheques Payer.
Local Open Scope Z_scope.
Local Open Scope hov_scope.

Section Safe.
Context `{Hex} `{HeaderCodec} `{Wallet} (to_string_pretty : ChequesOnDisk -> bytes).
Context {W : Type} (clock : W -> Z) (fault : W -> Fault).
Context (req_challenge : W -> bytes -> bytes -> W * JsonAnswer) (req_account : W -> str -> W * JsonAnswer)
  (req_pay : W -> str -> bytes -> W * PayAnswer).
Context (pcfg : PaymentConfig).

Abbreviation header := (header clock req_challenge pcfg).
Abbreviation relay_owed := (relay_owed clock req_challenge req_account pcfg).
Abbreviation reconcile := (reconcile clock req_challenge req_account pcfg).
Abbreviation record_paid := (record_paid to_string_pretty fault pcfg).
Abbreviation pay := (pay to_string_pretty clock fault req_challenge req_account req_pay pcfg).
Abbreviation settle := (settle to_string_pretty clock fault req_challenge req_account req_pay pcfg).

(** The gate a cheque has passed, against the store [st]. *)
Definition within_gate (st : ChequeStore) (beneficiary : bytes) (c : Z) : Prop :=
  u128 c /\ would_exceed_balance st (relay_key beneficiary) c (pay_balance pcfg) = false.

Definition gated_body (st : ChequeStore) (q : PaymentQuote) (body : bytes) : Prop :=
  exists c sig, within_gate st (pq_beneficiary q) c /\
    sign_cheque (pay_chequebook pcfg) (pq_beneficiary q) c (pq_chain_id q) = Ok sig /\
    body = encode_signed_cheque_json (pay_chequebook pcfg) (pq_beneficiary q) c sig.

(** An invariant of the relay's world that cheques within the gate preserve. *)
Context (st0 : ChequeStore) (q0 : PaymentQuote) (P : W -> Prop).
Context (Pchal : forall w a b, P w -> P (req_challenge w a b).1) (Pacct : forall w h, P w -> P (req_account w h).1)
  (Ppay : forall w h body, gated_body st0 q0 body -> P w -> P (req_pay w h body).1).

(** The books of the client; a request leaves them alone. *)
Record books_of (s s' : Pay) : Prop := {
  bk_store : p_store s' = p_store s;
  bk_disk : p_disk s' = p_disk s;
  bk_quote : py_quote (p_payer s') = py_quote (p_payer s);
  bk_cumulative : la_cumulative (py_account (p_payer s')) = la_cumulative (py_account (p_payer s));
  bk_owed : la_owed (py_account (p_payer s')) = la_owed (py_account (p_payer s));
  bk_pending : la_pending (py_account (p_payer s')) = la_pending (py_account (p_payer s));
  bk_world : P (p_world s) -> P (p_world s') }.

Lemma books_trans s1 s2 s3 : books_of s1 s2 -> books_of s2 s3 -> books_of s1 s3.
Proof. intros [] []. split; try congruence. auto. Qed.

Lemma header_books s : books_of s (header s).1.
Proof using Pchal.
  unfold Payer.header. case_match; [done|]. case_match; [|done].
  destruct (req_challenge (p_world s) eth_address (pay_batch pcfg)) as [w ans] eqn:E.
  assert (P (p_world s) -> P w) by (intros Hw; apply (Pchal _ eth_address (pay_batch pcfg)) in Hw; by rewrite E in Hw).
  destruct ans as [| | |v]; [done..|]. destruct (offered_parse v) as [o|]; [|done]. by destruct (offered_sign o _).
Qed.

Lemma relay_owed_books s : books_of s (relay_owed s).1 /\ (forall o, (relay_owed s).2 = Ok o -> u128 o).
Proof using Pchal Pacct.
  unfold Payer.relay_owed. pose proof (header_books s) as Hh. destruct (header s) as [s1 h]. cbn [fst] in Hh.
  destruct h as [h|]; [|by split].
  destruct (req_account (p_world s1) h) as [w ans] eqn:E.
  assert (B : books_of s (with_world s1 w)).
  { eapply books_trans; [exact Hh|]. split; try done. intros Hw. apply (Pacct _ h) in Hw. by rewrite E in Hw. }
  destruct ans as [| | |v]; [by split..|]. destruct (as_str (jget v (lit "owed_plur"))) as [t|]; [|by split].
  split; [done|]. intros o. cbn. destruct (u128_parse t) as [n|] eqn:Et; [|done]. intros [= <-]. by apply u128_parse_range in Et.
Qed.

(** Reconciliation adopts at most the ceiling the relay signed. *)
Lemma reconcile_bounded s moved : 0 <= la_pending (py_account (p_payer s)) -> (reconcile s).2 = Ok moved ->
  la_owed (py_account (p_payer (reconcile s).1)) <=
    Z.max (la_owed (py_account (p_payer s))) (max_outstanding_plur (pq_params (py_quote (p_payer s)))).
Proof using Pchal Pacct.
  intros Hpend. unfold Payer.reconcile. pose proof (relay_owed_books s) as [[_ _ Hq _ Ho Hpe _] Hr].
  destruct (relay_owed s) as [s1 [o|]]; [|done]. specialize (Hr o eq_refl). cbn [fst] in *. unfold check_reported_debt. rewrite Hq.
  destruct (Z.ltb_spec (max_outstanding_plur (pq_params (py_quote (p_payer s)))) o); [done|].
  destruct (pay_balance pcfg <? o); [done|]. unfold adopt_relay_debt.
  destruct (Z.leb_spec (sat_sub o (la_pending (py_account (p_payer s1)))) (la_owed (py_account (p_payer s1)))); cbn; intros _; sat.
Qed.

(** How a payment can end: the books as they were, or one cheque recorded. *)
Definition paid_or_kept (s s' : @Pay W) (r : result (option Z) str) : Prop :=
  py_quote (p_payer s') = q0 /\ P (p_world s') /\
  ((p_store s' = st0 /\ p_disk s' = p_disk s /\ forall c, r <> Ok (Some c)) \/
   (exists c f, r = Ok (Some c) /\ within_gate st0 (pq_beneficiary q0) c /\
      set_cumulative st0 (relay_key (pq_beneficiary q0)) c = (p_store s', Ok tt) /\
      p_disk s' = (save to_string_pretty (p_store s') (p_disk s) f).1 /\
      la_cumulative (py_account (p_payer s')) = c)).

Lemma record_paid_safe s c : p_store s = st0 -> py_quote (p_payer s) = q0 -> P (p_world s) ->
  within_gate st0 (pq_beneficiary q0) c -> paid_or_kept s (record_paid s c).1 (record_paid s c).2.
Proof.
  intros Hst Hq Hw [Hc Hg]. unfold Payer.record_paid. rewrite Hst, Hq, Hg.
  destruct (set_cumulative st0 (relay_key (pq_beneficiary q0)) c) as [st [[]|e]] eqn:E.
  - destruct (save to_string_pretty st (p_disk s) (fault (p_world s))) as [d w] eqn:Es. cbn.
    split; [done|]. split; [done|]. right. exists c, (fault (p_world s)). cbn. rewrite Es. done.
  - split; [done|]. split; [done|]. left. done.
Qed.

(** A payment that ends with the books as they were. *)
Ltac kept := split; [cbn in *; congruence|]; split; [cbn in *; auto|]; left; cbn in *; split_and!; congruence.

Lemma pay_safe n s c : p_store s = st0 -> py_quote (p_payer s) = q0 -> P (p_world s) -> u128 c ->
  u128 (la_cumulative (py_account (p_payer s))) -> paid_or_kept s (pay n s c).1 (pay n s c).2.
Proof using Pchal Pacct Ppay.
  revert s c. induction n as [|n IH]; intros s c Hst Hq Hw Hc Hcum.
  all: cbn [Payer.pay]; rewrite Hst, Hq; case_match; [kept|].
  all: destruct (would_exceed_balance st0 _ c _) eqn:Hg; [kept|].
  all: destruct (sign_cheque _ _ c _) as [sig|] eqn:Hsig; [|kept].
  all: pose proof (header_books s) as [B1 B2 B3 B4 _ _ B5]; destruct (header s) as [s1 h]; cbn [fst] in *.
  all: destruct h as [h|]; [|kept].
  all: set (body := encode_signed_cheque_json _ _ c sig); destruct (req_pay (p_world s1) h body) as [w ans] eqn:Ep.
  all: assert (Hw' : P w) by (pose proof (Ppay (p_world s1) h body) as Hp; rewrite Ep in Hp; apply Hp; [by exists c, sig|auto]).
  all: destruct ans as [e|code text|]; [kept| |].
  2,4: destruct (record_paid_safe (with_world s1 w) c) as (R1 & R2 & R3); [cbn; congruence..|done|done|];
    unfold paid_or_kept; rewrite <- B2; done.
  all: destruct (contains (lit "nothing owed") text); [kept|].
  { kept. }
  destruct (contains (lit "is owed") text); [|kept].
  pose proof (relay_owed_books (with_world s1 w)) as [[C1 C2 C3 C4 _ _ C5] Hr]. destruct (relay_owed (with_world s1 w)) as [s2 [o|e]].
  2: { kept. }
  cbn [fst snd] in *. specialize (Hr o eq_refl). set (s3 := with_account s2 _).
  destruct (next_cumulative (py_account (p_payer s3))) as [c'|] eqn:En.
  2: { kept. }
  destruct (IH s3 c') as (R1 & R2 & R3); [cbn in *; try congruence; auto..| |cbn in *; rewrite C4, B4; done|].
  { unfold next_cumulative in En. case_match; [done|]. injection En as <-. cbn in *. rewrite C4, B4. sat. }
  unfold paid_or_kept. replace (p_disk s) with (p_disk s3) by (cbn in *; congruence). done.
Qed.
End Safe.

(** ** A relay that answers anything, with a log of the cheques presented *)

Section Logged.
Context `{Hex} `{HeaderCodec} `{Wallet} (to_string_pretty : ChequesOnDisk -> bytes).
Context {W : Type} (clock : W -> Z) (fault : W -> Fault).
Context (req_challenge : W -> bytes -> bytes -> W * JsonAnswer) (req_account : W -> str -> W * JsonAnswer)
  (req_pay : W -> str -> bytes -> W * PayAnswer).
Context (pcfg : PaymentConfig).

Definition Logged : Type := W * list bytes.
Definition log_challenge (w : Logged) (a b : bytes) : Logged * JsonAnswer :=
  let '(w', r) := req_challenge w.1 a b in ((w', w.2), r).
Definition log_account (w : Logged) (h : str) : Logged * JsonAnswer :=
  let '(w', r) := req_account w.1 h in ((w', w.2), r).
Definition log_pay (w : Logged) (h : str) (body : bytes) : Logged * PayAnswer :=
  let '(w', r) := req_pay w.1 h body in ((w', body :: w.2), r).

Definition settle_logged (s : @Pay Logged) : @Pay Logged * result (option Z) str :=
  settle to_string_pretty (fun w => clock w.1) (fun w => fault w.1) log_challenge log_account log_pay pcfg s.

(** A presented cheque: signed for this quote, and honoured together with every
    promise already made. *)
Definition covered (st : ChequeStore) (q : PaymentQuote) (body : bytes) : Prop :=
  exists c sig, promised (set_payout st (to_ascii_lowercase (relay_key (pq_beneficiary q))) c) <= pay_balance pcfg /\
    sign_cheque (pay_chequebook pcfg) (pq_beneficiary q) c (pq_chain_id q) = Ok sig /\
    body = encode_signed_cheque_json (pay_chequebook pcfg) (pq_beneficiary q) c sig.

Lemma settle_logged_safe s :
  (p_world s).2 = [] -> u128 (la_cumulative (py_account (p_payer s))) -> 0 <= la_owed (py_account (p_payer s)) ->
  store_ok (p_store s) ->
  paid_or_kept to_string_pretty pcfg (p_store s) (py_quote (p_payer s))
    (fun w => Forall (gated_body pcfg (p_store s) (py_quote (p_payer s))) w.2) s (settle_logged s).1 (settle_logged s).2.
Proof.
  intros Hw Hc Ho Hst. unfold settle_logged, settle.
  assert (Hs : u128 (store_cumulative (p_store s) (relay_key (pq_beneficiary (py_quote (p_payer s)))))).
  { unfold store_cumulative. destruct (cs_payouts (p_store s) !! _) as [v|] eqn:E; cbn; [|lia]. by apply (so_payouts _ Hst) in E as [_ ?]. }
  assert (Hc' : u128 (la_cumulative (py_account (p_payer (sync_cumulative s))))).
  { cbn. unfold set_cumulative_to. by case_match. }
  destruct (next_cumulative (py_account (p_payer (sync_cumulative s)))) as [c|] eqn:En.
  - refine (pay_safe to_string_pretty (fun w => clock w.1) (fun w => fault w.1) log_challenge log_account log_pay pcfg (p_store s)
      (py_quote (p_payer s)) (fun w => Forall (gated_body pcfg (p_store s) (py_quote (p_payer s))) w.2)
      _ _ _ 1 (sync_cumulative s) c _ _ _ _ _).
    + intros [w l] a b Hl. unfold log_challenge. cbn. by destruct (req_challenge w a b).
    + intros [w l] h Hl. unfold log_account. cbn. by destruct (req_account w h).
    + intros [w l] h body Hb Hl. unfold log_pay. cbn. destruct (req_pay w h body). by constructor.
    + done.
    + done.
    + cbn. by rewrite Hw.
    + unfold next_cumulative in En. case_match; [done|]. injection En as <-.
      assert (0 <= la_owed (py_account (p_payer (sync_cumulative s)))) by (cbn; unfold set_cumulative_to; by case_match). cbn in *. sat.
    + done.
  - split; [done|]. split; [cbn; by rewrite Hw|]. by left.
Qed.

End Logged.

(** ** Sizing requests *)

Section Sizing.
Context (p : Params) (Hp : 0 < price_plur_per_kib p <= U64_MAX).

Lemma frames_price n budget : 0 <= n -> n * Z.of_nat MAX_FRAME_LEN <= budget / price_plur_per_kib p * 1024 ->
  budget / price_plur_per_kib p * 1024 <= U64_MAX -> 0 <= budget ->
  price_bytes p (n * Z.of_nat MAX_FRAME_LEN) <= budget.
Proof using Hp.
  intros Hn Hle Hq Hb. rewrite price_bytes_eq by lia.
  pose proof (div_ceil_spec (n * Z.of_nat MAX_FRAME_LEN) 1024 ltac:(lia)).
  assert (div_ceil (n * Z.of_nat MAX_FRAME_LEN) 1024 <= budget / price_plur_per_kib p) by lia.
  pose proof (Z.mul_div_le budget (price_plur_per_kib p) ltac:(lia)). nia.
Qed.

(** The estimate already fits, so the loop makes no step. *)
Lemma frames_within_eq fuel budget : 0 < budget -> budget / price_plur_per_kib p * 1024 <= U64_MAX ->
  frames_within fuel p budget = Some (Z.max (budget / price_plur_per_kib p * 1024 / Z.of_nat MAX_FRAME_LEN) 1).
Proof using Hp.
  intros Hb Hq. unfold frames_within. rewrite (proj2 (Z.eqb_neq _ _)) by lia.
  set (q := budget / price_plur_per_kib p) in *.
  assert (Hq0 : 0 <= q) by (apply Z.div_pos; lia).
  assert (HF : Z.of_nat MAX_FRAME_LEN = 4251) by (vm_compute; reflexivity).
  pose proof (Z.mul_div_le (q * 1024) 4251 ltac:(lia)) as Hd. pose proof (Z.div_pos (q * 1024) 4251 ltac:(lia) ltac:(lia)) as Hd0.
  assert (E : frames_estimate p budget = q * 1024 / Z.of_nat MAX_FRAME_LEN).
  { unfold frames_estimate. fold q. unfold sat_mul. rewrite (Z.min_r U128_MAX) by lia. rewrite HF. lia. }
  rewrite E. set (n := q * 1024 / _).
  assert (Hn : 0 <= n /\ n * Z.of_nat MAX_FRAME_LEN <= q * 1024).
  { unfold n. rewrite HF. lia. }
  assert (W : walk_down fuel p budget n = Some n); [|by rewrite W].
  assert (Ew : wrap 64 (n * Z.of_nat MAX_FRAME_LEN) = n * Z.of_nat MAX_FRAME_LEN) by (apply Z.mod_small; lia).
  assert (F : (budget <? price_bytes p (n * Z.of_nat MAX_FRAME_LEN)) = false).
  { apply Z.ltb_ge, frames_price; try lia. }
  destruct fuel; cbn [walk_down]; rewrite Ew, F, andb_false_r; done.
Qed.
End Sizing.

(** The size of the next request is exact.  With a known credit line (of at most
    2^54 KiB at the lane's price), [affordable_frames] needs no correction step; what it
    returns fits the headroom at the price the relay charges for the rounded body,
    one more frame does not, and it is 0 exactly when [has_headroom] is false.  With
    no credit line known the request is not limited. *)
Theorem affordable_frames_exact fuel p :
  0 < price_plur_per_kib (pq_params (py_quote p)) <= U64_MAX -> 0 <= py_cap p ->
  0 <= lane_outstanding (py_account p) ->
  py_cap p / price_plur_per_kib (pq_params (py_quote p)) * 1024 <= U64_MAX ->
  if py_cap p =? 0 then affordable_frames fuel p = Some U64_MAX
  else exists n, affordable_frames fuel p = Some n /\ 0 <= n /\
    (n = 0 <-> has_headroom p = false) /\
    (0 < n -> would_exceed p (n * Z.of_nat MAX_FRAME_LEN) = false /\
       lane_outstanding (py_account p) + price_bytes (pq_params (py_quote p)) (n * Z.of_nat MAX_FRAME_LEN) <= py_cap p) /\
    (forall n', n < n' -> n' * Z.of_nat MAX_FRAME_LEN <= U64_MAX ->
       py_cap p < lane_outstanding (py_account p) + price_bytes (pq_params (py_quote p)) (n' * Z.of_nat MAX_FRAME_LEN)).
Proof.
  set (pr := pq_params (py_quote p)). set (o := lane_outstanding (py_account p)). set (price := price_plur_per_kib pr).
  intros Hp Hc Ho Hq. unfold affordable_frames, has_headroom, would_exceed. fold pr o.
  destruct (Z.eqb_spec (py_cap p) 0) as [|Hnz]; [done|]. cbn [orb].
  assert (HF : Z.of_nat MAX_FRAME_LEN = 4251) by (vm_compute; reflexivity). rewrite HF.
  assert (H1 : price_bytes pr 4251 = 5 * price) by (rewrite price_bytes_eq by (fold price; lia); done).
  assert (Hcap : py_cap p < 2 ^ 120).
  { pose proof (Z.mul_succ_div_gt (py_cap p) price ltac:(lia)). nia. }
  rewrite H1. set (hr := sat_sub (py_cap p) o).
  assert (Hmono : forall n', 1 <= n' -> n' * 4251 <= U64_MAX -> price_bytes pr (n' * 4251) = div_ceil (n' * 4251) 1024 * price).
  { intros n' ? ?. apply price_bytes_eq; fold price; lia. }
  destruct (Z.ltb_spec hr (5 * price)) as [Hlt|Hge].
  - exists 0. split; [done|]. split; [lia|]. split; [|split; [lia|]].
    + split; [intros _|done]. apply Z.leb_gt. unfold hr in Hlt. sat.
    + intros n' Hn' Hb'. rewrite Hmono by lia. pose proof (div_ceil_mono 4251 (n' * 4251) 1024 ltac:(lia) ltac:(lia)) as Hm.
      change (div_ceil 4251 1024) with 5 in Hm. unfold hr in Hlt. assert (5 * price <= div_ceil (n' * 4251) 1024 * price) by nia. sat.
  - assert (Hhr : hr = py_cap p - o /\ 0 < hr) by (unfold hr in *; sat). destruct Hhr as [Ehr Hhr].
    assert (Hqh : hr / price * 1024 <= U64_MAX).
    { pose proof (Z.div_le_mono hr (py_cap p) price ltac:(lia) ltac:(lia)). fold price in Hq. lia. }
    assert (H5 : 5 <= hr / price) by (apply Z.div_le_lower_bound; lia).
    rewrite (frames_within_eq pr ltac:(fold price; lia)) by (fold price; lia). fold price. rewrite HF.
    set (q := hr / price) in *. pose proof (Z.mul_div_le (q * 1024) 4251 ltac:(lia)) as Hd.
    pose proof (Z.mul_succ_div_gt (q * 1024) 4251 ltac:(lia)) as Hd'. set (n := Z.max (q * 1024 / 4251) 1).
    assert (Hn : n = q * 1024 / 4251 /\ 1 <= n) by (unfold n; lia). destruct Hn as [En Hn1]. clearbody n.
    assert (Hfit : price_bytes pr (n * 4251) <= hr).
    { pose proof (frames_price pr ltac:(fold price; lia) n hr ltac:(lia)) as G. rewrite HF in G. apply G; fold price; fold q; lia. }
    exists n. split; [done|]. split; [lia|]. split; [|split].
    + split; [lia|]. intros Hl%Z.leb_gt. sat.
    + intros _. split; [|lia]. apply andb_false_iff. right. apply Z.ltb_ge. sat.
    + intros n' Hn' Hb'. rewrite Hmono by lia. pose proof (div_ceil_spec (n' * 4251) 1024 ltac:(lia)).
      assert (q + 1 <= div_ceil (n' * 4251) 1024) by lia.
      pose proof (Z.mul_succ_div_gt hr price ltac:(lia)) as Hs. fold q in Hs. nia.
Qed.

(** ** Applying the theorems *)

Definition demo_pq : PaymentQuote := mkQuote (replicate 20 6) (replicate 20 8) [] [] 100 (mkParams 100 1000 4000 100000 10) true.
Definition demo_payer : LanePayer :=
  mkPayer (lit "https://relay.example") demo_pq (mkLA (pq_params demo_pq) (replicate 20 6) 4300 0 0 50000) (Some (lit "h")) 5000 50000.

Lemma affordable_frames_exact_witness : affordable_frames 0 demo_payer = Some 110 /\ would_exceed demo_payer (110 * 4251) = false.
Proof.
  pose proof (affordable_frames_exact 0 demo_payer ltac:(vm_compute; intuition discriminate) ltac:(vm_compute; discriminate)
    ltac:(vm_compute; discriminate) ltac:(vm_compute; discriminate)) as G.
  cbn [py_cap demo_payer] in G. change (50000 =? 0) with false in G. destruct G as (n & E & _ & _ & Hfit & _).
  assert (n = 110) as -> by (vm_compute in E; injection E as <-; reflexivity).
  split; [exact E|]. exact (proj1 (Hfit ltac:(lia))).
Defined.

(** A relay that refuses the first cheque it sees, reports [report] as the debt and
    accepts the next; its state counts the payments. *)
Section Liar.
Context (report : Z).
Definition liar_challenge (w : nat) (_ _ : bytes) : nat * JsonAnswer := (w, JSend (lit "none")).
Definition liar_account (w : nat) (_ : str) : nat * JsonAnswer :=
  (w, JOk (JObject {[ lit "owed_plur" := JStr (u128_to_string report) ]})).
Definition liar_pay (w : nat) (_ : str) (_ : bytes) : nat * PayAnswer :=
  (S w, if Nat.eqb w 0 then PStatus (lit "402") (lit "cheque exceeds what is owed") else POk).
End Liar.

Definition demo_cfg : PaymentConfig := mkPayCfg (replicate 32 2) (replicate 20 9) 100 1000000000.
Definition demo_wallet0 : Wallet := {|
  eth_address := replicate 20 7;
  sign_push_challenge := fun _ _ => Ok (replicate 65 1);
  sign_cheque := fun _ _ _ _ => Ok (replicate 65 1) |}.
Definition demo_pay {W : Type} (w : W) : @Pay W := mkPay w demo_payer (store_new (replicate 20 9)) (mkFiles None None).
Definition demo_settle (report : Z) : @Pay (Logged (W := nat)) * result (option Z) str :=
  @settle_logged plain_hex plain_header demo_wallet0 (fun _ => []) nat (fun _ => 0) (fun _ => NoFault)
    liar_challenge (liar_account report) liar_pay demo_cfg (demo_pay (0%nat, [])).
Definition demo_reconcile (report : Z) : @Pay nat * result bool str :=
  @reconcile plain_hex plain_header demo_wallet0 nat (fun _ => 0) liar_challenge (liar_account report) demo_cfg (demo_pay 0%nat).


(** What a relay can make the client adopt.  A reconciliation never raises the debt
    above the ceiling of the signed quote.  The correction of a refused cheque has no
    such check: a relay that refuses a cheque for 4300 PLUR with a message about what
    is owed and then reports ten times its own ceiling is paid that much at once, while
    the same report is refused by [reconcile]. *)
Theorem correction_above_ceiling :
  (forall `{Hex} `{HeaderCodec} `{Wallet} (W : Type) clock reqc reqa pcfg (s : @Pay W) moved,
     0 <= la_pending (py_account (p_payer s)) -> (reconcile clock reqc reqa pcfg s).2 = Ok moved ->
     la_owed (py_account (p_payer (reconcile clock reqc reqa pcfg s).1)) <=
       Z.max (la_owed (py_account (p_payer s))) (max_outstanding_plur (pq_params (py_quote (p_payer s))))) /\
  max_outstanding_plur (pq_params demo_pq) = 100000 /\ la_owed (py_account demo_payer) = 4300 /\
  (demo_settle 1000000).2 = Ok (Some 1000000) /\ is_ok (demo_reconcile 1000000).2 = false.
Proof.
  split; [|split_and!; vm_compute; reflexivity].
  intros H1 H2 H3 W clock reqc reqa pcfg s moved. by apply (reconcile_bounded clock reqc reqa pcfg (fun _ => True)).
Qed.
