(* ===== verification/Handshake.v ===== *)
(** * Quotes and challenges between relay and client

    The relay's signed payment block ([payment_quote] of pusher.rs) against the
    client's verification ([PaymentQuote::verify] of payer.rs), and the relay's
    challenge ([Metered::issue], [Metered::verify_header]) against the client that
    parses, signs and presents it ([OfferedChallenge]). *)
From Stdlib Require Import ZArith Lia.
From stdpp Require Import base tactics numbers countable strings list gmap.
From S2P Require Import Prelude Codec PushFrame Signer Challenge Swap Meter Ledger Metered Cheques Payer.
Local Open Scope Z_scope.
Local Open Scope hov_scope.

(** The node's signer as the quote uses it. *)
Record NodeSigner := mkNodeSigner { ns_address : bytes; ns_sign_eip191 : bytes -> result bytes str }.

Section Publish.
Context `{Hex} `{HeaderCodec}.

(** The members [payment_quote] signs. *)
Definition quote_members (c : MeterConfig) (node nonce : bytes) : gmap str JField :=
  <[lit "mode" := JStr (lit "metered")]>
  (<[lit "enforcement" := JStr (if hard_mode c then lit "hard" else lit "soft")]>
  (<[lit "beneficiary" := JStr (hex0x (beneficiary c))]>
  (<[lit "node_eth_address" := JStr (hex0x node)]>
  (<[lit "overlay_nonce" := JStr (hex0x nonce)]>
  (<[lit "origin" := JStr (default [] (head (origins c)))]>
  (<[lit "chain_id" := JU64 (chain_id c)]>
  (<[lit "factory" := JStr (hex0x (factory c))]>
  (<[lit "price_plur_per_kib" := JStr (u128_to_string (price_plur_per_kib (params c)))]>
  (<[lit "min_cheque_plur" := JStr (u128_to_string (min_cheque_plur (params c)))]>
  (<[lit "settle_every_plur" := JStr (u128_to_string (settle_every_plur (params c)))]>
  (<[lit "max_outstanding_plur" := JStr (u128_to_string (max_outstanding_plur (params c)))]>
  (<[lit "credit_ratio" := JU64 (credit_ratio (params c))]>
  (<[lit "challenge_ttl_secs" := JU64 CHALLENGE_TTL_SECS]>
  (<[lit "quote_valid_secs" := JU64 86400]> ∅)))))))))))))).

(** [fn payment_quote]. *)
Definition payment_quote (m : option MeterConfig) (push : option NodeSigner) (nonce : bytes) : option JValue :=
  match m, push with
  | Some c, Some signer =>
      let body := quote_members c (ns_address signer) nonce in
      match ns_sign_eip191 signer (json_to_string (JObject body)) with
      | Ok sig => Some (JObject (<[lit "sig" := JStr (hex0x sig)]> body))
      | Err _ => None
      end
  | _, _ => None
  end.
End Publish.

Section RoundTrip.
Context `{HexLaws} `{HeaderCodecLaws} `{Crypto}.

Lemma quote_bytes_hex m k b n : all_bytes b -> length b = n -> m !! k = Some (JStr (hex0x b)) ->
  quote_bytes (JObject m) k n = Ok b.
Proof.
  intros Hb Hn Hk. unfold quote_bytes. cbn [jget]. rewrite Hk. cbn [as_str opt_ok result_bind].
  change (trim_0x (hex0x b)) with (trim_0x (hex_encode b)).
  rewrite trim_0x_hex, hex_roundtrip by done. cbn [map_err result_bind]. by rewrite Hn, Nat.eqb_refl.
Qed.

Lemma quote_plur_string m k n : u128 n -> m !! k = Some (JStr (u128_to_string n)) -> quote_plur (JObject m) k = Ok n.
Proof.
  intros Hn Hk. unfold quote_plur. cbn [jget]. rewrite Hk. cbn [as_str opt_ok result_bind]. by rewrite u128_roundtrip.
Qed.

(** A configuration the relay starts with. *)
Record config_ok (c : MeterConfig) : Prop := {
  co_beneficiary : is_addr (beneficiary c);
  co_params : validate (params c) = Ok tt;
  co_price : u128 (price_plur_per_kib (params c));
  co_min : u128 (min_cheque_plur (params c));
  co_settle : u128 (settle_every_plur (params c));
  co_max : u128 (max_outstanding_plur (params c)) }.

Lemma quote_no_sig c node nonce : quote_members c node nonce !! lit "sig" = None.
Proof. unfold quote_members. by jlookup. Qed.

Lemma check_pin_ok pin node b : (forall p, pin = Some p -> pin_node p = node /\ pin_beneficiary p = b) <->
  check_pin pin node b = Ok tt.
Proof.
  unfold check_pin. destruct pin as [p|]; [|done]. split.
  - intros Hp. destruct (Hp p eq_refl) as [-> ->]. by rewrite !bool_decide_eq_true_2.
  - repeat case_bool_decide; cbn; try done. intros _ p' [= <-]. done.
Qed.

Lemma check_overlay_ok overlay node net nonce : (forall o, overlay = Some o -> o = derive_overlay node net nonce) <->
  check_overlay overlay node net nonce = Ok tt.
Proof.
  unfold check_overlay. destruct overlay as [o|]; [|done]. split.
  - intros Ho. rewrite (Ho o eq_refl). by rewrite bool_decide_eq_true_2.
  - case_bool_decide; [|done]. intros _ o' [= <-]. done.
Qed.

(** What a reader finds in the published block. *)
Lemma published_reads c node nonce sig :
  let m := <[lit "sig" := JStr (hex0x sig)]> (quote_members c node nonce) in
  m !! lit "beneficiary" = Some (JStr (hex0x (beneficiary c))) /\
  m !! lit "node_eth_address" = Some (JStr (hex0x node)) /\
  m !! lit "overlay_nonce" = Some (JStr (hex0x nonce)) /\
  m !! lit "price_plur_per_kib" = Some (JStr (u128_to_string (price_plur_per_kib (params c)))) /\
  m !! lit "min_cheque_plur" = Some (JStr (u128_to_string (min_cheque_plur (params c)))) /\
  m !! lit "settle_every_plur" = Some (JStr (u128_to_string (settle_every_plur (params c)))) /\
  m !! lit "max_outstanding_plur" = Some (JStr (u128_to_string (max_outstanding_plur (params c)))) /\
  m !! lit "credit_ratio" = Some (JU64 (credit_ratio (params c))) /\
  m !! lit "quote_valid_secs" = Some (JU64 86400) /\
  m !! lit "chain_id" = Some (JU64 (chain_id c)) /\
  m !! lit "origin" = Some (JStr (default [] (head (origins c)))) /\
  m !! lit "enforcement" = Some (JStr (if hard_mode c then lit "hard" else lit "soft")) /\
  m !! lit "sig" = Some (JStr (hex0x sig)) /\ delete (lit "sig") m = quote_members c node nonce.
Proof.
  cbv zeta. split_and!; unfold quote_members; by jlookup.
Qed.

(** A quote the relay publishes verifies at the client.  The client recovers the
    node key from the block without its signature and reads back the beneficiary,
    the nonce, the origin, the chain, the prices and the enforcement mode that the
    relay is configured with, when the advertised overlay and any pin are the relay's
    own and the price is within the client's ceiling. *)
Theorem published_quote_verifies c signer nonce v overlay net pin ceiling :
  config_ok c -> is_addr (ns_address signer) -> length nonce = 32%nat -> all_bytes nonce ->
  (forall payload sig, ns_sign_eip191 signer payload = Ok sig ->
     all_bytes sig /\ recover_eth_from_eip191 payload sig = Ok (ns_address signer)) ->
  payment_quote (Some c) (Some signer) nonce = Some v ->
  (forall o, overlay = Some o -> o = derive_overlay (ns_address signer) net nonce) ->
  (forall p, pin = Some p -> pin_node p = ns_address signer /\ pin_beneficiary p = beneficiary c) ->
  price_plur_per_kib (params c) <= ceiling ->
  quote_verify v overlay net pin ceiling =
    Ok (mkQuote (beneficiary c) (ns_address signer) nonce (default [] (head (origins c))) (chain_id c) (params c) (hard_mode c)).
Proof.
  intros [[Hbl Hbb] Hval Hp1 Hp2 Hp3 Hp4] [Hnl Hnb] Hcl Hcb Hsign Hq Ho Hpin Hceil.
  unfold payment_quote in Hq. destruct (ns_sign_eip191 signer _) as [sig|] eqn:Es; [|done].
  destruct (Hsign _ _ Es) as [Hsb Hrec].
  pose proof (published_reads c (ns_address signer) nonce sig) as
    (R1 & R2 & R3 & R4 & R5 & R6 & R7 & R8 & R9 & R10 & R11 & R12 & R13 & R14).
  set (m := <[lit "sig" := _]> _) in *. assert (v = JObject m) as -> by congruence. unfold quote_verify, check_valid_secs. cbn [jget unsigned_payload].
  rewrite R13, R14. cbn [as_str opt_ok result_bind].
  change (trim_0x (hex0x sig)) with (trim_0x (hex_encode sig)). rewrite trim_0x_hex, hex_roundtrip by done. cbn [map_err result_bind].
  rewrite Hrec. cbn [map_err result_bind].
  rewrite (quote_bytes_hex m _ _ _ Hbb Hbl R1), (quote_bytes_hex m _ _ _ Hnb Hnl R2). cbn [result_bind].
  rewrite bool_decide_eq_true_2 by done. cbn [negb]. rewrite (quote_bytes_hex m _ _ _ Hcb Hcl R3). cbn [result_bind].
  rewrite (proj1 (check_pin_ok pin _ _) Hpin), (proj1 (check_overlay_ok overlay _ net _) Ho). cbn [result_bind].
  rewrite (quote_plur_string m _ _ Hp1 R4), (quote_plur_string m _ _ Hp2 R5), (quote_plur_string m _ _ Hp3 R6),
    (quote_plur_string m _ _ Hp4 R7). cbn [result_bind jget].
  rewrite R8, R9, R10, R11, R12. cbn [as_u64 as_str opt_ok result_bind default].
  replace (mkParams _ _ _ _ _) with (params c) by (by destruct (params c)).
  change (86400 =? 0) with false. cbn [result_bind]. rewrite Hval. cbn [map_err result_bind].
  rewrite (proj2 (Z.ltb_ge _ _)) by done. do 2 f_equal. destruct (hard_mode c); [by rewrite bool_decide_eq_true_2|by rewrite bool_decide_eq_false_2].
Qed.

(** A quote the client accepts is worth trusting as far as it goes: it was signed,
    without its signature member, by the node it names; beneficiary, nonce and prices
    are those of the signed block; it matches the pin and derives the advertised
    overlay; its parameters are usable (a positive price and ratio, floor at most the
    settlement threshold below the ceiling) and the price is within the client's
    ceiling. *)
Theorem verified_quote_sound v overlay net pin ceiling q : quote_verify v overlay net pin ceiling = Ok q ->
  exists m sig, v = JObject m /\
    recover_eth_from_eip191 (json_to_string (JObject (delete (lit "sig") m))) sig = Ok (pq_node q) /\
    quote_bytes (JObject (delete (lit "sig") m)) (lit "beneficiary") 20 = Ok (pq_beneficiary q) /\
    quote_bytes (JObject (delete (lit "sig") m)) (lit "overlay_nonce") 32 = Ok (pq_nonce q) /\
    quote_plur (JObject (delete (lit "sig") m)) (lit "price_plur_per_kib") = Ok (price_plur_per_kib (pq_params q)) /\
    (forall p, pin = Some p -> pin_node p = pq_node q /\ pin_beneficiary p = pq_beneficiary q) /\
    (forall o, overlay = Some o -> o = derive_overlay (pq_node q) net (pq_nonce q)) /\
    validate (pq_params q) = Ok tt /\ 0 < price_plur_per_kib (pq_params q) <= ceiling.
Proof.
  assert (Db : forall m k n, lit "sig" <> k -> quote_bytes (JObject (delete (lit "sig") m)) k n = quote_bytes (JObject m) k n).
  { intros m k n Hk. unfold quote_bytes. cbn [jget]. by rewrite lookup_delete_ne. }
  assert (Dp : forall m k, lit "sig" <> k -> quote_plur (JObject (delete (lit "sig") m)) k = quote_plur (JObject m) k).
  { intros m k Hk. unfold quote_plur. cbn [jget]. by rewrite lookup_delete_ne. }
  unfold quote_verify. intros E.
  apply result_bind_Ok in E as (sh & _ & E). apply result_bind_Ok in E as (sig & _ & E).
  apply result_bind_Ok in E as (payload & Hpl & E). destruct v as [m|]; [|done]. injection Hpl as <-.
  apply result_bind_Ok in E as (node & Hn%map_err_Ok & E). apply result_bind_Ok in E as (b & Hb & E).
  apply result_bind_Ok in E as (cl & _ & E). case_bool_decide; [|done]. cbn [negb] in E.
  apply result_bind_Ok in E as (nonce & Hno & E). apply result_bind_Ok in E as ([] & Hpin & E).
  apply result_bind_Ok in E as ([] & Hov & E). apply result_bind_Ok in E as (price & Hpr & E).
  apply result_bind_Ok in E as (minc & _ & E). apply result_bind_Ok in E as (st & _ & E).
  apply result_bind_Ok in E as (mx & _ & E). apply result_bind_Ok in E as (ratio & _ & E).
  apply result_bind_Ok in E as (_ & _ & E). apply result_bind_Ok in E as ([] & Hval%map_err_Ok & E).
  destruct (Z.ltb_spec ceiling price) as [|Hle]; [done|]. apply result_bind_Ok in E as (ch & _ & E). injection E as <-.
  exists m, sig. cbn [pq_node pq_beneficiary pq_nonce pq_params price_plur_per_kib].
  rewrite !Db, Dp by done. split_and!; try done.
  - by apply check_pin_ok.
  - by apply check_overlay_ok.
  - assert (Hnz : price <> 0) by (unfold validate in Hval; cbn in Hval; destruct (Z.eqb_spec price 0); done).
    unfold quote_plur in Hpr. apply result_bind_Ok in Hpr as (t & _ & Hpr%map_err_Ok). apply u128_parse_range in Hpr. lia.
Qed.

Lemma offered_fixed_hex m k b : all_bytes b -> m !! k = Some (JStr (hex0x b)) ->
  offered_fixed (JObject m) k (length b) = Ok b.
Proof.
  intros Hb Hk. unfold offered_fixed. cbn [jget]. rewrite Hk. cbn [as_str opt_ok result_bind].
  change (trim_0x (hex0x b)) with (trim_0x (hex_encode b)).
  rewrite trim_0x_hex, hex_roundtrip by done. cbn [map_err result_bind]. by rewrite Nat.eqb_refl.
Qed.

(** The client reads the challenge the relay serialized. *)
Lemma offered_parse_to_json i : fields_ok (i_fields i) -> length (i_nonce i) = 32%nat -> all_bytes (i_nonce i) ->
  offered_parse (to_json i) = Ok (mkOffered (i_nonce i) (Challenge.account (i_fields i)) (Challenge.batch (i_fields i))
    (origin (i_fields i)) (expiry_unix (i_fields i)) (Challenge.cap_plur (i_fields i))).
Proof.
  intros [[Hal Hab] [Hbl Hbb] He Hc] Hnl Hnb. unfold offered_parse, to_json, challenge_members.
  rewrite <- Hnl at 1. rewrite (offered_fixed_hex _ (lit "nonce") (i_nonce i) Hnb) by (by jlookup). cbn [result_bind].
  rewrite <- Hal at 1. rewrite (offered_fixed_hex _ (lit "account") (Challenge.account (i_fields i)) Hab) by (by jlookup).
  cbn [result_bind].
  rewrite <- Hbl at 1. rewrite (offered_fixed_hex _ (lit "batch") (Challenge.batch (i_fields i)) Hbb) by (by jlookup).
  cbn [result_bind jget]. jlookup. cbn [as_str as_u64 opt_ok result_bind].
  by rewrite u128_roundtrip.
Qed.
End RoundTrip.

(** What the batch owner's key does: it signs challenges that recover to its address. *)
Class WalletLaws `{Crypto} (w : Wallet) : Prop := {
  wallet_address : is_addr eth_address;
  wallet_challenge : forall c chain sig, sign_push_challenge c chain = Ok sig ->
    length sig = 65%nat /\ all_bytes sig /\ recover_push_challenge c chain sig = Ok eth_address;
  wallet_cheque : forall cb b n chain sig, sign_cheque cb b n chain = Ok sig ->
    length sig = 65%nat /\ all_bytes sig /\ recover_cheque_issuer cb b n chain sig = Ok eth_address }.

(** The challenge handshake succeeds end to end.  The client parses what the relay
    issued for its batch, with the credit line the relay granted; the header it then
    builds with the batch owner's key is accepted by the relay at every moment before
    the client itself considers it stale, and yields the same account, batch and
    credit line. *)
Theorem challenge_handshake `{HexLaws} `{HeaderCodecLaws} `{WalletLaws} m bat remaining org now i :
  (forall b, all_bytes (keccak256 b)) -> (forall b, length (keccak256 b) = 32%nat) ->
  length bat = 32%nat -> all_bytes bat ->
  1 <= credit_ratio (params (cfg m)) -> 0 <= max_outstanding_plur (params (cfg m)) <= U128_MAX ->
  u128 remaining -> u64 now -> org ∈ origins (cfg m) ->
  issue m eth_address bat remaining org now = Ok i ->
  exists o, offered_parse (to_json i) = Ok o /\ oc_cap o = credit_line (params (cfg m)) remaining /\
    forall h now', offered_sign o (chain_id (cfg m)) = Ok h -> (length h <= MAX_CHALLENGE_HEADER)%nat ->
      now' < stale_after o ->
      verify_header m h now' = Ok (mkVerified eth_address bat (credit_line (params (cfg m)) remaining)).
Proof.
  intros Hk Hkl Hbl Hbb Hr Hm Hv Hn Ho Hi. pose proof Hi as Hi'. unfold issue in Hi'. set (f := mkFields _ _ _ _ _) in Hi'.
  destruct (nonce (secret (ledger m)) f) as [n|] eqn:En; simpl in Hi'; [|done]. injection Hi' as <-.
  assert (Hn32 : length n = 32%nat /\ all_bytes n).
  { unfold nonce in En. destruct (preimage f); simpl in En; [|done]. injection En as <-. auto. }
  destruct Hn32 as [Hnl Hnb]. assert (Hf : fields_ok f).
  { pose proof (credit_line_range _ remaining Hr Hm Hv). split; simpl; [apply wallet_address|done|unfold CHALLENGE_TTL_SECS; sat|lia]. }
  eexists. split; [by apply offered_parse_to_json|]. split; [done|]. intros h now' Hs Hlen Hst.
  unfold offered_sign in Hs. cbn [oc_nonce oc_origin oc_account oc_batch oc_expiry oc_cap i_fields i_nonce] in Hs.
  apply result_bind_Ok in Hs as (sig & Hsig & Hs). injection Hs as <-.
  destruct (wallet_challenge _ _ _ Hsig) as (Hsl & Hsb & Hrec). destruct wallet_address as [Hal Hab].
  unfold stale_after in Hst. cbn [oc_expiry i_fields expiry_unix f] in Hst.
  eapply (issued_challenge_accepted m eth_address bat remaining org now now' (mkIssued f n) sig); try done.
  unfold CHALLENGE_TTL_SECS in *. sat.
Qed.

(** ** Instances for applying the theorems *)

(** A key whose recovery is the constant point. *)
Definition one_key_crypto : Crypto := {|
  keccak256 := @keccak256 toy_crypto;
  alloy_sig_parse := fun _ => Ok tt;
  recover_point := fun _ _ _ => Ok (4 :: replicate 12 0 ++ replicate 20 7 ++ replicate 32 0);
  hash_challenge := fun _ _ => [];
  hash_cheque := fun _ _ => [] |}.
Definition demo_signer : NodeSigner := mkNodeSigner (replicate 20 7) (fun _ => Ok demo_sig).
Definition demo_wallet : Wallet := {|
  eth_address := replicate 20 7;
  sign_push_challenge := fun _ _ => Ok demo_sig;
  sign_cheque := fun _ _ _ _ => Ok demo_sig |}.

Lemma demo_sig_bytes : length demo_sig = 65%nat /\ all_bytes demo_sig.
Proof. split; [done|]. by repeat constructor. Qed.

Lemma one_key_eip191 payload : @recover_eth_from_eip191 one_key_crypto payload demo_sig = Ok (replicate 20 7).
Proof. done. Qed.

#[export] Instance demo_wallet_laws : @WalletLaws one_key_crypto demo_wallet.
Proof.
  destruct demo_sig_bytes as [Hl Hb]. split.
  - split; [done|by repeat constructor].
  - intros c chain sig [= <-]. done.
  - intros cb b n chain sig [= <-]. done.
Qed.

Definition demo_quote : JValue :=
  default JNotObject (@payment_quote plain_hex plain_header (Some demo_config) (Some demo_signer) (replicate 32 3)).

Lemma published_quote_verifies_witness :
  @quote_verify plain_hex plain_header one_key_crypto demo_quote None 1 None U128_MAX =
    Ok (mkQuote (beneficiary demo_config) (replicate 20 7) (replicate 32 3) (default [] (head (origins demo_config)))
          (chain_id demo_config) (params demo_config) (hard_mode demo_config)).
Proof.
  apply (@published_quote_verifies plain_hex plain_hex_laws plain_header one_key_crypto
    demo_config demo_signer (replicate 32 3) demo_quote None 1 None U128_MAX); try done.
  - split; try done. split; [done|by repeat constructor].
  - split; [done|by repeat constructor].
  - by repeat constructor.
  - intros payload sig [= <-]. split; [apply demo_sig_bytes|apply one_key_eip191].
Defined.

Lemma verified_quote_sound_witness :
  exists q, @quote_verify plain_hex plain_header one_key_crypto demo_quote None 1 None U128_MAX = Ok q /\
    0 < price_plur_per_kib (pq_params q) <= U128_MAX.
Proof.
  set (q := mkQuote (beneficiary demo_config) (replicate 20 7) (replicate 32 3) (default [] (head (origins demo_config)))
          (chain_id demo_config) (params demo_config) (hard_mode demo_config)).
  assert (E : @quote_verify plain_hex plain_header one_key_crypto demo_quote None 1 None U128_MAX = Ok q) by (vm_compute; reflexivity).
  exists q. split; [exact E|].
  destruct (@verified_quote_sound plain_hex plain_header one_key_crypto demo_quote None 1 None U128_MAX q E)
    as (m & sig & _ & _ & _ & _ & _ & _ & _ & _ & Hp). exact Hp.
Defined.

Lemma challenge_handshake_witness :
  exists i o, @issue one_key_crypto (demo_metered 80) (replicate 20 7) (replicate 32 2) 1000000000000000 (lit "relay.example") 1000 = Ok i /\
    @offered_parse plain_hex (@to_json plain_hex i) = Ok o /\
    @offered_sign plain_hex plain_header demo_wallet o (chain_id (cfg (demo_metered 80))) =
      Ok (@encode_challenge_header plain_hex plain_header i demo_sig) /\
    @verify_header one_key_crypto plain_hex plain_header (demo_metered 80)
      (@encode_challenge_header plain_hex plain_header i demo_sig) 1200 =
      Ok (mkVerified (replicate 20 7) (replicate 32 2) 1000000000000).
Proof.
  set (i := match @issue one_key_crypto (demo_metered 80) (replicate 20 7) (replicate 32 2) 1000000000000000 (lit "relay.example") 1000
            with Ok i => i | Err _ => demo_issued end).
  assert (Ei : @issue one_key_crypto (demo_metered 80) (replicate 20 7) (replicate 32 2) 1000000000000000 (lit "relay.example") 1000 = Ok i)
    by (vm_compute; reflexivity).
  exists i.
  destruct (@challenge_handshake plain_hex plain_hex_laws plain_header plain_header_laws one_key_crypto demo_wallet
    demo_wallet_laws (demo_metered 80) (replicate 32 2) 1000000000000000 (lit "relay.example") 1000 i) as (o & Ho & Hc & Hh).
  - exact toy_keccak_bytes.
  - exact toy_keccak_length.
  - done.
  - by repeat constructor.
  - by vm_compute.
  - by vm_compute.
  - by vm_compute.
  - by vm_compute.
  - left.
  - exact Ei.
  - exists o. split; [exact Ei|]. split; [exact Ho|].
    assert (Eo : o = mkOffered (i_nonce i) (Challenge.account (i_fields i)) (Challenge.batch (i_fields i))
      (origin (i_fields i)) (expiry_unix (i_fields i)) (Challenge.cap_plur (i_fields i))).
    { assert (Ok (E := str) o = Ok (mkOffered (i_nonce i) (Challenge.account (i_fields i)) (Challenge.batch (i_fields i))
        (origin (i_fields i)) (expiry_unix (i_fields i)) (Challenge.cap_plur (i_fields i)))) as E;
        [rewrite <- Ho; vm_compute; reflexivity|]. congruence. }
    assert (Es : @offered_sign plain_hex plain_header demo_wallet o (chain_id (cfg (demo_metered 80))) =
      Ok (@encode_challenge_header plain_hex plain_header i demo_sig)) by (rewrite Eo; destruct i as [[] ?]; reflexivity).
    split; [exact Es|]. apply (Hh _ 1200 Es); [vm_compute; lia|]. rewrite Eo. vm_compute. reflexivity.
Defined.
