(* ===== verification/Joiner.v ===== *)
(** * Reading an erasure-coded object ([src/src/erasure/joiner.rs])

    The walk over the chunk tree: fetching the children of a node under a bounded
    window, in whatever order the fetches complete, reconstructing missing data
    children from parity siblings, and collecting the leaves.

    Parameters: [store], the answer of [WireGet::get_wire] for an address, and
    [choose], which of the fetches in flight completes next.  The byte-progress
    callback only observes and is left out. *)
From Stdlib Require Import ZArith Lia.
From stdpp Require Import base tactics numbers strings list.
From S2P Require Import Prelude ReedSolomon Erasure.
Local Open Scope Z_scope.
Local Open Scope hov_scope.

(** [enum ErasureError]. *)
Inductive ErasureError :=
| EFetch (msg : str) | Malformed (what : str) | ERs (e : RsError) | Unrecoverable (have need : nat).

(** [struct DecodedChunk], [from_wire], [level_and_len]. *)
Record DecodedChunk := mkDecoded { raw_span : Z; dc_data : bytes }.

Definition dc_from_wire (wire : bytes) : result DecodedChunk ErasureError :=
  if Nat.ltb (length wire) SPAN_SIZE then Err (Malformed (lit "chunk shorter than its span"))
  else Ok (mkDecoded (from_le_bytes (take SPAN_SIZE wire)) (drop SPAN_SIZE wire)).

Definition level_and_len (dc : DecodedChunk) : Level * Z := decode_span (to_le_bytes SPAN_SIZE (raw_span dc)).

(** [fn to_wire_padded] and [fn decode_wire]. *)
Definition to_wire_padded (dc : DecodedChunk) (size : nat) : bytes :=
  let wire := to_le_bytes SPAN_SIZE (raw_span dc) ++ dc_data dc in
  if Nat.ltb (length wire) size then wire ++ replicate (size - length wire) 0 else take size wire.

Definition decode_wire (wire : bytes) : result DecodedChunk ErasureError :=
  if Nat.ltb (length wire) SPAN_SIZE then Err (Malformed (lit "reconstructed shard too short"))
  else
    let span_bytes := take SPAN_SIZE wire in
    let real_len := (decode_span span_bytes).2 in
    let body := drop SPAN_SIZE wire in
    let payload_len := if real_len <=? Z.of_nat CHUNK_SIZE then Nat.min (Z.to_nat real_len) (length body) else length body in
    Ok (mkDecoded (from_le_bytes span_bytes) (take payload_len body)).

Definition DEFAULT_IN_FLIGHT : nat := 24.
Definition CHUNK_WITH_SPAN : nat := SPAN_SIZE + CHUNK_SIZE.

Section Fetch.
Context (store : bytes -> result bytes str) (choose : list bytes -> list nat -> nat).

(** One completion of the fetches in flight: which one, what is left. *)
Definition next_done (addrs : list bytes) (inflight : list nat) : nat * list nat :=
  let pos := (choose addrs inflight mod length inflight)%nat in
  (inflight !!! pos, delete pos inflight).

(** Start the next fetch of the window, if any is left. *)
Definition refill (total next : nat) (inflight : list nat) : list nat * nat :=
  if Nat.ltb next total then (inflight ++ [next], S next) else (inflight, next).

(** The loop without redundancy: the first failure to complete is fatal. *)
Fixpoint plain_loop (fuel : nat) (addrs : list bytes) (shard_cnt next : nat) (inflight : list nat)
    (slots : list (option DecodedChunk)) : result (list (option DecodedChunk)) ErasureError :=
  match fuel, inflight with
  | O, _ | _, [] => Ok slots
  | S fuel', _ =>
      let '(i, rest) := next_done addrs inflight in
      let '(rest, next) := refill shard_cnt next rest in
      let? wire := map_err EFetch (store (addrs !!! i)) in
      let? dc := dc_from_wire wire in
      plain_loop fuel' addrs shard_cnt next rest (<[i := Some dc]> slots)
  end.

(** The state of the race of a redundant node. *)
Record Race := mkRace {
  rs_shards : list (option bytes); decoded_data : list (option DecodedChunk); present : nat; failed : nat }.

Definition race_land (shard_cnt i : nat) (dc : DecodedChunk) (r : Race) : Race :=
  mkRace (<[i := Some (to_wire_padded dc CHUNK_WITH_SPAN)]> (rs_shards r))
    (if Nat.ltb i shard_cnt then <[i := Some dc]> (decoded_data r) else decoded_data r) (S (present r)) (failed r).

Fixpoint race_loop (fuel : nat) (addrs : list bytes) (shard_cnt next : nat) (inflight : list nat) (r : Race)
    : result Race ErasureError :=
  match fuel, inflight with
  | O, _ | _, [] => Ok r
  | S fuel', _ =>
      let '(i, rest) := next_done addrs inflight in
      let '(rest, next) := refill (length addrs) next rest in
      match store (addrs !!! i) with
      | Ok wire =>
          let? dc := dc_from_wire wire in
          let r := race_land shard_cnt i dc r in
          if Nat.leb shard_cnt (present r) then Ok r else race_loop fuel' addrs shard_cnt next rest r
      | Err _ =>
          let r := mkRace (rs_shards r) (decoded_data r) (present r) (S (failed r)) in
          if Nat.ltb (length addrs - failed r) shard_cnt then Ok r
          else race_loop fuel' addrs shard_cnt next rest r
      end
  end.

(** [Option::unwrap] of every slot (the source panics on a hole), and the data children after reconstruction. *)
Fixpoint unwrap_all (slots : list (option DecodedChunk)) : result (list DecodedChunk) ErasureError :=
  match slots with
  | [] => Ok []
  | Some d :: rest => let? ds := unwrap_all rest in Ok (d :: ds)
  | None :: _ => Err (Malformed (lit "unwrap on None"))
  end.

Fixpoint materialise (slots : list (option DecodedChunk)) (shards : list (option bytes))
    : result (list DecodedChunk) ErasureError :=
  match slots, shards with
  | [], _ => Ok []
  | Some d :: rest, _ :: shards' => let? ds := materialise rest shards' in Ok (d :: ds)
  | None :: rest, Some w :: shards' =>
      let? d := decode_wire w in let? ds := materialise rest shards' in Ok (d :: ds)
  | _, _ => Err (Malformed (lit "reconstruction left a hole"))
  end.

Definition clamp (x lo hi : nat) : nat := Nat.min (Nat.max x lo) hi.

(** [fn fetch_node_children]. *)
Definition fetch_node_children (addrs : list bytes) (shard_cnt in_flight : nat) : result (list DecodedChunk) ErasureError :=
  let total := length addrs in
  let parity_cnt := (total - shard_cnt)%nat in
  if Nat.eqb parity_cnt 0 then
    let window := clamp in_flight 1 (Nat.max shard_cnt 1) in
    let? slots := plain_loop total addrs shard_cnt window (seq 0 window) (replicate shard_cnt None) in
    unwrap_all slots
  else
    let window := clamp in_flight 1 total in
    let? r := race_loop total addrs shard_cnt window (seq 0 window)
                (mkRace (replicate total None) (replicate shard_cnt None) 0 0) in
    if Nat.ltb (present r) shard_cnt then Err (Unrecoverable (present r) shard_cnt)
    else if Nat.eqb (length (List.filter (fun d => match d with Some _ => true | None => false end) (decoded_data r))) shard_cnt
    then unwrap_all (decoded_data r)
    else
      let? rs := map_err ERs (rs_new shard_cnt parity_cnt) in
      let? shards := map_err ERs (reconstruct_data rs (rs_shards r)) in
      materialise (decoded_data r) shards.

(** The parity count a node derives from its own span. *)
Definition parity_of (l : Level) (span : Z) : option nat :=
  if bool_decide (l = LNone) then Some 0%nat
  else match reference_count span l with Some (_, p) => Some p | None => None end.

(** [fn read_node]; [None] is out of fuel (a tree deeper than the fuel, or a span
    whose reference count does not terminate). *)
Fixpoint read_node (fuel : nat) (data : bytes) (subtrie_size : Z) (parity in_flight : nat) (out : bytes)
    : option (result bytes ErasureError) :=
  if subtrie_size <=? Z.of_nat (length data) then Some (Ok (out ++ data))
  else
    match fuel with
    | O => None
    | S fuel' =>
        match chunk_payload_size data with
        | None => Some (Err (Malformed (lit "node has no children")))
        | Some payload_size =>
            let '(addrs, shard_cnt) := chunk_addresses (take payload_size data) parity in
            if Nat.eqb shard_cnt 0 || Nat.ltb (length addrs) shard_cnt then Some (Err (Malformed (lit "bad shard count")))
            else
              match fetch_node_children addrs shard_cnt in_flight with
              | Err e => Some (Err e)
              | Ok children =>
                  foldl (fun (acc : option (result bytes ErasureError)) child =>
                    match acc with
                    | Some (Ok out) =>
                        let '(l, span) := level_and_len child in
                        match parity_of l span with
                        | None => None
                        | Some p => read_node fuel' (dc_data child) span p in_flight out
                        end
                    | _ => acc
                    end) (Some (Ok out)) (take shard_cnt children)
              end
        end
    end.

(** [fetch_erasure_bytes_progress] and [fetch_erasure_bytes]. *)
Definition fetch_erasure_bytes_progress (fuel : nat) (root : bytes) (in_flight : nat) : option (result bytes ErasureError) :=
  match store root with
  | Err e => Some (Err (EFetch e))
  | Ok wire =>
      match dc_from_wire wire with
      | Err e => Some (Err e)
      | Ok dc =>
          let '(l, span) := level_and_len dc in
          match parity_of l span with
          | None => None
          | Some p =>
              match read_node fuel (dc_data dc) span p (Nat.max in_flight 1) [] with
              | Some (Ok out) => Some (Ok (take (Z.to_nat span) out))
              | r => r
              end
          end
      end
  end.

Definition fetch_erasure_bytes (fuel : nat) (root : bytes) : option (result bytes ErasureError) :=
  fetch_erasure_bytes_progress fuel root DEFAULT_IN_FLIGHT.
End Fetch.

(** [fn root_is_erasure_coded] and [fn inspect_root]. *)
Definition root_is_erasure_coded (root_span : bytes) : bool := is_level_encoded root_span.
Definition inspect_root (raw : Z) : bool * Level * Z :=
  let b := to_le_bytes 8 raw in
  let '(l, len) := decode_span b in (is_level_encoded b, l, len).
