(* ===== verification/JoinerProps.v ===== *)
(** * Reading survives losses

    The children of a node are returned whatever the order in which the fetches
    complete, as soon as enough siblings can be retrieved. *)
From Stdlib Require Import ZArith Lia.
From stdpp Require Import base tactics numbers strings list.
From S2P Require Import Prelude Galois ReedSolomon Erasure Joiner.
Local Open Scope Z_scope.
Local Open Scope hov_scope.

(** ** Wires and shards *)

(** A chunk in wire form: a span and at most a chunk of payload. *)
Definition good_wire (w : bytes) : Prop := (SPAN_SIZE <= length w <= CHUNK_WITH_SPAN)%nat /\ all_bytes w.

(** The shard of a chunk: its wire form, zero-padded. *)
Definition pad (w : bytes) : bytes := w ++ replicate (CHUNK_WITH_SPAN - length w) 0.

Lemma pad_length w : good_wire w -> length (pad w) = CHUNK_WITH_SPAN.
Proof. intros [[_ H] _]. unfold pad. rewrite length_app, length_replicate. lia. Qed.

Lemma pad_bytes w : good_wire w -> all_bytes (pad w).
Proof. intros [_ H]. apply Forall_app. split; [done|]. apply Forall_replicate, is_byte_0. Qed.

Lemma pad_full w : length w = CHUNK_WITH_SPAN -> pad w = w.
Proof. intros H. unfold pad. by rewrite H, Nat.sub_diag, app_nil_r. Qed.

(** The decoded form of a good wire. *)
Definition dc_of (w : bytes) : DecodedChunk := mkDecoded (from_le_bytes (take SPAN_SIZE w)) (drop SPAN_SIZE w).

Lemma dc_from_good w : good_wire w -> dc_from_wire w = Ok (dc_of w).
Proof. intros [[H _] _]. unfold dc_from_wire. by rewrite (proj2 (Nat.ltb_ge _ _)) by lia. Qed.

Lemma le_span w : good_wire w -> to_le_bytes SPAN_SIZE (from_le_bytes (take SPAN_SIZE w)) = take SPAN_SIZE w.
Proof.
  intros [[H _] Hb]. replace SPAN_SIZE with (length (take SPAN_SIZE w)) at 1 by (apply length_take_le; lia).
  apply to_from_le_bytes. by apply Forall_take.
Qed.

Lemma padded_dc w : good_wire w -> to_wire_padded (dc_of w) CHUNK_WITH_SPAN = pad w.
Proof.
  intros Hw. unfold to_wire_padded, dc_of. cbn [raw_span dc_data]. rewrite le_span, take_drop by done.
  destruct (Nat.ltb_spec (length w) CHUNK_WITH_SPAN) as [|Hge]; [done|].
  destruct Hw as [[_ Hle] _]. rewrite take_ge by lia. by rewrite pad_full by lia.
Qed.

(** ** The window of fetches *)

Lemma next_done_perm choose addrs inflight i rest : inflight <> [] ->
  next_done choose addrs inflight = (i, rest) -> inflight ≡ₚ i :: rest.
Proof.
  intros Hne [= <- <-]. set (pos := (choose addrs inflight mod length inflight)%nat).
  assert (Hpos : (pos < length inflight)%nat) by (apply Nat.mod_upper_bound; by destruct inflight).
  destruct (lookup_lt_is_Some_2 _ _ Hpos) as [x Hx]. rewrite (list_lookup_total_correct _ _ _ Hx).
  by apply delete_Permutation.
Qed.

(** The indices fetched so far: in flight, or done. *)
Record window (total next : nat) (inflight done : list nat) : Prop := {
  win_nodup : NoDup (inflight ++ done);
  win_all : forall i, i ∈ inflight ++ done <-> (i < next)%nat;
  win_next : (next <= total)%nat;
  win_busy : inflight = [] -> next = total }.

Lemma window_init total w : (1 <= w <= total)%nat -> window total w (seq 0 w) [].
Proof.
  intros Hw. split; rewrite ?app_nil_r.
  - apply NoDup_ListNoDup, seq_NoDup.
  - intros i. rewrite elem_of_seq. lia.
  - lia.
  - destruct w; [lia|done].
Qed.

Lemma window_step choose addrs total next inflight done i rest rest' next' : window total next inflight done ->
  inflight <> [] -> next_done choose addrs inflight = (i, rest) -> refill total next rest = (rest', next') ->
  window total next' rest' (i :: done) /\ i ∈ inflight /\ (i < total)%nat /\
  (forall j, j ∈ rest' -> j ∈ inflight \/ (next <= j)%nat) /\ (i ∉ rest').
Proof.
  intros [Hnd Hall Hn Hb] Hne Hd Hr. pose proof (next_done_perm _ _ _ _ _ Hne Hd) as P.
  assert (Hi : i ∈ inflight) by (rewrite P; left).
  assert (Hin : (i < next)%nat) by (apply Hall; rewrite elem_of_app; auto).
  rewrite P in Hnd. cbn [app] in Hnd. apply NoDup_cons in Hnd as [Hni Hnd].
  assert (Hall' : forall j, j ∈ rest ++ i :: done <-> (j < next)%nat).
  { intros j. rewrite <- Hall, P. cbn [app]. rewrite Permutation_middle. done. }
  unfold refill in Hr. destruct (Nat.ltb_spec next total) as [Hlt|Hge]; injection Hr as <- <-.
  - assert (Hnew : next ∉ rest ++ i :: done) by (rewrite Hall'; lia).
    split_and!; [split| | | |]; try done; try lia.
    + rewrite <- app_assoc. cbn [app].
      assert (P2 : rest ++ next :: i :: done ≡ₚ next :: i :: (rest ++ done)) by (rewrite <- !Permutation_middle; done).
      rewrite P2. apply NoDup_cons. split; [|apply NoDup_cons; done].
      intros Hx. apply Hnew. by rewrite <- Permutation_middle.
    + intros j. rewrite <- app_assoc. cbn [app].
      assert (P2 : rest ++ next :: i :: done ≡ₚ next :: (rest ++ i :: done)) by (by rewrite <- Permutation_middle).
      rewrite P2, elem_of_cons, Hall'. lia.
    + intros Hx. apply app_eq_nil in Hx as [_ Hx]. done.
    + intros j Hj. apply elem_of_app in Hj as [Hj|Hj%list_elem_of_singleton]; [left; rewrite P; by right|right; lia].
    + intros Hx. apply elem_of_app in Hx as [Hx|Hx%list_elem_of_singleton]; [|lia].
      apply Hni. apply elem_of_app. auto.
  - split_and!; [split| | | |]; try done; try lia.
    + by rewrite <- Permutation_middle, NoDup_cons.
    + intros j Hj. left. rewrite P. by right.
    + intros Hx. apply Hni. apply elem_of_app. auto.
Qed.

Lemma window_fuel total next inflight done fuel : window total next inflight done -> (total <= fuel + length done)%nat ->
  fuel = 0%nat -> inflight = [].
Proof.
  intros [Hnd Hall Hn Hb] Hf ->. destruct inflight as [|i inflight]; [done|]. exfalso.
  assert (Hle : (length ((i :: inflight) ++ done) <= next)%nat).
  { rewrite <- (length_seq next 0). apply submseteq_length, NoDup_submseteq; [done|].
    intros j Hj%Hall. apply elem_of_seq. lia. }
  rewrite length_app in Hle. cbn in Hle. lia.
Qed.

Lemma count_present_insert shards i w : shards !! i = Some None ->
  count_present (<[i := Some w]> shards) = S (count_present shards).
Proof.
  unfold count_present. revert i. induction shards as [|o shards IH]; intros [|i] Hi; simplify_eq/=; [done|].
  destruct o; cbn; by rewrite IH.
Qed.

Lemma erasure_insert cw shards i w : erasure_of cw shards -> cw !! i = Some w -> erasure_of cw (<[i := Some w]> shards).
Proof.
  intros He Hi. unfold erasure_of. rewrite <- (list_insert_id cw i w) by done. apply Forall2_insert; [done|auto].
Qed.

(** What a child looks like to the reader: fetched, or reconstructed from its shard. *)
Definition child_ok (w : bytes) (dc : DecodedChunk) : Prop := dc = dc_of w \/ decode_wire (pad w) = Ok dc.

Lemma decode_pad w : good_wire w -> exists dc, decode_wire (pad w) = Ok dc.
Proof.
  intros Hw. unfold decode_wire. rewrite (proj2 (Nat.ltb_ge _ _)); [eauto|]. rewrite pad_length by done.
  apply Nat.leb_le. by vm_compute.
Qed.

Lemma unwrap_all_ok ws slots : length slots = length ws ->
  (forall i w, ws !! i = Some w -> slots !! i = Some (Some (dc_of w))) -> unwrap_all slots = Ok (map dc_of ws).
Proof.
  revert slots. induction ws as [|w ws IH]; intros [|o slots] Hl Hs; try done.
  pose proof (Hs 0%nat w eq_refl) as [= ->]. cbn [unwrap_all]. rewrite IH; [done|by injection Hl|].
  intros i w' Hi. exact (Hs (S i) w' Hi).
Qed.

Lemma materialise_ok ws slots shards : Forall good_wire ws -> length slots = length ws ->
  (forall i w, ws !! i = Some w -> (slots !! i = Some (Some (dc_of w)) \/ slots !! i = Some None) /\ shards !! i = Some (Some (pad w))) ->
  exists cs, materialise slots shards = Ok cs /\ Forall2 child_ok ws cs.
Proof.
  intros Hg. revert slots shards. induction Hg as [|w ws Hw Hg IH]; intros [|o slots] shards Hl Hs; try done.
  { exists []. done. }
  destruct (Hs 0%nat w eq_refl) as [Ho Hsh]. destruct shards as [|sh shards]; [done|]. cbn in Ho, Hsh. injection Hsh as ->.
  destruct (IH slots shards) as (cs & E & Hc); [by injection Hl| |].
  { intros i w' Hi. exact (Hs (S i) w' Hi). }
  destruct Ho as [[= ->]|[= ->]]; cbn [materialise].
  - rewrite E. eexists. split; [done|]. constructor; [by left|done].
  - destruct (decode_pad w Hw) as [dc Hdc]. rewrite Hdc, E. eexists. split; [done|]. constructor; [by right|done].
Qed.

(** ** The children of one node *)

Section Children.
Context (store : bytes -> result bytes str) (choose : list bytes -> list nat -> nat).
Context (addrs ws par : list bytes).

Abbreviation n := (length ws).
Abbreviation total := (length addrs).
Definition node_wires : list bytes := ws ++ par.
Definition shards_of : list bytes := map pad ws ++ par.

Context (Htotal : length addrs = length node_wires) (Hn : (1 <= n)%nat).
Context (Hws : Forall good_wire ws) (Hpar : Forall (fun w => length w = CHUNK_WITH_SPAN /\ all_bytes w) par).
(** The store answers a sibling or fails, and enough siblings are answered. *)
Context (Hstore : forall i w, node_wires !! i = Some w -> store (addrs !!! i) = Ok w \/ is_ok (store (addrs !!! i)) = false).

Lemma wires_good : Forall good_wire node_wires.
Proof.
  apply Forall_app. split; [done|]. eapply Forall_impl; [exact Hpar|]. intros w [Hl Hb].
  split; [rewrite Hl; split; apply Nat.leb_le; by vm_compute|done].
Qed.

Lemma shards_pad : shards_of = map pad node_wires.
Proof.
  unfold shards_of, node_wires. rewrite map_app. f_equal. clear -Hpar.
  induction Hpar as [|w p [Hl _] Hp IH]; [done|]. cbn. rewrite pad_full by done. f_equal. exact (IH Hp).
Qed.

(** Sibling [i] and its shard. *)
Lemma wire_lookup i : (i < total)%nat -> exists w, node_wires !! i = Some w /\ good_wire w /\ shards_of !! i = Some (pad w).
Proof.
  intros Hi. rewrite Htotal in Hi. destruct (lookup_lt_is_Some_2 _ _ Hi) as [w Hw]. exists w. split; [done|].
  split; [exact (Forall_lookup_1 _ _ _ _ wires_good Hw)|]. rewrite shards_pad. apply (f_equal (fmap pad)) in Hw. by rewrite <- list_lookup_fmap in Hw.
Qed.

Definition ok_at (i : nat) : bool := is_ok (store (addrs !!! i)).
Definition retrievable : nat := length (List.filter ok_at (seq 0 total)).

(** The race after the indices of [done] completed. *)
Record race_ok (done : list nat) (r : Race) : Prop := {
  ro_shards : erasure_of shards_of (rs_shards r);
  ro_done : forall i, (i < total)%nat -> rs_shards r !! i = Some (if bool_decide (i ∈ done) && ok_at i then shards_of !! i else None);
  ro_present : present r = count_present (rs_shards r);
  ro_failed : failed r = length (List.filter (fun i => negb (ok_at i)) done);
  ro_decoded : length (decoded_data r) = n /\ forall i w, ws !! i = Some w ->
    decoded_data r !! i = Some (if bool_decide (i ∈ done) && ok_at i then Some (dc_of w) else None) }.

Lemma race_init : race_ok [] (mkRace (replicate total None) (replicate n None) 0 0).
Proof.
  split; cbn.
  - apply Forall2_same_length_lookup_2.
    + rewrite length_replicate, shards_pad, length_map. done.
    + intros i o s Ho _. apply lookup_replicate in Ho as [-> _]. auto.
  - intros i Hi. rewrite lookup_replicate_2 by done. by rewrite bool_decide_eq_false_2 by apply not_elem_of_nil.
  - unfold count_present. generalize total as k. intros k. induction k; [done|]. cbn. by rewrite <- IHk.
  - done.
  - rewrite length_replicate. split; [done|]. intros i w Hi. rewrite lookup_replicate_2 by (by apply lookup_lt_Some in Hi).
    by rewrite bool_decide_eq_false_2 by apply not_elem_of_nil.
Qed.

Lemma in_cons_ne (i j : nat) (l : list nat) : j <> i -> bool_decide (j ∈ i :: l) = bool_decide (j ∈ l).
Proof. intros Hne. apply bool_decide_ext. rewrite elem_of_cons. naive_solver. Qed.

(** Landing one sibling. *)
Lemma race_landed done r i w : race_ok done r -> i ∉ done -> (i < total)%nat -> node_wires !! i = Some w ->
  store (addrs !!! i) = Ok w -> race_ok (i :: done) (race_land n i (dc_of w) r).
Proof.
  intros [R1 R2 R3 R4 [R5 R6]] Hnd Hi Hw Hst. destruct (wire_lookup i Hi) as (w' & Hw' & Hgood & Hsh).
  assert (w' = w) as -> by congruence. assert (Hok : ok_at i = true) by (unfold ok_at; by rewrite Hst).
  assert (Hnone : rs_shards r !! i = Some None) by (rewrite R2 by done; by rewrite bool_decide_eq_false_2).
  unfold race_land. rewrite padded_dc by done. split; cbn [rs_shards decoded_data present failed].
  - by apply erasure_insert.
  - intros j Hj. destruct (decide (j = i)) as [->|Hne].
    + rewrite list_lookup_insert_eq by (by apply lookup_lt_Some in Hnone). rewrite bool_decide_eq_true_2 by left. by rewrite Hok, Hsh.
    + rewrite list_lookup_insert_ne, R2 by done. by rewrite in_cons_ne.
  - rewrite count_present_insert by done. by rewrite R3.
  - rewrite R4. cbn [List.filter]. by rewrite Hok.
  - split; [destruct (Nat.ltb i n); by rewrite ?length_insert|]. intros j wj Hj.
    destruct (decide (j = i)) as [->|Hne].
    + assert (Hin : (i < n)%nat) by (by apply lookup_lt_Some in Hj). rewrite (proj2 (Nat.ltb_lt _ _)) by done.
      rewrite list_lookup_insert_eq by lia. rewrite bool_decide_eq_true_2 by left. rewrite Hok. cbn.
      unfold node_wires in Hw. rewrite lookup_app_l in Hw by done. congruence.
    + assert (E : (if Nat.ltb i n then <[i:=Some (dc_of w)]> (decoded_data r) else decoded_data r) !! j = decoded_data r !! j).
      { destruct (Nat.ltb i n); [by rewrite list_lookup_insert_ne|done]. }
      rewrite E, (R6 j wj Hj). by rewrite in_cons_ne.
Qed.

Lemma race_failed done r i : race_ok done r -> (i < total)%nat -> ok_at i = false ->
  race_ok (i :: done) (mkRace (rs_shards r) (decoded_data r) (present r) (S (failed r))).
Proof.
  intros [R1 R2 R3 R4 [R5 R6]] Hi Hok. assert (E : forall j, bool_decide (j ∈ i :: done) && ok_at j = bool_decide (j ∈ done) && ok_at j).
  { intros j. destruct (decide (j = i)) as [->|]; [by rewrite Hok, !andb_false_r|]. by rewrite in_cons_ne. }
  split; cbn [rs_shards decoded_data present failed]; try done.
  - intros j Hj. by rewrite E, R2.
  - rewrite R4. cbn [List.filter]. by rewrite Hok.
  - split; [done|]. intros j w Hj. by rewrite E, (R6 j w Hj).
Qed.

(** Failures never exceed the siblings that cannot be retrieved. *)
Lemma failed_bound done r : race_ok done r -> NoDup done -> (forall i, i ∈ done -> (i < total)%nat) ->
  (failed r + retrievable <= total)%nat.
Proof.
  intros [_ _ _ -> _] Hnd Hlt.
  assert (S1 : (length (List.filter (fun i => negb (ok_at i)) done) <= length (List.filter (fun i => negb (ok_at i)) (seq 0 total)))%nat).
  { apply submseteq_length, NoDup_submseteq.
    - apply NoDup_ListNoDup, List.NoDup_filter, NoDup_ListNoDup, Hnd.
    - intros i. rewrite !list_elem_of_In, !filter_In, <- !list_elem_of_In. intros [Hi Hf]. split; [|done]. apply elem_of_seq. specialize (Hlt i Hi). lia. }
  unfold retrievable. pose proof (filter_length ok_at (seq 0 total)) as F. rewrite length_seq in F. lia.
Qed.

Lemma all_done_present done r : race_ok done r -> (forall i, (i < total)%nat -> i ∈ done) -> present r = retrievable.
Proof.
  intros [R1 R2 -> _ _] Hall. unfold count_present, retrievable.
  assert (E : rs_shards r = map (fun i => if ok_at i then shards_of !! i else None) (seq 0 total)).
  { apply list_eq. intros i. destruct (decide (i < total)%nat) as [Hi|Hi].
    - rewrite R2 by done. rewrite bool_decide_eq_true_2 by auto. cbn.
      symmetry. erewrite list_lookup_fmap, lookup_seq_lt by done. done.
    - rewrite !lookup_ge_None_2; [done| |].
      + rewrite length_map, length_seq. lia.
      + rewrite (Forall2_length _ _ _ R1), shards_pad, length_map. lia. }
  rewrite E. assert (G : forall l, (forall i, i ∈ l -> (i < total)%nat) ->
    length (List.filter is_present (map (fun i => if ok_at i then shards_of !! i else None) l)) = length (List.filter ok_at l)).
  { induction l as [|i l IH]; intros Hl; [done|]. cbn [map List.filter].
    destruct (wire_lookup i (Hl i ltac:(left))) as (w & _ & _ & ->).
    destruct (ok_at i); cbn; rewrite IH; try done; intros j Hj; apply Hl; by right. }
  apply G. intros i Hi%elem_of_seq. lia.
Qed.

Lemma race_loop_ok fuel next inflight done r : window total next inflight done -> race_ok done r ->
  (total <= fuel + length done)%nat -> (n <= retrievable)%nat -> (present r < n)%nat ->
  exists r' done', race_loop store choose fuel addrs n next inflight r = Ok r' /\ race_ok done' r' /\ (n <= present r')%nat.
Proof.
  revert next inflight done r. induction fuel as [|fuel IH]; intros next inflight done r Hw Hr Hf Hn' Hp.
  all: assert (Hend : inflight = [] -> False) by (intros ->; pose proof (win_busy _ _ _ _ Hw eq_refl);
    rewrite (all_done_present done r Hr) in Hp; [lia|]; intros i Hi; apply (win_all _ _ _ _ Hw); lia).
  { destruct Hend. by apply (window_fuel total next inflight done 0). }
  destruct inflight as [|i0 inf] eqn:Einf; [by destruct Hend|]. rewrite <- Einf in *. clear Hend.
  assert (Hne : inflight <> []) by (by rewrite Einf).
  cbn [race_loop]. rewrite Einf. rewrite <- Einf.
  destruct (next_done choose addrs inflight) as [i rest] eqn:Ed. destruct (refill total next rest) as [rest' next'] eqn:Er.
  destruct (window_step _ _ _ _ _ _ _ _ _ _ Hw Hne Ed Er) as (Hw' & Hi & Hit & _ & _).
  assert (Hnd : i ∉ done).
  { pose proof (win_nodup _ _ _ _ Hw) as Hnd. apply NoDup_app in Hnd as (_ & Hdis & _). auto. }
  destruct (wire_lookup i Hit) as (w & Hlw & Hgood & _).
  destruct (Hstore i w Hlw) as [Hst|Hst].
  - rewrite Hst, (dc_from_good w Hgood). cbn [result_bind]. pose proof (race_landed done r i w Hr Hnd Hit Hlw Hst) as Hr'.
    destruct (Nat.leb_spec n (present (race_land n i (dc_of w) r))) as [Hle|Hlt].
    + eexists _, (i :: done). split; [done|]. split; [done|]. done.
    + apply (IH next' rest' (i :: done)); try done. cbn [length]. lia.
  - destruct (store (addrs !!! i)) as [|e] eqn:Es; [done|].
    assert (Hok : ok_at i = false) by (unfold ok_at; by rewrite Es).
    pose proof (race_failed done r i Hr Hit Hok) as Hr'. set (r1 := mkRace _ _ _ _) in *.
    assert (Hb : (failed r1 + retrievable <= total)%nat).
    { apply (failed_bound (i :: done)); [done| |].
      - pose proof (win_nodup _ _ _ _ Hw') as Hnd'. by apply NoDup_app in Hnd' as (_ & _ & ?).
      - intros j Hj. pose proof (win_next _ _ _ _ Hw'). assert (j < next')%nat; [|lia].
        apply (win_all _ _ _ _ Hw'). apply elem_of_app. auto. }
    rewrite (proj2 (Nat.ltb_ge _ _)) by lia. apply (IH next' rest' (i :: done)); try done. cbn [length]. lia.
Qed.

Lemma clamp_range x hi : (1 <= hi)%nat -> (1 <= clamp x 1 hi <= hi)%nat.
Proof. unfold clamp. lia. Qed.

(** A redundant node: any [n] retrievable siblings give all the data children. *)
Lemma redundant_children rs in_flight : par <> [] -> rs_new n (length par) = Ok rs -> codeword rs CHUNK_WITH_SPAN shards_of ->
  (n <= retrievable)%nat ->
  exists cs, fetch_node_children store choose addrs n in_flight = Ok cs /\ Forall2 child_ok ws cs.
Proof.
  intros Hpne Hrs Hcw Hret. unfold fetch_node_children.
  assert (Hsub : (total - n = length par)%nat) by (rewrite Htotal; unfold node_wires; rewrite length_app; lia).
  assert (Hpl : (1 <= length par)%nat) by (destruct par; [done|cbn; lia]).
  rewrite Hsub. rewrite (proj2 (Nat.eqb_neq _ _)) by lia.
  destruct (race_loop_ok total (clamp in_flight 1 total) (seq 0 (clamp in_flight 1 total)) []
    (mkRace (replicate total None) (replicate n None) 0 0)) as (r & done & E & [R1 R2 R3 R4 [R5 R6]] & Hp).
  { apply window_init, clamp_range. lia. }
  { apply race_init. }
  { cbn. lia. }
  { done. }
  { cbn. lia. }
  rewrite E. cbn [result_bind]. rewrite (proj2 (Nat.ltb_ge _ _)) by done.
  destruct (Nat.eqb_spec (length (List.filter (fun d => match d with Some _ => true | None => false end) (decoded_data r))) n) as [Hall|_].
  - exists (map dc_of ws). split; [|apply Forall2_fmap_r, Forall_Forall2_diag, Forall_true; by left].
    apply unwrap_all_ok; [done|]. intros i w Hi. pose proof (R6 i w Hi) as H6. rewrite H6.
    rewrite <- R5 in Hall. apply List.filter_length_forallb in Hall. rewrite forallb_forall in Hall.
    destruct (bool_decide (i ∈ done) && ok_at i); [done|]. apply list_elem_of_lookup_2, list_elem_of_In in H6.
    by apply Hall in H6.
  - rewrite Hrs. cbn [map_err result_bind].
    destruct (rs_new_ok n (length par)) as (rs' & Ers & Hds & Hps & Hwf); [lia|rewrite <- Hsub; unfold rs_new in Hrs; destruct (Nat.ltb_spec 256 (n + length par)); [rewrite orb_true_r in Hrs; done|lia]|].
    assert (rs' = rs) as -> by congruence.
    destruct (reconstruct_codeword rs CHUNK_WITH_SPAN shards_of (rs_shards r) Hwf Hcw R1) as (sh & -> & _ & Hsh & _); [lia|].
    cbn [map_err result_bind]. apply materialise_ok; [done|done|]. intros i w Hi. split.
    + rewrite (R6 i w Hi). destruct (bool_decide (i ∈ done) && ok_at i); auto.
    + assert (Hin : (i < n)%nat) by (by apply lookup_lt_Some in Hi). rewrite Hsh by lia.
      rewrite (list_lookup_total_correct _ _ (pad w)); [done|]. unfold shards_of. rewrite lookup_app_l by (by rewrite length_map).
      change (map pad ws) with (pad <$> ws). by rewrite list_lookup_fmap, Hi.
Qed.

(** A node without parity needs all its children. *)
Definition slots_ok (done : list nat) (slots : list (option DecodedChunk)) : Prop :=
  length slots = n /\ forall i w, ws !! i = Some w -> slots !! i = Some (if bool_decide (i ∈ done) then Some (dc_of w) else None).

Lemma all_retrievable i : par = [] -> (n <= retrievable)%nat -> (i < total)%nat -> ok_at i = true.
Proof.
  intros Hpe Hret Hi. assert (E : length (List.filter ok_at (seq 0 total)) = length (seq 0 total)).
  { pose proof (List.filter_length_le ok_at (seq 0 total)). rewrite length_seq in *. unfold retrievable in Hret.
    assert (total = n) by (rewrite Htotal; unfold node_wires; rewrite Hpe, app_nil_r; done). lia. }
  apply List.filter_length_forallb in E. rewrite forallb_forall in E. apply E, in_seq. lia.
Qed.

Lemma plain_loop_ok fuel next inflight done slots : par = [] -> (n <= retrievable)%nat ->
  window n next inflight done -> slots_ok done slots -> (n <= fuel + length done)%nat ->
  exists slots', plain_loop store choose fuel addrs n next inflight slots = Ok slots' /\ length slots' = n /\
    forall i w, ws !! i = Some w -> slots' !! i = Some (Some (dc_of w)).
Proof.
  intros Hpe Hret. assert (Ht : total = n) by (rewrite Htotal; unfold node_wires; by rewrite Hpe, app_nil_r).
  revert next inflight done slots. induction fuel as [|fuel IH]; intros next inflight done slots Hw [Hl Hs] Hf.
  all: assert (Hend : inflight = [] -> forall i w, ws !! i = Some w -> slots !! i = Some (Some (dc_of w))) by
    (intros -> i w Hi; rewrite (Hs i w Hi), bool_decide_eq_true_2; [done|]; apply (win_all _ _ _ _ Hw);
     rewrite (win_busy _ _ _ _ Hw eq_refl); by apply lookup_lt_Some in Hi).
  { exists slots. split; [done|]. split; [done|]. apply Hend. by apply (window_fuel n next inflight done 0). }
  destruct inflight as [|i0 inf] eqn:Einf; [exists slots; by auto|]. rewrite <- Einf in *. clear Hend.
  assert (Hne : inflight <> []) by (by rewrite Einf). cbn [plain_loop]. rewrite Einf. rewrite <- Einf.
  destruct (next_done choose addrs inflight) as [i rest] eqn:Ed. destruct (refill n next rest) as [rest' next'] eqn:Er.
  destruct (window_step _ _ _ _ _ _ _ _ _ _ Hw Hne Ed Er) as (Hw' & Hi & Hit & _ & _).
  destruct (wire_lookup i ltac:(lia)) as (w & Hlw & Hgood & _).
  assert (Hst : store (addrs !!! i) = Ok w).
  { destruct (Hstore i w Hlw) as [|Hf']; [done|]. pose proof (all_retrievable i Hpe Hret ltac:(lia)) as Ho. unfold ok_at in Ho. congruence. }
  rewrite Hst. cbn [map_err result_bind]. rewrite (dc_from_good w Hgood). cbn [result_bind].
  assert (Hwi : ws !! i = Some w) by (unfold node_wires in Hlw; by rewrite Hpe, app_nil_r in Hlw).
  apply (IH next' rest' (i :: done)); [done| |cbn [length]; lia].
  split; [by rewrite length_insert|]. intros j wj Hj. destruct (decide (j = i)) as [->|Hne'].
  - rewrite list_lookup_insert_eq by lia. rewrite bool_decide_eq_true_2 by left. congruence.
  - by rewrite list_lookup_insert_ne, (Hs j wj Hj), in_cons_ne.
Qed.

Lemma plain_children in_flight : par = [] -> (n <= retrievable)%nat ->
  exists cs, fetch_node_children store choose addrs n in_flight = Ok cs /\ Forall2 child_ok ws cs.
Proof.
  intros Hpe Hret. assert (Ht : total = n) by (rewrite Htotal; unfold node_wires; by rewrite Hpe, app_nil_r).
  unfold fetch_node_children. rewrite Ht, Nat.sub_diag. cbn [Nat.eqb].
  replace (Nat.max n 1) with n by lia.
  destruct (plain_loop_ok n (clamp in_flight 1 n) (seq 0 (clamp in_flight 1 n)) [] (replicate n None)) as (sl & -> & Hl & Hs); try done.
  - by apply window_init, clamp_range.
  - split; [by rewrite length_replicate|]. intros i w Hi. rewrite lookup_replicate_2 by (by apply lookup_lt_Some in Hi).
    by rewrite bool_decide_eq_false_2 by apply not_elem_of_nil.
  - cbn. lia.
  - cbn [result_bind]. exists (map dc_of ws). split; [by apply unwrap_all_ok|].
    apply Forall2_fmap_r, Forall_Forall2_diag, Forall_true. by left.
Qed.
End Children.
