(* ===== verification/ChunkTree.v ===== *)
(** * The chunk tree of an erasure-coded object

    What the splitter writes and the joiner reads, as a data type: leaves with their
    payload, and nodes over at most [max_shards] children.  [wire] is the chunk of a
    subtree, [parity_wires] the parity chunks of a node; a store keeps an object
    [available] when it answers enough siblings of every node. *)
From Stdlib Require Import ZArith Lia.
From stdpp Require Import base tactics numbers strings list.
From S2P Require Import Prelude Galois ReedSolomon Erasure Joiner JoinerProps.
Local Open Scope Z_scope.
Local Open Scope hov_scope.

Inductive tree := Leaf (payload : bytes) | Node (kids : list tree).

(** Induction over a tree and all its children. *)
Fixpoint tree_nested (P : tree -> Prop) (HL : forall p, P (Leaf p)) (HN : forall ks, Forall P ks -> P (Node ks)) (t : tree) : P t :=
  match t with
  | Leaf p => HL p
  | Node ks => HN ks ((fix go (l : list tree) : Forall P l :=
      match l with [] => Forall_nil_2 P | x :: xs => Forall_cons_2 P x xs (tree_nested P HL HN x) (go xs) end) ks)
  end.

Definition zsum (xs : list Z) : Z := foldr Z.add 0 xs.

Fixpoint size (t : tree) : Z :=
  match t with Leaf p => Z.of_nat (length p) | Node ks => zsum (map size ks) end.
Fixpoint content (t : tree) : bytes :=
  match t with Leaf p => p | Node ks => concat (map content ks) end.
Fixpoint depth (t : tree) : nat :=
  match t with Leaf _ => 0%nat | Node ks => S (foldr Nat.max 0%nat (map depth ks)) end.

Section Object.
Context (bmt : Z -> bytes -> bytes) (l : Level).

Definition addr (w : bytes) : bytes := default [] (wire_address bmt w).

(** The parity shards of a node over the chunks [ws]. *)
Definition parity_wires (ws : list bytes) : list bytes :=
  let m := parities l (length ws) in
  match rs_new (length ws) m with
  | Err _ => []
  | Ok rs =>
      match encode rs (map pad ws ++ replicate m (replicate CHUNK_WITH_SPAN 0)) with
      | Ok cw => drop (length ws) cw
      | Err _ => []
      end
  end.

Definition leaf_wire (p : bytes) : bytes := to_le_bytes SPAN_SIZE (Z.of_nat (length p)) ++ p.
Definition node_span (s : Z) : bytes :=
  if bool_decide (l = LNone) then to_le_bytes SPAN_SIZE s else encode_level l (to_le_bytes SPAN_SIZE s).
Definition node_refs (ws : list bytes) : list bytes := map addr (ws ++ parity_wires ws).
Definition node_wire (s : Z) (ws : list bytes) : bytes := node_span s ++ concat (node_refs ws).

Fixpoint wire (t : tree) : bytes :=
  match t with Leaf p => leaf_wire p | Node ks => node_wire (zsum (map size ks)) (map wire ks) end.

Fixpoint wf (t : tree) : Prop :=
  match t with
  | Leaf p => (length p <= CHUNK_SIZE)%nat /\ all_bytes p
  | Node ks =>
      (1 <= length ks <= max_shards l)%nat /\ 4096 < zsum (map size ks) < 2 ^ 56 /\
      reference_count (zsum (map size ks)) l = Some (length ks, parities l (length ks)) /\
      foldr and True (map wf ks)
  end.

(** The bounds on payloads and node widths alone. *)
Fixpoint shape (t : tree) : Prop :=
  match t with
  | Leaf p => (length p <= CHUNK_SIZE)%nat /\ all_bytes p
  | Node ks => (1 <= length ks <= max_shards l)%nat /\ foldr and True (map shape ks)
  end.

(** A node's siblings: answered with their chunk or not at all, enough of them, and
    the last one's reference not zero (which would read as padding). *)
Definition siblings_ok (store : bytes -> result bytes str) (ws : list bytes) : Prop :=
  (forall w, w ∈ ws ++ parity_wires ws -> store (addr w) = Ok w \/ is_ok (store (addr w)) = false) /\
  (length ws <= length (List.filter (fun w => is_ok (store (addr w))) (ws ++ parity_wires ws)))%nat /\
  last (node_refs ws) <> Some (replicate HASH_SIZE 0).

Fixpoint available (store : bytes -> result bytes str) (t : tree) : Prop :=
  match t with
  | Leaf _ => True
  | Node ks => siblings_ok store (map wire ks) /\ foldr and True (map (available store) ks)
  end.
End Object.

Lemma foldr_and_Forall {A} (P : A -> Prop) (xs : list A) : foldr and True (map P xs) <-> Forall P xs.
Proof. induction xs as [|x xs IH]; cbn; [split; by constructor|]. rewrite Forall_cons, IH. done. Qed.

Lemma size_content t : size t = Z.of_nat (length (content t)).
Proof.
  induction t as [p|ks IH] using tree_nested; [done|]. cbn [size content].
  induction IH as [|t ks Ht _ IH]; [done|]. cbn [map zsum foldr concat]. unfold zsum in IH. rewrite length_app, IH, Ht. lia.
Qed.

(** Counting over a list and over its positions. *)
Lemma count_seq {A} (xs : list A) (f : A -> bool) (g : nat -> bool) : (forall i x, xs !! i = Some x -> g i = f x) ->
  length (List.filter f xs) = length (List.filter g (seq 0 (length xs))).
Proof.
  revert g. induction xs as [|x xs IH]; intros g Hg; [done|]. cbn [length seq List.filter].
  rewrite (Hg 0%nat x eq_refl), <- seq_shift.
  rewrite List.filter_map_swap. pose proof (IH (fun i => g (S i)) (fun i y Hi => Hg (S i) y Hi)) as E.
  destruct (f x); cbn [length]; by rewrite length_map, E.
Qed.

Section Facts.
Context (bmt : Z -> bytes -> bytes) (l : Level).
Context (Hbmt : forall s b, length (bmt s b) = HASH_SIZE /\ all_bytes (bmt s b)).

Lemma addr_ok w : good_wire w -> length (addr bmt w) = HASH_SIZE /\ all_bytes (addr bmt w).
Proof.
  intros [[H1 H2] _]. unfold addr, wire_address. unfold CHUNK_WITH_SPAN in H2.
  rewrite (proj2 (Nat.ltb_ge _ _)) by lia. rewrite (proj2 (Nat.ltb_ge _ _)) by lia. cbn. apply Hbmt.
Qed.

(** The shards of a node are a codeword whose parity part is [parity_wires]. *)
Lemma parity_codeword ws : (1 <= length ws <= max_shards l)%nat -> Forall good_wire ws ->
  exists rs, rs_new (length ws) (length (parity_wires l ws)) = Ok rs /\ length (parity_wires l ws) = parities l (length ws) /\
    codeword rs CHUNK_WITH_SPAN (shards_of ws (parity_wires l ws)) /\
    Forall (fun w => length w = CHUNK_WITH_SPAN /\ all_bytes w) (parity_wires l ws).
Proof.
  intros Hn Hg. pose proof (parities_fit l (length ws) Hn) as [Hfit _]. unfold BRANCHES in Hfit.
  destruct (rs_new_ok (length ws) (parities l (length ws)) ltac:(lia) ltac:(lia)) as (rs & Ers & Eds & Eps & Hwf).
  pose proof (wf_total rs Hwf) as Ht.
  destruct (encode_codeword rs CHUNK_WITH_SPAN (map pad ws ++ replicate (parities l (length ws)) (replicate CHUNK_WITH_SPAN 0)) Hwf)
    as (cw & Eenc & Hcw & Etk).
  { rewrite length_app, length_map, length_replicate. lia. }
  { apply Forall_app. split; [|apply Forall_replicate, length_replicate]. apply Forall_map. eapply Forall_impl; [exact Hg|]. apply pad_length. }
  { apply Forall_app. split; [|apply Forall_replicate, Forall_replicate, is_byte_0]. apply Forall_map. eapply Forall_impl; [exact Hg|]. apply pad_bytes. }
  assert (Epw : parity_wires l ws = drop (length ws) cw) by (unfold parity_wires; by rewrite Ers, Eenc).
  assert (Elen : length (drop (length ws) cw) = parities l (length ws)) by (rewrite length_drop, (cw_length _ _ _ Hcw); lia).
  rewrite Epw. exists rs. rewrite Elen. split_and!; [done|done| |].
  - unfold shards_of. rewrite Eds, take_app_length' in Etk by (by rewrite length_map). rewrite <- Etk, take_drop. done.
  - apply Forall_and. split; apply Forall_drop; apply Hcw.
Qed.

Lemma decode_small s : 0 <= s < 2 ^ 56 -> decode_span (to_le_bytes SPAN_SIZE s) = (LNone, s).
Proof.
  intros Hs. change SPAN_SIZE with 8%nat. rewrite (to_le_bytes_snoc 7), decode_span_le7.
  rewrite (Z.div_small s) by exact Hs. change (0 mod 256) with 0. change (0 <=? 128) with true. cbn [orb].
  rewrite from_le_bytes_snoc_0, from_to_le_bytes_mod. f_equal. apply Z.mod_small. exact Hs.
Qed.

Lemma node_span_length s : length (node_span l s) = SPAN_SIZE.
Proof. unfold node_span, encode_level. case_bool_decide; rewrite ?length_insert; apply to_le_bytes_length. Qed.

Lemma node_span_bytes s : all_bytes (node_span l s).
Proof.
  unfold node_span, encode_level. case_bool_decide; [apply to_le_bytes_bytes|].
  apply Forall_insert; [apply to_le_bytes_bytes|]. destruct l; vm_compute; intuition discriminate.
Qed.

Lemma decode_node_span s : 0 <= s < 2 ^ 56 -> decode_span (node_span l s) = (l, s).
Proof.
  intros Hs. unfold node_span. case_bool_decide as Hl; [rewrite Hl; by apply decode_small|].
  change SPAN_SIZE with 8%nat. rewrite (proj1 (span_level_roundtrip l s Hl ltac:(lia))). f_equal. apply Z.mod_small. lia.
Qed.

(** The references of a node. *)
Lemma node_refs_ok ws : (1 <= length ws <= max_shards l)%nat -> Forall good_wire ws ->
  refs_ok (node_refs bmt l ws) /\ Forall (fun r => all_bytes r) (node_refs bmt l ws) /\
  length (node_refs bmt l ws) = (length ws + parities l (length ws))%nat /\ (length (node_refs bmt l ws) <= 128)%nat.
Proof.
  intros Hn Hg. destruct (parity_codeword ws Hn Hg) as (rs & _ & Hlen & _ & Hpar).
  assert (Hall : Forall good_wire (ws ++ parity_wires l ws)) by (by apply wires_good).
  unfold node_refs. split_and!.
  - apply Forall_map. eapply Forall_impl; [exact Hall|]. intros w Hw. by apply addr_ok.
  - apply Forall_map. eapply Forall_impl; [exact Hall|]. intros w Hw. by apply addr_ok.
  - by rewrite length_map, length_app, Hlen.
  - rewrite length_map, length_app, Hlen. pose proof (parities_fit l (length ws) Hn) as [Hf _]. exact Hf.
Qed.

Lemma concat_bytes (xs : list bytes) : Forall (fun r => all_bytes r) xs -> all_bytes (concat xs).
Proof. induction 1; [by constructor|]. cbn. by apply Forall_app. Qed.

Lemma leaf_wire_good p : (length p <= CHUNK_SIZE)%nat -> all_bytes p -> good_wire (leaf_wire p).
Proof.
  intros Hp Hb. unfold leaf_wire. split.
  - rewrite length_app, to_le_bytes_length. unfold CHUNK_WITH_SPAN. lia.
  - apply Forall_app. split; [apply to_le_bytes_bytes|done].
Qed.

Lemma node_wire_good s ws : (1 <= length ws <= max_shards l)%nat -> Forall good_wire ws -> good_wire (node_wire bmt l s ws).
Proof.
  intros Hn Hg. destruct (node_refs_ok ws Hn Hg) as (H1 & H2 & _ & H4). unfold node_wire. split.
  - rewrite length_app, node_span_length, concat_refs_length by done. unfold CHUNK_WITH_SPAN, HASH_SIZE, CHUNK_SIZE. lia.
  - apply Forall_app. split; [apply node_span_bytes|by apply concat_bytes].
Qed.

Lemma shape_good t : shape l t -> good_wire (wire bmt l t).
Proof.
  induction t as [p|ks IH] using tree_nested; cbn [shape wire]; [intros [? ?]; by apply leaf_wire_good|].
  intros (Hn & Hks%foldr_and_Forall). apply node_wire_good; [by rewrite length_map|].
  apply Forall_map. eapply Forall_impl; [apply Forall_and; split; [exact IH|exact Hks]|]. intros t [Ht Hw]. auto.
Qed.

Lemma wf_shape t : wf l t -> shape l t.
Proof.
  induction t as [p|ks IH] using tree_nested; cbn [shape wf]; [done|]. intros (Hn & _ & _ & Hks%foldr_and_Forall).
  split; [done|]. apply foldr_and_Forall. eapply Forall_impl; [apply Forall_and; split; [exact IH|exact Hks]|]. intros t [Ht Hw]. auto.
Qed.

Lemma wire_good t : wf l t -> good_wire (wire bmt l t).
Proof. intros Hw. by apply shape_good, wf_shape. Qed.

Lemma wf_size t : wf l t -> 0 <= size t < 2 ^ 56.
Proof. destruct t; cbn [wf size]; [unfold CHUNK_SIZE; lia|]. intros (_ & Hs & _). lia. Qed.

(** ** Reading a subtree *)

(** What the reader sees of a leaf and of a node. *)
Lemma leaf_seen p dc : (length p <= CHUNK_SIZE)%nat -> all_bytes p -> child_ok (leaf_wire p) dc ->
  dc_data dc = p /\ level_and_len dc = (LNone, Z.of_nat (length p)).
Proof.
  intros Hp Hb Hc. pose proof (leaf_wire_good p Hp Hb) as Hg.
  assert (Htk : take SPAN_SIZE (leaf_wire p) = to_le_bytes SPAN_SIZE (Z.of_nat (length p))) by
    (unfold leaf_wire; by rewrite take_app_length' by (by rewrite to_le_bytes_length)).
  assert (Hdr : drop SPAN_SIZE (leaf_wire p) = p) by (unfold leaf_wire; by rewrite drop_app_length' by (by rewrite to_le_bytes_length)).
  assert (Hdec : decode_span (to_le_bytes SPAN_SIZE (Z.of_nat (length p))) = (LNone, Z.of_nat (length p))) by
    (apply decode_small; unfold CHUNK_SIZE in Hp; lia).
  destruct Hc as [->|Hc].
  - unfold dc_of, level_and_len. cbn [dc_data raw_span]. rewrite le_span by done. rewrite Htk, Hdr. done.
  - unfold decode_wire in Hc. rewrite (proj2 (Nat.ltb_ge _ _)) in Hc by (rewrite pad_length by done; apply Nat.leb_le; by vm_compute).
    unfold pad in Hc. rewrite take_app_le, drop_app_le in Hc by apply Hg. rewrite Htk, Hdr, Hdec in Hc. cbn [snd] in Hc.
    rewrite (proj2 (Z.leb_le _ _)) in Hc by lia. rewrite Nat2Z.id, length_app, Nat.min_l, take_app_length in Hc by lia.
    assert (dc = mkDecoded (from_le_bytes (to_le_bytes SPAN_SIZE (Z.of_nat (length p)))) p) as -> by congruence.
    unfold level_and_len. cbn [dc_data raw_span]. rewrite <- Htk, le_span, Htk, Hdec by done. done.
Qed.

Lemma node_seen s ws dc : (1 <= length ws <= max_shards l)%nat -> Forall good_wire ws -> 4096 < s < 2 ^ 56 ->
  child_ok (node_wire bmt l s ws) dc ->
  level_and_len dc = (l, s) /\ exists z, dc_data dc = concat (node_refs bmt l ws) ++ replicate (HASH_SIZE * z) 0 /\
    (length (dc_data dc) <= 4096)%nat.
Proof.
  intros Hn Hws Hs Hc. pose proof (node_wire_good s ws Hn Hws) as Hg. destruct (node_refs_ok ws Hn Hws) as (R1 & _ & _ & R4).
  set (refs := concat (node_refs bmt l ws)) in *. assert (Hrl : length refs = (32 * length (node_refs bmt l ws))%nat) by (by apply concat_refs_length).
  assert (Htk : take SPAN_SIZE (node_wire bmt l s ws) = node_span l s) by
    (unfold node_wire; by rewrite take_app_length' by (by rewrite node_span_length)).
  assert (Hdr : drop SPAN_SIZE (node_wire bmt l s ws) = refs) by (unfold node_wire; by rewrite drop_app_length' by (by rewrite node_span_length)).
  assert (Hdec : decode_span (node_span l s) = (l, s)) by (apply decode_node_span; lia).
  destruct Hc as [->|Hc].
  - unfold dc_of, level_and_len. cbn [dc_data raw_span]. rewrite le_span by done. rewrite Htk, Hdr, Hdec. split; [done|].
    exists 0%nat. rewrite Nat.mul_0_r, app_nil_r. split; [done|lia].
  - unfold decode_wire in Hc. rewrite (proj2 (Nat.ltb_ge _ _)) in Hc by (rewrite pad_length by done; apply Nat.leb_le; by vm_compute).
    unfold pad in Hc. rewrite take_app_le, drop_app_le in Hc by apply Hg. rewrite Htk, Hdr, Hdec in Hc. cbn [snd] in Hc.
    rewrite (proj2 (Z.leb_gt _ _)) in Hc by (unfold CHUNK_SIZE; lia). rewrite take_ge in Hc by done.
    match type of Hc with Ok ?d = _ => assert (dc = d) as -> by congruence end.
    unfold level_and_len. cbn [dc_data raw_span]. rewrite <- Htk, le_span, Htk, Hdec by done. split; [done|].
    exists (128 - length (node_refs bmt l ws))%nat. split; [do 2 f_equal|rewrite length_app, length_replicate].
    + unfold node_wire. fold refs. rewrite length_app, node_span_length, Hrl. unfold CHUNK_WITH_SPAN, CHUNK_SIZE, HASH_SIZE. lia.
    + unfold node_wire. fold refs. rewrite length_app, node_span_length, Hrl. unfold CHUNK_WITH_SPAN, CHUNK_SIZE. lia.
Qed.

Section Read.
Context (store : bytes -> result bytes str) (choose : list bytes -> list nat -> nat) (in_flight : nat).

(** The children of a node whose siblings are kept. *)
Lemma node_children ws : (1 <= length ws <= max_shards l)%nat -> Forall good_wire ws -> siblings_ok bmt l store ws ->
  exists cs, fetch_node_children store choose (node_refs bmt l ws) (length ws) in_flight = Ok cs /\ Forall2 child_ok ws cs.
Proof.
  intros Hn Hg (Hst & Hcnt & _). destruct (parity_codeword ws Hn Hg) as (rs & Hrs & Hlen & Hcw & Hpar).
  set (par := parity_wires l ws) in *.
  assert (Hl : length (node_refs bmt l ws) = length (node_wires ws par)) by (unfold node_refs; by rewrite length_map).
  assert (Hlk : forall i w, node_wires ws par !! i = Some w -> node_refs bmt l ws !!! i = addr bmt w).
  { intros i w Hi. apply list_lookup_total_correct. unfold node_refs. change (map (addr bmt) ?x) with (addr bmt <$> x).
    fold par. by rewrite list_lookup_fmap, (Hi : (ws ++ par) !! i = Some w). }
  assert (Hs : forall i w, node_wires ws par !! i = Some w ->
    store (node_refs bmt l ws !!! i) = Ok w \/ is_ok (store (node_refs bmt l ws !!! i)) = false).
  { intros i w Hi. rewrite (Hlk i w Hi). apply Hst. by apply list_elem_of_lookup_2 in Hi. }
  assert (Hr : (length ws <= retrievable store (node_refs bmt l ws))%nat).
  { etrans; [exact Hcnt|]. unfold retrievable, ok_at. rewrite Hl. fold par. fold (node_wires ws par). clear -Hlk.
    apply Nat.eq_le_incl. apply (count_seq (node_wires ws par) (fun w => is_ok (store (addr bmt w)))). intros i w Hi. by rewrite (Hlk i w Hi). }
  destruct (decide (par = [])) as [Hpe|Hpne].
  - apply (plain_children store choose (node_refs bmt l ws) ws par); try done; lia.
  - apply (redundant_children store choose (node_refs bmt l ws) ws par) with rs; try done; lia.
Qed.

(** A subtree is read back completely, in order. *)
Definition reads (fuel : nat) (t : tree) : Prop := forall out dc, child_ok (wire bmt l t) dc ->
  let '(lv, s) := level_and_len dc in s = size t /\
  exists p, parity_of lv s = Some p /\
    read_node store choose fuel (dc_data dc) s p in_flight out = Some (Ok (out ++ content t)).

Lemma read_leaf fuel p : wf l (Leaf p) -> reads fuel (Leaf p).
Proof.
  intros [Hp Hb] out dc Hc. destruct (leaf_seen p dc Hp Hb Hc) as [Hd ->]. split; [done|]. exists 0%nat. split; [done|].
  rewrite Hd. destruct fuel; cbn [read_node]; by rewrite (proj2 (Z.leb_le _ _)) by lia.
Qed.

(** The loop over the children. *)
Lemma read_children fuel ks cs out : Forall (reads fuel) ks -> Forall2 child_ok (map (wire bmt l) ks) cs ->
  foldl (fun (acc : option (result bytes ErasureError)) child =>
    match acc with
    | Some (Ok out) =>
        let '(lv, span) := level_and_len child in
        match parity_of lv span with
        | None => None
        | Some p => read_node store choose fuel (dc_data child) span p in_flight out
        end
    | _ => acc
    end) (Some (Ok out)) cs = Some (Ok (out ++ concat (map content ks))).
Proof.
  intros Hks. revert cs out. induction Hks as [|t ks Ht Hks IH]; intros cs out Hc.
  { apply Forall2_nil_inv_l in Hc as ->. cbn. by rewrite app_nil_r. }
  cbn [map] in Hc. apply Forall2_cons_inv_l in Hc as (dc & cs' & Hdc & Hc & ->). cbn [foldl].
  pose proof (Ht out dc Hdc) as G. destruct (level_and_len dc) as [lv s]. destruct G as (_ & p & -> & ->).
  rewrite (IH _ _ Hc). cbn [map concat]. by rewrite app_assoc.
Qed.

Lemma depth_kids fuel ks : (depth (Node ks) <= S fuel)%nat -> Forall (fun t => depth t <= fuel)%nat ks.
Proof.
  cbn [depth]. intros H. apply Nat.succ_le_mono in H. induction ks as [|t ks IH]; [constructor|]. cbn in H.
  constructor; [lia|]. apply IH. lia.
Qed.

Lemma read_tree t : wf l t -> available bmt l store t -> forall fuel, (depth t <= fuel)%nat -> reads fuel t.
Proof.
  induction t as [p|ks IH] using tree_nested; intros Hwf Hav fuel Hd; [by apply read_leaf|].
  destruct fuel as [|fuel]; [cbn in Hd; lia|]. apply depth_kids in Hd.
  destruct Hwf as (Hn & Hs & Hrc & Hks%foldr_and_Forall). destruct Hav as [Hsib Hav%foldr_and_Forall].
  assert (Hkids : Forall (reads fuel) ks).
  { apply Forall_forall. intros t Ht. rewrite Forall_forall in IH, Hks, Hav, Hd. auto. }
  set (ws := map (wire bmt l) ks) in *. assert (Hwl : length ws = length ks) by (apply length_map).
  assert (Hg : Forall good_wire ws).
  { apply Forall_map. eapply Forall_impl; [exact Hks|]. intros t Ht. by apply wire_good. }
  intros out dc Hc. rewrite <- Hwl in Hn, Hrc. destruct (node_seen _ ws dc Hn Hg Hs Hc) as (-> & z & Hdata & Hlen).
  split; [done|]. cbn [size]. set (s := zsum (map size ks)) in *. exists (parities l (length ws)). split.
  { unfold parity_of. case_bool_decide as Hl; [|by rewrite Hrc]. by rewrite Hl. }
  cbn [read_node]. rewrite (proj2 (Z.leb_gt _ _)) by lia.
  destruct (node_refs_ok ws Hn Hg) as (Href & _ & Hrl & _). destruct (node_children ws Hn Hg Hsib) as (cs & Hcs & Hch).
  destruct Hsib as (_ & _ & Hlast). set (refs := node_refs bmt l ws) in *.
  destruct (exists_last (l := refs)) as (refs0 & r & Erefs); [intros E; rewrite E in Hrl; cbn in Hrl; lia|].
  assert (Hpay : chunk_payload_size (dc_data dc) = Some (HASH_SIZE * length refs)%nat).
  { rewrite Hdata, Erefs. apply payload_size_padded; [by rewrite <- Erefs|]. intros ->. apply Hlast. by rewrite Erefs, last_snoc. }
  rewrite Hpay, Hdata, take_app_length', chunk_addresses_concat by (by rewrite ?concat_refs_length). rewrite Hrl, Nat.add_sub.
  rewrite (proj2 (Nat.eqb_neq _ _)), (proj2 (Nat.ltb_ge _ _)) by lia. cbn [orb]. rewrite Hcs.
  rewrite take_ge by (rewrite <- (Forall2_length _ _ _ Hch); lia). by apply read_children.
Qed.
End Read.

(** From any store that holds the root and answers, for every node of the tree, at
    least as many siblings as it has data children, whatever the order in which the
    fetches complete, reading returns the content. *)
Lemma join_tree store choose t fuel in_flight : wf l t -> available bmt l store t ->
  store (addr bmt (wire bmt l t)) = Ok (wire bmt l t) -> (depth t <= fuel)%nat ->
  fetch_erasure_bytes_progress store choose fuel (addr bmt (wire bmt l t)) in_flight = Some (Ok (content t)).
Proof.
  intros Hwf Hav Hroot Hd. unfold fetch_erasure_bytes_progress. rewrite Hroot.
  rewrite (dc_from_good _ (wire_good t Hwf)).
  pose proof (read_tree store choose (Nat.max in_flight 1) t Hwf Hav fuel Hd [] (dc_of (wire bmt l t)) (or_introl eq_refl)) as G.
  destruct (level_and_len (dc_of (wire bmt l t))) as [lv s]. destruct G as (-> & p & -> & ->).
  cbn [app]. rewrite take_ge; [done|]. rewrite size_content. lia.
Qed.
End Facts.
