(* ===== verification/Replicas.v ===== *)
(** * Dispersed replicas of a root chunk ([src/src/erasure/replicas.rs])

    The search for replica addresses in distinct neighbourhoods, the replicas an
    upload adds and the recovery of a root from them.  Hashing, the construction of
    a content chunk and the signed single-owner chunk are library calls and
    parameters. *)
From Stdlib Require Import ZArith Lia.
From stdpp Require Import base tactics numbers strings list.
From S2P Require Import Prelude Erasure.
Local Open Scope Z_scope.
Local Open Scope hov_scope.

Definition REPLICAS_OWNER : bytes :=
  [0xdc; 0x5b; 0x20; 0x84; 0x7f; 0x43; 0xd6; 0x79; 0x28; 0xf4; 0x9c; 0xd4; 0xf8; 0x5d; 0x69; 0x6b; 0x5a; 0x76; 0x17; 0xb5].
Definition REPLICA_COUNTS : list nat := [0; 2; 4; 8; 16]%nat.
Definition REPLICA_INDEX_BASES : list nat := [0; 2; 6; 14; 0]%nat.
Definition DEFAULT_DOWNLOAD_LEVEL : Level := Paranoid.

(** [struct Candidate] and [struct Replicator]. *)
Record Candidate := mkCand { mined : Z; c_addr : bytes }.
Record Replicator := mkRepl { queue : list (option Candidate); exist : list bool; sizes : list nat }.

Definition replicator_new : Replicator := mkRepl (replicate 16 None) (replicate 30 false) REPLICA_COUNTS.
Definition level_nat (l : Level) : nat := Z.to_nat (level_u8 l).

(** [Replicator::nh]; [d] is the level as a number. *)
Definition nh (d : nat) (a : bytes) : nat :=
  (REPLICA_INDEX_BASES !!! (d - 1)%nat + Z.to_nat (Z.shiftr (a !!! 0%nat) (8 - Z.of_nat d)))%nat.

(** [Replicator::add]: by recursion on the level number; the next weaker level is the
    number below.  The result is the [placed] count (its slot is not used). *)
Fixpoint add (r : Replicator) (c : Candidate) (d : nat) : Replicator * nat :=
  match d with
  | O => (r, 0%nat)
  | S d' =>
      if (exist r !!! nh d (c_addr c) : bool) then (r, 0%nat)
      else
        let r := mkRepl (queue r) (<[nh d (c_addr c) := true]> (exist r)) (sizes r) in
        let '(r, placed) := add r c d' in
        if Nat.eqb placed 0 then
          let slot : nat := sizes r !!! d' in
          (mkRepl (if Nat.ltb slot (length (queue r)) then <[slot := Some c]> (queue r) else queue r) (exist r)
             (<[d' := S slot]> (sizes r)), REPLICA_COUNTS !!! d)
        else (r, placed)
  end.

(** The filled slots at the front of the queue, and the index the loop stopped at. *)
Fixpoint flush (q : list (option Candidate)) (idx : nat) : list Candidate * nat :=
  match q with
  | [] => ([], (idx - 1)%nat)
  | Some c :: q' => let '(cs, a) := flush q' (S idx) in (c :: cs, a)
  | None :: _ => ([], idx)
  end.

Section Search.
Context (keccak256 : bytes -> bytes).

(** [Replicator::replicate]. *)
Definition replicate_at (root : bytes) (i : Z) : Candidate :=
  mkCand i (keccak256 (<[0%nat := i]> root ++ REPLICAS_OWNER)).

(** [Replicator::run]: at most 255 mined bytes. *)
Fixpoint run_loop (fuel : nat) (root : bytes) (d want : nat) (i : Z) (n : nat) (r : Replicator) (out : list Candidate)
    : list Candidate :=
  match fuel with
  | O => out
  | S fuel' =>
      if Nat.ltb (length out) want then
        let '(r, placed) := add r (replicate_at root i) d in
        if Nat.eqb placed 0 then run_loop fuel' root d want (i + 1) n r out
        else
          let '(cs, advanced) := flush (drop n (queue r)) 0 in
          run_loop fuel' root d want (i + 1) (n + advanced) r (out ++ cs)
      else out
  end.
Definition run (root : bytes) (l : Level) : list Candidate :=
  let want := REPLICA_COUNTS !!! level_nat l in
  take want (run_loop 255 root (level_nat l) want 0 0 replicator_new []).

(** [fn replica_addresses]. *)
Definition replica_addresses (root : bytes) (l : Level) : list bytes :=
  if bool_decide (l = LNone) then [] else map c_addr (run root l).

(** [fn unwrap_replica]: the prefix is an identifier and a signature. *)
Definition SOC_PREFIX : nat := HASH_SIZE + 65.
Definition unwrap_replica (bmt : Z -> bytes -> bytes) (wire root : bytes) : option bytes :=
  if Nat.leb (length wire) SOC_PREFIX then None
  else
    let inner := drop SOC_PREFIX wire in
    match wire_address bmt inner with
    | None => None
    | Some a => if bool_decide (a = root) then Some inner else None
    end.

(** [fn dispersed_replicas]; [content_chunk] is the address of
    [ContentChunk::try_from], [new_replica] is [new_dispersed_replica] with the
    address and the bytes of the result. *)
Context (content_chunk : bytes -> result bytes str) (new_replica : Z -> bytes -> result (bytes * bytes) str).

Fixpoint build_replicas (root_wire : bytes) (cs : list Candidate) : result (list (bytes * bytes)) str :=
  match cs with
  | [] => Ok []
  | c :: cs' =>
      let? soc := new_replica (mined c) root_wire in
      if bool_decide (soc.1 <> c_addr c) then Err (lit "replica address does not match the mined address")
      else let? rest := build_replicas root_wire cs' in Ok (soc :: rest)
  end.

Definition dispersed_replicas (root_wire : bytes) (l : Level) : result (list (bytes * bytes)) str :=
  if bool_decide (l = LNone) then Ok []
  else
    let? root_addr := content_chunk root_wire in
    build_replicas root_wire (run root_addr l).
End Search.

(** [fn recover_root]: a window of four fetches in address order; [choose] is which
    of them completes next. *)
Section Recover.
Context (keccak256 : bytes -> bytes) (bmt : Z -> bytes -> bytes).
Context (store : bytes -> result bytes str) (choose : list bytes -> list nat -> nat).

Definition REPLICA_WINDOW : nat := 4.

Fixpoint recover_loop (fuel : nat) (addrs : list bytes) (root : bytes) (next : nat) (inflight : list nat) : option bytes :=
  match fuel, inflight with
  | O, _ | _, [] => None
  | S fuel', _ =>
      let pos := (choose addrs inflight mod length inflight)%nat in
      let i := inflight !!! pos in
      let rest := delete pos inflight in
      let '(rest, next) := if Nat.ltb next (length addrs) then (rest ++ [next], S next) else (rest, next) in
      match store (addrs !!! i) with
      | Err _ => recover_loop fuel' addrs root next rest
      | Ok wire =>
          match unwrap_replica bmt wire root with
          | Some inner => Some inner
          | None => recover_loop fuel' addrs root next rest
          end
      end
  end.

Definition recover_root (root : bytes) (l : Level) : option bytes :=
  let addrs := replica_addresses keccak256 root l in
  let window := Nat.min REPLICA_WINDOW (length addrs) in
  recover_loop (length addrs) addrs root window (seq 0 window).
End Recover.
