(* ===== verification/ReplicasProps.v ===== *)
(** * Replica addresses: dispersal, the prefix property and recovery

    What the search promises: the addresses lie in pairwise distinct
    neighbourhoods, a narrower level's addresses are the first ones of a wider
    level's, and a root is recovered from any replica that is left. *)
From Stdlib Require Import ZArith Lia.
From stdpp Require Import base tactics numbers strings list.
From S2P Require Import Prelude Erasure Replicas.
Local Open Scope Z_scope.
Local Open Scope hov_scope.

(** ** Neighbourhood indices *)

Definition nhb (d : nat) (b : Z) : nat := nh d [b].

Lemma nh_nhb d a : nh d a = nhb d (a !!! 0%nat).
Proof. done. Qed.

Lemma each_byte (P : nat -> bool) : forallb P (seq 0 256) = true -> forall b, is_byte b -> P (Z.to_nat b) = true.
Proof. intros H b Hb. rewrite forallb_forall in H. apply H, in_seq. unfold is_byte in Hb. lia. Qed.

Definition nh_lo (d : nat) : nat := REPLICA_INDEX_BASES !!! (d - 1)%nat.

(** The indices of a depth lie in its own range. *)
Lemma nhb_range d b : (1 <= d <= 4)%nat -> is_byte b -> (nh_lo d <= nhb d b < nh_lo (S d))%nat \/ d = 4%nat /\ (14 <= nhb d b < 30)%nat.
Proof.
  intros Hd Hb.
  assert (H : forallb (fun n => let b := Z.of_nat n in
    Nat.ltb (nhb 1 b) 2 && (Nat.leb 2 (nhb 2 b) && Nat.ltb (nhb 2 b) 6) && (Nat.leb 6 (nhb 3 b) && Nat.ltb (nhb 3 b) 14) &&
    (Nat.leb 14 (nhb 4 b) && Nat.ltb (nhb 4 b) 30)) (seq 0 256) = true) by (vm_compute; reflexivity).
  apply (each_byte _ H) in Hb as Hc. cbv zeta in Hc. rewrite Z2Nat.id in Hc by (unfold is_byte in Hb; lia).
  rewrite !andb_true_iff, !Nat.ltb_lt, !Nat.leb_le in Hc.
  destruct d as [|[|[|[|[|d]]]]]; try lia; unfold nh_lo; cbn [Nat.sub]; simpl (REPLICA_INDEX_BASES !!! _); lia.
Qed.

Lemma nhb_lt d b : (1 <= d <= 4)%nat -> is_byte b -> (nhb d b < 30)%nat.
Proof.
  intros Hd Hb. destruct (nhb_range d b Hd Hb) as [[_ H]|[_ H]]; [|lia].
  destruct d as [|[|[|[|[|d]]]]]; try lia; unfold nh_lo in H; simpl in H; lia.
Qed.

Lemma nhb_ne d d' b b' : (1 <= d < d')%nat -> (d' <= 4)%nat -> is_byte b -> is_byte b' -> (nhb d b < nhb d' b')%nat.
Proof.
  intros Hd Hd' Hb Hb'. pose proof (nhb_range d b ltac:(lia) Hb) as H1. pose proof (nhb_range d' b' ltac:(lia) Hb') as H2.
  unfold nh_lo in *.
  destruct d as [|[|[|[|[|d]]]]], d' as [|[|[|[|[|d']]]]]; try lia; simpl in H1, H2; lia.
Qed.

(** A neighbourhood lies within one coarser neighbourhood. *)
Lemma nhb_parent d b b' : (2 <= d <= 4)%nat -> is_byte b -> is_byte b' -> nhb d b = nhb d b' -> nhb (d - 1) b = nhb (d - 1) b'.
Proof.
  intros Hd Hb Hb'. unfold nhb, nh. simpl ([_] !!! _). intros E.
  assert (E' : Z.shiftr b (8 - Z.of_nat d) = Z.shiftr b' (8 - Z.of_nat d)).
  { apply Z2Nat.inj; [apply Z.shiftr_nonneg; unfold is_byte in Hb; lia|apply Z.shiftr_nonneg; unfold is_byte in Hb'; lia|lia]. }
  do 2 f_equal. replace (8 - Z.of_nat (d - 1)) with (8 - Z.of_nat d + 1) by lia.
  rewrite <- !Z.shiftr_shiftr by lia. by rewrite E'.
Qed.

(** ** Adding a candidate *)

Definition cb (c : Candidate) : Z := c_addr c !!! 0%nat.
Definition claimed (r : Replicator) (d : nat) (b : Z) : bool := exist r !!! nhb d b.

(** The shape of the search state: array sizes and the first slot of each depth. *)
Record repl_ok (r : Replicator) : Prop := {
  ro_queue : length (queue r) = 16%nat;
  ro_exist : length (exist r) = 30%nat;
  ro_sizes : length (sizes r) = 5%nat;
  ro_base : forall i, (i < 5)%nat -> (REPLICA_COUNTS !!! i <= sizes r !!! i)%nat }.

(** Down to depth 1, a claimed neighbourhood's parent is claimed. *)
Definition closed (D : nat) (r : Replicator) : Prop :=
  forall d b, (2 <= d <= D)%nat -> is_byte b -> claimed r d b = true -> claimed r (d - 1) b = true.

Definition mark (r : Replicator) (i : nat) : Replicator := mkRepl (queue r) (<[i := true]> (exist r)) (sizes r).
Definition place (r : Replicator) (c : Candidate) (d : nat) : Replicator :=
  let slot : nat := sizes r !!! d in
  mkRepl (if Nat.ltb slot (length (queue r)) then <[slot := Some c]> (queue r) else queue r) (exist r) (<[d := S slot]> (sizes r)).

Lemma add_S r c d : add r c (S d) =
  if claimed r (S d) (cb c) then (r, 0%nat)
  else let '(r', placed) := add (mark r (nhb (S d) (cb c))) c d in
    if Nat.eqb placed 0 then (place r' c d, REPLICA_COUNTS !!! S d) else (r', placed).
Proof. done. Qed.

Lemma mark_ok r i : repl_ok r -> repl_ok (mark r i).
Proof. intros []. split; cbn; rewrite ?length_insert; done. Qed.

Lemma place_ok r c d : repl_ok r -> (d < 5)%nat -> repl_ok (place r c d).
Proof.
  intros [Q E Z B] Hd. split; cbn; [case_match; rewrite ?length_insert; done|done|by rewrite length_insert|].
  intros i Hi. destruct (decide (i = d)) as [->|Hne]; [rewrite list_lookup_total_insert_eq by lia; specialize (B d Hd); lia|].
  rewrite list_lookup_total_insert_ne by done. auto.
Qed.

Lemma claimed_mark r d b d' b' : repl_ok r -> (1 <= d' <= 4)%nat -> is_byte b' ->
  claimed (mark r (nhb d' b')) d b = (bool_decide (nhb d b = nhb d' b') || claimed r d b).
Proof.
  intros R Hd Hb. unfold claimed, mark. cbn [exist]. case_bool_decide as E.
  - rewrite E, list_lookup_total_insert_eq; [done|]. rewrite (ro_exist _ R). by apply nhb_lt.
  - by rewrite list_lookup_total_insert_ne.
Qed.

Lemma claimed_mark_mono r i d b : repl_ok r -> (i < 30)%nat -> claimed r d b = true -> claimed (mark r i) d b = true.
Proof.
  intros R Hi H. unfold claimed, mark. cbn [exist]. destruct (decide (i = nhb d b)) as [->|Hne].
  - rewrite list_lookup_total_insert_eq; [done|]. by rewrite (ro_exist _ R).
  - by rewrite list_lookup_total_insert_ne.
Qed.

Lemma counts_nonzero d : (1 <= d <= 4)%nat -> (REPLICA_COUNTS !!! d <> 0)%nat.
Proof. intros Hd. destruct d as [|[|[|[|[|d]]]]]; simpl; lia. Qed.

Lemma closed_le D r d b : closed D r -> (1 <= d <= D)%nat -> is_byte b -> claimed r D b = true -> claimed r d b = true.
Proof.
  intros Hcl Hd Hb H. remember (D - d)%nat as n eqn:En. revert d Hd En. induction n as [|n IHn]; intros d Hd En.
  - by replace d with D by lia.
  - replace d with (S d - 1)%nat by lia. apply Hcl; [lia|done|]. apply IHn; lia.
Qed.

Section Cand.
Context (c : Candidate) (Hc : is_byte (cb c)).

Lemma add_ok D : forall r, (D <= 4)%nat -> repl_ok r -> repl_ok (add r c D).1.
Proof.
  induction D as [|D IH]; intros r HD R; [done|]. rewrite add_S. destruct (claimed r (S D) (cb c)); [done|].
  specialize (IH (mark r (nhb (S D) (cb c))) ltac:(lia) (mark_ok _ _ R)). destruct (add _ c D) as [r' p]. cbn [fst] in IH.
  destruct (Nat.eqb p 0); [apply place_ok; [done|lia]|done].
Qed.

(** A candidate is placed exactly when its finest neighbourhood is free. *)
Lemma add_placed D r : (1 <= D <= 4)%nat -> ((add r c D).2 = 0%nat <-> claimed r D (cb c) = true).
Proof.
  destruct D as [|D]; [lia|]. intros HD. rewrite add_S. destruct (claimed r (S D) (cb c)); [done|].
  destruct (add _ c D) as [r' p]. destruct (Nat.eqb_spec p 0) as [->|Hp]; cbn [snd]; [|done].
  split; [|done]. intros E. by apply counts_nonzero in E.
Qed.

(** Claims grow, only on the depths of the search, and only the candidate's own. *)
Lemma add_claimed D : forall r d b, (D <= 4)%nat -> (1 <= d <= 4)%nat -> is_byte b -> repl_ok r ->
  (claimed r d b = true -> claimed (add r c D).1 d b = true) /\
  (claimed (add r c D).1 d b = true -> claimed r d b = true \/ (d <= D)%nat /\ nhb d b = nhb d (cb c)).
Proof.
  induction D as [|D IH]; intros r d b HD Hd Hb R; [cbn; tauto|]. rewrite add_S. destruct (claimed r (S D) (cb c)); [cbn; tauto|].
  set (r0 := mark r (nhb (S D) (cb c))). destruct (IH r0 d b ltac:(lia) Hd Hb (mark_ok _ _ R)) as [IH1 IH2].
  pose proof (claimed_mark r d b (S D) (cb c) R ltac:(lia) Hc) as Hm. fold r0 in Hm.
  assert (G : forall r', claimed r' d b = claimed (add r0 c D).1 d b ->
    (claimed r d b = true -> claimed r' d b = true) /\
    (claimed r' d b = true -> claimed r d b = true \/ (d <= S D)%nat /\ nhb d b = nhb d (cb c))).
  { intros r' ->. split; [intros H; apply IH1; rewrite Hm, H; apply orb_true_r|].
    intros [H|[H ?]]%IH2; [|right; split; [lia|done]]. rewrite Hm, orb_true_iff, bool_decide_eq_true in H.
    destruct H as [H|H]; [right|by left]. destruct (lt_eq_lt_dec d (S D)) as [[Hlt| ->]|Hlt]; [|split; [lia|done]|].
    - pose proof (nhb_ne d (S D) b (cb c) ltac:(lia) ltac:(lia) Hb Hc). lia.
    - pose proof (nhb_ne (S D) d (cb c) b ltac:(lia) ltac:(lia) Hc Hb). lia. }
  destruct (add r0 c D) as [r' p]. cbn [fst] in *. destruct (Nat.eqb p 0); by apply G.
Qed.

(** After adding, the candidate's neighbourhoods are claimed and the claims closed. *)
Lemma add_closed D : forall r, (D <= 4)%nat -> repl_ok r -> closed D r ->
  closed D (add r c D).1 /\ forall d, (1 <= d <= D)%nat -> claimed (add r c D).1 d (cb c) = true.
Proof.
  induction D as [|D IH]; intros r HD R Hcl; [split; [done|lia]|].
  set (r0 := mark r (nhb (S D) (cb c))). assert (R0 : repl_ok r0) by by apply mark_ok.
  pose proof (fun d b => claimed_mark r d b (S D) (cb c) R ltac:(lia) Hc) as Hm. fold r0 in Hm.
  rewrite add_S. destruct (claimed r (S D) (cb c)) eqn:Ec; [split; [done|intros d Hd; by apply (closed_le (S D))]|]. fold r0.
  assert (Hcl0 : closed D r0).
  { intros d b Hd Hb. rewrite !Hm. rewrite !orb_true_iff, !bool_decide_eq_true. intros [E|E]; [|right; apply Hcl; lia || done].
    pose proof (nhb_ne d (S D) b (cb c) ltac:(lia) ltac:(lia) Hb Hc). lia. }
  destruct (IH r0 ltac:(lia) R0 Hcl0) as [I1 I2].
  assert (Hgrow : forall d b, (1 <= d <= 4)%nat -> is_byte b -> claimed r0 d b = true -> claimed (add r0 c D).1 d b = true).
  { intros d b Hd Hb. apply (add_claimed D r0 d b ltac:(lia) Hd Hb R0). }
  assert (Hfin : forall r', (forall d b, claimed r' d b = claimed (add r0 c D).1 d b) ->
    closed (S D) r' /\ forall d, (1 <= d <= S D)%nat -> claimed r' d (cb c) = true).
  { intros r' Er. assert (Hown : forall d, (1 <= d <= S D)%nat -> claimed r' d (cb c) = true).
    { intros d Hd. rewrite Er. destruct (decide (d = S D)) as [->|Hne]; [|apply I2; lia].
      apply Hgrow; [lia|done|]. by rewrite Hm, bool_decide_eq_true_2. }
    split; [|done]. intros d b Hd Hb H. destruct (decide (d = S D)) as [->|Hne]; [|rewrite Er in *; apply I1; [lia|done|done]].
    rewrite Er in H. apply (add_claimed D r0 (S D) b ltac:(lia) ltac:(lia) Hb R0) in H as [H|[H _]]; [|lia].
    rewrite Hm, orb_true_iff, bool_decide_eq_true in H. destruct H as [H|H].
    - apply nhb_parent in H; [|lia|done|done]. unfold claimed. rewrite H. apply (Hown (S D - 1)%nat).
      destruct D; [lia|]. lia.
    - rewrite Er. apply Hgrow; [lia|done|]. rewrite Hm, orb_true_iff. right. by apply Hcl. }
  destruct (add r0 c D) as [r' p]. cbn [fst] in *. destruct (Nat.eqb p 0); by apply Hfin.
Qed.

(** ** Two searches in step *)

(** Two searches agree on everything a search at depth [D] looks at. *)
Record agree (D : nat) (r1 r2 : Replicator) : Prop := {
  ag_queue : forall j, (j < REPLICA_COUNTS !!! D)%nat -> queue r1 !! j = queue r2 !! j;
  ag_claims : forall d b, (1 <= d <= D)%nat -> is_byte b -> claimed r1 d b = claimed r2 d b;
  ag_sizes : forall i, (i < D)%nat -> sizes r1 !!! i = sizes r2 !!! i }.

Lemma agree_mark D r1 r2 d : repl_ok r1 -> repl_ok r2 -> (1 <= d <= 4)%nat -> agree D r1 r2 ->
  agree D (mark r1 (nhb d (cb c))) (mark r2 (nhb d (cb c))).
Proof.
  intros R1 R2 Hd [A1 A2 A3]. split; [done| |done]. intros d' b Hd' Hb. rewrite !claimed_mark by done. by rewrite A2.
Qed.

Lemma agree_place D r1 r2 d : repl_ok r1 -> repl_ok r2 -> (d < D <= 4)%nat -> agree D r1 r2 -> agree D (place r1 c d) (place r2 c d).
Proof.
  intros R1 R2 Hd [A1 A2 A3]. split; [|done|].
  - intros j Hj. unfold place. cbn [queue]. rewrite (ro_queue _ R1), (ro_queue _ R2), (A3 d) by lia.
    destruct (Nat.ltb_spec (sizes r2 !!! d) 16) as [Hs|_]; [|by apply A1].
    destruct (decide (j = sizes r2 !!! d)) as [->|Hne]; [|rewrite !list_lookup_insert_ne by done; by apply A1].
    rewrite !list_lookup_insert_eq; [done|by rewrite (ro_queue _ R2)|by rewrite (ro_queue _ R1)].
  - intros i Hi. unfold place. cbn [sizes]. rewrite (A3 d) by lia. destruct (decide (i = d)) as [->|Hne].
    + rewrite !list_lookup_total_insert_eq; [done|rewrite (ro_sizes _ R2); lia|rewrite (ro_sizes _ R1); lia].
    + rewrite !list_lookup_total_insert_ne by done. auto.
Qed.

Lemma agree_add D0 D : forall r1 r2, (D <= D0 <= 4)%nat -> repl_ok r1 -> repl_ok r2 -> agree D0 r1 r2 ->
  agree D0 (add r1 c D).1 (add r2 c D).1 /\ (add r1 c D).2 = (add r2 c D).2.
Proof.
  induction D as [|D IH]; intros r1 r2 HD R1 R2 A; [done|]. rewrite !add_S, (ag_claims _ _ _ A) by (lia || done).
  destruct (claimed r2 (S D) (cb c)); [done|].
  pose proof (mark_ok r1 (nhb (S D) (cb c)) R1) as M1. pose proof (mark_ok r2 (nhb (S D) (cb c)) R2) as M2.
  destruct (IH _ _ ltac:(lia) M1 M2 (agree_mark _ _ _ (S D) R1 R2 ltac:(lia) A)) as [I1 I2].
  pose proof (add_ok D _ ltac:(lia) M1) as O1. pose proof (add_ok D _ ltac:(lia) M2) as O2.
  destruct (add (mark r1 _) c D) as [r1' p1], (add (mark r2 _) c D) as [r2' p2]. cbn [fst snd] in *. subst p2.
  destruct (Nat.eqb p1 0); cbn [fst snd]; [split; [apply agree_place; lia || done|done]|done].
Qed.

Lemma agree_mark_above D r1 r2 d : (D < d <= 4)%nat -> repl_ok r2 -> agree D r1 r2 -> agree D r1 (mark r2 (nhb d (cb c))).
Proof.
  intros Hd R [A1 A2 A3]. split; [done| |done]. intros d' b Hd' Hb. rewrite claimed_mark by (lia || done). rewrite A2 by done.
  rewrite bool_decide_eq_false_2; [done|]. pose proof (nhb_ne d' d b (cb c) ltac:(lia) ltac:(lia) Hb Hc). lia.
Qed.

Lemma counts_mono i j : (i <= j <= 4)%nat -> (REPLICA_COUNTS !!! i <= REPLICA_COUNTS !!! j)%nat.
Proof. intros H. destruct i as [|[|[|[|[|i]]]]], j as [|[|[|[|[|j]]]]]; simpl; lia. Qed.

Lemma agree_place_above D r1 r2 d : (D <= d <= 4)%nat -> repl_ok r2 -> agree D r1 r2 -> agree D r1 (place r2 c d).
Proof.
  intros Hd R [A1 A2 A3]. split; [|done|].
  - intros j Hj. unfold place. cbn [queue]. case_match; [|by apply A1].
    pose proof (ro_base _ R d ltac:(lia)). pose proof (counts_mono D d Hd). rewrite list_lookup_insert_ne by lia. by apply A1.
  - intros i Hi. unfold place. cbn [sizes]. rewrite list_lookup_total_insert_ne by lia. by apply A3.
Qed.

(** A wider search does to the narrower one's part what the narrower one does. *)
Lemma add_up D1 D : forall r1 r2, (1 <= D1 <= D)%nat -> (D <= 4)%nat -> repl_ok r1 -> repl_ok r2 -> closed D r2 -> agree D1 r1 r2 ->
  agree D1 (add r1 c D1).1 (add r2 c D).1 /\ ((add r1 c D1).2 <> 0%nat -> (add r2 c D).2 = (add r1 c D1).2).
Proof.
  intros r1 r2 HD1. revert r1 r2. induction D as [|D IH]; intros r1 r2 HD R1 R2 Hcl A; [lia|].
  destruct (decide (D1 = S D)) as [->|Hne]; [destruct (agree_add (S D) (S D) r1 r2) as [? ?]; auto|].
  assert (Hsame : claimed r1 D1 (cb c) = true -> add r1 c D1 = (r1, 0%nat)).
  { destruct D1 as [|D1]; [lia|]. rewrite add_S. by intros ->. }
  rewrite add_S. destruct (claimed r2 (S D) (cb c)) eqn:Ec.
  { rewrite Hsame; [done|]. rewrite (ag_claims _ _ _ A) by (lia || done). apply (closed_le (S D)); done || lia. }
  set (r0 := mark r2 _). assert (R0 : repl_ok r0) by by apply mark_ok.
  assert (Hcl0 : closed D r0).
  { intros d b Hd Hb. unfold r0. rewrite !claimed_mark by (lia || done). rewrite !orb_true_iff, !bool_decide_eq_true.
    intros [E|E]; [|right; apply Hcl; lia || done]. pose proof (nhb_ne d (S D) b (cb c) ltac:(lia) ltac:(lia) Hb Hc). lia. }
  destruct (IH ltac:(lia) r1 r0 ltac:(lia) R1 R0 Hcl0 (agree_mark_above D1 r1 r2 (S D) ltac:(lia) R2 A)) as [I1 I2].
  pose proof (add_ok D r0 ltac:(lia) R0) as O. destruct (add r0 c D) as [r' p]. cbn [fst snd] in *.
  destruct (Nat.eqb_spec p 0) as [->|Hp]; cbn [fst snd]; [|done]. split; [apply agree_place_above; lia || done|].
  intros H. specialize (I2 H). lia.
Qed.

(** When the narrower search does not place a candidate, its slots stay as they are. *)
Lemma add_unplaced D r : (1 <= D <= 4)%nat -> (add r c D).2 = 0%nat -> (add r c D).1 = r.
Proof. intros HD H. apply add_placed in H; [|done]. destruct D as [|D]; [lia|]. rewrite add_S. by rewrite H. Qed.
End Cand.

(** ** The search loop *)

Lemma somes_prefix {A} (q : list (option A)) :
  (exists ds, q = map Some ds) \/ exists ds rest, q = map Some ds ++ None :: rest.
Proof.
  induction q as [|[a|] q IH]; [by left; exists []| |by right; exists [], q].
  destruct IH as [(ds & ->)|(ds & rest & ->)]; [left; by exists (a :: ds)|right; by exists (a :: ds), rest].
Qed.

Lemma flush_somes ds q idx : flush (map Some ds ++ q) idx =
  (ds ++ (flush q (idx + length ds)).1, (flush q (idx + length ds)).2).
Proof.
  revert idx. induction ds as [|c ds IH]; intros idx; cbn [map app flush length].
  - rewrite Nat.add_0_r. by destruct (flush q idx).
  - rewrite IH. by rewrite Nat.add_succ_comm.
Qed.

Lemma flush_hole ds q : flush (map Some ds ++ None :: q) 0 = (ds, length ds).
Proof. rewrite flush_somes. cbn. by rewrite app_nil_r. Qed.

Section Loop.
Context (keccak256 : bytes -> bytes) (Hkec : forall b, is_byte (keccak256 b !!! 0%nat)) (root : bytes).

Abbreviation cand i := (replicate_at keccak256 root i).
Abbreviation loop := (run_loop keccak256).

Lemma cand_byte i : is_byte (cb (cand i)).
Proof. apply Hkec. Qed.

Lemma run_extends fuel D want i n r out : exists ext, loop fuel root D want i n r out = out ++ ext.
Proof.
  revert i n r out. induction fuel as [|fuel IH]; intros i n r out; cbn [run_loop]; [exists []; by rewrite app_nil_r|].
  destruct (Nat.ltb _ _); [|exists []; by rewrite app_nil_r]. destruct (add r (cand i) D) as [r' p]. destruct (Nat.eqb p 0); [apply IH|].
  destruct (flush (drop n (queue r')) 0) as [cs a]. destruct (IH (i + 1) (n + a)%nat r' (out ++ cs)) as [ext ->].
  exists (cs ++ ext). by rewrite app_assoc.
Qed.

Lemma take_agree D r1 r2 n : agree D r1 r2 -> (n <= REPLICA_COUNTS !!! D)%nat ->
  take (REPLICA_COUNTS !!! D - n) (drop n (queue r1)) = take (REPLICA_COUNTS !!! D - n) (drop n (queue r2)).
Proof.
  intros A Hn. apply list_eq. intros j. destruct (decide (j < REPLICA_COUNTS !!! D - n)%nat) as [Hj|Hj].
  - rewrite !lookup_take_lt, !lookup_drop by done. apply (ag_queue _ _ _ A). lia.
  - rewrite !lookup_take_ge by lia. done.
Qed.

Lemma drop_hole {A} (q : list (option A)) n : q !! n = Some None -> drop n q = None :: drop (S n) q.
Proof. apply drop_S. Qed.

(** A wider search finds the narrower one's replicas first. *)
Lemma run_prefix D1 D2 : (1 <= D1 <= D2)%nat -> (D2 <= 4)%nat ->
  forall fuel i n r1 r2 out, repl_ok r1 -> repl_ok r2 -> closed D2 r2 -> agree D1 r1 r2 ->
  n = length out -> (n < REPLICA_COUNTS !!! D1)%nat -> queue r1 !! n = Some None ->
  take (REPLICA_COUNTS !!! D1) (loop fuel root D1 (REPLICA_COUNTS !!! D1) i n r1 out) =
  take (REPLICA_COUNTS !!! D1) (loop fuel root D2 (REPLICA_COUNTS !!! D2) i n r2 out).
Proof.
  intros HD1 HD2. induction fuel as [|fuel IH]; intros i n r1 r2 out R1 R2 Hcl A Hn Hlt Hhole; [done|].
  pose proof (counts_mono D1 D2 ltac:(lia)) as Hmono. set (w1 := (REPLICA_COUNTS !!! D1 : nat)) in *. set (w2 := (REPLICA_COUNTS !!! D2 : nat)) in *.
  cbn [run_loop]. rewrite !(proj2 (Nat.ltb_lt _ _)) by lia.
  destruct (add_up (cand i) (cand_byte i) D1 D2 r1 r2 HD1 HD2 R1 R2 Hcl A) as [A' Hp].
  pose proof (add_ok (cand i) D1 r1 ltac:(lia) R1) as O1. pose proof (add_ok (cand i) D2 r2 ltac:(lia) R2) as O2.
  destruct (add_closed (cand i) (cand_byte i) D2 r2 HD2 R2 Hcl) as [Hcl' _].
  pose proof (add_unplaced (cand i) D1 r1 ltac:(lia)) as Hsame.
  destruct (add r1 (cand i) D1) as [r1' p1], (add r2 (cand i) D2) as [r2' p2]. cbn [fst snd] in *.
  destruct (Nat.eqb_spec p1 0) as [->|Hp1].
  - rewrite (Hsame eq_refl) in *. destruct (Nat.eqb_spec p2 0) as [->|Hp2]; [by apply IH|].
    rewrite (drop_hole (queue r2')) by (rewrite <- (ag_queue _ _ _ A') by done; done). cbn [flush]. rewrite Nat.add_0_r, app_nil_r. by apply IH.
  - rewrite (Hp Hp1), (proj2 (Nat.eqb_neq _ _)) by done.
    pose proof (take_agree D1 r1' r2' n A' ltac:(fold w1; lia)) as Hq. fold w1 in Hq.
    rewrite <- (take_drop (w1 - n) (drop n (queue r1'))). rewrite <- (take_drop (w1 - n) (drop n (queue r2'))). rewrite <- Hq.
    destruct (somes_prefix (take (w1 - n) (drop n (queue r1')))) as [(ds & E)|(ds & rest & E)]; rewrite E.
    + assert (Hds : length ds = (w1 - n)%nat).
      { apply (f_equal length) in E. rewrite length_map, length_take, length_drop, (ro_queue _ O1) in E.
        assert (w1 <= 16)%nat by (unfold w1; destruct D1 as [|[|[|[|[|D1]]]]]; simpl; lia). lia. }
      rewrite !flush_somes. destruct (run_extends fuel D1 w1 (i + 1) (n + (flush (drop (w1 - n) (drop n (queue r1'))) (0 + length ds)).2) r1'
        (out ++ ds ++ (flush (drop (w1 - n) (drop n (queue r1'))) (0 + length ds)).1)) as [x1 ->].
      destruct (run_extends fuel D2 w2 (i + 1) (n + (flush (drop (w1 - n) (drop n (queue r2'))) (0 + length ds)).2) r2'
        (out ++ ds ++ (flush (drop (w1 - n) (drop n (queue r2'))) (0 + length ds)).1)) as [x2 ->].
      rewrite <- !app_assoc, !(app_assoc out ds). rewrite !take_app_length'; [done|rewrite length_app; lia|rewrite length_app; lia].
    + rewrite <- !app_assoc, <- !app_comm_cons, !flush_hole.
      assert (Hk : (length ds < w1 - n)%nat).
      { apply (f_equal length) in E. rewrite length_app, length_map, length_take in E. cbn [length] in E. lia. }
      apply IH; try done; [rewrite length_app; lia|fold w1; lia|].
      assert (Hl : take (w1 - n) (drop n (queue r1')) !! length ds = Some None).
      { rewrite E. apply list_lookup_middle. by rewrite length_map. }
      rewrite lookup_take_lt, lookup_drop in Hl by lia. done.
Qed.

Lemma new_ok : repl_ok replicator_new.
Proof. by split. Qed.

Lemma new_claimed d b : (1 <= d <= 4)%nat -> is_byte b -> claimed replicator_new d b = false.
Proof. intros Hd Hb. unfold claimed. cbn [exist replicator_new]. apply list_lookup_total_correct, lookup_replicate_2. by apply nhb_lt. Qed.

Lemma new_closed D : (D <= 4)%nat -> closed D replicator_new.
Proof. intros HD d b Hd Hb H. rewrite new_claimed in H by (lia || done). done. Qed.

Lemma run_take D1 D2 : (1 <= D1 <= D2)%nat -> (D2 <= 4)%nat ->
  take (REPLICA_COUNTS !!! D1) (loop 255 root D1 (REPLICA_COUNTS !!! D1) 0 0 replicator_new []) =
  take (REPLICA_COUNTS !!! D1) (take (REPLICA_COUNTS !!! D2) (loop 255 root D2 (REPLICA_COUNTS !!! D2) 0 0 replicator_new [])).
Proof.
  intros H1 H2. rewrite take_take, Nat.min_l by (apply counts_mono; lia).
  apply run_prefix; try done; [by apply new_closed|].
  pose proof (counts_nonzero D1 ltac:(lia)). lia.
Qed.

(** ** What the search returns *)

(** The queue holds candidates in distinct neighbourhoods, apart from those already
    returned. *)
Record dispersed (D n : nat) (r : Replicator) (out : list Candidate) : Prop := {
  di_inj : forall i j a b, queue r !! i = Some (Some a) -> queue r !! j = Some (Some b) -> nhb D (cb a) = nhb D (cb b) -> i = j;
  di_queue : forall i a, queue r !! i = Some (Some a) -> claimed r D (cb a) = true /\ exists m, 0 <= m < 255 /\ a = cand m;
  di_out : NoDup (map (fun c => nhb D (cb c)) out);
  di_claimed : forall a, a ∈ out -> claimed r D (cb a) = true /\ exists m, 0 <= m < 255 /\ a = cand m;
  di_rest : forall j b, (n <= j)%nat -> queue r !! j = Some (Some b) -> nhb D (cb b) ∉ map (fun c => nhb D (cb c)) out }.

(** Adding a candidate changes at most one slot. *)
Lemma add_queue c D : (D <= 4)%nat -> forall r, queue (add r c D).1 = queue r \/ exists s, queue (add r c D).1 = <[s := Some c]> (queue r).
Proof.
  induction D as [|D IH]; intros HD r; [by left|]. rewrite add_S. destruct (claimed r (S D) (cb c)); [by left|].
  destruct (IH ltac:(lia) (mark r (nhb (S D) (cb c)))) as [E|[s E]].
  - destruct (add _ c D) as [r' p]. destruct (Nat.eqb p 0); [|by left]. unfold place. cbn [fst queue mark] in *. rewrite E. case_match; [right; by eexists|by left].
  - assert (Hp : (add (mark r (nhb (S D) (cb c))) c D).2 <> 0%nat \/ queue (add (mark r (nhb (S D) (cb c))) c D).1 = queue r).
    { destruct D as [|D]; [by right|]. rewrite add_S. destruct (claimed _ (S D) (cb c)); [by right|]. left.
      destruct (add _ c D) as [r' p]. destruct (Nat.eqb_spec p 0); [cbn [snd]|done]. apply counts_nonzero. lia. }
    destruct (add _ c D) as [r' p]. cbn [fst snd] in *. destruct (Nat.eqb_spec p 0) as [->|?]; [|right; by exists s].
    destruct Hp as [?|Hp]; [done|]. unfold place. cbn [queue]. rewrite Hp. case_match; [right; by eexists|by left].
Qed.

Lemma dispersed_add D n r out m : (1 <= D <= 4)%nat -> repl_ok r -> closed D r -> dispersed D n r out -> 0 <= m < 255 ->
  claimed r D (cb (cand m)) = false -> dispersed D n (add r (cand m) D).1 out.
Proof.
  intros HD R Hcl [I1 I2 I3 I4 I5] Hm Hnew. set (c := cand m) in *. pose proof (cand_byte m : is_byte (cb c)) as Hc.
  assert (Hgrow : forall b, is_byte b -> claimed r D b = true -> claimed (add r c D).1 D b = true).
  { intros b Hb. apply (add_claimed c Hc D r D b ltac:(lia) HD Hb R). }
  destruct (add_closed c Hc D r ltac:(lia) R Hcl) as [_ Hown]. specialize (Hown D ltac:(lia)).
  assert (Hdiff : forall a, claimed r D (cb a) = true -> nhb D (cb a) <> nhb D (cb c)).
  { intros a Ha E. unfold claimed in Ha, Hnew. rewrite E in Ha. congruence. }
  assert (Hq : forall i a, queue (add r c D).1 !! i = Some (Some a) -> queue r !! i = Some (Some a) \/
    a = c /\ forall j b, queue (add r c D).1 !! j = Some (Some b) -> j <> i -> queue r !! j = Some (Some b)).
  { intros i a. destruct (add_queue c D ltac:(lia) r) as [->|[s ->]]; [by left|]. intros H.
    destruct (decide (i = s)) as [->|Hne]; [right|left; by rewrite list_lookup_insert_ne in H].
    apply list_lookup_insert_Some in H as [(_ & E & _)|[? _]]; [|done]. split; [congruence|].
    intros j b Hj Hne. by rewrite list_lookup_insert_ne in Hj by done. }
  assert (Hmem : forall a, claimed r D (cb a) = true /\ (exists m, 0 <= m < 255 /\ a = cand m) ->
    claimed (add r c D).1 D (cb a) = true /\ exists m, 0 <= m < 255 /\ a = cand m).
  { intros a (Ha & k & Hk & E). split; [|by exists k]. apply Hgrow; [|done]. rewrite E. apply cand_byte. }
  split.
  - intros i j a b Ha Hb E. destruct (decide (i = j)) as [|Hne]; [done|exfalso].
    destruct (Hq i a Ha) as [Ha'|[-> Hoth]].
    + destruct (Hq j b Hb) as [Hb'|[-> _]]; [by apply Hne, (I1 i j a b)|]. by apply (Hdiff a); [apply (I2 i)|].
    + apply (Hdiff b); [|done]. apply (I2 j). by apply Hoth.
  - intros i a Ha. destruct (Hq i a Ha) as [Ha'|[-> _]]; [by apply Hmem, (I2 i)|]. split; [done|by exists m].
  - done.
  - intros a Ha. by apply Hmem, I4.
  - intros j b Hj Hb. destruct (Hq j b Hb) as [Hb'|[-> _]]; [by apply (I5 j)|].
    intros (a & E & Ha)%list_elem_of_fmap. apply (Hdiff a); [by apply I4|done].
Qed.

Lemma dispersed_flush D n r out cs rest : dispersed D n r out -> drop n (queue r) = map Some cs ++ rest ->
  dispersed D (n + length cs) r (out ++ cs).
Proof.
  intros [I1 I2 I3 I4 I5] E.
  assert (Hcs : forall k c, cs !! k = Some c -> queue r !! (n + k)%nat = Some (Some c)).
  { intros k c Hk. rewrite <- lookup_drop, E. rewrite lookup_app_l by (rewrite length_map; by apply lookup_lt_Some in Hk).
    change (map Some cs) with (Some <$> cs). by rewrite list_lookup_fmap, Hk. }
  split; [done|done| | |].
  - rewrite map_app. apply NoDup_app. split_and!; [done| |].
    + intros x Hx (c & -> & Hc)%list_elem_of_fmap. apply list_elem_of_lookup in Hc as [k Hk]. apply (I5 (n + k)%nat c); [lia|by apply Hcs|done].
    + apply NoDup_fmap_2_strong; [|].
      * intros a b Ha Hb Eab. apply list_elem_of_lookup in Ha as [i Hi], Hb as [j Hj].
        pose proof (I1 _ _ a b (Hcs i a Hi) (Hcs j b Hj) Eab). assert (i = j) as -> by lia. congruence.
      * apply NoDup_alt. intros i j a Hi Hj. pose proof (I1 _ _ a a (Hcs i a Hi) (Hcs j a Hj) eq_refl). lia.
  - intros a [Ha|Ha]%elem_of_app; [by apply I4|]. apply list_elem_of_lookup in Ha as [k Hk]. by apply (I2 (n + k)%nat), Hcs.
  - intros j b Hj Hb. rewrite map_app, elem_of_app. intros [H|(c & Ec & Hc)%list_elem_of_fmap]; [apply (I5 j b) in H; [done|lia|done]|].
    apply list_elem_of_lookup in Hc as [k Hk]. pose proof (I1 _ _ b c Hb (Hcs k c Hk) Ec). apply lookup_lt_Some in Hk. lia.
Qed.

Lemma run_dispersed D want : (1 <= D <= 4)%nat -> (want <= 16)%nat -> forall fuel i n r out, 0 <= i -> i + Z.of_nat fuel <= 255 ->
  repl_ok r -> closed D r -> n = length out -> dispersed D n r out ->
  NoDup (map (fun c => nhb D (cb c)) (loop fuel root D want i n r out)) /\
  Forall (fun c => exists m, 0 <= m < 255 /\ c = cand m) (loop fuel root D want i n r out).
Proof.
  intros HD Hw. induction fuel as [|fuel IH]; intros i n r out Hi Hf R Hcl Hn Hd.
  all: assert (Hout : NoDup (map (fun c => nhb D (cb c)) out) /\ Forall (fun c => exists m, 0 <= m < 255 /\ c = cand m) out)
    by (destruct Hd as [_ _ D3 D4 _]; split; [done|]; apply Forall_forall; intros c Hc; by apply D4).
  { done. }
  cbn [run_loop]. destruct (Nat.ltb_spec (length out) want) as [Hlt|_]; [|done].
  pose proof (add_placed (cand i) D r HD) as Hp. pose proof (add_ok (cand i) D r ltac:(lia) R) as O.
  destruct (add_closed (cand i) (cand_byte i) D r ltac:(lia) R Hcl) as [Hcl' _].
  pose proof (add_unplaced (cand i) D r HD) as Hsame.
  assert (Hd' : (add r (cand i) D).2 <> 0%nat -> dispersed D n (add r (cand i) D).1 out).
  { intros H. apply dispersed_add; try done; [lia|]. destruct (claimed r D (cb (cand i))); [exfalso; by apply H, Hp|done]. }
  destruct (add r (cand i) D) as [r' p]. cbn [fst snd] in *. destruct (Nat.eqb_spec p 0) as [->|Hp0].
  { rewrite (Hsame eq_refl). apply IH; done || lia. }
  specialize (Hd' Hp0). destruct (somes_prefix (drop n (queue r'))) as [(cs & E)|(cs & rest & E)].
  - pose proof (dispersed_flush D n r' out cs [] Hd' ltac:(by rewrite app_nil_r)) as [_ _ D3 D4 _]. rewrite E.
    rewrite <- (app_nil_r (map Some cs)), flush_somes. cbn [flush fst snd]. rewrite app_nil_r.
    assert (Hlen : (want <= length (out ++ cs))%nat).
    { apply (f_equal length) in E. rewrite length_drop, length_map, (ro_queue _ O) in E. rewrite length_app. lia. }
    assert (Hstop : forall n', loop fuel root D want (i + 1) n' r' (out ++ cs) = out ++ cs).
    { intros n'. destruct fuel; [done|]. cbn [run_loop]. by rewrite (proj2 (Nat.ltb_ge _ _)). }
    rewrite Hstop. split; [done|]. apply Forall_forall. intros c Hc. by apply D4.
  - rewrite E, flush_hole. apply IH; try done; [lia|lia|rewrite length_app; lia|]. by apply (dispersed_flush D n r' out cs (None :: rest)).
Qed.

Lemma dispersed_new D : dispersed D 0 replicator_new [].
Proof.
  assert (H : forall i a, queue replicator_new !! i <> Some (Some a)).
  { intros i a H. cbn [queue replicator_new] in H. by apply lookup_replicate in H as [? _]. }
  split; [intros i j a b Ha; by apply H in Ha|intros i a Ha; by apply H in Ha|constructor|intros a Ha; by apply not_elem_of_nil in Ha|].
  intros j b _ Hb. by apply H in Hb.
Qed.

Lemma firstn_map_take {A B} (f : A -> B) k xs : map f (take k xs) = take k (map f xs).
Proof. apply fmap_take. Qed.

Lemma level_nat_range l : l <> LNone -> (1 <= level_nat l <= 4)%nat.
Proof. intros H. destruct l; [done|cbv; lia..]. Qed.

(** The candidates of a search: distinct neighbourhoods, and each the address of its
    own mined byte. *)
Lemma run_facts l : l <> LNone ->
  NoDup (map (fun c => nhb (level_nat l) (cb c)) (run keccak256 root l)) /\
  Forall (fun c => exists m, 0 <= m < 255 /\ c = cand m) (run keccak256 root l).
Proof.
  intros Hl. pose proof (level_nat_range l Hl) as HD. unfold run.
  destruct (run_dispersed (level_nat l) (REPLICA_COUNTS !!! level_nat l) HD (counts_mono (level_nat l) 4 ltac:(lia))
    255 0 0 replicator_new [] ltac:(lia) ltac:(lia) new_ok (new_closed (level_nat l) (proj2 HD)) eq_refl (dispersed_new _)) as [H1 H2].
  revert H1 H2. generalize (loop 255 root (level_nat l) (REPLICA_COUNTS !!! level_nat l) 0 0 replicator_new []). intros cs H1 H2.
  split; [|by apply Forall_take]. rewrite firstn_map_take. eapply sublist_NoDup; [exact H1|]. apply sublist_take.
Qed.
End Loop.

(** ** Replica addresses *)

(** The first addresses of a wider search are a narrower one's. *)
Lemma replica_addresses_take keccak256 (Hkec : forall b, is_byte (keccak256 b !!! 0%nat)) root l l' :
  (level_nat l <= level_nat l')%nat ->
  replica_addresses keccak256 root l = take (REPLICA_COUNTS !!! level_nat l) (replica_addresses keccak256 root l').
Proof.
  intros Hle. unfold replica_addresses. case_bool_decide as Hl; [by rewrite Hl|]. pose proof (level_nat_range l Hl) as HD.
  rewrite bool_decide_eq_false_2 by (intros ->; cbv in Hle, HD; lia).
  assert (HD' : (level_nat l' <= 4)%nat) by (destruct l'; cbv; lia).
  change (map ?f ?x) with (f <$> x). rewrite <- fmap_take. f_equal. apply run_take; [done|lia|done].
Qed.

(** C7: Dispersed replicas.  Whatever the root, the replica addresses of a level lie
    in pairwise distinct neighbourhoods (no two share their top [d] bits, [d] the
    level's number), there are at most the level's count of them, and for every
    wider level they are exactly the first ones of that level's addresses, in the
    same order: a reader that assumes the widest level tries a narrower upload's
    replicas first. *)
Theorem replicas_dispersed keccak256 root l l' : (forall b, is_byte (keccak256 b !!! 0%nat)) ->
  (level_nat l <= level_nat l')%nat ->
  NoDup (map (fun a => Z.shiftr (a !!! 0%nat) (8 - Z.of_nat (level_nat l))) (replica_addresses keccak256 root l)) /\
  (length (replica_addresses keccak256 root l) <= REPLICA_COUNTS !!! level_nat l)%nat /\
  replica_addresses keccak256 root l = take (REPLICA_COUNTS !!! level_nat l) (replica_addresses keccak256 root l').
Proof.
  intros Hkec Hle. split; [|split; [|by apply replica_addresses_take]].
  - unfold replica_addresses. case_bool_decide as Hl; [constructor|]. destruct (run_facts keccak256 Hkec root l Hl) as [Hnd _].
    rewrite map_map. rewrite <- (map_map (fun c => Z.shiftr (cb c) (8 - Z.of_nat (level_nat l)))
      (fun z => nh_lo (level_nat l) + Z.to_nat z)%nat) in Hnd. by apply NoDup_fmap_1 in Hnd.
  - unfold replica_addresses. case_bool_decide as Hl; [cbn; lia|]. rewrite length_map. unfold run. rewrite length_take. lia.
Qed.

(** A digest whose first byte is the first byte of its input, for concrete runs. *)
Definition first_byte (b : bytes) : bytes := [(b !!! 0%nat) mod 256].
Lemma first_byte_ok b : is_byte (first_byte b !!! 0%nat).
Proof. unfold is_byte. simpl. apply Z.mod_pos_bound. lia. Qed.

Lemma replicas_dispersed_witness :
  (level_nat Medium <= level_nat Paranoid)%nat /\
  NoDup (map (fun a => Z.shiftr (a !!! 0%nat) 7) (replica_addresses first_byte (replicate 32 9) Medium)) /\
  replica_addresses first_byte (replicate 32 9) Medium = take 2 (replica_addresses first_byte (replicate 32 9) Paranoid) /\
  replica_addresses first_byte (replicate 32 9) Medium = [[0]; [128]].
Proof.
  destruct (replicas_dispersed first_byte (replicate 32 9) Medium Paranoid first_byte_ok ltac:(cbv; lia)) as (H1 & _ & H3).
  split_and!; [cbv; lia|exact H1|exact H3|vm_compute; reflexivity].
Defined.

(** ** Recovering a root *)

Section Recovery.
Context (bmt : Z -> bytes -> bytes) (store : bytes -> result bytes str) (choose : list bytes -> list nat -> nat).

(** Does an address answer a replica of the root? *)
Definition answers (root a : bytes) : option bytes :=
  match store a with Ok w => unwrap_replica bmt w root | Err _ => None end.

Lemma unwrap_sound w root inner : unwrap_replica bmt w root = Some inner -> wire_address bmt inner = Some root.
Proof.
  unfold unwrap_replica. destruct (Nat.leb _ _); [done|]. destruct (wire_address bmt _) as [a|] eqn:E; [|done].
  case_bool_decide as Ea; [|done]. intros H. assert (inner = drop SOC_PREFIX w) as -> by congruence. by rewrite E, Ea.
Qed.

Lemma delete_elem (xs : list nat) pos i : (pos < length xs)%nat -> i ∈ xs <-> i = xs !!! pos \/ i ∈ delete pos xs.
Proof.
  intros Hp. destruct (lookup_lt_is_Some_2 xs pos Hp) as [x Hx]. rewrite (list_lookup_total_correct _ _ _ Hx).
  rewrite (delete_Permutation _ _ _ Hx) at 1. by rewrite elem_of_cons.
Qed.

(** The loop looks at every address that is in flight or still to come. *)
Lemma recover_loop_spec addrs root : forall fuel next inflight, (next <= length addrs)%nat ->
  (length inflight + (length addrs - next) <= fuel)%nat -> (inflight = [] -> next = length addrs) ->
  match recover_loop bmt store choose fuel addrs root next inflight with
  | Some w => exists i, (i ∈ inflight \/ next <= i < length addrs)%nat /\ answers root (addrs !!! i) = Some w
  | None => forall i, (i ∈ inflight \/ next <= i < length addrs)%nat -> answers root (addrs !!! i) = None
  end.
Proof.
  induction fuel as [|fuel IH]; intros next fl Hn Hf Hfl.
  { destruct fl; cbn [length] in Hf; [|lia]. cbn. intros i [Hi|Hi]; [by apply not_elem_of_nil in Hi|lia]. }
  destruct (decide (fl = [])) as [->|Hne].
  { cbn. specialize (Hfl eq_refl). intros i [Hi|Hi]; [by apply not_elem_of_nil in Hi|lia]. }
  assert (Hlen : (0 < length fl)%nat) by (destruct fl; [done|cbn [length]; lia]).
  assert (Hunf : forall A (a : A) (b : A), match fl with [] => a | _ => b end = b) by (by destruct fl).
  cbn [recover_loop]. rewrite Hunf. set (pos := (choose addrs fl mod length fl)%nat).
  assert (Hpos : (pos < length fl)%nat) by (apply Nat.mod_upper_bound; lia).
  pose proof (fun i => delete_elem fl pos i Hpos) as Hdel. set (x := fl !!! pos) in *.
  assert (Hdl : length (delete pos fl) = (length fl - 1)%nat) by (apply length_delete; by apply lookup_lt_is_Some_2).
  set (st := if Nat.ltb next (length addrs) then (delete pos fl ++ [next], S next) else (delete pos fl, next)).
  assert (Hst : (st.2 <= length addrs)%nat /\ (length st.1 + (length addrs - st.2) <= fuel)%nat /\ (st.1 = [] -> st.2 = length addrs) /\
    forall i, (i ∈ fl \/ next <= i < length addrs)%nat <-> i = x \/ (i ∈ st.1 \/ st.2 <= i < length addrs)%nat).
  { unfold st. destruct (Nat.ltb_spec next (length addrs)) as [Hlt|Hge]; cbn [fst snd].
    - rewrite length_app. cbn [length]. split_and!; [lia|lia|intros E; by apply app_eq_nil in E as [_ ?]|].
      intros i. rewrite Hdel, elem_of_app, list_elem_of_singleton. split; [|intuition lia].
      intros [[?|?]|?]; [tauto|tauto|]. destruct (decide (i = next)); [tauto|]. right. right. lia.
    - split_and!; [lia|lia|lia|]. intros i. rewrite Hdel. tauto. }
  destruct Hst as (H1 & H2 & H3 & H4). specialize (IH st.2 st.1 H1 H2 H3). destruct st as [fl' next']. cbn [fst snd] in *.
  assert (Hrec : answers root (addrs !!! x) = None ->
    match recover_loop bmt store choose fuel addrs root next' fl' with
    | Some w => exists i, (i ∈ fl \/ next <= i < length addrs)%nat /\ answers root (addrs !!! i) = Some w
    | None => forall i, (i ∈ fl \/ next <= i < length addrs)%nat -> answers root (addrs !!! i) = None
    end).
  { intros Hx. destruct (recover_loop _ _ _ _ _ _ _ _) as [w|].
    - destruct IH as (i & Hi & Hw). exists i. split; [apply H4; by right|done].
    - intros i [->|Hi]%H4; [done|by apply IH]. }
  unfold answers in Hrec at 1. destruct (store (addrs !!! x)) as [w|] eqn:Es; [|by apply Hrec].
  destruct (unwrap_replica bmt w root) as [inner|] eqn:Eu; [|by apply Hrec].
  exists x. split; [apply H4; by left|]. unfold answers. by rewrite Es.
Qed.

Lemma recover_root_spec keccak256 root l : let addrs := replica_addresses keccak256 root l in
  match recover_root keccak256 bmt store choose root l with
  | Some w => exists a, a ∈ addrs /\ answers root a = Some w
  | None => forall a, a ∈ addrs -> answers root a = None
  end.
Proof.
  intros addrs. unfold recover_root. fold addrs. set (k := Nat.min REPLICA_WINDOW (length addrs)).
  pose proof (recover_loop_spec addrs root (length addrs) k (seq 0 k) ltac:(lia) ltac:(rewrite length_seq; lia)) as H.
  assert (Hk : seq 0 k = [] -> k = length addrs).
  { intros E. apply (f_equal length) in E. rewrite length_seq in E. cbn [length] in E. unfold k, REPLICA_WINDOW in *. lia. }
  specialize (H Hk). assert (Hall : forall i, (i < length addrs)%nat <-> (i ∈ seq 0 k \/ k <= i < length addrs)%nat).
  { intros i. rewrite elem_of_seq. lia. }
  destruct (recover_loop _ _ _ _ _ _ _ _) as [w|].
  - destruct H as (i & Hi & Hw). apply Hall in Hi. destruct (lookup_lt_is_Some_2 addrs i Hi) as [a Ha].
    rewrite (list_lookup_total_correct _ _ _ Ha) in Hw. exists a. split; [by eapply list_elem_of_lookup_2|done].
  - intros a [i Hi]%list_elem_of_lookup. rewrite <- (list_lookup_total_correct _ _ _ Hi). apply H, Hall. by apply lookup_lt_Some in Hi.
Qed.
End Recovery.
