(* ===== verification/Encoder.v ===== *)
(** * Splitting a file into an erasure-coded tree ([src/src/erasure/encoder.rs])

    The streaming writer: trie levels of pending references, redundancy buffers of
    pending shards, and the mutual recursion between wrapping a level and encoding a
    buffer.  The recursion climbs one trie level at a time; the index of a level that
    does not exist is a panic of the source, the result [EPanic] here. *)
From Stdlib Require Import ZArith Lia.
From stdpp Require Import base tactics numbers countable strings list gmap.
From S2P Require Import Prelude ReedSolomon Erasure Joiner Replicas.
Local Open Scope Z_scope.
Local Open Scope hov_scope.

Definition MAX_LEVEL : nat := 8.

(** [enum EncodeError]. *)
Inductive EncodeError := EncRs (e : RsError) | OversizedChunk (n : nat) | TrieFull | InconsistentRefs | Replica (msg : str) | EPanic.

(** [struct Entry], [struct LevelBuf], [struct SplitOutput], [struct Encoder]. *)
Record Entry := mkEntry { e_span : Z; reference : bytes }.
Record LevelBuf := mkLevelBuf { entries : list Entry; effective : nat }.
Record SplitOutput := mkSplit { root : bytes; chunks : list (bytes * bytes); so_parity : nat; so_replicas : nat }.
Record Encoder := mkEncoder {
  e_level : Level; e_max_shards : nat; max_children : nat; levels : list LevelBuf; rs_buf : list (list bytes);
  full : bool; out : list (bytes * bytes); seen : gset bytes; parity_chunks : nat }.

Definition empty_buf : LevelBuf := mkLevelBuf [] 0.

(** [Encoder::new]. *)
Definition encoder_new (l : Level) : Encoder :=
  let ms := max_shards l in
  mkEncoder l ms (ms + parities l ms) (replicate (MAX_LEVEL + 2) empty_buf) (replicate MAX_LEVEL []) false [] ∅ 0.

Definition set_levels (e : Encoder) (ls : list LevelBuf) : Encoder :=
  mkEncoder (e_level e) (e_max_shards e) (max_children e) ls (rs_buf e) (full e) (out e) (seen e) (parity_chunks e).
Definition set_rs (e : Encoder) (bs : list (list bytes)) : Encoder :=
  mkEncoder (e_level e) (e_max_shards e) (max_children e) (levels e) bs (full e) (out e) (seen e) (parity_chunks e).
Definition set_full (e : Encoder) : Encoder :=
  mkEncoder (e_level e) (e_max_shards e) (max_children e) (levels e) (rs_buf e) true (out e) (seen e) (parity_chunks e).

Section Split.
Context (bmt : Z -> bytes -> bytes).

(** [Encoder::emit]. *)
Definition emit (e : Encoder) (wire : bytes) (parity : bool) : result (Encoder * bytes) EncodeError :=
  match wire_address bmt wire with
  | None => Err (OversizedChunk (length wire - SPAN_SIZE))
  | Some a =>
      if bool_decide (a ∈ seen e) then Ok (e, a)
      else Ok (mkEncoder (e_level e) (e_max_shards e) (max_children e) (levels e) (rs_buf e) (full e)
                 (out e ++ [(a, wire)]) ({[a]} ∪ seen e) (if parity then S (parity_chunks e) else parity_chunks e), a)
  end.

(** What writes a reference to a trie level: encoder, level, parity, span, reference. *)
Definition Writer : Type := Encoder -> nat -> bool -> Z -> bytes -> result Encoder EncodeError.

(** The parity chunks of [rs_encode]'s loop. *)
Fixpoint write_parities (W : Writer) (e : Encoder) (level : nat) (ps : list bytes) : result Encoder EncodeError :=
  match ps with
  | [] => Ok e
  | p :: ps' =>
      let? (e, r) := emit e p true in
      let? e := W e level true (from_le_bytes (take SPAN_SIZE p)) r in
      write_parities W e level ps'
  end.

(** [Encoder::rs_encode]. *)
Definition rs_encode (W : Writer) (e : Encoder) (rs_level : nat) : result Encoder EncodeError :=
  if bool_decide (e_level e = LNone) then Ok e
  else
    match rs_buf e !! rs_level with
    | None => Err EPanic
    | Some [] => Ok e
    | Some shards =>
        let n := length shards in
        let m := parities (e_level e) n in
        if Nat.eqb m 0 then Ok (set_rs e (<[rs_level := []]> (rs_buf e)))
        else
          let e := set_rs e (<[rs_level := []]> (rs_buf e)) in
          let? rs := map_err EncRs (rs_new n m) in
          let? buf := map_err EncRs (encode rs (shards ++ replicate m (replicate CHUNK_WITH_SPAN 0))) in
          write_parities W e (S rs_level) (drop n buf)
    end.

(** [Encoder::chunk_write]. *)
Definition resize (w : bytes) (n : nat) : bytes := take n w ++ replicate (n - length w) 0.
Definition push_shard (W : Writer) (e : Encoder) (rs_level : nat) (shard : bytes) : result Encoder EncodeError :=
  match rs_buf e !! rs_level with
  | None => Err EPanic
  | Some buf =>
      let e := set_rs e (<[rs_level := buf ++ [shard]]> (rs_buf e)) in
      if Nat.eqb (length (buf ++ [shard])) (e_max_shards e) then rs_encode W e rs_level else Ok e
  end.
Definition chunk_write (W : Writer) (e : Encoder) (rs_level : nat) (wire : bytes) : result Encoder EncodeError :=
  if bool_decide (e_level e = LNone) || Nat.leb (length (rs_buf e)) rs_level then Ok e
  else push_shard W e rs_level (resize wire CHUNK_WITH_SPAN).

(** [Encoder::wrap_level]. *)
Definition wrap_span (l : Level) (es : list Entry) (eff : nat) : bytes :=
  let span := foldl (fun acc e => wrap 64 (acc + e_span e)) 0 (take eff es) in
  if Nat.ltb 0 (length es - eff) then encode_level l (to_le_bytes SPAN_SIZE span) else to_le_bytes SPAN_SIZE span.

Definition wrap_level (W : Writer) (e : Encoder) (level : nat) : result Encoder EncodeError :=
  match levels e !! level with
  | None => Err EPanic
  | Some buf =>
      let e := set_levels e (<[level := empty_buf]> (levels e)) in
      let span_bytes := wrap_span (e_level e) (entries buf) (effective buf) in
      let wire := span_bytes ++ concat (map reference (entries buf)) in
      let? (e, r) := emit e wire false in
      let? e := W e (S level) false (from_le_bytes span_bytes) r in
      let? e := chunk_write W e level wire in
      Ok (if Nat.eqb (S level) MAX_LEVEL then set_full e else e)
  end.

(** [Encoder::write_to_level]; [d] counts the levels from this one to the top. *)
Definition push_entry (buf : LevelBuf) (parity : bool) (span : Z) (r : bytes) : LevelBuf :=
  mkLevelBuf (entries buf ++ [mkEntry span r]) (if parity then effective buf else S (effective buf)).

Fixpoint write_from (d : nat) (e : Encoder) (level : nat) (parity : bool) (span : Z) (r : bytes) : result Encoder EncodeError :=
  match d, levels e !! level with
  | S d', Some buf =>
      let buf := push_entry buf parity span r in
      let e := set_levels e (<[level := buf]> (levels e)) in
      if Nat.eqb (length (entries buf)) (max_children e) then wrap_level (write_from d') e level else Ok e
  | _, _ => Err EPanic
  end.
Definition write_to_level (e : Encoder) (level : nat) (parity : bool) (span : Z) (r : bytes) : result Encoder EncodeError :=
  write_from (MAX_LEVEL + 2 - level) e level parity span r.

(** [Encoder::write]. *)
Definition write (e : Encoder) (payload : bytes) : result Encoder EncodeError :=
  if full e then Err TrieFull
  else
    let span := Z.of_nat (length payload) in
    let wire := to_le_bytes SPAN_SIZE span ++ payload in
    let? (e, r) := emit e wire false in
    let? e := write_to_level e 1 false span r in
    chunk_write write_to_level e 0 wire.

(** [Encoder::elevate_carrier_chunk]. *)
Definition elevate_carrier_chunk (e : Encoder) (rs_level : nat) : result Encoder EncodeError :=
  if bool_decide (e_level e = LNone) || Nat.leb (length (rs_buf e)) rs_level then Ok e
  else
    match rs_buf e !! rs_level with
    | Some [carrier] =>
        if Nat.ltb (S rs_level) (length (rs_buf e)) then push_shard write_to_level e (S rs_level) carrier else Ok e
    | _ => Ok e
    end.

(** One level of [Encoder::finish]. *)
Definition carry_entry (e : Encoder) (level : nat) (x : Entry) : option Encoder :=
  let ls := <[level := empty_buf]> (levels e) in
  match ls !! S level with
  | None => None
  | Some up => Some (set_levels e (<[S level := push_entry up false (e_span x) (reference x)]> ls))
  end.

Definition finish_level (e : Encoder) (level : nat) : result Encoder EncodeError :=
  match levels e !! level with
  | None => Err EPanic
  | Some buf =>
      match entries buf with
      | [] => Ok e
      | es =>
          if Nat.eqb (length es) (max_children e) then wrap_level write_to_level e level
          else
            match es with
            | [x] => match carry_entry e level x with None => Err EPanic | Some e => elevate_carrier_chunk e (level - 1) end
            | _ => let? e := rs_encode write_to_level e (level - 1) in wrap_level write_to_level e level
            end
      end
  end.

Fixpoint finish_levels (e : Encoder) (ls : list nat) : result Encoder EncodeError :=
  match ls with [] => Ok e | level :: ls' => let? e := finish_level e level in finish_levels e ls' end.

(** The replicas loop of [finish]. *)
Fixpoint add_replicas (rs : list (bytes * bytes)) (o : list (bytes * bytes)) (s : gset bytes) (n : nat)
    : list (bytes * bytes) * nat :=
  match rs with
  | [] => (o, n)
  | (a, w) :: rs' => if bool_decide (a ∈ s) then add_replicas rs' o s n else add_replicas rs' (o ++ [(a, w)]) ({[a]} ∪ s) (S n)
  end.

Context (keccak256 : bytes -> bytes) (content_chunk : bytes -> result bytes str) (new_replica : Z -> bytes -> result (bytes * bytes) str).

Fixpoint find_chunk (a : bytes) (o : list (bytes * bytes)) : option bytes :=
  match o with [] => None | (b, w) :: o' => if bool_decide (b = a) then Some w else find_chunk a o' end.

(** [Encoder::finish]. *)
Definition finish (e : Encoder) : result SplitOutput EncodeError :=
  let? e := finish_levels e (seq 1 (MAX_LEVEL - 1)) in
  match levels e !! MAX_LEVEL with
  | Some (mkLevelBuf [x] _) =>
      let r := reference x in
      match find_chunk r (out e) with
      | None => Err InconsistentRefs
      | Some root_wire =>
          let? reps := map_err Replica (dispersed_replicas keccak256 content_chunk new_replica root_wire (e_level e)) in
          let '(o, n) := add_replicas reps (out e) (seen e) 0 in
          Ok (mkSplit r o (parity_chunks e) n)
      end
  | Some _ => Err InconsistentRefs
  | None => Err EPanic
  end.

(** [slice::chunks] and [fn split_with_redundancy]. *)
Fixpoint slice_chunks (fuel : nat) (data : bytes) : list bytes :=
  match fuel, data with
  | O, _ | _, [] => []
  | S fuel', _ => take CHUNK_SIZE data :: slice_chunks fuel' (drop CHUNK_SIZE data)
  end.
Fixpoint write_all (e : Encoder) (cs : list bytes) : result Encoder EncodeError :=
  match cs with [] => Ok e | c :: cs' => let? e := write e c in write_all e cs' end.

Definition split_with_redundancy (data : bytes) (l : Level) : result SplitOutput EncodeError :=
  let? e := write_all (encoder_new l) (slice_chunks (length data) data) in
  let? e := match data with [] => write e [] | _ => Ok e end in
  finish e.
End Split.
