(* ===== verification/Prepare.v ===== *)
(** * Preparing an upload ([src/src/client.rs], [src/src/manifest.rs], [src/src/mime.rs])

    Splitting an object at a redundancy level, building the manifest of a file or of a
    collection, stamping every chunk, and the streamer that does the same a window at a
    time.  nectar's plain splitter, its manifest writer (a state with an operation to add
    an entry and one to save) and its stamp issuer and signer are parameters. *)
From Stdlib Require Import ZArith Lia.
From stdpp Require Import base tactics numbers countable strings list gmap.
From S2P Require Import Prelude Codec Erasure PushFrame Signer Stamp Metered Relay Manifest Peers Encoder.
Local Open Scope Z_scope.
Local Open Scope hov_scope.

Inductive PrepareError := PrHex (e : str) | BadBatchLen (n : nat) | PrSplit (e : str) | PrFile (e : EncodeError) | PrStamp (e : str) | PrManifest (e : str).

Definition BUCKET_DEPTH : Z := 16.
(** The [Batch] a stamper is made for; its value and start block are zero. *)
Record Batch := mkBatch { b_id : bytes; b_owner : bytes; b_depth : Z; b_bucket_depth : Z; b_immutable : bool }.
Record UploadFile := mkFile { uf_path : str; uf_content_type : option str; uf_data : bytes }.
Record CollectionEntry := mkCEntry { ce_path : str; ce_reference : bytes; ce_content_type : option str }.

Definition parse_batch_id `{Hex} (hex_str : str) : result bytes PrepareError :=
  let? b := map_err PrHex (hex_decode (trim_0x hex_str)) in
  if Nat.eqb (length b) 32 then Ok b else Err (BadBatchLen (length b)).

(** [fn guess_from_path] of [src/src/mime.rs]: the type and the essence that mime_guess
    ([from_path]) gives a path. *)
Definition guess_from_path (from_path : str -> option (str * str)) (path : str) : option str :=
  match from_path path with
  | None => None
  | Some (ty, s) =>
      if bool_decide (ty = lit "text") || bool_decide (s = lit "application/javascript") || bool_decide (s = lit "application/json")
         || bool_decide (s = lit "application/xml")
      then Some (s ++ lit "; charset=utf-8") else Some s
  end.

(** ** Splitting *)

Definition wire_form (span : Z) (data : bytes) : bytes := to_le_bytes 8 span ++ data.
Abbreviation Chunks := (list (bytes * bytes)).

Section Prepare.
Context (split_plain : bytes -> result (bytes * list (bytes * (Z * bytes))) str).
Context (bmt : Z -> bytes -> bytes) (keccak : bytes -> bytes) (content_chunk : bytes -> result bytes str) (new_replica : Z -> bytes -> result (bytes * bytes) str).

Definition split_chunks (data : bytes) (level : Level) : result (bytes * Chunks) PrepareError :=
  if bool_decide (level = LNone) then
    let? (root, store) := map_err PrSplit (split_plain data) in
    Ok (root, map (fun c => (c.1, wire_form c.2.1 c.2.2)) store)
  else
    let? out := map_err PrFile (split_with_redundancy bmt keccak content_chunk new_replica data level) in
    Ok (Encoder.root out, chunks out).

Definition bmt_root (data : bytes) (level : Level) : result (bytes * nat) PrepareError :=
  let? (root, cs) := split_chunks data level in Ok (root, length cs).

(** ** Manifests *)

Context {M : Type} (manifest_new : M) (add_with_metadata : M -> str -> bytes -> gmap str str -> result M str) (save : M -> result (bytes * Chunks) str).

Definition ROOT_PATH : str := lit "/".
(** [path.rsplit('/').next().filter(non-empty).unwrap_or(path)]. *)
Definition entry_filename (path : str) : str := match last (split_all 47 path) with Some (c :: n) => c :: n | _ => path end.
Definition entry_metadata (e : CollectionEntry) : gmap str str :=
  <[ENTRY_METADATA_FILENAME_KEY := entry_filename (ce_path e)]>
    (match ce_content_type e with Some ct => {[ENTRY_METADATA_CONTENT_TYPE_KEY := ct]} | None => ∅ end).
Fixpoint add_entries (m : M) (es : list CollectionEntry) : result M str :=
  match es with [] => Ok m | e :: es => let? m := add_with_metadata m (ce_path e) (ce_reference e) (entry_metadata e) in add_entries m es end.
Definition root_metadata (index_document error_document : option str) : gmap str str :=
  let m := match index_document with Some i => {[WEBSITE_INDEX_DOCUMENT_SUFFIX_KEY := i]} | None => ∅ end in
  match error_document with Some e => <[WEBSITE_ERROR_DOCUMENT_PATH_KEY := e]> m | None => m end.
Definition build_collection_manifest (es : list CollectionEntry) (index_document error_document : option str) : result (bytes * Chunks) str :=
  let? m := add_entries manifest_new es in
  let? m := match index_document, error_document with
            | None, None => Ok m
            | _, _ => add_with_metadata m ROOT_PATH (replicate 32 0) (root_metadata index_document error_document)
            end in
  save m.
Definition build_single_entry_manifest (path : str) (file_root : bytes) (content_type : option str) : result (bytes * Chunks) str :=
  build_collection_manifest [mkCEntry path file_root content_type] None None.

(** ** Stamping *)

Context {Stamper Digest : Type} (memory_issuer ring_issuer : Batch -> result Stamper str).
Context (prepare_stamp : Stamper -> bytes -> Z -> Stamper * result Digest str) (sign_stamp : Digest -> result bytes str).

Definition build_stamper (signer batch_id : bytes) (depth : Z) (immutable : bool) : result Stamper PrepareError :=
  let batch := mkBatch batch_id signer depth BUCKET_DEPTH immutable in
  map_err PrStamp (if immutable then memory_issuer batch else ring_issuer batch).

(** Phase one: indices, in order, stopping at the first refusal. *)
Fixpoint prepare_all (st : Stamper) (work : Chunks) (ts : Z) : Stamper * result (list (bytes * bytes * Digest)) PrepareError :=
  match work with
  | [] => (st, Ok [])
  | (addr, wire) :: work =>
      match prepare_stamp st addr ts with
      | (st, Err e) => (st, Err (PrStamp e))
      | (st, Ok d) => match prepare_all st work ts with (st, Ok ds) => (st, Ok ((addr, wire, d) :: ds)) | (st, Err e) => (st, Err e) end
      end
  end.
(** Phase two: signatures; of several failures the first is reported. *)
Fixpoint sign_all (ds : list (bytes * bytes * Digest)) : result (list StampedChunk) PrepareError :=
  match ds with
  | [] => Ok []
  | (addr, wire, d) :: ds => let? s := map_err PrStamp (sign_stamp d) in let? cs := sign_all ds in Ok (mkChunk addr wire s :: cs)
  end.
Definition stamp_chunks_parallel (st : Stamper) (work : Chunks) (ts : Z) : Stamper * result (list StampedChunk) PrepareError :=
  match prepare_all st work ts with (st, Err e) => (st, Err e) | (st, Ok ds) => (st, sign_all ds) end.

(** ** Collections *)

(** Chunks whose address was not seen yet. *)
Definition push_unseen (acc : gset bytes * Chunks) (c : bytes * bytes) : gset bytes * Chunks :=
  let '(seen, out) := acc in if bool_decide (c.1 ∈ seen) then (seen, out) else ({[c.1]} ∪ seen, out ++ [c]).
Fixpoint collect_files (files : list UploadFile) (level : Level) (acc : gset bytes * Chunks) (es : list CollectionEntry)
    : result (gset bytes * Chunks * list CollectionEntry) PrepareError :=
  match files with
  | [] => Ok (acc, es)
  | f :: files =>
      let? (root, cs) := split_chunks (uf_data f) level in
      collect_files files level (foldl push_unseen acc cs) (es ++ [mkCEntry (uf_path f) root (uf_content_type f)])
  end.
(** The root and the chunks to stamp of a collection. *)
Definition collection_chunks (files : list UploadFile) (index_document error_document : option str) (level : Level) : result (bytes * Chunks) PrepareError :=
  let? (acc, es) := collect_files files level (∅, []) [] in
  let? (root, mcs) := map_err PrManifest (build_collection_manifest es index_document error_document) in
  Ok (root, (foldl push_unseen acc mcs).2).

Definition file_chunks (data : bytes) (path : str) (content_type : option str) (level : Level) : result (bytes * Chunks) PrepareError :=
  let? (file_root, cs) := split_chunks data level in
  let? (root, mcs) := map_err PrManifest (build_single_entry_manifest path file_root content_type) in
  Ok (root, cs ++ mcs).

(** [fn collection_root]: the same walk, counting addresses only. *)
Fixpoint collect_addrs (files : list UploadFile) (level : Level) (seen : gset bytes) (es : list CollectionEntry)
    : result (gset bytes * list CollectionEntry) PrepareError :=
  match files with
  | [] => Ok (seen, es)
  | f :: files =>
      let? (root, cs) := split_chunks (uf_data f) level in
      collect_addrs files level (foldl (fun s c => {[c.1]} ∪ s) seen cs) (es ++ [mkCEntry (uf_path f) root (uf_content_type f)])
  end.
Definition collection_root (files : list UploadFile) (index_document error_document : option str) (level : Level) : result (bytes * nat) PrepareError :=
  match files with
  | [] => Err (PrManifest (lit "collection is empty"))
  | _ =>
      let? (seen, es) := collect_addrs files level ∅ [] in
      let? (root, mcs) := map_err PrManifest (build_collection_manifest es index_document error_document) in
      Ok (root, size (foldl (fun (s : gset bytes) (c : bytes * bytes) => {[c.1]} ∪ s) seen mcs))
  end.

(** ** The prepared upload, in one go or streamed *)

Context `{Hex} (signer : bytes).

Definition prepare_upload_bytes (batch_hex : str) (depth : Z) (immutable : bool) (data : bytes) (level : Level) (ts : Z) : result (bytes * list StampedChunk) PrepareError :=
  let? batch := parse_batch_id batch_hex in
  let? (root, cs) := split_chunks data level in
  let? st := build_stamper signer batch depth immutable in
  let? work := (stamp_chunks_parallel st cs ts).2 in
  Ok (root, work).
Definition prepare_upload_file_with_manifest (batch_hex : str) (depth : Z) (immutable : bool) (data : bytes) (path : str) (content_type : option str) (level : Level) (ts : Z)
    : result (bytes * list StampedChunk) PrepareError :=
  let? batch := parse_batch_id batch_hex in
  let? (root, cs) := file_chunks data path content_type level in
  let? st := build_stamper signer batch depth immutable in
  let? work := (stamp_chunks_parallel st cs ts).2 in
  Ok (root, work).
Definition prepare_upload_collection (batch_hex : str) (depth : Z) (immutable : bool) (files : list UploadFile) (index_document error_document : option str) (level : Level) (ts : Z)
    : result (bytes * list StampedChunk) PrepareError :=
  match files with
  | [] => Err (PrManifest (lit "collection is empty"))
  | _ =>
      let? batch := parse_batch_id batch_hex in
      let? st := build_stamper signer batch depth immutable in
      let? (root, cs) := collection_chunks files index_document error_document level in
      let? work := (stamp_chunks_parallel st cs ts).2 in
      Ok (root, work)
  end.

Record UploadStreamer := mkStreamer { us_root : bytes; us_remaining : Chunks; us_stamper : Stamper; us_total : nat }.
Definition from_parts (root : bytes) (stamp_in : Chunks) (st : Stamper) : UploadStreamer := mkStreamer root (rev stamp_in) st (length stamp_in).
Definition new_raw (batch_hex : str) (depth : Z) (immutable : bool) (data : bytes) (level : Level) : result UploadStreamer PrepareError :=
  let? batch := parse_batch_id batch_hex in
  let? (root, cs) := split_chunks data level in
  let? st := build_stamper signer batch depth immutable in
  Ok (from_parts root cs st).
Definition new_file (batch_hex : str) (depth : Z) (immutable : bool) (data : bytes) (path : str) (content_type : option str) (level : Level) : result UploadStreamer PrepareError :=
  let? batch := parse_batch_id batch_hex in
  let? (root, cs) := file_chunks data path content_type level in
  let? st := build_stamper signer batch depth immutable in
  Ok (from_parts root cs st).
Definition new_collection (batch_hex : str) (depth : Z) (immutable : bool) (files : list UploadFile) (index_document error_document : option str) (level : Level)
    : result UploadStreamer PrepareError :=
  match files with
  | [] => Err (PrManifest (lit "collection is empty"))
  | _ =>
      let? batch := parse_batch_id batch_hex in
      let? st := build_stamper signer batch depth immutable in
      let? (root, cs) := collection_chunks files index_document error_document level in
      Ok (from_parts root cs st)
  end.
(** [Vec::pop], [n] times. *)
Fixpoint pop_n (n : nat) (l : Chunks) : Chunks * Chunks :=
  match n with
  | O => ([], l)
  | S n => match last l with Some c => let '(w, rest) := pop_n n (removelast l) in (c :: w, rest) | None => ([], l) end
  end.
Definition next_batch (s : UploadStreamer) (batch_size : nat) (ts : Z) : UploadStreamer * result (list StampedChunk) PrepareError :=
  let n := Nat.min batch_size (length (us_remaining s)) in
  if Nat.eqb n 0 then (s, Ok [])
  else
    let '(window, rest) := pop_n n (us_remaining s) in
    let '(st, r) := stamp_chunks_parallel (us_stamper s) window ts in
    (mkStreamer (us_root s) rest st (us_total s), r).
End Prepare.

(** ** Windows and the whole agree *)

Section Stream.
Context {Stamper Digest : Type} (prepare_stamp : Stamper -> bytes -> Z -> Stamper * result Digest str) (sign_stamp : Digest -> result bytes str).
Abbreviation stamp := (stamp_chunks_parallel prepare_stamp sign_stamp).

(** Windows of the given sizes, each at its own time; the first failure ends it. *)
Fixpoint stream (s : UploadStreamer) (windows : list (nat * Z)) : UploadStreamer * result (list StampedChunk) PrepareError :=
  match windows with
  | [] => (s, Ok [])
  | (n, ts) :: windows =>
      match next_batch prepare_stamp sign_stamp s n ts with
      | (s, Err e) => (s, Err e)
      | (s, Ok w) => match stream s windows with (s, Ok w') => (s, Ok (w ++ w')) | (s, Err e) => (s, Err e) end
      end
  end.
Definition requested (windows : list (nat * Z)) : nat := list_sum (map fst windows).

Lemma prepare_all_app st a b ts st2 ds : prepare_all prepare_stamp st (a ++ b) ts = (st2, Ok ds) <->
  exists st1 da db, prepare_all prepare_stamp st a ts = (st1, Ok da) /\ prepare_all prepare_stamp st1 b ts = (st2, Ok db) /\ ds = da ++ db.
Proof.
  revert st ds. induction a as [|[addr wire] a IH]; intros st ds; cbn [app prepare_all].
  - split; [intros E; by exists st, [], ds|]. by intros (st1 & da & db & E1 & E2 & ->); simplify_eq.
  - destruct (prepare_stamp st addr ts) as [st0 [d|e]]; [|split; [done|]; by intros (? & ? & ? & ? & _)]. specialize (IH st0).
    destruct (prepare_all prepare_stamp st0 (a ++ b) ts) as [stx [dx|ex]] eqn:Ex; destruct (prepare_all prepare_stamp st0 a ts) as [sty [dy|ey]] eqn:Ey.
    + split.
      * intros E. simplify_eq. destruct (proj1 (IH dx) eq_refl) as (st1 & da & db & E1 & E2 & ->). simplify_eq. by exists st1, ((addr, wire, d) :: da), db.
      * intros (st1 & da & db & E1 & E2 & ->). simplify_eq. assert (Hyes : (stx, Ok dx) = (st2, Ok (E := PrepareError) (dy ++ db))) by (apply IH; by exists st1, dy, db). by simplify_eq.
    + split; [|by intros (? & ? & ? & ? & _)]. intros E. simplify_eq. by destruct (proj1 (IH dx) eq_refl) as (? & ? & ? & ? & _).
    + split; [done|]. intros (st1 & da & db & E1 & E2 & ->). simplify_eq. assert (Hno : (stx, Err ex) = (st2, Ok (E := PrepareError) (dy ++ db))) by (apply IH; by exists st1, dy, db). done.
    + split; [done|]. by intros (? & ? & ? & ? & _).
Qed.

Lemma sign_all_app da db w : sign_all sign_stamp (da ++ db) = Ok w <-> exists wa wb, sign_all sign_stamp da = Ok wa /\ sign_all sign_stamp db = Ok wb /\ w = wa ++ wb.
Proof.
  revert w. induction da as [|[[addr wire] d] da IH]; intros w; cbn [app sign_all].
  - split; [intros E; by exists [], w|]. by intros (wa & wb & E1 & E2 & ->); simplify_eq.
  - destruct (sign_stamp d) as [s|e]; cbn [map_err result_bind]; [|split; [done|]; by intros (? & ? & ? & _)].
    destruct (sign_all sign_stamp (da ++ db)) as [x|e] eqn:Ex; destruct (sign_all sign_stamp da) as [y|e'] eqn:Ey; cbn [result_bind].
    + split.
      * intros E. simplify_eq. destruct (proj1 (IH x) eq_refl) as (wa & wb & E1 & E2 & ->). simplify_eq. by exists (mkChunk addr wire s :: wa), wb.
      * intros (wa & wb & E1 & E2 & ->). simplify_eq. assert (E : Ok (E := PrepareError) x = Ok (y ++ wb)) by (apply IH; by exists y, wb). by simplify_eq.
    + split; [|by intros (? & ? & ? & _)]. intros _. by destruct (proj1 (IH x) eq_refl) as (? & ? & ? & _).
    + split; [done|]. intros (wa & wb & E1 & E2 & ->). simplify_eq. assert (E : Err e = Ok (E := PrepareError) (y ++ wb)) by (apply IH; by exists y, wb). done.
    + split; [done|]. by intros (? & ? & ? & _).
Qed.

Lemma stamp_app st a b ts st2 w : stamp st (a ++ b) ts = (st2, Ok w) <->
  exists st1 wa wb, stamp st a ts = (st1, Ok wa) /\ stamp st1 b ts = (st2, Ok wb) /\ w = wa ++ wb.
Proof.
  unfold stamp_chunks_parallel. split.
  - destruct (prepare_all prepare_stamp st (a ++ b) ts) as [stx [ds|e]] eqn:E; [|done]. intros Hs. injection Hs as -> Hs. apply prepare_all_app in E as (st1 & da & db & E1 & E2 & ->).
    apply sign_all_app in Hs as (wa & wb & S1 & S2 & ->). exists st1, wa, wb. by rewrite E1, E2, S1, S2.
  - intros (st1 & wa & wb & E1 & E2 & ->). destruct (prepare_all prepare_stamp st a ts) as [sta [da|e]] eqn:Ea; [|done]. injection E1 as -> S1.
    destruct (prepare_all prepare_stamp st1 b ts) as [stb [db|e]] eqn:Eb; [|done]. injection E2 as -> S2.
    rewrite (proj2 (prepare_all_app st a b ts st2 (da ++ db))) by (by exists st1, da, db). f_equal. apply sign_all_app. by exists wa, wb.
Qed.

Lemma stamp_nil st ts : stamp st [] ts = (st, Ok []).
Proof. done. Qed.

Lemma pop_n_rev cs : forall n, (n <= length cs)%nat -> pop_n n (rev cs) = (take n cs, rev (drop n cs)).
Proof.
  induction cs as [|c cs IH]; intros [|n] Hn; cbn [length] in Hn; [done|lia|done|]. cbn [rev pop_n]. rewrite last_snoc, removelast_last, IH by lia. done.
Qed.

Lemma next_batch_spec root cs st total n ts st' w : next_batch prepare_stamp sign_stamp (mkStreamer root (rev cs) st total) n ts = (st', Ok w) <->
  exists st1, stamp st (take n cs) ts = (st1, Ok w) /\ st' = mkStreamer root (rev (drop n cs)) st1 total.
Proof.
  unfold next_batch. cbn [us_remaining us_stamper us_root us_total]. cbv zeta. rewrite length_rev.
  assert (Ht : take n cs = take (Nat.min n (length cs)) cs /\ drop n cs = drop (Nat.min n (length cs)) cs).
  { destruct (Nat.min_spec n (length cs)) as [[_ ->]|[Hle ->]]; [done|]. by rewrite !take_ge, !drop_ge by lia. }
  destruct Ht as [-> ->]. set (m := Nat.min n (length cs)). assert (Hm : (m <= length cs)%nat) by lia.
  destruct (Nat.eqb_spec m 0) as [->|].
  - cbn [take drop]. rewrite stamp_nil. split; [intros E; simplify_eq; by exists st|]. by intros (st1 & E & ->); simplify_eq.
  - rewrite pop_n_rev by done. destruct (stamp st (take m cs) ts) as [st1 r]. split; [intros E; simplify_eq; by exists st1|]. by intros (st2 & E & ->); simplify_eq.
Qed.

(** At one time, windows give what the whole gives. *)
Lemma stream_same ts root total windows : Forall (fun w => w.2 = ts) windows -> forall cs st st' w,
  stream (mkStreamer root (rev cs) st total) windows = (st', Ok w) <->
  exists st1, stamp st (take (requested windows) cs) ts = (st1, Ok w) /\ st' = mkStreamer root (rev (drop (requested windows) cs)) st1 total.
Proof.
  induction 1 as [|[n t] windows Ht _ IH]; intros cs st st' w; cbn [stream].
  - unfold requested. cbn. rewrite stamp_nil. split; [intros E; simplify_eq; by exists st|]. by intros (st1 & E & ->); simplify_eq.
  - cbn in Ht. subst t. change (requested ((n, ts) :: windows)) with (n + requested windows)%nat.
    rewrite <- (take_take_drop cs n (requested windows)), <- drop_drop. split.
    + destruct (next_batch _ _ _ n ts) as [s1 [w1|e]] eqn:E1; [|done]. apply next_batch_spec in E1 as (st1 & E1 & ->).
      destruct (stream _ windows) as [s2 [w2|e]] eqn:E2; [|done]. intros E. simplify_eq. apply IH in E2 as (st2 & E2 & ->). exists st2. split; [|done]. apply stamp_app. by exists st1, w1, w2.
    + intros (st2 & E & ->). apply stamp_app in E as (st1 & w1 & w2 & E1 & E2 & ->).
      rewrite (proj2 (next_batch_spec root cs st total n ts _ w1)) by (by exists st1). rewrite (proj2 (IH (drop n cs) st1 _ w2)) by (by exists st2). done.
Qed.

Lemma stamp_keeps st cs ts st' w : stamp st cs ts = (st', Ok w) -> map (fun c => (sc_addr c, sc_wire c)) w = cs.
Proof.
  unfold stamp_chunks_parallel. destruct (prepare_all prepare_stamp st cs ts) as [st1 [ds|e]] eqn:E; [|done]. intros Hs. injection Hs as -> Hs.
  assert (Hd : map fst ds = cs).
  { clear Hs. revert st ds E. induction cs as [|[addr wire] cs IH]; intros st ds E; cbn [prepare_all] in E; [by simplify_eq|].
    destruct (prepare_stamp st addr ts) as [st0 [d|e]]; [|done]. destruct (prepare_all prepare_stamp st0 cs ts) as [st2 [d2|e]] eqn:E2; [|done]. simplify_eq. cbn. f_equal. by eapply IH. }
  clear E. revert cs w Hs Hd. induction ds as [|[[addr wire] d] ds IH]; intros cs w Hs Hd; cbn [sign_all] in Hs; [by simplify_eq|].
  destruct (sign_stamp d); [|done]. cbn in Hs. destruct (sign_all sign_stamp ds) as [w'|]; [|done]. cbn in Hs. simplify_eq. cbn. f_equal. by apply IH.
Qed.

Lemma stream_chunks root total windows : forall cs st st' w, stream (mkStreamer root (rev cs) st total) windows = (st', Ok w) ->
  map (fun c => (sc_addr c, sc_wire c)) w = take (requested windows) cs /\ us_remaining st' = rev (drop (requested windows) cs) /\ us_root st' = root.
Proof.
  induction windows as [|[n ts] windows IH]; intros cs st st' w E; cbn [stream] in E; [by simplify_eq|].
  destruct (next_batch _ _ _ n ts) as [s1 [w1|e]] eqn:E1; [|done]. apply next_batch_spec in E1 as (st1 & E1 & ->).
  destruct (stream _ windows) as [s2 [w2|e]] eqn:E2; [|done]. simplify_eq. apply IH in E2 as (H1 & H2 & H3). apply stamp_keeps in E1.
  change (requested ((n, ts) :: windows)) with (n + requested windows)%nat. rewrite <- (take_take_drop cs n (requested windows)), <- drop_drop, map_app, E1, H1. done.
Qed.
End Stream.

(** ** What is prepared *)

Section Prepared.
Context (split_plain : bytes -> result (bytes * list (bytes * (Z * bytes))) str).
Context (bmt : Z -> bytes -> bytes) (keccak : bytes -> bytes) (content_chunk : bytes -> result bytes str) (new_replica : Z -> bytes -> result (bytes * bytes) str).
Context {M : Type} (manifest_new : M) (add_with_metadata : M -> str -> bytes -> gmap str str -> result M str) (save : M -> result (bytes * Chunks) str).
Context {Stamper Digest : Type} (memory_issuer ring_issuer : Batch -> result Stamper str).
Context (prepare_stamp : Stamper -> bytes -> Z -> Stamper * result Digest str) (sign_stamp : Digest -> result bytes str).
Context `{Hex} (signer : bytes).
Abbreviation split_chunks := (split_chunks split_plain bmt keccak content_chunk new_replica).
Abbreviation collection_chunks := (collection_chunks split_plain bmt keccak content_chunk new_replica manifest_new add_with_metadata save).
Abbreviation collection_root := (collection_root split_plain bmt keccak content_chunk new_replica manifest_new add_with_metadata save).
Abbreviation build_manifest := (build_collection_manifest manifest_new add_with_metadata save).
Abbreviation prepare_bytes := (prepare_upload_bytes split_plain bmt keccak content_chunk new_replica memory_issuer ring_issuer prepare_stamp sign_stamp signer).
Abbreviation prepare_file := (prepare_upload_file_with_manifest split_plain bmt keccak content_chunk new_replica manifest_new add_with_metadata save memory_issuer ring_issuer prepare_stamp sign_stamp signer).
Abbreviation prepare_collection := (prepare_upload_collection split_plain bmt keccak content_chunk new_replica manifest_new add_with_metadata save memory_issuer ring_issuer prepare_stamp sign_stamp signer).
Abbreviation raw_streamer := (new_raw split_plain bmt keccak content_chunk new_replica memory_issuer ring_issuer signer).
Abbreviation file_streamer := (new_file split_plain bmt keccak content_chunk new_replica manifest_new add_with_metadata save memory_issuer ring_issuer signer).
Abbreviation collection_streamer := (new_collection split_plain bmt keccak content_chunk new_replica manifest_new add_with_metadata save memory_issuer ring_issuer signer).
Abbreviation streamed := (stream prepare_stamp sign_stamp).

(** A streamer and the one-shot preparation of the same thing: the same error, or the
    same root and, whatever windows are asked for, the same chunks in the same order. *)
Definition same_upload (streamer : result UploadStreamer PrepareError) (oneshot : Z -> result (bytes * list StampedChunk) PrepareError) : Prop :=
  match streamer with
  | Err e => forall ts, oneshot ts = Err e
  | Ok s =>
      forall windows, (us_total s <= requested windows)%nat ->
        (forall ts w, Forall (fun x => x.2 = ts) windows -> (streamed s windows).2 = Ok w <-> oneshot ts = Ok (us_root s, w)) /\
        (forall ts s' w w1, streamed s windows = (s', Ok w) -> oneshot ts = Ok (us_root s, w1) ->
          map (fun c => (sc_addr c, sc_wire c)) w = map (fun c => (sc_addr c, sc_wire c)) w1 /\ us_remaining s' = [] /\ length w = us_total s)
  end.

Lemma parts_same root cs st : same_upload (Ok (from_parts root cs st)) (fun ts => let? work := (stamp_chunks_parallel prepare_stamp sign_stamp st cs ts).2 in Ok (root, work)).
Proof.
  intros windows Hn. cbn [from_parts us_total us_root] in *. unfold from_parts. split.
  - intros ts w Hts. pose proof (stream_same prepare_stamp sign_stamp ts root (length cs) windows Hts cs st) as Hs. rewrite take_ge in Hs by done.
    destruct (stream _ _ _ windows) as [s' r]. destruct (stamp_chunks_parallel prepare_stamp sign_stamp st cs ts) as [st1 [w1|e]] eqn:Es; cbn [snd result_bind].
    + destruct (Hs (mkStreamer root (rev (drop (requested windows) cs)) st1 (length cs)) w1) as [_ Hb]. specialize (Hb (ex_intro _ st1 (conj eq_refl eq_refl))). simplify_eq. split; intros E; by simplify_eq.
    + split; [|done]. intros ->. by destruct (proj1 (Hs s' w) eq_refl) as (? & ? & _).
  - intros ts s' w w1 E1 E2. destruct (stamp_chunks_parallel prepare_stamp sign_stamp st cs ts) as [st1 [w2|e]] eqn:Es; cbn [snd result_bind] in E2; [|done]. simplify_eq.
    apply stamp_keeps in Es. apply stream_chunks in E1 as (H1 & H2 & _). rewrite take_ge in H1 by done. rewrite drop_ge in H2 by done. rewrite Es, H1. split_and!; [done|done|].
    by rewrite <- H1, length_map.
Qed.


(** ** Collections *)

Definition unseen_ok (acc : gset bytes * Chunks) : Prop := acc.1 = list_to_set (map fst acc.2) /\ NoDup (map fst acc.2).

Lemma push_unseen_ok acc c : unseen_ok acc -> unseen_ok (push_unseen acc c) /\ (push_unseen acc c).1 = {[c.1]} ∪ acc.1.
Proof.
  destruct acc as [seen out]. intros [H1 H2]. cbn [fst snd] in *. unfold push_unseen. case_bool_decide as Hin.
  - split; [by split|]. cbn. set_solver.
  - split; [|done]. split; cbn [fst snd].
    + rewrite map_app, list_to_set_app_L, <- H1. cbn. set_solver.
    + rewrite map_app. apply NoDup_app. split_and!; [done| |apply NoDup_singleton]. intros x Hx Hy. apply list_elem_of_singleton in Hy as ->. apply Hin. rewrite H1. by apply elem_of_list_to_set.
Qed.

Lemma push_all_ok cs : forall acc, unseen_ok acc -> unseen_ok (foldl push_unseen acc cs) /\ (foldl push_unseen acc cs).1 = foldl (fun s c => {[c.1]} ∪ s) acc.1 cs.
Proof.
  induction cs as [|c cs IH]; intros acc Ha; cbn [foldl]; [done|]. destruct (push_unseen_ok acc c Ha) as [H1 H2]. destruct (IH _ H1) as [H3 H4]. split; [done|]. by rewrite H4, H2.
Qed.

Lemma collect_same files level : forall acc es, unseen_ok acc ->
  match collect_files split_plain bmt keccak content_chunk new_replica files level acc es with
  | Ok (acc', es') => unseen_ok acc' /\ collect_addrs split_plain bmt keccak content_chunk new_replica files level acc.1 es = Ok (acc'.1, es')
  | Err e => collect_addrs split_plain bmt keccak content_chunk new_replica files level acc.1 es = Err e
  end.
Proof.
  induction files as [|f files IH]; intros acc es Ha; cbn [collect_files collect_addrs]; [done|]. destruct (split_chunks _ _) as [[root cs]|e]; cbn [result_bind]; [|done].
  destruct (push_all_ok cs acc Ha) as [H1 H2]. rewrite <- H2. by apply IH.
Qed.

(** The reference and the size of a collection are known before anything is
    stamped.  [collection_root] fails exactly as the preparation of the collection
    does, and otherwise gives its root and the number of chunks it stamps, which is the
    number of different addresses: no address is stamped twice. *)
Theorem collection_root_exact files index_document error_document level : files <> [] ->
  match collection_chunks files index_document error_document level with
  | Ok (root, cs) => collection_root files index_document error_document level = Ok (root, length cs) /\ NoDup (map fst cs)
  | Err e => collection_root files index_document error_document level = Err e
  end.
Proof.
  intros Hne. unfold Prepare.collection_chunks, Prepare.collection_root. destruct files as [|f files]; [done|].
  pose proof (collect_same (f :: files) level (∅, []) []) as Hc. cbn [fst] in Hc. destruct (collect_files _ _ _ _ _ _ _ _ _) as [[acc es]|e]; cbn [result_bind].
  - destruct Hc as [Ha ->]; [split; [done|apply NoDup_nil_2]|]. cbn [result_bind]. destruct (build_manifest _ _ _) as [[root mcs]|e]; cbn [map_err result_bind]; [|done].
    destruct (push_all_ok mcs acc Ha) as [[H1 H2] H3]. split; [|done]. rewrite <- H3, H1, size_list_to_set by done. by rewrite length_map.
  - rewrite Hc; [done|]. split; [done|apply NoDup_nil_2].
Qed.

(** ** Prepared chunks are admitted by a relay

    What the issuer and the signing key promise: a stamper stays one for its batch, and
    what it signs for an address is a valid stamp of that batch by its owner. *)
Context `{Crypto}.
Class IssuerLaws (for_batch : Stamper -> Batch -> Prop) : Prop := {
  memory_for b st : memory_issuer b = Ok st -> for_batch st b;
  ring_for b st : ring_issuer b = Ok st -> for_batch st b;
  prepare_for b st a ts st' d : for_batch st b -> prepare_stamp st a ts = (st', Ok d) -> for_batch st' b;
  stamp_valid b st a ts st' d s : for_batch st b -> prepare_stamp st a ts = (st', Ok d) -> sign_stamp d = Ok s ->
    exists v, validate a s = Ok v /\ batch_id v = b_id b /\ vs_signer v = b_owner b }.
Context (for_batch : Stamper -> Batch -> Prop) `{!IssuerLaws for_batch}.

Definition stamped_for (b : Batch) (c : StampedChunk) : Prop := exists v, validate (sc_addr c) (sc_stamp c) = Ok v /\ batch_id v = b_id b /\ vs_signer v = b_owner b.

Lemma stamp_chunks_valid b st cs ts st' w : for_batch st b -> stamp_chunks_parallel prepare_stamp sign_stamp st cs ts = (st', Ok w) -> Forall (stamped_for b) w.
Proof.
  intros Hb. unfold stamp_chunks_parallel. destruct (prepare_all prepare_stamp st cs ts) as [st1 [ds|e]] eqn:E; [|done]. intros Hs. injection Hs as -> Hs.
  assert (Hd : Forall (fun x : bytes * bytes * Digest => forall s, sign_stamp x.2 = Ok s -> exists v, validate x.1.1 s = Ok v /\ batch_id v = b_id b /\ vs_signer v = b_owner b) ds).
  { clear Hs. revert st ds Hb E. induction cs as [|[addr wire] cs IH]; intros st ds Hb E; cbn [prepare_all] in E; [by simplify_eq|].
    destruct (prepare_stamp st addr ts) as [st0 [d|e]] eqn:Ep; [|done]. destruct (prepare_all prepare_stamp st0 cs ts) as [st2 [d2|e]] eqn:E2; [|done]. simplify_eq.
    constructor; [intros s Hs; by eapply stamp_valid|]. eapply IH; [|exact E2]. by eapply prepare_for. }
  clear E Hb. revert w Hs. induction Hd as [|[[addr wire] d] ds Hd _ IH]; intros w Hs; cbn [sign_all] in Hs; [by simplify_eq|].
  destruct (sign_stamp d) as [s|] eqn:Es; [|done]. cbn in Hs. destruct (sign_all sign_stamp ds) as [w'|]; [|done]. cbn in Hs. simplify_eq.
  constructor; [by apply Hd|by apply IH].
Qed.

Lemma build_stamper_for batch depth immutable st : build_stamper memory_issuer ring_issuer signer batch depth immutable = Ok st -> for_batch st (mkBatch batch signer depth BUCKET_DEPTH immutable).
Proof. unfold build_stamper. intros E. apply map_err_Ok in E. destruct immutable; [by apply memory_for|by apply ring_for]. Qed.

Lemma prepared_stamped batch_hex depth immutable data level ts root work : prepare_bytes batch_hex depth immutable data level ts = Ok (root, work) ->
  exists batch, parse_batch_id batch_hex = Ok batch /\ Forall (stamped_for (mkBatch batch signer depth BUCKET_DEPTH immutable)) work.
Proof.
  unfold prepare_upload_bytes. destruct (parse_batch_id _) as [batch|e]; cbn [result_bind]; [|done]. destruct (split_chunks _ _) as [[r cs]|e]; cbn [result_bind]; [|done].
  destruct (build_stamper _ _ _ _ _ _) as [st|e] eqn:Eb; cbn [result_bind]; [|done]. destruct (stamp_chunks_parallel _ _ _ _ _) as [st' [w|e]] eqn:Es; cbn [snd result_bind]; [|done].
  intros E. simplify_eq. exists batch. split; [done|]. eapply stamp_chunks_valid; [by apply build_stamper_for|done].
Qed.

(** A frame of the batch whose owner is known, or about to be looked up. *)
Lemma frame_taken recent chain admitted now p chunk b value : stamped_for b chunk -> (match admitted with Some adm => ad_batch adm = b_id b | None => True end) ->
  (batch_hex p = Some (hex_encode (b_id b)) /\ batch_owner p = Some (b_owner b, value) \/
   batch_hex p <> Some (hex_encode (b_id b)) /\ exists c' n, resolve_owner (owners p) chain (hex_encode (b_id b)) (rpc_budget p) now = (c', n, Ok (b_owner b, value))) ->
  let p' := admit_frame recent chain admitted now p chunk in
  batch_hex p' = Some (hex_encode (b_id b)) /\ batch_owner p' = Some (b_owner b, value) /\
  if recent_contains recent (sc_addr chunk) (b_id b) now then accepted p' = accepted p /\ acks p' = acks p ++ [AckDedup (sc_addr chunk)]
  else accepted p' = accepted p ++ [chunk] /\ acks p' = acks p.
Proof.
  intros (v & Hv & Hb & Ho) Hadm Hp. cbv zeta. unfold admit_frame. rewrite Hv, Hb.
  assert (Hf : exists p1, frame_owner p chain (hex_encode (b_id b)) now = (p1, Ok (Some (b_owner b, value))) /\ batch_hex p1 = Some (hex_encode (b_id b)) /\ batch_owner p1 = Some (b_owner b, value) /\
    accepted p1 = accepted p /\ acks p1 = acks p).
  { unfold frame_owner. destruct Hp as [[E1 E2]|[E1 (c' & n & E2)]].
    - rewrite bool_decide_true by done. rewrite E2. by exists p.
    - rewrite bool_decide_false by done. rewrite E2. by eexists. }
  destruct Hf as (p1 & -> & E1 & E2 & E3 & E4). rewrite Ho, bool_decide_true by done.
  assert (Hmatch : match admitted with Some adm => bool_decide (b_id b <> ad_batch adm) | None => false end = false) by (destruct admitted; [rewrite bool_decide_false; [done|]; by intros Hx|done]).
  rewrite Hmatch. unfold take_frame. cbv zeta. rewrite <- E3, <- E4. destruct (recent_contains recent (sc_addr chunk) (b_id b) now); cbn; done.
Qed.

End Prepared.

Module PrepareWitness.
Definition const_crypto : Crypto := {|
  keccak256 := fun _ => replicate 32 1; alloy_sig_parse := fun _ => Ok tt; recover_point := fun _ _ _ => Ok (replicate 65 4);
  hash_challenge := fun _ _ => replicate 32 0; hash_cheque := fun _ _ => replicate 32 0 |}.
Definition owner : bytes := @point_address const_crypto (replicate 65 4).
Definition split_one (data : bytes) : result (bytes * list (bytes * (Z * bytes))) str := Ok (replicate 32 9, [(replicate 32 9, (Z.of_nat (length data), data))]).
Definition no_manifest (m : unit) : result (bytes * list (bytes * bytes)) str := Ok (replicate 32 8, [(replicate 32 8, [1]); (replicate 32 9, [2])]).
Definition issue (b : Batch) : result unit str := if bool_decide (b_id b = replicate 32 3 /\ b_owner b = owner) then Ok tt else Err (lit "not my batch").
Definition prep (st : unit) (a : bytes) (ts : Z) : unit * result unit str := (tt, Ok tt).
Definition sign (d : unit) : result bytes str := Ok demo_stamp.
Definition for_batch (st : unit) (b : Batch) : Prop := b_id b = replicate 32 3 /\ b_owner b = owner.
Definition empty_recent : RecentAcks := mkRecent ∅ [] 10 600.
Definition empty_owners : OwnerCache := mkOwners ∅ [] 10.
Definition on_chain (n : nat) (id : str) : BatchAnswer := mkAnswer (Ok (mkBatchInfo false owner 20)) (Ok 5).
Abbreviation no_bmt := (fun (_ : Z) (_ : bytes) => @nil Z).
Abbreviation no_content := (fun _ : bytes => Err (A := bytes) (E := str) []).
Abbreviation no_replica := (fun (_ : Z) (_ : bytes) => Err (A := bytes * bytes) (E := str) []).

Lemma laws : @IssuerLaws unit unit issue issue prep sign const_crypto for_batch.
Proof.
  split; unfold issue, for_batch; try (intros b st E; by case_bool_decide); [done|]. intros b st a ts st' d s Hb E Es. injection Es as <-. destruct Hb as [H1 H2].
  eexists. split; [vm_compute; reflexivity|]. rewrite H1, H2. split; vm_compute; reflexivity.
Qed.

(** Three bytes under a batch of the owner, to an unmetered relay that has nothing. *)
Abbreviation prepared := (prepare_upload_bytes split_one no_bmt (fun _ => []) no_content no_replica issue issue prep sign owner (@hex_encode plain_hex (replicate 32 3)) 20 true [1; 2; 3] LNone 7).
Definition the_chunk : StampedChunk := mkChunk (replicate 32 9) (wire_form 3 [1; 2; 3]) demo_stamp.


Lemma collection_root_exact_witness : @collection_root split_one no_bmt (fun _ => []) no_content no_replica unit tt (fun _ _ _ _ => Ok tt) no_manifest
    [mkFile (lit "a") None [1]; mkFile (lit "b") None [2]] None None LNone = Ok (replicate 32 8, 2%nat).
Proof.
  destruct (collection_root_exact split_one no_bmt (fun _ => []) no_content no_replica tt (fun _ _ _ _ => Ok tt) no_manifest
    [mkFile (lit "a") None [1]; mkFile (lit "b") None [2]] None None LNone ltac:(discriminate)) as [E _]. exact E.
Defined.
End PrepareWitness.
