(* ===== verification/Lanes.v ===== *)
(** * Uploading through relays ([src/src/client.rs], [drive_pushers])

    The driver between the scheduler ([PushSched]), the payers of the metered lanes
    ([Payer]) and the POSTs in flight: it stamps windows of chunks as the backlog
    shrinks, hands assignments to lanes that can be paid for, keeps the frames of every
    chunk that is not acknowledged, books the bytes it sends and settles.

    A POST is a task that reports acknowledgements as it reads them and ends with an
    outcome; which event comes next is the environment's, and so is all a relay says.
    The source of chunks is a state with a function that gives the next window.  The
    clock is part of the world, which is read wherever the code reads it.  Log lines,
    the progress callback and the depth statistics are left out. *)
From Stdlib Require Import ZArith Lia.
From stdpp Require Import base tactics numbers countable strings list gmap.
From S2P Require Import Prelude Codec F64 PushFrame Signer Challenge Meter Ledger Cheques Payer PushSched.
Local Open Scope Z_scope.
Local Open Scope hov_scope.

Definition PUSH_WINDOW : nat := 1024.

(** [enum LaneEv], without the depths. *)
Inductive LaneEv :=
| LAck (lane : nat) (addr : bytes) (ok : bool)
| LDone (batch lane acked : nat) (elapsed_ms : Z) (outcome : BatchOutcome) (dedup_bytes : Z).

Definition body_size (fs : list StampedChunk) : Z := foldr (fun c n => Z.of_nat (HEADER_LEN + length (sc_wire c)) + n) 0 fs.

(** ** One POST: [fn post_batch_streaming]

    [parse_line] is [serde_json::from_slice] with the members that are read; the parts
    are the pieces of the body as they arrive. *)
Record AckLine := mkLine { al_a : option str; al_s : option str; al_dedup : option bool }.
Inductive PostAnswer := PoSend (e : str) | PoStatus (code : Z) | PoStream (parts : list bytes) (broken : option str).

Section Post.
Context `{Hex} (parse_line : bytes -> option AckLine) (batch_id lane : nat) (sent : list StampedChunk).

Definition handle_line (line : bytes) (st : nat * Z * list LaneEv) : nat * Z * list LaneEv :=
  let '(acked, dedup_bytes, evs) := st in
  match parse_line line with
  | None => st
  | Some v =>
      match al_a v with
      | None => st
      | Some a =>
          match hex_decode a with
          | Err _ => st
          | Ok raw =>
              if negb (Nat.eqb (length raw) 32) then st
              else
                let ok := bool_decide (al_s v = Some (lit "ok")) in
                let dedup := if default false (al_dedup v) then
                               match List.find (fun c => bool_decide (sc_addr c = raw)) sent with
                               | Some c => dedup_bytes + Z.of_nat (HEADER_LEN + length (sc_wire c)) | None => dedup_bytes end
                             else dedup_bytes in
                (if ok then S acked else acked, dedup, evs ++ [LAck lane raw ok])
          end
      end
  end.
(** The complete lines of a buffer, and the rest. *)
Fixpoint drain_lines (fuel : nat) (buf : bytes) (st : nat * Z * list LaneEv) : bytes * (nat * Z * list LaneEv) :=
  match fuel with
  | O => (buf, st)
  | S fuel =>
      match list_find (fun b => b = 10) buf with
      | Some (nl, _) => drain_lines fuel (drop (S nl) buf) (handle_line (take nl buf) st)
      | None => (buf, st)
      end
  end.
Fixpoint read_parts (parts : list bytes) (buf : bytes) (st : nat * Z * list LaneEv) : bytes * (nat * Z * list LaneEv) :=
  match parts with
  | [] => (buf, st)
  | p :: parts => let '(buf, st) := drain_lines (S (length (buf ++ p))) (buf ++ p) st in read_parts parts buf st
  end.
(** The events of the task, in order. *)
Definition post_batch_streaming (ans : PostAnswer) (elapsed_ms : Z) : list LaneEv :=
  match ans with
  | PoSend e => [LDone batch_id lane 0 elapsed_ms (BatchFailed e) 0]
  | PoStatus code =>
      [LDone batch_id lane 0 elapsed_ms (if (code =? 402) || (code =? 401) then PaymentRequired else BatchFailed (lit "http " ++ u128_to_string code)) 0]
  | PoStream parts broken =>
      let '(buf, st) := read_parts parts [] (0%nat, 0, []) in
      match broken with
      | Some e => let '(acked, dedup, evs) := st in evs ++ [LDone batch_id lane acked elapsed_ms (BatchFailed e) dedup]
      | None =>
          let '(acked, dedup, evs) := match buf with [] => st | _ => handle_line buf st end in
          evs ++ [LDone batch_id lane acked elapsed_ms Answered dedup]
      end
  end.
End Post.

(** ** What a lane advertises: [fn fetch_lane_info]

    The members of the status document that are read, and [None] when it could not be
    fetched or is not JSON. *)
Record LaneStatus := mkStatus {
  ls_overlay : option str; ls_payment : option JValue; ls_batch_max : option Z; ls_inflight_max : option Z;
  ls_budget_gb : option f64; ls_pool_live : option Z }.
Definition default_info : LaneInfo := mkInfo None None None None None None false.
#[export] Instance LaneInfo_inhabited : Inhabited LaneInfo := populate default_info.

Definition lane_info `{Hex} `{HeaderCodec} `{Crypto} (st : option LaneStatus) (price_ceiling : Z) (pin : option LanePin)
    (expected_chain_id : option Z) : LaneInfo * option PaymentQuote :=
  match st with
  | None => (default_info, None)
  | Some v =>
      let ov := match ls_overlay v with
                | Some h => match hex_decode (trim_0x h) with Ok b => if Nat.eqb (length b) 32 then Some b else None | Err _ => None end
                | None => None end in
      let quote := match ls_payment v with
                   | None => None
                   | Some pay =>
                       match quote_verify pay None 0 pin price_ceiling with
                       | Ok q => match expected_chain_id with
                                 | Some expected => if pq_chain_id q =? expected then Some q else None
                                 | None => Some q end
                       | Err _ => None
                       end
                   end in
      (mkInfo ov (Z.to_nat <$> ls_batch_max v) (Z.to_nat <$> ls_inflight_max v) (ls_budget_gb v) (Z.to_nat <$> ls_pool_live v)
         (Meter.price_plur_per_kib ∘ pq_params <$> quote) (from_option pq_hard false quote), quote)
  end.

(** ** Paying and reading the clock, as the driver uses them *)

(** The operations of a payer on the cheque store all lanes share, and [now_ms]. *)
Class LaneOps (W : Type) := {
  op_now : W -> W * Z;
  op_settle : Pay (W := W) -> Pay (W := W) * result (option Z) str;
  op_header : Pay (W := W) -> Pay (W := W) * result str str;
  op_reconcile : Pay (W := W) -> Pay (W := W) * result bool str }.

Section Drive.
Context {W Src E : Type} `{LaneOps W} (payment : bool) (produce : Src -> nat -> Src * result (list StampedChunk) E).
Context (ln : f64 -> f64) (iter_order : W -> list (nat * list nat) -> list (nat * list nat)) (frames_fuel : nat).

Record Drive := mkDrive {
  d_world : W; d_store : ChequeStore; d_disk : Disk; d_payers : list (option LanePayer); d_ceiling : list Z;
  d_sched : Scheduler; d_frames : gmap bytes StampedChunk; d_bytes : gmap nat (nat * Z); d_source : Src; d_exhausted : bool;
  (** The POSTs under way: the lane, the frames and the capability. *)
  d_posts : gmap nat (nat * list StampedChunk * option str) }.

(** Assignments to the parts of the state. *)
Definition with_sched (d : Drive) (s : Scheduler) : Drive :=
  mkDrive (d_world d) (d_store d) (d_disk d) (d_payers d) (d_ceiling d) s (d_frames d) (d_bytes d) (d_source d) (d_exhausted d) (d_posts d).
Definition with_frames (d : Drive) (fs : gmap bytes StampedChunk) : Drive :=
  mkDrive (d_world d) (d_store d) (d_disk d) (d_payers d) (d_ceiling d) (d_sched d) fs (d_bytes d) (d_source d) (d_exhausted d) (d_posts d).
Definition with_source (d : Drive) (src : Src) (ex : bool) : Drive :=
  mkDrive (d_world d) (d_store d) (d_disk d) (d_payers d) (d_ceiling d) (d_sched d) (d_frames d) (d_bytes d) src ex (d_posts d).
Definition with_bytes (d : Drive) (b : gmap nat (nat * Z)) : Drive :=
  mkDrive (d_world d) (d_store d) (d_disk d) (d_payers d) (d_ceiling d) (d_sched d) (d_frames d) b (d_source d) (d_exhausted d) (d_posts d).
Definition with_posts (d : Drive) (ps : gmap nat (nat * list StampedChunk * option str)) : Drive :=
  mkDrive (d_world d) (d_store d) (d_disk d) (d_payers d) (d_ceiling d) (d_sched d) (d_frames d) (d_bytes d) (d_source d) (d_exhausted d) ps.
(** The world, the cheque store with its files, and the payers. *)
Definition with_paid (d : Drive) (w : W) (st : ChequeStore) (dk : Disk) (ps : list (option LanePayer)) : Drive :=
  mkDrive w st dk ps (d_ceiling d) (d_sched d) (d_frames d) (d_bytes d) (d_source d) (d_exhausted d) (d_posts d).

Definition now_ms (d : Drive) : Drive * Z :=
  let '(w, t) := op_now (d_world d) in (with_paid d w (d_store d) (d_disk d) (d_payers d), t).
Definition payer_of (d : Drive) (i : nat) : option LanePayer := match d_payers d !! i with Some (Some p) => Some p | _ => None end.
Definition with_lane (d : Drive) (i : nat) (p : LanePayer) : Drive :=
  with_paid d (d_world d) (d_store d) (d_disk d) (<[i := Some p]> (d_payers d)).
(** A payment operation on a lane. *)
Definition on_payer {R} (f : Pay (W := W) -> Pay (W := W) * R) (d : Drive) (i : nat) (p : LanePayer) : Drive * R :=
  let '(s, r) := f (mkPay (d_world d) p (d_store d) (d_disk d)) in
  (with_paid d (p_world s) (p_store s) (p_disk s) (<[i := Some (p_payer s)]> (d_payers d)), r).
Definition on_account (d : Drive) (i : nat) (f : LaneAccount -> LaneAccount) : Drive :=
  match payer_of d i with Some p => with_lane d i (set_account_of p (f (py_account p))) | None => d end.

(** *** Setting up *)

(** A metered lane is sized to its credit line before anything is scheduled, and asked
    for the debt an earlier run left. *)
Definition setup_lane (st : Drive * list LaneInfo) (i : nat) : Drive * list LaneInfo :=
  let '(d, infos) := st in
  match payer_of d i with
  | None => st
  | Some p =>
      match on_payer op_header d i p with
      | (d, Err _) => (d, infos)
      | (d, Ok _) =>
          let p := default p (payer_of d i) in
          let fits := default U64_MAX (max_frames frames_fuel p) in
          let inf := infos !!! i in
          let before := from_option Z.of_nat U64_MAX (batch_max inf) in
          let infos := if fits <? before
                       then <[i := mkInfo (overlay inf) (Some (Z.to_nat fits)) (inflight_max inf) (budget_remaining_gb inf)
                                     (pool_live inf) (price_plur_per_kib inf) (hard_enforcement inf)]> infos
                       else infos in
          let d := mkDrive (d_world d) (d_store d) (d_disk d) (d_payers d) (<[i := Z.min fits before]> (d_ceiling d)) (d_sched d)
                     (d_frames d) (d_bytes d) (d_source d) (d_exhausted d) (d_posts d) in
          ((on_payer op_reconcile d i p).1, infos)
      end
  end.
(** The payer of a lane that quotes a price. *)
Definition lane_payer (st : ChequeStore) (url : str) (quote : option PaymentQuote) : option LanePayer :=
  match quote with
  | Some q => if payment then Some (payer_new url q (store_cumulative st (relay_key (pq_beneficiary q)))) else None
  | None => None
  end.
Definition unusable (infos : list LaneInfo) (payers : list (option LanePayer)) : list nat :=
  List.filter (fun i => hard_enforcement (infos !!! i) && match payers !! i with Some (Some _) => false | _ => true end)
    (seq 0 (length infos)).
Definition start (w : W) (st : ChequeStore) (dk : Disk) (src : Src) (scfg : Config) (lanes : list (str * (LaneInfo * option PaymentQuote)))
    : option Drive :=
  let infos := map (fun l => l.2.1) lanes in
  let payers := map (fun l => lane_payer st l.1 l.2.2) lanes in
  let bad := unusable infos payers in
  if negb (Nat.eqb (length bad) 0) && Nat.eqb (length bad) (length lanes) then None
  else
    let d := mkDrive w st dk payers (replicate (length lanes) U64_MAX) (sched_new infos scfg) ∅ ∅ src false ∅ in
    let '(d, infos) := if payment then foldl setup_lane (d, infos) (seq 0 (length lanes)) else (d, infos) in
    Some (with_sched d (foldl retire_lane (sched_new infos scfg) bad)).

(** *** Feeding the scheduler *)

(** The closure [refill]. *)
Definition hold_frame (fs : gmap bytes StampedChunk) (c : StampedChunk) : gmap bytes StampedChunk :=
  match fs !! sc_addr c with Some _ => fs | None => <[sc_addr c := c]> fs end.
Definition refill (d : Drive) : Drive * result unit E :=
  if d_exhausted d then (d, Ok tt)
  else
    match produce (d_source d) PUSH_WINDOW with
    | (src, Err e) => (with_source d src false, Err e)
    | (src, Ok []) => (with_source d src true, Ok tt)
    | (src, Ok batch) =>
        let d := with_source d src false in
        let d := with_sched d (admit_chunks (d_sched d) (map (fun c => (sc_addr c, wrap 32 (Z.of_nat (length (sc_wire c))))) batch)).1 in
        (with_frames d (foldl hold_frame (d_frames d) batch), Ok tt)
    end.
Definition backlog (s : Scheduler) : Z := wrap 64 (Z.of_nat (length (chunks s)) - Z.of_nat (acked s) - Z.of_nat (failed s)).
(** The [while]; [None] when the fuel is out. *)
Fixpoint refill_loop (fuel : nat) (d : Drive) : option (Drive * result unit E) :=
  if d_exhausted d then Some (d, Ok tt)
  else if backlog (d_sched d) <? Z.of_nat PUSH_WINDOW then
    match fuel with
    | O => None
    | S fuel => match refill d with (d, Err e) => Some (d, Err e) | (d, Ok _) => refill_loop fuel d end
    end
  else Some (d, Ok tt).

(** *** Handing out work *)

(** Settle the lanes that have debt and no room. *)
Definition settle_lane (d : Drive) (i : nat) : Drive :=
  match payer_of d i with
  | Some p => if negb (has_headroom p) && (0 <? la_owed (py_account p)) then (on_payer op_settle d i p).1 else d
  | None => d
  end.
Definition settle_pass (d : Drive) : Drive := if payment then foldl settle_lane d (seq 0 (length (d_payers d))) else d.

(** Size the next POST of every metered lane to what it can pay for. *)
Definition resize_lane (d : Drive) (s : Scheduler) (i : nat) : Scheduler :=
  match payer_of d i with
  | Some p =>
      if cap_known p then
        match affordable_frames frames_fuel p with
        | Some n => if (0 <? n) && negb (n =? U64_MAX) then set_lane_batch_max s i (Z.to_nat (Z.min n (d_ceiling d !!! i))) else s
        | None => s
        end
      else s
  | None => s
  end.
Definition anyone_can_take_work (d : Drive) : bool :=
  negb payment || existsb (fun p => match p with Some p => has_headroom p | None => true end) (d_payers d).
Definition try_next (d : Drive) : Drive * option Assignment :=
  let d := if payment then with_sched d (foldl (resize_lane d) (d_sched d) (seq 0 (length (d_payers d)))) else d in
  if anyone_can_take_work d then
    let '(d, now) := now_ms d in
    let '(s, a) := next ln (iter_order (d_world d)) (d_sched d) now in (with_sched d s, a)
  else (d, None).

(** The assignment goes back to the queue, as after a 402. *)
Definition hand_back (d : Drive) (b : nat) : Drive :=
  let '(d, now) := now_ms d in with_sched d (on_batch_result (d_sched d) b PaymentRequired now).
Definition batch_frames (d : Drive) (a : Assignment) : list StampedChunk :=
  omap (fun ci => d_frames d !! addr (chunks (d_sched d) !!! ci)) (a_chunks a).
Definition spawn (d : Drive) (a : Assignment) (fs : list StampedChunk) (challenge : option str) : Drive :=
  with_posts d (<[a_batch a := (a_lane a, fs, challenge)]> (d_posts d)).

Inductive Placed := Posted | HandedBack | Stopped.
(** The lane the scheduler picked cannot pay for one frame. *)
Definition no_room (p : LanePayer) : bool :=
  cap_known p && (negb (has_headroom p) || match affordable_frames frames_fuel p with Some n => n =? 0 | None => false end).
(** Settle first when the body does not fit. *)
Definition make_room (d : Drive) (i : nat) (p : LanePayer) (n : Z) : Drive * LanePayer :=
  if Payer.would_exceed p n then let d := (on_payer op_settle d i p).1 in (d, default p (payer_of d i)) else (d, p).
(** What is done with an assignment. *)
Definition place (d : Drive) (a : Assignment) : Drive * Placed :=
  match (if payment then payer_of d (a_lane a) else None) with
  | None => (spawn d a (batch_frames d a) None, Posted)
  | Some p =>
      if no_room p then (hand_back d (a_batch a), Stopped)
      else
        let fs := batch_frames d a in
        let n := body_size fs in
        let '(d, p) := make_room d (a_lane a) p n in
        if Payer.would_exceed p n then (hand_back d (a_batch a), HandedBack)
        else
          match on_payer op_header d (a_lane a) p with
          | (d, Err _) => (hand_back d (a_batch a), HandedBack)
          | (d, Ok h) =>
              let d := on_account d (a_lane a) (fun ac => record_sent ac n) in
              let d := with_bytes d (<[a_batch a := (a_lane a, n)]> (d_bytes d)) in
              (spawn d a fs (Some h), Posted)
          end
  end.
Fixpoint dispatch_loop (fuel : nat) (d : Drive) : option Drive :=
  match fuel with
  | O => None
  | S fuel =>
      match try_next d with
      | (d, None) => Some d
      | (d, Some a) => match place d a with (d, Stopped) => Some d | (d, _) => dispatch_loop fuel d end
      end
  end.

(** *** After the dispatches *)

Inductive Verdict := VFinish | VAgain | VStalled (why : StallReason) | VWait.
(** [VAgain] is the [continue], after a sleep to the end of the earliest backoff when
    nothing is due; [VWait] is the wait for an event or for a hedge deadline. *)
Definition verdict (d : Drive) : Drive * Verdict :=
  let s := d_sched d in
  if sched_done s && d_exhausted d then (d, VFinish)
  else if Nat.eqb (in_flight s) 0 then
    if sched_done s then (d, VAgain)
    else
      let '(d, now) := now_ms d in
      match stalled s now with
      | Some r => (d, VStalled r)
      | None =>
          let '(d, now) := now_ms d in
          match next_wake_ms s now with
          | Some t => let '(d, now) := now_ms d in if now <? t then (d, VAgain) else (d, VFinish)
          | None => (d, VFinish)
          end
      end
  else (d, VWait).

(** *** Events *)

(** [fn unpayable_402]. *)
Definition unpayable_402 (d : Drive) (i : nat) : Drive :=
  match payer_of d i with
  | Some p => if 0 <? la_pending (py_account p) then with_sched d (fund_lane (d_sched d) i) else d
  | None => d
  end.
Definition fund (d : Drive) (i : nat) : Drive := with_sched d (fund_lane (d_sched d) i).
(** A 402 with nothing to pay: ask the relay what it thinks is owed, and pay that. *)
Definition reconcile_then_settle (d : Drive) (i : nat) : Drive :=
  match payer_of d i with
  | None => d
  | Some p =>
      match on_payer op_reconcile d i p with
      | (d, Ok true) =>
          match payer_of d i with
          | None => d
          | Some p => match on_payer op_settle d i p with
                      | (d, Ok (Some _)) => fund d i
                      | (d, Ok None) => unpayable_402 d i
                      | (d, Err _) => d
                      end
          end
      | (d, Ok false) => unpayable_402 d i
      | (d, Err _) => d
      end
  end.
Definition settle_after (d : Drive) (i : nat) (needs_payment : bool) : Drive :=
  match payer_of d i with
  | None => d
  | Some p =>
      if negb needs_payment && negb (should_settle (py_account p)) then d
      else
        match on_payer op_settle d i (if needs_payment then clear_header p else p) with
        | (d, Ok (Some _)) => fund d i
        | (d, Ok None) => if needs_payment then reconcile_then_settle d i else d
        | (d, Err _) => d
        end
  end.
(** The bytes of a POST that ended: debt if the relay read them. *)
Definition bill (d : Drive) (b lane : nat) (reached_relay : bool) (dedup_bytes : Z) : Drive :=
  let d' := with_bytes d (delete b (d_bytes d)) in
  match d_bytes d !! b with
  | None => d'
  | Some (_, sent) =>
      on_account d' lane (fun ac =>
        let ac := record_answered ac sent reached_relay in
        if reached_relay && (0 <? dedup_bytes) then refund_dedup ac dedup_bytes else ac)
  end.
Definition needs_payment (o : BatchOutcome) : bool := match o with PaymentRequired => true | _ => false end.
Definition on_event (d : Drive) (ev : LaneEv) : Drive :=
  match ev with
  | LAck lane a ok =>
      let before := acked (d_sched d) in
      let '(d, now) := now_ms d in
      let d := with_sched d (on_ack (d_sched d) lane a ok now) in
      if Nat.ltb before (acked (d_sched d)) then with_frames d (delete a (d_frames d)) else d
  | LDone b lane n ms outcome dedup_bytes =>
      let d := with_posts d (delete b (d_posts d)) in
      let d := with_sched d (on_batch_timing (d_sched d) lane n ms) in
      let d := bill d b lane (negb (needs_payment outcome)) dedup_bytes in
      let '(d, now) := now_ms d in
      let d := with_sched d (on_batch_result (d_sched d) b outcome now) in
      if payment then settle_after d lane (needs_payment outcome) else d
  end.

(** *** The end *)

(** POSTs still draining were read and billed: turn them into debt, then settle. *)
Definition drain_bytes (d : Drive) : Drive :=
  with_bytes (foldl (fun d bn => on_account d bn.2.1 (fun ac => record_answered ac bn.2.2 true)) d (map_to_list (d_bytes d))) ∅.
Definition final_settle (d : Drive) (i : nat) : Drive := match payer_of d i with Some p => (on_payer op_settle d i p).1 | None => d end.
Inductive DriveError := NoPushers | NoneUsable | DrProduce (e : E) | DrStalled (why : StallReason) | Unacked (n : nat).
Definition finish (d : Drive) : Drive * result unit DriveError :=
  let d := if payment then foldl final_settle (drain_bytes d) (seq 0 (length (d_payers d))) else d in
  (d, if Nat.ltb (acked (d_sched d)) (length (chunks (d_sched d))) then Err (Unacked (length (chunks (d_sched d)) - acked (d_sched d))) else Ok tt).

(** *** The loop of [drive_pushers]

    [Awaiting] is a driver that waits for the next element of the list, which is what
    happens while it waits: an event of a POST, or [None], the deadline. *)
Inductive Driven := Returned (d : Drive) (r : result unit DriveError) | Awaiting (d : Drive) | OutOfFuel.

Fixpoint drive_loop (fuel : nat) (d : Drive) (wakes : list (option LaneEv)) : Driven :=
  match fuel with
  | O => OutOfFuel
  | S fuel =>
      match refill_loop fuel d with
      | None => OutOfFuel
      | Some (d, Err e) => Returned d (Err (DrProduce e))
      | Some (d, Ok _) =>
          match dispatch_loop fuel (settle_pass d) with
          | None => OutOfFuel
          | Some d =>
              match verdict d with
              | (d, VFinish) => let '(d, r) := finish d in Returned d r
              | (d, VStalled why) => Returned d (Err (DrStalled why))
              | (d, VAgain) => drive_loop fuel d wakes
              | (d, VWait) =>
                  let '(d, _) := now_ms d in
                  match wakes with
                  | [] => Awaiting d
                  | None :: wakes => drive_loop fuel d wakes
                  | Some ev :: wakes => drive_loop fuel (on_event d ev) wakes
                  end
              end
          end
      end
  end.

(** The whole of [drive_pushers], from the advertisements of the lanes. *)
Inductive RunResult := Early (r : result unit DriveError) | Ran (o : Driven).
Definition drive_pushers (fuel : nat) (total_hint : nat) (w : W) (st : ChequeStore) (dk : Disk) (src : Src) (scfg : Config)
    (lanes : list (str * (LaneInfo * option PaymentQuote))) (wakes : list (option LaneEv)) : RunResult :=
  match lanes with
  | [] => Early (Err NoPushers)
  | _ =>
      if Nat.eqb total_hint 0 then Early (Ok tt)
      else
        match start w st dk src scfg lanes with
        | None => Early (Err NoneUsable)
        | Some d =>
            match refill d with
            | (d, Err e) => Ran (Returned d (Err (DrProduce e)))
            | (d, Ok _) => Ran (drive_loop fuel d wakes)
            end
        end
  end.
End Drive.
