(* ===== verification/LanesInv.v ===== *)
(** * Theorems on uploads through relays ([Lanes])

    An upload that returns success has every chunk of its source acknowledged by a
    relay; a POST carries exactly the frames of the chunks the scheduler assigned to
    it; the driver waits only while a POST is open; and what a lane is charged for is
    what is in flight on it. *)
From Stdlib Require Import ZArith Lia.
From stdpp Require Import base tactics numbers countable strings list gmap.
From S2P Require Import Prelude Codec F64 PushFrame Signer Challenge Meter Ledger Cheques Payer PushSched PushSchedInv Lanes.
Local Open Scope Z_scope.
Local Open Scope hov_scope.

(** What a source of chunks promises: the addresses it still has, of which a window is
    a prefix; an empty window is the end. *)
Class ChunkSource (Src E : Type) (produce : Src -> nat -> Src * result (list StampedChunk) E) := {
  rest : Src -> list bytes;
  produce_rest : forall src src' b, produce src PUSH_WINDOW = (src', Ok b) -> rest src = map sc_addr b ++ rest src';
  produce_end : forall src src', produce src PUSH_WINDOW = (src', Ok []) -> rest src' = [] }.

(** ** What the scheduler's calls do with the chunks and the batches *)

(** The chunks after a call that only moves chunks between phases, and completes none. *)
Definition back (cs cs' : list ChunkState) : Prop :=
  length cs' = length cs /\ forall ci c', cs' !! ci = Some c' ->
    exists c, cs !! ci = Some c /\ addr c' = addr c /\ (phase c' = Done -> phase c = Done).

#[export] Instance back_preorder : PreOrder back.
Proof.
  split; [split; [done|eauto]|]. intros x y z [L1 H1] [L2 H2]. split; [congruence|]. intros ci c' Hc.
  destruct (H2 ci c' Hc) as (c2 & Hc2 & E2 & P2). destruct (H1 ci c2 Hc2) as (c1 & Hc1 & E1 & P1).
  exists c1. split; [done|]. split; [congruence|auto].
Qed.

Lemma back_alter f ci cs : (forall c, addr (f c) = addr c) -> (forall c, phase (f c) = Done -> phase c = Done) -> back cs (alter f ci cs).
Proof.
  intros Ha Hp. split; [apply length_alter|]. intros j c' Hc. destruct (decide (ci = j)) as [<-|Hne].
  - rewrite list_lookup_alter_eq in Hc. destruct (cs !! ci) as [c|]; [|done]. injection Hc as <-. eauto.
  - rewrite list_lookup_alter_ne in Hc by done. eauto.
Qed.

Lemma back_view cs cs' : map view cs' = map view cs -> back cs cs'.
Proof.
  intros Hv. split; [by rewrite <- (length_map view cs'), Hv, length_map|]. intros ci c' Hc.
  destruct (view_lookup cs cs' ci c' Hv Hc) as (c & Hc0 & Ev). exists c. injection Ev as E1 E2 _.
  split; [done|]. split; congruence.
Qed.

Lemma back_foldl {A} (f : list ChunkState -> A -> list ChunkState) : (forall cs x, back cs (f cs x)) -> forall l cs, back cs (foldl f cs l).
Proof. intros Hf. induction l as [|x l IH]; intros cs; [reflexivity|]. cbn [foldl]. etrans; [apply Hf|apply IH]. Qed.

Lemma back_resolve lane s ci : back (chunks s) (chunks (resolve_chunk lane s ci)).
Proof.
  assert (Hd : back (chunks s) (chunks (drop_lane s ci lane))) by (by apply back_alter).
  unfold resolve_chunk. destruct (_ || _); [reflexivity|]. cbv zeta. destruct (on _); [|done].
  destruct (_ <=? _).
  - destruct (phase_is _ _ _); [done|]. etrans; [exact Hd|]. by apply back_alter.
  - destruct (phase_is _ _ _); [done|]. etrans; [exact Hd|]. by apply back_alter.
Qed.

Lemma back_batch_result s b o now : back (chunks s) (chunks (on_batch_result s b o now)).
Proof.
  unfold on_batch_result. destruct (outstanding s !! b) as [[lane cks]|]; [|reflexivity]. cbv zeta.
  set (s2 := match o with Answered => _ | BatchFailed _ => _ | PaymentRequired => _ end).
  assert (H2 : back (chunks s) (chunks s2)).
  { unfold s2. destruct o; [by destruct (Nat.ltb _ _)|done|]. apply back_foldl. intros cs x. unfold refund.
    destruct (_ || _); [reflexivity|by apply back_alter]. }
  clearbody s2. etrans; [exact H2|]. clear H2. revert s2.
  induction cks as [|ci cks IH]; intros s2; [reflexivity|]. cbn [foldl]. etrans; [apply back_resolve|apply IH].
Qed.

Lemma resolve_out lane cks : forall s, outstanding (foldl (resolve_chunk lane) s cks) = outstanding s.
Proof.
  induction cks as [|ci cks IH]; intros s; [done|]. cbn [foldl]. rewrite IH. unfold resolve_chunk, mark_failed, requeue, drop_lane, set_chunks.
  by repeat case_match.
Qed.
Lemma batch_result_out s b o now : outstanding (on_batch_result s b o now) = delete b (outstanding s).
Proof.
  unfold on_batch_result. destruct (outstanding s !! b) as [[lane cks]|] eqn:Eb; [|by rewrite delete_id].
  cbv zeta. rewrite resolve_out. destruct o; [by destruct (Nat.ltb _ _)|done|done].
Qed.

(** An ack completes at most the chunk it names, and counts it. *)
Lemma ack_shape s lane a ok now : let s' := on_ack s lane a ok now in
  length (chunks s') = length (chunks s) /\ outstanding s' = outstanding s /\
  ((acked s' = acked s /\ back (chunks s) (chunks s')) \/
   (ok = true /\ acked s' = S (acked s) /\ exists ci, index s !! a = Some ci /\
      (forall c', chunks s' !! ci = Some c' -> phase c' = Done) /\
      forall j c', j <> ci -> chunks s' !! j = Some c' -> phase c' = Done -> exists c, chunks s !! j = Some c /\ phase c = Done)).
Proof.
  cbv zeta. unfold on_ack. destruct (index s !! a) as [ci|] eqn:Ei; [|split; [done|]; split; [done|]; left; split; [done|reflexivity]].
  destruct (_ || _) eqn:Ep; [split; [done|]; split; [done|]; left; split; [done|reflexivity]|]. destruct ok.
  - set (s1 := set_chunks s _ _ _ _ _). set (s2 := upd_lane s1 _ _).
    assert (Hg : forall x, length (chunks (on_group_ack x ci)) = length (chunks x) /\ outstanding (on_group_ack x ci) = outstanding x /\
      acked (on_group_ack x ci) = acked x /\
      forall j c', chunks (on_group_ack x ci) !! j = Some c' -> exists c, chunks x !! j = Some c /\
        (c' = c \/ (phase c = Pending /\ phase c' = Skipped))).
    { intros x. unfold on_group_ack. destruct (policy x); [split_and!; [done|done|done|eauto]|].
      destruct (group _) as [gid|]; [|split_and!; [done|done|done|eauto]]. destruct (groups x !! gid) as [g|]; [|split_and!; [done|done|done|eauto]].
      cbv zeta. destruct (_ <? _); [split_and!; [done|done|done|eauto]|]. cbn [chunks set_chunks outstanding acked].
      split; [apply length_map|]. split; [done|]. split; [done|]. intros j c' Hc'. apply list_lookup_fmap_Some in Hc' as (c & -> & Hc).
      exists c. split; [done|]. destruct (_ && _) eqn:E; [|by left]. right. apply andb_prop in E as [_ E%bool_decide_eq_true_1]. done. }
    destruct (Hg s2) as (G1 & G2 & G3 & G4). rewrite G1, G2, G3. cbn [s2 upd_lane set_lanes chunks outstanding acked s1 set_chunks].
    split; [apply length_alter|]. split; [done|]. right. split; [done|]. split; [lia|]. exists ci. split; [done|]. split.
    + intros c' Hc'. destruct (G4 ci c' Hc') as (c & Hc & Hcase). cbn in Hc. rewrite list_lookup_alter_eq in Hc.
      destruct (chunks s !! ci); [|done]. injection Hc as <-. by destruct Hcase as [->|[? _]].
    + intros j c' Hj Hc' Hd. destruct (G4 j c' Hc') as (c & Hc & Hcase). cbn in Hc. rewrite list_lookup_alter_ne in Hc by done.
      exists c. split; [done|]. destruct Hcase as [->|[_ ?]]; congruence.
  - set (s2 := drop_lane _ ci lane).
    assert (Hd : back (chunks s) (chunks s2)) by (by apply back_alter).
    assert (Hc : forall s3, chunks s3 = chunks s2 \/ chunks s3 = chunks (mark_failed s2 ci) \/ chunks s3 = chunks (requeue s2 ci) ->
      back (chunks s) (chunks s3)) by (intros s3 [E | [E | E] ]; rewrite E; clear E; [done|..]; (etrans; [exact Hd|by apply back_alter])).
    cbv zeta. destruct (on _); [destruct (_ <=? _)|]; (split; [apply Hc; auto|]; split; [done|]; left; split; [done|]; apply Hc; auto).
Qed.

(** An assignment is the dispatch of its chunks to its lane. *)
Lemma next_dispatches ln iter s now a : (next ln iter s now).2 = Some a ->
  exists s1, map view (chunks s1) = map view (chunks s) /\ outstanding s1 = outstanding s /\ lanes s1 = map (expire now) (lanes s) /\
    cfg s1 = cfg s /\ acked s1 = acked s /\ next_batch_id s1 = next_batch_id s /\ a_batch a = next_batch_id s /\
    (next ln iter s now).1 = (dispatch s1 (a_lane a) (a_chunks a) (a_hedge a) now).1.
Proof.
  unfold next. cbv zeta. destruct (next_hedge ln iter (expire_backoffs s now) now) as [[s' a']|] eqn:Eh; cbn [fst snd].
  - intros Ha. apply (inj Some) in Ha as <-. unfold next_hedge in Eh. destruct (_ <=? _); [done|]. destruct (Nat.ltb _ _); [done|].
    destruct (max_by_len _) as [[lane all]|]; [|done]. cbv zeta in Eh. destruct (take _ all) as [|c0 rest]; [done|].
    set (s1 := mkSched _ _ _ _ _ _ _ _ _ _ _ _ _) in Eh. apply Some_inj in Eh. exists s1.
    assert (Ea : a' = mkAssignment (next_batch_id s) lane (c0 :: rest) true) by (by injection Eh).
    rewrite Ea. cbn [a_lane a_chunks a_hedge a_batch]. rewrite Eh.
    split; [exact (mark_hedged_view (c0 :: rest) (chunks s))|done].
  - destruct (choose ln _ now) as [[lane picked]|]; [|done].
    unfold dispatch at 1. cbn [fst snd]. intros Ha. apply (inj Some) in Ha as <-. by exists (expire_backoffs s now).
Qed.

Lemma next_none ln iter s now : (next ln iter s now).2 = None -> (next ln iter s now).1 = expire_backoffs s now.
Proof.
  unfold next. cbv zeta. destruct (next_hedge _ _ _ _) as [[s' a']|]; [done|]. destruct (choose ln _ now) as [[lane picked]|]; [|done].
  by destruct (dispatch _ _ _ _ _).
Qed.

Lemma back_next ln iter s now : back (chunks s) (chunks (next ln iter s now).1).
Proof.
  destruct (next ln iter s now).2 as [a|] eqn:Ea; [|by rewrite next_none].
  apply next_dispatches in Ea as (s1 & Hv & _ & _ & _ & _ & _ & _ & ->). etrans; [by apply back_view|].
  cbn [dispatch fst chunks]. apply back_foldl. intros cs x. apply back_alter; intros c; unfold carry; by destruct (a_hedge a).
Qed.

(** ** The room of the lanes

    How many batches the lanes could still take, were they all usable that may become
    so: each assignment uses one up. *)
Definition slots (c : Config) (l : Lane) : nat :=
  match health l with
  | Unfunded | Retired => 0
  | _ => Nat.max (default (inflight_per_lane c) (inflight_max (info l))) 1 - inflight l
  end.
Definition room (s : Scheduler) : nat := list_sum (map (slots (cfg s)) (lanes s)).

Lemma sum_cons (f : Lane -> nat) x ls : list_sum (map f (x :: ls)) = (f x + list_sum (map f ls))%nat.
Proof. done. Qed.
Lemma sum_alter (f : Lane -> nat) (g : Lane -> Lane) i ls l : ls !! i = Some l ->
  (list_sum (map f (alter g i ls)) + f l = list_sum (map f ls) + f (g l))%nat.
Proof.
  revert i. induction ls as [|x ls IH]; intros [|i] Hl; [done|done| |].
  - injection Hl as ->. change (alter g 0%nat (l :: ls)) with (g l :: ls). rewrite !sum_cons. lia.
  - specialize (IH i Hl). change (alter g (S i) (x :: ls)) with (x :: alter g i ls). rewrite !sum_cons. lia.
Qed.
Lemma sum_alter_le (f : Lane -> nat) (g : Lane -> Lane) i ls : (forall l, f (g l) <= f l)%nat ->
  (list_sum (map f (alter g i ls)) <= list_sum (map f ls))%nat.
Proof.
  intros Hg. revert i. induction ls as [|x ls IH]; intros [|i]; [done|done| |].
  - specialize (Hg x). change (alter g 0%nat (x :: ls)) with (g x :: ls). rewrite !sum_cons. lia.
  - specialize (IH i). change (alter g (S i) (x :: ls)) with (x :: alter g i ls). rewrite !sum_cons. lia.
Qed.

Lemma slots_expire c now l : slots c (expire now l) = slots c l.
Proof. unfold expire, slots. destruct (health l) eqn:E; cbn; rewrite ?E; try done. destruct (_ <=? _); cbn; by rewrite ?E. Qed.

Lemma slots_free s now i : i ∈ free_lanes s now -> exists l, lanes s !! i = Some l /\ (0 < slots (cfg s) l)%nat /\
  S (slots (cfg s) (set_inflight (inflight l + 1) l)) = slots (cfg s) l.
Proof.
  intros (Hi & He & Hr)%free_lanes_spec. destruct (lookup_lt_is_Some_2 _ _ Hi) as [l Hl]. exists l. split; [done|].
  unfold has_room in Hr. rewrite (list_lookup_total_correct _ _ _ Hl) in *. apply Nat.ltb_lt in Hr.
  assert (Hc : (capacity l (cfg s) <= Nat.max (default (inflight_per_lane (cfg s)) (inflight_max (info l))) 1)%nat)
    by (unfold capacity; case_bool_decide; lia).
  unfold eligible, slots in *. cbn [health set_inflight info inflight]. destruct (health l); try done; split; lia.
Qed.

Lemma room_next ln iter s now a : (forall l, iter l ≡ₚ l) -> SInv s -> (next ln iter s now).2 = Some a -> (room (next ln iter s now).1 < room s)%nat.
Proof.
  intros Hit HI Ha. destruct (proj2 (next_ok ln iter Hit s now HI) a Ha) as [Hasg _].
  destruct (next_dispatches _ _ _ _ _ Ha) as (s1 & _ & _ & El & Ec & _ & _ & _ & ->).
  destruct (slots_free _ _ _ (as_lane _ _ _ Hasg)) as (l & Hl & Hp & Hs). cbn [lanes expire_backoffs set_lanes cfg] in *.
  unfold room. cbn [dispatch fst lanes cfg]. rewrite El, Ec.
  pose proof (sum_alter (slots (cfg s)) (fun l => set_inflight (inflight l + 1) l) (a_lane a) _ l Hl) as Hsum.
  rewrite (map_map (expire now)) in Hsum. rewrite (map_ext _ (slots (cfg s)) (slots_expire (cfg s) now)) in Hsum. lia.
Qed.

Lemma room_batch_back s b now : (room (on_batch_result s b PaymentRequired now) <= room s)%nat.
Proof.
  unfold on_batch_result. destruct (outstanding s !! b) as [[lane cks]|]; [|done]. cbv zeta.
  assert (Hc : forall x, cfg (foldl (resolve_chunk lane) x cks) = cfg x).
  { induction cks as [|ci cks IH]; intros x; [done|]. cbn [foldl]. by rewrite IH, (proj1 (resolve_cfg lane x ci)). }
  unfold room. rewrite resolve_all_lanes, Hc. cbn [lanes cfg set_chunks upd_lane set_lanes].
  rewrite list_alter_alter_eq. apply sum_alter_le. intros l. cbn. lia.
Qed.

Section Lanes.
Context {W Src E : Type} `{LaneOps W} (payment : bool) (produce : Src -> nat -> Src * result (list StampedChunk) E).
Context `{!ChunkSource Src E produce}.
Context (ln : f64 -> f64) (iter_order : W -> list (nat * list nat) -> list (nat * list nat)) (frames_fuel : nat).
Hypothesis iter_perm : forall w l, iter_order w l ≡ₚ l.

Abbreviation drive := (Drive (W := W) (Src := Src)).

(** ** The invariant *)

(** An open POST of a batch: its lane, and the frames of its chunks. *)
Definition post_for (s : Scheduler) (l : nat) (cks : list nat) (p : nat * list StampedChunk * option str) : Prop :=
  p.1.1 = l /\ map sc_addr p.1.2 = map (fun ci => addr (chunks s !!! ci)) cks.

(** [all] is what the source had at the start, [acks] what the relays have said; [hole]
    is an assignment that was just taken and is not yet posted. *)
Record DInvH (hole : option (nat * nat * list nat)) (all : list bytes) (acks : list (option LaneEv)) (d : drive) : Prop := {
  dv_sched : SInv (d_sched d);
  dv_all : forall a, a ∈ all -> a ∈ rest (d_source d) \/ exists ci c, chunks (d_sched d) !! ci = Some c /\ addr c = a;
  dv_end : d_exhausted d = true -> rest (d_source d) = [];
  dv_keys : forall a f, d_frames d !! a = Some f -> sc_addr f = a;
  dv_frames : forall ci c, chunks (d_sched d) !! ci = Some c -> phase c <> Done -> is_Some (d_frames d !! addr c);
  dv_done : forall ci c, chunks (d_sched d) !! ci = Some c -> phase c = Done -> exists l, Some (LAck l (addr c) true) ∈ acks;
  dv_posts : forall b, match outstanding (d_sched d) !! b with
                       | Some (l, cks) => if bool_decide (hole = Some (b, l, cks)) then d_posts d !! b = None
                                          else exists p, d_posts d !! b = Some p /\ post_for (d_sched d) l cks p
                       | None => d_posts d !! b = None end;
  dv_bytes : forall b, d_bytes d !! b = match d_posts d !! b with
                                        | Some (l, fs, Some _) => Some (l, body_size fs) | _ => None end }.
Abbreviation DInv := (DInvH None).

(** ** Steps that leave the chunks alone *)

(** The lanes and the payments may change, the chunks and the POSTs do not. *)
Record quiet (d d' : drive) : Prop := {
  q_chunks : chunks (d_sched d') = chunks (d_sched d);
  q_index : index (d_sched d') = index (d_sched d);
  q_out : outstanding (d_sched d') = outstanding (d_sched d);
  q_inv : SInv (d_sched d) -> SInv (d_sched d');
  q_acked : acked (d_sched d') = acked (d_sched d);
  q_frames : d_frames d' = d_frames d;
  q_bytes : d_bytes d' = d_bytes d;
  q_source : d_source d' = d_source d;
  q_ex : d_exhausted d' = d_exhausted d;
  q_posts : d_posts d' = d_posts d }.

#[local] Instance quiet_preorder : PreOrder quiet.
Proof. split; [by split|]. intros ??? [] []. split; auto; congruence. Qed.

Lemma dinv_quiet hole all acks d d' : DInvH hole all acks d -> quiet d d' -> DInvH hole all acks d'.
Proof.
  intros [H1 H2 H3 Hk H4 H5 H6 H7] [E1 E2 E3 E4 _ E5 E6 E7 E8 E9]. split; rewrite ?E1, ?E2, ?E3, ?E5, ?E6, ?E7, ?E8, ?E9; auto.
  intros b. specialize (H6 b). unfold post_for in *. by rewrite E1.
Qed.

Lemma quiet_paid d w st dk ps : quiet d (with_paid d w st dk ps).
Proof. by split. Qed.

Lemma quiet_now d : quiet d (now_ms d).1.
Proof. unfold now_ms. destruct (op_now _). apply quiet_paid. Qed.

Lemma quiet_payer {R} (f : Pay -> Pay * R) d i p : quiet d (on_payer f d i p).1.
Proof. unfold on_payer. destruct (f _). apply quiet_paid. Qed.

Lemma quiet_account d i f : quiet d (on_account d i f).
Proof. unfold on_account. destruct (payer_of d i); [apply quiet_paid|reflexivity]. Qed.

Lemma quiet_lane d l f : (forall x, inflight (f x) = inflight x) -> quiet d (with_sched d (upd_lane (d_sched d) l f)).
Proof. intros Hf. split; cbn; auto. intros Hi. by apply inv_upd_lane. Qed.

Lemma quiet_fund d i : quiet d (fund d i).
Proof. apply quiet_lane. intros x. by case_bool_decide. Qed.

Lemma quiet_foldl {A} (f : drive -> A -> drive) : (forall d x, quiet d (f d x)) -> forall l d, quiet d (foldl f d l).
Proof. intros Hf. induction l as [|x l IH]; intros d; [reflexivity|]. cbn [foldl]. etrans; [apply Hf|apply IH]. Qed.

Lemma quiet_settle_pass d : quiet d (settle_pass payment d).
Proof.
  unfold settle_pass. destruct payment; [|reflexivity]. apply quiet_foldl. intros x i. unfold settle_lane.
  destruct (payer_of x i); [|reflexivity]. destruct (_ && _); [apply quiet_payer|reflexivity].
Qed.

Lemma quiet_unpayable d i : quiet d (unpayable_402 d i).
Proof. unfold unpayable_402. destruct (payer_of d i); [|reflexivity]. destruct (_ <? _); [apply quiet_fund|reflexivity]. Qed.

(** Run a payment operation and go on with its answer. *)
Lemma quiet_then {R} (f : Pay -> Pay * R) d i p (k : drive -> R -> drive) :
  (forall d' r, quiet d' (k d' r)) -> quiet d (let '(d', r) := on_payer f d i p in k d' r).
Proof. intros Hk. pose proof (quiet_payer f d i p) as Hq. destruct (on_payer f d i p) as [d' r]. by etrans; [|apply Hk]. Qed.

Lemma quiet_reconcile d i : quiet d (reconcile_then_settle d i).
Proof.
  unfold reconcile_then_settle. destruct (payer_of d i); [|reflexivity].
  apply (quiet_then op_reconcile _ _ _ (fun d r => match r with Ok true => _ | Ok false => _ | Err _ => _ end)).
  intros d' [[]|]; [|apply quiet_unpayable|reflexivity]. destruct (payer_of d' i); [|reflexivity].
  apply (quiet_then op_settle _ _ _ (fun d r => match r with Ok (Some _) => _ | Ok None => _ | Err _ => _ end)).
  intros d'' [[]|]; [apply quiet_fund|apply quiet_unpayable|reflexivity].
Qed.

Lemma quiet_settle_after d i np : quiet d (settle_after d i np).
Proof.
  unfold settle_after. destruct (payer_of d i); [|reflexivity]. destruct (_ && _); [reflexivity|].
  apply (quiet_then op_settle _ _ _ (fun d r => match r with Ok (Some _) => _ | Ok None => _ | Err _ => _ end)).
  intros d' [[]|]; [apply quiet_fund| |reflexivity]. destruct np; [apply quiet_reconcile|reflexivity].
Qed.

(** ** Feeding the scheduler *)

Lemma admit_all chs : forall s, let s' := foldl admit_one s chs in
  (exists new, chunks s' = chunks s ++ new /\ Forall (fun c => addr c ∈ map fst chs /\ phase c = Pending) new) /\
  (forall a, is_Some (index s !! a) \/ a ∈ map fst chs -> is_Some (index s' !! a)) /\
  outstanding s' = outstanding s.
Proof.
  induction chs as [|ch chs IH]; intros s; cbv zeta; cbn [foldl map].
  - split; [exists []; by rewrite app_nil_r|]. split; [|done]. by intros a [|?%not_elem_of_nil].
  - destruct (IH (admit_one s ch)) as ((new & E1 & Hn) & Hidx & Eo).
    assert (Hw : Forall (fun c => addr c ∈ ch.1 :: map fst chs /\ phase c = Pending) new)
      by (eapply Forall_impl; [exact Hn|]; intros c [? ?]; split; [by right|done]).
    unfold admit_one in *. destruct (index s !! ch.1) as [ci|] eqn:Ei.
    + split; [by exists new|]. split; [|done]. intros a [?|[->|?]%elem_of_cons]; apply Hidx; eauto.
    + cbn [chunks index outstanding] in *. split; [|split; [|done]].
      * exists (mkChunk ch.1 ch.2 Pending 0 [] 0 false None :: new). split; [by rewrite E1, <- app_assoc|].
        constructor; [split; [left|done]|done].
      * intros a Ha. apply Hidx. destruct (decide (a = ch.1)) as [->|]; [left; rewrite lookup_insert_eq; eauto|].
        rewrite lookup_insert_ne by done. destruct Ha as [|[|]%elem_of_cons]; [by left|done|by right].
Qed.

Lemma hold_frames b : forall fs, let fs' := foldl hold_frame fs b in
  (forall a f, fs !! a = Some f -> fs' !! a = Some f) /\ (forall a, a ∈ map sc_addr b -> is_Some (fs' !! a)) /\
  ((forall a f, fs !! a = Some f -> sc_addr f = a) -> forall a f, fs' !! a = Some f -> sc_addr f = a).
Proof.
  induction b as [|c b IH]; intros fs; cbv zeta; cbn [foldl map]; [split; [done|]; split; [by intros a ?%not_elem_of_nil|done]|].
  destruct (IH (hold_frame fs c)) as (H1 & H2 & H3). unfold hold_frame in *.
  destruct (fs !! sc_addr c) as [f0|] eqn:Ef.
  - split; [done|]. split; [|done]. intros a [->|?]%elem_of_cons; eauto.
  - split; [|split].
    + intros a f Hf. apply H1. by rewrite lookup_insert_ne by congruence.
    + intros a [->|?]%elem_of_cons; [|auto]. exists c. apply H1. by rewrite lookup_insert_eq.
    + intros Hk. apply H3. intros a f [[<- <-]|[_ ?]]%lookup_insert_Some; auto.
Qed.

Definition chunk_of (c : StampedChunk) : bytes * Z := (sc_addr c, wrap 32 (Z.of_nat (length (sc_wire c)))).

Lemma dinv_window all acks d src b : DInv all acks d -> produce (d_source d) PUSH_WINDOW = (src, Ok b) ->
  DInv all acks (with_frames (with_sched (with_source d src false) (admit_chunks (d_sched d) (map chunk_of b)).1)
                   (foldl hold_frame (d_frames d) b)).
Proof.
  intros [H1 H2 _ Hk H4 H5 H6 H7] Ep. pose proof (produce_rest _ _ _ Ep) as Er.
  assert (Echs : map fst (map chunk_of b) = map sc_addr b) by (rewrite map_map; by apply map_ext).
  destruct (admit_all (map chunk_of b) (d_sched d)) as ((new & E1 & Hn) & Hidx & Eo).
  destruct (hold_frames b (d_frames d)) as (F1 & F2 & F3). rewrite Echs in *.
  change (foldl admit_one (d_sched d) (map chunk_of b)) with (admit_chunks (d_sched d) (map chunk_of b)).1 in *.
  assert (Hs : SInv (admit_chunks (d_sched d) (map chunk_of b)).1) by (by apply inv_admit).
  set (s' := (admit_chunks (d_sched d) (map chunk_of b)).1) in *.
  assert (Hold : forall ci x, chunks s' !! ci = Some x ->
    chunks (d_sched d) !! ci = Some x \/ (addr x ∈ map sc_addr b /\ phase x = Pending)).
  { intros ci x Hx. rewrite E1 in Hx. apply lookup_app_Some in Hx as [?|[_ Hx]]; [by left|right].
    by apply (Forall_lookup_1 _ _ _ _ Hn Hx). }
  split; cbn [d_sched d_source d_exhausted d_frames d_bytes d_posts with_sched with_frames with_source]; auto.
  - intros a Ha. destruct (H2 a Ha) as [Hr|Hi].
    + rewrite Er in Hr. apply elem_of_app in Hr as [Hr|Hr]; [right|by left].
      destruct (Hidx a ltac:(by right)) as [ci Hci]. apply (i_idx _ _ _ Hs) in Hci as (c & ? & ?). eauto.
    + right. destruct Hi as (ci & c & Hc & ?). exists ci, c. split; [|done]. rewrite E1. by apply lookup_app_l_Some.
  - done.
  - intros ci x Hx Hp. destruct (Hold ci x Hx) as [Hx'|[Hin _]]; [|by apply F2].
    destruct (H4 ci x Hx' Hp) as [f Hf]. exists f. by apply F1.
  - intros ci x Hx Hp. destruct (Hold ci x Hx) as [Hx'|[_ ?]]; [|congruence]. by apply (H5 ci).
  - intros k. rewrite Eo. specialize (H6 k). destruct (outstanding (d_sched d) !! k) as [[l cks]|] eqn:Ek; [|done].
    destruct H6 as (p & Hp & El & Em). exists p. split; [done|]. split; [done|]. rewrite Em.
    destruct (i_out _ _ _ H1 k l cks Ek) as (_ & _ & Hr). apply list_fmap_ext. intros i ci Hci.
    apply list_elem_of_lookup_2, Hr in Hci. rewrite E1. by rewrite lookup_total_app_l.
Qed.

Lemma dinv_refill all acks d d' r : DInv all acks d -> refill produce d = (d', Ok r) -> DInv all acks d'.
Proof.
  intros HD. unfold refill. destruct (d_exhausted d) eqn:Ex; [by intros [= <- _]|].
  destruct (produce (d_source d) PUSH_WINDOW) as [src [b|e]] eqn:Ep; [|done].
  pose proof (dinv_window all acks d src b HD Ep) as Hw. destruct b as [|c b].
  - intros [= <- _]. destruct Hw as [H1 H2 _ Hk H4 H5 H6 H7]. split; auto. by intros _; apply (produce_end (d_source d)).
  - intros Heq. by injection Heq as <- _.
Qed.

Lemma dinv_refill_loop all acks fuel : forall d d' r, DInv all acks d -> refill_loop produce fuel d = Some (d', Ok r) -> DInv all acks d'.
Proof.
  induction fuel as [|fuel IH]; intros d d' r HD; cbn [refill_loop];
    (destruct (d_exhausted d); [by intros [= <- _]|]); (destruct (_ <? _); [|by intros [= <- _]]); [done|].
  destruct (refill produce d) as [d1 [u|e]] eqn:Er; [|done]. intros Hl. by eapply IH, Hl; eapply dinv_refill.
Qed.

(** ** Handing out work *)

(** The addresses of the chunks after a call that adds none. *)
Lemma evolves_back_at cs cs' ci c' : evolves cs cs' -> length cs' = length cs -> cs' !! ci = Some c' ->
  exists c, cs !! ci = Some c /\ addr c' = addr c /\ (phase c = Done -> phase c' = Done).
Proof.
  intros He Hl Hc'. destruct (lookup_lt_is_Some_2 cs ci) as [c Hc]; [apply lookup_lt_Some in Hc'; lia|].
  destruct (He ci c Hc) as (c2 & Hc2 & Ea & Hst). assert (c2 = c') as -> by congruence. exists c. split; [done|]. split; [done|].
  intros Hd. rewrite (Hst (or_introl Hd)). done.
Qed.

(** A call of the scheduler, with the frames and the POSTs after it. *)
Lemma dinv_call hole hole' all acks d s' fs ps : DInvH hole all acks d -> SInv s' ->
  evolves (chunks (d_sched d)) (chunks s') -> length (chunks s') = length (chunks (d_sched d)) ->
  (forall ci c', chunks s' !! ci = Some c' -> phase c' = Done ->
     (exists c, chunks (d_sched d) !! ci = Some c /\ phase c = Done) \/ exists l, Some (LAck l (addr c') true) ∈ acks) ->
  (forall a f, fs !! a = Some f -> d_frames d !! a = Some f) ->
  (forall ci c', chunks s' !! ci = Some c' -> phase c' <> Done -> is_Some (d_frames d !! addr c') -> is_Some (fs !! addr c')) ->
  (forall b, match outstanding s' !! b with
             | Some (l, cks) => if bool_decide (hole' = Some (b, l, cks)) then ps !! b = None
                                else exists p, ps !! b = Some p /\ post_for (d_sched d) l cks p
             | None => ps !! b = None end) ->
  (forall b, d_bytes d !! b = match ps !! b with Some (l, fs, Some _) => Some (l, body_size fs) | _ => None end) ->
  DInvH hole' all acks (with_posts (with_frames (with_sched d s') fs) ps).
Proof.
  intros [H1 H2 H3 Hk H4 H5 H6 H7] Hs He Hl Hdn Hfs Hfs' Hp Hbs. split; cbn; auto.
  - intros a Ha. destruct (H2 a Ha) as [|(ci & c & Hc & Ea)]; [by left|right].
    destruct (He ci c Hc) as (c' & Hc' & Ea' & _). exists ci, c'. split; [done|congruence].
  - intros ci c' Hc' Hph. apply (Hfs' ci c' Hc' Hph). destruct (evolves_back_at _ _ ci c' He Hl Hc') as (c & Hc & -> & Hst).
    apply (H4 ci c Hc). auto.
  - intros ci c' Hc' Hph. destruct (evolves_back_at _ _ ci c' He Hl Hc') as (c & Hc & Ea & _).
    destruct (Hdn ci c' Hc' Hph) as [(c2 & Hc2 & Hd)|]; [|done]. rewrite Ea. assert (c2 = c) as -> by congruence. eauto.
  - intros b. specialize (Hp b). destruct (outstanding s' !! b) as [[l cks]|]; [|done]. case_bool_decide; [done|].
    destruct Hp as (p & Ep & El & Em). exists p. split; [done|]. split; [done|]. rewrite Em. apply list_fmap_ext.
    intros i ci _. destruct (chunks s' !! ci) as [c'|] eqn:Ec.
    + destruct (evolves_back_at _ _ ci c' He Hl Ec) as (c & Hc & Ea & _).
      by rewrite (list_lookup_total_correct _ _ _ Ec), (list_lookup_total_correct _ _ _ Hc).
    + rewrite !list_lookup_total_alt, Ec. apply lookup_ge_None in Ec. by rewrite (proj2 (lookup_ge_None (chunks (d_sched d)) ci)) by lia.
Qed.

Lemma frames_same (d : drive) : with_frames d (d_frames d) = d.
Proof. by destruct d. Qed.

(** A call that completes no chunk. *)
Lemma dinv_moved hole hole' all acks d s' ps : DInvH hole all acks d -> SInv s' ->
  evolves (chunks (d_sched d)) (chunks s') -> back (chunks (d_sched d)) (chunks s') ->
  (forall b, match outstanding s' !! b with
             | Some (l, cks) => if bool_decide (hole' = Some (b, l, cks)) then ps !! b = None
                                else exists p, ps !! b = Some p /\ post_for (d_sched d) l cks p
             | None => ps !! b = None end) ->
  (forall b, d_bytes d !! b = match ps !! b with Some (l, fs, Some _) => Some (l, body_size fs) | _ => None end) ->
  DInvH hole' all acks (with_posts (with_sched d s') ps).
Proof.
  intros HD Hs He [Hl Hb] Hp Hbs. rewrite <- (frames_same (with_sched d s')). eapply dinv_call; eauto.
  intros ci c' Hc' Hd. destruct (Hb ci c' Hc') as (c & Hc & _ & Hd'). eauto.
Qed.

(** The state in which an assignment is to be placed. *)
Definition Taken (all : list bytes) (acks : list (option LaneEv)) (a : Assignment) (d : drive) : Prop :=
  DInvH (Some (a_batch a, a_lane a, a_chunks a)) all acks d /\
  outstanding (d_sched d) !! a_batch a = Some (a_lane a, a_chunks a) /\
  forall ci, ci ∈ a_chunks a -> exists c, chunks (d_sched d) !! ci = Some c /\ phase c <> Done.

Lemma taken_quiet all acks a d d' : Taken all acks a d -> quiet d d' -> Taken all acks a d'.
Proof. intros (H1 & H2 & H3) Hq. split; [by eapply dinv_quiet|]. rewrite (q_out _ _ Hq), (q_chunks _ _ Hq). done. Qed.

Lemma quiet_resize d i s : quiet d (with_sched d s) -> quiet d (with_sched d (resize_lane frames_fuel d s i)).
Proof.
  intros Hq. unfold resize_lane. destruct (payer_of d i); [|done]. destruct (cap_known _); [|done].
  destruct (affordable_frames _ _); [|done]. destruct (_ && _); [|done]. etrans; [exact Hq|].
  by apply (quiet_lane (with_sched d s) i).
Qed.
Lemma quiet_resize_all d l : forall s, quiet d (with_sched d s) -> quiet d (with_sched d (foldl (resize_lane frames_fuel d) s l)).
Proof. induction l as [|i l IH]; intros s Hq; [done|]. cbn [foldl]. by apply IH, quiet_resize. Qed.

Definition sized_for_dispatch (d : drive) : drive :=
  if payment then with_sched d (foldl (resize_lane frames_fuel d) (d_sched d) (seq 0 (length (d_payers d)))) else d.
Lemma quiet_sized d : quiet d (sized_for_dispatch d).
Proof. unfold sized_for_dispatch. destruct payment; [|reflexivity]. apply quiet_resize_all. by destruct d. Qed.

Lemma try_next_eq d : try_next payment ln iter_order frames_fuel d =
  let d := sized_for_dispatch d in
  if anyone_can_take_work payment d then
    let d1 := (now_ms d).1 in
    let r := next ln (iter_order (d_world d1)) (d_sched d1) (now_ms d).2 in (with_sched d1 r.1, r.2)
  else (d, None).
Proof.
  unfold try_next. fold (sized_for_dispatch d). cbv zeta. destruct (anyone_can_take_work _ _); [|done].
  destruct (now_ms _) as [d1 now]. cbn [fst snd]. by destruct (next _ _ _ _).
Qed.

Lemma posts_same (d : drive) : with_posts d (d_posts d) = d.
Proof. by destruct d. Qed.

Lemma try_next_inv all acks d : DInv all acks d ->
  match try_next payment ln iter_order frames_fuel d with
  | (d', Some a) => Taken all acks a d'
  | (d', None) => DInv all acks d'
  end.
Proof.
  intros HD. rewrite try_next_eq. cbv zeta. set (d0 := sized_for_dispatch d).
  assert (HD0 : DInv all acks d0) by (eapply dinv_quiet; [exact HD|apply quiet_sized]).
  destruct (anyone_can_take_work payment d0); [|done].
  pose proof (dinv_quiet _ _ _ _ _ HD0 (quiet_now d0)) as HD1. set (d1 := (now_ms d0).1) in *. set (now := (now_ms d0).2).
  pose proof (dv_sched _ _ _ _ HD1) as HI. pose proof (iter_perm (d_world d1)) as Hit.
  destruct (next_ok ln _ Hit (d_sched d1) now HI) as [HI' Hok].
  pose proof (evolves_next ln _ (d_sched d1) now Hit HI) as He. pose proof (back_next ln (iter_order (d_world d1)) (d_sched d1) now) as Hb.
  destruct (next ln _ (d_sched d1) now).2 as [a|] eqn:Ea.
  - destruct (Hok a eq_refl) as [Hasg _]. clear Hok.
    destruct (next_dispatches ln _ _ _ _ Ea) as (s1 & Hv & Eo & _ & _ & _ & En & Eb & Es).
    assert (Eout : outstanding (next ln (iter_order (d_world d1)) (d_sched d1) now).1 = <[a_batch a := (a_lane a, a_chunks a)]> (outstanding (d_sched d1)))
      by (rewrite Es; cbn [dispatch fst outstanding]; by rewrite En, Eo, Eb).
    assert (Hnew : outstanding (d_sched d1) !! a_batch a = None).
    { destruct (outstanding (d_sched d1) !! a_batch a) as [[l cks]|] eqn:Ek; [|done]. apply (i_out _ _ _ HI) in Ek as [Hlt _]. lia. }
    split; [|split].
    + rewrite <- (posts_same (with_sched _ _)). cbn [d_posts with_sched]. eapply dinv_moved; eauto; [|exact (dv_bytes _ _ _ _ HD1)].
      intros b. rewrite Eout. pose proof (dv_posts _ _ _ _ HD1 b) as Hp. destruct (decide (b = a_batch a)) as [->|Hne].
      * rewrite lookup_insert_eq, bool_decide_eq_true_2 by done. by rewrite Hnew in Hp.
      * rewrite lookup_insert_ne by done. destruct (outstanding (d_sched d1) !! b) as [[l cks]|]; [|done].
        rewrite bool_decide_eq_false_2 by congruence. by rewrite bool_decide_eq_false_2 in Hp by done.
    + cbn [d_sched with_sched]. rewrite Eout. apply lookup_insert_eq.
    + intros ci Hci. destruct (as_phase _ _ _ Hasg ci Hci) as (c & Hc & Hph).
      destruct (He ci c Hc) as (c' & Hc' & _). exists c'. split; [done|]. destruct (proj2 Hb ci c' Hc') as (c2 & Hc2 & _ & Hd).
      intros Hdn. specialize (Hd Hdn). assert (c2 = c) as -> by (cbn in Hc; congruence). destruct (a_hedge a); [destruct Hph|]; congruence.
  - rewrite <- (posts_same (with_sched _ _)). cbn [d_posts with_sched]. eapply dinv_moved; eauto; [|exact (dv_bytes _ _ _ _ HD1)].
    intros b. rewrite (next_none _ _ _ _ Ea). exact (dv_posts _ _ _ _ HD1 b).
Qed.

(** The body of an assignment holds the frames of its chunks, all of them and in order. *)
Lemma frames_of_chunks all acks a d : Taken all acks a d ->
  map sc_addr (batch_frames d a) = map (fun ci => addr (chunks (d_sched d) !!! ci)) (a_chunks a).
Proof.
  intros (HD & _ & Hnd). unfold batch_frames. pose proof (dv_frames _ _ _ _ HD) as Hf. pose proof (dv_keys _ _ _ _ HD) as Hk.
  clear HD. revert Hnd. induction (a_chunks a) as [|ci cks IH]; intros Hnd; [done|].
  destruct (Hnd ci ltac:(left)) as (c & Hc & Hp). cbn [omap list_omap map]. rewrite (list_lookup_total_correct _ _ _ Hc).
  destruct (Hf ci c Hc Hp) as [f Ef]. rewrite Ef. cbn [map].
  rewrite (Hk _ _ Ef). f_equal. apply IH. intros x Hx. apply Hnd. by right.
Qed.

Definition booked (d : drive) (a : Assignment) (fs : list StampedChunk) (challenge : option str) : drive :=
  match challenge with Some _ => with_bytes d (<[a_batch a := (a_lane a, body_size fs)]> (d_bytes d)) | None => d end.

Lemma spawn_inv all acks a d fs ch : Taken all acks a d ->
  map sc_addr fs = map (fun ci => addr (chunks (d_sched d) !!! ci)) (a_chunks a) -> DInv all acks (spawn (booked d a fs ch) a fs ch).
Proof.
  intros ([H1 H2 H3 Hk H4 H5 H6 H7] & Ho & _) Hfs.
  assert (Hn : d_posts d !! a_batch a = None).
  { specialize (H6 (a_batch a)). rewrite Ho, bool_decide_eq_true_2 in H6 by done. done. }
  assert (Ed : d_bytes d !! a_batch a = None) by (by rewrite H7, Hn).
  assert (Hb : d_sched (booked d a fs ch) = d_sched d /\ d_source (booked d a fs ch) = d_source d /\ d_frames (booked d a fs ch) = d_frames d /\
    d_exhausted (booked d a fs ch) = d_exhausted d /\ d_posts (booked d a fs ch) = d_posts d) by (by destruct ch).
  destruct Hb as (E1 & E2 & E3 & E4 & E5).
  split; unfold spawn; cbn [d_sched d_source d_exhausted d_frames d_bytes d_posts with_posts]; rewrite ?E1, ?E2, ?E3, ?E4, ?E5; auto.
  - intros b. specialize (H6 b). destruct (decide (b = a_batch a)) as [->|Hne].
    + rewrite Ho, lookup_insert_eq, bool_decide_eq_false_2 by done. eexists. split; [done|]. by split.
    + rewrite lookup_insert_ne by done. destruct (outstanding (d_sched d) !! b) as [[l cks]|]; [|done].
      rewrite bool_decide_eq_false_2 by done. by rewrite bool_decide_eq_false_2 in H6 by congruence.
  - intros b. destruct (decide (b = a_batch a)) as [->|Hne].
    + rewrite lookup_insert_eq. destruct ch; [apply lookup_insert_eq|done].
    + rewrite lookup_insert_ne by done. rewrite <- H7. destruct ch; [by apply lookup_insert_ne|done].
Qed.

(** A batch that ends gives the chunks that are not done back to the scheduler. *)
Lemma close_inv b l cks all acks d o now : DInvH (Some (b, l, cks)) all acks d -> outstanding (d_sched d) !! b = Some (l, cks) ->
  DInv all acks (with_sched d (on_batch_result (d_sched d) b o now)).
Proof.
  intros HD Ho. pose proof (dv_sched _ _ _ _ HD) as HI. pose proof (dv_posts _ _ _ _ HD b) as Hb. rewrite Ho, bool_decide_eq_true_2 in Hb by done.
  rewrite <- (posts_same (with_sched _ _)). cbn [d_posts with_sched].
  eapply dinv_moved; [exact HD|by apply inv_on_batch_result|exact (evolves_step ln _ _ HI (st_result ln _ b o now))|apply back_batch_result| |
    exact (dv_bytes _ _ _ _ HD)].
  intros k. rewrite batch_result_out. destruct (decide (k = b)) as [->|Hne]; [by rewrite lookup_delete_eq|].
  rewrite lookup_delete_ne by done. pose proof (dv_posts _ _ _ _ HD k) as Hp.
  destruct (outstanding (d_sched d) !! k) as [[l' cks']|]; [|done]. rewrite bool_decide_eq_false_2 by done.
  by rewrite bool_decide_eq_false_2 in Hp by congruence.
Qed.

Lemma hand_back_inv all acks a d : Taken all acks a d -> DInv all acks (hand_back d (a_batch a)).
Proof.
  intros HT. pose proof (taken_quiet _ _ _ _ _ HT (quiet_now d)) as HT'. unfold hand_back. destruct (now_ms d) as [d1 now]. cbn [fst] in HT'.
  destruct HT' as (HD & Ho & _). by eapply close_inv.
Qed.

Lemma place_inv all acks a d : Taken all acks a d -> DInv all acks (place payment frames_fuel d a).1.
Proof.
  intros HT. unfold place. pose proof (frames_of_chunks _ _ _ _ HT) as Hfs.
  destruct (if payment then payer_of d (a_lane a) else None) as [p|]; [|exact (spawn_inv _ _ _ _ _ None HT Hfs)].
  destruct (no_room frames_fuel p); [by apply hand_back_inv|]. cbv zeta.
  assert (Hq : quiet d (make_room d (a_lane a) p (body_size (batch_frames d a))).1)
    by (unfold make_room; destruct (Payer.would_exceed _ _); [apply quiet_payer|reflexivity]).
  destruct (make_room _ _ _ _) as [d1 p1]. cbn [fst] in Hq.
  destruct (Payer.would_exceed p1 _); [apply hand_back_inv; by eapply taken_quiet|].
  pose proof (quiet_payer op_header d1 (a_lane a) p1) as Hq1. destruct (on_payer op_header d1 (a_lane a) p1) as [d2 [h|e]]; cbn [fst] in *;
    [|apply hand_back_inv; eapply taken_quiet; [exact HT|by etrans]].
  set (d3 := on_account d2 _ _). assert (Hq3 : quiet d d3) by (etrans; [exact Hq|]; etrans; [exact Hq1|apply quiet_account]).
  apply (spawn_inv all acks a d3 (batch_frames d a) (Some h)); [by eapply taken_quiet|]. by rewrite (q_chunks _ _ Hq3).
Qed.

Lemma dispatch_loop_inv all acks fuel : forall d d', DInv all acks d ->
  dispatch_loop payment ln iter_order frames_fuel fuel d = Some d' -> DInv all acks d'.
Proof.
  induction fuel as [|fuel IH]; intros d d' HD; cbn [dispatch_loop]; [done|].
  pose proof (try_next_inv all acks d HD) as Hn. destruct (try_next _ _ _ _ d) as [d1 [a|]]; [|by intros [= <-]].
  pose proof (place_inv all acks a d1 Hn) as Hp. destruct (place _ _ d1 a) as [d2 []]; cbn [fst] in Hp; [by apply IH|by apply IH|by intros [= <-]].
Qed.

(** ** Events *)

Lemma ack_inv all acks d lane a ok : DInv all acks d -> Some (LAck lane a ok) ∈ acks -> DInv all acks (on_event payment d (LAck lane a ok)).
Proof.
  intros HD Hin. unfold on_event. cbv zeta. pose proof (quiet_now d) as Hq. pose proof (dinv_quiet _ _ _ _ _ HD Hq) as HD1.
  pose proof (q_acked _ _ Hq) as Eak. destruct (now_ms d) as [d1 now]. cbn [fst] in *. rewrite <- Eak.
  pose proof (dv_sched _ _ _ _ HD1) as HI. pose proof (inv_on_ack _ lane a ok now HI) as HI'.
  pose proof (evolves_on_ack (d_sched d1) lane a ok now HI) as He.
  destruct (ack_shape (d_sched d1) lane a ok now) as (Hl & Ho & [[Ea Hb]|(-> & Ea & ci & Hci & Hdone & Hoth)]).
  - cbn [d_sched with_sched]. rewrite Ea, Nat.ltb_irrefl. rewrite <- (posts_same (with_sched _ _)).
    eapply dinv_moved; eauto; [|exact (dv_bytes _ _ _ _ HD1)]. intros b. rewrite Ho. exact (dv_posts _ _ _ _ HD1 b).
  - cbn [d_sched with_sched d_frames]. rewrite Ea, (proj2 (Nat.ltb_lt _ _)) by lia.
    apply (i_idx _ _ _ HI) in Hci as (c & Hc & Eadd). destruct (He ci c Hc) as (c1 & Hc1 & Ea1 & _).
    rewrite <- (posts_same (with_frames _ _)). eapply dinv_call; eauto; [| | | |exact (dv_bytes _ _ _ _ HD1)].
    + intros j c' Hc' Hd. destruct (decide (j = ci)) as [->|Hne]; [right|left; eauto].
      exists lane. assert (c' = c1) as -> by congruence. by rewrite Ea1, Eadd.
    + intros x f [_ ?]%lookup_delete_Some. done.
    + intros j c' Hc' Hph [f Hf]. exists f. apply lookup_delete_Some. split; [|done]. intros Ex. apply Hph.
      assert (j = ci) as ->; [|eauto].
      assert (index (on_ack (d_sched d1) lane a true now) !! a = Some j) by (apply (i_idx _ _ _ HI'); eauto).
      assert (index (on_ack (d_sched d1) lane a true now) !! a = Some ci) by (apply (i_idx _ _ _ HI'); exists c1; split; congruence).
      congruence.
    + intros b. rewrite Ho. exact (dv_posts _ _ _ _ HD1 b).
Qed.

(** The POST of a batch is over, its result is not yet in the scheduler. *)
Definition post_gone (d : drive) (b : nat) : drive := with_bytes (with_posts d (delete b (d_posts d))) (delete b (d_bytes d)).

Lemma post_over all acks d b lane cks : DInv all acks d -> outstanding (d_sched d) !! b = Some (lane, cks) ->
  DInvH (Some (b, lane, cks)) all acks (post_gone d b).
Proof.
  intros [H1 H2 H3 Hk H4 H5 H6 H7] Eo. split; cbn; auto.
  - intros k. specialize (H6 k). destruct (decide (k = b)) as [->|Hne].
    + by rewrite Eo, bool_decide_eq_true_2, lookup_delete_eq by done.
    + rewrite lookup_delete_ne by done. destruct (outstanding (d_sched d) !! k) as [[l' cks']|]; [|done].
      rewrite bool_decide_eq_false_2 by congruence. by rewrite bool_decide_eq_false_2 in H6 by done.
  - intros k. destruct (decide (k = b)) as [->|Hne]; [by rewrite !lookup_delete_eq|]. by rewrite !lookup_delete_ne.
Qed.

Lemma post_unknown all acks d b : DInv all acks d -> outstanding (d_sched d) !! b = None -> post_gone d b = d.
Proof.
  intros HD Eo. pose proof (dv_posts _ _ _ _ HD b) as Hp. rewrite Eo in Hp. pose proof (dv_bytes _ _ _ _ HD b) as Hb. rewrite Hp in Hb.
  unfold post_gone. rewrite !delete_id by done. by destruct d.
Qed.

Lemma quiet_bill d b lane rr dd : quiet (with_bytes d (delete b (d_bytes d))) (bill d b lane rr dd).
Proof. unfold bill. cbv zeta. destruct (d_bytes d !! b) as [[? ?]|]; [apply quiet_account|reflexivity]. Qed.

Lemma timing_inflight n ms l : inflight ((fun l => let ms := f64_of_Z (Z.max ms 1) in let b := ewma (batch_ms l) ms in
    if Nat.ltb n RATE_MIN_SAMPLE then set_timing (rate l) b l
    else set_timing (ewma (rate l) (f64_div (f64_mul (f64_of_Z (Z.of_nat n)) (f64_of_Z 1000)) ms)) b l) l) = inflight l.
Proof. cbv zeta. by destruct (Nat.ltb _ _). Qed.

Lemma done_inv all acks d b lane n ms o dd : DInv all acks d -> DInv all acks (on_event payment d (LDone b lane n ms o dd)).
Proof.
  intros HD. unfold on_event. cbv zeta. set (d1 := with_sched _ (on_batch_timing _ _ _ _)). set (d2 := bill d1 _ _ _ _).
  assert (Hq : quiet (post_gone d b) (now_ms d2).1).
  { etrans; [|apply quiet_now]. etrans; [|apply quiet_bill]. exact (quiet_lane (post_gone d b) lane _ (timing_inflight n ms)). }
  pose proof (q_out _ _ Hq) as Eo. destruct (now_ms d2) as [d3 now]. cbn [fst] in *.
  assert (HD4 : DInv all acks (with_sched d3 (on_batch_result (d_sched d3) b o now))).
  { change (outstanding (d_sched (post_gone d b))) with (outstanding (d_sched d)) in Eo.
    destruct (outstanding (d_sched d) !! b) as [[l cks]|] eqn:Eb.
    - eapply close_inv; [eapply dinv_quiet; [by apply post_over|exact Hq]|by rewrite Eo].
    - unfold on_batch_result. rewrite Eo, Eb. rewrite (post_unknown _ _ _ _ HD Eb) in Hq. eapply dinv_quiet; [exact HD|]. by destruct d3. }
  destruct payment; [|done]. eapply dinv_quiet; [exact HD4|apply quiet_settle_after].
Qed.

Lemma event_inv all acks d ev : DInv all acks d -> Some ev ∈ acks -> DInv all acks (on_event payment d ev).
Proof. intros HD Hin. destruct ev; [by apply ack_inv|by apply done_inv]. Qed.

(** ** The run *)

Lemma quiet_verdict d : quiet d (verdict d).1.
Proof.
  assert (Hn : forall (d : drive), quiet d (now_ms d).1) by apply quiet_now.
  unfold verdict. destruct (_ && _); [reflexivity|]. destruct (Nat.eqb _ _); [|reflexivity]. destruct (sched_done _); [reflexivity|].
  pose proof (Hn d) as H1. destruct (now_ms d) as [d1 n1]. cbn [fst] in H1. destruct (stalled _ _); [done|].
  pose proof (Hn d1) as H2. destruct (now_ms d1) as [d2 n2]. cbn [fst] in H2. destruct (next_wake_ms _ _); [|by etrans].
  pose proof (Hn d2) as H3. destruct (now_ms d2) as [d3 n3]. cbn [fst] in H3. destruct (_ <? _); (etrans; [exact H1|by etrans]).
Qed.

(** The last settlements leave the scheduler as it was. *)
Lemma finish_sched (d : drive) : d_sched (finish (E := E) payment d).1 = d_sched d /\
  (finish (E := E) payment d).2 = if Nat.ltb (acked (d_sched d)) (length (chunks (d_sched d)))
                         then Err (Unacked (length (chunks (d_sched d)) - acked (d_sched d))) else (Ok tt : result unit (DriveError (E := E))).
Proof.
  assert (Hs : forall (f : drive -> nat -> drive) l x, (forall d i, d_sched (f d i) = d_sched d) -> d_sched (foldl f x l) = d_sched x).
  { intros f l. induction l as [|i l IH]; intros x Hf; [done|]. cbn [foldl]. by rewrite IH, Hf. }
  assert (Ha : forall (l : list (nat * (nat * Z))) (x : drive),
    d_sched (foldl (fun d bn => on_account d bn.2.1 (fun ac => record_answered ac bn.2.2 true)) x l) = d_sched x).
  { induction l as [|i l IH]; intros x; [done|]. cbn [foldl]. rewrite IH. unfold on_account. by destruct (payer_of _ _). }
  assert (Ef : d_sched (finish (E := E) payment d).1 = d_sched d).
  { unfold finish. destruct payment; [|done]. cbn [fst]. rewrite Hs; [exact (Ha _ d)|]. intros x i. unfold final_settle.
    destruct (payer_of x i); [|done]. unfold on_payer. by destruct (op_settle _). }
  split; [done|]. unfold finish in *. cbn [fst snd] in *. by rewrite Ef.
Qed.

Lemma verdict_finish (d d' : drive) : verdict d = (d', VFinish) -> d_exhausted d = true \/ sched_done (d_sched d) = false.
Proof.
  unfold verdict. destruct (sched_done (d_sched d)) eqn:Es; [|by right]. destruct (d_exhausted d) eqn:Ex; [by left|]. cbn [andb].
  by destruct (Nat.eqb _ _).
Qed.
Lemma verdict_wait (d d' : drive) v : verdict d = (d', v) -> match v with VWait => in_flight (d_sched d) <> 0%nat | VStalled _ => in_flight (d_sched d) = 0%nat | _ => True end.
Proof.
  unfold verdict. destruct (_ && _); [by intros [= _ <-]|]. destruct (Nat.eqb_spec (in_flight (d_sched d)) 0) as [E0|]; [|by intros [= _ <-]].
  destruct (sched_done _); [by intros [= _ <-]|]. destruct (now_ms d) as [d1 n1]. destruct (stalled _ _); [by intros [= _ <-]|].
  destruct (now_ms d1) as [d2 n2]. destruct (next_wake_ms _ _); [|by intros [= _ <-]]. destruct (now_ms d2) as [d3 n3].
  destruct (_ <? _); by intros [= _ <-].
Qed.

Lemma count_full cs : count Done cs = length cs -> forall ci c, cs !! ci = Some c -> phase c = Done.
Proof.
  intros Hf ci c Hc. destruct (decide (phase c = Done)) as [|Hne]; [done|]. pose proof (count_total cs) as Ht.
  pose proof (count_pos (phase c) cs ci c Hc eq_refl) as Hp. destruct (phase c); try done; lia.
Qed.
Lemma count_Done_le cs : (count Done cs <= length cs)%nat.
Proof. pose proof (count_total cs). lia. Qed.

(** A POST is open exactly while its batch is outstanding. *)
Lemma posts_open all acks d : DInv all acks d -> in_flight (d_sched d) = 0%nat <-> d_posts d = ∅.
Proof.
  intros HD. unfold in_flight. rewrite map_size_empty_iff. split; intros He; apply map_eq; intros b; rewrite lookup_empty;
    pose proof (dv_posts _ _ _ _ HD b) as Hp; rewrite He, lookup_empty in Hp; [done|].
  destruct (outstanding _ !! b) as [[l cks]|]; [|done]. rewrite bool_decide_eq_false_2 in Hp by done. by destruct Hp as (? & ? & _).
Qed.

(** What a run establishes, by how it ends. *)
Definition run_ok (all : list bytes) (acks : list (option LaneEv)) (o : Driven (W := W) (Src := Src) (E := E)) : Prop :=
  match o with
  | Returned _ (Ok _) => forall a, a ∈ all -> exists l, Some (LAck l a true) ∈ acks
  | Returned d (Err (DrStalled _)) => d_posts d = ∅
  | Returned d (Err (Unacked n)) => (0 < n /\ n + count Done (chunks (d_sched d)) = length (chunks (d_sched d)))%nat
  | Returned _ (Err _) => True
  | Awaiting d => DInv all acks d /\ d_posts d <> ∅
  | OutOfFuel => True
  end.

Lemma finish_run_ok all acks d d0 : DInv all acks d -> verdict d0 = (d, VFinish) -> quiet d0 d ->
  run_ok all acks (let '(d, r) := finish payment d in Returned d r).
Proof.
  intros HD Hv Hq. destruct (finish_sched d) as [Es Er]. destruct (finish payment d) as [d' r]. cbn [fst snd] in *. subst r.
  pose proof (dv_sched _ _ _ _ HD) as HI. pose proof (i_done _ _ _ HI) as Hd. pose proof (count_Done_le (chunks (d_sched d))) as Hle.
  destruct (Nat.ltb_spec (acked (d_sched d)) (length (chunks (d_sched d)))) as [Hlt|Hge]; cbn [run_ok]; [rewrite Es; lia|].
  intros a Ha. assert (Hfull : count Done (chunks (d_sched d)) = length (chunks (d_sched d))) by lia.
  assert (Hex : d_exhausted d = true).
  { rewrite (q_ex _ _ Hq). apply verdict_finish in Hv as [?|Hs]; [done|]. unfold sched_done in Hs.
    rewrite <- (q_chunks _ _ Hq), <- (q_acked _ _ Hq) in Hs. apply Nat.leb_gt in Hs. lia. }
  destruct (dv_all _ _ _ _ HD a Ha) as [Hr|(ci & c & Hc & <-)]; [rewrite (dv_end _ _ _ _ HD Hex) in Hr; by apply not_elem_of_nil in Hr|].
  apply (dv_done _ _ _ _ HD ci c Hc). by eapply count_full.
Qed.

Lemma loop_ok all acks fuel : forall d wakes, DInv all acks d -> (forall w, w ∈ wakes -> w ∈ acks) ->
  run_ok all acks (drive_loop payment produce ln iter_order frames_fuel fuel d wakes).
Proof.
  induction fuel as [|fuel IH]; intros d wakes HD Hw; [done|]. cbn [drive_loop].
  destruct (refill_loop produce fuel d) as [[d1 [u|e]]|] eqn:Er; [|done|done].
  pose proof (dinv_refill_loop _ _ _ _ _ _ HD Er) as HD1.
  pose proof (dinv_quiet _ _ _ _ _ HD1 (quiet_settle_pass d1)) as HD1'.
  destruct (dispatch_loop _ _ _ _ fuel _) as [d2|] eqn:Ed; [|done].
  pose proof (dispatch_loop_inv _ _ _ _ _ HD1' Ed) as HD2. pose proof (quiet_verdict d2) as Hq.
  destruct (verdict d2) as [d3 v] eqn:Ev. cbn [fst] in Hq. pose proof (dinv_quiet _ _ _ _ _ HD2 Hq) as HD3. pose proof (verdict_wait _ _ _ Ev) as Hwt.
  destruct v.
  - by eapply finish_run_ok.
  - by apply IH.
  - cbn [run_ok]. rewrite (q_posts _ _ Hq). by apply (posts_open _ _ _ HD2).
  - pose proof (quiet_now d3) as Hq4. pose proof (dinv_quiet _ _ _ _ _ HD3 Hq4) as HD4. destruct (now_ms d3) as [d4 now]. cbn [fst] in *.
    destruct wakes as [|[ev|] wakes]; cbn [run_ok].
    + split; [done|]. rewrite (q_posts _ _ Hq4), (q_posts _ _ Hq). by rewrite <- (posts_open _ _ _ HD2).
    + apply IH; [apply event_inv; [done|apply Hw; by left]|intros x Hx; apply Hw; by right].
    + apply IH; [done|intros x Hx; apply Hw; by right].
Qed.

(** *** The first state *)

(** What setting up leaves empty. *)
Definition fresh_with (src : Src) (d : drive) : Prop :=
  d_frames d = ∅ /\ d_bytes d = ∅ /\ d_posts d = ∅ /\ d_source d = src /\ d_exhausted d = false.

Lemma fresh_quiet src d d' : quiet d d' -> fresh_with src d -> fresh_with src d'.
Proof. intros [] (? & ? & ? & ? & ?). split_and!; congruence. Qed.

Lemma setup_fresh src st i : fresh_with src st.1 -> fresh_with src (setup_lane frames_fuel st i).1.
Proof.
  destruct st as [d infos]. intros Hf. unfold setup_lane. destruct (payer_of d i) as [p|]; [|done].
  pose proof (quiet_payer op_header d i p) as Hq. destruct (on_payer op_header d i p) as [d1 [h|e]]; cbn [fst] in *; [|by eapply fresh_quiet].
  eapply fresh_quiet; [apply quiet_payer|]. destruct (fresh_quiet src d d1 Hq Hf) as (? & ? & ? & ? & ?). by split_and!.
Qed.

Lemma start_drive_inv acks w st dk src scfg lanes d : start payment frames_fuel w st dk src scfg lanes = Some d -> DInv (rest src) acks d.
Proof.
  unfold start. cbv zeta. destruct (_ && _); [done|]. set (infos := map (fun l => l.2.1) lanes). set (bad := unusable _ _). set (d0 := mkDrive _ _ _ _ _ _ _ _ _ _ _).
  assert (Hf : forall l x, fresh_with src x.1 -> fresh_with src (foldl (setup_lane frames_fuel) x l).1).
  { induction l as [|i l IH]; intros x Hx; [done|]. cbn [foldl]. by apply IH, setup_fresh. }
  assert (H1 : fresh_with src (if payment then foldl (setup_lane frames_fuel) (d0, infos) (seq 0 (length lanes)) else (d0, infos)).1)
    by (destruct payment; [by apply Hf|done]).
  destruct (if payment then _ else _) as [d1 infos1]. cbn [fst] in H1. intros Hd. apply (inj Some) in Hd as <-.
  destruct H1 as (E1 & E2 & E3 & E4 & E5).
  assert (Hr : forall l s, SInv s /\ chunks s = [] /\ outstanding s = ∅ ->
    SInv (foldl retire_lane s l) /\ chunks (foldl retire_lane s l) = [] /\ outstanding (foldl retire_lane s l) = ∅).
  { induction l as [|i l IH]; intros s (? & ? & ?); [done|]. cbn [foldl]. apply IH. split; [by apply inv_upd_lane|done]. }
  destruct (Hr bad (sched_new infos1 scfg)) as (HI & Ec & Eo).
  { split; [exact (inv_reachable ln _ (r_new ln infos1 scfg AllAcked))|done]. }
  split; cbn [d_sched d_source d_exhausted d_frames d_bytes d_posts with_sched]; rewrite ?Ec, ?Eo, ?E1, ?E2, ?E3, ?E4, ?E5; try done.
  by left.
Qed.

(** ** The loops end *)

Lemma now_sched (d : drive) : d_sched (now_ms d).1 = d_sched d.
Proof. unfold now_ms. by destruct (op_now _). Qed.
Lemma payer_sched {R} (f : Pay -> Pay * R) (d : drive) i p : d_sched (on_payer f d i p).1 = d_sched d.
Proof. unfold on_payer. by destruct (f _). Qed.
Lemma account_sched (d : drive) i f : d_sched (on_account d i f) = d_sched d.
Proof. unfold on_account. by destruct (payer_of d i). Qed.

Lemma room_sized (d : drive) : room (d_sched (sized_for_dispatch d)) = room (d_sched d).
Proof.
  unfold sized_for_dispatch. destruct payment; [|done]. cbn [d_sched with_sched]. generalize (d_sched d) as s.
  induction (seq 0 _) as [|i l IH]; intros s; [done|]. cbn [foldl]. rewrite IH. unfold resize_lane. repeat case_match; try done.
  unfold room. cbn [set_lane_batch_max upd_lane set_lanes lanes cfg]. f_equal. by apply map_alter_same.
Qed.

Lemma room_hand_back (d : drive) b : (room (d_sched (hand_back d b)) <= room (d_sched d))%nat.
Proof.
  unfold hand_back. pose proof (now_sched d) as En. destruct (now_ms d) as [d1 now]. cbn [fst d_sched with_sched] in *.
  rewrite En. apply room_batch_back.
Qed.

Lemma room_place (d : drive) a : (room (d_sched (place payment frames_fuel d a).1) <= room (d_sched d))%nat.
Proof.
  unfold place. destruct (if payment then _ else _) as [p|]; [|done]. destruct (no_room _ _); [apply room_hand_back|]. cbv zeta.
  assert (Em : d_sched (make_room d (a_lane a) p (body_size (batch_frames d a))).1 = d_sched d)
    by (unfold make_room; destruct (Payer.would_exceed _ _); [apply payer_sched|done]).
  destruct (make_room _ _ _ _) as [d1 p1]. cbn [fst] in Em. rewrite <- Em. destruct (Payer.would_exceed _ _); [apply room_hand_back|].
  pose proof (payer_sched op_header d1 (a_lane a) p1) as Eh. destruct (on_payer op_header _ _ _) as [d2 [h|e]]; cbn [fst] in *; rewrite <- Eh;
    [|apply room_hand_back]. cbn [d_sched spawn with_posts with_bytes]. by rewrite account_sched.
Qed.

Lemma room_try_next all acks d d' a : DInv all acks d -> try_next payment ln iter_order frames_fuel d = (d', Some a) ->
  (room (d_sched d') < room (d_sched d))%nat.
Proof.
  intros HD. rewrite try_next_eq. cbv zeta. destruct (anyone_can_take_work _ _); [|done]. set (d0 := sized_for_dispatch d) in *.
  assert (HI : SInv (d_sched (now_ms d0).1)) by (rewrite now_sched; apply (q_inv _ _ (quiet_sized d)), (dv_sched _ _ _ _ HD)).
  intros Heq. injection Heq as <- Ha. cbn [d_sched with_sched]. rewrite <- (room_sized d). fold d0. rewrite <- (now_sched d0).
  by eapply room_next.
Qed.

Lemma dispatch_ends all acks fuel : forall d, DInv all acks d -> (room (d_sched d) < fuel)%nat ->
  is_Some (dispatch_loop payment ln iter_order frames_fuel fuel d).
Proof.
  induction fuel as [|fuel IH]; intros d HD Hr; [lia|]. cbn [dispatch_loop]. pose proof (try_next_inv all acks d HD) as Ht.
  destruct (try_next _ _ _ _ d) as [d1 [a|]] eqn:Et; [|eauto]. pose proof (room_try_next _ _ _ _ _ HD Et) as Hd.
  pose proof (room_place d1 a) as Hp. pose proof (place_inv _ _ _ _ Ht) as HD2.
  destruct (place _ _ d1 a) as [d2 []]; cbn [fst] in *; [apply IH; [done|lia]..|eauto].
Qed.

Lemma refill_ends fuel : forall d : drive, (length (rest (d_source d)) < fuel)%nat -> is_Some (refill_loop produce fuel d).
Proof.
  induction fuel as [|fuel IH]; intros d Hl; [lia|]. cbn [refill_loop]. destruct (d_exhausted d) eqn:Ex; [eauto|].
  destruct (_ <? _); [|eauto]. unfold refill. rewrite Ex. destruct (produce (d_source d) PUSH_WINDOW) as [src [b|e]] eqn:Ep; [|eauto].
  pose proof (produce_rest _ _ _ Ep) as Er. destruct b as [|c b].
  - destruct fuel; cbn; eauto.
  - apply IH. cbn [d_source with_source with_sched with_frames]. rewrite Er, length_app in Hl. cbn in Hl. lia.
Qed.

(** Each pass of the loop that drives the relays ends: feeding the scheduler ends
    when the source does, and handing out work ends after at most as many assignments
    as the lanes have room for, because a POST takes up room and a lane that gets its
    assignment handed back is paused; whatever the relays answer and whenever. *)
Theorem relay_passes_end all acks d fuel : DInv all acks d ->
  (length (rest (d_source d)) < fuel)%nat ->
  is_Some (refill_loop produce fuel d) /\
  ((room (d_sched d) < fuel)%nat -> is_Some (dispatch_loop payment ln iter_order frames_fuel fuel (settle_pass payment d))).
Proof.
  intros HD Hf. split; [by apply refill_ends|]. intros Hr. eapply dispatch_ends; [eapply dinv_quiet; [exact HD|apply quiet_settle_pass]|].
  enough (d_sched (settle_pass payment d) = d_sched d) as -> by done. unfold settle_pass. destruct payment; [|done].
  generalize (seq 0 (length (d_payers d))) as l. intros l. revert d HD Hf Hr. clear. intros d _ _ _. revert d.
  induction l as [|i l IH]; intros d; [done|]. cbn [foldl]. rewrite IH. unfold settle_lane.
  destruct (payer_of d i); [|done]. destruct (_ && _); [|done]. unfold on_payer. by destruct (op_settle _).
Qed.

(** An upload through relays that returns success, once it ran. *)
Lemma drive_delivers fuel hint w st dk src scfg lanes wakes d u :
  drive_pushers payment produce ln iter_order frames_fuel fuel hint w st dk src scfg lanes wakes = Ran (Returned d (Ok u)) ->
  forall a, a ∈ rest src -> exists l, Some (LAck l a true) ∈ wakes.
Proof.
  unfold drive_pushers. destruct lanes as [|l0 lanes]; [done|]. destruct (Nat.eqb _ _); [done|].
  destruct (start _ _ _ _ _ _ _ _) as [d0|] eqn:Es; [|done]. pose proof (start_drive_inv wakes _ _ _ _ _ _ _ Es) as HD0.
  destruct (refill produce d0) as [d1 [v|e]] eqn:Er; [|done]. pose proof (dinv_refill _ _ _ _ _ HD0 Er) as HD1.
  intros Heq. injection Heq as Heq. pose proof (loop_ok _ wakes fuel d1 wakes HD1 ltac:(done)) as Hok. by rewrite Heq in Hok.
Qed.

(** C26: Whenever the driver of the relays waits for an event, a POST is open, so that it
    cannot wait for ever on nothing.  The open POSTs are the batches the scheduler holds
    outstanding, each on its lane and with the frames of exactly its chunks in their
    order; the bytes booked on a metered lane are the size of such a body; and the frame
    of every chunk that is not acknowledged is still at hand for another attempt. *)
Theorem relay_posts_exact fuel hint w st dk src scfg lanes wakes d :
  drive_pushers payment produce ln iter_order frames_fuel fuel hint w st dk src scfg lanes wakes = Ran (Awaiting d) ->
  d_posts d <> ∅ /\
  (forall b, outstanding (d_sched d) !! b = None <-> d_posts d !! b = None) /\
  (forall b l cks lane fs ch, outstanding (d_sched d) !! b = Some (l, cks) -> d_posts d !! b = Some (lane, fs, ch) ->
     lane = l /\ map sc_addr fs = map (fun ci => addr (chunks (d_sched d) !!! ci)) cks) /\
  (forall b l n, d_bytes d !! b = Some (l, n) -> exists fs ch, d_posts d !! b = Some (l, fs, Some ch) /\ n = body_size fs) /\
  (forall ci c, chunks (d_sched d) !! ci = Some c -> phase c <> Done -> exists f, d_frames d !! addr c = Some f /\ sc_addr f = addr c).
Proof.
  unfold drive_pushers. destruct lanes as [|l0 lanes]; [done|]. destruct (Nat.eqb _ _); [done|].
  destruct (start _ _ _ _ _ _ _ _) as [d0|] eqn:Es; [|done]. pose proof (start_drive_inv wakes _ _ _ _ _ _ _ Es) as HD0.
  destruct (refill produce d0) as [d1 [v|e]] eqn:Er; [|done]. pose proof (dinv_refill _ _ _ _ _ HD0 Er) as HD1.
  intros Heq. injection Heq as Heq. pose proof (loop_ok _ wakes fuel d1 wakes HD1 ltac:(done)) as Hok. rewrite Heq in Hok.
  destruct Hok as [HD Hne]. split; [done|]. split; [|split; [|split]].
  - intros b. pose proof (dv_posts _ _ _ _ HD b) as Hp. destruct (outstanding _ !! b) as [[l cks]|]; [|done].
    rewrite bool_decide_eq_false_2 in Hp by done. destruct Hp as (p & -> & _). done.
  - intros b l cks lane fs ch Ho Hb. pose proof (dv_posts _ _ _ _ HD b) as Hp. rewrite Ho, bool_decide_eq_false_2 in Hp by done.
    destruct Hp as (p & Ep & El & Em). rewrite Hb in Ep. injection Ep as <-. done.
  - intros b l n Hb. rewrite (dv_bytes _ _ _ _ HD) in Hb. destruct (d_posts d !! b) as [[[l' fs] [ch|]]|]; [|done|done].
    injection Hb as <- <-. eauto.
  - intros ci c Hc Hp. destruct (dv_frames _ _ _ _ HD ci c Hc Hp) as [f Hf]. exists f. split; [done|]. by eapply dv_keys.
Qed.
End Lanes.

(** ** What a POST reports *)

Section Answer.
Context `{Hex} (parse_line : bytes -> option AckLine) (batch_id lane : nat) (sent : list StampedChunk).

(** The lines of a body: the complete ones, and what follows the last. *)
Fixpoint lines (body cur : bytes) : list bytes * bytes :=
  match body with
  | [] => ([], cur)
  | b :: body => if b =? 10 then let '(ls, r) := lines body [] in (cur :: ls, r) else lines body (cur ++ [b])
  end.
(** The ack a line carries. *)
Definition ack_of (line : bytes) : option LaneEv :=
  match parse_line line with
  | Some v => match al_a v with
              | Some a => match hex_decode a with
                          | Ok raw => if Nat.eqb (length raw) 32 then Some (LAck lane raw (bool_decide (al_s v = Some (lit "ok")))) else None
                          | Err _ => None end
              | None => None end
  | None => None
  end.
Definition is_ok (ev : LaneEv) : bool := match ev with LAck _ _ ok => ok | _ => false end.

Lemma lines_app a b : forall cur, lines (a ++ b) cur = let '(l1, r1) := lines a cur in let '(l2, r2) := lines b r1 in (l1 ++ l2, r2).
Proof.
  induction a as [|x a IH]; intros cur; cbn [app lines]; [by destruct (lines b cur)|].
  destruct (x =? 10); [|apply IH]. rewrite IH. destruct (lines a []) as [l1 r1]. by destruct (lines b r1).
Qed.
Lemma lines_none a : Forall (fun b => b <> 10) a -> forall cur, lines a cur = ([], cur ++ a).
Proof.
  induction 1 as [|x a Hx _ IH]; intros cur; cbn [lines]; [by rewrite app_nil_r|].
  rewrite (proj2 (Z.eqb_neq x 10)) by done. rewrite IH, <- app_assoc. done.
Qed.

Lemma drain_spec fuel : forall buf st, (length buf < fuel)%nat ->
  drain_lines parse_line lane sent fuel buf st = let '(ls, r) := lines buf [] in (r, foldl (fun st l => handle_line parse_line lane sent l st) st ls).
Proof.
  induction fuel as [|fuel IH]; intros buf st Hl; [lia|]. cbn [drain_lines].
  destruct (list_find (fun b => b = 10) buf) as [[nl b]|] eqn:Ef.
  - apply list_find_Some in Ef as (Hb & -> & Hmin).
    assert (Hbuf : buf = take nl buf ++ 10 :: drop (S nl) buf) by (by rewrite take_drop_middle).
    assert (Hno : Forall (fun b => b <> 10) (take nl buf)).
    { apply Forall_lookup_2. intros i x Hx. apply lookup_take_Some in Hx as [Hx Hi]. by eapply Hmin. }
    rewrite IH by (apply lookup_lt_Some in Hb; rewrite length_drop; lia).
    assert (El : lines buf [] = let '(ls, r) := lines (drop (S nl) buf) [] in (take nl buf :: ls, r)).
    { rewrite Hbuf at 1. rewrite lines_app, (lines_none _ Hno). cbn [lines app]. rewrite Z.eqb_refl. by destruct (lines (drop (S nl) buf) []). }
    rewrite El. by destruct (lines (drop (S nl) buf) []).
  - apply list_find_None in Ef. by rewrite (lines_none _ Ef).
Qed.

Lemma read_spec parts : forall buf st, Forall (fun b => b <> 10) buf ->
  read_parts parse_line lane sent parts buf st =
  let '(ls, r) := lines (buf ++ concat parts) [] in (r, foldl (fun st l => handle_line parse_line lane sent l st) st ls).
Proof.
  assert (Hr : forall a cur, Forall (fun b => b <> 10) cur -> Forall (fun b => b <> 10) (lines a cur).2).
  { induction a as [|x a IH]; intros cur Hc; cbn [lines]; [done|]. destruct (Z.eqb_spec x 10).
    - specialize (IH [] ltac:(constructor)). by destruct (lines a []).
    - apply IH. apply Forall_app. split; [done|by constructor]. }
  induction parts as [|p parts IH]; intros buf st Hb; cbn [read_parts concat].
  - rewrite app_nil_r. by rewrite (lines_none _ Hb).
  - rewrite drain_spec by lia. rewrite app_assoc, (lines_app (buf ++ p)).
    specialize (Hr (buf ++ p) [] ltac:(constructor)). destruct (lines (buf ++ p) []) as [l1 r1]. cbn [snd] in Hr.
    rewrite (IH r1 _ Hr), lines_app, (lines_none _ Hr). cbn [app].
    destruct (lines (concat parts) r1) as [l2 r2]. by rewrite foldl_app.
Qed.

Lemma handle_spec l n dd evs : exists dd', handle_line parse_line lane sent l (n, dd, evs) =
  ((n + length (List.filter is_ok (option_list (ack_of l))))%nat, dd', evs ++ option_list (ack_of l)) /\ dd <= dd'.
Proof.
  assert (Hz : (n + 0 = n)%nat) by lia.
  unfold handle_line, ack_of. destruct (parse_line l) as [v|]; [|exists dd; cbn; rewrite app_nil_r, Hz; done].
  destruct (al_a v) as [a|]; [|exists dd; cbn; rewrite app_nil_r, Hz; done].
  destruct (hex_decode a) as [raw|e]; [|exists dd; cbn; rewrite app_nil_r, Hz; done].
  destruct (Nat.eqb _ _); cbn [negb]; [|exists dd; cbn; rewrite app_nil_r, Hz; done]. cbv zeta.
  eexists. split; [f_equal; f_equal; cbn; destruct (bool_decide _); cbn; lia|].
  destruct (default false (al_dedup v)); [|done]. destruct (List.find _ _); lia.
Qed.
Lemma handle_all ls : forall n dd evs, exists dd', foldl (fun st l => handle_line parse_line lane sent l st) (n, dd, evs) ls =
  ((n + length (List.filter is_ok (omap ack_of ls)))%nat, dd', evs ++ omap ack_of ls) /\ dd <= dd'.
Proof.
  induction ls as [|l ls IH]; intros n dd evs; cbn [foldl].
  - exists dd. cbn. rewrite app_nil_r. by rewrite Nat.add_0_r.
  - destruct (handle_spec l n dd evs) as (d1 & -> & H1). destruct (IH (n + length (List.filter is_ok (option_list (ack_of l))))%nat d1 (evs ++ option_list (ack_of l)))
      as (d2 & -> & H2). exists d2. split; [|lia].
    assert (Eo : omap ack_of (l :: ls) = option_list (ack_of l) ++ omap ack_of ls) by (cbn; by destruct (ack_of l)).
    rewrite Eo, List.filter_app, length_app, <- app_assoc. do 2 f_equal. lia.
Qed.

(** The lines that are read: an unfinished last line counts when the body ended well. *)
Definition read_lines (body : bytes) (broken : option str) : list bytes :=
  let '(ls, r) := lines body [] in match broken, r with None, _ :: _ => ls ++ [r] | _, _ => ls end.

(** What a POST reports does not depend on how the answer is cut into pieces on the way:
    the acks of the lines of the whole body, in their order, then one end of that batch
    on that lane with the number of acks that were positive; a body that breaks off ends
    the batch as failed, after the acks of its complete lines. *)
Theorem answer_events parts broken ms : exists dedup_bytes, 0 <= dedup_bytes /\
  post_batch_streaming parse_line batch_id lane sent (PoStream parts broken) ms =
  let acks := omap ack_of (read_lines (concat parts) broken) in
  acks ++ [LDone batch_id lane (length (List.filter is_ok acks)) ms
             (match broken with Some e => BatchFailed e | None => Answered end) dedup_bytes].
Proof.
  unfold post_batch_streaming, read_lines. rewrite (read_spec parts [] _ ltac:(constructor)). cbn [app].
  destruct (lines (concat parts) []) as [ls r]. destruct broken as [e|].
  - destruct (handle_all ls 0 0 []) as (dd & -> & Hd). exists dd. split; [done|]. done.
  - destruct r as [|x r].
    + destruct (handle_all ls 0 0 []) as (dd & -> & Hd). exists dd. split; [done|]. done.
    + destruct (handle_all (ls ++ [x :: r]) 0 0 []) as (dd & E & Hd). rewrite foldl_app in E. cbn [foldl] in E. rewrite E. exists dd. done.
Qed.

End Answer.
