(* ===== verification/RelayUpload.v ===== *)
(** * The uploads that go through relays ([src/src/client.rs])

    [push_via_pushers] and [push_stream_via_pushers_paid]: the driver of [Lanes] fed
    with prepared chunks or with the windows of an upload streamer, paying with the
    operations of [Payer]; with concrete runs. *)
From Stdlib Require Import ZArith Lia.
From stdpp Require Import base tactics numbers countable strings list gmap.
From S2P Require Import Prelude Codec F64 PushFrame Signer Challenge Swap Meter Ledger Cheques Payer PushSched PushSchedInv Prepare Lanes LanesInv.
Local Open Scope Z_scope.
Local Open Scope hov_scope.

(** ** The payers of the lanes

    The world is one for all lanes; a request goes to the relay a payer's URL names. *)
Section Pay.
Context `{Hex} `{HeaderCodec} `{Wallet} (to_string_pretty : ChequesOnDisk -> bytes).
Context {W : Type} (instant : W -> W * Z) (clock : W -> Z) (fault : W -> Fault).
Context (req_challenge : str -> W -> bytes -> bytes -> W * JsonAnswer) (req_account : str -> W -> str -> W * JsonAnswer)
  (req_pay : str -> W -> str -> bytes -> W * PayAnswer).
Context (pcfg : PaymentConfig).

Definition url_of (s : Pay (W := W)) : str := py_url (p_payer s).
#[export] Instance pay_lanes : LaneOps W := {
  op_now := instant;
  op_settle s := settle to_string_pretty clock fault (req_challenge (url_of s)) (req_account (url_of s)) (req_pay (url_of s)) pcfg s;
  op_header s := header clock (req_challenge (url_of s)) pcfg s;
  op_reconcile s := reconcile clock (req_challenge (url_of s)) (req_account (url_of s)) pcfg s }.
End Pay.

(** ** The sources *)

(** The closure of [push_via_pushers]: all the chunks, once. *)
Definition take_once (src : option (list StampedChunk)) (_ : nat) : option (list StampedChunk) * result (list StampedChunk) str :=
  (None, Ok (default [] src)).
#[export] Instance once_source : ChunkSource (option (list StampedChunk)) str take_once.
Proof.
  refine {| rest := fun src => map sc_addr (default [] src) |}.
  - intros src src' b [= <- <-]. by rewrite app_nil_r.
  - by intros src src' [= <- _].
Defined.

(** The closure of [push_stream_via_pushers_paid]: the windows of a streamer, each at
    the time the clock then shows. *)
Section Streamer.
Context {Stamper Digest : Type} (prepare_stamp : Stamper -> bytes -> Z -> Stamper * result Digest str) (sign_stamp : Digest -> result bytes str).
Context (time : nat -> Z).

Definition take_window (src : UploadStreamer (Stamper := Stamper) * nat) (want : nat)
    : (UploadStreamer (Stamper := Stamper) * nat) * result (list StampedChunk) PrepareError :=
  let '(s, r) := next_batch prepare_stamp sign_stamp src.1 want (time src.2) in ((s, S src.2), r).

Lemma take_window_spec src src' b : take_window src PUSH_WINDOW = (src', Ok b) ->
  map sc_addr b = map fst (take PUSH_WINDOW (rev (us_remaining src.1))) /\ rev (us_remaining src'.1) = drop PUSH_WINDOW (rev (us_remaining src.1)).
Proof.
  destruct src as [[root cs st total] k]. unfold take_window. cbn [fst snd]. rewrite <- (rev_involutive cs) at 1.
  destruct (next_batch _ _ _ _ _) as [s r] eqn:Eb. intros Heq. injection Heq as <- ->.
  apply next_batch_spec in Eb as (st1 & Hs & ->). cbn [fst us_remaining]. rewrite rev_involutive. split; [|done].
  rewrite <- (stamp_keeps _ _ _ _ _ _ _ Hs), map_map. done.
Qed.

#[export] Instance streamer_source : ChunkSource (UploadStreamer * nat) PrepareError take_window.
Proof.
  refine {| rest := fun src => map fst (rev (us_remaining src.1)) |}.
  - intros src src' b (E1 & E2)%take_window_spec. rewrite E1, E2, <- map_app. by rewrite take_drop.
  - intros src src' (E1 & E2)%take_window_spec. rewrite E2. destruct (rev (us_remaining src.1)) as [|c l]; [done|]. done.
Defined.
End Streamer.

(** ** The uploads *)

Section Uploads.
Context {W : Type} `{LaneOps W}.
Context (ln : f64 -> f64) (iter_order : W -> list (nat * list nat) -> list (nat * list nat)) (frames_fuel fuel : nat).
Context (w : W) (st : ChequeStore) (dk : Disk) (scfg : Config) (lanes : list (str * (LaneInfo * option PaymentQuote)))
  (wakes : list (option LaneEv)).

(** What a run gave back; [None] while it is still waiting. *)
Definition outcome {Src E : Type} (u : RunResult (W := W) (Src := Src) (E := E)) : option (result unit (DriveError (E := E))) :=
  match u with Early r | Ran (Returned _ r) => Some r | Ran _ => None end.

(** [fn push_via_pushers]. *)
Definition push_via_pushers (cs : list StampedChunk) : option (result unit (DriveError (E := str))) :=
  outcome (drive_pushers false take_once ln iter_order frames_fuel fuel (length cs) w st dk (Some cs) scfg lanes wakes).

(** [fn push_stream_via_pushers_paid]. *)
Definition push_stream_via_pushers_paid {Stamper Digest : Type} (prepare_stamp : Stamper -> bytes -> Z -> Stamper * result Digest str)
    (sign_stamp : Digest -> result bytes str) (time : nat -> Z) (payment : bool) (streamer : UploadStreamer (Stamper := Stamper))
    : option (result bytes (DriveError (E := PrepareError))) :=
  match outcome (drive_pushers payment (take_window prepare_stamp sign_stamp time) ln iter_order frames_fuel fuel (us_total streamer)
                   w st dk (streamer, 0%nat) scfg lanes wakes) with
  | Some (Ok _) => Some (Ok (us_root streamer))
  | Some (Err e) => Some (Err e)
  | None => None
  end.

Hypothesis iter_perm : forall w l, iter_order w l ≡ₚ l.

(** Success, of an upload that had [hint] chunks to send. *)
Lemma outcome_delivers {Src E : Type} payment (produce : Src -> nat -> Src * result (list StampedChunk) E) `{!ChunkSource Src E produce} hint src u :
  outcome (drive_pushers payment produce ln iter_order frames_fuel fuel hint w st dk src scfg lanes wakes) = Some (Ok u) ->
  hint = length (rest src) -> forall a, a ∈ rest src -> exists l, Some (LAck l a true) ∈ wakes.
Proof.
  destruct (drive_pushers _ _ _ _ _ _ _ _ _ _ _ _ _ _) as [r|[d r|d|]] eqn:Er; cbn [outcome]; [| |done|done].
  - intros Hr Hh. unfold drive_pushers in Er. destruct lanes as [|l0 ls]; [by injection Er as <-|].
    destruct (Nat.eqb_spec hint 0) as [E0|]; [|].
    + subst hint. apply length_zero_iff_nil in E0. rewrite E0. by intros a ?%not_elem_of_nil.
    + destruct (start _ _ _ _ _ _ _ _); [|by injection Er as <-]. by destruct (refill _ _) as [d1 [v|e]].
  - intros [= ->] _. by eapply drive_delivers.
Qed.

(** A streamed upload that succeeds is a run that did, and gives back its root. *)
Lemma stream_outcome {Stamper Digest : Type} (prepare_stamp : Stamper -> bytes -> Z -> Stamper * result Digest str)
    (sign_stamp : Digest -> result bytes str) (time : nat -> Z) payment root cs (s0 : Stamper) r :
  push_stream_via_pushers_paid prepare_stamp sign_stamp time payment (from_parts root cs s0) = Some (Ok r) ->
  r = root /\ forall c, c ∈ cs -> exists l, Some (LAck l c.1 true) ∈ wakes.
Proof.
  unfold push_stream_via_pushers_paid. destruct (outcome _) as [[u|e]|] eqn:Eo; [|done|done].
  intros Hr. injection Hr as <-. split; [done|]. intros c Hc.
  eapply (outcome_delivers payment (take_window prepare_stamp sign_stamp time) _ (from_parts root cs s0, 0%nat)); [exact Eo| |].
  - cbn. by rewrite rev_involutive, length_map.
  - cbn. rewrite rev_involutive. by apply list_elem_of_fmap_2.
Qed.

(** Prepared chunks pushed through relays: success is an ack for each of them. *)
Theorem prepared_relay_delivers cs u : push_via_pushers cs = Some (Ok u) ->
  forall c, c ∈ cs -> exists l, Some (LAck l (sc_addr c) true) ∈ wakes.
Proof.
  intros Hp c Hc. eapply (outcome_delivers false take_once _ (Some cs)); [exact Hp|cbn; by rewrite length_map|].
  by apply list_elem_of_fmap_2.
Qed.

(** A streamed upload through relays, paid or not, that returns success returns the
    root of what was to be uploaded, and every chunk of it was acknowledged: for each
    address there is an ack that says so, from some lane, among the events the driver
    received.  The relays may answer anything, in any order, late, twice or about chunks
    they were not sent; lanes may fail, ask for payment or be retired. *)
Theorem relay_upload_delivers {Stamper Digest : Type} (prepare_stamp : Stamper -> bytes -> Z -> Stamper * result Digest str)
    (sign_stamp : Digest -> result bytes str) (time : nat -> Z) payment root cs (s0 : Stamper) r :
  push_stream_via_pushers_paid prepare_stamp sign_stamp time payment (from_parts root cs s0) = Some (Ok r) ->
  r = root /\ forall c, c ∈ cs -> exists l, Some (LAck l c.1 true) ∈ wakes.
Proof. apply stream_outcome. Qed.
End Uploads.

(** ** Concrete runs: one chunk, one free lane *)
Module RelayWitness.
#[local] Instance free_ops : LaneOps Z := {
  op_now t := (t + 1, t); op_settle s := (s, Ok None); op_header s := (s, Err []); op_reconcile s := (s, Ok false) }.
Definition any_order (_ : Z) (l : list (nat * list nat)) : list (nat * list nat) := l.
Definition one : bytes * bytes := (SchedWitness.w, [7]).
Definition stamp_it (_ : unit) (a : bytes) (ts : Z) : unit * result bytes str := (tt, Ok a).
Definition sign_it (d : bytes) : result bytes str := Ok d.
Definition the_lane : str * (LaneInfo * option PaymentQuote) := (lit "https://relay", (SchedWitness.lane0, None)).
Definition said : list (option LaneEv) := [Some (LAck 0 SchedWitness.w true)].
Definition no_cheques : ChequeStore := store_new (replicate 20 0).
Definition no_files : Disk := mkFiles None None.

Lemma relay_upload_delivers_witness :
  exists l, Some (LAck l SchedWitness.w true) ∈ said.
Proof.
  refine (proj2 (relay_upload_delivers SchedWitness.ln0 any_order 8 8 0 no_cheques no_files SchedWitness.cfg2 [the_lane] said
                   (fun _ _ => reflexivity _) stamp_it sign_it (fun _ => 0) false [9] [one] tt [9] _) one _).
  - vm_compute. reflexivity.
  - left.
Defined.

(** The state in which the driver waits before that ack. *)
Definition waiting : Drive := 
  match drive_pushers (E := PrepareError) false (take_window stamp_it sign_it (fun _ => 0)) SchedWitness.ln0 any_order 8 8 1 0 no_cheques no_files
          (from_parts [9] [one] tt, 0%nat) SchedWitness.cfg2 [the_lane] [] with
  | Ran (Awaiting d) => d
  | _ => mkDrive 0 no_cheques no_files [] [] (sched_new [] SchedWitness.cfg2) ∅ ∅ (from_parts [] [] tt, 0%nat) false ∅
  end.

Lemma relay_posts_exact_witness : d_posts waiting <> ∅.
Proof.
  refine (proj1 (relay_posts_exact false (take_window stamp_it sign_it (fun _ => 0)) SchedWitness.ln0 any_order 8 (fun _ _ => reflexivity _)
                   8 1 0 no_cheques no_files (from_parts [9] [one] tt, 0%nat) SchedWitness.cfg2 [the_lane] [] waiting _)).
  vm_compute. reflexivity.
Defined.

(** A driver that has just started. *)
Definition started : Drive := mkDrive 0 no_cheques no_files [None] [U64_MAX] (sched_new [SchedWitness.lane0] SchedWitness.cfg2) ∅ ∅ (from_parts [9] [one] tt, 0%nat) false ∅.

Lemma relay_passes_end_witness :
  is_Some (refill_loop (take_window stamp_it sign_it (fun _ => 0)) 9 started) /\
  is_Some (dispatch_loop false SchedWitness.ln0 any_order 8 9 (settle_pass false started)).
Proof.
  destruct (relay_passes_end false (take_window stamp_it sign_it (fun _ => 0)) SchedWitness.ln0 any_order 8 (fun _ _ => reflexivity _)
              [SchedWitness.w] [] started 9) as [H1 H2].
  - exact (start_drive_inv (E := PrepareError) false (take_window stamp_it sign_it (fun _ => 0)) SchedWitness.ln0 8 [] 0 no_cheques no_files
             (from_parts [9] [one] tt, 0%nat) SchedWitness.cfg2 [the_lane] started eq_refl).
  - change (1 < 9)%nat. lia.
  - split; [exact H1|]. apply H2. change (4 < 9)%nat. lia.
Defined.
End RelayWitness.
