(* ===== verification/RelayPush.v ===== *)
(** * Answering a push ([src/src/pusher.rs], the end of [run_push])

    What the relay does with the frames it accepted: it pushes them to the network with
    the upload loop ([Upload]), streams an ack for each chunk as it resolves, names the
    ones an aborted upload left behind, and remembers what it pushed for a while.  With
    the lines this writes, the client's driver ([Lanes]) and the storers' receipts, the
    two halves of an upload through relays meet here.

    [print] is serde_json's text of a line, [error_text] the text of a client error.  The
    time a push took and the log are left out. *)
From Stdlib Require Import ZArith Lia.
From stdpp Require Import base tactics numbers countable strings list gmap.
From S2P Require Import Prelude Codec F64 PushFrame Signer Challenge Meter Ledger Fifo Stamp Swap Metered Relay Protocols SessionPool Upload Cheques Payer PushSched PushSchedInv Prepare Lanes LanesInv RelayUpload.
Local Open Scope Z_scope.
Local Open Scope hov_scope.

(** A line of the answer. *)
Inductive PushLine :=
| PlErr (addr : bytes) (msg : str)
| PlDedup (addr : bytes)
| PlOk (addr : bytes) (info : PushInfo)
| PlNone (rejected : bool) (dedup : nat)
| PlDone (pushed total dedup : nat) (error : option str).

(** [struct PushState], what a push changes of it. *)
Record PushState := mkPushState { ps_recent : RecentAcks; ps_bytes_pushed : Z }.

Section RunPush.
Context (error_text : DispatchError -> str).

Definition ack_line (a : Ack) : PushLine := match a with AckErr addr msg => PlErr addr msg | AckDedup addr => PlDedup addr end.
(** The callback [on_chunk], on a chunk by its position. *)
Definition chunk_addr (work : list StampedChunk) (c : nat) : bytes := match work !! c with Some ch => sc_addr ch | None => [] end.
Definition on_chunk (work : list StampedChunk) (rep : nat * result PushInfo DispatchError) : PushLine :=
  match rep.2 with
  | Ok info => PlOk (chunk_addr work rep.1) info
  | Err e => PlErr (chunk_addr work rep.1) (error_text e)
  end.
(** The map [acked] after the calls. *)
Definition acked_map (work : list StampedChunk) (reps : list (nat * result PushInfo DispatchError)) : gmap bytes bool :=
  foldl (fun m rep => <[chunk_addr work rep.1 := ok_report rep]> m) ∅ reps.

Definition wire_bytes (work : list StampedChunk) : Z := foldr (fun c n => Z.of_nat (length (sc_wire c)) + n) 0 work.
(** After the dispatcher returned: remember, count, name what is left, and conclude. *)
Definition conclude_push (st : PushState) (p : PushAcc) (u : Upload) (now : Z) : PushState * list PushLine :=
  let work := accepted p in
  let seen := acked_map work (reports u) in
  let pushed := length (List.filter (fun kv => kv.2 : bool) (map_to_list seen)) in
  let pushed_bytes := wrap 64 (wire_bytes work * Z.of_nat pushed) / Z.of_nat (length work) in
  let err := error_text <$> first_err u in
  let msg := default (lit "dispatcher exited before this chunk resolved") err in
  (mkPushState (record_acks (ps_recent st) p (map_to_list seen) now) (wrap 64 (ps_bytes_pushed st + pushed_bytes)),
   map (fun c => PlErr (sc_addr c) msg) (List.filter (fun c => negb (bool_decide (is_Some (seen !! sc_addr c)))) work)
     ++ [PlDone pushed (length work) (dedup_hits p) err]).

(** [run_push] from the end of the admission loop: [pool] is what [get_pool] answers, [u]
    the upload when it is over. *)
Definition run_push (st : PushState) (p : PushAcc) (pool : result unit str) (u : Upload) (now : Z) : PushState * list PushLine :=
  let first := map ack_line (acks p) in
  match accepted p with
  | [] => (st, first ++ [PlNone (Nat.eqb (dedup_hits p) 0) (dedup_hits p)])
  | work =>
      match pool with
      | Err e => (st, first ++ map (fun c => PlErr (sc_addr c) (lit "pool: " ++ e)) work)
      | Ok _ => let '(st, rest) := conclude_push st p u now in (st, first ++ map (on_chunk work) (reports u) ++ rest)
      end
  end.
End RunPush.

(** The members the client reads of a line. *)
Definition line_view `{Hex} (l : PushLine) : AckLine :=
  match l with
  | PlErr a _ => mkLine (Some (hex_encode a)) (Some (lit "err")) None
  | PlDedup a => mkLine (Some (hex_encode a)) (Some (lit "ok")) (Some true)
  | PlOk a _ => mkLine (Some (hex_encode a)) (Some (lit "ok")) None
  | PlNone _ _ | PlDone _ _ _ _ => mkLine None None None
  end.

(** ** The admission loop answers or accepts every frame *)

Definition ack_addr (a : Ack) : bytes := match a with AckErr addr _ => addr | AckDedup addr => addr end.

Section Admission.
Context `{Crypto} `{Hex} (recent : RecentAcks) (chain : nat -> str -> BatchAnswer) (adm : option AdmittedGuard) (now : Z).

(** A dedup ack is for an address the relay remembers under some batch. *)
Definition dedup_ok (a : Ack) : Prop := match a with AckErr _ _ => True | AckDedup addr => exists b, recent_contains recent addr b now = true end.

Lemma admit_one_frame p chunk : let p' := admit_frame recent chain adm now p chunk in
  (exists a, accepted p' = accepted p /\ acks p' = acks p ++ [a] /\ ack_addr a = sc_addr chunk /\ dedup_ok a) \/
  (accepted p' = accepted p ++ [chunk] /\ acks p' = acks p).
Proof.
  cbv zeta. unfold admit_frame. destruct (validate _ _) as [vs|e]; [|left; by eexists].
  assert (Ek : accepted (frame_owner p chain (hex_encode (batch_id vs)) now).1 = accepted p /\
    acks (frame_owner p chain (hex_encode (batch_id vs)) now).1 = acks p).
  { unfold frame_owner. case_bool_decide; [done|]. by destruct (resolve_owner _ _ _ _ _) as [[c b] [o|e]]. }
  destruct (frame_owner _ _ _ _) as [p1 r]. cbn [fst] in Ek. destruct Ek as [<- <-].
  destruct r as [[[o v]|]|e]; [|left; by eexists|left; by eexists]. case_bool_decide; [|left; by eexists].
  destruct (match adm with Some _ => _ | None => _ end); [left; by eexists|]. unfold take_frame.
  destruct (recent_contains _ _ _ _) eqn:Er; [left|by right]. eexists. split_and!; [done..|]. cbn. eauto.
Qed.

Lemma admit_all_frames oc chunks : let p := admit_frames recent chain adm now oc chunks in
  Forall dedup_ok (acks p) /\
  forall c, c ∈ chunks -> c ∈ accepted p \/ exists a, a ∈ acks p /\ ack_addr a = sc_addr c.
Proof.
  cbv zeta. unfold admit_frames.
  enough (Hg : forall cs p, Forall dedup_ok (acks p) -> let p' := foldl (admit_frame recent chain adm now) p cs in
    Forall dedup_ok (acks p') /\ (forall c, c ∈ accepted p -> c ∈ accepted p') /\ (forall a, a ∈ acks p -> a ∈ acks p') /\
    forall c, c ∈ cs -> c ∈ accepted p' \/ exists a, a ∈ acks p' /\ ack_addr a = sc_addr c).
  { destruct (Hg chunks (push_start oc) ltac:(constructor)) as (H1 & _ & _ & H4). done. }
  induction cs as [|c cs IH]; intros p Hp; cbv zeta; cbn [foldl].
  { split_and!; [done..|]. by intros c ?%not_elem_of_nil. }
  destruct (admit_one_frame p c) as [(a & E1 & E2 & Ea & Hd)|[E1 E2]].
  - destruct (IH (admit_frame recent chain adm now p c)) as (I1 & I2 & I3 & I4).
    { rewrite E2. apply Forall_app. split; [done|by constructor]. }
    rewrite E1, E2 in *. split_and!; [done|auto|intros x Hx; apply I3, elem_of_app; by left|].
    intros x [->|Hx]%elem_of_cons; [|auto]. right. exists a. split; [|done]. apply I3, elem_of_app. right. left.
  - destruct (IH (admit_frame recent chain adm now p c)) as (I1 & I2 & I3 & I4); [by rewrite E2|].
    rewrite E1, E2 in *. split_and!; [done|intros x Hx; apply I2, elem_of_app; by left|auto|].
    intros x [->|Hx]%elem_of_cons; [|auto]. left. apply I2, elem_of_app. right. left.
Qed.
End Admission.

(** ** What the relay remembers *)

Definition recent_ok (P : bytes -> bytes -> Prop) (r : RecentAcks) : Prop := forall a b t, Relay.seen r !! (a, b) = Some t -> P a b.

Lemma recent_insert_ok P r a b now : recent_ok P r -> P a b -> recent_ok P (recent_insert r a b now).
Proof.
  intros Hr HP x y t. unfold recent_insert, fifo_put.
  destruct (evict _ _ _ _ _) as [[m o] u] eqn:Ev. cbn [Relay.seen]. intros Hm.
  assert (Hs : <[(a, b) := now]> (Relay.seen r) !! (x, y) = Some t) by (eapply (evict_subset (fun _ (u : unit) => u) (ra_cap r)); by rewrite Ev).
  apply lookup_insert_Some in Hs as [[[= <- <-] _]|[_ Hs]]; [done|]. by eapply Hr.
Qed.

Lemma record_acks_ok P p now l : forall r, recent_ok P r ->
  (forall a, (a, true) ∈ l -> P a (default (replicate 32 0) (batch_of p !! a))) -> recent_ok P (record_acks r p l now).
Proof.
  unfold record_acks. induction l as [|[a ok] l IH]; intros r Hr Hl; [done|]. cbn [foldl]. apply IH.
  - destruct ok; [|done]. apply recent_insert_ok; [done|]. apply Hl. left.
  - intros x Hx. apply Hl. by right.
Qed.

Lemma acked_map_spec work reps a ok : acked_map work reps !! a = Some ok ->
  exists rep, rep ∈ reps /\ chunk_addr work rep.1 = a /\ ok_report rep = ok.
Proof.
  unfold acked_map. enough (Hg : forall m : gmap bytes bool, foldl (fun m rep => <[chunk_addr work rep.1 := ok_report rep]> m) m reps !! a = Some ok ->
    m !! a = Some ok \/ exists rep, rep ∈ reps /\ chunk_addr work rep.1 = a /\ ok_report rep = ok).
  { intros [?|?]%Hg; [by rewrite lookup_empty in *|done]. }
  induction reps as [|rep reps IH]; intros m; cbn [foldl]; [by left|]. intros [Hm|(x & ? & ?)]%IH; [|right; exists x; split; [by right|done]].
  apply lookup_insert_Some in Hm as [[<- <-]|[_ ?]]; [right; exists rep; split; [left|done]|by left].
Qed.

Lemma acked_map_has work reps rep : rep ∈ reps -> is_Some (acked_map work reps !! chunk_addr work rep.1).
Proof.
  unfold acked_map. enough (Hg : forall m : gmap bytes bool, (rep ∈ reps \/ is_Some (m !! chunk_addr work rep.1)) ->
    is_Some (foldl (fun m rep => <[chunk_addr work rep.1 := ok_report rep]> m) m reps !! chunk_addr work rep.1)).
  { intros Hin. apply Hg. by left. }
  induction reps as [|x reps IH]; intros m Hr; cbn [foldl]; [by destruct Hr as [?%not_elem_of_nil|]|].
  apply IH. destruct Hr as [[->|]%elem_of_cons|Hm]; [right; rewrite lookup_insert_eq; eauto|by left|right].
  destruct (decide (chunk_addr work x.1 = chunk_addr work rep.1)) as [->|]; [rewrite lookup_insert_eq; eauto|by rewrite lookup_insert_ne].
Qed.

(** ** Every frame is answered, and an ok is backed by a receipt *)

Definition line_addr (l : PushLine) : option bytes :=
  match l with PlErr a _ | PlDedup a | PlOk a _ => Some a | PlNone _ _ | PlDone _ _ _ _ => None end.
Definition line_ok (l : PushLine) : option bytes := match l with PlDedup a | PlOk a _ => Some a | _ => None end.

Section Backed.
Context `{Crypto} `{Hex} (error_text : DispatchError -> str) (P : bytes -> bytes -> Prop).

(** A push at a relay: its frames [chunks], the state they were admitted in, the upload
    [u] it ran.  [P] is what a storer's receipt for a chunk of an upload says of it. *)
Record pushes (st : PushState) (chunks : list StampedChunk) (p : PushAcc) (u : Upload) : Prop := {
  pu_admitted : exists chain adm now oc, p = admit_frames (ps_recent st) chain adm now oc chunks;
  pu_upload : exists po max_retries buffer hist, upload_reaches (length (accepted p)) buffer (dispatched po max_retries) hist u /\
    forall c ch info, accepted p !! c = Some ch -> delivered po max_retries hist c info ->
      P (sc_addr ch) (default (replicate 32 0) (batch_of p !! sc_addr ch)) }.

(** A chunk reported as pushed is an accepted one that was delivered. *)
Lemma report_backed st chunks p u c info : pushes st chunks p u -> (c, Ok info) ∈ reports u ->
  P (chunk_addr (accepted p) c) (default (replicate 32 0) (batch_of p !! chunk_addr (accepted p) c)).
Proof.
  intros [_ (po & mr & buffer & hist & Hr & Hd)] Hin. pose proof (report_delivered _ _ _ _ _ _ _ _ Hr Hin) as Hdel.
  apply upload_reaches_inv in Hr as [Hp _ _ _ _ _ _ _ _].
  assert (Hc : (c < length (accepted p))%nat).
  { assert (Hs : c ∈ seq 0 (length (accepted p))) by (rewrite <- Hp; apply elem_of_app; left; apply list_elem_of_fmap; by exists (c, Ok info)).
    apply elem_of_seq in Hs. lia. }
  destruct (lookup_lt_is_Some_2 _ _ Hc) as [ch Hch]. unfold chunk_addr. rewrite Hch. by eapply Hd.
Qed.

Lemma conclude_recent st0 st chunks p u now : pushes st0 chunks p u -> recent_ok P (ps_recent st) ->
  recent_ok P (ps_recent (conclude_push error_text st p u now).1).
Proof.
  intros Hu Hst. unfold conclude_push. cbn [fst ps_recent]. apply record_acks_ok; [done|]. intros a Ha.
  apply elem_of_map_to_list, acked_map_spec in Ha as ([c [info|e]] & Hin & <- & Hok); [|done]. by eapply report_backed.
Qed.

(** The answer to a push, by what became of it: no frame goes without a line, and an ok
    is for a chunk that [P] holds of. *)
Lemma push_lines st0 st chunks p u pool now st' ls : recent_ok P (ps_recent st0) -> recent_ok P (ps_recent st) ->
  pushes st0 chunks p u -> run_push error_text st p pool u now = (st', ls) ->
  recent_ok P (ps_recent st') /\
  (forall c, c ∈ chunks -> exists l, l ∈ ls /\ line_addr l = Some (sc_addr c)) /\
  (forall l a, l ∈ ls -> line_ok l = Some a -> exists b, P a b).
Proof.
  intros Hrec Hst Hu. pose proof Hu as [(chain & adm & t & oc & Ep) _].
  destruct (admit_all_frames (ps_recent st0) chain adm t oc chunks) as [Hdd Hall]. rewrite <- Ep in Hdd, Hall.
  assert (Hfirst : forall l a, l ∈ map ack_line (acks p) -> line_ok l = Some a -> exists b, P a b).
  { intros l a (k & -> & Hk)%list_elem_of_fmap Hok. rewrite Forall_forall in Hdd. specialize (Hdd k Hk).
    destruct k as [x m|x]; [done|]. injection Hok as <-. destruct Hdd as [b Hb]. exists b. unfold recent_contains in Hb.
    destruct (Relay.seen (ps_recent st0) !! (x, b)) eqn:Es; [by eapply Hrec|done]. }
  assert (Hans : forall rest, (forall c, c ∈ accepted p -> exists l, l ∈ rest /\ line_addr l = Some (sc_addr c)) ->
    forall c, c ∈ chunks -> exists l, l ∈ map ack_line (acks p) ++ rest /\ line_addr l = Some (sc_addr c)).
  { intros rest Hrest c Hc. destruct (Hall c Hc) as [Ha|(k & Hk & Ek)].
    - destruct (Hrest c Ha) as (l & Hl & El). exists l. split; [apply elem_of_app; by right|done].
    - exists (ack_line k). split; [apply elem_of_app; left; by apply list_elem_of_fmap_2|]. rewrite <- Ek. by destruct k. }
  unfold run_push. destruct (accepted p) as [|c0 work] eqn:Ew.
  { intros [= <- <-]. split; [done|]. split; [apply Hans; by intros c ?%not_elem_of_nil|].
    intros l a [Hl|Hl]%elem_of_app; [by apply Hfirst|]. by apply list_elem_of_singleton in Hl as ->. }
  rewrite <- Ew in *. destruct pool as [v|e].
  2:{ intros [= <- <-]. split; [done|]. split.
    - apply Hans. intros c Hc. eexists. split; [by apply list_elem_of_fmap_2|done].
    - intros l a [Hl|Hl]%elem_of_app; [by apply Hfirst|]. by apply list_elem_of_fmap in Hl as (x & -> & _). }
  pose proof (conclude_recent st0 st chunks p u now Hu Hst) as Hcr. unfold conclude_push in *. cbn [fst] in Hcr. cbv zeta.
  intros Heq. injection Heq as <- <-. split; [done|]. split.
  - apply Hans. intros c Hc. destruct (decide (is_Some (acked_map (accepted p) (reports u) !! sc_addr c))) as [[ok Hok]|Hno].
    + apply acked_map_spec in Hok as (rep & Hin & Ea & _). exists (on_chunk error_text (accepted p) rep).
      split; [apply elem_of_app; left; by apply list_elem_of_fmap_2|]. unfold on_chunk. rewrite Ea. by destruct (rep.2).
    + eexists. split; [apply elem_of_app; right; apply elem_of_app; left; apply list_elem_of_fmap_2, list_elem_of_In, List.filter_In; split; [by apply list_elem_of_In|]|done].
      by rewrite bool_decide_eq_false_2.
  - intros l a [Hl|[Hl|[Hl|Hl]%elem_of_app]%elem_of_app]%elem_of_app; [by apply Hfirst| | |].
    + apply list_elem_of_fmap in Hl as ([c [info|e]] & -> & Hin); cbn; [|done]. intros [= <-]. eexists. by eapply report_backed.
    + by apply list_elem_of_fmap in Hl as (x & -> & _).
    + by apply list_elem_of_singleton in Hl as ->.
Qed.

(** The states of a relay: pushes run side by side, so one may end in another state than
    the one its frames were admitted in. *)
Inductive relay_state : PushState -> Prop :=
| RsNew cap ttl n : relay_state (mkPushState (mkRecent ∅ [] cap ttl) n)
| RsPush st0 st chunks p u pool now : relay_state st0 -> relay_state st -> pushes st0 chunks p u ->
    relay_state (run_push error_text st p pool u now).1.

(** What it remembers at any time was delivered. *)
Lemma relay_state_recent st : relay_state st -> recent_ok P (ps_recent st).
Proof.
  induction 1 as [cap ttl n|st0 st chunks p u pool now _ I0 _ I1 Hu]; [intros a b t; cbn; by rewrite lookup_empty|].
  destruct (run_push _ _ _ _ _ _) as [st' ls] eqn:Er. by destruct (push_lines _ _ _ _ _ _ _ _ _ I0 I1 Hu Er).
Qed.
End Backed.

(** ** An upload through relays, end to end *)

(** serde_json, as both sides use it: a line is printed without a line break, and reading
    it gives the members that were written. *)
Class LineCodec `{Hex} := {
  print : PushLine -> bytes;
  parse_line : bytes -> option AckLine }.
Class LineLaws `{LineCodec} : Prop := {
  print_one_line : forall l, Forall (fun b => b <> 10) (print l);
  parse_print : forall l, parse_line (print l) = Some (line_view l) }.

Section EndToEnd.
Context `{LineLaws} `{!HexLaws _} `{Crypto} (error_text : DispatchError -> str) (P : bytes -> bytes -> Prop).

Definition answer_body (ls : list PushLine) : bytes := concat (map (fun l => print l ++ [10]) ls).

Lemma lines_answer ls : lines (answer_body ls) [] = (map print ls, []).
Proof.
  induction ls as [|l ls IH]; [done|]. unfold answer_body in *. cbn [map concat]. rewrite <- app_assoc, lines_app, (lines_none _ (print_one_line l)).
  cbn [app lines]. rewrite Z.eqb_refl, IH. done.
Qed.

(** The lines read of an answer, whole or broken off, are lines that were written. *)
Lemma read_answer ls body broken : body `prefix_of` answer_body ls -> (broken = None -> body = answer_body ls) ->
  forall x, x ∈ read_lines body broken -> exists l, l ∈ ls /\ x = print l.
Proof.
  intros [suf Es] Hb x Hx. assert (Hin : x ∈ (lines body []).1).
  { unfold read_lines in Hx. destruct broken as [e|]; [by destruct (lines body [])|]. rewrite (Hb eq_refl), lines_answer in *. done. }
  pose proof (lines_answer ls) as El. rewrite Es, lines_app in El. destruct (lines body []) as [l1 r1]. destruct (lines suf r1) as [l2 r2].
  injection El as El _. cbn [fst] in Hin. assert (Hm : x ∈ map print ls) by (rewrite <- El; apply elem_of_app; by left).
  apply list_elem_of_fmap in Hm as (l & -> & Hl). eauto.
Qed.

Lemma ack_of_line lane l a : (forall x, line_addr l = Some x -> all_bytes x) ->
  ack_of parse_line lane (print l) = Some (LAck lane a true) -> line_ok l = Some a.
Proof.
  intros Hb. unfold ack_of. rewrite parse_print.
  destruct l as [x m|x|x i|r n|n m k e]; cbn [line_view al_a al_s line_addr line_ok] in *; try done;
    rewrite hex_roundtrip by (by apply Hb); (destruct (Nat.eqb _ _); [|done]); intros Heq.
  - assert (Hd : bool_decide (Some (lit "err") = Some (lit "ok")) = true) by (by injection Heq). by vm_compute in Hd.
  - by injection Heq as <-.
  - by injection Heq as <-.
Qed.

(** An event of a POST that a relay answered: [ls] is what it wrote, of which the client
    got [parts]. *)
Definition from_relay (lane : nat) (ev : LaneEv) : Prop :=
  exists st0 st chunks p u pool now st' ls parts broken batch body ms,
    relay_state error_text P st0 /\ relay_state error_text P st /\ pushes P st0 chunks p u /\ run_push error_text st p pool u now = (st', ls) /\
    (forall l x, l ∈ ls -> line_addr l = Some x -> all_bytes x) /\
    concat parts `prefix_of` answer_body ls /\ (broken = None -> concat parts = answer_body ls) /\
    ev ∈ post_batch_streaming parse_line batch lane body (PoStream parts broken) ms.

Lemma from_relay_backed lane a : from_relay lane (LAck lane a true) -> exists b, P a b.
Proof.
  intros (st0 & st & chunks & p & u & pool & now & st' & ls & parts & broken & batch & body & ms & Hs0 & Hs1 & Hu & Hr & Hby & Hpre & Hb & Hev).
  destruct (push_lines error_text P _ _ _ _ _ _ _ _ _ (relay_state_recent _ _ _ Hs0) (relay_state_recent _ _ _ Hs1) Hu Hr) as (_ & _ & Hok).
  destruct (answer_events parse_line batch lane body parts broken ms) as (dd & _ & Ep). rewrite Ep in Hev.
  apply elem_of_app in Hev as [Hev|Hev]; [|by apply list_elem_of_singleton in Hev].
  apply list_elem_of_omap in Hev as (x & Hx & Ex). destruct (read_answer ls _ broken Hpre Hb x Hx) as (l & Hl & ->).
  apply ack_of_line in Ex; [|intros y Hy; by eapply Hby]. by eapply Hok.
Qed.

End EndToEnd.

(** ** A concrete run: one relay, one chunk, one storer *)
Module RelayPushWitness.
Import PrepareWitness.
(** A codec that keeps the line break free: a tag, and the text moved past it. *)
Definition shift (z : Z) : Z := if z <? 10 then z else z + 1.
Definition unshift (z : Z) : Z := if z <? 10 then z else z - 1.
Definition toy_print (l : PushLine) : bytes :=
  match l with
  | PlErr a _ => 0 :: map shift (@hex_encode plain_hex a)
  | PlDedup a => 1 :: map shift (@hex_encode plain_hex a)
  | PlOk a _ => 2 :: map shift (@hex_encode plain_hex a)
  | _ => [3]
  end.
Definition toy_parse (b : bytes) : option AckLine :=
  match b with
  | 0 :: t => Some (mkLine (Some (map unshift t)) (Some (lit "err")) None)
  | 1 :: t => Some (mkLine (Some (map unshift t)) (Some (lit "ok")) (Some true))
  | 2 :: t => Some (mkLine (Some (map unshift t)) (Some (lit "ok")) None)
  | 3 :: t => Some (mkLine None None None)
  | _ => None
  end.
#[local] Instance toy_codec : LineCodec (H := plain_hex) := { print := toy_print; parse_line := toy_parse }.
Lemma unshift_shift t : map unshift (map shift t) = t.
Proof.
  rewrite map_map. rewrite <- (map_id t) at 2. apply map_ext. intros z. unfold shift, unshift.
  destruct (Z.ltb_spec z 10); [rewrite (proj2 (Z.ltb_lt z 10)); lia|]. rewrite (proj2 (Z.ltb_ge _ 10)); lia.
Qed.
#[local] Instance toy_laws : @LineLaws plain_hex toy_codec.
Proof.
  split.
  - assert (Hs : forall t, Forall (fun b => b <> 10) (map shift t)).
    { intros t. apply Forall_fmap, Forall_true. intros z. unfold shift. cbn. destruct (Z.ltb_spec z 10); lia. }
    intros []; cbn [print toy_codec toy_print]; repeat (constructor; [lia|]); auto.
  - intros []; cbn [print parse_line toy_codec toy_print toy_parse line_view]; by rewrite ?unshift_shift.
Qed.

Definition addr9 : bytes := replicate 32 9.
Definition stored (a b : bytes) : Prop := a = addr9.
Definition relay0 : PushState := mkPushState empty_recent 0.
Definition admitted_p : PushAcc := @admit_frames const_crypto plain_hex empty_recent on_chain None 100 empty_owners [the_chunk].
Definition pushed_u : Upload := mkUpload [] [] false [(0%nat, Ok (UploadWitness.info 0))] 1 None.
Definition no_text (e : DispatchError) : str := [].
Definition answered : list PushLine := [PlOk addr9 (UploadWitness.info 0); PlDone 1 1 0 None].

Lemma demo_pushes : @pushes const_crypto plain_hex stored relay0 [the_chunk] admitted_p pushed_u.
Proof.
  assert (Ea : accepted admitted_p = [the_chunk]) by (vm_compute; reflexivity).
  split; [by exists on_chain, None, 100, empty_owners|].
  rewrite Ea. exists UploadWitness.po, 3%nat, 1%nat, [(0%nat, Ok (UploadWitness.info 0))]. split.
  - apply (UrStep 1 1 _ [] (upload_start 1 1) 0 0 0 (Ok (UploadWitness.info 0))); [apply UrStart|reflexivity|apply UploadWitness.chunk_dispatched|reflexivity].
  - intros c ch info Hc _. apply list_lookup_singleton_Some in Hc as [_ <-]. reflexivity.
Qed.

(** The one POST of the client, answered by that relay in two pieces. *)
Definition pieces : list bytes := let b := @answer_body plain_hex toy_codec answered in [take 5 b; drop 5 b].
Definition acks : list (option LaneEv) := [Some (LAck 0 addr9 true)].

Lemma demo_from_relay lane a : Some (LAck lane a true) ∈ acks ->
  @from_relay plain_hex toy_codec const_crypto no_text stored lane (LAck lane a true).
Proof.
  intros Hin. apply list_elem_of_singleton in Hin as Heq. injection Heq as -> ->.
  exists relay0, relay0, [the_chunk], admitted_p, pushed_u, (Ok tt), 100, (run_push no_text relay0 admitted_p (Ok tt) pushed_u 100).1, answered, pieces, None, 0%nat, [], 5.
  split; [apply RsNew|]. split; [apply RsNew|]. split; [exact demo_pushes|]. split; [vm_compute; reflexivity|]. split; [|split; [|split]].
  - intros l x Hl. apply list_elem_of_In in Hl as [<-|[<-|[]]]; [|done]. intros [= <-]. by apply Forall_replicate.
  - by exists [].
  - done.
  - apply list_elem_of_In. left. vm_compute. reflexivity.
Qed.

End RelayPushWitness.
