(* ===== verification/Cli.v ===== *)
(** * The command line around an upload ([src/src/bin/hoverfly.rs], [src/src/daemon.rs])

    An upload can take four ways from the same arguments: straight to the network, through
    relays, through the daemon, or nowhere ([bmt] only computes the reference).  Each
    decides for itself what is to be prepared; the decisions are modelled as plans, and the
    root of a plan is that of [Prepare].  Also the overlay-nonce file, the pins of lanes
    and amounts of BZZ.

    Parameters: the tar and mime_guess crates, the parser of large integers, the source of
    random bytes; the errors of the file system are arguments. *)
From Stdlib Require Import ZArith Lia.
From stdpp Require Import base tactics numbers countable strings list gmap.
From S2P Require Import Prelude Codec Erasure PushFrame Signer Stamp Metered Relay Peers Encoder Prepare Chain Cid Payer.
Local Open Scope Z_scope.
Local Open Scope hov_scope.

(** ** What an upload takes *)

(** [read_tar_files], the same in both files.  An entry of the archive: is it a regular
    file, its path, its contents. *)
Record TarEntry := mkTar { te_is_file : bool; te_path : result str str; te_data : result bytes str }.
(** [trim_start_matches("./")]. *)
Fixpoint trim_dot (s : str) : str := match s with 46 :: 47 :: s => trim_dot s | _ => s end.

Section Plans.
Context (entries : bytes -> result (list (result TarEntry str)) str) (from_path : str -> option (str * str)).

Fixpoint read_entries (l : list (result TarEntry str)) (out : list UploadFile) : result (list UploadFile) str :=
  match l with
  | [] => Ok out
  | r :: l =>
      let? e := r in
      if negb (te_is_file e) then read_entries l out
      else
        let? p := te_path e in
        let path := trim_dot p in
        if bool_decide (path = []) || bool_decide (path = lit ".") then read_entries l out
        else let? data := te_data e in read_entries l (out ++ [mkFile path (guess_from_path from_path path) data])
  end.
Definition read_tar_files (data : bytes) : result (list UploadFile) str := let? l := entries data in read_entries l [].

(** The arguments of [upload] that say what is uploaded: the name and the extension of the
    file, what reading it gives, and the flags. *)
Record Args := mkArgs {
  ar_name : option str; ar_ext : option str; ar_data : result bytes str; ar_raw : bool; ar_collection : bool;
  ar_manifest_path : option str; ar_content_type : option str; ar_index : option str; ar_error : option str; ar_level : Level }.

Inductive Plan :=
| PCollection (files : list UploadFile) (index_doc error_doc : option str) (level : Level)
| PRaw (data : bytes) (level : Level)
| PFile (data : bytes) (path : str) (content_type : option str) (level : Level).

Definition is_tar (ext : option str) : bool := match ext with Some e => str_eqb (to_ascii_lowercase e) (lit "tar") | None => false end.
Definition index_doc (index_document : option str) : option str :=
  match index_document with Some [] => None | Some s => Some s | None => Some (lit "index.html") end.
Definition manifest_path (path name : option str) : str := match path with Some p => p | None => default (lit "file") name end.
Definition or_guess (ct : option str) (path : str) : option str := match ct with Some c => Some c | None => guess_from_path from_path path end.

Definition plan_collection (data : bytes) (index error : option str) (level : Level) : result Plan str :=
  let? files := read_tar_files data in
  match files with [] => Err (lit "tar archive contains no regular files") | _ => Ok (PCollection files (index_doc index) error level) end.

(** [Commands::Upload], straight to the network. *)
Definition plan_direct (a : Args) : result Plan str :=
  let? data := ar_data a in
  if (ar_collection a || (is_tar (ar_ext a) && negb (ar_raw a))) && negb (ar_raw a) then plan_collection data (ar_index a) (ar_error a) (ar_level a)
  else if ar_raw a then Ok (PRaw data (ar_level a))
  else let path := manifest_path (ar_manifest_path a) (ar_name a) in Ok (PFile data path (or_guess (ar_content_type a) path) (ar_level a)).

(** The same with [--pusher]. *)
Definition plan_relays (a : Args) : result Plan str :=
  let? data := ar_data a in
  if ar_collection a || (is_tar (ar_ext a) && negb (ar_raw a)) then plan_collection data (ar_index a) (ar_error a) (ar_level a)
  else if ar_raw a then Ok (PRaw data (ar_level a))
  else let path := manifest_path (ar_manifest_path a) (ar_name a) in Ok (PFile data path (or_guess (ar_content_type a) path) (ar_level a)).

(** [struct UploadRequest], what it says of the object, and the request that [--daemon]
    sends. *)
Record UploadRequest := mkUploadRequest {
  ur_name : option str; ur_ext : option str; ur_raw : bool; ur_collection : bool; ur_progress : bool;
  ur_manifest_path : option str; ur_content_type : option str; ur_index_document : option str; ur_error_document : option str;
  ur_redundancy : option str }.
Definition daemon_request (progress : bool) (a : Args) : UploadRequest :=
  mkUploadRequest (ar_name a) (ar_ext a) (ar_raw a) (ar_collection a) progress (ar_manifest_path a) (ar_content_type a) (ar_index a) (ar_error a)
    (Some (level_fmt (ar_level a))).

(** [run_upload] of the daemon, up to the upload itself: [read] is what reading the file
    gives. *)
Definition plan_daemon (r : UploadRequest) (read : result bytes str) : result Plan str :=
  let? data := read in
  let? level := match ur_redundancy r with None => Ok DEFAULT_UPLOAD_LEVEL | Some s => level_from_str s end in
  if (ur_collection r || (is_tar (ur_ext r) && negb (ur_raw r))) && negb (ur_raw r) then plan_collection data (ur_index_document r) (ur_error_document r) level
  else if ur_raw r then Ok (PRaw data level)
  else Ok (PFile data (manifest_path (ur_manifest_path r) (ur_name r)) (ur_content_type r) level).

(** [Commands::Bmt]: of a collection one plan, else the raw upload and the one with a
    manifest. *)
Definition plan_bmt (a : Args) : result (Plan + Plan * Plan) str :=
  let? data := ar_data a in
  if ar_collection a || is_tar (ar_ext a) then let? p := plan_collection data (ar_index a) (ar_error a) (ar_level a) in Ok (inl p)
  else let path := manifest_path (ar_manifest_path a) (ar_name a) in
    Ok (inr (PRaw data (ar_level a), PFile data path (or_guess (ar_content_type a) path) (ar_level a))).

(** ** When the ways agree *)

(** The plan is one file in a manifest, whose type is neither given nor [None] by guess. *)
Definition guessed (a : Args) : bool :=
  negb (ar_collection a || is_tar (ar_ext a)) && negb (ar_raw a) && bool_decide (ar_content_type a = None)
  && bool_decide (is_Some (guess_from_path from_path (manifest_path (ar_manifest_path a) (ar_name a)))).

Lemma level_text l : level_from_str (level_fmt l) = Ok l.
Proof. by destruct l. Qed.

Lemma plan_collection_kind data i e l p : plan_collection data i e l = Ok p -> exists files, p = PCollection files (index_doc i) e l /\ files <> [].
Proof. unfold plan_collection. destruct (read_tar_files data) as [[|f fs]|e0]; cbn; [done| |done]. intros [= <-]. eauto. Qed.

(** The ways an upload can take agree on what is uploaded, with two exceptions.  Through
    the daemon the plan is the one of an upload straight to the network exactly unless the
    upload is of one file in a manifest whose media type is not given and could be guessed
    from its path: the daemon does not guess.  Through relays it is the same exactly unless
    both [--collection] and [--raw] are given. *)
Lemma ways_agree progress a data : ar_data a = Ok data ->
  (plan_daemon (daemon_request progress a) (ar_data a) = plan_direct a <-> guessed a = false) /\
  (plan_relays a = plan_direct a <-> ar_collection a && ar_raw a = false).
Proof.
  intros Ed. unfold plan_daemon, plan_relays, plan_direct, guessed, daemon_request. rewrite Ed. cbn. rewrite level_text. cbn [result_bind].
  destruct (ar_collection a), (ar_raw a), (is_tar (ar_ext a)) eqn:Et; cbn; try done;
    try (split; [done|]; split; [|done]; intros Hp; apply plan_collection_kind in Hp as (fs & Hf & _); discriminate).
  split; [|done]. unfold or_guess. destruct (ar_content_type a) as [ct|]; cbn; [done|].
  destruct (guess_from_path from_path _) as [g|]; cbn; split; done.
Qed.

(** What [bmt] plans, without [--raw] and with it. *)
Lemma bmt_agrees a : 
  match plan_bmt a with
  | Ok (inl p) => ar_raw a = false -> plan_direct a = Ok p
  | Ok (inr (p, q)) => plan_direct a = Ok (if ar_raw a then p else q)
  | Err e => ar_raw a = false -> plan_direct a = Err e
  end.
Proof.
  unfold plan_bmt, plan_direct. destruct (ar_data a) as [data|e]; cbn; [|done].
  destruct (ar_collection a), (is_tar (ar_ext a)), (ar_raw a); cbn; try done; by destruct (plan_collection _ _ _ _).
Qed.
End Plans.

(** ** References *)

Section Roots.
Context (split_plain : bytes -> result (bytes * list (bytes * (Z * bytes))) str).
Context (bmt : Z -> bytes -> bytes) (keccak : bytes -> bytes) (content_chunk : bytes -> result bytes str) (new_replica : Z -> bytes -> result (bytes * bytes) str).
Context {M : Type} (manifest_new : M) (add_with_metadata : M -> str -> bytes -> gmap str str -> result M str) (save : M -> result (bytes * Chunks) str).
Context {Stamper Digest : Type} (memory_issuer ring_issuer : Prepare.Batch -> result Stamper str).
Context (prepare_stamp : Stamper -> bytes -> Z -> Stamper * result Digest str) (sign_stamp : Digest -> result bytes str).
Context `{Hex} (signer : bytes).
Abbreviation split := (split_chunks split_plain bmt keccak content_chunk new_replica).
Abbreviation single := (build_single_entry_manifest manifest_new add_with_metadata save).
Abbreviation collection_of := (collection_root split_plain bmt keccak content_chunk new_replica manifest_new add_with_metadata save).

(** What [bmt] prints for a plan. *)
Definition bmt_reference (p : Plan) : result bytes PrepareError :=
  match p with
  | PCollection files i e level => let? (root, _) := collection_of files i e level in Ok root
  | PRaw data level => let? (root, _) := bmt_root split_plain bmt keccak content_chunk new_replica data level in Ok root
  | PFile data path ct level =>
      let? (file_root, _) := bmt_root split_plain bmt keccak content_chunk new_replica data level in
      let? (root, _) := map_err PrManifest (single path file_root ct) in Ok root
  end.

(** An upload of a plan, prepared at once. *)
Definition prepare_plan (batch_hex : str) (depth : Z) (immutable : bool) (ts : Z) (p : Plan) : result (bytes * list PushFrame.StampedChunk) PrepareError :=
  match p with
  | PCollection files i e level =>
      prepare_upload_collection split_plain bmt keccak content_chunk new_replica manifest_new add_with_metadata save memory_issuer ring_issuer prepare_stamp sign_stamp
        signer batch_hex depth immutable files i e level ts
  | PRaw data level => prepare_upload_bytes split_plain bmt keccak content_chunk new_replica memory_issuer ring_issuer prepare_stamp sign_stamp
        signer batch_hex depth immutable data level ts
  | PFile data path ct level =>
      prepare_upload_file_with_manifest split_plain bmt keccak content_chunk new_replica manifest_new add_with_metadata save memory_issuer ring_issuer prepare_stamp sign_stamp
        signer batch_hex depth immutable data path ct level ts
  end.

Lemma prepared_reference batch_hex depth immutable ts p root work : prepare_plan batch_hex depth immutable ts p = Ok (root, work) -> bmt_reference p = Ok root.
Proof.
  destruct p as [files i e level|data level|data path ct level]; cbn [prepare_plan bmt_reference].
  - unfold prepare_upload_collection. destruct files as [|f fs]; [done|].
    pose proof (collection_root_exact split_plain bmt keccak content_chunk new_replica manifest_new add_with_metadata save (f :: fs) i e level ltac:(done)) as Hc.
    destruct (parse_batch_id _); [cbn [result_bind]|done]. destruct (build_stamper _ _ _ _ _ _); [cbn [result_bind]|done].
    destruct (collection_chunks _ _ _ _ _ _ _ _ _ _ _ _) as [[r cs]|]; cbn [result_bind]; [|done].
    destruct Hc as [-> _]. destruct ((stamp_chunks_parallel _ _ _ _ _).2); cbn [result_bind]; [|done]. by intros [= <- _].
  - unfold prepare_upload_bytes, bmt_root. destruct (parse_batch_id _); [cbn [result_bind]|done].
    destruct (split _ _) as [[r cs]|]; cbn [result_bind]; [|done]. destruct (build_stamper _ _ _ _ _ _); [cbn [result_bind]|done].
    destruct ((stamp_chunks_parallel _ _ _ _ _).2); cbn [result_bind]; [|done]. by intros [= <- _].
  - unfold prepare_upload_file_with_manifest, bmt_root, file_chunks. destruct (parse_batch_id _); [cbn [result_bind]|done].
    destruct (split _ _) as [[r cs]|]; cbn [result_bind]; [|done]. destruct (map_err _ (single _ _ _)) as [[r' mcs]|]; cbn [result_bind]; [|done].
    destruct (build_stamper _ _ _ _ _ _); [cbn [result_bind]|done].
    destruct ((stamp_chunks_parallel _ _ _ _ _).2); cbn [result_bind]; [|done]. by intros [= <- _].
Qed.

Context (entries : bytes -> result (list (result TarEntry str)) str) (from_path : str -> option (str * str)).

End Roots.

(** ** The overlay nonce

    The file holds what [read_to_string] gives, or is missing.  Making it can fail at each
    step: the source of random bytes, creating and writing the temporary file, renaming. *)

Lemma hex_no_space c : is_hex_digit c = true -> is_whitespace c = false.
Proof. unfold is_hex_digit, is_whitespace. intros Hc. repeat (destruct (Z.leb_spec _ _) || destruct (Z.eqb_spec _ _)); cbn in *; try done; lia. Qed.

Lemma trim_start_solid (s : str) c : head s = Some c -> is_whitespace c = false -> trim_start s = s.
Proof. destruct s as [|x s]; [done|]. intros [= ->] Hc. cbn. by rewrite Hc. Qed.

(** Text between solid characters is not trimmed. *)
Lemma trim_solid (s : str) a z : head s = Some a -> last s = Some z -> is_whitespace a = false -> is_whitespace z = false -> trim s = s.
Proof.
  intros Ha Hz Sa Sz. unfold trim. rewrite (trim_start_solid s a Ha Sa), (trim_start_solid (reverse s) z); [apply reverse_involutive|by rewrite head_reverse|done].
Qed.

Section Nonce.
Context `{Hex}.

Definition parse_nonce (s : str) : result bytes str :=
  let? b := map_err (fun e => lit "bad hex: " ++ e) (hex_decode (trim_0X (trim_0x (trim s)))) in
  if negb (Nat.eqb (length b) 32) then Err (lit "expected 32 bytes, got " ++ u128_to_string (Z.of_nat (length b))) else Ok b.

Definition load_or_create_nonce (file : option str) (random create write rename : result unit str) (nonce : bytes) : option str * result bytes str :=
  match file with
  | Some s => (file, parse_nonce s)
  | None =>
      match (let? _ := random in let? _ := create in let? _ := write in rename) with
      | Ok _ => (Some (lit "0x" ++ hex_encode nonce ++ [10]), Ok nonce)
      | Err e => (None, Err e)
      end
  end.

Lemma trim_0X_hex `{!HexLaws _} b : trim_0X (hex_encode b) = hex_encode b.
Proof.
  pose proof (hex_digits b) as Hd. destruct (hex_encode b) as [|c1 [|c2 s]]; [done| |].
  { destruct c1 as [|p|p]; try done. repeat (destruct p as [p|p|]; try done). }
  apply Forall_cons in Hd as [_ Hd]. apply Forall_cons in Hd as [Hc2 _].
  assert (c2 <> 88) by (intros ->; discriminate). cbn [trim_0X]. destruct (decide (c1 = 48)) as [->|].
  - destruct c2 as [|p|p]; try done. repeat (destruct p as [p|p|]; try done).
  - destruct c1 as [|p|p]; try done. repeat (destruct p as [p|p|]; try done).
Qed.

Lemma trim_0x_app b : trim_0x (lit "0x" ++ b) = trim_0x b.
Proof. done. Qed.

(** What was written, as it is read: the line break goes, the prefix stays. *)
Lemma trim_line `{!HexLaws _} b : trim (lit "0x" ++ hex_encode b ++ [10]) = lit "0x" ++ hex_encode b.
Proof.
  unfold trim. change (trim_start (lit "0x" ++ ?x)) with (lit "0x" ++ x). rewrite app_assoc, reverse_app.
  change (trim_start (reverse [10] ++ ?x)) with (trim_start x).
  destruct (last (hex_encode b)) as [z|] eqn:El.
  - rewrite (trim_start_solid _ z); [by rewrite reverse_involutive| |].
    + rewrite head_reverse, last_app, El. done.
    + pose proof (hex_digits b) as Hd. rewrite Forall_forall in Hd. apply hex_no_space, Hd. by apply last_Some_elem_of.
  - apply last_None in El as ->. done.
Qed.

Lemma parse_written `{!HexLaws _} nonce : all_bytes nonce -> length nonce = 32%nat -> parse_nonce (lit "0x" ++ hex_encode nonce ++ [10]) = Ok nonce.
Proof.
  intros Hn Hl. unfold parse_nonce. rewrite trim_line, trim_0x_app, trim_0x_hex, trim_0X_hex, hex_roundtrip by done. cbn [map_err result_bind]. by rewrite Hl.
Qed.

(** The nonce is settled once: a call that makes it returns what every later call reads,
    which leave the file alone; a call that fails to make it leaves none behind. *)
Theorem nonce_settled `{!HexLaws _} file random create write rename nonce file' r : all_bytes nonce -> length nonce = 32%nat ->
  load_or_create_nonce file random create write rename nonce = (file', r) ->
  (forall n, r = Ok n -> forall random' create' write' rename' nonce', load_or_create_nonce file' random' create' write' rename' nonce' = (file', Ok n)) /\
  (file = None -> forall e, r = Err e -> file' = None).
Proof.
  intros Hn Hl. destruct file as [s|]; cbn [load_or_create_nonce].
  { intros [= <- <-]. split; [|done]. intros n Hr *. cbn [load_or_create_nonce]. by rewrite Hr. }
  destruct (let? _ := random in _) as [u|e0]; intros [= <- <-]; [|done]. split; [|done]. intros n [= <-] *. 
  exact (f_equal (fun r => (_, r)) (parse_written nonce Hn Hl)).
Qed.
End Nonce.

(** ** Pins of lanes *)

Section Pins.
Context `{Hex}.

Definition parse_address_hex (s : str) : result bytes str :=
  let t := trim_0X (trim_0x s) in
  if negb (Nat.eqb (length t) 40) then Err (lit "expected 40 hex chars (20 bytes), got " ++ u128_to_string (Z.of_nat (length t)) ++ lit " chars")
  else map_err (fun e => lit "bad hex: " ++ e) (hex_decode t).

(** [trim_end_matches('/')]. *)
Fixpoint trim_slashes (s : str) : str := match s with 47 :: s => trim_slashes s | _ => s end.
Definition lane_url (s : str) : str := reverse (trim_slashes (reverse (trim s))).
Definition parse_lane_pin (entry : str) : result (str * LanePin) str :=
  match split_all 44 entry with
  | [u; n; b] =>
      let url := lane_url u in
      if bool_decide (url = []) then Err (lit "--lane-pin has empty URL in " ++ entry)
      else
        let? node := map_err (fun e => lit "--lane-pin node: " ++ e) (parse_address_hex (trim n)) in
        let? beneficiary := map_err (fun e => lit "--lane-pin beneficiary: " ++ e) (parse_address_hex (trim b)) in
        Ok (url, mkPin node beneficiary)
  | _ => Err (lit "--lane-pin must be URL,NODE,BENEFICIARY (0x-hex), got " ++ entry)
  end.
Fixpoint parse_lane_pins (raw : list str) (out : gmap str LanePin) : result (gmap str LanePin) str :=
  match raw with [] => Ok out | e :: raw => let? (url, pin) := parse_lane_pin e in parse_lane_pins raw (<[url := pin]> out) end.

(** [root_hex_to_cid]. *)
Definition root_hex_to_cid (root_hex : str) : option str :=
  match hex_decode root_hex with Ok b => if Nat.eqb (length b) 32 then Some (reference_to_cid b) else None | Err _ => None end.
End Pins.

(** ** Amounts of BZZ *)

Definition is_digit (c : Z) : bool := (48 <=? c) && (c <=? 57).
Definition dec_value (s : str) : Z := foldl (fun n c => n * 10 + (c - 48)) 0 s.
Definition BZZ_DECIMALS : nat := 16.

(** [U256::from_str_radix] of the ruint crate on decimal digits. *)
Class Radix := { u256_from_str_radix : str -> Z -> result Z str }.
Class RadixLaws (R : Radix) : Prop := {
  radix_digits s : Forall (fun c => is_digit c = true) s -> s <> [] -> dec_value s <= U256_MAX -> u256_from_str_radix s 10 = Ok (dec_value s);
  radix_over s : Forall (fun c => is_digit c = true) s -> U256_MAX < dec_value s -> exists e, u256_from_str_radix s 10 = Err e }.

Section Amount.
Context `{RadixLaws}.

Definition parse_bzz_amount (s : str) : result Z str :=
  let s := trim s in
  let '(whole, frac) := match split_once (lit ".") s with Some wf => wf | None => (s, []) end in
  if Nat.ltb BZZ_DECIMALS (length frac) then Err (lit "BZZ has 16 decimals; '" ++ s ++ lit "' has more")
  else if bool_decide (whole = []) && bool_decide (frac = []) then Err (lit "empty amount")
  else
    let digits := whole ++ frac ++ replicate (BZZ_DECIMALS - length frac) 48 in
    if negb (forallb is_digit digits) then Err (lit "'" ++ s ++ lit "' is not a decimal amount") else u256_from_str_radix digits 10.

Lemma dec_value_from n s : foldl (fun n c => n * 10 + (c - 48)) n s = n * 10 ^ Z.of_nat (length s) + dec_value s.
Proof.
  unfold dec_value. revert n. induction s as [|c s IH]; intros n; cbn [foldl length]; [lia|].
  rewrite IH, (IH (0 * 10 + (c - 48))), Nat2Z.inj_succ, Z.pow_succ_r by lia. lia.
Qed.
Lemma dec_value_app a b : dec_value (a ++ b) = dec_value a * 10 ^ Z.of_nat (length b) + dec_value b.
Proof. unfold dec_value at 1. by rewrite foldl_app, dec_value_from. Qed.
Lemma dec_value_zeros n : dec_value (replicate n 48) = 0.
Proof. induction n as [|n IH]; [done|]. change (replicate (S n) 48) with ([48] ++ replicate n 48). by rewrite dec_value_app, IH. Qed.

Lemma split_once_char c a b : Forall (fun x => x <> c) a -> split_once [c] (a ++ c :: b) = Some (a, b).
Proof.
  induction a as [|x a IH]; intros Ha; cbn [app split_once strip_prefix]; [by rewrite Z.eqb_refl|].
  apply Forall_cons in Ha as [Hx Ha]. rewrite (proj2 (Z.eqb_neq c x)) by done. by rewrite IH.
Qed.

Lemma forallb_digits s : Forall (fun c => is_digit c = true) s -> forallb is_digit s = true.
Proof. intros Hs. apply forallb_forall. intros x Hx. rewrite Forall_forall in Hs. by apply Hs, list_elem_of_In. Qed.

Lemma digit_solid c : is_digit c = true -> is_whitespace c = false.
Proof. intros Hc. apply hex_no_space. unfold is_hex_digit. unfold is_digit in Hc. by rewrite Hc. Qed.

(** An amount of BZZ written with a point means exactly that many PLUR: the whole part
    times 10^16 and the fraction at its place, for at most sixteen decimals and what fits
    256 bits. *)
Theorem bzz_amount_exact w f : Forall (fun c => is_digit c = true) w -> Forall (fun c => is_digit c = true) f -> w <> [] -> f <> [] -> (length f <= 16)%nat ->
  let v := dec_value w * 10 ^ 16 + dec_value f * 10 ^ (16 - Z.of_nat (length f)) in
  v <= U256_MAX -> parse_bzz_amount (lit " " ++ w ++ lit "." ++ f) = Ok v.
Proof.
  intros Hw Hf Hwn Hfn Hl v Hv. unfold parse_bzz_amount.
  assert (Hs : trim (lit " " ++ w ++ lit "." ++ f) = w ++ 46 :: f).
  { change (trim (lit " " ++ ?x)) with (trim x). destruct w as [|c w]; [done|]. destruct (last f) as [z|] eqn:El; [|by apply last_None in El].
    apply (trim_solid _ c z); [done| | |].
    - rewrite last_app. change (lit "." ++ f) with ([46] ++ f). rewrite last_app, El. done.
    - apply Forall_cons in Hw as [Hc _]. by apply digit_solid.
    - rewrite Forall_forall in Hf. apply digit_solid, Hf. by apply last_Some_elem_of. }
  rewrite Hs. change (lit ".") with [46]. rewrite split_once_char.
  2:{ eapply Forall_impl; [exact Hw|]. intros x Hx ->. discriminate. }
  rewrite (proj2 (Nat.ltb_ge _ _)) by (unfold BZZ_DECIMALS; lia). rewrite (bool_decide_eq_false_2 (w = [])) by done. cbn [andb].
  assert (Hd : Forall (fun c => is_digit c = true) (w ++ f ++ replicate (BZZ_DECIMALS - length f) 48)).
  { rewrite !Forall_app. split_and!; [done..|]. by apply Forall_replicate. }
  rewrite forallb_digits by done. cbn [negb].
  assert (Ev : dec_value (w ++ f ++ replicate (BZZ_DECIMALS - length f) 48) = v).
  { rewrite !dec_value_app, dec_value_zeros, length_app, length_replicate. unfold BZZ_DECIMALS, v.
    replace (Z.of_nat (length f + (16 - length f))) with 16 by lia. replace (Z.of_nat (16 - length f)) with (16 - Z.of_nat (length f)) by lia. lia. }
  rewrite radix_digits; [by rewrite Ev|done|by destruct w|by rewrite Ev].
Qed.
End Amount.

(** ** Concrete uploads *)
Module CliWitness.
Import PrepareWitness.
Definition no_tar (b : bytes) : result (list (result TarEntry str)) str := Ok [].
Definition html (path : str) : option (str * str) := if contains (lit ".html") path then Some (lit "text", lit "text/html") else None.
(** One page, by its name only. *)
Definition page (ct : option str) : Args := mkArgs (Some (lit "a.html")) (Some (lit "html")) (Ok [1; 2; 3]) false false None ct None None LNone.


(** The daemon leaves the type of the page out; the direct upload does not. *)
Example daemon_differs :
  plan_direct no_tar html (page None) = Ok (PFile [1; 2; 3] (lit "a.html") (Some (lit "text/html; charset=utf-8")) LNone) /\
  plan_daemon no_tar html (daemon_request false (page None)) (Ok [1; 2; 3]) = Ok (PFile [1; 2; 3] (lit "a.html") None LNone).
Proof. split; vm_compute; reflexivity. Qed.
End CliWitness.
