(* ===== verification/Daemon.v ===== *)
(** * The daemon ([src/src/daemon.rs])

    A long-running process that keeps a pool of sessions for the uploads and downloads of
    other processes: the frames of its socket, an upload with its stream of progress, the
    requests, the filling and the upkeep of the pool, and the search for a better overlay.

    Parameters: serde_json's text of requests and responses, the client's upload and
    download functions (by what they answer), what filling a pool does ([Filler], met by
    [PoolFill]), keccak and the file system.  Locks are held for single operations, which
    are atomic here; logs and the inbound listener are left out. *)
From Stdlib Require Import ZArith Lia.
From stdpp Require Import base tactics numbers countable strings list gmap.
From S2P Require Import Prelude Codec F64 Erasure Framing PushFrame Signer Stamp Metered Relay Protocols Peers SessionPool PoolFill Manifest Encoder Prepare Chain Cli.
Local Open Scope Z_scope.
Local Open Scope hov_scope.

Definition MAX_FRAME : Z := 2 ^ 20.

(** ** Frames: [read_frame], [write_frame] *)

Inductive IoError := FrameTooLarge (len : Z) | BadJson (e : str) | UnexpectedEof | BrokenPipe.
(** One end of a connection: what is still to be read before the other side has closed it,
    what was written, and whether the other side still takes it. *)
Record Conn := mkConn { cn_in : bytes; cn_out : bytes; cn_up : bool }.

Section Frames.
Context {T : Type} (to_vec : T -> bytes) (from_slice : bytes -> result T str).

Definition frame (v : T) : bytes := to_le_bytes 4 (Z.of_nat (length (to_vec v))) ++ to_vec v.
Definition fits (v : T) : bool := Z.of_nat (length (to_vec v)) <=? MAX_FRAME.
Definition write_frame (c : Conn) (v : T) : Conn * result unit IoError :=
  if negb (fits v) then (c, Err (FrameTooLarge (Z.of_nat (length (to_vec v)))))
  else if cn_up c then (mkConn (cn_in c) (cn_out c ++ frame v) true, Ok tt)
  else (c, Err BrokenPipe).
Definition read_frame (c : Conn) : Conn * result (option T) IoError :=
  if Nat.ltb (length (cn_in c)) 4 then (mkConn [] (cn_out c) (cn_up c), Ok None)
  else
    let len := from_le_bytes (take 4 (cn_in c)) in
    let rest := drop 4 (cn_in c) in
    if MAX_FRAME <? len then (mkConn rest (cn_out c) (cn_up c), Err (FrameTooLarge len))
    else if Z.of_nat (length rest) <? len then (mkConn [] (cn_out c) (cn_up c), Err UnexpectedEof)
    else
      (mkConn (drop (Z.to_nat len) rest) (cn_out c) (cn_up c),
       match from_slice (take (Z.to_nat len) rest) with Ok v => Ok (Some v) | Err e => Err (BadJson e) end).

Lemma read_framed v rest out up : fits v = true -> from_slice (to_vec v) = Ok v ->
  read_frame (mkConn (frame v ++ rest) out up) = (mkConn rest out up, Ok (Some v)).
Proof.
  intros Hf Hv. unfold fits, MAX_FRAME in Hf. apply Z.leb_le in Hf. unfold read_frame, frame. cbn [cn_in cn_out cn_up].
  set (n := Z.of_nat (length (to_vec v))) in *.
  assert (Hn : from_le_bytes (to_le_bytes 4 n) = n) by (rewrite from_to_le_bytes_mod; apply Z.mod_small; unfold n in *; lia).
  rewrite <- app_assoc, !length_app, to_le_bytes_length. cbn [Nat.add Nat.ltb Nat.leb].
  rewrite (take_app_length' (to_le_bytes 4 n)), (drop_app_length' (to_le_bytes 4 n)) by (by rewrite to_le_bytes_length). rewrite Hn.
  unfold MAX_FRAME. rewrite (proj2 (Z.ltb_ge _ _)) by lia. rewrite length_app, (proj2 (Z.ltb_ge _ _)) by (unfold n; lia).
  unfold n. rewrite Nat2Z.id, take_app_length, drop_app_length, Hv. done.
Qed.
End Frames.

(** ** Requests and responses *)

Record FetchRequest := mkFetch { fr_hash : str; fr_path : option str; fr_output : option str; fr_list : bool }.
Inductive Request := Ping | UploadOp (r : UploadRequest) | FetchOp (r : FetchRequest) | ReloadPeers | SavePeers | StatusOp | Shutdown.
Inductive Response :=
| Pong
| Progress (done total : Z)
| Uploaded (root : str) (bytes : Z)
| Fetched (bytes_written : Z) (content_type : option str)
| Listed (entries : list ManifestEntry)
| StatusIs (pool_target pool_len live_count peerlist_total peerlist_dialable : nat) (pool_initialized : bool)
| ROk
| RErr (message : str).

(** serde_json on both ends: what is written parses to the same value. *)
Class Wire := {
  req_text : Request -> bytes; req_parse : bytes -> result Request str;
  resp_text : Response -> bytes; resp_parse : bytes -> result Response str }.
Class WireLaws (W : Wire) : Prop := {
  req_roundtrip : forall r, req_parse (req_text r) = Ok r;
  resp_roundtrip : forall r, resp_parse (resp_text r) = Ok r }.

(** ** An upload with its progress: [drive_upload] *)

Section Drive.
Context `{Wire} {R : Type}.

(** The future of an upload: the updates each poll makes available before the one that
    completes it, those of the last, and the result. *)
Record Fut := mkFut { f_polls : list (list (Z * Z)); f_last : list (Z * Z); f_result : R }.
Record Drv := mkDrv { dv_conn : Conn; dv_queue : list (Z * Z); dv_open : bool; dv_polls : list (list (Z * Z)) }.

Definition send_progress (c : Conn) (p : Z * Z) : Conn := (write_frame resp_text c (Progress p.1 p.2)).1.
(** Without a callback nothing is sent, and the channel is closed from the start. *)
Definition emitted (senders : bool) (es : list (Z * Z)) : list (Z * Z) := if senders then es else [].
Definition poll_upload (senders : bool) (fut : Fut) (d : Drv) : Drv + Conn * R :=
  match dv_polls d with
  | es :: ps => inl (mkDrv (dv_conn d) (dv_queue d ++ emitted senders es) (dv_open d) ps)
  | [] => inr (foldl send_progress (dv_conn d) (dv_queue d ++ emitted senders (f_last fut)), f_result fut)
  end.
(** A turn of the [select!]: the receiver first, while it is open. *)
Definition drive_turn (senders : bool) (fut : Fut) (d : Drv) : Drv + Conn * R :=
  if dv_open d then
    match dv_queue d with
    | p :: q => inl (mkDrv (send_progress (dv_conn d) p) q true (dv_polls d))
    | [] => if senders then poll_upload senders fut d else inl (mkDrv (dv_conn d) [] false (dv_polls d))
    end
  else poll_upload senders fut d.
Fixpoint drive_loop (fuel : nat) (senders : bool) (fut : Fut) (d : Drv) : option (Conn * R) :=
  match fuel with
  | O => None
  | S fuel => match drive_turn senders fut d with inl d => drive_loop fuel senders fut d | inr r => Some r end
  end.
(** Turns enough: one for each update and for each poll, and one to close the receiver. *)
Definition turns (fut : Fut) : nat := S (S (length (f_polls fut) + length (concat (f_polls fut)))).
Definition drive_upload (c : Conn) (senders : bool) (fut : Fut) : option (Conn * R) :=
  drive_loop (turns fut) senders fut (mkDrv c [] true (f_polls fut)).

Definition updates (senders : bool) (fut : Fut) : list (Z * Z) := emitted senders (concat (f_polls fut) ++ f_last fut).

Lemma drive_loop_ends senders fut fuel : forall d, (senders = false -> dv_queue d = []) ->
  (length (dv_queue d) + length (dv_polls d) + length (concat (dv_polls d)) + (if dv_open d then 1 else 0) < fuel)%nat ->
  (dv_open d = false -> senders = false) ->
  drive_loop fuel senders fut d =
    Some (foldl send_progress (dv_conn d) (dv_queue d ++ emitted senders (concat (dv_polls d) ++ f_last fut)), f_result fut).
Proof.
  induction fuel as [|fuel IH]; intros [c q o ps] Hq Hf Ho; cbn [dv_conn dv_queue dv_open dv_polls] in *; [lia|].
  assert (Hpoll : match poll_upload senders fut (mkDrv c q o ps) with inl d => drive_loop fuel senders fut d | inr r => Some r end =
    Some (foldl send_progress c (q ++ emitted senders (concat ps ++ f_last fut)), f_result fut) \/ (o = true /\ q <> []) \/ (o = true /\ senders = false)).
  { destruct o; [destruct q as [|p q]; [destruct senders; [|by right; right]|by right; left]|]; left; unfold poll_upload;
      cbn [dv_conn dv_queue dv_open dv_polls]; (destruct ps as [|es ps]; [done|]); cbn [concat length] in Hf; rewrite length_app in Hf.
    - rewrite IH; cbn [dv_conn dv_queue dv_open dv_polls]; [|done|cbn in *; lia|done]. cbn [emitted app concat]. by rewrite app_assoc.
    - specialize (Ho eq_refl) as ->. rewrite (Hq eq_refl) in *. rewrite IH; cbn [dv_conn dv_queue dv_open dv_polls emitted]; [done|done|cbn in *; lia|done]. }
  cbn [drive_loop]. unfold drive_turn. cbn [dv_open dv_queue]. destruct o; [|destruct Hpoll as [|[[? _]|[? _]]]; done].
  destruct q as [|p q].
  - destruct senders; [destruct Hpoll as [|[[_ ?]|[_ ?]]]; done|]. cbn [dv_conn dv_polls]. rewrite IH; cbn [dv_conn dv_queue dv_open dv_polls]; [done|done|cbn in *; lia|done].
  - cbn [dv_conn dv_polls]. rewrite IH; cbn [dv_conn dv_queue dv_open dv_polls]; [done|intros Hs; by specialize (Hq Hs)|cbn in *; lia|done].
Qed.

(** The upload completes whether or not progress was asked for, with each update sent once
    and in order. *)
Lemma drive_completes c senders fut : drive_upload c senders fut = Some (foldl send_progress c (updates senders fut), f_result fut).
Proof. unfold drive_upload. rewrite drive_loop_ends; [done|done|cbn; unfold turns; lia|done]. Qed.
End Drive.

(** ** The pool: [ensure_pool], [maintain_pool] *)

(** [struct State], what requests and ticks change, and what they read of it.  The file is
    what reading the peer list gives. *)
Record State := mkState {
  st_peers : PeerStore; st_pool : option SessionPool; st_target : nat; st_active : Z; st_file : result str str;
  st_log : list (str * DialResult * Z); st_stopping : bool }.
Definition with_pool (st : State) (p : option SessionPool) : State :=
  mkState (st_peers st) p (st_target st) (st_active st) (st_file st) (st_log st) (st_stopping st).
Definition with_peers (st : State) (ps : PeerStore) (log : list (str * DialResult * Z)) : State :=
  mkState ps (st_pool st) (st_target st) (st_active st) (st_file st) log (st_stopping st).
Definition with_file (st : State) (f : result str str) : State :=
  mkState (st_peers st) (st_pool st) (st_target st) (st_active st) f (st_log st) (st_stopping st).
Definition with_active (st : State) (n : Z) : State :=
  mkState (st_peers st) (st_pool st) (st_target st) n (st_file st) (st_log st) (st_stopping st).
Definition with_stopping (st : State) : State :=
  mkState (st_peers st) (st_pool st) (st_target st) (st_active st) (st_file st) (st_log st) true.

(** What filling a pool to a size promises: the sessions it holds stay, new ones are to
    other peers, and the size is not exceeded. *)
Definition grown (pool pool' : SessionPool) (target added : nat) : Prop :=
  (exists new, pool' = pool ++ new /\ length new = added) /\ NoDup (map low pool') /\ (length pool' <= Nat.max (length pool) target)%nat.
(** [fill store pool target]: the pool afterwards and the number of sessions opened, also
    when the deadline cut it short. *)
Class Filler := fill : PeerStore -> SessionPool -> nat -> SessionPool * nat.
Class FillerLaws (F : Filler) : Prop :=
  fill_grows : forall st pool target, store_ok st -> NoDup (map low pool) -> grown pool (fill st pool target).1 target (fill st pool target).2.

(** Every outcome of [SessionPool::top_up] keeps that promise. *)
Lemma top_up_grows `{Hex} parse_multiaddr swarm_proximity host_key (decode_bytes : forall s b, hex_decode s = Ok b -> all_bytes b)
    browser st now target pool log hist pool' log' n : store_ok st -> NoDup (map low pool) ->
  top_up (dial_list parse_multiaddr swarm_proximity host_key browser 1 st now) target pool log hist (pool', log', n) -> grown pool pool' target n.
Proof.
  intros Hst Hnd Ht. destruct (top_up_keeps_set parse_multiaddr swarm_proximity host_key decode_bytes browser st now target pool log hist pool' log' n Hst Hnd Ht)
    as ((new & E & El & _) & Hn & Hl & _). split; [by exists new|done].
Qed.

Section Pool.
Context `{Filler} (parse_multiaddr : str -> option str).

Definition EAGER_FILL_BOOTSTRAP : nat := 64.
(** The peers the bootnodes reported, the first report of each. *)
Definition take_fresh (acc : list Peer * gset str) (p : Peer) : list Peer * gset str :=
  let key := to_ascii_lowercase (overlay p) in if bool_decide (key ∈ acc.2) then acc else (acc.1 ++ [p], {[key]} ∪ acc.2).
Definition all_fresh (answers : list (result (list Peer) str)) : list Peer :=
  (foldl (fun acc r => match r with Ok fresh => foldl take_fresh acc fresh | Err _ => acc end) ([], ∅) answers).1.
Definition pool_ready (st : State) : option SessionPool := match st_pool st with Some (e :: p) => Some (e :: p) | _ => None end.

(** [doh] says whether discovery is configured; [answers] is what it gives for each
    bootnode; [now] is the clock. *)
Definition ensure_pool (st : State) (now : Z) (doh : bool) (answers : list (result (list Peer) str)) : State * result SessionPool str :=
  match pool_ready st with
  | Some p => (st, Ok p)
  | None =>
      let st := with_pool st (Some []) in
      let warm := fresh_known_good_count parse_multiaddr (st_peers st) now KNOWN_GOOD_FRESHNESS_SECS in
      let skip_discover := Nat.leb WARM_PEERLIST_MIN_KNOWN_GOOD warm in
      let st := if doh && negb skip_discover then with_peers st (foldl upsert (st_peers st) (all_fresh answers)) (st_log st) else st in
      let '(pool, added) := fill (st_peers st) [] (Nat.min (st_target st) EAGER_FILL_BOOTSTRAP) in
      if Nat.eqb added 0 && Nat.eqb (length pool) 0
      then (with_pool st None, Err (lit "pool fill opened 0 sessions (peerlist unreachable?)"))
      else (with_pool st (Some pool), Ok pool)
  end.

(** [maintain_pool]; [filling] says that the fill lock is taken. *)
Definition max_per_tick (target : nat) : nat := Nat.max (target / 8) 8.
Definition maintain_pool (alive : nat -> bool) (now : Z) (filling : bool) (st : State) : State :=
  match st_pool st with
  | None => st
  | Some pool =>
      if filling then st
      else
        let '(pool, pruned) := prune_dead alive now pool in
        let after_prune := length pool in
        let target := st_target st in
        if Nat.eqb pruned 0 && Nat.leb target after_prune then with_pool st (Some pool)
        else with_pool st (Some (fill (st_peers st) pool (Nat.min (after_prune + max_per_tick target) target)).1)
  end.

(** Seconds to the next tick: one while idle, [HOVERFLY_MAINTENANCE_SECS] (three by
    default) while an operation runs. *)
Definition busy_secs (env : option str) : Z :=
  match env with Some s => match u128_parse s with Ok n => if (0 <? n) && (n <=? U64_MAX) then n else 3 | Err _ => 3 end | None => 3 end.
Definition tick_secs (env : option str) (active : Z) : Z := if 0 <? active then busy_secs env else Z.min (busy_secs env) 1.
End Pool.

(** *** The pool stays a set of peers within its target *)

Definition pool_ok (st : State) : Prop :=
  match st_pool st with Some p => NoDup (map low p) /\ (length p <= st_target st)%nat | None => True end.

Lemma upsert_all ps : forall store, store_ok store -> Forall (fun p => 0 <= consecutive_failures p <= U16_MAX) ps -> store_ok (foldl upsert store ps).
Proof. induction ps as [|p ps IH]; intros store Hs Hp; [done|]. apply Forall_cons in Hp as [H1 H2]. apply IH; [by apply upsert_ok|done]. Qed.

Lemma take_fresh_in acc p q : q ∈ (take_fresh acc p).1 -> q ∈ acc.1 \/ q = p.
Proof. unfold take_fresh. case_bool_decide; [by left|]. cbn. intros [?|?%list_elem_of_singleton]%elem_of_app; auto. Qed.
Lemma all_fresh_in answers p : p ∈ all_fresh answers -> exists fresh, Ok fresh ∈ answers /\ p ∈ fresh.
Proof.
  unfold all_fresh.
  assert (Hone : forall fresh acc, p ∈ (foldl take_fresh acc fresh).1 -> p ∈ acc.1 \/ p ∈ fresh).
  { induction fresh as [|q fresh IH]; intros acc Hp; [by left|]. cbn [foldl] in Hp. apply IH in Hp as [Hp|Hp]; [|right; by right].
    apply take_fresh_in in Hp as [?| ->]; [by left|right; left]. }
  enough (Hg : forall acc, p ∈ (foldl (fun acc r => match r with Ok fresh => foldl take_fresh acc fresh | Err _ => acc end) acc answers).1 ->
    p ∈ acc.1 \/ exists fresh, Ok fresh ∈ answers /\ p ∈ fresh).
  { intros [?%not_elem_of_nil|]%Hg; [done|done]. }
  induction answers as [|[fresh|e] answers IH]; intros acc Hp; [by left| |]; cbn [foldl] in Hp; apply IH in Hp as [Hp|(f & Hf & Hp)]; try (right; exists f; split; [by right|done]).
  - apply Hone in Hp as [?|?]; [by left|]. right. exists fresh. split; [left|done].
  - by left.
Qed.

Section PoolProps.
Context `{FillerLaws} (parse_multiaddr : str -> option str).

(** What [ensure_pool] gives: a pool that is not empty, the same that later requests find;
    or an error, and then nothing is left installed.  One that was ready is not touched,
    and no discovery runs when the peer list is warm. *)
Lemma ensure_pool_spec st now doh answers st' r : store_ok (st_peers st) -> pool_ok st ->
  Forall (fun a => forall fresh, a = Ok fresh -> Forall (fun p => 0 <= consecutive_failures p <= U16_MAX) fresh) answers ->
  ensure_pool parse_multiaddr st now doh answers = (st', r) ->
  store_ok (st_peers st') /\ pool_ok st' /\ st_target st' = st_target st /\
  match r with Ok p => p <> [] /\ st_pool st' = Some p | Err _ => st_pool st' = None end /\
  (forall p, pool_ready st = Some p -> st' = st /\ r = Ok p) /\
  ((WARM_PEERLIST_MIN_KNOWN_GOOD <= fresh_known_good_count parse_multiaddr (st_peers st) now KNOWN_GOOD_FRESHNESS_SECS)%nat -> st_peers st' = st_peers st).
Proof.
  intros Hs Hp Ha. unfold ensure_pool. destruct (pool_ready st) as [p0|] eqn:Er.
  { intros [= <- <-]. assert (Hr : p0 <> [] /\ st_pool st = Some p0) by (unfold pool_ready in Er; destruct (st_pool st) as [[|e p]|]; try done; by injection Er as <-).
    split; [done|]. split; [done|]. split; [done|]. split; [done|]. split; [|done]. by intros p [= <-]. }
  cbn [with_pool st_peers st_target]. remember (Nat.leb WARM_PEERLIST_MIN_KNOWN_GOOD _) as skip eqn:Esk.
  set (st1 := if doh && negb skip then _ else _).
  assert (Hs1 : store_ok (st_peers st1) /\ st_target st1 = st_target st /\ (skip = true -> st_peers st1 = st_peers st)).
  { unfold st1. destruct (doh && negb skip) eqn:Ed; cbn; [|done]. split_and!; [|done|intros Hsk; rewrite Hsk, andb_false_r in Ed; done].
    apply upsert_all; [done|]. apply Forall_forall. intros p Hin. apply all_fresh_in in Hin as (fresh & Hf & Hin).
    rewrite Forall_forall in Ha. specialize (Ha _ Hf fresh eq_refl). rewrite Forall_forall in Ha. by apply Ha. }
  clearbody st1. destruct Hs1 as (Hs1 & Ht & Hk).
  pose proof (fill_grows (st_peers st1) [] (Nat.min (st_target st1) EAGER_FILL_BOOTSTRAP) Hs1 ltac:(constructor)) as Hg.
  destruct (fill _ _ _) as [pool added]. cbn [fst snd] in Hg. destruct Hg as ((new & -> & <-) & Hn & Hl). cbn [length app Nat.max] in *.
  assert (Hskip : (WARM_PEERLIST_MIN_KNOWN_GOOD <= fresh_known_good_count parse_multiaddr (st_peers st) now KNOWN_GOOD_FRESHNESS_SECS)%nat -> st_peers st1 = st_peers st)
    by (intros Hw; apply Hk; rewrite Esk; by apply Nat.leb_le).
  destruct (Nat.eqb_spec (length new) 0) as [E|E]; intros Heq; injection Heq as <- <-; unfold pool_ok; cbn; split_and!; try done.
  - lia.
  - intros ->. done.
Qed.

(** A tick of the upkeep: what is dead goes, what is usable stays where it is, at most a
    share of the target is added, never beyond it; while a fill runs it does nothing. *)
Theorem maintenance_bounded alive now filling st : store_ok (st_peers st) -> pool_ok st ->
  let st' := maintain_pool alive now filling st in
  pool_ok st' /\ st_peers st' = st_peers st /\ st_target st' = st_target st /\
  (filling = true -> st' = st) /\
  forall pool, st_pool st = Some pool -> filling = false ->
    exists new, st_pool st' = Some (List.filter (usable alive now) pool ++ new) /\ (length new <= max_per_tick (st_target st))%nat.
Proof.
  intros Hs Hp. cbv zeta. unfold maintain_pool. unfold pool_ok in *. destruct (st_pool st) as [pool|] eqn:Epool; [|by rewrite Epool].
  destruct filling; [by rewrite Epool|]. destruct Hp as [Hn Hl]. unfold prune_dead. set (kept := List.filter _ pool).
  assert (Hk : NoDup (map low kept) /\ (length kept <= length pool)%nat).
  { split; [|apply filter_length_le]. eapply sublist_NoDup; [exact Hn|]. apply (fmap_sublist low), filter_sublist. }
  destruct Hk as [Hkn Hkl]. destruct (Nat.eqb _ 0 && _).
  - cbn. split_and!; try done; [lia|]. intros p [= <-] _. exists []. rewrite app_nil_r. split; [done|cbn; lia].
  - cbn [with_pool st_pool st_peers st_target].
    destruct (fill_grows (st_peers st) kept (Nat.min (length kept + max_per_tick (st_target st)) (st_target st)) Hs Hkn) as ((new & -> & Hlen) & Hn' & Hl').
    rewrite length_app in *. split_and!; try done; [lia|]. intros p [= <-] _. exists new. split; [done|]. lia.
Qed.
End PoolProps.

(** ** Requests: [handle_conn] *)

(** What the world answers while a request is served: the clock and which sessions live,
    discovery, the key and the file of an upload, the client's functions, the disk. *)
Record Env := mkEnv {
  ev_now : Z; ev_alive : nat -> bool; ev_doh : bool; ev_found : list (result (list Peer) str);
  ev_signer : result unit str; ev_read : result bytes str; ev_upload : option SessionPool -> Plan -> Fut (R := result bytes str);
  ev_list : str -> result (list ManifestEntry) str; ev_path : str -> str -> result (bytes * option str) str;
  ev_bytes : str -> result bytes str; ev_write : str -> bytes -> result unit str; ev_save : str -> result unit str }.

Section Handlers.
Context `{Wire} `{Filler} `{Hex} (parse_multiaddr : str -> option str).
Context (from_str : str -> result PeerStore str) (to_string_pretty : PeerStore -> result str str).
Context (entries : bytes -> result (list (result TarEntry str)) str) (from_path : str -> option (str * str)).

Definition failed (e : str) : Fut (R := result (str * Z) str) := mkFut [] [] (Err e).
(** The root in hexadecimal, with the size of what was read. *)
Definition concluded (n : nat) (f : Fut (R := result bytes str)) : Fut (R := result (str * Z) str) :=
  mkFut (f_polls f) (f_last f) (match f_result f with Ok root => Ok (hex_encode root, Z.of_nat n) | Err e => Err e end).
Definition run_upload (env : Env) (st : State) (r : UploadRequest) : State * Fut (R := result (str * Z) str) :=
  match (let? _ := ev_signer env in let? p := plan_daemon entries from_path r (ev_read env) in let? data := ev_read env in Ok (p, length data)) with
  | Err e => (st, failed e)
  | Ok (PCollection _ _ _ _ as p, n) => (st, concluded n (ev_upload env None p))
  | Ok (p, n) =>
      match ensure_pool parse_multiaddr st (ev_now env) (ev_doh env) (ev_found env) with
      | (st, Err e) => (st, failed e)
      | (st, Ok pool) => (st, concluded n (ev_upload env (Some pool) p))
      end
  end.

Definition upload_response (r : result (str * Z) str) : Response := match r with Ok (root, n) => Uploaded root n | Err e => RErr e end.
Definition handle_upload_streaming (env : Env) (st : State) (r : UploadRequest) (c : Conn) : option (State * (Conn * result unit IoError)) :=
  let '(st, fut) := run_upload env st r in
  match drive_upload c (ur_progress r) fut with
  | Some (c, res) => Some (st, write_frame resp_text c (upload_response res))
  | None => None
  end.

Definition handle_fetch (env : Env) (r : FetchRequest) : Response :=
  if fr_list r then match ev_list env (fr_hash r) with Ok es => Listed es | Err e => RErr e end
  else
    match (let? output := match fr_output r with Some o => Ok o | None => Err (lit "internal: fetch without --list requires an output path") end in
           let? (b, ct) := match fr_path r with
                           | Some p => ev_path env (fr_hash r) p
                           | None => let? b := ev_bytes env (fr_hash r) in Ok (b, None) end in
           let? _ := ev_write env output b in Ok (Z.of_nat (length b), ct)) with
    | Ok (n, ct) => Fetched n ct
    | Err e => RErr e
    end.

(** The peer list with what the dials learned, saved. *)
Definition save_peers (env : Env) (st : State) : State * Response :=
  let st := with_peers st (apply_log (st_peers st) (st_log st)) [] in
  match to_string_pretty (st_peers st) with
  | Err e => (st, RErr (lit "save: " ++ e))
  | Ok s => match ev_save env s with Ok _ => (with_file st (Ok s), ROk) | Err e => (st, RErr (lit "save: " ++ e)) end
  end.
Definition status (env : Env) (st : State) : Response :=
  let ps := values (peers (st_peers st)) in
  StatusIs (st_target st) (match st_pool st with Some p => length p | None => 0 end) (match st_pool st with Some p => live_count (ev_alive env) (ev_now env) p | None => 0 end)
    (size (peers (st_peers st))) (length (List.filter (fun p => bool_decide (is_Some (first_dialable_underlay parse_multiaddr p))) ps))
    (bool_decide (is_Some (st_pool st))).
Definition respond (env : Env) (st : State) (req : Request) : State * Response :=
  match req with
  | Ping => (st, Pong)
  | UploadOp _ => (st, ROk)
  | FetchOp r => (st, handle_fetch env r)
  | ReloadPeers => (with_pool (with_peers st (load_or_create from_str (st_file st)) (st_log st)) None, ROk)
  | SavePeers => save_peers env st
  | StatusOp => (st, status env st)
  | Shutdown => (with_stopping st, ROk)
  end.

(** The guard of an operation, around what it does. *)
Definition op_guard (st : State) : State := with_active st (wrap 64 (st_active st + 1)).
Definition op_drop (st : State) : State := with_active st (wrap 64 (st_active st - 1)).
Definition handle_conn (env : Env) (st : State) (c : Conn) : option (State * (Conn * result unit IoError)) :=
  match read_frame req_parse c with
  | (c, Err e) => Some (st, (c, Err e))
  | (c, Ok None) => Some (st, (c, Ok tt))
  | (c, Ok (Some (UploadOp r))) =>
      match handle_upload_streaming env (op_guard st) r c with Some (st, out) => Some (op_drop st, out) | None => None end
  | (c, Ok (Some (FetchOp r))) => let '(st, resp) := respond env (op_guard st) (FetchOp r) in Some (op_drop st, write_frame resp_text c resp)
  | (c, Ok (Some req)) => let '(st, resp) := respond env st req in Some (st, write_frame resp_text c resp)
  end.

(** The end of [run]. *)
Definition shut_down (env : Env) (st : State) : State := (save_peers env st).1.

(** ** The client's side: [call], [call_upload] *)

Definition daemon_hung_up : IoError := UnexpectedEof.
(** [answer] is what the daemon wrote, for the request as it was sent. *)
Definition call (daemon : bytes -> bytes) (req : Request) : result Response IoError :=
  match write_frame req_text (mkConn [] [] true) req with
  | (_, Err e) => Err e
  | (c, Ok _) => match read_frame resp_parse (mkConn (daemon (cn_out c)) [] true) with
                 | (_, Ok (Some r)) => Ok r | (_, Ok None) => Err daemon_hung_up | (_, Err e) => Err e end
  end.
(** The loop of [call_upload]: the updates passed on, and the outcome. *)
Fixpoint read_answers (fuel : nat) (c : Conn) (seen : list (Z * Z)) : option (list (Z * Z) * result Response IoError) :=
  match fuel with
  | O => None
  | S fuel =>
      match read_frame resp_parse c with
      | (_, Err e) => Some (seen, Err e)
      | (_, Ok None) => Some (seen, Err daemon_hung_up)
      | (c, Ok (Some (Progress d t))) => read_answers fuel c (seen ++ [(d, t)])
      | (_, Ok (Some r)) => Some (seen, Ok r)
      end
  end.
(** Each frame takes four bytes at least. *)
Definition call_upload (daemon : bytes -> bytes) (req : Request) : option (list (Z * Z) * result Response IoError) :=
  match write_frame req_text (mkConn [] [] true) req with
  | (_, Err e) => Some ([], Err e)
  | (c, Ok _) => let answer := daemon (cn_out c) in read_answers (S (length answer)) (mkConn answer [] true) []
  end.

(** What the daemon writes on a connection. *)
Definition daemon_writes (env : Env) (st : State) (request : bytes) : bytes :=
  match handle_conn env st (mkConn request [] true) with Some (_, (c, _)) => cn_out c | None => [] end.
End Handlers.

(** ** A conversation about an upload *)

Section Conversation.
Context `{WireLaws} `{FillerLaws} `{Hex} (parse_multiaddr : str -> option str).
Context (from_str : str -> result PeerStore str) (to_string_pretty : PeerStore -> result str str).
Context (entries : bytes -> result (list (result TarEntry str)) str) (from_path : str -> option (str * str)).

Definition progress_fits (p : Z * Z) : Prop := fits resp_text (Progress p.1 p.2) = true.

Lemma send_all ps : forall c, cn_up c = true -> Forall progress_fits ps ->
  foldl send_progress c ps = mkConn (cn_in c) (cn_out c ++ concat (map (fun p => frame resp_text (Progress p.1 p.2)) ps)) true.
Proof.
  induction ps as [|p ps IH]; intros c Hc Hp; cbn [foldl map concat].
  - rewrite app_nil_r. destruct c as [i o u]. cbn in *. by subst.
  - apply Forall_cons in Hp as [Hp1 Hp2]. unfold send_progress, write_frame at 2. rewrite Hp1, Hc. cbn [negb fst].
    rewrite IH; [cbn [cn_in cn_out]; by rewrite app_assoc|done|done].
Qed.

Definition is_terminal (r : Response) : Prop := forall d t, r <> Progress d t.

Lemma read_all ps r : Forall progress_fits ps -> fits resp_text r = true -> is_terminal r -> forall fuel seen, (length ps < fuel)%nat ->
  read_answers fuel (mkConn (concat (map (fun p => frame resp_text (Progress p.1 p.2)) ps) ++ frame resp_text r) [] true) seen = Some (seen ++ ps, Ok r).
Proof.
  intros Hp Hr Ht. induction ps as [|p ps IH]; intros fuel seen Hf; (destruct fuel as [|fuel]; [cbn in Hf; lia|]); cbn [read_answers map concat].
  - cbn [app]. rewrite <- (app_nil_r (frame resp_text r)), read_framed by (done || apply resp_roundtrip). rewrite app_nil_r. destruct r as [|d t| | | | | |]; try done. by destruct (Ht d t).
  - apply Forall_cons in Hp as [Hp1 Hp2]. rewrite <- app_assoc, read_framed by (done || apply resp_roundtrip).
    destruct p as [d t]. cbn [fst snd]. rewrite IH by (done || (cbn in Hf; lia)). by rewrite <- app_assoc.
Qed.

Abbreviation conn := (handle_conn parse_multiaddr from_str to_string_pretty entries from_path).
Abbreviation upload := (run_upload parse_multiaddr entries from_path).

Lemma updates_short (ps : list (Z * Z)) : (length ps <= length (concat (map (fun p => frame resp_text (Progress p.1 p.2)) ps)))%nat.
Proof.
  induction ps as [|p ps IH]; [done|]. cbn [map concat]. rewrite length_app. unfold frame at 1. rewrite length_app, to_le_bytes_length. cbn [length]. lia.
Qed.

(** C23: A conversation about an upload ends and tells the client everything.  Whatever the
    upload does, how often it is polled and whatever it reports in between, the daemon
    answers; and a client that sent the request gets every update once and in order, none
    if it asked for none, and then the outcome of the upload: its root and size, or its
    error. *)
Theorem upload_conversation env st r : fits req_text (UploadOp r) = true ->
  let '(st1, fut) := upload env (op_guard st) r in
  Forall progress_fits (updates (ur_progress r) fut) -> fits resp_text (upload_response (f_result fut)) = true ->
  call_upload (daemon_writes parse_multiaddr from_str to_string_pretty entries from_path env st) (UploadOp r) =
    Some (updates (ur_progress r) fut, Ok (upload_response (f_result fut))) /\
  exists c, conn env st (mkConn (frame req_text (UploadOp r)) [] true) = Some (op_drop st1, (c, Ok tt)).
Proof.
  intros Hreq. destruct (upload env (op_guard st) r) as [st1 fut] eqn:Eu. intros Hp Hr.
  set (answer := concat (map (fun p => frame resp_text (Progress p.1 p.2)) (updates (ur_progress r) fut)) ++ frame resp_text (upload_response (f_result fut))).
  assert (Hc : conn env st (mkConn (frame req_text (UploadOp r)) [] true) = Some (op_drop st1, (mkConn [] answer true, Ok tt))).
  { unfold handle_conn. rewrite <- (app_nil_r (frame _ _)), read_framed by (done || apply req_roundtrip). unfold handle_upload_streaming. rewrite Eu.
    rewrite drive_completes, send_all by done. cbn [cn_in cn_out app]. unfold write_frame. rewrite Hr. cbn [negb cn_up cn_in cn_out]. done. }
  split; [|eauto]. unfold call_upload. unfold write_frame at 1. rewrite Hreq. cbn [negb cn_up cn_in cn_out app]. unfold daemon_writes. rewrite Hc. cbn [cn_out].
  assert (Ht : is_terminal (upload_response (f_result fut))) by (by destruct (f_result fut) as [[root n]|e]).
  unfold answer. rewrite (read_all _ _ Hp Hr Ht); [done|]. rewrite length_app. pose proof (updates_short (updates (ur_progress r) fut)). lia.
Qed.

(** A listing that does not fit a frame is lost: the daemon writes nothing, and the client
    is told that it hung up. *)
Theorem large_listing_lost env st hash path output es : let req := FetchOp (mkFetch hash path output true) in
  fits req_text req = true -> ev_list env hash = Ok es -> fits resp_text (Listed es) = false ->
  call (daemon_writes parse_multiaddr from_str to_string_pretty entries from_path env st) req = Err daemon_hung_up.
Proof.
  intros req Hreq El Hf. unfold call, write_frame. rewrite Hreq. cbn [negb cn_up cn_in cn_out app]. unfold daemon_writes, handle_conn.
  rewrite <- (app_nil_r (frame _ _)), read_framed by (done || apply req_roundtrip). unfold req. cbn [respond]. unfold handle_fetch. cbn [fr_list fr_hash]. rewrite El.
  unfold write_frame. by rewrite Hf.
Qed.

(** ** What the daemon keeps at all times *)

Definition file_ok (f : result str str) : Prop := forall s ps, f = Ok s -> from_str s = Ok ps -> store_ok ps.
Definition env_ok (env : Env) : Prop :=
  Forall (fun a => forall fresh, a = Ok fresh -> Forall (fun p => 0 <= consecutive_failures p <= U16_MAX) fresh) (ev_found env).
Context (saved : forall ps s qs, to_string_pretty ps = Ok s -> from_str s = Ok qs -> qs = ps).

(** The states of a daemon with so many operations running.  Uploads and downloads overlap
    with each other, with other requests and with the upkeep. *)
Inductive served : State -> nat -> Prop :=
| SvStart file target log : file_ok file -> served (mkState (load_or_create from_str file) None target 0 file log false) 0
| SvFill env st n : served st n -> env_ok env -> served (ensure_pool parse_multiaddr st (ev_now env) (ev_doh env) (ev_found env)).1 n
| SvTick alive now filling st n : served st n -> served (maintain_pool alive now filling st) n
| SvDialled e st n : served st n -> served (with_peers st (st_peers st) (st_log st ++ [e])) n
| SvUpload env r st n : served st n -> env_ok env -> served (upload env (op_guard st) r).1 (S n)
| SvFetch env r st n : served st n -> served (respond parse_multiaddr from_str to_string_pretty env (op_guard st) (FetchOp r)).1 (S n)
| SvDone st n : served st (S n) -> served (op_drop st) n
| SvRequest env req st n : served st n -> served (respond parse_multiaddr from_str to_string_pretty env st req).1 n.

Record daemon_ok (st : State) (n : nat) : Prop := {
  do_peers : store_ok (st_peers st); do_pool : pool_ok st; do_file : file_ok (st_file st); do_active : st_active st = wrap 64 (Z.of_nat n) }.

Lemma log_ok es : forall ps, store_ok ps -> store_ok (apply_log ps es).
Proof.
  unfold apply_log. induction es as [|[[o r] now] es IH]; intros ps Hs; [done|]. cbn [foldl]. apply IH.
  destruct (record_ok ps o now Hs) as [D1 D2]. destruct r; [apply D1|apply D2].
Qed.
Lemma loaded_ok f : file_ok f -> store_ok (load_or_create from_str f).
Proof. intros Hf. unfold load_or_create. destruct f as [s|e]; [|apply map_Forall_empty]. destruct (from_str s) eqn:Es; [by eapply Hf|apply map_Forall_empty]. Qed.

Lemma guard_ok st n : daemon_ok st n -> daemon_ok (op_guard st) (S n).
Proof.
  intros [D1 D2 D3 D4]. split; try done. cbn. rewrite D4. unfold wrap. rewrite Zplus_mod_idemp_l. f_equal. lia.
Qed.
Lemma drop_ok st n : daemon_ok st (S n) -> daemon_ok (op_drop st) n.
Proof.
  intros [D1 D2 D3 D4]. split; try done. cbn. rewrite D4. unfold wrap. rewrite Zminus_mod_idemp_l. f_equal. lia.
Qed.
Lemma fill_ok env st n : daemon_ok st n -> env_ok env -> daemon_ok (ensure_pool parse_multiaddr st (ev_now env) (ev_doh env) (ev_found env)).1 n.
Proof.
  intros [D1 D2 D3 D4] He. destruct (ensure_pool _ _ _ _ _) as [st' r] eqn:E.
  destruct (ensure_pool_spec parse_multiaddr st (ev_now env) (ev_doh env) (ev_found env) st' r D1 D2 He E) as (Hs & Hp & _).
  assert (Hk : st_file st' = st_file st /\ st_active st' = st_active st).
  { revert E. unfold ensure_pool. destruct (pool_ready st); [by intros [= <- _]|]. destruct (_ && negb _), (fill _ _ _) as [pool added]; destruct (_ && _); by intros [= <- _]. }
  destruct Hk as [E1 E2]. split; [done|done|cbn; by rewrite E1|cbn; by rewrite E2].
Qed.
Lemma upload_ok env r st n : daemon_ok st n -> env_ok env -> daemon_ok (upload env st r).1 n.
Proof.
  intros Hd He. unfold run_upload. destruct (let? _ := ev_signer env in _) as [[p k]|e]; [|done].
  pose proof (fill_ok env st n Hd He) as Hf. destruct (ensure_pool _ _ _ _ _) as [st' [pool|e]]; by destruct p.
Qed.
Lemma respond_ok env req st n : daemon_ok st n -> daemon_ok (respond parse_multiaddr from_str to_string_pretty env st req).1 n.
Proof.
  intros Hd. pose proof Hd as [D1 D2 D3 D4]. destruct req; try done; cbn [respond].
  - split; try done. cbn. by apply loaded_ok.
  - assert (Hl : daemon_ok (with_peers st (apply_log (st_peers st) (st_log st)) []) n) by (split; try done; cbn; by apply log_ok).
    unfold save_peers. cbn [with_peers st_peers]. destruct (to_string_pretty _) as [s|e] eqn:Es; [|done]. destruct (ev_save env s); [|done].
    destruct Hl as [L1 L2 L3 L4]. split; try done. intros s' ps [= <-] Hps. by rewrite (saved _ _ _ Es Hps).
Qed.

End Conversation.

(** ** A better overlay: [auto_iterate_anchors] *)

Section Anchors.
Context `{Crypto} `{Hex} (eth_address : bytes) (network_id : Z).

Definition MAX_ATTEMPTS : Z := 5000000.
(** The counter, four times. *)
Definition anchor_nonce (attempt : Z) : bytes := concat (replicate 4 (to_le_bytes 8 attempt)).
Definition overlay_of (nonce : bytes) : bytes := derive_overlay eth_address network_id nonce.
(** The least proximity to a target, and their sum. *)
Definition rate (targets : list bytes) (o : bytes) : Z * Z :=
  foldl (fun acc t => let po := proximity o t in (if po <? acc.1 then po else acc.1, acc.2 + po)) (U8_MAX, 0) targets.

Record Best := mkBest { be_min : Z; be_score : Z; be_nonce : option bytes }.
Fixpoint search (n : nat) (targets : list bytes) (target_po attempt : Z) (b : Best) : Best :=
  match n with
  | O => b
  | S n =>
      let nonce := anchor_nonce attempt in
      let '(min_po, score) := rate targets (overlay_of nonce) in
      if (be_min b <? min_po) || ((min_po =? be_min b) && (be_score b <? score)) then
        if target_po <=? min_po then mkBest min_po score (Some nonce) else search n targets target_po (attempt + 1) (mkBest min_po score (Some nonce))
      else search n targets target_po (attempt + 1) b
  end.

(** The overlays of the peers that took most pushes. *)
Definition target_overlays (top : list (str * Z)) : list bytes :=
  omap (fun t => match hex_decode t.1 with Ok b => if Nat.eqb (length b) 32 then Some b else None | Err _ => None end) top.
(** The overlay in use, read back from the nonce file. *)
Definition current_overlay (nonce_file : option str) : option bytes :=
  match nonce_file with
  | Some s => match hex_decode (trim s) with Ok b => if Nat.eqb (length b) 32 then Some (overlay_of b) else None | Err _ => None end
  | None => None
  end.
Definition least (pos : list Z) : Z := match pos with [] => 0 | p :: pos => foldl Z.min p pos end.
Definition average (pos : list Z) : Z := Z.min U8_MAX (f64_as_u64 (f64_div (f64_of_Z (foldl Z.add 0 pos)) (f64_of_Z (Z.of_nat (length pos))))).

(** The nonce that is written to [<nonce_file>.next], if any. *)
Definition auto_iterate_anchors (attempts : nat) (pool : option SessionPool) (nonce_file : option str) : option bytes :=
  match pool with
  | None => None
  | Some pool =>
      match target_overlays (top_peers_by_success pool 5) with
      | [] => None
      | targets =>
          match current_overlay nonce_file with
          | None => None
          | Some current =>
              let current_pos := map (proximity current) targets in
              let current_min_po := least current_pos in
              let target_po := Z.min (wrap 8 (average current_pos + 1)) 16 in
              if target_po <=? current_min_po then None
              else
                let b := search attempts targets target_po 0 (mkBest current_min_po (foldl Z.add 0 current_pos) None) in
                match be_nonce b with Some nonce => if be_min b <=? current_min_po then None else Some nonce | None => None end
          end
      end
  end.

Lemma anchor_search_spec n targets target_po : forall attempt b, 0 <= attempt ->
  (forall nonce, be_nonce b = Some nonce -> (rate targets (overlay_of nonce)).1 = be_min b /\ exists k, 0 <= k < attempt /\ nonce = anchor_nonce k) ->
  let b' := search n targets target_po attempt b in
  forall nonce, be_nonce b' = Some nonce -> (rate targets (overlay_of nonce)).1 = be_min b' /\ exists k, 0 <= k < attempt + Z.of_nat n /\ nonce = anchor_nonce k.
Proof.
  induction n as [|n IH]; intros attempt b Ha Hb; cbv zeta; cbn [search].
  { intros nonce Hn. destruct (Hb nonce Hn) as (E & k & Hk & En). split; [done|]. exists k. split; [lia|done]. }
  assert (Hnew : forall min_po score, rate targets (overlay_of (anchor_nonce attempt)) = (min_po, score) ->
    forall nonce, Some (anchor_nonce attempt) = Some nonce -> (rate targets (overlay_of nonce)).1 = min_po /\ exists k, 0 <= k < attempt + 1 /\ nonce = anchor_nonce k).
  { intros m sc Er nonce [= <-]. rewrite Er. split; [done|]. exists attempt. split; [lia|done]. }
  assert (Hstep : forall b1, (forall nonce, be_nonce b1 = Some nonce -> (rate targets (overlay_of nonce)).1 = be_min b1 /\ exists k, 0 <= k < attempt + 1 /\ nonce = anchor_nonce k) ->
    forall nonce, be_nonce (search n targets target_po (attempt + 1) b1) = Some nonce ->
    (rate targets (overlay_of nonce)).1 = be_min (search n targets target_po (attempt + 1) b1) /\ exists k, 0 <= k < attempt + Z.of_nat (S n) /\ nonce = anchor_nonce k).
  { intros b1 Hb1 nonce Hn. destruct (IH (attempt + 1) b1 ltac:(lia) Hb1 nonce Hn) as (E & k & Hk & En). split; [done|]. exists k. split; [lia|done]. }
  destruct (rate targets (overlay_of (anchor_nonce attempt))) as [min_po score] eqn:Er. destruct (_ || _).
  - destruct (target_po <=? min_po).
    + intros nonce Hn. destruct (Hnew min_po score eq_refl nonce Hn) as (E & k & Hk & En). split; [done|]. exists k. split; [lia|done].
    + apply Hstep. exact (Hnew min_po score eq_refl).
  - apply Hstep. intros nonce Hn. destruct (Hb nonce Hn) as (E & k & Hk & En). split; [done|]. exists k. split; [lia|done].
Qed.

(** What is suggested is an improvement: the overlay of the new nonce is nearer to the
    farthest of the peers that took most pushes than the one in use is, and the nonce is
    one of those tried. *)
Theorem suggestion_improves attempts pool nonce_file nonce : auto_iterate_anchors attempts pool nonce_file = Some nonce ->
  exists p targets current, pool = Some p /\ targets = target_overlays (top_peers_by_success p 5) /\ targets <> [] /\ current_overlay nonce_file = Some current /\
    least (map (proximity current) targets) < (rate targets (overlay_of nonce)).1 /\ exists k, 0 <= k < Z.of_nat attempts /\ nonce = anchor_nonce k.
Proof.
  unfold auto_iterate_anchors. destruct pool as [p|]; [|done]. destruct (target_overlays _) as [|t ts] eqn:Et; [done|].
  destruct (current_overlay nonce_file) as [current|] eqn:Ec; [|done]. cbv zeta. destruct (_ <=? _); [done|].
  set (m := least _). set (sc := foldl Z.add 0 _). set (tp := Z.min _ 16).
  pose proof (anchor_search_spec attempts (t :: ts) tp 0 (mkBest m sc None) ltac:(lia) ltac:(done)) as Hs. cbv zeta in Hs.
  destruct (be_nonce _) as [n|] eqn:En; [|done]. destruct (Z.leb_spec (be_min (search attempts (t :: ts) tp 0 (mkBest m sc None))) m) as [|Hlt]; [done|].
  intros [= ->]. destruct (Hs nonce eq_refl) as (E & k & Hk & Ek). exists p, (t :: ts), current. split_and!; try done; [by rewrite E|]. by exists k.
Qed.

(** With the nonce file that this program makes the search never runs: the file has the
    prefix [0x], which is not removed here before the text is decoded. *)
Theorem suggestion_never_made `{!HexLaws _} attempts pool random create write rename nonce file :
  (forall s b, hex_decode s = Ok b -> Forall (fun c => Chain.hex_value c <> None) s) ->
  load_or_create_nonce None random create write rename nonce = (Some file, Ok nonce) -> auto_iterate_anchors attempts pool (Some file) = None.
Proof.
  intros Hstrict. unfold load_or_create_nonce. destruct (let? _ := random in _) as [u|e]; [|done]. intros Heq. injection Heq as <-.
  assert (Hc : current_overlay (Some (lit "0x" ++ hex_encode nonce ++ [10])) = None).
  { unfold current_overlay. rewrite trim_line. destruct (hex_decode _) as [b|e] eqn:Ed; [|done].
    apply Hstrict in Ed. exfalso. do 2 apply Forall_cons in Ed as [? Ed]. done. }
  unfold auto_iterate_anchors. destruct pool as [p|]; [|done]. destruct (target_overlays _); [done|].
  match goal with |- match current_overlay ?f with _ => _ end = _ => assert (Hf : current_overlay f = None) by exact Hc end. by rewrite Hf.
Qed.
End Anchors.

(** ** A concrete conversation *)
Module DaemonWitness.
#[local] Instance upload_request_eq : EqDecision UploadRequest.
Proof. solve_decision. Defined.
#[local] Instance upload_request_countable : Countable UploadRequest.
Proof.
  refine (inj_countable' (fun r => (ur_name r, ur_ext r, ur_raw r, ur_collection r, ur_progress r,
                                    (ur_manifest_path r, ur_content_type r, ur_index_document r, ur_error_document r, ur_redundancy r)))
    (fun '(a, b, c, d, e, (f, g, h, i, j)) => mkUploadRequest a b c d e f g h i j) _).
  by intros [].
Defined.
#[local] Instance fetch_request_eq : EqDecision FetchRequest.
Proof. solve_decision. Defined.
#[local] Instance fetch_request_countable : Countable FetchRequest.
Proof. refine (inj_countable' (fun r => (fr_hash r, fr_path r, fr_output r, fr_list r)) (fun '(a, b, c, d) => mkFetch a b c d) _). by intros []. Defined.
#[local] Instance request_eq : EqDecision Request.
Proof. solve_decision. Defined.
#[local] Instance request_countable : Countable Request.
Proof.
  refine (inj_countable' (fun r => match r with UploadOp u => inl u | FetchOp f => inr (inl f) | Ping => inr (inr 0) | ReloadPeers => inr (inr 1)
                                   | SavePeers => inr (inr 2) | StatusOp => inr (inr 3) | Shutdown => inr (inr 4) end)
    (fun s => match s with inl u => UploadOp u | inr (inl f) => FetchOp f | inr (inr 0) => Ping | inr (inr 1) => ReloadPeers
              | inr (inr 2) => SavePeers | inr (inr 3) => StatusOp | inr (inr _) => Shutdown end) _).
  by intros [].
Defined.
#[local] Instance entry_eq : EqDecision ManifestEntry.
Proof. solve_decision. Defined.
#[local] Instance entry_countable : Countable ManifestEntry.
Proof. refine (inj_countable' (fun e => (me_path e, me_reference e, me_content_type e)) (fun '(a, b, c) => mkManifestEntry a b c) _). by intros []. Defined.
#[local] Instance response_eq : EqDecision Response.
Proof. solve_decision. Defined.
#[local] Instance response_countable : Countable Response.
Proof.
  refine (inj_countable' (fun r => match r with
                                   | Pong => inl (inl 0) | ROk => inl (inl 1) | RErr m => inl (inr m)
                                   | Progress d t => inr (inl (inl (d, t))) | Uploaded s n => inr (inl (inr (s, n)))
                                   | Fetched n ct => inr (inr (inl (n, ct))) | Listed es => inr (inr (inr (inl es)))
                                   | StatusIs a b c d e f => inr (inr (inr (inr (a, b, c, d, e, f)))) end)
    (fun s => match s with
              | inl (inl 0) => Pong | inl (inl _) => ROk | inl (inr m) => RErr m
              | inr (inl (inl (d, t))) => Progress d t | inr (inl (inr (s, n))) => Uploaded s n
              | inr (inr (inl (n, ct))) => Fetched n ct | inr (inr (inr (inl es))) => Listed es
              | inr (inr (inr (inr (a, b, c, d, e, f)))) => StatusIs a b c d e f end) _).
  by intros [].
Defined.

(** A value as its number, in one cell. *)
Definition number {A} `{Countable A} (a : A) : bytes := [Z.pos (countable.encode a)].
Definition of_number {A} `{Countable A} (b : bytes) : result A str :=
  match b with [Z.pos p] => match countable.decode p with Some a => Ok a | None => Err [] end | _ => Err [] end.
Lemma of_number_number {A} `{Countable A} (a : A) : of_number (number a) = Ok a.
Proof. unfold of_number, number. by rewrite (countable.decode_encode a). Qed.
#[local] Instance numbers : Wire := { req_text := number; req_parse := of_number; resp_text := number; resp_parse := of_number }.
#[local] Instance numbers_laws : WireLaws numbers.
Proof. split; intros r; apply of_number_number. Qed.

(** One session, as soon as one is wanted. *)
#[local] Instance one_session : Filler := fun st pool target =>
  match pool, target with [], S _ => ([entry_new (replicate 32 1) (lit "ab") (lit "/ip4/1.1.1.1/tcp/1634") 7], 1%nat) | _, _ => (pool, 0%nat) end.
#[local] Instance one_session_laws : FillerLaws one_session.
Proof.
  intros st pool target _ Hn. unfold grown. destruct pool as [|e pool]; [destruct target as [|n]|]; cbn [fill one_session fst snd].
  - split; [by exists []|]. split; [done|cbn; lia].
  - split; [by eexists|]. split; [apply NoDup_singleton|cbn; lia].
  - split; [exists []; by rewrite app_nil_r|]. split; [done|lia].
Qed.

Definition raw_request : UploadRequest := mkUploadRequest (Some (lit "a")) None true false true None None None None None.
Definition quiet : State := mkState store_new None 4 0 (Err []) [] false.
Definition world : Env := mkEnv 100 (fun _ => true) false [] (Ok tt) (Ok [1; 2; 3]) (fun _ _ => mkFut [[(1, 2)]; []] [(2, 2)] (Ok [171]))
  (fun _ => Err []) (fun _ _ => Err []) (fun _ => Err []) (fun _ _ => Err []) (fun _ => Err []).
Definition no_tar (b : bytes) : result (list (result TarEntry str)) str := Ok [].
Definition no_guess (p : str) : option (str * str) := None.
Definition no_parse (s : str) : result PeerStore str := Err [].
Definition no_print (p : PeerStore) : result str str := Err [].

Lemma upload_conversation_witness :
  call_upload (daemon_writes Some no_parse no_print no_tar no_guess world quiet) (UploadOp raw_request) = Some ([(1, 2); (2, 2)], Ok (Uploaded (lit "ab") 3)).
Proof.
  refine (proj1 (upload_conversation Some no_parse no_print no_tar no_guess world quiet raw_request eq_refl _ _)).
  - repeat constructor.
  - reflexivity.
Defined.

End DaemonWitness.
