(* ===== verification/Bridge.v ===== *)
(** * The bridge to Gnosis ([src/src/bridge.rs])

    Quotes of the Relay service executed on the origin chain: the service hands back
    transactions, which are signed, sent and waited for one after the other, and then the
    fill is waited for.

    The services (Relay's REST interface, the nodes of both chains, the clock) are
    functions of a state of the world; what is done to the outside (a quote asked for, a
    transaction sent, one confirmed, a fill) is kept in a log.  Parameters as in [Chain],
    and ruint's parser of integers. *)
From Stdlib Require Import ZArith Lia.
From stdpp Require Import base tactics numbers strings list.
From S2P Require Import Prelude Codec F64 Signer Metered Chain.
Local Open Scope Z_scope.
Local Open Scope hov_scope.

Definition GNOSIS_CHAIN_ID : Z := 100.
Definition NATIVE_TOKEN : bytes := replicate 20 0.

Inductive BridgeError :=
| BrRelay (e : str) | BrRpc (e : str) | BrTransport (e : str) | BrJson (e : str) | BrHex (e : str) | UnsupportedStep (kind : str)
| BrReverted | BrReceiptTimeout | FillTimeout (last : str) | FillFailed (status : str) | NoOriginGas (chain_id : Z) | BrPanic.

(** ** Names, addresses, tokens *)

Definition parse_u64 (s : str) : option Z := match u128_parse s with Ok n => if n <=? U64_MAX then Some n else None | Err _ => None end.
Definition chain_id_from_name (name : str) : option Z :=
  let n := to_ascii_lowercase (trim name) in
  if bool_decide (n ∈ [lit "ethereum"; lit "eth"; lit "mainnet"; lit "l1"]) then Some 1
  else if bool_decide (n ∈ [lit "optimism"; lit "op"]) then Some 10
  else if bool_decide (n = lit "base") then Some 8453
  else if bool_decide (n ∈ [lit "arbitrum"; lit "arb"; lit "arbitrum-one"; lit "arbitrumone"]) then Some 42161
  else if bool_decide (n ∈ [lit "gnosis"; lit "xdai"; lit "gnosischain"]) then Some GNOSIS_CHAIN_ID
  else parse_u64 n.

Inductive BridgeTarget := Bzz | XDai | Both.
Definition target_parse (s : str) : result BridgeTarget str :=
  let t := to_ascii_lowercase (trim s) in
  if bool_decide (t = lit "bzz") then Ok Bzz else if bool_decide (t = lit "xdai") then Ok XDai else if bool_decide (t = lit "both") then Ok Both
  else Err (lit "unknown --to '" ++ t ++ lit "' (use bzz | xdai | both)").
Inductive TradeType := ExactInput | ExactOutput.

Record ResolvedToken := mkToken { rt_address : bytes; rt_decimals : Z }.
Record TokenMeta := mkTokenMeta { tm_symbol : option str; tm_address : option str; tm_decimals : option Z }.
Record ChainMeta := mkChainMeta { cm_id : Z; cm_currency : option TokenMeta; cm_featured : list TokenMeta; cm_erc20 : list TokenMeta }.

Section Tokens.
Context `{Hex}.

Definition is_hex_address (s : str) : bool :=
  let t := trim s in
  let h := match strip_prefix (lit "0x") t with Some h => h | None => match strip_prefix (lit "0X") t with Some h => h | None => t end end in
  Nat.eqb (length h) 40 && forallb (fun c => bool_decide (is_Some (hex_value c))) h.
Definition parse_address_20 (s : str) : result bytes BridgeError :=
  let? b := map_err BrHex (hex_decode (trim_0X (trim_0x (trim s)))) in
  if negb (Nat.eqb (length b) 20) then Err (BrRpc (lit "address must be 20 bytes, got " ++ u128_to_string (Z.of_nat (length b)))) else Ok b.
Definition token_resolve (t : TokenMeta) : option ResolvedToken :=
  match tm_address t with
  | Some a => match parse_address_20 a with Ok b => Some (mkToken b (default 18 (tm_decimals t))) | Err _ => None end
  | None => None
  end.
Definition symbol_matches (want : str) (t : TokenMeta) : bool :=
  match tm_symbol t with Some s => bool_decide (to_ascii_lowercase s = to_ascii_lowercase want) | None => false end.
Definition find_token (c : ChainMeta) (symbol : str) : option ResolvedToken :=
  match List.find (symbol_matches (trim symbol)) (cm_featured c ++ cm_erc20 c ++ match cm_currency c with Some t => [t] | None => [] end) with
  | Some t => token_resolve t
  | None => None
  end.

(** [fn resolve_token]; [chain] is the answer of [RelayClient::chain]. *)
Definition resolve_token (chain : result ChainMeta BridgeError) (origin : Z) (from_token : option str) (raw_decimals : Z) : result ResolvedToken BridgeError :=
  match from_token with
  | None => Ok (mkToken NATIVE_TOKEN 18)
  | Some t =>
      if is_hex_address t then let? b := parse_address_20 t in Ok (mkToken b raw_decimals)
      else let? c := chain in
        match find_token c t with
        | Some r => Ok r
        | None => Err (BrRelay (lit "token symbol '" ++ t ++ lit "' not found on chain " ++ u128_to_string origin))
        end
  end.

(** A symbol is looked up among the curated tokens first: one of them is never shadowed by
    the long list or by the native currency. *)
Lemma featured_first c symbol t : List.find (symbol_matches (trim symbol)) (cm_featured c) = Some t -> find_token c symbol = token_resolve t.
Proof.
  intros Hf. unfold find_token.
  enough (Ha : forall l l', List.find (symbol_matches (trim symbol)) l = Some t -> List.find (symbol_matches (trim symbol)) (l ++ l') = Some t) by (by rewrite (Ha _ _ Hf)).
  clear Hf. induction l as [|x l IH]; intros l'; cbn; [done|]. destruct (symbol_matches _ x); [done|apply IH].
Qed.
End Tokens.

(** ** Quotes and transactions *)

Record QuoteRequest := mkQuote {
  q_user : bytes; q_recipient : bytes; q_origin_chain_id : Z; q_destination_chain_id : Z; q_origin_currency : bytes; q_destination_currency : bytes;
  q_amount : Z; q_trade_type : TradeType }.
Record TxData := mkTx { tx_to : str; tx_data : str; tx_value : option str; tx_gas : option str; tx_max_fee : option str; tx_max_prio : option str }.
Record QuoteStep := mkStep { qs_kind : str; qs_items : list TxData; qs_request_id : option str }.
Record QuoteResponse := mkResponse { qr_steps : list QuoteStep; qr_out : option (str * str) }.

(** The answer of a REST call and of a JSON-RPC call. *)
Inductive Rest (A : Type) := RsTransport (e : str) | RsStatus (text : str) | RsBad (e : str) | RsGood (a : A).
Arguments RsTransport {A} e. Arguments RsStatus {A} text. Arguments RsBad {A} e. Arguments RsGood {A} a.
Inductive Rpc (A : Type) := RpTransport (e : str) | RpError (message code : str) | RpNull | RpValue (a : A).
Arguments RpTransport {A} e. Arguments RpError {A} message code. Arguments RpNull {A}. Arguments RpValue {A} a.

Inductive Call := GetBalance (gnosis : bool) (addr : bytes) | GetNonce (addr : bytes) | GetGasPrice | Estimate (from to : bytes) (value : Z) (data : bytes) | SendRawTx (raw : bytes).
Inductive Action := AQuote (q : QuoteRequest) | ASend (raw : bytes) | AConfirmed (tx : bytes) | AFilled (id : str).

Record BridgeParams := mkBridge {
  bp_origin_chain_id : Z; bp_origin_currency : bytes; bp_amount : Z; bp_target : BridgeTarget; bp_recipient : bytes; bp_trade_type : TradeType;
  bp_threshold : Z; bp_topup : Z; bp_timeout_ms : Z }.
Record BridgeLeg := mkLeg { bl_label : str; bl_request_id : str; bl_hashes : list bytes; bl_output : str * str }.

Section Bridge.
Context `{Hex} `{Abi} `{Rlp} (keccak : bytes -> bytes) (u256_from_str_radix : str -> Z -> option Z) (bzz : bytes).
Context {W : Type} (quote_of : W -> QuoteRequest -> W * Rest QuoteResponse) (status_of : W -> str -> W * Rest str) (rpc : W -> Call -> W * Rpc str)
  (receipt_of : W -> bytes -> W * Rpc str) (clock : W -> Z) (sleep2 : W -> W).
Context (from : bytes) (sign_hash : bytes -> result (Z * Z * Z) str).

Record World := mkWorld { w_state : W; w_acts : list Action }.
Definition BM (A : Type) : Type := World -> World * result A BridgeError.
Definition bret {A} (a : A) : BM A := fun s => (s, Ok a).
Definition bfail {A} (e : BridgeError) : BM A := fun s => (s, Err e).
Definition bbind {A B} (m : BM A) (k : A -> BM B) : BM B := fun s => match m s with (s, Ok a) => k a s | (s, Err e) => (s, Err e) end.
Definition blift {A} (r : result A BridgeError) : BM A := fun s => (s, r).
Definition act (a : Action) : BM unit := fun s => (mkWorld (w_state s) (w_acts s ++ [a]), Ok tt).

(** [EvmRpc::raw] with the answer it must have. *)
Definition call_text (c : Call) (method empty : str) : BM str :=
  fun s => let '(w, a) := rpc (w_state s) c in
    (mkWorld w (match c with SendRawTx raw => w_acts s ++ [ASend raw] | _ => w_acts s end),
     match a with
     | RpValue t => Ok t
     | RpNull => Err (BrRpc empty)
     | RpError m code => Err (BrRpc (method ++ lit ": " ++ m ++ lit " (code " ++ code ++ lit ")"))
     | RpTransport e => Err (BrTransport e)
     end).

(** A quantity padded to 64 digits; one that does not fit panics. *)
Definition quantity (t : str) : result Z BridgeError :=
  let? b := map_err BrHex (hex_decode (pad64 (trim_0x t))) in if from_be_bytes b <=? U256_MAX then Ok (from_be_bytes b) else Err BrPanic.
Definition native_balance (gnosis : bool) (addr : bytes) : BM Z :=
  bbind (call_text (GetBalance gnosis addr) (lit "eth_getBalance") (lit "eth_getBalance: empty")) (fun t => blift (quantity t)).
Definition get_nonce (addr : bytes) : BM Z :=
  bbind (call_text (GetNonce addr) (lit "eth_getTransactionCount") (lit "nonce: empty")) (fun t =>
    match u64_from_hex (trim_0x t) with Some n => bret n | None => bfail (BrRpc (lit "nonce parse")) end).
Definition gas_price : BM Z := bbind (call_text GetGasPrice (lit "eth_gasPrice") (lit "gasPrice: empty")) (fun t => blift (quantity t)).
Definition estimate (to : bytes) (value : Z) (data : bytes) : BM Z :=
  bbind (call_text (Estimate from to value data) (lit "eth_estimateGas") (lit "estimateGas: empty")) (fun t =>
    match u64_from_hex (trim_0x t) with Some n => bret (wrap 64 (n * 125) / 100) | None => bfail (BrRpc (lit "gas parse")) end).

Definition parse_u256_opt (s : option str) : result Z BridgeError :=
  match s with
  | None | Some [] => Ok 0
  | Some v =>
      match strip_prefix (lit "0x") v, strip_prefix (lit "0X") v with
      | Some h, _ | None, Some h => match u256_from_str_radix h 16 with Some n => Ok n | None => Err (BrRpc (lit "u256 hex")) end
      | None, None => match u256_from_str_radix v 10 with Some n => Ok n | None => Err (BrRpc (lit "u256")) end
      end
  end.

Definition sign_eip1559_tx (chain_id nonce prio fee gas : Z) (to : bytes) (value : Z) (data : bytes) : result bytes BridgeError :=
  let sighash := keccak (2 :: encode_1559_fields chain_id nonce prio fee gas to value data None) in
  let? sig := map_err (fun e => BrRpc (lit "sign: " ++ e)) (sign_hash sighash) in
  Ok (2 :: encode_1559_fields chain_id nonce prio fee gas to value data (Some sig)).

Definition fees (tx : TxData) : BM (Z * Z) :=
  bbind (blift (parse_u256_opt (tx_max_fee tx))) (fun m =>
  bbind (blift (parse_u256_opt (tx_max_prio tx))) (fun p =>
    if negb (m =? 0) then bret (m, p) else bbind gas_price (fun gp => bret (gp, gp)))).
(** The limit of the quote, which panics beyond 64 bits, or an estimate. *)
Definition gas_limit (tx : TxData) (to : bytes) (value : Z) (data : bytes) : BM Z :=
  bbind (blift (parse_u256_opt (tx_gas tx))) (fun g =>
    if negb (g =? 0) then (if g <=? U64_MAX then bret (wrap 64 (g * 125) / 100) else bfail BrPanic) else estimate to value data).
Definition send_eip1559 (chain_id : Z) (tx : TxData) : BM bytes :=
  bbind (get_nonce from) (fun n =>
  bbind (blift match parse_address (tx_to tx) with Some a => Ok a | None => Err (BrRpc (lit "step `to` addr")) end) (fun to =>
  bbind (blift (parse_u256_opt (tx_value tx))) (fun value =>
  bbind (blift (map_err BrHex (hex_decode (trim_0x (tx_data tx))))) (fun data =>
  bbind (fees tx) (fun f =>
  bbind (gas_limit tx to value data) (fun gas =>
  bbind (blift (sign_eip1559_tx chain_id n f.2 f.1 gas to value data)) (fun raw =>
  bbind (call_text (SendRawTx raw) (lit "eth_sendRawTransaction") (lit "sendRawTransaction: empty")) (fun t =>
    match parse_b256 t with Some h => bret h | None => bfail (BrRpc (lit "tx hash parse")) end)))))))).

(** [wait_for_success]; [None] when the fuel is out. *)
Definition receipt_poll (tx : bytes) : BM (option str) :=
  fun s => let '(w, a) := receipt_of (w_state s) tx in
    (mkWorld w (w_acts s), match a with
     | RpValue t => Ok (Some t) | RpNull => Ok None | RpTransport e => Err (BrTransport e)
     | RpError m code => Err (BrRpc (lit "eth_getTransactionReceipt: " ++ m ++ lit " (code " ++ code ++ lit ")")) end).
Definition doze (s : World) : World := mkWorld (sleep2 (w_state s)) (w_acts s).
Fixpoint receipt_loop (fuel : nat) (start timeout_ms : Z) (tx : bytes) (s : World) : option (World * result unit BridgeError) :=
  match fuel with
  | O => None
  | S fuel =>
      match receipt_poll tx s with
      | (s, Err e) => Some (s, Err e)
      | (s, Ok (Some status)) => Some (if bool_decide (default 0 (u64_from_hex (trim_0x status)) = 1) then act (AConfirmed tx) s else (s, Err BrReverted))
      | (s, Ok None) => if timeout_ms <? clock (w_state s) - start then Some (s, Err BrReceiptTimeout) else receipt_loop fuel start timeout_ms tx (doze s)
      end
  end.
(** A poll every two seconds at least. *)
Definition polls2 (timeout_ms : Z) : nat := S (S (Z.to_nat (timeout_ms / 2000))).
Definition wait_for_success (timeout_ms : Z) (tx : bytes) : BM unit :=
  fun s => default (s, Err BrReceiptTimeout) (receipt_loop (polls2 timeout_ms) (clock (w_state s)) timeout_ms tx s).

(** [RelayClient::quote], [RelayClient::wait_for_fill]. *)
Definition quote (q : QuoteRequest) : BM QuoteResponse :=
  fun s => let '(w, a) := quote_of (w_state s) q in
    (mkWorld w (w_acts s ++ [AQuote q]), match a with
     | RsGood r => Ok r | RsTransport e => Err (BrTransport e) | RsBad e => Err (BrJson e) | RsStatus t => Err (BrRelay (lit "quote HTTP " ++ t)) end).
Definition status_poll (id : str) : BM (option str) :=
  fun s => let '(w, a) := status_of (w_state s) id in
    (mkWorld w (w_acts s), match a with RsGood t => Ok (Some t) | RsStatus _ => Ok None | RsTransport e | RsBad e => Err (BrTransport e) end).
Fixpoint fill_loop (fuel : nat) (start timeout_ms : Z) (id last : str) (s : World) : option (World * result unit BridgeError) :=
  match fuel with
  | O => None
  | S fuel =>
      match status_poll id s with
      | (s, Err e) => Some (s, Err e)
      | (s, Ok r) =>
          if bool_decide (r = Some (lit "success")) then Some (act (AFilled id) s)
          else if bool_decide (r = Some (lit "failure")) || bool_decide (r = Some (lit "refund")) then Some (s, Err (FillFailed (default [] r)))
          else
            let last := default last r in
            if timeout_ms <? clock (w_state s) - start then Some (s, Err (FillTimeout last)) else fill_loop fuel start timeout_ms id last (doze s)
      end
  end.
Definition wait_for_fill (timeout_ms : Z) (id : str) : BM unit :=
  fun s => default (s, Err (FillTimeout (lit "(none)"))) (fill_loop (polls2 timeout_ms) (clock (w_state s)) timeout_ms id (lit "(none)") s).

(** ** A leg, and the bridge *)

Fixpoint run_items (p : BridgeParams) (items : list TxData) (hashes : list bytes) : BM (list bytes) :=
  match items with
  | [] => bret hashes
  | tx :: items =>
      bbind (send_eip1559 (bp_origin_chain_id p) tx) (fun h =>
      bbind (wait_for_success (bp_timeout_ms p) h) (fun _ => run_items p items (hashes ++ [h])))
  end.
Fixpoint run_steps (p : BridgeParams) (steps : list QuoteStep) (hashes : list bytes) : BM (list bytes) :=
  match steps with
  | [] => bret hashes
  | st :: steps =>
      if negb (bool_decide (qs_kind st = lit "transaction")) then bfail (UnsupportedStep (qs_kind st))
      else bbind (run_items p (qs_items st) hashes) (fun hashes => run_steps p steps hashes)
  end.
Fixpoint first_id (steps : list QuoteStep) : option str :=
  match steps with [] => None | st :: steps => match qs_request_id st with Some i => Some i | None => first_id steps end end.

Definition leg_quote (p : BridgeParams) (dest : bytes) (amount : Z) (tt : TradeType) : QuoteRequest :=
  mkQuote from (bp_recipient p) (bp_origin_chain_id p) GNOSIS_CHAIN_ID (bp_origin_currency p) dest amount tt.
Definition run_leg (p : BridgeParams) (label : str) (dest : bytes) (amount : Z) (tt : TradeType) : BM BridgeLeg :=
  bbind (quote (leg_quote p dest amount tt)) (fun qr =>
  bbind (blift match first_id (qr_steps qr) with Some i => Ok i | None => Err (BrRelay (lit "quote returned no requestId")) end) (fun id =>
  bbind (run_steps p (qr_steps qr) []) (fun hashes =>
  bbind (wait_for_fill (bp_timeout_ms p) id) (fun _ => bret (mkLeg label id hashes (default ([], []) (qr_out qr))))))).

Definition bridge (p : BridgeParams) : BM (list BridgeLeg) :=
  bbind (native_balance false from) (fun origin_native =>
  if origin_native =? 0 then bfail (NoOriginGas (bp_origin_chain_id p))
  else
    match bp_target p with
    | XDai => bbind (run_leg p (lit "xdai") NATIVE_TOKEN (bp_amount p) (bp_trade_type p)) (fun l => bret [l])
    | Bzz => bbind (run_leg p (lit "bzz") bzz (bp_amount p) (bp_trade_type p)) (fun l => bret [l])
    | Both =>
        bbind (native_balance true (bp_recipient p)) (fun xdai_balance =>
        bbind (if xdai_balance <? bp_threshold p
               then bbind (run_leg p (lit "xdai-topup") NATIVE_TOKEN (bp_topup p) ExactOutput) (fun l => bret [l])
               else bret []) (fun legs =>
        bbind (run_leg p (lit "bzz") bzz (bp_amount p) (bp_trade_type p)) (fun l => bret (legs ++ [l]))))
    end).

(** ** What a bridge does to the outside *)

(** A signed transaction for an item of a quote: to its address, with its value and data. *)
Definition item_tx (chain_id : Z) (tx : TxData) (raw : bytes) : Prop :=
  exists nonce prio fee gas to value data sig, parse_address (tx_to tx) = Some to /\ parse_u256_opt (tx_value tx) = Ok value /\
    hex_decode (trim_0x (tx_data tx)) = Ok data /\ raw = 2 :: encode_1559_fields chain_id nonce prio fee gas to value data (Some sig).

(** Items executed in order, each sent only after the one before was confirmed, stopping
    anywhere; and all of them. *)
Inductive ran (chain_id : Z) : list TxData -> list Action -> Prop :=
| RanStop items : ran chain_id items []
| RanSent tx items raw : item_tx chain_id tx raw -> ran chain_id (tx :: items) [ASend raw]
| RanConfirmed tx items raw h l : item_tx chain_id tx raw -> ran chain_id items l -> ran chain_id (tx :: items) (ASend raw :: AConfirmed h :: l).
Inductive ran_all (chain_id : Z) : list TxData -> list bytes -> list Action -> Prop :=
| RaNil : ran_all chain_id [] [] []
| RaCons tx items raw h hs l : item_tx chain_id tx raw -> ran_all chain_id items hs l -> ran_all chain_id (tx :: items) (h :: hs) (ASend raw :: AConfirmed h :: l).

Lemma ran_all_app c i1 h1 l1 i2 h2 l2 : ran_all c i1 h1 l1 -> ran_all c i2 h2 l2 -> ran_all c (i1 ++ i2) (h1 ++ h2) (l1 ++ l2).
Proof. induction 1; intros Hr; cbn; [done|]. constructor; auto. Qed.
Lemma ran_after c i1 h1 l1 i2 l2 : ran_all c i1 h1 l1 -> ran c i2 l2 -> ran c (i1 ++ i2) (l1 ++ l2).
Proof. induction 1; intros Hr; cbn; [done|]. constructor; auto. Qed.
Lemma ran_more c i1 i2 l : ran c i1 l -> ran c (i1 ++ i2) l.
Proof. induction 1; cbn; constructor; auto. Qed.

Definition same_acts {A} (m : BM A) : Prop := forall s, w_acts (m s).1 = w_acts s.
Lemma same_bind {A B} (m : BM A) (k : A -> BM B) : same_acts m -> (forall a, same_acts (k a)) -> same_acts (bbind m k).
Proof. intros Hm Hk s. unfold bbind. specialize (Hm s). destruct (m s) as [s1 [a|e]]; cbn [fst] in *; [by rewrite Hk|done]. Qed.
Lemma same_lift {A} (r : result A BridgeError) : same_acts (blift r).
Proof. by intros s. Qed.
Lemma same_call c method empty : (forall raw, c <> SendRawTx raw) -> same_acts (call_text c method empty).
Proof. intros Hc s. unfold call_text. destruct (rpc (w_state s) c) as [w a]. cbn. destruct c; try done. by destruct (Hc raw). Qed.

Lemma bbind_inv {A B} (m : BM A) (k : A -> BM B) s s' r : bbind m k s = (s', r) ->
  (exists s1 a, m s = (s1, Ok a) /\ k a s1 = (s', r)) \/ (exists e, m s = (s', Err e) /\ r = Err e).
Proof. unfold bbind. destruct (m s) as [s1 [a|e]]; [left; eauto|]. intros [= <- <-]. right. eauto. Qed.
Lemma same_at {A} (m : BM A) s s' r : same_acts m -> m s = (s', r) -> w_acts s' = w_acts s.
Proof. intros Hm E. by rewrite <- (Hm s), E. Qed.

Ltac same := repeat (apply same_bind; [|intros ?]); repeat case_match; try apply same_lift; try (by apply same_call); try (by intros ?).
Lemma same_balance g a : same_acts (native_balance g a).
Proof. unfold native_balance. same. Qed.
Lemma same_nonce a : same_acts (get_nonce a).
Proof. unfold get_nonce. same. Qed.
Lemma same_price : same_acts gas_price.
Proof. unfold gas_price. same. Qed.
Lemma same_fees tx : same_acts (fees tx).
Proof. unfold fees. apply same_bind; [apply same_lift|]. intros m. apply same_bind; [apply same_lift|]. intros q. destruct (negb _); [by intros s|]. apply same_bind; [apply same_price|by intros g s]. Qed.
Lemma same_gas tx to v d : same_acts (gas_limit tx to v d).
Proof.
  unfold gas_limit. apply same_bind; [apply same_lift|]. intros g. destruct (negb _); [destruct (_ <=? _); by intros s|].
  unfold estimate. apply same_bind; [by apply same_call|]. intros t. by destruct (u64_from_hex _).
Qed.

(** Sending sends one transaction at most, the one of the item. *)
Lemma send_spec chain_id tx s s' r : send_eip1559 chain_id tx s = (s', r) ->
  (w_acts s' = w_acts s /\ exists e, r = Err e) \/ exists raw, w_acts s' = w_acts s ++ [ASend raw] /\ item_tx chain_id tx raw.
Proof.
  assert (Hno : forall e, w_acts s' = w_acts s -> r = Err e -> (w_acts s' = w_acts s /\ exists e, r = Err e) \/ exists raw, w_acts s' = w_acts s ++ [ASend raw] /\ item_tx chain_id tx raw)
    by (intros e E1 E2; left; eauto).
  unfold send_eip1559. intros [(s1 & n & E1 & E)|(e & E1 & Er)]%bbind_inv; pose proof (same_at _ _ _ _ (same_nonce _) E1) as Q1; [|eauto].
  apply bbind_inv in E as [(s2 & to & E2 & E)|(e & E2 & Er)]; injection E2 as <- E2; [|eauto]. destruct (parse_address _) as [to'|] eqn:Ea; [|done]. injection E2 as <-.
  apply bbind_inv in E as [(s2 & value & E2 & E)|(e & E2 & Er)]; injection E2 as <- Ev; [|eauto].
  apply bbind_inv in E as [(s2 & data & E2 & E)|(e & E2 & Er)]; injection E2 as <- Ed; [|eauto]. apply map_err_Ok in Ed.
  apply bbind_inv in E as [(s2 & f & E2 & E)|(e & E2 & Er)]; pose proof (same_at _ _ _ _ (same_fees _) E2) as Q2; [|eapply Hno; [congruence|exact Er]].
  apply bbind_inv in E as [(s3 & gas & E3 & E)|(e & E3 & Er)]; pose proof (same_at _ _ _ _ (same_gas _ _ _ _) E3) as Q3; [|eapply Hno; [congruence|exact Er]].
  apply bbind_inv in E as [(s4 & raw & E4 & E)|(e & E4 & Er)]; injection E4 as <- E4; [|eapply Hno; [congruence|exact Er]].
  assert (Ht : item_tx chain_id tx raw).
  { unfold sign_eip1559_tx in E4. destruct (map_err _ _) as [sig|]; [|done]. cbn in E4. injection E4 as <-. exists n, f.2, f.1, gas, to', value, data, sig. done. }
  right. exists raw. split; [|done]. rewrite <- Q1, <- Q2, <- Q3.
  assert (Hc : forall sx rx, call_text (SendRawTx raw) (lit "eth_sendRawTransaction") (lit "sendRawTransaction: empty") s3 = (sx, rx) -> w_acts sx = w_acts s3 ++ [ASend raw])
    by (intros sx rx; unfold call_text; destruct (rpc _ _); by intros [= <- _]).
  apply bbind_inv in E as [(s5 & t & E5 & E)|(e & E5 & Er)]; [|by eapply Hc]. apply Hc in E5. destruct (parse_b256 t); injection E as <- _; done.
Qed.

Lemma receipt_spec fuel start timeout tx : forall s s' r, receipt_loop fuel start timeout tx s = Some (s', r) ->
  match r with Ok _ => w_acts s' = w_acts s ++ [AConfirmed tx] | Err _ => w_acts s' = w_acts s end.
Proof.
  induction fuel as [|fuel IH]; intros s s' r; cbn [receipt_loop]; [done|].
  assert (Hp : w_acts (receipt_poll tx s).1 = w_acts s) by (unfold receipt_poll; by destruct (receipt_of _ _)).
  destruct (receipt_poll tx s) as [s1 [[t|]|e]]; cbn [fst] in Hp.
  - case_bool_decide; intros [= <- <-]; cbn; by rewrite Hp.
  - destruct (_ <? _); [by intros [= <- <-]|]. intros Hr%IH. cbn [doze w_acts] in Hr. by rewrite <- Hp.
  - by intros [= <- <-].
Qed.
Lemma confirm_spec timeout tx s s' r : wait_for_success timeout tx s = (s', r) ->
  match r with Ok _ => w_acts s' = w_acts s ++ [AConfirmed tx] | Err _ => w_acts s' = w_acts s end.
Proof. unfold wait_for_success. destruct (receipt_loop _ _ _ _ _) as [[s1 r1]|] eqn:E; cbn; [intros [= <- <-]; by eapply receipt_spec|by intros [= <- <-]]. Qed.
Lemma fill_spec fuel start timeout id : forall last s s' r, fill_loop fuel start timeout id last s = Some (s', r) ->
  match r with Ok _ => w_acts s' = w_acts s ++ [AFilled id] | Err _ => w_acts s' = w_acts s end.
Proof.
  induction fuel as [|fuel IH]; intros last s s' r; cbn [fill_loop]; [done|].
  assert (Hp : w_acts (status_poll id s).1 = w_acts s) by (unfold status_poll; by destruct (status_of _ _)).
  destruct (status_poll id s) as [s1 [t|e]]; cbn [fst] in Hp; [|by intros [= <- <-]].
  case_bool_decide; [intros [= <- <-]; cbn; by rewrite Hp|]. destruct (_ || _); [by intros [= <- <-]|].
  destruct (_ <? _); [by intros [= <- <-]|]. intros Hr%IH. cbn [doze w_acts] in Hr. by rewrite <- Hp.
Qed.
Lemma filled_spec timeout id s s' r : wait_for_fill timeout id s = (s', r) ->
  match r with Ok _ => w_acts s' = w_acts s ++ [AFilled id] | Err _ => w_acts s' = w_acts s end.
Proof. unfold wait_for_fill. destruct (fill_loop _ _ _ _ _ _) as [[s1 r1]|] eqn:E; cbn; [intros [= <- <-]; by eapply fill_spec|by intros [= <- <-]]. Qed.

Lemma items_spec p items : forall hs s s' r, run_items p items hs s = (s', r) ->
  exists l, w_acts s' = w_acts s ++ l /\
    match r with Ok hs' => exists new, hs' = hs ++ new /\ ran_all (bp_origin_chain_id p) items new l | Err _ => ran (bp_origin_chain_id p) items l end.
Proof.
  induction items as [|tx items IH]; intros hs s s' r; cbn [run_items].
  { intros [= <- <-]. exists []. rewrite app_nil_r. split; [done|]. exists []. rewrite app_nil_r. split; [done|constructor]. }
  intros [(s1 & h & E1 & E)|(e & E1 & ->)]%bbind_inv; apply send_spec in E1 as [[Q1 (e0 & Ee)]|(raw & Q1 & Ht)]; try done.
  - apply bbind_inv in E as [(s2 & u & E2 & E)|(e & E2 & ->)]; apply confirm_spec in E2.
    + apply IH in E as (l & Hl & Hr). exists (ASend raw :: AConfirmed h :: l). split; [rewrite Hl, E2, Q1, <- !app_assoc; done|].
      destruct r as [hs'|e]; [|by constructor]. destruct Hr as (new & -> & Hr). exists (h :: new). rewrite <- app_assoc. split; [done|by constructor].
    + exists [ASend raw]. rewrite E2, Q1. split; [done|by constructor].
  - exists []. rewrite app_nil_r. split; [done|constructor].
  - exists [ASend raw]. split; [done|by constructor].
Qed.

Definition all_items (steps : list QuoteStep) : list TxData := concat (map qs_items steps).
Lemma steps_spec p steps : forall hs s s' r, run_steps p steps hs s = (s', r) ->
  exists l, w_acts s' = w_acts s ++ l /\
    match r with
    | Ok hs' => (exists new, hs' = hs ++ new /\ ran_all (bp_origin_chain_id p) (all_items steps) new l) /\ Forall (fun st => qs_kind st = lit "transaction") steps
    | Err _ => ran (bp_origin_chain_id p) (all_items steps) l
    end.
Proof.
  induction steps as [|st steps IH]; intros hs s s' r; cbn [run_steps].
  { intros [= <- <-]. exists []. rewrite app_nil_r. split; [done|]. split; [|done]. exists []. rewrite app_nil_r. split; [done|constructor]. }
  case_bool_decide as Hk; cbn [negb]; [|intros [= <- <-]; exists []; rewrite app_nil_r; split; [done|constructor]].
  unfold all_items in *. cbn [map concat].
  intros [(s1 & hs1 & E1 & E)|(e & E1 & ->)]%bbind_inv; apply items_spec in E1 as (l1 & Q1 & Hr1); [|exists l1; split; [done|by apply ran_more]].
  destruct Hr1 as (new1 & -> & Hr1). apply IH in E as (l2 & Q2 & Hr2). exists (l1 ++ l2). split; [by rewrite Q2, Q1, app_assoc|].
  destruct r as [hs'|e]; [|by eapply ran_after]. destruct Hr2 as [(new2 & -> & Hr2) Hf]. split; [|by constructor].
  exists (new1 ++ new2). rewrite app_assoc. split; [done|by apply ran_all_app].
Qed.

(** The actions of a leg: a quote, then the transactions of its answer, then the fill of
    the request it named; complete or stopped. *)
Definition leg_acts (p : BridgeParams) (q : QuoteRequest) (l : list Action) (whole : option (str * list bytes)) : Prop :=
  exists items l1, match whole with
    | Some (id, hashes) => l = AQuote q :: l1 ++ [AFilled id] /\ ran_all (bp_origin_chain_id p) items hashes l1
    | None => l = AQuote q :: l1 /\ ran (bp_origin_chain_id p) items l1
    end /\ exists w w' qr, quote_of w q = (w', RsGood qr) /\ items = all_items (qr_steps qr) /\
      match whole with Some (id, _) => first_id (qr_steps qr) = Some id | None => True end.

Lemma ran_all_ran c items hs l : ran_all c items hs l -> ran c items l.
Proof. induction 1; by constructor. Qed.

Lemma leg_spec p label dest amount tt s s' r : run_leg p label dest amount tt s = (s', r) ->
  let q := leg_quote p dest amount tt in
  exists l, w_acts s' = w_acts s ++ l /\
    match r with
    | Ok leg => bl_label leg = label /\ leg_acts p q l (Some (bl_request_id leg, bl_hashes leg))
    | Err _ => l = [AQuote q] \/ leg_acts p q l None
    end.
Proof.
  cbv zeta. set (q := leg_quote p dest amount tt). unfold run_leg.
  assert (Hq : forall sx rx, quote q s = (sx, rx) -> w_acts sx = w_acts s ++ [AQuote q] /\ (forall qr, rx = Ok qr -> exists w w', quote_of w q = (w', RsGood qr))).
  { intros sx rx. unfold quote. destruct (quote_of (w_state s) q) as [w a] eqn:E. intros [= <- <-]. split; [done|]. intros qr Hr. destruct a; try done. injection Hr as ->. eauto. }
  intros [(s1 & qr & E1 & E)|(e & E1 & ->)]%bbind_inv; apply Hq in E1 as [Q1 Hgood]; [|exists [AQuote q]; auto].
  destruct (Hgood qr eq_refl) as (w & w' & Hw). apply bbind_inv in E as [(s2 & id & E2 & E)|(e & E2 & ->)]; injection E2 as <- E2; [|exists [AQuote q]; auto].
  assert (Hid : first_id (qr_steps qr) = Some id) by (destruct (first_id _); [by injection E2 as ->|done]).
  apply bbind_inv in E as [(s3 & hs & E3 & E)|(e & E3 & ->)]; apply steps_spec in E3 as (l & Q3 & Hr3).
  2:{ exists (AQuote q :: l). split; [by rewrite Q3, Q1, <- app_assoc|]. right. exists (all_items (qr_steps qr)), l. split; [done|]. by exists w, w', qr. }
  destruct Hr3 as [(new & -> & Hr3) Hf]. cbn [app] in *.
  apply bbind_inv in E as [(s4 & u & E4 & E)|(e & E4 & ->)]; apply filled_spec in E4.
  - injection E as <- <-. exists (AQuote q :: l ++ [AFilled id]). split; [rewrite E4, Q3, Q1, <- !app_assoc; done|]. split; [done|].
    exists (all_items (qr_steps qr)), l. split; [done|]. by exists w, w', qr.
  - exists (AQuote q :: l). split; [by rewrite E4, Q3, Q1, <- app_assoc|]. right. exists (all_items (qr_steps qr)), l.
    split; [split; [done|by eapply ran_all_ran]|]. by exists w, w', qr.
Qed.

(** Legs one after the other, the next only when the one before was filled. *)
Inductive legs_run (p : BridgeParams) : list QuoteRequest -> list Action -> list BridgeLeg -> bool -> Prop :=
| LrEnd : legs_run p [] [] [] true
| LrStop q qs l : l = [AQuote q] \/ leg_acts p q l None -> legs_run p (q :: qs) l [] false
| LrGo q qs l leg l' legs b : leg_acts p q l (Some (bl_request_id leg, bl_hashes leg)) -> legs_run p qs l' legs b -> legs_run p (q :: qs) (l ++ l') (leg :: legs) b.

Definition planned (p : BridgeParams) (topup : bool) : list QuoteRequest :=
  match bp_target p with
  | XDai => [leg_quote p NATIVE_TOKEN (bp_amount p) (bp_trade_type p)]
  | Bzz => [leg_quote p bzz (bp_amount p) (bp_trade_type p)]
  | Both => (if topup then [leg_quote p NATIVE_TOKEN (bp_topup p) ExactOutput] else []) ++ [leg_quote p bzz (bp_amount p) (bp_trade_type p)]
  end.

Lemma one_leg p label dest amount tt s s' r : bbind (run_leg p label dest amount tt) (fun l => bret [l]) s = (s', r) ->
  exists l legs b, w_acts s' = w_acts s ++ l /\ legs_run p [leg_quote p dest amount tt] l legs b /\ match r with Ok out => out = legs /\ b = true | Err _ => b = false end.
Proof.
  intros [(s1 & leg & E1 & E)|(e & E1 & ->)]%bbind_inv; apply leg_spec in E1 as (l & Q & Hl).
  - injection E as <- <-. destruct Hl as [_ Hl]. exists (l ++ []), [leg], true. rewrite app_nil_r at 1. split; [done|]. split; [|done]. constructor; [done|constructor].
  - exists l, [], false. split; [done|]. split; [by constructor|done].
Qed.

(** A bridge asks for the quotes planned and for no other, all in favour of the recipient,
    on Gnosis, out of the currency named; it sends the transactions of the answers in their
    order, each after the one before was confirmed, and begins a leg when the one before
    was filled; it sends nothing when the origin holds no gas; and it returns success only
    when all of it happened.  The services may answer anything. *)
Theorem bridge_safe p s s' r : bridge p s = (s', r) ->
  (w_acts s' = w_acts s /\ exists e, r = Err e) \/
  exists topup l legs b, w_acts s' = w_acts s ++ l /\ legs_run p (planned p topup) l legs b /\
    match r with Ok out => out = legs /\ b = true | Err _ => b = false end /\
    (exists s1 gas, native_balance false from s = (s1, Ok gas) /\ gas <> 0) /\
    (topup = true -> bp_target p = Both -> exists s1 s2 x, native_balance true (bp_recipient p) s1 = (s2, Ok x) /\ x < bp_threshold p).
Proof.
  unfold bridge. intros [(s1 & gas & E1 & E)|(e & E1 & ->)]%bbind_inv; pose proof (same_at _ _ _ _ (same_balance _ _) E1) as Q1; [|left; eauto].
  destruct (Z.eqb_spec gas 0) as [|Hg]; [injection E as <- <-; left; split; [done|eauto]|].
  unfold planned. destruct (bp_target p).
  1,2: right; exists false; apply one_leg in E as (l & legs & b & Q & Hl & Hr); exists l, legs, b; rewrite Q, Q1; split_and!; try done; by exists s1, gas.
  apply bbind_inv in E as [(s2 & x & E2 & E)|(e & E2 & ->)]; pose proof (same_at _ _ _ _ (same_balance _ _) E2) as Q2; [|left; split; [congruence|eauto]].
  right. exists (x <? bp_threshold p). destruct (Z.ltb_spec x (bp_threshold p)) as [Hx|Hx].
  - apply bbind_inv in E as [(s3 & legs1 & E3 & E)|(e & E3 & ->)]; apply one_leg in E3 as (l1 & lg1 & b1 & Q3 & Hl1 & Hr1).
    2:{ subst b1. inversion Hl1 as [|q qs l Hs|q qs l leg l' legs b Hleg Hrest]; subst; [|by inversion Hrest]. exists l1, [], false. rewrite Q3, Q2, Q1. split; [done|]. split; [by constructor|]. split; [done|].
        split; [by exists s1, gas|]. intros _ _. by exists s1, s2, x. }
    destruct Hr1 as [-> ->]. inversion Hl1 as [| |q qs l leg l' legs b Hleg Hrest]; subst. inversion Hrest; subst. rewrite app_nil_r in *.
    apply bbind_inv in E as [(s4 & leg2 & E4 & E)|(e & E4 & ->)]; apply leg_spec in E4 as (l2 & Q4 & Hl2).
    + injection E as <- <-. destruct Hl2 as [_ Hl2]. exists (l ++ l2 ++ []), [leg; leg2], true. rewrite Q4, Q3, Q2, Q1, <- app_assoc, app_nil_r at 1.
      split; [done|]. split; [cbn [app]; constructor; [done|]; constructor; [done|constructor]|]. split; [done|]. split; [by exists s1, gas|]. intros _ _. by exists s1, s2, x.
    + exists (l ++ l2), [leg], false. rewrite Q4, Q3, Q2, Q1, <- app_assoc. split; [done|]. split; [cbn [app]; constructor; [done|by constructor]|]. split; [done|].
      split; [by exists s1, gas|]. intros _ _. by exists s1, s2, x.
  - apply bbind_inv in E as [(s3 & legs1 & E3 & E)|(e & E3 & ->)]; [|done]. injection E3 as <- <-. cbn [app] in E.
    apply one_leg in E as (l & legs & b & Q & Hl & Hr). exists l, legs, b. rewrite Q, Q2, Q1. split_and!; try done. by exists s1, gas.
Qed.

(** *** Waiting ends *)

Lemma polls2_enough timeout start now : 0 <= timeout -> now = start -> timeout - (now - start) < 2000 * Z.of_nat (S (Z.to_nat (timeout / 2000))).
Proof.
  intros Ht ->. pose proof (Z.div_mod timeout 2000 ltac:(lia)). pose proof (Z.mod_pos_bound timeout 2000 ltac:(lia)).
  pose proof (Z.div_pos timeout 2000 ltac:(lia) ltac:(lia)). lia.
Qed.

(** With a clock that does not go back, on which a sleep takes its two seconds, both waits
    end within their polls. *)
Theorem waits_end timeout tx id last s : 0 <= timeout ->
  (forall w t, clock w <= clock (receipt_of w t).1) -> (forall w i, clock w <= clock (status_of w i).1) -> (forall w, clock w + 2000 <= clock (sleep2 w)) ->
  is_Some (receipt_loop (polls2 timeout) (clock (w_state s)) timeout tx s) /\ is_Some (fill_loop (polls2 timeout) (clock (w_state s)) timeout id last s).
Proof.
  intros Ht Hr Hst Hs. set (start := clock (w_state s)).
  assert (Hp1 : forall s0, clock (w_state s0) <= clock (w_state (receipt_poll tx s0).1)).
  { intros s0. unfold receipt_poll. specialize (Hr (w_state s0) tx). by destruct (receipt_of _ _). }
  assert (Hp2 : forall s0, clock (w_state s0) <= clock (w_state (status_poll id s0).1)).
  { intros s0. unfold status_poll. specialize (Hst (w_state s0) id). by destruct (status_of _ _). }
  split.
  - assert (Hg : forall fuel s0, timeout - (clock (w_state s0) - start) < 2000 * Z.of_nat fuel -> is_Some (receipt_loop (S fuel) start timeout tx s0)).
    { induction fuel as [|fuel IH]; intros s0 Hf; cbn [receipt_loop]; specialize (Hp1 s0); (destruct (receipt_poll tx s0) as [s1 [[t|]|e]]; cbn [fst] in Hp1; [eauto| |eauto]).
      - rewrite (proj2 (Z.ltb_lt _ _)) by lia. eauto.
      - destruct (_ <? _); [eauto|]. apply IH. cbn [doze w_state]. specialize (Hs (w_state s1)). lia. }
    apply Hg. by apply polls2_enough.
  - assert (Hg : forall fuel last s0, timeout - (clock (w_state s0) - start) < 2000 * Z.of_nat fuel -> is_Some (fill_loop (S fuel) start timeout id last s0)).
    { induction fuel as [|fuel IH]; intros lst s0 Hf; cbn [fill_loop]; specialize (Hp2 s0); (destruct (status_poll id s0) as [s1 [t|e]]; cbn [fst] in Hp2; [|eauto]);
        (case_bool_decide; [eauto|]; destruct (_ || _); [eauto|]).
      - rewrite (proj2 (Z.ltb_lt _ _)) by lia. eauto.
      - destruct (_ <? _); [eauto|]. apply IH. cbn [doze w_state]. specialize (Hs (w_state s1)). lia. }
    apply Hg. by apply polls2_enough.
Qed.
End Bridge.

(** ** A concrete bridge: one leg of one transaction *)
Module BridgeWitness.
#[local] Instance toy_abi : Abi := {
  abi_encode c := []; dec_word b := Err []; dec_address b := Err []; dec_bool b := Err []; dec_batches b := Err [];
  parse_address s := Some s; parse_b256 s := Some s; batch_created_topic := []; swap_deployed_topic := []; decode_created topics data := Err [] }.
#[local] Instance toy_rlp : Rlp := { rlp_uint n := [n]; rlp_bytes b := b; rlp_list n := [Z.of_nat n] }.
Definition offered : QuoteResponse := mkResponse [mkStep (lit "transaction") [mkTx [5] (lit "0x01") None (Some (lit "100")) (Some (lit "7")) None] (Some (lit "id"))] None.
Definition toy_rpc (w : Z) (c : Call) : Z * Rpc str := (w + 1, match c with SendRawTx _ => RpValue [9] | _ => RpValue (lit "0x1") end).
Definition radix (s : str) (b : Z) : option Z := Some (Z.of_nat (length s)).
Definition toy_params : BridgeParams := mkBridge 1 NATIVE_TOKEN 1000 Bzz [4] ExactInput 10 10 4000.
Definition ran_once : World (W := Z) * result (list BridgeLeg) BridgeError :=
  bridge (fun b => b) radix [3] (fun w q => (w, RsGood offered)) (fun w i => (w, RsGood (lit "success"))) toy_rpc (fun w t => (w, RpValue (lit "0x1")))
    (fun w => w) (fun w => w + 2000) [2] (fun h => Ok (0, 1, 2)) toy_params (mkWorld 0 []).

(** It asks for a quote, sends, waits, and sees the fill. *)
Example bridges : exists raw, w_acts ran_once.1 = [AQuote (mkQuote [2] [4] 1 100 NATIVE_TOKEN [3] 1000 ExactInput); ASend raw; AConfirmed [9]; AFilled (lit "id")] /\
  is_ok ran_once.2 = true.
Proof. eexists. split; vm_compute; reflexivity. Qed.
End BridgeWitness.
