(* ===== verification/Browser.v ===== *)
(** * Uploads from a browser ([src/src/wasm.rs])

    The upload half of the JavaScript interface: the arguments of an upload, the stream
    of stamped windows, and [UploadSession], which drives the scheduler of [PushSched]
    while JavaScript owns the requests and the clock.  JavaScript may call in any order
    and say anything: a session is a state with one operation per exported method.

    The target is wasm32, so a [usize] has 32 bits.  A JavaScript number is an [f64];
    [Reflect], [Uint8Array] and [JSON] are what they give back.  Node start, discovery,
    fetching and the direct uploads of this file only call components modelled
    elsewhere, and [laneStats] is for logging; they are left out. *)
From Stdlib Require Import ZArith Lia.
From stdpp Require Import base tactics numbers countable strings list gmap.
From S2P Require Import Prelude Codec Erasure F64 PushFrame Signer Challenge Meter Payer PushSched PushSchedInv Prepare Lanes LanesInv RelayUpload.
Local Open Scope Z_scope.
Local Open Scope hov_scope.

(** ** The arguments of an upload *)

(** [fn parse_redundancy]. *)
Definition parse_redundancy (level : option str) : result Level str :=
  match level with
  | None => Ok DEFAULT_UPLOAD_LEVEL
  | Some s => if bool_decide (trim s = []) then Ok DEFAULT_UPLOAD_LEVEL else level_from_str s
  end.

(** An element of the array of files: its [path] and [contentType] when they are strings;
    [data] is [None] when reading it throws, [Some None] when it is no [Uint8Array]. *)
Record JsEntry := mkEntry { je_path : option str; je_data : option (option bytes); je_content_type : option str }.

(** [fn parse_upload_files]. *)
Definition at_file (i : nat) (e : str) : str := lit "files[" ++ u128_to_string (Z.of_nat i) ++ lit "]: " ++ e.
Fixpoint parse_entries (i : nat) (files : list JsEntry) : result (list UploadFile) str :=
  match files with
  | [] => Ok []
  | e :: files =>
      match je_path e with
      | None => Err (at_file i (lit "missing string `path`"))
      | Some path =>
          match je_data e with
          | None => Err (at_file i (lit "missing `data`"))
          | Some None => Err (at_file i (lit "`data` must be a Uint8Array"))
          | Some (Some data) => let? fs := parse_entries (S i) files in Ok (mkFile path (je_content_type e) data :: fs)
          end
      end
  end.
Definition parse_upload_files (files : list JsEntry) : result (list UploadFile) str := parse_entries 0 files.

(** The entries that are files. *)
Definition entry_file (e : JsEntry) : option UploadFile :=
  match je_path e, je_data e with Some p, Some (Some d) => Some (mkFile p (je_content_type e) d) | _, _ => None end.

(** ** Beginning an upload *)

Section Begin.
Context `{Hex} (from_hex : str -> result bytes str) (signer_key : option str).
Context (split_plain : bytes -> result (bytes * list (bytes * (Z * bytes))) str).
Context (bmt : Z -> bytes -> bytes) (keccak : bytes -> bytes) (content_chunk : bytes -> result bytes str) (new_replica : Z -> bytes -> result (bytes * bytes) str).
Context {M : Type} (manifest_new : M) (add_with_metadata : M -> str -> bytes -> gmap str str -> result M str) (save : M -> result (bytes * Chunks) str).
Context {Stamper : Type} (memory_issuer ring_issuer : Batch -> result Stamper str).

Inductive JsError := JsNoKey | JsSigner (e : str) | JsArgument (e : str) | JsEmpty | JsPrepare (e : PrepareError).

(** [fn upload_signer]. *)
Definition upload_signer : result bytes JsError :=
  match signer_key with None => Err JsNoKey | Some key => map_err JsSigner (from_hex key) end.

(** [fn begin_upload]. *)
Definition begin_upload (data : bytes) (path : str) (content_type : option str) (batch_id_hex : str) (depth : Z) (immutable raw : bool)
    (redundancy : option str) : result (UploadStreamer (Stamper := Stamper)) JsError :=
  let? signer := upload_signer in
  let? level := map_err JsArgument (parse_redundancy redundancy) in
  map_err JsPrepare
    (if raw then new_raw split_plain bmt keccak content_chunk new_replica memory_issuer ring_issuer signer batch_id_hex depth immutable data level
     else new_file split_plain bmt keccak content_chunk new_replica manifest_new add_with_metadata save memory_issuer ring_issuer signer batch_id_hex depth
            immutable data path content_type level).

(** [fn begin_collection]. *)
Definition begin_collection (files : list JsEntry) (index_document error_document : option str) (batch_id_hex : str) (depth : Z) (immutable : bool)
    (redundancy : option str) : result (UploadStreamer (Stamper := Stamper)) JsError :=
  let? signer := upload_signer in
  let? upload_files := map_err JsArgument (parse_upload_files files) in
  match upload_files with
  | [] => Err JsEmpty
  | _ =>
      let? level := map_err JsArgument (parse_redundancy redundancy) in
      map_err JsPrepare
        (new_collection split_plain bmt keccak content_chunk new_replica manifest_new add_with_metadata save memory_issuer ring_issuer signer
           batch_id_hex depth immutable upload_files index_document error_document level)
  end.
End Begin.

(** [UploadStream::next_batch]: the body of the next window, or [None] at the end. *)
Definition stream_next_batch {Stamper Digest : Type} (prepare_stamp : Stamper -> bytes -> Z -> Stamper * result Digest str)
    (sign_stamp : Digest -> result bytes str) (s : UploadStreamer (Stamper := Stamper)) (batch_size : nat) (ts : Z)
    : UploadStreamer (Stamper := Stamper) * result (option bytes) PrepareError :=
  match next_batch prepare_stamp sign_stamp s batch_size ts with
  | (s, Err e) => (s, Err e)
  | (s, Ok []) => (s, Ok None)
  | (s, Ok work) => (s, Ok (Some (encode_batch work)))
  end.

(** ** The session *)

(** A time from JavaScript: [x.max(0.0) as u64]. *)
Definition js_ms (x : f64) : Z := f64_as_u64 (f64_max x (f64_of_Z 0)).
Definition SESSION_WINDOW : nat := 1024.

(** [struct PushRequest]; its [batch] is read as a number. *)
Record PushRequest := mkRequest { rq_lane : nat; rq_batch : nat; rq_body : bytes; rq_hedge : bool }.
Definition request_batch (r : PushRequest) : f64 := f64_of_Z (Z.of_nat (rq_batch r)).

(** The 32-byte address a line names. *)
Definition ack_addr `{Hex} (addr_hex : str) : option bytes :=
  match hex_decode (trim_0x addr_hex) with Ok raw => if Nat.eqb (length raw) 32 then Some raw else None | Err _ => None end.

(** What [set_lane_status] reads from a status document. *)
Definition hard_status (v : LaneStatus) : bool :=
  match ls_payment v with Some p => bool_decide (as_str (jget p (lit "enforcement")) = Some (lit "hard")) | None => false end.
Definition status_info `{Hex} (v : LaneStatus) : LaneInfo :=
  mkInfo (match ls_overlay v with Some h => ack_addr h | None => None end)
    ((fun x => Z.to_nat (wrap 32 x)) <$> ls_batch_max v) ((fun x => Z.to_nat (wrap 32 x)) <$> ls_inflight_max v)
    (ls_budget_gb v) ((fun x => Z.to_nat (wrap 32 x)) <$> ls_pool_live v)
    (match ls_payment v with
     | Some p => match as_str (jget p (lit "price_plur_per_kib")) with
                 | Some s => match u128_parse s with Ok n => Some n | Err _ => None end | None => None end
     | None => None end)
    (hard_status v).

Section Session.
Context {Src E : Type} `{Hex} (produce : Src -> nat -> Src * result (list StampedChunk) E).
Context (ln : f64 -> f64) (iter_order : Scheduler -> list (nat * list nat) -> list (nat * list nat)).

(** [struct UploadSession]. *)
Record Session := mkSession {
  ss_sched : Scheduler; ss_stream : option Src; ss_frames : gmap bytes StampedChunk; ss_root : str; ss_total_hint : nat; ss_exhausted : bool }.
Definition set_sched (s : Session) (x : Scheduler) : Session :=
  mkSession x (ss_stream s) (ss_frames s) (ss_root s) (ss_total_hint s) (ss_exhausted s).

(** [fn begin_session], for a stream with this root and this many chunks. *)
Definition begin_session (lanes : nat) (stream : Src) (root : bytes) (total : nat) : Session :=
  mkSession (sched_new (replicate (Nat.max lanes 1) default_info) default_config) (Some stream) ∅ (hex_encode root) total false.

(** The getters. *)
Definition chunk_count (s : Session) : nat := Nat.max (ss_total_hint s) (length (chunks (ss_sched s))).
Definition session_done (s : Session) : bool := ss_exhausted s && sched_done (ss_sched s).

(** [UploadSession::set_lane_status]; [Err] is a status that is no JSON. *)
Definition set_lane_status (s : Session) (lane : nat) (status : result LaneStatus str) : Session * result bool str :=
  match status with
  | Err e => (s, Err e)
  | Ok v =>
      let s := set_sched s (set_lane_info (ss_sched s) lane (status_info v)) in
      if hard_status v then (set_sched s (retire_lane (ss_sched s) lane), Ok false) else (s, Ok true)
  end.

(** [UploadSession::refill]. *)
Definition session_refill (s : Session) : Session * result unit E :=
  match ss_stream s with
  | None => (mkSession (ss_sched s) None (ss_frames s) (ss_root s) (ss_total_hint s) true, Ok tt)
  | Some stream =>
      match produce stream SESSION_WINDOW with
      | (stream, Err e) => (mkSession (ss_sched s) (Some stream) (ss_frames s) (ss_root s) (ss_total_hint s) (ss_exhausted s), Err e)
      | (stream, Ok []) => (mkSession (ss_sched s) None (ss_frames s) (ss_root s) (ss_total_hint s) true, Ok tt)
      | (stream, Ok batch) =>
          (mkSession (admit_chunks (ss_sched s) (map (fun c => (sc_addr c, wrap 32 (Z.of_nat (length (sc_wire c))))) batch)).1 (Some stream)
             (foldl hold_frame (ss_frames s) batch) (ss_root s) (ss_total_hint s) (ss_exhausted s), Ok tt)
      end
  end.
(** Chunks that are neither acknowledged nor given up, as the subtraction of the target gives it. *)
Definition session_backlog (s : Scheduler) : Z := wrap 32 (Z.of_nat (length (chunks s)) - Z.of_nat (acked s) - Z.of_nat (failed s)).
Fixpoint refill_window (fuel : nat) (s : Session) : option (Session * result unit E) :=
  if ss_exhausted s then Some (s, Ok tt)
  else if session_backlog (ss_sched s) <? Z.of_nat SESSION_WINDOW then
    match fuel with
    | O => None
    | S fuel => match session_refill s with (s, Err e) => Some (s, Err e) | (s, Ok _) => refill_window fuel s end
    end
  else Some (s, Ok tt).

(** The frames of an assignment. *)
Definition frames_for (s : Session) (a : Assignment) : list StampedChunk :=
  omap (fun i => ss_frames s !! addr (chunks (ss_sched s) !!! i)) (a_chunks a).
(** [UploadSession::next_request]; [None] when the fuel is out. *)
Definition next_request (fuel : nat) (s : Session) (now_ms : f64) : option (Session * result (option PushRequest) E) :=
  match refill_window fuel s with
  | None => None
  | Some (s, Err e) => Some (s, Err e)
  | Some (s, Ok _) =>
      let '(x, a) := next ln (iter_order (ss_sched s)) (ss_sched s) (js_ms now_ms) in
      let s := set_sched s x in
      Some (s, Ok ((fun a => mkRequest (a_lane a) (a_batch a) (encode_batch (frames_for s a)) (a_hedge a)) <$> a))
  end.

(** [UploadSession::report_ack]. *)
Definition report_ack (s : Session) (lane : nat) (addr_hex : str) (ok : bool) (now_ms : f64) : Session :=
  match ack_addr addr_hex with
  | None => s
  | Some a =>
      let before := acked (ss_sched s) in
      let s := set_sched s (on_ack (ss_sched s) lane a ok (js_ms now_ms)) in
      if Nat.ltb before (acked (ss_sched s))
      then mkSession (ss_sched s) (ss_stream s) (delete a (ss_frames s)) (ss_root s) (ss_total_hint s) (ss_exhausted s) else s
  end.

(** [UploadSession::report_batch], [report_payment_required]. *)
Definition report_batch (s : Session) (batch : f64) (lane n : nat) (elapsed_ms : f64) (ok : bool) (now_ms : f64) : Session :=
  let outcome := if ok then Answered else BatchFailed (lit "post failed") in
  let x := on_batch_timing (ss_sched s) lane n (js_ms elapsed_ms) in
  set_sched s (on_batch_result x (Z.to_nat (f64_as_u64 batch)) outcome (js_ms now_ms)).
Definition report_payment_required (s : Session) (batch : f64) (now_ms : f64) : Session :=
  set_sched s (on_batch_result (ss_sched s) (Z.to_nat (f64_as_u64 batch)) PaymentRequired (js_ms now_ms)).

(** [UploadSession::wait_ms], [stall_reason]. *)
Definition wait_ms (s : Session) (now_ms : f64) : f64 :=
  let now := js_ms now_ms in
  match next_wake_ms (ss_sched s) now with Some t => if now <? t then f64_of_Z (t - now) else f64_of_Z 0 | None => f64_of_Z 0 end.
Definition stall_reason (s : Session) (now_ms : f64) : option str :=
  if negb (ss_exhausted s) then None
  else match stalled (ss_sched s) (js_ms now_ms) with
       | Some AllLanesDown => Some (lit "AllLanesDown") | Some ChunksExhausted => Some (lit "ChunksExhausted") | None => None end.

(** ** What JavaScript may do with a session *)

Inductive Call :=
| CStatus (lane : nat) (status : result LaneStatus str)
| CNext (now_ms : f64)
| CAck (lane : nat) (addr_hex : str) (ok : bool) (now_ms : f64)
| CBatch (batch : f64) (lane n : nat) (elapsed_ms : f64) (ok : bool) (now_ms : f64)
| CPayment (batch : f64) (now_ms : f64).
Definition perform (fuel : nat) (s : Session) (c : Call) : option Session :=
  match c with
  | CStatus lane status => Some (set_lane_status s lane status).1
  | CNext now => fst <$> next_request fuel s now
  | CAck lane h ok now => Some (report_ack s lane h ok now)
  | CBatch b lane n ms ok now => Some (report_batch s b lane n ms ok now)
  | CPayment b now => Some (report_payment_required s b now)
  end.
Fixpoint perform_all (fuel : nat) (s : Session) (cs : list Call) : option Session :=
  match cs with [] => Some s | c :: cs => match perform fuel s c with Some s => perform_all fuel s cs | None => None end end.
End Session.
Arguments Session : clear implicits.

(** ** The arguments *)

(** An array of files is taken as a whole, in its order, or not at all. *)
Theorem upload_files_all files fs : parse_upload_files files = Ok fs <-> mapM entry_file files = Some fs.
Proof.
  unfold parse_upload_files. generalize 0%nat as i. intros i. revert i fs. induction files as [|e files IH]; intros i fs; cbn [parse_entries mapM].
  - by split; intros [= <-].
  - rewrite bind_Some. unfold entry_file at 1. destruct (je_path e) as [p|]; [|split; [done|by intros (?&?&?)]].
    destruct (je_data e) as [[d|]|]; [|split; [done|by intros (?&?&?)]..].
    split.
    + destruct (parse_entries (S i) files) as [fs'|] eqn:Ef; [|done]. cbn. intros [= <-]. eexists. split; [done|]. apply IH in Ef. by rewrite Ef.
    + intros (x & [= <-] & Hb). apply bind_Some in Hb as (fs' & Hm%(IH (S i)) & [= <-]). by rewrite Hm.
Qed.

(** ** Sessions *)

(** A source of chunks that gives back nothing it has handed out, even when it fails. *)
Class FailingSource (Src E : Type) (produce : Src -> nat -> Src * result (list StampedChunk) E) `{!ChunkSource Src E produce} : Prop :=
  fail_rest : forall src src' e, produce src SESSION_WINDOW = (src', Err e) -> rest src' `sublist_of` rest src.

#[export] Instance streamer_failing {Stamper Digest : Type} (prepare_stamp : Stamper -> bytes -> Z -> Stamper * result Digest str)
    (sign_stamp : Digest -> result bytes str) (time : nat -> Z) : FailingSource _ _ (take_window prepare_stamp sign_stamp time).
Proof.
  intros [[root cs st total] k] src' e. unfold take_window, next_batch. cbn [fst snd us_remaining us_stamper us_root us_total].
  destruct (Nat.eqb _ _); [done|]. rewrite <- (rev_involutive cs) at 2. rewrite pop_n_rev by (rewrite length_rev; lia).
  destruct (stamp_chunks_parallel _ _ _ _ _) as [st1 res]. intros Heq. injection Heq as <- _.
  unfold rest, streamer_source. cbn [fst us_remaining]. rewrite rev_involutive, <- skipn_map. apply sublist_drop.
Qed.

Section Inv.
Context {Src E : Type} `{Hex} (produce : Src -> nat -> Src * result (list StampedChunk) E) `{!ChunkSource Src E produce} `{!FailingSource Src E produce}.
Context (ln : f64 -> f64) (iter_order : Scheduler -> list (nat * list nat) -> list (nat * list nat)).
Hypothesis iter_perm : forall s l, iter_order s l ≡ₚ l.
Abbreviation session := (Session Src).

(** JavaScript said that a relay stored the chunk. *)
Definition acked_by (cs : list Call) (a : bytes) : Prop := exists lane h now, CAck lane h true now ∈ cs /\ ack_addr h = Some a.
Definition stream_rest (s : session) : list bytes := match ss_stream s with Some src => rest src | None => [] end.

(** [all] is what the stream had at the start, [cs] the calls so far. *)
Record UInv (all : list bytes) (cs : list Call) (s : session) : Prop := {
  u_sched : SInv (ss_sched s);
  u_sub : forall ci c, chunks (ss_sched s) !! ci = Some c -> addr c ∈ all;
  u_rest : stream_rest s `sublist_of` all;
  u_keys : forall a f, ss_frames s !! a = Some f -> sc_addr f = a;
  u_frames : forall ci c, chunks (ss_sched s) !! ci = Some c -> phase c <> Done -> is_Some (ss_frames s !! addr c);
  u_done : forall ci c, chunks (ss_sched s) !! ci = Some c -> phase c = Done -> acked_by cs (addr c);
  u_hint : ss_total_hint s = length all }.

Lemma acked_more cs c a : acked_by cs a -> acked_by (cs ++ [c]) a.
Proof. intros (l & h & t & Hin & Ha). exists l, h, t. split; [apply elem_of_app; by left|done]. Qed.

(** A call of the scheduler that completes no chunk. *)
Lemma uinv_step all cs s x : UInv all cs s -> step ln (ss_sched s) x -> back (chunks (ss_sched s)) (chunks x) -> UInv all cs (set_sched s x).
Proof.
  intros [H1 H2 H3 H4 H5 H6 H7] Hs [Hl Hb]. pose proof (evolves_step ln _ _ H1 Hs) as He.
  split; cbn [set_sched ss_sched ss_stream ss_frames ss_total_hint]; auto.
  - by eapply inv_step.
  - intros ci c' Hc'. destruct (Hb ci c' Hc') as (c & Hc & -> & _). eauto.
  - intros ci c' Hc' Hp. destruct (evolves_back_at _ _ ci c' He Hl Hc') as (c & Hc & -> & Hd). apply (H5 ci c Hc). auto.
  - intros ci c' Hc' Hp. destruct (Hb ci c' Hc') as (c & Hc & -> & Hd). eauto.
Qed.

Lemma uinv_refill all cs s : UInv all cs s -> UInv all cs (session_refill produce s).1.
Proof.
  intros HU. unfold session_refill. destruct (ss_stream s) as [src|] eqn:Es; [|by destruct HU; split; cbn; auto using sublist_nil_l].
  destruct (produce src SESSION_WINDOW) as [src' [b|e]] eqn:Ep.
  2:{ pose proof (fail_rest _ _ _ Ep) as Hf. destruct HU as [H1 H2 H3 H4 H5 H6 H7]. split; auto. unfold stream_rest in *. cbn. rewrite Es in H3.
      by etrans. }
  pose proof (produce_rest _ _ _ Ep) as Er. destruct HU as [H1 H2 H3 H4 H5 H6 H7]. destruct b as [|c0 b0]; [split; cbn; auto using sublist_nil_l|].
  set (b := c0 :: b0) in *. clearbody b. unfold stream_rest in H3. rewrite Es, Er in H3.
  assert (Echs : map fst (map chunk_of b) = map sc_addr b) by (rewrite map_map; by apply map_ext).
  destruct (admit_all (map chunk_of b) (ss_sched s)) as ((new & E1 & Hn) & _ & _).
  destruct (hold_frames b (ss_frames s)) as (F1 & F2 & F3). rewrite Echs in Hn.
  change (foldl admit_one (ss_sched s) (map chunk_of b)) with (admit_chunks (ss_sched s) (map chunk_of b)).1 in E1.
  split; cbn [ss_sched ss_stream ss_frames ss_total_hint fst]; fold chunk_of; auto; change (fun c => (sc_addr c, _)) with chunk_of.
  - by apply inv_admit.
  - intros ci x. rewrite E1. intros [?|[_ Hx]]%lookup_app_Some; [eauto|]. destruct (Forall_lookup_1 _ _ _ _ Hn Hx) as [Hin _].
    eapply elem_of_submseteq; [|by apply sublist_submseteq]. apply elem_of_app. by left.
  - unfold stream_rest. cbn. etrans; [|exact H3]. by apply sublist_inserts_l.
  - intros ci x. rewrite E1. intros [Hx|[_ Hx]]%lookup_app_Some Hp.
    + destruct (H5 ci x Hx Hp) as [f Hf]. exists f. by apply F1.
    + destruct (Forall_lookup_1 _ _ _ _ Hn Hx) as [Hin _]. by apply F2.
  - intros ci x. rewrite E1. intros [Hx|[_ Hx]]%lookup_app_Some Hp; [eauto|].
    destruct (Forall_lookup_1 _ _ _ _ Hn Hx) as [_ ?]. congruence.
Qed.

Lemma uinv_window all cs fuel : forall s s' r, UInv all cs s -> refill_window produce fuel s = Some (s', r) -> UInv all cs s'.
Proof.
  induction fuel as [|fuel IH]; intros s s' r HU; cbn [refill_window];
    (destruct (ss_exhausted s); [by intros [= <- _]|]); (destruct (_ <? _); [|by intros [= <- _]]); [done|].
  pose proof (uinv_refill _ _ _ HU) as Hr. destruct (session_refill produce s) as [s1 [u|e]]; cbn [fst] in Hr; [by apply IH|by intros [= <- _]].
Qed.

Lemma uinv_next all cs s now : UInv all cs s -> UInv all cs (set_sched s (next ln (iter_order (ss_sched s)) (ss_sched s) now).1).
Proof. intros HU. apply uinv_step; [done|by constructor|apply back_next]. Qed.

Lemma uinv_ack all cs s lane h ok now : UInv all cs s -> UInv all (cs ++ [CAck lane h ok now]) (report_ack s lane h ok now).
Proof.
  intros HU. assert (HU' : UInv all (cs ++ [CAck lane h ok now]) s) by (destruct HU; split; eauto using acked_more).
  unfold report_ack. destruct (ack_addr h) as [a|] eqn:Ea; [|done]. cbv zeta.
  set (x := on_ack (ss_sched s) lane a ok (js_ms now)).
  assert (Hst : step ln (ss_sched s) x) by constructor.
  destruct (ack_shape (ss_sched s) lane a ok (js_ms now)) as (Hl & _ & Hcase). fold x in Hl, Hcase.
  destruct Hcase as [[Ek Hb]|(-> & Ek & ci & Hi & Hdn & Hoth)]; cbn [set_sched ss_sched].
  - rewrite Ek, Nat.ltb_irrefl. by apply uinv_step.
  - rewrite Ek, (proj2 (Nat.ltb_lt _ _)) by lia. destruct HU' as [H1 H2 H3 H4 H5 H6 H7].
    pose proof (evolves_step ln _ _ H1 Hst) as He. apply (i_idx _ _ _ H1) in Hi as (c0 & Hc0 & Eaddr).
    split; cbn [ss_sched ss_stream ss_frames ss_total_hint]; auto.
    + by eapply inv_step.
    + intros j c' Hc'. destruct (evolves_back_at _ _ j c' He Hl Hc') as (c & Hc & -> & _). eauto.
    + intros k f Hk. apply lookup_delete_Some in Hk as [_ Hk]. eauto.
    + intros j c' Hc' Hp. destruct (evolves_back_at _ _ j c' He Hl Hc') as (c & Hc & Eq & Hd). rewrite Eq.
      destruct (H5 j c Hc) as [f Hf]; [auto|]. exists f. rewrite lookup_delete_ne; [done|]. intros ->.
      assert (j = ci) as ->; [|by apply Hp, Hdn].
      assert (Hj : index (ss_sched s) !! addr c = Some j) by (apply (i_idx _ _ _ H1); eauto).
      assert (Hci : index (ss_sched s) !! addr c = Some ci) by (apply (i_idx _ _ _ H1); eauto). congruence.
    + intros j c' Hc' Hp. destruct (evolves_back_at _ _ j c' He Hl Hc') as (c & Hc & Eq & _). rewrite Eq.
      destruct (decide (j = ci)) as [->|Hj].
      * exists lane, h, now. split; [apply elem_of_app; right; by left|]. congruence.
      * destruct (Hoth j c' Hj Hc' Hp) as (c2 & Hc2 & Hp2). assert (c2 = c) as -> by congruence. eauto.
Qed.

Lemma uinv_status all cs s lane st : UInv all cs s -> UInv all cs (set_lane_status s lane st).1.
Proof.
  intros HU. unfold set_lane_status. destruct st as [v|e]; [|done]. cbv zeta.
  assert (H1 : UInv all cs (set_sched s (set_lane_info (ss_sched s) lane (status_info v)))) by (by apply uinv_step; [|constructor|]).
  destruct (hard_status v); [|done]. cbn [fst]. by apply uinv_step; [|constructor|].
Qed.

Lemma uinv_perform all cs fuel s c s' : UInv all cs s -> perform produce ln iter_order fuel s c = Some s' -> UInv all (cs ++ [c]) s'.
Proof.
  intros HU. assert (Hmore : forall s', UInv all cs s' -> UInv all (cs ++ [c]) s') by (intros ? []; split; eauto using acked_more).
  destruct c as [lane st|now|lane h ok now|b lane n ms ok now|b now]; cbn [perform].
  - intros [= <-]. by apply Hmore, uinv_status.
  - unfold next_request. destruct (refill_window produce fuel s) as [[s1 [u|e]]|] eqn:Er; [| |done];
      apply (uinv_window _ _ _ _ _ _ HU) in Er; [|intros [= <-]; auto].
    pose proof (uinv_next _ _ _ (js_ms now) Er) as Hn. destruct (next ln _ _ _) as [x a]. intros [= <-]. by apply Hmore.
  - intros [= <-]. by apply uinv_ack.
  - intros [= <-]. apply Hmore. unfold report_batch. cbv zeta.
    assert (H1 : UInv all cs (set_sched s (on_batch_timing (ss_sched s) lane n (js_ms ms)))) by (by apply uinv_step; [|constructor|]).
    eapply (uinv_step _ _ _ _ H1); [constructor|apply back_batch_result].
  - intros [= <-]. apply Hmore, uinv_step; [done|constructor|apply back_batch_result].
Qed.

Lemma uinv_all all fuel cs : forall done s s', UInv all done s -> perform_all produce ln iter_order fuel s cs = Some s' -> UInv all (done ++ cs) s'.
Proof.
  induction cs as [|c cs IH]; intros done s s' HU; cbn [perform_all]; [intros [= <-]; by rewrite app_nil_r|].
  destruct (perform _ _ _ fuel s c) as [s1|] eqn:Ep; [|done]. intros Hs. rewrite (app_assoc done [c] cs : done ++ c :: cs = _).
  eapply IH, Hs. by eapply uinv_perform.
Qed.

Lemma uinv_begin n src root : UInv (rest src) [] (begin_session n src root (length (rest src))).
Proof.
  split; cbn [begin_session ss_sched ss_stream ss_frames ss_total_hint]; try done. apply (inv_reachable ln), r_new.
Qed.

(** *** Every call returns *)

Lemma window_ends fuel : forall s : session, (length (stream_rest s) < fuel)%nat -> is_Some (refill_window produce fuel s).
Proof.
  induction fuel as [|fuel IH]; intros s Hl; [lia|]. cbn [refill_window]. destruct (ss_exhausted s) eqn:Ex; [eauto|].
  destruct (_ <? _); [|eauto]. unfold session_refill, stream_rest in *. destruct (ss_stream s) as [src|].
  2:{ destruct fuel; cbn; eauto. }
  destruct (produce src SESSION_WINDOW) as [src' [b|e]] eqn:Ep; [|eauto].
  pose proof (produce_rest _ _ _ Ep) as Er. destruct b as [|c b]; [destruct fuel; cbn; eauto|].
  apply IH. cbn [ss_stream]. rewrite Er, length_app in Hl. cbn in Hl. lia.
Qed.

Lemma calls_return all fuel cs : (length all < fuel)%nat -> forall done s, UInv all done s -> is_Some (perform_all produce ln iter_order fuel s cs).
Proof.
  intros Hf. induction cs as [|c cs IH]; intros done s HU; cbn [perform_all]; [eauto|].
  destruct (perform _ _ _ fuel s c) as [s1|] eqn:Ep; [by eapply IH, uinv_perform|]. exfalso. destruct c; try done. cbn [perform] in Ep.
  unfold next_request in Ep. pose proof (sublist_length _ _ (u_rest _ _ _ HU)) as Hr.
  destruct (window_ends fuel s ltac:(lia)) as [[s1 [u|e]] Ew]; rewrite Ew in Ep; [|done]. by destruct (next ln _ _ _).
Qed.

(** *** What the count of acknowledgements means *)

Definition done_addrs (s : Scheduler) : list bytes := map addr (List.filter (fun c => bool_decide (phase c = Done)) (chunks s)).

Lemma done_addrs_in s a : a ∈ done_addrs s <-> exists ci c, chunks s !! ci = Some c /\ addr c = a /\ phase c = Done.
Proof.
  unfold done_addrs. rewrite list_elem_of_In, in_map_iff. split.
  - intros (c & <- & [Hin Hd%bool_decide_eq_true_1]%filter_In). apply list_elem_of_In, list_elem_of_lookup in Hin as [ci Hc]. eauto.
  - intros (ci & c & Hc & <- & Hd). exists c. split; [done|]. apply filter_In. split; [by eapply list_elem_of_In, list_elem_of_lookup_2|].
    by apply bool_decide_eq_true_2.
Qed.

Lemma done_addrs_nodup s : SInv s -> NoDup (done_addrs s).
Proof.
  intros HI. assert (Hall : NoDup (map addr (chunks s))).
  { apply NoDup_alt. intros i j a Hi Hj. apply list_lookup_fmap_Some in Hi as (c & -> & Hc). apply list_lookup_fmap_Some in Hj as (c' & Ea & Hc').
    assert (H1 : index s !! addr c = Some i) by (apply (i_idx _ _ _ HI); eauto).
    assert (H2 : index s !! addr c = Some j) by (apply (i_idx _ _ _ HI); eauto). congruence. }
  unfold done_addrs. revert Hall. generalize (chunks s) as l. clear. induction l as [|c l IH]; [done|]. cbn [map List.filter].
  intros [Hn Hd]%NoDup_cons. case_bool_decide; [|by apply IH]. cbn [map]. apply NoDup_cons. split; [|by apply IH].
  intros Hin. apply Hn. rewrite list_elem_of_In, in_map_iff in *. destruct Hin as (x & Ex & [Hx _]%filter_In). eauto.
Qed.

(** C25: A browser upload is reported complete only when it is: whatever JavaScript calls on a
    session, in whatever order and with whatever values (late, duplicate and made-up
    acks, unknown batches, failures to stamp in between), every call returns, and once
    the session counts as many acknowledged chunks as [chunkCount] announces, every
    chunk the stream held was reported stored by some relay.  At all times a chunk that
    is not acknowledged still has the frame it would be sent again with. *)
Theorem browser_upload_complete fuel n src root cs : (length (rest src) < fuel)%nat ->
  exists s, perform_all produce ln iter_order fuel (begin_session n src root (length (rest src))) cs = Some s /\
    ((chunk_count s <= acked (ss_sched s))%nat -> forall a, a ∈ rest src -> acked_by cs a) /\
    (forall ci c, chunks (ss_sched s) !! ci = Some c -> phase c <> Done -> exists f, ss_frames s !! addr c = Some f /\ sc_addr f = addr c).
Proof.
  intros Hf. pose proof (uinv_begin n src root) as H0. destruct (calls_return _ fuel cs Hf _ _ H0) as [s Es].
  exists s. split; [done|]. pose proof (uinv_all _ _ _ _ _ _ H0 Es) as [H1 H2 H3 H4 H5 H6 H7]. split.
  - intros Hc. assert (Hincl : incl (rest src) (done_addrs (ss_sched s))).
    { apply NoDup_length_incl.
      - by apply NoDup_ListNoDup, done_addrs_nodup.
      - unfold chunk_count in Hc. rewrite H7, (i_done _ _ _ H1) in Hc. unfold done_addrs. rewrite length_map. unfold count in Hc. lia.
      - intros a Ha. apply list_elem_of_In, done_addrs_in in Ha as (ci & c & Hc' & <- & _). apply list_elem_of_In. eauto. }
    intros a Ha%list_elem_of_In%Hincl%list_elem_of_In%done_addrs_in. destruct Ha as (ci & c & Hc' & <- & Hd). eauto.
  - intros ci c Hc Hp. destruct (H5 ci c Hc Hp) as [f Hf']. eauto.
Qed.

(** *** Requests *)

(** A request is the POST of a batch the scheduler has just opened on that lane: its body
    is the frames of the batch's chunks, in their order and none left out, and none of
    them is acknowledged yet. *)
Theorem browser_request fuel n src root cs s s' now rq : (length (rest src) < fuel)%nat ->
  perform_all produce ln iter_order fuel (begin_session n src root (length (rest src))) cs = Some s ->
  next_request produce ln iter_order fuel s now = Some (s', Ok (Some rq)) ->
  exists cks fs, outstanding (ss_sched s') !! rq_batch rq = Some (rq_lane rq, cks) /\ cks <> [] /\ rq_body rq = encode_batch fs /\
    map sc_addr fs = map (fun ci => addr (chunks (ss_sched s') !!! ci)) cks /\
    forall ci, ci ∈ cks -> exists c, chunks (ss_sched s') !! ci = Some c /\ phase c <> Done.
Proof.
  intros Hf Hs. pose proof (uinv_all _ _ _ _ _ _ (uinv_begin n src root) Hs) as HU. unfold next_request.
  destruct (refill_window produce fuel s) as [[s1 [u|e]]|] eqn:Er; [|done|done]. apply (uinv_window _ _ _ _ _ _ HU) in Er.
  pose proof (uinv_next _ _ _ (js_ms now) Er) as Hn. pose proof (next_ok ln _ (iter_perm (ss_sched s1)) _ (js_ms now) (u_sched _ _ _ Er)) as [_ Hok].
  pose proof (next_dispatches ln (iter_order (ss_sched s1)) (ss_sched s1) (js_ms now)) as Hd.
  pose proof (back_next ln (iter_order (ss_sched s1)) (ss_sched s1) (js_ms now)) as [Hl Hb].
  destruct (next ln _ _ _) as [x [a|]]; cbn [fst snd fmap option_fmap option_map] in *; [|done]. intros [= <- <-]. cbn [rq_batch rq_lane rq_body set_sched ss_sched].
  destruct (Hok a eq_refl) as [[_ Hne _ Hph] _]. destruct (Hd a eq_refl) as (y & _ & _ & _ & _ & _ & Eid & Eb & Ex).
  assert (Hcks : forall ci, ci ∈ a_chunks a -> exists c, chunks x !! ci = Some c /\ phase c <> Done).
  { intros ci Hci. destruct (Hph ci Hci) as (c & Hc & Hp). cbn [expire_backoffs set_lanes chunks] in Hc.
    destruct (lookup_lt_is_Some_2 (chunks x) ci) as [c' Hc']; [apply lookup_lt_Some in Hc; lia|]. exists c'. split; [done|].
    intros Hdn. destruct (Hb ci c' Hc') as (c2 & Hc2 & _ & Hd2). assert (c2 = c) as -> by congruence.
    rewrite (Hd2 Hdn) in Hp. by destruct (a_hedge a); [destruct Hp|]. }
  exists (a_chunks a). eexists. split; [rewrite Ex; cbn [dispatch fst outstanding]; by rewrite Eb, <- Eid, lookup_insert_eq|].
  split; [done|]. split; [done|]. split; [|done]. unfold frames_for. cbn [set_sched ss_frames ss_sched].
  revert Hcks. generalize (a_chunks a) as l. induction l as [|ci l IH]; intros Hcks; [done|]. cbn [omap list_omap map].
  destruct (Hcks ci ltac:(by left)) as (c & Hc & Hp). destruct (u_frames _ _ _ Hn ci c Hc Hp) as [f Hf'].
  cbn [set_sched ss_frames] in Hf'. rewrite (list_lookup_total_correct _ _ _ Hc), Hf'. cbn [map].
  rewrite (u_keys _ _ _ Hn _ _ Hf'). f_equal. apply IH. intros j Hj. apply Hcks. by right.
Qed.

(** *** Lanes that enforce payment *)

(** The lane is retired and carries nothing. *)
Definition closed (i : nat) (s : Scheduler) : Prop :=
  (forall l, lanes s !! i = Some l -> health l = Retired) /\ forall b l cks, outstanding s !! b = Some (l, cks) -> l <> i.

(** A call that leaves the batches alone, and no retired lane in service. *)
Lemma closed_alter i s j f : closed i s -> (forall l, health l = Retired -> health (f l) = Retired) -> closed i (upd_lane s j f).
Proof.
  intros [H1 H2] Hf. split; [|done]. cbn [upd_lane set_lanes lanes]. intros l Hl. destruct (decide (j = i)) as [->|].
  - rewrite list_lookup_alter_eq in Hl. destruct (lanes s !! i) as [l0|] eqn:E0; [|done]. injection Hl as <-. by apply Hf, H1.
  - rewrite list_lookup_alter_ne in Hl by done. by apply H1.
Qed.
Lemma closed_same i s s' : lanes s' = lanes s -> outstanding s' = outstanding s -> closed i s -> closed i s'.
Proof. intros El Eo [H1 H2]. split; rewrite ?El, ?Eo; done. Qed.

Lemma closed_admit i chs : forall s, closed i s -> closed i (foldl admit_one s chs).
Proof.
  induction chs as [|c chs IH]; intros s Hc; [done|]. cbn [foldl]. apply IH. apply (closed_same _ s); [..|done]; unfold admit_one; by case_match.
Qed.

Lemma closed_ack i s lane a ok now : closed i s -> closed i (on_ack s lane a ok now).
Proof.
  intros Hc. unfold on_ack. destruct (index s !! a) as [ci|]; [|done]. destruct (_ || _); [done|]. destruct ok.
  - assert (Hg : forall x, closed i x -> closed i (on_group_ack x ci)) by (intros x; apply closed_same; unfold on_group_ack; by repeat case_match).
    apply Hg, closed_alter; [|done]. by apply (closed_same _ s).
  - cbv zeta. assert (Hu : closed i (upd_lane s lane (fun l => set_totals (acked_total l) (wrap 64 (failed_total l + 1)) (bytes_total l) l)))
      by (by apply closed_alter). destruct (on _); [destruct (_ <=? _)|]; by eapply closed_same, Hu.
Qed.

Lemma closed_next i s now iter : (forall l, iter l ≡ₚ l) -> SInv s -> closed i s ->
  closed i (next ln iter s now).1 /\ forall a, (next ln iter s now).2 = Some a -> a_lane a <> i.
Proof.
  intros Hit HI Hc. assert (He : closed i (expire_backoffs s now)).
  { destruct Hc as [H1 H2]. split; [|done]. cbn [expire_backoffs set_lanes lanes]. intros l Hl.
    apply list_lookup_fmap_Some in Hl as (l0 & -> & Hl). unfold expire. by rewrite (H1 _ Hl), (H1 _ Hl). }
  pose proof (next_ok ln iter Hit s now HI) as [_ Hok]. destruct (next ln iter s now).2 as [a|] eqn:Ea; [|by rewrite next_none].
  assert (Hne : a_lane a <> i).
  { intros <-. destruct (Hok a eq_refl) as [[Hl _ _ _] _]. apply free_lanes_spec in Hl as (Hlt & Hel & _).
    destruct (lookup_lt_is_Some_2 _ _ Hlt) as [l Hl]. rewrite (list_lookup_total_correct _ _ _ Hl) in Hel. unfold eligible in Hel.
    by rewrite (proj1 He l Hl) in Hel. }
  split; [|by intros a' [= <-]]. destruct (next_dispatches _ _ _ _ _ Ea) as (y & _ & Eo & El & _ & _ & _ & _ & ->).
  cbn [dispatch fst]. split; cbn [lanes outstanding].
  - intros l. rewrite El, list_lookup_alter_ne by done. apply He.
  - intros b l cks. rewrite Eo. intros [[_ [= <- _]]|[_ Hb]]%lookup_insert_Some; [done|by eapply Hc].
Qed.

Lemma closed_result i s b o now : closed i s -> closed i (on_batch_result s b o now).
Proof.
  intros [H1 H2]. split; [|intros b' l cks; rewrite batch_result_out; intros [_ ?]%lookup_delete_Some; eauto].
  unfold on_batch_result. destruct (outstanding s !! b) as [[lane cks]|] eqn:Eb; [|done]. specialize (H2 _ _ _ Eb). cbv zeta.
  rewrite resolve_all_lanes. intros l Hl. apply H1.
  destruct o; [destruct (Nat.ltb _ _)|..]; cbn [set_chunks upd_lane set_lanes lanes] in Hl; by rewrite !list_lookup_alter_ne in Hl.
Qed.

Lemma closed_window i fuel : forall s s' r, closed i (ss_sched s) -> refill_window produce fuel s = Some (s', r) -> closed i (ss_sched s').
Proof.
  induction fuel as [|fuel IH]; intros s s' r Hc; cbn [refill_window];
    (destruct (ss_exhausted s); [by intros [= <- _]|]); (destruct (_ <? _); [|by intros [= <- _]]); [done|].
  assert (Hr : closed i (ss_sched (session_refill produce s).1)).
  { unfold session_refill. destruct (ss_stream s); [|done]. destruct (produce _ _) as [? [[|c b]|]]; [done| |done]. by apply (closed_admit i (chunk_of c :: map chunk_of b)). }
  destruct (session_refill produce s) as [s1 [u|e]]; cbn [fst] in Hr; [by apply IH|by intros [= <- _]].
Qed.

Lemma closed_request all cs i fuel s now s' r : UInv all cs s -> closed i (ss_sched s) -> next_request produce ln iter_order fuel s now = Some (s', r) ->
  closed i (ss_sched s') /\ forall rq, r = Ok (Some rq) -> rq_lane rq <> i.
Proof.
  intros HU Hc. unfold next_request. destruct (refill_window produce fuel s) as [[s1 [u|e]]|] eqn:Er; [| |done].
  - pose proof (uinv_window _ _ _ _ _ _ HU Er) as HU1. apply (closed_window i) in Er; [|done].
    destruct (closed_next i _ (js_ms now) _ (iter_perm (ss_sched s1)) (u_sched _ _ _ HU1) Er) as [H1 H2].
    destruct (next ln _ _ _) as [x a]. intros [= <- <-]. split; [done|]. intros rq. destruct a as [a|]; [|done].
    cbn [fmap option_fmap option_map]. intros [= <-]. by apply H2.
  - intros [= <- <-]. split; [by eapply closed_window|done].
Qed.

Lemma closed_perform all cs i fuel s c s' : UInv all cs s -> closed i (ss_sched s) -> perform produce ln iter_order fuel s c = Some s' -> closed i (ss_sched s').
Proof.
  intros HU Hc. destruct c as [lane st|now|lane h ok now|b lane n ms ok now|b now]; cbn [perform].
  - intros [= <-]. unfold set_lane_status. destruct st as [v|e]; [|done]. cbv zeta.
    destruct (hard_status v); cbn [fst set_sched ss_sched]; repeat (apply closed_alter; [|done]); done.
  - destruct (next_request _ _ _ fuel s now) as [[s1 r]|] eqn:En; [|done]. intros [= <-]. by eapply closed_request.
  - intros [= <-]. unfold report_ack. destruct (ack_addr h) as [a|]; [|done]. cbv zeta.
    destruct (Nat.ltb _ _); by apply closed_ack.
  - intros [= <-]. apply closed_result, closed_alter; [done|]. intros l. by destruct (Nat.ltb _ _).
  - intros [= <-]. by apply closed_result.
Qed.

Lemma closed_all all i fuel cs : forall done s s', UInv all done s -> closed i (ss_sched s) ->
  perform_all produce ln iter_order fuel s cs = Some s' -> closed i (ss_sched s') /\ exists done', UInv all done' s'.
Proof.
  induction cs as [|c cs IH]; intros done s s' HU Hc; cbn [perform_all]; [intros [= <-]; eauto|].
  destruct (perform _ _ _ fuel s c) as [s1|] eqn:Ep; [|done]. apply IH with (done ++ [c]); [by eapply uinv_perform|by eapply closed_perform].
Qed.

(** A relay that announces that it enforces payment, before it was given any work, is never
    sent a request in that session, whatever JavaScript calls afterwards. *)
Theorem hard_lane_unused fuel n src root before i v s after s' now s'' rq :
  perform_all produce ln iter_order fuel (begin_session n src root (length (rest src))) before = Some s ->
  (forall b cks, outstanding (ss_sched s) !! b <> Some (i, cks)) -> (set_lane_status s i (Ok v)).2 = Ok false ->
  perform_all produce ln iter_order fuel (set_lane_status s i (Ok v)).1 after = Some s' ->
  next_request produce ln iter_order fuel s' now = Some (s'', Ok (Some rq)) -> rq_lane rq <> i.
Proof.
  intros Hs Ho Hv Ha Hn. pose proof (uinv_all _ _ _ _ _ _ (uinv_begin n src root) Hs) as HU. pose proof (uinv_status _ _ _ i (Ok v) HU) as HU1.
  assert (Hc : closed i (ss_sched (set_lane_status s i (Ok v)).1)).
  { unfold set_lane_status in *. cbv zeta in *. destruct (hard_status v); [|done]. cbn [fst set_sched ss_sched] in *. split.
    - intros l. cbn [retire_lane upd_lane set_lanes lanes]. rewrite list_lookup_alter_eq. intros Hl. by apply fmap_Some in Hl as (l0 & _ & ->).
    - intros b l cks Hb ->. by apply (Ho b cks). }
  destruct (closed_all _ _ _ _ _ _ _ HU1 Hc Ha) as (Hc' & done' & HU'). eapply closed_request in Hn as [_ Hn]; [|done..]. by apply Hn.
Qed.
End Inv.

(** The number a request carries names its batch when JavaScript hands it back: a report on
    a request resolves the batch of that request. *)
Theorem browser_batch_number {Src : Type} (s : Session Src) rq lane n ms ok now : Z.of_nat (rq_batch rq) < 2 ^ 53 ->
  report_payment_required s (request_batch rq) now = set_sched s (on_batch_result (ss_sched s) (rq_batch rq) PaymentRequired (js_ms now)) /\
  outstanding (ss_sched (report_batch s (request_batch rq) lane n ms ok now)) = delete (rq_batch rq) (outstanding (ss_sched s)).
Proof.
  intros Hb. unfold report_payment_required, report_batch, request_batch. rewrite f64_int_exact, Nat2Z.id by lia. split; [done|].
  cbv zeta. cbn [set_sched ss_sched]. by rewrite batch_result_out.
Qed.

(** ** Concrete runs *)

Module BrowserWitness.

#[local] Existing Instance plain_hex.
Definition chunk (n : Z) : StampedChunk := PushFrame.mkChunk (replicate 32 n) [] [].
Definition two : option (list StampedChunk) := Some [chunk 1; chunk 2].
Definition ln0 (x : f64) : f64 := x.
Definition keep (_ : Scheduler) (l : list (nat * list nat)) : list (nat * list nat) := l.
Definition t (n : Z) : f64 := f64_of_Z n.
Definition ack (n : Z) : Call := CAck 0 (hex_encode (replicate 32 n)) true (t 5).
Definition run (cs : list Call) : option (Session _) := perform_all take_once ln0 keep 5 (begin_session 1 two [] 2) cs.

#[local] Instance once_failing : FailingSource _ _ take_once.
Proof. by intros src src' e [=]. Qed.

Definition delivered : list Call := [CNext (t 0); ack 1; ack 7; ack 2; ack 1].
Lemma browser_upload_complete_witness : acked_by delivered (replicate 32 2).
Proof.
  destruct (browser_upload_complete take_once ln0 keep (fun _ l => Permutation_refl l) 5 1 two [] delivered) as (s & Hs & Hc & _);
    [vm_compute; lia|].
  apply Hc; [|vm_compute; right; left]. assert (E : match run delivered with Some s => Nat.leb (chunk_count s) (acked (ss_sched s)) | None => false end = true)
    by (vm_compute; reflexivity).
  unfold run in E. change (length (rest two)) with 2%nat in Hs. rewrite Hs in E. by apply Nat.leb_le.
Defined.

(** The status of a relay that enforces payment. *)
Definition hard : LaneStatus := mkStatus None (Some (JObject {[lit "enforcement" := JStr (lit "hard")]})) None None None None.

(** A lane that is retired while it carries a batch goes back into service when the batch is
    answered, although retirement is documented as permanent: the relay that announced
    that it enforces payment, and was declined, is sent the next request. *)
Theorem retired_lane_revived : exists s s' s'' rq, run [CNext (t 0)] = Some s /\ (set_lane_status s 0 (Ok hard)).2 = Ok false /\
  perform_all take_once ln0 keep 5 (set_lane_status s 0 (Ok hard)).1 [ack 1; CBatch (t 1) 0 1 (t 5) true (t 5)] = Some s' /\
  next_request take_once ln0 keep 5 s' (t 6) = Some (s'', Ok (Some rq)) /\ rq_lane rq = 0%nat.
Proof.
  eexists _, _, _, _. split; [vm_compute; reflexivity|]. split; [vm_compute; reflexivity|]. split; [vm_compute; reflexivity|].
  split; [vm_compute; reflexivity|]. reflexivity.
Qed.
End BrowserWitness.
