(* ===== verification/Server.v ===== *)
(** * The relay as a server ([src/src/pusher.rs])

    What surrounds the handlers of [Relay] and [RelayPush]: which request reaches which
    handler, the start of a metered relay, the accept loop, the warm pool, and the
    measuring endpoints ([/v1/probe], [/v1/tcpcheck]) with their arguments, their
    payload and their statistics.

    The listener, hyper and the clock are the environment: what they do is an argument or
    an event.  The JSON of the status page and of the reports, and the diagnostic
    counters they print, are left out. *)
From Stdlib Require Import ZArith Lia.
From stdpp Require Import base tactics numbers countable strings list gmap sorting.
From S2P Require Import Prelude Codec F64 Ledger Meter PushFrame Signer Challenge Metered Relay Payer Peers SessionPool PoolFill Chain Daemon.
Local Open Scope Z_scope.
Local Open Scope hov_scope.

(** ** Routing *)

Inductive Method := GET | POST | OPTIONS | OtherMethod (name : str).
#[export] Instance Method_eq_dec : EqDecision Method.
Proof. solve_decision. Defined.
Inductive Endpoint := EStatus | EMeter | EAccount | EChallenge | EPay | EProbe | ETcpcheck | EPush.
#[export] Instance Endpoint_eq_dec : EqDecision Endpoint.
Proof. solve_decision. Defined.
Definition path_of (e : Endpoint) : str :=
  match e with
  | EStatus => lit "/v1/status" | EMeter => lit "/v1/meter" | EAccount => lit "/v1/account" | EChallenge => lit "/v1/challenge"
  | EPay => lit "/v1/pay" | EProbe => lit "/v1/probe" | ETcpcheck => lit "/v1/tcpcheck" | EPush => lit "/v1/push"
  end.
Definition endpoints : list (Method * Endpoint) :=
  [(GET, EStatus); (GET, EMeter); (GET, EAccount); (GET, EChallenge); (POST, EPay); (POST, EProbe); (POST, ETcpcheck); (POST, EPush)].

(** A response with its headers. *)
Record Http (B : Type) := mkHttp { http_status : Z; http_headers : gmap str str; http_body : option B }.
Arguments mkHttp {B}.
Arguments http_status {B}.
Arguments http_headers {B}.
Arguments http_body {B}.

(** [fn add_cors], [fn cors_preflight]. *)
Definition add_cors (h : gmap str str) : gmap str str :=
  <[lit "access-control-expose-headers" := lit "*"]> (<[lit "access-control-allow-origin" := lit "*"]> h).
Definition cors_preflight {B} : Http B :=
  mkHttp 204
    (<[lit "access-control-max-age" := lit "86400"]> (<[lit "access-control-allow-headers" := lit "content-type, x-hoverfly-challenge"]>
      (<[lit "access-control-allow-methods" := lit "GET, POST, OPTIONS"]> (add_cors ∅)))) None.

(** [fn handle]; [serve] runs a handler on the state, and [refuse] is [json_line_response]. *)
Section Handle.
Context {S B : Type} (serve : Endpoint -> S -> S * Http B) (refuse : Z -> str -> Http B).
Definition handle (s : S) (m : Method) (path : str) : S * Http B :=
  if bool_decide (m = OPTIONS) then (s, cors_preflight)
  else
    let '(s, r) :=
      match List.find (fun me => bool_decide (me.1 = m) && bool_decide (path_of me.2 = path)) endpoints with
      | Some (_, e) => serve e s
      | None =>
          if existsb (fun me => bool_decide (path_of me.2 = path)) endpoints then (s, refuse 405 (lit "method not allowed"))
          else (s, refuse 404 (lit "not found"))
      end in
    (s, mkHttp (http_status r) (add_cors (http_headers r)) (http_body r)).

(** A handler runs only for its method and path, every other request leaves the state
    alone, and a browser may read every answer, whichever handler gave it. *)
Theorem handle_routes s m path : let '(s', r) := handle s m path in
  http_headers r !! lit "access-control-allow-origin" = Some (lit "*") /\
  ((exists e, (m, e) ∈ endpoints /\ path = path_of e /\ s' = (serve e s).1 /\ http_status r = http_status (serve e s).2 /\ http_body r = http_body (serve e s).2) \/
   (s' = s /\ (m = OPTIONS \/ forall e, (m, e) ∈ endpoints -> path <> path_of e))).
Proof.
  unfold handle. case_bool_decide as Hm; [split; [done|]; right; auto|].
  destruct (List.find _ endpoints) as [[m' e]|] eqn:Ef.
  - apply List.find_some in Ef as [Hin Hx]. cbn [fst snd] in Hx. apply andb_prop in Hx as [->%bool_decide_eq_true_1 <-%bool_decide_eq_true_1].
    destruct (serve e s) as [s' r] eqn:Es. split; [cbn; by rewrite lookup_insert_ne, lookup_insert_eq|]. left. exists e. rewrite Es.
    split; [by apply list_elem_of_In|done].
  - assert (Hno : forall e, (m, e) ∈ endpoints -> path <> path_of e).
    { intros e Hin ->. apply list_elem_of_In in Hin. pose proof (List.find_none _ _ Ef _ Hin) as Hn. cbn in Hn.
      by rewrite !bool_decide_eq_true_2 in Hn. }
    destruct (existsb _ _); (split; [cbn; by rewrite lookup_insert_ne, lookup_insert_eq|]; right; auto).
Qed.
End Handle.

(** ** The arguments of a request *)

(** [fn parse_query]: of a repeated key the last counts. *)
Definition parse_query (query : option str) : gmap str str :=
  foldl (fun m kv => match split_once (lit "=") kv with Some (k, v) => <[k := v]> m | None => m end) ∅ (split_all 38 (default [] query)).
(** [str::parse::<usize>] on a 64-bit machine. *)
Fixpoint parse_u64_digits (acc : Z) (s : str) : result Z IntError :=
  match s with
  | [] => Ok acc
  | c :: s => if (48 <=? c) && (c <=? 57)
              then let acc := acc * 10 + (c - 48) in if acc <=? U64_MAX then parse_u64_digits acc s else Err PosOverflow
              else Err InvalidDigit
  end.
Definition parse_usize (s : str) : result Z IntError :=
  match s with [] => Err IntEmpty | [43] => Err InvalidDigit | 43 :: s => parse_u64_digits 0 s | _ => parse_u64_digits 0 s end.
(** [fn param_usize]. *)
Definition param_usize (params : gmap str str) (key : str) (dflt : Z) : result Z str :=
  match params !! key with None => Ok dflt | Some v => map_err (fun e => key ++ lit ": " ++ int_error_text e) (parse_usize v) end.
(** A parameter that has to lie in a range. *)
Definition ranged (params : gmap str str) (key : str) (dflt lo hi : Z) : result Z str :=
  let? v := param_usize params key dflt in
  if (lo <=? v) && (v <=? hi) then Ok v
  else Err (key ++ lit " " ++ u128_to_string v ++ lit " out of range (" ++ u128_to_string lo ++ lit "..=" ++ u128_to_string hi ++ lit ")").
Definition PROBE_MAX_SIZE : Z := 128 * 1024 * 1024.
Definition PROBE_DEFAULT_SIZE : Z := 10 * 1024 * 1024.
Definition PROBE_DEFAULT_CONCURRENCY : Z := 64.
Definition PROBE_DEFAULT_MAX_RETRIES : Z := 10.

(** [fn probe_response] up to the spawned probe; [busy] is the lock, which a probe holds. *)
Record Probe := mkProbe { pb_size : Z; pb_concurrency : Z; pb_max_retries : Z }.
Definition probe_response (enabled busy : bool) (query : option str) : bool * result Probe (Z * str) :=
  if negb enabled then (busy, Err (404, lit "probe endpoint disabled (--probe)"))
  else
    let params := parse_query query in
    match (let? size := ranged params (lit "size") PROBE_DEFAULT_SIZE 1 PROBE_MAX_SIZE in
           let? concurrency := ranged params (lit "concurrency") PROBE_DEFAULT_CONCURRENCY 1 1024 in
           let? max_retries := ranged params (lit "max_retries") PROBE_DEFAULT_MAX_RETRIES 1 100 in
           Ok (mkProbe size concurrency max_retries)) with
    | Err e => (busy, Err (400, e))
    | Ok p => if busy then (busy, Err (409, lit "a probe is already running")) else (true, Ok p)
    end.

(** [fn tcpcheck_response] up to the spawned checks. *)
Record TcpCheck := mkTcpCheck { tc_targets : list str; tc_n : Z; tc_timeout_ms : Z }.
Definition tcpcheck_response (enabled : bool) (query : option str) : result TcpCheck (Z * str) :=
  if negb enabled then Err (404, lit "probe endpoint disabled (--probe)")
  else
    let params := parse_query query in
    let targets := match params !! lit "targets" with
                   | Some t => List.filter (fun s => negb (bool_decide (s = []))) (map trim (split_all 44 t)) | None => [] end in
    if Nat.eqb (length targets) 0 || Nat.ltb 16 (length targets) then Err (400, lit "need 1..=16 targets=host:port,…")
    else
      map_err (fun e => (400, e))
        (let? n := ranged params (lit "n") 20 1 100 in
         let? timeout_ms := ranged params (lit "timeout_ms") 3000 100 10000 in
         Ok (mkTcpCheck targets n timeout_ms)).

Lemma ranged_ok params key dflt lo hi v : ranged params key dflt lo hi = Ok v -> lo <= v <= hi.
Proof. unfold ranged. destruct (param_usize _ _ _) as [x|]; [|done]. cbn. destruct (_ && _) eqn:E; [|done]. intros [= <-]. lia. Qed.

(** What the measuring endpoints let a stranger start: nothing unless they are enabled, one
    probe at a time, and never more work than the documented limits. *)
Theorem probes_bounded enabled busy query :
  (forall p, (probe_response enabled busy query).2 = Ok p ->
     enabled = true /\ busy = false /\ (probe_response enabled busy query).1 = true /\
     1 <= pb_size p <= PROBE_MAX_SIZE /\ 1 <= pb_concurrency p <= 1024 /\ 1 <= pb_max_retries p <= 100) /\
  (forall e, (probe_response enabled busy query).2 = Err e -> (probe_response enabled busy query).1 = busy) /\
  (forall t, tcpcheck_response enabled query = Ok t ->
     enabled = true /\ (1 <= length (tc_targets t) <= 16)%nat /\ Forall (fun x => x <> []) (tc_targets t) /\ 1 <= tc_n t <= 100 /\ 100 <= tc_timeout_ms t <= 10000).
Proof.
  unfold probe_response, tcpcheck_response. destruct enabled; [|done]. cbn [negb]. split; [|split].
  - intros p. destruct (ranged _ (lit "size") _ _ _) as [a|] eqn:E1; [|done]. destruct (ranged _ (lit "concurrency") _ _ _) as [b|] eqn:E2; [|done].
    destruct (ranged _ (lit "max_retries") _ _ _) as [c|] eqn:E3; [|done]. cbn. destruct busy; [done|]. cbn. intros [= <-].
    apply ranged_ok in E1, E2, E3. done.
  - intros e. destruct (result_bind _ _) as [p|]; [|done]. by destruct busy.
  - intros t. cbv zeta. destruct (_ || _) eqn:Et; [done|]. set (ts := match _ !! lit "targets" with Some _ => _ | None => _ end) in *.
    destruct (ranged _ (lit "n") _ _ _) as [a|] eqn:E1; [|done]. destruct (ranged _ (lit "timeout_ms") _ _ _) as [b|] eqn:E2; [|done]. cbn.
    intros [= <-]. apply ranged_ok in E1, E2. cbn [tc_targets tc_n tc_timeout_ms].
    apply orb_false_iff in Et as [Ea%Nat.eqb_neq Eb%Nat.ltb_ge]. split; [done|]. split; [lia|]. split; [|done]. subst ts.
    destruct (_ !! lit "targets"); [|done]. apply Forall_forall. intros x [_ Hx]%list_elem_of_In%filter_In. by case_bool_decide.
Qed.

(** ** The token of [/v1/meter] *)

(** The check of [fn meter_response]: the [Authorization] header against the configured
    token. *)
Definition meter_allowed (want got : option bytes) : bool :=
  match want with
  | None => true
  | Some want => constant_time_eq (default [] (got ≫= strip_prefix (lit "Bearer "))) want
  end.

(** The comparison that does not stop early accepts exactly the configured token. *)
Theorem meter_token want got : all_bytes want -> all_bytes got -> meter_allowed (Some want) (Some (lit "Bearer " ++ got)) = bool_decide (got = want).
Proof. intros Hw Hg. unfold meter_allowed. cbn [mbind option_bind]. change (strip_prefix (lit "Bearer ") (lit "Bearer " ++ got)) with (Some got). cbn [default from_option]. by apply constant_time_eq_spec. Qed.

(** ** Starting a metered relay *)

(** [struct MeterOpts]. *)
Record MeterOpts := mkMeterOpts {
  mo_origins : list bytes; mo_beneficiary : bytes; mo_chain_id : Z; mo_params : Params; mo_hard_mode : bool }.
Inductive BootError := BootParams (e : ParamError) | NoOrigin | NoFactory (chain : Z) | NoBeneficiary | NoStateDir (e : str) | BootLedger (e : StoreError).

Section Boot.
Context `{Crypto} `{Hex} `{HeaderCodec} `{Abi} (to_vec_pretty : OnDisk -> bytes) (from_str : bytes -> result OnDisk str).

(** [fn build_metered]: [mkdir] is what [create_dir_all] gave, [d] the files of the state
    directory, [rng] the secret a new ledger would draw. *)
Definition build_metered (opts : option MeterOpts) (mkdir : result unit str) (d : Disk) (rng : bytes) (f : Fault)
    : Disk * result (option Metered) BootError :=
  match opts with
  | None => (d, Ok None)
  | Some m =>
      match validate (mo_params m) with
      | Err e => (d, Err (BootParams e))
      | Ok _ =>
          if bool_decide (mo_origins m = []) || existsb (fun o => bool_decide (trim o = [])) (mo_origins m) then (d, Err NoOrigin)
          else
            match swap_factory_for_chain (mo_chain_id m) with
            | None => (d, Err (NoFactory (mo_chain_id m)))
            | Some factory =>
                if bool_decide (mo_beneficiary m = replicate 20 0) then (d, Err NoBeneficiary)
                else
                  match mkdir with
                  | Err e => (d, Err (NoStateDir e))
                  | Ok _ =>
                      match Ledger.load_or_create to_vec_pretty from_str d rng f with
                      | (d, Err e) => (d, Err (BootLedger e))
                      | (d, Ok l) =>
                          (d, Ok (Some (metered_new (mkConfig (mo_origins m) (mo_beneficiary m) (mo_chain_id m) factory (mo_params m) (mo_hard_mode m)) l d)))
                      end
                  end
            end
      end
  end.

(** A ledger that was loaded holds no reservations and no negative debt. *)
Definition rested (l : Ledger) : Prop := persistent l = true /\ forall k, reserved l k = 0 /\ 0 <= owed l k.
Lemma load_accounts_rested es : forall m m', (forall k a, m !! k = Some a -> reserved_plur a = 0 /\ 0 <= owed_plur a) -> load_accounts es m = Ok m' ->
  forall k a, m' !! k = Some a -> reserved_plur a = 0 /\ 0 <= owed_plur a.
Proof.
  induction es as [|e es IH]; intros m m' Hm; cbn [load_accounts]; [by intros [= <-]|].
  destruct (parse_addr _) as [key|]; [|done]. cbn. destruct (load_cheques _ _) as [last|]; [|done]. cbn.
  destruct (parse_u128 _) as [o|] eqn:Eo; [|done]. cbn. apply IH. intros k a [[<- <-]|[_ Hk]]%lookup_insert_Some; [|eauto].
  cbn. split; [done|]. unfold parse_u128 in Eo. destruct (u128_parse _) as [n|] eqn:En; [|done]. injection Eo as <-. apply u128_parse_range in En. lia.
Qed.
Lemma loaded_rested d rng f d' l : Ledger.load_or_create to_vec_pretty from_str d rng f = (d', Ok l) -> rested l.
Proof.
  assert (Hfresh : rested (mkLedger ∅ ∅ rng true)) by (split; [done|]; intros k; unfold reserved, owed; cbn [accounts]; rewrite !lookup_empty; cbn; lia).
  assert (Hdisk : forall x, from_disk x = Ok l -> rested l).
  { intros x. unfold from_disk. destruct (_ && _); [done|]. destruct (map_err _ _) as [raw|]; [|done]. cbn. destruct (negb _); [done|].
    destruct (load_accounts _ _) as [accts|] eqn:Ea; [|done]. cbn. destruct (load_binding _ _) as [bi|]; [|done]. cbn. intros [= <-].
    split; [done|]. intros k. pose proof (load_accounts_rested _ ∅ _ ltac:(by intros ? ?; rewrite lookup_empty) Ea k) as Hk.
    unfold reserved, owed. cbn. destruct (accts !! k) as [a|]; cbn; [by apply Hk|lia]. }
  unfold Ledger.load_or_create. assert (Hnew : forall r, (let '(d1, r) := persist to_vec_pretty (mkLedger ∅ ∅ rng true) d r in
    (d1, match r with Ok _ => Ok (mkLedger ∅ ∅ rng true) | Err e => Err e end)) = (d', Ok l) -> rested l).
  { intros r. destruct (persist _ _ d r) as [d1 [u|e]]; intros [=]; by subst. }
  destruct f, (main_file d) as [text|]; try done; try apply Hnew; intros [= _ Hx]; (destruct (from_str text); [by eapply Hdisk|done]).
Qed.

(** A metered relay that boots is one a client can trust to hold to its terms: its
    parameters are valid, every origin is stated, the factory is a vetted one and the
    beneficiary is set; its ledger is on disk and holds no reservation.  If it enforces
    payment and the loaded debts are within the ceiling (as they are on a first boot),
    then over everything that happens afterwards, restarts included, no account owes and
    reserves more than the ceiling. *)
Theorem metered_boot o mkdir d rng f d' m : build_metered (Some o) mkdir d rng f = (d', Ok (Some m)) ->
  validate (mo_params o) = Ok tt /\ mo_origins o <> [] /\ Forall (fun x => trim x <> []) (mo_origins o) /\
  (mo_chain_id o = 100 \/ mo_chain_id o = 11155111) /\ mo_beneficiary o <> replicate 20 0 /\ params (cfg m) = mo_params o /\ rested (ledger m) /\
  (main_file d = None -> forall k, owed (ledger m) k = 0) /\
  (mo_hard_mode o = true -> 0 <= price_plur_per_kib (mo_params o) <= U64_MAX -> 0 <= max_outstanding_plur (mo_params o) < U128_MAX - 2 ^ 120 ->
   (forall k, owed (ledger m) k <= max_outstanding_plur (mo_params o)) ->
   forall s, rtc (relay_step to_vec_pretty) (mkSys m []) s ->
   forall k, owed (ledger (sys_m s)) k + reserved (ledger (sys_m s)) k <= max_outstanding_plur (mo_params o)).
Proof.
  unfold build_metered. destruct (validate (mo_params o)) as [[]|] eqn:Ev; [|done]. destruct (_ || _) eqn:Eo; [done|].
  apply orb_false_iff in Eo as [Eo1%bool_decide_eq_false_1 Eo2]. destruct (swap_factory_for_chain _) as [fac|] eqn:Ef; [|done].
  case_bool_decide as Eb; [done|]. destruct mkdir as [[]|]; [|done]. destruct (Ledger.load_or_create _ _ _ _ _) as [d1 [l|]] eqn:El; [|done].
  intros [= <- <-]. pose proof (loaded_rested _ _ _ _ _ El) as Hrest. split; [done|]. split; [done|]. split.
  { apply Forall_forall. intros x Hx Ht. assert (Hin : existsb (fun o => bool_decide (trim o = [])) (mo_origins o) = true); [|congruence].
    apply existsb_exists. exists x. split; [by apply list_elem_of_In|by apply bool_decide_eq_true_2]. }
  split; [unfold swap_factory_for_chain in Ef; destruct (Z.eqb_spec (mo_chain_id o) 100); [by left|]; destruct (Z.eqb_spec (mo_chain_id o) 11155111); [by right|done]|].
  split; [done|]. split; [done|]. split; [done|]. split.
  { intros Hd k. unfold Ledger.load_or_create in El. rewrite Hd in El.
    assert (l = mkLedger ∅ ∅ rng true) as ->; [|unfold owed; cbn; by rewrite lookup_empty].
    destruct f; cbn in El; by simplify_eq. }
  intros Hh Hp Hmx Hod s Hs k. set (P := mkConfig _ _ _ _ _ _) in Hs.
  assert (Hinit : exposure_ok P (mkSys (metered_new P l d1) [])).
  { destruct Hrest as [_ Hr]. split; cbn [sys_m inflight ledger metered_new cfg held live_sum map]; [done|by constructor|..]; intros k'; destruct (Hr k') as [Hr1 Hr2]; [done|done|].
    rewrite Hr1. specialize (Hod k'). cbn in Hod |- *. lia. }
  assert (Hok : exposure_ok P s) by (clear -Hs Hinit Hh Hp Hmx; induction Hs; [done|]; eauto using relay_step_ok).
  apply Hok.
Qed.
End Boot.

(** ** The accept loop of [fn run] *)

Definition PUSH_MAX_CONNS_DEFAULT : Z := 256.
Definition ACCEPT_BACKOFF_MAX_MS : Z := 1000.
(** The cap, from [HOVERFLY_PUSH_MAX_CONNS]. *)
Definition max_conns (env : option str) : Z :=
  match env with
  | Some s => match parse_usize s with Ok n => Z.max 8 (Z.min 4096 n) | Err _ => PUSH_MAX_CONNS_DEFAULT end
  | None => PUSH_MAX_CONNS_DEFAULT
  end.

(** The loop: the connections being served, whether it holds a permit while it waits for
    one, and the backoff. *)
Record Accepting := mkAccepting { ac_cap : Z; ac_open : Z; ac_permit : bool; ac_backoff_ms : Z }.
Inductive AcceptEv := Acquired | Accepted | AcceptFailed | Finished.
(** What happens next, with the sleep it causes; [None] when it cannot happen. *)
Definition accept_step (a : Accepting) (e : AcceptEv) : option (Accepting * option Z) :=
  let permits := ac_cap a - ac_open a - (if ac_permit a then 1 else 0) in
  match e with
  | Acquired => if negb (ac_permit a) && (0 <? permits) then Some (mkAccepting (ac_cap a) (ac_open a) true (ac_backoff_ms a), None) else None
  | Accepted => if ac_permit a then Some (mkAccepting (ac_cap a) (ac_open a + 1) false 0, None) else None
  | AcceptFailed =>
      if ac_permit a then
        let wait := Z.max (ac_backoff_ms a) 10 in
        Some (mkAccepting (ac_cap a) (ac_open a) false (Z.min (wait * 2) ACCEPT_BACKOFF_MAX_MS), Some wait)
      else None
  | Finished => if 0 <? ac_open a then Some (mkAccepting (ac_cap a) (ac_open a - 1) (ac_permit a) (ac_backoff_ms a), None) else None
  end.
Definition accept_start (env : option str) : Accepting := mkAccepting (max_conns env) 0 false 0.
Fixpoint accept_run (a : Accepting) (es : list AcceptEv) : option (Accepting * list Z) :=
  match es with
  | [] => Some (a, [])
  | e :: es => match accept_step a e with
               | None => None
               | Some (a, w) => match accept_run a es with Some (a, ws) => Some (a, match w with Some w => w :: ws | None => ws end) | None => None end
               end
  end.

Record accept_ok (a : Accepting) : Prop := {
  ao_cap : 8 <= ac_cap a <= 4096;
  ao_open : 0 <= ac_open a /\ ac_open a + (if ac_permit a then 1 else 0) <= ac_cap a;
  ao_backoff : 0 <= ac_backoff_ms a <= ACCEPT_BACKOFF_MAX_MS }.

Lemma accept_step_ok a e a' w : accept_ok a -> accept_step a e = Some (a', w) -> accept_ok a' /\ forall ms, w = Some ms -> 10 <= ms <= ACCEPT_BACKOFF_MAX_MS.
Proof.
  intros [H1 H2 H3]. unfold accept_step, ACCEPT_BACKOFF_MAX_MS in *. cbv zeta. destruct e.
  - destruct (negb (ac_permit a) && _) eqn:E; [|done]. intros [= <- <-]. destruct (ac_permit a); [done|]. cbn in E, H2. split; [split; cbn; unfold ACCEPT_BACKOFF_MAX_MS; lia|done].
  - destruct (ac_permit a); [|done]. cbn in H2. intros [= <- <-]. split; [split; cbn; unfold ACCEPT_BACKOFF_MAX_MS; lia|done].
  - destruct (ac_permit a); [|done]. cbn in H2. intros [= <- <-]. split; [split; cbn; unfold ACCEPT_BACKOFF_MAX_MS; lia|]. intros ms [= <-]. lia.
  - destruct (Z.ltb_spec 0 (ac_open a)); [|done]. intros [= <- <-]. split; [split; cbn; unfold ACCEPT_BACKOFF_MAX_MS; destruct (ac_permit a); lia|done].
Qed.

(** Whatever the configuration says and however connections come, fail and go, at most the
    cap of them (4096 at most) is served at a time; an error of the listener costs a sleep of
    ten milliseconds to a second and never the loop, which waits for nothing but the end of a
    connection: if one has ended, or none is open, it accepts again. *)
Theorem accept_loop_bounded env es a ws : accept_run (accept_start env) es = Some (a, ws) ->
  0 <= ac_open a <= max_conns env /\ 8 <= max_conns env <= 4096 /\ Forall (fun ms => 10 <= ms <= ACCEPT_BACKOFF_MAX_MS) ws /\
  (ac_open a < max_conns env -> exists a' w, (if ac_permit a then accept_step a Accepted else accept_step a Acquired) = Some (a', w)).
Proof.
  assert (Hgen : forall es a0 a ws, accept_ok a0 -> accept_run a0 es = Some (a, ws) ->
    accept_ok a /\ ac_cap a = ac_cap a0 /\ Forall (fun ms => 10 <= ms <= ACCEPT_BACKOFF_MAX_MS) ws).
  { clear. induction es as [|e es IH]; intros a0 a ws Ha; cbn [accept_run]; [intros [= <- <-]; done|].
    destruct (accept_step a0 e) as [[a1 w]|] eqn:Es; [|done]. destruct (accept_step_ok _ _ _ _ Ha Es) as [Ha1 Hw].
    destruct (accept_run a1 es) as [[a2 ws2]|] eqn:Er; [|done]. intros [= <- <-]. destruct (IH _ _ _ Ha1 Er) as (H1 & H2 & H3).
    split; [done|]. split; [|by destruct w; [constructor; auto|]]. rewrite H2. unfold accept_step in Es. cbv zeta in Es.
    destruct e; repeat case_match; simplify_eq; done. }
  assert (Hcap : 8 <= max_conns env <= 4096) by (unfold max_conns, PUSH_MAX_CONNS_DEFAULT; repeat case_match; lia).
  intros Hr. apply Hgen in Hr as ([H1 H2 H3] & Hc & Hw); [|split; cbn; unfold ACCEPT_BACKOFF_MAX_MS; lia].
  cbn in Hc. rewrite Hc in *. split; [destruct (ac_permit a); lia|]. split; [done|]. split; [done|]. intros Hlt. unfold accept_step. cbv zeta.
  destruct (ac_permit a) eqn:Ep; [eauto|]. rewrite Hc. cbn [negb andb]. rewrite (proj2 (Z.ltb_lt _ _)) by lia. eauto.
Qed.

(** ** The warm pool *)

Definition PUSH_POOL_TARGET_DEFAULT : Z := 128.
Definition PUSH_POOL_TARGET_MAX : Z := 512.
(** The target of [fn build_push_state], from [HOVERFLY_PUSH_POOL]. *)
Definition push_pool_target (env : option str) : Z :=
  match env with
  | Some s => match parse_usize s with Ok n => Z.max 1 (Z.min PUSH_POOL_TARGET_MAX n) | Err _ => PUSH_POOL_TARGET_DEFAULT end
  | None => PUSH_POOL_TARGET_DEFAULT
  end.

Section Warm.
Context `{Filler} (peers : PeerStore).
(** The members of [struct PushState] that the pool is about. *)
Record Warm := mkWarm { wm_pool : option SessionPool; wm_target : nat; wm_live : nat }.
(** [fn ensure_pool], [fn get_pool]. *)
Definition warm_ensure (w : Warm) : Warm * result SessionPool str :=
  let pool := (fill peers (default [] (wm_pool w)) (wm_target w)).1 in
  (mkWarm (Some pool) (wm_target w) (length pool),
   match pool with [] => Err (lit "could not open any sessions from the peer cache") | _ => Ok pool end).
Definition get_pool (w : Warm) : Warm * result SessionPool str :=
  match wm_pool w with Some (e :: p) => (w, Ok (e :: p)) | _ => warm_ensure w end.
(** What happens to the pool: a round of [fn push_maintenance], a push that asks for it, and
    sessions that are dropped from it. *)
Inductive WarmEv := WMaintain | WPush | WDrop (kept : SessionPool).
Definition warm_step (w : Warm) (e : WarmEv) : Warm :=
  match e with WMaintain => (warm_ensure w).1 | WPush => (get_pool w).1 | WDrop kept => mkWarm (Some kept) (wm_target w) (wm_live w) end.
(** [inflight_max] of [/v1/status]. *)
Definition inflight_hint (w : Warm) : nat := Nat.max 1 (Nat.min 8 (wm_live w / 16)).
End Warm.

Section WarmFacts.
Context `{FillerLaws} (peers : PeerStore) (Hpeers : store_ok peers).

Definition drops_from (w : Warm) (e : WarmEv) : Prop :=
  match e with WDrop kept => kept `sublist_of` default [] (wm_pool w) | _ => True end.
Inductive warm_run : Warm -> Warm -> Prop :=
| wr_refl w : warm_run w w
| wr_step w e w' : drops_from w e -> warm_run (warm_step peers w e) w' -> warm_run w w'.

Definition warm_ok (w : Warm) : Prop :=
  NoDup (map low (default [] (wm_pool w))) /\ (length (default [] (wm_pool w)) <= wm_target w)%nat /\ (wm_live w <= wm_target w)%nat.

Lemma warm_ensure_ok w : warm_ok w -> warm_ok (warm_ensure peers w).1 /\ wm_target (warm_ensure peers w).1 = wm_target w.
Proof.
  intros (H1 & H2 & H3). unfold warm_ensure, warm_ok. cbn [fst wm_pool wm_target wm_live default from_option].
  destruct (fill_grows peers (default [] (wm_pool w)) (wm_target w) Hpeers H1) as (_ & Hn & Hl). cbn in *. split; [|done]. split; [done|]. lia.
Qed.
Lemma warm_step_ok w e : drops_from w e -> warm_ok w -> warm_ok (warm_step peers w e) /\ wm_target (warm_step peers w e) = wm_target w.
Proof.
  intros Hd Hw. destruct e as [| |kept]; cbn [warm_step].
  - by apply warm_ensure_ok.
  - unfold get_pool. destruct (wm_pool w) as [[|x p]|]; [by apply warm_ensure_ok|done|by apply warm_ensure_ok].
  - destruct Hw as (H1 & H2 & H3). cbn in Hd. split; [|done]. split; [|split; [|done]]; cbn [wm_pool default from_option wm_target].
    + apply (sublist_NoDup _ _ H1). by apply (fmap_sublist low).
    + apply sublist_length in Hd. by etrans.
Qed.

(** Over any sequence of maintenance rounds, pushes and losses the warm pool is a set of at
    most the configured number of sessions (512 at most), and what the status page says of
    it stays within that: the number of sessions, and a hint of one to eight requests. *)
Theorem warm_pool_bounded env w : warm_run (mkWarm None (Z.to_nat (push_pool_target env)) 0) w ->
  NoDup (map low (default [] (wm_pool w))) /\ Z.of_nat (length (default [] (wm_pool w))) <= push_pool_target env <= 512 /\
  Z.of_nat (wm_live w) <= push_pool_target env /\ (1 <= inflight_hint w <= 8)%nat.
Proof.
  assert (Ht : 1 <= push_pool_target env <= 512) by (unfold push_pool_target, PUSH_POOL_TARGET_DEFAULT, PUSH_POOL_TARGET_MAX; repeat case_match; lia).
  assert (Hgen : forall w0 w, warm_run w0 w -> warm_ok w0 -> warm_ok w /\ wm_target w = wm_target w0).
  { clear w. induction 1 as [w|w e w' Hd _ IH]; intros Hw; [done|]. destruct (warm_step_ok w e Hd Hw) as [H1 <-]. by apply IH. }
  intros Hr. apply Hgen in Hr as ((H1 & H2 & H3) & E); [|split; [by constructor|cbn; lia]]. cbn in E. rewrite E in *.
  split; [done|]. split; [lia|]. split; [lia|]. unfold inflight_hint. lia.
Qed.
End WarmFacts.

(** ** The payload of a probe *)

(** The seed of [fn random_data]: [clock] is the time in nanoseconds, as far as it is known. *)
Definition probe_seed (clock : option Z) (seq : Z) : Z :=
  Z.lxor (match clock with Some n => wrap 64 n | None => 2611923443488327891 end)
    (wrap 64 (wrap 64 (seq + 1) * 11400714819323198485)).
Definition xorshift (x : Z) : Z :=
  let x := Z.lxor x (wrap 64 (Z.shiftl x 13)) in
  let x := Z.lxor x (Z.shiftr x 7) in
  Z.lxor x (wrap 64 (Z.shiftl x 17)).
Fixpoint random_words (n : nat) (x : Z) : bytes :=
  match n with O => [] | S n => let x := xorshift x in to_le_bytes 8 x ++ random_words n x end.
Definition random_data (size : nat) (clock : option Z) (seq : Z) : bytes :=
  take size (random_words ((size + 7) / 8) (probe_seed clock seq)).

Lemma bits_ext64 x y : 0 <= x < 2 ^ 64 -> 0 <= y < 2 ^ 64 -> (forall i, 0 <= i < 64 -> Z.testbit x i = Z.testbit y i) -> x = y.
Proof.
  intros Hx Hy Hi. apply Z.bits_inj'. intros i H0. destruct (Z.lt_ge_cases i 64) as [Hlt|Hge]; [by apply Hi|].
  rewrite <- (Z.mod_small x (2 ^ 64)), <- (Z.mod_small y (2 ^ 64)) by done. by rewrite !Z.mod_pow2_bits_high by lia.
Qed.
Lemma lxor_range64 x y : 0 <= x < 2 ^ 64 -> 0 <= y < 2 ^ 64 -> 0 <= Z.lxor x y < 2 ^ 64.
Proof.
  intros Hx Hy. assert (E : Z.lxor x y = Z.lxor x y mod 2 ^ 64); [|rewrite E; apply Z.mod_pos_bound; lia].
  apply Z.bits_inj'. intros i H0. destruct (Z.lt_ge_cases i 64) as [Hlt|Hge].
  - by rewrite Z.mod_pow2_bits_low by done.
  - rewrite Z.mod_pow2_bits_high by lia. rewrite Z.lxor_spec.
    rewrite <- (Z.mod_small x (2 ^ 64)), <- (Z.mod_small y (2 ^ 64)) by done. by rewrite !Z.mod_pow2_bits_high by lia.
Qed.
Lemma wrap_range64 x : 0 <= wrap 64 x < 2 ^ 64.
Proof. apply Z.mod_pos_bound. lia. Qed.

(** Mixing a word with its own shift can be undone. *)
Lemma shl_xor_inj k x y : 0 < k -> 0 <= x < 2 ^ 64 -> 0 <= y < 2 ^ 64 ->
  Z.lxor x (wrap 64 (Z.shiftl x k)) = Z.lxor y (wrap 64 (Z.shiftl y k)) -> x = y.
Proof.
  intros Hk Hx Hy E. apply bits_ext64; [done|done|]. intros i [H0 Hi]. revert i H0 Hi. apply (Z_lt_induction (fun i => i < 64 -> Z.testbit x i = Z.testbit y i)).
  intros i IH Hi. destruct (Z.lt_ge_cases i 0) as [Hn|H0]; [by rewrite !Z.testbit_neg_r|].
  assert (Eb : Z.testbit (Z.lxor x (wrap 64 (Z.shiftl x k))) i = Z.testbit (Z.lxor y (wrap 64 (Z.shiftl y k))) i) by (by rewrite E).
  rewrite !Z.lxor_spec in Eb. unfold wrap in Eb. rewrite !Z.mod_pow2_bits_low, !Z.shiftl_spec in Eb by lia.
  destruct (Z.lt_ge_cases (i - k) 0) as [Hs|Hs].
  - rewrite !(Z.testbit_neg_r _ (i - k)) in Eb by done. by rewrite !xorb_false_r in Eb.
  - rewrite (IH (i - k)) in Eb by lia. by destruct (Z.testbit x i), (Z.testbit y i), (Z.testbit y (i - k)).
Qed.
Lemma shr_xor_inj k x y : 0 < k -> 0 <= x < 2 ^ 64 -> 0 <= y < 2 ^ 64 ->
  Z.lxor x (Z.shiftr x k) = Z.lxor y (Z.shiftr y k) -> x = y.
Proof.
  intros Hk Hx Hy E. apply bits_ext64; [done|done|].
  assert (Hd : forall j, 0 <= j -> forall i, i = 63 - j -> 0 <= i -> Z.testbit x i = Z.testbit y i).
  { intros j0 Hj0. pattern j0. apply Z_lt_induction; [|exact Hj0]. clear j0 Hj0. intros j IH i -> H0.
    assert (Eb : Z.testbit (Z.lxor x (Z.shiftr x k)) (63 - j) = Z.testbit (Z.lxor y (Z.shiftr y k)) (63 - j)) by (by rewrite E).
    rewrite !Z.lxor_spec, !Z.shiftr_spec in Eb by lia.
    assert (Eh : Z.testbit x (63 - j + k) = Z.testbit y (63 - j + k)).
    { destruct (Z.lt_ge_cases (63 - j + k) 64) as [Hlt|Hge]; [apply (IH (j - k)); lia|].
      rewrite <- (Z.mod_small x (2 ^ 64)), <- (Z.mod_small y (2 ^ 64)) by done. by rewrite !Z.mod_pow2_bits_high by lia. }
    rewrite Eh in Eb. by destruct (Z.testbit x (63 - j)), (Z.testbit y (63 - j)), (Z.testbit y (63 - j + k)). }
  intros i Hi. apply (Hd (63 - i)); lia.
Qed.
Lemma shr_range64 k x : 0 <= k -> 0 <= x < 2 ^ 64 -> 0 <= Z.shiftr x k < 2 ^ 64.
Proof. intros Hk Hx. rewrite Z.shiftr_div_pow2 by done. split; [apply Z.div_pos; lia|]. apply Z.div_lt_upper_bound; nia. Qed.

Lemma xorshift_range x : 0 <= x < 2 ^ 64 -> 0 <= xorshift x < 2 ^ 64.
Proof.
  intros Hx. unfold xorshift. cbv zeta. apply lxor_range64; [|apply wrap_range64].
  apply lxor_range64; [|apply shr_range64; [lia|]]; (apply lxor_range64; [done|apply wrap_range64]).
Qed.
Lemma xorshift_inj x y : 0 <= x < 2 ^ 64 -> 0 <= y < 2 ^ 64 -> xorshift x = xorshift y -> x = y.
Proof.
  intros Hx Hy. unfold xorshift. cbv zeta.
  assert (R1 : forall z, 0 <= z < 2 ^ 64 -> 0 <= Z.lxor z (wrap 64 (Z.shiftl z 13)) < 2 ^ 64) by (intros; apply lxor_range64; [done|apply wrap_range64]).
  assert (R2 : forall z, 0 <= z < 2 ^ 64 -> 0 <= Z.lxor z (Z.shiftr z 7) < 2 ^ 64) by (intros; apply lxor_range64; [done|by apply shr_range64]).
  intros E%shl_xor_inj; [|lia|auto..]. apply shr_xor_inj in E; [|lia|auto..]. by apply shl_xor_inj in E.
Qed.

Lemma probe_seed_range clock seq : 0 <= probe_seed clock seq < 2 ^ 64.
Proof. apply lxor_range64; [destruct clock; [apply wrap_range64|lia]|apply wrap_range64]. Qed.
(** The factor is odd, so it has an inverse. *)
Lemma probe_seed_inj clock a b : 0 <= a < 2 ^ 64 -> 0 <= b < 2 ^ 64 -> probe_seed clock a = probe_seed clock b -> a = b.
Proof.
  intros Ha Hb. unfold probe_seed. generalize (match clock with Some n => wrap 64 n | None => 2611923443488327891 end) as c. intros c E.
  assert (E' : wrap 64 (wrap 64 (a + 1) * 11400714819323198485) = wrap 64 (wrap 64 (b + 1) * 11400714819323198485)).
  { apply (f_equal (Z.lxor c)) in E. by rewrite <- !Z.lxor_assoc, Z.lxor_nilpotent, !Z.lxor_0_l in E. }
  unfold wrap in E'. rewrite !Z.mul_mod_idemp_l in E' by lia.
  assert (Einv : forall z, (z * 11400714819323198485 mod 2 ^ 64) * 17428512612931826493 mod 2 ^ 64 = z mod 2 ^ 64).
  { intros z. rewrite Z.mul_mod_idemp_l by lia. rewrite <- Z.mul_assoc, <- (Z.mul_mod_idemp_r z) by lia.
    change (11400714819323198485 * 17428512612931826493 mod 2 ^ 64) with 1. by rewrite Z.mul_1_r. }
  assert (Es : (a + 1) mod 2 ^ 64 = (b + 1) mod 2 ^ 64) by (by rewrite <- (Einv (a + 1)), E', Einv).
  assert (Et : (a + 1 - 1) mod 2 ^ 64 = (b + 1 - 1) mod 2 ^ 64) by (by rewrite (Zminus_mod (a + 1)), Es, <- Zminus_mod).
  rewrite !Z.add_simpl_r, !Z.mod_small in Et by done. done.
Qed.

Lemma random_words_length n : forall x, length (random_words n x) = (8 * n)%nat.
Proof. induction n as [|n IH]; intros x; [done|]. cbn [random_words]. rewrite length_app, to_le_bytes_length, IH. lia. Qed.

(** A probe measures with a payload of the size asked for; two probes of one instant with
    different sequence numbers never push the same payload, so the chunks of one are not
    taken for those of the other. *)
Theorem probe_payloads_differ size clock a b : (8 <= size)%nat -> 0 <= a < 2 ^ 64 -> 0 <= b < 2 ^ 64 -> a <> b ->
  length (random_data size clock a) = size /\ random_data size clock a <> random_data size clock b.
Proof.
  intros Hs Ha Hb Hne. assert (Hn : exists n, ((size + 7) / 8)%nat = S n /\ (size <= 8 * S n)%nat).
  { pose proof (Nat.div_mod_eq (size + 7) 8). pose proof (Nat.mod_upper_bound (size + 7) 8 ltac:(lia)).
    destruct ((size + 7) / 8)%nat as [|n]; [lia|]. exists n. lia. }
  destruct Hn as (n & En & Hsz). unfold random_data. rewrite En. split; [rewrite length_take, random_words_length; lia|].
  intros E. apply Hne, (probe_seed_inj clock); [done|done|]. apply xorshift_inj; [apply probe_seed_range..|].
  cbn [random_words] in E. apply (f_equal (take 8)) in E. rewrite !take_take, Nat.min_l in E by done.
  rewrite !take_app_le, !take_ge in E by (rewrite to_le_bytes_length; lia).
  rewrite <- (from_to_le_bytes 8 (xorshift (probe_seed clock a))), E, from_to_le_bytes; [done|..]; apply xorshift_range, probe_seed_range.
Qed.

(** ** The statistics of [/v1/tcpcheck]: [fn tcpcheck_target] *)

Inductive ConnError := ConnRefused | ConnReset | ConnTimedOut | HostUnreachable | NetworkUnreachable | ConnOther.
Inductive Attempt := Connected (ms : Z) | ConnFailed (kind : ConnError) (text : str) | Elapsed.
Definition error_class (k : ConnError) : str :=
  match k with
  | ConnRefused => lit "refused" | ConnReset => lit "reset" | ConnTimedOut => lit "timeout"
  | HostUnreachable | NetworkUnreachable => lit "unreachable" | ConnOther => lit "other"
  end.
Record TcpReport := mkTcpReport { tr_n : nat; tr_ok : nat; tr_min : option Z; tr_median : option Z; tr_max : option Z; tr_errors : gmap str nat; tr_sample : option str }.
Record TcpAcc := mkTcpAcc { ta_ok : nat; ta_ms : list Z; ta_errors : gmap str nat; ta_sample : option str }.
Definition bump_class (c : str) (m : gmap str nat) : gmap str nat := <[c := S (default 0%nat (m !! c))]> m.
Definition take_attempt (a : TcpAcc) (x : Attempt) : TcpAcc :=
  match x with
  | Connected ms => mkTcpAcc (S (ta_ok a)) (ta_ms a ++ [ms]) (ta_errors a) (ta_sample a)
  | ConnFailed k t => mkTcpAcc (ta_ok a) (ta_ms a) (bump_class (error_class k) (ta_errors a)) (match ta_sample a with None => Some t | s => s end)
  | Elapsed => mkTcpAcc (ta_ok a) (ta_ms a) (bump_class (lit "timeout") (ta_errors a)) (ta_sample a)
  end.
Definition tcpcheck_target (xs : list Attempt) : TcpReport :=
  let a := foldl take_attempt (mkTcpAcc 0 [] ∅ None) xs in
  let ms := merge_sort Z.le (ta_ms a) in
  mkTcpReport (length xs) (ta_ok a) (head ms) (ms !! (length ms / 2)%nat) (last ms) (ta_errors a) (ta_sample a).

Definition errors_sum (m : gmap str nat) : nat := map_fold (fun _ n acc => n + acc)%nat 0%nat m.
Lemma errors_bump c m : errors_sum (bump_class c m) = S (errors_sum m).
Proof.
  assert (Hins : forall k m, m !! c = None -> errors_sum (<[c := k]> m) = (k + errors_sum m)%nat).
  { intros k m' Hm. unfold errors_sum. rewrite map_fold_insert_L; [done|intros; lia|done]. }
  unfold bump_class. destruct (m !! c) as [n|] eqn:E; cbn [default from_option]; [|by rewrite Hins].
  rewrite <- (insert_delete_id m c n E) at 2. rewrite <- (insert_delete_eq m c (S n)). by rewrite !Hins by apply lookup_delete_eq.
Qed.

Lemma sorted_le ms i j x y : StronglySorted Z.le ms -> (i <= j)%nat -> ms !! i = Some x -> ms !! j = Some y -> x <= y.
Proof.
  intros Hs. revert i j. induction Hs as [|z ms Hs IH Hz]; intros i j Hij Hi Hj; [done|]. destruct i as [|i], j as [|j]; [by simplify_eq| |lia|].
  - injection Hi as ->. by apply (Forall_lookup_1 _ _ _ _ Hz Hj).
  - apply (IH i j); [lia|done|done].
Qed.

(** Every attempt is counted once, as a connection or under one class of error; the times
    reported are of attempts that connected, and in order. *)
Theorem tcpcheck_counts xs : let r := tcpcheck_target xs in
  (tr_ok r + errors_sum (tr_errors r) = tr_n r)%nat /\
  ((0 < tr_ok r)%nat -> exists lo mid hi, tr_min r = Some lo /\ tr_median r = Some mid /\ tr_max r = Some hi /\ lo <= mid <= hi /\
     Connected lo ∈ xs /\ Connected mid ∈ xs /\ Connected hi ∈ xs /\ forall t, Connected t ∈ xs -> lo <= t <= hi).
Proof.
  cbv zeta. set (a := foldl take_attempt (mkTcpAcc 0 [] ∅ None) xs).
  assert (Ha : (ta_ok a + errors_sum (ta_errors a) = length xs)%nat /\ length (ta_ms a) = ta_ok a /\ forall t, t ∈ ta_ms a <-> Connected t ∈ xs).
  { subst a. induction xs as [|x xs IH] using rev_ind; [split; [done|]; split; [done|]; intros t; split; by intros ?%not_elem_of_nil|].
    rewrite foldl_app, length_app. cbn [foldl length]. destruct IH as (I1 & I2 & I3). split; [|split].
    - destruct x; cbn [take_attempt ta_ok ta_errors]; rewrite ?errors_bump; lia.
    - destruct x; cbn [take_attempt ta_ok ta_ms]; rewrite ?length_app; cbn; lia.
    - intros t. rewrite elem_of_app, list_elem_of_singleton, <- I3. destruct x as [ms|k e|]; cbn [take_attempt ta_ms]; [|split; [by left|intros [?|[=]]; done]..].
      rewrite elem_of_app, list_elem_of_singleton. split; [intros [?| ->]; auto|intros [?|[= ->]]; auto]. }
  destruct Ha as (H1 & H2 & H3). unfold tcpcheck_target. fold a. cbn [tr_ok tr_n tr_errors tr_min tr_median tr_max]. split; [done|]. intros Hp.
  pose proof (merge_sort_Permutation Z.le (ta_ms a)) as Hperm. pose proof (Sorted_merge_sort Z.le (ta_ms a)) as Hsort.
  assert (Hlen : length (merge_sort Z.le (ta_ms a)) = ta_ok a) by (by rewrite Hperm).
  set (ms := merge_sort Z.le (ta_ms a)) in *.
  assert (Hin : forall i t, ms !! i = Some t -> Connected t ∈ xs) by (intros i t Ht; apply H3; rewrite <- Hperm; by eapply list_elem_of_lookup_2).
  assert (Hmono : forall i j x y, (i <= j)%nat -> ms !! i = Some x -> ms !! j = Some y -> x <= y)
    by (intros i j x y; refine (sorted_le ms i j x y _); apply Sorted_StronglySorted, Hsort; tc_solve).
  destruct (lookup_lt_is_Some_2 ms 0) as [lo Hlo]; [lia|]. destruct (lookup_lt_is_Some_2 ms (length ms / 2)) as [mid Hmid]; [apply Nat.div_lt; lia|].
  destruct (lookup_lt_is_Some_2 ms (pred (length ms))) as [hi Hhi]; [lia|].
  exists lo, mid, hi. rewrite last_lookup, head_lookup. pose proof (Nat.div_lt (length ms) 2 ltac:(lia) ltac:(lia)).
  split; [done|]. split; [done|]. split; [done|]. split; [split; [apply (Hmono 0 (length ms / 2) lo mid)%nat|apply (Hmono (length ms / 2) (pred (length ms)) mid hi)%nat]; (done || lia)|].
  split; [by eapply Hin|]. split; [by eapply Hin|]. split; [by eapply Hin|].
  intros t Ht%H3. rewrite <- Hperm in Ht. apply list_elem_of_lookup in Ht as [i Hi]. pose proof (lookup_lt_Some _ _ _ Hi).
  split; [apply (Hmono 0%nat i)|apply (Hmono i (pred (length ms)))]; (done || lia).
Qed.

(** ** The report of a probe: the dials it made, by host *)

(** [fn multiaddr_host]: the value after the first protocol that names a host. *)
Definition names_host (proto : str) : bool :=
  bool_decide (proto = lit "ip4") || bool_decide (proto = lit "ip6") || bool_decide (proto = lit "dns") || bool_decide (proto = lit "dns4") ||
  bool_decide (proto = lit "dns6").
Fixpoint host_in (parts : list str) : option str :=
  match parts with
  | proto :: value :: parts => if names_host proto then Some value else host_in parts
  | _ => None
  end.
Definition multiaddr_host (underlay : str) : option str := host_in (List.filter (fun s => negb (bool_decide (s = []))) (split_all 47 underlay)).

(** The tally of [fn run_probe] over the reachability log. *)
Record Dials := mkDials { dl_ok : nat; dl_failed : nat; dl_hosts : gmap str nat }.
Definition by_overlay (peers : list Peer) : gmap str Peer := foldl (fun m p => <[to_ascii_lowercase (overlay p) := p]> m) ∅ peers.
Definition failed_host (known : gmap str Peer) (ov : str) : str :=
  default (lit "unknown") (known !! ov ≫= fun p => head (underlays p) ≫= multiaddr_host).
Definition tally_dial (known : gmap str Peer) (d : Dials) (e : str * DialResult * Z) : Dials :=
  match e with
  | (_, Success _ _, _) => mkDials (S (dl_ok d)) (dl_failed d) (dl_hosts d)
  | (ov, Failure, _) => mkDials (dl_ok d) (S (dl_failed d)) (bump_class (failed_host known ov) (dl_hosts d))
  end.
Definition tally_dials (peers : list Peer) (log : list (str * DialResult * Z)) : Dials :=
  foldl (tally_dial (by_overlay peers)) (mkDials 0 0 ∅) log.

(** Every dial is reported once, and every failed one under exactly one host. *)
Theorem dials_add_up peers log : let d := tally_dials peers log in
  (dl_ok d + dl_failed d = length log)%nat /\ errors_sum (dl_hosts d) = dl_failed d.
Proof.
  cbv zeta. unfold tally_dials. generalize (by_overlay peers) as known. intros known. induction log as [|[[ov r] t] log IH] using rev_ind; [done|].
  rewrite foldl_app, length_app. cbn [foldl length]. destruct r; cbn [tally_dial dl_ok dl_failed dl_hosts]; rewrite ?errors_bump; lia.
Qed.

(** ** The batch of a probe: [fn resolve_batch] *)

Inductive ProbeBatchError := BadDepth (e : IntError) | Unreadable (e : str) | BatchNotFound | OwnerMismatch (owner : bytes).
(** [str::parse::<u8>]. *)
Fixpoint parse_u8_digits (acc : Z) (s : str) : result Z IntError :=
  match s with
  | [] => Ok acc
  | c :: s => if (48 <=? c) && (c <=? 57)
              then let acc := acc * 10 + (c - 48) in if acc <=? U8_MAX then parse_u8_digits acc s else Err PosOverflow
              else Err InvalidDigit
  end.
Definition parse_u8 (s : str) : result Z IntError :=
  match s with [] => Err IntEmpty | [43] => Err InvalidDigit | 43 :: s => parse_u8_digits 0 s | _ => parse_u8_digits 0 s end.

Section ProbeBatch.
Context (env_depth env_immutable : option str) (signer : bytes).
(** [answer] is what the chain says of the batch, if it is asked. *)
Definition resolve_batch (cache : gmap str (Z * bool)) (batch : str) (answer : result BatchOnChain str)
    : gmap str (Z * bool) * result (Z * bool) ProbeBatchError :=
  match env_depth with
  | Some d => (cache, let? depth := map_err BadDepth (parse_u8 (trim d)) in Ok (depth, bool_decide (env_immutable = Some (lit "1"))))
  | None =>
      match cache !! batch with
      | Some hit => (cache, Ok hit)
      | None =>
          match answer with
          | Err e => (cache, Err (Unreadable e))
          | Ok info =>
              if oc_not_found info then (cache, Err BatchNotFound)
              else if negb (bool_decide (signer = oc_owner info)) then (cache, Err (OwnerMismatch (oc_owner info)))
              else (<[batch := (oc_depth info, oc_immutable info)]> cache, Ok (oc_depth info, oc_immutable info))
          end
      end
  end.
Fixpoint resolve_all (cache : gmap str (Z * bool)) (reqs : list (str * result BatchOnChain str)) : gmap str (Z * bool) :=
  match reqs with [] => cache | (b, a) :: reqs => resolve_all (resolve_batch cache b a).1 reqs end.

(** Unless the operator fixed the depth, a probe stamps only under a batch that the chain
    said exists and belongs to the key of the probe, with the depth and the mutability the
    chain gave; over any number of probes, and whatever the chain answered in between. *)
Theorem probe_batch_owned reqs b a v : env_depth = None -> (resolve_batch (resolve_all ∅ reqs) b a).2 = Ok v ->
  exists info, (b, Ok info) ∈ reqs ++ [(b, a)] /\ oc_not_found info = false /\ oc_owner info = signer /\ v = (oc_depth info, oc_immutable info).
Proof.
  intros Henv.
  assert (Hone : forall cache b a v, (resolve_batch cache b a).2 = Ok v -> cache !! b = Some v \/ exists info, a = Ok info /\
    oc_not_found info = false /\ oc_owner info = signer /\ v = (oc_depth info, oc_immutable info)).
  { clear -Henv. intros cache b a v. unfold resolve_batch. rewrite Henv. destruct (cache !! b) as [hit|]; [intros [= ->]; by left|].
    destruct a as [info|]; [|done]. destruct (oc_not_found info) eqn:En; [done|]. case_bool_decide as Ew; [|done]. intros [= <-]. right. eauto. }
  assert (Hgrow : forall cache b a k v, (resolve_batch cache b a).1 !! k = Some v -> cache !! k = Some v \/ (k = b /\ (resolve_batch cache b a).2 = Ok v)).
  { clear -Henv. intros cache b a k v. unfold resolve_batch. rewrite Henv. destruct (cache !! b); [by left|]. destruct a as [info|]; [|by left].
    destruct (oc_not_found info); [by left|]. destruct (negb _); [by left|]. cbn [fst snd]. intros [[<- <-]|[_ Hk]]%lookup_insert_Some; [by right|by left]. }
  assert (Hall : forall reqs cache k v, resolve_all cache reqs !! k = Some v -> cache !! k = Some v \/ exists info, (k, Ok info) ∈ reqs /\
    oc_not_found info = false /\ oc_owner info = signer /\ v = (oc_depth info, oc_immutable info)).
  { clear reqs a b v. induction reqs as [|[b a] reqs IH]; intros cache k v; [by left|]. cbn [resolve_all]. intros Hk.
    destruct (IH _ _ _ Hk) as [Hc|(info & Hin & Hi)]; [|right; exists info; split; [by right|done]].
    destruct (Hgrow _ _ _ _ _ Hc) as [|[-> Hr]]; [by left|]. destruct (Hone _ _ _ _ Hr) as [|(info & -> & Hi)]; [by left|].
    right. exists info. split; [by left|done]. }
  intros Hr. destruct (Hone _ _ _ _ Hr) as [Hc|(info & -> & Hi)].
  - destruct (Hall _ _ _ _ Hc) as [Hx|(info & Hin & Hi)]; [by rewrite lookup_empty in Hx|]. exists info. split; [apply elem_of_app; by left|done].
  - exists info. split; [apply elem_of_app; right; by left|done].
Qed.
End ProbeBatch.

(** ** Concrete runs *)

Module ServerWitness.

Definition opts : MeterOpts := mkMeterOpts [lit "relay.example"] (replicate 20 9) 100 default_params true.
(** A first boot that succeeds, and then owes nothing. *)
Example boots_metered : exists d' m, @build_metered plain_hex ChainWitness.toy_abi plain_json plain_parse (Some opts) (Ok tt) (mkFiles None None) (replicate 32 5) NoFault =
    (d', Ok (Some m)) /\ owed (ledger m) (replicate 20 7) = 0.
Proof.
  destruct (@build_metered plain_hex ChainWitness.toy_abi plain_json plain_parse (Some opts) (Ok tt) (mkFiles None None) (replicate 32 5) NoFault)
    as [d' [[m|]|e]] eqn:E; [|exfalso; revert E; by vm_compute..].
  exists d', m. split; [done|]. by apply (@metered_boot toy_crypto plain_hex plain_header ChainWitness.toy_abi _ _ _ _ _ _ _ _ _ E).
Qed.
Example one_probe : (probe_response true false (Some (lit "size=4096&concurrency=8"))) = (true, Ok (mkProbe 4096 8 10)).
Proof. reflexivity. Qed.
Example dials_by_host :
  multiaddr_host (lit "/ip4/10.0.0.1/tcp/1634/p2p/16Uiu2") = Some (lit "10.0.0.1") /\ multiaddr_host (lit "/tcp/1634/dns4/bee.example/ws") = Some (lit "bee.example").
Proof. split; reflexivity. Qed.
End ServerWitness.
