(* ===== verification/EncoderSim.v ===== *)
(** * The splitter builds the reference tree

    The streaming encoder is simulated by pending lists of subtrees, one per trie
    level: writing a chunk adds a leaf to the first level and a full level becomes a
    node of the next; finishing folds the levels bottom-up.  Every step of the
    encoder keeps the references, the shards and the emitted chunks in agreement with
    those lists. *)
From Stdlib Require Import ZArith Lia.
From stdpp Require Import base tactics numbers countable strings list gmap.
From S2P Require Import Prelude Galois ReedSolomon Erasure Joiner JoinerProps ChunkTree Replicas Encoder.
Local Open Scope Z_scope.
Local Open Scope hov_scope.

(** ** Pending subtrees *)

(** Add a subtree to the first level; a level that reaches [ms] subtrees is wrapped. *)
Fixpoint add_tree (ms : nat) (pend : list (list tree)) (t : tree) : list (list tree) :=
  match pend with
  | [] => []
  | p :: rest => if Nat.eqb (S (length p)) ms then [] :: add_tree ms rest (Node (p ++ [t])) else (p ++ [t]) :: rest
  end.

(** Append without wrapping: what a carried reference does when nothing is encoded. *)
Definition push_raw (pend : list (list tree)) (t : tree) : list (list tree) :=
  match pend with [] => [] | p :: rest => (p ++ [t]) :: rest end.

(** One level of finishing: nothing, a carried subtree, or a node over a partial level. *)
Definition fin_step (l : Level) (p : list tree) (rest : list (list tree)) : list (list tree) :=
  match p with
  | [] => rest
  | [t] => if bool_decide (l = LNone) then push_raw rest t else add_tree (max_shards l) rest t
  | _ => add_tree (max_shards l) rest (Node p)
  end.
Fixpoint fin (l : Level) (n : nat) (pend : list (list tree)) : list (list tree) :=
  match n, pend with S n', p :: rest => fin l n' (fin_step l p rest) | _, _ => pend end.

(** The reference: fold the levels with the last subtree as carry. *)
Fixpoint close (c : tree) (pend : list (list tree)) : tree :=
  match pend with [] => c | p :: rest => close (match p with [] => c | _ => Node (p ++ [c]) end) rest end.

Lemma add_tree_length ms pend t : length (add_tree ms pend t) = length pend.
Proof. revert t. induction pend as [|p rest IH]; intros t; [done|]. cbn. case_match; cbn; [by rewrite IH|done]. Qed.

(** Finishing after the last subtree is closing with it as carry. *)
Lemma fin_close l n pend t : Forall (fun p => length p < max_shards l)%nat pend -> length pend = n ->
  fin l n (add_tree (max_shards l) (pend ++ [[]]) t) = [[close t pend]] /\
  fin l n (push_raw (pend ++ [[]]) t) = [[close t pend]].
Proof.
  pose proof (max_shards_bounds l) as Hms. intros Hp. revert n t.
  induction Hp as [|p rest Hp Hrest IH]; intros n t <-.
  { cbn [app add_tree length fin push_raw close]. rewrite (proj2 (Nat.eqb_neq _ _)) by lia. done. }
  cbn [length fin app add_tree push_raw close].
  assert (Hraw : fin l (S (length rest)) ((p ++ [t]) :: (rest ++ [[]])) = [[close (match p with [] => t | _ => Node (p ++ [t]) end) rest]]).
  { cbn [fin]. destruct p as [|x p]; cbn [app fin_step].
    - case_bool_decide; by apply IH.
    - destruct (p ++ [t]) as [|y ys] eqn:E; [by apply app_eq_nil in E as [_ ?]|]. rewrite <- E. by apply IH. }
  split; [|exact Hraw]. destruct (Nat.eqb_spec (S (length p)) (max_shards l)) as [E|_]; [|exact Hraw].
  cbn [fin fin_step]. destruct p as [|x p]; [cbn [length] in E; lia|]. by apply IH.
Qed.

(** How many leaves the pending lists hold when they hold full subtrees only. *)
Fixpoint weight (ms : nat) (pend : list (list tree)) : nat :=
  match pend with [] => 0%nat | p :: rest => (length p + ms * weight ms rest)%nat end.

Lemma add_tree_weight ms pend t : (1 <= ms)%nat -> Exists (fun p => S (length p) < ms)%nat pend ->
  weight ms (add_tree ms pend t) = S (weight ms pend).
Proof.
  intros Hms Hex. revert t. induction Hex as [p rest Hp|p rest Hrest IH]; intros t; cbn [add_tree].
  - rewrite (proj2 (Nat.eqb_neq _ _)) by lia. cbn [weight]. rewrite length_app. cbn. lia.
  - destruct (Nat.eqb_spec (S (length p)) ms) as [E|_].
    + cbn [weight length]. rewrite IH. nia.
    + cbn [weight]. rewrite length_app. cbn. lia.
Qed.

Lemma add_tree_bound ms pend t : (2 <= ms)%nat -> Forall (fun p => length p < ms)%nat pend ->
  Forall (fun p => length p < ms)%nat (add_tree ms pend t).
Proof.
  intros Hms H. revert t. induction H as [|p rest Hp Hrest IH]; intros t; [constructor|]. cbn [add_tree].
  destruct (Nat.eqb_spec (S (length p)) ms) as [E|Hne]; constructor; auto; cbn; [lia|]. rewrite length_app. cbn. lia.
Qed.

(** With fewer leaves than the first levels hold, the top level is empty. *)
Lemma weight_top ms pend : (1 <= ms)%nat -> pend <> [] -> (weight ms pend < ms ^ (length pend - 1))%nat -> last pend = Some [].
Proof.
  intros Hms. induction pend as [|p rest IH]; [done|]. intros _ Hw. destruct rest as [|q rest].
  - cbn in Hw. destruct p; [done|cbn in Hw; lia].
  - cbn [last]. apply IH; [done|]. cbn [weight length] in *. replace (S (S (length rest)) - 1)%nat with (S (length rest)) in Hw by lia.
    cbn [Nat.pow] in Hw. replace (S (length rest) - 1)%nat with (length rest) by lia. cbn [weight] in *. nia.
Qed.

(** ** Entries, shards and spans *)

Lemma to_le_bytes_mod n z : to_le_bytes n (z mod 256 ^ Z.of_nat n) = to_le_bytes n z.
Proof.
  rewrite <- from_to_le_bytes_mod. replace n with (length (to_le_bytes n z)) at 1 by apply to_le_bytes_length.
  apply to_from_le_bytes, to_le_bytes_bytes.
Qed.

Lemma le_bytes_congr n a b : a mod 256 ^ Z.of_nat n = b mod 256 ^ Z.of_nat n -> to_le_bytes n a = to_le_bytes n b.
Proof. intros E. rewrite <- (to_le_bytes_mod n a), <- (to_le_bytes_mod n b). by rewrite E. Qed.

Lemma wrap_sum es a : 0 <= a < 2 ^ 64 ->
  foldl (fun acc e => wrap 64 (acc + e_span e)) a es = (a + zsum (map e_span es)) mod 2 ^ 64.
Proof.
  revert a. induction es as [|x es IH]; intros a Ha; cbn [foldl map zsum foldr].
  - rewrite Z.add_0_r. symmetry. by apply Z.mod_small.
  - rewrite IH by (apply Z.mod_pos_bound; lia). unfold zsum, wrap. rewrite Zplus_mod_idemp_l. f_equal. lia.
Qed.

Lemma zsum_congr m (xs ys : list Z) : m <> 0 -> Forall2 (fun x y => x mod m = y mod m) xs ys -> zsum xs mod m = zsum ys mod m.
Proof.
  intros Hm. induction 1 as [|x y xs ys E _ IH]; [done|]. cbn. rewrite Zplus_mod. unfold zsum in IH. rewrite E, IH. by rewrite <- Zplus_mod.
Qed.

Section Sim.
Context (bmt : Z -> bytes -> bytes) (l : Level).
Context (Hbmt : forall s b, length (bmt s b) = HASH_SIZE /\ all_bytes (bmt s b)).

Abbreviation wire := (wire bmt l).
Abbreviation ms := (max_shards l).
Definition mc : nat := (ms + parities l ms)%nat.

(** The entry of a chunk in a trie level. *)
Definition entry_w (w : bytes) : Entry := mkEntry (from_le_bytes (take SPAN_SIZE w)) (addr bmt w).

Lemma node_span_take s ws : take SPAN_SIZE (node_wire bmt l s ws) = node_span l s.
Proof. unfold node_wire. by rewrite take_app_length' by (by rewrite node_span_length). Qed.

(** A chunk's raw span and its size agree where the length lives. *)
Lemma raw_size t : from_le_bytes (take SPAN_SIZE (wire t)) mod (if bool_decide (l = LNone) then 2 ^ 64 else 2 ^ 56) =
  size t mod (if bool_decide (l = LNone) then 2 ^ 64 else 2 ^ 56).
Proof.
  assert (Hle : forall s, from_le_bytes (to_le_bytes SPAN_SIZE s) = s mod 2 ^ 64) by (intros s; apply (from_to_le_bytes_mod 8)).
  assert (Hd : forall s, (s mod 2 ^ 64) mod (if bool_decide (l = LNone) then 2 ^ 64 else 2 ^ 56) = s mod (if bool_decide (l = LNone) then 2 ^ 64 else 2 ^ 56)).
  { intros s. apply Z.mod_mod_divide. case_bool_decide; [done|]. by exists (2 ^ 8). }
  destruct t as [p|ks]; cbn [ChunkTree.wire].
  - unfold leaf_wire. rewrite take_app_length' by (by rewrite to_le_bytes_length). rewrite Hle. cbn [size]. apply Hd.
  - rewrite node_span_take. cbn [size]. unfold node_span. set (s := zsum _). case_bool_decide as Hl; [rewrite Hle, Zmod_mod; done|].
    unfold encode_level. change (SPAN_SIZE - 1)%nat with 7%nat. change SPAN_SIZE with 8%nat. rewrite le8_last.
    rewrite from_le_bytes_app, from_to_le_bytes_mod, to_le_bytes_length. change (256 ^ Z.of_nat 7) with (2 ^ 56).
    rewrite Z.mul_comm, Z_mod_plus_full. apply Zmod_mod.
Qed.

(** Wrapping the references of a node and its parities gives the node's chunk. *)
Lemma wrap_wire ts : (1 <= length ts <= ms)%nat -> Forall (shape l) ts ->
  let ws := map wire ts in
  let es := map entry_w (ws ++ parity_wires l ws) in
  wrap_span l es (length ts) ++ concat (map reference es) = wire (Node ts).
Proof.
  intros Hn Hsh ws es. cbn [ChunkTree.wire]. fold ws. unfold node_wire, node_refs.
  assert (Er : map reference es = map (addr bmt) (ws ++ parity_wires l ws)) by (unfold es; by rewrite map_map).
  rewrite Er. f_equal.
  assert (Hg : Forall good_wire ws).
  { apply Forall_map. eapply Forall_impl; [exact Hsh|]. intros t Ht. by apply shape_good. }
  assert (Hwl : length ws = length ts) by apply length_map.
  destruct (parity_codeword l ws) as (_ & _ & Hpl & _ & _); [by rewrite Hwl|done|].
  unfold wrap_span, node_span.
  assert (Hel : length es = (length ts + parities l (length ts))%nat) by (unfold es; rewrite length_map, length_app, Hpl, Hwl; done).
  assert (Htk : map e_span (take (length ts) es) = map (fun t => from_le_bytes (take SPAN_SIZE (wire t))) ts).
  { unfold es. rewrite map_app, take_app_length' by (by rewrite length_map). unfold ws. by rewrite !map_map. }
  rewrite wrap_sum, Z.add_0_l, Htk by lia. set (raws := zsum _). set (s := zsum (map size ts)).
  assert (Hm : raws mod (if bool_decide (l = LNone) then 2 ^ 64 else 2 ^ 56) = s mod (if bool_decide (l = LNone) then 2 ^ 64 else 2 ^ 56)).
  { apply zsum_congr; [case_bool_decide; lia|]. apply Forall2_fmap, Forall_Forall2_diag, Forall_true. intros t. apply raw_size. }
  rewrite Hel. destruct (parities_fit l (length ts) Hn) as [_ Hpos]. case_bool_decide as Hl.
  - subst l. rewrite (proj2 (Nat.ltb_ge _ _)) by (unfold parities; cbn; lia). apply (le_bytes_congr 8). by rewrite Zmod_mod.
  - specialize (Hpos Hl). rewrite (proj2 (Nat.ltb_lt _ _)) by lia. unfold encode_level.
    change (SPAN_SIZE - 1)%nat with 7%nat. change SPAN_SIZE with 8%nat. rewrite !le8_last. f_equal. apply le_bytes_congr.
    change (256 ^ Z.of_nat 7) with (2 ^ 56). rewrite <- Hm. apply Z.mod_mod_divide. by exists (2 ^ 8).
Qed.

(** ** The encoder's state *)

(** Emitted chunks are keyed by their address, once. *)
Record out_ok (e : Encoder) : Prop := {
  oo_seen : forall a, a ∈ seen e <-> a ∈ map fst (out e);
  oo_addr : forall a w, (a, w) ∈ out e -> addr bmt w = a /\ good_wire w;
  oo_nodup : NoDup (map fst (out e)) }.

Record cfg_ok (e : Encoder) : Prop := {
  co_level : e_level e = l;
  co_shards : e_max_shards e = ms;
  co_children : max_children e = mc;
  co_levels : length (levels e) = 10%nat;
  co_rs : length (rs_buf e) = 8%nat;
  co_out : out_ok e }.

Lemma out_ok_ext e e' : seen e' = seen e -> out e' = out e -> out_ok e -> out_ok e'.
Proof. intros Hs Ho [O1 O2 O3]. split; rewrite ?Hs, ?Ho; done. Qed.

Lemma cfg_set_levels e ls : cfg_ok e -> length ls = length (levels e) -> cfg_ok (set_levels e ls).
Proof. intros [] Hl. split; try done; [cbn; congruence|]. by apply (out_ok_ext e). Qed.

Lemma cfg_set_rs e bs : cfg_ok e -> length bs = length (rs_buf e) -> cfg_ok (set_rs e bs).
Proof. intros [] Hl. split; try done; [cbn; congruence|]. by apply (out_ok_ext e). Qed.

Lemma cfg_set_full e : cfg_ok e -> cfg_ok (set_full e).
Proof. intros []. split; try done. by apply (out_ok_ext e). Qed.

(** From [e] to [e'] only level [k] and above may change. *)
Record frame (k : nat) (e e' : Encoder) : Prop := {
  fr_cfg : cfg_ok e';
  fr_levels : forall j, (j < k)%nat -> levels e' !! j = levels e !! j;
  fr_rs : forall j, (S j < k)%nat -> rs_buf e' !! j = rs_buf e !! j;
  fr_seen : seen e ⊆ seen e' }.

Lemma frame_trans k k' e1 e2 e3 : (k <= k')%nat -> frame k e1 e2 -> frame k' e2 e3 -> frame k e1 e3.
Proof.
  intros Hk [C1 L1 R1 S1] [C2 L2 R2 S2]. split; [done| | |set_solver].
  - intros j Hj. rewrite L2, L1 by lia. done.
  - intros j Hj. rewrite R2, R1 by lia. done.
Qed.

Lemma frame_refl k e : cfg_ok e -> frame k e e.
Proof. by split. Qed.

Lemma emit_ok e w b : cfg_ok e -> good_wire w ->
  exists e', emit bmt e w b = Ok (e', addr bmt w) /\ cfg_ok e' /\ levels e' = levels e /\ rs_buf e' = rs_buf e /\
    full e' = full e /\ seen e ⊆ seen e' /\ addr bmt w ∈ seen e'.
Proof.
  intros C Hw. assert (Ea : wire_address bmt w = Some (addr bmt w)).
  { destruct Hw as [[H1 H2] _]. unfold addr, wire_address. unfold CHUNK_WITH_SPAN in H2.
    rewrite (proj2 (Nat.ltb_ge _ _)) by lia. rewrite (proj2 (Nat.ltb_ge _ _)) by lia. done. }
  unfold emit. rewrite Ea. case_bool_decide as Hs; [by exists e|].
  eexists. split; [done|]. split; [|cbn; split_and!; try done; set_solver].
  destruct C as [? ? ? ? ? [O1 O2 O3]]. split; try done. split; cbn.
  - intros a. rewrite map_app, elem_of_union, elem_of_singleton, O1, elem_of_app. cbn. rewrite list_elem_of_singleton. tauto.
  - intros a w' Hin. apply elem_of_app in Hin as [Hin|Hin%list_elem_of_singleton]; [by apply O2|]. by injection Hin as -> ->.
  - rewrite map_app. apply NoDup_app. split_and!; [done| |apply NoDup_singleton]. cbn. intros a Ha ->%list_elem_of_singleton.
    apply Hs. by apply O1.
Qed.

(** The chunks of a subtree. *)
Fixpoint chunks_of (t : tree) : list bytes :=
  match t with
  | Leaf p => [wire (Leaf p)]
  | Node ks => concat (map chunks_of ks) ++ parity_wires l (map wire ks) ++ [wire (Node ks)]
  end.
Definition stored (e : Encoder) (t : tree) : Prop := forall w, w ∈ chunks_of t -> addr bmt w ∈ seen e.

Lemma stored_mono e e' t : seen e ⊆ seen e' -> stored e t -> stored e' t.
Proof. intros Hs H w Hw. apply Hs, H, Hw. Qed.

(** The encoder at levels [k] and above holds the pending subtrees [pend]. *)
Definition level_ok (e : Encoder) (k : nat) (ts : list tree) : Prop :=
  levels e !! k = Some (mkLevelBuf (map (fun t => entry_w (wire t)) ts) (length ts)) /\
  (l <> LNone -> rs_buf e !! (k - 1)%nat = Some (map (fun t => pad (wire t)) ts)) /\
  Forall (fun t => shape l t /\ stored e t) ts.

Definition rel (e : Encoder) (k : nat) (pend : list (list tree)) : Prop :=
  forall j ts, pend !! j = Some ts -> level_ok e (k + j) ts.

Lemma rel_cons e k p pend : rel e k (p :: pend) <-> level_ok e k p /\ rel e (S k) pend.
Proof.
  split.
  - intros H. split; [rewrite <- (Nat.add_0_r k); by apply H|]. intros j ts Hj. rewrite Nat.add_succ_comm. by apply H.
  - intros [H1 H2] [|j] ts Hj; [rewrite Nat.add_0_r; by injection Hj as <-|]. rewrite <- Nat.add_succ_comm. by apply H2.
Qed.

Lemma level_frame e e' k k' ts : (1 <= k < k')%nat -> frame k' e e' -> level_ok e k ts -> level_ok e' k ts.
Proof.
  intros Hk [_ L R S] (H1 & H2 & H3). split_and!.
  - by rewrite L by lia.
  - intros Hl. rewrite R by lia. auto.
  - eapply Forall_impl; [exact H3|]. intros t [? ?]. split; [done|]. by apply (stored_mono e).
Qed.

(** ** Writing parities and wrapping *)

Lemma write_parities_app W e k ps qs : write_parities bmt W e k (ps ++ qs) =
  result_bind (write_parities bmt W e k ps) (fun e => write_parities bmt W e k qs).
Proof.
  revert e. induction ps as [|p ps IH]; intros e; [done|]. cbn [app write_parities].
  destruct (emit bmt e p true) as [[e1 r]|]; [|done]. cbn [result_bind]. destruct (W e1 k true _ r) as [e2|]; [|done]. cbn [result_bind]. apply IH.
Qed.

(** What a run of emissions may change besides one level. *)
Definition touched (e e' : Encoder) (k : nat) (buf : LevelBuf) : Prop :=
  cfg_ok e' /\ levels e' = <[k := buf]> (levels e) /\ rs_buf e' = rs_buf e /\ full e' = full e /\ seen e ⊆ seen e'.

Section Writer.
Context (W : Writer) (k d : nat) (HW : forall e b s r, W e k b s r = write_from bmt (S d) e k b s r).

Lemma parities_partial e ps es eff : cfg_ok e -> Forall good_wire ps -> levels e !! k = Some (mkLevelBuf es eff) ->
  (length es + length ps < mc)%nat ->
  exists e', write_parities bmt W e k ps = Ok e' /\ touched e e' k (mkLevelBuf (es ++ map entry_w ps) eff) /\
    (forall w, w ∈ ps -> addr bmt w ∈ seen e').
Proof.
  intros C Hg. revert e es C. induction Hg as [|p ps Hp Hg IH]; intros e es C Hk Hlt.
  { exists e. split; [done|]. split; [|intros w Hw; by apply not_elem_of_nil in Hw].
    unfold touched. cbn [map]. by rewrite app_nil_r, list_insert_id. }
  cbn [write_parities]. destruct (emit_ok e p true C Hp) as (e1 & -> & C1 & L1 & R1 & F1 & S1 & A1). cbn [result_bind length] in *.
  rewrite HW. cbn [write_from]. rewrite L1, Hk. cbn [push_entry entries effective].
  rewrite (proj2 (Nat.eqb_neq _ _)) by (rewrite length_app; cbn [length max_children set_levels]; rewrite (co_children _ C1); lia).
  cbn [result_bind]. set (e2 := set_levels e1 _).
  assert (C2 : cfg_ok e2) by (apply cfg_set_levels; [done|]; rewrite length_insert; congruence).
  destruct (IH e2 (es ++ [entry_w p]) C2) as (e3 & -> & (T1 & T2 & T3 & T4 & T5) & T6).
  { cbn. rewrite list_lookup_insert_eq; [done|]. by apply lookup_lt_Some in Hk. }
  { rewrite length_app. cbn [length]. lia. }
  exists e3. split; [done|]. split.
  - split_and!; try done.
    + rewrite T2. cbn. rewrite list_insert_insert_eq. by rewrite <- app_assoc.
    + by rewrite T3.
    + by rewrite T4.
    + etrans; [exact S1|exact T5].
  - intros w Hw. apply elem_of_cons in Hw as [->|Hw]; [by apply T5|auto].
Qed.

Lemma parities_full e ps es eff : cfg_ok e -> Forall good_wire ps -> ps <> [] -> levels e !! k = Some (mkLevelBuf es eff) ->
  (length es + length ps = mc)%nat ->
  exists e', write_parities bmt W e k ps = wrap_level bmt (write_from bmt d) e' k /\
    touched e e' k (mkLevelBuf (es ++ map entry_w ps) eff) /\ (forall w, w ∈ ps -> addr bmt w ∈ seen e').
Proof.
  intros C Hg Hne Hk Hlen. destruct (exists_last Hne) as (ps0 & p & ->). apply Forall_app in Hg as [Hg0 Hg1].
  apply Forall_cons in Hg1 as [Hp _]. rewrite length_app in Hlen. cbn [length] in Hlen.
  destruct (parities_partial e ps0 es eff C Hg0 Hk ltac:(lia)) as (e1 & E1 & (C1 & L1 & R1 & F1 & S1) & A1).
  rewrite write_parities_app, E1. cbn [result_bind write_parities].
  destruct (emit_ok e1 p true C1 Hp) as (e2 & -> & C2 & L2 & R2 & F2 & S2 & A2). cbn [result_bind].
  rewrite HW. cbn [write_from].
  assert (Hk2 : levels e2 !! k = Some (mkLevelBuf (es ++ map entry_w ps0) eff)).
  { rewrite L2, L1, list_lookup_insert_eq; [done|]. by apply lookup_lt_Some in Hk. }
  rewrite Hk2. cbn [push_entry entries effective].
  rewrite (proj2 (Nat.eqb_eq _ _)).
  2: { rewrite !length_app, length_map. cbn [length max_children set_levels]. rewrite (co_children _ C2). lia. }
  set (e3 := set_levels e2 _). exists e3. split.
  { destruct (wrap_level bmt (write_from bmt d) e3 k); done. }
  split.
  - split_and!.
    + apply cfg_set_levels; [done|]. by rewrite length_insert.
    + cbn. rewrite L2, L1, list_insert_insert_eq, map_app, app_assoc. done.
    + cbn. congruence.
    + cbn. congruence.
    + cbn. etrans; eassumption.
  - intros w Hw. cbn. apply elem_of_app in Hw as [Hw|Hw%list_elem_of_singleton]; [by apply S2, A1|by rewrite Hw].
Qed.
End Writer.

(** Handing a subtree to level [k]: its reference, then its shard. *)
Definition feed (W : Writer) (e : Encoder) (k : nat) (t : tree) : result Encoder EncodeError :=
  let? e := W e k false (from_le_bytes (take SPAN_SIZE (wire t))) (addr bmt (wire t)) in
  chunk_write bmt W e (k - 1) (wire t).

(** Wrapping a complete level hands its node to the next one. *)
Lemma wrap_feed W e k ts : cfg_ok e -> (1 <= length ts <= ms)%nat ->
  levels e !! k = Some (mkLevelBuf (map entry_w (map wire ts ++ parity_wires l (map wire ts))) (length ts)) ->
  Forall (fun t => shape l t /\ stored e t) ts -> (forall w, w ∈ parity_wires l (map wire ts) -> addr bmt w ∈ seen e) ->
  exists e1, touched e e1 k empty_buf /\ stored e1 (Node ts) /\
    wrap_level bmt W e k = (let? e2 := feed W e1 (S k) (Node ts) in Ok (if Nat.eqb (S k) MAX_LEVEL then set_full e2 else e2)).
Proof.
  intros C Hn Hk Hts Hpar. unfold wrap_level. rewrite Hk. cbn [entries effective].
  assert (Hsh : Forall (shape l) ts) by (eapply Forall_impl; [exact Hts|]; by intros t [? _]).
  assert (Hshape : shape l (Node ts)) by (split; [done|by apply foldr_and_Forall]).
  set (e0 := set_levels e _). assert (C0 : cfg_ok e0) by (apply cfg_set_levels; [done|by rewrite length_insert]).
  replace (e_level e0) with l by (symmetry; apply C0). rewrite (wrap_wire ts Hn Hsh).
  destruct (emit_ok e0 (wire (Node ts)) false C0 (shape_good bmt l Hbmt _ Hshape)) as (e1 & -> & C1 & L1 & R1 & F1 & S1 & A1).
  cbn [result_bind]. exists e1. split; [split_and!; done|]. split.
  - intros w Hw. cbn [chunks_of] in Hw. rewrite !elem_of_app, list_elem_of_singleton in Hw. destruct Hw as [Hw|[Hw| ->]].
    + apply S1. change (seen e0) with (seen e). apply list_elem_of_In, in_concat in Hw as (cs & Hcs & Hw). apply in_map_iff in Hcs as (t & <- & Ht).
      rewrite Forall_forall in Hts. apply list_elem_of_In in Ht, Hw. by apply (Hts t Ht).
    + apply S1, Hpar, Hw.
    + done.
  - unfold feed. cbn [Nat.sub]. rewrite Nat.sub_0_r.
    assert (Esp : wrap_span l (map entry_w (map wire ts ++ parity_wires l (map wire ts))) (length ts) = take SPAN_SIZE (wire (Node ts))).
    { rewrite <- (wrap_wire ts Hn Hsh). rewrite take_app_length'; [done|]. unfold wrap_span.
      destruct (Nat.ltb _ _); unfold encode_level; rewrite ?length_insert; by rewrite to_le_bytes_length. }
    rewrite Esp. destruct (W e1 (S k) false _ _) as [e2|]; done.
Qed.

(** The writer of one level, as every caller instantiates it. *)
Definition writes_at (W : Writer) (k : nat) : Prop := forall e b s r, W e k b s r = write_from bmt (MAX_LEVEL + 2 - k) e k b s r.

Lemma resize_pad w : good_wire w -> resize w CHUNK_WITH_SPAN = pad w.
Proof. intros [[_ H] _]. unfold resize, pad. by rewrite take_ge. Qed.

Lemma mc_128 : mc = 128%nat /\ (l <> LNone -> (ms < mc)%nat) /\ (l = LNone -> ms = mc).
Proof. unfold mc. destruct l; vm_compute; split_and!; try done; intros; try lia. Qed.

(** ** Feeding a level *)

Section Feed.
Context (W : Writer) (k : nat) (Hk : (1 <= k <= 8)%nat) (HW : writes_at W k).

Lemma writes_step : (MAX_LEVEL + 2 - k)%nat = S (MAX_LEVEL + 2 - S k).
Proof. unfold MAX_LEVEL. lia. Qed.

(** The reference lands on the level; it wraps at once only without redundancy. *)
Lemma write_data e p t : cfg_ok e -> level_ok e k p -> (S (length p) <= ms)%nat ->
  let e1 := set_levels e (<[k := mkLevelBuf (map (fun t => entry_w (wire t)) (p ++ [t])) (S (length p))]> (levels e)) in
  W e k false (from_le_bytes (take SPAN_SIZE (wire t))) (addr bmt (wire t)) =
    if Nat.eqb (S (length p)) mc then wrap_level bmt (write_from bmt (MAX_LEVEL + 2 - S k)) e1 k else Ok e1.
Proof.
  intros C (L & _ & _) Hp e1. rewrite HW, writes_step. cbn [write_from]. rewrite L. cbn [push_entry entries effective].
  replace (max_children _) with mc by (symmetry; apply (co_children e C)).
  rewrite length_app, length_map. cbn [length]. rewrite Nat.add_1_r. unfold e1. by rewrite map_app.
Qed.

Lemma feed_small e p t : cfg_ok e -> level_ok e k p -> (S (length p) < ms)%nat -> shape l t -> stored e t ->
  exists e', feed W e k t = Ok e' /\ frame k e e' /\ level_ok e' k (p ++ [t]) /\ full e' = full e /\
    (forall j, (k < j)%nat -> levels e' !! j = levels e !! j) /\ (forall j, (k <= j)%nat -> rs_buf e' !! j = rs_buf e !! j) /\ seen e' = seen e.
Proof.
  intros C Hlv Hp Ht Hs. pose proof mc_128 as (_ & M1 & M2). pose proof Hlv as (L & R & F).
  assert (Hne : (S (length p) <> mc)%nat) by (destruct (decide (l = LNone)); [rewrite <- M2 by done|specialize (M1 ltac:(done))]; lia).
  unfold feed. rewrite (write_data e p t C Hlv) by lia. rewrite (proj2 (Nat.eqb_neq _ _)) by done. cbn [result_bind].
  set (e1 := set_levels e _). assert (C1 : cfg_ok e1) by (apply cfg_set_levels; [done|by rewrite length_insert]).
  assert (L1 : levels e1 !! k = Some (mkLevelBuf (map (fun t => entry_w (wire t)) (p ++ [t])) (length (p ++ [t])))).
  { cbn. rewrite list_lookup_insert_eq by (by apply lookup_lt_Some in L). by rewrite length_app, Nat.add_1_r. }
  assert (F1 : Forall (fun t => shape l t /\ stored e1 t) (p ++ [t])) by (apply Forall_app; split; [done|by constructor]).
  unfold chunk_write. rewrite (co_level _ C1), (co_rs _ C1). case_bool_decide as Hl; cbn [orb].
  - exists e1. split; [done|]. split; [|split_and!; try done].
    + split; try done. intros j Hj. cbn. by rewrite list_lookup_insert_ne by lia.
    + intros j Hj. cbn. by rewrite list_lookup_insert_ne by lia.
  - rewrite (proj2 (Nat.leb_gt _ _)) by lia. rewrite resize_pad by (by apply shape_good). unfold push_shard.
    cbn [rs_buf e1 set_levels]. rewrite (R Hl). rewrite (proj2 (Nat.eqb_neq _ _)).
    2: { cbn [e_max_shards set_rs]. rewrite (co_shards _ C1), length_app, length_map. cbn [length]. lia. }
    eexists. split; [done|]. assert (Hr : (k - 1 < length (rs_buf e))%nat) by (rewrite (co_rs _ C); lia).
    split; [|split; [|split_and!; try done]].
    + split; [apply cfg_set_rs; [done|by rewrite length_insert]| | |done].
      * intros j Hj. cbn. by rewrite list_lookup_insert_ne by lia.
      * intros j Hj. cbn. by rewrite list_lookup_insert_ne by lia.
    + split; [exact L1|]. split; [|done]. intros _. cbn. rewrite list_lookup_insert_eq by done. by rewrite map_app.
    + intros j Hj. cbn. by rewrite list_lookup_insert_ne by lia.
    + intros j Hj. cbn. by rewrite list_lookup_insert_ne by lia.
Qed.

(** A full level without redundancy. *)
Lemma feed_full_plain e p t : l = LNone -> cfg_ok e -> level_ok e k p -> S (length p) = ms -> shape l t ->
  exists e1, touched e e1 k (mkLevelBuf (map entry_w (map wire (p ++ [t]) ++ parity_wires l (map wire (p ++ [t])))) (length (p ++ [t]))) /\
    parity_wires l (map wire (p ++ [t])) = [] /\
    forall e2, wrap_level bmt (write_from bmt (MAX_LEVEL + 2 - S k)) e1 k = Ok e2 -> cfg_ok e2 -> feed W e k t = Ok e2.
Proof.
  intros Hl C Hlv Hp Ht. pose proof mc_128 as (_ & _ & M2). specialize (M2 Hl).
  set (e1 := set_levels e (<[k := mkLevelBuf (map (fun t => entry_w (wire t)) (p ++ [t])) (S (length p))]> (levels e))).
  assert (Epw : parity_wires l (map wire (p ++ [t])) = []).
  { assert (Hg : Forall good_wire (map wire (p ++ [t]))).
    { apply Forall_map, Forall_app. split; [|constructor; [by apply shape_good|constructor]].
      destruct Hlv as (_ & _ & F). eapply Forall_impl; [exact F|]. intros x [Hx _]. by apply shape_good. }
    destruct (parity_codeword l (map wire (p ++ [t]))) as (_ & _ & Hpl & _); [rewrite length_map, length_app; cbn [length]; lia|done|].
    apply nil_length_inv. rewrite Hpl. by rewrite Hl. }
  exists e1. split_and!; [|done|].
  - rewrite Epw, app_nil_r, map_map, length_app, Nat.add_1_r. split_and!; try done. apply cfg_set_levels; [done|by rewrite length_insert].
  - intros e2 Hw C2. unfold feed. rewrite (write_data e p t C Hlv) by lia. rewrite (proj2 (Nat.eqb_eq _ _)) by lia.
    fold e1. rewrite Hw. cbn [result_bind]. unfold chunk_write. rewrite (co_level _ C2). by rewrite bool_decide_eq_true_2.
Qed.

(** Encoding a buffer writes the parity chunks of its subtrees. *)
Lemma rs_encode_parities e ts : l <> LNone -> cfg_ok e -> (1 <= length ts <= ms)%nat -> Forall (shape l) ts ->
  rs_buf e !! (k - 1)%nat = Some (map pad (map wire ts)) ->
  rs_encode bmt W e (k - 1) = write_parities bmt W (set_rs e (<[(k - 1)%nat := []]> (rs_buf e))) k (parity_wires l (map wire ts)) /\
  Forall good_wire (parity_wires l (map wire ts)) /\ length (parity_wires l (map wire ts)) = parities l (length ts) /\
  (2 <= parities l (length ts))%nat.
Proof.
  intros Hl C Hn Hsh Hb.
  assert (Hg : Forall good_wire (map wire ts)) by (apply Forall_map; eapply Forall_impl; [exact Hsh|]; intros x Hx; by apply shape_good).
  destruct (parity_codeword l (map wire ts)) as (rs & Hrs & Hpl & Hcw & Hpg); [by rewrite length_map|done|]. rewrite length_map in *.
  pose proof (parities_fit l (length ts) Hn) as [_ Hpos]. specialize (Hpos Hl). split_and!; [|  |done|done].
  2: { eapply Forall_impl; [exact Hpg|]. intros w [Hw1 Hw2]. split; [rewrite Hw1; split; apply Nat.leb_le; by vm_compute|done]. }
  unfold rs_encode. rewrite (co_level _ C), bool_decide_eq_false_2 by done. rewrite Hb.
  destruct (map pad (map wire ts)) as [|b0 bs] eqn:Em.
  { apply (f_equal length) in Em. rewrite !length_map in Em. cbn [length] in Em. lia. }
  rewrite <- Em, !length_map. rewrite (proj2 (Nat.eqb_neq _ _)) by lia. replace (S (k - 1)) with k by lia.
  rewrite Hpl in Hrs. rewrite Hrs. cbn [map_err result_bind]. unfold parity_wires in Hpl |- *. rewrite length_map in Hpl |- *. rewrite Hrs in Hpl |- *.
  destruct (encode rs _) as [cw|] eqn:Ee; [done|]. cbn [length] in Hpl. lia.
Qed.

(** A full level with redundancy: the shards are encoded and the parities written. *)
Lemma feed_full_coded e p t : l <> LNone -> cfg_ok e -> level_ok e k p -> S (length p) = ms -> shape l t ->
  exists e1, cfg_ok e1 /\
    levels e1 = <[k := mkLevelBuf (map entry_w (map wire (p ++ [t]) ++ parity_wires l (map wire (p ++ [t])))) (length (p ++ [t]))]> (levels e) /\
    rs_buf e1 = <[(k - 1)%nat := []]> (rs_buf e) /\ full e1 = full e /\ seen e ⊆ seen e1 /\
    (forall w, w ∈ parity_wires l (map wire (p ++ [t])) -> addr bmt w ∈ seen e1) /\
    feed W e k t = wrap_level bmt (write_from bmt (MAX_LEVEL + 2 - S k)) e1 k.
Proof.
  intros Hl C Hlv Hp Ht. pose proof mc_128 as (_ & M1 & _). specialize (M1 Hl). pose proof Hlv as (L & R & F). specialize (R Hl).
  set (ts := p ++ [t]). assert (Hts : length ts = ms) by (unfold ts; rewrite length_app, Nat.add_1_r; done).
  assert (Hsh : Forall (shape l) ts) by (apply Forall_app; split; [eapply Forall_impl; [exact F|]; by intros x [? _]|by constructor]).
  unfold feed. rewrite (write_data e p t C Hlv) by lia. rewrite (proj2 (Nat.eqb_neq _ _)) by lia. cbn [result_bind].
  set (e1 := set_levels e _). assert (C1 : cfg_ok e1) by (apply cfg_set_levels; [done|by rewrite length_insert]).
  unfold chunk_write. rewrite (co_level _ C1), (co_rs _ C1), bool_decide_eq_false_2 by done. cbn [orb].
  rewrite (proj2 (Nat.leb_gt _ _)) by lia. rewrite resize_pad by (by apply shape_good). unfold push_shard.
  cbn [rs_buf e1 set_levels]. rewrite R. assert (Eb : map (fun t => pad (wire t)) p ++ [pad (wire t)] = map pad (map wire ts)).
  { unfold ts. by rewrite map_map, map_app. }
  rewrite Eb. rewrite (proj2 (Nat.eqb_eq _ _)) by (cbn [e_max_shards set_rs]; rewrite (co_shards _ C1), !length_map; lia).
  set (e2 := set_rs _ _). assert (C2 : cfg_ok e2) by (apply cfg_set_rs; [done|by rewrite length_insert]).
  assert (Hr : (k - 1 < length (rs_buf e))%nat) by (rewrite (co_rs _ C); lia).
  assert (E2 : rs_buf e2 !! (k - 1)%nat = Some (map pad (map wire ts))) by (cbn; by rewrite list_lookup_insert_eq).
  destruct (rs_encode_parities e2 ts Hl C2 ltac:(lia) Hsh E2) as (-> & Hpg & Hpl & Hpos). rewrite Hts in Hpl, Hpos.
  set (e3 := set_rs e2 _). assert (C3 : cfg_ok e3) by (apply cfg_set_rs; [done|by rewrite length_insert]).
  destruct (parities_full W k (MAX_LEVEL + 2 - S k) ltac:(intros; rewrite HW; by rewrite writes_step)
    e3 (parity_wires l (map wire ts)) (map (fun t => entry_w (wire t)) ts) (S (length p)) C3) as (e4 & -> & (T1 & T2 & T3 & T4 & T5) & T6).
  - done.
  - intros E. rewrite E in Hpl. cbn [length] in Hpl. lia.
  - cbn. by rewrite list_lookup_insert_eq by (by apply lookup_lt_Some in L).
  - rewrite length_map, Hts, Hpl. done.
  - exists e4. split_and!; try done.
    + rewrite T2. unfold e3, e2, e1. cbn [levels set_rs set_levels]. rewrite list_insert_insert_eq, map_app, map_map, Hts. by rewrite Hp.
    + rewrite T3. cbn. by rewrite list_insert_insert_eq.
Qed.

(** Both cases: the level is complete with its parities and is wrapped. *)
Lemma feed_full e p t : cfg_ok e -> level_ok e k p -> S (length p) = ms -> shape l t ->
  exists e1, cfg_ok e1 /\
    levels e1 = <[k := mkLevelBuf (map entry_w (map wire (p ++ [t]) ++ parity_wires l (map wire (p ++ [t])))) (length (p ++ [t]))]> (levels e) /\
    (forall j, j <> (k - 1)%nat -> rs_buf e1 !! j = rs_buf e !! j) /\ (l <> LNone -> rs_buf e1 !! (k - 1)%nat = Some []) /\
    full e1 = full e /\ seen e ⊆ seen e1 /\
    (forall w, w ∈ parity_wires l (map wire (p ++ [t])) -> addr bmt w ∈ seen e1) /\
    forall e2, wrap_level bmt (write_from bmt (MAX_LEVEL + 2 - S k)) e1 k = Ok e2 -> cfg_ok e2 -> feed W e k t = Ok e2.
Proof.
  intros C Hlv Hp Ht. destruct (decide (l = LNone)) as [Hl|Hl].
  - destruct (feed_full_plain e p t Hl C Hlv Hp Ht) as (e1 & (T1 & T2 & T3 & T4 & T5) & Epw & Hf).
    exists e1. split_and!; try done.
    + intros j _. by rewrite T3.
    + rewrite Epw. intros w Hw. by apply not_elem_of_nil in Hw.
  - destruct (feed_full_coded e p t Hl C Hlv Hp Ht) as (e1 & T1 & T2 & T3 & T4 & T5 & T6 & Hf).
    exists e1. split_and!; try done.
    + intros j Hj. by rewrite T3, list_lookup_insert_ne.
    + intros _. rewrite T3, list_lookup_insert_eq; [done|]. rewrite (co_rs _ C). lia.
    + intros e2 Hw _. by rewrite Hf.
Qed.
End Feed.

Lemma level_ok_eq e e' k ts : levels e' !! k = levels e !! k -> rs_buf e' !! (k - 1)%nat = rs_buf e !! (k - 1)%nat ->
  seen e ⊆ seen e' -> level_ok e k ts -> level_ok e' k ts.
Proof.
  intros EL ER ES (H1 & H2 & H3). split_and!; [by rewrite EL|by rewrite ER|].
  eapply Forall_impl; [exact H3|]. intros t [? ?]. split; [done|]. by apply (stored_mono e).
Qed.

Lemma rel_eq e e' k pend : (1 <= k)%nat -> (forall j, (k <= j)%nat -> levels e' !! j = levels e !! j) ->
  (forall j, (k <= S j)%nat -> rs_buf e' !! j = rs_buf e !! j) -> seen e ⊆ seen e' -> rel e k pend -> rel e' k pend.
Proof.
  intros Hk EL ER ES H j ts Hj. apply (level_ok_eq e); [apply EL; lia|apply ER; lia|done|]. by apply H.
Qed.

Lemma feed_ok pend : forall W k e t, (1 <= k)%nat -> (k + length pend = 9)%nat -> writes_at W k -> cfg_ok e -> rel e k pend ->
  shape l t -> stored e t -> Forall (fun p => length p < ms)%nat pend -> Exists (fun p => S (length p) < ms)%nat pend ->
  exists e', feed W e k t = Ok e' /\ frame k e e' /\ rel e' k (add_tree ms pend t) /\
    (full e' = full e \/ last (add_tree ms pend t) <> Some []).
Proof.
  induction pend as [|p rest IH]; intros W k e t Hk Hlen HW C Hrel Ht Hst Hall Hex; [by apply Exists_nil in Hex|].
  apply rel_cons in Hrel as [Hlv Hrest]. apply Forall_cons in Hall as [Hp Hall]. cbn [length] in Hlen. cbn [add_tree].
  destruct (Nat.eqb_spec (S (length p)) ms) as [Heq|Hne].
  - apply Exists_cons in Hex as [Hex|Hex]; [lia|].
    destruct (feed_full W k ltac:(lia) HW e p t C Hlv Heq Ht) as (e1 & C1 & L1 & R1 & R1' & F1 & S1 & P1 & Hfeed).
    assert (Hlk : (k < length (levels e))%nat) by (rewrite (co_levels _ C); lia).
    destruct (wrap_feed (write_from bmt (MAX_LEVEL + 2 - S k)) e1 k (p ++ [t]) C1) as (e2 & (C2 & L2 & R2 & F2 & S2) & St2 & Hwrap).
    { rewrite length_app. cbn [length]. lia. }
    { rewrite L1. by rewrite list_lookup_insert_eq. }
    { destruct Hlv as (_ & _ & F). apply Forall_app. split; [|constructor; [|constructor]].
      - eapply Forall_impl; [exact F|]. intros x [? ?]. split; [done|]. by apply (stored_mono e).
      - split; [done|]. by apply (stored_mono e). }
    { done. }
    assert (Hshape : shape l (Node (p ++ [t]))).
    { split; [rewrite length_app; cbn [length]; lia|]. apply foldr_and_Forall, Forall_app. split; [|by constructor].
      destruct Hlv as (_ & _ & F). eapply Forall_impl; [exact F|]. by intros x [? _]. }
    destruct (IH (write_from bmt (MAX_LEVEL + 2 - S k)) (S k) e2 (Node (p ++ [t]))) as (e3 & E3 & Fr3 & Rel3 & Fu3); try done; [lia|lia| |].
    { apply (rel_eq e); [lia| | |set_solver|done].
      - intros j Hj. rewrite L2, L1, !list_lookup_insert_ne by lia. done.
      - intros j Hj. rewrite R2. apply R1. lia. }
    rewrite E3 in Hwrap. cbn [result_bind] in Hwrap. set (e4 := if Nat.eqb (S k) MAX_LEVEL then set_full e3 else e3) in *.
    assert (C4 : cfg_ok e4) by (unfold e4; destruct (Nat.eqb _ _); [apply cfg_set_full|]; apply Fr3).
    assert (E4 : levels e4 = levels e3 /\ rs_buf e4 = rs_buf e3 /\ seen e4 = seen e3) by (unfold e4; destruct (Nat.eqb _ _); done).
    destruct E4 as (EL4 & ER4 & ES4). exists e4. split; [by apply Hfeed|]. destruct Fr3 as [_ FL FR FS].
    assert (Hfull : full e4 = full e \/ last (add_tree ms rest (Node (p ++ [t]))) <> Some []).
    { unfold e4. destruct (Nat.eqb_spec (S k) MAX_LEVEL) as [Ek|_]; [right|destruct Fu3 as [->|Fu3]; [left; congruence|by right]].
      unfold MAX_LEVEL in Ek. destruct rest as [|q [|? ?]]; cbn [length] in Hlen; try lia. apply Exists_cons in Hex as [Hex|Hex]; [|by apply Exists_nil in Hex].
      cbn [add_tree]. rewrite (proj2 (Nat.eqb_neq _ _)) by lia. cbn [last]. intros E. injection E as E. by apply app_eq_nil in E as [_ ?]. }
    split_and!.
    + split; [done| | |rewrite ES4; set_solver].
      * intros j Hj. rewrite EL4, FL, L2, L1, !list_lookup_insert_ne by lia. done.
      * intros j Hj. rewrite ER4, FR, R2, R1 by lia. done.
    + apply rel_cons. split.
      * split_and!; [|intros Hl|constructor].
        -- rewrite EL4, FL, L2 by lia. rewrite list_lookup_insert_eq; [done|]. rewrite L1, length_insert. done.
        -- rewrite ER4, FR, R2 by lia. auto.
      * apply (rel_eq e3); [lia| | |by rewrite ES4|done]; intros j Hj; congruence.
    + destruct Hfull as [?|Hf]; [by left|]. right. destruct rest as [|q rest]; [by apply Exists_nil in Hex|].
      pose proof (add_tree_length ms (q :: rest) (Node (p ++ [t]))) as HL. destruct (add_tree ms (q :: rest) _); [done|]. exact Hf.
  - destruct (feed_small W k ltac:(lia) HW e p t C Hlv ltac:(lia) Ht Hst) as (e1 & E1 & Fr & Lv & Fu & Lup & Rup & Sn).
    exists e1. split; [done|]. split; [done|]. split; [|by left]. apply rel_cons. split; [done|].
    apply (rel_eq e); [lia|intros j Hj; apply Lup; lia|intros j Hj; apply Rup; lia|by rewrite Sn|done].
Qed.

(** ** Writing chunks *)

Lemma top_writes k : writes_at (write_to_level bmt) k.
Proof. done. Qed.

Lemma write_ok e pend c : cfg_ok e -> rel e 1 pend -> length pend = 8%nat -> full e = false ->
  (length c <= CHUNK_SIZE)%nat -> all_bytes c ->
  Forall (fun p => length p < ms)%nat pend -> Exists (fun p => S (length p) < ms)%nat pend ->
  exists e', write bmt e c = Ok e' /\ cfg_ok e' /\ rel e' 1 (add_tree ms pend (Leaf c)) /\ seen e ⊆ seen e' /\
    (full e' = false \/ last (add_tree ms pend (Leaf c)) <> Some []).
Proof.
  intros C Hrel Hlen Hfull Hc Hb Hall Hex. unfold write. rewrite Hfull.
  destruct (emit_ok e (wire (Leaf c)) false C (leaf_wire_good c Hc Hb)) as (e1 & E1 & C1 & L1 & R1 & F1 & S1 & A1).
  change (to_le_bytes SPAN_SIZE (Z.of_nat (length c)) ++ c) with (wire (Leaf c)). rewrite E1. cbn [result_bind].
  assert (Hraw : from_le_bytes (take SPAN_SIZE (wire (Leaf c))) = Z.of_nat (length c)).
  { cbn [ChunkTree.wire]. unfold leaf_wire. rewrite take_app_length' by (by rewrite to_le_bytes_length).
    apply from_to_le_bytes. unfold CHUNK_SIZE in Hc. change (256 ^ Z.of_nat SPAN_SIZE) with (2 ^ 64). lia. }
  destruct (feed_ok pend (write_to_level bmt) 1 e1 (Leaf c)) as (e2 & E2 & Fr & Rel & Fu); try done; [lia| | |].
  { apply (rel_eq e); [lia| | |done|done]; intros j _; congruence. }
  { intros w Hw. cbn [chunks_of] in Hw. apply list_elem_of_singleton in Hw as ->. done. }
  unfold feed in E2. rewrite Hraw in E2. cbn [Nat.sub] in E2. exists e2. rewrite E2. split; [done|].
  split; [apply Fr|]. split; [done|]. split; [etrans; [exact S1|apply Fr]|]. destruct Fu as [->|?]; [left; congruence|by right].
Qed.

(** The pending subtrees after writing [cs]. *)
Definition pend_of (cs : list bytes) : list (list tree) := foldl (add_tree ms) (replicate 8 []) (map Leaf cs).

Lemma pend_facts cs : (length cs < ms ^ 7)%nat ->
  length (pend_of cs) = 8%nat /\ weight ms (pend_of cs) = length cs /\
  Forall (fun p => length p < ms)%nat (pend_of cs) /\ last (pend_of cs) = Some [] /\
  Exists (fun p => S (length p) < ms)%nat (pend_of cs).
Proof.
  pose proof (max_shards_bounds l) as Hms.
  assert (Hex : forall P : list (list tree), last P = Some [] -> Exists (fun p => S (length p) < ms)%nat P).
  { intros P HP. apply last_Some in HP as (Q & ->). apply Exists_app. right. constructor. cbn [length]. lia. }
  induction cs as [|c cs IH] using rev_ind; intros Hlen.
  - assert (Hw0 : forall n, weight ms (replicate n []) = 0%nat).
    { induction n as [|n IHn]; [done|]. cbn [replicate weight length]. rewrite IHn. lia. }
    unfold pend_of. cbn [map foldl]. split_and!; [done|apply Hw0| |done|by apply Hex]. apply Forall_replicate. cbn [length]. lia.
  - rewrite length_app in Hlen. cbn [length] in Hlen. destruct IH as (I1 & I2 & I3 & I4 & I5); [lia|].
    unfold pend_of. rewrite map_app, foldl_app. cbn [map foldl]. fold (pend_of cs).
    assert (Hw : weight ms (add_tree ms (pend_of cs) (Leaf c)) = S (length cs)) by (rewrite add_tree_weight; [by rewrite I2|lia|done]).
    assert (Hlast : last (add_tree ms (pend_of cs) (Leaf c)) = Some []).
    { apply weight_top with ms; [lia| |].
      - intros E. apply (f_equal length) in E. rewrite add_tree_length, I1 in E. done.
      - rewrite Hw, add_tree_length, I1. cbn [Nat.sub]. lia. }
    split_and!; [by rewrite add_tree_length|rewrite Hw, length_app; cbn [length]; lia|apply add_tree_bound; [lia|done]|done|by apply Hex].
Qed.

Lemma cfg_new : cfg_ok (encoder_new l).
Proof.
  split; try done. split; cbn.
  - intros a. set_solver.
  - intros a w H. by apply not_elem_of_nil in H.
  - constructor.
Qed.

Lemma rel_new : rel (encoder_new l) 1 (replicate 8 []).
Proof.
  intros j ts Hj. apply lookup_replicate in Hj as [-> Hj]. split_and!.
  - cbn [levels encoder_new]. apply lookup_replicate_2. unfold MAX_LEVEL. lia.
  - intros _. cbn [rs_buf encoder_new]. apply lookup_replicate_2. unfold MAX_LEVEL. lia.
  - constructor.
Qed.

Lemma write_all_app e xs ys : write_all bmt e (xs ++ ys) = result_bind (write_all bmt e xs) (fun e => write_all bmt e ys).
Proof. revert e. induction xs as [|x xs IH]; intros e; [done|]. cbn. destruct (write bmt e x); [|done]. cbn. apply IH. Qed.

Lemma write_all_ok cs : (length cs < ms ^ 7)%nat -> Forall (fun c => (length c <= CHUNK_SIZE)%nat /\ all_bytes c) cs ->
  exists e, write_all bmt (encoder_new l) cs = Ok e /\ cfg_ok e /\ rel e 1 (pend_of cs) /\ full e = false.
Proof.
  induction cs as [|c cs IH] using rev_ind; intros Hlen Hcs.
  { exists (encoder_new l). split; [done|]. split; [apply cfg_new|]. split; [apply rel_new|done]. }
  pose proof (pend_facts (cs ++ [c]) Hlen) as (_ & _ & _ & Hlast & _).
  rewrite length_app in Hlen. cbn [length] in Hlen. apply Forall_app in Hcs as [Hcs [[Hc Hb] _]%Forall_cons].
  destruct IH as (e & E & C & Hrel & Hf); [lia|done|]. destruct (pend_facts cs ltac:(lia)) as (P1 & _ & P3 & _ & P5).
  destruct (write_ok e (pend_of cs) c C Hrel P1 Hf Hc Hb P3 P5) as (e' & E' & C' & Hrel' & _ & Hf').
  unfold pend_of in Hlast |- *. rewrite map_app, foldl_app in Hlast |- *. cbn [map foldl] in Hlast |- *. fold (pend_of cs) in Hlast |- *.
  exists e'. split; [|split; [done|split; [done|destruct Hf'; [done|contradiction]]]].
  rewrite write_all_app, E. cbn. by rewrite E'.
Qed.

(** ** Finishing *)

(** A partial level never fills with its parities. *)
Lemma partial_below n : l <> LNone -> (1 <= n < ms)%nat -> (n + parities l n < mc)%nat.
Proof.
  intros Hl Hn. assert (H : forallb (fun n => Nat.ltb (n + parities l n) mc) (seq 1 (ms - 1)) = true).
  { unfold mc. destruct l; [done|vm_compute; reflexivity..]. }
  rewrite forallb_forall in H. apply Nat.ltb_lt, H, in_seq. lia.
Qed.

(** Wrapping a level that is complete hands its node upwards. *)
Lemma wrap_up e k ts Q : (1 <= k <= 7)%nat -> (k + length Q = 8)%nat -> cfg_ok e -> (1 <= length ts <= ms)%nat ->
  levels e !! k = Some (mkLevelBuf (map entry_w (map wire ts ++ parity_wires l (map wire ts))) (length ts)) ->
  Forall (fun t => shape l t /\ stored e t) ts -> (forall w, w ∈ parity_wires l (map wire ts) -> addr bmt w ∈ seen e) ->
  rel e (S k) Q -> Forall (fun p => length p < ms)%nat Q -> Exists (fun p => S (length p) < ms)%nat Q ->
  exists e', wrap_level bmt (write_to_level bmt) e k = Ok e' /\ cfg_ok e' /\ rel e' (S k) (add_tree ms Q (Node ts)) /\ seen e ⊆ seen e'.
Proof.
  intros Hk Hlen C Hn Hlv Hts Hpar Hrel Hall Hex.
  destruct (wrap_feed (write_to_level bmt) e k ts C Hn Hlv Hts Hpar) as (e1 & (C1 & L1 & R1 & F1 & S1) & St & ->).
  destruct (feed_ok Q (write_to_level bmt) (S k) e1 (Node ts)) as (e2 & -> & Fr & Rel & _); try done; [lia|lia| | |].
  { apply (rel_eq e); [lia| | |done|done].
    - intros j Hj. rewrite L1, list_lookup_insert_ne by lia. done.
    - intros j Hj. by rewrite R1. }
  { split; [done|]. apply foldr_and_Forall. eapply Forall_impl; [exact Hts|]. by intros t [? _]. }
  cbn [result_bind]. eexists. split; [done|]. destruct (Nat.eqb (S k) MAX_LEVEL).
  - split; [apply cfg_set_full, Fr|]. split; [|cbn; etrans; [exact S1|apply Fr]]. by apply (rel_eq e2); [lia| | | |].
  - split; [apply Fr|]. split; [done|]. etrans; [exact S1|apply Fr].
Qed.

Lemma parity_none ts : l = LNone -> (1 <= length ts <= ms)%nat -> Forall (shape l) ts -> parity_wires l (map wire ts) = [].
Proof.
  intros Hl Hn Hsh. apply nil_length_inv. destruct (parity_codeword l (map wire ts)) as (_ & _ & -> & _); [by rewrite length_map| |by rewrite Hl].
  apply Forall_map. eapply Forall_impl; [exact Hsh|]. intros t Ht. by apply shape_good.
Qed.

(** A level of two or more subtrees becomes a node. *)
Lemma finish_node e k ts Q : (1 <= k <= 7)%nat -> (k + length Q = 8)%nat -> cfg_ok e ->
  (2 <= length ts <= ms)%nat -> (l <> LNone -> (length ts < ms)%nat) -> level_ok e k ts ->
  rel e (S k) Q -> Forall (fun p => length p < ms)%nat Q -> Exists (fun p => S (length p) < ms)%nat Q ->
  exists e', finish_level bmt e k = Ok e' /\ cfg_ok e' /\ rel e' (S k) (add_tree ms Q (Node ts)) /\ seen e ⊆ seen e'.
Proof.
  intros Hk Hlen C Hn Hlt Hlv Hrel Hall Hex. pose proof Hlv as (L & R & F). pose proof mc_128 as (_ & M1 & M2).
  assert (Hsh : Forall (shape l) ts) by (eapply Forall_impl; [exact F|]; by intros t [? _]).
  unfold finish_level. rewrite L. cbn [entries]. destruct (map (fun t => entry_w (wire t)) ts) as [|x [|y es]] eqn:Em.
  1, 2: apply (f_equal length) in Em; rewrite length_map in Em; cbn [length] in Em; lia.
  rewrite <- Em in L. rewrite <- Em. rewrite (co_children _ C), length_map. destruct (decide (l = LNone)) as [Hl|Hl].
  - pose proof (parity_none ts Hl ltac:(lia) Hsh) as Epw.
    assert (HL : levels e !! k = Some (mkLevelBuf (map entry_w (map wire ts ++ parity_wires l (map wire ts))) (length ts))).
    { rewrite Epw, app_nil_r, map_map. exact L. }
    destruct (wrap_up e k ts Q Hk Hlen C ltac:(lia) HL F) as (e' & E' & G); try done.
    { rewrite Epw. intros w Hw. by apply not_elem_of_nil in Hw. }
    exists e'. split; [|done]. destruct (Nat.eqb (length ts) mc); [done|].
    unfold rs_encode. rewrite (co_level _ C), bool_decide_eq_true_2 by done. done.
  - specialize (Hlt Hl). specialize (M1 Hl). rewrite (proj2 (Nat.eqb_neq _ _)) by lia.
    assert (Eb : rs_buf e !! (k - 1)%nat = Some (map pad (map wire ts))) by (rewrite (R Hl), map_map; done).
    destruct (rs_encode_parities (write_to_level bmt) k ltac:(lia) e ts Hl C ltac:(lia) Hsh Eb) as (-> & Hpg & Hpl & Hpos).
    set (e1 := set_rs e _). assert (C1 : cfg_ok e1) by (apply cfg_set_rs; [done|by rewrite length_insert]).
    destruct (parities_partial (write_to_level bmt) k (MAX_LEVEL + 2 - S k)
      ltac:(intros; unfold write_to_level; by rewrite (writes_step k) by lia) e1 (parity_wires l (map wire ts))
      (map (fun t => entry_w (wire t)) ts) (length ts) C1 Hpg L) as (e2 & -> & (C2 & L2 & R2 & F2 & S2) & A2).
    { rewrite length_map, Hpl. apply partial_below; lia || done. }
    cbn [result_bind]. assert (Hlk : (k < length (levels e))%nat) by (rewrite (co_levels _ C); lia).
    destruct (wrap_up e2 k ts Q Hk Hlen C2 ltac:(lia)) as (e3 & E3 & C3 & Rel3 & S3); try done.
    + rewrite L2. cbn. rewrite list_lookup_insert_eq by done. by rewrite map_app, map_map.
    + eapply Forall_impl; [exact F|]. intros t [? ?]. split; [done|]. by apply (stored_mono e).
    + apply (rel_eq e); [lia| | |done|done].
      * intros j Hj. rewrite L2. cbn. by rewrite list_lookup_insert_ne by lia.
      * intros j Hj. rewrite R2. cbn. by rewrite list_lookup_insert_ne by lia.
    + exists e3. split; [done|]. split; [done|]. split; [done|]. etrans; [exact S2|exact S3].
Qed.

(** A level of one subtree hands it upwards as it is. *)
Lemma carry_level e k c p Q : (1 <= k <= 7)%nat -> cfg_ok e -> level_ok e k [c] -> rel e (S k) (p :: Q) ->
  let e0 := set_levels e (<[k := empty_buf]> (levels e)) in
  carry_entry e k (entry_w (wire c)) = Some (set_levels e0
    (<[S k := mkLevelBuf (map (fun t => entry_w (wire t)) (p ++ [c])) (S (length p))]> (levels e0))).
Proof.
  intros Hk C Hlv Hrel e0. apply rel_cons in Hrel as [(L & _ & _) _]. unfold carry_entry.
  rewrite list_lookup_insert_ne, L by lia. cbn [push_entry entries effective]. by rewrite map_app.
Qed.

Lemma finish_single e k c : (1 <= k <= 7)%nat -> cfg_ok e -> level_ok e k [c] ->
  finish_level bmt e k = match carry_entry e k (entry_w (wire c)) with
    | None => Err EPanic | Some e => elevate_carrier_chunk bmt e (k - 1) end.
Proof.
  intros Hk C (L & _ & _). unfold finish_level. rewrite L. cbn [entries map length]. rewrite (co_children _ C).
  rewrite (proj1 mc_128). done.
Qed.

Lemma finish_carry e k c Q : (1 <= k <= 7)%nat -> (k + length Q = 8)%nat -> cfg_ok e -> level_ok e k [c] ->
  rel e (S k) Q -> Forall (fun p => length p < ms)%nat Q -> Exists (fun p => S (length p) < ms)%nat Q ->
  exists e', finish_level bmt e k = Ok e' /\ cfg_ok e' /\ seen e ⊆ seen e' /\
    ((l <> LNone /\ rel e' (S k) (add_tree ms Q c)) \/ (l = LNone /\ rel e' (S k) (push_raw Q c))).
Proof.
  intros Hk Hlen C Hlv Hrel Hall Hex. destruct Q as [|p Q]; [by apply Exists_nil in Hex|].
  rewrite (finish_single e k c Hk C Hlv), (carry_level e k c p Q Hk C Hlv Hrel). set (e0 := set_levels e _).
  assert (C0 : cfg_ok e0) by (apply cfg_set_levels; [done|by rewrite length_insert]).
  assert (Rel0 : rel e0 (S k) (p :: Q)).
  { apply (rel_eq e); [lia| |done|done|done]. intros j Hj. cbn. by rewrite list_lookup_insert_ne by lia. }
  destruct Hlv as (_ & R & [[Hsh Hst] _]%Forall_cons). set (e1 := set_levels e0 _).
  assert (C1 : cfg_ok e1) by (apply cfg_set_levels; [done|by rewrite length_insert]).
  unfold elevate_carrier_chunk. rewrite (co_level _ C1), (co_rs _ C1), (proj2 (Nat.leb_gt _ _)), orb_false_r by lia.
  pose proof mc_128 as (_ & M1 & _). apply Forall_cons in Hall as [Hp Hall]. case_bool_decide as Hl.
  - exists e1. split_and!; try done. right. split; [done|]. cbn [push_raw]. apply rel_cons in Rel0 as [(L0 & _ & F0) Rel0].
    apply rel_cons. split; [split_and!; [|done|]|].
    + cbn [levels e1 set_levels]. rewrite list_lookup_insert_eq by (by apply lookup_lt_Some in L0). by rewrite length_app, Nat.add_1_r.
    + apply Forall_app. split; [done|by constructor].
    + apply (rel_eq e0); [lia| |done|done|done]. intros j Hj. cbn. by rewrite list_lookup_insert_ne by lia.
  - specialize (M1 Hl). change (rs_buf e1) with (rs_buf e). rewrite (R Hl). cbn [map].
    rewrite (proj2 (Nat.ltb_lt _ _)) by lia. replace (S (k - 1)) with k by lia.
    destruct (feed_ok (p :: Q) (write_to_level bmt) (S k) e0 c) as (e2 & E2 & Fr & Rel2 & _); try done; [lia|cbn [length] in *; lia|by constructor|].
    exists e2. split; [|split; [apply Fr|split; [apply Fr|by left]]]. rewrite <- E2. unfold feed.
    apply rel_cons in Rel0 as [Hlv0 _]. rewrite (write_data (write_to_level bmt) (S k) ltac:(lia) (top_writes (S k)) e0 p c C0 Hlv0) by lia.
    rewrite (proj2 (Nat.eqb_neq _ _)) by lia. cbn [result_bind]. fold e1. cbn [Nat.sub]. rewrite Nat.sub_0_r.
    unfold chunk_write. rewrite (co_level _ C1), (co_rs _ C1), bool_decide_eq_false_2, (proj2 (Nat.leb_gt _ _)) by (done || lia).
    cbn [orb]. by rewrite resize_pad by (by apply shape_good).
Qed.

(** The levels folded bottom-up leave the closed tree at the top. *)
Lemma finish_ok P : forall k e c, (1 <= k)%nat -> (k + length P = 8)%nat -> Forall (fun p => length p < ms)%nat P -> cfg_ok e ->
  rel e k (add_tree ms (P ++ [[]]) c) \/ (l = LNone /\ rel e k (push_raw (P ++ [[]]) c)) ->
  exists e', finish_levels bmt e (seq k (8 - k)) = Ok e' /\ cfg_ok e' /\ rel e' 8 [[close c P]].
Proof.
  pose proof (max_shards_bounds l) as Hms.
  induction P as [|p P IH]; intros k e c Hk Hlen Hall C Hrel; cbn [length] in Hlen.
  { assert (k = 8%nat) as -> by lia. exists e. split; [done|]. split; [done|]. cbn [app add_tree push_raw close length] in *.
    rewrite (proj2 (Nat.eqb_neq _ _)) in Hrel by lia. by destruct Hrel as [?|[_ ?]]. }
  apply Forall_cons in Hall as [Hp Hall]. replace (8 - k)%nat with (S (8 - S k)) by lia. cbn [seq finish_levels app add_tree push_raw close] in *.
  assert (HQ : Forall (fun p => length p < ms)%nat (P ++ [[]]) /\ Exists (fun p => S (length p) < ms)%nat (P ++ [[]])).
  { split; [apply Forall_app; split; [done|]; constructor; [cbn [length]; lia|constructor]|].
    apply Exists_app. right. constructor. cbn [length]. lia. }
  destruct HQ as [HQ1 HQ2]. assert (HQl : (k + length (P ++ [[]]) = 8)%nat) by (rewrite length_app; cbn [length]; lia).
  assert (Hraw : rel e k ((p ++ [c]) :: P ++ [[]]) -> (l <> LNone -> S (length p) <> ms) ->
    exists e', result_bind (finish_level bmt e k) (fun e => finish_levels bmt e (seq (S k) (8 - S k))) = Ok e' /\ cfg_ok e' /\
      rel e' 8 [[close (match p with [] => c | _ => Node (p ++ [c]) end) P]]).
  { intros [Hlv Hup]%rel_cons Hne. destruct p as [|x p].
    - destruct (finish_carry e k c (P ++ [[]])) as (e1 & -> & C1 & _ & Hr1); try done; [lia|]. cbn [result_bind].
      apply IH; [lia|lia|done|done|]. destruct Hr1 as [[_ ?]|?]; [by left|by right].
    - destruct (finish_node e k ((x :: p) ++ [c]) (P ++ [[]])) as (e1 & -> & C1 & Rel1 & _); try done; [lia| | |].
      + rewrite length_app. cbn [length] in *. lia.
      + intros Hl. specialize (Hne Hl). rewrite length_app. cbn [length] in *. lia.
      + cbn [result_bind]. apply IH; [lia|lia|done|done|by left]. }
  destruct Hrel as [Hrel|[Hl Hrel]]; [|by apply Hraw].
  destruct (Nat.eqb_spec (S (length p)) ms) as [Heq|Hne]; [|by apply Hraw].
  apply rel_cons in Hrel as [(L & _ & _) Hup]. unfold finish_level. rewrite L. cbn [map entries result_bind].
  destruct p as [|x p]; [cbn [length] in Heq; lia|]. apply IH; [lia|lia|done|done|by left].
Qed.
End Sim.
