(* ===== verification/SplitTree.v ===== *)
(** * The tree the splitter builds is the object's tree

    The subtrees pending at trie level [h] are perfect trees of height [h]; closing
    them around the last chunk gives a well-formed tree whose content is the
    concatenation of the chunks and whose nodes have the reference counts a reader
    derives from their spans. *)
From Stdlib Require Import ZArith Lia.
From stdpp Require Import base tactics numbers countable strings list gmap.
From S2P Require Import Prelude Galois ReedSolomon Erasure Joiner JoinerProps ChunkTree Replicas Encoder EncoderSim.
Local Open Scope Z_scope.
Local Open Scope hov_scope.

(** ** Contents *)

(** The bytes of the pending subtrees, the highest level first. *)
Fixpoint flat (pend : list (list tree)) : bytes :=
  match pend with [] => [] | p :: rest => flat rest ++ concat (map content p) end.

Lemma concat_snoc (p : list tree) t : concat (map content (p ++ [t])) = concat (map content p) ++ content t.
Proof. rewrite map_app, concat_app. cbn. by rewrite app_nil_r. Qed.

Lemma add_tree_flat ms pend t : Exists (fun p => S (length p) < ms)%nat pend ->
  flat (add_tree ms pend t) = flat pend ++ content t.
Proof.
  intros Hex. revert t. induction Hex as [p rest Hp|p rest Hrest IH]; intros t; cbn [add_tree].
  - rewrite (proj2 (Nat.eqb_neq _ _)) by lia. cbn [flat]. by rewrite concat_snoc, app_assoc.
  - destruct (Nat.eqb _ _); cbn [flat]; [|by rewrite concat_snoc, app_assoc].
    rewrite IH. cbn [content map concat]. rewrite concat_snoc. by rewrite app_nil_r, app_assoc.
Qed.

Lemma close_content P c : content (close c P) = flat P ++ content c.
Proof.
  revert c. induction P as [|p P IH]; intros c; [done|]. cbn [close flat]. rewrite IH, <- app_assoc. f_equal.
  destruct p as [|x p]; [done|]. change (content (Node ((x :: p) ++ [c]))) with (concat (map content ((x :: p) ++ [c]))). apply concat_snoc.
Qed.

(** ** Perfect subtrees *)

Section Spec.
Context (l : Level).
Abbreviation ms := (max_shards l).

Fixpoint perfect (h : nat) (t : tree) : Prop :=
  match h, t with
  | O, Leaf p => length p = CHUNK_SIZE /\ all_bytes p
  | S h', Node ks => length ks = ms /\ foldr and True (map (perfect h') ks)
  | _, _ => False
  end.

Fixpoint perfects (h : nat) (pend : list (list tree)) : Prop :=
  match pend with [] => True | p :: rest => Forall (perfect h) p /\ perfects (S h) rest end.

Lemma add_tree_perfects pend : forall h t, perfects h pend -> perfect h t -> perfects h (add_tree ms pend t).
Proof.
  induction pend as [|p rest IH]; intros h t [] Ht || intros h t [Hp Hrest] Ht; [done|]. cbn [add_tree].
  assert (Hpt : Forall (perfect h) (p ++ [t])) by (apply Forall_app; split; [done|by constructor]).
  destruct (Nat.eqb_spec (S (length p)) ms) as [E|_]; [|done]. split; [constructor|]. apply IH; [done|].
  split; [rewrite length_app; cbn [length]; lia|by apply foldr_and_Forall].
Qed.

Lemma zsum_const (xs : list Z) v : Forall (fun x => x = v) xs -> zsum xs = Z.of_nat (length xs) * v.
Proof. induction 1 as [|x xs -> _ IH]; [done|]. cbn [zsum foldr length]. unfold zsum in IH. rewrite IH. lia. Qed.

Lemma zsum_app xs ys : zsum (xs ++ ys) = zsum xs + zsum ys.
Proof. induction xs as [|x xs IH]; [done|]. change (x + zsum (xs ++ ys) = x + zsum xs + zsum ys). rewrite IH. ring. Qed.

Lemma br_ms : br l = Z.of_nat ms.
Proof. unfold br. pose proof (max_shards_bounds l). lia. Qed.

Lemma perfect_size h : forall t, perfect h t -> size t = ref_size l h.
Proof.
  induction h as [|h IH]; intros [p|ks] Ht; try done.
  - destruct Ht as [Hp _]. cbn [size]. rewrite Hp. done.
  - destruct Ht as [Hl Hks%foldr_and_Forall]. cbn [size]. rewrite (zsum_const _ (ref_size l h)).
    + rewrite length_map, Hl, ref_size_S, br_ms. lia.
    + apply Forall_map. eapply Forall_impl; [exact Hks|]. intros t Ht. by apply IH.
Qed.

Lemma perfects_size h p : Forall (perfect h) p -> zsum (map size p) = Z.of_nat (length p) * ref_size l h.
Proof.
  intros Hp. rewrite (zsum_const _ (ref_size l h)); [by rewrite length_map|].
  apply Forall_map. eapply Forall_impl; [exact Hp|]. intros t Ht. by apply perfect_size.
Qed.

Lemma ref_size_mono i j : (i <= j)%nat -> ref_size l i <= ref_size l j.
Proof.
  induction 1 as [|j _ IH]; [done|]. rewrite ref_size_S. pose proof (br_bounds l). pose proof (ref_size_pos l j). nia.
Qed.

(** The reference count of a node whose children but the last have the full size. *)
Lemma reference_count_exact h d s : (2 <= d <= ms)%nat -> s < 2 ^ 56 ->
  (Z.of_nat d - 1) * ref_size l h < s <= Z.of_nat d * ref_size l h -> reference_count s l = Some (d, parities l d).
Proof.
  intros Hd Hs Hb. pose proof (ref_size_pos l h) as Hh. pose proof br_ms as Hbr.
  destruct (reference_count_spec l s ltac:(nia)) as (d' & k & -> & Hd' & Hle & Hlo & _ & Hk). specialize (Hk ltac:(nia)).
  assert (Hkh : k = h).
  { destruct (lt_eq_lt_dec k h) as [[Hlt|E]|Hlt]; [exfalso|done|exfalso].
    - pose proof (ref_size_mono (S k) h Hlt) as Hm. rewrite ref_size_S, Hbr in Hm. pose proof (ref_size_pos l k). nia.
    - pose proof (ref_size_mono (S h) k Hlt) as Hm. rewrite ref_size_S, Hbr in Hm. nia. }
  subst k. destruct Hlo as [->|Hlo]; [nia|]. assert (d' = d) as -> by nia. done.
Qed.

Lemma node_wf h p c : (1 <= length p < ms)%nat -> Forall (perfect h) p -> Forall (wf l) p -> wf l c ->
  0 < size c <= ref_size l h -> zsum (map size (p ++ [c])) < 2 ^ 56 -> wf l (Node (p ++ [c])).
Proof.
  intros Hp Hperf Hwf Hc Hsz Hlt. cbn [wf]. rewrite length_app. cbn [length]. rewrite Nat.add_1_r.
  assert (Es : zsum (map size (p ++ [c])) = Z.of_nat (length p) * ref_size l h + size c).
  { rewrite map_app, zsum_app, (perfects_size h) by done. cbn. lia. }
  pose proof (ref_size_pos l h). split_and!; [lia|lia|nia|done| |].
  - apply (reference_count_exact h); [lia|done|]. rewrite Es. nia.
  - apply foldr_and_Forall, Forall_app. split; [done|by constructor].
Qed.

Lemma perfect_wf h : forall t, perfect h t -> size t < 2 ^ 56 -> wf l t.
Proof.
  pose proof (max_shards_bounds l) as Hms.
  induction h as [|h IH]; intros [p|ks] Ht Hs; try done; [destruct Ht as [? ?]; split; [lia|done]|].
  destruct Ht as [Hl Hks%foldr_and_Forall]. destruct (exists_last (l := ks)) as (p & c & ->); [intros ->; cbn [length] in Hl; lia|].
  rewrite length_app in Hl. cbn [length] in Hl. cbn [size] in Hs. apply Forall_app in Hks as [Hp [Hc _]%Forall_cons].
  pose proof (ref_size_pos l h). pose proof (perfect_size h c Hc) as Ec.
  assert (Es : zsum (map size (p ++ [c])) = (Z.of_nat (length p) + 1) * ref_size l h).
  { rewrite map_app, zsum_app, (perfects_size h) by done. cbn. lia. }
  apply (node_wf h); try done; [lia| |apply IH; [done|nia]|lia].
  apply Forall_forall. intros t Ht. rewrite Forall_forall in Hp. apply IH; [by apply Hp|]. rewrite (perfect_size h t) by (by apply Hp). nia.
Qed.

(** Closing perfect subtrees around a last subtree that is not larger. *)
Lemma close_wf P : forall h c, perfects h P -> Forall (fun p => length p < ms)%nat P -> wf l c -> 0 < size c <= ref_size l h ->
  size (close c P) < 2 ^ 56 -> wf l (close c P).
Proof.
  induction P as [|p P IH]; intros h c Hperf Hlt Hc Hsz Hs; [done|]. destruct Hperf as [Hp HP]. apply Forall_cons in Hlt as [Hpl Hlt].
  pose proof (ref_size_pos l h). pose proof (br_bounds l) as Hbr. pose proof br_ms as Ebr.
  assert (Hup : forall t, size t <= size (close t P)).
  { intros t. rewrite !size_content, close_content, length_app. lia. }
  cbn [close] in *. destruct p as [|x p].
  - apply (IH (S h)); try done. rewrite ref_size_S. nia.
  - set (q := x :: p) in *. assert (Hq : (1 <= length q)%nat) by (cbn [length q]; lia).
    assert (Es : size (Node (q ++ [c])) = Z.of_nat (length q) * ref_size l h + size c).
    { cbn [size]. rewrite map_app, zsum_app, (perfects_size h) by done. cbn. lia. }
    pose proof (Hup (Node (q ++ [c]))) as Hle.
    apply (IH (S h)); try done; [|rewrite ref_size_S, Es, Ebr; nia].
    apply (node_wf h); try done; [|cbn [size] in Es, Hle; lia].
    apply Forall_forall. intros t Ht. rewrite Forall_forall in Hp. apply (perfect_wf h); [by apply Hp|].
    rewrite (perfect_size h t) by (by apply Hp). nia.
Qed.

(** ** Depth *)

Lemma depth_le ks n : Forall (fun t => depth t <= n)%nat ks -> (depth (Node ks) <= S n)%nat.
Proof. intros H. cbn [depth]. apply le_n_S. induction H as [|t ks Ht _ IH]; cbn; lia. Qed.

Lemma perfect_depth h : forall t, perfect h t -> (depth t <= h)%nat.
Proof.
  induction h as [|h IH]; intros [p|ks] Ht; try done. destruct Ht as [_ Hks%foldr_and_Forall].
  apply depth_le. eapply Forall_impl; [exact Hks|]. auto.
Qed.

Lemma close_depth P : forall h c, perfects h P -> (depth c <= h)%nat -> (depth (close c P) <= h + length P)%nat.
Proof.
  induction P as [|p P IH]; intros h c Hperf Hc; cbn [close length]; [lia|]. destruct Hperf as [Hp HP].
  rewrite Nat.add_succ_r, <- Nat.add_succ_l. apply IH; [done|]. destruct p as [|x p]; [lia|].
  apply depth_le, Forall_app. split; [|by constructor]. eapply Forall_impl; [exact Hp|]. intros t. apply perfect_depth.
Qed.
End Spec.
