(* ===== verification/SplitJoin.v ===== *)
(** * Splitting and joining back

    The composition of the splitter and the joiner: the result of a split, the tree
    it stands for, and what a reader gets back from the chunks that are left. *)
From Stdlib Require Import ZArith Lia.
From stdpp Require Import base tactics numbers countable strings list gmap.
From S2P Require Import Prelude Galois ReedSolomon Erasure Joiner JoinerProps ChunkTree Replicas ReplicasProps Encoder EncoderSim SplitTree.
Local Open Scope Z_scope.
Local Open Scope hov_scope.

(** ** Chunks of the data *)

Lemma slice_chunks_shape n data : data <> [] -> (length data <= n)%nat -> all_bytes data ->
  exists init c, slice_chunks n data = init ++ [c] /\ concat init ++ c = data /\
    Forall (fun p => length p = CHUNK_SIZE /\ all_bytes p) init /\ (1 <= length c <= CHUNK_SIZE)%nat /\ all_bytes c.
Proof.
  revert data. induction n as [|n IH]; intros data Hne Hn Hb; [destruct data; [done|cbn [length] in Hn; lia]|].
  assert (Hlen : (1 <= length data)%nat) by (destruct data; [done|cbn [length]; lia]).
  assert (Hs : slice_chunks (S n) data = take CHUNK_SIZE data :: slice_chunks n (drop CHUNK_SIZE data)) by (destruct data; done).
  rewrite Hs. assert (HC : (1 <= CHUNK_SIZE)%nat) by (apply Nat.leb_le; by vm_compute).
  destruct (decide (length data <= CHUNK_SIZE)%nat) as [Hsm|Hbig].
  - exists [], data. rewrite take_ge, drop_ge by done. split; [by destruct n|]. split; [done|]. split; [constructor|]. split; [lia|done].
  - destruct (IH (drop CHUNK_SIZE data)) as (init & c & E & Hc & Hi & Hl & Hcb).
    + intros E. apply (f_equal length) in E. rewrite length_drop in E. cbn [length] in E. lia.
    + rewrite length_drop. lia.
    + by apply Forall_drop.
    + exists (take CHUNK_SIZE data :: init), c. rewrite E. split; [done|]. cbn [concat]. rewrite <- app_assoc, Hc, take_drop.
      split; [done|]. split; [|done]. constructor; [|done]. split; [rewrite length_take; lia|by apply Forall_take].
Qed.

(** The chunks a split writes: one empty chunk for no data. *)
Definition data_chunks (data : bytes) : list bytes :=
  match data with [] => [[]] | _ => slice_chunks (length data) data end.

(** The reference tree of an object. *)
Definition tree_of (l : Level) (data : bytes) : tree :=
  let cs := data_chunks data in
  close (Leaf (default [] (last cs))) (take 7 (pend_of l (removelast cs))).

Lemma data_chunks_shape data : all_bytes data ->
  exists init c, data_chunks data = init ++ [c] /\ concat init ++ c = data /\
    Forall (fun p => length p = CHUNK_SIZE /\ all_bytes p) init /\ (length c <= CHUNK_SIZE)%nat /\ all_bytes c /\
    (init = [] \/ (1 <= length c)%nat).
Proof.
  intros Hb. destruct data as [|x data].
  { exists [], []. split; [done|]. split; [done|]. split; [constructor|]. cbn [length]. split; [lia|]. split; [constructor|by left]. }
  destruct (slice_chunks_shape (length (x :: data)) (x :: data)) as (init & c & E & ?&?&?&?); try done.
  exists init, c. split; [exact E|]. split_and!; try done; [lia|right; lia].
Qed.

Section Tree.
Context (l : Level).
Abbreviation ms := (max_shards l).

(** The pending subtrees below the top, which stays empty. *)
Lemma pend_split cs : (length cs < ms ^ 7)%nat ->
  pend_of l cs = take 7 (pend_of l cs) ++ [[]] /\ length (take 7 (pend_of l cs)) = 7%nat.
Proof.
  intros Hlen. destruct (pend_facts l cs Hlen) as (H1 & _ & _ & H4 & _). apply last_Some in H4 as (Q & E). rewrite E in H1 |- *.
  rewrite length_app in H1. cbn [length] in H1. rewrite take_app_length' by lia. split; [done|lia].
Qed.

Lemma pend_perfects cs : (length cs < ms ^ 7)%nat -> Forall (fun p => length p = CHUNK_SIZE /\ all_bytes p) cs ->
  perfects l 0 (pend_of l cs) /\ flat (pend_of l cs) = concat cs.
Proof.
  induction cs as [|c cs IH] using rev_ind; intros Hlen Hcs.
  { split; [|done]. unfold pend_of. cbn [map foldl]. repeat split; constructor. }
  rewrite length_app in Hlen. cbn [length] in Hlen. apply Forall_app in Hcs as [Hcs [Hc _]%Forall_cons].
  destruct IH as [I1 I2]; [lia|done|]. destruct (pend_facts l cs ltac:(lia)) as (_ & _ & _ & _ & P5).
  unfold pend_of. rewrite map_app, foldl_app. cbn [map foldl]. fold (pend_of l cs). split.
  - by apply add_tree_perfects.
  - rewrite add_tree_flat, I2, concat_app by done. cbn. by rewrite app_nil_r.
Qed.

Lemma perfects_app h P Q : perfects l h (P ++ Q) -> perfects l h P.
Proof. revert h. induction P as [|p P IH]; intros h; [done|]. intros [? ?]. split; [done|by eapply IH]. Qed.

Lemma flat_top P : flat (P ++ [[]]) = flat P.
Proof. induction P as [|p P IH]; [done|]. cbn [app flat]. by rewrite IH. Qed.

(** The reference tree: its content is the data, and a reader can derive it. *)
Lemma tree_of_ok data : all_bytes data -> (length (data_chunks data) <= ms ^ 7)%nat -> Z.of_nat (length data) < 2 ^ 56 ->
  content (tree_of l data) = data /\ wf l (tree_of l data) /\ (depth (tree_of l data) <= 7)%nat.
Proof.
  intros Hb Hlen Hsz. unfold tree_of. destruct (data_chunks_shape data Hb) as (init & c & E & Hc & Hi & Hcl & Hcb & Hne).
  rewrite E in *. rewrite last_snoc, removelast_last. change (default [] (Some c)) with c. rewrite length_app in Hlen. cbn [length] in Hlen.
  destruct (pend_split init ltac:(lia)) as [Ep El]. destruct (pend_perfects init ltac:(lia) Hi) as [Pp Pf].
  destruct (pend_facts l init ltac:(lia)) as (_ & _ & P3 & _). set (P := take 7 (pend_of l init)) in *. rewrite Ep in Pp, Pf, P3.
  rewrite flat_top in Pf. apply perfects_app in Pp. apply Forall_app in P3 as [P3 _].
  assert (Hcont : content (close (Leaf c) P) = data) by (rewrite close_content, Pf; done).
  split_and!; [done| |].
  - destruct Hne as [->|Hne].
    + assert (P = replicate 7 []) as -> by done. cbn [close replicate]. split; done.
    + apply (close_wf l P 0); try done; [cbn [size]; change (ref_size l 0) with 4096; change CHUNK_SIZE with 4096%nat in Hcl; lia|].
      by rewrite size_content, Hcont.
  - pose proof (close_depth l P 0 (Leaf c) Pp (Nat.le_refl 0)) as H. lia.
Qed.
End Tree.

(** ** Chunk lists as stores *)

Lemma find_chunk_elem a o w : find_chunk a o = Some w -> (a, w) ∈ o.
Proof.
  induction o as [|[b w'] o IH]; [done|]. cbn. case_bool_decide as E; [|intros; by right; apply IH].
  intros H. assert (w' = w) as -> by congruence. subst b. left.
Qed.

Lemma find_chunk_some a o : a ∈ map fst o -> exists w, find_chunk a o = Some w.
Proof.
  induction o as [|[b w] o IH]; intros Ha; [by apply not_elem_of_nil in Ha|]. cbn in *. case_bool_decide as E; [by eexists|].
  apply elem_of_cons in Ha as [->|Ha]; [done|auto].
Qed.

Lemma find_chunk_app a o o' w : find_chunk a o = Some w -> find_chunk a (o ++ o') = Some w.
Proof. induction o as [|[b x] o IH]; [done|]. cbn. case_bool_decide; auto. Qed.

Lemma find_chunk_app_r a o o' : a ∉ map fst o -> find_chunk a (o ++ o') = find_chunk a o'.
Proof.
  induction o as [|[b x] o IH]; [done|]. cbn. rewrite not_elem_of_cons. intros [Hne Ha]. rewrite bool_decide_eq_false_2 by done. auto.
Qed.

(** A store that keeps what was split, less what was lost. *)
Definition store_of (cs : list (bytes * bytes)) (lost : bytes -> bool) (a : bytes) : result bytes str :=
  if lost a then Err (lit "not found") else match find_chunk a cs with Some w => Ok w | None => Err (lit "not found") end.

(** The replicas follow the chunks already there; each is kept once. *)
Lemma add_replicas_ext rs o s n : (forall a, a ∈ map fst o -> a ∈ s) ->
  exists ext n', add_replicas rs o s n = (o ++ ext, n') /\ ext ⊆ rs /\
    forall a, a ∈ map fst rs -> a ∉ s -> a ∈ map fst ext.
Proof.
  revert o s n. induction rs as [|[a w] rs IH]; intros o s n Hs; cbn [add_replicas].
  { exists [], n. rewrite app_nil_r. split; [done|]. split; [done|]. intros a Ha. by apply not_elem_of_nil in Ha. }
  case_bool_decide as Hin.
  - destruct (IH o s n Hs) as (ext & n' & -> & Hsub & Hall). exists ext, n'. split; [done|]. split; [set_solver|].
    intros b Hb Hnb. cbn in Hb. apply elem_of_cons in Hb as [->|Hb]; [done|auto].
  - destruct (IH (o ++ [(a, w)]) ({[a]} ∪ s) (S n)) as (ext & n' & -> & Hsub & Hall).
    { intros b. rewrite map_app, elem_of_app. cbn. rewrite list_elem_of_singleton. set_solver. }
    exists ((a, w) :: ext), n'. rewrite <- app_assoc. split; [done|]. split; [set_solver|].
    intros b Hb Hnb. cbn in *. rewrite elem_of_cons in *. destruct (decide (b = a)) as [->|Hne]; [by left|right].
    destruct Hb as [?|Hb]; [done|]. apply Hall; [done|set_solver].
Qed.

Section Run.
Context (bmt : Z -> bytes -> bytes) (keccak256 : bytes -> bytes).
Context (content_chunk : bytes -> result bytes str) (new_replica : Z -> bytes -> result (bytes * bytes) str).
Context (l : Level) (Hbmt : forall s b, length (bmt s b) = HASH_SIZE /\ all_bytes (bmt s b)).

Abbreviation addr := (addr bmt).
Abbreviation wire := (wire bmt l).
Abbreviation ms := (max_shards l).
Abbreviation split data := (split_with_redundancy bmt keccak256 content_chunk new_replica data l).
Abbreviation replicas := (dispersed_replicas keccak256 content_chunk new_replica).

Lemma split_writes data init c : data_chunks data = init ++ [c] ->
  split data = (let? e := write_all bmt (encoder_new l) init in let? e := write bmt e c in
    finish bmt keccak256 content_chunk new_replica e).
Proof.
  intros E. unfold split_with_redundancy. destruct data as [|x data].
  - cbn [data_chunks] in E. destruct init as [|i init]; [|destruct init; done].
    assert (c = []) as -> by (injection E; done). done.
  - cbn [data_chunks] in E. rewrite E, write_all_app. destruct (write_all bmt (encoder_new l) init) as [e|]; [|done].
    cbn [result_bind write_all]. by destruct (write bmt e c).
Qed.

(** What finishing returns for the tree at the top level. *)
Lemma finish_root e t e' : finish_levels bmt e (seq 1 7) = Ok e' -> cfg_ok bmt l e' -> rel bmt l e' 8 [[t]] ->
  exists w, find_chunk (addr (wire t)) (out e') = Some w /\ addr w = addr (wire t) /\ good_wire w /\
    finish bmt keccak256 content_chunk new_replica e = (let? reps := map_err Replica (replicas w l) in
      let '(o, n) := add_replicas reps (out e') (seen e') 0 in Ok (mkSplit (addr (wire t)) o (parity_chunks e') n)).
Proof.
  intros Hf C [(L & _ & F) _]%rel_cons. apply Forall_cons in F as [[_ Hst] _].
  assert (Hin : addr (wire t) ∈ seen e').
  { apply Hst. destruct t; cbn [chunks_of]; [by left|]. rewrite !elem_of_app, list_elem_of_singleton. tauto. }
  destruct (co_out _ _ _ C) as [O1 O2 _]. apply O1, find_chunk_some in Hin as [w Hw]. exists w. split; [done|].
  destruct (O2 _ _ (find_chunk_elem _ _ _ Hw)) as [Ha Hg]. split_and!; [done|done|]. unfold finish.
  change (MAX_LEVEL - 1)%nat with 7%nat. rewrite Hf. cbn [result_bind]. change MAX_LEVEL with 8%nat. rewrite L. cbn [map entry_w reference].
  rewrite Hw, (co_level _ _ _ C). done.
Qed.

(** A split within the capacity of the trie stores every chunk of the reference tree
    and returns its root. *)
Lemma split_tree data : all_bytes data -> (length (data_chunks data) <= ms ^ 7)%nat ->
  exists e w, out_ok bmt e /\ stored bmt l e (tree_of l data) /\ find_chunk (addr (wire (tree_of l data))) (out e) = Some w /\
    addr w = addr (wire (tree_of l data)) /\ good_wire w /\
    split data = (let? reps := map_err Replica (replicas w l) in
      let '(o, n) := add_replicas reps (out e) (seen e) 0 in Ok (mkSplit (addr (wire (tree_of l data))) o (parity_chunks e) n)).
Proof.
  intros Hb Hlen. destruct (data_chunks_shape data Hb) as (init & c & E & Hc & Hi & Hcl & Hcb & _). rewrite (split_writes data init c E).
  unfold tree_of. rewrite E in Hlen |- *. rewrite last_snoc, removelast_last. change (default [] (Some c)) with c.
  rewrite length_app in Hlen. cbn [length] in Hlen.
  destruct (write_all_ok bmt l Hbmt init) as (e & -> & C & Hrel & Hfull); [lia| |].
  { eapply Forall_impl; [exact Hi|]. intros p [Hp ?]. split; [lia|done]. }
  cbn [result_bind]. destruct (pend_facts l init ltac:(lia)) as (P1 & _ & P3 & _ & P5).
  destruct (write_ok bmt l Hbmt e (pend_of l init) c C Hrel P1 Hfull Hcl Hcb P3 P5) as (e1 & -> & C1 & Hrel1 & _).
  cbn [result_bind]. destruct (pend_split l init ltac:(lia)) as [Ep El]. set (P := take 7 (pend_of l init)) in *. rewrite Ep in Hrel1, P3.
  apply Forall_app in P3 as [P3 _].
  destruct (finish_ok bmt l Hbmt P 1 e1 (Leaf c)) as (e2 & Ef & C2 & Hrel2); try done; [lia|by left|].
  destruct (finish_root e1 _ e2 Ef C2 Hrel2) as (w & Hw & Ha & Hg & Hfin). exists e2, w.
  split; [apply C2|]. split_and!; try done. apply rel_cons in Hrel2 as [(_ & _ & [[_ ?] _]%Forall_cons) _]. done.
Qed.

(** ** What is lost and what is left *)

(** For every node, at least as many siblings are left as it has data children. *)
Fixpoint tolerable (lost : bytes -> bool) (t : tree) : Prop :=
  match t with
  | Leaf _ => True
  | Node ks =>
      (length ks <= length (List.filter (fun w => negb (lost (addr w))) (map wire ks ++ parity_wires l (map wire ks))))%nat /\
      foldr and True (map (tolerable lost) ks)
  end.

(** The hash separates the chunks at hand: no chunk of the tree shares its address
    with another chunk that was written, and none hashes to zero. *)
Definition separated (t : tree) (cs : list (bytes * bytes)) : Prop :=
  (forall w a w', w ∈ chunks_of bmt l t -> (a, w') ∈ cs -> addr w = addr w' -> w = w') /\
  forall w, w ∈ chunks_of bmt l t -> addr w <> replicate HASH_SIZE 0.

Lemma wire_in_chunks t : wire t ∈ chunks_of bmt l t.
Proof. destruct t; cbn [chunks_of]; [by left|]. rewrite !elem_of_app, list_elem_of_singleton. tauto. Qed.

Lemma kid_chunks ks t : t ∈ ks -> forall w, w ∈ chunks_of bmt l t -> w ∈ chunks_of bmt l (Node ks).
Proof.
  intros Ht w Hw. cbn [chunks_of]. rewrite elem_of_app. left. apply list_elem_of_In, in_concat.
  exists (chunks_of bmt l t). split; [by apply in_map, list_elem_of_In|by apply list_elem_of_In].
Qed.

Lemma sibling_chunks ks w : w ∈ map wire ks ++ parity_wires l (map wire ks) -> w ∈ chunks_of bmt l (Node ks).
Proof.
  intros [Hw|Hw]%elem_of_app.
  - apply list_elem_of_fmap in Hw as (t & -> & Ht). apply (kid_chunks ks t Ht), wire_in_chunks.
  - cbn [chunks_of]. rewrite !elem_of_app. tauto.
Qed.

(** A store of the tree's chunks keeps the object available. *)
Lemma store_available cs lost t : (forall w, w ∈ chunks_of bmt l t -> find_chunk (addr w) cs = Some w) ->
  (forall w, w ∈ chunks_of bmt l t -> addr w <> replicate HASH_SIZE 0) -> tolerable lost t ->
  available bmt l (store_of cs lost) t.
Proof.
  induction t as [p|ks IH] using tree_nested; intros Hk Hz Ht; [done|]. destruct Ht as [Hcnt Hks%foldr_and_Forall]. split.
  - set (sib := map wire ks ++ parity_wires l (map wire ks)) in *.
    assert (Hs : forall w, w ∈ sib -> store_of cs lost (addr w) = if lost (addr w) then Err (lit "not found") else Ok w).
    { intros w Hw. unfold store_of. by rewrite (Hk w) by (by apply sibling_chunks). }
    split_and!.
    + intros w Hw. rewrite (Hs w Hw). destruct (lost (addr w)); [by right|by left].
    + rewrite length_map. etrans; [exact Hcnt|]. fold sib. apply Nat.eq_le_incl. f_equal. apply filter_ext_in.
      intros w Hw. rewrite (Hs w) by (by apply list_elem_of_In). by destruct (lost (addr w)).
    + unfold node_refs. fold sib. intros E. apply last_Some_elem_of, list_elem_of_fmap in E as (w & E & Hw).
      apply (Hz w); [by apply sibling_chunks|done].
  - apply foldr_and_Forall, Forall_forall. intros t Ht. rewrite Forall_forall in IH, Hks.
    apply IH; [done| | |by apply Hks]; intros w Hw; [apply Hk|apply Hz]; by apply (kid_chunks ks t Ht).
Qed.

(** Every chunk of the tree is found in what was written. *)
Lemma split_keeps e ext t : out_ok bmt e -> stored bmt l e t -> separated t (out e ++ ext) ->
  forall w, w ∈ chunks_of bmt l t -> find_chunk (addr w) (out e ++ ext) = Some w.
Proof.
  intros [O1 O2 _] Hst [Hsep _] w Hw. destruct (find_chunk_some (addr w) (out e)) as [w' Hw']; [by apply O1, Hst|].
  rewrite (find_chunk_app _ _ ext _ Hw'). f_equal. symmetry. pose proof (find_chunk_elem _ _ _ Hw') as Hin.
  apply (Hsep w (addr w) w'); [done|apply elem_of_app; by left|]. symmetry. by apply (O2 _ _ Hin).
Qed.

(** The library calls that build replicas: the address of a content chunk, and a
    single-owner chunk that wraps it at the mined address. *)
Context (Hkec : forall b, is_byte (keccak256 b !!! 0%nat)).
Context (Hcc : forall w, good_wire w -> content_chunk w = Ok (addr w)).
Context (Hnr : forall i w, good_wire w -> exists pre, length pre = SOC_PREFIX /\
  new_replica i w = Ok (keccak256 (<[0%nat := i]> (addr w) ++ REPLICAS_OWNER), pre ++ w)).

Lemma replicas_ok w : good_wire w -> exists reps, replicas w l = Ok reps /\
  map fst reps = replica_addresses keccak256 (addr w) l /\
  Forall (fun r => exists pre, length pre = SOC_PREFIX /\ r.2 = pre ++ w) reps.
Proof.
  intros Hg. unfold dispersed_replicas, replica_addresses. case_bool_decide as Hl; [by exists []|].
  rewrite (Hcc w Hg). cbn [result_bind]. destruct (run_facts keccak256 Hkec (addr w) l Hl) as [_ Hrun].
  induction Hrun as [|c cs (m & Hm & ->) _ IH]; [by exists []|]. cbn [build_replicas mined c_addr replicate_at map].
  destruct (Hnr m w Hg) as (pre & Hpre & ->). cbn [result_bind fst]. rewrite bool_decide_eq_false_2 by (intros H; by apply H).
  destruct IH as (reps & -> & Hf & Hall). cbn [result_bind]. eexists. split; [done|]. cbn [map fst]. rewrite Hf. split; [done|].
  constructor; [by exists pre|done].
Qed.

(** The result of a split, with the chunks of its tree and the replicas of its root. *)
Lemma split_result data : all_bytes data -> (length (data_chunks data) <= ms ^ 7)%nat ->
  exists so e w ext, split data = Ok so /\ root so = addr (wire (tree_of l data)) /\ chunks so = out e ++ ext /\
    out_ok bmt e /\ stored bmt l e (tree_of l data) /\
    find_chunk (root so) (out e) = Some w /\ addr w = root so /\
    Forall (fun r => exists pre, length pre = SOC_PREFIX /\ r.2 = pre ++ w) ext /\
    forall a, a ∈ replica_addresses keccak256 (root so) l -> a ∈ map fst (out e ++ ext).
Proof.
  intros Hb Hlen. destruct (split_tree data Hb Hlen) as (e & w & Ho & Hst & Hw & Ha & Hg & ->).
  destruct (replicas_ok w Hg) as (reps & -> & Hf & Hall). cbn [map_err result_bind]. destruct Ho as [O1 O2 O3].
  destruct (add_replicas_ext reps (out e) (seen e) 0) as (ext & n & -> & Hsub & Hext); [intros a; apply O1|].
  eexists _, e, w, ext. split; [done|]. cbn [root chunks]. split_and!; try done.
  - rewrite Forall_forall in Hall |- *. intros r Hr. by apply Hall, Hsub.
  - intros a Hin. rewrite map_app, elem_of_app. destruct (decide (a ∈ seen e)) as [Hs|Hs]; [left; by apply O1|right].
    apply Hext; [|done]. by rewrite Hf, Ha.
Qed.


End Run.

(** ** Concrete runs *)

(** A hash of the span alone, and library calls over it. *)
Definition span_hash (s : Z) (b : bytes) : bytes := to_le_bytes 32 (s + 1).
Definition hash_chunk (w : bytes) : result bytes str := Ok (addr span_hash w).
Definition wrap_chunk (i : Z) (w : bytes) : result (bytes * bytes) str :=
  Ok (first_byte (<[0%nat := i]> (addr span_hash w) ++ REPLICAS_OWNER), replicate SOC_PREFIX 0 ++ w).

Lemma span_hash_ok s b : length (span_hash s b) = HASH_SIZE /\ all_bytes (span_hash s b).
Proof. split; [apply to_le_bytes_length|apply to_le_bytes_bytes]. Qed.

Lemma wrap_chunk_ok i w : exists pre, length pre = SOC_PREFIX /\
  wrap_chunk i w = Ok (first_byte (<[0%nat := i]> (addr span_hash w) ++ REPLICAS_OWNER), pre ++ w).
Proof. by exists (replicate SOC_PREFIX 0). Qed.

Definition sample : bytes := replicate 4096 1 ++ replicate 904 2.
Definition sample_split : result SplitOutput EncodeError :=
  split_with_redundancy span_hash first_byte hash_chunk wrap_chunk sample Medium.

Lemma sample_bytes : all_bytes sample.
Proof. apply Forall_app. split; apply Forall_replicate; by cbv. Qed.

Lemma sample_fits : (length (data_chunks sample) <= max_shards Medium ^ 7)%nat.
Proof.
  assert (E : length (data_chunks sample) = 2%nat) by (vm_compute; reflexivity). rewrite E. pose proof (max_shards_bounds Medium) as H.
  revert H. generalize (max_shards Medium). intros m Hm. pose proof (Nat.pow_le_mono_r m 1 7 ltac:(lia) ltac:(lia)). rewrite Nat.pow_1_r in *. lia.
Qed.

(** Boolean checks of the hypotheses. *)
Definition separated_b (ws : list bytes) (cs : list (bytes * bytes)) : bool :=
  forallb (fun w => negb (bool_decide (addr span_hash w = replicate HASH_SIZE 0)) &&
    forallb (fun aw => negb (bool_decide (addr span_hash w = addr span_hash aw.2)) || bool_decide (w = aw.2)) cs) ws.

Lemma separated_b_ok t cs : separated_b (chunks_of span_hash Medium t) cs = true -> separated span_hash Medium t cs.
Proof.
  unfold separated_b. rewrite forallb_forall. intros H. split.
  - intros w a w' Hw Haw E. specialize (H w). rewrite <- list_elem_of_In, andb_true_iff, forallb_forall in H. destruct (H Hw) as [_ Hc].
    specialize (Hc (a, w')). rewrite <- list_elem_of_In in Hc. specialize (Hc Haw). cbn [snd] in Hc.
    rewrite orb_true_iff, bool_decide_eq_true, (bool_decide_eq_true_2 _ E) in Hc. by destruct Hc.
  - intros w Hw E. specialize (H w). rewrite <- list_elem_of_In, andb_true_iff in H. destruct (H Hw) as [Hc _].
    by rewrite (bool_decide_eq_true_2 _ E) in Hc.
Qed.

(** Two data chunks and three parities: any three of the five may be lost. *)
Definition lose (as_ : list Z) (a : bytes) : bool := bool_decide (from_le_bytes a ∈ as_).


