(* ===== verification/Download.v ===== *)
(** * Downloading ([src/src/client.rs]: references, files, paths, feeds)

    The composition the client serves a reference with: resolve a feed to its current
    root, walk the manifest to the entry of a path, and join the entry's chunks.  The
    networked store ([Retrieval]) appears as the function [wires], what a fetch of an
    address answers (its cache makes the answer of an address stable within a
    request); a recovered root is put over it, as [seed_wire] puts it in the cache.

    Parameters: the chunk types of nectar ([content_try], [soc_try]: parsing wire bytes
    into a content or a single-owner chunk), its plain joiner, the hashes, the order in
    which fetches complete, serde's metadata parser, and the answers of the network to
    the probes of a feed ([probe], which has its own deadline).  [None] is the lack of
    fuel of a walk. *)
From Stdlib Require Import ZArith Lia.
From stdpp Require Import base tactics numbers countable strings list gmap.
From S2P Require Import Prelude Codec Signer Erasure Feed Manifest ManifestProps Joiner JoinerProps ChunkTree Replicas ReplicasProps Retrieval Encoder EncoderSim SplitTree SplitJoin.
Local Open Scope Z_scope.
Local Open Scope hov_scope.

(** A parsed chunk: its address, its span and its data. *)
Record AnyChunk := mkAny { ch_address : bytes; ch_span : Z; ch_data : bytes }.

Inductive ClientError :=
| BadHex (e : str) | BadHashLen (n : nat) | CeManifest (e : WalkError) | CeFeed (e : FeedError) | CeResolve (e : ResolveError)
| CeErasure (e : ErasureError) | CeJoin (e : str).

Section Download.
Context (content_try soc_try : bytes -> option AnyChunk) (plain_join : (bytes -> result bytes str) -> bytes -> nat -> result bytes str).
Context `{Crypto} (bmt : Z -> bytes -> bytes) (choose : list bytes -> list nat -> nat).
Context `{Hex} (from_slice : bytes -> result (gmap str str) str) (lossy : bytes -> str).
Context (probe : nat -> bytes -> StoreAnswer) (completion : nat -> list Z -> list Z).

(** [fn parse_delivery]. *)
Definition parse_delivery (data address : bytes) : option AnyChunk :=
  let soc := match soc_try data with Some c => if bool_decide (ch_address c = address) then Some c else None | None => None end in
  match content_try data with Some c => if bool_decide (ch_address c = address) then Some c else soc | None => soc end.

(** [ChunkGet::get], of [fn fetch_chunk_inner]. *)
Definition get (wires : bytes -> result bytes str) (address : bytes) : result AnyChunk str :=
  let? wire := wires address in
  match parse_delivery wire address with
  | Some c => Ok c
  | None => Err (lit "chunk is not representable as a nectar chunk (parity chunk?)")
  end.
Definition get_data (wires : bytes -> result bytes str) (address : bytes) : result bytes str := let? c := get wires address in Ok (ch_data c).

(** The store with a chunk put in its cache. *)
Definition seeded (wires : bytes -> result bytes str) (address wire : bytes) (a : bytes) : result bytes str :=
  if bool_decide (a = address) then Ok wire else wires a.

(** [fn parse_root]. *)
Definition parse_root (hex_str : str) : result bytes ClientError :=
  let? bytes := map_err BadHex (hex_decode (trim_0x hex_str)) in
  if Nat.eqb (length bytes) 32 then Ok bytes else Err (BadHashLen (length bytes)).

(** [fn join_target], without the progress callback. *)
Definition join_target (fuel : nat) (wires : bytes -> result bytes str) (root : bytes) (concurrency : Z) : option (result bytes ClientError) :=
  let wires :=
    match get wires root with
    | Ok _ => wires
    | Err _ => match recover_root keccak256 bmt wires choose root DEFAULT_DOWNLOAD_LEVEL with Some wire => seeded wires root wire | None => wires end
    end in
  let in_flight := Z.to_nat (joiner_concurrency concurrency) in
  let plain := Some (map_err CeJoin (plain_join wires root in_flight)) in
  match get wires root with
  | Ok c =>
      if root_is_erasure_coded (to_le_bytes 8 (ch_span c))
      then match fetch_erasure_bytes_progress wires choose fuel root in_flight with Some r => Some (map_err CeErasure r) | None => None end
      else plain
  | Err _ => plain
  end.

(** The network as the probes of a feed see it; indices are 64-bit. *)
Definition feed_net (f : Feed) : Net :=
  mkNet (fun round i => if i <=? U64_MAX then probe round (update_address f i) else SNotFound) completion.

(** [struct ResolvedRoot] and [fn resolve_feed_root]; [cache] is the hints, when there
    are any to use. *)
Record ResolvedRoot := mkResolved { rr_root : bytes; feed_resolved : bool }.
Definition resolve_feed_root (wires : bytes -> result bytes str) (root : bytes) (cache : option FeedHints)
    : option FeedHints * option (result ResolvedRoot ClientError) :=
  match get_node from_slice (get_data wires) root with
  | Err e => (cache, Some (Err (CeManifest e)))
  | Ok node =>
      match extract_feed_meta node with
      | None => (cache, Some (Ok (mkResolved root false)))
      | Some (owner_hex, topic_hex, ty) =>
          match from_manifest_meta owner_hex topic_hex ty with
          | Err e => (cache, Some (Err (CeFeed e)))
          | Ok feed =>
              let feed_key := to_ascii_lowercase owner_hex ++ to_ascii_lowercase topic_hex in
              let after := default 0 (match cache with Some c => feed_hint c feed_key | None => None end) in
              match resolve_latest (feed_net feed) after with
              | None => (cache, None)
              | Some (Err e) => (cache, Some (Err (CeResolve e)))
              | Some (Ok (resolved, index)) =>
                  (match cache with Some c => Some (set_feed_hint c feed_key index) | None => None end, Some (Ok (mkResolved resolved true)))
              end
          end
      end
  end.

(** [fn fetch_manifest_path_cached_meta] and [fn fetch_bytes_cached_ex]. *)
Definition fetch_manifest_path_cached_meta (fuel : nat) (wires : bytes -> result bytes str) (root_hex path : str) (concurrency : Z) (cache : FeedHints)
    : FeedHints * option (result (bytes * option str * bool) ClientError) :=
  match parse_root root_hex with
  | Err e => (cache, Some (Err e))
  | Ok root =>
      let '(cache', resolved) := resolve_feed_root wires root (Some cache) in
      let cache := default cache cache' in
      match resolved with
      | None => (cache, None)
      | Some (Err e) => (cache, Some (Err e))
      | Some (Ok rr) =>
          match lookup_manifest_path from_slice (get_data wires) fuel (rr_root rr) path with
          | None => (cache, None)
          | Some (Err e) => (cache, Some (Err (CeManifest e)))
          | Some (Ok (target, content_type)) =>
              match join_target fuel wires target concurrency with
              | None => (cache, None)
              | Some (Err e) => (cache, Some (Err e))
              | Some (Ok bytes) => (cache, Some (Ok (bytes, content_type, feed_resolved rr)))
              end
          end
      end
  end.
Definition fetch_bytes_cached_ex (fuel : nat) (wires : bytes -> result bytes str) (root_hex : str) (concurrency : Z) : option (result bytes ClientError) :=
  match parse_root root_hex with Err e => Some (Err e) | Ok root => join_target fuel wires root concurrency end.

(** [fn list_manifest_ex]. *)
Definition list_manifest_ex (fuel : nat) (wires : bytes -> result bytes str) (root_hex : str) : option (result (list ManifestEntry) ClientError) :=
  match parse_root root_hex with
  | Err e => Some (Err e)
  | Ok root =>
      match (resolve_feed_root wires root None).2 with
      | None => None
      | Some (Err e) => Some (Err e)
      | Some (Ok rr) => match walk_manifest from_slice (get_data wires) lossy fuel (rr_root rr) [] with Some r => Some (map_err CeManifest r) | None => None end
      end
  end.
End Download.

(** ** What is published is served *)

Section Served.
Context (content_try soc_try : bytes -> option AnyChunk) (plain_join : (bytes -> result bytes str) -> bytes -> nat -> result bytes str).
Context `{Crypto} (bmt : Z -> bytes -> bytes) (choose : list bytes -> list nat -> nat).
Context `{Hex} (from_slice : bytes -> result (gmap str str) str).
Context (probe : nat -> bytes -> StoreAnswer) (completion : nat -> list Z -> list Z).
Context (l : Level) (Hl : l <> LNone) (Hbmt : forall s b, length (bmt s b) = HASH_SIZE /\ all_bytes (bmt s b)).

Abbreviation addr := (ChunkTree.addr bmt).
Abbreviation wire := (ChunkTree.wire bmt l).

(** Nectar reads a chunk as its address, its span and its data. *)
Definition parses (w : bytes) : Prop := content_try w = Some (mkAny (addr w) (from_le_bytes (take SPAN_SIZE w)) (drop SPAN_SIZE w)).

Lemma get_parses wires w : parses w -> wires (addr w) = Ok w -> exists c, get content_try soc_try wires (addr w) = Ok c /\ ch_span c = from_le_bytes (take SPAN_SIZE w).
Proof.
  intros Hp Hw. unfold get, parse_delivery. rewrite Hw. cbn [result_bind]. rewrite Hp. cbn [ch_address].
  rewrite bool_decide_true by done. by eexists.
Qed.

(** The span of an inner node says that it is erasure-coded. *)
Lemma node_root_coded ks : wf l (Node ks) -> root_is_erasure_coded (to_le_bytes 8 (from_le_bytes (take SPAN_SIZE (wire (Node ks))))) = true.
Proof.
  intros Hwf. change 8%nat with SPAN_SIZE. rewrite (le_span (wire (Node ks)) (wire_good bmt l Hbmt (Node ks) Hwf)). cbn [ChunkTree.wire]. unfold node_wire, node_span.
  rewrite bool_decide_false by done. destruct Hwf as (_ & Hs & _). destruct (span_level_roundtrip l (zsum (map size ks)) Hl) as [_ Hc]; [lia|].
  unfold root_is_erasure_coded. rewrite take_app_length'; [exact Hc|]. unfold encode_level. rewrite length_insert, to_le_bytes_length. done.
Qed.

(** A chunk put over a store keeps an object available when no sibling of the object
    has another chunk at that address. *)
Lemma available_seeded wires r w t : (forall w', w' ∈ chunks_of bmt l t -> addr w' = r -> w' = w) ->
  available bmt l wires t -> available bmt l (seeded wires r w) t.
Proof.
  induction t as [p|ks IH] using tree_nested; intros Hsep Hav; [done|]. destruct Hav as [(H1 & H2 & H3) Hks%foldr_and_Forall]. split.
  - assert (Hs : forall w', w' ∈ map wire ks ++ parity_wires l (map wire ks) -> seeded wires r w (addr w') = Ok w' \/ seeded wires r w (addr w') = wires (addr w')).
    { intros w' Hw'. unfold seeded. case_bool_decide as E; [|by right]. left. f_equal. symmetry. apply Hsep; [by apply sibling_chunks|done]. }
    split_and!; [|etrans; [exact H2|]|done].
    + intros w' Hw'. destruct (Hs w' Hw') as [->| ->]; [by left|by apply H1].
    + revert Hs. generalize (map wire ks ++ parity_wires l (map wire ks)) as xs. clear. induction xs as [|x xs IHx]; intros Hs; [done|]. cbn [List.filter].
      assert (IHx' := IHx ltac:(intros w' Hw'; apply Hs, elem_of_cons; by right)).
      destruct (Hs x ltac:(apply elem_of_cons; by left)) as [->| ->]; cbn [is_ok]; [destruct (is_ok (wires (addr x)))|destruct (is_ok (wires (addr x)))]; cbn [length]; lia.
  - apply foldr_and_Forall, Forall_forall. intros t Ht. rewrite Forall_forall in IH, Hks. apply IH; [done| |by apply Hks].
    intros w' Hw'. apply Hsep. by apply (kid_chunks bmt l ks t Ht).
Qed.

(** What a reader finds of the root: the chunk itself, or nothing but a replica. *)
Definition root_found (wires : bytes -> result bytes str) (t : tree) : Prop :=
  wires (addr (wire t)) = Ok (wire t) \/
  (exists e, wires (addr (wire t)) = Err e) /\ recover_root keccak256 bmt wires choose (addr (wire t)) DEFAULT_DOWNLOAD_LEVEL = Some (wire t) /\
  (forall w, w ∈ chunks_of bmt l t -> addr w = addr (wire t) -> w = wire t).

Lemma join_serves fuel wires t concurrency : wf l t -> 4096 < size t -> parses (wire t) -> available bmt l wires t -> root_found wires t -> (depth t <= fuel)%nat ->
  join_target content_try soc_try plain_join bmt choose fuel wires (addr (wire t)) concurrency = Some (Ok (ChunkTree.content t)).
Proof.
  intros Hwf Hsz Hp Hav Hroot Hd. destruct t as [p|ks]; [destruct Hwf; cbn in Hsz; unfold CHUNK_SIZE in *; lia|]. set (t := Node ks) in *.
  assert (Hgo : forall ws, ws (addr (wire t)) = Ok (wire t) -> available bmt l ws t ->
    match get content_try soc_try ws (addr (wire t)) with
    | Ok c => if root_is_erasure_coded (to_le_bytes 8 (ch_span c))
        then match fetch_erasure_bytes_progress ws choose fuel (addr (wire t)) (Z.to_nat (joiner_concurrency concurrency)) with Some r => Some (map_err CeErasure r) | None => None end
        else Some (map_err CeJoin (plain_join ws (addr (wire t)) (Z.to_nat (joiner_concurrency concurrency))))
    | Err _ => Some (map_err CeJoin (plain_join ws (addr (wire t)) (Z.to_nat (joiner_concurrency concurrency))))
    end = Some (Ok (ChunkTree.content t))).
  { intros ws Hw Ha. destruct (get_parses ws (wire t) Hp Hw) as (c & -> & Hc). rewrite Hc. unfold t. rewrite node_root_coded by done. fold t.
    by rewrite (join_tree bmt l Hbmt ws choose t fuel _ Hwf Ha Hw Hd). }
  unfold join_target. destruct Hroot as [Hw|([e He] & Hrec & Hsep)].
  - destruct (get_parses wires (wire t) Hp Hw) as (c & Hget & _). cbv zeta. rewrite Hget. by apply Hgo.
  - assert (Hget : get content_try soc_try wires (addr (wire t)) = Err e) by (unfold get; by rewrite He). cbv zeta. rewrite Hget, Hrec.
    apply (Hgo (seeded wires (addr (wire t)) (wire t))); [unfold seeded; rewrite bool_decide_true by done; done|]. by apply available_seeded.
Qed.

(** An uploaded object, the store that holds it, and the reference of a manifest. *)
Context (content_chunk : bytes -> result bytes str) (new_replica : Z -> bytes -> result (bytes * bytes) str).
Context (data : bytes) (so : SplitOutput) (wires : bytes -> result bytes str) (fuel : nat).
Context (Hdata : all_bytes data) (Hlen : 4096 < Z.of_nat (length data) < 2 ^ 56) (Hcap : (length (data_chunks data) <= max_shards l ^ 7)%nat).
Context (Hsplit : split_with_redundancy bmt keccak256 content_chunk new_replica data l = Ok so) (Hfuel : (7 <= fuel)%nat).
Context (Hparse : parses (wire (tree_of l data))) (Havail : available bmt l wires (tree_of l data)) (Hfound : root_found wires (tree_of l data)).

Abbreviation fetch_path := (fetch_manifest_path_cached_meta content_try soc_try plain_join bmt choose from_slice probe completion).
Abbreviation nodes := (get_data content_try soc_try wires).

Lemma split_root : root so = addr (wire (tree_of l data)).
Proof.
  destruct (split_tree bmt keccak256 content_chunk new_replica l Hbmt data Hdata Hcap) as (e & w & _ & _ & _ & _ & _ & E). rewrite E in Hsplit.
  destruct (dispersed_replicas _ _ _ _ _); cbn [map_err result_bind] in Hsplit; [|done]. destruct (add_replicas _ _ _ _). by injection Hsplit as <-.
Qed.

Lemma join_uploaded concurrency : join_target content_try soc_try plain_join bmt choose fuel wires (root so) concurrency = Some (Ok data).
Proof.
  destruct (tree_of_ok l data Hdata Hcap ltac:(lia)) as (Hc & Hwf & Hd). rewrite split_root.
  rewrite (join_serves fuel wires (tree_of l data) concurrency); try done; [by rewrite Hc| |lia]. rewrite size_content, Hc. lia.
Qed.


End Served.

(** ** A site published and read back *)

Module DownloadWitness.
Definition id_crypto : Crypto := {|
  keccak256 := fun b => b; alloy_sig_parse := fun _ => Ok tt; recover_point := fun d _ _ => Ok d;
  hash_challenge := fun c _ => []; hash_cheque := fun c _ => [] |}.
Definition parse (w : bytes) : option AnyChunk := Some (mkAny (ChunkTree.addr span_hash w) (from_le_bytes (take SPAN_SIZE w)) (drop SPAN_SIZE w)).
Definition no_soc (w : bytes) : option AnyChunk := None.
Definition no_plain (s : bytes -> result bytes str) (a : bytes) (n : nat) : result bytes str := Err [].
Definition first (addrs : list bytes) (inflight : list nat) : nat := 0%nat.
Abbreviation object := (tree_of Medium sample).
Definition object_root : bytes := ChunkTree.addr span_hash (ChunkTree.wire span_hash Medium object).

(** The manifest: a page under "a", and a feed's manifest; chunks told apart by span. *)
Definition chunk (span : Z) (d : bytes) : bytes := to_le_bytes 8 span ++ d.
Definition leaf_chunk : bytes := chunk 100001 (leaf_node object_root).
Definition leaf_addr : bytes := ChunkTree.addr span_hash leaf_chunk.
Definition site_chunk : bytes := chunk 100000 (encode_node sample_key VERSION_HASH_V02 None [fork_to (lit "a") leaf_addr]).
Definition site_addr : bytes := ChunkTree.addr span_hash site_chunk.
Definition owner : str := replicate 20 1.
Definition topic : str := replicate 32 2.
Definition feed_meta (raw : bytes) : result (gmap str str) str := Ok {[FEED_OWNER_KEY := owner; FEED_TOPIC_KEY := topic]}.
Definition feed_chunk : bytes :=
  chunk 100002 (encode_node sample_key VERSION_HASH_V02 None [mkWired 47 (mkFork 20 (lit "/") leaf_addr {[FEED_OWNER_KEY := owner; FEED_TOPIC_KEY := topic]}) [125]]).
Definition feed_addr : bytes := ChunkTree.addr span_hash feed_chunk.

Definition all_wires : list bytes := chunks_of span_hash Medium object ++ [leaf_chunk; site_chunk; feed_chunk].
Definition wires : bytes -> result bytes str :=
  store_of (map (fun w => (ChunkTree.addr span_hash w, w)) all_wires) (lose [4097; 905]).

(** The feed has one update, the site. *)
Definition probe (rd : nat) (a : bytes) : StoreAnswer :=
  if from_be_bytes (take 8 (drop 32 a)) =? 0 then SOk (replicate 8 0 ++ site_addr) else SNotFound.

Lemma object_available : available span_hash Medium wires object.
Proof.
  apply (store_available span_hash first_byte hash_chunk Medium).
  - assert (E : forallb (fun w => bool_decide (find_chunk (ChunkTree.addr span_hash w) (map (fun w => (ChunkTree.addr span_hash w, w)) all_wires) = Some w))
      (chunks_of span_hash Medium object) = true) by (vm_compute; reflexivity).
    intros w Hw. rewrite forallb_forall in E. apply list_elem_of_In in Hw. by apply E, bool_decide_eq_true in Hw.
  - assert (E : forallb (fun w => negb (bool_decide (ChunkTree.addr span_hash w = replicate HASH_SIZE 0))) (chunks_of span_hash Medium object) = true) by (vm_compute; reflexivity).
    intros w Hw Hz. rewrite forallb_forall in E. apply list_elem_of_In, E in Hw. by rewrite bool_decide_true in Hw.
  - cbn [tolerable]. vm_compute. lia.
Qed.

Definition wrap (i : Z) (w : bytes) : result (bytes * bytes) str :=
  Ok (<[0%nat := i]> (ChunkTree.addr span_hash w) ++ REPLICAS_OWNER, replicate SOC_PREFIX 0 ++ w).
Abbreviation split_sample := (split_with_redundancy span_hash (@keccak256 id_crypto) hash_chunk wrap sample Medium).

Lemma split_sample_ok : exists so, split_sample = Ok so /\ root so = object_root.
Proof.
  assert (E : match split_sample with Ok so => bool_decide (root so = object_root) | Err _ => false end = true) by (vm_compute; reflexivity).
  destruct split_sample as [so|]; [|done]. exists so. split; [done|by apply bool_decide_eq_true in E].
Qed.

Lemma sample_long : 4096 < Z.of_nat (length sample) < 2 ^ 56.
Proof. split; apply Z.ltb_lt; vm_compute; reflexivity. Qed.

Lemma object_found : root_found (H := id_crypto) span_hash first Medium wires object.
Proof. left. vm_compute. reflexivity. Qed.

Lemma object_parses : parses parse span_hash (ChunkTree.wire span_hash Medium object).
Proof. reflexivity. Qed.


End DownloadWitness.
